(* ===== verification/_CoqProject ===== *)
-Q . S2P
Prelude.v
Errors.v
Cursor.v
Binio.v
Protocol.v
ShipLog.v
Zlib.v
Inflate.v
BlockLog.v
Catalog.v
Fetch.v
Pages.v
Store.v
Startup.v
Frames.v
Prefetch.v
Spring.v
Session.v
Scan.v
TraceWalk.v
Framing.v
Disk.v
ShipPayload.v
RepairLog.v
ReadAhead.v
TailWalk.v
WalkFacts.v
Recover.v
RecoverFacts.v
Target.v
TargetFacts.v
DamageScan.v
Rebuild.v
RebuildFacts.v
Apply.v
ApplyFacts.v
Segment.v
AtomicKeys.v
AtomicRecords.v
Postings.v
Live.v
LiveFacts.v
LiveQueries.v
Builder.v
BuilderFacts.v
CompactFacts.v
LiveStore.v
LiveServer.v
LiveServerFacts.v
