(* ===== verification/Prelude.v ===== *)
(** * hyperion-tools: the SHiP archive core and the AtomicAssets store

    hyperion-tools reads the logs an Antelope node leaves on disk and serves or converts them. This
    development models its core, the path of a block from the log files to a client of the
    state-history protocol (SHiP) and back into the values a client extracts, and proves it
    correct; and, of its other service, the live store of AtomicAssets. The code is Rust, in
    [crates/core/src], [crates/ship-archive/src], [crates/log-repair/src] and [crates/wseg-build/src].

    ** The program and the files here

    A state-history log ([shiplog.rs]) is a file of entries and an index of their offsets; a block log
    ([blocklog.rs]) is the same for signed blocks. A catalog ([catalog.rs]) joins the files of one
    log kind into one range. The server ([ship-archive]) opens the catalogs as a [Store], and each
    client connection is a session with a reader, a writer and builds running ahead of the writer,
    under a memory budget all sessions share. The client ([delta.rs], [ship.rs]) asks for ranges and
    walks the results; [trace.rs] walks the traces inside them. [log-repair] recovers logs that a
    crash has torn: it walks the entries without trusting the index, compares them with trusted block
    sources, and writes a new log and index. It also repairs logs on failing media in place: it finds the
    records that cannot be read, rebuilds the entries they meet from trusted sources, and writes the
    approved bytes into those records and nowhere else.

    The AtomicAssets store ([wseg-build]) answers queries about NFTs: a frozen segment of tables, and an
    overlay over it that takes the deltas of the chain. A builder writes segments; compaction folds the
    overlay into a new segment while the old one serves, and the server swaps the two.

    - [Prelude.v]: bytes, machine integers, results with panics, the state monad, loops, automation.
    - [Errors.v]: the errors the code reports, and [Source].
    - [Cursor.v]: byte cursors and how parsers on them compose.
    - [Binio.v]: [binio.rs]. [FcReader], [PosFile] over a [world] of inodes, [FileCache]. The class
      [FileSource] is what the readers need of an open file.
    - [Protocol.v]: [protocol.rs]. Requests, statuses, the base of a block result.
    - [ShipLog.v]: the readers of [shiplog.rs] and the writer [LogBuilder] ([testkit/ship.rs]).
    - [Zlib.v], [Inflate.v]: the decoder as the class [Flate] with [FlateLaws], the writer's stored
      streams, and [InflateStream], [read_inline], [verify_count] of [shiplog.rs].
    - [BlockLog.v]: [blocklog.rs].
    - [Catalog.v]: [catalog.rs]. The trait [Ranged] is a class with its two instances.
    - [Fetch.v], [Prefetch.v]: [fetch.rs]. Jobs, packages, [MemoryBudget] at the grain of its atomic
      operations; the [Prefetcher].
    - [Pages.v], [Store.v], [Startup.v]: [store.rs]. The index pages of a session, building the result
      of a block, and opening the store.
    - [Frames.v]: [frames.rs]. Writing a result as WebSocket frames.
    - [Spring.v], [Session.v]: [session.rs]. The flow control of a connection, and the connection as
      a machine whose actions are the stretches of code between awaits.
    - [Scan.v]: [delta.rs] and [ship.rs]. The scanning client.
    - [TraceWalk.v]: [trace.rs]. The hand-walk of transaction traces.
    - [Framing.v]: [framing.rs] and parts of [format.rs] of [crates/log-repair/src]. Finding the
      entries of a log whose index is gone.
    - [Disk.v]: [Disk::read] of [io.rs] over a system that may transfer less than asked, interrupt or
      fail, and the errors of [log-repair].
    - [ShipPayload.v]: the payload decoder and the encoders of [format.rs] and [codec.rs]. The decoder
      keeps one zlib state per thread and resets it; that is the state of its monad, and [FlateReset]
      with [ResetLaws] (in [Zlib.v]) is what it needs of the library.
    - [RepairLog.v]: [Log] over a [Disk], block headers and the P2PBLK01 containers of [format.rs].
    - [ReadAhead.v]: the window of [tail.rs] that finds the entry at an offset, and the definition of
      that entry on the whole file.
    - [TailWalk.v], [WalkFacts.v]: [walk] of [tail.rs] with [RecentCanonical], and [Loaded::block] of
      [repair.rs]; what a walk establishes.
    - [Recover.v], [RecoverFacts.v]: [load_with] of [repair.rs], and donors, restoration, [Output] and
      [run_saving] of [tail.rs]; what a recovery establishes.
    - [Target.v], [TargetFacts.v], [DamageScan.v]: [target.rs]. Extents of unreadable records, the regions
      of entries they meet, and the scan that finds them.
    - [Rebuild.v], [RebuildFacts.v]: [rebuild] of [repair.rs]. The entries of a region from the sources,
      as they are or encoded again.
    - [Apply.v], [ApplyFacts.v]: [extent_state], [build], [read_plan] and [apply] of [repair.rs], and
      [write_extent] of [io.rs]. The log's bytes are the state of the monad; the system's answers change
      with time.
    - [Segment.v]: [write_segment] of [wseg.rs], and [BaseSeg] of [aa_live.rs], which reads what it wrote.
    - [AtomicKeys.v], [AtomicRecords.v]: [name.rs], [aa_tables.rs] and [aa_binfmt.rs]. Names, hashed keys,
      the records of assets, templates, collections, schemas and the configuration.
    - [Postings.v]: the posting lists of [aa_binfmt.rs]. The bitmaps are the class [Treemap].
    - [Live.v], [LiveFacts.v], [LiveQueries.v]: [Overlay] and [LiveSeg] of [aa_live.rs]; what applying a
      delta does to the overlay, and what every query answers. The record [base_ok] is the interface
      between the live store and the segment under it.
    - [Builder.v], [BuilderFacts.v], [CompactFacts.v]: the raw interface of [aa_builder.rs] with [finish],
      and [compact_with] of [aa_live.rs]; that what they write meets [base_ok].
    - [LiveStore.v]: histories of blocks, rollback and compaction.
    - [LiveServer.v], [LiveServerFacts.v]: [apply_swap_safe] and [compact_and_swap] of
      [bin/aa_server.rs], as a machine of two threads.

    ** How the code is modelled

    A fallible function returns [res]: [Ok], [Err] with the error, or [Panic] where Rust would
    panic. A method with [&mut self] is a function in the monad [M], which keeps the state on every
    outcome. Integers are [Z]; an operation that wraps, saturates or is checked in the source is
    [add32], [sat_add64], [checked_add64] and so on, on a 64-bit target in the release profile. Bytes
    are lists of [byte]. What is shared between threads is split where the locks and atomics split it:
    [get_hit] and [get_insert] of the file cache, [slot_hit] and [slot_fill] of the pages, the steps
    of the budget's compare-and-swap loop, the stages of a session, the turns of applier and compactor; the theorems about them
    quantify over every interleaving.

    A buffer whose memory is accounted for is a [vec] ([Inflate.v]): its bytes, its capacity as [resize],
    [reserve_exact] and [shrink_to_fit] of the standard library leave it, and the largest it has been. Elsewhere a
    [Vec] is its elements, and an allocation that aborts the process, such as a [with_capacity] of a huge page in
    [page_after], is not modelled.

    Code outside the repository is a parameter: the zlib decoder ([Flate]), sha256, the WebSocket
    ([accept], what the socket takes), the disk under a payload that is streamed ([io], which may fail any of its
    reads; what is read before a message is begun comes from the [world], whose errors do not change while
    a session runs), the allocator ([can_reserve], [capacity]), name decoding of the
    ABI library, for a recovery the operating system ([d_sys] of a [Disk], the record [System]), and for a repair the
    system over time (the record [Media]), the JSON of a target and of a plan, and the deflate of zlib; for
    the AtomicAssets store the bitmaps of the [roaring] crate ([Treemap] with [TreemapLaws]) and the order in
    which a [HashMap] is walked ([HashOrder] with [HashOrderLaws]).
    What is assumed of them is stated in the theorems, and the witnesses instantiate it: the
    decoder of [Zlib.v] for stored streams is a [Flate] that meets its laws.

    ** What the theorems show

    - The server. [session_refines_spring]: under every interleaving a client receives the answers to
      a prefix of what the abstract [Spring.run] makes due, in order and whole. [session_completes]:
      from every reachable state the server's own steps deliver all of it, if the socket, the disk and the
      blocks let them; no wake-up is lost. [session_ends_for_cause] says why a session ends and what it has
      written by then: whole messages, or one whose final frame is missing after them.
      [request_accounting], [window_drains], [have_positions_exact], [send_result_message],
      [budget_never_exceeded].
    - What is served. [build_consistent], [payload_exact], [build_never_panics]; [held_within_bound]: the memory
      of a result, by the capacities of its buffers and with the scratch of a read, is within its reservation;
      [open_files_serves], [seams_agree], [first_prev_linked] for opening.
    - The logs. [read_header_exact], [open_exact] and [log_roundtrip] tie the reader to the writer;
      [read_inline_exact], [next_chunk_contract] and [payload_roundtrip] tie the chunked, bounded
      inflation to the format; [block_reads_agree], [read_genesis_is_packed_state] are their
      counterparts for block logs; [shiplog_never_panics] and [blocklog_never_panics] hold for
      arbitrary files.
    - Catalogs. [assemble_exact], [ship_catalog_lookup], [retained_names], [large_entries_exact];
      [cache_interleavings] for the files kept open.
    - The protocol and the client. [request_roundtrip], [decode_request_total]; [scan_reads_answers],
      [scan_completes] join the client to the server's specification: run against it, acking as it reads, the
      client has the range after a bounded number of steps; [chunks_partition],
      [account_abis_found]; [skip_follows_parse], [parse_block_total], [parse_block_roundtrip],
      [name_roundtrip] for the walk of traces.
    - Recovery. [recover_exact]: a run that reports success has written one linked chain, the accepted
      prefix and the restored tail, with an exact index, and has read it back; it never panics, under
      any failure of the system and any change of its inputs. [walk_exact] says exactly what a walk accepts,
      leaves out, counts and hashes, and why it stopped; [recent_bounded] bounds what it remembers.
      Below them, [read_ahead_exact]: the window gives what parsing the whole file gives;
      [signed_block_delimited]: a framed block is framed the same whatever follows it, and every cut of
      it is [Incomplete]; [decode_ship_exact] and [encode_ship_roundtrip] for payloads,
      [log_body_exact] and [container_exact] for the sources; [signed_block_header] and
      [preamble_agrees] tie the framing to the server's decoders; [orphans_exact].
    - Repair in place. [apply_safe]: whatever the media, the system and the plan do, a byte of the log
      changes only if the record that holds it could not be read, and only to the approved byte; after
      a success every extent holds its replacement and the entries around it are whole and linked.
      [rebuild_region_exact] says what the rebuilt bytes make of the entries, [target_exact] which
      damage is accepted, [scan_exact] and [extents_exact] which records a scan finds and how they are
      joined.
    - The AtomicAssets store. [live_refines]: after any history every query answers what a plain map of
      assets says to which the deltas were applied one by one. [rollback_exact]: a rollback leaves the
      store of the blocks up to its own. [compact_preserves]: the segment a compaction writes opens and
      answers every query as before, and can carry the next history. [swap_safe]: with the applier and
      the compactor interleaved in any way, the published store answers for exactly the blocks committed,
      and neither thread panics. Both are about assets that a base can hold ([assets_ok] of [BuilderFacts.v]):
      the facet key of each is the one its stored attributes give, its values are encodable, its postings and
      records fit. The code does not enforce it, and the synthetic workload of [aa_server.rs] does not meet it;
      [facet_lost] shows that compaction then changes answers. Below them, [segment_roundtrip], [records_roundtrip] and
      [posting_exact] for the file, its records and its postings.

    Three lemmas record inputs the code mishandles: [blocklog_last_block_overflows],
    [scan_chunks_wrap] and [signed_block_last_number]. For the AtomicAssets store [long_value_lost],
    [decode_config_panics], [decode_asset_any_version], [page_misses], [mint_renumbered] and [facet_lost] record
    where the code parts from its comments or its callers.

    ** Bounds and fuel

    A [loop] or [while] runs under [loop_bound], [2 ^ 66] iterations; running out is a [Panic], so the
    theorems that exclude panics show that no loop reaches it (each iteration consumes input or
    produces output, both below [2 ^ 64]). Recursion on data uses fuel computed from that data: the
    chunks of a buffer ([feed_chunks_loop]), the chunks of a stream ([stream_loop]), the slots of a log
    ([scan_pages]), the files of a cache ([evict_loop]), the ten groups of a varuint, and for
    [skip_tx_v0] the length of the payload, of which every level consumes at least 37 bytes; the length
    of the queue for [forget_while], the bytes left for [orphans_loop]. Lemmas next to them show it is
    enough. The loops of a recovery run under [loop_bound] too: a payload decoder consumes or produces,
    a window at least doubles up to 256 MiB, a walk advances by a whole entry, a digest by 16 MiB. So do those of
    a repair: the search for an entry halves its range, the loops over records and chunks advance by one. In the
    AtomicAssets store the binary searches halve their range, an intersection advances in one of its lists, and
    a chunk of [page_after] moves its cursor down; UTF-8 is decoded with the length of the bytes as fuel, of which
    every character consumes at least one.

    ** Not modelled

    The directory walk of [catalog::discover] (its result is an input), the WebSocket upgrade, timers
    and counters of a session, log output and error texts. The native stack: the recursion of [trace.rs] over
    nested failed transactions is as deep as the data. Of the client, the handshake and the Wire
    variant, which are calls into an ABI codec outside the repository. Of [log-repair], opening and
    pinning paths, locks, stamps and journals (they succeed or fail as the system says), the JSON and text
    of reports and plans, [--save-inspection], and [trim.rs], replay and verification: the first is work
    with temporary files, clones and renames around the walk that is modelled, the others drive a node,
    sockets and block devices. Of the AtomicAssets store, the system calls that write a
    segment's file (a compaction returns its bytes), the builder's interface that takes BSON documents of a
    database, the sampling, statistics and heap accounting that measurements use, and the synthetic workload and
    command line of the server. The chain API, the HTTP and command-line shells, the offline check, the
    segments of token balances, [archive-server] and the converters are other programs over these
    readers, around databases and an ABI codec outside the repository, and are not part of the
    development. *)

From Stdlib Require Export ZArith Lia.
From Stdlib Require Export Strings.Byte.
From stdpp Require Export base list numbers strings gmap option.

#[export] Set Warnings "-clear-no-such-hyp".
#[global] Open Scope Z_scope.

(** ** Bytes and machine integers *)

(** A [Vec<u8>] or [&[u8]]. *)
Abbreviation bytes := (list byte).

#[export] Instance byte_eq_dec : EqDecision byte := Byte.byte_eq_dec.

(** The value of a [u8]. *)
Definition b2z (b : byte) : Z := Z.of_N (Byte.to_N b).

(** [z as u8]: truncation to eight bits. *)
Definition z2b (z : Z) : byte :=
  match Byte.of_N (Z.to_N (z mod 256)) with
  | Some b => b
  | None => x00
  end.

(** [b.len()] as a [u64]/[usize] (the model is of a 64-bit target). *)
Definition blen {A} (b : list A) : Z := Z.of_nat (length b).

Definition U32 : Z := 2 ^ 32.
Definition U64 : Z := 2 ^ 64.
Definition u32_max : Z := U32 - 1.
Definition u64_max : Z := U64 - 1.

Definition is_u32 (z : Z) : Prop := 0 <= z < U32.
Definition is_u64 (z : Z) : Prop := 0 <= z < U64.

#[export] Instance is_u32_dec z : Decision (is_u32 z).
Proof. unfold is_u32. apply _. Defined.
#[export] Instance is_u64_dec z : Decision (is_u64 z).
Proof. unfold is_u64. apply _. Defined.

(** Release-profile arithmetic: [+] and [-] wrap. *)
Definition wrap32 (z : Z) : Z := z mod U32.
Definition wrap64 (z : Z) : Z := z mod U64.
Definition add32 (a b : Z) : Z := wrap32 (a + b).
Definition add64 (a b : Z) : Z := wrap64 (a + b).
Definition sub64 (a b : Z) : Z := wrap64 (a - b).
Definition mul64 (a b : Z) : Z := wrap64 (a * b).

Definition checked_add32 (a b : Z) : option Z :=
  if a + b <? U32 then Some (a + b) else None.
Definition checked_add64 (a b : Z) : option Z :=
  if a + b <? U64 then Some (a + b) else None.
Definition checked_sub (a b : Z) : option Z :=
  if b <=? a then Some (a - b) else None.
Definition sat_add64 (a b : Z) : Z := Z.min (a + b) u64_max.
Definition sat_sub (a b : Z) : Z := Z.max 0 (a - b).
Definition sat_mul64 (a b : Z) : Z := Z.min (a * b) u64_max.

(** [b.get(off..off + n)]: [None] unless the whole range is inside [b]. *)
Definition slice (b : bytes) (off n : Z) : option bytes :=
  if (0 <=? off) && (0 <=? n) && (off + n <=? blen b)
  then Some (take (Z.to_nat n) (drop (Z.to_nat off) b))
  else None.

(** [b[i]] as an option. *)
Definition byte_at (b : bytes) (i : Z) : option byte :=
  if 0 <=? i then b !! Z.to_nat i else None.

(** ** Little and big endian integers *)

Fixpoint le_of (b : bytes) : Z :=
  match b with
  | [] => 0
  | x :: t => b2z x + 256 * le_of t
  end.

Fixpoint le_bytes (n : nat) (z : Z) : bytes :=
  match n with
  | O => []
  | S n => z2b z :: le_bytes n (z / 256)
  end.

Definition be_of (b : bytes) : Z := le_of (reverse b).
Definition be_bytes (n : nat) (z : Z) : bytes := reverse (le_bytes n z).

(** ** Results

    A fallible function returns [Ok], an error ([Err], the [anyhow::Error] of the code), or
    [Panic] where the code would panic: a slice or index out of range, a failed [expect]. The
    error type is a parameter here; [Errors.v] gives the one the components use. *)
Inductive res (E A : Type) : Type :=
| Ok (a : A)
| Err (e : E)
| Panic.
Arguments Ok {E A} a.
Arguments Err {E A} e.
Arguments Panic {E A}.

Definition rbind {E A B} (m : res E A) (k : A -> res E B) : res E B :=
  match m with
  | Ok a => k a
  | Err e => Err e
  | Panic => Panic
  end.

Definition ensure {E} (b : bool) (e : E) : res E () := if b then Ok () else Err e.

(** [.context(..)?] or [ok_or_else(..)?] on an option. *)
Definition or_err {E A} (o : option A) (e : E) : res E A :=
  match o with Some a => Ok a | None => Err e end.

(** An index or slice expression, or [expect]: a missing value panics. *)
Definition or_panic {E A} (o : option A) : res E A :=
  match o with Some a => Ok a | None => Panic end.

Definition is_ok {E A} (m : res E A) : bool := match m with Ok _ => true | _ => false end.
Definition is_err {E A} (m : res E A) : bool := match m with Err _ => true | _ => false end.
Definition is_panic {E A} (m : res E A) : bool := match m with Panic => true | _ => false end.
Definition ok_of {E A} (m : res E A) : option A := match m with Ok a => Some a | _ => None end.

(** A mutable reader or store: the state is kept on every outcome, so that what an error leaves
    behind can be stated. *)
Definition M (E S A : Type) : Type := S -> res E A * S.

Definition sret {E S A} (a : A) : M E S A := fun s => (Ok a, s).
Definition sfail {E S A} (e : E) : M E S A := fun s => (Err e, s).
Definition spanic {E S A} : M E S A := fun s => (Panic, s).
Definition slift {E S A} (r : res E A) : M E S A := fun s => (r, s).
Definition sget {E S} : M E S S := fun s => (Ok s, s).

Definition sbind {E S A B} (m : M E S A) (k : A -> M E S B) : M E S B :=
  fun s => match m s with
           | (Ok a, s') => k a s'
           | (Err e, s') => (Err e, s')
           | (Panic, s') => (Panic, s')
           end.

Definition sensure {E S} (b : bool) (e : E) : M E S () := if b then sret () else sfail e.

Declare Scope rust_scope.
Delimit Scope rust_scope with rust.
#[global] Open Scope rust_scope.

Notation "'let?' x ':=' e 'in' k" := (rbind e (fun x => k))
  (at level 10, x pattern, e at level 200, k at level 200,
   format "'[v' 'let?'  x  ':='  e  'in' '/' k ']'") : rust_scope.
Notation "'let!' x ':=' m 'in' k" := (sbind m (fun x => k))
  (at level 10, x pattern, m at level 200, k at level 200,
   format "'[v' 'let!'  x  ':='  m  'in' '/' k ']'") : rust_scope.
Notation "'do?' e ';;' k" := (rbind e (fun _ => k))
  (at level 10, e at level 99, k at level 200,
   format "'[v' 'do?'  e  ';;' '/' k ']'") : rust_scope.
Notation "'do!' m ';;' k" := (sbind m (fun _ => k))
  (at level 10, m at level 99, k at level 200,
   format "'[v' 'do!'  m  ';;' '/' k ']'") : rust_scope.

(** ** Loops

    A loop body either continues with a new state or leaves the loop. [iterP p f] runs at most
    [p] iterations and recurses on the binary representation of [p], so a bound of [2 ^ 64]
    iterations still evaluates in time proportional to the iterations actually run. *)
Inductive ctl (S R : Type) : Type :=
| Cont (s : S)
| Break (r : R).
Arguments Cont {S R} s.
Arguments Break {S R} r.

Definition cbind {S R} (c : ctl S R) (k : S -> ctl S R) : ctl S R :=
  match c with Cont s => k s | Break r => Break r end.

Fixpoint iterP {S R} (p : positive) (f : S -> ctl S R) (s : S) : ctl S R :=
  match p with
  | xH => f s
  | xO p => cbind (iterP p f s) (iterP p f)
  | xI p => cbind (f s) (fun s => cbind (iterP p f s) (iterP p f))
  end.

Fixpoint iterN {S R} (n : nat) (f : S -> ctl S R) (s : S) : ctl S R :=
  match n with
  | O => Cont s
  | Datatypes.S n => cbind (f s) (iterN n f)
  end.

(** [for _ in 0..n { body }], the body leaving the loop on an error. *)
Definition for_step {E S A} (body : A -> M E S A) (st : A * S) : ctl (A * S) (res E A * S) :=
  match body st.1 st.2 with
  | (Ok a, s) => Cont (a, s)
  | (Err e, s) => Break (Err e, s)
  | (Panic, s) => Break (Panic, s)
  end.

Definition for_count {E S A} (n : Z) (body : A -> M E S A) (a : A) : M E S A :=
  fun s => match n with
           | Zpos p => match iterP p (for_step body) (a, s) with
                       | Cont (a, s) => (Ok a, s)
                       | Break r => r
                       end
           | _ => (Ok a, s)
           end.

(** [while] with the given bound on its iterations; running out is [None]. *)
Definition loop_bound : positive := 2 ^ 66.
Definition while_ {S R} (f : S -> ctl S R) (s : S) : option R :=
  match iterP loop_bound f s with Cont _ => None | Break r => Some r end.

(** [loop { .. }] over a mutable state: the body continues, leaves with a value, or leaves with an
    error. A loop that reached the bound is a [Panic] of the model, so that absence of panics
    includes termination. *)
Definition loop_step {E S A B} (body : A -> M E S (ctl A B)) (st : A * S)
    : ctl (A * S) (res E B * S) :=
  match body st.1 st.2 with
  | (Ok (Cont a), s) => Cont (a, s)
  | (Ok (Break b), s) => Break (Ok b, s)
  | (Err e, s) => Break (Err e, s)
  | (Panic, s) => Break (Panic, s)
  end.

Definition loop_ {E S A B} (body : A -> M E S (ctl A B)) (a : A) : M E S B :=
  fun s => match while_ (loop_step body) (a, s) with
           | Some r => r
           | None => (Panic, s)
           end.

(** ** Automation *)

Create HintDb rust.
Create Rewrite HintDb blen.

(** For values that [injection] would compute. *)
Lemma Ok_inj {E A} (a b : A) : Ok (E := E) a = Ok b -> a = b.
Proof. congruence. Qed.

Lemma rbind_Ok {E A B} (m : res E A) (k : A -> res E B) b :
  rbind m k = Ok b <-> exists a, m = Ok a /\ k a = Ok b.
Proof. destruct m; simpl; naive_solver. Qed.

Lemma sbind_Ok {E S A B} (m : M E S A) (k : A -> M E S B) s b s' :
  sbind m k s = (Ok b, s') <-> exists a s1, m s = (Ok a, s1) /\ k a s1 = (Ok b, s').
Proof.
  unfold sbind. destruct (m s) as [[a|e|] s1]; split.
  all: intros H; try (destruct H as (? & ? & ? & ?)); naive_solver.
Qed.

Lemma sbind_Ok_eq {E S A B} (m : M E S A) (k : A -> M E S B) s a s1 :
  m s = (Ok a, s1) -> sbind m k s = k a s1.
Proof. unfold sbind. by intros ->. Qed.

Lemma ensure_Ok {E} b (e : E) u : ensure b e = Ok u <-> b = true.
Proof. destruct b, u; simpl; naive_solver. Qed.

Lemma sensure_Ok {E S} b (e : E) (s : S) u s' :
  sensure b e s = (Ok u, s') <-> b = true /\ s' = s.
Proof. destruct b, u; simpl; unfold sret, sfail; naive_solver. Qed.

Lemma or_err_Ok {E A} (o : option A) (e : E) a : or_err o e = Ok a <-> o = Some a.
Proof. destruct o; simpl; naive_solver. Qed.

Lemma or_panic_Ok {E A} (o : option A) a : or_panic (E := E) o = Ok a <-> o = Some a.
Proof. destruct o; simpl; naive_solver. Qed.

(** ** Absence of panics

    [no_panic] composes along binds; the values a step can return may be used for the next. *)
Definition no_panic {E A} (m : res E A) : Prop := is_panic m = false.

Lemma no_panic_Ok {E A} (a : A) : no_panic (Ok (E := E) a).
Proof. done. Qed.

Lemma no_panic_Err {E A} (e : E) : no_panic (Err (A := A) e).
Proof. done. Qed.

Lemma no_panic_bind {E A B} (m : res E A) (k : A -> res E B) :
  no_panic m -> (forall a, m = Ok a -> no_panic (k a)) -> no_panic (rbind m k).
Proof. destruct m; simpl; auto. Qed.

Lemma no_panic_ensure {E} b (e : E) : no_panic (ensure b e).
Proof. by destruct b. Qed.

Lemma no_panic_or_err {E A} (o : option A) (e : E) : no_panic (or_err o e).
Proof. by destruct o. Qed.

Create HintDb no_panic.
#[export] Hint Resolve no_panic_Ok no_panic_Err no_panic_ensure no_panic_or_err : no_panic.

(** Applies the composition lemmas; the steps the [no_panic] database does not know are left. *)
Ltac solve_no_panic :=
  repeat first
    [ solve [auto with no_panic]
    | match goal with
      | |- no_panic (rbind _ _) => apply no_panic_bind; [|intros ? ?]
      | |- no_panic (if ?b then _ else _) => destruct b eqn:?
      | |- no_panic (match ?x with _ => _ end) => destruct x eqn:?
      end ].

(** Boolean tests as facts. *)
Ltac bool_inv1 :=
  match goal with
  | H : (_ && _)%bool = true |- _ => apply andb_true_iff in H; destruct H
  | H : (_ || _)%bool = false |- _ => apply orb_false_iff in H; destruct H
  | H : negb _ = true |- _ => apply negb_true_iff in H
  | H : negb _ = false |- _ => apply negb_false_iff in H
  | H : (_ <? _) = true |- _ => apply Z.ltb_lt in H
  | H : (_ <=? _) = true |- _ => apply Z.leb_le in H
  | H : (_ =? _) = true |- _ => apply Z.eqb_eq in H
  | H : (_ <? _) = false |- _ => apply Z.ltb_ge in H
  | H : (_ <=? _) = false |- _ => apply Z.leb_gt in H
  | H : (_ =? _) = false |- _ => apply Z.eqb_neq in H
  | H : bool_decide _ = true |- _ => apply bool_decide_eq_true in H
  | H : bool_decide _ = false |- _ => apply bool_decide_eq_false in H
  end.
Ltac bools := repeat bool_inv1.

(** Inverts a hypothesis [_ = Ok _] through binds, ensures and options, step by step. *)
Ltac res_inv1 :=
  match goal with
  | H : rbind _ _ = Ok _ |- _ => apply rbind_Ok in H; destruct H as (? & ? & H)
  | H : sbind _ _ _ = (Ok _, _) |- _ =>
      apply sbind_Ok in H; destruct H as (? & ? & ? & H)
  | H : ensure _ _ = Ok _ |- _ => apply ensure_Ok in H
  | H : sensure _ _ _ = (Ok _, _) |- _ => apply sensure_Ok in H; destruct H as [H ->]
  | H : or_err _ _ = Ok _ |- _ => apply or_err_Ok in H
  | H : or_panic _ = Ok _ |- _ => apply or_panic_Ok in H
  | H : Ok _ = Ok _ |- _ => injection H as H
  | H : Err _ = Ok _ |- _ => discriminate H
  | H : Panic = Ok _ |- _ => discriminate H
  | H : sret _ _ = (Ok _, _) |- _ => injection H as H
  | H : sfail _ _ = (Ok _, _) |- _ => discriminate H
  | H : slift _ _ = (Ok _, _) |- _ => unfold slift in H; injection H as H
  | _ => bool_inv1
  end.
Ltac res_inv := repeat res_inv1.

(** Names the first step of a successful sequence: its value [x] and why it succeeded. *)
Tactic Notation "bind" hyp(H) "as" ident(x) ident(Hx) :=
  apply rbind_Ok in H; destruct H as (x & Hx & H).
Tactic Notation "guard" hyp(H) "as" ident(Hx) :=
  apply rbind_Ok in H; destruct H as (? & Hx & H); apply ensure_Ok in Hx.

(** Case analysis on the boolean conditions of the goal, as facts about [Z]. *)
Ltac case_bools :=
  repeat match goal with
  | |- context [?a <? ?b] => destruct (Z.ltb_spec a b)
  | |- context [?a <=? ?b] => destruct (Z.leb_spec a b)
  | |- context [?a =? ?b] => destruct (Z.eqb_spec a b)
  end.

(** Unfolds the width constants before [lia]. *)
Ltac widths :=
  unfold is_u32, is_u64, u32_max, u64_max, U32, U64 in *;
  change (2 ^ 32) with 4294967296 in *;
  change (2 ^ 64) with 18446744073709551616 in *.
Ltac width_lia := widths; lia.

(** ** Facts on loops *)

Lemma cbind_assoc {S R} (c : ctl S R) f g :
  cbind (cbind c f) g = cbind c (fun s => cbind (f s) g).
Proof. by destruct c. Qed.

Lemma cbind_ext {S R} (c : ctl S R) f g : (forall s, f s = g s) -> cbind c f = cbind c g.
Proof. destruct c; simpl; auto. Qed.

Lemma iterN_add {S R} (f : S -> ctl S R) n m s :
  iterN (n + m) f s = cbind (iterN n f s) (iterN m f).
Proof.
  revert s; induction n as [|n IH]; intros s; simpl; [done|].
  rewrite cbind_assoc. apply cbind_ext. done.
Qed.

Lemma iterP_iterN {S R} (f : S -> ctl S R) p s : iterP p f s = iterN (Pos.to_nat p) f s.
Proof.
  revert s; induction p as [p IH|p IH|]; intros s; cbn [iterP].
  - rewrite Pos2Nat.inj_xI. cbn [iterN]. apply cbind_ext. intros s'. rewrite IH.
    replace (2 * Pos.to_nat p)%nat with (Pos.to_nat p + Pos.to_nat p)%nat by lia.
    rewrite iterN_add. apply cbind_ext, IH.
  - rewrite Pos2Nat.inj_xO, IH.
    replace (2 * Pos.to_nat p)%nat with (Pos.to_nat p + Pos.to_nat p)%nat by lia.
    rewrite iterN_add. apply cbind_ext, IH.
  - rewrite Pos2Nat.inj_1. cbn [iterN]. by destruct (f s).
Qed.

(** What leaves the loop was returned by the body in a state satisfying the invariant. *)
Lemma iterN_inv {S R} (I : S -> Prop) (f : S -> ctl S R) n s r :
  I s -> (forall s s', I s -> f s = Cont s' -> I s') ->
  iterN n f s = Break r -> exists s', I s' /\ f s' = Break r.
Proof.
  intros Hi Hstep. revert s Hi; induction n as [|n IH]; intros s Hi; simpl; [done|].
  destruct (f s) eqn:Hf; simpl; intros Hr; [eauto|].
  exists s. split; [done|]. congruence.
Qed.

Lemma iterN_cont_inv {S R} (I : S -> Prop) (f : S -> ctl S R) n s t :
  I s -> (forall s s', I s -> f s = Cont s' -> I s') ->
  iterN n f s = Cont t -> I t.
Proof.
  intros Hi Hstep. revert s Hi; induction n as [|n IH]; intros s Hi; simpl.
  - congruence.
  - destruct (f s) eqn:Hf; simpl; intros Hr; [eauto|done].
Qed.

(** A loop whose measure decreases at every iteration leaves before its bound. *)
Lemma iterN_terminates {S R} (I : S -> Prop) (m : S -> Z) (f : S -> ctl S R) n s :
  I s -> (forall s s', I s -> f s = Cont s' -> I s' /\ 0 <= m s' < m s) ->
  m s < Z.of_nat n -> 0 <= m s -> exists r, iterN n f s = Break r.
Proof.
  intros Hi Hstep. revert s Hi; induction n as [|n IH]; intros s Hi Hm H0; [lia|].
  simpl. destruct (f s) eqn:Hf; simpl; [|eauto].
  destruct (Hstep _ _ Hi Hf). apply IH; [done|lia|lia].
Qed.

Lemma while_inv {S R} (I : S -> Prop) (f : S -> ctl S R) s r :
  I s -> (forall s s', I s -> f s = Cont s' -> I s') ->
  while_ f s = Some r -> exists s', I s' /\ f s' = Break r.
Proof.
  unfold while_. rewrite iterP_iterN. intros Hi Hstep.
  destruct (iterN _ f s) eqn:Hr; [done|]. intros [= ->]. by eapply iterN_inv.
Qed.

Lemma while_terminates {S R} (I : S -> Prop) (m : S -> Z) (f : S -> ctl S R) s :
  I s -> (forall s s', I s -> f s = Cont s' -> I s' /\ 0 <= m s' < m s) ->
  0 <= m s <= 2 ^ 65 -> exists r, while_ f s = Some r.
Proof.
  intros Hi Hstep Hm. unfold while_. rewrite iterP_iterN.
  destruct (iterN_terminates I m f (Pos.to_nat loop_bound) s) as [r Hr]; auto; [|lia|].
  - rewrite positive_nat_Z. unfold loop_bound. change (Z.pos (2 ^ 66)) with (2 ^ 66). lia.
  - exists r. by rewrite Hr.
Qed.

(** The rule of a loop: an invariant, a measure that every continuing iteration decreases, and
    what holds when it leaves. The measure may start as high as [2 ^ 65]: the sum of two [u64]s. *)
Lemma loop_spec {E S A B} (I : A -> S -> Prop) (m : A -> S -> Z) (Q : res E B -> S -> Prop)
    (body : A -> M E S (ctl A B)) a s :
  (forall a s, I a s ->
     match body a s with
     | (Ok (Cont a'), s') => I a' s' /\ 0 <= m a' s' < m a s
     | (Ok (Break b), s') => Q (Ok b) s'
     | (Err e, s') => Q (Err e) s'
     | (Panic, s') => Q Panic s'
     end) ->
  I a s -> 0 <= m a s <= 2 ^ 65 -> Q (loop_ body a s).1 (loop_ body a s).2.
Proof.
  intros Hb Hi Hm. unfold loop_.
  assert (Hstep : forall st st', I st.1 st.2 -> loop_step body st = Cont st' ->
    I st'.1 st'.2 /\ 0 <= m st'.1 st'.2 < m st.1 st.2).
  { intros [a0 s0] st' H. specialize (Hb a0 s0 H). unfold loop_step. simpl.
    destruct (body a0 s0) as [[[a'|b]|e|] s'] eqn:Hbody; try done. intros [= <-]. done. }
  destruct (while_terminates (fun st => I st.1 st.2) (fun st => m st.1 st.2) (loop_step body) (a, s))
    as [r Hr]; [done|done|done|]. rewrite Hr.
  apply (while_inv (fun st => I st.1 st.2)) in Hr as ([a0 s0] & H0 & Hr); [|done|].
  2: { intros st st' H H'. by apply (Hstep st st'). }
  specialize (Hb a0 s0 H0). unfold loop_step in Hr. simpl in Hr.
  destruct (body a0 s0) as [[[a'|b]|e|] s'] eqn:Hbody; try done; injection Hr as <-; done.
Qed.

(** [for_count] as a recursion on the number of iterations. *)
Fixpoint for_nat {E S A} (n : nat) (body : A -> M E S A) (a : A) : M E S A :=
  match n with
  | O => sret a
  | Datatypes.S n => let! a := body a in for_nat n body a
  end.

Lemma for_step_iterN {E S A} (body : A -> M E S A) n a s :
  match iterN n (for_step body) (a, s) with
  | Cont (a, s) => (Ok a, s)
  | Break r => r
  end = for_nat n body a s.
Proof.
  revert a s; induction n as [|n IH]; intros a s; simpl; [done|].
  unfold for_step at 1, sbind. simpl. destruct (body a s) as [[a'|e|] s']; simpl; auto.
Qed.

Lemma for_count_nat {E S A} (body : A -> M E S A) n a s :
  for_count n body a s = for_nat (Z.to_nat n) body a s.
Proof.
  unfold for_count. destruct n as [|p|p]; simpl; [done| |done].
  rewrite <- for_step_iterN, iterP_iterN. done.
Qed.

(** An invariant of a counted loop, with the iteration number. *)
Lemma for_nat_inv {E S A} (I : nat -> A -> S -> Prop) (body : A -> M E S A) n k a s a' s' :
  I k a s ->
  (forall i a s a' s', I i a s -> body a s = (Ok a', s') -> I (Datatypes.S i) a' s') ->
  for_nat n body a s = (Ok a', s') -> I (k + n)%nat a' s'.
Proof.
  intros Hi Hstep. revert k a s Hi; induction n as [|n IH]; intros k a s Hi Hr; simpl in Hr.
  - injection Hr as -> ->. by rewrite Nat.add_0_r.
  - res_inv. rewrite Nat.add_succ_r, <- Nat.add_succ_l. eauto.
Qed.

(** ** Facts on bytes *)

Lemma b2z_range b : 0 <= b2z b < 256.
Proof. unfold b2z. pose proof (Byte.to_N_bounded b). lia. Qed.

Lemma b2z_z2b z : b2z (z2b z) = z mod 256.
Proof.
  unfold b2z, z2b. pose proof (Z.mod_pos_bound z 256 eq_refl) as Hz.
  destruct (Byte.of_N (Z.to_N (z mod 256))) as [b|] eqn:Hb.
  - apply Byte.to_of_N in Hb. lia.
  - apply Byte.of_N_None_iff in Hb. lia.
Qed.

Lemma b2z_inj a b : b2z a = b2z b -> a = b.
Proof.
  unfold b2z. intros H. apply N2Z.inj in H.
  pose proof (Byte.of_to_N a) as Ha. pose proof (Byte.of_to_N b) as Hb. congruence.
Qed.

Lemma z2b_b2z b : z2b (b2z b) = b.
Proof. apply b2z_inj. rewrite b2z_z2b. apply Z.mod_small, b2z_range. Qed.

Lemma blen_nonneg {A} (l : list A) : 0 <= blen l.
Proof. unfold blen. lia. Qed.

Lemma blen_nil {A} : blen (@nil A) = 0.
Proof. done. Qed.

Lemma blen_cons {A} (x : A) l : blen (x :: l) = 1 + blen l.
Proof. unfold blen. simpl length. lia. Qed.

Lemma blen_app {A} (l k : list A) : blen (l ++ k) = blen l + blen k.
Proof. unfold blen. rewrite length_app. lia. Qed.

Lemma blen_take {A} (l : list A) n : 0 <= n <= blen l -> blen (take (Z.to_nat n) l) = n.
Proof. unfold blen. intros H. rewrite length_take. lia. Qed.

Lemma blen_drop {A} (l : list A) n :
  0 <= n <= blen l -> blen (drop (Z.to_nat n) l) = blen l - n.
Proof. unfold blen. intros H. rewrite length_drop. lia. Qed.

Lemma blen_le_bytes n z : blen (le_bytes n z) = Z.of_nat n.
Proof. unfold blen. f_equal. revert z; induction n; intros z; simpl; auto. Qed.

Lemma blen_reverse {A} (l : list A) : blen (reverse l) = blen l.
Proof. unfold blen. by rewrite length_reverse. Qed.

#[export] Hint Rewrite @blen_nil @blen_cons @blen_app blen_le_bytes @blen_reverse : blen.

(** ** Facts on little and big endian integers *)

Lemma le_of_range b : 0 <= le_of b < 256 ^ blen b.
Proof.
  induction b as [|x b IH]; [by vm_compute|]. cbn [le_of].
  pose proof (blen_nonneg b). rewrite blen_cons, Z.pow_add_r by lia.
  pose proof (b2z_range x). change (256 ^ 1) with 256. lia.
Qed.

Lemma le_of_le_bytes n z : 0 <= z -> le_of (le_bytes n z) = z mod 256 ^ Z.of_nat n.
Proof.
  revert z; induction n as [|n IH]; intros z Hz; [by rewrite Z.mod_1_r|].
  cbn [le_bytes le_of]. rewrite b2z_z2b, IH by (apply Z.div_pos; lia).
  rewrite Nat2Z.inj_succ, Z.pow_succ_r, Z.rem_mul_r by lia. lia.
Qed.

Lemma le_of_le_bytes_id n z :
  0 <= z < 256 ^ Z.of_nat n -> le_of (le_bytes n z) = z.
Proof. intros H. rewrite le_of_le_bytes by lia. by apply Z.mod_small. Qed.

Lemma le_bytes_le_of b : le_bytes (length b) (le_of b) = b.
Proof.
  induction b as [|x b IH]; [done|]. cbn [le_of le_bytes length].
  pose proof (b2z_range x). rewrite (Z.mul_comm 256). f_equal.
  - apply b2z_inj. rewrite b2z_z2b, Z.mod_add by lia. by apply Z.mod_small.
  - rewrite Z.div_add, (Z.div_small (b2z x)) by lia. exact IH.
Qed.

Lemma le_of_inj a b : length a = length b -> le_of a = le_of b -> a = b.
Proof.
  intros Hl H. rewrite <- (le_bytes_le_of a), <- (le_bytes_le_of b). by rewrite Hl, H.
Qed.

Lemma le_of_u32 b : blen b = 4 -> is_u32 (le_of b).
Proof. intros H. pose proof (le_of_range b) as Hr. rewrite H in Hr. exact Hr. Qed.

Lemma le_of_u64 b : blen b = 8 -> is_u64 (le_of b).
Proof. intros H. pose proof (le_of_range b) as Hr. rewrite H in Hr. exact Hr. Qed.

Lemma be_of_u32 b : blen b = 4 -> is_u32 (be_of b).
Proof. intros H. apply le_of_u32. by rewrite blen_reverse. Qed.

Lemma be_of_be_bytes n z : 0 <= z < 256 ^ Z.of_nat n -> be_of (be_bytes n z) = z.
Proof.
  intros H. unfold be_of, be_bytes. rewrite reverse_involutive. by apply le_of_le_bytes_id.
Qed.

#[export] Hint Resolve le_of_u32 le_of_u64 be_of_u32 blen_nonneg b2z_range : rust.

(** ** Facts on slices *)

Lemma slice_Some b off n s :
  slice b off n = Some s <->
  0 <= off /\ 0 <= n /\ off + n <= blen b /\ s = take (Z.to_nat n) (drop (Z.to_nat off) b).
Proof.
  unfold slice.
  destruct (Z.leb_spec 0 off), (Z.leb_spec 0 n), (Z.leb_spec (off + n) (blen b)); simpl;
    naive_solver lia.
Qed.

Lemma slice_is_Some b off n :
  0 <= off -> 0 <= n -> off + n <= blen b -> is_Some (slice b off n).
Proof. intros. eexists. apply slice_Some. eauto. Qed.

Lemma slice_None b off n :
  slice b off n = None <-> off < 0 \/ n < 0 \/ blen b < off + n.
Proof.
  unfold slice.
  destruct (Z.leb_spec 0 off), (Z.leb_spec 0 n), (Z.leb_spec (off + n) (blen b)); simpl;
    naive_solver lia.
Qed.

Lemma slice_blen b off n s : slice b off n = Some s -> blen s = n.
Proof.
  rewrite slice_Some. intros (? & ? & ? & ->).
  rewrite blen_take; [done|]. rewrite blen_drop; lia.
Qed.

(** The slice of a concatenation that covers exactly its middle part. *)
Lemma slice_mid a m c off n :
  off = blen a -> n = blen m -> slice (a ++ m ++ c) off n = Some m.
Proof.
  intros -> ->. apply slice_Some. autorewrite with blen.
  pose proof (blen_nonneg a). pose proof (blen_nonneg m). pose proof (blen_nonneg c).
  split; [lia|]. split; [lia|]. split; [lia|].
  unfold blen. rewrite !Nat2Z.id, drop_app_length, take_app_length. done.
Qed.

Lemma slice_app_l a c off n s : slice a off n = Some s -> slice (a ++ c) off n = Some s.
Proof.
  rewrite !slice_Some. intros (? & ? & ? & ->). autorewrite with blen.
  pose proof (blen_nonneg c). split; [done|]. split; [done|]. split; [lia|].
  unfold blen in *. rewrite drop_app_le by lia. rewrite take_app_le; [done|].
  rewrite length_drop. lia.
Qed.

Lemma slice_app_r a c off n :
  blen a <= off -> slice (a ++ c) off n = slice c (off - blen a) n.
Proof.
  intros Ha. pose proof (blen_nonneg a).
  destruct (slice c (off - blen a) n) as [s|] eqn:Hs.
  - apply slice_Some in Hs as (? & ? & ? & ->). apply slice_Some. autorewrite with blen.
    split; [lia|]. split; [lia|]. split; [lia|].
    rewrite drop_app_ge by (unfold blen in *; lia). do 3 f_equal. unfold blen in *. lia.
  - apply slice_None in Hs. apply slice_None. autorewrite with blen. lia.
Qed.

(** A slice of a slice. *)
Lemma slice_slice b off n s off' n' :
  slice b off n = Some s -> 0 <= off' -> 0 <= n' -> off' + n' <= n ->
  slice s off' n' = slice b (off + off') n'.
Proof.
  intros Hs H1 H2 H3. pose proof (slice_blen _ _ _ _ Hs) as Hl.
  apply slice_Some in Hs as (? & ? & ? & ->).
  transitivity (Some (take (Z.to_nat n') (drop (Z.to_nat (off + off')) b))).
  - apply slice_Some. split; [lia|]. split; [lia|]. split; [lia|].
    rewrite Z2Nat.inj_add, <- drop_drop by lia.
    rewrite skipn_firstn_comm, take_take. f_equal. lia.
  - symmetry. apply slice_Some. split; [lia|]. split; [lia|]. split; [lia|done].
Qed.

Lemma slice_full b n : n = blen b -> slice b 0 n = Some b.
Proof.
  intros ->. apply slice_Some. pose proof (blen_nonneg b). split; [done|]. split; [done|].
  split; [lia|]. unfold blen. by rewrite Nat2Z.id, drop_0, take_ge.
Qed.

Lemma byte_at_slice b i x : byte_at b i = Some x <-> slice b i 1 = Some [x].
Proof.
  unfold byte_at. rewrite slice_Some. change (Z.to_nat 1) with 1%nat.
  destruct (Z.leb_spec 0 i); [|naive_solver lia].
  split.
  - intros Hl. apply drop_S in Hl as Hd. apply lookup_lt_Some in Hl.
    unfold blen. split; [done|]. split; [done|]. split; [lia|]. by rewrite Hd.
  - intros (_ & _ & Hb & Hd). rewrite <- (Nat.add_0_r (Z.to_nat i)), <- lookup_drop.
    destruct (drop (Z.to_nat i) b) as [|y t]; simpl in *; congruence.
Qed.

#[export] Hint Resolve slice_blen : rust.

(** ** LEB128 groups

    Seven bits per byte, least significant group first, the high bit set on every byte but the
    last. [leb_val] is the number a run of groups denotes and [leb_ended] says that exactly its
    last byte ends it. Zero-padded (non-canonical) runs are included. *)

Fixpoint leb_val (x : bytes) : Z :=
  match x with
  | [] => 0
  | b :: t => b2z b mod 128 + 128 * leb_val t
  end.

Fixpoint leb_ended (x : bytes) : bool :=
  match x with
  | [] => false
  | [b] => b2z b <? 128
  | b :: t => (128 <=? b2z b) && leb_ended t
  end.

Lemma leb_val_nonneg x : 0 <= leb_val x.
Proof.
  induction x as [|b x IH]; cbn [leb_val]; [done|].
  pose proof (Z.mod_pos_bound (b2z b) 128 eq_refl). lia.
Qed.

Lemma leb_val_bound x : leb_val x < 2 ^ (7 * blen x).
Proof.
  induction x as [|b x IH]; [done|]. cbn [leb_val]. rewrite blen_cons.
  pose proof (blen_nonneg x). pose proof (Z.mod_pos_bound (b2z b) 128 eq_refl).
  replace (7 * (1 + blen x)) with (7 + 7 * blen x) by lia.
  rewrite Z.pow_add_r by lia. change (2 ^ 7) with 128. lia.
Qed.

Lemma group_last b :
  b2z b < 128 -> Z.land (b2z b) 127 = b2z b mod 128 /\ (Z.land (b2z b) 128 =? 0) = true.
Proof. destruct b; vm_compute; intuition congruence. Qed.

Lemma group_more b :
  128 <= b2z b -> Z.land (b2z b) 127 = b2z b mod 128 /\ (Z.land (b2z b) 128 =? 0) = false.
Proof. destruct b; vm_compute; intuition congruence. Qed.

Lemma group_bits b : Z.land (b2z b) 127 = b2z b mod 128.
Proof. apply (Z.land_ones _ 7). lia. Qed.

(** Or-ing a group above the bits already there is addition. *)
Lemma lor_shiftl_add v w s :
  0 <= s -> 0 <= v < 2 ^ s -> Z.lor v (Z.shiftl w s) = v + w * 2 ^ s.
Proof.
  intros Hs Hv. rewrite <- Z.shiftl_mul_pow2 by done. symmetry. apply Z.add_nocarry_lor.
  apply Z.bits_inj'. intros n Hn. rewrite Z.land_spec, Z.bits_0, Z.shiftl_spec by done.
  destruct (Z.lt_ge_cases n s) as [H|H].
  - rewrite (Z.testbit_neg_r _ (n - s)) by lia. apply andb_false_r.
  - destruct (Z.eq_dec v 0) as [->|]; [by rewrite Z.bits_0|].
    rewrite (Z.bits_above_log2 v n); [done|lia|].
    apply Z.log2_lt_pow2; [lia|]. apply Z.lt_le_trans with (2 ^ s); [lia|].
    apply Z.pow_le_mono_r; lia.
Qed.

(** ** Facts on lists *)

Lemma foldl_snoc {A} (acc l : list A) : foldl (fun acc x => acc ++ [x]) acc l = acc ++ l.
Proof.
  revert acc; induction l as [|x l IH]; intros acc; simpl; [by rewrite app_nil_r|].
  by rewrite IH, <- app_assoc.
Qed.

(** Two adjacent slices. *)
Lemma slice_cat b off x y :
  slice b off (blen x + blen y) = Some (x ++ y) <->
  slice b off (blen x) = Some x /\ slice b (off + blen x) (blen y) = Some y.
Proof.
  pose proof (blen_nonneg x) as Hx. pose proof (blen_nonneg y) as Hy. split.
  - intros H. split.
    + rewrite <- (Z.add_0_r off). rewrite <- (slice_slice b off (blen x + blen y) (x ++ y)) by (done || lia).
      by apply (slice_mid [] x y).
    + rewrite <- (slice_slice b off (blen x + blen y) (x ++ y)) by (done || lia).
      rewrite <- (app_nil_r y) at 1. by apply slice_mid.
  - intros [H1 H2]. apply slice_Some in H1 as (? & ? & ? & H1).
    apply slice_Some in H2 as (? & ? & ? & H2). apply slice_Some.
    split; [lia|]. split; [lia|]. split; [lia|].
    rewrite (Z2Nat.inj_add (blen x)) by lia.
    rewrite (Z2Nat.inj_add off), <- drop_drop in H2 by lia.
    rewrite <- take_take_drop. congruence.
Qed.

(** A slice cut in two. *)
Lemma slice_split b off n m s :
  0 <= n -> 0 <= m -> slice b off (n + m) = Some s ->
  exists x y, s = x ++ y /\ slice b off n = Some x /\ slice b (off + n) m = Some y.
Proof.
  intros Hn Hm H. pose proof H as Hs. apply slice_Some in Hs as (? & ? & ? & _).
  destruct (slice_is_Some b off n) as [x Hx]; [lia..|].
  destruct (slice_is_Some b (off + n) m) as [y Hy]; [lia..|].
  exists x, y. split; [|done]. pose proof (slice_blen _ _ _ _ Hx) as Lx.
  pose proof (slice_blen _ _ _ _ Hy) as Ly.
  assert (slice b off (blen x + blen y) = Some (x ++ y)) as Hc.
  { apply slice_cat. by rewrite Lx, Ly. }
  rewrite Lx, Ly in Hc. congruence.
Qed.

(** A field that decodes to [v] holds the bytes of [v]. *)
Lemma slice_le n b off z v :
  slice b off (Z.of_nat n) = Some z -> le_of z = v -> slice b off (Z.of_nat n) = Some (le_bytes n v).
Proof.
  intros H <-. rewrite H. apply slice_blen in H. unfold blen in H. apply Nat2Z.inj in H. subst n.
  f_equal. symmetry. apply le_bytes_le_of.
Qed.

(** ** Facts on checked arithmetic *)

Lemma checked_add64_Some a b e : checked_add64 a b = Some e <-> e = a + b /\ a + b < U64.
Proof. unfold checked_add64. case_bools; naive_solver lia. Qed.

Lemma checked_add32_Some a b e : checked_add32 a b = Some e <-> e = a + b /\ a + b < U32.
Proof. unfold checked_add32. case_bools; naive_solver lia. Qed.
