(* ===== verification/Errors.v ===== *)
(** * The errors of the archive core

    The code reports errors as [anyhow::Error] messages. Each [ensure!] and [bail!] of the
    modelled functions is one constructor here, carrying the numbers its message shows. The text
    added by [with_context] is not modelled, except the [Source] of a read error, which the code
    inspects ([downcast_ref::<Source>]) to count errors per log. *)

From S2P Require Import Prelude.

(** [shiplog::LogKind]. *)
Inductive LogKind := Trace | ChainState | Finality.

#[export] Instance LogKind_eq_dec : EqDecision LogKind.
Proof. solve_decision. Defined.

(** [store::Source]. *)
Inductive Source := SrcShip (kind : LogKind) | SrcBlocks.

(** What [shiplog::unsupported_magic] finds wrong with an entry magic. *)
Inductive magic_problem :=
| NoShipMagic
| LogVersion1
| PrunedLog
| UnsupportedLog (version features : Z).

(** What keeps the files of a catalog from forming one contiguous range. *)
Inductive problem :=
| PBothHold (prev log : string) (begin end_ : Z)
| POverlaps (prev : string) (pb pe : Z) (log : string) (begin end_ : Z)
| PHole (pe begin : Z) (prev log : string).

Inductive err : Type :=
(* binio: PosFile, FileCache *)
| EOpen
| ENotRegular
| EPrefixTooLong (len : Z)
| EReadPastEnd (n off len : Z)
| EShortRead (n off : Z)
| EDuplicatePinned
| EOutsidePinned
| EPinnedTruncated
(* binio: FcReader *)
| EUnpackPastEnd (n pos len : Z)
| EInvalidBool (b pos : Z)
(* protocol *)
| EVariantOutOfRange (idx : Z)
| ETooManyPositions (count : Z)
(* shiplog: opening *)
| ECannotHoldEntry (size : Z)
| EPrunedOrUnsupported (p : magic_problem)
| ENotStateHistory (p : magic_problem)
| ELastTrailer (last_pos size : Z)
| ELastNotAtEnd (last_pos last end_ size : Z)
| ELastBeforeFirst (last begin : Z)
| ELastBlockNumber (last : Z)
| EIndexLength (have want : Z)
| EIndexLastSlot (last slot last_pos : Z)
(* shiplog: one entry *)
| ENoRoomForEntry (pos size : Z)
| ENoEntryHeader (pos magic : Z)
| EWrongBlock (pos num : Z)
| EPayloadPastEnd (payload_size pos size : Z)
| EShortPreamble (payload_size pos : Z)
| EPositionTrailer (pos trailer : Z)
| EShortSizedPreamble (payload_size pos : Z)
| ELegacySizeField (pos field zlen : Z)
| ENotAllInRange (count from : Z)
| EBlockOutside (n : Z)
| EChangedAfterOpen (have was : Z)
(* shiplog: inflating a payload *)
| EInvalidZlib
| EEarlierReadFailed
| ENoRoomToInflate
| EInflatesPastDeclared (declared : Z)
| EStreamStops (total_in len : Z)
| EBytesFollowStream (n : Z)
| EInflatesTo (total_out declared : Z)
| EOverLimit (size limit : Z)
| EInflatesOverLimit (limit : Z)
| ENoRoomForDeclared (size : Z)
(* blocklog *)
| ETooShortForBlockLog (size : Z)
| EPrunedBlockLog
| EBlockLogVersion0
| EBlockLogVersion (version : Z)
| EStartsAtBlock0
| ETotem (totem : Z)
| ECannotHoldBlock (left : Z)
| ELastBlockOutside (last_pos : Z)
| ELastBlockBeforeFirst (prev first : Z)
| EBlockIndexLength (have want : Z)
| EBlockIndexPlaces (index_first index_last first_pos last_pos : Z)
| EBlockNotInLog (n : Z)
| ENotABlock (n pos end_ : Z)
| EBlockTrailer (n pos trailer : Z)
| EFollows (n prev : Z)
| EBlockNumberOverflow
| EUnknownKeyType (k : Z)
| EGenesisOverflow
| ETruncatedGenesis (len at_ avail : Z)
(* catalog *)
| EOtherChain (path : string)
| ENotContiguous (problems : list problem)
(* store: startup *)
| ENoDirectory
| EEmptyRange (begin end_ : Z)
| ENoBlockLogs
| EOtherChainId
| EChainIdRequired
| ENothingServed
| EOnlyBlock0
| ENoLastId (last : Z)
| EIdsDisagree (n : Z)
| EBlockLogsUnlinked (s : Z)
| EInNoFile (n : Z)
| EAbi
(* store: one block *)
| EPageOutside (n begin end_ : Z)
| EOtherId (kind : LogKind) (n : Z)
| EBlockTooLong (n len : Z)
| EFollowsOther (n prev : Z)
| EHashesToOther (n : Z)
(* fetch: a task that panicked, seen by the one that awaits it *)
| ETask
(* frames *)
| EStreamsOther (sent len : Z)
(* a read error and the log it came from *)
| ESource (src : Source) (e : err).

Abbreviation result A := (res err A).
