(* ===== verification/Cursor.v ===== *)
(** * Byte cursors and the parsers built on them

    The code has four cursors over a byte slice with the same shape, a slice and an offset:
    [binio::FcReader] (errors are [anyhow]), [trace::Cur] (failure is [None]), [framing::Walk] (input
    that ends too early is an error of its own) and [format::Cursor] of [log-repair]. This file gives
    the shape, what a parser does to it, and the composition lemmas that the files of all four use.

    [parses m x a] says that a parser reads exactly the bytes [x], whatever follows them, and
    returns [a]. [safe m] says that it never panics, stays inside the slice, and only moves
    forward. *)

From S2P Require Import Prelude.

Record cursor := mkCursor { cb : bytes; cpos : Z }.

Definition adv (c : cursor) (n : Z) : cursor := mkCursor (cb c) (cpos c + n).

(** The cursor is inside its slice, and the slice fits the address space. *)
Definition cursor_wf (c : cursor) : Prop := 0 <= cpos c <= blen (cb c) /\ blen (cb c) < U64.

(** What is left to read. *)
Definition rest (c : cursor) : bytes := drop (Z.to_nat (cpos c)) (cb c).

Definition parses {E A} (m : M E cursor A) (x : bytes) (a : A) : Prop :=
  forall c s, cursor_wf c -> rest c = x ++ s -> m c = (Ok a, adv c (blen x)).

(** Never panics, keeps the slice, and moves forward inside it, on success and on error. *)
Definition safe {E A} (m : M E cursor A) : Prop :=
  forall c, cursor_wf c ->
    is_panic (m c).1 = false /\ cb (m c).2 = cb c /\ cpos c <= cpos (m c).2 <= blen (cb c).

Lemma blen_rest c : cursor_wf c -> blen (rest c) = blen (cb c) - cpos c.
Proof. intros [? ?]. apply blen_drop. lia. Qed.

Lemma adv_wf c n : cursor_wf c -> 0 <= n <= blen (rest c) -> cursor_wf (adv c n).
Proof. intros Hc Hn. rewrite blen_rest in Hn by done. destruct Hc. split; simpl; lia. Qed.

Lemma adv_0 c : adv c 0 = c.
Proof. destruct c. unfold adv; simpl. by rewrite Z.add_0_r. Qed.

Lemma adv_adv c n m : adv (adv c n) m = adv c (n + m).
Proof. unfold adv; simpl. by rewrite Z.add_assoc. Qed.

Lemma rest_adv c x s :
  cursor_wf c -> rest c = x ++ s -> cursor_wf (adv c (blen x)) /\ rest (adv c (blen x)) = s.
Proof.
  intros Hc Hr. split.
  - apply adv_wf; [done|]. rewrite Hr. autorewrite with blen.
    pose proof (blen_nonneg x). pose proof (blen_nonneg s). lia.
  - unfold rest, adv in *; simpl. destruct Hc as [Hc _].
    rewrite Z2Nat.inj_add, <- drop_drop, Hr by (try apply blen_nonneg; lia).
    unfold blen. by rewrite Nat2Z.id, drop_app_length.
Qed.

Lemma rest_new b : rest (mkCursor b 0) = b.
Proof. done. Qed.

(** ** Composition of [parses] *)

Lemma parses_ret {E A} (a : A) : parses (sret (E := E) a) [] a.
Proof. intros c s Hc Hr. rewrite blen_nil, adv_0. done. Qed.

Lemma parses_bind {E A B} (m : M E cursor A) (k : A -> M E cursor B) x y a b :
  parses m x a -> parses (k a) y b -> parses (sbind m k) (x ++ y) b.
Proof.
  intros Hm Hk c s Hc Hr. rewrite <- app_assoc in Hr.
  rewrite (sbind_Ok_eq _ _ _ _ _ (Hm c _ Hc Hr)).
  destruct (rest_adv c x _ Hc Hr) as [Hc' Hr'].
  rewrite (Hk _ s Hc' Hr'), adv_adv, blen_app. done.
Qed.

(** The last parser of a sequence. *)
Lemma parses_bind_ret {E A B} (m : M E cursor A) (f : A -> B) x a :
  parses m x a -> parses (sbind m (fun a => sret (f a))) x (f a).
Proof.
  intros Hm. rewrite <- (app_nil_r x). eapply parses_bind; [done|]. apply parses_ret.
Qed.

Lemma parses_sensure {E A} b (e : E) (k : M E cursor A) x a :
  b = true -> parses k x a -> parses (do! sensure b e ;; k) x a.
Proof. intros -> Hk. rewrite <- (app_nil_l x). eapply parses_bind; [apply parses_ret|done]. Qed.

Lemma parses_for {E A I} (body : A -> M E cursor A) (enc : I -> bytes) (step : A -> I -> A) l a :
  (forall a i, i ∈ l -> parses (body a) (enc i) (step a i)) ->
  parses (for_count (blen l) body a) (concat (enc <$> l)) (foldl step a l).
Proof.
  intros Hb c s Hc Hr. rewrite for_count_nat. unfold blen at 1. rewrite Nat2Z.id.
  revert c a s Hc Hr. induction l as [|i l IH]; intros c a s Hc Hr; simpl.
  - rewrite adv_0. done.
  - simpl in Hr. rewrite <- app_assoc in Hr.
    rewrite (sbind_Ok_eq _ _ _ _ _ (Hb a i ltac:(by left) c _ Hc Hr)).
    destruct (rest_adv c _ _ Hc Hr) as [Hc' Hr'].
    rewrite (IH ltac:(intros; apply Hb; by right) _ _ s Hc' Hr'), adv_adv, blen_app. done.
Qed.

(** ** Composition of [safe] *)

Lemma safe_ret {E A} (a : A) : safe (sret (E := E) a).
Proof. intros c [Hc _]. simpl. naive_solver lia. Qed.

Lemma safe_fail {E A} (e : E) : safe (sfail (A := A) e).
Proof. intros c [Hc _]. simpl. naive_solver lia. Qed.

Lemma safe_bind {E A B} (m : M E cursor A) (k : A -> M E cursor B) :
  safe m -> (forall a, safe (k a)) -> safe (sbind m k).
Proof.
  intros Hm Hk c Hc. destruct (Hm c Hc) as (Hp & Hb & Hpos). unfold sbind.
  destruct (m c) as [[a|e|] c'] eqn:Hmc; simpl in *; [|done|done].
  assert (Hc' : cursor_wf c') by (destruct Hc; split; rewrite Hb; lia).
  destruct (Hk a c' Hc') as (Hp' & Hb' & Hpos'). rewrite Hb' , Hb in *. split; [done|].
  split; [done|]. lia.
Qed.

(** A continuation that is only safe on the values its parser can return. *)
Lemma safe_bind_val {E A B} (P : A -> Prop) (m : M E cursor A) (k : A -> M E cursor B) :
  safe m -> (forall c a c', cursor_wf c -> m c = (Ok a, c') -> P a) ->
  (forall a, P a -> safe (k a)) -> safe (sbind m k).
Proof.
  intros Hm HP Hk c Hc. destruct (Hm c Hc) as (Hp & Hb & Hpos). unfold sbind.
  destruct (m c) as [[a|e|] c'] eqn:Hmc; simpl in *; [|done|done].
  assert (Hc' : cursor_wf c') by (destruct Hc; split; rewrite Hb; lia).
  destruct (Hk a (HP _ _ _ Hc Hmc) c' Hc') as (Hp' & Hb' & Hpos').
  rewrite Hb', Hb in *. split; [done|]. split; [done|]. lia.
Qed.

Lemma safe_sensure {E} b (e : E) : safe (sensure b e).
Proof. destruct b; [apply safe_ret|apply safe_fail]. Qed.

Lemma safe_if {E A} (b : bool) (m k : M E cursor A) : safe m -> safe k -> safe (if b then m else k).
Proof. by destruct b. Qed.

Lemma safe_for {E A} n (body : A -> M E cursor A) a :
  (forall a, safe (body a)) -> safe (for_count n body a).
Proof.
  intros Hb c. rewrite for_count_nat. generalize (Z.to_nat n) as k. clear n.
  intros k. revert c. change (safe (for_nat k body a)).
  revert a; induction k as [|k IH]; intros a; simpl; [apply safe_ret|].
  apply safe_bind; [apply Hb|done].
Qed.

(** The values a parser can return. *)
Definition yields {E A} (m : M E cursor A) (P : A -> Prop) : Prop :=
  forall c a c', cursor_wf c -> m c = (Ok a, c') -> P a.

Lemma safe_wf {E A} (m : M E cursor A) c r c' :
  safe m -> cursor_wf c -> m c = (r, c') -> cursor_wf c'.
Proof.
  intros Hm Hc H. destruct (Hm c Hc) as (_ & Hb & Hp). rewrite H in Hb, Hp. simpl in Hb, Hp.
  destruct Hc. split; rewrite Hb; lia.
Qed.

Lemma yields_ret {E A} (a : A) (P : A -> Prop) : P a -> yields (sret (E := E) a) P.
Proof. intros Ha c a' c' _ [= <- _]. done. Qed.

Lemma yields_fail {E A} (e : E) (P : A -> Prop) : yields (sfail e) P.
Proof. intros c a c' _ H. done. Qed.

Lemma yields_bind {E A B} (m : M E cursor A) (k : A -> M E cursor B) Q P :
  safe m -> yields m Q -> (forall a, Q a -> yields (k a) P) -> yields (sbind m k) P.
Proof.
  intros Hs Hm Hk c b c' Hc H. res_inv.
  match goal with H0 : m c = _ |- _ => pose proof (safe_wf _ _ _ _ Hs Hc H0); apply Hm in H0; [|done] end.
  by eapply Hk.
Qed.

Lemma yields_any {E A} (m : M E cursor A) : yields m (fun _ => True).
Proof. done. Qed.

Lemma yields_if {E A} (t : bool) (m k : M E cursor A) P :
  yields m P -> yields k P -> yields (if t then m else k) P.
Proof. by destruct t. Qed.

Create HintDb safe.
#[export] Hint Resolve safe_ret safe_fail safe_bind safe_sensure safe_if safe_for : safe.

(** Applies the composition lemmas down to the primitive readers, which come from the [safe]
    hint database. *)
Ltac solve_safe :=
  repeat (intros; first
    [ solve [eauto with safe]
    | apply safe_ret | apply safe_fail | apply safe_sensure
    | apply safe_if | apply safe_for | apply safe_bind
    | match goal with |- safe (match ?x with _ => _ end) => destruct x end ]).

(** ** Slices read at a cursor *)

Lemma slice_rest c n :
  cursor_wf c -> 0 <= n ->
  slice (cb c) (cpos c) n = if n <=? blen (rest c) then Some (take (Z.to_nat n) (rest c)) else None.
Proof.
  intros Hc Hn. rewrite blen_rest by done. destruct Hc as [Hc _].
  destruct (Z.leb_spec n (blen (cb c) - cpos c)).
  - apply slice_Some. split; [lia|]. split; [lia|]. split; [lia|done].
  - apply slice_None. lia.
Qed.

(** ** Parsers that do not look past what they read

    What a [stable] parser reads from a slice it also reads, with the same result and at the same
    offsets, from any longer slice: a decoder that succeeds on a prefix has decoded the whole. *)
Definition stable {E A} (m : M E cursor A) : Prop :=
  forall b y p a c, m (mkCursor b p) = (Ok a, c) ->
    exists q, c = mkCursor b q /\ m (mkCursor (b ++ y) p) = (Ok a, mkCursor (b ++ y) q).

Lemma stable_ret {E A} (a : A) : stable (sret (E := E) a).
Proof. intros b y p a' c [= <- <-]. eauto. Qed.

Lemma stable_fail {E A} (e : E) : stable (sfail (A := A) e).
Proof. intros b y p a' c H. done. Qed.

Lemma stable_bind {E A B} (m : M E cursor A) (k : A -> M E cursor B) :
  stable m -> (forall a, stable (k a)) -> stable (sbind m k).
Proof.
  intros Hm Hk b y p a c H. res_inv.
  match goal with Hx : m _ = (Ok ?v, ?s) |- _ => destruct (Hm b y p v s Hx) as (q & -> & Hm') end.
  apply (Hk _ b y) in H as (q' & -> & Hk'). exists q'. split; [done|].
  by rewrite (sbind_Ok_eq _ _ _ _ _ Hm').
Qed.

Lemma stable_if {E A} (t : bool) (m k : M E cursor A) : stable m -> stable k -> stable (if t then m else k).
Proof. by destruct t. Qed.

Lemma stable_for {E A} n (body : A -> M E cursor A) a :
  (forall a, stable (body a)) -> stable (for_count n body a).
Proof.
  intros Hb. assert (H : forall k a, stable (for_nat k body a)).
  { induction k as [|k IH]; intros a'; simpl; [apply stable_ret|]. by apply stable_bind. }
  intros b y p a' c. rewrite !for_count_nat. apply H.
Qed.

Create HintDb stable.
#[export] Hint Resolve stable_ret stable_fail : stable.

Ltac solve_stable :=
  repeat (intros; first
    [ solve [auto with stable]
    | apply stable_if | apply stable_for | apply stable_bind
    | match goal with |- stable (match ?x with _ => _ end) => destruct x end ]).
