(* ===== verification/Binio.v ===== *)
(** * Binary I/O shared by the strict readers ([crates/core/src/binio.rs])

    [FcReader] is the byte cursor with fc [raw::unpack] semantics, [PosFile] a read-only file
    with exact positional reads, and [FileCache] the LRU of open files.

    The file system is a [world]: names pointing at inodes and the inodes' contents. A [PosFile]
    names an inode, so renaming or replacing a path never redirects a handle already open, and
    a file that shrinks under a handle gives short reads. *)

From S2P Require Import Prelude.
From S2P Require Import Errors.
From S2P Require Import Cursor.

(** ** FcReader *)
Module FcReader.

(** The struct is the [cursor] of [Cursor.v]: the slice [b] and the offset [pos]. *)
Definition reader A := M err cursor A.

Definition new (b : bytes) : cursor := mkCursor b 0.

Definition remaining (r : cursor) : Z := sat_sub (blen (cb r)) (cpos r).

Definition bytes_ (n : Z) : reader bytes := fun r =>
  match checked_add64 (cpos r) n with
  | Some _ =>
      match slice (cb r) (cpos r) n with
      | Some s => (Ok s, adv r n)
      | None => (Err (EUnpackPastEnd n (cpos r) (blen (cb r))), r)
      end
  | None => (Err (EUnpackPastEnd n (cpos r) (blen (cb r))), r)
  end.

(** [Ok(self.bytes(1)?[0])] *)
Definition u8 : reader Z :=
  let! s := bytes_ 1 in
  let! x := slift (or_panic (s !! 0%nat)) in
  sret (b2z x).

Definition u32 : reader Z := let! s := bytes_ 4 in sret (le_of s).

Definition u64 : reader Z := let! s := bytes_ 8 in sret (le_of s).

(** The loop [for shift in (0..35).step_by(7)]. *)
Fixpoint varuint32_loop (shifts : list Z) (v : Z) : reader Z :=
  match shifts with
  | [] => sret v
  | shift :: rest =>
      let! b := u8 in
      let v := Z.lor v (wrap32 (Z.shiftl (Z.land b 127) shift)) in
      if Z.land b 128 =? 0 then sret v else varuint32_loop rest v
  end.

Definition varuint32 : reader Z := varuint32_loop [0; 7; 14; 21; 28] 0.

Definition bool_ : reader bool :=
  let! x := u8 in
  if x =? 0 then sret false
  else if x =? 1 then sret true
  else let! r := sget in sfail (EInvalidBool x (cpos r - 1)).

Definition id : reader bytes := bytes_ 32.

End FcReader.

(** [num_from_id]: the block number embedded in a block id. The argument has 32 bytes. *)
Definition num_from_id (id : bytes) : Z := be_of (take 4 id).

(** ** The file system *)

Inductive node := File (data : bytes) | NotFile.

Record world := mkWorld {
  w_names : gmap string Z;
  w_inodes : gmap Z node
}.

(** ** PosFile *)
Module PosFile.

Record t := mk { file : Z; len : Z; path : string }.

#[export] Instance t_eq_dec : EqDecision t.
Proof. solve_decision. Defined.

Definition open (w : world) (p : string) : result t :=
  let? ino := or_err (w_names w !! p) EOpen in
  let? nd := or_err (w_inodes w !! ino) EOpen in
  match nd with
  | NotFile => Err ENotRegular
  | File d => Ok (mk ino (blen d) p)
  end.

Definition prefix (f : t) (n : Z) : result t :=
  do? ensure (n <=? len f) (EPrefixTooLong n) ;;
  Ok (mk (file f) n (path f)).

Definition is_empty (f : t) : bool := len f =? 0.

(** [file.metadata()?.len()]: the length of the inode now. *)
Definition metadata_len (w : world) (f : t) : result Z :=
  match w_inodes w !! file f with
  | Some (File d) => Ok (blen d)
  | _ => Err EOpen
  end.

Definition check_range (f : t) (off n : Z) : result () :=
  ensure (match checked_add64 off n with Some e => e <=? len f | None => false end)
         (EReadPastEnd n off (len f)).

(** [FileExt::read_exact_at]: all [n] bytes or an [UnexpectedEof]. *)
Definition pread_exact (w : world) (f : t) (off n : Z) : result bytes :=
  match w_inodes w !! file f with
  | Some (File d) => or_err (slice d off n) (EShortRead n off)
  | _ => Err (EShortRead n off)
  end.

Definition read_exact_at (w : world) (f : t) (off n : Z) : result bytes :=
  do? check_range f off n ;;
  pread_exact w f off n.

Definition read_vec (w : world) (f : t) (off n : Z) : result bytes :=
  do? check_range f off n ;;
  read_exact_at w f off n.

Definition array_at (w : world) (n : Z) (f : t) (off : Z) : result bytes :=
  read_exact_at w f off n.

Definition u32_at (w : world) (f : t) (off : Z) : result Z :=
  let? a := array_at w 4 f off in Ok (le_of a).

Definition u64_at (w : world) (f : t) (off : Z) : result Z :=
  let? a := array_at w 8 f off in Ok (le_of a).

End PosFile.

(** ** FileCache *)
Module Lru.

Record t := mk { clock : Z; open : gmap string (PosFile.t * Z) }.

Definition default : t := mk 0 ∅.

Definition touch (p : string) (l : t) : option PosFile.t * t :=
  let clk := add64 (clock l) 1 in
  match open l !! p with
  | Some (f, _) => (Some f, mk clk (<[p := (f, clk)]> (open l)))
  | None => (None, mk clk (open l))
  end.

(** [iter().min_by_key(|(_, (_, used))| *used)]. *)
Fixpoint min_by_used (l : list (string * (PosFile.t * Z))) : option (string * Z) :=
  match l with
  | [] => None
  | (p, (_, used)) :: rest =>
      match min_by_used rest with
      | Some (p', used') => if used <=? used' then Some (p, used) else Some (p', used')
      | None => Some (p, used)
      end
  end.

Definition evict_oldest (l : t) : t :=
  match min_by_used (map_to_list (open l)) with
  | Some (p, _) => mk (clock l) (delete p (open l))
  | None => l
  end.

(** [while lru.open.len() >= self.cap { lru.evict_oldest(); }]: each eviction removes an entry,
    so the number of entries bounds the iterations. *)
Fixpoint evict_loop (fuel : nat) (cap : Z) (l : t) : t :=
  match fuel with
  | O => l
  | S fuel =>
      if cap <=? Z.of_nat (size (open l)) then evict_loop fuel cap (evict_oldest l) else l
  end.

Definition evict (cap : Z) (l : t) : t := evict_loop (size (open l)) cap l.

End Lru.

Module FileCache.

Record t := mk { cap : Z; lru : Lru.t; pinned : option (gmap string PosFile.t) }.

Definition new (cap : Z) : t := mk (Z.max cap 1) Lru.default None.

Fixpoint pin_all (files : list PosFile.t) (m : gmap string PosFile.t)
    : result (gmap string PosFile.t) :=
  match files with
  | [] => Ok m
  | f :: rest =>
      do? ensure (bool_decide (m !! PosFile.path f = None)) EDuplicatePinned ;;
      pin_all rest (<[PosFile.path f := f]> m)
  end.

Definition new_pinned (files : list PosFile.t) : result t :=
  let? m := pin_all files ∅ in
  Ok (mk 0 Lru.default (Some m)).

Definition get_pinned (w : world) (files : gmap string PosFile.t) (p : string)
    : result PosFile.t :=
  let? f := or_err (files !! p) EOutsidePinned in
  let? n := PosFile.metadata_len w f in
  do? ensure (PosFile.len f <=? n) EPinnedTruncated ;;
  Ok f.

(** The first critical section of [get]: a hit under the lock. *)
Definition get_hit (p : string) (c : t) : option PosFile.t * t :=
  let '(o, l) := Lru.touch p (lru c) in (o, mk (cap c) l (pinned c)).

(** The second one, with the file opened outside the lock. *)
Definition get_insert (p : string) (f : PosFile.t) (c : t) : PosFile.t * t :=
  match Lru.touch p (lru c) with
  | (Some raced, l) => (raced, mk (cap c) l (pinned c))
  | (None, l) =>
      let l := Lru.evict (cap c) l in
      (f, mk (cap c) (Lru.mk (Lru.clock l) (<[p := (f, Lru.clock l)]> (Lru.open l))) (pinned c))
  end.

Definition get (w : world) (p : string) (c : t) : result PosFile.t * t :=
  match pinned c with
  | Some files => (get_pinned w files p, c)
  | None =>
      match get_hit p c with
      | (Some f, c) => (Ok f, c)
      | (None, c) =>
          match PosFile.open w p with
          | Ok f => let '(f, c) := get_insert p f c in (Ok f, c)
          | Err e => (Err e, c)
          | Panic => (Panic, c)
          end
      end
  end.

Definition open_files (c : t) : Z :=
  match pinned c with
  | Some m => Z.of_nat (size m)
  | None => Z.of_nat (size (Lru.open (lru c)))
  end.

End FileCache.

(** ** FcReader: what each operation reads *)
Section FcReaderFacts.
Import FcReader.

Lemma bytes_spec n c :
  cursor_wf c -> 0 <= n ->
  bytes_ n c = if n <=? blen (rest c) then (Ok (take (Z.to_nat n) (rest c)), adv c n)
               else (Err (EUnpackPastEnd n (cpos c) (blen (cb c))), c).
Proof.
  intros Hc Hn. unfold bytes_, checked_add64. rewrite slice_rest by done.
  pose proof (blen_rest c Hc) as Hr. destruct Hc as [Hp Hl].
  destruct (Z.ltb_spec (cpos c + n) U64); [by destruct (n <=? blen (rest c))|].
  destruct (Z.leb_spec n (blen (rest c))); [lia|done].
Qed.

Lemma bytes_parses x : parses (bytes_ (blen x)) x x.
Proof.
  intros c s Hc Hr. pose proof (blen_nonneg s). rewrite bytes_spec by (done || apply blen_nonneg).
  rewrite Hr, blen_app. destruct (Z.leb_spec (blen x) (blen x + blen s)); [|lia].
  unfold blen. by rewrite Nat2Z.id, take_app_length.
Qed.

Lemma bytes_safe n : 0 <= n -> safe (bytes_ n).
Proof.
  intros Hn c Hc. rewrite bytes_spec by done. pose proof (blen_rest c Hc). destruct Hc as [Hp Hl].
  destruct (Z.leb_spec n (blen (rest c))); simpl; split; auto; split; auto; lia.
Qed.

Lemma bytes_Ok n c s c' :
  cursor_wf c -> 0 <= n -> bytes_ n c = (Ok s, c') -> blen s = n /\ c' = adv c n.
Proof.
  intros Hc Hn. rewrite bytes_spec by done. destruct (Z.leb_spec n (blen (rest c))); [|done].
  intros [= <- <-]. split; [|done]. by apply blen_take.
Qed.

Lemma u8_parses b : parses u8 [b] (b2z b).
Proof.
  change [b] with ([b] ++ []). eapply parses_bind; [apply bytes_parses|].
  change (@nil byte) with (@nil byte ++ []). eapply parses_bind; [|apply parses_ret].
  intros c s _ _. rewrite blen_nil, adv_0. done.
Qed.

Lemma u8_safe : safe u8.
Proof.
  apply (safe_bind_val (fun s => blen s = 1)).
  - by apply bytes_safe.
  - intros c a c' Hc H. by apply bytes_Ok in H as [? _].
  - intros s Hs. destruct s as [|x s]; [done|]. intros c Hc. destruct Hc. simpl. naive_solver lia.
Qed.

Lemma u8_Ok c v c' : u8 c = (Ok v, c') -> 0 <= v < 256.
Proof. unfold u8. intros H. res_inv. subst. apply b2z_range. Qed.

Lemma u32_parses v : is_u32 v -> parses u32 (le_bytes 4 v) v.
Proof.
  intros Hv. assert (H : v = le_of (le_bytes 4 v)) by (symmetry; by apply le_of_le_bytes_id).
  rewrite H at 2. apply (parses_bind_ret _ le_of). apply (bytes_parses (le_bytes 4 v)).
Qed.

Lemma u64_parses v : is_u64 v -> parses u64 (le_bytes 8 v) v.
Proof.
  intros Hv. assert (H : v = le_of (le_bytes 8 v)) by (symmetry; by apply le_of_le_bytes_id).
  rewrite H at 2. apply (parses_bind_ret _ le_of). apply (bytes_parses (le_bytes 8 v)).
Qed.

Lemma id_parses x : blen x = 32 -> parses id x x.
Proof. intros H. unfold id. rewrite <- H. apply bytes_parses. Qed.

Lemma bool_parses (x : bool) : parses bool_ [if x then x01 else x00] x.
Proof.
  rewrite <- (app_nil_r [_]). eapply parses_bind; [apply u8_parses|].
  destruct x; apply parses_ret.
Qed.

Lemma u32_safe : safe u32.
Proof. apply safe_bind; [by apply bytes_safe|solve_safe]. Qed.

Lemma u64_safe : safe u64.
Proof. apply safe_bind; [by apply bytes_safe|solve_safe]. Qed.

Lemma bool_safe : safe bool_.
Proof.
  apply safe_bind; [apply u8_safe|]. intros x. repeat apply safe_if; try apply safe_ret.
  apply safe_bind; [|solve_safe]. intros c [Hc _]. simpl. naive_solver lia.
Qed.

(** *** varuint32

    [fc_run n x]: [x] is a run of at most [n] groups, ended by a byte below 128 or by its
    [n]-th byte, whatever that byte is. *)
Fixpoint fc_run (n : nat) (x : bytes) : bool :=
  match n, x with
  | O, [] => true
  | S n, b :: t => if b2z b <? 128 then bool_decide (t = []) else fc_run n t
  | _, _ => false
  end.

Fixpoint shifts_from (k n : nat) : list Z :=
  match n with
  | O => []
  | S n => 7 * Z.of_nat k :: shifts_from (S k) n
  end.

(** One group or-ed in below 32 bits: exact up to shift 21, truncated at shift 28. *)
Lemma lor_group32 b k v :
  (k < 5)%nat -> 0 <= v < 2 ^ (7 * Z.of_nat k) ->
  Z.lor v (wrap32 (Z.shiftl (Z.land (b2z b) 127) (7 * Z.of_nat k)))
  = (v + 2 ^ (7 * Z.of_nat k) * (b2z b mod 128)) mod U32.
Proof.
  intros Hk Hv. rewrite group_bits, Z.shiftl_mul_pow2 by lia. unfold wrap32.
  pose proof (Z.mod_pos_bound (b2z b) 128 eq_refl) as Hw.
  set (w := b2z b mod 128) in *. set (s := 7 * Z.of_nat k) in *.
  assert (Hs : w * 2 ^ s mod U32 = (w mod 2 ^ (32 - s)) * 2 ^ s).
  { unfold U32. replace 32 with ((32 - s) + s) at 1 by lia.
    rewrite Z.pow_add_r, Zmult_mod_distr_r by lia. done. }
  rewrite Hs, <- Z.shiftl_mul_pow2, lor_shiftl_add, <- Hs by lia.
  rewrite <- Z.add_mod_idemp_r, (Z.mul_comm (2 ^ s)) by done.
  symmetry. apply Z.mod_small. rewrite Hs.
  assert (2 ^ (32 - s) * 2 ^ s = U32) by (rewrite <- Z.pow_add_r by lia; f_equal; lia).
  pose proof (Z.mod_pos_bound w (2 ^ (32 - s)) ltac:(apply Z.pow_pos_nonneg; lia)). nia.
Qed.

(** One group or-ed in below 64 bits: nothing is lost up to shift 35. *)
Lemma lor_group64 b k v :
  (k < 6)%nat -> 0 <= v < 2 ^ (7 * Z.of_nat k) ->
  Z.lor v (wrap64 (Z.shiftl (Z.land (b2z b) 127) (7 * Z.of_nat k)))
  = v + 2 ^ (7 * Z.of_nat k) * (b2z b mod 128).
Proof.
  intros Hk Hv. rewrite group_bits, Z.shiftl_mul_pow2 by lia. unfold wrap64.
  pose proof (Z.mod_pos_bound (b2z b) 128 eq_refl) as Hw.
  assert (Hk5 : 2 ^ (7 * Z.of_nat k) <= 2 ^ 35) by (apply Z.pow_le_mono_r; lia).
  change (2 ^ 35) with 34359738368 in Hk5. rewrite Z.mod_small.
  - rewrite <- Z.shiftl_mul_pow2, lor_shiftl_add by lia. lia.
  - set (P := 2 ^ (7 * Z.of_nat k)) in *. clearbody P.
    assert (0 <= b2z b mod 128 * P <= 127 * 34359738368) by nia. width_lia.
Qed.

(** What the groups up to [k] can hold. *)
Lemma group_step b k v :
  0 <= v < 2 ^ (7 * Z.of_nat k) ->
  0 <= v + 2 ^ (7 * Z.of_nat k) * (b2z b mod 128) < 2 ^ (7 * Z.of_nat (S k)) /\
  2 ^ (7 * Z.of_nat (S k)) = 128 * 2 ^ (7 * Z.of_nat k).
Proof.
  intros Hv. pose proof (Z.mod_pos_bound (b2z b) 128 eq_refl).
  replace (7 * Z.of_nat (S k)) with (7 + 7 * Z.of_nat k) by lia. rewrite Z.pow_add_r by lia.
  change (2 ^ 7) with 128. split; [nia|done].
Qed.

(** The groups above 32 bits do not change the value. *)
Lemma groups_mod v s w t :
  ((v + s * w) mod U32 + (s * 128) * t) mod U32 = (v + s * (w + 128 * t)) mod U32.
Proof. rewrite Z.add_mod_idemp_l by done. f_equal. lia. Qed.

Lemma varuint32_loop_parses n k v x :
  (k + n = 5)%nat -> 0 <= v < Z.min (2 ^ (7 * Z.of_nat k)) U32 -> fc_run n x = true ->
  parses (varuint32_loop (shifts_from k n) v) x
    ((v + 2 ^ (7 * Z.of_nat k) * leb_val x) mod U32).
Proof.
  revert k v x; induction n as [|n IH]; intros k v x Hk Hv Hx.
  - destruct x; [|done]. cbn [leb_val]. rewrite Z.mul_0_r, Z.add_0_r, Z.mod_small by lia.
    apply parses_ret.
  - destruct x as [|b t]; [done|]. cbn [fc_run] in Hx. cbn [shifts_from varuint32_loop leb_val].
    change (b :: t) with ([b] ++ t). eapply parses_bind; [apply u8_parses|].
    rewrite lor_group32 by lia. set (v' := (v + _) mod U32).
    destruct (Z.ltb_spec (b2z b) 128) as [Hb|Hb].
    + apply bool_decide_eq_true in Hx as ->. destruct (group_last b Hb) as [_ ->].
      cbn [leb_val]. rewrite Z.add_0_r. apply parses_ret.
    + destruct (group_more b Hb) as [_ ->].
      replace ((v + _ * (_ + _)) mod U32)
        with ((v' + 2 ^ (7 * Z.of_nat (S k)) * leb_val t) mod U32); [|unfold v'].
      * apply IH; [lia| |done]. pose proof (Z.mod_pos_bound (b2z b) 128 eq_refl).
        split; [by apply Z.mod_pos_bound|]. apply Z.min_glb_lt; [|by apply Z.mod_pos_bound].
        apply Z.le_lt_trans with (v + 2 ^ (7 * Z.of_nat k) * (b2z b mod 128)).
        { apply Z.mod_le; [|done]. apply Z.add_nonneg_nonneg; [lia|].
          apply Z.mul_nonneg_nonneg; lia. }
        replace (7 * Z.of_nat (S k)) with (7 * Z.of_nat k + 7) by lia.
        rewrite Z.pow_add_r by lia. change (2 ^ 7) with 128. nia.
      * rewrite <- groups_mod. do 3 f_equal.
        replace (7 * Z.of_nat (S k)) with (7 * Z.of_nat k + 7) by lia.
        rewrite Z.pow_add_r by lia. done.
Qed.

Lemma varuint32_parses x : fc_run 5 x = true -> parses varuint32 x (leb_val x mod U32).
Proof.
  intros Hx. pose proof (varuint32_loop_parses 5 0 0 x eq_refl ltac:(done) Hx) as H.
  rewrite Z.add_0_l, Z.mul_1_l in H. exact H.
Qed.

Lemma varuint32_loop_safe l v : safe (varuint32_loop l v).
Proof.
  revert v; induction l as [|s l IH]; intros v; cbn [varuint32_loop]; [apply safe_ret|].
  apply safe_bind; [apply u8_safe|]. intros b. apply safe_if; [apply safe_ret|apply IH].
Qed.

Lemma varuint32_safe : safe varuint32.
Proof. apply varuint32_loop_safe. Qed.

(** A slice starts with a run, or is a run cut short: fewer than [n] bytes, all continuing. *)
Lemma fc_run_split n l :
  (exists x s, l = x ++ s /\ fc_run n x = true) \/
  (blen l < Z.of_nat n /\ Forall (fun b => 128 <= b2z b) l).
Proof.
  revert l; induction n as [|n IH]; intros l; [left; by exists [], l|].
  destruct l as [|b l]; [right; rewrite blen_nil; split; [lia|constructor]|].
  destruct (Z.ltb_spec (b2z b) 128) as [Hb|Hb].
  - left. exists [b], l. split; [done|]. cbn [fc_run].
    destruct (Z.ltb_spec (b2z b) 128); [done|lia].
  - destruct (IH l) as [(x & s & -> & Hx)|[Hl Hf]]; [left|right].
    + exists (b :: x), s. split; [done|]. cbn [fc_run].
      destruct (Z.ltb_spec (b2z b) 128); [lia|done].
    + rewrite blen_cons. split; [lia|by constructor].
Qed.

(** Reading a run cut short is an error that leaves the cursor at the end. *)
Lemma varuint32_short l c v :
  cursor_wf c -> blen (rest c) < Z.of_nat (length l) ->
  Forall (fun b => 128 <= b2z b) (rest c) -> is_err (varuint32_loop l v c).1 = true.
Proof.
  revert c v; induction l as [|s l IH]; intros c v Hc Hl Hf.
  { pose proof (blen_nonneg (rest c)). simpl in Hl. lia. }
  cbn [varuint32_loop]. destruct (rest c) as [|b t] eqn:Hr.
  - unfold u8, sbind. rewrite bytes_spec by done. by rewrite Hr.
  - rewrite (sbind_Ok_eq _ _ _ _ _ (u8_parses b c t Hc Hr)).
    apply Forall_cons_1 in Hf as [Hb Hf]. destruct (group_more b Hb) as [_ ->].
    destruct (rest_adv c [b] t Hc Hr) as [Hc' Hr'].
    apply IH; rewrite ?Hr'; try done. rewrite blen_cons in Hl. simpl in Hl. lia.
Qed.

(** *** Stability under longer slices *)

Lemma bytes_stable n : stable (bytes_ n).
Proof.
  intros b y p a c. unfold bytes_. cbn [cb cpos]. destruct (checked_add64 p n); [|done].
  destruct (slice b p n) as [s|] eqn:Hs; [|done]. intros [= <- <-].
  rewrite (slice_app_l _ y _ _ _ Hs). by eexists.
Qed.

Lemma slift_stable {A} (r : result A) : stable (slift r).
Proof. intros b y p a c H. injection H as -> <-. by eexists. Qed.

Lemma u8_stable : stable u8.
Proof.
  apply stable_bind; [apply bytes_stable|intros s]. apply stable_bind; [apply slift_stable|solve_stable].
Qed.

Lemma u32_stable : stable u32.
Proof. apply stable_bind; [apply bytes_stable|solve_stable]. Qed.

Lemma u64_stable : stable u64.
Proof. apply stable_bind; [apply bytes_stable|solve_stable]. Qed.

Lemma varuint32_loop_stable l v : stable (varuint32_loop l v).
Proof.
  revert v; induction l as [|sh l IH]; intros v; cbn [varuint32_loop]; [apply stable_ret|].
  apply stable_bind; [apply u8_stable|]. intros x. apply stable_if; [apply stable_ret|apply IH].
Qed.

Lemma bool_stable : stable bool_.
Proof.
  apply stable_bind; [apply u8_stable|]. intros x. repeat apply stable_if; try apply stable_ret.
  intros b y p a c H. res_inv.
Qed.

End FcReaderFacts.

#[export] Hint Resolve u8_safe u32_safe u64_safe bool_safe varuint32_safe : safe.
#[export] Hint Resolve bytes_stable u8_stable u32_stable u64_stable varuint32_loop_stable bool_stable
  : stable.

(** ** PosFile: reads through a handle

    [views w f d]: the handle [f] is open on a regular file and shows its first [len f] bytes,
    [d]. A handle from [open] shows the whole file; [prefix] shortens it. *)
Definition views (w : world) (f : PosFile.t) (d : bytes) : Prop :=
  exists full, w_inodes w !! PosFile.file f = Some (File full) /\
    0 <= PosFile.len f <= blen full /\ PosFile.len f < U64 /\
    d = take (Z.to_nat (PosFile.len f)) full.

Section PosFileFacts.
Import PosFile.
Context (w : world).

Lemma views_len f d : views w f d -> blen d = len f.
Proof. intros (full & _ & Hl & _ & ->). by apply blen_take. Qed.

Lemma views_u64 f d : views w f d -> blen d < U64.
Proof. intros Hv. rewrite (views_len _ _ Hv). destruct Hv as (? & _ & _ & ? & _). done. Qed.

Lemma open_views p f full :
  open w p = Ok f -> w_inodes w !! file f = Some (File full) -> blen full < U64 -> views w f full.
Proof.
  unfold open. intros H Hi Hl. res_inv. destruct x0 as [d|]; [|done]. res_inv. subst f. simpl in *.
  assert (d = full) as -> by congruence. exists full. simpl. pose proof (blen_nonneg full). split; [done|].
  split; [lia|]. split; [lia|]. unfold blen. by rewrite Nat2Z.id, take_ge.
Qed.

Lemma prefix_views f d n f' :
  views w f d -> 0 <= n -> prefix f n = Ok f' -> views w f' (take (Z.to_nat n) d).
Proof.
  intros (full & Hi & Hl & Hu & ->) Hn. unfold prefix. intros H. res_inv. subst f'.
  exists full. simpl. split; [done|]. split; [lia|]. split; [lia|].
  rewrite take_take. f_equal. lia.
Qed.

(** A read is exactly a slice of what the handle shows, or an error that names the range. *)
Lemma read_exact_at_spec f d off n :
  views w f d -> 0 <= off -> 0 <= n ->
  read_exact_at w f off n =
    match slice d off n with Some s => Ok s | None => Err (EReadPastEnd n off (len f)) end.
Proof.
  intros Hv Ho Hn. pose proof (views_len _ _ Hv) as Hd. destruct Hv as (full & Hi & Hl & Hu & ->).
  unfold read_exact_at, check_range, checked_add64, pread_exact. rewrite Hi.
  destruct (slice (take _ full) off n) as [s|] eqn:Hs.
  - apply slice_Some in Hs as (_ & _ & Hle & ->). rewrite Hd in Hle.
    destruct (Z.ltb_spec (off + n) U64); [|lia].
    destruct (Z.leb_spec (off + n) (len f)); [|lia]. simpl.
    rewrite (proj2 (slice_Some full off n (take (Z.to_nat n) (drop (Z.to_nat off) full)))).
    2: { split; [lia|]. split; [lia|]. split; [lia|done]. }
    simpl. f_equal. rewrite skipn_firstn_comm, take_take. f_equal. lia.
  - apply slice_None in Hs. rewrite Hd in Hs.
    destruct (Z.ltb_spec (off + n) U64); [|done].
    destruct (Z.leb_spec (off + n) (len f)); [lia|done].
Qed.

Lemma read_vec_spec f d off n :
  views w f d -> 0 <= off -> 0 <= n ->
  read_vec w f off n =
    match slice d off n with Some s => Ok s | None => Err (EReadPastEnd n off (len f)) end.
Proof.
  intros Hv Ho Hn. rewrite <- (read_exact_at_spec f d off n) by done.
  unfold read_vec, read_exact_at. by destruct (check_range f off n).
Qed.

Lemma u64_at_Ok f d off v :
  views w f d -> 0 <= off ->
  u64_at w f off = Ok v <-> exists s, slice d off 8 = Some s /\ v = le_of s.
Proof.
  intros Hv Ho. unfold u64_at, array_at. rewrite (read_exact_at_spec f d) by done.
  destruct (slice d off 8); simpl; naive_solver.
Qed.

Lemma u32_at_Ok f d off v :
  views w f d -> 0 <= off ->
  u32_at w f off = Ok v <-> exists s, slice d off 4 = Some s /\ v = le_of s.
Proof.
  intros Hv Ho. unfold u32_at, array_at. rewrite (read_exact_at_spec f d) by done.
  destruct (slice d off 4); simpl; naive_solver.
Qed.

(** No read panics, whatever the range. *)
Lemma read_exact_at_no_panic f off n : no_panic (read_exact_at w f off n).
Proof.
  unfold read_exact_at, check_range, pread_exact. solve_no_panic.
Qed.

Lemma read_vec_no_panic f off n : no_panic (read_vec w f off n).
Proof.
  unfold read_vec, check_range. solve_no_panic. apply read_exact_at_no_panic.
Qed.

Lemma u64_at_no_panic f off : no_panic (u64_at w f off).
Proof. unfold u64_at, array_at. solve_no_panic. apply read_exact_at_no_panic. Qed.

Lemma u32_at_no_panic f off : no_panic (u32_at w f off).
Proof. unfold u32_at, array_at. solve_no_panic. apply read_exact_at_no_panic. Qed.

End PosFileFacts.

#[export] Hint Resolve read_exact_at_no_panic read_vec_no_panic u64_at_no_panic u32_at_no_panic
  : no_panic.

(** ** FileCache: bound, transparency and eviction order *)
Section LruFacts.
Import Lru.

Definition entry : Type := string * (PosFile.t * Z).

Lemma min_by_used_Some l p u :
  min_by_used l = Some (p, u) ->
  (exists f, (p, (f, u)) ∈ l) /\ (forall q f v, (q, (f, v)) ∈ l -> u <= v).
Proof.
  revert p u; induction l as [|[q [g v]] l IH]; intros p u; cbn [min_by_used]; [done|].
  destruct (min_by_used l) as [[p' u']|] eqn:Hm.
  - destruct (IH _ _ eq_refl) as [[f Hf] Hmin]. destruct (Z.leb_spec v u'); intros [= <- <-].
    + split; [exists g; by left|]. intros q' f' v' [Hq|Hq]%elem_of_cons; [|apply Hmin in Hq];
        simplify_eq; lia.
    + split; [exists f; by right|]. intros q' f' v' [Hq|Hq]%elem_of_cons; [simplify_eq; lia|].
      by apply Hmin in Hq.
  - intros [= <- <-]. split; [exists g; by left|]. intros q' f' v' [Hq|Hq]%elem_of_cons.
    + simplify_eq. lia.
    + destruct l as [|[? [? ?]]]; [by apply elem_of_nil in Hq|]. cbn [min_by_used] in Hm.
      repeat case_match; done.
Qed.

Lemma min_by_used_None l : min_by_used l = None -> l = [].
Proof. destruct l as [|[? [? ?]]]; [done|]. simpl. repeat case_match; done. Qed.

(** One eviction drops an entry whose stamp is the smallest. *)
Lemma evict_oldest_spec l :
  open l <> ∅ ->
  exists p f u, open l !! p = Some (f, u) /\ open (evict_oldest l) = delete p (open l) /\
    clock (evict_oldest l) = clock l /\
    (forall q g v, open l !! q = Some (g, v) -> u <= v).
Proof.
  intros Hne. unfold evict_oldest. destruct (min_by_used _) as [[p u]|] eqn:Hm.
  - apply min_by_used_Some in Hm as [[f Hf] Hmin]. exists p, f, u.
    rewrite elem_of_map_to_list in Hf. split; [done|]. split; [done|]. split; [done|].
    intros q g v Hq. apply (Hmin q g v). by apply elem_of_map_to_list.
  - apply min_by_used_None, map_to_list_empty_iff in Hm. done.
Qed.

Lemma evict_oldest_size l :
  open l <> ∅ -> S (size (open (evict_oldest l))) = size (open l).
Proof.
  intros Hne. destruct (evict_oldest_spec l Hne) as (p & f & u & Hp & -> & _).
  rewrite map_size_delete_Some by eauto. apply map_size_non_empty_iff in Hne. lia.
Qed.

(** What [evict] keeps and drops: it stops below the cap, and every dropped stamp is at most
    every kept one. *)
Lemma evict_loop_spec fuel cap l :
  1 <= cap -> (size (open l) <= fuel)%nat ->
  let l' := evict_loop fuel cap l in
  clock l' = clock l /\ open l' ⊆ open l /\ Z.of_nat (size (open l')) < cap /\
  (Z.of_nat (size (open l)) < cap -> l' = l) /\
  (forall p f u q g v, open l !! p = Some (f, u) -> open l' !! p = None ->
     open l' !! q = Some (g, v) -> u <= v).
Proof.
  intros Hcap. revert l; induction fuel as [|fuel IH]; intros l Hf; cbn [evict_loop].
  - assert (open l = ∅) as He by (apply map_size_empty_iff; lia). simpl. rewrite He.
    split; [done|]. split; [done|]. rewrite map_size_empty. split; [lia|]. split; [done|].
    intros; simplify_map_eq.
  - destruct (Z.leb_spec cap (Z.of_nat (size (open l)))) as [Hc|Hc]; simpl.
    + assert (open l <> ∅) as Hne by (intros He; rewrite He, map_size_empty in Hc; lia).
      pose proof (evict_oldest_size l Hne) as Hs.
      destruct (evict_oldest_spec l Hne) as (p & f & u & Hp & Ho & Hk & Hmin).
      destruct (IH (evict_oldest l) ltac:(lia)) as (Hk' & Hsub & Hlt & _ & Hord).
      rewrite Ho in Hsub, Hord. split; [congruence|].
      assert (Hsub' : open (evict_loop fuel cap (evict_oldest l)) ⊆ open l)
        by (etransitivity; [apply Hsub|apply delete_subseteq]).
      split; [done|]. split; [done|]. split; [lia|].
      intros p' f' u' q g v Hp' Hn Hq. destruct (decide (p' = p)) as [->|Hpp].
      * simplify_eq. apply (Hmin q g v). by eapply lookup_weaken.
      * apply (Hord p' f' u' q g v); [by rewrite lookup_delete_ne|done|done].
    + split; [done|]. split; [done|]. split; [done|]. split; [done|]. naive_solver.
Qed.

End LruFacts.

(** *** Threads sharing the cache

    [get] holds the lock in two critical sections and opens the file between them, so several
    threads interleave at that grain. A state is the cache and the opens in progress; a step's
    label is the handle a call returned, if one did. The file system is frozen. *)
Section Interleaving.
Import FileCache.
Context (w : world).

Definition cstate : Type := t * list (string * PosFile.t).

Inductive cstep : cstate -> option (string * PosFile.t) -> cstate -> Prop :=
| cstep_hit c c' pend p f :
    get_hit p c = (Some f, c') -> cstep (c, pend) (Some (p, f)) (c', pend)
| cstep_miss c c' pend p f :
    get_hit p c = (None, c') -> PosFile.open w p = Ok f ->
    cstep (c, pend) None (c', (p, f) :: pend)
| cstep_fail c c' pend p e :
    get_hit p c = (None, c') -> PosFile.open w p = Err e -> cstep (c, pend) None (c', pend)
| cstep_insert c c' pend1 pend2 p f g :
    get_insert p f c = (g, c') ->
    cstep (c, pend1 ++ (p, f) :: pend2) (Some (p, g)) (c', pend1 ++ pend2).

Inductive csteps : cstate -> cstate -> Prop :=
| csteps_refl s : csteps s s
| csteps_step s1 l s2 s3 : csteps s1 s2 -> cstep s2 l s3 -> csteps s1 s3.

(** Every handle held or being inserted is the one opening its path gives, and at most [cap]
    are held. *)
Definition opened (p : string) (f : PosFile.t) : Prop := PosFile.open w p = Ok f.

Definition cache_inv (c : t) : Prop :=
  1 <= cap c /\ Z.of_nat (size (Lru.open (lru c))) <= cap c /\
  (forall p f u, Lru.open (lru c) !! p = Some (f, u) -> opened p f).

Definition cstate_inv (s : cstate) : Prop :=
  cache_inv s.1 /\ Forall (fun pf => opened pf.1 pf.2) s.2.

Lemma touch_inv p l f l' n :
  Lru.touch p l = (f, l') ->
  (forall q g u, Lru.open l !! q = Some (g, u) -> opened q g) ->
  Z.of_nat (size (Lru.open l)) <= n ->
  Z.of_nat (size (Lru.open l')) <= n /\
  (forall q g u, Lru.open l' !! q = Some (g, u) -> opened q g) /\
  (forall g, f = Some g -> opened p g) /\
  (f = None -> Lru.open l' !! p = None).
Proof.
  unfold Lru.touch. intros Ht Ho Hn.
  destruct (Lru.open l !! p) as [[g u]|] eqn:Hp; injection Ht as <- <-; simpl.
  - rewrite map_size_insert_Some by eauto. split; [done|]. split; [|naive_solver].
    intros q g' u' [[-> [= <- <-]]|[? Hq]]%lookup_insert_Some; eauto.
  - split; [done|]. split; [done|]. naive_solver.
Qed.

Lemma get_hit_inv p c f c' :
  get_hit p c = (f, c') -> cache_inv c ->
  cache_inv c' /\ (forall g, f = Some g -> opened p g).
Proof.
  unfold get_hit. destruct (Lru.touch p (lru c)) as [o l] eqn:Ht. intros [= <- <-] (H1 & H2 & H3).
  destruct (touch_inv _ _ _ _ _ Ht H3 H2) as (? & ? & ? & ?). done.
Qed.

Lemma get_insert_inv p f c g c' :
  get_insert p f c = (g, c') -> opened p f -> cache_inv c -> cache_inv c' /\ opened p g.
Proof.
  unfold get_insert. intros Hg Hf (H1 & H2 & H3).
  destruct (Lru.touch p (lru c)) as [o l] eqn:Ht.
  destruct (touch_inv _ _ _ _ _ Ht H3 H2) as (Hs & Ho & Hr & Hn).
  destruct o as [r|]; injection Hg as <- <-; [by repeat split; auto|].
  destruct (evict_loop_spec (size (Lru.open l)) (cap c) l H1 ltac:(done))
    as (_ & Hsub & Hlt & _ & _). fold (Lru.evict (cap c) l) in *.
  split; [|done]. split; [done|]. split; simpl.
  - rewrite map_size_insert_None; [lia|].
    destruct (Lru.open (Lru.evict (cap c) l) !! p) eqn:Hl; [|done].
    eapply lookup_weaken in Hl; [|done]. rewrite Hn in Hl by done. done.
  - intros q g u [[-> [= <- <-]]|[? Hq]]%lookup_insert_Some; [done|].
    eapply Ho, lookup_weaken; eauto.
Qed.

Lemma cstep_inv s l s' :
  cstep s l s' -> cstate_inv s ->
  cstate_inv s' /\ (forall p f, l = Some (p, f) -> opened p f).
Proof.
  intros Hs [Hc Hp]. inversion Hs as [? ? ? ? ? Hg|? ? ? ? ? Hg Ho|? ? ? ? ? Hg|? ? ? ? ? ? ? Hg];
    subst; simpl in *.
  1-3: destruct (get_hit_inv _ _ _ _ Hg Hc) as [Hc' Hf]; split; [|naive_solver]; split; simpl;
    auto using Forall_cons_2.
  apply Forall_app in Hp as [Hp1 [Hf Hp2]%Forall_cons_1].
  destruct (get_insert_inv _ _ _ _ _ Hg Hf Hc) as [Hc' Hg']. split; [|naive_solver].
  split; [done|]. simpl. by apply Forall_app_2.
Qed.

Lemma csteps_inv n s : csteps (new n, []) s -> cstate_inv s.
Proof.
  remember (new n, []) as s0 eqn:E. induction 1 as [s|s1 l s2 s3 H IH Hs]; subst.
  - split; [|constructor]. split; [simpl; lia|]. simpl. rewrite map_size_empty.
    split; [lia|]. intros; simplify_map_eq.
  - destruct (cstep_inv _ _ _ Hs (IH eq_refl)). done.
Qed.

End Interleaving.

(** ** The interface the log readers use

    A log reader asks the cache for the handle of a path on every access. What it relies on is
    that the handle shows some bytes of a regular file, or that the call fails. *)
Class FileSource (w : world) := {
  fget : string -> result PosFile.t;
  fget_views : forall p f, fget p = Ok f -> exists d, views w f d;
  fget_no_panic : forall p, no_panic (fget p)
}.
#[export] Hint Resolve fget_no_panic : no_panic.

(** The bytes of every regular file fit a [u64] length. *)
Definition world_ok (w : world) : Prop :=
  forall i d, w_inodes w !! i = Some (File d) -> blen d < U64.

Lemma open_no_panic w p : no_panic (PosFile.open w p).
Proof.
  unfold PosFile.open. destruct (w_names w !! p) as [i|]; simpl; [|done].
  by destruct (w_inodes w !! i) as [[]|].
Qed.

Lemma open_some_views w p f : world_ok w -> PosFile.open w p = Ok f -> exists d, views w f d.
Proof.
  intros Hw Ho. pose proof Ho as Ho'. unfold PosFile.open in Ho. res_inv.
  destruct x0 as [d|]; [|done]. res_inv. exists d. eapply open_views; [done| |].
  - by subst f.
  - eauto.
Qed.

(** Reading through a cache in a reachable state: the cache's own state does not show. *)
Program Definition cache_source (w : world) (Hw : world_ok w) (c : FileCache.t)
    (Hc : cache_inv w c) (Hp : FileCache.pinned c = None) : FileSource w :=
  {| fget p := (FileCache.get w p c).1 |}.
Next Obligation.
  intros w Hw c Hc Hp p f H. unfold FileCache.get in H. rewrite Hp in H.
  destruct (FileCache.get_hit p c) as [[g|] c'] eqn:Hh.
  - apply get_hit_inv with (w := w) in Hh as [_ Hg]; [|done]. simpl in H.
    injection H as <-. eapply open_some_views; [done|]. by apply Hg.
  - destruct (PosFile.open w p) as [g| |] eqn:Ho; try done.
    destruct (FileCache.get_insert p g c') as [g' c''] eqn:Hi. simpl in H. injection H as <-.
    apply get_hit_inv with (w := w) in Hh as [Hc' _]; [|done].
    eapply get_insert_inv in Hi as [_ Hg]; [|done|done]. by eapply open_some_views.
Qed.
Next Obligation.
  intros w Hw c Hc Hp p. unfold FileCache.get. rewrite Hp. pose proof (open_no_panic w p) as Ho.
  destruct (FileCache.get_hit p c) as [[g|] c']; [done|].
  destruct (PosFile.open w p); [by destruct (FileCache.get_insert p a c')|done|done].
Qed.

(** Opening each path afresh: what every cache is equivalent to. *)
Program Definition direct_source (w : world) (Hw : world_ok w) : FileSource w :=
  {| fget := PosFile.open w |}.
Next Obligation. intros; by eapply open_some_views. Qed.
Next Obligation. intros; apply open_no_panic. Qed.

(** A file system that holds just these files, for concrete examples. *)
Definition world_of (files : list (string * bytes)) : world :=
  mkWorld (list_to_map (zip files.*1 (Z.of_nat <$> seq 0 (length files))))
          (list_to_map (zip (Z.of_nat <$> seq 0 (length files)) (File <$> files.*2))).

Lemma world_of_ok files :
  Forall (fun f => blen f.2 < U64) files -> world_ok (world_of files).
Proof.
  intros Hf i d H. apply elem_of_list_to_map_2, elem_of_zip_r in H.
  apply list_elem_of_fmap in H as (d' & [= ->] & H). apply list_elem_of_fmap in H as ([p d''] & -> & H).
  apply list_elem_of_lookup_1 in H as [j H]. apply (Forall_lookup_1 _ _ _ _ Hf H).
Qed.

(** ** Properties *)

(** [FcReader::varuint32] reads exactly one run of at most five groups, non-canonical ones
    and a fifth byte with its continuation bit included, returns its low 32 bits and moves past
    it; it fails exactly when the slice ends inside a run; it never panics. *)
Lemma varuint32_exact (c : cursor) (Hc : cursor_wf c) :
  (exists x s, rest c = x ++ s /\ fc_run 5 x = true /\
     FcReader.varuint32 c = (Ok (leb_val x mod U32), adv c (blen x))) \/
  (blen (rest c) < 5 /\ Forall (fun b => 128 <= b2z b) (rest c) /\
     is_err (FcReader.varuint32 c).1 = true).
Proof.
  destruct (fc_run_split 5 (rest c)) as [(x & s & Hr & Hx)|[Hl Hf]].
  - left. exists x, s. split; [done|]. split; [done|]. by apply (varuint32_parses x Hx c s).
  - right. split; [done|]. split; [done|]. by apply varuint32_short.
Qed.

Lemma varuint32_exact_witness :
  let c := mkCursor [x00; xff; xff; xff; xff; xff; x2a] 1 in
  cursor_wf c /\
  ((exists x s, rest c = x ++ s /\ fc_run 5 x = true /\
     FcReader.varuint32 c = (Ok (leb_val x mod U32), adv c (blen x))) \/
   (blen (rest c) < 5 /\ Forall (fun b => 128 <= b2z b) (rest c) /\
     is_err (FcReader.varuint32 c).1 = true)) /\
  FcReader.varuint32 c = (Ok 4294967295, adv c 5).
Proof.
  split; [split; vm_compute; intuition congruence|]. split; [|by vm_compute].
  apply varuint32_exact. split; vm_compute; intuition congruence.
Defined.

(** C37: however threads interleave inside [FileCache::get] (the lock is released while a file is
    opened), the cache never holds more than its cap of open files, and every handle a call
    returns is the one that opening the path gives: on a frozen file system the cache is
    invisible to its readers. *)
Theorem cache_interleavings (w : world) (n : Z) (s : cstate)
    (Hs : csteps w (FileCache.new n, []) s) :
  FileCache.open_files s.1 <= Z.max n 1 /\
  (forall p f s', cstep w s (Some (p, f)) s' -> PosFile.open w p = Ok f).
Proof.
  pose proof (csteps_inv w n s Hs) as Hi. split.
  - assert (Hc : FileCache.cap s.1 = Z.max n 1 /\ FileCache.pinned s.1 = None).
    { clear Hi. remember (FileCache.new n, []) as s0 eqn:E.
      induction Hs as [s|s1 l s2 s3 H IH Hst]; subst; [done|]. destruct (IH eq_refl) as [Hc Hp].
      clear IH H. inversion Hst; subst; simpl in *; unfold FileCache.get_hit, FileCache.get_insert in *;
        repeat case_match; simplify_eq; done. }
    destruct Hc as [Hc Hp], Hi as [(_ & Hsz & _) _]. unfold FileCache.open_files. rewrite Hp. lia.
  - intros p f s' Hst. by destruct (cstep_inv w _ _ _ Hst Hi) as [_ Hf]; apply Hf.
Qed.

Lemma cache_interleavings_witness :
  let w := mkWorld {[ "a" := 1; "b" := 2 ]} {[ 1 := File [x61]; 2 := File [x62] ]} in
  let fa := PosFile.mk 1 1 "a" in
  let c1 := (FileCache.get_hit "a" (FileCache.new 1)).2 in
  let c2 := (FileCache.get_hit "b" c1).2 in
  let c3 := (FileCache.get_insert "b" (PosFile.mk 2 1 "b") c2).2 in
  FileCache.open_files c3 <= 1 /\
  (forall p f s', cstep w (c3, [("a", fa)]) (Some (p, f)) s' -> PosFile.open w p = Ok f).
Proof.
  intros w fa c1 c2 c3.
  apply (cache_interleavings w 1 (c3, [("a", fa)])).
  apply (csteps_step w _ (Some ("b", PosFile.mk 2 1 "b")) (c2, [("b", PosFile.mk 2 1 "b"); ("a", fa)])).
  2: { apply (cstep_insert w c2 c3 [] [("a", fa)] "b" (PosFile.mk 2 1 "b")). by vm_compute. }
  apply (csteps_step w _ None (c1, [("a", fa)])).
  2: { apply cstep_miss; by vm_compute. }
  apply (csteps_step w _ None (FileCache.new 1, [])); [apply csteps_refl|].
  apply cstep_miss; by vm_compute.
Defined.

(** A miss on a full cache closes the least recently used files. The new handle is held with
    the newest stamp, no file used later than a kept one is closed, nothing is closed while there
    is room, and the cap holds. *)
Lemma get_evicts_least_recent (w : world) (c : FileCache.t) (p : string) (f : PosFile.t)
    (Hi : cache_inv w c) (Hpin : FileCache.pinned c = None)
    (Hmiss : Lru.open (FileCache.lru c) !! p = None) (Hopen : PosFile.open w p = Ok f)
    (Hclk : 0 <= Lru.clock (FileCache.lru c) < U64 - 2) :
  let before := Lru.open (FileCache.lru c) in
  let c' := (FileCache.get w p c).2 in
  let after := Lru.open (FileCache.lru c') in
  (FileCache.get w p c).1 = Ok f /\
  after !! p = Some (f, Lru.clock (FileCache.lru c) + 2) /\
  Z.of_nat (size after) <= FileCache.cap c /\
  (forall q g v, after !! q = Some (g, v) -> q <> p -> before !! q = Some (g, v)) /\
  (forall q g v r h u, before !! q = Some (g, v) -> after !! q = None ->
     after !! r = Some (h, u) -> r <> p -> v <= u) /\
  (Z.of_nat (size before) < FileCache.cap c -> after = <[p := (f, Lru.clock (FileCache.lru c) + 2)]> before).
Proof.
  intros before c' after. destruct Hi as (Hcap & Hsz & _).
  unfold after, c', FileCache.get, FileCache.get_hit, FileCache.get_insert. rewrite Hpin.
  unfold Lru.touch. rewrite Hmiss. simpl. rewrite Hopen. simpl. rewrite Hmiss. simpl.
  set (l := Lru.mk (add64 (add64 (Lru.clock (FileCache.lru c)) 1) 1) (Lru.open (FileCache.lru c))).
  fold before in Hmiss, Hsz.
  destruct (evict_loop_spec (size (Lru.open l)) (FileCache.cap c) l Hcap ltac:(done))
    as (Hk & Hsub & Hlt & Hsame & Hord). fold (Lru.evict (FileCache.cap c) l) in *.
  assert (Hnone : Lru.open (Lru.evict (FileCache.cap c) l) !! p = None).
  { destruct (Lru.open (Lru.evict (FileCache.cap c) l) !! p) as [x|] eqn:Hl; [|done].
    eapply lookup_weaken in Hl; [|done]. change (before !! p = Some x) in Hl. congruence. }
  assert (Hck : Lru.clock (Lru.evict (FileCache.cap c) l) = Lru.clock (FileCache.lru c) + 2).
  { rewrite Hk. simpl. unfold add64, wrap64.
    rewrite (Z.mod_small (Lru.clock (FileCache.lru c) + 1)) by lia. rewrite Z.mod_small; lia. }
  rewrite Hck. split; [done|]. split; [by rewrite lookup_insert_eq|].
  split; [rewrite map_size_insert_None by done; lia|]. split; [|split].
  - intros q g v Hq Hqp. rewrite lookup_insert_ne in Hq by done. by eapply lookup_weaken in Hq.
  - intros q g v r h u Hq Hn Hr Hrp. rewrite lookup_insert_ne in Hr by done.
    apply lookup_insert_None in Hn as [Hn _]. by eapply Hord.
  - intros Hroom. by rewrite Hsame.
Qed.

Lemma get_evicts_least_recent_witness :
  let w := mkWorld {[ "a" := 1; "b" := 2; "c" := 3 ]}
             {[ 1 := File [x61]; 2 := File [x62]; 3 := File [x63] ]} in
  let c1 := (FileCache.get w "a" (FileCache.new 2)).2 in
  let c2 := (FileCache.get w "b" c1).2 in
  let c := (FileCache.get w "a" c2).2 in
  let after := Lru.open (FileCache.lru (FileCache.get w "c" c).2) in
  (FileCache.get w "c" c).1 = Ok (PosFile.mk 3 1 "c") /\
  after !! "b" = None /\ after !! "a" <> None.
Proof.
  intros w c1 c2 c after.
  destruct (get_evicts_least_recent w c "c" (PosFile.mk 3 1 "c")) as [H _].
  - split; [by vm_compute|]. split; [by vm_compute|]. intros p g u Hp.
    assert (Hl : (p, (g, u)) ∈ map_to_list (Lru.open (FileCache.lru c)))
      by (by apply elem_of_map_to_list).
    vm_compute in Hl. repeat (apply elem_of_cons in Hl as [Hl|Hl]; [injection Hl as -> -> ->; by vm_compute|]).
    by apply elem_of_nil in Hl.
  - by vm_compute.
  - by vm_compute.
  - by vm_compute.
  - vm_compute. intuition congruence.
  - split; [exact H|]. split; [by vm_compute|]. by vm_compute.
Defined.
