(* ===== verification/Protocol.v ===== *)
(** * The SHiP wire protocol ([crates/core/src/protocol.rs])

    Request decoding with fc semantics, request encoding as a client sends it, and the status and
    result encoders. The theorems are the round trip of requests, the safety of the decoder on
    any input, and the layout of status and result messages that routers rely on. *)

From S2P Require Import Prelude.
From S2P Require Import Errors.
From S2P Require Import Cursor.
From S2P Require Import Binio.

Definition RESULT_STATUS_V0 : Z := 0.
Definition RESULT_BLOCKS_V0 : Z := 1.
Definition RESULT_BLOCKS_V1 : Z := 2.
Definition RESULT_STATUS_V1 : Z := 3.
Definition STATUS_V0_LEN : Z := 121.
Definition STATUS_V1_LEN : Z := 129.
Definition MAX_HAVE_POSITIONS : Z := 1024 * 1024.
Definition MAX_BLOCK_BYTES : Z := 20 * 1024 * 1024.
Definition REQ_STATUS_V0 : Z := 0.
Definition REQ_BLOCKS_V0 : Z := 1.
Definition REQ_ACK : Z := 2.
Definition REQ_BLOCKS_V1 : Z := 3.
Definition REQ_STATUS_V1 : Z := 4.
Definition POS_LEN : Z := 4 + 32.

(** [id] is a [[u8; 32]]. *)
Record BlockPos := mkPos { bp_num : Z; bp_id : bytes }.

#[export] Instance BlockPos_eq_dec : EqDecision BlockPos.
Proof. solve_decision. Defined.

Definition BlockPos_default : BlockPos := mkPos 0 (replicate 32 x00).

Record BlocksReq := mkReq {
  rq_v1 : bool;
  rq_start : Z;
  rq_end : Z;
  rq_max_in_flight : Z;
  rq_have_positions : list BlockPos;
  rq_irreversible_only : bool;
  rq_fetch_block : bool;
  rq_fetch_traces : bool;
  rq_fetch_deltas : bool;
  rq_fetch_finality_data : bool
}.

Definition BlocksReq_default : BlocksReq :=
  mkReq false 0 0 0 [] false false false false false.

Inductive Request :=
| ReqStatus (v1 : bool)
| ReqBlocks (r : BlocksReq)
| ReqAck (n : Z).

(** ** Decoding *)

Definition decode_pos : FcReader.reader BlockPos :=
  let! n := FcReader.u32 in
  let! i := FcReader.id in
  sret (mkPos n i).

Definition decode_blocks (v1 : bool) : FcReader.reader BlocksReq :=
  let! start := FcReader.u32 in
  let! end_ := FcReader.u32 in
  let! max_in_flight := FcReader.u32 in
  let! count := FcReader.varuint32 in
  do! sensure (count <=? MAX_HAVE_POSITIONS) (ETooManyPositions count) ;;
  let! have_positions :=
    for_count count (fun acc => let! p := decode_pos in sret (acc ++ [p])) [] in
  let! irreversible_only := FcReader.bool_ in
  let! fetch_block := FcReader.bool_ in
  let! fetch_traces := FcReader.bool_ in
  let! fetch_deltas := FcReader.bool_ in
  let! fetch_finality_data := (if v1 then FcReader.bool_ else sret false) in
  sret (mkReq v1 start end_ max_in_flight have_positions irreversible_only fetch_block
          fetch_traces fetch_deltas fetch_finality_data).

Definition request_reader : FcReader.reader Request :=
  let! idx := FcReader.varuint32 in
  if idx =? REQ_STATUS_V0 then sret (ReqStatus false)
  else if idx =? REQ_STATUS_V1 then sret (ReqStatus true)
  else if idx =? REQ_BLOCKS_V0 then let! r := decode_blocks false in sret (ReqBlocks r)
  else if idx =? REQ_BLOCKS_V1 then let! r := decode_blocks true in sret (ReqBlocks r)
  else if idx =? REQ_ACK then let! n := FcReader.u32 in sret (ReqAck n)
  else sfail (EVariantOutOfRange idx).

Definition decode_request (b : bytes) : result Request := (request_reader (FcReader.new b)).1.

(** ** Encoding *)

Definition push (out : bytes) (v : Z) : bytes := out ++ [z2b v].

Definition put_u32 (out : bytes) (v : Z) : bytes := out ++ le_bytes 4 v.

Definition put_pos (out : bytes) (p : BlockPos) : bytes := put_u32 out (bp_num p) ++ bp_id p.

(** The [loop] of [put_varuint]: ten groups hold any [u64]. *)
Fixpoint put_varuint_loop (fuel : nat) (out : bytes) (v : Z) : bytes :=
  match fuel with
  | O => out
  | S fuel =>
      let b := Z.land v 127 in
      let v := Z.shiftr v 7 in
      if v =? 0 then push out b else put_varuint_loop fuel (push out (Z.lor b 128)) v
  end.

Definition put_varuint (out : bytes) (v : Z) : bytes := put_varuint_loop 10 out v.

(** [u8::from(flag)]. *)
Definition flag (x : bool) : byte := if x then x01 else x00.

Definition encode_request (req : Request) : bytes :=
  match req with
  | ReqStatus v1 => push [] (if v1 then REQ_STATUS_V1 else REQ_STATUS_V0)
  | ReqAck n => put_u32 (push [] REQ_ACK) n
  | ReqBlocks r =>
      let out := push [] (if rq_v1 r then REQ_BLOCKS_V1 else REQ_BLOCKS_V0) in
      let out := foldl put_u32 out [rq_start r; rq_end r; rq_max_in_flight r] in
      let out := put_varuint out (blen (rq_have_positions r)) in
      let out := foldl put_pos out (rq_have_positions r) in
      let out := out ++ (flag <$> [rq_irreversible_only r; rq_fetch_block r; rq_fetch_traces r; rq_fetch_deltas r]) in
      if rq_v1 r then out ++ [flag (rq_fetch_finality_data r)] else out
  end.

Record Status := mkStatus {
  st_head : BlockPos;
  st_lib : BlockPos;
  st_trace : Z * Z;
  st_chain_state : Z * Z;
  st_finality : Z * Z;
  st_chain_id : bytes
}.

Definition encode_status (v1 : bool) (s : Status) : bytes :=
  let out := push [] (if v1 then RESULT_STATUS_V1 else RESULT_STATUS_V0) in
  let out := put_pos out (st_head s) in
  let out := put_pos out (st_lib s) in
  let out := foldl (fun out r => put_u32 (put_u32 out r.1) r.2) out [st_trace s; st_chain_state s] in
  let out := out ++ st_chain_id s in
  if v1 then put_u32 (put_u32 out (st_finality s).1) (st_finality s).2 else out.

Definition encode_opt_pos (out : bytes) (p : option BlockPos) : bytes :=
  match p with
  | Some p => put_pos (push out 1) p
  | None => push out 0
  end.

(** [expect("a block longer than u32::MAX bytes has no SHiP encoding")] panics. *)
Definition encode_result_base (head lib : BlockPos) (this prev : option BlockPos)
    (block : option bytes) : result bytes :=
  let out := put_pos [] head in
  let out := put_pos out lib in
  let out := foldl encode_opt_pos out [this; prev] in
  match block with
  | Some b =>
      let? len := or_panic (if blen b <? U32 then Some (blen b) else None) in
      Ok (put_varuint (push out 1) len ++ b)
  | None => Ok (push out 0)
  end.

Definition encode_opt_len (len : option Z) : bytes :=
  match len with
  | Some len => put_varuint (push [] 1) len
  | None => push [] 0
  end.

Definition result_variant (v1 : bool) : Z := if v1 then RESULT_BLOCKS_V1 else RESULT_BLOCKS_V0.

(** ** The varuint encoder *)

(** The bytes [put_varuint] appends. *)
Fixpoint leb (fuel : nat) (v : Z) : bytes :=
  match fuel with
  | O => []
  | S fuel =>
      if Z.shiftr v 7 =? 0 then [z2b (Z.land v 127)]
      else z2b (Z.lor (Z.land v 127) 128) :: leb fuel (Z.shiftr v 7)
  end.

Definition varuint (v : Z) : bytes := leb 10 v.

Lemma put_varuint_loop_leb fuel out v : put_varuint_loop fuel out v = out ++ leb fuel v.
Proof.
  revert out v; induction fuel as [|fuel IH]; intros out v; simpl; [by rewrite app_nil_r|].
  unfold push. case_match; [done|]. by rewrite IH, <- app_assoc.
Qed.

Lemma put_varuint_app out v : put_varuint out v = out ++ varuint v.
Proof. apply put_varuint_loop_leb. Qed.

Lemma group_byte_last v : 0 <= v < 128 -> b2z (z2b (Z.land v 127)) = v.
Proof.
  intros H. change 127 with (Z.ones 7). rewrite b2z_z2b, Z.land_ones by lia.
  change (2 ^ 7) with 128. rewrite (Z.mod_small v 128) by lia. apply Z.mod_small. lia.
Qed.

Lemma group_byte_more v :
  0 <= v -> b2z (z2b (Z.lor (Z.land v 127) 128)) = v mod 128 + 128.
Proof.
  intros H. change 127 with (Z.ones 7). rewrite Z.land_ones by lia.
  change (2 ^ 7) with 128. pose proof (Z.mod_pos_bound v 128 eq_refl).
  change 128 with (Z.shiftl 1 7) at 2. rewrite lor_shiftl_add by lia.
  change (1 * 2 ^ 7) with 128. rewrite b2z_z2b. apply Z.mod_small. lia.
Qed.

(** The encoding denotes its value, is ended by its last byte only, and is as short as the
    number of groups of the value. *)
Lemma leb_spec fuel v :
  0 <= v < 128 ^ Z.of_nat fuel -> (0 < fuel)%nat ->
  leb_val (leb fuel v) = v /\ leb_ended (leb fuel v) = true /\ leb fuel v <> [] /\
  (forall n, (0 < n)%nat -> v < 128 ^ Z.of_nat n -> blen (leb fuel v) <= Z.of_nat n).
Proof.
  revert v; induction fuel as [|fuel IH]; intros v Hv Hf; [lia|]. cbn [leb].
  rewrite Z.shiftr_div_pow2 by lia. change (2 ^ 7) with 128.
  pose proof (Z.div_mod v 128 ltac:(done)). pose proof (Z.mod_pos_bound v 128 eq_refl).
  destruct (Z.eqb_spec (v / 128) 0) as [Hz|Hz].
  - cbn [leb_val leb_ended]. rewrite group_byte_last by lia.
    rewrite Z.mod_small, Z.mul_0_r, Z.add_0_r by lia. split; [done|].
    split; [apply Z.ltb_lt; lia|]. split; [done|]. intros n Hn _. change (blen [_]) with 1. lia.
  - assert (0 < v / 128) by (pose proof (Z.div_pos v 128); lia).
    assert (Hlt : v / 128 < 128 ^ Z.of_nat fuel).
    { apply Z.div_lt_upper_bound; [lia|]. rewrite Nat2Z.inj_succ, Z.pow_succ_r in Hv by lia. lia. }
    destruct fuel as [|fuel]; [simpl in Hlt; lia|].
    destruct (IH (v / 128) ltac:(lia) ltac:(lia)) as (Hval & Hend & Hne & Hlen).
    cbn [leb_val leb_ended]. rewrite group_byte_more, Hval by lia.
    split; [|split; [|split; [done|]]].
    + replace (v mod 128 + 128) with (v mod 128 + 1 * 128) by lia.
      rewrite Z.mod_add, Z.mod_mod by lia. lia.
    + destruct (leb (S fuel) (v / 128)) eqn:E; [done|]. rewrite Hend, andb_true_r.
      apply Z.leb_le. lia.
    + intros n Hn Hvn. rewrite blen_cons. destruct n as [|[|n]]; [lia|simpl in Hvn; lia|].
      specialize (Hlen (S n) ltac:(lia)). rewrite (Nat2Z.inj_succ (S n)), Z.pow_succ_r in Hvn by lia.
      assert (v / 128 < 128 ^ Z.of_nat (S n)) by (apply Z.div_lt_upper_bound; lia). lia.
Qed.

(** Fuel beyond the groups of the value changes nothing. *)
Lemma leb_fuel fuel k v :
  0 <= v < 128 ^ Z.of_nat fuel -> (0 < fuel)%nat -> leb (fuel + k) v = leb fuel v.
Proof.
  revert v; induction fuel as [|fuel IH]; intros v Hv Hf; [lia|]. cbn [leb Nat.add].
  rewrite Z.shiftr_div_pow2 by lia. change (2 ^ 7) with 128.
  destruct (Z.eqb_spec (v / 128) 0) as [Hz|Hz]; [done|].
  assert (0 <= v / 128) by (apply Z.div_pos; lia).
  assert (Hlt : v / 128 < 128 ^ Z.of_nat fuel).
  { apply Z.div_lt_upper_bound; [lia|]. rewrite Nat2Z.inj_succ, Z.pow_succ_r in Hv by lia. lia. }
  destruct fuel as [|fuel]; [simpl in Hlt; lia|]. f_equal. apply IH; lia.
Qed.

Lemma leb_ended_fc_run n x : leb_ended x = true -> (length x <= n)%nat -> fc_run n x = true.
Proof.
  revert x; induction n as [|n IH]; intros x Hx Hl; [destruct x; [done|simpl in Hl; lia]|].
  destruct x as [|b t]; [done|]. cbn [fc_run]. simpl in Hl.
  destruct t as [|b' t].
  - simpl in Hx. by rewrite Hx.
  - cbn [leb_ended] in Hx. apply andb_true_iff in Hx as [Hb Ht]. apply Z.leb_le in Hb.
    destruct (Z.ltb_spec (b2z b) 128); [lia|]. apply IH; [done|lia].
Qed.

Lemma varuint_spec v :
  is_u64 v -> leb_val (varuint v) = v /\ leb_ended (varuint v) = true /\ varuint v <> [] /\
  (forall n, (0 < n)%nat -> v < 128 ^ Z.of_nat n -> blen (varuint v) <= Z.of_nat n).
Proof. intros Hv. apply leb_spec; [|lia]. change (128 ^ Z.of_nat 10) with (2 ^ 70). width_lia. Qed.

Lemma varuint_parses v : is_u32 v -> parses FcReader.varuint32 (varuint v) v.
Proof.
  intros Hv. destruct (varuint_spec v) as (Hval & Hend & _ & Hlen); [width_lia|].
  specialize (Hlen 5%nat ltac:(lia)). change (128 ^ Z.of_nat 5) with (2 ^ 35) in Hlen.
  rewrite <- (Z.mod_small v U32) at 2 by apply Hv. rewrite <- Hval at 2.
  apply varuint32_parses, leb_ended_fc_run; [done|]. unfold blen in Hlen. width_lia.
Qed.

(** ** Requests *)

Definition pos_ok (p : BlockPos) : Prop := is_u32 (bp_num p) /\ blen (bp_id p) = 32.

(** What the Rust types and fc's limit guarantee of a request. *)
Definition blocks_ok (r : BlocksReq) : Prop :=
  is_u32 (rq_start r) /\ is_u32 (rq_end r) /\ is_u32 (rq_max_in_flight r) /\
  Forall pos_ok (rq_have_positions r) /\ blen (rq_have_positions r) <= MAX_HAVE_POSITIONS.

Definition request_ok (req : Request) : Prop :=
  match req with
  | ReqStatus _ => True
  | ReqBlocks r => blocks_ok r
  | ReqAck n => is_u32 n
  end.

#[export] Instance pos_ok_dec p : Decision (pos_ok p).
Proof. unfold pos_ok. apply _. Defined.
#[export] Instance blocks_ok_dec r : Decision (blocks_ok r).
Proof. unfold blocks_ok. apply _. Defined.
#[export] Instance request_ok_dec req : Decision (request_ok req).
Proof. destruct req; simpl; apply _. Defined.

(** A v0 request has no [fetch_finality_data] on the wire. *)
Definition on_wire (req : Request) : Request :=
  match req with
  | ReqBlocks r =>
      ReqBlocks (mkReq (rq_v1 r) (rq_start r) (rq_end r) (rq_max_in_flight r) (rq_have_positions r)
        (rq_irreversible_only r) (rq_fetch_block r) (rq_fetch_traces r) (rq_fetch_deltas r)
        (rq_v1 r && rq_fetch_finality_data r))
  | _ => req
  end.

Definition pos_bytes (p : BlockPos) : bytes := le_bytes 4 (bp_num p) ++ bp_id p.

Lemma put_pos_app out p : put_pos out p = out ++ pos_bytes p.
Proof. unfold put_pos, put_u32, pos_bytes. by rewrite app_assoc. Qed.

Lemma foldl_put_pos out l : foldl put_pos out l = out ++ concat (pos_bytes <$> l).
Proof.
  revert out; induction l as [|p l IH]; intros out; simpl; [by rewrite app_nil_r|].
  rewrite IH, put_pos_app. by rewrite <- app_assoc.
Qed.

Lemma pos_parses p : pos_ok p -> parses decode_pos (pos_bytes p) p.
Proof.
  intros [Hn Hi]. eapply parses_bind; [by apply u32_parses|].
  destruct p as [n i]. apply (parses_bind_ret FcReader.id (mkPos n)). by apply id_parses.
Qed.

Lemma positions_parse l :
  Forall pos_ok l ->
  parses (for_count (blen l) (fun acc => let! p := decode_pos in sret (acc ++ [p])) [])
    (concat (pos_bytes <$> l)) l.
Proof.
  intros Hl.
  pose proof (parses_for (E := err) (fun acc => let! p := decode_pos in sret (acc ++ [p])) pos_bytes
    (fun acc p => acc ++ [p]) l []) as H.
  rewrite foldl_snoc in H. apply H. intros acc p Hp.
  apply (parses_bind_ret decode_pos (fun p => acc ++ [p])), pos_parses.
  by eapply list.Forall_forall in Hl.
Qed.

#[export] Hint Resolve u32_parses varuint_parses bool_parses positions_parse parses_ret : rust.

(** The bytes of a [get_blocks] request after its variant index. *)
Definition blocks_bytes (r : BlocksReq) : bytes :=
  le_bytes 4 (rq_start r) ++ le_bytes 4 (rq_end r) ++ le_bytes 4 (rq_max_in_flight r) ++
  varuint (blen (rq_have_positions r)) ++ concat (pos_bytes <$> rq_have_positions r) ++
  [flag (rq_irreversible_only r)] ++ [flag (rq_fetch_block r)] ++ [flag (rq_fetch_traces r)] ++
  [flag (rq_fetch_deltas r)] ++ (if rq_v1 r then [flag (rq_fetch_finality_data r)] else []).

Lemma blocks_parses r r' :
  blocks_ok r -> on_wire (ReqBlocks r) = ReqBlocks r' ->
  parses (decode_blocks (rq_v1 r)) (blocks_bytes r) r'.
Proof.
  intros (Hs & He & Hm & Hp & Hc) [= <-]. unfold blocks_bytes, decode_blocks.
  assert (is_u32 (blen (rq_have_positions r))).
  { pose proof (blen_nonneg (rq_have_positions r)). unfold MAX_HAVE_POSITIONS in Hc. width_lia. }
  do 4 (eapply parses_bind; [by eauto with rust|]).
  apply parses_sensure; [by apply Z.leb_le|].
  do 5 (eapply parses_bind; [by eauto with rust|]).
  rewrite <- (app_nil_r (if rq_v1 r then _ else _)).
  eapply parses_bind; [|apply parses_ret].
  destruct (rq_v1 r); eauto with rust.
Qed.

Lemma encode_request_blocks r :
  encode_request (ReqBlocks r) =
  [z2b (if rq_v1 r then REQ_BLOCKS_V1 else REQ_BLOCKS_V0)] ++ blocks_bytes r.
Proof.
  unfold encode_request, blocks_bytes, put_u32, push. rewrite put_varuint_app, foldl_put_pos. simpl.
  destruct (rq_v1 r); rewrite <- !app_assoc; simpl; by rewrite <- ?app_assoc.
Qed.

(** A one-byte variant index below 128. *)
Lemma index_parses i : 0 <= i < 128 -> parses FcReader.varuint32 [z2b i] i.
Proof.
  intros Hi. assert (Hb : b2z (z2b i) = i) by (rewrite b2z_z2b; apply Z.mod_small; lia).
  replace i with (leb_val [z2b i] mod U32) at 2.
  - apply varuint32_parses. cbn [fc_run]. rewrite Hb. by destruct (Z.ltb_spec i 128); [|lia].
  - cbn [leb_val]. rewrite Hb, Z.mul_0_r, Z.add_0_r, (Z.mod_small i 128) by lia.
    apply Z.mod_small. width_lia.
Qed.

Lemma request_parses req :
  request_ok req -> parses request_reader (encode_request req) (on_wire req).
Proof.
  intros Hok. destruct req as [v1|r|n].
  - rewrite <- (app_nil_r (encode_request _)). unfold encode_request, push. rewrite app_nil_l.
    eapply parses_bind; [apply index_parses; by destruct v1|]. destruct v1; apply parses_ret.
  - rewrite encode_request_blocks. simpl in Hok. cbn [on_wire].
    eapply parses_bind; [apply index_parses; by destruct (rq_v1 r)|].
    pose proof (blocks_parses r _ Hok eq_refl) as Hp.
    destruct (rq_v1 r) eqn:Hv; apply (parses_bind_ret _ ReqBlocks) in Hp; exact Hp.
  - unfold encode_request, put_u32, push. rewrite app_nil_l. simpl in Hok.
    eapply parses_bind; [by apply index_parses|].
    apply (parses_bind_ret FcReader.u32 ReqAck). by apply u32_parses.
Qed.

Lemma request_reader_safe : safe request_reader.
Proof.
  pose proof u32_safe. pose proof varuint32_safe. pose proof bool_safe.
  assert (safe FcReader.id) by (by apply bytes_safe).
  assert (forall v1, safe (decode_blocks v1)) by (intros []; solve_safe).
  unfold request_reader. apply safe_bind; [done|]. intros idx.
  repeat apply safe_if; solve_safe.
Qed.

(** What a reader returns, when it returns. *)
Definition gives {A} (P : A -> Prop) (m : FcReader.reader A) : Prop := forall c a c', m c = (Ok a, c') -> P a.

Lemma gives_ret {A} (P : A -> Prop) a : P a -> gives P (sret a).
Proof. intros H c b c' [= <- _]. done. Qed.

Lemma gives_bind {A B} (P : A -> Prop) (Q : B -> Prop) m k :
  gives P m -> (forall a, P a -> gives Q (k a)) -> gives Q (sbind m k).
Proof.
  intros Hm Hk c b c' H. unfold sbind in H. destruct (m c) as [[a|e|] c1] eqn:Hc; [|done|done].
  exact (Hk a (Hm _ _ _ Hc) _ _ _ H).
Qed.

Lemma gives_any {A} (m : FcReader.reader A) : gives (fun _ => True) m.
Proof. done. Qed.

Lemma gives_sensure b e : gives (fun _ => b = true) (sensure b e).
Proof. intros c a c'. by destruct b. Qed.

Lemma gives_bytes n : gives (fun x => blen x = n) (FcReader.bytes_ n).
Proof.
  intros c a c'. unfold FcReader.bytes_. destruct (checked_add64 _ _); [|done].
  destruct (slice (cb c) (cpos c) n) as [x|] eqn:Hs; [|done]. intros [= <- _]. by apply slice_blen in Hs.
Qed.

Lemma gives_u32 : gives is_u32 FcReader.u32.
Proof.
  eapply gives_bind; [apply gives_bytes|]. intros x Hx. apply gives_ret. pose proof (le_of_range x) as Hr.
  by rewrite Hx in Hr.
Qed.

Lemma gives_pos : gives pos_ok decode_pos.
Proof.
  eapply gives_bind; [apply gives_u32|]. intros n Hn. eapply gives_bind; [apply gives_bytes|]. intros x Hx.
  by apply gives_ret.
Qed.

Lemma gives_positions n :
  0 <= n ->
  gives (fun l => Forall pos_ok l /\ blen l = n)
    (for_count n (fun acc => let! p := decode_pos in sret (acc ++ [p])) []).
Proof.
  intros Hn c a c' H. rewrite for_count_nat in H.
  apply (for_nat_inv (fun i l (_ : cursor) => Forall pos_ok l /\ length l = i) _ _ 0) in H as [H1 H2]; [|done|].
  - split; [done|]. unfold blen. lia.
  - intros i l c1 l' c2 [Hf Hl] Hb. unfold sbind in Hb. destruct (decode_pos c1) as [[p|e|] c3] eqn:Hp; [|done|done].
    injection Hb as <- _. split; [|rewrite length_app; simpl; lia].
    apply Forall_app. split; [done|]. constructor; [|done]. by apply gives_pos in Hp.
Qed.

Lemma gives_varuint32_loop l v : 0 <= v -> gives (fun x => 0 <= x) (FcReader.varuint32_loop l v).
Proof.
  revert v; induction l as [|sh l IH]; intros v Hv; cbn [FcReader.varuint32_loop]; [by apply gives_ret|].
  eapply gives_bind; [apply gives_any|]. intros b ?.
  assert (Hx : 0 <= Z.lor v (wrap32 (Z.shiftl (Z.land b 127) sh))).
  { apply Z.lor_nonneg. split; [done|]. by apply Z.mod_pos_bound. }
  destruct (_ =? _); [by apply gives_ret|by apply IH].
Qed.

Lemma gives_blocks v1 : gives blocks_ok (decode_blocks v1).
Proof.
  unfold decode_blocks.
  eapply gives_bind; [apply gives_u32|]. intros start Hs.
  eapply gives_bind; [apply gives_u32|]. intros end_ He.
  eapply gives_bind; [apply gives_u32|]. intros credit Hc.
  eapply gives_bind; [by apply gives_varuint32_loop|]. intros count Hn.
  eapply gives_bind; [apply gives_sensure|]. intros [] Hmax. bools.
  eapply gives_bind; [by apply gives_positions|]. intros ps [Hps Hl].
  do 5 (eapply gives_bind; [apply gives_any|]; intros ? ?).
  apply gives_ret. unfold blocks_ok. simpl. rewrite Hl. done.
Qed.

Lemma gives_request : gives request_ok request_reader.
Proof.
  eapply gives_bind; [apply gives_any|]. intros idx ?.
  repeat match goal with |- gives _ (if ?b then _ else _) => destruct b end;
    try (by apply gives_ret); try done.
  1, 2: eapply gives_bind; [apply gives_blocks|]; intros r Hr; by apply gives_ret.
  eapply gives_bind; [apply gives_u32|]. intros n Hn. by apply gives_ret.
Qed.

Lemma decode_request_sound b : blen b < U64 ->
  no_panic (decode_request b) /\ forall r, decode_request b = Ok r -> request_ok r.
Proof.
  intros Hlen. split.
  - apply (request_reader_safe (FcReader.new b)). split; simpl; [|done]. pose proof (blen_nonneg b). lia.
  - intros r. unfold decode_request. destruct (request_reader (FcReader.new b)) as [x c] eqn:Hr. simpl. intros ->.
    by apply gives_request in Hr.
Qed.

(** ** Properties *)

(** C28: [decode_request] inverts [encode_request], whatever bytes follow the request: every
    request a client can build (fields in range, at most [MAX_HAVE_POSITIONS] positions) decodes
    to itself, except the [fetch_finality_data] of a v0 request, which is not on the wire. *)
Theorem request_roundtrip (req : Request) (trailing : bytes) (Hok : request_ok req)
    (Hlen : blen (encode_request req ++ trailing) < U64) :
  decode_request (encode_request req ++ trailing) = Ok (on_wire req).
Proof.
  unfold decode_request. rewrite (request_parses req Hok _ trailing); [done| |done].
  split; simpl; [|done]. pose proof (blen_nonneg (encode_request req ++ trailing)). lia.
Qed.

Lemma request_roundtrip_witness :
  let req := ReqBlocks (mkReq false 7 9 3 [mkPos 6 (replicate 32 x11)] true true false true true) in
  decode_request (encode_request req ++ [xff; x00]) =
  Ok (ReqBlocks (mkReq false 7 9 3 [mkPos 6 (replicate 32 x11)] true true false true false)).
Proof.
  intros req. apply (request_roundtrip req [xff; x00]).
  - apply (bool_decide_unpack (request_ok req)). by vm_compute.
  - by vm_compute.
Defined.

(** C38: decoding any message returns a request or an error, never a panic, and a request it returns
    is one its types promise: every number is a [u32], every id has 32 bytes, and there are at
    most [MAX_HAVE_POSITIONS] positions. *)
Theorem decode_request_total (b : bytes) (Hlen : blen b < U64) :
  is_panic (decode_request b) = false /\ forall r, decode_request b = Ok r -> request_ok r.
Proof. by apply decode_request_sound. Qed.

Lemma decode_request_total_witness :
  is_panic (decode_request [x01; xff]) = false /\ request_ok (ReqAck 7).
Proof.
  split.
  - apply decode_request_total. by vm_compute.
  - apply (proj2 (decode_request_total (encode_request (ReqAck 7)) ltac:(reflexivity))). by vm_compute.
Defined.

(** ** The layout of status and result messages *)

Definition opt_pos_bytes (p : option BlockPos) : bytes :=
  match p with Some p => x01 :: pos_bytes p | None => [x00] end.

Definition opt_block_bytes (b : option bytes) : bytes :=
  match b with Some b => x01 :: varuint (blen b) ++ b | None => [x00] end.

Lemma encode_opt_pos_app out p : encode_opt_pos out p = out ++ opt_pos_bytes p.
Proof. destruct p; simpl; [|done]. rewrite put_pos_app. unfold push. by rewrite <- app_assoc. Qed.

Lemma encode_result_base_app head lib this prev block :
  match block with Some b => blen b < U32 | None => True end ->
  encode_result_base head lib this prev block =
  Ok (pos_bytes head ++ pos_bytes lib ++ opt_pos_bytes this ++ opt_pos_bytes prev ++
      opt_block_bytes block).
Proof.
  intros Hb. unfold encode_result_base. cbn [foldl].
  rewrite !encode_opt_pos_app, !put_pos_app, app_nil_l. destruct block as [b|].
  - destruct (Z.ltb_spec (blen b) U32); [|lia]. cbn [or_panic rbind]. rewrite put_varuint_app. unfold push.
    f_equal. rewrite <- !app_assoc. reflexivity.
  - unfold push. f_equal. rewrite <- !app_assoc. reflexivity.
Qed.

Lemma blen_pos_bytes p : pos_ok p -> blen (pos_bytes p) = 36.
Proof. intros [_ H]. unfold pos_bytes. autorewrite with blen. lia. Qed.

(** The two positions every status and result message starts with, after its variant index. *)
Lemma head_lib_slices v head lib tail :
  pos_ok head -> pos_ok lib ->
  let m := [v] ++ pos_bytes head ++ pos_bytes lib ++ tail in
  slice m 1 36 = Some (pos_bytes head) /\ slice m 37 36 = Some (pos_bytes lib).
Proof.
  intros Hh Hl m. pose proof (blen_pos_bytes _ Hh). pose proof (blen_pos_bytes _ Hl). split.
  - apply slice_mid; [done|lia].
  - unfold m. rewrite app_assoc. apply slice_mid; [|lia]. autorewrite with blen. lia.
Qed.

Definition status_ok (s : Status) : Prop :=
  pos_ok (st_head s) /\ pos_ok (st_lib s) /\ blen (st_chain_id s) = 32.

Definition status_tail (v1 : bool) (s : Status) : bytes :=
  le_bytes 4 (st_trace s).1 ++ le_bytes 4 (st_trace s).2 ++
  le_bytes 4 (st_chain_state s).1 ++ le_bytes 4 (st_chain_state s).2 ++ st_chain_id s ++
  (if v1 then le_bytes 4 (st_finality s).1 ++ le_bytes 4 (st_finality s).2 else []).

Lemma encode_status_app v1 s :
  encode_status v1 s =
  [z2b (if v1 then RESULT_STATUS_V1 else RESULT_STATUS_V0)] ++
  pos_bytes (st_head s) ++ pos_bytes (st_lib s) ++ status_tail v1 s.
Proof.
  unfold encode_status, status_tail, put_u32, push. cbn [foldl]. rewrite !put_pos_app, app_nil_l.
  destruct v1; rewrite <- !app_assoc; simpl; by rewrite ?app_nil_r.
Qed.

(** A status message has the fixed length of its version, with [head] at bytes 1..37 and
    [last_irreversible] at 37..73, so that a router can patch them in place: overwriting those
    72 bytes gives exactly the message of the status with the other positions. *)
Lemma status_layout (v1 : bool) (s : Status) (h l : BlockPos) (Hs : status_ok s)
    (Hh : pos_ok h) (Hl : pos_ok l) :
  let m := encode_status v1 s in
  let s' := mkStatus h l (st_trace s) (st_chain_state s) (st_finality s) (st_chain_id s) in
  blen m = (if v1 then STATUS_V1_LEN else STATUS_V0_LEN) /\
  slice m 1 36 = Some (pos_bytes (st_head s)) /\
  slice m 37 36 = Some (pos_bytes (st_lib s)) /\
  encode_status v1 s' = take 1 m ++ pos_bytes h ++ pos_bytes l ++ drop 73 m.
Proof.
  intros m s'. destruct Hs as (Hsh & Hsl & Hid). unfold m. rewrite !encode_status_app.
  pose proof (blen_pos_bytes _ Hsh) as Lh. pose proof (blen_pos_bytes _ Hsl) as Ll.
  split; [|split; [|split]].
  - unfold status_tail. autorewrite with blen. rewrite Lh, Ll, Hid. by destruct v1; autorewrite with blen.
  - by apply head_lib_slices.
  - by apply head_lib_slices.
  - change (status_tail v1 s') with (status_tail v1 s).
    set (v := z2b _). change (take 1 ([v] ++ _)) with [v]. do 3 f_equal.
    rewrite (app_assoc (pos_bytes (st_head s))), (app_assoc [v]). symmetry. apply drop_app_length'.
    unfold blen in Lh, Ll. rewrite !length_app. change (length [v]) with 1%nat. lia.
Qed.

Lemma status_layout_witness :
  let p := mkPos 5 (replicate 32 x00) in
  let s := mkStatus p p (2, 6) (2, 6) (0, 0) (replicate 32 xaa) in
  let q := mkPos 9 (replicate 32 x01) in
  encode_status true (mkStatus q q (2, 6) (2, 6) (0, 0) (replicate 32 xaa)) =
  take 1 (encode_status true s) ++ pos_bytes q ++ pos_bytes q ++ drop 73 (encode_status true s).
Proof.
  intros p s q. apply (status_layout true s q q).
  - split; [|split]; [..|by vm_compute]; apply (bool_decide_unpack _); by vm_compute.
  - apply (bool_decide_unpack _). by vm_compute.
  - apply (bool_decide_unpack _). by vm_compute.
Defined.
