(* ===== verification/ShipLog.v ===== *)
(** * Strict, index-addressed state-history logs ([crates/core/src/shiplog.rs])

    [ShipLog::open] and the per-block header reads, over the file interface of [Binio.v], and the
    fixture writer [LogBuilder] ([crates/core/src/testkit/ship.rs]), which lays a log out as
    Spring's writer does. The theorems say that a header is accepted exactly when the bytes at
    its offset are one entry as the writer lays it out, that nothing panics on any file contents,
    and that every block written, forks included, is read back through the index. Inflating the
    payloads is in [Inflate.v]. *)

From S2P Require Import Prelude.
From S2P Require Import Errors.
From S2P Require Import Cursor.
From S2P Require Import Binio.

Definition SHIP_MAGIC : Z := 0xc35d500000000000.
Definition HEADER_LEN : Z := 48.
Definition ENTRY_OVERHEAD : Z := HEADER_LEN + 8.
Definition NAME_MASK : Z := 0xffffffff00000000.
Definition PRUNED_FEATURE : Z := 1.

Definition unsupported_magic (magic : Z) : option magic_problem :=
  if magic =? SHIP_MAGIC then None
  else if negb (Z.land magic NAME_MASK =? SHIP_MAGIC) then Some NoShipMagic
  else
    let version := Z.land magic 0xffff in
    let features := Z.land (Z.shiftr magic 16) 0xffff in
    Some (if version =? 1 then LogVersion1
          else if negb (Z.land features PRUNED_FEATURE =? 0) then PrunedLog
          else UnsupportedLog version features).

Definition LogKind_ALL : list LogKind := [Trace; ChainState; Finality].

Definition stem (k : LogKind) : string :=
  match k with
  | Trace => "trace_history"
  | ChainState => "chain_state_history"
  | Finality => "finality_data_history"
  end.

Definition label (k : LogKind) : string :=
  match k with
  | Trace => "trace"
  | ChainState => "chain_state"
  | Finality => "finality"
  end.

Inductive PayloadEnc :=
| Sized (uncompressed : Z)
| Legacy (u32_field : Z).

#[export] Instance PayloadEnc_eq_dec : EqDecision PayloadEnc.
Proof. solve_decision. Defined.

Module EntryHeader.

Record t := mk { pos : Z; id : bytes; payload_size : Z; enc : PayloadEnc }.

#[export] Instance t_eq_dec : EqDecision t.
Proof. solve_decision. Defined.

Definition num (h : t) : Z := num_from_id (id h).

Definition uncompressed (h : t) : option Z :=
  match enc h with Sized u => Some u | Legacy _ => None end.

Definition preamble_len (h : t) : Z := match enc h with Sized _ => 12 | Legacy _ => 4 end.

Definition data_offset (h : t) : Z := add64 (add64 (pos h) HEADER_LEN) (preamble_len h).

Definition data_len (h : t) : Z := sat_sub (payload_size h) (preamble_len h).

Definition end_ (h : t) : Z := add64 (add64 (pos h) ENTRY_OVERHEAD) (payload_size h).

End EntryHeader.

(** [as_chunks::<8>().0]: the whole 8-byte chunks. *)
Fixpoint chunks8 (b : bytes) : list bytes :=
  match b with
  | a0 :: a1 :: a2 :: a3 :: a4 :: a5 :: a6 :: a7 :: t =>
      [a0; a1; a2; a3; a4; a5; a6; a7] :: chunks8 t
  | _ => []
  end.

Section Read.
Context (w : world).

(** [le_u32(&b[at..])] and [le_u64(&b[at..])]: an index past the end panics. *)
Definition le_u32 (b : bytes) (at_ : Z) : result Z :=
  let? s := or_panic (slice b at_ 4) in Ok (le_of s).
Definition le_u64 (b : bytes) (at_ : Z) : result Z :=
  let? s := or_panic (slice b at_ 8) in Ok (le_of s).

Definition id_at (f : PosFile.t) (pos : Z) : result bytes :=
  PosFile.read_exact_at w f (add64 pos 8) 32.

Definition read_header (f : PosFile.t) (n pos : Z) : result EntryHeader.t :=
  let size := PosFile.len f in
  do? ensure (match checked_add64 pos ENTRY_OVERHEAD with Some e => e <=? size | None => false end)
        (ENoRoomForEntry pos size) ;;
  let? head := PosFile.read_vec w f pos (Z.min (sub64 size pos) (HEADER_LEN + 12)) in
  let? magic := le_u64 head 0 in
  do? ensure (magic =? SHIP_MAGIC) (ENoEntryHeader pos magic) ;;
  let? id := or_panic (slice head 8 32) in
  let num := num_from_id id in
  do? ensure (num =? n) (EWrongBlock pos num) ;;
  let? payload_size := le_u64 head 40 in
  let? end_ :=
    match checked_add64 (add64 pos ENTRY_OVERHEAD) payload_size with
    | Some e => if e <=? size then Ok e else Err (EPayloadPastEnd payload_size pos size)
    | None => Err (EPayloadPastEnd payload_size pos size)
    end in
  do? ensure (4 <=? payload_size) (EShortPreamble payload_size pos) ;;
  let? trailer := PosFile.u64_at w f (sub64 end_ 8) in
  do? ensure (trailer =? pos) (EPositionTrailer pos trailer) ;;
  let? field := le_u32 head 48 in
  let? enc :=
    (if field =? 1 then
       do? ensure (12 <=? payload_size) (EShortSizedPreamble payload_size pos) ;;
       let? u := le_u64 head 52 in Ok (Sized u)
     else
       let zlen := sub64 payload_size 4 in
       do? ensure ((field =? 0) || (field =? zlen)) (ELegacySizeField pos field zlen) ;;
       Ok (Legacy field)) in
  Ok (EntryHeader.mk pos id payload_size enc).

Definition tail (f : PosFile.t) : result (Z * Z) :=
  let size := PosFile.len f in
  let? last_pos := PosFile.u64_at w f (sub64 size 8) in
  do? ensure (last_pos <=? sub64 size ENTRY_OVERHEAD) (ELastTrailer last_pos size) ;;
  let? id := id_at f last_pos in
  let last := num_from_id id in
  let? h := read_header f last last_pos in
  do? ensure (EntryHeader.end_ h =? size)
        (ELastNotAtEnd last_pos last (EntryHeader.end_ h) size) ;;
  Ok (last, last_pos).

End Read.

(** ** ShipLog *)
Module ShipLog.

Record t := mk {
  kind : LogKind;
  log : string;
  index : string;
  begin : Z;
  end_ : Z;
  last_pos : Z;
  size : Z
}.

Definition range (l : t) : Z * Z := (begin l, end_ l).

Section Ops.
Context (w : world) `{!FileSource w}.

Definition open (log index : string) (kind : LogKind) : result (option t) :=
  let? file := fget log in
  let size := PosFile.len file in
  if size =? 0 then Ok None
  else
    do? ensure (ENTRY_OVERHEAD <=? size) (ECannotHoldEntry size) ;;
    let? magic := PosFile.u64_at w file 0 in
    do? match unsupported_magic magic with
        | Some problem =>
            if Z.land magic NAME_MASK =? SHIP_MAGIC
            then Err (EPrunedOrUnsupported problem)
            else Err (ENotStateHistory problem)
        | None => Ok ()
        end ;;
    let? id0 := id_at w file 0 in
    let begin := num_from_id id0 in
    do? read_header w file begin 0 ;;
    let? (last, last_pos) := tail w file in
    do? ensure (begin <=? last) (ELastBeforeFirst last begin) ;;
    let? end_ := or_err (checked_add32 last 1) (ELastBlockNumber last) in
    let? idx := fget index in
    let want := (end_ - begin) * 8 in
    do? ensure (PosFile.len idx =? want) (EIndexLength (PosFile.len idx) want) ;;
    let? slot := PosFile.u64_at w idx (sub64 want 8) in
    do? ensure (slot =? last_pos) (EIndexLastSlot last slot last_pos) ;;
    Ok (Some (mk kind log index begin end_ last_pos size)).

Definition check_block (l : t) (n : Z) : result () :=
  ensure ((begin l <=? n) && (n <? end_ l)) (EBlockOutside n).

Definition log_file (l : t) : result PosFile.t :=
  let? f := fget (log l) in
  do? ensure (PosFile.len f =? size l) (EChangedAfterOpen (PosFile.len f) (size l)) ;;
  Ok f.

Definition index_file (l : t) : result PosFile.t :=
  let? f := fget (index l) in
  let want := (end_ l - begin l) * 8 in
  do? ensure (PosFile.len f =? want) (EChangedAfterOpen (PosFile.len f) want) ;;
  Ok f.

Definition positions (l : t) (from count : Z) : result (list Z) :=
  let in_range :=
    (begin l <=? from) &&
    match checked_add32 from count with Some to => to <=? end_ l | None => false end in
  do? ensure in_range (ENotAllInRange count from) ;;
  let? idx := index_file l in
  let? b := PosFile.read_vec w idx ((from - begin l) * 8) (count * 8) in
  Ok (le_of <$> chunks8 b).

Definition header_at (l : t) (n pos : Z) : result EntryHeader.t :=
  do? check_block l n ;;
  let? f := log_file l in
  read_header w f n pos.

Definition header (l : t) (n : Z) : result EntryHeader.t :=
  do? check_block l n ;;
  let? idx := index_file l in
  let? pos := PosFile.u64_at w idx ((n - begin l) * 8) in
  let? f := log_file l in
  read_header w f n pos.

Definition id (l : t) (n : Z) : result bytes :=
  let? h := header l n in Ok (EntryHeader.id h).

End Ops.

End ShipLog.

(** ** The writer *)

Definition sized_payload (uncompressed : Z) (zlib : bytes) : bytes :=
  le_bytes 4 1 ++ le_bytes 8 uncompressed ++ zlib.

Definition legacy_payload (field : Z) (zlib : bytes) : bytes := le_bytes 4 field ++ zlib.

(** One whole entry at offset [pos]. *)
Definition entry (id payload : bytes) (pos : Z) : bytes :=
  le_bytes 8 SHIP_MAGIC ++ id ++ le_bytes 8 (blen payload) ++ payload ++ le_bytes 8 pos.

Module LogBuilder.

Record t := mk { log : bytes; slots : list Z; begin : option Z }.

Definition new : t := mk [] [] None.

(** [assert!] panics. *)
Definition push_encoded (id payload : bytes) (b : t) : result t :=
  let n := num_from_id id in
  let bg := default n (begin b) in
  let end_ := bg + blen (slots b) in
  if (bg <=? n) && (n <=? end_) then
    let pos := blen (log b) in
    Ok (mk (log b ++ entry id payload pos)
           (take (Z.to_nat (n - bg)) (slots b) ++ [pos]) (Some bg))
  else Panic.

Definition range (b : t) : Z * Z :=
  match begin b with
  | Some bg => (bg, wrap32 (bg + wrap32 (blen (slots b))))
  | None => (0, 0)
  end.

Definition index (b : t) : bytes := concat (le_bytes 8 <$> slots b).

End LogBuilder.

(** ** What an accepted header means

    The payload framing [read_header] recognises, as a relation between the decoded encoding and
    the payload bytes. *)
Definition framed (e : PayloadEnc) (payload : bytes) : Prop :=
  match e with
  | Sized u => is_u64 u /\ exists z, payload = sized_payload u z
  | Legacy f => is_u32 f /\ f <> 1 /\ exists z, payload = legacy_payload f z /\ (f = 0 \/ f = blen z)
  end.

(** [d] holds at offset [pos] the entry of the block with id [id]. *)
Definition entry_at (d : bytes) (pos : Z) (id payload : bytes) : Prop :=
  slice d pos (ENTRY_OVERHEAD + blen payload) = Some (entry id payload pos).

Lemma blen_entry id payload pos :
  blen id = 32 -> blen (entry id payload pos) = ENTRY_OVERHEAD + blen payload.
Proof.
  intros H. unfold entry. autorewrite with blen. rewrite H. unfold ENTRY_OVERHEAD, HEADER_LEN. lia.
Qed.

(** The five fields of an entry, as slices of the file. *)
Lemma entry_at_fields d pos id payload :
  blen id = 32 ->
  entry_at d pos id payload <->
  slice d pos 8 = Some (le_bytes 8 SHIP_MAGIC) /\
  slice d (pos + 8) 32 = Some id /\
  slice d (pos + 40) 8 = Some (le_bytes 8 (blen payload)) /\
  slice d (pos + 48) (blen payload) = Some payload /\
  slice d (pos + 48 + blen payload) 8 = Some (le_bytes 8 pos).
Proof.
  intros Hid. unfold entry_at, ENTRY_OVERHEAD, HEADER_LEN, entry.
  set (m := le_bytes 8 SHIP_MAGIC). set (z := le_bytes 8 (blen payload)). set (t := le_bytes 8 pos).
  assert (Hm : blen m = 8) by apply blen_le_bytes. assert (Hz : blen z = 8) by apply blen_le_bytes.
  assert (Ht : blen t = 8) by apply blen_le_bytes. clearbody m z t.
  replace (48 + 8 + blen payload) with (blen m + blen (id ++ z ++ payload ++ t))
    by (autorewrite with blen; lia).
  rewrite slice_cat, (blen_app id), slice_cat, (blen_app z), slice_cat, (blen_app payload), slice_cat.
  rewrite Hm, Hid, Hz, Ht.
  replace (pos + 8 + 32) with (pos + 40) by lia. replace (pos + 40 + 8) with (pos + 48) by lia.
  tauto.
Qed.

Section HeaderFacts.
Context (w : world).

Lemma le_u64_Ok b at_ v :
  le_u64 b at_ = Ok v <-> exists s, slice b at_ 8 = Some s /\ v = le_of s.
Proof. unfold le_u64. destruct (slice b at_ 8); simpl; naive_solver. Qed.

Lemma le_u32_Ok b at_ v :
  le_u32 b at_ = Ok v <-> exists s, slice b at_ 4 = Some s /\ v = le_of s.
Proof. unfold le_u32. destruct (slice b at_ 4); simpl; naive_solver. Qed.

Lemma framed_sized d o payload su :
  slice d o (blen payload) = Some payload -> 12 <= blen payload ->
  slice d o 4 = Some (le_bytes 4 1) -> slice d (o + 4) 8 = Some su ->
  framed (Sized (le_of su)) payload.
Proof.
  intros Hp H12 H1 Hu. pose proof (slice_blen _ _ _ _ Hu) as Lu. split; [by apply le_of_u64|].
  replace (blen payload) with (4 + (8 + (blen payload - 12))) in Hp by lia.
  apply slice_split in Hp as (x & r & -> & Hx & Hr); [|lia..].
  apply slice_split in Hr as (y & z & -> & Hy & Hz); [|lia..].
  exists z. unfold sized_payload. pose proof (slice_le 8 _ _ _ _ Hu eq_refl) as Hu'. change (Z.of_nat 8) with 8 in Hu'.
  congruence.
Qed.

Lemma framed_legacy d o payload s :
  slice d o (blen payload) = Some payload -> 4 <= blen payload -> slice d o 4 = Some s ->
  le_of s <> 1 -> le_of s = 0 \/ le_of s = blen payload - 4 ->
  framed (Legacy (le_of s)) payload.
Proof.
  intros Hp H4 Hs H1 Hz. pose proof (slice_blen _ _ _ _ Hs) as Ls. split; [by apply le_of_u32|].
  split; [done|]. replace (blen payload) with (4 + (blen payload - 4)) in Hp by lia.
  apply slice_split in Hp as (x & z & -> & Hx & Hr); [|lia..].
  exists z. assert (x = s) as -> by congruence. split.
  - unfold legacy_payload. pose proof (slice_le 4 _ _ _ _ Hs eq_refl) as Hs'.
    change (Z.of_nat 4) with 4 in Hs'. congruence.
  - rewrite blen_app, Ls in Hz. lia.
Qed.

(** What [read_header] read, field by field. *)
Lemma read_header_fields f d n pos h :
  views w f d -> 0 <= pos -> read_header w f n pos = Ok h ->
  exists payload,
    EntryHeader.pos h = pos /\ num_from_id (EntryHeader.id h) = n /\
    blen (EntryHeader.id h) = 32 /\ EntryHeader.payload_size h = blen payload /\
    framed (EntryHeader.enc h) payload /\ entry_at d pos (EntryHeader.id h) payload.
Proof.
  intros Hv Hp H. pose proof (views_len _ _ _ Hv) as Hd.
  assert (Hsz : PosFile.len f < U64) by (destruct Hv as (? & ? & ? & ? & ?); lia).
  unfold read_header in H. cbv zeta in H. guard H as Hroom.
  destruct (checked_add64 pos ENTRY_OVERHEAD) as [e|] eqn:He; [|done].
  apply checked_add64_Some in He as [-> He]. unfold ENTRY_OVERHEAD, HEADER_LEN in *. bools.
  unfold sub64, add64, wrap64 in H. rewrite !(Z.mod_small (PosFile.len f - pos)) in H by lia.
  rewrite (Z.mod_small (pos + _)) in H by lia.
  bind H as head Hhead. erewrite read_vec_spec in Hhead by (done || lia).
  destruct (slice d pos _) as [hd|] eqn:Hsl; [|done]. injection Hhead as ->.
  set (m := Z.min (PosFile.len f - pos) (48 + 12)) in *. assert (Hm : 56 <= m) by lia.
  bind H as magic Hmagic. apply le_u64_Ok in Hmagic as (s0 & Hs0 & ->). guard H as Hmg. bools.
  bind H as id Hid. apply or_panic_Ok in Hid. guard H as Hnum. bools.
  bind H as psize Hps. apply le_u64_Ok in Hps as (s1 & Hs1 & ->).
  bind H as end_ Hend. destruct (checked_add64 _ _) as [e|] eqn:He2; [|done].
  apply checked_add64_Some in He2 as [-> He2].
  destruct (Z.leb_spec (pos + (48 + 8) + le_of s1) (PosFile.len f)) as [Hle|]; [|done].
  injection Hend as <-. guard H as H4. bools.
  bind H as tr Htr. pose proof (slice_blen _ _ _ _ Hs1) as Hl1. pose proof (le_of_u64 _ Hl1) as Hu1.
  rewrite (Z.mod_small (_ + _ - 8)) in Htr by (widths; lia).
  apply (u64_at_Ok _ _ d) in Htr as (s2 & Hs2 & ->); [|done|lia]. guard H as Htr. bools.
  bind H as field Hf. apply le_u32_Ok in Hf as (s3 & Hs3 & ->).
  rewrite (slice_slice d pos m head) in * by (done || lia).
  rewrite Z.add_0_r in Hs0. replace (pos + (48 + 8) + _ - 8) with (pos + 48 + le_of s1) in Hs2 by lia.
  destruct (slice_is_Some d (pos + 48) (le_of s1)) as [payload Hpay]; [lia..|].
  pose proof (slice_blen _ _ _ _ Hpay) as Hpl. rewrite <- Hpl in *.
  assert (Hat : entry_at d pos id payload).
  { apply entry_at_fields; [by eapply slice_blen|].
    split; [by eapply (slice_le 8)|]. split; [done|]. split; [by eapply (slice_le 8)|].
    split; [done|by eapply (slice_le 8)]. }
  exists payload. bind H as enc Henc. injection H as <-. simpl. apply slice_blen in Hid as Lid.
  do 4 (split; [done|]). split; [|done].
  destruct (Z.eqb_spec (le_of s3) 1) as [H1|H1].
  - guard Henc as H12. bools. bind Henc as u Hu. injection Henc as <-.
    apply le_u64_Ok in Hu as (su & Hsu & ->).
    apply (framed_sized d (pos + 48)); [done|done| |].
    + by eapply (slice_le 4).
    + rewrite <- Hsu. replace (pos + 48 + 4) with (pos + 52) by lia.
      symmetry. eapply slice_slice; [done|lia..].
  - guard Henc as Hz. injection Henc as <-. apply (framed_legacy d (pos + 48)); try done.
    rewrite Z.mod_small in Hz by (widths; lia). apply orb_true_iff in Hz as [?|?]; bools; auto.
Qed.

Lemma le_u64_slice b at_ v : is_u64 v -> slice b at_ 8 = Some (le_bytes 8 v) -> le_u64 b at_ = Ok v.
Proof. intros Hv H. apply le_u64_Ok. eexists. split; [done|]. symmetry. by apply le_of_le_bytes_id. Qed.

Lemma le_u32_slice b at_ v : is_u32 v -> slice b at_ 4 = Some (le_bytes 4 v) -> le_u32 b at_ = Ok v.
Proof. intros Hv H. apply le_u32_Ok. eexists. split; [done|]. symmetry. by apply le_of_le_bytes_id. Qed.

(** A field inside a slice of the file is that field of the file. *)
Lemma slice_inside d off n s k m x :
  slice d off n = Some s -> 0 <= k -> 0 <= m -> k + m <= n ->
  slice d (off + k) m = Some x -> slice s k m = Some x.
Proof. intros Hs ? ? ? Hx. rewrite <- Hx. by eapply slice_slice. Qed.

(** The encoding branch of [read_header] on a framed payload. *)
Lemma framed_fields e payload :
  framed e payload ->
  exists field r, payload = le_bytes 4 field ++ r /\ is_u32 field /\ 4 <= blen payload /\
    match e with
    | Sized u => field = 1 /\ is_u64 u /\ exists z, r = le_bytes 8 u ++ z
    | Legacy f => field = f /\ f <> 1 /\ (f = 0 \/ f = blen payload - 4)
    end.
Proof.
  destruct e as [u|f]; simpl.
  - intros [Hu [z ->]]. exists 1, (le_bytes 8 u ++ z). unfold sized_payload.
    rewrite blen_app, blen_le_bytes. pose proof (blen_nonneg (le_bytes 8 u ++ z)).
    split; [done|]. split; [done|]. split; [lia|]. eauto.
  - intros (Hf & H1 & z & -> & Hz). exists f, z. unfold legacy_payload.
    rewrite blen_app, blen_le_bytes. pose proof (blen_nonneg z).
    split; [done|]. split; [done|]. split; [lia|]. split; [done|]. split; [done|]. lia.
Qed.

Lemma read_header_accepts f d n pos id payload e :
  views w f d -> 0 <= pos -> blen id = 32 -> num_from_id id = n ->
  framed e payload -> entry_at d pos id payload ->
  read_header w f n pos = Ok (EntryHeader.mk pos id (blen payload) e).
Proof.
  intros Hv Hp Hid Hn Hfr Hat. pose proof (views_len _ _ _ Hv) as Hd.
  assert (Hsz : PosFile.len f < U64) by (destruct Hv as (? & ? & ? & ? & ?); lia).
  apply slice_Some in Hat as Hin. destruct Hin as (_ & _ & Hin & _).
  apply entry_at_fields in Hat as (H0 & H8 & H40 & H48 & Ht); [|done].
  apply framed_fields in Hfr as (field & r & Hpay & Hfld & H4 & He).
  unfold read_header, checked_add64, sub64, add64, wrap64, ENTRY_OVERHEAD, HEADER_LEN in *. cbv zeta.
  rewrite !(Z.mod_small (PosFile.len f - pos)), !(Z.mod_small (pos + _)) by lia.
  rewrite (proj2 (Z.ltb_lt (pos + _) U64)), (proj2 (Z.leb_le (pos + _) _)) by lia. cbn [ensure rbind].
  erewrite read_vec_spec by (done || lia). set (m := Z.min _ _).
  destruct (slice_is_Some d pos m) as [head Hhead]; [lia..|]. rewrite Hhead. cbn [rbind].
  rewrite <- (Z.add_0_r pos) in H0.
  rewrite (le_u64_slice head 0 SHIP_MAGIC); [|done|by eapply slice_inside; [done|lia..|]].
  cbn [rbind]. rewrite Z.eqb_refl. cbn [ensure rbind].
  rewrite (slice_inside d pos m head 8 32 id) by (done || lia). cbn [or_panic rbind].
  rewrite Hn, Z.eqb_refl. cbn [ensure rbind].
  rewrite (le_u64_slice head 40 (blen payload)); [|width_lia|by eapply slice_inside; [done|lia..|]].
  cbn [rbind]. rewrite (proj2 (Z.ltb_lt _ _)), (proj2 (Z.leb_le (pos + (48 + 8) + _) _)) by lia.
  cbn [rbind]. rewrite (proj2 (Z.leb_le 4 _)) by lia. cbn [ensure rbind].
  rewrite (Z.mod_small (pos + _ + _ - 8)) by lia.
  rewrite (proj2 (u64_at_Ok w f d (pos + (48 + 8) + blen payload - 8) pos Hv ltac:(lia))).
  2: { replace (pos + (48 + 8) + blen payload - 8) with (pos + 48 + blen payload) by lia.
       eexists. split; [done|]. symmetry. apply le_of_le_bytes_id. change (is_u64 pos). width_lia. }
  cbn [rbind]. rewrite Z.eqb_refl. cbn [ensure rbind].
  assert (Hfield : slice d (pos + 48) 4 = Some (le_bytes 4 field)).
  { rewrite Hpay, blen_app in H48. apply slice_cat in H48 as [H48 _].
    by rewrite blen_le_bytes in H48. }
  rewrite (le_u32_slice head 48 field); [|done|by eapply slice_inside; [done|lia..|]]. cbn [rbind].
  destruct e as [u|g].
  - destruct He as (-> & Hu & z & ->). cbn [Z.eqb Pos.eqb].
    assert (H12 : 12 <= blen payload)
      by (rewrite Hpay; autorewrite with blen; pose proof (blen_nonneg z); lia).
    rewrite (proj2 (Z.leb_le 12 _)) by lia. cbn [ensure rbind].
    rewrite (le_u64_slice head 52 u); [done|done|]. eapply slice_inside; [done|lia..|].
    rewrite Hpay, blen_app in H48. apply slice_cat in H48 as [_ H48].
    rewrite blen_app in H48. apply slice_cat in H48 as [H48 _].
    rewrite !blen_le_bytes in H48. rewrite <- H48. f_equal. lia.
  - destruct He as (-> & H1 & Hz). rewrite (proj2 (Z.eqb_neq g 1)) by done.
    rewrite (Z.mod_small (_ - 4)) by lia.
    replace ((g =? 0) || (g =? blen payload - 4)) with true by (case_bools; simpl; lia || done).
    done.
Qed.

Lemma no_panic_le_u64 b at_ : 0 <= at_ -> at_ + 8 <= blen b -> no_panic (le_u64 b at_).
Proof. intros. unfold le_u64. by destruct (slice_is_Some b at_ 8) as [? ->]; [lia..|]. Qed.

Lemma no_panic_le_u32 b at_ : 0 <= at_ -> at_ + 4 <= blen b -> no_panic (le_u32 b at_).
Proof. intros. unfold le_u32. by destruct (slice_is_Some b at_ 4) as [? ->]; [lia..|]. Qed.

(** The slices of [head] are all inside what was read. *)
Lemma read_header_no_panic f d n pos :
  views w f d -> 0 <= pos -> no_panic (read_header w f n pos).
Proof.
  intros Hv Hp. assert (Hsz : PosFile.len f < U64) by (destruct Hv as (? & ? & ? & ? & ?); lia).
  unfold read_header. cbv zeta.
  apply no_panic_bind; [auto with no_panic|intros [] Hroom].
  apply ensure_Ok in Hroom. destruct (checked_add64 pos _) as [e|] eqn:He; [|done].
  apply checked_add64_Some in He as [-> He]. unfold ENTRY_OVERHEAD, HEADER_LEN in *. bools.
  unfold sub64, add64, wrap64. rewrite !(Z.mod_small (PosFile.len f - pos)), (Z.mod_small (pos + _)) by lia.
  apply no_panic_bind; [auto with no_panic|intros head Hh].
  erewrite read_vec_spec in Hh by (done || lia).
  destruct (slice d pos _) as [hd|] eqn:Hs; [|done]. injection Hh as ->. apply slice_blen in Hs.
  apply no_panic_bind; [apply no_panic_le_u64; lia|intros magic _].
  apply no_panic_bind; [auto with no_panic|intros ? _].
  destruct (slice_is_Some head 8 32) as [id Hid]; [lia..|]. rewrite Hid. cbn [or_panic rbind].
  apply no_panic_bind; [auto with no_panic|intros ? _].
  apply no_panic_bind; [apply no_panic_le_u64; lia|intros psize Hps].
  apply no_panic_bind; [solve_no_panic|intros end_ Hend].
  destruct (checked_add64 _ psize) as [e|] eqn:He2; [|done].
  apply checked_add64_Some in He2 as [-> He2].
  destruct (Z.leb_spec (pos + (48 + 8) + psize) (PosFile.len f)); [|done].
  apply no_panic_bind; [auto with no_panic|intros ? _].
  apply no_panic_bind; [auto with no_panic|intros tr _].
  apply no_panic_bind; [auto with no_panic|intros ? _].
  apply no_panic_bind; [apply no_panic_le_u32; lia|intros field _].
  apply no_panic_bind; [|auto with no_panic]. destruct (field =? 1); [|solve_no_panic].
  apply no_panic_bind; [auto with no_panic|intros [] H12]. apply ensure_Ok in H12. bools.
  apply no_panic_bind; [apply no_panic_le_u64; lia|auto with no_panic].
Qed.

Lemma id_at_no_panic f pos : no_panic (id_at w f pos).
Proof. unfold id_at. auto with no_panic. Qed.

Lemma tail_no_panic f d : views w f d -> no_panic (tail w f).
Proof.
  intros Hv. unfold tail. apply no_panic_bind; [auto with no_panic|intros p Hp].
  apply no_panic_bind; [auto with no_panic|intros ? _].
  apply no_panic_bind; [apply id_at_no_panic|intros id _].
  apply no_panic_bind; [|intros; solve_no_panic]. eapply read_header_no_panic; [done|].
  unfold PosFile.u64_at in Hp. bind Hp as b Hb. injection Hp as <-. apply le_of_range.
Qed.

Lemma id_at_Ok f d pos id :
  views w f d -> 0 <= pos -> pos + 8 < U64 ->
  id_at w f pos = Ok id <-> slice d (pos + 8) 32 = Some id.
Proof.
  intros Hv Hp Hl. unfold id_at, add64, wrap64. rewrite Z.mod_small by lia.
  erewrite read_exact_at_spec by (done || lia). destruct (slice d (pos + 8) 32); naive_solver.
Qed.

(** The tail is accepted exactly when an entry ends at the end of the file. *)
Lemma tail_iff f d last last_pos :
  views w f d -> ENTRY_OVERHEAD <= PosFile.len f ->
  tail w f = Ok (last, last_pos) <->
  exists id payload e, 0 <= last_pos /\ blen id = 32 /\ num_from_id id = last /\ framed e payload /\
    entry_at d last_pos id payload /\ last_pos + ENTRY_OVERHEAD + blen payload = blen d.
Proof.
  intros Hv Hroom. pose proof (views_len _ _ _ Hv) as Hd.
  assert (Hsz : PosFile.len f < U64) by (destruct Hv as (? & ? & ? & ? & ?); lia).
  unfold tail, sub64, wrap64. cbv zeta. unfold ENTRY_OVERHEAD, HEADER_LEN in *.
  rewrite !(Z.mod_small (PosFile.len f - _)) by lia. split.
  - intros H. bind H as lp Hlp. apply (u64_at_Ok _ _ d) in Hlp as (s & Hs & ->); [|done|lia].
    guard H as Hle. bools. pose proof (le_of_range s). bind H as id Hid. bind H as h Hh. guard H as Hend.
    injection H as <- <-. eapply read_header_fields in Hh as (payload & Ep & En & Li & Es & Hf & Ha);
      [|done|lia]. exists (EntryHeader.id h), payload, (EntryHeader.enc h).
    apply slice_Some in Ha as Hin. destruct Hin as (_ & _ & Hin & _).
    do 5 (split; [done || lia|]). bools. unfold EntryHeader.end_, add64, wrap64 in Hend.
    rewrite Ep, Es in Hend. unfold ENTRY_OVERHEAD, HEADER_LEN in *. pose proof (blen_nonneg payload).
    rewrite (Z.mod_small (le_of s + _)), Z.mod_small in Hend by lia. lia.
  - intros (id & payload & e & H0 & Li & <- & Hf & Ha & Hend).
    pose proof (read_header_accepts f d _ last_pos id payload e Hv H0 Li eq_refl Hf Ha) as Hrh.
    pose proof Ha as Ha'. apply entry_at_fields in Ha' as (_ & Hid & _ & _ & Ht); [|done].
    pose proof (blen_nonneg payload).
    rewrite (proj2 (u64_at_Ok w f d (PosFile.len f - 8) last_pos Hv ltac:(lia))).
    2: { exists (le_bytes 8 last_pos).
         split; [|symmetry; apply le_of_le_bytes_id; change (is_u64 last_pos); width_lia].
         rewrite <- Ht. f_equal. lia. }
    cbn [rbind]. rewrite (proj2 (Z.leb_le _ _)) by lia. cbn [ensure rbind].
    rewrite (proj2 (id_at_Ok f d last_pos id Hv ltac:(lia) ltac:(lia))) by done. cbn [rbind].
    rewrite Hrh. cbn [rbind]. unfold EntryHeader.end_, add64, wrap64, ENTRY_OVERHEAD, HEADER_LEN. simpl.
    rewrite (Z.mod_small (last_pos + _)), Z.mod_small by lia.
    rewrite (proj2 (Z.eqb_eq _ _)) by lia. done.
Qed.

End HeaderFacts.

#[export] Hint Resolve id_at_no_panic : no_panic.

(** ** Opening a log *)

(** The contents [d] of a log and [ix] of its index that [open] accepts: the first entry is
    block [begin]'s, the last one is block [end_ - 1]'s and ends the file, and the index has one
    slot per block, the last on the last entry. *)
Definition log_shape (d ix : bytes) (begin end_ last_pos : Z) : Prop :=
  (exists id p e, blen id = 32 /\ num_from_id id = begin /\ framed e p /\ entry_at d 0 id p) /\
  (exists id p e, 0 <= last_pos /\ blen id = 32 /\ num_from_id id = end_ - 1 /\ framed e p /\
     entry_at d last_pos id p /\ last_pos + ENTRY_OVERHEAD + blen p = blen d) /\
  begin < end_ <= u32_max /\ blen ix = (end_ - begin) * 8 /\
  slice ix (blen ix - 8) 8 = Some (le_bytes 8 last_pos).

Lemma unsupported_magic_None m : unsupported_magic m = None <-> m = SHIP_MAGIC.
Proof. unfold unsupported_magic. case_bools; naive_solver. Qed.

Lemma num_from_id_u32 id : blen id = 32 -> is_u32 (num_from_id id).
Proof.
  intros H. apply be_of_u32. unfold blen in *. rewrite length_take. lia.
Qed.

Section OpenFacts.
Context (w : world) `{!FileSource w} (log index : string) (k : LogKind).
Context (f g : PosFile.t) (d ix : bytes).
Hypothesis Hf : fget log = Ok f.
Hypothesis Hg : fget index = Ok g.
Hypothesis Hd : views w f d.
Hypothesis Hix : views w g ix.

Lemma open_sound l :
  ShipLog.open w log index k = Ok (Some l) ->
  exists b e lp, l = ShipLog.mk k log index b e lp (blen d) /\ log_shape d ix b e lp.
Proof.
  pose proof (views_len _ _ _ Hd) as Ld. pose proof (views_len _ _ _ Hix) as Lix.
  unfold ShipLog.open. rewrite Hf. cbn [rbind]. cbv zeta. destruct (PosFile.len f =? 0); [done|].
  intros H. guard H as Hroom. bools. bind H as magic Hm. apply rbind_Ok in H as ([] & Hum & H).
  bind H as id0 Hid0. apply rbind_Ok in H as (h0 & Hh0 & H).
  bind H as last_ Htail. destruct last_ as [last last_pos]. guard H as Hbl. bind H as end_ Hend.
  rewrite Hg in H. cbn [rbind] in H. guard H as Hlen. bind H as slot Hslot. guard H as Hs.
  injection H as <-. bools. apply or_err_Ok in Hend. unfold checked_add32 in Hend.
  destruct (Z.ltb_spec (last + 1) U32) as [Hu|]; [|done]. injection Hend as <-.
  eapply read_header_fields in Hh0 as (p & _ & Hn0 & Li0 & _ & Hfr0 & Ha0); [|done|done].
  apply (tail_iff _ _ d) in Htail as (idn & pn & en & H0 & Lin & Hnn & Hfrn & Han & Heof); [|done|done].
  rewrite Ld. exists (num_from_id id0), (last + 1), last_pos. split; [done|].
  split; [by exists (EntryHeader.id h0), p, (EntryHeader.enc h0)|].
  split; [exists idn, pn, en; rewrite Hnn; repeat split; lia || done|].
  split; [unfold u32_max in *; lia|]. split; [lia|].
  rewrite Lix, Hlen. unfold sub64, wrap64 in Hslot. destruct Hix as (? & _ & Hi1 & Hi2 & _).
  rewrite Z.mod_small in Hslot by lia. apply (u64_at_Ok _ _ ix) in Hslot as (s & Hsl & ->); [|done|lia].
  by apply (slice_le 8 _ _ s).
Qed.

Lemma open_complete b e lp :
  log_shape d ix b e lp ->
  ShipLog.open w log index k = Ok (Some (ShipLog.mk k log index b e lp (blen d))).
Proof.
  intros ((id0 & p0 & e0 & Li0 & Hn0 & Hfr0 & Ha0) & Hlast & Hbe & Lx & Hslot).
  pose proof (views_len _ _ _ Hd) as Ld. pose proof (views_len _ _ _ Hix) as Lix.
  assert (Hroom : ENTRY_OVERHEAD <= PosFile.len f).
  { apply slice_Some in Ha0 as (_ & _ & Hin & _). pose proof (blen_nonneg p0). lia. }
  assert (Hlp : is_u64 lp).
  { destruct Hlast as (idn & pn & en & H0 & _ & _ & _ & _ & Heof). pose proof (blen_nonneg pn).
    destruct Hd as (? & _ & ? & ? & _). unfold ENTRY_OVERHEAD, HEADER_LEN in *. width_lia. }
  unfold ShipLog.open. rewrite Hf. cbn [rbind]. cbv zeta.
  rewrite (proj2 (Z.eqb_neq (PosFile.len f) 0)) by (unfold ENTRY_OVERHEAD, HEADER_LEN in *; lia).
  rewrite (proj2 (Z.leb_le _ _)) by done. cbn [ensure rbind].
  pose proof Ha0 as Ha0'. apply entry_at_fields in Ha0' as (H0 & H8 & _); [|done].
  rewrite (proj2 (u64_at_Ok w f d 0 SHIP_MAGIC Hd ltac:(lia)))
    by (eexists; split; [done|symmetry; by apply le_of_le_bytes_id]).
  cbn [rbind]. rewrite (proj2 (unsupported_magic_None SHIP_MAGIC)) by done. cbn [rbind].
  rewrite (proj2 (id_at_Ok w f d 0 id0 Hd ltac:(lia) ltac:(done))) by done. cbn [rbind].
  rewrite (read_header_accepts w f d _ 0 id0 p0 e0) by done. cbn [rbind].
  rewrite (proj2 (tail_iff w f d (e - 1) lp Hd Hroom)).
  2: { destruct Hlast as (idn & pn & en & ?). exists idn, pn, en. naive_solver. }
  cbn [rbind]. rewrite Hn0, (proj2 (Z.leb_le b _)) by lia. cbn [ensure rbind].
  unfold checked_add32. rewrite (proj2 (Z.ltb_lt (e - 1 + 1) U32)) by (unfold u32_max in *; lia).
  replace (e - 1 + 1) with e by lia. cbn [or_err rbind]. rewrite Hg. cbn [rbind].
  rewrite (proj2 (Z.eqb_eq (PosFile.len g) _)) by lia. cbn [ensure rbind].
  destruct Hix as (? & _ & ? & ? & _). unfold sub64, wrap64. rewrite Z.mod_small by lia.
  rewrite (proj2 (u64_at_Ok w g ix ((e - b) * 8 - 8) lp Hix ltac:(lia))).
  2: { eexists. rewrite <- Lx. split; [done|]. symmetry. by apply le_of_le_bytes_id. }
  cbn [rbind]. rewrite Z.eqb_refl. cbn [ensure rbind]. by rewrite Ld.
Qed.

End OpenFacts.

(** ** Reading through the index *)

Lemma chunks8_cons x t : length x = 8%nat -> chunks8 (x ++ t) = x :: chunks8 t.
Proof. intros H. do 8 (destruct x as [|? x]; [done|]). by destruct x. Qed.

Lemma chunks8_short b : blen b < 8 -> chunks8 b = [].
Proof.
  intros H. do 8 (destruct b as [|? b]; [done|]). autorewrite with blen in H.
  pose proof (blen_nonneg b). lia.
Qed.

(** Chunk [i] of a buffer is its slice at [8 * i]. *)
Lemma chunks8_lookup b i : chunks8 b !! i = slice b (8 * Z.of_nat i) 8.
Proof.
  revert b; induction i as [|i IH]; intros b.
  all: destruct (Z.lt_ge_cases (blen b) 8) as [Hs|Hs];
    [rewrite chunks8_short by done; symmetry; apply slice_None; lia|].
  all: assert (Hx : length (take 8 b) = 8%nat) by (rewrite length_take; unfold blen in Hs; lia).
  all: rewrite <- (take_drop 8 b), chunks8_cons by done; cbn [lookup list_lookup].
  - symmetry. apply (slice_mid []); [done|]. unfold blen. by rewrite Hx.
  - etransitivity; [apply IH|]. rewrite slice_app_r by (unfold blen; rewrite Hx; lia).
    f_equal. unfold blen. rewrite Hx. lia.
Qed.

Section ReadFacts.
Context (w : world) `{!FileSource w} (l : ShipLog.t).
Context (f g : PosFile.t) (d ix : bytes).
Hypothesis Hf : fget (ShipLog.log l) = Ok f.
Hypothesis Hg : fget (ShipLog.index l) = Ok g.
Hypothesis Hd : views w f d.
Hypothesis Hix : views w g ix.
Hypothesis Hsize : ShipLog.size l = blen d.
Hypothesis Hslots : blen ix = (ShipLog.end_ l - ShipLog.begin l) * 8.

Lemma log_file_eq : ShipLog.log_file w l = Ok f.
Proof.
  unfold ShipLog.log_file. rewrite Hf. cbn [rbind]. rewrite Hsize, (views_len _ _ _ Hd), Z.eqb_refl. done.
Qed.

Lemma index_file_eq : ShipLog.index_file w l = Ok g.
Proof.
  unfold ShipLog.index_file. rewrite Hg. cbn [rbind]. rewrite <- (views_len _ _ _ Hix), Hslots, Z.eqb_refl. done.
Qed.

(** [header n] is [read_header] at the offset slot [n] holds. *)
Lemma header_slot n :
  ShipLog.begin l <= n < ShipLog.end_ l ->
  exists s, slice ix ((n - ShipLog.begin l) * 8) 8 = Some s /\
    ShipLog.header w l n = read_header w f n (le_of s).
Proof.
  intros Hn. destruct (slice_is_Some ix ((n - ShipLog.begin l) * 8) 8) as [s Hs]; [lia..|].
  exists s. split; [done|]. unfold ShipLog.header, ShipLog.check_block.
  rewrite (proj2 (Z.leb_le _ _)), (proj2 (Z.ltb_lt _ _)) by lia. cbn [ensure rbind andb].
  rewrite index_file_eq. cbn [rbind].
  rewrite (proj2 (u64_at_Ok w g ix ((n - ShipLog.begin l) * 8) (le_of s) Hix ltac:(lia))) by eauto.
  cbn [rbind]. by rewrite log_file_eq.
Qed.

Lemma header_at_eq n pos :
  ShipLog.begin l <= n < ShipLog.end_ l -> ShipLog.header_at w l n pos = read_header w f n pos.
Proof.
  intros Hn. unfold ShipLog.header_at, ShipLog.check_block.
  rewrite (proj2 (Z.leb_le _ _)), (proj2 (Z.ltb_lt _ _)) by lia. cbn [ensure rbind andb].
  by rewrite log_file_eq.
Qed.

(** One read of the index gives every slot of the run. *)
Lemma positions_slots from count :
  ShipLog.begin l <= from -> 0 <= count -> from + count <= ShipLog.end_ l -> ShipLog.end_ l <= u32_max ->
  exists ps, ShipLog.positions w l from count = Ok ps /\ blen ps = count /\
    forall i : nat, Z.of_nat i < count ->
      ps !! i = le_of <$> slice ix ((from + Z.of_nat i - ShipLog.begin l) * 8) 8.
Proof.
  intros Hfrom Hc Hto Hu. destruct (slice_is_Some ix ((from - ShipLog.begin l) * 8) (count * 8)) as [s Hs];
    [lia..|].
  exists (le_of <$> chunks8 s). unfold ShipLog.positions, checked_add32.
  rewrite (proj2 (Z.leb_le (ShipLog.begin l) from)), (proj2 (Z.ltb_lt _ _)), (proj2 (Z.leb_le (from + _) _))
    by (unfold u32_max in *; lia).
  cbn [andb ensure rbind]. rewrite index_file_eq. cbn [rbind].
  erewrite read_vec_spec by (done || lia). rewrite Hs. split; [done|].
  pose proof (slice_blen _ _ _ _ Hs) as Ls.
  assert (Hin : forall i : nat, Z.of_nat i < count ->
    chunks8 s !! i = slice ix ((from + Z.of_nat i - ShipLog.begin l) * 8) 8).
  { intros i Hi. rewrite chunks8_lookup, (slice_slice ix _ _ s) by (done || lia). f_equal. lia. }
  split; [|intros i Hi; by rewrite list_lookup_fmap, Hin]. unfold blen. rewrite length_fmap.
  apply Z.le_antisymm.
  - apply Z.le_ngt. intros Hgt. destruct (lookup_lt_is_Some_2 (chunks8 s) (Z.to_nat count)) as [x Hx]; [lia|].
    rewrite chunks8_lookup in Hx. apply slice_Some in Hx. lia.
  - apply Z.le_ngt. intros Hlt. assert (Hn : chunks8 s !! length (chunks8 s) = None) by (by apply lookup_ge_None).
    rewrite Hin in Hn by lia. apply slice_None in Hn. lia.
Qed.

End ReadFacts.

(** What a log that [open] returned can count on at every later read. *)
Record ready (w : world) `{!FileSource w} (l : ShipLog.t) (f g : PosFile.t) (d ix : bytes) : Prop := {
  rd_log : fget (ShipLog.log l) = Ok f;
  rd_index : fget (ShipLog.index l) = Ok g;
  rd_d : views w f d;
  rd_ix : views w g ix;
  rd_size : ShipLog.size l = blen d;
  rd_slots : blen ix = (ShipLog.end_ l - ShipLog.begin l) * 8;
  rd_range : 0 <= ShipLog.begin l < ShipLog.end_ l;
  rd_end : ShipLog.end_ l <= u32_max
}.

Lemma open_ready (w : world) `{!FileSource w} log index k l :
  ShipLog.open w log index k = Ok (Some l) ->
  ShipLog.log l = log /\ ShipLog.index l = index /\ ShipLog.kind l = k /\
  exists f g d ix, ready w l f g d ix.
Proof.
  intros Ho. pose proof Ho as Ho'. unfold ShipLog.open in Ho'. bind Ho' as f Hf. cbv zeta in Ho'.
  destruct (_ =? 0); [done|]. guard Ho' as H1. bind Ho' as magic Hm. apply rbind_Ok in Ho' as (u1 & _ & Ho').
  bind Ho' as id0 Hid. apply rbind_Ok in Ho' as (u2 & _ & Ho').
  bind Ho' as t Ht. destruct t as [last lp]. guard Ho' as H2. bind Ho' as e He. bind Ho' as g Hg. clear Ho'.
  destruct (fget_views _ _ Hf) as [d Hd]. destruct (fget_views _ _ Hg) as [ix Hix].
  destruct (open_sound w log index k f g d ix Hf Hg Hd Hix l Ho) as (b & e' & lp' & -> & Hs).
  split_and!; try done. exists f, g, d, ix.
  destruct Hs as ((i0 & p0 & e0 & L0 & Hn0 & _) & _ & Hbe & Hlx & _).
  apply num_from_id_u32 in L0 as [? _]. split; simpl; try done; lia.
Qed.

(** ** No panics *)
Section NoPanic.
Context (w : world) `{!FileSource w}.

Lemma read_header_any f n s :
  (exists p, fget p = Ok f) -> no_panic (read_header w f n (le_of s)).
Proof.
  intros [p Hp]. apply fget_views in Hp as [d Hd]. eapply read_header_no_panic; [done|].
  apply le_of_range.
Qed.

Lemma open_no_panic_any log index k : no_panic (ShipLog.open w log index k).
Proof.
  unfold ShipLog.open. apply no_panic_bind; [auto with no_panic|intros f Hf].
  destruct (fget_views _ _ Hf) as [d Hd]. cbv zeta. destruct (_ =? 0); [done|].
  do 3 (apply no_panic_bind; [solve_no_panic|intros ? ?]).
  apply no_panic_bind; [auto with no_panic|intros id Hid].
  apply no_panic_bind; [by eapply read_header_no_panic|intros ? _].
  apply no_panic_bind; [by eapply tail_no_panic|intros [last last_pos] _]. solve_no_panic.
Qed.

Lemma u64_at_nonneg f off v : PosFile.u64_at w f off = Ok v -> 0 <= v.
Proof.
  unfold PosFile.u64_at. intros H. bind H as b Hb. injection H as <-. apply le_of_range.
Qed.

Lemma log_file_no_panic l : no_panic (ShipLog.log_file w l).
Proof. unfold ShipLog.log_file. solve_no_panic. Qed.

Lemma index_file_no_panic l : no_panic (ShipLog.index_file w l).
Proof. unfold ShipLog.index_file. solve_no_panic. Qed.

Lemma log_file_views l f : ShipLog.log_file w l = Ok f -> exists d, views w f d.
Proof.
  unfold ShipLog.log_file. intros H. bind H as h Hh. guard H as Hl. injection H as <-.
  by eapply fget_views.
Qed.

Lemma header_at_no_panic l n pos : 0 <= pos -> no_panic (ShipLog.header_at w l n pos).
Proof.
  intros Hp. unfold ShipLog.header_at, ShipLog.check_block.
  apply no_panic_bind; [auto with no_panic|intros ? _].
  apply no_panic_bind; [apply log_file_no_panic|intros f Hf].
  apply log_file_views in Hf as [d Hd]. by eapply read_header_no_panic.
Qed.

Lemma header_no_panic l n : no_panic (ShipLog.header w l n).
Proof.
  unfold ShipLog.header, ShipLog.check_block.
  apply no_panic_bind; [auto with no_panic|intros ? _].
  apply no_panic_bind; [apply index_file_no_panic|intros ix _].
  apply no_panic_bind; [auto with no_panic|intros pos Hp%u64_at_nonneg].
  apply no_panic_bind; [apply log_file_no_panic|intros f Hf].
  apply log_file_views in Hf as [d Hd]. by eapply read_header_no_panic.
Qed.

Lemma positions_no_panic l from count : no_panic (ShipLog.positions w l from count).
Proof.
  unfold ShipLog.positions. cbv zeta. do 2 (apply no_panic_bind; [solve_no_panic|intros ? ?]).
  - apply index_file_no_panic.
  - solve_no_panic.
Qed.

End NoPanic.

(** ** The writer's log as a chain of blocks

    What the writer's index stands for: the current chain, a list of (id, payload). Writing a
    block below the end drops the chain from that block on. *)
Abbreviation block := (bytes * bytes)%type.

Definition chain_push (c : list block) (x : block) : list block :=
  match c with
  | [] => [x]
  | (id0, _) :: _ => take (Z.to_nat (num_from_id x.1 - num_from_id id0)) c ++ [x]
  end.

Definition chain_of (xs : list block) : list block := foldl chain_push [] xs.

Fixpoint push_all (xs : list block) (b : LogBuilder.t) : result LogBuilder.t :=
  match xs with
  | [] => Ok b
  | (id, payload) :: xs => let? b := LogBuilder.push_encoded id payload b in push_all xs b
  end.

Definition block_ok (x : block) : Prop := blen x.1 = 32 /\ exists e, framed e x.2.

(** Slot [i] points at the entry of chain block [i], which is number [begin + i]; the last entry
    ends the file, and the first entry of the file, an orphan or not, is block [begin]'s. *)
Record written (b : LogBuilder.t) (c : list block) (begin : Z) : Prop := {
  wr_begin : LogBuilder.begin b = Some begin;
  wr_len : length (LogBuilder.slots b) = length c;
  wr_slot : forall i id p, c !! i = Some (id, p) ->
    block_ok (id, p) /\ num_from_id id = begin + Z.of_nat i /\
    exists pos, LogBuilder.slots b !! i = Some pos /\ 0 <= pos /\ entry_at (LogBuilder.log b) pos id p;
  wr_last : exists c0 id p pos, c = c0 ++ [(id, p)] /\ LogBuilder.slots b !! length c0 = Some pos /\
    pos + ENTRY_OVERHEAD + blen p = blen (LogBuilder.log b);
  wr_first : exists id p e, blen id = 32 /\ num_from_id id = begin /\ framed e p /\
    entry_at (LogBuilder.log b) 0 id p
}.

Lemma entry_at_app d x pos id p : entry_at d pos id p -> entry_at (d ++ x) pos id p.
Proof. apply slice_app_l. Qed.

Lemma entry_at_end d id p : blen id = 32 -> entry_at (d ++ entry id p (blen d)) (blen d) id p.
Proof.
  intros H. unfold entry_at. rewrite <- (app_nil_r (entry id p (blen d))) at 1.
  apply slice_mid; [done|]. by rewrite blen_entry.
Qed.

Lemma chain_head c x b begin :
  written b c begin -> exists id p r, c = (id, p) :: r /\ num_from_id id = begin /\
    chain_push c x = take (Z.to_nat (num_from_id x.1 - begin)) c ++ [x].
Proof.
  intros Hw. destruct (wr_last _ _ _ Hw) as (c0 & ? & ? & ? & -> & _ & _).
  destruct (c0 ++ [_]) as [|[id p] r] eqn:Hc; [by destruct c0|]. exists id, p, r.
  destruct (wr_slot _ _ _ Hw 0 id p eq_refl) as (_ & Hn & _).
  assert (num_from_id id = begin) as <- by lia. split; [done|]. split; [done|]. reflexivity.
Qed.

Lemma written_first id p b :
  block_ok (id, p) -> LogBuilder.push_encoded id p LogBuilder.new = Ok b ->
  written b [(id, p)] (num_from_id id).
Proof.
  intros Hb. pose proof Hb as [Li [e He]]. simpl in Li, He. unfold LogBuilder.push_encoded. simpl.
  destruct (_ && _); [|done]. intros [= <-].
  rewrite Z.sub_diag. simpl. change (blen []) with 0.
  pose proof (entry_at_end [] id p Li) as Ha. simpl in Ha. change (blen []) with 0 in Ha.
  split; simpl; try done.
  - intros [|i] id' p' H; [|done]. simpl in H. injection H as <- <-. split; [done|].
    split; [lia|]. by exists 0.
  - exists [], id, p, 0. split; [done|]. split; [done|]. rewrite blen_entry by done. lia.
  - by exists id, p, e.
Qed.

Lemma written_push id p b b' c begin :
  block_ok (id, p) -> written b c begin -> LogBuilder.push_encoded id p b = Ok b' ->
  written b' (chain_push c (id, p)) begin.
Proof.
  intros Hb Hw. destruct (chain_head c (id, p) b begin Hw) as (_ & _ & _ & _ & _ & ->).
  pose proof Hb as [Li _]. simpl in Li. unfold LogBuilder.push_encoded.
  rewrite (wr_begin _ _ _ Hw). simpl default.
  destruct (Z.leb_spec begin (num_from_id id)) as [H1|]; [|done].
  destruct (Z.leb_spec (num_from_id id) (begin + blen (LogBuilder.slots b))) as [H2|]; [|done].
  intros [= <-]. cbn [fst]. set (k := Z.to_nat (num_from_id id - begin)).
  pose proof (wr_len _ _ _ Hw) as Hlen.
  assert (Hk : (k <= length c)%nat) by (unfold blen in H2; lia).
  assert (Hkc : length (take k c) = k) by (rewrite length_take; lia).
  assert (Hks : length (take k (LogBuilder.slots b)) = k) by (rewrite length_take; lia).
  split; simpl.
  - done.
  - rewrite !length_app, Hkc, Hks. done.
  - intros i id' p' Hi. apply lookup_app_Some in Hi as [Hi|[Hge Hi]].
    + apply lookup_take_Some in Hi as [Hi Hlt].
      destruct (wr_slot _ _ _ Hw i id' p' Hi) as (? & ? & pos & Hpos & ? & Ha).
      split; [done|]. split; [done|]. exists pos. split; [|auto using entry_at_app].
      rewrite lookup_app_l by lia. by rewrite lookup_take_lt by lia.
    + rewrite Hkc in Hi, Hge. apply list_lookup_singleton_Some in Hi as [Hi [= <- <-]].
      split; [done|]. split; [lia|]. exists (blen (LogBuilder.log b)).
      split; [|split; [apply blen_nonneg|by apply entry_at_end]].
      rewrite lookup_app_r by lia. by replace (i - _)%nat with 0%nat by lia.
  - exists (take k c), id, p, (blen (LogBuilder.log b)). split; [done|]. split.
    + rewrite Hkc, lookup_app_r by lia. by rewrite Hks, Nat.sub_diag.
    + rewrite blen_app, blen_entry by done. lia.
  - destruct (wr_first _ _ _ Hw) as (i0 & p0 & e0 & ? & ? & ? & ?). exists i0, p0, e0.
    auto using entry_at_app.
Qed.

Lemma push_all_written xs b b' c begin :
  Forall block_ok xs -> written b c begin -> push_all xs b = Ok b' ->
  written b' (foldl chain_push c xs) begin.
Proof.
  revert b c; induction xs as [|[id p] xs IH]; intros b c Hxs Hw H; simpl in H.
  - by injection H as <-.
  - apply Forall_cons_1 in Hxs as [Hx Hxs]. bind H as b1 Hb1. simpl.
    eapply IH; [done| |done]. by eapply written_push.
Qed.

Lemma index_slice (slots : list Z) (i : nat) pos :
  slots !! i = Some pos ->
  slice (concat (le_bytes 8 <$> slots)) (Z.of_nat i * 8) 8 = Some (le_bytes 8 pos).
Proof.
  revert i; induction slots as [|s slots IH]; intros [|i] H; simpl in H; try done.
  - injection H as ->. apply (slice_mid []); [done|]. by rewrite blen_le_bytes.
  - cbn [fmap list_fmap concat]. rewrite slice_app_r by (rewrite blen_le_bytes; lia).
    rewrite <- (IH i H), blen_le_bytes. f_equal. lia.
Qed.

Lemma blen_index (slots : list Z) : blen (concat (le_bytes 8 <$> slots)) = blen slots * 8.
Proof.
  induction slots as [|s slots IH]; [done|]. cbn [fmap list_fmap concat].
  rewrite blen_app, blen_le_bytes, IH, blen_cons. lia.
Qed.

(** A written log is one that [open] accepts. *)
Lemma written_shape b c begin :
  written b c begin -> begin + blen c <= u32_max ->
  exists lp, log_shape (LogBuilder.log b) (LogBuilder.index b) begin (begin + blen c) lp.
Proof.
  intros Hw Hu. destruct (wr_last _ _ _ Hw) as (c0 & id & p & pos & Hc & Hpos & Heof).
  exists pos. destruct (wr_slot _ _ _ Hw (length c0) id p) as ((Li & e & He) & Hn & pos' & Hp' & H0 & Ha).
  { rewrite Hc. by rewrite lookup_app_r, Nat.sub_diag by lia. }
  assert (pos' = pos) as -> by congruence.
  assert (Hlen : blen c = Z.of_nat (length c0) + 1) by (rewrite Hc, blen_app; done).
  assert (Hix : blen (LogBuilder.index b) = blen c * 8).
  { unfold LogBuilder.index. rewrite blen_index. unfold blen. by rewrite (wr_len _ _ _ Hw). }
  split; [exact (wr_first _ _ _ Hw)|]. split; [exists id, p, e; repeat split; try done; lia|].
  split; [lia|]. split; [lia|]. rewrite Hix, Hlen.
  replace (_ * 8 - 8) with (Z.of_nat (length c0) * 8) by lia. by apply index_slice.
Qed.

(** The builder's state after a non-empty run of pushes. *)
Lemma push_all_new xs b :
  Forall block_ok xs -> xs <> [] -> push_all xs LogBuilder.new = Ok b ->
  exists begin, written b (chain_of xs) begin.
Proof.
  intros Hxs Hne H. destruct xs as [|[id p] xs]; [done|]. simpl in H.
  apply Forall_cons_1 in Hxs as [Hx Hxs]. bind H as b1 Hb1. exists (num_from_id id).
  unfold chain_of. simpl. eapply push_all_written; [done|by apply written_first|done].
Qed.

Lemma chain_push_elem c x y : y ∈ chain_push c x -> y ∈ c \/ y = x.
Proof.
  unfold chain_push. destruct c as [|[id p] c]; intros H; [set_solver|].
  apply elem_of_app in H as [H|H]; [|set_solver]. left. by eapply elem_of_take in H as (? & ?%list_elem_of_lookup_2 & _).
Qed.

Lemma chain_of_elem xs x : x ∈ chain_of xs -> x ∈ xs.
Proof.
  unfold chain_of. assert (H : forall c, x ∈ foldl chain_push c xs -> x ∈ c \/ x ∈ xs).
  { induction xs as [|y xs IH]; intros c H; simpl in H; [by left|].
    apply IH in H as [H|H]; [|set_solver]. apply chain_push_elem in H. set_solver. }
  intros Hx. destruct (H [] Hx); set_solver.
Qed.

(** Every chain block is read back through the index of the opened log. *)
Lemma written_header (w : world) `{!FileSource w} l f g b c begin :
  written b c begin -> fget (ShipLog.log l) = Ok f -> fget (ShipLog.index l) = Ok g ->
  views w f (LogBuilder.log b) -> views w g (LogBuilder.index b) ->
  ShipLog.size l = blen (LogBuilder.log b) -> ShipLog.begin l = begin -> ShipLog.end_ l = begin + blen c ->
  forall i id p, c !! i = Some (id, p) ->
    exists pos e, framed e p /\ 0 <= pos /\ entry_at (LogBuilder.log b) pos id p /\
      ShipLog.log_file w l = Ok f /\
      read_header w f (begin + Z.of_nat i) pos = Ok (EntryHeader.mk pos id (blen p) e) /\
      ShipLog.header w l (begin + Z.of_nat i) = Ok (EntryHeader.mk pos id (blen p) e).
Proof.
  intros Hw Hf Hg Hd Hix Hs Hb He i id p Hi.
  destruct (wr_slot _ _ _ Hw i id p Hi) as ((Li & e & Hfr) & Hn & pos & Hpos & H0 & Ha).
  apply lookup_lt_Some in Hi as Hlt.
  assert (Lix : blen (LogBuilder.index b) = (ShipLog.end_ l - ShipLog.begin l) * 8).
  { unfold LogBuilder.index. rewrite blen_index, He, Hb. unfold blen. rewrite (wr_len _ _ _ Hw). lia. }
  destruct (header_slot w l f g _ _ Hf Hg Hd Hix Hs Lix (begin + Z.of_nat i)) as (s & Hsl & Hh).
  { unfold blen in *. lia. }
  replace ((begin + Z.of_nat i - ShipLog.begin l) * 8) with (Z.of_nat i * 8) in Hsl by lia.
  unfold LogBuilder.index in Hsl. rewrite (index_slice _ _ _ Hpos) in Hsl. apply (inj Some) in Hsl. subst s.
  assert (Hu : is_u64 pos).
  { apply slice_Some in Ha as (_ & _ & Hin & _). destruct Hd as (? & _ & ? & ? & Ed).
    pose proof (blen_nonneg p). rewrite Ed in Hin. rewrite blen_take in Hin by lia.
    unfold ENTRY_OVERHEAD, HEADER_LEN in Hin. width_lia. }
  exists pos, e. split; [done|]. split; [done|]. split; [done|].
  split; [by eapply log_file_eq|]. rewrite Hh, le_of_le_bytes_id by done.
  split; by eapply read_header_accepts.
Qed.

(** A written log opens, with the writer's range. *)
Lemma builder_opens (w : world) (S : FileSource w) log index k xs b f g :
  Forall block_ok xs -> xs <> [] -> Forall (fun x => num_from_id x.1 < u32_max) xs ->
  push_all xs LogBuilder.new = Ok b -> fget log = Ok f -> fget index = Ok g ->
  views w f (LogBuilder.log b) -> views w g (LogBuilder.index b) ->
  exists l begin, written b (chain_of xs) begin /\ ShipLog.open w log index k = Ok (Some l) /\
    l = ShipLog.mk k log index begin (begin + blen (chain_of xs)) (ShipLog.last_pos l)
          (blen (LogBuilder.log b)) /\
    ShipLog.range l = LogBuilder.range b.
Proof.
  intros Hxs Hne Hnum Hb Hf Hg Hd Hix.
  destruct (push_all_new xs b Hxs Hne Hb) as [begin Hw].
  assert (Hend : 0 <= begin /\ begin + blen (chain_of xs) <= u32_max).
  { destruct (wr_last _ _ _ Hw) as (c0 & id & p & pos & Hc & _ & _).
    destruct (wr_slot _ _ _ Hw (length c0) id p) as ((Li & _) & Hn & _).
    { rewrite Hc. by rewrite lookup_app_r, Nat.sub_diag by lia. }
    assert (Hin : (id, p) ∈ chain_of xs) by (rewrite Hc; set_solver).
    apply chain_of_elem, list_elem_of_lookup_1 in Hin as [j Hj].
    pose proof (Forall_lookup_1 _ _ _ _ Hnum Hj) as Hlt. simpl in Hlt.
    destruct (wr_first _ _ _ Hw) as (i0 & _ & _ & Li0 & Hb0 & _). apply num_from_id_u32 in Li0 as [? _].
    rewrite Hc, blen_app. change (blen [(id, p)]) with 1. unfold blen. lia. }
  destruct (written_shape b _ begin Hw (proj2 Hend)) as [lp Hsh].
  eexists _, begin. split; [done|].
  split; [by apply (open_complete w log index k f g _ _ Hf Hg Hd Hix)|]. split; [done|].
  unfold ShipLog.range, LogBuilder.range. simpl. rewrite (wr_begin _ _ _ Hw). f_equal.
  unfold blen, wrap32 in *. rewrite (wr_len _ _ _ Hw). unfold u32_max in *.
  rewrite (Z.mod_small (Z.of_nat _)), Z.mod_small by lia. done.
Qed.

(** ** Properties *)

(** C11: [read_header] accepts an entry exactly when the log holds, at that offset, one whole
    entry of the asked block as the writer lays it out: magic, a 32-byte id whose number is [n],
    the payload size, a payload framed as Type A or Type B, and a trailer naming the offset; and
    it returns just those fields. *)
Theorem read_header_exact (w : world) (f : PosFile.t) (d : bytes) (n pos : Z) (h : EntryHeader.t)
    (Hd : views w f d) (Hpos : 0 <= pos) :
  read_header w f n pos = Ok h <->
  exists payload,
    EntryHeader.pos h = pos /\ EntryHeader.num h = n /\ blen (EntryHeader.id h) = 32 /\
    EntryHeader.payload_size h = blen payload /\ framed (EntryHeader.enc h) payload /\
    entry_at d pos (EntryHeader.id h) payload.
Proof.
  split; [by apply read_header_fields|].
  destruct h as [p id ps e]. simpl. intros (payload & -> & Hn & Li & -> & Hf & Ha).
  by apply (read_header_accepts w f d n pos id payload e).
Qed.

(** A small log for the examples: blocks 5, 6, 7 and then a fork that replaces 6. *)
Definition ex_id (n : Z) (fork : byte) : bytes := be_bytes 4 n ++ fork :: replicate 27 x2a.
Definition ex_blocks : list block :=
  [ (ex_id 5 x00, sized_payload 3 [x01; x02]); (ex_id 6 x00, legacy_payload 0 [x09]);
    (ex_id 7 x00, legacy_payload 2 [x08; x09]); (ex_id 6 x01, sized_payload 1 [x07]) ].
Definition ex_builder : LogBuilder.t := default LogBuilder.new (ok_of (push_all ex_blocks LogBuilder.new)).
Definition ex_world : world :=
  world_of [("log", LogBuilder.log ex_builder); ("index", LogBuilder.index ex_builder)].
Definition ex_log : PosFile.t := PosFile.mk 0 (blen (LogBuilder.log ex_builder)) "log".
Definition ex_index : PosFile.t := PosFile.mk 1 (blen (LogBuilder.index ex_builder)) "index".

Lemma ex_world_ok : world_ok ex_world.
Proof. apply world_of_ok. repeat constructor. Qed.

Lemma ex_log_views : views ex_world ex_log (LogBuilder.log ex_builder).
Proof. exists (LogBuilder.log ex_builder). repeat split; try by vm_compute. Qed.

Lemma ex_index_views : views ex_world ex_index (LogBuilder.index ex_builder).
Proof. exists (LogBuilder.index ex_builder). repeat split; try by vm_compute. Qed.

Lemma read_header_exact_witness :
  read_header ex_world ex_log 5 0 =
    Ok (EntryHeader.mk 0 (ex_id 5 x00) 14 (Sized 3)) /\
  exists payload, blen payload = 14 /\ framed (Sized 3) payload /\
    entry_at (LogBuilder.log ex_builder) 0 (ex_id 5 x00) payload.
Proof.
  assert (H : read_header ex_world ex_log 5 0 = Ok (EntryHeader.mk 0 (ex_id 5 x00) 14 (Sized 3)))
    by (by vm_compute).
  split; [done|].
  apply (read_header_exact _ _ _ _ _ _ ex_log_views ltac:(done)) in H.
  destruct H as (payload & _ & _ & _ & Hs & Hf & Ha). by exists payload.
Defined.

(** C39: [ShipLog::open] accepts exactly the logs it documents: the first entry is a supported
    one, the last ends at the end of the file, the numbers are ordered and below 2^32 - 1, and
    the index has one slot per block with its last slot on the last entry. What it keeps is what
    it validated. *)
Theorem open_exact (w : world) (S : FileSource w) (log index : string) (k : LogKind)
    (f g : PosFile.t) (d ix : bytes) (l : ShipLog.t)
    (Hf : fget log = Ok f) (Hg : fget index = Ok g) (Hd : views w f d) (Hix : views w g ix) :
  ShipLog.open w log index k = Ok (Some l) <->
  exists b e lp, l = ShipLog.mk k log index b e lp (blen d) /\ log_shape d ix b e lp.
Proof.
  split; [by apply (open_sound w log index k f g)|].
  intros (b & e & lp & -> & Hs). by apply (open_complete w log index k f g d ix Hf Hg).
Qed.

Lemma open_exact_witness :
  let S := direct_source ex_world ex_world_ok in
  ShipLog.open ex_world "log" "index" Trace
    = Ok (Some (ShipLog.mk Trace "log" "index" 5 7 193 (blen (LogBuilder.log ex_builder)))) /\
  log_shape (LogBuilder.log ex_builder) (LogBuilder.index ex_builder) 5 7 193.
Proof.
  intros S. split; [by vm_compute|].
  destruct (proj1 (open_exact ex_world S "log" "index" Trace ex_log ex_index _ _
    (ShipLog.mk Trace "log" "index" 5 7 193 (blen (LogBuilder.log ex_builder)))
    ltac:(by vm_compute) ltac:(by vm_compute) ex_log_views ex_index_views) ltac:(by vm_compute))
    as (b & e & lp & Hl & Hs).
  injection Hl as <- <- <-. exact Hs.
Defined.

(** Nothing panics, whatever the bytes of the files: not opening a log, not reading a block's
    header through the index or at an offset, not reading index slots. *)
Lemma shiplog_never_panics (w : world) (S : FileSource w) (log index : string) (k : LogKind)
    (l : ShipLog.t) (n pos from count : Z) :
  is_panic (ShipLog.open w log index k) = false /\
  is_panic (ShipLog.header w l n) = false /\
  (is_u64 pos -> is_panic (ShipLog.header_at w l n pos) = false) /\
  is_panic (ShipLog.positions w l from count) = false.
Proof.
  split; [apply open_no_panic_any|]. split; [apply header_no_panic|].
  split; [intros [Hp _]; by apply header_at_no_panic|apply positions_no_panic].
Qed.

Definition bad_world : world := world_of [("log", replicate 60 xff); ("index", [])].

Lemma bad_world_ok : world_ok bad_world.
Proof. apply world_of_ok. repeat constructor. Qed.

Lemma shiplog_never_panics_witness :
  let w := bad_world in
  let S := direct_source bad_world bad_world_ok in
  is_panic (ShipLog.open w "log" "index" Trace) = false /\
  ShipLog.open w "log" "index" Trace = Err (ENotStateHistory NoShipMagic).
Proof.
  intros w S. split; [|by vm_compute].
  apply (shiplog_never_panics w S "log" "index" Trace
           (ShipLog.mk Trace "log" "index" 0 1 0 60) 0 0 0 0).
Defined.

(** [positions] of a run of blocks is one index read that gives, block by block, the offset
    [header] would use: reading each header at those offsets is reading it through the index. *)
Lemma positions_agree (w : world) (S : FileSource w) (l : ShipLog.t) (f g : PosFile.t)
    (d ix : bytes) (from count : Z)
    (Hf : fget (ShipLog.log l) = Ok f) (Hg : fget (ShipLog.index l) = Ok g)
    (Hd : views w f d) (Hix : views w g ix) (Hs : ShipLog.size l = blen d)
    (Hsl : blen ix = (ShipLog.end_ l - ShipLog.begin l) * 8) (He : ShipLog.end_ l <= u32_max)
    (Hfrom : ShipLog.begin l <= from) (Hc : 0 <= count) (Hto : from + count <= ShipLog.end_ l) :
  exists ps, ShipLog.positions w l from count = Ok ps /\ blen ps = count /\
    forall (i : nat) pos, ps !! i = Some pos ->
      ShipLog.header_at w l (from + Z.of_nat i) pos = ShipLog.header w l (from + Z.of_nat i).
Proof.
  destruct (positions_slots w l g ix Hg Hix Hsl from count Hfrom Hc Hto He) as (ps & Hps & Hl & Hi).
  exists ps. split; [done|]. split; [done|]. intros i pos Hp.
  apply lookup_lt_Some in Hp as Hlt. unfold blen in Hl. assert (Hlt' : Z.of_nat i < count) by lia.
  destruct (header_slot w l f g d ix Hf Hg Hd Hix Hs Hsl (from + Z.of_nat i)) as (s & Hsi & ->); [lia|].
  rewrite Hi, Hsi in Hp by done. injection Hp as <-.
  apply (header_at_eq w l f d Hf Hd Hs). lia.
Qed.

Lemma positions_agree_witness :
  let S := direct_source ex_world ex_world_ok in
  let l := ShipLog.mk Trace "log" "index" 5 7 193 (blen (LogBuilder.log ex_builder)) in
  ShipLog.positions ex_world l 5 2 = Ok [0; 193] /\
  ShipLog.header_at ex_world l 6 193 = ShipLog.header ex_world l 6.
Proof.
  intros S l.
  destruct (positions_agree ex_world S l ex_log ex_index _ _ 5 2
    ltac:(by vm_compute) ltac:(by vm_compute) ex_log_views ex_index_views
    ltac:(by vm_compute) ltac:(by vm_compute) ltac:(by vm_compute) ltac:(by vm_compute)
    ltac:(done) ltac:(by vm_compute)) as (ps & Hps & _ & H).
  assert (Hv : ShipLog.positions ex_world l 5 2 = Ok [0; 193]) by (by vm_compute).
  split; [done|]. rewrite Hv in Hps. injection Hps as <-. exact (H 1%nat 193 eq_refl).
Defined.

(** C25: what is written is read back, forks included. Any run of pushes leaves a log and an
    index that [open] accepts, with the writer's range, and [header] returns for every block of
    the current chain the id written last for it, the size and framing of its payload, and the
    position of an entry that is whole in the log: the payload read from behind its header is, byte
    for byte, the one pushed. Orphaned entries, which stay in the file, are never returned. *)
Theorem log_roundtrip (w : world) (S : FileSource w) (log index : string) (k : LogKind)
    (xs : list block) (b : LogBuilder.t) (f g : PosFile.t)
    (Hxs : Forall block_ok xs) (Hne : xs <> [])
    (Hnum : Forall (fun x => num_from_id x.1 < u32_max) xs)
    (Hb : push_all xs LogBuilder.new = Ok b) (Hf : fget log = Ok f) (Hg : fget index = Ok g)
    (Hd : views w f (LogBuilder.log b)) (Hix : views w g (LogBuilder.index b)) :
  exists l, ShipLog.open w log index k = Ok (Some l) /\
    ShipLog.range l = LogBuilder.range b /\
    ShipLog.end_ l = ShipLog.begin l + blen (chain_of xs) /\
    forall i id p, chain_of xs !! i = Some (id, p) ->
      exists pos e, framed e p /\
        ShipLog.header w l (ShipLog.begin l + Z.of_nat i) = Ok (EntryHeader.mk pos id (blen p) e) /\
        entry_at (LogBuilder.log b) pos id p /\ ShipLog.log_file w l = Ok f /\
        PosFile.read_vec w f (pos + HEADER_LEN) (blen p) = Ok p.
Proof.
  destruct (builder_opens w S log index k xs b f g) as (l & begin & Hw & Ho & Hl & Hr); [done..|].
  exists l. split; [done|]. split; [done|]. rewrite Hl. split; [done|].
  intros i id p Hi. simpl.
  destruct (written_header w l f g b (chain_of xs) begin) with i id p as (pos & e & H);
    try done; try (by rewrite Hl).
  rewrite <- Hl. destruct H as (H1 & H2 & H3 & H4 & _ & H5). exists pos, e. split_and!; try done.
  pose proof (blen_nonneg p). rewrite (read_vec_spec w f _ (pos + HEADER_LEN) (blen p) Hd) by (unfold HEADER_LEN; lia).
  assert (Hx : (id, p) ∈ xs) by (apply chain_of_elem; by eapply list_elem_of_lookup_2). rewrite list.Forall_forall in Hxs. destruct (Hxs _ Hx) as [Li _].
  change (pos + HEADER_LEN) with (pos + 48). by apply (entry_at_fields _ _ _ _ Li) in H3 as (_ & _ & _ & -> & _).
Qed.

Lemma log_roundtrip_witness :
  let S := direct_source ex_world ex_world_ok in
  chain_of ex_blocks = [ (ex_id 5 x00, sized_payload 3 [x01; x02]); (ex_id 6 x01, sized_payload 1 [x07]) ] /\
  exists l, ShipLog.open ex_world "log" "index" ChainState = Ok (Some l) /\
    ShipLog.range l = (5, 7) /\
    exists pos e, ShipLog.header ex_world l 6 = Ok (EntryHeader.mk pos (ex_id 6 x01) 13 e) /\
      PosFile.read_vec ex_world ex_log (pos + HEADER_LEN) 13 = Ok (sized_payload 1 [x07]).
Proof.
  intros S. split; [by vm_compute|].
  destruct (log_roundtrip ex_world S "log" "index" ChainState ex_blocks ex_builder ex_log ex_index)
    as (l & Ho & Hr & He & Hh).
  - repeat (apply Forall_cons_2; [split; [by vm_compute|simpl]|]); [| | | |by apply Forall_nil_2].
    + exists (Sized 3). split; [by vm_compute|]. eauto.
    + exists (Legacy 0). split; [by vm_compute|]. split; [done|]. eexists. split; [done|]. by left.
    + exists (Legacy 2). split; [by vm_compute|]. split; [done|]. eexists. split; [done|]. by right.
    + exists (Sized 1). split; [by vm_compute|]. eauto.
  - done.
  - repeat (apply Forall_cons_2; [by vm_compute|]). by apply Forall_nil_2.
  - by vm_compute.
  - by vm_compute.
  - by vm_compute.
  - apply ex_log_views.
  - apply ex_index_views.
  - exists l. split; [done|]. split; [rewrite Hr; by vm_compute|].
    destruct (Hh 1%nat (ex_id 6 x01) (sized_payload 1 [x07]) ltac:(by vm_compute)) as (pos & e & _ & H & _ & _ & Hp).
    exists pos, e. assert (Hb : ShipLog.range l = (5, 7)) by (rewrite Hr; by vm_compute).
    injection Hb as Hb _. rewrite Hb in H. split; [exact H|exact Hp].
Defined.
