(* ===== verification/Zlib.v ===== *)
(** * The zlib decoder the readers use, and the writer's stored streams

    The flate2 crate is not part of the sources: it is the interface [Flate], with the promises
    the code relies on in [FlateLaws]. The encoders of [crates/core/src/testkit/ship.rs] that are
    part of the sources are here too: [zlib_stored], Spring's level-0 stream, and its [adler32].
    A decoder for those streams shows that the interface can be met, and that what [zlib_stored]
    writes decodes to what it was given. *)

From S2P Require Import Prelude.

(** ** The decoder, a parameter *)

(** [flate2::Status]. *)
Inductive Status := StOk | StBufError | StStreamEnd.

#[export] Instance Status_eq_dec : EqDecision Status.
Proof. solve_decision. Defined.

(** [flate2::Decompress]: [decompress z input room] consumes some of [input] and writes at most
    [room] bytes; [None] is a [DecompressError]. *)
Class Flate := {
  zst : Type;
  znew : zst;
  total_in : zst -> Z;
  total_out : zst -> Z;
  decompress : zst -> bytes -> Z -> option (Status * bytes) * zst
}.

(** What the documentation of the decoder promises. [zlib x = Some y]: [x] is exactly one
    complete zlib stream and [y] its data. [zrel z i o]: the decoder has consumed [i] and
    written [o]. On a prefix of a valid stream it never fails, and with room it makes progress. *)
Class FlateLaws (F : Flate) (zlib : bytes -> option bytes) := {
  zrel : zst -> bytes -> bytes -> Prop;
  zrel_new : zrel znew [] [];
  zrel_totals z i o : zrel z i o -> total_in z = blen i /\ total_out z = blen o;
  zrel_step z i o inp room st out z' :
    zrel z i o -> 0 <= room -> decompress z inp room = (Some (st, out), z') ->
    exists x y, inp = x ++ y /\ zrel z' (i ++ x) (o ++ out) /\ blen out <= room /\
      (st = StStreamEnd -> zlib (i ++ x) = Some (o ++ out));
  zrel_prefix z i o r t : zrel z i o -> zlib (i ++ r) = Some t -> o `prefix_of` t;
  zlib_prefix_free i r t t' : zlib i = Some t -> zlib (i ++ r) = Some t' -> r = [];
  zrel_progress z i o inp r room t :
    zrel z i o -> 0 <= room -> zlib (i ++ inp ++ r) = Some t -> (inp = [] -> r = []) ->
    exists st out z', decompress z inp room = (Some (st, out), z') /\
      (0 < room -> st = StStreamEnd \/ out <> [] \/ total_in z' <> total_in z)
}.

(** ** The writer's streams *)

(** [slice::chunks(n)]: runs of [n] elements, the last one shorter. *)
Fixpoint chunks_fuel {A} (fuel : nat) (n : Z) (l : list A) : list (list A) :=
  match fuel, l with
  | S fuel, _ :: _ => take (Z.to_nat n) l :: chunks_fuel fuel n (drop (Z.to_nat n) l)
  | _, _ => []
  end.

Definition chunks {A} (n : Z) (l : list A) : list (list A) := chunks_fuel (length l) n l.

Definition ADLER_MOD : Z := 65521.

Definition adler_byte (ab : Z * Z) (x : byte) : Z * Z :=
  let a := add32 ab.1 (b2z x) in (a, add32 ab.2 a).

Definition adler_chunk (ab : Z * Z) (chunk : bytes) : Z * Z :=
  let '(a, b) := foldl adler_byte ab chunk in (a mod ADLER_MOD, b mod ADLER_MOD).

Definition adler32 (data : bytes) : Z :=
  let '(a, b) := foldl adler_chunk (1, 0) (chunks 5552 data) in
  Z.lor (wrap32 (Z.shiftl b 16)) a.

Definition BLOCK : Z := Z.shiftl 32 10.

(** [!len] on a [u16]. *)
Definition not16 (v : Z) : Z := 65535 - v.

(** One stored block; [final] is whether no chunk follows. *)
Definition stored_block (final : bool) (chunk : bytes) : bytes :=
  let len := blen chunk mod 65536 in
  [if final then x01 else x00] ++ le_bytes 2 len ++ le_bytes 2 (not16 len) ++ chunk.

Fixpoint stored_blocks_of (cs : list bytes) : bytes :=
  match cs with
  | [] => []
  | c :: rest => stored_block (bool_decide (rest = [])) c ++ stored_blocks_of rest
  end.

Definition zlib_stored (raw : bytes) : bytes :=
  [x78; x01] ++ stored_blocks_of (chunks BLOCK raw) ++
  (if bool_decide (raw = []) then [x01; x00; x00; xff; xff] else []) ++
  be_bytes 4 (adler32 raw).

(** ** Decoding stored streams *)

(** The stored blocks at the start of [b]: their data and what follows the final one. *)
Fixpoint stored_blocks (fuel : nat) (b : bytes) : option (bytes * bytes) :=
  match fuel, b with
  | S fuel, fin :: l0 :: l1 :: n0 :: n1 :: r =>
      let len := le_of [l0; l1] in
      if (le_of [n0; n1] =? not16 len) && (b2z fin <=? 1) then
        match slice r 0 len with
        | Some data =>
            let rest := drop (Z.to_nat len) r in
            if b2z fin =? 1 then Some (data, rest)
            else match stored_blocks fuel rest with
                 | Some (t, q) => Some (data ++ t, q)
                 | None => None
                 end
        | None => None
        end
      else None
  | _, _ => None
  end.

Definition check_adler (tq : bytes * bytes) : option (bytes * bytes) :=
  match slice tq.2 0 4 with
  | Some c => if be_of c =? adler32 tq.1 then Some (tq.1, drop 4 tq.2) else None
  | None => None
  end.

Definition zlib_parse (b : bytes) : option (bytes * bytes) :=
  match b with
  | x78 :: x01 :: r =>
      match stored_blocks (length r) r with Some tq => check_adler tq | None => None end
  | _ => None
  end.

(** A whole level-0 stream. *)
Definition zlib_level0 (b : bytes) : option bytes :=
  match zlib_parse b with Some (t, []) => Some t | _ => None end.

(** *** Facts *)

Lemma stored_blocks_app f g b y t q :
  (f <= g)%nat -> stored_blocks f b = Some (t, q) -> stored_blocks g (b ++ y) = Some (t, q ++ y).
Proof.
  revert g b t q; induction f as [|f IH]; intros g b t q Hg; [done|]. destruct g as [|g]; [lia|].
  destruct b as [|fin [|l0 [|l1 [|n0 [|n1 r]]]]]; try done. cbn [stored_blocks app].
  destruct ((_ =? _) && _); [|done]. destruct (slice r 0 _) as [dat|] eqn:Hs; [|done].
  rewrite (slice_app_l _ y _ _ _ Hs). apply slice_Some in Hs as (_ & Hl & Hr & _).
  rewrite drop_app_le by (unfold blen in Hr; lia).
  destruct (b2z fin =? 1); [by intros [= <- <-]|].
  destruct (stored_blocks f _) as [[t' q']|] eqn:Hf; [|done]. intros [= <- <-].
  by rewrite (IH g _ _ _ ltac:(lia) Hf).
Qed.

Lemma zlib_parse_app b y t q : zlib_parse b = Some (t, q) -> zlib_parse (b ++ y) = Some (t, q ++ y).
Proof.
  unfold zlib_parse. destruct b as [|b0 b]; [done|]. destruct b0; try done.
  destruct b as [|b1 r]; [done|]. destruct b1; try done. cbn [app].
  destruct (stored_blocks (length r) r) as [[t' q']|] eqn:Hs; [|done].
  rewrite (stored_blocks_app (length r) (length (r ++ y)) r y t' q' ltac:(rewrite length_app; lia) Hs).
  unfold check_adler. simpl. destruct (slice q' 0 4) as [c|] eqn:Hc; [|done].
  rewrite (slice_app_l _ y _ _ _ Hc). apply slice_Some in Hc as (_ & _ & Hr & _).
  rewrite drop_app_le by (unfold blen in Hr; lia). destruct (_ =? _); [|done]. by intros [= <- <-].
Qed.

Lemma zlib_level0_Some b t : zlib_level0 b = Some t <-> zlib_parse b = Some (t, []).
Proof. unfold zlib_level0. destruct (zlib_parse b) as [[t' [|]]|]; naive_solver. Qed.

Lemma zlib_level0_prefix_free i r t t' :
  zlib_level0 i = Some t -> zlib_level0 (i ++ r) = Some t' -> r = [].
Proof. rewrite !zlib_level0_Some. intros H. rewrite (zlib_parse_app _ r _ _ H). by intros [= _ ->]. Qed.

(** ** A decoder for any prefix-free format

    It buffers its input until the stream is complete and then hands the data out. *)
Section Buffered.
Context (zlib : bytes -> option bytes).
Hypothesis prefix_free : forall i r t t', zlib i = Some t -> zlib (i ++ r) = Some t' -> r = [].

Fixpoint feed (i inp : bytes) : bytes :=
  match zlib i, inp with
  | None, x :: inp => x :: feed (i ++ [x]) inp
  | _, _ => []
  end.

Definition buf_decompress (z : bytes * bytes) (inp : bytes) (room : Z)
    : option (Status * bytes) * (bytes * bytes) :=
  let '(i, o) := z in
  let x := feed i inp in
  match zlib (i ++ x) with
  | Some t =>
      let out := take (Z.to_nat room) (drop (length o) t) in
      (Some (if decide (o ++ out = t) then StStreamEnd else StOk, out), (i ++ x, o ++ out))
  | None => (Some (if decide (x = []) then StBufError else StOk, []), (i ++ x, o))
  end.

Definition buffered : Flate :=
  {| zst := bytes * bytes; znew := ([], []); total_in z := blen z.1; total_out z := blen z.2;
     decompress := buf_decompress |}.

Definition buf_rel (z : bytes * bytes) (i o : bytes) : Prop :=
  z = (i, o) /\ (o = [] \/ exists t, zlib i = Some t /\ o `prefix_of` t).

Lemma feed_prefix i inp : exists y, inp = feed i inp ++ y.
Proof.
  revert i; induction inp as [|x inp IH]; intros i; simpl; destruct (zlib i); try (by eexists).
  destruct (IH (i ++ [x])) as [y Hy]. exists y. simpl. by f_equal.
Qed.

Lemma feed_all i inp : zlib (i ++ feed i inp) = None -> feed i inp = inp.
Proof.
  revert i; induction inp as [|x inp IH]; intros i; simpl; destruct (zlib i) eqn:Hz; try done.
  - rewrite app_nil_r. congruence.
  - intros H. f_equal. apply IH. by rewrite <- app_assoc.
Qed.

(** The part handed out continues what was handed out before. *)
Lemma out_prefix (o t : bytes) n : o `prefix_of` t -> o ++ take n (drop (length o) t) `prefix_of` t.
Proof.
  intros [q ->]. rewrite drop_app_length. apply prefix_app. exists (drop n q). by rewrite take_drop.
Qed.

Lemma prefix_o i o x t :
  (o = [] \/ exists t0, zlib i = Some t0 /\ o `prefix_of` t0) -> zlib (i ++ x) = Some t -> o `prefix_of` t.
Proof.
  intros [->|(t0 & Hz & Hp)] Ht; [apply prefix_nil|]. pose proof (prefix_free _ _ _ _ Hz Ht) as ->.
  rewrite app_nil_r in Ht. congruence.
Qed.

Program Instance buffered_laws : FlateLaws buffered zlib := {| zrel := buf_rel |}.
Next Obligation. split; [done|by left]. Qed.
Next Obligation. by intros z i o [-> _]. Qed.
Next Obligation.
  intros z i o inp room st out z' [-> Ho] Hroom H. simpl in H. destruct (feed_prefix i inp) as [y Hy].
  exists (feed i inp), y. split; [done|].
  destruct (zlib (i ++ feed i inp)) as [t|] eqn:Hz; injection H as <- <- <-.
  - pose proof (prefix_o _ _ _ _ Ho Hz) as Hp. split; [split; [done|right; eauto using out_prefix]|].
    split; [unfold blen; rewrite length_take; lia|]. destruct (decide _) as [->|]; [done|done].
  - rewrite app_nil_r. split; [split; [done|]|].
    + destruct Ho as [->|(t & Ht & Hp)]; [by left|]. right. exists t. split; [|done].
      exfalso. destruct inp; simpl in Hz; rewrite Ht, app_nil_r in Hz; congruence.
    + split; [done|]. by destruct (decide _).
Qed.
Next Obligation. intros z i o r t [-> Ho] Ht. by eapply prefix_o. Qed.
Next Obligation. exact prefix_free. Qed.
Next Obligation.
  intros z i o inp r room t [-> Ho] Hroom Ht Hempty. simpl.
  destruct (zlib (i ++ feed i inp)) as [t0|] eqn:Hz; eexists _, _, _; (split; [done|]); intros Hpos.
  - destruct (decide _) as [|Hne]; [by left|]. right; left. pose proof (prefix_o _ _ _ _ Ho Hz) as [q Hq].
    rewrite Hq, drop_app_length in *. destruct q as [|c q]; [by rewrite take_nil in Hne|].
    destruct (Z.to_nat room) eqn:Hn; [lia|done].
  - right; right. apply feed_all in Hz as Hf. rewrite Hf in *. simpl. rewrite blen_app.
    destruct inp as [|c inp]; [|rewrite blen_cons; pose proof (blen_nonneg inp); lia].
    rewrite (Hempty eq_refl) in Ht. rewrite app_nil_r in Hz. simpl in Ht. rewrite app_nil_r in Ht. congruence.
Qed.

End Buffered.

(** flate2 as far as level-0 streams go. *)
Definition level0 : Flate := buffered zlib_level0.
Definition level0_laws : FlateLaws level0 zlib_level0 :=
  buffered_laws zlib_level0 zlib_level0_prefix_free.

(** ** The checksum *)

Lemma concat_chunks {A} n (l : list A) : 0 < n -> concat (chunks n l) = l.
Proof.
  intros Hn. unfold chunks.
  assert (H : forall f l, (length l <= f)%nat -> concat (@chunks_fuel A f n l) = l); [|by apply H].
  induction f as [|f IH]; intros l' Hl; destruct l' as [|x l']; try done; [simpl in Hl; lia|].
  cbn [chunks_fuel concat]. rewrite IH; [apply take_drop|]. rewrite length_drop. simpl in *. lia.
Qed.

Lemma chunks_length {A} n (l : list A) : 0 < n -> Forall (fun c => c <> [] /\ blen c <= n) (chunks n l).
Proof.
  intros Hn. unfold chunks. generalize (length l) as f. intros f. revert l.
  induction f as [|f IH]; intros l; [constructor|]. destruct l as [|x l]; [constructor|].
  cbn [chunks_fuel]. constructor; [|apply IH]. split.
  - destruct (Z.to_nat n) eqn:Hz; [lia|done].
  - unfold blen. rewrite length_take. lia.
Qed.

(** The definition of adler32 (RFC 1950): two sums modulo 65521, reduced at every byte. *)
Definition adler_ref_byte (ab : Z * Z) (x : byte) : Z * Z :=
  ((ab.1 + b2z x) mod ADLER_MOD, (ab.2 + ab.1 + b2z x) mod ADLER_MOD).

Definition adler_ref (data : bytes) : Z * Z := foldl adler_ref_byte (1, 0) data.

(** The sums without reduction. *)
Definition adler_sum (ab : Z * Z) (x : byte) : Z * Z := (ab.1 + b2z x, ab.2 + ab.1 + b2z x).

Definition mod2 (ab : Z * Z) : Z * Z := (ab.1 mod ADLER_MOD, ab.2 mod ADLER_MOD).

Lemma adler_ref_sum ab data : foldl adler_ref_byte (mod2 ab) data = mod2 (foldl adler_sum ab data).
Proof.
  revert ab; induction data as [|x data IH]; intros [a b]; [done|]. cbn [foldl]. rewrite <- IH. f_equal.
  unfold adler_ref_byte, adler_sum, mod2. simpl. f_equal.
  - by rewrite Zplus_mod_idemp_l.
  - rewrite <- (Z.add_assoc (b mod _)). rewrite Zplus_mod_idemp_l, Z.add_comm, <- Z.add_assoc.
    rewrite Zplus_mod_idemp_l. f_equal. lia.
Qed.

(** 5552 bytes are few enough that the [u32] sums of a chunk do not wrap. *)
Lemma adler_no_wrap k a b chunk :
  0 <= k -> k + blen chunk <= 5552 ->
  0 <= a <= 65520 + 255 * k -> 0 <= b -> 2 * b <= 131040 * (k + 1) + 255 * (k * (k + 1)) ->
  foldl adler_byte (a, b) chunk = foldl adler_sum (a, b) chunk.
Proof.
  revert k a b; induction chunk as [|x chunk IH]; intros k a b Hk Hn Ha Hb Hb2; [done|].
  rewrite blen_cons in Hn. pose proof (blen_nonneg chunk). pose proof (b2z_range x).
  cbn [foldl]. unfold adler_byte, adler_sum at 2. cbn [fst snd]. unfold add32, wrap32.
  assert (Hkk : k * k <= 5551 * k) by nia.
  rewrite (Z.mod_small (a + b2z x)) by (widths; lia).
  rewrite (Z.mod_small (b + _)) by (widths; lia). rewrite Z.add_assoc. apply (IH (k + 1)); lia.
Qed.

Lemma adler_chunk_eq a b chunk :
  0 <= a < ADLER_MOD -> 0 <= b < ADLER_MOD -> blen chunk <= 5552 ->
  adler_chunk (a, b) chunk = foldl adler_ref_byte (a, b) chunk.
Proof.
  unfold ADLER_MOD. intros Ha Hb Hn. unfold adler_chunk.
  rewrite (adler_no_wrap 0) by lia.
  assert (He : (a, b) = mod2 (a, b)).
  { unfold mod2, ADLER_MOD. simpl. by rewrite !Z.mod_small by lia. }
  rewrite He at 2. rewrite adler_ref_sum. by destruct (foldl adler_sum (a, b) chunk).
Qed.

Lemma adler_ref_range data ab :
  0 <= ab.1 < ADLER_MOD -> 0 <= ab.2 < ADLER_MOD ->
  0 <= (foldl adler_ref_byte ab data).1 < ADLER_MOD /\ 0 <= (foldl adler_ref_byte ab data).2 < ADLER_MOD.
Proof.
  revert ab; induction data as [|x data IH]; intros ab Ha Hb; [done|]. cbn [foldl].
  apply IH; by apply Z.mod_pos_bound.
Qed.

Lemma adler_chunks cs ab :
  0 <= ab.1 < ADLER_MOD -> 0 <= ab.2 < ADLER_MOD -> Forall (fun c => blen c <= 5552) cs ->
  foldl adler_chunk ab cs = foldl adler_ref_byte ab (concat cs).
Proof.
  intros Ha Hb Hcs. revert ab Ha Hb; induction Hcs as [|c cs Hc Hcs IH]; intros [a b] Ha Hb; [done|].
  cbn [foldl concat]. rewrite foldl_app, adler_chunk_eq by done.
  destruct (adler_ref_range c (a, b) Ha Hb). by apply IH.
Qed.

Lemma adler32_u32 data : is_u32 (adler32 data) /\
  adler32 data = (adler_ref data).2 * 65536 + (adler_ref data).1.
Proof.
  unfold adler32, adler_ref. rewrite adler_chunks; [|done|done|].
  2: { eapply Forall_impl; [|apply (chunks_length 5552 data); done]. by intros c [_ ?]. }
  rewrite concat_chunks by done.
  pose proof (adler_ref_range data (1, 0) ltac:(done) ltac:(done)) as [Ha Hb].
  destruct (foldl adler_ref_byte (1, 0) data) as [a b]. simpl in *. unfold ADLER_MOD, wrap32 in *.
  assert (Hm : Z.shiftl b 16 mod U32 = Z.shiftl b 16).
  { apply Z.mod_small. rewrite Z.shiftl_mul_pow2 by lia. change (2 ^ 16) with 65536. widths. lia. }
  rewrite Hm, Z.lor_comm, lor_shiftl_add by lia. change (2 ^ 16) with 65536. widths. lia.
Qed.

(** ** Stored streams decode to what they were given *)

Lemma stored_blocks_enc cs f y :
  cs <> [] -> (length cs <= f)%nat -> Forall (fun c => blen c < 65536) cs ->
  stored_blocks f (stored_blocks_of cs ++ y) = Some (concat cs, y).
Proof.
  revert f; induction cs as [|c cs IH]; intros f Hne Hf Hc; [done|]. destruct f as [|f]; [simpl in Hf; lia|].
  apply Forall_cons_1 in Hc as [Hc Hcs]. pose proof (blen_nonneg c).
  cbn [stored_blocks_of]. unfold stored_block. rewrite Z.mod_small by lia.
  cbn [le_bytes app stored_blocks].
  change [z2b (blen c); z2b (blen c / 256)] with (le_bytes 2 (blen c)).
  change [z2b (not16 (blen c)); z2b (not16 (blen c) / 256)] with (le_bytes 2 (not16 (blen c))).
  rewrite !le_of_le_bytes_id by (unfold not16; simpl; lia). rewrite Z.eqb_refl. cbn [andb].
  assert (Hsl : slice (c ++ stored_blocks_of cs ++ y) 0 (blen c) = Some c) by (by apply (slice_mid [] c)).
  rewrite <- app_assoc, Hsl.
  replace (drop (Z.to_nat (blen c)) (c ++ stored_blocks_of cs ++ y)) with (stored_blocks_of cs ++ y)
    by (unfold blen; by rewrite Nat2Z.id, drop_app_length).
  destruct cs as [|c' cs'].
  - rewrite bool_decide_true by done. simpl. by rewrite app_nil_r.
  - rewrite bool_decide_false by done. change (b2z x00 <=? 1) with true. change (b2z x00 =? 1) with false.
    cbv iota. rewrite IH by (done || (simpl in *; lia)). done.
Qed.

Lemma zlib_stored_decodes raw : zlib_level0 (zlib_stored raw) = Some raw.
Proof.
  apply zlib_level0_Some. unfold zlib_stored. destruct (adler32_u32 raw) as [Ha _].
  cbn [app zlib_parse]. set (tail := be_bytes 4 (adler32 raw)).
  assert (Hchk : check_adler (raw, tail) = Some (raw, [])).
  { unfold check_adler. cbn [fst snd]. assert (Lt : blen tail = 4) by (unfold tail, be_bytes; by rewrite blen_reverse).
    rewrite slice_full by done. unfold tail at 1. rewrite be_of_be_bytes by exact Ha. rewrite Z.eqb_refl.
    done. }
  destruct (decide (raw = [])) as [->|Hne]; [done|]. rewrite bool_decide_false by done.
  assert (Hcs : chunks BLOCK raw <> []).
  { intros H. apply Hne. by rewrite <- (concat_chunks BLOCK raw), H. }
  rewrite app_nil_l, (stored_blocks_enc (chunks BLOCK raw)); [by rewrite concat_chunks|done| |].
  - rewrite length_app.
    assert (H : forall cs, (length cs <= length (stored_blocks_of cs))%nat).
    { induction cs as [|c cs IH]; simpl; [lia|]. rewrite length_app. unfold stored_block. simpl. lia. }
    specialize (H (chunks BLOCK raw)). lia.
  - eapply Forall_impl; [|apply (chunks_length BLOCK raw); done]. intros c [_ Hc]. unfold BLOCK in Hc.
    change (Z.shiftl 32 10) with 32768 in Hc. lia.
Qed.

(** ** Properties *)

(** [adler32] computes the checksum of RFC 1950: deferring the reductions to every 5552
    bytes never lets a [u32] sum wrap, and gives the two sums reduced at every byte. *)
Lemma adler32_reference (data : bytes) :
  adler32 data = (adler_ref data).2 * 65536 + (adler_ref data).1 /\ is_u32 (adler32 data).
Proof. destruct (adler32_u32 data). done. Qed.

(** ** Reusing a decoder *)

(** [Decompress::reset]. *)
Class FlateReset (F : Flate) := zreset : zst -> zst.

(** A decoder that was reset is as good as a new one, whatever it had decoded or failed on. *)
Class ResetLaws (F : Flate) (zlib : bytes -> option bytes) {L : FlateLaws F zlib} {R : FlateReset F} :=
  zrel_reset : forall z, zrel (zreset z) [] [].

Definition level0_reset : FlateReset level0 := fun _ => ([], []).

Lemma level0_reset_laws : @ResetLaws level0 zlib_level0 level0_laws level0_reset.
Proof. intros z. split; [done|by left]. Qed.
