(* ===== verification/Inflate.v ===== *)
(** * Inflating entry payloads ([crates/core/src/shiplog.rs])

    [InflateStream] and the two readers built on it, [ShipLog::read_inline] and
    [ShipLog::verify_count]. The zlib decoder is the flate2 crate, which is not part of the
    sources: it is the parameter [Flate] of [Zlib.v], and what the code relies on is [FlateLaws],
    stated against [zlib], the format's own meaning (the output of one complete stream). The theorems
    say that the chunked, windowed, bounded readers compute exactly [zlib] of the stored stream,
    with the declared size and the limit enforced, and that every loop ends. *)

From S2P Require Import Prelude.
From S2P Require Import Errors.
From S2P Require Import Cursor.
From S2P Require Import Binio.
From S2P Require Import ShipLog.
From S2P Require Import Zlib.

Definition INPUT_WINDOW : Z := 2 ^ 20.
Definition COUNT_SCRATCH : Z := Z.shiftl 256 10.
Definition INLINE_STEP_MIN : Z := Z.shiftl 64 10.
Definition INLINE_STEP_MAX : Z := Z.shiftl 16 20.

(** ** Buffers

    A [Vec<u8>]: its bytes and its capacity, as the standard library grows and shrinks it, with the largest capacity
    it has had ([v_peak], which the code does not keep). *)
Record vec := mkVec { v_data : bytes; v_cap : Z; v_peak : Z }.

Definition vec_new : vec := mkVec [] 0 0.
Definition vec_with (v : vec) (data : bytes) : vec := mkVec data (v_cap v) (v_peak v).
Definition vec_clear (v : vec) : vec := vec_with v [].
Definition vec_alloc (v : vec) (cap : Z) : vec := mkVec (v_data v) cap (Z.max (v_peak v) cap).
(** Growth by [resize], [push] and the like: at least twofold, and never to less than eight bytes. *)
Definition vec_reserve (v : vec) (n : Z) : vec :=
  if v_cap v - blen (v_data v) <? n
  then vec_alloc v (Z.max 8 (Z.max (2 * v_cap v) (blen (v_data v) + n))) else v.
Definition vec_reserve_exact (v : vec) (n : Z) : vec :=
  if v_cap v - blen (v_data v) <? n then vec_alloc v (blen (v_data v) + n) else v.
Definition vec_shrink_to_fit (v : vec) : vec :=
  mkVec (v_data v) (Z.min (v_cap v) (blen (v_data v))) (v_peak v).

(** What is done to the buffer of a reader. *)
Definition on_buf {A} (f : vec -> vec) : M err (vec * A) () := fun st => (Ok (), (f st.1, st.2)).

(** ** InflateStream *)
Section Stream.
Context (w : world) `{F : Flate}.

Record InflateStream := mkStream {
  is_file : PosFile.t;
  is_block : Z;
  is_pos : Z;
  is_next : Z;
  is_end : Z;
  is_len : Z;
  is_window : bytes;
  is_taken : Z;
  is_z : zst;
  is_expected : option Z;
  is_done : bool;
  is_failed : bool
}.

Definition istream A := M err InflateStream A.

Definition stream_new (file : PosFile.t) (h : EntryHeader.t) : InflateStream :=
  {| is_file := file; is_block := EntryHeader.num h; is_pos := EntryHeader.pos h;
     is_next := EntryHeader.data_offset h;
     is_end := add64 (EntryHeader.data_offset h) (EntryHeader.data_len h);
     is_len := EntryHeader.data_len h; is_window := []; is_taken := 0; is_z := znew;
     is_expected := EntryHeader.uncompressed h; is_done := false; is_failed := false |}.

Definition produced (s : InflateStream) : Z := total_out (is_z s).

Definition set_window (win : bytes) (taken next : Z) (s : InflateStream) : InflateStream :=
  mkStream (is_file s) (is_block s) (is_pos s) next (is_end s) (is_len s) win taken (is_z s)
    (is_expected s) (is_done s) (is_failed s).

Definition set_z (z : zst) (taken : Z) (s : InflateStream) : InflateStream :=
  mkStream (is_file s) (is_block s) (is_pos s) (is_next s) (is_end s) (is_len s) (is_window s) taken
    z (is_expected s) (is_done s) (is_failed s).

Definition set_flags (done failed : bool) (s : InflateStream) : InflateStream :=
  mkStream (is_file s) (is_block s) (is_pos s) (is_next s) (is_end s) (is_len s) (is_window s)
    (is_taken s) (is_z s) (is_expected s) done failed.

(** [Vec::resize(n, 0)]. *)
Definition vec_resize (n : Z) (b : bytes) : bytes :=
  take (Z.to_nat n) b ++ replicate (Z.to_nat n - length b) x00.

(** The refill at the top of the loop of [pump]. *)
Definition refill : istream () := fun s =>
  if (is_taken s =? blen (is_window s)) && (is_next s <? is_end s) then
    let n := Z.min (is_end s - is_next s) INPUT_WINDOW in
    match PosFile.read_exact_at w (is_file s) (is_next s) n with
    | Ok b => (Ok (), set_window b 0 (add64 (is_next s) n) s)
    | Err e => (Err e, set_window (vec_resize n (is_window s)) (is_taken s) (is_next s) s)
    | Panic => (Panic, s)
    end
  else (Ok (), s).

Definition finish : istream () := fun s =>
  let used := total_in (is_z s) in
  (do! sensure (used =? is_len s) (EBytesFollowStream (is_len s - used)) ;;
   do! match is_expected s with
       | Some e => sensure (total_out (is_z s) =? e) (EInflatesTo (total_out (is_z s)) e)
       | None => sret ()
       end ;;
   fun s => (Ok (), set_flags true (is_failed s) s)) s.

(** The bound of the declared size, checked after every call of the decoder. *)
Definition check_declared (expected : option Z) (z : zst) : istream () :=
  match expected with
  | Some e => sensure (total_out z <=? e) (EInflatesPastDeclared e)
  | None => sret ()
  end.

(** One iteration of [pump] into a buffer of [len] bytes, [written] of them filled. *)
Definition pump_iter (len : Z) (written : bytes) : istream (ctl bytes bytes) :=
  let! s := sget in
  if is_done s then sret (Break written)
  else
    do! refill ;;
    let! s := sget in
    let! input := slift (or_panic
      (slice (is_window s) (is_taken s) (blen (is_window s) - is_taken s))) in
    match decompress (is_z s) input (len - blen written) with
    | (None, z') => fun s => (Err EInvalidZlib, set_z z' (is_taken s) s)
    | (Some (status, out), z') =>
        let consumed := total_in z' - total_in (is_z s) in
        let produced := total_out z' - total_out (is_z s) in
        let written' := written ++ out in
        do! (fun s => (Ok (), set_z z' (is_taken s + consumed) s)) ;;
        do! check_declared (is_expected s) z' ;;
        if decide (status = StStreamEnd) then do! finish ;; sret (Cont written')
        else if (consumed =? 0) && (produced =? 0) then
          if blen written' =? len then sret (Break written')
          else sfail (EStreamStops (total_in z') (is_len s))
        else sret (Cont written')
    end.

Definition pump (len : Z) : istream bytes := loop_ (pump_iter len) [].

(** [inflate(&mut buf)] with [buf.len() = len]; the value is the bytes written at its start. *)
Definition inflate (len : Z) : istream bytes :=
  let! s := sget in
  do! sensure (negb (is_failed s)) EEarlierReadFailed ;;
  do! sensure (is_done s || (0 <? len)) ENoRoomToInflate ;;
  fun s =>
    match pump len s with
    | (Err e, s') => (Err e, set_flags (is_done s') true s')
    | r => r
    end.

(** [next_chunk] appends to [out], which is kept on every outcome: an error leaves the bytes
    that were there before the failing inflation. [out] is resized for the whole chunk first, and what was
    not inflated is cut off again. *)
Definition next_chunk (max : Z) : M err (vec * InflateStream) bool := fun '(out, s) =>
  let room :=
    match is_expected s with
    | Some e => Z.min max (sat_sub e (produced s))
    | None => max
    end in
  let '(r, (out, s)) :=
    if 0 <? room then
      let out := vec_reserve out room in
      match inflate room s with
      | (Ok b, s) => (Ok (), (vec_with out (v_data out ++ b), s))
      | (Err e, s) => (Err e, (out, s))
      | (Panic, s) => (Panic, (out, s))
      end
    else (Ok (), (out, s)) in
  match r with
  | Err e => (Err e, (out, s))
  | Panic => (Panic, (out, s))
  | Ok _ =>
      let '(r, s) :=
        if negb (is_done s) && bool_decide (is_expected s = Some (produced s))
        then inflate 1 s else (Ok [], s) in
      match r with
      | Err e => (Err e, (out, s))
      | Panic => (Panic, (out, s))
      | Ok _ => (Ok (negb (is_done s)), (out, s))
      end
  end.

End Stream.

Arguments InflateStream F : clear implicits.

(** ** The readers of whole payloads *)
Section Readers.
Context (w : world) `{!FileSource w} `{F : Flate}.
(** Whether the allocator grants a buffer ([try_reserve_exact]). *)
Context (can_reserve : Z -> bool).

Definition stream (l : ShipLog.t) (h : EntryHeader.t) : result (InflateStream F) :=
  let? f := ShipLog.log_file w l in Ok (stream_new f h).

Definition check_limit (size limit : Z) : result () := ensure (size <=? limit) (EOverLimit size limit).

Definition clamp (x lo hi : Z) : Z := Z.max lo (Z.min x hi).

Definition inline_step (h : EntryHeader.t) (limit : Z) (out : vec) : result (Z * vec) :=
  match EntryHeader.uncompressed h with
  | Some size =>
      do? check_limit size limit ;;
      do? ensure (can_reserve size) (ENoRoomForDeclared size) ;;
      Ok (size, vec_reserve_exact out size)
  | None => Ok (clamp (sat_mul64 (EntryHeader.data_len h) 4) INLINE_STEP_MIN INLINE_STEP_MAX, out)
  end.

(** One iteration of [read_inline]. *)
Definition inline_iter (limit step : Z) : M err (vec * InflateStream F) (ctl Z ()) :=
  let! st := sget in
  let room := sat_add64 (sat_sub limit (blen (v_data st.1))) 1 in
  let! more := next_chunk w (Z.min step room) in
  let! st := sget in
  do! sensure (blen (v_data st.1) <=? limit) (EInflatesOverLimit limit) ;;
  if negb more then sret (Break ())
  else sret (Cont (Z.min (sat_mul64 step 2) INLINE_STEP_MAX)).

(** [read_inline] into a buffer. *)
Definition read_inline_into (l : ShipLog.t) (h : EntryHeader.t) (limit : Z) (out : vec) : result vec :=
  let? (step, out) := inline_step h limit (vec_clear out) in
  let? s := stream l h in
  match loop_ (inline_iter limit) step (out, s) with
  | (Ok _, (out, _)) => Ok out
  | (Err e, _) => Err e
  | (Panic, _) => Panic
  end.

(** The bytes it leaves in an empty one. *)
Definition read_inline (l : ShipLog.t) (h : EntryHeader.t) (limit : Z) : result bytes :=
  let? out := read_inline_into l h limit vec_new in Ok (v_data out).

Definition count_scratch (h : EntryHeader.t) (limit : Z) : result Z :=
  let? scratch_len :=
    match EntryHeader.uncompressed h with
    | Some size =>
        do? check_limit size limit ;;
        Ok (Z.min COUNT_SCRATCH (sat_add64 size 1))
    | None => Ok COUNT_SCRATCH
    end in
  Ok (Z.max (Z.min scratch_len (sat_add64 limit 1)) 1).

Definition count_iter (limit scratch : Z) (u : ()) : M err (InflateStream F) (ctl () ()) :=
  let! s := sget in
  if is_done s then sret (Break ())
  else
    do! inflate w scratch ;;
    let! s := sget in
    do! sensure (produced s <=? limit) (EInflatesOverLimit limit) ;;
    sret (Cont ()).

Definition verify_count (l : ShipLog.t) (h : EntryHeader.t) (limit : Z) : result Z :=
  let? scratch := count_scratch h limit in
  let? s := stream l h in
  match loop_ (count_iter limit scratch) () s with
  | (Ok _, s) => Ok (produced s)
  | (Err e, _) => Err e
  | (Panic, _) => Panic
  end.

End Readers.

(** ** The writer's payloads ([testkit/ship.rs], [Encoding])

    [zlib_deflate] is flate2's encoder, a parameter. *)
Inductive Encoding := SizedStored | SizedDeflate | LegacyLength | LegacyZero.

Definition encoding_payload (zlib_deflate : bytes -> bytes) (e : Encoding) (raw : bytes) : result bytes :=
  match e with
  | SizedStored => Ok (sized_payload (blen raw) (zlib_stored raw))
  | SizedDeflate => Ok (sized_payload (blen raw) (zlib_deflate raw))
  | LegacyLength =>
      let z := zlib_deflate raw in
      if blen z <? U32 then Ok (legacy_payload (blen z) z) else Panic
  | LegacyZero => Ok (legacy_payload 0 (zlib_deflate raw))
  end.

(** ** Buffers that grow *)
Lemma vec_reserve_data v n : v_data (vec_reserve v n) = v_data v.
Proof. unfold vec_reserve. by destruct (_ <? _). Qed.
Lemma vec_reserve_exact_data v n : v_data (vec_reserve_exact v n) = v_data v.
Proof. unfold vec_reserve_exact. by destruct (_ <? _). Qed.

Lemma vec_reserve_exact_room v n :
  v_cap v <= v_peak v ->
  blen (v_data v) + n <= v_cap (vec_reserve_exact v n) <= v_peak (vec_reserve_exact v n) /\
  v_cap v <= v_cap (vec_reserve_exact v n) /\ v_peak (vec_reserve_exact v n) <= Z.max (v_peak v) (blen (v_data v) + n).
Proof. unfold vec_reserve_exact. destruct (Z.ltb_spec (v_cap v - blen (v_data v)) n); simpl; lia. Qed.

(** ** What the stream computes

    [data] is the stored stream, [exp] the declared size. [valid] is what the readers accept. *)
Section StreamFacts.
Context (w : world) `{F : Flate} (zlib : bytes -> option bytes) `{L : !FlateLaws F zlib}.
Context (file : PosFile.t) (d data : bytes) (exp : option Z).
Hypothesis Hd : views w file d.

Definition valid (t : bytes) : Prop :=
  zlib data = Some t /\ forall e, exp = Some e -> e = blen t.

(** The stream [s] has consumed [i] and produced [o]: the rest of [data] is the unread part of the
    window and the unread part of the file. *)
Record sinv (s : InflateStream F) (i o : bytes) : Prop := {
  si_file : is_file s = file;
  si_exp : is_expected s = exp;
  si_len : is_len s = blen data;
  si_z : zrel (is_z s) i o;
  si_taken : 0 <= is_taken s <= blen (is_window s);
  si_next : 0 <= is_next s <= is_end s;
  si_data : exists r, slice d (is_next s) (is_end s - is_next s) = Some r /\
    data = i ++ drop (Z.to_nat (is_taken s)) (is_window s) ++ r;
  si_ok : is_failed s = false;
  si_bound : forall e, exp = Some e -> blen o <= e;
  si_done : is_done s = true -> i = data /\ valid o
}.

Lemma u64_of_views : PosFile.len file < U64.
Proof. destruct Hd as (? & _ & _ & ? & _). done. Qed.

(** After a refill, an empty window means that nothing is left in the file. *)
Lemma refill_spec s i o :
  sinv s i o ->
  exists s', refill w s = (Ok (), s') /\ sinv s' i o /\ is_done s' = is_done s /\ is_z s' = is_z s /\
    (is_taken s' = blen (is_window s') -> is_next s' = is_end s').
Proof.
  intros Hs. unfold refill. destruct (si_data _ _ _ Hs) as (r & Hr & Hdata).
  pose proof (si_next _ _ _ Hs) as Hn. pose proof u64_of_views as Hu.
  pose proof (views_len _ _ _ Hd) as Hl. apply slice_Some in Hr as Hb. destruct Hb as (_ & _ & Hb & _).
  destruct (Z.eqb_spec (is_taken s) (blen (is_window s))) as [Ht|Ht]; simpl; [|by exists s].
  destruct (Z.ltb_spec (is_next s) (is_end s)) as [Hlt|Hge]; [|exists s; split_and!; try done; lia].
  set (n := Z.min _ INPUT_WINDOW). assert (Hn' : 0 < n <= is_end s - is_next s) by (unfold n, INPUT_WINDOW; lia).
  replace (is_end s - is_next s) with (n + (is_end s - is_next s - n)) in Hr by lia.
  apply slice_split in Hr as (x & y & -> & Hx & Hy); [|lia..].
  rewrite (si_file _ _ _ Hs), (read_exact_at_spec w file d), Hx by (done || lia).
  unfold add64, wrap64. rewrite Z.mod_small by lia. eexists. split; [done|].
  pose proof (slice_blen _ _ _ _ Hx) as Lx. split; [|simpl; repeat split; lia].
  rewrite Ht in Hdata. destruct Hs. split; simpl; try done; try lia.
  exists y. replace (is_end s - (is_next s + n)) with (is_end s - is_next s - n) by lia.
  split; [done|]. rewrite Hdata. unfold blen. by rewrite Nat2Z.id, drop_all.
Qed.

Lemma finish_spec s i o :
  sinv s i o -> zlib i = Some o -> 
  match finish s with
  | (Ok _, s') => s' = set_flags true (is_failed s) s /\ i = data /\ valid o
  | (Err _, s') => forall t, ~ valid t
  | (Panic, _) => False
  end.
Proof.
  intros Hs Hz. destruct (zrel_totals _ _ _ (si_z _ _ _ Hs)) as [Hin Hout].
  destruct (si_data _ _ _ Hs) as (r & _ & Hdata).
  unfold finish. rewrite (si_len _ _ _ Hs), Hin, (si_exp _ _ _ Hs), Hout.
  unfold sbind, sensure, sret, sfail. destruct (Z.eqb_spec (blen i) (blen data)) as [Hl|Hl].
  - assert (i = data) as Hi.
    { rewrite Hdata in Hl. rewrite blen_app in Hl. rewrite Hdata. symmetry.
      rewrite <- (app_nil_r i) at 2. f_equal. apply length_zero_iff_nil. unfold blen in Hl. lia. }
    destruct exp as [e|] eqn:He.
    + destruct (Z.eqb_spec (blen o) e) as [Ho|Ho].
      * split; [done|]. split; [done|]. split; [by rewrite <- Hi|]. congruence.
      * intros t [Ht Hte]. specialize (Hte e He). rewrite <- Hi, Hz in Ht. congruence.
    + split; [done|]. split; [done|]. split; [by rewrite <- Hi|]. congruence.
  - intros t [Ht _]. rewrite Hdata in Ht. apply (zlib_prefix_free _ _ _ _ Hz) in Ht.
    rewrite Hdata, blen_app, Ht in Hl. change (blen (@nil byte)) with 0 in Hl. lia.
Qed.

(** The measure of [pump]: bytes left to consume and room left, and one for the end. *)
Definition pump_measure (len : Z) (wr : bytes) (s : InflateStream F) : Z :=
  (blen data - total_in (is_z s)) + (len - blen wr) + (if is_done s then 0 else 1).

Lemma sinv_total s i o : sinv s i o -> blen i <= blen data /\ total_in (is_z s) = blen i /\ produced s = blen o.
Proof.
  intros Hs. destruct (zrel_totals _ _ _ (si_z _ _ _ Hs)) as [Hi Ho].
  destruct (si_data _ _ _ Hs) as (r & _ & ->). rewrite blen_app.
  pose proof (blen_nonneg (drop (Z.to_nat (is_taken s)) (is_window s) ++ r)). split; [lia|]. done.
Qed.

(** What one call of the decoder does to the stream, before the checks that follow it. *)
Lemma decompress_spec s i o room :
  sinv s i o -> is_done s = false -> 0 <= room ->
  (is_taken s = blen (is_window s) -> is_next s = is_end s) ->
  match decompress (is_z s) (drop (Z.to_nat (is_taken s)) (is_window s)) room with
  | (None, _) => forall t, ~ valid t
  | (Some (st, out), z') =>
      let s' := set_z z' (is_taken s + (total_in z' - total_in (is_z s))) s in
      exists x, blen x = total_in z' - total_in (is_z s) /\ blen out <= room /\
        blen out = total_out z' - total_out (is_z s) /\
        (st = StStreamEnd -> zlib (i ++ x) = Some (o ++ out)) /\
        ((forall e, exp = Some e -> blen (o ++ out) <= e) -> sinv s' (i ++ x) (o ++ out)) /\
        (forall t, valid t -> o ++ out `prefix_of` t /\
           (0 < room -> st = StStreamEnd \/ 0 < blen out \/ 0 < blen x))
  end.
Proof.
  intros Hs Hnd Hroom Href. destruct (si_data _ _ _ Hs) as (r & Hr & Hdata).
  pose proof (si_taken _ _ _ Hs) as Ht. set (inp := drop _ _) in *.
  assert (Linp : blen inp = blen (is_window s) - is_taken s) by (apply blen_drop; lia).
  assert (Hempty : inp = [] -> r = []).
  { intros He. rewrite He in Linp. change (blen (@nil byte)) with 0 in Linp.
    rewrite Href in Hr by lia. apply slice_blen in Hr. apply length_zero_iff_nil. unfold blen in Hr. lia. }
  destruct (decompress (is_z s) inp room) as [[[st out]|] z'] eqn:Hdec.
  - destruct (zrel_step _ _ _ _ _ _ _ _ (si_z _ _ _ Hs) Hroom Hdec) as (x & y & Hxy & Hz' & Hout & Hend).
    destruct (zrel_totals _ _ _ Hz') as [Ti To]. destruct (zrel_totals _ _ _ (si_z _ _ _ Hs)) as [Ti0 To0].
    rewrite blen_app in Ti, To. exists x. split; [lia|]. split; [done|]. split; [lia|]. split; [done|].
    split.
    + intros Hb. assert (Hlx : blen x = total_in z' - total_in (is_z s)) by lia.
      assert (Hdr : drop (Z.to_nat (is_taken s + blen x)) (is_window s) = y).
      { rewrite Z2Nat.inj_add, <- drop_drop by (lia || apply blen_nonneg). fold inp. rewrite Hxy.
        unfold blen. by rewrite Nat2Z.id, drop_app_length. }
      pose proof (blen_nonneg x). pose proof (blen_nonneg y). rewrite Hxy, blen_app in Linp.
      destruct Hs. split; simpl; try done; rewrite <- ?Hlx; try lia.
      * exists r. split; [done|]. rewrite Hdr, Hdata, Hxy. by rewrite <- !app_assoc.
      * congruence.
    + intros t [Hzt _]. split.
      * apply (zrel_prefix z' (i ++ x) (o ++ out) (y ++ r)); [done|]. rewrite <- Hzt, Hdata, Hxy.
        by rewrite <- !app_assoc.
      * intros Hpos. rewrite Hdata in Hzt.
        destruct (zrel_progress _ _ _ _ _ room _ (si_z _ _ _ Hs) Hroom Hzt Hempty)
          as (st' & out' & z'' & Hdec' & Hp). rewrite Hdec in Hdec'. injection Hdec' as <- <- <-.
        destruct (Hp Hpos) as [?|[?|?]]; [by left|right; left|right; right].
        { destruct out; [done|]. rewrite blen_cons. pose proof (blen_nonneg out). lia. }
        { pose proof (blen_nonneg x). lia. }
  - intros t [Hzt _]. rewrite Hdata in Hzt.
    destruct (zrel_progress _ _ _ _ _ room _ (si_z _ _ _ Hs) Hroom Hzt Hempty)
      as (st' & out' & z'' & Hdec' & _). congruence.
Qed.

Lemma check_declared_spec z s :
  match check_declared exp z s with
  | (Ok _, s') => s' = s /\ forall e, exp = Some e -> total_out z <= e
  | (Err _, _) => exists e, exp = Some e /\ e < total_out z
  | (Panic, _) => False
  end.
Proof.
  unfold check_declared, sensure. destruct exp as [e|]; simpl; [|done].
  destruct (Z.leb_spec (total_out z) e); simpl; [|eauto]. split; [done|]. intros ? [= <-]. done.
Qed.

Lemma pump_iter_spec len o0 wr s i :
  sinv s i (o0 ++ wr) -> blen wr <= len ->
  match pump_iter w len wr s with
  | (Ok (Cont wr'), s') => exists i', sinv s' i' (o0 ++ wr') /\ blen wr' <= len /\
      0 <= pump_measure len wr' s' < pump_measure len wr s
  | (Ok (Break b), s') => exists i', sinv s' i' (o0 ++ b) /\ blen b <= len /\
      (is_done s' = true \/ blen b = len)
  | (Err _, _) => forall t, ~ valid t
  | (Panic, _) => False
  end.
Proof.
  intros Hs Hwr. unfold pump_iter. unfold sbind at 1, sget at 1.
  destruct (is_done s) eqn:Hdone; [simpl; eauto 10|].
  destruct (refill_spec _ _ _ Hs) as (s1 & Hrf & Hs1 & Hd1 & Hz1 & Href).
  unfold sbind at 1. rewrite Hrf. unfold sbind at 1, sget at 1.
  pose proof (si_taken _ _ _ Hs1) as Ht1.
  unfold sbind at 1, slift.
  rewrite (proj2 (slice_Some (is_window s1) (is_taken s1) (blen (is_window s1) - is_taken s1)
             (drop (Z.to_nat (is_taken s1)) (is_window s1)))).
  2: { split; [lia|]. split; [lia|]. split; [lia|]. rewrite take_ge; [done|].
       rewrite length_drop. unfold blen. lia. }
  cbn [or_panic]. assert (Hnd : is_done s1 = false) by congruence.
  pose proof (decompress_spec s1 i (o0 ++ wr) (len - blen wr) Hs1 Hnd ltac:(lia) Href) as Hdec.
  destruct (decompress _ _ _) as [[[st out]|] z']; [|exact Hdec].
  destruct Hdec as (x & Lx & Lout & Tout & Hend & Hinv & Hval). set (k := is_taken s1 + _) in *.
  pose proof (sinv_total _ _ _ Hs1) as (Hi1 & Ti1 & To1). unfold produced in To1.
  assert (Hto : total_out z' = blen (o0 ++ wr ++ out)) by (rewrite app_assoc, blen_app; lia).
  assert (Hm : forall b, 0 <= blen x + blen out -> pump_measure len (wr ++ out) b =
    pump_measure len wr b - blen out) by (intros; unfold pump_measure; rewrite blen_app; lia).
  rewrite <- app_assoc in Hinv, Hend, Hval. rewrite (si_exp _ _ _ Hs1).
  unfold sbind at 1. unfold sbind at 1. fold k. set (s2 := set_z z' k s1) in *.
  pose proof (check_declared_spec z' s2) as Hchk.
  destruct (check_declared exp z' s2) as [[[]|e|] s3]; [|intros t Ht|done].
  2: { destruct Hchk as (e' & He & Hlt). destruct Ht as [Hz Hte]. pose proof (Hte _ He) as ->.
       destruct (Hval t (conj Hz Hte)) as [[q ->] _]. rewrite blen_app in Hlt.
       pose proof (blen_nonneg q). lia. }
  destruct Hchk as [-> Hb]. rewrite Hto in Hb. specialize (Hinv Hb).
  assert (Hroom : blen (wr ++ out) <= len) by (rewrite blen_app; lia).
  assert (Hpm : pump_measure len (wr ++ out) s2 = pump_measure len wr s - blen x - blen out).
  { unfold pump_measure. simpl. rewrite Hdone, Hnd, <- Hz1, blen_app. lia. }
  pose proof (sinv_total _ _ _ Hinv) as (Hix & Tix & _). change (is_z s2) with z' in Tix.
  assert (Hpos : 1 <= pump_measure len (wr ++ out) s2).
  { unfold pump_measure. simpl. rewrite Hnd. lia. }
  pose proof (blen_nonneg x). pose proof (blen_nonneg out).
  destruct (decide (st = StStreamEnd)) as [Hst|Hst].
  - pose proof (finish_spec _ _ _ Hinv (Hend Hst)) as Hfin. unfold sbind, sret.
    destruct (finish s2) as [[[]|e|] s3]; [|done|done]. destruct Hfin as (-> & Hi & Hv).
    exists (i ++ x). split; [by destruct Hinv; split|]. split; [done|].
    unfold pump_measure in *. simpl in *. rewrite Hnd in *. lia.
  - destruct ((_ =? 0) && (_ =? 0)) eqn:Hzero; bools.
    + destruct (Z.eqb_spec (blen (wr ++ out)) len) as [Hfull|Hfull]; simpl; [eauto 10|].
      intros t Ht. destruct (Hval t Ht) as [_ Hp]. rewrite blen_app in Hfull.
      destruct Hp as [?|[?|?]]; [lia|done|lia|lia].
    + simpl. exists (i ++ x). split; [done|]. split; [done|].
      apply andb_false_iff in Hzero as [?|?]; bools; lia.
Qed.

Lemma pump_spec len o s i :
  sinv s i o -> 0 <= len < U64 -> blen data < U64 ->
  match pump w len s with
  | (Ok b, s') => exists i', sinv s' i' (o ++ b) /\ blen b <= len /\ (is_done s' = true \/ blen b = len)
  | (Err _, s') => forall t, ~ valid t
  | (Panic, _) => False
  end.
Proof.
  intros Hs Hlen Hdata. unfold pump.
  pose proof (loop_spec (fun wr s => exists i, sinv s i (o ++ wr) /\ blen wr <= len) (pump_measure len)
    (fun r s' => match r with
       | Ok b => exists i', sinv s' i' (o ++ b) /\ blen b <= len /\ (is_done s' = true \/ blen b = len)
       | Err _ => forall t, ~ valid t
       | Panic => False
       end) (pump_iter w len) [] s) as H.
  destruct (loop_ (pump_iter w len) [] s) as [r s'] eqn:Hl. apply H; clear H Hl.
  - intros wr s0 (i0 & Hi0 & Hw). pose proof (pump_iter_spec len o wr s0 i0 Hi0 Hw) as Hp.
    destruct (pump_iter w len wr s0) as [[[wr'|b]|e|] s1]; [|exact Hp..].
    destruct Hp as (i' & ? & ? & ?). eauto.
  - exists i. rewrite app_nil_r. split; [done|]. change (blen (@nil byte)) with 0. lia.
  - pose proof (sinv_total _ _ _ Hs) as (? & Ti & _). pose proof (blen_nonneg i).
    unfold pump_measure. rewrite Ti. change (blen (@nil byte)) with 0. widths. destruct (is_done s); lia.
Qed.

(** Whatever is produced is the beginning of every valid result. *)
Lemma sinv_prefix s i o t : sinv s i o -> valid t -> blen o <= blen t.
Proof.
  intros Hs [Ht _]. destruct (si_data _ _ _ Hs) as (r & _ & Hdata). rewrite Hdata in Ht.
  destruct (zrel_prefix _ _ _ _ _ (si_z _ _ _ Hs) Ht) as [q ->]. rewrite blen_app.
  pose proof (blen_nonneg q). lia.
Qed.

Lemma inflate_spec len o s i :
  sinv s i o -> 0 < len < U64 -> blen data < U64 ->
  match inflate w len s with
  | (Ok b, s') => exists i', sinv s' i' (o ++ b) /\ blen b <= len /\ (is_done s' = true \/ blen b = len)
  | (Err _, s') => is_failed s' = true /\ forall t, ~ valid t
  | (Panic, _) => False
  end.
Proof.
  intros Hs Hlen Hdata. unfold inflate. unfold sbind at 1, sget at 1. rewrite (si_ok _ _ _ Hs).
  rewrite (proj2 (Z.ltb_lt 0 len)), orb_true_r by lia. unfold sbind, sensure, sret. cbn [negb].
  pose proof (pump_spec len o s i Hs ltac:(lia) Hdata) as Hp.
  destruct (pump w len s) as [[b|e|] s']; done.
Qed.

Lemma next_chunk_spec max out s i o :
  sinv s i o -> is_done s = false -> 0 <= max < U64 -> blen data < U64 ->
  match next_chunk w max (out, s) with
  | (Ok more, (out', s')) => exists b i', v_data out' = v_data out ++ b /\ sinv s' i' (o ++ b) /\
      more = negb (is_done s') /\ blen b <= max /\
      (more = true -> blen b = max /\ forall e, exp = Some e -> blen (o ++ b) < e)
  | (Err _, (_, s')) => is_failed s' = true /\ forall t, ~ valid t
  | (Panic, _) => False
  end.
Proof.
  intros Hs Hnd Hmax Hdata. unfold next_chunk. rewrite (si_exp _ _ _ Hs).
  set (room := match exp with Some e => _ | None => _ end).
  assert (Hroom : 0 <= room <= max /\ (forall e, exp = Some e -> room < max -> room = e - blen o)).
  { pose proof (sinv_total _ _ _ Hs) as (_ & _ & Hp). pose proof (si_bound _ _ _ Hs) as Hb. unfold room.
    destruct exp as [e|]; [|split; [lia|done]]. specialize (Hb e eq_refl). rewrite Hp. unfold sat_sub.
    split; [lia|]. intros ? [= <-]. lia. }
  (* the first inflation *)
  assert (H1 : match (if 0 <? room then
                        let out := vec_reserve out room in
                        match inflate w room s with
                        | (Ok b, s) => (Ok (), (vec_with out (v_data out ++ b), s))
                        | (Err e, s) => (Err e, (out, s))
                        | (Panic, s) => (Panic, (out, s))
                        end
                      else (Ok (), (out, s))) with
               | (Ok _, (out', s')) => exists b i', v_data out' = v_data out ++ b /\ sinv s' i' (o ++ b) /\ blen b <= room /\
                   (is_done s' = true \/ blen b = room)
               | (Err _, (_, s')) => is_failed s' = true /\ forall t, ~ valid t
               | (Panic, _) => False
               end).
  { destruct (Z.ltb_spec 0 room) as [Hpos|Hpos].
    - pose proof (inflate_spec room o s i Hs ltac:(lia) Hdata) as Hi.
      destruct (inflate w room s) as [[b|e|] s1]; [|done|done]. destruct Hi as (i' & ? & ? & ?). exists b, i'. by rewrite vec_reserve_data.
    - exists [], i. rewrite !app_nil_r. change (blen (@nil byte)) with 0. split; [done|]. split; [done|].
      split; [lia|]. right. lia. }
  destruct (if 0 <? room then _ else _) as [[u|e|] [out1 s1]]; [|exact H1|done].
  destruct H1 as (b & i1 & Ho & Hs1 & Hb & Hfull). rewrite (si_exp _ _ _ Hs1).
  pose proof (sinv_total _ _ _ Hs1) as (_ & _ & Hp1). rewrite Hp1.
  destruct (is_done s1) eqn:Hd1; simpl.
  { exists b, i1. rewrite Hd1. split; [done|]. split; [done|]. split; [done|]. split; [lia|done]. }
  destruct Hfull as [Hfull|Hfull]; [done|].
  destruct (bool_decide_reflect (exp = Some (blen (o ++ b)))) as [He|He].
  - pose proof (inflate_spec 1 (o ++ b) s1 i1 Hs1 ltac:(widths; lia) Hdata) as Hi.
    destruct (inflate w 1 s1) as [[b2|e|] s2]; [|done|done]. destruct Hi as (i2 & Hs2 & Hb2 & Hor).
    pose proof (si_bound _ _ _ Hs2 _ He) as Hle. rewrite blen_app in Hle. pose proof (blen_nonneg b2).
    assert (b2 = []) as -> by (apply length_zero_iff_nil; unfold blen in *; lia).
    rewrite app_nil_r in Hs2. exists b, i2. split; [done|]. split; [done|]. split; [done|].
    split; [lia|]. destruct Hor as [->|Hor]; [done|]. change (blen (@nil byte)) with 0 in Hor. lia.
  - exists b, i1. rewrite Hd1. split; [done|]. split; [done|]. split; [done|]. split; [lia|].
    intros _. assert (Hlt : forall e, exp = Some e -> blen (o ++ b) < e).
    { intros e He'. pose proof (si_bound _ _ _ Hs1 e He'). destruct (Z.eq_dec (blen (o ++ b)) e); [|lia].
      congruence. }
    split; [|done]. destruct Hroom as [Hr1 Hr2]. destruct (Z.eq_dec room max) as [|Hne]; [lia|].
    destruct exp as [e|] eqn:Hexp; [|unfold room in Hne; lia].
    specialize (Hr2 e eq_refl ltac:(lia)). specialize (Hlt e eq_refl). rewrite blen_app in Hlt. lia.
Qed.

(** The buffer does not grow when the chunk, or the rest of the payload, fits. *)
Lemma next_chunk_room max out s i o r out' s' :
  sinv s i o -> (blen (v_data out) + max <= v_cap out \/ exists e, exp = Some e /\ blen (v_data out) + (e - blen o) <= v_cap out) ->
  next_chunk w max (out, s) = (r, (out', s')) -> v_cap out' = v_cap out /\ v_peak out' = v_peak out.
Proof.
  intros Hs Hroom H. unfold next_chunk in H. rewrite (si_exp _ _ _ Hs) in H. pose proof (sinv_total _ _ _ Hs) as (_ & _ & Hp).
  pose proof (si_bound _ _ _ Hs) as Hb.
  set (room := match exp with Some e => _ | None => _ end) in H.
  assert (Hr : vec_reserve out room = out).
  { unfold vec_reserve. destruct (Z.ltb_spec (v_cap out - blen (v_data out)) room); [|done]. unfold room in *.
    destruct Hroom as [Hroom|(e & He & Hroom)].
    - destruct exp as [e|]; lia.
    - destruct exp as [e'|]; [|done]. injection He as ->. specialize (Hb e eq_refl). rewrite Hp in *. unfold sat_sub in *. lia. }
  rewrite Hr in H. repeat (case_match; simplify_eq; try done).
Qed.

End StreamFacts.

(** ** The readers *)
Section ReaderFacts.
Context (w : world) `{!FileSource w} `{F : Flate}.
Context (zlib : bytes -> option bytes) `{L : !FlateLaws F zlib}.
Context (l : ShipLog.t) (h : EntryHeader.t) (file : PosFile.t) (d : bytes) (n pos : Z).
Hypothesis Hfile : ShipLog.log_file w l = Ok file.
Hypothesis Hd : views w file d.
Hypothesis Hpos : 0 <= pos.
Hypothesis Hh : read_header w file n pos = Ok h.

(** The stored stream of a validated header is inside the file, after its preamble. *)
Lemma header_data :
  exists data, slice d (EntryHeader.data_offset h) (EntryHeader.data_len h) = Some data /\
    EntryHeader.data_len h = blen data /\ 0 <= EntryHeader.data_offset h /\
    EntryHeader.data_offset h + blen data < U64 /\
    (forall u, EntryHeader.uncompressed h = Some u -> is_u64 u) /\
    entry_at d pos (EntryHeader.id h)
      match EntryHeader.enc h with Sized u => sized_payload u data | Legacy f => legacy_payload f data end.
Proof.
  eapply read_header_fields in Hh as (payload & Ep & _ & Li & Es & Hf & Ha); [|done|done].
  pose proof (u64_of_views w file d Hd) as Hu. pose proof (views_len _ _ _ Hd) as Hl.
  apply slice_Some in Ha as Hin. destruct Hin as (_ & _ & Hin & _).
  apply entry_at_fields in Ha as Hpay; [|done]. destruct Hpay as (_ & _ & _ & Hpay & _).
  unfold EntryHeader.data_offset, EntryHeader.data_len, EntryHeader.preamble_len, EntryHeader.uncompressed,
    add64, wrap64, sat_sub. rewrite Ep, Es. unfold ENTRY_OVERHEAD, HEADER_LEN in *.
  pose proof (blen_nonneg payload). rewrite (Z.mod_small (pos + 48)) by lia.
  (* both framings are a preamble and the stream *)
  assert (Hcut : forall pre z, payload = pre ++ z -> 0 <= blen pre ->
    slice d (pos + 48 + blen pre) (blen payload - blen pre) = Some z /\
    blen payload = blen pre + blen z).
  { intros pre z -> _. rewrite blen_app in *. apply slice_cat in Hpay as [_ Hc]. split; [|done].
    rewrite <- Hc. f_equal. lia. }
  destruct (EntryHeader.enc h) as [u|f]; simpl in Hf.
  - destruct Hf as [Hu64 [z ->]]. exists z.
    destruct (Hcut (le_bytes 4 1 ++ le_bytes 8 u) z) as [Hc Hlen];
      [by rewrite <- app_assoc|apply blen_nonneg|].
    change (blen (le_bytes 4 1 ++ le_bytes 8 u)) with 12 in *. pose proof (blen_nonneg z).
    rewrite Z.mod_small, Z.max_r by lia. split; [done|]. split; [lia|]. split; [lia|].
    split; [lia|]. split; [by intros ? [= <-]|done].
  - destruct Hf as (Hu32 & _ & z & -> & _). exists z.
    destruct (Hcut (le_bytes 4 f) z) as [Hc Hlen]; [done|apply blen_nonneg|].
    change (blen (le_bytes 4 f)) with 4 in *. pose proof (blen_nonneg z).
    rewrite Z.mod_small, Z.max_r by lia. split; [done|]. split; [lia|]. split; [lia|].
    split; [lia|done].
Qed.

Lemma stream_new_sinv data :
  slice d (EntryHeader.data_offset h) (EntryHeader.data_len h) = Some data ->
  EntryHeader.data_len h = blen data -> 0 <= EntryHeader.data_offset h ->
  EntryHeader.data_offset h + blen data < U64 ->
  (forall u, EntryHeader.uncompressed h = Some u -> is_u64 u) ->
  sinv zlib file d data (EntryHeader.uncompressed h) (stream_new file h) [] [].
Proof.
  intros Hsl Hlen H0 Hlt Hu. pose proof (blen_nonneg data).
  assert (Hend : add64 (EntryHeader.data_offset h) (EntryHeader.data_len h)
                 = EntryHeader.data_offset h + blen data)
    by (unfold add64, wrap64; rewrite Hlen; apply Z.mod_small; lia).
  split; simpl; try done.
  - apply zrel_new.
  - rewrite Hend. lia.
  - exists data. rewrite Hend, <- Hlen.
    replace (_ + _ - _) with (EntryHeader.data_len h) by lia. done.
  - intros e He. apply Hu in He as [? _]. done.
Qed.

(** A loop that reads a payload chunk by chunk under a limit: [room] is the size of the next chunk,
    [prep] what is done to the buffer before it is read, and [next] the next step. Its body is the one of
    [read_inline], for any such choice. *)
Definition grow_iter (room : bytes -> Z -> Z) (prep : Z -> M err (vec * InflateStream F) ()) (next : Z -> Z) (limit step : Z)
    : M err (vec * InflateStream F) (ctl Z ()) :=
  let! st := sget in
  let room := room (v_data st.1) step in
  do! prep room ;;
  let! more := next_chunk w room in
  let! st := sget in
  do! sensure (blen (v_data st.1) <=? limit) (EInflatesOverLimit limit) ;;
  if negb more then sret (Break ()) else sret (Cont (next step)).

(** Such a loop, from any state of the stream; [I] is what the buffer's capacity satisfies. *)
Section GrowLoop.
Context (room : bytes -> Z -> Z) (prep : Z -> M err (vec * InflateStream F) ()) (pre : vec -> Z -> vec) (next : Z -> Z).
Context (I : vec -> Prop).
Context (data : bytes) (exp : option Z) (limit smax : Z).
Hypothesis Hroom : forall out step, blen out <= limit -> 0 <= step <= smax ->
  0 <= room out step < U64 /\ (1 <= step -> 1 <= room out step).
Hypothesis Hprep : forall v n s, prep n (v, s) = (Ok (), (pre v n, s)) /\ v_data (pre v n) = v_data v.
Hypothesis Hnext : forall step, 1 <= step <= smax -> 1 <= next step <= smax.
Hypothesis HI : forall v s i step more v1 s1, sinv zlib file d data exp s i (v_data v) -> I v ->
  blen (v_data v) <= limit -> 0 <= step <= smax ->
  next_chunk w (room (v_data v) step) (pre v (room (v_data v) step), s) = (Ok more, (v1, s1)) ->
  blen (v_data v) <= blen (v_data v1) <= blen (v_data v) + room (v_data v) step -> I v1.
Hypothesis Hdata : blen data < U64.
Hypothesis Hlim : is_u64 limit.

Lemma grow_loop step s i out :
  sinv zlib file d data exp s i (v_data out) -> is_done s = false -> I out ->
  (1 <= step \/ exp = Some (blen (v_data out))) -> 0 <= step <= smax -> blen (v_data out) <= limit ->
  match loop_ (grow_iter room prep next limit) step (out, s) with
  | (Ok _, (out', s')) => (valid zlib data exp (v_data out') /\ blen (v_data out') <= limit) /\ I out'
  | (Err _, _) => forall t, valid zlib data exp t -> limit < blen t
  | (Panic, _) => False
  end.
Proof.
  intros Hs Hnd Hi Hstep Hu Hout.
  pose proof (loop_spec
    (fun step st => exists i, sinv zlib file d data exp st.2 i (v_data st.1) /\ is_done st.2 = false /\ I st.1 /\
       (1 <= step \/ exp = Some (blen (v_data st.1))) /\ 0 <= step <= smax /\ blen (v_data st.1) <= limit)
    (fun _ st => limit - blen (v_data st.1))
    (fun r st => match r with
       | Ok _ => (valid zlib data exp (v_data st.1) /\ blen (v_data st.1) <= limit) /\ I st.1
       | Err _ => forall t, valid zlib data exp t -> limit < blen t
       | Panic => False
       end) (grow_iter room prep next limit) step (out, s)) as H.
  destruct (loop_ (grow_iter room prep next limit) step (out, s)) as [r [out' s']].
  assert (Hgoal : match r with
       | Ok _ => (valid zlib data exp (v_data out') /\ blen (v_data out') <= limit) /\ I out'
       | Err _ => forall t, valid zlib data exp t -> limit < blen t
       | Panic => False
       end); [|by destruct r].
  apply H; clear H; [|simpl; eauto 10|simpl; pose proof (blen_nonneg (v_data out)); widths; lia].
  clear Hs Hnd Hi Hstep Hu Hout i out s step out' s' r.
  intros step [out s] (i & Hs & Hnd & Hi & Hstep & Hu & Hout). cbn [fst snd] in *.
  unfold grow_iter. unfold sbind at 1, sget at 1. cbn [fst snd]. unfold sbind at 1.
  destruct (Hroom (v_data out) step Hout Hu) as [Hr Hr1]. pose proof (HI out s i step) as HI'.
  set (m := room (v_data out) step) in *. destruct (Hprep out m s) as [-> Hpre].
  pose proof (next_chunk_spec w zlib file d data exp Hd m (pre out m) s i (v_data out) Hs Hnd ltac:(lia) Hdata)
    as Hc. rewrite Hpre in Hc.
  unfold sbind at 1. destruct (next_chunk w m (pre out m, s)) as [[more|e|] [out1 s1]]; [| |done].
  2: { intros t Ht. by apply Hc in Ht. }
  destruct Hc as (b & i1 & Ho & Hs1 & Hmore & Hb & Htrue). specialize (HI' more out1 s1 Hs Hi Hout Hu eq_refl).
  rewrite Ho, blen_app in HI'. pose proof (blen_nonneg b). specialize (HI' ltac:(lia)).
  unfold sbind, sget, sensure, sret, sfail. cbn [fst snd]. rewrite Ho.
  destruct (Z.leb_spec (blen (v_data out ++ b)) limit) as [Hle|Hgt].
  - destruct (is_done s1) eqn:Hd1; rewrite Hmore; cbn [negb fst snd].
    + rewrite Ho. split; [|done]. split; [|done]. by apply (si_done _ _ _ _ _ _ _ _ Hs1).
    + destruct (Htrue Hmore) as [Hlen Hlt]. destruct Hstep as [Hstep|Hstep].
      * specialize (Hr1 Hstep). rewrite Ho. split; [|rewrite blen_app in *; lia]. exists i1. split; [done|].
        split; [done|]. split; [done|]. specialize (Hnext step ltac:(lia)). split; [left; lia|]. split; [lia|done].
      * specialize (Hlt _ Hstep). rewrite blen_app in Hlt. lia.
  - intros t Ht. pose proof (sinv_prefix _ _ _ _ _ _ _ _ _ Hs1 Ht). lia.
Qed.
End GrowLoop.

(** The loop of [read_inline]; a buffer with room for the declared size keeps it. *)
Lemma inline_loop data exp limit step s i out :
  sinv zlib file d data exp s i (v_data out) -> is_done s = false -> blen data < U64 -> is_u64 limit ->
  (1 <= step \/ exp = Some (blen (v_data out))) -> 0 <= step < U64 -> blen (v_data out) <= limit ->
  match loop_ (inline_iter w limit) step (out, s) with
  | (Ok _, (out', s')) => (valid zlib data exp (v_data out') /\ blen (v_data out') <= limit) /\
      forall e, exp = Some e -> e <= v_cap out -> v_cap out' = v_cap out /\ v_peak out' = v_peak out
  | (Err _, _) => forall t, valid zlib data exp t -> limit < blen t
  | (Panic, _) => False
  end.
Proof.
  intros Hs Hnd Hdata Hlim Hstep Hu Hout.
  pose proof (grow_loop (fun out step => Z.min step (sat_add64 (sat_sub limit (blen out)) 1)) (fun _ => sret ()) (fun v _ => v)
           (fun step => Z.min (sat_mul64 step 2) INLINE_STEP_MAX)
           (fun v => forall e, exp = Some e -> e <= v_cap out -> v_cap v = v_cap out /\ v_peak v = v_peak out)
           data exp limit u64_max) as H.
  change (grow_iter _ _ _ limit) with (inline_iter w limit (F := F)) in H.
  assert (H2 : 0 <= step <= u64_max) by (widths; lia).
  apply H with (i := i); clear H; try assumption; [..|by intros].
  - intros out0 step0 Ho Hst. pose proof (blen_nonneg out0). unfold sat_add64, sat_sub. widths. lia.
  - intros v m s'. by split.
  - intros step0 Hst. unfold sat_mul64, INLINE_STEP_MAX. change (Z.shiftl 16 20) with 16777216. widths. lia.
  - intros v s' i' st more v1 s1 Hs' Hv _ _ Hc _ e He Hle. destruct (Hv e He Hle) as [<- <-].
    eapply (next_chunk_room w zlib file d data exp); [exact Hs'| |exact Hc]. right. exists e. split; [done|].
    destruct (Hv e He Hle). lia.
Qed.

(** The stored stream, as the readers see it. *)
Definition stored : bytes :=
  default [] (slice d (EntryHeader.data_offset h) (EntryHeader.data_len h)).

Lemma stored_sinv :
  blen stored < U64 /\ (forall u, EntryHeader.uncompressed h = Some u -> is_u64 u) /\
  sinv zlib file d stored (EntryHeader.uncompressed h) (stream_new file h) [] [].
Proof.
  destruct header_data as (data & Hsl & Hlen & H0 & Hlt & Hu & _). unfold stored. rewrite Hsl. simpl.
  split; [lia|]. split; [done|]. by apply stream_new_sinv.
Qed.

(** What [read_inline] leaves in its buffer; for a declared size, in a buffer of that capacity. *)
Lemma read_inline_into_spec can_reserve limit :
  is_u64 limit ->
  match read_inline_into w can_reserve l h limit vec_new with
  | Ok v => (valid zlib stored (EntryHeader.uncompressed h) (v_data v) /\ blen (v_data v) <= limit) /\
      (EntryHeader.uncompressed h <> None -> v_cap v = blen (v_data v) /\ v_peak v = blen (v_data v))
  | Err _ => forall t, valid zlib stored (EntryHeader.uncompressed h) t ->
      limit < blen t \/ EntryHeader.uncompressed h <> None /\ can_reserve (blen t) = false
  | Panic => False
  end.
Proof.
  intros Hlim. destruct stored_sinv as (Hlt & Hu & Hs).
  set (data := stored) in *. set (exp := EntryHeader.uncompressed h) in *.
  assert (Hstep : match inline_step can_reserve h limit vec_new with
    | Ok (step, out) => v_data out = [] /\ (forall e, exp = Some e -> v_cap out = e /\ v_peak out = e) /\
        (1 <= step \/ exp = Some 0) /\ 0 <= step < U64
    | Err _ => forall t, valid zlib data exp t ->
        limit < blen t \/ exp <> None /\ can_reserve (blen t) = false
    | Panic => False
    end).
  { unfold inline_step, check_limit. fold exp. destruct exp as [u|] eqn:He.
    - destruct (Z.leb_spec u limit); cbn [ensure rbind].
      + destruct (can_reserve u) eqn:Hc; cbn [ensure rbind].
        * destruct (Hu u eq_refl). rewrite vec_reserve_exact_data. split; [done|]. split.
          { intros e [= <-]. unfold vec_reserve_exact, vec_alloc, vec_new. cbn [v_data v_cap v_peak].
            change (blen []) with 0. destruct (Z.ltb_spec (0 - 0) u); cbn [v_cap v_peak]; lia. }
          split; [|done]. destruct (Z.eq_dec u 0) as [->|]; [by right|left; lia].
        * intros t [_ Ht]. right. split; [done|]. by rewrite <- (Ht u eq_refl).
      + intros t [_ Ht]. left. by rewrite <- (Ht u eq_refl).
    - unfold clamp, INLINE_STEP_MIN, INLINE_STEP_MAX. change (Z.shiftl 16 20) with 16777216.
      change (Z.shiftl 64 10) with 65536. widths. split; [done|]. split; [done|]. split; [left; lia|lia]. }
  unfold read_inline_into. change (vec_clear vec_new) with vec_new.
  destruct (inline_step can_reserve h limit vec_new) as [[step out]|e|]; cbn [rbind]; [|done|done].
  destruct Hstep as (Ho & Hcap & H1 & H2). unfold stream. rewrite Hfile. cbn [rbind].
  pose proof (inline_loop data exp limit step (stream_new file h) [] out) as Hl. rewrite Ho in Hl.
  specialize (Hl Hs eq_refl Hlt Hlim H1 H2 ltac:(apply Hlim)).
  destruct (loop_ (inline_iter w limit) step (out, stream_new file h)) as [[u|e|] [out' s']]; [|by auto|done].
  destruct Hl as [[Hv Hle] Hc]. split; [done|]. intros Hne. destruct exp as [e|]; [|done].
  destruct (Hcap e eq_refl) as [C1 C2]. destruct (Hc e eq_refl (Z.eq_le_incl _ _ (eq_sym C1))) as [-> ->].
  destruct Hv as [_ Hv]. rewrite C1, C2, <- (Hv e eq_refl). done.
Qed.

Lemma read_inline_spec can_reserve limit :
  is_u64 limit ->
  match read_inline w can_reserve l h limit with
  | Ok y => valid zlib stored (EntryHeader.uncompressed h) y /\ blen y <= limit
  | Err _ => forall t, valid zlib stored (EntryHeader.uncompressed h) t ->
      limit < blen t \/ EntryHeader.uncompressed h <> None /\ can_reserve (blen t) = false
  | Panic => False
  end.
Proof.
  intros Hlim. pose proof (read_inline_into_spec can_reserve limit Hlim) as H. unfold read_inline.
  destruct (read_inline_into _ _ _ _ _ _); cbn [rbind]; [|done|done]. by destruct H.
Qed.

(** The loop of [verify_count]. *)
Lemma count_loop data exp limit scratch s i o :
  sinv zlib file d data exp s i o -> blen data < U64 -> is_u64 limit -> 1 <= scratch < U64 ->
  blen o <= limit ->
  match loop_ (count_iter w limit scratch) () s with
  | (Ok _, s') => exists y, produced s' = blen y /\ valid zlib data exp y /\ blen y <= limit
  | (Err _, _) => forall t, valid zlib data exp t -> limit < blen t
  | (Panic, _) => False
  end.
Proof.
  intros Hs Hdata Hlim Hscr Ho.
  pose proof (loop_spec
    (fun _ s => exists i o, sinv zlib file d data exp s i o /\ blen o <= limit)
    (fun _ s => limit - produced s + (if is_done s then 0 else 1))
    (fun r s' => match r with
       | Ok _ => exists y, produced s' = blen y /\ valid zlib data exp y /\ blen y <= limit
       | Err _ => forall t, valid zlib data exp t -> limit < blen t
       | Panic => False
       end) (count_iter w limit scratch) () s) as H.
  destruct (loop_ (count_iter w limit scratch) () s) as [r s']. apply H; clear H.
  3: { destruct (sinv_total _ _ _ _ _ _ _ _ Hs) as (_ & _ & ->). pose proof (blen_nonneg o).
       widths. destruct (is_done s); lia. }
  2: { eauto. }
  clear Hs Ho i o s s' r. intros [] s (i & o & Hs & Ho). unfold count_iter. unfold sbind at 1, sget at 1.
  pose proof (sinv_total _ _ _ _ _ _ _ _ Hs) as (_ & _ & Hp).
  destruct (is_done s) eqn:Hd0.
  { simpl. exists o. split; [done|]. split; [|done]. by apply (si_done _ _ _ _ _ _ _ _ Hs). }
  pose proof (inflate_spec w zlib file d data exp Hd scratch o s i Hs ltac:(lia) Hdata) as Hi.
  unfold sbind at 1. destruct (inflate w scratch s) as [[b|e|] s1]; [| |done].
  2: { intros t Ht. by apply Hi in Ht. }
  destruct Hi as (i1 & Hs1 & Hb & Hor). unfold sbind, sget, sensure, sret, sfail.
  pose proof (sinv_total _ _ _ _ _ _ _ _ Hs1) as (_ & _ & Hp1). rewrite Hp1.
  destruct (Z.leb_spec (blen (o ++ b)) limit) as [Hle|Hgt].
  - split; [eauto|]. rewrite Hp. rewrite blen_app in *. pose proof (blen_nonneg b).
    destruct Hor as [->|Hor]; [lia|destruct (is_done s1); lia].
  - intros t Ht. pose proof (sinv_prefix _ _ _ _ _ _ _ _ _ Hs1 Ht). lia.
Qed.

Lemma verify_count_spec limit :
  is_u64 limit ->
  match verify_count w l h limit with
  | Ok c => exists y, c = blen y /\ valid zlib stored (EntryHeader.uncompressed h) y /\ blen y <= limit
  | Err _ => forall t, valid zlib stored (EntryHeader.uncompressed h) t -> limit < blen t
  | Panic => False
  end.
Proof.
  intros Hlim. destruct stored_sinv as (Hlt & Hu & Hs).
  set (data := stored) in *. set (exp := EntryHeader.uncompressed h) in *.
  assert (Hscr : match count_scratch h limit with
    | Ok n => 1 <= n < U64
    | Err _ => forall t, valid zlib data exp t -> limit < blen t
    | Panic => False
    end).
  { unfold count_scratch, check_limit. fold exp. unfold COUNT_SCRATCH, sat_add64.
    change (Z.shiftl 256 10) with 262144. destruct exp as [u|] eqn:He.
    - destruct (Z.leb_spec u limit); cbn [ensure rbind]; [widths; lia|].
      intros t [_ Ht]. by rewrite <- (Ht u eq_refl).
    - cbn [rbind]. widths. lia. }
  unfold verify_count. destruct (count_scratch h limit) as [scr|e|]; cbn [rbind]; [|done|done].
  unfold stream. rewrite Hfile. cbn [rbind].
  pose proof (count_loop data exp limit scr (stream_new file h) [] [] Hs Hlt Hlim Hscr ltac:(apply Hlim)) as Hl.
  destruct (loop_ (count_iter w limit scr) () (stream_new file h)) as [[u|e|] s']; auto.
Qed.

End ReaderFacts.

(** Successive calls of [next_chunk], until one returns [false]. *)
Fixpoint run_chunks {F : Flate} (w : world) (ms : list Z) : M err (vec * InflateStream F) bool :=
  match ms with
  | [] => sret true
  | m :: ms => let! more := next_chunk w m in if more then run_chunks w ms else sret false
  end.

Lemma sum_list_nonneg ms : Forall is_u64 ms -> 0 <= foldr Z.add 0 ms.
Proof. induction 1 as [|m ms [? ?] _ IH]; simpl; lia. Qed.

Lemma run_chunks_spec (w : world) {F : Flate} zlib `{L : !FlateLaws F zlib} file d data exp ms s i v :
  views w file d -> sinv zlib file d data exp s i (v_data v) -> is_done s = false -> blen data < U64 ->
  Forall is_u64 ms ->
  match run_chunks w ms (v, s) with
  | (Ok true, (out, s')) => is_done s' = false /\ blen (v_data out) = blen (v_data v) + foldr Z.add 0 ms /\
      (forall t, valid zlib data exp t -> v_data out `prefix_of` t)
  | (Ok false, (out, s')) => is_done s' = true /\ valid zlib data exp (v_data out) /\
      blen (v_data out) <= blen (v_data v) + foldr Z.add 0 ms
  | (Err _, (_, s')) => is_failed s' = true /\ forall t, ~ valid zlib data exp t
  | (Panic, _) => False
  end.
Proof.
  intros Hd Hs Hnd Hdata Hms. revert s i v Hs Hnd; induction Hms as [|m ms Hm Hms IH]; intros s i v Hs Hnd.
  - simpl. split; [done|]. split; [lia|]. intros t [Ht _].
    destruct (si_data _ _ _ _ _ _ _ _ Hs) as (r & _ & Hr). rewrite Hr in Ht.
    by eapply zrel_prefix; [apply (si_z _ _ _ _ _ _ _ _ Hs)|].
  - cbn [run_chunks foldr]. unfold sbind.
    pose proof (next_chunk_spec w zlib file d data exp Hd m v s i (v_data v) Hs Hnd Hm Hdata) as Hc.
    destruct (next_chunk w m (v, s)) as [[more|e|] [o1 s1]]; [|done|done].
    destruct Hc as (b & i1 & Ho & Hs1 & Hmore & Hb & Htrue). rewrite <- Ho in *.
    destruct (is_done s1) eqn:Hd1; rewrite Hmore; simpl.
    + split; [done|]. split; [by apply (si_done _ _ _ _ _ _ _ _ Hs1)|].
      rewrite Ho, blen_app. pose proof (sum_list_nonneg ms Hms). lia.
    + destruct (Htrue Hmore) as [Hlen _]. specialize (IH s1 i1 o1 Hs1 Hd1).
      rewrite Ho, blen_app, Hlen in IH.
      destruct (run_chunks w ms (o1, s1)) as [[[|]|e|] [out s']]; try done.
      * destruct IH as (? & ? & ?). split; [done|]. split; [lia|done].
      * destruct IH as (? & ? & ?). split; [done|]. split; [done|lia].
Qed.

(** ** From the writer's payload to the stored stream *)

Lemma le_bytes_inj n a b :
  0 <= a < 256 ^ Z.of_nat n -> 0 <= b < 256 ^ Z.of_nat n -> le_bytes n a = le_bytes n b -> a = b.
Proof. intros Ha Hb H. rewrite <- (le_of_le_bytes_id n a), <- (le_of_le_bytes_id n b), H by done. done. Qed.

Lemma entry_at_inj d pos id p q :
  blen d < U64 -> blen id = 32 -> entry_at d pos id p -> entry_at d pos id q -> p = q.
Proof.
  intros Hd Hid Hp Hq. pose proof (blen_nonneg p). pose proof (blen_nonneg q).
  apply slice_Some in Hp as Hp'. destruct Hp' as (? & _ & Hbp & _).
  apply slice_Some in Hq as Hq'. destruct Hq' as (_ & _ & Hbq & _).
  apply entry_at_fields in Hp as (_ & _ & Sp & Pp & _); [|done].
  apply entry_at_fields in Hq as (_ & _ & Sq & Pq & _); [|done].
  unfold ENTRY_OVERHEAD, HEADER_LEN in *. rewrite Sp in Sq. apply (inj Some) in Sq.
  apply le_bytes_inj in Sq; [|change (is_u64 (blen p)); width_lia|change (is_u64 (blen q)); width_lia].
  rewrite Sq in Pp. congruence.
Qed.

(** What the framing read back says of a payload the writer framed. *)
Lemma framing_read zlib deflate e raw p e0 data :
  (forall raw, zlib (zlib_stored raw) = Some raw) ->
  (forall raw, zlib (deflate raw) = Some raw /\ 6 <= blen (deflate raw)) ->
  encoding_payload deflate e raw = Ok p -> is_u64 (blen raw) -> framed e0 p ->
  p = match e0 with Sized u => sized_payload u data | Legacy f => legacy_payload f data end ->
  zlib data = Some raw /\ forall u, match e0 with Sized u => Some u | Legacy _ => None end = Some u -> u = blen raw.
Proof.
  intros Hst Hde Hp Hraw Hfr Heq.
  assert (Hcase : (exists z, p = sized_payload (blen raw) z /\ zlib z = Some raw) \/
                  (exists v z, p = legacy_payload v z /\ is_u32 v /\ v <> 1 /\ zlib z = Some raw)).
  { destruct (Hde raw) as [Hz Hl]. destruct e; simpl in Hp.
    - injection Hp as <-. eauto.
    - injection Hp as <-. eauto.
    - destruct (Z.ltb_spec (blen (deflate raw)) U32); [|done]. injection Hp as <-. right.
      exists (blen (deflate raw)), (deflate raw). split; [done|]. split; [split; lia|]. split; [lia|done].
    - injection Hp as <-. right. exists 0, (deflate raw). done. }
  destruct e0 as [u|f]; destruct Hcase as [(z & -> & Hz)|(v & z & -> & Hv & Hv1 & Hz)];
    unfold sized_payload, legacy_payload in Heq; simpl in Hfr.
  - apply app_inj_1 in Heq as [_ Heq]; [|done]. apply app_inj_1 in Heq as [Hu Hz']; [|done].
    subst data. split; [done|]. intros ? [= <-]. destruct Hfr as [Hfu _].
    symmetry. by apply (le_bytes_inj 8).
  - apply app_inj_1 in Heq as [Hf _]; [|done]. apply le_bytes_inj in Hf; [done|exact Hv|by vm_compute].
  - destruct Hfr as (Hf & Hf1 & _). apply app_inj_1 in Heq as [Hf' _]; [|done].
    apply le_bytes_inj in Hf'; [done|by vm_compute|exact Hf].
  - apply app_inj_1 in Heq as [_ ->]; [|done]. done.
Qed.

(** ** Properties *)

(** [InflateStream::next_chunk], over any sequence of chunk sizes from the start of a
    validated entry: while it returns [true] every call appended exactly the size asked for, and
    what is out is a prefix of the inflated payload; [false] comes exactly with the whole inflated
    payload, of the declared size, the stream spanning the whole payload; an error means that no
    valid payload is stored, and poisons the stream. It never panics and every call ends. *)
Lemma next_chunk_contract (w : world) (F : Flate) (zlib : bytes -> option bytes)
    (L : FlateLaws F zlib) (h : EntryHeader.t) (file : PosFile.t) (d : bytes) (n pos : Z) (ms : list Z)
    (Hd : views w file d) (Hpos : 0 <= pos) (Hh : read_header w file n pos = Ok h)
    (Hms : Forall is_u64 ms) :
  let v := valid zlib (stored h d) (EntryHeader.uncompressed h) in
  match run_chunks w ms (vec_new, stream_new file h) with
  | (Ok true, (out, _)) => blen (v_data out) = foldr Z.add 0 ms /\ forall t, v t -> v_data out `prefix_of` t
  | (Ok false, (out, _)) => v (v_data out) /\ blen (v_data out) <= foldr Z.add 0 ms
  | (Err _, (_, s)) => (forall t, ~ v t) /\ forall m, (inflate w m s).1 = Err EEarlierReadFailed
  | (Panic, _) => False
  end.
Proof.
  intros v. destruct (stored_sinv w zlib h file d n pos Hd Hpos Hh) as (Hlt & _ & Hs).
  pose proof (run_chunks_spec w zlib file d _ _ ms _ [] vec_new Hd Hs eq_refl Hlt Hms) as Hr.
  destruct (run_chunks w ms (vec_new, stream_new file h)) as [[[|]|e|] [out s']]; try done.
  - by destruct Hr as (_ & ? & ?).
  - by destruct Hr as (_ & ? & ?).
  - destruct Hr as [Hf Hv]. split; [done|]. intros m. unfold inflate, sbind, sget. by rewrite Hf.
Qed.

(** A log of two blocks for the examples, one in each framing. *)
Definition exi_blocks : list block :=
  [ (ex_id 5 x00, sized_payload 3 (zlib_stored [x61; x62; x63]));
    (ex_id 6 x00, legacy_payload 0 (zlib_stored [x64])) ].
Definition exi_builder : LogBuilder.t := default LogBuilder.new (ok_of (push_all exi_blocks LogBuilder.new)).
Definition exi_world : world :=
  world_of [("log", LogBuilder.log exi_builder); ("index", LogBuilder.index exi_builder)].
Definition exi_log : PosFile.t := PosFile.mk 0 (blen (LogBuilder.log exi_builder)) "log".
Definition exi_index : PosFile.t := PosFile.mk 1 (blen (LogBuilder.index exi_builder)) "index".
Definition exi_ship : ShipLog.t :=
  ShipLog.mk Trace "log" "index" 5 7 82 (blen (LogBuilder.log exi_builder)).
Definition exi_header : EntryHeader.t := EntryHeader.mk 0 (ex_id 5 x00) 26 (Sized 3).

Lemma exi_world_ok : world_ok exi_world.
Proof. apply world_of_ok. repeat constructor. Qed.

Lemma exi_log_views : views exi_world exi_log (LogBuilder.log exi_builder).
Proof. exists (LogBuilder.log exi_builder). repeat split; try by vm_compute. Qed.

Lemma exi_index_views : views exi_world exi_index (LogBuilder.index exi_builder).
Proof. exists (LogBuilder.index exi_builder). repeat split; try by vm_compute. Qed.

Lemma exi_header_ok : read_header exi_world exi_log 5 0 = Ok exi_header.
Proof. by vm_compute. Qed.

Lemma next_chunk_contract_witness :
  (run_chunks (F := level0) exi_world [2; 2] (vec_new, stream_new exi_log exi_header)).1 = Ok false /\
  valid zlib_level0 (stored exi_header (LogBuilder.log exi_builder)) (Some 3) [x61; x62; x63].
Proof.
  assert (H1 : (run_chunks (F := level0) exi_world [2; 2] (vec_new, stream_new exi_log exi_header)).1 = Ok false)
    by (by vm_compute).
  assert (H2 : (run_chunks (F := level0) exi_world [2; 2] (vec_new, stream_new exi_log exi_header)).2.1.(v_data)
    = [x61; x62; x63]) by (by vm_compute).
  split; [exact H1|].
  pose proof (next_chunk_contract exi_world level0 zlib_level0 level0_laws exi_header exi_log _ 5 0 [2; 2]
    exi_log_views ltac:(done) exi_header_ok ltac:(by repeat constructor)) as H. cbv zeta in H.
  destruct (run_chunks exi_world [2; 2] (vec_new, stream_new exi_log exi_header)) as [r [out s]].
  cbn [fst snd] in H1, H2. rewrite H1, H2 in H. exact (proj1 H).
Defined.

(** C15: [ShipLog::read_inline] returns exactly the inflated payload: it succeeds with [y] if and
    only if the stored stream, all of it, is one zlib stream of [y], [y] has the declared size
    when there is one, it is within the limit, and the allocator grants a declared size. It never
    panics, and its growing-step loop always ends. *)
Theorem read_inline_exact (w : world) (S : FileSource w) (F : Flate) (zlib : bytes -> option bytes)
    (L : FlateLaws F zlib) (can_reserve : Z -> bool) (l : ShipLog.t) (h : EntryHeader.t)
    (file : PosFile.t) (d : bytes) (n pos limit : Z)
    (Hfile : ShipLog.log_file w l = Ok file) (Hd : views w file d) (Hpos : 0 <= pos)
    (Hh : read_header w file n pos = Ok h) (Hlim : is_u64 limit) :
  is_panic (read_inline w can_reserve l h limit) = false /\
  forall y, read_inline w can_reserve l h limit = Ok y <->
    valid zlib (stored h d) (EntryHeader.uncompressed h) y /\ blen y <= limit /\
    (EntryHeader.uncompressed h <> None -> can_reserve (blen y) = true).
Proof.
  pose proof (read_inline_spec w zlib l h file d n pos Hfile Hd Hpos Hh can_reserve limit Hlim) as Hr.
  destruct (read_inline w can_reserve l h limit) as [y|e|] eqn:Hri; [| |done]; (split; [done|]).
  - intros y'. split.
    + intros [= <-]. destruct Hr as [Hv Hle]. split; [done|]. split; [done|]. intros Hne.
      unfold read_inline, read_inline_into, inline_step in Hri. destruct (EntryHeader.uncompressed h) as [u|] eqn:Hu; [|done].
      destruct Hv as [_ Hv]. rewrite <- (Hv u eq_refl).
      bind Hri as v Hri'. bind Hri' as st Hst. guard Hst as H1. by guard Hst as H2.
    + intros ([Hz _] & _). destruct Hr as [[Hz' _] _]. congruence.
  - intros y. split; [done|]. intros (Hv & Hle & Hc). destruct (Hr y Hv) as [?|[Hn Hf]]; [lia|].
    rewrite Hc in Hf; done.
Qed.

Lemma read_inline_exact_witness :
  let S := direct_source exi_world exi_world_ok in
  read_inline (F := level0) exi_world (fun _ => true) exi_ship exi_header 100 = Ok [x61; x62; x63] /\
  is_panic (read_inline (F := level0) exi_world (fun _ => true) exi_ship exi_header 2) = false.
Proof.
  intros S.
  assert (Hf : ShipLog.log_file exi_world exi_ship = Ok exi_log) by (by vm_compute).
  split.
  - apply (read_inline_exact exi_world S level0 zlib_level0 level0_laws (fun _ => true) exi_ship exi_header
      exi_log _ 5 0 100 Hf exi_log_views ltac:(done) exi_header_ok ltac:(by vm_compute)).
    split; [split; [by vm_compute|by intros ? [= <-]]|]. split; [by vm_compute|done].
  - apply (read_inline_exact exi_world S level0 zlib_level0 level0_laws (fun _ => true) exi_ship exi_header
      exi_log _ 5 0 2 Hf exi_log_views ltac:(done) exi_header_ok ltac:(by vm_compute)).
Defined.

(** [ShipLog::verify_count] accepts exactly the entries [read_inline] would, with the same
    limit, and returns the length [read_inline]'s output would have, keeping none of it. *)
Lemma verify_count_exact (w : world) (S : FileSource w) (F : Flate) (zlib : bytes -> option bytes)
    (L : FlateLaws F zlib) (l : ShipLog.t) (h : EntryHeader.t)
    (file : PosFile.t) (d : bytes) (n pos limit : Z)
    (Hfile : ShipLog.log_file w l = Ok file) (Hd : views w file d) (Hpos : 0 <= pos)
    (Hh : read_header w file n pos = Ok h) (Hlim : is_u64 limit) :
  is_panic (verify_count w l h limit) = false /\
  forall c, verify_count w l h limit = Ok c <->
    exists y, read_inline w (fun _ => true) l h limit = Ok y /\ c = blen y.
Proof.
  pose proof (read_inline_spec w zlib l h file d n pos Hfile Hd Hpos Hh (fun _ => true) limit Hlim) as Hr.
  pose proof (verify_count_spec w zlib l h file d n pos Hfile Hd Hpos Hh limit Hlim) as Hc.
  destruct (verify_count w l h limit) as [c|e|]; [| |done]; (split; [done|]).
  - destruct Hc as (y & -> & Hv & Hle).
    destruct (read_inline w (fun _ => true) l h limit) as [y'|e|]; [| |done].
    + destruct Hr as [[Hz _] _], Hv as [Hz' _]. assert (y' = y) as -> by congruence.
      intros c. split; [intros [= <-]; eauto|]. by intros (? & [= <-] & ->).
    + exfalso. destruct (Hr y Hv) as [?|[_ ?]]; [lia|done].
  - intros c. split; [done|]. intros (y & Hy & _). rewrite Hy in Hr. destruct Hr as [Hv Hle].
    specialize (Hc y Hv). lia.
Qed.

Lemma verify_count_exact_witness :
  let S := direct_source exi_world exi_world_ok in
  verify_count (F := level0) exi_world exi_ship exi_header 100 = Ok 3 /\
  is_panic (verify_count (F := level0) exi_world exi_ship exi_header 2) = false.
Proof.
  intros S.
  assert (Hf : ShipLog.log_file exi_world exi_ship = Ok exi_log) by (by vm_compute).
  split.
  - apply (verify_count_exact exi_world S level0 zlib_level0 level0_laws exi_ship exi_header
      exi_log _ 5 0 100 Hf exi_log_views ltac:(done) exi_header_ok ltac:(by vm_compute)).
    exists [x61; x62; x63]. split; by vm_compute.
  - apply (verify_count_exact exi_world S level0 zlib_level0 level0_laws exi_ship exi_header
      exi_log _ 5 0 2 Hf exi_log_views ltac:(done) exi_header_ok ltac:(by vm_compute)).
Defined.

(** A payload survives the whole path. Raw bytes framed and compressed in any of the
    writer's encodings, appended to a log (forks included), come back unchanged: the log opens,
    the header of the block is found through the index, and [read_inline] returns the raw bytes,
    under any limit they fit. *)
Lemma payload_roundtrip (w : world) (S : FileSource w) (F : Flate) (zlib : bytes -> option bytes)
    (L : FlateLaws F zlib) (zlib_deflate : bytes -> bytes) (log index : string) (k : LogKind)
    (xs : list block) (b : LogBuilder.t) (f g : PosFile.t)
    (Hst : forall raw, zlib (zlib_stored raw) = Some raw)
    (Hde : forall raw, zlib (zlib_deflate raw) = Some raw /\ 6 <= blen (zlib_deflate raw))
    (Hxs : Forall block_ok xs) (Hne : xs <> [])
    (Hnum : Forall (fun x => num_from_id x.1 < u32_max) xs)
    (Hb : push_all xs LogBuilder.new = Ok b) (Hf : fget log = Ok f) (Hg : fget index = Ok g)
    (Hd : views w f (LogBuilder.log b)) (Hix : views w g (LogBuilder.index b)) :
  exists l, ShipLog.open w log index k = Ok (Some l) /\
    forall i id p e raw limit, chain_of xs !! i = Some (id, p) ->
      encoding_payload zlib_deflate e raw = Ok p -> is_u64 limit -> blen raw <= limit ->
      exists h, ShipLog.header w l (ShipLog.begin l + Z.of_nat i) = Ok h /\ EntryHeader.id h = id /\
        read_inline w (fun _ => true) l h limit = Ok raw.
Proof.
  destruct (builder_opens w S log index k xs b f g) as (l & begin & Hw & Ho & Hl & Hr); [done..|].
  exists l. split; [done|]. intros i id p e raw limit Hi Hp Hlim Hle.
  destruct (written_header w l f g b (chain_of xs) begin) with i id p
    as (pos & e0 & Hfr & Hpos & Ha & Hlf & Hrh & Hh); try done; try (by rewrite Hl).
  assert (Hbg : ShipLog.begin l = begin) by (by rewrite Hl).
  exists (EntryHeader.mk pos id (blen p) e0). rewrite Hbg. split; [exact Hh|]. split; [done|].
  destruct (header_data w _ f _ _ _ Hd Hpos Hrh) as (data & Hsl & _ & _ & _ & _ & Ha').
  assert (Hpd : p = match e0 with Sized u => sized_payload u data | Legacy fl => legacy_payload fl data end).
  { eapply (entry_at_inj (LogBuilder.log b)); [|by destruct (wr_slot _ _ _ Hw i id p Hi) as ((?&?)&?)|done|done].
    rewrite (views_len _ _ _ Hd). by eapply u64_of_views. }
  pose proof (blen_nonneg raw).
  assert (Hv : valid zlib (stored (EntryHeader.mk pos id (blen p) e0) (LogBuilder.log b))
    (EntryHeader.uncompressed (EntryHeader.mk pos id (blen p) e0)) raw).
  { unfold valid, stored. rewrite Hsl. simpl.
    apply (framing_read zlib zlib_deflate e raw p e0 data); try done. destruct Hlim. split; lia. }
  pose proof (read_inline_spec w zlib l _ f _ _ _ Hlf Hd Hpos Hrh (fun _ => true) limit Hlim) as Hri.
  destruct (read_inline w (fun _ => true) l _ limit) as [y|er|]; [| |done].
  - destruct Hri as [[Hz _] _], Hv as [Hz' _]. congruence.
  - destruct (Hri raw Hv) as [?|[_ ?]]; [lia|done].
Qed.

Lemma payload_roundtrip_witness :
  let S := direct_source exi_world exi_world_ok in
  exists l, ShipLog.open exi_world "log" "index" Trace = Ok (Some l) /\
    exists h, ShipLog.header exi_world l (ShipLog.begin l + 1) = Ok h /\
      read_inline (F := level0) exi_world (fun _ => true) l h 10 = Ok [x64].
Proof.
  intros S.
  destruct (payload_roundtrip exi_world S level0 zlib_level0 level0_laws zlib_stored "log" "index" Trace
    exi_blocks exi_builder exi_log exi_index) as (l & Ho & H).
  - apply zlib_stored_decodes.
  - intros raw. split; [apply zlib_stored_decodes|]. unfold zlib_stored, be_bytes. rewrite !blen_app, blen_reverse.
    rewrite blen_le_bytes. change (blen [x78; x01]) with 2.
    match goal with |- context [blen ?a + (blen ?b + _)] => pose proof (blen_nonneg a); pose proof (blen_nonneg b) end.
    lia.
  - repeat (apply Forall_cons_2; [split; [by vm_compute|simpl]|]); [| |by apply Forall_nil_2].
    + exists (Sized 3). split; [by vm_compute|]. eauto.
    + exists (Legacy 0). split; [by vm_compute|]. split; [done|]. eexists. split; [done|]. by left.
  - done.
  - repeat (apply Forall_cons_2; [by vm_compute|]). by apply Forall_nil_2.
  - by vm_compute.
  - by vm_compute.
  - by vm_compute.
  - apply exi_log_views.
  - apply exi_index_views.
  - exists l. split; [done|].
    assert (Hc : chain_of exi_blocks !! 1%nat = Some (ex_id 6 x00, legacy_payload 0 (zlib_stored [x64])))
      by (vm_compute; reflexivity).
    assert (Hp : encoding_payload zlib_stored LegacyZero [x64] = Ok (legacy_payload 0 (zlib_stored [x64])))
      by reflexivity.
    assert (Hl : is_u64 10) by (split; done).
    assert (Hb : blen [x64] <= 10) by done.
    pose proof (H 1%nat _ _ LegacyZero [x64] 10 Hc Hp Hl Hb) as Hx.
    destruct Hx as (h & Hh & _ & Hr).
    exists h. split; [exact Hh|exact Hr].
Defined.
