(* ===== verification/BlockLog.v ===== *)
(** * Block logs ([crates/core/src/blocklog.rs])

    [BlockLog::open] (versions 1 to 3), the per-block reads through the index, and the decoding
    of [block_header] and [genesis_state] prefixes with [FcReader]. sha256 is a parameter: the
    hash crate is not part of the sources, and only its output length is used.

    The theorems: a block's id and number, and that the probing reads ([header] reads 8 KiB first,
    [read_genesis] 512 bytes) give what decoding the whole block or file gives; that the blocks a
    log serves tile the file between its preamble and its end; that the stored body, the
    [previous] field and the header agree; that nothing panics; and the one range [open] accepts
    that [range] cannot represent. *)

From S2P Require Import Prelude.
From S2P Require Import Errors.
From S2P Require Import Cursor.
From S2P Require Import Binio.

Definition TOTEM : Z := u64_max.
Definition CHAIN_ID_PREAMBLE_BYTES : Z := 48.
Definition PRUNED_FLAG : Z := Z.shiftl 1 31.
Definition PREVIOUS_AT : Z := 14.
Definition MIN_HEADER_BYTES : Z := 116.
Definition CHAIN_CONFIG_V0_BYTES : Z := 68.
Definition GENESIS_PROBE : Z := 512.
Definition HEADER_PROBE : Z := 8192.

Record BlockHeader := mkHeader { bh_number : Z; bh_id : bytes; bh_previous : bytes }.

#[export] Instance BlockHeader_eq_dec : EqDecision BlockHeader.
Proof. solve_decision. Defined.

(** ** Decoding with [FcReader] *)
Section Decode.
Context (sha256 : bytes -> bytes).
Import FcReader.

Definition public_key_rest : reader Z :=
  let! k := varuint32 in
  if (k =? 0) || (k =? 1) then sret 33
  else if k =? 2 then
    do! bytes_ 33 ;;
    do! u8 ;;
    varuint32
  else sfail (EUnknownKeyType k).

Definition producer_reader (_ : ()) : reader () :=
  do! u64 ;;
  let! rest := public_key_rest in
  do! bytes_ rest ;;
  sret ().

Definition extension_reader (_ : ()) : reader () :=
  do! bytes_ 2 ;;
  let! len := varuint32 in
  do! bytes_ len ;;
  sret ().

(** The fields of a [block_header] up to its end; the value is [previous]. *)
Definition header_reader : reader bytes :=
  do! bytes_ PREVIOUS_AT ;;
  let! previous := id in
  do! bytes_ 68 ;;
  let! has_producers := bool_ in
  do! (if has_producers then
         do! u32 ;;
         let! n := varuint32 in
         for_count n producer_reader ()
       else sret ()) ;;
  let! n := varuint32 in
  do! for_count n extension_reader () ;;
  sret previous.

Definition block_header (body : bytes) : result BlockHeader :=
  match header_reader (new body) with
  | (Ok previous, r) =>
      let? number := or_err (checked_add32 (num_from_id previous) 1) EBlockNumberOverflow in
      let? packed := or_panic (slice body 0 (cpos r)) in
      Ok (mkHeader number (be_bytes 4 number ++ drop 4 (sha256 packed)) previous)
  | (Err e, _) => Err e
  | (Panic, _) => Panic
  end.

Definition chain_id_from_genesis (genesis_packed : bytes) : bytes := sha256 genesis_packed.

Definition genesis_reader : reader Z :=
  do! u64 ;;
  public_key_rest.

Definition genesis_len (b : bytes) : result Z :=
  match genesis_reader (new b) with
  | (Ok rest, r) =>
      let? n := or_err (checked_add64 (cpos r) rest) EGenesisOverflow in
      or_err (checked_add64 n CHAIN_CONFIG_V0_BYTES) EGenesisOverflow
  | (Err e, _) => Err e
  | (Panic, _) => Panic
  end.

Definition read_genesis (w : world) (f : PosFile.t) (at_ : Z) : result bytes :=
  let avail := sat_sub (PosFile.len f) at_ in
  let? b := PosFile.read_vec w f at_ (Z.min avail GENESIS_PROBE) in
  let? len := genesis_len b in
  do? ensure (len <=? avail) (ETruncatedGenesis len at_ avail) ;;
  if len <=? blen b then Ok (take (Z.to_nat len) b)
  else PosFile.read_vec w f at_ len.

End Decode.

(** ** BlockLog *)
Module BlockLog.

Record t := mk {
  log : string;
  index : string;
  version : Z;
  first : Z;
  last : Z;
  chain_id : bytes;
  first_pos : Z;
  size : Z
}.

(** [(self.first, self.last + 1)], in release arithmetic. *)
Definition range (l : t) : Z * Z := (first l, add32 (last l) 1).

Section Ops.
Context (w : world) `{!FileSource w} (sha256 : bytes -> bytes).

(** The preamble from offset [at_]: the chain id and where the preamble ends so far. *)
Definition preamble_chain_id (f : PosFile.t) (version first at_ : Z) : result (bytes * Z) :=
  if (version <? 3) || (first =? 1) then
    let? genesis := read_genesis w f at_ in
    Ok (chain_id_from_genesis sha256 genesis, at_ + blen genesis)
  else
    let? id := PosFile.read_exact_at w f at_ 32 in
    Ok (id, at_ + 32).

Definition preamble_totem (f : PosFile.t) (version at_ : Z) : result Z :=
  if version =? 1 then Ok at_
  else
    let? totem := PosFile.u64_at w f at_ in
    do? ensure (totem =? TOTEM) (ETotem totem) ;;
    Ok (at_ + 8).

Definition open (log index : string) : result (option t) :=
  let? f := fget log in
  let size := PosFile.len f in
  do? ensure (4 <=? size) (ETooShortForBlockLog size) ;;
  let? version := PosFile.u32_at w f 0 in
  do? ensure (Z.land version PRUNED_FLAG =? 0) EPrunedBlockLog ;;
  do? ensure (negb (version =? 0)) EBlockLogVersion0 ;;
  do? ensure ((1 <=? version) && (version <=? 3)) (EBlockLogVersion version) ;;
  let? (first, at_) :=
    (if version =? 1 then Ok (1, 4)
     else let? first := PosFile.u32_at w f 4 in Ok (first, 8)) in
  do? ensure (0 <? first) EStartsAtBlock0 ;;
  let? (chain_id, at_) := preamble_chain_id f version first at_ in
  let? at_ := preamble_totem f version at_ in
  let first_pos := at_ in
  if size =? first_pos then Ok None
  else
    do? ensure (add64 first_pos (MIN_HEADER_BYTES + 8) <=? size) (ECannotHoldBlock (size - first_pos)) ;;
    let? last_pos := PosFile.u64_at w f (sub64 size 8) in
    do? ensure ((first_pos <=? last_pos) &&
                match checked_add64 last_pos (MIN_HEADER_BYTES + 8) with
                | Some end_ => end_ <=? size
                | None => false
                end) (ELastBlockOutside last_pos) ;;
    let? prev := PosFile.read_exact_at w f (add64 last_pos PREVIOUS_AT) 32 in
    let? last :=
      match checked_add32 (num_from_id prev) 1 with
      | Some n => if first <=? n then Ok n else Err (ELastBlockBeforeFirst (num_from_id prev) first)
      | None => Err (ELastBlockBeforeFirst (num_from_id prev) first)
      end in
    let count := last - first + 1 in
    let? idx := fget index in
    do? ensure (PosFile.len idx =? count * 8) (EBlockIndexLength (PosFile.len idx) (count * 8)) ;;
    let? index_first := PosFile.u64_at w idx 0 in
    let? index_last := PosFile.u64_at w idx (sub64 (PosFile.len idx) 8) in
    do? ensure ((index_first =? first_pos) && (index_last =? last_pos))
          (EBlockIndexPlaces index_first index_last first_pos last_pos) ;;
    Ok (Some (mk log index version first last chain_id first_pos size)).

Definition file (path : string) (len : Z) : result PosFile.t :=
  let? f := fget path in
  do? ensure (PosFile.len f =? len) (EChangedAfterOpen (PosFile.len f) len) ;;
  Ok f.

(** The file, position and length of block [n], after the index and trailer checks. *)
Definition entry (l : t) (n : Z) : result (PosFile.t * Z * Z) :=
  do? ensure ((first l <=? n) && (n <=? last l)) (EBlockNotInLog n) ;;
  let count := last l - first l + 1 in
  let? idx := file (index l) (count * 8) in
  let slot := (n - first l) * 8 in
  let? (pos, end_) :=
    (if n <? last l then
       let? b := PosFile.read_exact_at w idx slot 16 in
       Ok (le_of (take 8 b), le_of (drop 8 b))
     else
       let? pos := PosFile.u64_at w idx slot in Ok (pos, size l)) in
  do? ensure ((first_pos l <=? pos) &&
              match checked_add64 pos (MIN_HEADER_BYTES + 8) with
              | Some min_end => min_end <=? end_
              | None => false
              end &&
              (end_ <=? size l)) (ENotABlock n pos end_) ;;
  let? f := file (log l) (size l) in
  let? trailer := PosFile.u64_at w f (sub64 end_ 8) in
  do? ensure (trailer =? pos) (EBlockTrailer n pos trailer) ;;
  Ok (f, pos, sub64 (sub64 end_ 8) pos).

(** [prev == n - 1], in release arithmetic. *)
Definition check_link (n : Z) (previous : bytes) : result () :=
  let prev := num_from_id previous in
  ensure (prev =? wrap32 (n - 1)) (EFollows n prev).

Definition bounds (l : t) (n : Z) : result (Z * Z) :=
  let? (fp, len) := entry l n in Ok (fp.2, len).

Definition body (l : t) (n : Z) : result bytes :=
  let? (fp, len) := entry l n in
  let? out := PosFile.read_exact_at w fp.1 fp.2 len in
  let? previous := or_panic (slice out PREVIOUS_AT 32) in
  do? check_link n previous ;;
  Ok out.

Definition previous (l : t) (n : Z) : result bytes :=
  let? (fp, _) := entry l n in
  let? previous := PosFile.read_exact_at w fp.1 (add64 fp.2 PREVIOUS_AT) 32 in
  do? check_link n previous ;;
  Ok previous.

Definition header (l : t) (n : Z) : result BlockHeader :=
  let? (fp, len) := entry l n in
  let? probe := PosFile.read_vec w fp.1 fp.2 (Z.min len HEADER_PROBE) in
  let? h :=
    match block_header sha256 probe with
    | Ok h => Ok h
    | Err e =>
        if HEADER_PROBE <? len then
          let? whole := PosFile.read_vec w fp.1 fp.2 len in
          block_header sha256 whole
        else Err e
    | Panic => Panic
    end in
  do? check_link n (bh_previous h) ;;
  Ok h.

Definition id (l : t) (n : Z) : result bytes :=
  let? h := header l n in Ok (bh_id h).

End Ops.

End BlockLog.

(** ** Decoding: ids, and prefixes *)
Section DecodeFacts.
Context (sha256 : bytes -> bytes).
Hypothesis sha256_len : forall b, blen (sha256 b) = 32.
Import FcReader.

Lemma varuint32_yields : yields varuint32 (fun v => 0 <= v < U32).
Proof.
  intros c v c' Hc H. destruct (fc_run_split 5 (rest c)) as [(x & s & Hr & Hx)|[Hl Hf]].
  - rewrite (varuint32_parses x Hx c s Hc Hr) in H. injection H as <- _. by apply Z.mod_pos_bound.
  - pose proof (varuint32_short [0; 7; 14; 21; 28] c 0 Hc Hl Hf) as He.
    fold varuint32 in He. rewrite H in He. done.
Qed.

(** A length read with [varuint32] is not negative, so the skip that uses it is safe. *)
Lemma varuint32_then_safe {A} (k : Z -> reader A) :
  (forall v, 0 <= v < U32 -> safe (k v)) -> safe (sbind varuint32 k).
Proof.
  intros Hk. apply (safe_bind_val (fun v => 0 <= v < U32)); [apply varuint32_safe|apply varuint32_yields|done].
Qed.

Lemma skip_safe n : 0 <= n -> safe (do! bytes_ n ;; sret ()).
Proof. intros Hn. apply safe_bind; [by apply bytes_safe|solve_safe]. Qed.

Lemma public_key_rest_safe : safe public_key_rest.
Proof.
  apply varuint32_then_safe. intros k Hk. apply safe_if; [solve_safe|]. apply safe_if; [|solve_safe].
  apply safe_bind; [by apply bytes_safe|intros _]. apply safe_bind; [apply u8_safe|intros _; apply varuint32_safe].
Qed.

Lemma public_key_rest_yields : yields public_key_rest (fun v => 0 <= v < U32).
Proof.
  eapply yields_bind; [apply varuint32_safe|apply yields_any|intros k _].
  apply yields_if; [by apply yields_ret|]. apply yields_if; [|apply yields_fail].
  eapply yields_bind; [by apply bytes_safe|apply yields_any|intros _ _].
  eapply yields_bind; [apply u8_safe|apply yields_any|intros _ _]. apply varuint32_yields.
Qed.

Lemma producer_reader_safe u : safe (producer_reader u).
Proof.
  unfold producer_reader. apply safe_bind; [apply u64_safe|intros _].
  apply (safe_bind_val (fun v => 0 <= v < U32)); [apply public_key_rest_safe|apply public_key_rest_yields|].
  intros v Hv. apply skip_safe. lia.
Qed.

Lemma extension_reader_safe u : safe (extension_reader u).
Proof.
  unfold extension_reader. apply safe_bind; [by apply bytes_safe|intros _].
  apply varuint32_then_safe. intros v Hv. apply skip_safe. lia.
Qed.

Lemma header_reader_safe : safe header_reader.
Proof.
  unfold header_reader. apply safe_bind; [by apply bytes_safe|intros _].
  apply safe_bind; [by apply bytes_safe|intros previous].
  apply safe_bind; [by apply bytes_safe|intros _]. apply safe_bind; [apply bool_safe|intros has].
  apply safe_bind; [|intros _].
  - apply safe_if; [|solve_safe]. apply safe_bind; [apply u32_safe|intros _].
    apply safe_bind; [apply varuint32_safe|intros n]. apply safe_for, producer_reader_safe.
  - apply safe_bind; [apply varuint32_safe|intros n].
    apply safe_bind; [apply safe_for, extension_reader_safe|solve_safe].
Qed.

Lemma genesis_reader_safe : safe genesis_reader.
Proof. apply safe_bind; [apply u64_safe|intros _; apply public_key_rest_safe]. Qed.

Lemma genesis_reader_yields : yields genesis_reader (fun v => 0 <= v < U32).
Proof.
  eapply yields_bind; [apply u64_safe|apply yields_any|intros _ _; apply public_key_rest_yields].
Qed.

Lemma genesis_len_nonneg b n : blen b < U64 -> genesis_len b = Ok n -> 0 <= n.
Proof.
  intros Hl H. unfold genesis_len in H. destruct (genesis_reader (new b)) as [[rest|e|] r] eqn:Hr; try done.
  assert (Hc : cursor_wf (new b)) by (split; [|done]; simpl; pose proof (blen_nonneg b); lia).
  pose proof (genesis_reader_yields _ _ _ Hc Hr) as Hy. cbv beta in Hy. pose proof (genesis_reader_safe _ Hc) as (_ & _ & Hp).
  rewrite Hr in Hp. cbn [snd new cpos] in Hp. bind H as k Hk. apply or_err_Ok in H, Hk.
  apply checked_add64_Some in H as [-> _], Hk as [-> _]. unfold CHAIN_CONFIG_V0_BYTES. lia.
Qed.

Lemma public_key_rest_stable : stable public_key_rest.
Proof. unfold public_key_rest, varuint32. solve_stable. Qed.

Lemma header_reader_stable : stable header_reader.
Proof.
  unfold header_reader, producer_reader, extension_reader, id, varuint32.
  solve_stable; auto using public_key_rest_stable with stable.
Qed.

Lemma genesis_reader_stable : stable genesis_reader.
Proof. unfold genesis_reader. apply stable_bind; [apply u64_stable|intros _; apply public_key_rest_stable]. Qed.

(** The [previous] a header holds: 32 bytes at offset 14, and at least 116 bytes in all. *)
Lemma header_reader_Ok body previous r :
  blen body < U64 -> header_reader (new body) = (Ok previous, r) ->
  slice body PREVIOUS_AT 32 = Some previous /\ cb r = body /\ 0 <= cpos r <= blen body.
Proof.
  intros Hl H. assert (Hc : cursor_wf (new body)) by (split; [|done]; simpl; pose proof (blen_nonneg body); lia).
  pose proof (header_reader_safe (new body) Hc) as Hs. rewrite H in Hs. destruct Hs as (_ & Hb & Hp). simpl in Hb, Hp.
  split; [|done]. clear Hb Hp. unfold header_reader in H.
  apply sbind_Ok in H as (s0 & c0 & H0 & H). apply bytes_Ok in H0 as [L0 ->]; [|done|done].
  apply sbind_Ok in H as (pr & c1 & H1 & H). unfold id, bytes_ in H1. simpl in H1.
  destruct (slice body _ _) as [p|] eqn:Hsl; [|done].
  injection H1 as <- <-. res_inv. by subst.
Qed.

(** A block's number is its [previous]'s plus one, and its id carries it. *)
Lemma block_header_fields body h :
  blen body < U64 -> block_header sha256 body = Ok h ->
  slice body PREVIOUS_AT 32 = Some (bh_previous h) /\ blen (bh_id h) = 32 /\
  bh_number h = num_from_id (bh_previous h) + 1 /\ num_from_id (bh_id h) = bh_number h.
Proof.
  intros Hl. unfold block_header. destruct (header_reader (new body)) as [[previous|e|] r] eqn:Hr; try done.
  intros H. bind H as number Hn. bind H as packed Hp. apply Ok_inj in H as <-.
  cbn [bh_id bh_previous bh_number].
  apply header_reader_Ok in Hr as (Hs & _); [|done]. apply or_err_Ok in Hn. unfold checked_add32 in Hn.
  destruct (Z.ltb_spec (num_from_id previous + 1) U32) as [Hlt|]; [|done]. injection Hn as <-.
  assert (Hge : 0 <= num_from_id previous).
  { unfold num_from_id, be_of. apply le_of_range. }
  split; [done|]. split; [|split; [done|]].
  - unfold be_bytes. rewrite blen_app, blen_reverse, blen_le_bytes. change 4%nat with (Z.to_nat 4).
    rewrite blen_drop by (rewrite sha256_len; lia). rewrite sha256_len. lia.
  - unfold num_from_id at 1. rewrite take_app_le by done. unfold be_bytes. rewrite take_ge by done.
    fold (be_bytes 4 (num_from_id previous + 1)). apply be_of_be_bytes. change (256 ^ Z.of_nat 4) with U32. lia.
Qed.

(** A header decoded from the start of a block is the header of the block. *)
Lemma block_header_prefix body y h :
  block_header sha256 body = Ok h -> block_header sha256 (body ++ y) = Ok h.
Proof.
  unfold block_header. destruct (header_reader (new body)) as [[previous|e|] r] eqn:Hr; try done.
  apply (header_reader_stable body y) in Hr as (q & -> & Hr). unfold new. rewrite Hr. cbn [cpos].
  destruct (or_err _ _); simpl; try done. destruct (slice body 0 q) as [s|] eqn:Hs; [|done].
  by rewrite (slice_app_l _ y _ _ _ Hs).
Qed.

Lemma genesis_len_prefix b y n : genesis_len b = Ok n -> genesis_len (b ++ y) = Ok n.
Proof.
  unfold genesis_len. destruct (genesis_reader (new b)) as [[rest|e|] r] eqn:Hr; try done.
  apply (genesis_reader_stable b y) in Hr as (q & -> & Hr). unfold new. by rewrite Hr.
Qed.

Lemma block_header_no_panic body : blen body < U64 -> no_panic (block_header sha256 body).
Proof.
  intros Hl. unfold block_header.
  assert (Hc : cursor_wf (new body)) by (split; [|done]; simpl; pose proof (blen_nonneg body); lia).
  pose proof (header_reader_safe (new body) Hc) as Hs.
  destruct (header_reader (new body)) as [[previous|e|] r]; destruct Hs as (Hp & Hb & Hq); simpl in *; try done.
  apply no_panic_bind; [auto with no_panic|intros number _].
  destruct (slice_is_Some body 0 (cpos r)) as [s ->]; [lia..|]. done.
Qed.

Lemma genesis_len_no_panic b : blen b < U64 -> no_panic (genesis_len b).
Proof.
  intros Hl. unfold genesis_len.
  assert (Hc : cursor_wf (new b)) by (split; [|done]; simpl; pose proof (blen_nonneg b); lia).
  pose proof (genesis_reader_safe (new b) Hc) as Hs.
  destruct (genesis_reader (new b)) as [[rest|e|] r]; destruct Hs as (Hp & _); simpl in *; try done.
  solve_no_panic.
Qed.

End DecodeFacts.

(** ** Entries *)
Section EntryFacts.
Context (w : world) `{!FileSource w} (sha256 : bytes -> bytes).
Hypothesis sha256_len : forall b, blen (sha256 b) = 32.
Context (l : BlockLog.t) (f g : PosFile.t) (d ix : bytes).
Hypothesis Hf : fget (BlockLog.log l) = Ok f.
Hypothesis Hg : fget (BlockLog.index l) = Ok g.
Hypothesis Hd : views w f d.
Hypothesis Hix : views w g ix.

(** The offset the index gives block [n]. *)
Definition slot_of (n : Z) : option Z := le_of <$> slice ix ((n - BlockLog.first l) * 8) 8.

(** Where a served block lies: its offset and length, its trailer, and the next block or the end
    of the log right after it. *)
Record placed (n pos len : Z) : Prop := {
  pl_range : BlockLog.first l <= n <= BlockLog.last l;
  pl_slot : slot_of n = Some pos;
  pl_next : if n <? BlockLog.last l then slot_of (n + 1) = Some (pos + len + 8)
            else pos + len + 8 = BlockLog.size l;
  pl_first : BlockLog.first_pos l <= pos;
  pl_len : MIN_HEADER_BYTES <= len;
  pl_end : pos + len + 8 <= BlockLog.size l;
  pl_size : BlockLog.size l = blen d;
  pl_trailer : slice d (pos + len) 8 = Some (le_bytes 8 pos)
}.

Lemma file_Ok path len h : BlockLog.file w path len = Ok h <-> fget path = Ok h /\ PosFile.len h = len.
Proof.
  unfold BlockLog.file. destruct (fget path) as [h'|e|]; simpl; [|split; naive_solver..].
  destruct (Z.eqb_spec (PosFile.len h') len); simpl; naive_solver.
Qed.

Lemma slice16 b n s :
  slice b n 16 = Some s -> slice b n 8 = Some (take 8 s) /\ slice b (n + 8) 8 = Some (drop 8 s).
Proof.
  intros H. apply (slice_split b n 8 8) in H as (x & y & -> & Hx & Hy); [|lia..].
  pose proof (slice_blen _ _ _ _ Hx) as Lx. assert (length x = 8%nat) by (unfold blen in Lx; lia).
  rewrite take_app_le, take_ge, drop_app_le, drop_ge by lia. done.
Qed.

(** The two ways the end of block [n] is found. *)
Lemma entry_end_Ok n idx pos end_ :
  BlockLog.first l <= n <= BlockLog.last l ->
  fget (BlockLog.index l) = Ok idx ->
  (if n <? BlockLog.last l then
     let? b := PosFile.read_exact_at w idx ((n - BlockLog.first l) * 8) 16 in
     Ok (le_of (take 8 b), le_of (drop 8 b))
   else
     let? pos := PosFile.u64_at w idx ((n - BlockLog.first l) * 8) in Ok (pos, BlockLog.size l))
  = Ok (pos, end_) ->
  slot_of n = Some pos /\ 0 <= pos /\
  (if n <? BlockLog.last l then slot_of (n + 1) = Some end_ else end_ = BlockLog.size l).
Proof.
  intros Hn Hidx H. assert (idx = g) as -> by congruence. unfold slot_of.
  replace ((n + 1 - BlockLog.first l) * 8) with ((n - BlockLog.first l) * 8 + 8) by lia.
  destruct (n <? BlockLog.last l).
  - bind H as b Hb. injection H as <- <-. erewrite read_exact_at_spec in Hb by (done || lia).
    destruct (slice ix _ 16) as [s|] eqn:Hs; [|done]. injection Hb as ->.
    apply slice16 in Hs as [-> ->]. simpl. pose proof (le_of_range (take 8 b)). naive_solver.
  - bind H as p Hp. injection H as <- <-. apply (u64_at_Ok _ _ ix) in Hp as (s & -> & ->); [|done|lia].
    pose proof (le_of_range s). naive_solver.
Qed.

Lemma entry_placed n f' pos len :
  BlockLog.entry w l n = Ok (f', pos, len) -> f' = f /\ placed n pos len.
Proof.
  unfold BlockLog.entry. intros H. guard H as Hn. bools. bind H as idx Hidx.
  apply file_Ok in Hidx as [Hidx _]. bind H as pe Hpe. destruct pe as [p end_].
  apply entry_end_Ok in Hpe as (Hs & Hpos0 & Hnext); [|done|done]. guard H as Hin. bools.
  destruct (checked_add64 p _) as [e|] eqn:He; [|done]. unfold checked_add64, MIN_HEADER_BYTES in He.
  destruct (Z.ltb_spec (p + (116 + 8)) U64); [|done]. injection He as <-. bools.
  bind H as fl Hfl. apply file_Ok in Hfl as [Hfl Hsz]. assert (fl = f) as -> by congruence.
  bind H as tr Htr. guard H as Ht. bools. pose proof (views_len _ _ _ Hd) as Hl.
  assert (Hsz64 : PosFile.len f < U64) by (destruct Hd as (? & _ & _ & ? & _); done).
  apply Ok_inj in H. unfold sub64, wrap64 in *. rewrite !(Z.mod_small (end_ - 8)) in * by lia.
  rewrite (Z.mod_small (_ - p)) in H by lia. injection H as <- <- <-. split; [done|].
  apply (u64_at_Ok _ _ d) in Htr as (s & Hsl & ->); [|done|lia].
  split; try (done || lia).
  - by replace (p + (end_ - 8 - p) + 8) with end_ by lia.
  - unfold MIN_HEADER_BYTES. lia.
  - replace (p + (end_ - 8 - p)) with (end_ - 8) by lia. by apply (slice_le 8 _ _ s).
Qed.

(** The stored block, and what the partial reads see of it. *)
Lemma placed_body n pos len :
  placed n pos len -> 0 <= pos ->
  exists b, slice d pos len = Some b /\ blen b = len /\ len < U64.
Proof.
  intros Hp H0. pose proof (pl_end _ _ _ Hp). pose proof (pl_len _ _ _ Hp). rewrite (pl_size _ _ _ Hp) in *.
  unfold MIN_HEADER_BYTES in *.
  destruct (slice_is_Some d pos len) as [b Hb]; [lia..|]. exists b. split; [done|].
  split; [by eapply slice_blen|]. pose proof (views_u64 _ _ _ Hd). lia.
Qed.

Lemma slot_nonneg n pos : slot_of n = Some pos -> 0 <= pos.
Proof. unfold slot_of. destruct (slice ix _ 8) as [s|]; [|done]. intros [= <-]. apply le_of_range. Qed.

(** The probing header read is the decoding of the whole block. *)
Lemma probe_whole pos len b :
  0 <= pos -> 0 <= len < U64 -> slice d pos len = Some b ->
  (let? probe := PosFile.read_vec w f pos (Z.min len HEADER_PROBE) in
   match block_header sha256 probe with
   | Ok h => Ok h
   | Err e =>
       if HEADER_PROBE <? len then
         let? whole := PosFile.read_vec w f pos len in
         block_header sha256 whole
       else Err e
   | Panic => Panic
   end) = block_header sha256 b.
Proof.
  intros Hp Hlen Hb. pose proof (slice_blen _ _ _ _ Hb) as Lb.
  assert (Hm : 0 <= Z.min len HEADER_PROBE) by (unfold HEADER_PROBE; lia).
  pose proof Hb as Hb'. replace len with (Z.min len HEADER_PROBE + (len - Z.min len HEADER_PROBE)) in Hb' by lia.
  apply slice_split in Hb' as (x & y & Hxy & Hx & Hy); [|lia..].
  erewrite read_vec_spec by (done || lia). rewrite Hx. cbn [rbind].
  pose proof (slice_blen _ _ _ _ Hx) as Lx.
  destruct (block_header sha256 x) as [h|e|] eqn:Hh.
  - rewrite Hxy. symmetry. by apply block_header_prefix.
  - destruct (Z.ltb_spec HEADER_PROBE len) as [Hgt|Hle].
    + erewrite read_vec_spec by (done || lia). by rewrite Hb.
    + rewrite Z.min_l in Hx by lia. congruence.
  - exfalso. pose proof (block_header_no_panic sha256 x) as Hnp. unfold no_panic in Hnp.
    rewrite Hh in Hnp. discriminate Hnp. lia.
Qed.

(** [body], [previous] and [header] of one block read the same bytes. *)
Lemma body_reads n b :
  0 < BlockLog.first l -> BlockLog.last l < U32 -> BlockLog.body w l n = Ok b ->
  exists pos, placed n pos (blen b) /\ slice d pos (blen b) = Some b /\
    exists prev, slice b PREVIOUS_AT 32 = Some prev /\ num_from_id prev = n - 1 /\
      BlockLog.previous w l n = Ok prev /\ BlockLog.header w sha256 l n = block_header sha256 b.
Proof.
  intros Hfirst Hlast H. unfold BlockLog.body in H. bind H as e He. destruct e as [[f' pos] len].
  pose proof He as Hpl. apply entry_placed in Hpl as [-> Hpl]. cbn [fst snd] in H.
  pose proof (slot_nonneg _ _ (pl_slot _ _ _ Hpl)) as H0.
  destruct (placed_body _ _ _ Hpl H0) as (b' & Hb & Lb & Hlen).
  pose proof (pl_len _ _ _ Hpl) as Hmin. unfold MIN_HEADER_BYTES in Hmin.
  bind H as out Hout. erewrite read_exact_at_spec in Hout by (done || lia). rewrite Hb in Hout.
  apply Ok_inj in Hout as <-. bind H as prev Hprev. apply or_panic_Ok in Hprev.
  apply rbind_Ok in H as (u & Hlink & H). apply Ok_inj in H as <-. rewrite <- Lb in *.
  exists pos. split; [done|]. split; [done|]. exists prev. split; [done|].
  assert (Hnum : num_from_id prev = n - 1).
  { apply ensure_Ok in Hlink. bools. rewrite Hlink. pose proof (pl_range _ _ _ Hpl).
    apply Z.mod_small. lia. }
  assert (Hpd : slice d (pos + PREVIOUS_AT) 32 = Some prev).
  { rewrite <- Hprev. symmetry. eapply slice_slice; [done|unfold PREVIOUS_AT; lia..]. }
  split; [done|]. split.
  - unfold BlockLog.previous. rewrite He. cbn [rbind fst snd]. unfold add64, wrap64.
    pose proof (views_u64 _ _ _ Hd) as Hu. pose proof (pl_end _ _ _ Hpl) as Hend.
    rewrite (pl_size _ _ _ Hpl) in Hend. unfold PREVIOUS_AT in *. rewrite Z.mod_small by lia.
    erewrite read_exact_at_spec by (done || lia). rewrite Hpd. cbn [rbind]. by rewrite Hlink.
  - unfold BlockLog.header. rewrite He. cbn [rbind fst snd].
    pose proof (probe_whole pos (blen b') b' H0 ltac:(lia) Hb) as Hpw.
    destruct (PosFile.read_vec w f pos (Z.min (blen b') HEADER_PROBE)) as [probe|e|];
      cbn [rbind] in *; [|done..]. rewrite Hpw.
    destruct (block_header sha256 b') as [h|e|] eqn:Hh; cbn [rbind]; [|done..].
    apply block_header_fields in Hh as (Hp' & _); [|done|lia].
    assert (bh_previous h = prev) as -> by congruence. by rewrite Hlink.
Qed.

(** The header read of a block checks its own link. *)
Lemma header_number n h :
  0 < BlockLog.first l -> BlockLog.last l < U32 -> BlockLog.header w sha256 l n = Ok h ->
  bh_number h = n /\ num_from_id (bh_id h) = n /\ blen (bh_id h) = 32 /\ num_from_id (bh_previous h) = n - 1.
Proof.
  intros Hfirst Hlast H. unfold BlockLog.header in H. bind H as e He. destruct e as [[f' pos] len].
  apply entry_placed in He as [-> Hpl]. cbn [fst snd] in H.
  pose proof (slot_nonneg _ _ (pl_slot _ _ _ Hpl)) as H0.
  destruct (placed_body _ _ _ Hpl H0) as (b & Hb & Lb & Hlen).
  pose proof (pl_len _ _ _ Hpl) as Hmin. unfold MIN_HEADER_BYTES in Hmin.
  pose proof (probe_whole pos len b H0 ltac:(lia) Hb) as Hpw.
  bind H as probe Hprobe. rewrite Hprobe in Hpw. cbn [rbind] in Hpw. rewrite Hpw in H.
  bind H as h' Hh. apply rbind_Ok in H as (u & Hlink & H). apply Ok_inj in H as <-.
  apply block_header_fields in Hh as (_ & Hl32 & Hnum & Hid); [|done|lia].
  apply ensure_Ok in Hlink. bools. pose proof (pl_range _ _ _ Hpl).
  unfold wrap32 in Hlink. rewrite Z.mod_small in Hlink by lia.
  split; [lia|]. split; [lia|]. split; [done|lia].
Qed.

End EntryFacts.

(** ** Opening *)
Section OpenBlockLog.
Context (w : world) `{!FileSource w} (sha256 : bytes -> bytes).

(** What [open] establishes about the log it keeps. *)
Lemma blocklog_open_sound log index l :
  BlockLog.open w sha256 log index = Ok (Some l) ->
  exists f g d ix, fget log = Ok f /\ fget index = Ok g /\ views w f d /\ views w g ix /\
    BlockLog.log l = log /\ BlockLog.index l = index /\ BlockLog.size l = blen d /\
    0 < BlockLog.first l <= BlockLog.last l /\ BlockLog.last l < U32 /\
    blen ix = (BlockLog.last l - BlockLog.first l + 1) * 8 /\
    slot_of l ix (BlockLog.first l) = Some (BlockLog.first_pos l) /\
    exists last_pos, slot_of l ix (BlockLog.last l) = Some last_pos /\
      slice d (blen d - 8) 8 = Some (le_bytes 8 last_pos).
Proof.
  unfold BlockLog.open. intros H. bind H as f Hf. destruct (fget_views _ _ Hf) as [d Hd].
  pose proof (views_len _ _ _ Hd) as Hl. pose proof (views_u64 _ _ _ Hd) as Hu.
  guard H as Hsz. bind H as version Hver. do 3 (guard H as Hv; clear Hv).
  bind H as fa Hfa. destruct fa as [first at_]. guard H as Hfirst.
  bind H as ca Hca. destruct ca as [chain at1]. bind H as at2 Hat2. bools.
  destruct (PosFile.len f =? at2); [done|]. guard H as Hroom. bind H as last_pos Hlp. guard H as Hout.
  bind H as prev Hprev. bind H as last Hlast. bind H as g Hg. destruct (fget_views _ _ Hg) as [ix Hix].
  pose proof (views_len _ _ _ Hix) as Hli. pose proof (views_u64 _ _ _ Hix) as Hui.
  guard H as Hlen. bind H as ifirst Hif. bind H as ilast Hil. guard H as Hplace. bools.
  apply Ok_inj in H. injection H as <-.
  destruct (checked_add32 (num_from_id prev) 1) as [n|] eqn:Hn; [|done].
  unfold checked_add32 in Hn. destruct (Z.ltb_spec (num_from_id prev + 1) U32); [|done]. injection Hn as <-.
  destruct (Z.leb_spec first (num_from_id prev + 1)); [|done]. injection Hlast as <-.
  apply (u64_at_Ok _ _ ix) in Hif as (s1 & Hs1 & ->); [|done|lia].
  assert (Hbig : 8 <= PosFile.len f).
  { destruct (checked_add64 last_pos _) as [e|] eqn:He; [|done]. unfold checked_add64 in He.
    pose proof (le_of_range s1). unfold MIN_HEADER_BYTES in *.
    destruct (Z.ltb_spec (last_pos + (116 + 8)) U64); [|done]. injection He as <-. bools. lia. }
  unfold sub64, wrap64 in *. rewrite Z.mod_small in Hil, Hlp by lia.
  apply (u64_at_Ok _ _ ix) in Hil as (s2 & Hs2 & ->); [|done|lia].
  apply (u64_at_Ok _ _ d) in Hlp as (s3 & Hs3 & ->); [|done|lia].
  exists f, g, d, ix. simpl. repeat (split; [done || lia|]). unfold slot_of. simpl.
  rewrite Z.sub_diag, Z.mul_0_l. split; [rewrite Hs1; simpl; congruence|].
  exists (le_of s3). split.
  - replace ((num_from_id prev + 1 - first) * 8) with (PosFile.len g - 8) by lia. rewrite Hs2. simpl. congruence.
  - rewrite Hl. by apply (slice_le 8 _ _ s3).
Qed.

(** The genesis state read is exactly the packed state at the start of what is there. *)
Lemma read_genesis_exact f d at_ gen :
  views w f d -> 0 <= at_ <= blen d -> read_genesis w f at_ = Ok gen ->
  genesis_len (drop (Z.to_nat at_) d) = Ok (blen gen) /\ slice d at_ (blen gen) = Some gen.
Proof.
  intros Hd Hat H. pose proof (views_len _ _ _ Hd) as Hl. unfold read_genesis, sat_sub in H. cbv zeta in H.
  rewrite Z.max_r in H by lia. unfold GENESIS_PROBE in H. bind H as b Hb.
  erewrite read_vec_spec in Hb by (done || lia).
  destruct (slice d at_ _) as [b'|] eqn:Hs; [|done]. apply Ok_inj in Hb as ->.
  bind H as len Hlen. guard H as Hle. bools. pose proof (slice_blen _ _ _ _ Hs) as Lb.
  pose proof Hs as Hs'. apply slice_Some in Hs' as (_ & _ & _ & Hbt).
  assert (Hg : genesis_len (drop (Z.to_nat at_) d) = Ok len).
  { rewrite <- (take_drop (Z.to_nat (Z.min (PosFile.len f - at_) 512)) (drop (Z.to_nat at_) d)), <- Hbt.
    by apply genesis_len_prefix. }
  assert (H0 : 0 <= len).
  { apply (genesis_len_nonneg b); [|done]. pose proof (views_u64 _ _ _ Hd). lia. }
  destruct (Z.leb_spec len (blen b)) as [Hlb|Hlb].
  - apply Ok_inj in H as <-. rewrite blen_take by lia. split; [done|].
    rewrite Hbt, take_take. apply slice_Some. split; [lia|]. split; [lia|]. split; [lia|]. f_equal. lia.
  - erewrite read_vec_spec in H by (done || lia). destruct (slice d at_ len) as [s|] eqn:Hsl; [|done].
    apply Ok_inj in H as ->. pose proof (slice_blen _ _ _ _ Hsl) as ->. done.
Qed.

End OpenBlockLog.

(** ** No panics *)
Section BlockLogNoPanic.
Context (w : world) `{!FileSource w} (sha256 : bytes -> bytes).

Lemma read_genesis_no_panic f d at_ : views w f d -> 0 <= at_ -> no_panic (read_genesis w f at_).
Proof.
  intros Hd Hat. pose proof (views_len _ _ _ Hd) as Hl. pose proof (views_u64 _ _ _ Hd) as Hu.
  unfold read_genesis. cbv zeta. apply no_panic_bind; [auto with no_panic|intros b Hb].
  assert (Hbl : blen b < U64).
  { erewrite read_vec_spec in Hb by (done || (unfold sat_sub, GENESIS_PROBE; lia)).
    destruct (slice d at_ _) as [s|] eqn:Hs; [|done]. apply Ok_inj in Hb as ->.
    apply slice_Some in Hs as Hs'. rewrite (slice_blen _ _ _ _ Hs). lia. }
  apply no_panic_bind; [by apply genesis_len_no_panic|intros len _].
  apply no_panic_bind; [auto with no_panic|intros ? _]. solve_no_panic.
Qed.

Lemma file_no_panic path len : no_panic (BlockLog.file w path len).
Proof. unfold BlockLog.file. solve_no_panic. Qed.

Lemma blocklog_open_no_panic log index : no_panic (BlockLog.open w sha256 log index).
Proof.
  unfold BlockLog.open. apply no_panic_bind; [auto with no_panic|intros f Hf].
  destruct (fget_views _ _ Hf) as [d Hd]. cbv zeta.
  do 5 (apply no_panic_bind; [solve_no_panic|intros ? ?]).
  apply no_panic_bind; [solve_no_panic|intros [first at_] Hfa].
  assert (Hat : 0 <= at_) by (destruct (_ =? 1); res_inv; simplify_eq; done).
  apply no_panic_bind; [auto with no_panic|intros ? _].
  apply no_panic_bind; [|intros [chain at1] _; solve_no_panic].
  - unfold BlockLog.preamble_chain_id. destruct (_ || _); [|solve_no_panic].
    apply no_panic_bind; [by eapply read_genesis_no_panic|auto with no_panic].
  - unfold BlockLog.preamble_totem. solve_no_panic.
Qed.

Lemma entry_no_panic l n : no_panic (BlockLog.entry w l n).
Proof.
  unfold BlockLog.entry. cbv zeta. apply no_panic_bind; [auto with no_panic|intros ? _].
  apply no_panic_bind; [apply file_no_panic|intros idx _].
  apply no_panic_bind; [solve_no_panic|intros [pos end_] _].
  apply no_panic_bind; [auto with no_panic|intros ? _].
  apply no_panic_bind; [apply file_no_panic|intros f _]. solve_no_panic.
Qed.

Lemma previous_no_panic l n : no_panic (BlockLog.previous w l n).
Proof.
  unfold BlockLog.previous, BlockLog.check_link. apply no_panic_bind; [apply entry_no_panic|intros [fp len] _].
  solve_no_panic.
Qed.

(** The handle an entry gives, and that its range is inside what the handle shows. *)
Lemma entry_inside l n f pos len :
  BlockLog.entry w l n = Ok (f, pos, len) ->
  exists d b, views w f d /\ 0 <= pos /\ slice d pos len = Some b /\ MIN_HEADER_BYTES <= len < U64.
Proof.
  intros H. pose proof H as H'. unfold BlockLog.entry in H'. guard H' as Hn. bind H' as g Hg.
  bind H' as pe Hpe. destruct pe as [p e]. guard H' as Hin. bind H' as f0 Hf0. clear H'.
  apply file_Ok in Hg as [Hg _]. apply file_Ok in Hf0 as [Hf0 _].
  destruct (fget_views _ _ Hg) as [ix Hix]. destruct (fget_views _ _ Hf0) as [d Hd].
  destruct (entry_placed w l f0 g d ix Hf0 Hg Hd Hix n f pos len H) as [-> Hpl].
  pose proof (slot_nonneg _ _ _ _ (pl_slot _ _ _ _ _ _ Hpl)) as H0.
  destruct (placed_body w l _ d ix Hd n pos len Hpl H0) as (b & Hb & Lb & Hlen).
  exists d, b. pose proof (pl_len _ _ _ _ _ _ Hpl). done.
Qed.

Lemma body_no_panic l n : no_panic (BlockLog.body w l n).
Proof.
  unfold BlockLog.body, BlockLog.check_link. apply no_panic_bind; [apply entry_no_panic|].
  intros [[f pos] len] He. cbn [fst snd]. apply entry_inside in He as (d & b & Hd & H0 & Hb & Hlen).
  unfold MIN_HEADER_BYTES in Hlen. erewrite read_exact_at_spec by (done || lia). rewrite Hb. cbn [rbind].
  apply slice_blen in Hb. destruct (slice_is_Some b PREVIOUS_AT 32) as [p ->]; [unfold PREVIOUS_AT; lia..|].
  cbn [or_panic rbind]. solve_no_panic.
Qed.

Lemma blocklog_header_no_panic l n : no_panic (BlockLog.header w sha256 l n).
Proof.
  unfold BlockLog.header, BlockLog.check_link. apply no_panic_bind; [apply entry_no_panic|].
  intros [[f pos] len] He. cbn [fst snd]. apply entry_inside in He as (d & b & Hd & H0 & Hb & Hlen).
  unfold MIN_HEADER_BYTES in Hlen.
  pose proof (probe_whole w sha256 f d Hd pos len b H0 ltac:(lia) Hb) as Hpw.
  apply no_panic_bind; [auto with no_panic|intros probe Hp]. rewrite Hp in Hpw. cbn [rbind] in Hpw.
  rewrite Hpw. apply no_panic_bind; [|intros; solve_no_panic].
  apply block_header_no_panic. rewrite (slice_blen _ _ _ _ Hb). lia.
Qed.

End BlockLogNoPanic.

(** ** Properties *)

(** The three ways to read a block agree. When [body] serves block [n], [previous] returns
    the 32 bytes at offset 14 of that body, whose number is [n - 1], and [header], which first
    decodes an 8 KiB probe, returns exactly what decoding the whole body returns; a decoded
    header has number [n] and an id that carries it. *)
Lemma block_reads_agree (w : world) (S : FileSource w) (sha256 : bytes -> bytes)
    (log index : string) (l : BlockLog.t) (n : Z) (b : bytes)
    (Hsha : forall x, blen (sha256 x) = 32)
    (Ho : BlockLog.open w sha256 log index = Ok (Some l)) (Hb : BlockLog.body w l n = Ok b) :
  (exists prev, slice b PREVIOUS_AT 32 = Some prev /\ num_from_id prev = n - 1 /\
     BlockLog.previous w l n = Ok prev) /\
  BlockLog.header w sha256 l n = block_header sha256 b /\
  (forall h, BlockLog.header w sha256 l n = Ok h ->
     bh_number h = n /\ num_from_id (bh_id h) = n /\ blen (bh_id h) = 32).
Proof.
  apply blocklog_open_sound in Ho as (f & g & d & ix & Hf & Hg & Hd & Hix & <- & <- & Hs & Hfl & Hu & _).
  destruct (body_reads w sha256 Hsha l f g d ix Hf Hg Hd Hix n b ltac:(lia) Hu Hb)
    as (pos & _ & _ & prev & Hp & Hn & Hprev & Hh).
  split; [eauto|]. split; [done|]. intros h Hok.
  destruct (header_number w sha256 Hsha l f g d ix Hf Hg Hd Hix n h ltac:(lia) Hu Hok)
    as (? & ? & ? & _). done.
Qed.

(** A v3 log of two blocks, 7 and 8, for the examples: 118-byte bodies holding just a header. *)
Definition exb_body (n : Z) : bytes :=
  replicate 14 x01 ++ be_bytes 4 (n - 1) ++ replicate 28 x05 ++ replicate 68 x02 ++ [x00; x00; xaa; xbb].
Definition exb_log (first : Z) (bodies : list bytes) (poss : list Z) : bytes :=
  le_bytes 4 3 ++ le_bytes 4 first ++ replicate 32 x09 ++ le_bytes 8 TOTEM ++
  concat (zip_with (fun b p => b ++ le_bytes 8 p) bodies poss).
Definition exb_world (first : Z) (bodies : list bytes) (poss : list Z) : world :=
  world_of [("blocks.log", exb_log first bodies poss); ("blocks.index", concat (le_bytes 8 <$> poss))].
Definition exb_sha (_ : bytes) : bytes := replicate 32 x77.
Definition exb_two : world := exb_world 7 [exb_body 7; exb_body 8] [48; 174].

Lemma exb_two_ok : world_ok exb_two.
Proof. apply world_of_ok. repeat constructor. Qed.

Definition exb_blocklog : BlockLog.t :=
  BlockLog.mk "blocks.log" "blocks.index" 3 7 8 (replicate 32 x09) 48 300.

Lemma block_reads_agree_witness :
  let S := direct_source exb_two exb_two_ok in
  BlockLog.header exb_two exb_sha exb_blocklog 8 = block_header exb_sha (exb_body 8) /\
  is_ok (BlockLog.header exb_two exb_sha exb_blocklog 8) = true.
Proof.
  intros S. split; [|by vm_compute].
  apply (block_reads_agree exb_two S exb_sha "blocks.log" "blocks.index" exb_blocklog 8 (exb_body 8)).
  - done.
  - by vm_compute.
  - by vm_compute.
Defined.

(** The blocks of an opened log tile the file. The first block starts right after the
    preamble, every block starts right after the trailer of the one before it, the last ends at
    the end of the file, and each is followed by a trailer naming its own offset; so no byte
    belongs to two blocks. *)
Lemma blocks_tile (w : world) (S : FileSource w) (sha256 : bytes -> bytes) (log index : string)
    (l : BlockLog.t) (n pos len : Z) (f : PosFile.t)
    (Ho : BlockLog.open w sha256 log index = Ok (Some l)) (He : BlockLog.entry w l n = Ok (f, pos, len)) :
  (n = BlockLog.first l -> pos = BlockLog.first_pos l) /\
  (n = BlockLog.last l -> pos + len + 8 = BlockLog.size l) /\
  (forall f' pos' len', BlockLog.entry w l (n + 1) = Ok (f', pos', len') -> pos' = pos + len + 8) /\
  PosFile.u64_at w f (pos + len) = Ok pos /\ MIN_HEADER_BYTES <= len.
Proof.
  apply blocklog_open_sound in Ho as (fl & g & d & ix & Hf & Hg & Hd & Hix & <- & <- & Hs & Hfl & Hu & Hlx & Hfirst & _).
  destruct (entry_placed w l fl g d ix Hf Hg Hd Hix n f pos len He) as [-> Hpl].
  pose proof (slot_nonneg _ _ _ _ (pl_slot _ _ _ _ _ _ Hpl)) as H0.
  split; [|split; [|split; [|split]]].
  - intros ->. pose proof (pl_slot _ _ _ _ _ _ Hpl). congruence.
  - intros ->. pose proof (pl_next _ _ _ _ _ _ Hpl) as Hn. by rewrite Z.ltb_irrefl in Hn.
  - intros f' pos' len' He'.
    destruct (entry_placed w l fl g d ix Hf Hg Hd Hix (n + 1) f' pos' len' He') as [_ Hpl'].
    pose proof (pl_next _ _ _ _ _ _ Hpl) as Hn. pose proof (pl_range _ _ _ _ _ _ Hpl') as Hr.
    rewrite (proj2 (Z.ltb_lt _ _)) in Hn by lia. pose proof (pl_slot _ _ _ _ _ _ Hpl'). congruence.
  - pose proof (pl_len _ _ _ _ _ _ Hpl) as Hl. unfold MIN_HEADER_BYTES in Hl.
    apply (u64_at_Ok w fl d); [done|lia|]. eexists. split; [apply (pl_trailer _ _ _ _ _ _ Hpl)|].
    symmetry. apply le_of_le_bytes_id. change (is_u64 pos).
    pose proof (pl_end _ _ _ _ _ _ Hpl). pose proof (views_u64 _ _ _ Hd). rewrite (pl_size _ _ _ _ _ _ Hpl) in *.
    split; lia.
  - apply (pl_len _ _ _ _ _ _ Hpl).
Qed.

Lemma blocks_tile_witness :
  let S := direct_source exb_two exb_two_ok in
  let f := PosFile.mk 0 300 "blocks.log" in
  BlockLog.entry exb_two exb_blocklog 8 = Ok (f, 174, 118) /\ PosFile.u64_at exb_two f (48 + 118) = Ok 48.
Proof.
  intros S f. split; [by vm_compute|].
  apply (blocks_tile exb_two S exb_sha "blocks.log" "blocks.index" exb_blocklog 7 48 118 f);
    by vm_compute.
Defined.

(** The genesis state a preamble carries is read exactly: [read_genesis], which sizes it
    from a 512-byte probe, returns the packed [genesis_state] at its offset, with the length that
    decoding the rest of the file gives. *)
Lemma read_genesis_is_packed_state (w : world) (f : PosFile.t) (d gen : bytes) (at_ : Z)
    (Hd : views w f d) (Hat : 0 <= at_ <= blen d) (Hr : read_genesis w f at_ = Ok gen) :
  genesis_len (drop (Z.to_nat at_) d) = Ok (blen gen) /\ slice d at_ (blen gen) = Some gen.
Proof. by apply (read_genesis_exact w f). Qed.

(** A WebAuthn initial key with a long relying-party id makes the state longer than the probe. *)
Definition exg_genesis : bytes :=
  replicate 8 x01 ++ [x02] ++ replicate 33 x03 ++ [x01] ++ [xd8; x04] ++ replicate 600 x61 ++ replicate 68 x04.

Lemma read_genesis_is_packed_state_witness :
  let w := world_of [("g", [x00; x00] ++ exg_genesis ++ [x2a])] in
  let f := PosFile.mk 0 716 "g" in
  read_genesis w f 2 = Ok exg_genesis /\ blen exg_genesis = 713 /\
  genesis_len (exg_genesis ++ [x2a]) = Ok 713.
Proof.
  intros w f. split; [by vm_compute|]. split; [by vm_compute|].
  apply (read_genesis_is_packed_state w f ([x00; x00] ++ exg_genesis ++ [x2a]) exg_genesis 2).
  - exists ([x00; x00] ++ exg_genesis ++ [x2a]). repeat split; by vm_compute.
  - vm_compute. intuition congruence.
  - by vm_compute.
Defined.

(** Nothing in the block-log reader panics, whatever the bytes of the log and its index. *)
Lemma blocklog_never_panics (w : world) (S : FileSource w) (sha256 : bytes -> bytes)
    (log index : string) (l : BlockLog.t) (n : Z) :
  is_panic (BlockLog.open w sha256 log index) = false /\ is_panic (BlockLog.body w l n) = false /\
  is_panic (BlockLog.previous w l n) = false /\ is_panic (BlockLog.header w sha256 l n) = false.
Proof.
  split; [apply blocklog_open_no_panic|]. split; [apply body_no_panic|].
  split; [apply previous_no_panic|apply blocklog_header_no_panic].
Qed.

Definition exb_max : world := exb_world u32_max [exb_body u32_max] [48].

Lemma exb_max_ok : world_ok exb_max.
Proof. apply world_of_ok. repeat constructor. Qed.

(** [BlockLog::open] accepts a log whose last block is number 2^32 - 1, and [range] then
    computes [last + 1] past the end of [u32]: in release arithmetic the log claims the empty
    range ending at 0. ([ShipLog::open] refuses the same case.) *)
Lemma blocklog_last_block_overflows :
  let S := direct_source exb_max exb_max_ok in
  let l := BlockLog.mk "blocks.log" "blocks.index" 3 u32_max u32_max (replicate 32 x09) 48 174 in
  BlockLog.open exb_max exb_sha "blocks.log" "blocks.index" = Ok (Some l) /\
  is_ok (BlockLog.body exb_max l u32_max) = true /\ BlockLog.range l = (u32_max, 0).
Proof. intros S l. split; [by vm_compute|]. split; by vm_compute. Qed.
