(* ===== verification/Catalog.v ===== *)
(** * Catalogs of log files ([crates/core/src/catalog.rs])

    The interface [Ranged] both kinds of log implement, the assembly of the files of one kind into
    one contiguous catalog, its lookup, what the file names say, and the scan for large entries.
    The walk of the directories ([discover]) is file-system glue and is not modelled: the pairs
    of paths it finds are the input here.

    The theorems: [assemble] accepts exactly the sets of files that form one contiguous range once
    identical copies are dropped, and says which; [get] finds the file of a block exactly when the
    catalog holds it; the names the writer gives retained files read back; and [large_entries],
    with its paging and its shortcut on short streams, reports what inflating every entry would. *)

From Stdlib Require Import Ascii.
From S2P Require Import Prelude.
From S2P Require Import Errors.
From S2P Require Import Cursor.
From S2P Require Import Binio.
From S2P Require Import ShipLog.
From S2P Require Import Zlib.
From S2P Require Import Inflate.
From S2P Require Import BlockLog.

Definition BLOCKS_STEM : string := "blocks".
Definition SCAN_PAGE : Z := 1024.
Definition MAX_INFLATE_RATIO : Z := 1032.

(** ** The interface of a log file *)

(** The trait [Ranged]. *)
Class Ranged (L : Type) := {
  range_of : L -> Z * Z;
  path_of : L -> string;
  tail_ids : L -> result (bytes * bytes)
}.

#[export] Instance ShipLog_Ranged (w : world) `{!FileSource w} : Ranged ShipLog.t := {|
  range_of := ShipLog.range;
  path_of := ShipLog.log;
  tail_ids l :=
    let '(begin, end_) := ShipLog.range l in
    let? a := ShipLog.id w l begin in
    let? b := ShipLog.id w l (wrap32 (end_ - 1)) in
    Ok (a, b)
|}.

#[export] Instance BlockLog_Ranged (w : world) `{!FileSource w} (sha256 : bytes -> bytes)
    : Ranged BlockLog.t := {|
  range_of := BlockLog.range;
  path_of := BlockLog.log;
  tail_ids l :=
    let '(first, end_) := BlockLog.range l in
    let? a := BlockLog.id w sha256 l first in
    let? b := BlockLog.id w sha256 l (wrap32 (end_ - 1)) in
    Ok (a, b)
|}.

(** [partition_point] on a slice partitioned by [p]. *)
Fixpoint partition_point {A} (p : A -> bool) (l : list A) : nat :=
  match l with
  | [] => 0
  | x :: l => if p x then S (partition_point p l) else 0
  end.

(** ** Catalog *)

(** [Catalog<L>]: its [files]. *)
Abbreviation Catalog := list (only parsing).

Section CatalogOps.
Context {L : Type} `{!Ranged L}.

Definition catalog_range (c : Catalog L) : result (Z * Z) :=
  let? f := or_panic (head c) in
  let? g := or_panic (list.last c) in
  Ok ((range_of f).1, (range_of g).2).

Definition catalog_get (c : Catalog L) (n : Z) : option L :=
  match partition_point (fun f => (range_of f).1 <=? n) c with
  | O => None
  | S i =>
      match c !! i with
      | Some file => if n <? (range_of file).2 then Some file else None
      | None => None
      end
  end.

Definition seams (c : Catalog L) : list Z := (fun f => (range_of f).1) <$> drop 1 c.

End CatalogOps.

(** ** Findings *)
Inductive Finding :=
| FEmpty (path : string)
| FNameMismatch (path : string) (by_name by_content : Z * Z)
| FDuplicate (kept dropped : string)
| FLargeEntry (kind : LogKind) (block bytes : Z).

Definition is_warning (f : Finding) : bool :=
  match f with FNameMismatch _ _ _ | FLargeEntry _ _ _ => true | _ => false end.

(** ** Assembling *)
Section Assemble.
Context {L : Type} `{!Ranged L}.

Definition in_window (window : option (Z * Z)) (l : L) : bool :=
  match window with
  | None => true
  | Some (wb, we) => ((range_of l).1 <? we) && (wb <? (range_of l).2)
  end.

(** The order of [(u32, u32)] keys. *)
Definition range_le (a b : Z * Z) : bool := (a.1 <? b.1) || ((a.1 =? b.1) && (a.2 <=? b.2)).

(** [sort_by_key(|l| l.range())], a stable sort: a file found earlier stays first. *)
Fixpoint insert_by_range (x : L) (l : list L) : list L :=
  match l with
  | [] => [x]
  | y :: l => if range_le (range_of x) (range_of y) then x :: y :: l else y :: insert_by_range x l
  end.

Fixpoint sort_by_range (l : list L) : list L :=
  match l with
  | [] => []
  | x :: l => insert_by_range x (sort_by_range l)
  end.

(** The state of the loop: the files kept, the problems, the file reaching furthest, the findings. *)
Record asm := mkAsm {
  a_files : list L;
  a_problems : list problem;
  a_reach : option L;
  a_findings : list Finding
}.

Definition keep (log : L) (probs : list problem) (st : asm) : asm :=
  mkAsm (a_files st ++ [log]) (a_problems st ++ probs) (Some log) (a_findings st).

Definition assemble_step (st : asm) (log : L) : result asm :=
  let '(begin, end_) := range_of log in
  match a_reach st with
  | None => Ok (keep log [] st)
  | Some prev =>
      let '(pb, pe) := range_of prev in
      if (pb =? begin) && (pe =? end_) then
        let? ids := tail_ids prev in
        let? ids' := tail_ids log in
        Ok (if bool_decide (ids = ids')
            then mkAsm (a_files st) (a_problems st) (a_reach st)
                   (a_findings st ++ [FDuplicate (path_of prev) (path_of log)])
            else mkAsm (a_files st) (a_problems st ++ [PBothHold (path_of prev) (path_of log) begin end_])
                   (a_reach st) (a_findings st))
      else if begin <? pe then
        Ok (mkAsm (a_files st) (a_problems st ++ [POverlaps (path_of prev) pb pe (path_of log) begin end_])
              (if pe <? end_ then Some log else a_reach st) (a_findings st))
      else if pe <? begin then
        Ok (keep log [PHole pe begin (path_of prev) (path_of log)] st)
      else Ok (keep log [] st)
  end.

Fixpoint assemble_loop (logs : list L) (st : asm) : result asm :=
  match logs with
  | [] => Ok st
  | log :: logs => let? st := assemble_step st log in assemble_loop logs st
  end.

Definition assemble (logs : list L) (window : option (Z * Z)) (findings : list Finding)
    : result (option (Catalog L) * list Finding) :=
  let logs := sort_by_range (filter (fun l => in_window window l = true) logs) in
  let? st := assemble_loop logs (mkAsm [] [] None findings) in
  do? ensure (bool_decide (a_problems st = [])) (ENotContiguous (a_problems st)) ;;
  Ok (if bool_decide (a_files st = []) then None else Some (a_files st), a_findings st).

End Assemble.

(** ** File names *)

Inductive LogFile := LfShip (kind : LogKind) | LfBlocks.

#[export] Instance LogFile_eq_dec : EqDecision LogFile.
Proof. solve_decision. Defined.

Fixpoint strip_prefix (p s : string) : option string :=
  match p, s with
  | EmptyString, _ => Some s
  | String a p, String b s => if bool_decide (a = b) then strip_prefix p s else None
  | String _ _, EmptyString => None
  end.

Fixpoint strip_suffix (x s : string) : option string :=
  if bool_decide (s = x) then Some EmptyString
  else match s with
       | EmptyString => None
       | String c s => String c <$> strip_suffix x s
       end.

(** [split_once] at the first [c]. *)
Fixpoint split_once (c : Ascii.ascii) (s : string) : option (string * string) :=
  match s with
  | EmptyString => None
  | String x s =>
      if bool_decide (x = c) then Some (EmptyString, s)
      else match split_once c s with
           | Some (a, b) => Some (String x a, b)
           | None => None
           end
  end.

Definition digit (c : Ascii.ascii) : Z := Z.of_nat (Ascii.nat_of_ascii c) - 48.
Definition is_ascii_digit (c : Ascii.ascii) : bool := (0 <=? digit c) && (digit c <=? 9).

Fixpoint all_digits (s : string) : bool :=
  match s with
  | EmptyString => true
  | String c s => is_ascii_digit c && all_digits s
  end.

(** The number a run of digits denotes. *)
Fixpoint digits_val (acc : Z) (s : string) : Z :=
  match s with
  | EmptyString => acc
  | String c s => digits_val (acc * 10 + digit c) s
  end.

Definition block_number (digits : string) : option Z :=
  if negb (bool_decide (digits = EmptyString)) && all_digits digits
  then Some (Z.min (digits_val 0 digits) u64_max)
  else None.

Definition log_stems : list (LogFile * string) :=
  ((fun k => (LfShip k, stem k)) <$> LogKind_ALL) ++ [(LfBlocks, BLOCKS_STEM)].

Fixpoint find_stem (stems : list (LogFile * string)) (name : string) : option (LogFile * string) :=
  match stems with
  | [] => None
  | (file, prefix) :: rest =>
      match strip_prefix prefix name with
      | Some r => Some (file, r)
      | None => find_stem rest name
      end
  end.

Definition classify (name : string) : option (LogFile * option (Z * Z)) :=
  stem ← strip_suffix ".log" name;
  '(file, rest) ← find_stem log_stems stem;
  if bool_decide (rest = EmptyString) then Some (file, None)
  else
    rest ← strip_prefix "-" rest;
    '(first, last) ← split_once "-"%char rest;
    first ← block_number first;
    last ← block_number last;
    Some (file, Some (first, last)).

(** The decimal digits of a number, as [format!] writes a [u32], and the name the writer gives
    a retained file ([testkit/ship.rs], [retained_stem]). *)
Fixpoint dec_fuel (fuel : nat) (n : Z) (acc : string) : string :=
  match fuel with
  | O => acc
  | S fuel =>
      let acc := String (ascii_of_nat (Z.to_nat (48 + n mod 10))) acc in
      if n / 10 =? 0 then acc else dec_fuel fuel (n / 10) acc
  end.

Definition dec (n : Z) : string := dec_fuel (S (Z.to_nat (Z.log2 n))) n EmptyString.

Definition retained_stem (stem : string) (first last : Z) : string :=
  stem ++ "-" ++ dec first ++ "-" ++ dec last.

(** [Path::file_name]: the last component, unless it is [..]; empty and [.] components do not
    count. *)
Fixpoint components (cur : string) (s : string) : list string :=
  match s with
  | EmptyString => [cur]
  | String c s =>
      if bool_decide (c = "/"%char) then cur :: components EmptyString s
      else components (cur ++ String c EmptyString) s
  end.

Definition file_name (path : string) : option string :=
  let cs := filter (fun c => c <> EmptyString /\ c <> "."%string) (components EmptyString path) in
  match list.last cs with
  | Some c => if bool_decide (c = ".."%string) then None else Some c
  | None => None
  end.

Definition check_name (path : string) (held : Z * Z) (findings : list Finding) : list Finding :=
  match file_name path ≫= classify with
  | Some (_, Some (first, last)) =>
      let by_name := (first, sat_add64 last 1) in
      if bool_decide (by_name = held) then findings
      else
        let clamp n := Z.min n u32_max in
        findings ++ [FNameMismatch path (clamp by_name.1, clamp by_name.2) held]
  | _ => findings
  end.

Record PathPair := mkPair { pp_log : string; pp_index : string }.

(** ** Building the catalogs *)
Section Build.
Context (w : world) `{!FileSource w} (sha256 : bytes -> bytes).

Fixpoint open_ship_logs (pairs : list PathPair) (kind : LogKind) (logs : list ShipLog.t)
    (findings : list Finding) : result (list ShipLog.t * list Finding) :=
  match pairs with
  | [] => Ok (logs, findings)
  | p :: pairs =>
      let? o := ShipLog.open w (pp_log p) (pp_index p) kind in
      match o with
      | None => open_ship_logs pairs kind logs (findings ++ [FEmpty (pp_log p)])
      | Some log =>
          open_ship_logs pairs kind (logs ++ [log])
            (check_name (pp_log p) (ShipLog.range log) findings)
      end
  end.

Definition ship_catalog_within (pairs : list PathPair) (kind : LogKind) (window : option (Z * Z))
    : result (option (Catalog ShipLog.t) * list Finding) :=
  let? (logs, findings) := open_ship_logs pairs kind [] [] in
  assemble (Ranged0 := ShipLog_Ranged w) logs window findings.

Definition ship_catalog (pairs : list PathPair) (kind : LogKind) :=
  ship_catalog_within pairs kind None.

Fixpoint open_block_logs (pairs : list PathPair) (logs : list BlockLog.t)
    (findings : list Finding) : result (list BlockLog.t * list Finding) :=
  match pairs with
  | [] => Ok (logs, findings)
  | p :: pairs =>
      let? o := BlockLog.open w sha256 (pp_log p) (pp_index p) in
      match o with
      | None => open_block_logs pairs logs (findings ++ [FEmpty (pp_log p)])
      | Some log =>
          do? match head logs with
              | Some first =>
                  ensure (bool_decide (BlockLog.chain_id log = BlockLog.chain_id first))
                    (EOtherChain (pp_log p))
              | None => Ok ()
              end ;;
          open_block_logs pairs (logs ++ [log])
            (check_name (pp_log p) (BlockLog.range log) findings)
      end
  end.

Definition block_catalog_within (pairs : list PathPair) (window : option (Z * Z))
    : result (option (Catalog BlockLog.t) * list Finding) :=
  let? (logs, findings) := open_block_logs pairs [] [] in
  assemble (Ranged0 := BlockLog_Ranged w sha256) logs window findings.

Definition block_catalog (pairs : list PathPair) := block_catalog_within pairs None.

End Build.

(** ** Large entries *)
Section LargeEntries.
Context (w : world) `{!FileSource w} `{F : Flate}.

(** One slot of a page; [None] is the [continue]. *)
Definition entry_size (log : ShipLog.t) (h : EntryHeader.t) (threshold : Z) : result (option Z) :=
  match EntryHeader.uncompressed h with
  | Some size => Ok (Some size)
  | None =>
      if sat_mul64 (EntryHeader.data_len h) MAX_INFLATE_RATIO <=? threshold then Ok None
      else let? c := verify_count w log h u64_max in Ok (Some c)
  end.

Fixpoint scan_slots (log : ShipLog.t) (slots : list Z) (block threshold : Z) (found : list Finding)
    : result (list Finding) :=
  match slots with
  | [] => Ok found
  | pos :: slots =>
      let? h := ShipLog.header_at w log block pos in
      let? sz := entry_size log h threshold in
      let found :=
        match sz with
        | Some bytes =>
            if threshold <? bytes then found ++ [FLargeEntry (ShipLog.kind log) block bytes] else found
        | None => found
        end in
      scan_slots log slots (block + 1) threshold found
  end.

(** [while n < to]: every page moves [n] forward, so [to - n] pages are enough. *)
Fixpoint scan_pages (fuel : nat) (log : ShipLog.t) (n to threshold : Z) (found : list Finding)
    : result (list Finding) :=
  if n <? to then
    match fuel with
    | O => Panic
    | S fuel =>
        let count := Z.min (to - n) SCAN_PAGE in
        let? slots := ShipLog.positions w log n count in
        let? found := scan_slots log slots n threshold found in
        scan_pages fuel log (n + count) to threshold found
    end
  else Ok found.

Fixpoint scan_logs (logs : list ShipLog.t) (blocks : Z * Z) (threshold : Z) (found : list Finding)
    : result (list Finding) :=
  match logs with
  | [] => Ok found
  | log :: logs =>
      let '(begin, end_) := ShipLog.range log in
      let n := Z.max begin blocks.1 in
      let to := Z.min end_ blocks.2 in
      let? found := scan_pages (Z.to_nat (to - n)) log n to threshold found in
      scan_logs logs blocks threshold found
  end.

Definition large_entries (catalog : Catalog ShipLog.t) (blocks : Z * Z) (threshold : Z)
    : result (list Finding) := scan_logs catalog blocks threshold [].

End LargeEntries.

(** ** What [assemble] accepts *)
Section AssembleFacts.
Context {L : Type} `{!Ranged L}.
Implicit Types (x y z r : L) (l logs c : list L) (st : asm (L := L)).

(** [y] may follow [x] in block order: it is a copy of [x], or starts where [x] ends. *)
Definition joins x y : Prop :=
  (range_of y = range_of x /\ exists ids, tail_ids x = Ok ids /\ tail_ids y = Ok ids) \/
  (range_of y <> range_of x /\ (range_of y).1 = (range_of x).2).

Fixpoint linked l : Prop :=
  match l with
  | x :: (y :: _) as r => joins x y /\ linked r
  | _ => True
  end.

(** Each file starts where the one before it ends. *)
Fixpoint contiguous c : Prop :=
  match c with
  | x :: (y :: _) as r => (range_of y).1 = (range_of x).2 /\ contiguous r
  | _ => True
  end.

(** The first file of every run with the same range, and the copies reported. *)
Fixpoint firsts (prev : option L) l : list L :=
  match l with
  | [] => []
  | x :: l =>
      match prev with
      | Some p => if decide (range_of x = range_of p) then firsts prev l else x :: firsts (Some x) l
      | None => x :: firsts (Some x) l
      end
  end.

Fixpoint copies (prev : option L) l : list Finding :=
  match l with
  | [] => []
  | x :: l =>
      match prev with
      | Some p => if decide (range_of x = range_of p)
                  then FDuplicate (path_of p) (path_of x) :: copies prev l else copies (Some x) l
      | None => copies (Some x) l
      end
  end.

Lemma app_cons_not_nil_r {A} (l : list A) (a : A) : l ++ [a] <> [].
Proof. by destruct l. Qed.

(** One iteration, by how the log relates to the file reached so far. *)
Lemma assemble_step_spec st r x :
  a_reach st = Some r ->
  match assemble_step st x with
  | Ok st' =>
      (range_of x = range_of r /\ joins r x /\
         st' = mkAsm (a_files st) (a_problems st) (Some r)
                 (a_findings st ++ [FDuplicate (path_of r) (path_of x)])) \/
      (range_of x <> range_of r /\ joins r x /\ st' = keep x [] st) \/
      (~ joins r x /\ a_problems st' <> [] /\ exists p, a_problems st' = a_problems st ++ [p])
  | Err _ => ~ joins r x
  | Panic => ~ joins r x
  end.
Proof.
  intros Hr. unfold assemble_step. rewrite Hr.
  destruct (range_of x) as [b e] eqn:Hx. destruct (range_of r) as [pb pe] eqn:Hrr.
  unfold joins. rewrite Hx, Hrr. simpl.
  destruct (Z.eqb_spec pb b) as [->|Hpb]; [destruct (Z.eqb_spec pe e) as [->|Hpe]|]; simpl.
  - destruct (tail_ids r) as [ids|er|] eqn:Ht; [|naive_solver..].
    destruct (tail_ids x) as [ids'|er|] eqn:Ht'; [|naive_solver..]. simpl.
    destruct (bool_decide_reflect (ids = ids')) as [<-|Hne].
    + left. naive_solver.
    + right; right. split; [naive_solver|]. split; [apply app_cons_not_nil_r|eauto].
  - destruct (Z.ltb_spec b pe); [|destruct (Z.ltb_spec pe b)]; simpl.
    + right; right. split; [intros [[? _]|[_ ?]]; simplify_eq; lia|].
      split; [apply app_cons_not_nil_r|eauto].
    + right; right. split; [intros [[? _]|[_ ?]]; simplify_eq; lia|].
      split; [apply app_cons_not_nil_r|eauto].
    + right; left. split; [naive_solver|]. split; [|done]. right. split; [naive_solver|lia].
  - destruct (Z.ltb_spec b pe); [|destruct (Z.ltb_spec pe b)]; simpl.
    + right; right. split; [intros [[? _]|[_ ?]]; simplify_eq; lia|].
      split; [apply app_cons_not_nil_r|eauto].
    + right; right. split; [intros [[? _]|[_ ?]]; simplify_eq; lia|].
      split; [apply app_cons_not_nil_r|eauto].
    + right; left. split; [naive_solver|]. split; [|done]. right. split; [naive_solver|lia].
Qed.

(** A copy stands in for the original. *)
Lemma joins_copy r x y : range_of x = range_of r -> joins r x -> joins r y <-> joins x y.
Proof.
  intros Hr [[_ (ids & Hi & Hj)]|[? _]]; [|done]. unfold joins. rewrite Hr.
  split; (intros [[? (ids' & H1 & H2)]|?]; [left; split; [done|]; exists ids'; split; [congruence|done]|by right]).
Qed.

Lemma linked_copy r x l : range_of x = range_of r -> joins r x -> linked (r :: l) <-> linked (x :: l).
Proof. intros Hr Hj. destruct l as [|y l]; [done|]. cbn [linked]. by rewrite (joins_copy r x y Hr Hj). Qed.

Lemma assemble_loop_linked logs st r :
  a_reach st = Some r -> linked (r :: logs) ->
  exists last, assemble_loop logs st =
    Ok (mkAsm (a_files st ++ firsts (Some r) logs) (a_problems st) (Some last)
          (a_findings st ++ copies (Some r) logs)).
Proof.
  revert st r; induction logs as [|x logs IH]; intros st r Hr Hl.
  - exists r. simpl. rewrite !app_nil_r. destruct st; simpl in *. by subst.
  - destruct Hl as [Hj Hl]. cbn [assemble_loop firsts copies].
    pose proof (assemble_step_spec st r x Hr) as Hs.
    destruct (assemble_step st x) as [st'|e|]; [|done|done]. cbn [rbind].
    destruct Hs as [(He & _ & ->)|[(Hne & _ & ->)|(Hn & _)]]; [| |done].
    + rewrite !decide_True by done. apply (linked_copy r x logs He Hj) in Hl.
      match goal with |- context [assemble_loop logs ?s] => destruct (IH s r eq_refl Hl) as [last ->] end.
      exists last. simpl. by rewrite <- app_assoc.
    + rewrite !decide_False by done. unfold keep.
      match goal with |- context [assemble_loop logs ?s] => destruct (IH s x eq_refl Hl) as [last ->] end.
      exists last. simpl. by rewrite <- app_assoc, app_nil_r.
Qed.

(** Problems are never dropped, so a loop that ends without any had linked files. *)
Lemma assemble_loop_problems logs st st' r :
  a_reach st = Some r -> assemble_loop logs st = Ok st' ->
  (a_problems st' = [] -> a_problems st = [] /\ linked (r :: logs)) /\
  (a_problems st <> [] -> a_problems st' <> []).
Proof.
  revert st r; induction logs as [|x logs IH]; intros st r Hr H; cbn [assemble_loop] in H.
  { apply Ok_inj in H as <-. done. }
  bind H as st1 H1. pose proof (assemble_step_spec st r x Hr) as Hs. rewrite H1 in Hs.
  destruct Hs as [(He & Hj & ->)|[(Hne & Hj & ->)|(Hn & Hp & (p & Hp'))]].
  - match type of H with assemble_loop _ ?s = _ => destruct (IH s r eq_refl H) as [Ha Hb] end. simpl in *. split; [|done]. intros H0.
    destruct (Ha H0) as [? Hl]. split; [done|]. split; [done|]. by apply (linked_copy r x logs He Hj).
  - match type of H with assemble_loop _ ?s = _ => destruct (IH s x eq_refl H) as [Ha Hb] end. simpl in *. rewrite app_nil_r in *. split; [|done].
    intros H0. destruct (Ha H0) as [? Hl]. done.
  - assert (Hreach : exists r', a_reach st1 = Some r').
    { unfold assemble_step in H1. rewrite Hr in H1. destruct (range_of x), (range_of r).
      destruct (_ && _).
      - res_inv. subst. destruct (bool_decide _); eauto.
      - repeat case_match; simplify_eq; simpl; eauto. }
    destruct Hreach as [r' Hr']. destruct (IH _ r' Hr' H) as [_ Hb]. split; [|auto].
    intros H0. exfalso. by apply Hb.
Qed.

(** Every file in block order, kept or reported as a copy of a kept one. *)
Lemma firsts_cover r l x :
  linked (r :: l) -> x ∈ l ->
  x ∈ firsts (Some r) l \/
  exists k ids, (k = r \/ k ∈ firsts (Some r) l) /\ range_of x = range_of k /\
    tail_ids k = Ok ids /\ tail_ids x = Ok ids /\ FDuplicate (path_of k) (path_of x) ∈ copies (Some r) l.
Proof.
  revert r; induction l as [|y l IH]; intros r Hl Hx; [by apply elem_of_nil in Hx|].
  destruct Hl as [Hj Hl]. cbn [firsts copies]. destruct (decide (range_of y = range_of r)) as [He|Hne].
  - apply (linked_copy r y l He Hj) in Hl.
    apply elem_of_cons in Hx as [->|Hx].
    + right. destruct Hj as [[_ (ids & H1 & H2)]|[? _]]; [|done]. exists r, ids.
      split; [by left|]. split; [done|]. split; [done|]. split; [done|]. by left.
    + destruct (IH r Hl Hx) as [?|(k & ids & ? & ? & ? & ? & ?)]; [by left|right].
      exists k, ids. split_and!; try done. by right.
  - apply elem_of_cons in Hx as [->|Hx]; [left; by left|].
    destruct (IH y Hl Hx) as [?|(k & ids & Hk & ? & ? & ? & ?)]; [left; by right|right].
    exists k, ids. split_and!; try done. destruct Hk as [->|?]; right; [by left|by right].
Qed.

Lemma firsts_contiguous r l : linked (r :: l) -> contiguous (r :: firsts (Some r) l).
Proof.
  revert r; induction l as [|y l IH]; intros r Hl; [done|]. destruct Hl as [Hj Hl]. cbn [firsts].
  destruct (decide (range_of y = range_of r)) as [He|Hne].
  - apply IH. by apply (linked_copy r y l He Hj).
  - split; [|by apply IH]. destruct Hj as [[? _]|[_ ?]]; [done|]. done.
Qed.

Lemma firsts_subset p l x : x ∈ firsts p l -> x ∈ l.
Proof.
  revert p; induction l as [|y l IH]; intros p Hx; [done|]. cbn [firsts] in Hx.
  destruct p as [p|]; [destruct (decide _)|]; [right; eauto|..];
    apply elem_of_cons in Hx as [->|Hx]; (by left) || (right; eauto).
Qed.

(** *** The sort *)

Lemma insert_by_range_perm x l : insert_by_range x l ≡ₚ x :: l.
Proof.
  induction l as [|y l IH]; cbn [insert_by_range]; [done|]. destruct (range_le _ _); [done|].
  rewrite IH. apply Permutation_swap.
Qed.

Lemma sort_by_range_perm l : sort_by_range l ≡ₚ l.
Proof. induction l as [|x l IH]; cbn [sort_by_range]; [done|]. by rewrite insert_by_range_perm, IH. Qed.

(** The files considered, in block order. *)
Definition in_order logs (window : option (Z * Z)) : list L :=
  sort_by_range (filter (fun x : L => in_window window x = true) logs).

Lemma assemble_iff logs window fs oc fs' :
  assemble logs window fs = Ok (oc, fs') <->
  let l := in_order logs window in
  linked l /\ oc = (if decide (l = []) then None else Some (firsts None l)) /\ fs' = fs ++ copies None l.
Proof.
  unfold assemble. fold (in_order logs window). destruct (in_order logs window) as [|x l].
  - simpl. rewrite app_nil_r. naive_solver.
  - cbn [assemble_loop]. unfold assemble_step at 1. destruct (range_of x) as [b e] eqn:Hx. cbn [a_reach rbind].
    cbv zeta. rewrite decide_False by done. cbn [firsts copies]. unfold keep. simpl. split.
    + intros H. bind H as st Hst. guard H as Hp. apply bool_decide_eq_true in Hp.
      match type of Hst with assemble_loop _ ?s = _ =>
        destruct (assemble_loop_problems l s st x eq_refl Hst) as [Hl _] end.
      destruct (Hl Hp) as [_ Hlk]. split; [exact Hlk|].
      match type of Hst with assemble_loop _ ?s = _ =>
        destruct (assemble_loop_linked l s x eq_refl Hlk) as [last Hok] end.
      rewrite Hst in Hok. apply Ok_inj in Hok as ->. simpl in H. injection H as <- <-. done.
    + intros (Hlk & -> & ->).
      match goal with |- context [assemble_loop _ ?s] =>
        destruct (assemble_loop_linked l s x eq_refl Hlk) as [last ->] end.
      done.
Qed.

Lemma firsts_None_contiguous l : linked l -> contiguous (firsts None l).
Proof. destruct l as [|x l]; [done|]. apply firsts_contiguous. Qed.

Lemma firsts_None_cover l x :
  linked l -> x ∈ l ->
  x ∈ firsts None l \/
  exists k ids, k ∈ firsts None l /\ range_of x = range_of k /\ tail_ids k = Ok ids /\ tail_ids x = Ok ids /\
    FDuplicate (path_of k) (path_of x) ∈ copies None l.
Proof.
  destruct l as [|y l]; intros Hl Hx; [by apply elem_of_nil in Hx|]. cbn [firsts copies].
  apply elem_of_cons in Hx as [->|Hx]; [left; by left|].
  destruct (firsts_cover y l x Hl Hx) as [?|(k & ids & Hk & ? & ? & ? & ?)]; [left; by right|right].
  exists k, ids. split_and!; try done. destruct Hk as [->|?]; [by left|by right].
Qed.

Lemma in_order_elem logs window x : x ∈ in_order logs window <-> x ∈ logs /\ in_window window x = true.
Proof.
  unfold in_order. rewrite (elem_of_Permutation_proper _ _ _ (sort_by_range_perm _)).
  rewrite list_elem_of_filter. tauto.
Qed.

(** ** Looking a block up *)

Definition holds x (n : Z) : Prop := (range_of x).1 <= n < (range_of x).2.

Lemma partition_point_spec {A} (p : A -> bool) (s : list A) :
  (forall i a, (i < partition_point p s)%nat -> s !! i = Some a -> p a = true) /\
  (forall a, s !! partition_point p s = Some a -> p a = false) /\ (partition_point p s <= length s)%nat.
Proof.
  induction s as [|a0 s (IH1 & IH2 & IH3)]; simpl; [split_and!; [lia|done|lia]|].
  destruct (p a0) eqn:Hy; simpl; split_and!; try lia.
  - intros [|i] a Hi Hx; simpl in Hx; [naive_solver|]. eapply IH1; [|done]. lia.
  - done.
  - intros a Hx. simpl in Hx. naive_solver.
Qed.

Definition nonempty_files c : Prop := Forall (fun x => (range_of x).1 < (range_of x).2) c.

Lemma contiguous_order c i j x y :
  contiguous c -> nonempty_files c -> c !! i = Some x -> c !! j = Some y -> (i < j)%nat ->
  (range_of x).2 <= (range_of y).1.
Proof.
  revert i j x y; induction c as [|z c IH]; intros i j x y Hc Hn Hi Hj Hij; [done|].
  destruct j as [|j]; [lia|]. simpl in Hj. apply Forall_cons_1 in Hn as [Hz Hn].
  destruct c as [|z' c]; [done|]. destruct Hc as [Hzz Hc]. destruct i as [|i].
  - injection Hi as ->. destruct j as [|j].
    + injection Hj as ->. lia.
    + pose proof (Forall_cons_1 _ _ _ Hn) as [Hz' _].
      pose proof (IH 0%nat (S j) _ _ Hc Hn eq_refl Hj ltac:(lia)). lia.
  - apply (IH i j _ _ Hc Hn Hi Hj). lia.
Qed.

(** What [get] returns is a file of the catalog holding the block, in any catalog. *)
Lemma catalog_get_member c n x : catalog_get c n = Some x -> x ∈ c /\ holds x n.
Proof.
  unfold catalog_get, holds.
  destruct (partition_point_spec (fun f => (range_of f).1 <=? n) c) as (H1 & _ & _).
  set (k := partition_point _ c) in *. clearbody k. destruct k as [|k]; [done|]. cbv iota beta.
  destruct (c !! k) as [y|] eqn:Hk; [|done]. destruct (Z.ltb_spec n (range_of y).2); [|done].
  intros [= <-]. split; [by eapply list_elem_of_lookup_2|]. specialize (H1 k y ltac:(lia) Hk). bools. lia.
Qed.

Lemma catalog_get_iff c n x :
  contiguous c -> nonempty_files c -> catalog_get c n = Some x <-> x ∈ c /\ holds x n.
Proof.
  intros Hc Hn. split; [apply catalog_get_member|]. unfold catalog_get, holds.
  destruct (partition_point_spec (fun f => (range_of f).1 <=? n) c) as (H1 & H2 & H3).
  set (k := partition_point _ c) in *. clearbody k.
  - intros [Hx Hr]. apply list_elem_of_lookup_1 in Hx as [i Hi].
    assert (Hik : k = S i).
    { destruct (lt_eq_lt_dec k (S i)) as [[Hlt|]|Hgt]; [|done|].
      - destruct (lookup_lt_is_Some_2 c k) as [y Hy].
        { apply lookup_lt_Some in Hi. lia. }
        pose proof (H2 y Hy) as Hf. bools. destruct (decide (k = i)) as [->|Hki]; [simplify_eq; lia|].
        pose proof (contiguous_order c k i y x Hc Hn Hy Hi ltac:(lia)).
        pose proof (Forall_lookup_1 _ _ _ _ Hn Hy). simpl in *. lia.
      - destruct (lookup_lt_is_Some_2 c (k - 1)) as [y Hy]; [lia|].
        pose proof (H1 (k - 1)%nat y ltac:(lia) Hy) as Hf. bools.
        pose proof (contiguous_order c i (k - 1) x y Hc Hn Hi Hy ltac:(lia)). lia. }
    subst k. rewrite Hi. destruct (Z.ltb_spec n (range_of x).2); [done|lia].
Qed.

Lemma catalog_covers c b e n :
  contiguous c -> nonempty_files c -> catalog_range c = Ok (b, e) -> b <= n < e ->
  exists x, x ∈ c /\ holds x n.
Proof.
  revert b; induction c as [|x c IH]; intros b Hc Hn Hr Hb; [done|].
  unfold catalog_range in Hr. bind Hr as f Hf. injection Hf as <-. bind Hr as g Hg.
  injection Hr as <- <-. destruct c as [|y c].
  - injection Hg as <-. exists x. split; [by left|done].
  - destruct Hc as [Hxy Hc]. apply Forall_cons_1 in Hn as [Hx Hn].
    destruct (Z.lt_ge_cases n (range_of x).2) as [Hlt|Hge].
    + exists x. split; [by left|]. unfold holds. lia.
    + destruct (IH (range_of y).1 Hc Hn) as (z & Hz & Hh).
      * unfold catalog_range. cbn [list.head or_panic rbind]. cbn [list.last] in Hg. by rewrite Hg.
      * lia.
      * exists z. split; [by right|done].
Qed.

Lemma catalog_range_bounds c b e x :
  contiguous c -> nonempty_files c -> catalog_range c = Ok (b, e) -> x ∈ c ->
  b <= (range_of x).1 /\ (range_of x).2 <= e.
Proof.
  intros Hc Hn Hr Hx. unfold catalog_range in Hr. bind Hr as f Hf. bind Hr as g Hg. injection Hr as <- <-.
  apply or_panic_Ok in Hf, Hg. apply list_elem_of_lookup_1 in Hx as [i Hi].
  rewrite head_lookup in Hf. rewrite last_lookup in Hg. apply lookup_lt_Some in Hi as Hlt.
  pose proof (Forall_lookup_1 _ _ _ _ Hn Hf) as Hfn. pose proof (Forall_lookup_1 _ _ _ _ Hn Hi) as Hin.
  simpl in *. split.
  - destruct i as [|i]; [simplify_eq; lia|].
    pose proof (contiguous_order c 0 (S i) f x Hc Hn Hf Hi ltac:(lia)). lia.
  - destruct (decide (i = pred (length c))) as [->|Hne]; [simplify_eq; lia|].
    pose proof (contiguous_order c i (pred (length c)) x g Hc Hn Hi Hg ltac:(lia)).
    pose proof (Forall_lookup_1 _ _ _ _ Hn Hg). simpl in *. lia.
Qed.

End AssembleFacts.

(** ** Names *)

Lemma append_cons c (a b : string) : (String c a ++ b = String c (a ++ b))%string.
Proof. done. Qed.

Lemma append_nil (b : string) : (EmptyString ++ b = b)%string.
Proof. done. Qed.

Lemma length_append (a b : string) : String.length (a ++ b)%string = (String.length a + String.length b)%nat.
Proof. induction a as [|c a IH]; [done|]. rewrite append_cons. cbn [String.length]. lia. Qed.

Lemma digit_of_nat d : 0 <= d <= 9 -> digit (ascii_of_nat (Z.to_nat (48 + d))) = d.
Proof. intros H. unfold digit. rewrite nat_ascii_embedding by lia. lia. Qed.

Lemma is_digit_of_nat d : 0 <= d <= 9 -> is_ascii_digit (ascii_of_nat (Z.to_nat (48 + d))) = true.
Proof. intros H. unfold is_ascii_digit. rewrite digit_of_nat by done. case_bools; simpl; lia || done. Qed.

Lemma dec_fuel_spec f n acc :
  0 <= n < 2 ^ Z.of_nat f -> (0 < f)%nat -> all_digits acc = true ->
  all_digits (dec_fuel f n acc) = true /\ dec_fuel f n acc <> EmptyString /\
  digits_val 0 (dec_fuel f n acc) = digits_val n acc.
Proof.
  revert n acc; induction f as [|f IH]; intros n acc Hn Hf Ha; [lia|]. cbn [dec_fuel].
  pose proof (Z.mod_pos_bound n 10 eq_refl) as Hm. pose proof (Z.div_mod n 10 ltac:(lia)) as Hdm.
  destruct (Z.eqb_spec (n / 10) 0) as [Hz|Hz].
  - cbn [all_digits digits_val]. rewrite is_digit_of_nat, Ha, digit_of_nat by lia.
    split; [done|]. split; [done|]. f_equal. lia.
  - assert (Hd : 0 <= n / 10) by (apply Z.div_pos; lia).
    assert (Hlt : n / 10 < 2 ^ Z.of_nat f).
    { rewrite Nat2Z.inj_succ, Z.pow_succ_r in Hn by lia. apply Z.div_lt_upper_bound; lia. }
    destruct (IH (n / 10) (String (ascii_of_nat (Z.to_nat (48 + n mod 10))) acc)) as (H1 & H2 & H3).
    + lia.
    + destruct f; [simpl in Hlt; lia|lia].
    + cbn [all_digits]. by rewrite is_digit_of_nat, Ha by lia.
    + split; [done|]. split; [done|]. rewrite H3. cbn [digits_val]. rewrite digit_of_nat by lia.
      f_equal. lia.
Qed.

Lemma dec_spec n :
  0 <= n -> all_digits (dec n) = true /\ dec n <> EmptyString /\ digits_val 0 (dec n) = n.
Proof.
  intros Hn. apply dec_fuel_spec; [|lia|done]. split; [done|].
  rewrite Nat2Z.inj_succ, Z2Nat.id by apply Z.log2_nonneg.
  destruct (Z.eq_dec n 0) as [->|]; [done|]. apply Z.log2_spec. lia.
Qed.

Lemma block_number_dec n : is_u64 n -> block_number (dec n) = Some n.
Proof.
  intros [H0 Hu]. destruct (dec_spec n H0) as (Ha & Hne & Hv). unfold block_number.
  rewrite bool_decide_false, Ha, Hv by done. simpl. f_equal. unfold u64_max. lia.
Qed.

Lemma digit_not c x : is_ascii_digit c = true -> is_ascii_digit x = false -> c <> x.
Proof. congruence. Qed.

Lemma split_once_digits a b :
  all_digits a = true -> split_once "-"%char (a ++ "-" ++ b) = Some (a, b).
Proof.
  induction a as [|c a IH]; intros Ha; [done|]. simpl in Ha. apply andb_true_iff in Ha as [Hc Ha].
  rewrite append_cons. cbn [split_once].
  rewrite bool_decide_false by (by apply digit_not). by rewrite IH.
Qed.

Lemma strip_suffix_app x a : strip_suffix x (a ++ x) = Some a.
Proof.
  induction a as [|c a IH].
  - rewrite append_nil. destruct x; cbn [strip_suffix]; by rewrite bool_decide_true.
  - rewrite append_cons. cbn [strip_suffix]. rewrite bool_decide_false; [by rewrite IH|].
    intros H. apply (f_equal String.length) in H. cbn [String.length] in H.
    rewrite length_append in H. lia.
Qed.

Lemma classify_retained k first last :
  is_u64 first -> is_u64 last ->
  classify (retained_stem (stem k) first last ++ ".log") = Some (LfShip k, Some (first, last)).
Proof.
  intros Hf Hl. unfold classify. rewrite strip_suffix_app. cbn [mbind option_bind].
  assert (Hs : find_stem log_stems (retained_stem (stem k) first last)
    = Some (LfShip k, ("-" ++ dec first ++ "-" ++ dec last)%string)) by (by destruct k).
  rewrite Hs. cbn [mbind option_bind]. rewrite bool_decide_false by done.
  rewrite append_cons, append_nil. cbn [strip_prefix]. rewrite bool_decide_true by done.
  cbn [mbind option_bind].
  destruct (dec_spec first (proj1 Hf)) as (Ha & _ & _).
  rewrite split_once_digits by done.
  cbn [mbind option_bind]. by rewrite !block_number_dec.
Qed.

(** Components of a path whose last part has no separator. *)
Fixpoint no_slash (s : string) : bool :=
  match s with
  | EmptyString => true
  | String c s => negb (bool_decide (c = "/"%char)) && no_slash s
  end.

Lemma no_slash_app a b : no_slash (a ++ b) = no_slash a && no_slash b.
Proof. induction a as [|c a IH]; [done|]. rewrite append_cons. cbn [no_slash]. by rewrite IH, andb_assoc. Qed.

Lemma string_app_assoc (a b c : string) : ((a ++ b) ++ c = a ++ b ++ c)%string.
Proof. induction a as [|x a IH]; [done|]. by rewrite !append_cons, IH. Qed.

Lemma components_last cur name : no_slash name = true -> components cur name = [(cur ++ name)%string].
Proof.
  revert cur; induction name as [|c name IH]; intros cur H; simpl in H.
  - cbn [components]. f_equal. induction cur as [|x cur IHc]; [done|]. by rewrite append_cons, <- IHc.
  - apply andb_true_iff in H as [Hc H]. apply negb_true_iff, bool_decide_eq_false in Hc.
    cbn [components]. rewrite bool_decide_false, IH, string_app_assoc by done. by rewrite append_cons, append_nil.
Qed.

Lemma components_dir cur dir name :
  no_slash name = true -> exists l, components cur (dir ++ "/" ++ name) = l ++ [name].
Proof.
  intros H. revert cur; induction dir as [|c dir IH]; intros cur.
  - exists [cur]. rewrite append_nil, append_cons, append_nil. cbn [components].
    rewrite bool_decide_true by done. by rewrite components_last.
  - rewrite append_cons. cbn [components]. destruct (bool_decide (c = _)).
    + destruct (IH EmptyString) as [l ->]. by exists (cur :: l).
    + apply IH.
Qed.

Lemma file_name_in dir name :
  no_slash name = true -> name <> EmptyString -> name <> "."%string -> name <> ".."%string ->
  file_name (dir ++ "/" ++ name) = Some name.
Proof.
  intros Hs H1 H2 H3. unfold file_name. destruct (components_dir EmptyString dir name Hs) as [l ->].
  rewrite list.filter_app, list.filter_cons_True by done. rewrite list.filter_nil, last_snoc.
  by rewrite bool_decide_false.
Qed.

Lemma all_digits_no_slash s : all_digits s = true -> no_slash s = true.
Proof.
  induction s as [|c s IH]; [done|]. simpl. intros [Hc H]%andb_true_iff.
  rewrite bool_decide_false by (by apply digit_not). by apply IH.
Qed.

(** ** Large entries *)
Section LargeFacts.
Context (w : world) `{!FileSource w} `{F : Flate} (zlib : bytes -> option bytes) `{L : !FlateLaws F zlib}.

(** No zlib stream inflates to more than 1032 bytes per byte of it. *)
Hypothesis zlib_ratio : forall x y, zlib x = Some y -> blen y <= MAX_INFLATE_RATIO * blen x.

(** What the scan stands for: every block through the index, every undeclared size inflated. *)
Definition entry_bytes (log : ShipLog.t) (h : EntryHeader.t) : result Z :=
  match EntryHeader.uncompressed h with
  | Some size => Ok size
  | None => verify_count w log h u64_max
  end.

Fixpoint scan_ref (log : ShipLog.t) (k : nat) (n threshold : Z) (found : list Finding)
    : result (list Finding) :=
  match k with
  | O => Ok found
  | S k =>
      let? h := ShipLog.header w log n in
      let? b := entry_bytes log h in
      scan_ref log k (n + 1) threshold
        (if threshold <? b then found ++ [FLargeEntry (ShipLog.kind log) n b] else found)
  end.

Fixpoint large_ref (logs : list ShipLog.t) (blocks : Z * Z) (threshold : Z) (found : list Finding)
    : result (list Finding) :=
  match logs with
  | [] => Ok found
  | log :: logs =>
      let n := Z.max (ShipLog.begin log) blocks.1 in
      let to := Z.min (ShipLog.end_ log) blocks.2 in
      let? found := scan_ref log (Z.to_nat (to - n)) n threshold found in
      large_ref logs blocks threshold found
  end.

Lemma scan_ref_app log j k n threshold found r :
  scan_ref log (j + k) n threshold found = Ok r <->
  exists m, scan_ref log j n threshold found = Ok m /\ scan_ref log k (n + Z.of_nat j) threshold m = Ok r.
Proof.
  revert n found; induction j as [|j IH]; intros n found; cbn [Nat.add scan_ref].
  - rewrite Z.add_0_r. naive_solver.
  - replace (n + Z.of_nat (S j)) with (n + 1 + Z.of_nat j) by lia.
    destruct (ShipLog.header w log n) as [h|e|]; cbn [rbind]; [|naive_solver..].
    destruct (entry_bytes log h) as [b|e|]; cbn [rbind]; [apply IH|naive_solver..].
Qed.

Section OneLog.
Context (log : ShipLog.t) (f g : PosFile.t) (d ix : bytes) (Hr : ready w log f g d ix).

(** A stream too short to reach the threshold does not reach it. *)
Lemma entry_size_ref h n pos b threshold :
  0 <= pos -> read_header w f n pos = Ok h -> entry_bytes log h = Ok b ->
  exists o, entry_size w log h threshold = Ok o /\
    (o = Some b \/ o = None /\ b <= threshold).
Proof.
  intros Hpos Hh Hb. unfold entry_bytes in Hb. unfold entry_size.
  destruct (EntryHeader.uncompressed h) as [size|] eqn:Hu; [injection Hb as <-; eauto|].
  destruct (Z.leb_spec (sat_mul64 (EntryHeader.data_len h) MAX_INFLATE_RATIO) threshold) as [Hle|Hgt].
  - exists None. split; [done|]. right. split; [done|].
    assert (Hlf : ShipLog.log_file w log = Ok f) by (eapply log_file_eq; apply Hr).
    pose proof (verify_count_spec w zlib log h f d n pos Hlf (rd_d _ _ _ _ _ _ Hr) Hpos Hh u64_max
      ltac:(width_lia)) as Hv.
    rewrite Hb in Hv. destruct Hv as (y & -> & [Hz _] & Hy).
    destruct (header_data w h f d n pos (rd_d _ _ _ _ _ _ Hr) Hpos Hh) as (data & Hsl & Hlen & _).
    unfold stored in Hz. rewrite Hsl in Hz. simpl in Hz. apply zlib_ratio in Hz.
    rewrite Hlen in Hle. unfold sat_mul64 in Hle. lia.
  - rewrite Hb. simpl. eauto.
Qed.

Lemma scan_slots_ref slots n threshold found r :
  ShipLog.begin log <= n -> n + blen slots <= ShipLog.end_ log ->
  (forall i : nat, (i < length slots)%nat ->
     slots !! i = le_of <$> slice ix ((n + Z.of_nat i - ShipLog.begin log) * 8) 8) ->
  scan_ref log (length slots) n threshold found = Ok r ->
  scan_slots w log slots n threshold found = Ok r.
Proof.
  revert n found; induction slots as [|pos slots IH]; intros n found Hn Hto Hsl H; [done|].
  cbn [length scan_ref] in H. cbn [scan_slots]. rewrite blen_cons in Hto. pose proof (blen_nonneg slots).
  destruct (header_slot w log f g d ix (rd_log _ _ _ _ _ _ Hr) (rd_index _ _ _ _ _ _ Hr) (rd_d _ _ _ _ _ _ Hr)
    (rd_ix _ _ _ _ _ _ Hr) (rd_size _ _ _ _ _ _ Hr) (rd_slots _ _ _ _ _ _ Hr) n ltac:(lia)) as (s & Hs & Hh).
  pose proof (Hsl 0%nat ltac:(simpl; lia)) as Hp0. simpl in Hp0. rewrite Z.add_0_r, Hs in Hp0. injection Hp0 as ->.
  rewrite (header_at_eq w log f d) by (apply Hr || lia). rewrite <- Hh. bind H as h Hh'. bind H as b Hb.
  rewrite Hh'. cbn [rbind]. rewrite Hh' in Hh. symmetry in Hh.
  destruct (entry_size_ref h n (le_of s) b threshold ltac:(apply le_of_range) Hh Hb) as (o & -> & Ho).
  cbn [rbind]. apply IH; [lia|lia| |].
  - intros i Hi. specialize (Hsl (S i) ltac:(simpl; lia)). simpl in Hsl. rewrite Hsl. do 3 f_equal. lia.
  - destruct Ho as [->|[-> Hle]]; [done|]. rewrite (proj2 (Z.ltb_ge _ _)) in H by lia. done.
Qed.

Lemma scan_pages_ref fuel n to threshold found r :
  ShipLog.begin log <= n -> to <= ShipLog.end_ log -> to - n <= Z.of_nat fuel ->
  scan_ref log (Z.to_nat (to - n)) n threshold found = Ok r ->
  scan_pages w fuel log n to threshold found = Ok r.
Proof.
  revert n found; induction fuel as [|fuel IH]; intros n found Hn Hto Hf H; cbn [scan_pages].
  - destruct (Z.ltb_spec n to); [lia|]. replace (Z.to_nat (to - n)) with 0%nat in H by lia. exact H.
  - destruct (Z.ltb_spec n to) as [Hlt|Hge].
    2: { replace (Z.to_nat (to - n)) with 0%nat in H by lia. exact H. }
    set (count := Z.min (to - n) SCAN_PAGE). assert (Hc : 0 < count <= to - n) by (unfold count, SCAN_PAGE; lia).
    destruct (positions_slots w log g ix (rd_index _ _ _ _ _ _ Hr) (rd_ix _ _ _ _ _ _ Hr) (rd_slots _ _ _ _ _ _ Hr)
      n count Hn ltac:(lia) ltac:(lia) (rd_end _ _ _ _ _ _ Hr)) as (ps & -> & Hl & Hps).
    cbn [rbind]. unfold blen in Hl.
    replace (Z.to_nat (to - n)) with (length ps + Z.to_nat (to - (n + count)))%nat in H by lia.
    apply scan_ref_app in H as (m & H1 & H2).
    rewrite (scan_slots_ref ps n threshold found m); [|lia|unfold blen; lia| |done].
    + cbn [rbind]. apply IH; [lia|done|lia|]. by rewrite Hl in H2.
    + intros i Hi. apply Hps. lia.
Qed.

End OneLog.

Lemma scan_logs_ref logs blocks threshold found r :
  Forall (fun l => ShipLog.open w (ShipLog.log l) (ShipLog.index l) (ShipLog.kind l) = Ok (Some l)) logs ->
  large_ref logs blocks threshold found = Ok r -> scan_logs w logs blocks threshold found = Ok r.
Proof.
  intros Hl. revert found; induction Hl as [|log logs Ho Hl IH]; intros found H; [done|].
  cbn [large_ref scan_logs] in *. destruct (ShipLog.range log) as [b e] eqn:Hrg. injection Hrg as <- <-.
  bind H as m Hm. apply open_ready in Ho as (_ & _ & _ & f & g & d & ix & Hr).
  rewrite (scan_pages_ref log f g d ix Hr _ _ _ _ _ m); [cbn [rbind]; by apply IH|lia|lia|lia|done].
Qed.

End LargeFacts.

(** ** What a built catalog is made of *)
Section BuildFacts.
Context (w : world) `{!FileSource w}.

Definition reopens (l : ShipLog.t) : Prop :=
  ShipLog.open w (ShipLog.log l) (ShipLog.index l) (ShipLog.kind l) = Ok (Some l).

Lemma open_ship_logs_spec pairs kind logs fs logs' fs' :
  Forall (fun l => reopens l /\ ShipLog.kind l = kind) logs ->
  open_ship_logs w pairs kind logs fs = Ok (logs', fs') ->
  Forall (fun l => reopens l /\ ShipLog.kind l = kind) logs'.
Proof.
  revert logs fs; induction pairs as [|p pairs IH]; intros logs fs Hl H; cbn [open_ship_logs] in H.
  - by injection H as <- _.
  - bind H as o Ho. destruct o as [log|]; [|by eapply IH].
    eapply IH; [|done]. apply Forall_app. split; [done|]. constructor; [|done].
    pose proof (open_ready w _ _ _ _ Ho) as (E1 & E2 & E3 & _). unfold reopens. by rewrite E1, E2, E3.
Qed.

Lemma reopens_nonempty l : reopens l -> ShipLog.begin l < ShipLog.end_ l.
Proof. intros H. apply open_ready in H as (_ & _ & _ & f & g & d & ix & Hr). apply (rd_range _ _ _ _ _ _ Hr). Qed.

Lemma ship_catalog_sound pairs kind window c fs :
  ship_catalog_within w pairs kind window = Ok (Some c, fs) ->
  contiguous (Ranged0 := ShipLog_Ranged w) c /\ nonempty_files (Ranged0 := ShipLog_Ranged w) c /\
  Forall (fun l => reopens l /\ ShipLog.kind l = kind) c /\ c <> [].
Proof.
  unfold ship_catalog_within. intros H. bind H as lf Hlf. destruct lf as [logs fs0].
  apply open_ship_logs_spec in Hlf; [|constructor].
  apply assemble_iff in H as (Hl & Hc & _). destruct (decide _) as [|Hne]; [done|]. injection Hc as ->.
  set (lo := in_order _ _) in *.
  assert (Hin : forall x, x ∈ firsts None lo -> reopens x /\ ShipLog.kind x = kind).
  { intros x Hx%firsts_subset. apply in_order_elem in Hx as [Hx _]. apply list_elem_of_lookup_1 in Hx as [i Hi].
    apply (Forall_lookup_1 _ _ _ _ Hlf Hi). }
  split; [by apply firsts_None_contiguous|]. split; [|split].
  - apply Forall_lookup_2. intros i x Hx%list_elem_of_lookup_2. apply Hin in Hx as [Hx _]. simpl.
    by apply reopens_nonempty.
  - apply Forall_lookup_2. intros i x Hx%list_elem_of_lookup_2. by apply Hin.
  - destruct lo; [done|]. done.
Qed.

End BuildFacts.

(** ** Properties *)

(** C14: [assemble] succeeds exactly when, in block order, every file of the window is an
    identical copy of the one before it or starts where it ends. The catalog is then the first
    file of each run of copies: contiguous, made of files that were given, with every file of the
    window in it or reported as a duplicate of one with the same blocks and the same first and
    last ids. *)
Theorem assemble_exact (L : Type) (R : Ranged L) (logs : list L) (window : option (Z * Z))
    (fs fs' : list Finding) (oc : option (Catalog L)) :
  (assemble logs window fs = Ok (oc, fs') <->
     linked (in_order logs window) /\
     oc = (if decide (in_order logs window = []) then None
           else Some (firsts None (in_order logs window))) /\
     fs' = fs ++ copies None (in_order logs window)) /\
  (forall c, assemble logs window fs = Ok (Some c, fs') ->
     contiguous c /\
     (forall x, x ∈ c -> x ∈ logs /\ in_window window x = true) /\
     (forall x, x ∈ logs -> in_window window x = true ->
        x ∈ c \/ exists k ids, k ∈ c /\ range_of x = range_of k /\ tail_ids k = Ok ids /\
          tail_ids x = Ok ids /\ FDuplicate (path_of k) (path_of x) ∈ fs')).
Proof.
  split; [apply assemble_iff|]. intros c Ha. apply assemble_iff in Ha as (Hl & Hc & ->).
  destruct (decide _) as [|Hne]; [done|]. injection Hc as ->.
  split; [by apply firsts_None_contiguous|]. split.
  - intros x Hx%firsts_subset. by apply in_order_elem.
  - intros x Hx Hw. destruct (firsts_None_cover (in_order logs window) x Hl) as [?|(k & ids & ? & ? & ? & ? & ?)];
      [by apply in_order_elem|by left|right].
    exists k, ids. split_and!; try done. set_solver.
Qed.

(** Three files for the example, the second and third copies of each other. *)
Definition toy_ranged : Ranged (string * (Z * Z)) :=
  {| range_of := snd; path_of := fst; tail_ids _ := Ok ([], []) |}.

Lemma assemble_exact_witness :
  let R := toy_ranged in
  let logs := [("c", (20, 30)); ("a", (10, 20)); ("b", (20, 30))]%string in
  assemble logs None [] = Ok (Some [("a", (10, 20)); ("c", (20, 30))]%string, [FDuplicate "c" "b"]) /\
  contiguous [("a", (10, 20)); ("c", (20, 30))]%string.
Proof.
  intros R logs.
  assert (H : assemble logs None []
    = Ok (Some [("a", (10, 20)); ("c", (20, 30))]%string, [FDuplicate "c" "b"])) by (by vm_compute).
  split; [exact H|]. apply (assemble_exact _ R logs None [] [FDuplicate "c" "b"] None). exact H.
Defined.

(** A catalog built from state-history logs serves one contiguous range and finds the file
    of a block exactly: [get n] returns a file if and only if [n] is in the catalog's range, and
    then it is the one file of the catalog that holds [n], a log the strict reader opened. *)
Lemma ship_catalog_lookup (w : world) (S : FileSource w) (pairs : list PathPair) (kind : LogKind)
    (window : option (Z * Z)) (c : Catalog ShipLog.t) (fs : list Finding) (b e n : Z)
    (Hc : ship_catalog_within w pairs kind window = Ok (Some c, fs))
    (Hr : catalog_range (Ranged0 := ShipLog_Ranged w) c = Ok (b, e)) :
  (forall l, catalog_get (Ranged0 := ShipLog_Ranged w) c n = Some l <->
     l ∈ c /\ ShipLog.begin l <= n < ShipLog.end_ l) /\
  (is_Some (catalog_get (Ranged0 := ShipLog_Ranged w) c n) <-> b <= n < e) /\
  Forall (fun l => ShipLog.open w (ShipLog.log l) (ShipLog.index l) kind = Ok (Some l)) c.
Proof.
  apply ship_catalog_sound in Hc as (Hct & Hne & Hop & Hnil).
  assert (Hget : forall l, catalog_get (Ranged0 := ShipLog_Ranged w) c n = Some l <->
     l ∈ c /\ ShipLog.begin l <= n < ShipLog.end_ l) by (intros l; by apply (catalog_get_iff (Ranged0 := ShipLog_Ranged w) c n l)).
  split; [done|]. split.
  - split.
    + intros [l Hl]. apply Hget in Hl as [Hl Hh].
      apply (catalog_range_bounds (Ranged0 := ShipLog_Ranged w) c b e l Hct Hne Hr) in Hl. simpl in Hl. lia.
    + intros Hn. destruct (catalog_covers (Ranged0 := ShipLog_Ranged w) c b e n Hct Hne Hr Hn) as (l & Hl & Hh). exists l. by apply Hget.
  - eapply Forall_impl; [|exact Hop]. intros l [H <-]. exact H.
Qed.

Lemma ship_catalog_lookup_witness :
  let S := direct_source exi_world exi_world_ok in
  ship_catalog_within exi_world [mkPair "log" "index"] Trace None = Ok (Some [exi_ship], []) /\
  is_Some (catalog_get (Ranged0 := ShipLog_Ranged exi_world) [exi_ship] 6).
Proof.
  intros S.
  assert (H : ship_catalog_within exi_world [mkPair "log" "index"] Trace None = Ok (Some [exi_ship], []))
    by (by vm_compute).
  split; [exact H|].
  destruct (ship_catalog_lookup exi_world S [mkPair "log" "index"] Trace None [exi_ship] [] 5 7 6 H eq_refl)
    as (_ & Hs & _).
  apply Hs. lia.
Defined.

(** The names the writer gives retained files mean what they say. [classify] reads
    [<stem>-<first>-<last>.log] back as that log and those blocks, in decimal, for any numbers,
    and [check_name] on such a file, in any directory, reports a mismatch exactly when the file
    holds other blocks than [first..=last], leaving the other findings alone. *)
Lemma retained_names (k : LogKind) (first last : Z) (dir : string) (held : Z * Z) (fs : list Finding)
    (Hf : is_u32 first) (Hl : is_u32 last) :
  let name := (retained_stem (stem k) first last ++ ".log")%string in
  let path := (dir ++ "/" ++ name)%string in
  classify name = Some (LfShip k, Some (first, last)) /\
  check_name path held fs =
    if decide (held = (first, last + 1)) then fs
    else fs ++ [FNameMismatch path (first, Z.min (last + 1) u32_max) held].
Proof.
  intros name path. assert (Hf' : is_u64 first) by width_lia. assert (Hl' : is_u64 last) by width_lia.
  pose proof (classify_retained k first last Hf' Hl') as Hc. fold name in Hc. split; [done|].
  unfold check_name, path. rewrite file_name_in.
  - cbn [mbind option_bind]. rewrite Hc. unfold sat_add64. rewrite Z.min_l by width_lia. cbv zeta. cbn [fst snd].
    rewrite (Z.min_l first) by width_lia.
    destruct (decide (held = (first, last + 1))) as [->|Hne]; [by rewrite bool_decide_true|].
    rewrite bool_decide_false by congruence. done.
  - unfold name, retained_stem. destruct (dec_spec first (proj1 Hf)) as (Hd1 & _).
    destruct (dec_spec last (proj1 Hl)) as (Hd2 & _). apply all_digits_no_slash in Hd1, Hd2.
    rewrite !no_slash_app, Hd1, Hd2. by destruct k.
  - by destruct k.
  - by destruct k.
  - by destruct k.
Qed.

Lemma retained_names_witness :
  classify "chain_state_history-2-4294967295.log" = Some (LfShip ChainState, Some (2, u32_max)) /\
  check_name "/d/trace_history-2-20.log" (2, 22) [] =
    [FNameMismatch "/d/trace_history-2-20.log" (2, 21) (2, 22)].
Proof.
  split.
  - apply (retained_names ChainState 2 u32_max "" (0, 0) []); done.
  - apply (retained_names Trace 2 20 "/d" (2, 22) []); done.
Defined.

(** [large_entries] reports what reading every header through the index and inflating every
    entry of undeclared size would report, in block order: reading the index in pages of 1024
    slots changes nothing, and an entry whose stream is too short to reach the threshold (at 1032
    bytes per byte, the most deflate expands) is skipped without inflating it only when it does
    not reach it. *)
Lemma large_entries_exact (w : world) (S : FileSource w) (F : Flate) (zlib : bytes -> option bytes)
    (FL : FlateLaws F zlib) (c : Catalog ShipLog.t) (blocks : Z * Z) (threshold : Z) (fs : list Finding)
    (Hratio : forall x y, zlib x = Some y -> blen y <= MAX_INFLATE_RATIO * blen x)
    (Hc : Forall (fun l => ShipLog.open w (ShipLog.log l) (ShipLog.index l) (ShipLog.kind l) = Ok (Some l)) c)
    (Href : large_ref w c blocks threshold [] = Ok fs) :
  large_entries w c blocks threshold = Ok fs.
Proof. by apply (scan_logs_ref w zlib). Qed.

Lemma stored_blocks_shrink f b t q : stored_blocks f b = Some (t, q) -> blen t + blen q + 5 <= blen b.
Proof.
  revert b t q; induction f as [|f IH]; intros b t q; [done|].
  destruct b as [|fin [|l0 [|l1 [|n0 [|n1 r]]]]]; try done. cbn [stored_blocks]. cbv zeta.
  generalize (le_of [l0; l1]) as len, (le_of [n0; n1]) as nlen. intros len nlen.
  destruct ((_ =? _) && _); [|done]. destruct (slice r 0 len) as [dat|] eqn:Hs; [|done].
  pose proof (slice_blen _ _ _ _ Hs) as Ld. apply slice_Some in Hs as (_ & H0 & Hr & _).
  rewrite !blen_cons. destruct (b2z fin =? 1).
  - intros [= <- <-]. rewrite blen_drop by lia. lia.
  - destruct (stored_blocks f _) as [[t' q']|] eqn:Hf; [|done]. intros [= <- <-].
    apply IH in Hf. rewrite blen_drop in Hf by lia. rewrite blen_app. lia.
Qed.

Lemma zlib_level0_ratio x y : zlib_level0 x = Some y -> blen y <= MAX_INFLATE_RATIO * blen x.
Proof.
  intros H. apply zlib_level0_Some in H. unfold zlib_parse in H.
  destruct x as [|b0 x]; [done|]. destruct b0; try done. destruct x as [|b1 r]; [done|]. destruct b1; try done.
  destruct (stored_blocks (length r) r) as [[t q]|] eqn:Hs; [|done]. apply stored_blocks_shrink in Hs.
  unfold check_adler in H. repeat case_match; simplify_eq. simpl in *.
  rewrite !blen_cons. pose proof (blen_nonneg t). pose proof (blen_nonneg q). unfold MAX_INFLATE_RATIO. lia.
Qed.

Lemma large_entries_exact_witness :
  let S := direct_source exi_world exi_world_ok in
  large_entries (F := level0) exi_world [exi_ship] (0, 100) 2 = Ok [FLargeEntry Trace 5 3].
Proof.
  intros S.
  apply (large_entries_exact exi_world S level0 zlib_level0 level0_laws [exi_ship] (0, 100) 2
    [FLargeEntry Trace 5 3] zlib_level0_ratio).
  - apply Forall_cons_2; [by vm_compute|by apply Forall_nil_2].
  - by vm_compute.
Defined.
