(* ===== verification/Fetch.v ===== *)
(** * Jobs, packages and the memory budget ([crates/ship-archive/src/fetch.rs])

    What a session owes ([Job], [Window]), what it sends ([Part], [Package]), the bounds on what
    is held, and [MemoryBudget]: the lock-free counter all sessions reserve from. [try_reserve] is
    a compare-and-swap loop, so it is modelled at the grain of its atomic operations, each thread
    with a program counter, and the invariant is proved for every interleaving. The [Prefetcher],
    which needs the store, is in [Prefetch.v]. *)

From S2P Require Import Prelude.
From S2P Require Import Errors.
From S2P Require Import Protocol.
From S2P Require Import ShipLog.
From S2P Require Import Zlib.
From S2P Require Import Inflate.

Definition SESSION_BUFFERS : Z := Z.shiftl 4 20 + Z.shiftl 256 10.
Definition BASE_ALLOWANCE : Z := 256.

(** ** Jobs *)
Record Flags := mkFlags { fl_block : bool; fl_traces : bool; fl_deltas : bool; fl_finality : bool }.

#[export] Instance Flags_eq_dec : EqDecision Flags.
Proof. solve_decision. Defined.

(** [Flags::of]. *)
Definition flags_of (r : BlocksReq) : Flags :=
  mkFlags (rq_fetch_block r) (rq_fetch_traces r) (rq_fetch_deltas r)
    (rq_v1 r && rq_fetch_finality_data r).

Record Job := mkJob { j_generation : Z; j_n : Z; j_v1 : bool; j_flags : Flags }.

#[export] Instance Job_eq_dec : EqDecision Job.
Proof. solve_decision. Defined.

Record Window := mkWindow { win_first : option Job; win_count : Z }.

Definition Window_default : Window := mkWindow None 0.

(** [Window::job]; [first.n + i] is a [u32] addition. *)
Definition window_job (w : Window) (i : Z) : option Job :=
  first ← win_first w;
  if i <? win_count w
  then Some (mkJob (j_generation first) (add32 (j_n first) i) (j_v1 first) (j_flags first))
  else None.

(** ** Limits *)
Record FetchLimits := mkLimits { stream_threshold : Z }.

Definition package_bound (l : FetchLimits) (max_block : Z) : Z :=
  sat_add64 (sat_add64 (sat_mul64 (stream_threshold l) 3) max_block) BASE_ALLOWANCE.

Definition package_cap (l : FetchLimits) : Z := package_bound l MAX_BLOCK_BYTES.

Definition worst_case_bytes (memory_budget sessions : Z) (l : FetchLimits) (max_block : Z) : Z :=
  let per_session := sat_add64 (package_bound l max_block) SESSION_BUFFERS in
  sat_add64 memory_budget (sat_mul64 per_session sessions).

(** ** Packages *)
Record Streamed := mkStreamed { st_log : ShipLog.t; st_header : EntryHeader.t; st_len : Z }.

Inductive Part := Absent | Inline (data : vec) | PStreamed (s : Streamed).

Definition payload_len (p : Part) : option Z :=
  match p with
  | Absent => None
  | Inline data => Some (blen (v_data data))
  | PStreamed s => Some (st_len s)
  end.

(** The capacities of the buffers of the base and of the block are kept beside their bytes. *)
Record Package := mkPackage {
  pk_job : Job;
  pk_base : bytes;
  pk_base_capacity : Z;
  pk_block : option bytes;
  pk_block_capacity : Z;
  pk_parts : list Part
}.

Definition part_held (p : Part) : Z := match p with Inline data => v_cap data | _ => 0 end.

Definition held (p : Package) : Z :=
  pk_base_capacity p + from_option (fun _ => pk_block_capacity p) 0 (pk_block p) +
  foldr Z.add 0 (part_held <$> pk_parts p).

(** ** MemoryBudget *)
Record MemoryBudget := mkBudget { capacity : Z; used : Z; peak : Z; refused : Z }.

Definition budget_new (capacity : Z) : MemoryBudget := mkBudget capacity 0 0 0.

(** Where a thread is: about to load [used]; at the top of the loop with what it saw; past a
    successful exchange, about to update [peak]; past a refusal, about to count it; refused;
    holding a [Reservation] of [bytes]; having dropped it. *)
Inductive pc :=
| PLoad (bytes : Z)
| PLoop (bytes seen : Z)
| PPeak (bytes next : Z)
| PRefuse
| PNone
| PHold (bytes : Z)
| PDropped.

(** What a thread may do next: go on inside [try_reserve] (its weak exchange may fail
    spuriously), or, holding a reservation, shrink or drop it. *)
Inductive act := Go (spurious : bool) | Shrink (bytes : Z) | Drop.

Definition set_used (b : MemoryBudget) (u : Z) : MemoryBudget :=
  mkBudget (capacity b) u (peak b) (refused b).

(** [used.checked_add(bytes).filter(|&n| n <= self.capacity)]. *)
Definition fits (b : MemoryBudget) (seen bytes : Z) : option Z :=
  next ← checked_add64 seen bytes;
  if next <=? capacity b then Some next else None.

(** One atomic step of a thread. *)
Definition tstep (a : act) (b : MemoryBudget) (p : pc) : option (MemoryBudget * pc) :=
  match a, p with
  | Go _, PLoad bytes => Some (b, PLoop bytes (used b))
  | Go spurious, PLoop bytes seen =>
      match fits b seen bytes with
      | None => Some (b, PRefuse)
      | Some next =>
          if (used b =? seen) && negb spurious
          then Some (set_used b next, PPeak bytes next)
          else Some (b, PLoop bytes (used b))
      end
  | Go _, PPeak bytes next =>
      Some (mkBudget (capacity b) (used b) (Z.max (peak b) next) (refused b), PHold bytes)
  | Go _, PRefuse => Some (mkBudget (capacity b) (used b) (peak b) (add64 (refused b) 1), PNone)
  | Shrink bytes, PHold have =>
      if bytes <? have then Some (set_used b (sub64 (used b) (have - bytes)), PHold bytes)
      else Some (b, PHold have)
  | Drop, PHold have => Some (set_used b (sub64 (used b) have), PDropped)
  | _, _ => None
  end.

(** [try_reserve] run by one thread with no other in between: each element says whether the
    exchange of that step, if it is one, fails spuriously. *)
Fixpoint run_alone (spurious : list bool) (b : MemoryBudget) (p : pc) : option (MemoryBudget * pc) :=
  match spurious, p with
  | _, (PHold _ | PNone | PDropped) => Some (b, p)
  | [], _ => Some (b, p)
  | s :: rest, _ => '(b, p) ← tstep (Go s) b p; run_alone rest b p
  end.

(** The budget and the threads using it, with the most that was ever reserved at once. *)
Record bsys := mkSys { s_budget : MemoryBudget; s_threads : list pc; s_most : Z }.

Inductive bstep : bsys -> bsys -> Prop :=
| bstep_call b ts m bytes : is_u64 bytes -> bstep (mkSys b ts m) (mkSys b (ts ++ [PLoad bytes]) m)
| bstep_thread b l p r m a b' p' :
    (forall n, a = Shrink n -> is_u64 n) ->
    tstep a b p = Some (b', p') ->
    bstep (mkSys b (l ++ p :: r) m) (mkSys b' (l ++ p' :: r) (Z.max m (used b'))).

Definition bsteps : bsys -> bsys -> Prop := rtc bstep.

(** ** The budget is never exceeded *)

(** What a thread has taken from [used]. *)
Definition reserved (p : pc) : Z :=
  match p with PPeak bytes _ | PHold bytes => bytes | _ => 0 end.

(** The total a thread reached but has not yet published in [peak]. *)
Definition pending (p : pc) : Z := match p with PPeak _ next => next | _ => 0 end.

Definition zsum (f : pc -> Z) (ts : list pc) : Z := foldr (fun p acc => f p + acc) 0 ts.
Definition zmax (f : pc -> Z) (ts : list pc) : Z := foldr (fun p acc => Z.max (f p) acc) 0 ts.

Lemma zsum_mid f l p r : zsum f (l ++ p :: r) = zsum f l + f p + zsum f r.
Proof.
  unfold zsum. induction l as [|x l IH]; simpl; [lia|]. rewrite IH. lia.
Qed.

Lemma zmax_mid f l p r : zmax f (l ++ p :: r) = Z.max (f p) (Z.max (zmax f l) (zmax f r)).
Proof.
  unfold zmax. induction l as [|x l IH]; simpl; [|rewrite IH; lia].
  assert (0 <= foldr (fun p acc => Z.max (f p) acc) 0 r) by (induction r; simpl; lia). lia.
Qed.

Lemma zmax_nonneg f l : 0 <= zmax f l.
Proof. unfold zmax. induction l; simpl; lia. Qed.

Lemma zmax_zero f l : Forall (fun p => f p = 0) l -> zmax f l = 0.
Proof. unfold zmax. induction 1 as [|p l Hp _ IH]; simpl; [done|]. by rewrite Hp, IH. Qed.

(** The sizes a thread carries are [u64]s. *)
Definition pc_ok (p : pc) : Prop :=
  match p with
  | PLoad bytes | PHold bytes => is_u64 bytes
  | PLoop bytes seen => is_u64 bytes /\ is_u64 seen
  | PPeak bytes next => is_u64 bytes /\ is_u64 next
  | _ => True
  end.

Definition refusals (p : pc) : Z := match p with PNone => 1 | _ => 0 end.

Record budget_inv (cap : Z) (s : bsys) : Prop := {
  bi_cap : capacity (s_budget s) = cap;
  bi_pcs : Forall pc_ok (s_threads s);
  bi_used : used (s_budget s) = zsum reserved (s_threads s);
  bi_fits : 0 <= used (s_budget s) <= s_most s;
  bi_most : s_most s <= cap;
  bi_peak : 0 <= peak (s_budget s);
  bi_published : s_most s = Z.max (peak (s_budget s)) (zmax pending (s_threads s));
  bi_refused : refused (s_budget s) = zsum refusals (s_threads s) mod U64
}.

Lemma reserved_nonneg ts : Forall pc_ok ts -> 0 <= zsum reserved ts.
Proof.
  unfold zsum. induction 1 as [|p ts Hp _ IH]; simpl; [lia|].
  destruct p; simpl in *; width_lia.
Qed.

Lemma fits_Some b seen bytes next :
  fits b seen bytes = Some next <-> next = seen + bytes /\ next < U64 /\ next <= capacity b.
Proof.
  unfold fits. destruct (checked_add64 seen bytes) as [n|] eqn:H; simpl.
  - apply checked_add64_Some in H as [-> H]. case_bools; naive_solver lia.
  - unfold checked_add64 in H. split; [done|]. intros (-> & Hn & _).
    destruct (Z.ltb_spec (seen + bytes) U64); [done|lia].
Qed.

Lemma budget_init cap : is_u64 cap -> budget_inv cap (mkSys (budget_new cap) [] 0).
Proof. intros H. constructor; simpl; try done; width_lia. Qed.

Lemma bstep_inv cap s s' : is_u64 cap -> budget_inv cap s -> bstep s s' -> budget_inv cap s'.
Proof.
  intros Hcap [Hc Hp Hu Hf Hm Hk Hpub Hr] Hs.
  destruct Hs as [b ts m bytes Hb|b l p r m a b' p' Ha Ht]; simpl in *.
  - constructor; simpl; try done.
    + apply Forall_app. split; [done|]. constructor; [done|constructor].
    + rewrite (zsum_mid reserved ts _ []). unfold zsum at 2. simpl. lia.
    + rewrite (zmax_mid pending ts _ []). unfold zmax at 2. simpl. pose proof (zmax_nonneg pending ts). lia.
    + rewrite (zsum_mid refusals ts _ []), Hr. unfold zsum at 3. simpl. f_equal. lia.
  - apply Forall_app in Hp as [Hl Hp]. apply Forall_cons_iff in Hp as [Hpp Hpr].
    pose proof (reserved_nonneg _ Hl) as Nl. pose proof (reserved_nonneg _ Hpr) as Nr.
    pose proof (zmax_nonneg pending l) as Xl. pose proof (zmax_nonneg pending r) as Xr.
    rewrite zsum_mid in Hu, Hr. rewrite zmax_mid in Hpub.
    assert (Hsub : forall x, 0 <= x <= used b -> sub64 (used b) x = used b - x).
    { intros x Hx. unfold sub64, wrap64. apply Z.mod_small. width_lia. }
    destruct a as [sp|n|], p as [bytes|bytes seen|bytes next| | |have|]; simpl in *; try done;
      repeat case_match; simplify_eq; bools; simpl in *;
      try match goal with H : fits _ _ _ = Some _ |- _ => apply fits_Some in H as (-> & ? & ?) end.
    all: try (specialize (Ha _ eq_refl)).
    all: try (rewrite Hsub by width_lia).
    all: constructor; simpl; rewrite ?zsum_mid, ?zmax_mid; simpl; try done; try width_lia.
    all: try (apply Forall_app; split; [done|]; constructor; [simpl; width_lia|done]).
    all: try (rewrite Hr; f_equal; lia).
    rewrite Hr. unfold add64, wrap64. rewrite Zplus_mod_idemp_l. f_equal. lia.
Qed.

Lemma bsteps_inv cap s : is_u64 cap -> bsteps (mkSys (budget_new cap) [] 0) s -> budget_inv cap s.
Proof.
  intros Hcap H. pose proof (budget_init cap Hcap) as Hi. revert Hi.
  induction H as [|s s1 s2 H1 _ IH]; [done|]. intros Hi. by apply IH, (bstep_inv cap s).
Qed.

(** ** One reservation *)

Lemma run_alone_spurious k b bytes seen rest next :
  fits b seen bytes = Some next -> seen = used b ->
  run_alone (replicate k true ++ rest) b (PLoop bytes seen) = run_alone rest b (PLoop bytes seen).
Proof.
  intros Hf ->. induction k as [|k IH]; [done|]. simpl. rewrite Hf, andb_false_r. simpl. exact IH.
Qed.

Lemma run_alone_none l b : run_alone l b PNone = Some (b, PNone).
Proof. by destruct l. Qed.

(** ** Theorems *)

(** C13: whatever the interleaving of sessions reserving, shrinking and dropping, the budget's
    [used] is exactly the sum of the live reservations and never exceeds the capacity; no
    subtraction wraps; the number of refusals is counted; and [peak] is the most that was ever
    reserved at once, as soon as no thread stands between its exchange and its update of [peak]. *)
Theorem budget_never_exceeded (cap : Z) (s : bsys) (Hcap : is_u64 cap)
    (Hs : bsteps (mkSys (budget_new cap) [] 0) s) :
  let b := s_budget s in
  used b = zsum reserved (s_threads s) /\ 0 <= used b <= cap /\ peak b <= s_most s <= cap /\
  (Forall (fun p => pending p = 0) (s_threads s) -> peak b = s_most s) /\
  refused b = zsum refusals (s_threads s) mod U64.
Proof.
  destruct (bsteps_inv cap s Hcap Hs) as [Hc Hp Hu Hf Hm Hk Hpub Hr]. simpl.
  split_and!; try done; try lia. intros Hz. rewrite Hpub.
  rewrite (zmax_zero _ _ Hz). lia.
Qed.

(** Two sessions share 10 bytes: one reserves 7, the other is refused 5, the first shrinks to 3. *)
Lemma budget_never_exceeded_witness :
  let s := mkSys (mkBudget 10 3 7 1) [PHold 3; PNone] 7 in
  used (s_budget s) = 3 /\ peak (s_budget s) = s_most s.
Proof.
  set (s := mkSys _ _ _).
  assert (Hs : bsteps (mkSys (budget_new 10) [] 0) s).
  { eapply rtc_l; [apply (bstep_call _ _ _ 7); by vm_compute|].
    eapply rtc_l; [apply (bstep_thread _ [] (PLoad 7) [] _ (Go false)); [done|reflexivity]|].
    eapply rtc_l; [apply (bstep_call _ _ _ 5); by vm_compute|].
    eapply rtc_l; [apply (bstep_thread _ [] _ [PLoad 5] _ (Go true)); [done|reflexivity]|].
    eapply rtc_l; [apply (bstep_thread _ [] _ [PLoad 5] _ (Go false)); [done|reflexivity]|].
    eapply rtc_l; [apply (bstep_thread _ [PPeak 7 7] (PLoad 5) [] _ (Go false)); [done|reflexivity]|].
    eapply rtc_l; [apply (bstep_thread _ [] _ [PLoop 5 7] _ (Go false)); [done|reflexivity]|].
    eapply rtc_l; [apply (bstep_thread _ [PHold 7] (PLoop 5 7) [] _ (Go false)); [done|reflexivity]|].
    eapply rtc_l; [apply (bstep_thread _ [PHold 7] PRefuse [] _ (Go false)); [done|reflexivity]|].
    eapply rtc_l; [apply (bstep_thread _ [] _ [PNone] _ (Shrink 3)); [|reflexivity]|].
    { intros n [= <-]. by vm_compute. }
    apply rtc_refl. }
  destruct (budget_never_exceeded 10 s ltac:(by vm_compute) Hs) as (_ & _ & _ & Hp & _).
  split; [done|]. apply Hp. repeat constructor.
Defined.

(** [try_reserve] running alone, whatever its spurious exchange failures, succeeds exactly
    when the bytes fit in what is free, without overflow, and takes just those; otherwise it
    takes nothing and counts a refusal. Dropping what it returned gives everything back. *)
Lemma try_reserve_exact (b : MemoryBudget) (bytes : Z) (k : nat)
    (Hu : 0 <= used b <= capacity b) (Hc : is_u64 (capacity b)) (Hb : is_u64 bytes) :
  let steps := false :: replicate k true ++ [false; false] in
  if used b + bytes <=? capacity b then
    let b' := mkBudget (capacity b) (used b + bytes) (Z.max (peak b) (used b + bytes)) (refused b) in
    run_alone steps b (PLoad bytes) = Some (b', PHold bytes) /\
    exists b'', tstep Drop b' (PHold bytes) = Some (b'', PDropped) /\ used b'' = used b
  else
    run_alone steps b (PLoad bytes) =
      Some (mkBudget (capacity b) (used b) (peak b) (add64 (refused b) 1), PNone).
Proof.
  intros steps. unfold steps. cbn [run_alone tstep mbind option_bind].
  destruct (Z.leb_spec (used b + bytes) (capacity b)) as [H|H].
  - assert (Hf : fits b (used b) bytes = Some (used b + bytes)) by (apply fits_Some; width_lia).
    rewrite (run_alone_spurious k b bytes (used b) _ (used b + bytes)) by done.
    cbn [run_alone tstep]. rewrite Hf, Z.eqb_refl. split; [done|]. eexists. split; [done|].
    simpl. unfold sub64, wrap64. rewrite Z.add_simpl_r. apply Z.mod_small. width_lia.
  - assert (Hf : fits b (used b) bytes = None).
    { destruct (fits b (used b) bytes) eqn:Hf; [|done]. apply fits_Some in Hf. lia. }
    destruct k as [|k]; cbn [replicate app run_alone tstep]; rewrite Hf; [done|].
    cbn [mbind option_bind]. destruct k; simpl; by rewrite ?run_alone_none.
Qed.

Lemma try_reserve_exact_witness :
  run_alone [false; true; false; false] (budget_new 10) (PLoad 7) = Some (mkBudget 10 7 7 0, PHold 7).
Proof.
  refine (proj1 (try_reserve_exact (budget_new 10) 7 1 _ _ _)); vm_compute; intuition congruence.
Defined.
