(* ===== verification/Pages.v ===== *)
(** * The index pages of a session ([crates/ship-archive/src/store.rs], [PageCache])

    One page of index slots per log kind. Builds of one session run at once and share the cache:
    [slot] takes the lock twice, once to look a slot up and once to replace a page it read outside
    the lock, so the two critical sections are separate definitions and the theorem quantifies over
    every cache any sequence of such replacements can leave. *)

From S2P Require Import Prelude.
From S2P Require Import Errors.
From S2P Require Import Binio.
From S2P Require Import ShipLog.
From S2P Require Import Zlib.
From S2P Require Import Inflate.

Definition INDEX_PAGE : Z := 1024.

#[export] Instance ShipLog_eq_dec : EqDecision ShipLog.t.
Proof. solve_decision. Defined.

Record Page := mkPage { pg_log : ShipLog.t; pg_first : Z; pg_slots : list Z }.

(** [[Option<Page>; 3]]. *)
Abbreviation PageCache := (list (option Page)).

Definition PageCache_default : PageCache := [None; None; None].

Definition kind_slot (k : LogKind) : nat :=
  match k with Trace => 0 | ChainState => 1 | Finality => 2 end.

Section Ops.
Context (w : world) `{!FileSource w}.

(** The first critical section of [slot]: the slot, when the kind's page holds it. The logs of a
    catalog are immutable and shared, so [Arc::ptr_eq] is equality of what they point to. *)
Definition slot_hit (kind : LogKind) (log : ShipLog.t) (n : Z) (c : PageCache) : option (result Z) :=
  match c !! kind_slot kind with
  | Some (Some p) =>
      if bool_decide (pg_log p = log) && (pg_first p <=? n) &&
         (n - pg_first p <? wrap32 (blen (pg_slots p)))
      then Some (or_panic (pg_slots p !! Z.to_nat (n - pg_first p)))
      else None
  | _ => None
  end.

(** The page of block [n], read outside the lock, and the block's slot. *)
Definition slot_read (log : ShipLog.t) (n : Z) : result (Z * Page) :=
  let '(begin, end_) := ShipLog.range log in
  do? ensure ((begin <=? n) && (n <? end_)) (EPageOutside n begin end_) ;;
  let first := begin + (n - begin) / INDEX_PAGE * INDEX_PAGE in
  let? slots := ShipLog.positions w log first (Z.min (end_ - first) INDEX_PAGE) in
  let? pos := or_panic (slots !! Z.to_nat (n - first)) in
  Ok (pos, mkPage log first slots).

(** The second critical section: the page replaces the kind's page. *)
Definition slot_fill (kind : LogKind) (p : Page) (c : PageCache) : PageCache :=
  <[kind_slot kind := Some p]> c.

Definition slot (kind : LogKind) (log : ShipLog.t) (n : Z) : M err PageCache Z := fun c =>
  match slot_hit kind log n c with
  | Some r => (r, c)
  | None =>
      match slot_read log n with
      | Ok (pos, p) => (Ok pos, slot_fill kind p c)
      | Err e => (Err e, c)
      | Panic => (Panic, c)
      end
  end.

(** [PageCache::header]. *)
Definition page_header (kind : LogKind) (log : ShipLog.t) (n : Z) : M err PageCache EntryHeader.t :=
  let! pos := slot kind log n in
  slift (ShipLog.header_at w log n pos).

(** What the builds of a session can do to their cache: replace a page with one they read. *)
Inductive pstep : PageCache -> PageCache -> Prop :=
| pstep_fill kind log n pos p c :
    slot_read log n = Ok (pos, p) -> pstep c (slot_fill kind p c).

Definition psteps : PageCache -> PageCache -> Prop := rtc pstep.

(** A page is what one [positions] call returned. *)
Definition page_ok (p : Page) : Prop :=
  ShipLog.begin (pg_log p) <= pg_first p /\ pg_first p < ShipLog.end_ (pg_log p) /\
  ShipLog.positions w (pg_log p) (pg_first p)
    (Z.min (ShipLog.end_ (pg_log p) - pg_first p) INDEX_PAGE) = Ok (pg_slots p).

Definition pages_ok (c : PageCache) : Prop :=
  length c = 3%nat /\ forall i p, c !! i = Some (Some p) -> page_ok p.

Lemma page_first log n :
  ShipLog.begin log <= n ->
  ShipLog.begin log <= ShipLog.begin log + (n - ShipLog.begin log) / INDEX_PAGE * INDEX_PAGE <= n /\
  n - (ShipLog.begin log + (n - ShipLog.begin log) / INDEX_PAGE * INDEX_PAGE) < INDEX_PAGE.
Proof.
  intros H. unfold INDEX_PAGE. pose proof (Z.div_mod (n - ShipLog.begin log) 1024 ltac:(done)).
  pose proof (Z.mod_pos_bound (n - ShipLog.begin log) 1024 ltac:(done)).
  pose proof (Z.div_pos (n - ShipLog.begin log) 1024 ltac:(lia) ltac:(done)). lia.
Qed.

Lemma slot_read_ok log n pos p :
  slot_read log n = Ok (pos, p) ->
  page_ok p /\ pg_log p = log /\ pg_first p <= n /\ pg_slots p !! Z.to_nat (n - pg_first p) = Some pos.
Proof.
  unfold slot_read, ShipLog.range. intros H. guard H as Hn. bools. cbv zeta in H.
  bind H as slots Hs. bind H as q Hq. apply or_panic_Ok in Hq. injection H as <- <-.
  destruct (page_first log n ltac:(done)). unfold page_ok. simpl. split_and!; try done; lia.
Qed.

Lemma slot_fill_ok kind p c : page_ok p -> pages_ok c -> pages_ok (slot_fill kind p c).
Proof.
  intros Hp [Hl Hc]. unfold slot_fill. split; [by rewrite length_insert|]. intros i q Hi.
  apply list_lookup_insert_Some in Hi as [(_ & Hq & _)|[_ Hi]]; [by simplify_eq|eauto].
Qed.

Lemma psteps_ok c : psteps PageCache_default c -> pages_ok c.
Proof.
  intros H. assert (Hd : pages_ok PageCache_default).
  { split; [done|]. intros i p Hi. by destruct i as [|[|[|i]]]. }
  revert Hd. induction H as [|c c1 c2 Hs _ IH]; [done|]. intros Hd. apply IH.
  destruct Hs as [kind log n pos p c Hr]. apply slot_fill_ok; [|done]. by apply slot_read_ok in Hr as [? _].
Qed.

(** ** A page gives the slots of the index *)
Section Transparent.
Context (log : ShipLog.t) (f g : PosFile.t) (d ix : bytes).
Hypothesis R : ready w log f g d ix.

Lemma page_slot p n :
  page_ok p -> pg_log p = log -> pg_first p <= n -> n - pg_first p < blen (pg_slots p) ->
  exists pos, pg_slots p !! Z.to_nat (n - pg_first p) = Some pos /\
    ShipLog.header_at w log n pos = ShipLog.header w log n.
Proof.
  intros (H1 & H2 & Hp) <- Hn Hlt. destruct R as [Rl Ri Rd Rx Rs Rk Rr Re].
  destruct (positions_slots w (pg_log p) g ix Ri Rx Rk (pg_first p)
    (Z.min (ShipLog.end_ (pg_log p) - pg_first p) INDEX_PAGE)) as (ps & Hps & Hl & Hi);
    [done|unfold INDEX_PAGE; lia|lia|done|].
  rewrite Hp in Hps. injection Hps as <-. set (i := Z.to_nat (n - pg_first p)).
  assert (Hin : Z.of_nat i < blen (pg_slots p)) by lia.
  destruct (header_slot w (pg_log p) f g d ix Rl Ri Rd Rx Rs Rk n) as (s & Hs & ->); [lia|].
  specialize (Hi i ltac:(lia)). replace (pg_first p + Z.of_nat i) with n in Hi by lia.
  rewrite Hs in Hi. exists (le_of s). split; [done|]. apply (header_at_eq w (pg_log p) f d Rl Rd Rs). lia.
Qed.

Lemma slot_read_total n :
  ShipLog.begin log <= n < ShipLog.end_ log -> exists pos p, slot_read log n = Ok (pos, p) /\
    ShipLog.header_at w log n pos = ShipLog.header w log n.
Proof.
  intros Hn. destruct (page_first log n ltac:(lia)) as [Hf Hlt]. unfold slot_read, ShipLog.range.
  rewrite (proj2 (Z.leb_le _ _)), (proj2 (Z.ltb_lt _ _)) by lia. cbn [andb ensure rbind]. cbv zeta.
  set (first := ShipLog.begin log + _) in *. destruct R as [Rl Ri Rd Rx Rs Rk Rr Re].
  destruct (positions_slots w log g ix Ri Rx Rk first (Z.min (ShipLog.end_ log - first) INDEX_PAGE))
    as (ps & Hps & Hl & _); [lia|unfold INDEX_PAGE in *; lia|lia|done|].
  destruct (page_slot (mkPage log first ps) n) as (pos & Hpos & Hh); simpl; try done; [|lia|lia|].
  { unfold page_ok. simpl. split_and!; [lia|lia|done]. }
  simpl in Hpos. exists pos, (mkPage log first ps). rewrite Hps. cbn [rbind]. by rewrite Hpos.
Qed.

Lemma slot_hit_ok kind n c r :
  pages_ok c -> slot_hit kind log n c = Some r ->
  exists pos, r = Ok pos /\ ShipLog.header_at w log n pos = ShipLog.header w log n.
Proof.
  intros [_ Hc]. unfold slot_hit. destruct (c !! kind_slot kind) as [[p|]|] eqn:Hp; try done.
  destruct (bool_decide (pg_log p = log) && _ && _) eqn:Hb; [|done]. bools. intros [= <-].
  apply Hc in Hp as Hpo.
  destruct (page_slot p n) as (pos & -> & Hh); try done; [|by exists pos].
  unfold wrap32 in *. pose proof (Z.mod_le (blen (pg_slots p)) U32 (blen_nonneg _) ltac:(done)). lia.
Qed.

Lemma page_header_steps kind n c :
  psteps PageCache_default c -> ShipLog.begin log <= n < ShipLog.end_ log ->
  exists c', page_header kind log n c = (ShipLog.header w log n, c') /\ psteps PageCache_default c'.
Proof.
  intros Hc Hn. pose proof (psteps_ok c Hc) as Hok. unfold page_header, slot, sbind, slift.
  destruct (slot_hit kind log n c) as [r|] eqn:Hh.
  - apply slot_hit_ok in Hh as (pos & -> & ->); [|done]. by exists c.
  - destruct (slot_read_total n Hn) as (pos & p & Hr & Hp). rewrite Hr, Hp.
    eexists. split; [done|]. eapply rtc_r; [exact Hc|]. by eapply pstep_fill.
Qed.
End Transparent.
End Ops.

(** ** Theorem *)

(** Reading an entry header through a session's pages is reading it through the index,
    whatever pages the builds of the session have left in the cache, in whatever order: same
    header, same error; and it leaves such a cache. *)
Lemma pages_transparent (w : world) (S : FileSource w) (path index : string) (k kind : LogKind)
    (log : ShipLog.t) (n : Z) (c : PageCache)
    (Ho : ShipLog.open w path index k = Ok (Some log))
    (Hn : ShipLog.begin log <= n < ShipLog.end_ log)
    (Hc : psteps w PageCache_default c) :
  exists c', page_header w kind log n c = (ShipLog.header w log n, c') /\ psteps w PageCache_default c'.
Proof.
  apply open_ready in Ho as (_ & _ & _ & f & g & d & ix & R).
  by apply (page_header_steps w log f g d ix R).
Qed.

(** The page read for block 6 serves block 5, through the cache of another kind too. *)
Lemma pages_transparent_witness :
  let S := direct_source exi_world exi_world_ok in
  exists c c', psteps exi_world PageCache_default c /\
    page_header exi_world Trace exi_ship 5 c = (ShipLog.header exi_world exi_ship 5, c').
Proof.
  intros S.
  assert (Ho : ShipLog.open exi_world "log" "index" Trace = Ok (Some exi_ship)) by (by vm_compute).
  assert (Hr : exists pos p, slot_read exi_world exi_ship 6 = Ok (pos, p)) by (eexists _, _; by vm_compute).
  destruct Hr as (pos & p & Hr). exists (slot_fill ChainState p PageCache_default).
  assert (Hc : psteps exi_world PageCache_default (slot_fill ChainState p PageCache_default))
    by (eapply rtc_once, pstep_fill, Hr).
  assert (Hn : ShipLog.begin exi_ship <= 5 < ShipLog.end_ exi_ship)
    by (split; [vm_compute; discriminate|vm_compute; reflexivity]).
  pose proof (pages_transparent exi_world S "log" "index" Trace Trace exi_ship 5) as H.
  specialize (H _ Ho Hn Hc). destruct H as (c' & Hh & _).
  exists c'. split; [exact Hc|exact Hh].
Defined.
