(* ===== verification/Store.v ===== *)
(** * Serving blocks ([crates/ship-archive/src/store.rs])

    The open [Store] and what it builds for one block: ids, [plan], [read], the payload of an
    entry. Opening and cross-checking the logs is in [Startup.v]. The buffers of a payload are [vec]s, with their
    capacity, so that what a package holds can be compared with what its plan announced. *)

From S2P Require Import Prelude.
From S2P Require Import Errors.
From S2P Require Import Cursor.
From S2P Require Import Binio.
From S2P Require Import Protocol.
From S2P Require Import ShipLog.
From S2P Require Import Zlib.
From S2P Require Import Inflate.
From S2P Require Import BlockLog.
From S2P Require Import Catalog.
From S2P Require Import Fetch.
From S2P Require Import Pages.

Definition BASE_BYTES : Z := 2 * 36 + 2 * 37 + 1 + 5.
Definition READ_SCRATCH : Z := INPUT_WINDOW + Z.shiftl 512 10.
Definition LEGACY_STEP_MIN : Z := Z.shiftl 64 10.
Definition LEGACY_STEP_MAX : Z := Z.shiftl 1 20.

(** ** Data *)
Record Served := mkServed {
  sv_trace : Z * Z;
  sv_chain_state : Z * Z;
  sv_finality : Z * Z;
  sv_blocks : Z * Z
}.

(** [Served::ship]. *)
Definition served_ship (s : Served) (k : LogKind) : Z * Z :=
  match k with Trace => sv_trace s | ChainState => sv_chain_state s | Finality => sv_finality s end.

Record First := mkFirst { fi_num : Z; fi_prev : option BlockPos }.

Definition First_default : First := mkFirst 0 None.

(** [Store]; a skipped read is kept with its error, whose text the warning shows. *)
Record Store := mkStore {
  s_trace : option (list ShipLog.t);
  s_chain_state : option (list ShipLog.t);
  s_finality : option (list ShipLog.t);
  s_blocks : option (list BlockLog.t);
  s_served : Served;
  s_last : BlockPos;
  s_first : First;
  s_chain_id : bytes;
  s_below : list BlockPos;
  s_skipped : list (Z * err);
  s_abi : string;
  s_status_v0 : bytes;
  s_status_v1 : bytes
}.

Definition contains (r : Z * Z) (n : Z) : bool := (r.1 <=? n) && (n <? r.2).

(** [.context(source)]. *)
Definition in_source {A} (src : Source) (r : result A) : result A :=
  match r with Err e => Err (ESource src e) | r => r end.

Record Plan := mkPlan {
  pl_job : Job;
  pl_this : option BlockPos;
  pl_prev : option BlockPos;
  pl_block : option (BlockLog.t * Z);
  pl_fields : list (option (ShipLog.t * EntryHeader.t))
}.

(** What a planned field holds at most while it is read. *)
Definition field_bound (threshold : Z) (h : EntryHeader.t) : Z :=
  match EntryHeader.uncompressed h with
  | Some len => if len <=? threshold then len else 0
  | None =>
      Z.min (sat_add64 threshold 1)
        (sat_add64 (sat_mul64 (EntryHeader.data_len h) MAX_INFLATE_RATIO) LEGACY_STEP_MAX)
  end.

(** [Plan::bound]. *)
Definition bound (limits : FetchLimits) (p : Plan) : Z :=
  let block := from_option snd 0 (pl_block p) in
  let inline := foldr add64 0
    ((fun lh => field_bound (stream_threshold limits) lh.2) <$> omap id (pl_fields p)) in
  add64 (add64 (add64 BASE_BYTES block) inline) READ_SCRATCH.

Section Ops.
Context (w : world) `{!FileSource w} (sha256 : bytes -> bytes) `{F : Flate}.
Context (can_reserve : Z -> bool).
Context (s : Store).

Definition catalog_of (k : LogKind) : option (list ShipLog.t) :=
  match k with Trace => s_trace s | ChainState => s_chain_state s | Finality => s_finality s end.

Definition ship_log (k : LogKind) (n : Z) : option ShipLog.t :=
  if negb (contains (served_ship (s_served s) k) n) then None
  else catalog_of k ≫= fun c => catalog_get (Ranged0 := ShipLog_Ranged w) c n.

Definition block_log (n : Z) : option BlockLog.t :=
  if negb (contains (sv_blocks (s_served s)) n) then None
  else s_blocks s ≫= fun c => catalog_get (Ranged0 := BlockLog_Ranged w sha256) c n.

(** Reads that go through a session's pages when there are any. *)
Definition paged A := M err (option PageCache) A.

(** [header]. *)
Definition header (kind : LogKind) (log : ShipLog.t) (n : Z) : paged EntryHeader.t := fun pages =>
  match pages with
  | Some c => let '(r, c) := page_header w kind log n c in (in_source (SrcShip kind) r, Some c)
  | None => (in_source (SrcShip kind) (ShipLog.header w log n), None)
  end.

(** The first kind, in order, that serves block [n]. *)
Fixpoint first_ship_log (kinds : list LogKind) (n : Z) : option (LogKind * ShipLog.t) :=
  match kinds with
  | [] => None
  | k :: kinds =>
      match ship_log k n with
      | Some log => Some (k, log)
      | None => first_ship_log kinds n
      end
  end.

(** The block log serving block [n + 1], when there is one. *)
Definition next_block_log (n : Z) : option (Z * BlockLog.t) :=
  next ← checked_add32 n 1;
  log ← block_log next;
  Some (next, log).

Definition id_with (n : Z) : paged (option bytes) :=
  if n =? 0 then sret None
  else
    match first_ship_log LogKind_ALL n with
    | Some (kind, log) => let! h := header kind log n in sret (Some (EntryHeader.id h))
    | None =>
        match next_block_log n with
        | Some (next, log) =>
            let! id := slift (in_source SrcBlocks (BlockLog.previous w log next)) in
            sret (Some id)
        | None => sret None
        end
    end.

(** [Store::id]. *)
Definition store_id (n : Z) : result (option bytes) := (id_with n None).1.

Definition prev_id (p : Z) : paged (option bytes) :=
  let! id := id_with p in
  match id with
  | Some id => sret (Some id)
  | None => sret (bp_id <$> head (filter (fun b => bp_num b = p) (s_below s)))
  end.

Definition named_id (n : Z) : result (option bytes) := (prev_id n None).1.

(** [Store::status]. *)
Definition status : Protocol.Status :=
  {| st_head := s_last s; st_lib := s_last s; st_trace := sv_trace (s_served s);
     st_chain_state := sv_chain_state (s_served s); st_finality := sv_finality (s_served s);
     st_chain_id := s_chain_id s |}.

Definition status_bytes (v1 : bool) : bytes := if v1 then s_status_v1 s else s_status_v0 s.

(** ** Planning a block *)

(** The loop of [plan] over the kinds, each with whether its field is wanted: the block's id so
    far, and the headers read. *)
Fixpoint plan_headers (n : Z) (kinds : list (LogKind * bool)) (id : option bytes)
    : paged (option bytes * list (option (ShipLog.t * EntryHeader.t))) :=
  match kinds with
  | [] => sret (id, [])
  | (kind, wanted) :: kinds =>
      let skip :=
        let! (id, hs) := plan_headers n kinds id in
        sret (id, None :: hs) in
      match ship_log kind n with
      | None => skip
      | Some log =>
          if bool_decide (is_Some id) && negb wanted then skip
          else
            let! h := header kind log n in
            let id := default (EntryHeader.id h) id in
            do! sensure (bool_decide (EntryHeader.id h = id)) (EOtherId kind n) ;;
            let! (id, hs) := plan_headers n kinds (Some id) in
            sret (id, Some (log, h) :: hs)
      end
  end.

Definition wanted_fields (j : Job) : list bool :=
  [fl_traces (j_flags j); fl_deltas (j_flags j); j_v1 j && fl_finality (j_flags j)].

Definition plan_prev (n : Z) : paged (option BlockPos) :=
  match checked_sub n 1 with
  | Some p => let! id := prev_id p in sret (mkPos p <$> id)
  | None => sret None
  end.

Definition plan_block (j : Job) : result (option (BlockLog.t * Z)) :=
  match block_log (j_n j) with
  | Some log =>
      if fl_block (j_flags j) then
        let? (_, len) := in_source SrcBlocks (BlockLog.bounds w log (j_n j)) in
        do? ensure (len <=? MAX_BLOCK_BYTES) (EBlockTooLong (j_n j) len) ;;
        Ok (Some (log, len))
      else Ok None
  | None => Ok None
  end.

Definition plan (j : Job) : paged Plan :=
  let n := j_n j in
  let wanted := wanted_fields j in
  let! (id, headers) := plan_headers n (zip LogKind_ALL wanted) None in
  let! id := match id with Some id => sret (Some id) | None => id_with n end in
  let fields := (2 + if j_v1 j then 1 else 0)%nat in
  match id with
  | None => sret (mkPlan j None None None (replicate fields None))
  | Some id =>
      let! prev := plan_prev n in
      let! block := slift (plan_block j) in
      sret (mkPlan j (Some (mkPos n id)) prev block
        (take fields (zip_with (fun h (wanted : bool) => if wanted then h else None) headers wanted)))
  end.

(** ** Reading a planned block *)

(** The loop of [put_varuint32]: five groups hold any [u32]. *)
Fixpoint put_varuint32_loop (fuel : nat) (out : bytes) (v : Z) : bytes :=
  match fuel with
  | O => out
  | S fuel =>
      let b := Z.land v 127 in
      let v := Z.shiftr v 7 in
      if v =? 0 then out ++ [z2b b] else put_varuint32_loop fuel (out ++ [z2b (Z.lor b 128)]) v
  end.

Definition put_varuint32 (out : bytes) (v : Z) : bytes := put_varuint32_loop 5 out v.

Definition block_body (log : BlockLog.t) (this : BlockPos) (prev : option BlockPos) : result bytes :=
  let n := bp_num this in
  let? body := BlockLog.body w log n in
  do? ensure (blen body <=? MAX_BLOCK_BYTES) (EBlockTooLong n (blen body)) ;;
  do? match prev with
      | Some prev =>
          let? follows := or_panic (slice body PREVIOUS_AT 32) in
          ensure (bool_decide (follows = bp_id prev)) (EFollowsOther n (bp_num prev))
      | None => Ok ()
      end ;;
  let? h := block_header sha256 body in
  do? ensure (bool_decide (bh_id h = bp_id this)) (EHashesToOther n) ;;
  Ok body.

(** One iteration of [read_legacy]. *)
Definition legacy_iter (limit step : Z) : M err (vec * InflateStream F) (ctl Z ()) :=
  let! st := sget in
  let room := Z.min (sat_sub (sat_add64 limit 1) (blen (v_data st.1))) step in
  do! on_buf (fun out => vec_reserve_exact out room) ;;
  let! more := next_chunk w room in
  let! st := sget in
  do! sensure (blen (v_data st.1) <=? limit) (EInflatesOverLimit limit) ;;
  if negb more then sret (Break ())
  else sret (Cont (Z.min (sat_mul64 step 2) LEGACY_STEP_MAX)).

Definition read_legacy (log : ShipLog.t) (h : EntryHeader.t) (limit : Z) : result vec :=
  let? s := stream w log h in
  let step := clamp (sat_mul64 (EntryHeader.data_len h) 4) LEGACY_STEP_MIN LEGACY_STEP_MAX in
  match loop_ (legacy_iter limit) step (vec_new, s) with
  | (Ok _, (out, _)) => Ok (vec_shrink_to_fit out)
  | (Err e, _) => Err e
  | (Panic, _) => Panic
  end.

Definition payload (log : ShipLog.t) (h : EntryHeader.t) (limits : FetchLimits) : result Part :=
  let threshold := stream_threshold limits in
  match EntryHeader.uncompressed h with
  | Some len =>
      if threshold <? len then
        do? verify_count w log h len ;;
        Ok (PStreamed (mkStreamed log h len))
      else
        let? out := read_inline_into w can_reserve log h threshold vec_new in
        Ok (Inline out)
  | None =>
      match read_legacy log h threshold with
      | Ok out => Ok (Inline out)
      | Err inline =>
          let? len := verify_count w log h u64_max in
          if len <=? threshold then Err inline else Ok (PStreamed (mkStreamed log h len))
      | Panic => Panic
      end
  end.

Fixpoint read_parts (limits : FetchLimits) (fields : list (option (ShipLog.t * EntryHeader.t)))
    : result (list Part) :=
  match fields with
  | [] => Ok []
  | field :: fields =>
      let? part :=
        match field with
        | None => Ok Absent
        | Some (log, h) => in_source (SrcShip (ShipLog.kind log)) (payload log h limits)
        end in
      let? parts := read_parts limits fields in
      Ok (part :: parts)
  end.

(** The capacity [encode_result_base] allocates for a base without a block. *)
Definition BASE_CAPACITY : Z := 2 * POS_LEN + 2 * (1 + POS_LEN) + 1.

(** The base once it announces a block: its last byte replaced by a presence byte and a length,
    in a buffer with room for six more bytes than the base without its last byte. *)
Definition base_with_block (base : bytes) (len : Z) : bytes * Z :=
  let base := take (length base - 1) base in
  (put_varuint32 (base ++ [x01]) len, Z.max BASE_CAPACITY (blen base + (1 + 5))).

(** The capacity of the buffer [BlockLog::body] resizes for a block, an empty one before. *)
Definition body_capacity (body : bytes) : Z := v_cap (vec_reserve vec_new (blen body)).

(** [Store::read]. *)
Definition read (p : Plan) (limits : FetchLimits) : result Package :=
  let? base := encode_result_base (s_last s) (s_last s) (pl_this p) (pl_prev p) None in
  let? (bc, block) :=
    match pl_block p, pl_this p with
    | Some (log, _), Some this =>
        let? body := in_source SrcBlocks (block_body log this (pl_prev p)) in
        Ok (base_with_block base (wrap32 (blen body)), Some body)
    | _, _ => Ok ((base, BASE_CAPACITY), None)
    end in
  let? parts := read_parts limits (pl_fields p) in
  Ok (mkPackage (pl_job p) bc.1 bc.2 block (from_option body_capacity 0 block) parts).

(** [Store::build]. *)
Definition build (j : Job) (limits : FetchLimits) : result Package :=
  let? p := (plan j None).1 in
  read p limits.

End Ops.

(** ** Reading payloads *)
Section PayloadFacts.
Context (w : world) `{!FileSource w} `{F : Flate}.
Context (zlib : bytes -> option bytes) `{L : !FlateLaws F zlib}.
Context (l : ShipLog.t) (h : EntryHeader.t) (file : PosFile.t) (d : bytes) (n pos : Z).
Hypothesis Hfile : ShipLog.log_file w l = Ok file.
Hypothesis Hd : views w file d.
Hypothesis Hpos : 0 <= pos.
Hypothesis Hh : read_header w file n pos = Ok h.

(** The buffer of a legacy payload: never past the limit by more than a byte, nor past what is inflated by more than
    a step. *)
Definition legacy_room (limit : Z) (v : vec) : Prop :=
  blen (v_data v) <= v_cap v <= v_peak v /\ v_peak v <= limit + 1 /\ v_peak v <= blen (v_data v) + LEGACY_STEP_MAX.

Lemma read_legacy_spec limit :
  0 <= limit < u64_max ->
  match read_legacy w l h limit with
  | Ok v => (valid zlib (stored h d) (EntryHeader.uncompressed h) (v_data v) /\ blen (v_data v) <= limit) /\
      v_cap v = blen (v_data v) /\ legacy_room limit v
  | Err _ => forall t, valid zlib (stored h d) (EntryHeader.uncompressed h) t -> limit < blen t
  | Panic => False
  end.
Proof.
  intros Hlim. destruct (stored_sinv w zlib h file d n pos Hd Hpos Hh) as (Hlt & Hu & Hs).
  unfold read_legacy, stream. rewrite Hfile. cbn [rbind].
  assert (Hmax : LEGACY_STEP_MAX = 1048576) by reflexivity.
  set (step := clamp _ _ _). assert (Hst : 1 <= step <= LEGACY_STEP_MAX).
  { unfold step, clamp, LEGACY_STEP_MIN. rewrite Hmax. change (Z.shiftl 64 10) with 65536. widths. lia. }
  assert (H64 : is_u64 limit) by width_lia.
  set (room := fun (out : bytes) step => Z.min (sat_sub (sat_add64 limit 1) (blen out)) step).
  assert (Hroom : forall out st, room out st <= limit + 1 - blen out \/ room out st <= 0).
  { intros out st. unfold room, sat_sub, sat_add64. widths. lia. }
  pose proof (grow_loop w zlib file d Hd room (fun n => on_buf (fun out => vec_reserve_exact out n)) vec_reserve_exact
    (fun step => Z.min (sat_mul64 step 2) LEGACY_STEP_MAX) (legacy_room limit)
    (stored h d) (EntryHeader.uncompressed h) limit LEGACY_STEP_MAX) as Hl.
  assert (H1 : forall (out : bytes) st, blen out <= limit -> 0 <= st <= LEGACY_STEP_MAX ->
    0 <= room out st < U64 /\ (1 <= st -> 1 <= room out st)).
  { intros out st Ho Hst'. unfold room, sat_sub, sat_add64. rewrite Hmax in Hst'. widths. lia. }
  assert (H2 : forall st, 1 <= st <= LEGACY_STEP_MAX -> 1 <= Z.min (sat_mul64 st 2) LEGACY_STEP_MAX <= LEGACY_STEP_MAX).
  { intros st Hst'. unfold sat_mul64. rewrite Hmax in *. widths. lia. }
  assert (H3 : forall v s i st more v1 s1, sinv zlib file d (stored h d) (EntryHeader.uncompressed h) s i (v_data v) ->
    legacy_room limit v -> blen (v_data v) <= limit -> 0 <= st <= LEGACY_STEP_MAX ->
    next_chunk w (room (v_data v) st) (vec_reserve_exact v (room (v_data v) st), s) = (Ok more, (v1, s1)) ->
    blen (v_data v) <= blen (v_data v1) <= blen (v_data v) + room (v_data v) st -> legacy_room limit v1).
  { intros v s i st more v1 s1 Hsi ((Hc1 & Hc2) & Hc3 & Hc4) Hv Hst1 Hn Hb.
    set (m := room (v_data v) st) in *. destruct (vec_reserve_exact_room v m Hc2) as ([R1 R2] & R3 & R4).
    pose proof Hn as Hcap. apply (next_chunk_room w zlib file d (stored h d) (EntryHeader.uncompressed h) m _ s i (v_data v))
      in Hcap as [E1 E2]; [|done|left; by rewrite vec_reserve_exact_data].
    destruct (Hroom (v_data v) st) as [Hm|Hm]; fold m in Hm; unfold legacy_room; rewrite E1, E2;
      assert (m <= st) by apply Z.le_min_r; destruct (H1 (v_data v) st Hv Hst1) as [Hm0 _]; fold m in Hm0; lia. }
  specialize (Hl H1 ltac:(intros v m s'; split; [done|apply vec_reserve_exact_data])
    H2 H3 Hlt H64 step (stream_new file h) [] vec_new Hs eq_refl).
  assert (H0 : legacy_room limit vec_new) by (unfold legacy_room; simpl; change (blen []) with 0; rewrite Hmax; lia).
  specialize (Hl H0 (or_introl (proj1 Hst)) ltac:(lia) (proj1 Hlim)).
  change (grow_iter w _ _ _ limit) with (legacy_iter w (F := F) limit) in Hl.
  destruct (loop_ (legacy_iter w limit) step (vec_new, stream_new file h)) as [[u|e|] [out s']]; [|by auto|done].
  destruct Hl as [Hv Hr]. unfold legacy_room in *. cbn [vec_shrink_to_fit v_data v_cap v_peak].
  split; [done|]. split; lia.
Qed.

(** The capacity of an inline payload's buffer, and the most it was: exact when the size is declared. *)
Definition inline_room (limits : FetchLimits) (h : EntryHeader.t) (v : vec) : Prop :=
  v_cap v = blen (v_data v) /\
  match EntryHeader.uncompressed h with
  | Some _ => v_peak v = blen (v_data v)
  | None => legacy_room (stream_threshold limits) v
  end.

(** What [payload] makes of an entry: inline up to the threshold, streamed above it. *)
Lemma payload_spec can_reserve limits :
  0 <= stream_threshold limits < u64_max ->
  let v := valid zlib (stored h d) (EntryHeader.uncompressed h) in
  match payload w can_reserve l h limits with
  | Ok (Inline y) => (v (v_data y) /\ blen (v_data y) <= stream_threshold limits) /\ inline_room limits h y
  | Ok (PStreamed st) => st_log st = l /\ st_header st = h /\
      exists y, v y /\ st_len st = blen y /\ stream_threshold limits < blen y < U64
  | Ok Absent => False
  | Err _ => forall y, v y -> blen y < U64 ->
      EntryHeader.uncompressed h <> None /\ can_reserve (blen y) = false
  | Panic => False
  end.
Proof.
  intros Ht v. unfold payload. set (th := stream_threshold limits) in *.
  assert (H64 : is_u64 th) by width_lia.
  destruct (stored_sinv w zlib h file d n pos Hd Hpos Hh) as (Hlt & Hu & _).
  destruct (EntryHeader.uncompressed h) as [len|] eqn:Hun.
  - destruct (Z.ltb_spec th len) as [Hgt|Hle].
    + pose proof (verify_count_spec w zlib l h file d n pos Hfile Hd Hpos Hh len (Hu _ eq_refl)) as Hc.
      rewrite Hun in Hc. destruct (verify_count w l h len) as [c|e|]; cbn [rbind]; [| |done].
      * destruct Hc as (y & -> & Hy & _). split; [done|]. split; [done|]. exists y. simpl.
        destruct Hy as [Hz Hlen]. specialize (Hlen len eq_refl). unfold v, valid. split_and!; try done.
        -- by intros e [= <-].
        -- lia.
        -- pose proof (Hu len eq_refl). width_lia.
      * intros y Hy _. pose proof (Hc y Hy). destruct Hy as [_ Hlen]. specialize (Hlen len eq_refl). lia.
    + pose proof (read_inline_into_spec w zlib l h file d n pos Hfile Hd Hpos Hh can_reserve th H64) as Hc.
      rewrite Hun in Hc. destruct (read_inline_into w can_reserve l h th vec_new) as [y|e|]; cbn [rbind]; [| |done].
      { destruct Hc as [Hc Hr]. split; [done|]. unfold inline_room. rewrite Hun. by apply Hr. }
      intros y Hy _. destruct (Hc y Hy) as [Hc'|Hc']; [|done].
      destruct Hy as [_ Hlen]. specialize (Hlen len eq_refl). lia.
  - pose proof (read_legacy_spec th Ht) as Hc. rewrite Hun in Hc.
    destruct (read_legacy w l h th) as [y|e|]; [| |done].
    { destruct Hc as (Hc & Hcap & Hr). split; [done|]. unfold inline_room. by rewrite Hun. }
    assert (Hm : is_u64 u64_max) by width_lia.
    pose proof (verify_count_spec w zlib l h file d n pos Hfile Hd Hpos Hh u64_max Hm) as Hv.
    rewrite Hun in Hv. destruct (verify_count w l h u64_max) as [c|e'|]; cbn [rbind]; [| |done].
    + destruct Hv as (y & -> & Hy & Hmax). pose proof (Hc y Hy) as Hgt.
      destruct (Z.leb_spec (blen y) th); [lia|]. simpl. split_and!; [done|done|]. exists y. split_and!; [done|done|lia|width_lia].
    + intros y Hy Hy64. pose proof (Hv y Hy). width_lia.
Qed.
End PayloadFacts.

(** ** An open store

    What [Startup.v] establishes of the store it opens: every file was opened by the strict reader
    of its kind, and the positions it reports have 32-byte ids. *)
Record store_ok (w : world) `{!FileSource w} (sha256 : bytes -> bytes) (s : Store) : Prop := {
  so_ship : forall k c, catalog_of s k = Some c -> Forall (fun l => reopens w l /\ ShipLog.kind l = k) c;
  so_blocks : forall c, s_blocks s = Some c ->
    Forall (fun l => exists log index, BlockLog.open w sha256 log index = Ok (Some l)) c;
  so_last : pos_ok (s_last s);
  so_below : Forall pos_ok (s_below s)
}.

Section StoreFacts.
Context (w : world) `{!FileSource w} (sha256 : bytes -> bytes) (s : Store).
Hypothesis Hs : store_ok w sha256 s.

Lemma ship_log_ok k n l :
  ship_log w s k n = Some l ->
  reopens w l /\ ShipLog.kind l = k /\ ShipLog.begin l <= n < ShipLog.end_ l /\
  contains (served_ship (s_served s) k) n = true.
Proof.
  unfold ship_log. destruct (contains _ n) eqn:Hn; [|done]. simpl.
  destruct (catalog_of s k) as [c|] eqn:Hc; [|done]. simpl. intros Hg.
  apply catalog_get_member in Hg as [Hin Hr]. apply (so_ship _ _ _ Hs) in Hc.
  apply list_elem_of_lookup_1 in Hin as [i Hi]. destruct (Forall_lookup_1 _ _ _ _ Hc Hi). done.
Qed.

Lemma block_log_ok n l :
  block_log w sha256 s n = Some l ->
  (exists log index, BlockLog.open w sha256 log index = Ok (Some l)) /\ contains (sv_blocks (s_served s)) n = true.
Proof.
  unfold block_log. destruct (contains _ n) eqn:Hn; [|done]. simpl.
  destruct (s_blocks s) as [c|] eqn:Hc; [|done]. simpl. intros Hg.
  apply catalog_get_member in Hg as [Hin _]. apply (so_blocks _ _ _ Hs) in Hc.
  apply list_elem_of_lookup_1 in Hin as [i Hi]. by pose proof (Forall_lookup_1 _ _ _ _ Hc Hi).
Qed.

(** ** Pages do not show

    A read through the pages of a session returns what it returns without them. *)
Definition paged_ok {A} (m : paged A) : Prop :=
  (m None).2 = None /\
  forall c, psteps w PageCache_default c ->
    exists c', m (Some c) = ((m None).1, Some c') /\ psteps w PageCache_default c'.

Lemma paged_ret {A} (a : A) : paged_ok (sret a).
Proof. split; [done|]. intros c Hc. by exists c. Qed.

Lemma paged_lift {A} (r : result A) : paged_ok (slift r).
Proof. split; [done|]. intros c Hc. by exists c. Qed.

Lemma paged_ensure b e : paged_ok (sensure b e).
Proof. destruct b; (split; [done|]); intros c Hc; by exists c. Qed.

Lemma paged_bind {A B} (m : paged A) (k : A -> paged B) :
  paged_ok m -> (forall a, paged_ok (k a)) -> paged_ok (sbind m k).
Proof.
  intros [Hm1 Hm2] Hk. split.
  - unfold sbind. destruct (m None) as [[a|e|] st]; simpl in *; subst; [apply Hk|done|done].
  - intros c Hc. destruct (Hm2 c Hc) as (c1 & Hm & Hc1). unfold sbind. rewrite Hm.
    destruct (m None) as [[a|e|] st]; simpl in *; subst; [|by exists c1..]. by apply (proj2 (Hk a)).
Qed.

Lemma paged_header k n l : ship_log w s k n = Some l -> paged_ok (header w k l n).
Proof.
  intros Hl. apply ship_log_ok in Hl as (Hr & Hk & Hn & _). split; [done|]. intros c Hc.
  apply open_ready in Hr as (_ & _ & _ & f & g & d & ix & R).
  destruct (page_header_steps w l f g d ix R k n c Hc Hn) as (c' & Hp & Hc').
  exists c'. unfold header. by rewrite Hp.
Qed.

Lemma first_ship_log_Some ks n k l : first_ship_log w s ks n = Some (k, l) -> ship_log w s k n = Some l.
Proof.
  induction ks as [|k' ks IH]; [done|]. simpl. destruct (ship_log w s k' n) eqn:Hl; [naive_solver|done].
Qed.

Lemma paged_id_with n : paged_ok (id_with w sha256 s n).
Proof.
  unfold id_with. destruct (n =? 0); [apply paged_ret|].
  destruct (first_ship_log w s LogKind_ALL n) as [[k l]|] eqn:Hf.
  - apply first_ship_log_Some in Hf. apply paged_bind; [by apply paged_header|]. intros. apply paged_ret.
  - destruct (next_block_log w sha256 s n) as [[next l]|]; [|apply paged_ret].
    apply paged_bind; [apply paged_lift|]. intros. apply paged_ret.
Qed.

Lemma paged_prev_id p : paged_ok (prev_id w sha256 s p).
Proof.
  unfold prev_id. apply paged_bind; [apply paged_id_with|]. intros [id|]; apply paged_ret.
Qed.

Lemma paged_plan_headers n ks id : paged_ok (plan_headers w s n ks id).
Proof.
  revert id; induction ks as [|[k wanted] ks IH]; intros id; cbn [plan_headers]; [apply paged_ret|].
  assert (Hskip : paged_ok (let! (id, hs) := plan_headers w s n ks id in sret (id, None :: hs))).
  { apply paged_bind; [apply IH|]. intros [? ?]. apply paged_ret. }
  destruct (ship_log w s k n) as [l|] eqn:Hl; [|done].
  destruct (bool_decide (is_Some id) && negb wanted); [done|].
  apply paged_bind; [by apply paged_header|]. intros h.
  apply paged_bind; [apply paged_ensure|]. intros _.
  apply paged_bind; [apply IH|]. intros [? ?]. apply paged_ret.
Qed.

Lemma paged_plan j : paged_ok (plan w sha256 s j).
Proof.
  unfold plan. apply paged_bind; [apply paged_plan_headers|]. intros [id hs].
  apply paged_bind; [destruct id; [apply paged_ret|apply paged_id_with]|]. intros [i|]; [|apply paged_ret].
  apply paged_bind.
  { unfold plan_prev. destruct (checked_sub (j_n j) 1); [|apply paged_ret].
    apply paged_bind; [apply paged_prev_id|]. intros. apply paged_ret. }
  intros prev. apply paged_bind; [apply paged_lift|]. intros. apply paged_ret.
Qed.

(** ** What a plan holds *)

Lemma header_facts k n l h :
  ship_log w s k n = Some l -> ShipLog.header w l n = Ok h ->
  blen (EntryHeader.id h) = 32 /\ num_from_id (EntryHeader.id h) = n /\
  exists file d pos, ShipLog.log_file w l = Ok file /\ views w file d /\ 0 <= pos /\
    read_header w file n pos = Ok h.
Proof.
  intros Hl Hh. apply ship_log_ok in Hl as (Hr & _ & Hn & _).
  apply open_ready in Hr as (_ & _ & _ & f & g & d & ix & [Rl Ri Rd Rx Rs Rk Rr Re]).
  destruct (header_slot w l f g d ix Rl Ri Rd Rx Rs Rk n Hn) as (x & Hx & Hread).
  rewrite Hread in Hh. pose proof (le_of_range x) as Hpos.
  pose proof (read_header_fields w f d n (le_of x) h Rd ltac:(lia) Hh) as (payload & _ & Hnum & Hlen & _).
  split; [done|]. split; [done|]. exists f, d, (le_of x). split_and!; try done; [|lia].
  by apply (log_file_eq w l f d).
Qed.

Lemma header_None_Ok k l n h st : header w k l n None = (Ok h, st) -> ShipLog.header w l n = Ok h /\ st = None.
Proof. unfold header. intros H. destruct (ShipLog.header w l n); simpl in H; by simplify_eq. Qed.

(** The headers read name one id, that of the first log serving the block. *)
Record headers_ok (n : Z) (ks : list (LogKind * bool)) (id id' : option bytes)
    (hs : list (option (ShipLog.t * EntryHeader.t))) : Prop := {
  ho_len : length hs = length ks;
  ho_keep : is_Some id -> id' = id;
  ho_read : forall i l h, hs !! i = Some (Some (l, h)) ->
    exists k wd, ks !! i = Some (k, wd) /\ ship_log w s k n = Some l /\ ShipLog.header w l n = Ok h /\
      id' = Some (EntryHeader.id h);
  ho_wanted : forall i k l, ks !! i = Some (k, true) -> ship_log w s k n = Some l ->
    exists h, hs !! i = Some (Some (l, h));
  ho_none : id' = None -> forall i k wd, ks !! i = Some (k, wd) -> ship_log w s k n = None;
  ho_first : id = None -> forall x, id' = Some x ->
    exists k l h, ship_log w s k n = Some l /\ ShipLog.header w l n = Ok h /\ x = EntryHeader.id h
}.

Lemma headers_skip n k wd ks id id' hs :
  ship_log w s k n = None \/ is_Some id /\ wd = false ->
  headers_ok n ks id id' hs -> headers_ok n ((k, wd) :: ks) id id' (None :: hs).
Proof.
  intros Hk [H1 H2 H3 H4 H5 H6]. split; [simpl; lia|done|..|done].
  - intros [|i] l h Hi; [done|]. apply (H3 i l h Hi).
  - intros [|i] k' l Hi Hl; [|by apply (H4 i k' l)]. simpl in Hi. simplify_eq. naive_solver.
  - intros Hn [|i] k' wd' Hi; [|by apply (H5 Hn i k' wd')]. simpl in Hi. simplify_eq.
    destruct Hk as [|[Hi' _]]; [done|]. specialize (H2 Hi'). destruct Hi' as [x ->]. congruence.
Qed.

Lemma headers_read n k wd ks id id' hs l h :
  ship_log w s k n = Some l -> ShipLog.header w l n = Ok h ->
  default (EntryHeader.id h) id = EntryHeader.id h ->
  headers_ok n ks (Some (EntryHeader.id h)) id' hs -> headers_ok n ((k, wd) :: ks) id id' (Some (l, h) :: hs).
Proof.
  intros Hl Hh Hid [H1 H2 H3 H4 H5 H6]. specialize (H2 ltac:(done)). subst id'. split; [simpl; lia|..|done|].
  - intros [x ->]. simpl in Hid. by subst.
  - intros [|i] l' h' Hi; [|apply (H3 i l' h' Hi)]. simpl in Hi. simplify_eq. eauto 10.
  - intros [|i] k' l' Hi Hl'; [|by apply (H4 i k' l')]. simpl in Hi. simplify_eq. eauto.
  - intros _ x [= <-]. eauto 10.
Qed.

Lemma plan_headers_spec n ks id id' hs st :
  plan_headers w s n ks id None = (Ok (id', hs), st) -> st = None /\ headers_ok n ks id id' hs.
Proof.
  revert id id' hs st; induction ks as [|[k wd] ks IH]; intros id id' hs st H; cbn [plan_headers] in H.
  { unfold sret in H. simplify_eq. split; [done|]. split; naive_solver. }
  assert (Hskip : (let! (id, hs) := plan_headers w s n ks id in sret (id, None :: hs)) None
      = (Ok (id', hs), st) -> ship_log w s k n = None \/ is_Some id /\ wd = false ->
      st = None /\ headers_ok n ((k, wd) :: ks) id id' hs).
  { intros Hb Hk. apply sbind_Ok in Hb as ([i hs'] & st1 & Hb & Hr). unfold sret in Hr. simplify_eq.
    apply IH in Hb as [-> Hb]. split; [done|]. by apply headers_skip. }
  destruct (ship_log w s k n) as [l|] eqn:Hl; [|auto].
  destruct (bool_decide (is_Some id) && negb wd) eqn:Hc; [bools; auto|].
  apply sbind_Ok in H as (h & st1 & Hh & H). apply header_None_Ok in Hh as [Hh ->].
  apply sbind_Ok in H as (u & st2 & He & H). apply sensure_Ok in He as [He ->]. bools. rewrite <- He in H.
  apply sbind_Ok in H as ([i hs'] & st3 & Hr & H). unfold sret in H. simplify_eq.
  apply IH in Hr as [-> Hr]. split; [done|]. by apply headers_read.
Qed.

Lemma previous_len l n p : BlockLog.previous w l n = Ok p -> blen p = 32.
Proof.
  unfold BlockLog.previous. intros H. bind H as e He. destruct e as [[f pos] len]. cbn [fst snd] in H.
  bind H as q Hq. apply rbind_Ok in H as (u & _ & H). apply Ok_inj in H as <-.
  apply entry_inside in He as (d & b & Hd & _).
  erewrite read_exact_at_spec in Hq; [|done|apply Z.mod_pos_bound; done|done].
  destruct (slice d _ 32) as [x|] eqn:Hx; [|done]. apply Ok_inj in Hq as <-. by apply slice_blen in Hx.
Qed.

Lemma id_with_len n x st : id_with w sha256 s n None = (Ok (Some x), st) -> blen x = 32 /\ st = None.
Proof.
  unfold id_with. destruct (n =? 0); [done|].
  destruct (first_ship_log w s LogKind_ALL n) as [[k l]|] eqn:Hf.
  - intros H. apply sbind_Ok in H as (h & st1 & Hh & H). apply header_None_Ok in Hh as [Hh ->].
    unfold sret in H. simplify_eq. apply first_ship_log_Some in Hf.
    by destruct (header_facts k n l h Hf Hh) as [? _].
  - destruct (next_block_log w sha256 s n) as [[next l]|]; [|done]. intros H.
    apply sbind_Ok in H as (p & st1 & Hp & H). unfold slift, in_source in Hp. unfold sret in H. simplify_eq.
    destruct (BlockLog.previous w l next) as [q|e|] eqn:Hq; simplify_eq. by apply previous_len in Hq.
Qed.

Lemma prev_id_len p x st : prev_id w sha256 s p None = (Ok (Some x), st) -> blen x = 32.
Proof.
  unfold prev_id. intros H. apply sbind_Ok in H as ([i|] & st1 & Hi & H); unfold sret in H; simplify_eq.
  - by apply id_with_len in Hi as [? _].
  - destruct (head _) as [b|] eqn:Hb; [|done]. simplify_eq. rewrite head_lookup in Hb.
    apply list_elem_of_lookup_2, list_elem_of_filter in Hb as [_ Hb]. apply list_elem_of_lookup_1 in Hb as [i Hb].
    destruct (Forall_lookup_1 _ _ _ _ (so_below _ _ _ Hs) Hb) as [_ Hl32]. simpl in H. by simplify_eq.
Qed.

(** What [plan] establishes of the plan it returns. *)
Record planned (j : Job) (p : Plan) : Prop := {
  pd_job : pl_job p = j;
  pd_count : length (pl_fields p) = (2 + if j_v1 j then 1 else 0)%nat;
  pd_this : forall t, pl_this p = Some t -> bp_num t = j_n j /\ blen (bp_id t) = 32;
  pd_prev : forall t, pl_prev p = Some t -> bp_num t = j_n j - 1 /\ 0 <= bp_num t /\ blen (bp_id t) = 32;
  pd_field : forall i l h, pl_fields p !! i = Some (Some (l, h)) ->
    exists k, LogKind_ALL !! i = Some k /\ wanted_fields j !! i = Some true /\
      ship_log w s k (j_n j) = Some l /\ ShipLog.header w l (j_n j) = Ok h /\
      pl_this p = Some (mkPos (j_n j) (EntryHeader.id h));
  pd_served : forall i k l, (i < 2 + if j_v1 j then 1 else 0)%nat -> LogKind_ALL !! i = Some k ->
    wanted_fields j !! i = Some true -> ship_log w s k (j_n j) = Some l ->
    exists h, pl_fields p !! i = Some (Some (l, h));
  pd_block : forall l len, pl_block p = Some (l, len) ->
    block_log w sha256 s (j_n j) = Some l /\ fl_block (j_flags j) = true /\ len <= MAX_BLOCK_BYTES /\
    (exists pos, BlockLog.bounds w l (j_n j) = Ok (pos, len)) /\ is_Some (pl_this p);
  pd_attach : forall l, is_Some (pl_this p) -> fl_block (j_flags j) = true ->
    block_log w sha256 s (j_n j) = Some l -> exists len, pl_block p = Some (l, len)
}.

Lemma zip_kinds i k (wd : bool) j :
  LogKind_ALL !! i = Some k -> wanted_fields j !! i = Some wd ->
  zip LogKind_ALL (wanted_fields j) !! i = Some (k, wd).
Proof. intros H1 H2. by rewrite lookup_zip_with, H1; simpl; rewrite H2. Qed.

Lemma plan_block_ok j l len :
  plan_block w sha256 s j = Ok (Some (l, len)) ->
  block_log w sha256 s (j_n j) = Some l /\ fl_block (j_flags j) = true /\ len <= MAX_BLOCK_BYTES /\
  exists pos, BlockLog.bounds w l (j_n j) = Ok (pos, len).
Proof.
  unfold plan_block. destruct (block_log w sha256 s (j_n j)) as [l'|]; [|done].
  destruct (fl_block (j_flags j)); [|done]. intros H. bind H as x Hx. destruct x as [pos len'].
  guard H as Hm. bools. apply Ok_inj in H. simplify_eq.
  destruct (BlockLog.bounds w l (j_n j)) as [[a b]|e|] eqn:Hb; simpl in Hx; simplify_eq. eauto 10.
Qed.

Lemma plan_prev_ok n t st :
  plan_prev w sha256 s n None = (Ok (Some t), st) ->
  bp_num t = n - 1 /\ 0 <= bp_num t /\ blen (bp_id t) = 32.
Proof.
  unfold plan_prev, checked_sub. case_bools; [|done]. intros Ht.
  apply sbind_Ok in Ht as ([x|] & st1 & Hx & Ht); [|done]. unfold sret in Ht. simplify_eq.
  apply prev_id_len in Hx. simpl. split_and!; [done|lia|done].
Qed.

Lemma planned_lookup (fields : nat) j (hs : list (option (ShipLog.t * EntryHeader.t))) i lh :
  take fields (zip_with (fun h (wanted : bool) => if wanted then h else None) hs (wanted_fields j)) !! i
    = Some (Some lh) <->
  (i < fields)%nat /\ hs !! i = Some (Some lh) /\ wanted_fields j !! i = Some true.
Proof.
  destruct (decide (i < fields)%nat) as [Hi|Hi].
  - rewrite lookup_take_lt, lookup_zip_with by done.
    destruct (hs !! i) as [x|]; simpl; [|naive_solver].
    destruct (wanted_fields j !! i) as [[|]|]; simpl; naive_solver.
  - rewrite lookup_take_ge by lia. naive_solver.
Qed.

Lemma plan_spec j p st : plan w sha256 s j None = (Ok p, st) -> planned j p.
Proof.
  unfold plan. intros H. apply sbind_Ok in H as ([id0 hs] & st1 & Hp & H).
  apply plan_headers_spec in Hp as [-> [H1 _ H3 H4 H5 H6]].
  apply sbind_Ok in H as (id & st2 & Hid & H).
  destruct id as [id|].
  2: { assert (id0 = None) as -> by (destruct id0; [unfold sret in Hid; simplify_eq|done]).
    unfold sret in H. apply pair_eq in H as [H _]. apply Ok_inj in H as <-.
    split; cbn [pl_job pl_this pl_prev pl_block pl_fields]; try done.
    - by rewrite length_replicate.
    - intros i l h Hi. apply lookup_replicate in Hi as [? _]. done.
    - intros i k l Hlt Hk Hw Hl. exfalso. rewrite (H5 eq_refl i k true) in Hl; [done|]. by apply zip_kinds. }
  apply sbind_Ok in H as (prev & st3 & Hprev & H). apply sbind_Ok in H as (block & st4 & Hb & H).
  unfold sret in H. simplify_eq. unfold slift in Hb.
  injection Hb as Hb _.
  assert (Hid32 : blen id = 32 /\ forall x, id0 = Some x -> x = id).
  { destruct id0 as [x|].
    - unfold sret in Hid. simplify_eq. destruct (H6 eq_refl _ eq_refl) as (k & l & h & Hl & Hh & ->).
      split; [by destruct (header_facts k (j_n j) l h Hl Hh)|naive_solver].
    - by apply id_with_len in Hid as [? _]. }
  destruct Hid32 as [Hlen Hsame].
  assert (st2 = None) as ->.
  { destruct id0; [unfold sret in Hid; by simplify_eq|by apply id_with_len in Hid as [_ ?]]. }
  split; simpl.
  - done.
  - rewrite length_take, length_zip_with, H1. simpl. by destruct (j_v1 j).
  - by intros t [= <-].
  - intros t ->. by eapply plan_prev_ok.
  - intros i l h Hi. apply planned_lookup in Hi as (_ & Hi & Hw).
    destruct (H3 i l h Hi) as (k & wd & Hz & Hl & Hh & ->). exists k.
    apply lookup_zip_with_Some in Hz as (k' & wd' & Hz & Hk & _). simplify_eq.
    by rewrite (Hsame _ eq_refl).
  - intros i k l Hlt Hk Hw Hl. destruct (H4 i k l) as [h Hh]; [by apply zip_kinds|done|].
    exists h. by apply planned_lookup.
  - intros l len ->. apply plan_block_ok in Hb as (? & ? & ? & ?). eauto 10.
  - intros l _ Hfl Hl. unfold plan_block in Hb. rewrite Hl, Hfl in Hb. bind Hb as x Hx. destruct x as [pos len].
    guard Hb as Hm. apply Ok_inj in Hb as <-. eauto.
Qed.
End StoreFacts.

(** ** What a package holds *)
Section ReadFacts.
Context (w : world) `{!FileSource w} (sha256 : bytes -> bytes) (s : Store).
Hypothesis Hs : store_ok w sha256 s.

Lemma put_varuint32_app out v : is_u32 v -> put_varuint32 out v = out ++ varuint v.
Proof.
  intros Hv. unfold put_varuint32, varuint. rewrite (leb_fuel 5 5) by (width_lia || lia).
  clear Hv. generalize 5%nat. intros fuel. revert out v; induction fuel as [|fuel IH]; intros out v; simpl.
  { by rewrite app_nil_r. }
  destruct (_ =? 0); [done|]. by rewrite IH, <- app_assoc.
Qed.

Lemma base_with_block_ok this prev base body :
  encode_result_base (s_last s) (s_last s) this prev None = Ok base -> blen body < U32 ->
  encode_result_base (s_last s) (s_last s) this prev (Some body) =
    Ok ((base_with_block base (blen body)).1 ++ body).
Proof.
  intros Hb Hu. rewrite encode_result_base_app in * by done. apply Ok_inj in Hb as <-. f_equal.
  unfold base_with_block. cbn [fst]. unfold opt_block_bytes.
  rewrite !app_assoc. rewrite length_app. change (length [x00]) with 1%nat. rewrite Nat.add_sub, take_app_length.
  rewrite put_varuint32_app by (pose proof (blen_nonneg body); width_lia). by rewrite <- !app_assoc.
Qed.

Lemma block_body_ok log this prev body :
  block_body w sha256 log this prev = Ok body ->
  BlockLog.body w log (bp_num this) = Ok body /\ blen body <= MAX_BLOCK_BYTES /\
  (forall p, prev = Some p -> slice body PREVIOUS_AT 32 = Some (bp_id p)) /\
  exists h, block_header sha256 body = Ok h /\ bh_id h = bp_id this.
Proof.
  unfold block_body. intros H. bind H as b Hb. guard H as Hm. apply rbind_Ok in H as (u & Hp & H).
  bind H as h Hh. guard H as Hid. apply Ok_inj in H as ->. bools. split_and!; try done; [|eauto].
  intros p ->. bind Hp as fol Hfol. apply or_panic_Ok in Hfol. apply ensure_Ok in Hp. bools. by subst.
Qed.

(** The buffer of a block is as large as the block. *)
Lemma body_exact log this prev body : block_body w sha256 log this prev = Ok body -> body_capacity body = blen body.
Proof.
  intros H. apply block_body_ok in H as (Hb & _). unfold BlockLog.body in Hb. bind Hb as e He. destruct e as [fp len].
  bind Hb as out Hout. bind Hb as previous Hp. apply rbind_Ok in Hb as (u & _ & Hb). apply Ok_inj in Hb as <-.
  apply or_panic_Ok, slice_Some in Hp as (_ & _ & Hp & _). change PREVIOUS_AT with 14 in Hp.
  unfold body_capacity, vec_reserve. cbn [vec_new v_data v_cap]. change (blen []) with 0.
  destruct (Z.ltb_spec (0 - 0) (blen out)); cbn [vec_alloc v_cap]; lia.
Qed.

Lemma body_bounds log n body pos len :
  BlockLog.body w log n = Ok body -> BlockLog.bounds w log n = Ok (pos, len) -> blen body = len.
Proof.
  unfold BlockLog.body, BlockLog.bounds. intros H Hb. bind H as e He. rewrite He in Hb. destruct e as [[f p] l].
  cbn [rbind fst snd] in *. apply Ok_inj in Hb. simplify_eq.
  apply entry_inside in He as (d & b & Hd & Hp & Hsl & _).
  bind H as out Hout. bind H as prev Hprev. apply rbind_Ok in H as (u & _ & H). apply Ok_inj in H as <-.
  apply slice_Some in Hsl as Hin. erewrite read_exact_at_spec in Hout by (done || lia). rewrite Hsl in Hout.
  apply Ok_inj in Hout as <-. by apply slice_blen in Hsl.
Qed.

(** The capacity of a base: room for the longest base. *)
Lemma base_capacity_ok j p base len :
  planned w sha256 s j p -> encode_result_base (s_last s) (s_last s) (pl_this p) (pl_prev p) None = Ok base ->
  (base_with_block base len).2 <= BASE_BYTES.
Proof.
  intros P Hb. rewrite encode_result_base_app in Hb by done. apply Ok_inj in Hb as <-.
  unfold base_with_block. cbn [snd]. rewrite !app_assoc, length_app. change (length [x00]) with 1%nat.
  rewrite Nat.add_sub, take_app_length. autorewrite with blen.
  assert (Ho : forall o, (forall t, o = Some t -> blen (bp_id t) = 32) -> blen (opt_pos_bytes o) <= 37).
  { intros [t|] Ht; simpl; [|done]. rewrite blen_cons. unfold pos_bytes. rewrite blen_app, blen_le_bytes, Ht by done.
    lia. }
  pose proof (Ho (pl_this p)) as H1. pose proof (Ho (pl_prev p)) as H2.
  pose proof (blen_pos_bytes _ (so_last _ _ _ Hs)).
  specialize (H1 ltac:(intros t Ht; by apply (pd_this _ _ _ _ _ P) in Ht as [_ ?])).
  specialize (H2 ltac:(intros t Ht; by apply (pd_prev _ _ _ _ _ P) in Ht as (_ & _ & ?))).
  change (blen (opt_block_bytes None)) with 1. unfold BASE_BYTES, BASE_CAPACITY, POS_LEN. lia.
Qed.
End ReadFacts.

Section BuildFacts.
Context (w : world) `{!FileSource w} (sha256 : bytes -> bytes) (s : Store).
Context `{F : Flate} (zlib : bytes -> option bytes) `{L : !FlateLaws F zlib} (can_reserve : Z -> bool).
Hypothesis Hs : store_ok w sha256 s.

(** The inflated payload of an entry of an opened log: the meaning of its stored stream. *)
Definition inflates (l : ShipLog.t) (h : EntryHeader.t) (y : bytes) : Prop :=
  exists file d, ShipLog.log_file w l = Ok file /\ views w file d /\
    (exists n pos, 0 <= pos /\ read_header w file n pos = Ok h) /\
    blen (stored h d) = EntryHeader.data_len h /\ valid zlib (stored h d) (EntryHeader.uncompressed h) y.

(** What one field of a result is. *)
Definition part_ok (limits : FetchLimits) (field : option (ShipLog.t * EntryHeader.t)) (p : Part) : Prop :=
  match field, p with
  | None, Absent => True
  | Some (l, h), Inline y =>
      (inflates l h (v_data y) /\ blen (v_data y) <= stream_threshold limits) /\ inline_room limits h y
  | Some (l, h), PStreamed st => st_log st = l /\ st_header st = h /\
      exists y, inflates l h y /\ st_len st = blen y /\ stream_threshold limits < blen y < U64
  | _, _ => False
  end.

(** An entry whose header a plan read. *)
Definition field_read (n : Z) (l : ShipLog.t) (h : EntryHeader.t) : Prop :=
  exists k, ship_log w s k n = Some l /\ ShipLog.header w l n = Ok h.

Lemma stored_len h file d n pos :
  views w file d -> 0 <= pos -> read_header w file n pos = Ok h -> blen (stored h d) = EntryHeader.data_len h.
Proof.
  intros Hd Hp Hh. destruct (header_data w h file d n pos Hd Hp Hh) as (data & Hsl & Hl & _).
  unfold stored. rewrite Hsl. simpl. by rewrite Hl.
Qed.

Lemma payload_part limits n l h p :
  0 <= stream_threshold limits < u64_max -> field_read n l h ->
  payload w can_reserve l h limits = Ok p -> part_ok limits (Some (l, h)) p.
Proof.
  intros Ht (k & Hl & Hh) Hp. destruct (header_facts w sha256 s Hs k n l h Hl Hh)
    as (_ & _ & file & d & pos & Hf & Hd & Hpos & Hr).
  pose proof (payload_spec w zlib l h file d n pos Hf Hd Hpos Hr can_reserve limits Ht) as Hsp.
  pose proof (stored_len h file d n pos Hd Hpos Hr) as Hlen. rewrite Hp in Hsp.
  assert (Hin : forall y, valid zlib (stored h d) (EntryHeader.uncompressed h) y -> inflates l h y)
    by (intros y Hy; exists file, d; split_and!; [done|done|by exists n, pos|done|done]).
  destruct p as [|y|st]; simpl; [done|naive_solver|naive_solver].
Qed.

Lemma read_parts_ok limits n fields parts :
  0 <= stream_threshold limits < u64_max ->
  (forall i l h, fields !! i = Some (Some (l, h)) -> field_read n l h) ->
  read_parts w can_reserve limits fields = Ok parts -> Forall2 (part_ok limits) fields parts.
Proof.
  intros Ht. revert parts; induction fields as [|fd fields IH]; intros parts Hf H; cbn [read_parts] in H.
  { apply Ok_inj in H as <-. constructor. }
  bind H as part Hpart. bind H as rest Hrest. apply Ok_inj in H as <-. constructor.
  - destruct fd as [[l h]|]; [|by apply Ok_inj in Hpart as <-].
    destruct (payload w can_reserve l h limits) as [p|e|] eqn:Hp; simpl in Hpart; simplify_eq.
    eapply payload_part; [done| |done]. by apply (Hf 0%nat).
  - apply IH; [|done]. intros i l h Hi. by apply (Hf (S i)).
Qed.

(** What [read] makes of a plan. *)
Record package_ok (limits : FetchLimits) (p : Plan) (pkg : Package) : Prop := {
  pk_same_job : pk_job pkg = pl_job p;
  pk_wire : encode_result_base (s_last s) (s_last s) (pl_this p) (pl_prev p) (pk_block pkg) =
    Ok (pk_base pkg ++ default [] (pk_block pkg));
  pk_capacity : pk_base_capacity pkg <= BASE_BYTES;
  pk_block_exact : forall body, pk_block pkg = Some body -> pk_block_capacity pkg = blen body;
  pk_has_block : is_Some (pk_block pkg) <-> is_Some (pl_block p);
  pk_body : forall body, pk_block pkg = Some body ->
    exists l len this, pl_block p = Some (l, len) /\ pl_this p = Some this /\
      block_body w sha256 l this (pl_prev p) = Ok body;
  pk_parts_ok : Forall2 (part_ok limits) (pl_fields p) (pk_parts pkg)
}.

Lemma read_spec limits j p pkg :
  0 <= stream_threshold limits < u64_max -> planned w sha256 s j p ->
  read w sha256 can_reserve s p limits = Ok pkg -> package_ok limits p pkg.
Proof.
  intros Ht P H. unfold read in H. bind H as base Hb. bind H as x Hx. destruct x as [bc block].
  bind H as parts Hp. apply Ok_inj in H as <-.
  assert (Hparts : Forall2 (part_ok limits) (pl_fields p) parts).
  { eapply read_parts_ok; [done| |done]. intros i l h Hi.
    destruct (pd_field _ _ _ _ _ P i l h Hi) as (k & _ & _ & Hl & Hh & _). by exists k. }
  destruct (pl_block p) as [[l len]|] eqn:Hbl.
  - destruct (pd_block _ _ _ _ _ P l len Hbl) as (_ & _ & _ & _ & [this Hthis]). rewrite Hthis in Hx.
    bind Hx as body Hbody. apply Ok_inj in Hx. simplify_eq.
    destruct (block_body w sha256 l this (pl_prev p)) as [b|e|] eqn:Hbb; simpl in Hbody; simplify_eq.
    pose proof (block_body_ok w sha256 l this (pl_prev p) body Hbb) as (_ & Hmax & _).
    assert (Hu : blen body < U32) by (unfold MAX_BLOCK_BYTES in *; width_lia).
    assert (wrap32 (blen body) = blen body) as Hw
      by (apply Z.mod_small; pose proof (blen_nonneg body); done).
    split; cbn [pk_job pk_base pk_base_capacity pk_block pk_block_capacity pk_parts]; try done.
    + rewrite Hw. by apply base_with_block_ok.
    + by eapply base_capacity_ok.
    + intros b [= <-]. by eapply body_exact.
    + intros b [= <-]. eauto 10.
  - apply Ok_inj in Hx. simplify_eq. split; cbn [pk_job pk_base pk_base_capacity pk_block pk_block_capacity pk_parts]; try done.
    + by rewrite app_nil_r.
    + rewrite Hbl. split; by intros [].
Qed.

(** A base is never empty and never longer than its longest form. *)
Lemma base_bounds limits j p pkg :
  planned w sha256 s j p -> package_ok limits p pkg -> 0 < blen (pk_base pkg) <= BASE_BYTES.
Proof.
  intros P K. pose proof (pk_wire _ _ _ K) as Hw.
  assert (Hu : match pk_block pkg with Some b => blen b < U32 | None => True end).
  { destruct (pk_block pkg) as [b|] eqn:Hb; [|done]. destruct (pk_body _ _ _ K b Hb) as (l & len & t & _ & _ & Hbb).
    apply block_body_ok in Hbb as (_ & Hmax & _). unfold MAX_BLOCK_BYTES in *. width_lia. }
  rewrite encode_result_base_app in Hw by done. apply Ok_inj in Hw.
  assert (Ho : forall o, (forall t, o = Some t -> blen (bp_id t) = 32) -> 1 <= blen (opt_pos_bytes o) <= 37).
  { intros [t|] Ht; simpl; [|done]. rewrite blen_cons. unfold pos_bytes. rewrite blen_app, blen_le_bytes, Ht by done.
    lia. }
  pose proof (Ho (pl_this p) ltac:(intros t Ht; by apply (pd_this _ _ _ _ _ P) in Ht as [_ ?])) as H1.
  pose proof (Ho (pl_prev p) ltac:(intros t Ht; by apply (pd_prev _ _ _ _ _ P) in Ht as (_ & _ & ?))) as H2.
  pose proof (blen_pos_bytes _ (so_last _ _ _ Hs)) as H3.
  apply (f_equal blen) in Hw. rewrite !blen_app in Hw. unfold BASE_BYTES.
  destruct (pk_block pkg) as [b|]; simpl in Hw; autorewrite with blen in Hw; [|lia].
  destruct (varuint_spec (blen b)) as (_ & _ & _ & Hv); [pose proof (blen_nonneg b); width_lia|].
  specialize (Hv 5%nat ltac:(lia)). change (128 ^ Z.of_nat 5) with 34359738368 in Hv.
  specialize (Hv ltac:(width_lia)). pose proof (blen_nonneg (varuint (blen b))). lia.
Qed.

(** ** The memory a package holds *)

(** The payload bytes a part carries, and the most its buffer was while it was read. *)
Definition part_carried (p : Part) : Z := match p with Inline data => blen (v_data data) | _ => 0 end.
Definition part_peak (p : Part) : Z := match p with Inline data => v_peak data | _ => 0 end.
Definition peak_held (p : Package) : Z :=
  pk_base_capacity p + from_option (fun _ => pk_block_capacity p) 0 (pk_block p) +
  foldr Z.add 0 (part_peak <$> pk_parts p).

Lemma part_held_bound limits fd p :
  (forall x y, zlib x = Some y -> blen y <= MAX_INFLATE_RATIO * blen x) ->
  0 <= stream_threshold limits < u64_max -> part_ok limits fd p ->
  part_held p = part_carried p /\ 0 <= part_held p <= stream_threshold limits /\ part_held p <= part_peak p /\
  match fd with
  | Some (l, h) => part_peak p <= field_bound (stream_threshold limits) h <= stream_threshold limits + 1
  | None => part_peak p = 0
  end.
Proof.
  intros Hratio Ht Hp. assert (Hmax : LEGACY_STEP_MAX = 1048576) by reflexivity.
  destruct fd as [[l h]|], p as [|y|st]; simpl in Hp; try done; simpl.
  - destruct Hp as [[(file & d & _ & _ & _ & Hsl & Hz & Hlen) Hy] [Hc Hr]]. pose proof (blen_nonneg (v_data y)). rewrite Hc.
    split; [done|]. split; [lia|]. unfold field_bound. destruct (EntryHeader.uncompressed h) as [u|].
    + specialize (Hlen u eq_refl). destruct (Z.leb_spec u (stream_threshold limits)); lia.
    + apply Hratio in Hz. rewrite Hsl in Hz. unfold legacy_room, sat_add64, sat_mul64, MAX_INFLATE_RATIO in *.
      rewrite Hmax in *. widths. lia.
  - split; [done|]. split; [lia|]. split; [done|]. unfold field_bound.
    destruct Hp as (_ & _ & y & (file & d & _ & _ & _ & Hsl & Hz & Hlen) & _ & Hy).
    destruct (EntryHeader.uncompressed h) as [u|].
    + specialize (Hlen u eq_refl). destruct (Z.leb_spec u (stream_threshold limits)); lia.
    + pose proof (blen_nonneg (stored h d)). unfold sat_add64, sat_mul64, MAX_INFLATE_RATIO.
      rewrite Hmax. widths. lia.
  - split_and!; lia.
Qed.

(** A sum of [u64]s that fits does not wrap. *)
Lemma foldr_add64 l m :
  Forall (fun x => 0 <= x <= m) l -> Z.of_nat (length l) * m < U64 ->
  foldr add64 0 l = foldr Z.add 0 l /\ 0 <= foldr Z.add 0 l <= Z.of_nat (length l) * m.
Proof.
  induction 1 as [|x l Hx Hl IH]; cbn [length foldr]; intros Hm; [done|].
  rewrite Nat2Z.inj_succ in *. destruct IH as [-> IH]; [nia|]. split; [|lia].
  unfold add64, wrap64. apply Z.mod_small. lia.
Qed.

Lemma parts_held_bound limits fields parts :
  (forall x y, zlib x = Some y -> blen y <= MAX_INFLATE_RATIO * blen x) ->
  0 <= stream_threshold limits <= 2 ^ 62 -> Forall2 (part_ok limits) fields parts ->
  (length fields <= 3)%nat ->
  let inline := foldr add64 0
    ((fun lh => field_bound (stream_threshold limits) lh.2) <$> omap id fields) in
  foldr Z.add 0 (part_held <$> parts) = foldr Z.add 0 (part_carried <$> parts) /\
  0 <= foldr Z.add 0 (part_held <$> parts) <= foldr Z.add 0 (part_peak <$> parts) /\
  foldr Z.add 0 (part_peak <$> parts) <= inline <= 3 * (2 ^ 62 + 1) /\
  foldr Z.add 0 (part_held <$> parts) <= Z.of_nat (length parts) * stream_threshold limits.
Proof.
  intros Hratio Ht Hf Hlen. cbv zeta. set (th := stream_threshold limits) in *.
  assert (Hth : 0 <= th < u64_max) by width_lia.
  set (bs := (fun lh : ShipLog.t * EntryHeader.t => field_bound th lh.2) <$> omap id fields).
  assert (Hb : Forall (fun x => 0 <= x <= th + 1) bs /\ (length bs <= length fields)%nat /\
    foldr Z.add 0 (part_held <$> parts) = foldr Z.add 0 (part_carried <$> parts) /\
    0 <= foldr Z.add 0 (part_held <$> parts) <= foldr Z.add 0 (part_peak <$> parts) /\
    foldr Z.add 0 (part_peak <$> parts) <= foldr Z.add 0 bs /\
    foldr Z.add 0 (part_held <$> parts) <= Z.of_nat (length parts) * th).
  { unfold bs. clear Hlen. induction Hf as [|fd p fields parts Hp _ IH]; [by simpl; split_and!|].
    destruct IH as (I1 & I2 & I3 & I4 & I5 & I6). pose proof (part_held_bound limits fd p Hratio Hth Hp) as (H0 & H1 & H2 & H3).
    fold th in H1, H3. cbn [omap list_omap]. destruct fd as [[l h]|]; cbn [id fmap list_fmap foldr length snd].
    - rewrite Nat2Z.inj_succ. split_and!; [constructor; [lia|done]|lia..].
    - rewrite Nat2Z.inj_succ. split_and!; [done|lia..]. }
  destruct Hb as (I1 & I2 & I3 & I4 & I5 & I6).
  assert (H3 : Z.of_nat (length bs) * (th + 1) <= 3 * (2 ^ 62 + 1)) by (apply Z.mul_le_mono_nonneg; lia).
  destruct (foldr_add64 bs (th + 1) I1) as [-> Hs3]; [width_lia|]. split_and!; done || lia.
Qed.
End BuildFacts.

(** ** Nothing panics *)
Section NoPanic.
Context (w : world) `{!FileSource w} (sha256 : bytes -> bytes) (s : Store).
Context `{F : Flate} (zlib : bytes -> option bytes) `{L : !FlateLaws F zlib} (can_reserve : Z -> bool).
Hypothesis Hs : store_ok w sha256 s.

(** Without pages: no panic, and still no pages. *)
Definition calm {A} (m : paged A) : Prop := no_panic (m None).1 /\ (m None).2 = None.

Lemma calm_ret {A} (a : A) : calm (sret a).
Proof. done. Qed.

Lemma calm_bind {A B} (m : paged A) (k : A -> paged B) :
  calm m -> (forall a, calm (k a)) -> calm (sbind m k).
Proof.
  intros [H1 H2] Hk. unfold calm, sbind. destruct (m None) as [[a|e|] st]; simpl in *; subst; [apply Hk|done|done].
Qed.

Lemma calm_lift {A} (r : result A) : no_panic r -> calm (slift r).
Proof. done. Qed.

Lemma no_panic_in_source {A} src (r : result A) : no_panic r -> no_panic (in_source src r).
Proof. by destruct r. Qed.

Lemma calm_header k l n : calm (header w k l n).
Proof. split; [|done]. apply no_panic_in_source, header_no_panic. Qed.

Lemma calm_id_with n : calm (id_with w sha256 s n).
Proof.
  unfold id_with. destruct (n =? 0); [apply calm_ret|].
  destruct (first_ship_log w s LogKind_ALL n) as [[k l]|].
  - apply calm_bind; [apply calm_header|]. intros. apply calm_ret.
  - destruct (next_block_log w sha256 s n) as [[next l]|]; [|apply calm_ret].
    apply calm_bind; [apply calm_lift, no_panic_in_source, previous_no_panic|]. intros. apply calm_ret.
Qed.

Lemma calm_prev_id p : calm (prev_id w sha256 s p).
Proof. apply calm_bind; [apply calm_id_with|]. intros [id|]; apply calm_ret. Qed.

Lemma calm_plan_headers n ks id : calm (plan_headers w s n ks id).
Proof.
  revert id; induction ks as [|[k wanted] ks IH]; intros id; cbn [plan_headers]; [apply calm_ret|].
  assert (Hskip : calm (let! (id, hs) := plan_headers w s n ks id in sret (id, None :: hs))).
  { apply calm_bind; [apply IH|]. intros [? ?]. apply calm_ret. }
  destruct (ship_log w s k n) as [l|]; [|done]. destruct (bool_decide (is_Some id) && negb wanted); [done|].
  apply calm_bind; [apply calm_header|]. intros h.
  apply calm_bind; [by destruct (bool_decide _)|]. intros _.
  apply calm_bind; [apply IH|]. intros [? ?]. apply calm_ret.
Qed.

Lemma bounds_no_panic l n : no_panic (BlockLog.bounds w l n).
Proof. unfold BlockLog.bounds. apply no_panic_bind; [apply entry_no_panic|]. by intros [[? ?] ?] _. Qed.

Lemma plan_calm j : calm (plan w sha256 s j).
Proof.
  unfold plan. apply calm_bind; [apply calm_plan_headers|]. intros [id hs].
  apply calm_bind; [destruct id; [apply calm_ret|apply calm_id_with]|]. intros [i|]; [|apply calm_ret].
  apply calm_bind.
  { unfold plan_prev. destruct (checked_sub (j_n j) 1); [|apply calm_ret].
    apply calm_bind; [apply calm_prev_id|]. intros. apply calm_ret. }
  intros prev. apply calm_bind; [|intros; apply calm_ret]. apply calm_lift. unfold plan_block.
  destruct (block_log w sha256 s (j_n j)); [|done]. destruct (fl_block (j_flags j)); [|done].
  apply no_panic_bind; [apply no_panic_in_source, bounds_no_panic|]. intros [? ?] _. solve_no_panic.
Qed.

Lemma block_body_no_panic log this prev : no_panic (block_body w sha256 log this prev).
Proof.
  unfold block_body. apply no_panic_bind; [apply body_no_panic|]. intros body Hb.
  apply no_panic_bind; [apply no_panic_ensure|]. intros [] Hm. apply ensure_Ok in Hm. bools.
  unfold BlockLog.body in Hb. bind Hb as e He. destruct e as [[? ?] ?]. bind Hb as out Hout. bind Hb as pv Hpv. apply or_panic_Ok in Hpv.
  apply rbind_Ok in Hb as (u & _ & Hb). apply Ok_inj in Hb as ->.
  apply no_panic_bind.
  { destruct prev; [|done]. rewrite Hpv. simpl. apply no_panic_ensure. }
  intros _ _. apply no_panic_bind; [apply block_header_no_panic; unfold MAX_BLOCK_BYTES in *; width_lia|].
  intros h _. solve_no_panic.
Qed.

Lemma read_no_panic limits j p :
  0 <= stream_threshold limits < u64_max -> planned w sha256 s j p ->
  no_panic (read w sha256 can_reserve s p limits).
Proof.
  intros Ht P. unfold read. rewrite encode_result_base_app by done. cbn [rbind].
  apply no_panic_bind.
  { destruct (pl_block p) as [[l len]|], (pl_this p); try done.
    apply no_panic_bind; [apply no_panic_in_source, block_body_no_panic|done]. }
  intros [bc block] _. apply no_panic_bind; [|done].
  assert (Hf : forall i l h, pl_fields p !! i = Some (Some (l, h)) -> field_read w s (j_n j) l h).
  { intros i l h Hi. destruct (pd_field _ _ _ _ _ P i l h Hi) as (k & _ & _ & Hl & Hh & _). by exists k. }
  revert Hf. generalize (pl_fields p). intros fields.
  induction fields as [|fd fields IH]; intros Hf; cbn [read_parts]; [done|].
  apply no_panic_bind.
  - destruct fd as [[l h]|]; [|done]. apply no_panic_in_source.
    destruct (Hf 0%nat l h eq_refl) as (k & Hl & Hh).
    destruct (header_facts w sha256 s Hs k (j_n j) l h Hl Hh) as (_ & _ & file & d & pos & H1 & H2 & H3 & H4).
    pose proof (payload_spec w zlib l h file d (j_n j) pos H1 H2 H3 H4 can_reserve limits Ht) as Hp.
    unfold no_panic. by destruct (payload w can_reserve l h limits).
  - intros part _. apply no_panic_bind; [|done]. apply IH. intros i l h Hi. by apply (Hf (S i)).
Qed.
End NoPanic.

(** ** An example store

    Blocks 7 and 8 with their traces (the first entry stored with its size, the second in the
    legacy layout) and their block log, served whole. *)
Definition exs_id (n : Z) : bytes := be_bytes 4 n ++ replicate 28 x77.
Definition exs_body (n : Z) : bytes :=
  replicate 14 x01 ++ exs_id (n - 1) ++ replicate 68 x02 ++ [x00; x00; xaa; xbb].
Definition exs_traces : list block :=
  [ (exs_id 7, sized_payload 3 (zlib_stored [x61; x62; x63]));
    (exs_id 8, legacy_payload 0 (zlib_stored [x64; x65])) ].
Definition exs_builder : LogBuilder.t := default LogBuilder.new (ok_of (push_all exs_traces LogBuilder.new)).
Definition exs_world : world :=
  world_of [("trace_history.log", LogBuilder.log exs_builder);
            ("trace_history.index", LogBuilder.index exs_builder);
            ("blocks.log", exb_log 7 [exs_body 7; exs_body 8] [48; 174]);
            ("blocks.index", concat (le_bytes 8 <$> [48; 174]))].
Definition exs_trace : ShipLog.t :=
  ShipLog.mk Trace "trace_history.log" "trace_history.index" 7 9 82 (blen (LogBuilder.log exs_builder)).
Definition exs_blocks : BlockLog.t :=
  BlockLog.mk "blocks.log" "blocks.index" 3 7 8 (replicate 32 x09) 48 300.
Definition exs_served : Served := mkServed (7, 9) (0, 0) (0, 0) (7, 9).
Definition exs_status (v1 : bool) : bytes :=
  encode_status v1 (mkStatus (mkPos 8 (exs_id 8)) (mkPos 8 (exs_id 8)) (7, 9) (0, 0) (0, 0) (replicate 32 x09)).
Definition exs_store : Store :=
  mkStore (Some [exs_trace]) None None (Some [exs_blocks]) exs_served (mkPos 8 (exs_id 8))
    (mkFirst 7 (Some (mkPos 6 (exs_id 6)))) (replicate 32 x09) [] [] "{}" (exs_status false) (exs_status true).
Definition exs_job (n : Z) : Job := mkJob 1 n false (mkFlags true true true false).
Definition exs_limits : FetchLimits := mkLimits 2.

Lemma exs_world_ok : world_ok exs_world.
Proof. apply world_of_ok. repeat constructor. Qed.

Lemma exs_store_ok : let S := direct_source exs_world exs_world_ok in store_ok exs_world exb_sha exs_store.
Proof.
  intros S. split.
  - intros [] c Hc; simpl in Hc; simplify_eq. constructor; [|constructor]. split; [|done].
    unfold reopens. by vm_compute.
  - intros c Hc. simpl in Hc. simplify_eq. constructor; [|constructor].
    exists "blocks.log", "blocks.index". by vm_compute.
  - split; by vm_compute.
  - constructor.
Qed.

(** What a package holds, and that building one never panics: used by the prefetcher too. *)
Lemma held_bounded (w : world) (S : FileSource w) (sha256 : bytes -> bytes) (s : Store)
    (F : Flate) (zlib : bytes -> option bytes) (L : FlateLaws F zlib) (can_reserve : Z -> bool)
    (j : Job) (limits : FetchLimits) (p : Plan) (pkg : Package) (Hs : store_ok w sha256 s)
    (Hratio : forall x y, zlib x = Some y -> blen y <= MAX_INFLATE_RATIO * blen x)
    (Ht : 0 <= stream_threshold limits <= 2 ^ 62)
    (Hp : (plan w sha256 s j None).1 = Ok p) (Hr : read w sha256 can_reserve s p limits = Ok pkg) :
  held pkg = pk_base_capacity pkg + from_option blen 0 (pk_block pkg) + foldr Z.add 0 (part_carried <$> pk_parts pkg) /\
  held pkg <= peak_held pkg /\ peak_held pkg + READ_SCRATCH <= bound limits p /\ held pkg <= package_cap limits.
Proof.
  destruct (plan w sha256 s j None) as [r st] eqn:Hpl. simpl in Hp. subst r.
  pose proof (plan_spec w sha256 s Hs j p st Hpl) as P.
  assert (Ht' : 0 <= stream_threshold limits < u64_max) by width_lia.
  destruct (read_spec w sha256 s zlib can_reserve Hs limits j p pkg Ht' P Hr) as [_ Kw Kc Ke Kh Kb Kp].
  assert (Hlen : (length (pl_fields p) <= 3)%nat) by (rewrite (pd_count _ _ _ _ _ P); destruct (j_v1 j); lia).
  pose proof (parts_held_bound w zlib limits _ _ Hratio Ht Kp Hlen) as (Hi0 & Hi & Hi2 & Hi3). cbv zeta in *.
  pose proof Kp as Hpl'; apply Forall2_length in Hpl'. rewrite <- Hpl' in Hi3.
  assert (Hcap : from_option (fun _ => pk_block_capacity pkg) 0 (pk_block pkg) = from_option blen 0 (pk_block pkg)).
  { destruct (pk_block pkg) as [body|]; [|done]. by apply Ke. }
  assert (Hblock : from_option blen 0 (pk_block pkg) = from_option snd 0 (pl_block p) /\
    0 <= from_option blen 0 (pk_block pkg) <= MAX_BLOCK_BYTES).
  { destruct (pk_block pkg) as [body|] eqn:Hbl.
    - destruct (Kb body eq_refl) as (l & len & this & Hl & Hthis & Hbb). rewrite Hl. simpl.
      destruct (pd_block _ _ _ _ _ P l len Hl) as (_ & _ & Hmax & [pos Hpos] & _).
      apply block_body_ok in Hbb as (Hbd & _). rewrite (proj1 (pd_this _ _ _ _ _ P this Hthis)) in Hbd.
      rewrite (body_bounds w l _ body pos len Hbd Hpos). pose proof (blen_nonneg body).
      split; [done|]. rewrite (body_bounds w l _ body pos len Hbd Hpos) in *. lia.
    - destruct (pl_block p) as [x|]; [|done]. destruct Kh as [_ Kh]. destruct Kh; done. }
  destruct Hblock as [Hblock Hmax]. unfold held, peak_held, bound, package_cap, package_bound.
  rewrite Hcap, <- Hblock, Hi0 in *. set (inline := foldr add64 0 _) in *. set (block := from_option blen 0 _) in *.
  set (parts := foldr Z.add 0 (part_carried <$> _)) in *. set (peak := foldr Z.add 0 (part_peak <$> _)) in *.
  clearbody inline parts peak block. unfold add64, wrap64, sat_add64, sat_mul64, BASE_ALLOWANCE.
  unfold BASE_BYTES, MAX_BLOCK_BYTES, READ_SCRATCH, INPUT_WINDOW in *. change (Z.shiftl 512 10) with 524288.
  change (2 ^ 20) with 1048576. change (2 ^ 62) with 4611686018427387904 in *. widths.
  assert (Z.of_nat (length (pl_fields p)) * stream_threshold limits <= 3 * stream_threshold limits) by nia.
  rewrite (Z.mod_small (2 * 36 + 2 * 37 + 1 + 5 + block)) by lia.
  rewrite (Z.mod_small (_ + inline)) by lia. rewrite Z.mod_small by lia. lia.
Qed.

Lemma build_no_panic (w : world) (S : FileSource w) (sha256 : bytes -> bytes) (s : Store)
    (F : Flate) (zlib : bytes -> option bytes) (L : FlateLaws F zlib) (can_reserve : Z -> bool)
    (j : Job) (limits : FetchLimits) (Hs : store_ok w sha256 s)
    (Ht : 0 <= stream_threshold limits < u64_max) :
  is_panic (build w sha256 can_reserve s j limits) = false.
Proof.
  unfold build. apply no_panic_bind; [apply (plan_calm w sha256 s j)|]. intros p Hp.
  destruct (plan w sha256 s j None) as [r st] eqn:Hpl. simpl in Hp. subst r.
  apply (read_no_panic w sha256 s zlib can_reserve Hs limits j p Ht). by apply (plan_spec _ _ _ Hs j p st).
Qed.

(** ** Properties *)

(** C26: [payload] of a validated entry. It never panics; what it returns inline is the whole
    inflated payload, at most the stream threshold; what it leaves to stream inflates to exactly
    the length it announces, above the threshold; and it accepts every valid entry the allocator
    grants room for, of either layout. *)
Theorem payload_exact (w : world) (S : FileSource w) (F : Flate) (zlib : bytes -> option bytes)
    (L : FlateLaws F zlib) (can_reserve : Z -> bool) (l : ShipLog.t) (h : EntryHeader.t)
    (file : PosFile.t) (d : bytes) (n pos : Z) (limits : FetchLimits)
    (Hfile : ShipLog.log_file w l = Ok file) (Hd : views w file d) (Hpos : 0 <= pos)
    (Hh : read_header w file n pos = Ok h) (Ht : 0 <= stream_threshold limits < u64_max) :
  is_panic (payload w can_reserve l h limits) = false /\
  (forall p, payload w can_reserve l h limits = Ok p -> part_ok w zlib limits (Some (l, h)) p) /\
  (forall y, valid zlib (stored h d) (EntryHeader.uncompressed h) y -> blen y < U64 ->
     can_reserve (blen y) = true -> is_ok (payload w can_reserve l h limits) = true).
Proof.
  pose proof (payload_spec w zlib l h file d n pos Hfile Hd Hpos Hh can_reserve limits Ht) as Hp.
  pose proof (stored_len w h file d n pos Hd Hpos Hh) as Hlen.
  assert (Hin : forall y, valid zlib (stored h d) (EntryHeader.uncompressed h) y -> inflates w zlib l h y)
    by (intros y Hy; exists file, d; split_and!; [done|done|by exists n, pos|done|done]).
  destruct (payload w can_reserve l h limits) as [p|e|]; [| |done].
  - split; [done|]. split; [|done]. intros q [= <-]. destruct p as [|y|st]; simpl; [done|naive_solver..].
  - split; [done|]. split; [done|]. intros y Hy Hu Hc. destruct (Hp y Hy Hu) as [_ Hr]. congruence.
Qed.

Lemma payload_exact_witness :
  let S := direct_source exi_world exi_world_ok in
  is_ok (payload (F := level0) exi_world (fun _ => true) exi_ship exi_header (mkLimits 2)) = true.
Proof.
  intros S.
  assert (Hf : ShipLog.log_file exi_world exi_ship = Ok exi_log) by (vm_compute; reflexivity).
  assert (Ht : 0 <= stream_threshold (mkLimits 2) < u64_max) by (split; [vm_compute; discriminate|reflexivity]).
  pose proof (payload_exact exi_world S level0 zlib_level0 level0_laws (fun _ => true) exi_ship exi_header
    exi_log _ 5 0 (mkLimits 2) Hf exi_log_views) as H.
  specialize (H ltac:(discriminate) exi_header_ok Ht). destruct H as (_ & _ & H).
  apply (H [x61; x62; x63]); [|reflexivity|reflexivity].
  split; [vm_compute; reflexivity|]. intros e He. vm_compute in He. injection He as <-. reflexivity.
Defined.

(** Planning a block through a session's index pages gives the plan, or the error, that
    planning it without them gives, whatever its other builds have left in the pages. *)
Lemma plan_pages_transparent (w : world) (S : FileSource w) (sha256 : bytes -> bytes) (s : Store)
    (j : Job) (c : PageCache) (Hs : store_ok w sha256 s) (Hc : psteps w PageCache_default c) :
  exists c', plan w sha256 s j (Some c) = ((plan w sha256 s j None).1, Some c') /\
    psteps w PageCache_default c'.
Proof. by apply (paged_plan w sha256 s Hs j). Qed.

Lemma plan_pages_transparent_witness :
  let S := direct_source exs_world exs_world_ok in
  exists c', plan exs_world exb_sha exs_store (exs_job 8) (Some PageCache_default) =
    ((plan exs_world exb_sha exs_store (exs_job 8) None).1, Some c').
Proof.
  intros S.
  pose proof (plan_pages_transparent exs_world S exb_sha exs_store (exs_job 8) PageCache_default exs_store_ok) as H.
  specialize (H (rtc_refl _ _)). destruct H as (c' & H & _). exists c'. exact H.
Defined.

(** C10: a block result is consistent. When [build] returns a package, its base and block are the
    bytes [encode_result_base] gives for head and LIB at the last block, the block's own position
    and the one before; the block, if carried, is the stored block of that number, its header
    hashes to the id the result names and it follows the id the result names before it; there is
    one part per field the request version has; and a part is present exactly when it was asked for
    and a log serves the block, and is then that log's entry, which names the same id. *)
Theorem build_consistent (w : world) (S : FileSource w) (sha256 : bytes -> bytes) (s : Store)
    (F : Flate) (zlib : bytes -> option bytes) (L : FlateLaws F zlib) (can_reserve : Z -> bool)
    (j : Job) (limits : FetchLimits) (pkg : Package) (Hs : store_ok w sha256 s)
    (Hsha : forall x, blen (sha256 x) = 32) (Ht : 0 <= stream_threshold limits < u64_max)
    (Hb : build w sha256 can_reserve s j limits = Ok pkg) :
  let n := j_n j in
  exists this prev,
    encode_result_base (s_last s) (s_last s) this prev (pk_block pkg) =
      Ok (pk_base pkg ++ default [] (pk_block pkg)) /\
    (forall t, this = Some t -> bp_num t = n) /\ (forall t, prev = Some t -> bp_num t = n - 1) /\
    (forall body, pk_block pkg = Some body ->
       exists l h t, block_log w sha256 s n = Some l /\ BlockLog.body w l n = Ok body /\
         block_header sha256 body = Ok h /\ this = Some t /\ bh_id h = bp_id t /\
         forall p, prev = Some p -> bh_previous h = bp_id p) /\
    (is_Some this -> fl_block (j_flags j) = true -> is_Some (block_log w sha256 s n) ->
       is_Some (pk_block pkg)) /\
    length (pk_parts pkg) = (2 + if j_v1 j then 1 else 0)%nat /\
    forall i k part, LogKind_ALL !! i = Some k -> pk_parts pkg !! i = Some part ->
      match part with
      | Absent => wanted_fields j !! i = Some true -> ship_log w s k n = None
      | _ => exists l h, wanted_fields j !! i = Some true /\ ship_log w s k n = Some l /\
          ShipLog.header w l n = Ok h /\ this = Some (mkPos n (EntryHeader.id h)) /\
          part_ok w zlib limits (Some (l, h)) part
      end.
Proof.
  intros n. unfold build in Hb. bind Hb as p Hp. destruct (plan w sha256 s j None) as [r st] eqn:Hpl.
  simpl in Hp. subst r. pose proof (plan_spec w sha256 s Hs j p st Hpl) as P.
  destruct (read_spec w sha256 s zlib can_reserve Hs limits j p pkg Ht P Hb) as [_ Kw _ _ Kh Kb Kp].
  exists (pl_this p), (pl_prev p). split; [done|].
  split; [intros t H; by apply (pd_this _ _ _ _ _ P) in H as [? _]|].
  split; [intros t H; by apply (pd_prev _ _ _ _ _ P) in H as (? & _)|]. split; [|split; [|split]].
  - intros body Hbody. destruct (Kb body Hbody) as (l & len & this & Hl & Hthis & Hbb).
    destruct (pd_block _ _ _ _ _ P l len Hl) as (Hlog & _ & _ & _).
    apply block_body_ok in Hbb as (Hbd & Hmax & Hprev & h & Hh & Hid).
    destruct (pd_this _ _ _ _ _ P this Hthis) as [En _]. rewrite En in Hbd.
    exists l, h, this. split_and!; try done. intros q Hq.
    apply block_header_fields in Hh as (Hfol & _); [|done|unfold MAX_BLOCK_BYTES in *; width_lia].
    specialize (Hprev q Hq). congruence.
  - intros Hthis Hfl [l Hl]. apply Kh. destruct (pd_attach _ _ _ _ _ P l Hthis Hfl Hl) as [len ->]. done.
  - rewrite <- (pd_count _ _ _ _ _ P). symmetry. by apply Forall2_length in Kp.
  - intros i k part Hk Hpart. destruct (Forall2_lookup_r _ _ _ _ _ Kp Hpart) as (fd & Hfd & Hok).
    apply lookup_lt_Some in Hfd as Hlt. rewrite (pd_count _ _ _ _ _ P) in Hlt.
    destruct fd as [[l h]|].
    + destruct (pd_field _ _ _ _ _ P i l h Hfd) as (k' & Hk' & Hw & Hl & Hh & Hthis). simplify_eq.
      destruct part as [|y|st']; [done|eauto 10|eauto 10].
    + destruct part as [|y|st']; [|done|done]. intros Hw. destruct (ship_log w s k n) as [l|] eqn:Hl; [|done].
      destruct (pd_served _ _ _ _ _ P i k l Hlt Hk Hw Hl) as [h Hh]. congruence.
Qed.

Lemma build_consistent_witness :
  let S := direct_source exs_world exs_world_ok in
  exists pkg, build (F := level0) exs_world exb_sha (fun _ => true) exs_store (exs_job 8) exs_limits = Ok pkg /\
    pk_parts pkg = [Inline (mkVec [x64; x65] 2 3); Absent] /\
    exists h, block_header exb_sha (exs_body 8) = Ok h /\ bh_id h = exs_id 8 /\ bh_previous h = exs_id 7.
Proof.
  intros S.
  assert (Hb : build (F := level0) exs_world exb_sha (fun _ => true) exs_store (exs_job 8) exs_limits
    = Ok (mkPackage (exs_job 8)
        (x08 :: x00 :: x00 :: x00 :: exs_id 8 ++ le_bytes 4 8 ++ exs_id 8 ++ x01 :: le_bytes 4 8 ++ exs_id 8 ++
         x01 :: le_bytes 4 7 ++ exs_id 7 ++ [x01; x76]) 152 (Some (exs_body 8)) (blen (exs_body 8)) [Inline (mkVec [x64; x65] 2 3); Absent]))
    by (vm_compute; reflexivity).
  eexists. split; [exact Hb|]. split; [reflexivity|].
  assert (Ht : 0 <= stream_threshold exs_limits < u64_max) by (split; [vm_compute; discriminate|reflexivity]).
  pose proof (build_consistent exs_world S exb_sha exs_store level0 zlib_level0 level0_laws (fun _ => true)
    (exs_job 8) exs_limits _ exs_store_ok (fun _ => eq_refl) Ht Hb) as H. cbv zeta in H.
  destruct H as (this & prev & Hw & _ & _ & Hbody & _).
  destruct (Hbody _ eq_refl) as (l & h & t & _ & _ & Hh & _). exists h. split; [exact Hh|].
  vm_compute in Hh. apply Ok_inj in Hh as <-. split; reflexivity.
Defined.

(** C27: what a result holds in memory is within what its plan announced. The capacities of the buffers of a package
    add up to exactly the capacity of its base, the length of its block and the lengths of its inline payloads, with
    nothing left over from the growth of any; no package exceeds [package_cap]; and even with every buffer at the
    largest it was while the result was built, and the scratch memory of a read beside them, the reservation a prefetch
    makes covers them. *)
Theorem held_within_bound (w : world) (S : FileSource w) (sha256 : bytes -> bytes) (s : Store)
    (F : Flate) (zlib : bytes -> option bytes) (L : FlateLaws F zlib) (can_reserve : Z -> bool)
    (j : Job) (limits : FetchLimits) (p : Plan) (pkg : Package) (Hs : store_ok w sha256 s)
    (Hratio : forall x y, zlib x = Some y -> blen y <= MAX_INFLATE_RATIO * blen x)
    (Ht : 0 <= stream_threshold limits <= 2 ^ 62)
    (Hp : (plan w sha256 s j None).1 = Ok p) (Hr : read w sha256 can_reserve s p limits = Ok pkg) :
  held pkg = pk_base_capacity pkg + from_option blen 0 (pk_block pkg) + foldr Z.add 0 (part_carried <$> pk_parts pkg) /\
  held pkg <= peak_held pkg /\ peak_held pkg + READ_SCRATCH <= bound limits p /\ held pkg <= package_cap limits.
Proof. by apply (held_bounded w S sha256 s F zlib L can_reserve j limits p pkg). Qed.

Lemma held_within_bound_witness :
  let S := direct_source exs_world exs_world_ok in
  exists p pkg, (plan exs_world exb_sha exs_store (exs_job 8) None).1 = Ok p /\
    read (F := level0) exs_world exb_sha (fun _ => true) exs_store p exs_limits = Ok pkg /\
    held pkg = 152 + blen (exs_body 8) + 2 /\ peak_held pkg + READ_SCRATCH <= bound exs_limits p.
Proof.
  intros S.
  assert (Hp : exists p pkg, (plan exs_world exb_sha exs_store (exs_job 8) None).1 = Ok p /\
    read (F := level0) exs_world exb_sha (fun _ => true) exs_store p exs_limits = Ok pkg /\
    pk_base_capacity pkg = 152 /\ pk_block pkg = Some (exs_body 8) /\ foldr Z.add 0 (part_carried <$> pk_parts pkg) = 2).
  { eexists _, _. split; [vm_compute; reflexivity|]. split; [vm_compute; reflexivity|]. split; [reflexivity|].
    split; vm_compute; reflexivity. }
  destruct Hp as (p & pkg & Hp & Hr & H1 & H2 & H3). exists p, pkg. split; [exact Hp|]. split; [exact Hr|].
  assert (Ht : 0 <= stream_threshold exs_limits <= 2 ^ 62) by (split; vm_compute; discriminate).
  pose proof (held_within_bound exs_world S exb_sha exs_store level0 zlib_level0 level0_laws (fun _ => true)
    (exs_job 8) exs_limits p pkg exs_store_ok zlib_level0_ratio Ht Hp Hr) as H.
  destruct H as (Hh & _ & Hb & _). rewrite H1, H2, H3 in Hh. split; [exact Hh|exact Hb].
Defined.

(** Building a block result never panics, whatever the bytes of the logs and whatever the
    block and the fields asked for. *)
Lemma build_never_panics (w : world) (S : FileSource w) (sha256 : bytes -> bytes) (s : Store)
    (F : Flate) (zlib : bytes -> option bytes) (L : FlateLaws F zlib) (can_reserve : Z -> bool)
    (j : Job) (limits : FetchLimits) (Hs : store_ok w sha256 s)
    (Ht : 0 <= stream_threshold limits < u64_max) :
  is_panic (build w sha256 can_reserve s j limits) = false.
Proof. by apply (build_no_panic w S sha256 s F zlib L can_reserve j limits). Qed.

Lemma build_never_panics_witness :
  let S := direct_source exs_world exs_world_ok in
  is_panic (build (F := level0) exs_world exb_sha (fun _ => true) exs_store (exs_job 9) exs_limits) = false.
Proof.
  intros S.
  assert (Ht : 0 <= stream_threshold exs_limits < u64_max) by (split; [vm_compute; discriminate|reflexivity]).
  exact (build_never_panics exs_world S exb_sha exs_store level0 zlib_level0 level0_laws (fun _ => true)
    (exs_job 9) exs_limits exs_store_ok Ht).
Defined.
