(* ===== verification/Startup.v ===== *)
(** * Opening the store ([crates/ship-archive/src/store.rs])

    [Store::open_files]: the catalogs of what was discovered, the ranges they let the server
    serve, the checks of block ids at seams and edges ([--verify-ids seams]) and the search for the
    id of the block below each served range. [Store::open] adds the directory walk, which is not
    modelled; the paths it finds are the input. *)

From Stdlib Require Import Sorted.
From S2P Require Import Prelude.
From S2P Require Import Errors.
From S2P Require Import Cursor.
From S2P Require Import Binio.
From S2P Require Import Protocol.
From S2P Require Import ShipLog.
From S2P Require Import Zlib.
From S2P Require Import Inflate.
From S2P Require Import BlockLog.
From S2P Require Import Catalog.
From S2P Require Import Fetch.
From S2P Require Import Pages.
From S2P Require Import Store.

Inductive BlocksMode := Required | NoBlocks.
Inductive VerifyIds := Seams | Off.

#[export] Instance BlocksMode_eq_dec : EqDecision BlocksMode.
Proof. solve_decision. Defined.
#[export] Instance VerifyIds_eq_dec : EqDecision VerifyIds.
Proof. solve_decision. Defined.

(** The part of [StoreConfig] that [open_files] reads; [abi] is what [load_abi] gives. *)
Record StoreConfig := mkConfig {
  cfg_dirs : list string;
  cfg_range : option (Z * Z);
  cfg_blocks : BlocksMode;
  cfg_chain_id : option bytes;
  cfg_verify_ids : VerifyIds;
  cfg_abi : result string
}.

(** [catalog::Discovered]. *)
Record Discovered := mkDiscovered {
  di_trace : list PathPair;
  di_chain_state : list PathPair;
  di_finality : list PathPair;
  di_blocks : list PathPair
}.

Definition discovered_ship (d : Discovered) (k : LogKind) : list PathPair :=
  match k with Trace => di_trace d | ChainState => di_chain_state d | Finality => di_finality d end.

Definition clip (r : Z * Z) (window : option (Z * Z)) : Z * Z :=
  let '(begin, end_) :=
    match window with
    | Some (wb, we) => (Z.max r.1 wb, Z.min r.2 we)
    | None => r
    end in
  if begin <? end_ then (begin, end_) else (0, 0).

(** A [BTreeSet<u32>]: inserting keeps it sorted and free of duplicates. *)
Fixpoint set_insert (x : Z) (l : list Z) : list Z :=
  match l with
  | [] => [x]
  | y :: l' => if x <? y then x :: l else if x =? y then l else y :: set_insert x l'
  end.

Definition set_of (l : list Z) : list Z := foldl (fun acc x => set_insert x acc) [] l.

(** [a.or_else(|_| b)]. *)
Definition or_else {A} (a b : result A) : result A := match a with Err _ => b | r => r end.

(** [iter().map(..).collect::<Result<Vec<_>>>()]: in order, up to the first error. *)
Fixpoint collect {A} (l : list (result A)) : result (list A) :=
  match l with
  | [] => Ok []
  | r :: l => let? a := r in let? rest := collect l in Ok (a :: rest)
  end.

(** Every view of a block's id must be the first one. *)
Definition agree (n : Z) (views : list bytes) : result () :=
  match views with
  | [] => Ok ()
  | id :: rest => ensure (forallb (fun other => bool_decide (other = id)) rest) (EIdsDisagree n)
  end.

Section Ops.
Context (w : world) `{!FileSource w} (sha256 : bytes -> bytes).

Definition served_file (c : list BlockLog.t) (n : Z) : result BlockLog.t :=
  or_err (catalog_get (Ranged0 := BlockLog_Ranged w sha256) c n) (EInNoFile n).

(** ** Checking ids *)
Section Store.
Context (s : Store).

(** The entry ids of the served state-history logs holding [n], then the block log's view of it. *)
Definition served_views (n : Z) : list (result bytes) :=
  omap (fun k => (fun log => ShipLog.id w log n) <$> ship_log w s k n) LogKind_ALL ++
  match next_block_log w sha256 s n with
  | Some (next, log) => [BlockLog.previous w log next]
  | None =>
      match block_log w sha256 s n with
      | Some log => [BlockLog.id w sha256 log n]
      | None => []
      end
  end.

Definition check_ids (n : Z) : result () :=
  let? views := collect (served_views n) in agree n views.

Fixpoint check_all (points : list Z) : result () :=
  match points with
  | [] => Ok ()
  | n :: points => do? check_ids n ;; check_all points
  end.

Definition strictly_inside (r : Z * Z) (x : Z) : bool := (r.1 <? x) && (x <? r.2).

(** The edges and the file seams of one kind's served range. *)
Definition kind_points (k : LogKind) : list Z :=
  let '(begin, end_) := served_ship (s_served s) k in
  if begin =? end_ then []
  else
    [begin; end_ - 1] ++
    match catalog_of s k with
    | Some c =>
        concat ((fun x => [x - 1; x]) <$>
          filter (fun x => strictly_inside (begin, end_) x = true) (seams (Ranged0 := ShipLog_Ranged w) c))
    | None => []
    end.

Definition block_seams (c : list BlockLog.t) : list Z :=
  filter (fun x => strictly_inside (sv_blocks (s_served s)) x = true)
    (seams (Ranged0 := BlockLog_Ranged w sha256) c).

(** One seam of the block logs: the block before it, and the block after it that follows it. *)
Definition check_seam (c : list BlockLog.t) (x : Z) : result () :=
  let? before := served_file c (x - 1) in
  let? after := served_file c x in
  let? id := BlockLog.id w sha256 before (x - 1) in
  let? follows := BlockLog.previous w after x in
  ensure (bool_decide (id = follows)) (EBlockLogsUnlinked x).

Fixpoint check_seams (c : list BlockLog.t) (xs : list Z) : result () :=
  match xs with
  | [] => Ok ()
  | x :: xs => do? check_seam c x ;; check_seams c xs
  end.

Definition verify_seams : result () :=
  let points := concat (kind_points <$> LogKind_ALL) in
  let? points :=
    match s_blocks s with
    | Some c =>
        do? check_seams c (block_seams c) ;;
        Ok (points ++ concat ((fun x => [x - 1; x]) <$> block_seams c))
    | None => Ok points
    end in
  check_all (set_of points).

(** ** The block below each served range *)

(** Every open file naming block [p], served or not, in order; each is a read of its id. *)
Definition outside_views (p : Z) : list (result bytes) :=
  omap (fun k => c ← catalog_of s k;
                 log ← catalog_get (Ranged0 := ShipLog_Ranged w) c p;
                 Some (ShipLog.id w log p)) LogKind_ALL ++
  match s_blocks s with
  | Some blocks =>
      match (next ← checked_add32 p 1;
             log ← catalog_get (Ranged0 := BlockLog_Ranged w sha256) blocks next;
             Some (BlockLog.previous w log next)) with
      | Some r => [r]
      | None => []
      end ++
      match catalog_get (Ranged0 := BlockLog_Ranged w sha256) blocks p with
      | Some log => [BlockLog.id w sha256 log p]
      | None => []
      end
  | None => []
  end.

(** [find_map] over the reads: the first that succeeds, and the errors before it. *)
Fixpoint first_readable (views : list (result bytes)) : result (option bytes * list err) :=
  match views with
  | [] => Ok (None, [])
  | Ok id :: _ => Ok (Some id, [])
  | Err e :: views => let? (id, es) := first_readable views in Ok (id, e :: es)
  | Panic :: _ => Panic
  end.

(** The id found for block [p], below the range beginning at [n], and the reads skipped. *)
Definition find_below (verify : VerifyIds) (n p : Z) : result (option bytes * list err) :=
  match verify with
  | Seams =>
      let? views := collect (outside_views p) in
      do? agree p views ;;
      let? id := store_id w sha256 s p in
      Ok (match id with Some _ => None | None => head views end, [])
  | Off =>
      match block_log w sha256 s n with
      | Some _ => Ok (None, [])
      | None => first_readable (outside_views p)
      end
  end.

(** The loop over the first blocks of the served ranges. *)
Fixpoint below_loop (verify : VerifyIds) (begins : list Z) (below : list BlockPos)
    (skipped : list (Z * err)) : result (list BlockPos * list (Z * err)) :=
  match begins with
  | [] => Ok (below, skipped)
  | n :: begins =>
      match checked_sub n 1 with
      | Some p =>
          if (p =? 0) || existsb (fun k => contains (served_ship (s_served s) k) p) LogKind_ALL
          then below_loop verify begins below skipped
          else
            let? (found, es) := find_below verify n p in
            below_loop verify begins
              (match found with Some id => below ++ [mkPos p id] | None => below end)
              (skipped ++ ((fun e => (p, e)) <$> es))
      | None => below_loop verify begins below skipped
      end
  end.

Definition begins : list Z :=
  set_of (fst <$> filter (fun r => (r.1 <? r.2) = true) (served_ship (s_served s) <$> LogKind_ALL)).
End Store.

Definition set_below (s : Store) (below : list BlockPos) : Store :=
  mkStore (s_trace s) (s_chain_state s) (s_finality s) (s_blocks s) (s_served s) (s_last s) (s_first s)
    (s_chain_id s) below (s_skipped s) (s_abi s) (s_status_v0 s) (s_status_v1 s).

Definition set_first (s : Store) (first : First) (skipped : list (Z * err)) : Store :=
  mkStore (s_trace s) (s_chain_state s) (s_finality s) (s_blocks s) (s_served s) (s_last s) first
    (s_chain_id s) (s_below s) skipped (s_abi s) (s_status_v0 s) (s_status_v1 s).

Definition link_below (verify : VerifyIds) (s : Store) : result Store :=
  let? (below, skipped) := below_loop s verify (begins s) (s_below s) [] in
  let s := set_below s below in
  let num := default 0 (head (begins s)) in
  let? (prev, skipped) :=
    match checked_sub num 1 with
    | Some p =>
        match (prev_id w sha256 s p None).1 with
        | Ok id => Ok (mkPos p <$> id, skipped)
        | Err e => if decide (verify = Off) then Ok (None, skipped ++ [(p, e)]) else Err e
        | Panic => Panic
        end
    | None => Ok (None, skipped)
    end in
  Ok (set_first s (mkFirst num prev) skipped).

(** ** Opening *)

(** The window the state-history catalogs reach: one block below [--range]. *)
Definition reach (range : option (Z * Z)) : option (Z * Z) :=
  '(begin, end_) ← range;
  below ← checked_sub begin 1;
  if 0 <? below then Some (below, end_) else None.

Definition open_ship (cfg : StoreConfig) (found : Discovered) (k : LogKind)
    : result (option (list ShipLog.t) * list Finding) :=
  let within window := ship_catalog_within w (discovered_ship found k) k window in
  match reach (cfg_range cfg) with
  | Some window => or_else (within (Some window)) (within (cfg_range cfg))
  | None => within (cfg_range cfg)
  end.

Definition open_blocks (cfg : StoreConfig) (found : Discovered)
    : result (option (list BlockLog.t) * list Finding) :=
  match cfg_blocks cfg with
  | Required =>
      let? (catalog, f) := block_catalog_within w sha256 (di_blocks found) (cfg_range cfg) in
      let? c := or_err catalog ENoBlockLogs in
      Ok (Some c, f)
  | NoBlocks => Ok (None, [])
  end.

Definition chain_id_of (cfg : StoreConfig) (blocks : option (list BlockLog.t)) : result bytes :=
  match blocks, cfg_chain_id cfg with
  | Some b, want =>
      let? first := or_panic (head b) in
      let have := BlockLog.chain_id first in
      do? match want with
          | Some want => ensure (bool_decide (have = want)) EOtherChainId
          | None => Ok ()
          end ;;
      Ok have
  | None, Some id => Ok id
  | None, None => Err EChainIdRequired
  end.

(** What is served of a kind: its catalog within [--range] and within the served block logs. *)
Definition serve (cfg : StoreConfig) (blocks_range : option (Z * Z)) (c : option (list ShipLog.t))
    : result (Z * Z) :=
  match c with
  | None => Ok (0, 0)
  | Some c =>
      let? r := catalog_range (Ranged0 := ShipLog_Ranged w) c in
      let r := clip r (cfg_range cfg) in
      Ok match blocks_range with Some b => clip r (Some b) | None => r end
  end.

Definition blocks_range_of (cfg : StoreConfig) (blocks : option (list BlockLog.t))
    : result (option (Z * Z)) :=
  match blocks with
  | Some b =>
      let? r := catalog_range (Ranged0 := BlockLog_Ranged w sha256) b in
      Ok (Some (clip r (cfg_range cfg)))
  | None => Ok None
  end.

Definition set_last (s : Store) (last : BlockPos) : Store :=
  mkStore (s_trace s) (s_chain_state s) (s_finality s) (s_blocks s) (s_served s) last (s_first s)
    (s_chain_id s) (s_below s) (s_skipped s) (s_abi s) (s_status_v0 s) (s_status_v1 s).

Definition set_status (s : Store) : Store :=
  mkStore (s_trace s) (s_chain_state s) (s_finality s) (s_blocks s) (s_served s) (s_last s) (s_first s)
    (s_chain_id s) (s_below s) (s_skipped s) (s_abi s)
    (encode_status false (status s)) (encode_status true (status s)).

Definition open_files (cfg : StoreConfig) (found : Discovered) : result (Store * list Finding) :=
  do? ensure (negb (bool_decide (cfg_dirs cfg = []))) ENoDirectory ;;
  do? match cfg_range cfg with
      | Some (begin, end_) => ensure (begin <? end_) (EEmptyRange begin end_)
      | None => Ok ()
      end ;;
  let? abi := cfg_abi cfg in
  let? (trace, f1) := open_ship cfg found Trace in
  let? (chain_state, f2) := open_ship cfg found ChainState in
  let? (finality, f3) := open_ship cfg found Finality in
  let? (blocks, f4) := open_blocks cfg found in
  let? chain_id := chain_id_of cfg blocks in
  let? blocks_range := blocks_range_of cfg blocks in
  let? sv1 := serve cfg blocks_range trace in
  let? sv2 := serve cfg blocks_range chain_state in
  let? sv3 := serve cfg blocks_range finality in
  let served := mkServed sv1 sv2 sv3 (default (0, 0) blocks_range) in
  let end_ := Z.max (Z.max sv1.2 sv2.2) sv3.2 in
  do? ensure (negb (end_ =? 0)) ENothingServed ;;
  do? ensure (1 <? end_) EOnlyBlock0 ;;
  let s := mkStore trace chain_state finality blocks served BlockPos_default First_default chain_id [] []
             abi [] [] in
  let last := end_ - 1 in
  let? oid := store_id w sha256 s last in
  let? id := or_err oid (ENoLastId last) in
  let s := set_last s (mkPos last id) in
  do? match cfg_verify_ids cfg with Seams => verify_seams s | Off => Ok () end ;;
  let? s := link_below (cfg_verify_ids cfg) s in
  Ok (set_status s, f1 ++ f2 ++ f3 ++ f4).

(** ** What startup warns of *)

(** [Store::uncovered]: the kinds that hold blocks they do not serve, with both ranges. *)
Fixpoint uncovered_kinds (s : Store) (kinds : list LogKind) : result (list (LogKind * (Z * Z) * (Z * Z))) :=
  match kinds with
  | [] => Ok []
  | k :: kinds =>
      match catalog_of s k with
      | None => uncovered_kinds s kinds
      | Some c =>
          let? held := catalog_range (Ranged0 := ShipLog_Ranged w) c in
          let? rest := uncovered_kinds s kinds in
          let served := served_ship (s_served s) k in
          Ok (if bool_decide (held = served) then rest else (k, held, served) :: rest)
      end
  end.

Definition uncovered (s : Store) (cfg : StoreConfig) : result (list (LogKind * (Z * Z) * (Z * Z))) :=
  if negb (bool_decide (cfg_blocks cfg = Required)) || bool_decide (is_Some (cfg_range cfg))
  then Ok [] else uncovered_kinds s LogKind_ALL.

(** [Store::unlinked]: each skipped read, then the first block without a [prev_block], with
    whether a file naming the block before it could not be read. *)
Inductive LinkWarning := WSkipped (block : Z) (why : err) | WNoPrev (num : Z) (unreadable : bool).

Definition unlinked (s : Store) : list LinkWarning :=
  ((fun x => WSkipped x.1 x.2) <$> s_skipped s) ++
  (let num := fi_num (s_first s) in
   if (2 <? num) && bool_decide (fi_prev (s_first s) = None)
   then [WNoPrev num (existsb (fun x => x.1 =? num - 1) (s_skipped s))]
   else []).

End Ops.

(** ** Ranges *)

Lemma contains_iff r n : contains r n = true <-> r.1 <= n < r.2.
Proof. unfold contains. rewrite andb_true_iff, Z.leb_le, Z.ltb_lt. done. Qed.

(** A block of [--range], when there is one. *)
Definition in_range (window : option (Z * Z)) (n : Z) : Prop :=
  match window with Some r => contains r n = true | None => True end.

Lemma clip_contains r window n :
  contains (clip r window) n = true <-> contains r n = true /\ in_range window n.
Proof.
  unfold clip, in_range. destruct r as [b e]. destruct window as [[wb we]|]; cbn [fst snd].
  - rewrite !contains_iff. destruct (Z.ltb_spec (Z.max b wb) (Z.min e we)); simpl; lia.
  - rewrite !contains_iff. destruct (Z.ltb_spec b e); simpl; intuition lia.
Qed.

(** A clipped range is empty as (0, 0), or else has a first block. *)
Lemma clip_shape r window : clip r window = (0, 0) \/ (clip r window).1 < (clip r window).2.
Proof.
  unfold clip. destruct (match window with Some (wb, we) => _ | None => _ end) as [b e].
  destruct (Z.ltb_spec b e); [by right|by left].
Qed.

(** ** Sets and sequences of reads *)

Lemma collect_Ok {A} (l : list (result A)) xs : collect l = Ok xs <-> l = Ok <$> xs.
Proof.
  revert xs; induction l as [|r l IH]; intros xs; cbn [collect].
  { split; [intros H; apply Ok_inj in H as <-|destruct xs]; done. }
  split.
  - intros H. bind H as a Ha. bind H as rest Hr. apply Ok_inj in H as <-. subst r. simpl. by apply IH in Hr as ->.
  - destruct xs as [|x xs]; [done|]. simpl. intros [= -> ->]. cbn [rbind].
    by rewrite (proj2 (IH xs) eq_refl).
Qed.

Lemma first_readable_Ok views x es : first_readable views = Ok (Some x, es) -> Ok x ∈ views.
Proof.
  revert es; induction views as [|r views IH]; intros es; cbn [first_readable]; [done|].
  destruct r as [y|e|]; [|intros H; bind H as q Hq; destruct q as [i es']; apply Ok_inj in H; simplify_eq|done].
  - intros [= <- _]. by left.
  - right. by eapply IH.
Qed.

Lemma set_insert_elem x y l : x ∈ set_insert y l <-> x = y \/ x ∈ l.
Proof.
  induction l as [|z l IH]; cbn [set_insert]; [set_solver|].
  destruct (y <? z); [set_solver|]. destruct (Z.eqb_spec y z); [set_solver|]. set_solver.
Qed.

Lemma set_of_elem x l : x ∈ set_of l <-> x ∈ l.
Proof.
  unfold set_of. assert (H : forall acc, x ∈ foldl (fun acc x => set_insert x acc) acc l <-> x ∈ acc \/ x ∈ l).
  { induction l as [|y l IH]; intros acc; simpl; [set_solver|]. rewrite IH, set_insert_elem. set_solver. }
  rewrite H. set_solver.
Qed.

Lemma begins_elem s n :
  n ∈ begins s <-> exists k, (served_ship (s_served s) k).1 = n /\
    (served_ship (s_served s) k).1 < (served_ship (s_served s) k).2.
Proof.
  unfold begins. rewrite set_of_elem, list_elem_of_fmap. split.
  - intros (r & -> & Hr). apply list_elem_of_filter in Hr as [Hlt Hr]. apply list_elem_of_fmap in Hr as (k & -> & _).
    bools. by exists k.
  - intros (k & <- & Hlt). exists (served_ship (s_served s) k). split; [done|]. apply list_elem_of_filter.
    split; [by apply Z.ltb_lt|]. apply list_elem_of_fmap. exists k. split; [done|]. destruct k; set_solver.
Qed.

(** ** The catalogs of block logs *)
Section BlockCatalogs.
Context (w : world) `{!FileSource w} (sha256 : bytes -> bytes).
Let R := BlockLog_Ranged w sha256.

Definition opened_block (l : BlockLog.t) : Prop :=
  exists log index, BlockLog.open w sha256 log index = Ok (Some l).

Lemma open_block_logs_spec pairs logs fs logs' fs' :
  Forall opened_block logs -> open_block_logs w sha256 pairs logs fs = Ok (logs', fs') ->
  Forall opened_block logs'.
Proof.
  revert logs fs; induction pairs as [|p pairs IH]; intros logs fs Hl H; cbn [open_block_logs] in H.
  - by injection H as <- _.
  - bind H as o Ho. destruct o as [log|]; [|by eapply IH]. apply rbind_Ok in H as (u & _ & H).
    eapply IH; [|done]. apply Forall_app. split; [done|]. constructor; [|done]. by eexists _, _.
Qed.

Lemma block_catalog_sound pairs window c fs :
  block_catalog_within w sha256 pairs window = Ok (Some c, fs) ->
  contiguous (Ranged0 := R) c /\ Forall opened_block c /\ c <> [].
Proof.
  unfold block_catalog_within. intros H. bind H as lf Hlf. destruct lf as [logs fs0].
  apply open_block_logs_spec in Hlf; [|constructor].
  apply assemble_iff in H as (Hl & Hc & _). destruct (decide _) as [|Hne]; [done|]. injection Hc as ->.
  set (lo := in_order _ _) in *. split; [by apply firsts_None_contiguous|]. split.
  - apply Forall_lookup_2. intros i x Hx%list_elem_of_lookup_2. apply firsts_subset in Hx.
    apply in_order_elem in Hx as [Hx _]. apply list_elem_of_lookup_1 in Hx as [i' Hi].
    apply (Forall_lookup_1 _ _ _ _ Hlf Hi).
  - destruct lo; done.
Qed.

Lemma opened_block_range l :
  opened_block l -> 0 < (range_of (Ranged := R) l).1 < U32 /\
    ((range_of (Ranged := R) l).1 < (range_of (Ranged := R) l).2 < U32 \/ (range_of (Ranged := R) l).2 = 0).
Proof.
  intros (log & index & Ho). apply blocklog_open_sound in Ho
    as (f & g & d & ix & _ & _ & _ & _ & _ & _ & _ & Hf & Hl & _).
  cbn. unfold add32, wrap32. split; [lia|].
  destruct (Z.eq_dec (BlockLog.last l) u32_max) as [->|Hne]; [by right|left].
  rewrite Z.mod_small by width_lia. width_lia.
Qed.

(** A log ending at block 2^32 - 1 claims to end at 0; a catalog that ends above 0 has none. *)
Lemma block_catalog_nonempty c b e :
  contiguous (Ranged0 := R) c -> Forall opened_block c -> catalog_range (Ranged0 := R) c = Ok (b, e) ->
  0 < e -> nonempty_files (Ranged0 := R) c.
Proof.
  revert b; induction c as [|x c IH]; intros b Hc Ho Hr He; [constructor|].
  apply Forall_cons_1 in Ho as [Hx Ho]. apply opened_block_range in Hx as [Hx0 Hx].
  unfold catalog_range in Hr. cbn [list.head or_panic rbind] in Hr. bind Hr as g Hg. apply or_panic_Ok in Hg.
  apply Ok_inj in Hr. simplify_eq. destruct c as [|y c].
  - simpl in Hg. simplify_eq. constructor; [|constructor]. destruct Hx; lia.
  - destruct Hc as [Hxy Hc]. pose proof (Forall_cons_1 _ _ _ Ho) as [Hy _].
    apply opened_block_range in Hy as [Hy0 _]. constructor; [destruct Hx; lia|].
    apply (IH (range_of (Ranged := R) y).1); try done. unfold catalog_range.
    cbn [list.head or_panic rbind]. cbn [list.last] in Hg. by rewrite Hg.
Qed.
End BlockCatalogs.

(** ** What is served *)
Section Opening.
Context (w : world) `{!FileSource w} (sha256 : bytes -> bytes) (cfg : StoreConfig) (found : Discovered).
Hypothesis sha256_len : forall x, blen (sha256 x) = 32.
Let RS := ShipLog_Ranged w.
Let RB := BlockLog_Ranged w sha256.

(** What [open_files] knows of the logs and the served ranges once it has them. *)
Record laid_out (s : Store) : Prop := {
  la_store : store_ok w sha256 s;
  la_ship : forall k c, catalog_of s k = Some c ->
    contiguous (Ranged0 := RS) c /\ nonempty_files (Ranged0 := RS) c;
  la_blocks : forall c, s_blocks s = Some c -> contiguous (Ranged0 := RB) c;
  la_mode : cfg_blocks cfg = Required <-> is_Some (s_blocks s);
  la_range : exists br, blocks_range_of w sha256 cfg (s_blocks s) = Ok br /\
    sv_blocks (s_served s) = default (0, 0) br /\
    forall k, serve w cfg br (catalog_of s k) = Ok (served_ship (s_served s) k)
}.

Lemma open_ship_sound k c fs :
  open_ship w cfg found k = Ok (Some c, fs) ->
  contiguous (Ranged0 := RS) c /\ nonempty_files (Ranged0 := RS) c /\
  Forall (fun l => reopens w l /\ ShipLog.kind l = k) c /\ c <> [].
Proof.
  unfold open_ship, or_else. destruct (reach (cfg_range cfg)) as [window|]; [|apply ship_catalog_sound].
  destruct (ship_catalog_within w (discovered_ship found k) k (Some window)) as [r|e|] eqn:Hw; [| |done].
  - intros [= ->]. by eapply ship_catalog_sound.
  - apply ship_catalog_sound.
Qed.

Lemma open_blocks_sound oc fs :
  open_blocks w sha256 cfg found = Ok (oc, fs) ->
  (cfg_blocks cfg = Required <-> is_Some oc) /\
  forall c, oc = Some c -> contiguous (Ranged0 := RB) c /\ Forall (opened_block w sha256) c /\ c <> [].
Proof.
  unfold open_blocks. destruct (cfg_blocks cfg).
  - intros H. bind H as x Hx. destruct x as [oc' fs']. bind H as c Hc. apply or_err_Ok in Hc as ->.
    apply Ok_inj in H. simplify_eq. split; [by split|]. intros c' [= <-]. by eapply block_catalog_sound.
  - intros [= <- <-]. split; [split; [done|by intros []]|done].
Qed.

(** The served range of the block logs is where a block log serves. *)
Lemma block_log_served s n :
  laid_out s -> contains (sv_blocks (s_served s)) n = true <->
    is_Some (block_log w sha256 s n).
Proof.
  intros [Hs _ Hb _ (br & Hbr & Hsv & _)]. split.
  2: { intros [l Hl]. by apply (block_log_ok w sha256 s Hs) in Hl as [_ ?]. }
  intros Hn. unfold block_log. rewrite Hn. cbn [negb].
  unfold blocks_range_of in Hbr. destruct (s_blocks s) as [c|] eqn:Hc.
  2: { apply Ok_inj in Hbr as <-. rewrite Hsv in Hn. apply contains_iff in Hn. simpl in Hn. lia. }
  bind Hbr as r Hr. apply Ok_inj in Hbr as <-. rewrite Hsv in Hn. simpl in Hn.
  apply clip_contains in Hn as [Hn _]. apply contains_iff in Hn. destruct r as [b e]. simpl in Hn.
  pose proof (so_blocks _ _ _ Hs c Hc) as Ho. specialize (Hb c eq_refl).
  assert (Hb0 : 0 < b).
  { unfold catalog_range in Hr. bind Hr as f Hf. bind Hr as g Hg. apply or_panic_Ok in Hf. apply Ok_inj in Hr.
    simplify_eq. rewrite head_lookup in Hf.
    pose proof (Forall_lookup_1 _ _ _ _ Ho Hf) as Hf'. by apply opened_block_range in Hf' as [[? _] _]. }
  pose proof (block_catalog_nonempty w sha256 c b e Hb Ho Hr ltac:(lia)) as Hne.
  destruct (catalog_covers c b e n Hb Hne Hr Hn) as (x & Hx & Hh). simpl. exists x.
  by apply catalog_get_iff.
Qed.

(** The served range of a kind is where its catalog, [--range] and the block logs meet. *)
Lemma served_iff s k n :
  laid_out s -> contains (served_ship (s_served s) k) n = true <->
    (exists c l, catalog_of s k = Some c /\ l ∈ c /\ ShipLog.begin l <= n < ShipLog.end_ l) /\
    in_range (cfg_range cfg) n /\ (cfg_blocks cfg = Required -> is_Some (block_log w sha256 s n)).
Proof.
  intros HL. pose proof (block_log_served s n HL) as Hbl. destruct HL as [Hs Hc _ Hm (br & Hbr & Hsv & Hk)].
  specialize (Hk k). unfold serve in Hk. destruct (catalog_of s k) as [c|] eqn:Hcat.
  2: { apply Ok_inj in Hk. rewrite <- Hk, contains_iff. simpl. split; [lia|].
       intros [(c & l & Hno & _) _]. done. }
  bind Hk as r Hr. apply Ok_inj in Hk. destruct (Hc k c Hcat) as [Hcon Hne]. destruct r as [b e].
  assert (Hcov : contains (b, e) n = true <-> exists c' l, Some c = Some c' /\ l ∈ c' /\ ShipLog.begin l <= n < ShipLog.end_ l).
  { rewrite contains_iff. simpl. split.
    - intros Hn. destruct (catalog_covers c b e n Hcon Hne Hr Hn) as (x & Hx & Hh). by exists c, x.
    - intros (c' & l & [= <-] & Hl & Hn). destruct (catalog_range_bounds c b e l Hcon Hne Hr Hl) as [H1 H2].
      simpl in *. lia. }
  rewrite <- Hcov, <- Hbl. rewrite <- Hk.
  unfold blocks_range_of in Hbr. destruct (s_blocks s) as [bc|] eqn:Hbc.
  - bind Hbr as rb Hrb. apply Ok_inj in Hbr as <-. rewrite Hsv. simpl. rewrite clip_contains. cbn [in_range].
    rewrite (clip_contains (b, e)). destruct Hm as [_ Hm]. specialize (Hm ltac:(done)). tauto.
  - apply Ok_inj in Hbr as <-. rewrite clip_contains. destruct Hm as [Hm _].
    split; [|tauto]. intros [H1 H2]. split_and!; try done. intros Hreq. by destruct (Hm Hreq).
Qed.

Lemma served_ship_log s k n :
  laid_out s -> contains (served_ship (s_served s) k) n = true -> is_Some (ship_log w s k n).
Proof.
  intros HL Hn. pose proof Hn as Hn'. apply (served_iff s k n HL) in Hn' as [(c & l & Hc & Hl & Hh) _].
  destruct (la_ship _ HL k c Hc) as [Hcon Hne]. unfold ship_log. rewrite Hn, Hc. cbn [negb mbind option_bind].
  exists l. by apply catalog_get_iff.
Qed.

(** One past the highest served block. *)
Definition served_end (s : Store) : Z :=
  Z.max (Z.max (sv_trace (s_served s)).2 (sv_chain_state (s_served s)).2) (sv_finality (s_served s)).2.

Lemma open_files_inv st fs :
  open_files w sha256 cfg found = Ok (st, fs) ->
  exists s id s2, laid_out s /\ s_below s = [] /\ 1 < served_end s /\
    store_id w sha256 s (served_end s - 1) = Ok (Some id) /\
    (cfg_verify_ids cfg = Seams -> verify_seams w sha256 (set_last s (mkPos (served_end s - 1) id)) = Ok ()) /\
    link_below w sha256 (cfg_verify_ids cfg) (set_last s (mkPos (served_end s - 1) id)) = Ok s2 /\
    st = set_status s2.
Proof.
  unfold open_files. intros H. guard H as Hdirs. apply rbind_Ok in H as (u1 & _ & H). bind H as abi Habi.
  bind H as x1 Ht. destruct x1 as [trace f1]. bind H as x2 Hc. destruct x2 as [chain_state f2].
  bind H as x3 Hf. destruct x3 as [finality f3]. bind H as x4 Hb. destruct x4 as [blocks f4].
  bind H as chain Hchain. bind H as br Hbr. bind H as sv1 H1. bind H as sv2 H2. bind H as sv3 H3.
  guard H as Hend0. guard H as Hend. bools. bind H as oid Hoid. bind H as id Hid. apply or_err_Ok in Hid as ->.
  apply rbind_Ok in H as (u2 & Hv & H). bind H as s2 Hs2. apply Ok_inj in H. injection H as <- _.
  set (s := mkStore trace chain_state finality blocks _ _ _ _ _ _ _ _ _) in *.
  exists s, id, s2. split_and!; try done.
  2: { intros Hseams. rewrite Hseams in Hv. by destruct u2. }
  apply open_blocks_sound in Hb as [Hmode Hblocks]. split.
  - split; [| |by vm_compute|constructor].
    + intros [] c Hk; simpl in Hk; subst; [apply open_ship_sound in Ht|apply open_ship_sound in Hc|
        apply open_ship_sound in Hf]; naive_solver.
    + intros c Hk. simpl in Hk. subst. by destruct (Hblocks c eq_refl) as (_ & ? & _).
  - intros [] c Hk; simpl in Hk; subst; [apply open_ship_sound in Ht|apply open_ship_sound in Hc|
        apply open_ship_sound in Hf]; naive_solver.
  - intros c Hk. simpl in Hk. subst. by destruct (Hblocks c eq_refl) as (? & _).
  - done.
  - exists br. split; [done|]. split; [done|]. by intros [].
Qed.

(** The highest served block is served. *)
Lemma served_end_spec s :
  laid_out s -> 1 < served_end s ->
  (forall k n, contains (served_ship (s_served s) k) n = true -> n <= served_end s - 1) /\
  exists k, contains (served_ship (s_served s) k) (served_end s - 1) = true.
Proof.
  intros [_ _ _ _ (br & _ & _ & Hk)] He. split.
  - intros k n Hn. apply contains_iff in Hn. unfold served_end. destruct k; simpl in Hn; lia.
  - assert (Hs : forall k, 1 < (served_ship (s_served s) k).2 ->
      (served_ship (s_served s) k).1 < (served_ship (s_served s) k).2).
    { intros k H1. specialize (Hk k). unfold serve in Hk. destruct (catalog_of s k) as [c|].
      - bind Hk as r Hr. apply Ok_inj in Hk. rewrite <- Hk in H1 |- *.
        destruct br as [b|]; [destruct (clip_shape (clip r (cfg_range cfg)) (Some b)) as [E|E]|
          destruct (clip_shape r (cfg_range cfg)) as [E|E]]; try done; rewrite E in H1; simpl in H1; lia.
      - apply Ok_inj in Hk. rewrite <- Hk in H1. simpl in H1. lia. }
    assert (Hpick : exists k, served_end s = (served_ship (s_served s) k).2).
    { unfold served_end. destruct (Z.max_spec (Z.max (sv_trace (s_served s)).2 (sv_chain_state (s_served s)).2)
        (sv_finality (s_served s)).2) as [[_ ->]|[_ ->]]; [by exists Finality|].
      destruct (Z.max_spec (sv_trace (s_served s)).2 (sv_chain_state (s_served s)).2) as [[_ ->]|[_ ->]];
        [by exists ChainState|by exists Trace]. }
    destruct Hpick as [k Ek]. exists k. apply contains_iff. specialize (Hs k ltac:(lia)). lia.
Qed.

Lemma link_below_inv verify s s' :
  link_below w sha256 verify s = Ok s' ->
  exists below sk sk' prev, below_loop w sha256 s verify (begins s) (s_below s) [] = Ok (below, sk) /\
    s' = set_first (set_below s below) (mkFirst (default 0 (head (begins s))) prev) sk' /\
    (verify = Seams -> forall p, checked_sub (default 0 (head (begins s))) 1 = Some p ->
       exists id, named_id w sha256 (set_below s below) p = Ok id /\ prev = mkPos p <$> id).
Proof.
  unfold link_below. intros H. bind H as x Hx. destruct x as [below sk]. bind H as y Hy. destruct y as [prev sk'].
  apply Ok_inj in H as <-. exists below, sk, sk', prev. split; [done|]. split; [done|]. intros -> p Hp.
  change (begins (set_below s below)) with (begins s) in Hy. rewrite Hp in Hy. unfold named_id.
  destruct (prev_id w sha256 (set_below s below) p None).1 as [id|e|]; [|done|done].
  apply Ok_inj in Hy. simplify_eq. eauto.
Qed.

Lemma ship_id_len l n x : reopens w l -> ShipLog.id w l n = Ok x -> blen x = 32.
Proof.
  intros Hr H. unfold ShipLog.id in H. bind H as h Hh. apply Ok_inj in H as <-.
  apply open_ready in Hr as (_ & _ & _ & f & g & d & ix & [Rl Ri Rd Rx Rs Rk Rr Re]).
  assert (Hn : ShipLog.begin l <= n < ShipLog.end_ l).
  { unfold ShipLog.header in Hh. guard Hh as Hc. bools. lia. }
  destruct (header_slot w l f g d ix Rl Ri Rd Rx Rs Rk n Hn) as (y & _ & Hread). rewrite Hread in Hh.
  pose proof (le_of_range y). by apply (read_header_fields w f d n) in Hh as (? & _ & _ & ? & _); [|done|lia].
Qed.

Lemma block_id_len l n x : opened_block w sha256 l -> BlockLog.id w sha256 l n = Ok x -> blen x = 32.
Proof.
  intros (log & index & Ho) H. unfold BlockLog.id in H. bind H as h Hh. apply Ok_inj in H as <-.
  apply blocklog_open_sound in Ho as (f & g & d & ix & Hf & Hg & Hd & Hix & <- & <- & _ & Hfi & Hu & _).
  by destruct (header_number w sha256 sha256_len l f g d ix Hf Hg Hd Hix n h ltac:(lia) Hu Hh) as (_ & _ & ? & _).
Qed.

(** The files an id outside the served ranges may come from, as reads. *)
Lemma outside_views_len s p x : store_ok w sha256 s -> Ok x ∈ outside_views w sha256 s p -> blen x = 32.
Proof.
  intros Hs Hx. unfold outside_views in Hx. apply elem_of_app in Hx as [Hx|Hx].
  - apply list_elem_of_omap in Hx as (k & _ & Hk).
    destruct (catalog_of s k) as [c|] eqn:Hc; [|done]. cbn [mbind option_bind] in Hk.
    destruct (catalog_get c p) as [l|] eqn:Hg; [|done]. cbn [mbind option_bind] in Hk. injection Hk as Hk.
    apply catalog_get_member in Hg as [Hin _]. apply list_elem_of_lookup_1 in Hin as [i Hi].
    destruct (Forall_lookup_1 _ _ _ _ (so_ship _ _ _ Hs k c Hc) Hi) as [Hr _]. by eapply ship_id_len.
  - destruct (s_blocks s) as [c|] eqn:Hc; [|by apply not_elem_of_nil in Hx].
    apply elem_of_app in Hx as [Hx|Hx].
    + destruct (checked_add32 p 1) as [next|]; cbn [mbind option_bind] in Hx; [|by apply not_elem_of_nil in Hx].
      destruct (catalog_get c next) as [l|]; cbn [mbind option_bind] in Hx; [|by apply not_elem_of_nil in Hx].
      apply list_elem_of_singleton in Hx. symmetry in Hx. by apply previous_len in Hx.
    + destruct (catalog_get c p) as [l|] eqn:Hg; [|by apply not_elem_of_nil in Hx].
      apply list_elem_of_singleton in Hx. symmetry in Hx. apply catalog_get_member in Hg as [Hin _].
      apply list_elem_of_lookup_1 in Hin as [i Hi].
      pose proof (Forall_lookup_1 _ _ _ _ (so_blocks _ _ _ Hs c Hc) Hi) as Ho. by eapply block_id_len.
Qed.

Lemma find_below_in s verify n p x es :
  find_below w sha256 s verify n p = Ok (Some x, es) -> Ok x ∈ outside_views w sha256 s p.
Proof.
  unfold find_below. destruct verify.
  - intros H. bind H as views Hv. apply collect_Ok in Hv. apply rbind_Ok in H as (u & _ & H). bind H as id Hid.
    apply Ok_inj in H. destruct id; [done|]. injection H as H _. rewrite Hv. destruct views as [|y views]; [done|].
    injection H as <-. by left.
  - destruct (block_log w sha256 s n); [done|]. apply first_readable_Ok.
Qed.

Lemma below_loop_ok s verify ns below sk below' sk' :
  store_ok w sha256 s -> Forall is_u32 ns -> Forall pos_ok below ->
  below_loop w sha256 s verify ns below sk = Ok (below', sk') -> Forall pos_ok below'.
Proof.
  intros Hs Hns. revert below sk; induction Hns as [|n ns Hn _ IH]; intros below sk Hb H; cbn [below_loop] in H.
  { apply Ok_inj in H. by simplify_eq. }
  destruct (checked_sub n 1) as [p|] eqn:Hp; [|by eapply IH]. destruct (_ || _); [by eapply IH|].
  bind H as x Hx. destruct x as [found' es]. eapply IH; [|done]. destruct found' as [id|]; [|done].
  apply Forall_app. split; [done|]. constructor; [|constructor]. apply find_below_in in Hx.
  split; [|by eapply outside_views_len]. unfold checked_sub in Hp. simpl.
  destruct (Z.leb_spec 1 n); [|done]. simplify_eq. width_lia.
Qed.

Lemma store_id_len s n x : store_ok w sha256 s -> store_id w sha256 s n = Ok (Some x) -> blen x = 32.
Proof.
  intros Hs H. unfold store_id in H. destruct (id_with w sha256 s n None) as [r st] eqn:E. simpl in H. subst r.
  by apply (id_with_len w sha256 s Hs) in E as [? _].
Qed.

Lemma laid_out_u32 s k n :
  laid_out s -> contains (served_ship (s_served s) k) n = true -> is_u32 n.
Proof.
  intros HL Hn. destruct (served_ship_log s k n HL Hn) as [l Hl].
  apply (ship_log_ok w sha256 s (la_store _ HL)) in Hl as (Hr & _ & Hh & _).
  apply open_ready in Hr as (_ & _ & _ & f & g & d & ix & [_ _ _ _ _ _ Rr Re]). width_lia.
Qed.

Lemma begins_u32 s : laid_out s -> Forall is_u32 (begins s).
Proof.
  intros HL. apply Forall_lookup_2. intros i n Hi%list_elem_of_lookup_2. apply begins_elem in Hi as (k & <- & Hlt).
  apply (laid_out_u32 s k); [done|]. apply contains_iff. lia.
Qed.

(** The store [open_files] returns, from the one it laid out: same logs and ranges. *)
Lemma last_store_ok s id :
  laid_out s -> 1 < served_end s -> store_id w sha256 s (served_end s - 1) = Ok (Some id) ->
  store_ok w sha256 (set_last s (mkPos (served_end s - 1) id)).
Proof.
  intros HL He Hid. destruct (served_end_spec s HL He) as [_ [k Hk]].
  pose proof (laid_out_u32 s k _ HL Hk) as Hu. pose proof (store_id_len s _ _ (la_store _ HL) Hid) as Hl.
  destruct (la_store _ HL) as [H1 H2 _ H4]. split; done.
Qed.

Lemma opened_store_ok s below first sk :
  store_ok w sha256 s -> Forall pos_ok below ->
  store_ok w sha256 (set_status (set_first (set_below s below) first sk)).
Proof. intros [H1 H2 H3 H4] Hb. split; done. Qed.
End Opening.

(** The seams and edges at which ids were compared. *)
Section Seams.
Context (w : world) `{!FileSource w} (sha256 : bytes -> bytes) (s : Store).

(** Every served file naming block [n] could be read, and they name one id. *)
Definition agreed (n : Z) : Prop := exists id, Forall (fun r => r = Ok id) (served_views w sha256 s n).

Lemma agree_Ok n l : agree n l = Ok () -> forall x, head l = Some x -> Forall (fun y => y = x) l.
Proof.
  intros H x Hx. destruct l as [|y l]; [done|]. injection Hx as ->. cbn [agree] in H. apply ensure_Ok in H.
  constructor; [done|]. rewrite forallb_forall in H. apply Forall_lookup_2. intros i z Hi.
  apply list_elem_of_lookup_2, list_elem_of_In, H in Hi. by bools.
Qed.

Lemma Forall_all_Ok {A} (l : list A) (x : A) :
  Forall (fun y => y = x) l -> Forall (fun r : result A => r = Ok x) (Ok <$> l).
Proof. induction 1 as [|y l -> _ IH]; simpl; constructor; done. Qed.

Lemma check_ids_Ok n : check_ids w sha256 s n = Ok () -> agreed n.
Proof.
  unfold check_ids, agreed. intros H. bind H as views Hv. apply collect_Ok in Hv as ->.
  destruct views as [|x views]; [by exists []|]. exists x. apply Forall_all_Ok. by apply (agree_Ok n).
Qed.

Lemma check_all_Ok ns n : check_all w sha256 s ns = Ok () -> n ∈ ns -> agreed n.
Proof.
  induction ns as [|m ns IH]; intros H Hn; [by apply not_elem_of_nil in Hn|]. cbn [check_all] in H.
  apply rbind_Ok in H as ([] & Hc & H). apply elem_of_cons in Hn as [->|Hn]; [by apply check_ids_Ok|auto].
Qed.

Lemma check_seams_Ok c xs x : check_seams w sha256 c xs = Ok () -> x ∈ xs -> check_seam w sha256 c x = Ok ().
Proof.
  induction xs as [|y xs IH]; intros H Hx; [by apply not_elem_of_nil in Hx|]. cbn [check_seams] in H.
  apply rbind_Ok in H as ([] & Hc & H). apply elem_of_cons in Hx as [->|Hx]; auto.
Qed.

Lemma verify_seams_points n k : verify_seams w sha256 s = Ok () -> n ∈ kind_points w s k -> agreed n.
Proof.
  unfold verify_seams. intros H Hn. bind H as points Hp. apply (check_all_Ok _ n H), set_of_elem.
  assert (Hin : n ∈ concat (kind_points w s <$> LogKind_ALL)).
  { apply list_elem_of_In, in_concat. exists (kind_points w s k). split; [|by apply list_elem_of_In].
    apply list_elem_of_In, list_elem_of_fmap. exists k. split; [done|]. destruct k; set_solver. }
  destruct (s_blocks s) as [c|]; [|by apply Ok_inj in Hp as <-].
  apply rbind_Ok in Hp as (u & _ & Hp). apply Ok_inj in Hp as <-. apply elem_of_app. by left.
Qed.

Lemma verify_seams_blocks c x :
  verify_seams w sha256 s = Ok () -> s_blocks s = Some c -> x ∈ block_seams w sha256 s c ->
  check_seam w sha256 c x = Ok () /\ agreed (x - 1) /\ agreed x.
Proof.
  unfold verify_seams. intros H Hc Hx. rewrite Hc in H. bind H as points Hp.
  apply rbind_Ok in Hp as ([] & Hs & Hp). apply Ok_inj in Hp as <-. split; [by eapply check_seams_Ok|].
  assert (Hin : forall y, y ∈ [x - 1; x] ->
    y ∈ concat ((fun x => [x - 1; x]) <$> block_seams w sha256 s c)).
  { intros y Hy. apply list_elem_of_In, in_concat. exists [x - 1; x]. split; [|by apply list_elem_of_In].
    apply list_elem_of_In, list_elem_of_fmap. by exists x. }
  split; apply (check_all_Ok _ _ H), set_of_elem, elem_of_app; right; apply Hin; set_solver.
Qed.
End Seams.

(** ** The block before the first *)
Section FirstBlock.
Context (w : world) `{!FileSource w} (sha256 : bytes -> bytes).

Lemma set_insert_sorted x l : StronglySorted Z.lt l -> StronglySorted Z.lt (set_insert x l).
Proof.
  induction 1 as [|y l Hl IH Hy]; cbn [set_insert]; [by repeat constructor|].
  destruct (Z.ltb_spec x y) as [Hlt|Hge].
  - constructor; [by constructor|]. constructor; [done|]. eapply Forall_impl; [|exact Hy]. intros z; lia.
  - destruct (Z.eqb_spec x y) as [->|Hne]; [by constructor|]. constructor; [done|].
    apply Forall_lookup_2. intros i z Hz%list_elem_of_lookup_2. apply set_insert_elem in Hz as [->|Hz]; [lia|].
    apply list_elem_of_lookup_1 in Hz as [i' Hz]. by apply (Forall_lookup_1 _ _ _ _ Hy Hz).
Qed.

Lemma set_of_sorted l : StronglySorted Z.lt (set_of l).
Proof.
  unfold set_of. assert (H : forall acc, StronglySorted Z.lt acc ->
    StronglySorted Z.lt (foldl (fun acc x => set_insert x acc) acc l)); [|apply H; constructor].
  induction l as [|x l IH]; intros acc Hacc; simpl; [done|]. by apply IH, set_insert_sorted.
Qed.

(** What the loop adds: positions just below later ranges. *)
Lemma below_loop_extends s verify ns below sk below' sk' :
  below_loop w sha256 s verify ns below sk = Ok (below', sk') ->
  exists more, below' = below ++ more /\ Forall (fun b => bp_num b + 1 ∈ ns) more.
Proof.
  revert below sk; induction ns as [|n ns IH]; intros below sk H; cbn [below_loop] in H.
  { apply Ok_inj in H. simplify_eq. exists []. by rewrite app_nil_r. }
  assert (Hskip : forall sk, below_loop w sha256 s verify ns below sk = Ok (below', sk') ->
    exists more, below' = below ++ more /\ Forall (fun b => bp_num b + 1 ∈ n :: ns) more).
  { intros sk0 H'. destruct (IH below sk0 H') as (more & -> & Hm). exists more. split; [done|].
    eapply Forall_impl; [|exact Hm]. intros b Hb. by right. }
  destruct (checked_sub n 1) as [p|] eqn:Hp; [|by eapply Hskip].
  destruct (_ || _); [by eapply Hskip|]. bind H as x Hx. destruct x as [[id|] es]; [|by eapply Hskip].
  destruct (IH _ _ H) as (more & -> & Hm). exists (mkPos p id :: more). split; [by rewrite <- app_assoc|].
  constructor; [|eapply Forall_impl; [|exact Hm]; intros b Hb; by right].
  unfold checked_sub in Hp. destruct (1 <=? n); [|done]. simplify_eq. simpl. rewrite Z.sub_add. by left.
Qed.

(** Below the first served block nothing is served: its id is not a state-history one. *)
Lemma id_below_first s n p id :
  p + 1 = n -> (forall k, ship_log w s k p = None) -> store_id w sha256 s p = Ok (Some id) ->
  Ok id ∈ outside_views w sha256 s p.
Proof.
  intros Hn Hk H. unfold store_id, id_with in H. destruct (p =? 0); [done|].
  assert (Hf : first_ship_log w s LogKind_ALL p = None) by (simpl; by rewrite !Hk). rewrite Hf in H.
  unfold next_block_log in H. destruct (checked_add32 p 1) as [next|] eqn:Hadd; [|done].
  cbn [mbind option_bind] in H. destruct (block_log w sha256 s next) as [l|] eqn:Hl; [|done].
  cbn [mbind option_bind] in H. unfold sbind, slift, in_source in H.
  destruct (BlockLog.previous w l next) as [x|e|] eqn:Hp; [|done|done]. cbn in H. injection H as ->.
  unfold block_log in Hl. destruct (negb _); [done|]. destruct (s_blocks s) as [c|] eqn:Hc; [|done].
  cbn [mbind option_bind] in Hl. unfold outside_views. rewrite Hc, Hadd. cbn [mbind option_bind]. rewrite Hl.
  cbn [mbind option_bind]. rewrite Hp. apply elem_of_app. right. by left.
Qed.

Lemma prev_id_served s p id :
  store_id w sha256 s p = Ok (Some id) -> named_id w sha256 s p = Ok (Some id).
Proof.
  unfold store_id, named_id, prev_id, sbind. destruct (id_with w sha256 s p None) as [[[i|]|e|] st]; simpl; try done.
Qed.

Lemma prev_id_below s p :
  store_id w sha256 s p = Ok None ->
  named_id w sha256 s p = Ok (bp_id <$> head (filter (fun b => bp_num b = p) (s_below s))).
Proof.
  unfold store_id, named_id, prev_id, sbind. destruct (id_with w sha256 s p None) as [[[i|]|e|] st]; simpl; try done.
Qed.

Lemma filter_below_none p ns more :
  Forall (fun n => p + 1 < n) ns -> Forall (fun b => bp_num b + 1 ∈ ns) more ->
  filter (fun b => bp_num b = p) more = [].
Proof.
  intros Hns Hm. induction Hm as [|b more Hb _ IH]; [done|]. rewrite filter_cons_False; [done|].
  apply list_elem_of_lookup_1 in Hb as [i Hb]. pose proof (Forall_lookup_1 _ _ _ _ Hns Hb). simpl in *. lia.
Qed.

(** The id named for the block below the first served one, once the logs were checked. *)
Lemma below_first_named s n ns below sk :
  begins s = n :: ns -> 1 < n -> s_below s = [] ->
  below_loop w sha256 s Seams (begins s) (s_below s) [] = Ok (below, sk) ->
  match outside_views w sha256 s (n - 1) with
  | [] => named_id w sha256 (set_below s below) (n - 1) = Ok None
  | _ => exists id, Forall (fun r => r = Ok id) (outside_views w sha256 s (n - 1)) /\
      named_id w sha256 (set_below s below) (n - 1) = Ok (Some id)
  end.
Proof.
  intros Hbg Hn Hb H. pose proof (set_of_sorted (fst <$> filter (fun r => (r.1 <? r.2) = true)
    (served_ship (s_served s) <$> LogKind_ALL))) as Hsort. change (set_of _) with (begins s) in Hsort.
  assert (Hmin : forall k, ship_log w s k (n - 1) = None).
  { intros k. unfold ship_log. destruct (contains _ (n - 1)) eqn:Hc; [|done]. apply contains_iff in Hc. exfalso.
    assert (Hin : (served_ship (s_served s) k).1 ∈ begins s) by (apply begins_elem; exists k; split; [done|lia]).
    rewrite Hbg in Hsort, Hin. apply StronglySorted_inv in Hsort as [_ Hall].
    apply elem_of_cons in Hin as [Hin|Hin]; [lia|]. apply list_elem_of_lookup_1 in Hin as [i Hin].
    pose proof (Forall_lookup_1 _ _ _ _ Hall Hin). simpl in *. lia. }
  assert (Hex : existsb (fun k => contains (served_ship (s_served s) k) (n - 1)) LogKind_ALL = false).
  { destruct (existsb _ _) eqn:He; [|done]. apply existsb_exists in He as (k & _ & Hc). apply contains_iff in Hc.
    assert (Hin : (served_ship (s_served s) k).1 ∈ begins s) by (apply begins_elem; exists k; split; [done|lia]).
    rewrite Hbg in Hsort, Hin. apply StronglySorted_inv in Hsort as [_ Hall].
    apply elem_of_cons in Hin as [Hin|Hin]; [lia|]. apply list_elem_of_lookup_1 in Hin as [i Hin].
    pose proof (Forall_lookup_1 _ _ _ _ Hall Hin). simpl in *. lia. }
  rewrite Hbg in H, Hsort. apply StronglySorted_inv in Hsort as [_ Hall]. rewrite Hb in H. cbn [below_loop] in H.
  unfold checked_sub in H. rewrite (proj2 (Z.leb_le 1 n)) in H by lia.
  destruct (Z.eqb_spec (n - 1) 0); [lia|]. rewrite Hex in H. cbn [orb] in H.
  bind H as x Hx. destruct x as [found es]. unfold find_below in Hx. bind Hx as views Hviews.
  apply collect_Ok in Hviews. apply rbind_Ok in Hx as ([] & Hagree & Hx). bind Hx as oid Hoid.
  apply Ok_inj in Hx. injection Hx as Hfound _.
  destruct (below_loop_extends s Seams ns _ _ _ _ H) as (more & -> & Hmore).
  assert (Hnone : filter (fun b => bp_num b = n - 1) more = []).
  { apply (filter_below_none _ ns); [|done]. eapply Forall_impl; [|exact Hall]. intros z; lia. }
  rewrite Hviews. destruct views as [|v views]; cbn [fmap list_fmap].
  - destruct oid as [id|].
    + apply (id_below_first s n) in Hoid; [|lia|done]. rewrite Hviews in Hoid. by apply not_elem_of_nil in Hoid.
    + subst found. rewrite (prev_id_below (set_below s _) _ Hoid). cbn [s_below set_below app].
      cbn [list.head app]. by rewrite Hnone.
  - pose proof (Forall_all_Ok _ _ (agree_Ok (n - 1) (v :: views) Hagree v eq_refl)) as Hfa.
    exists v. split; [exact Hfa|]. destruct oid as [id|].
    + pose proof (id_below_first s n (n - 1) id ltac:(lia) Hmin Hoid) as Hin. rewrite Hviews in Hin.
      apply list_elem_of_lookup_1 in Hin as [i Hi]. pose proof (Forall_lookup_1 _ _ _ _ Hfa Hi) as Heq.
      simpl in Heq. injection Heq as ->. by apply prev_id_served.
    + subst found. rewrite (prev_id_below (set_below s _) _ Hoid). cbn [s_below set_below app].
      cbn [list.head app]. rewrite filter_cons_True by done. done.
Qed.
End FirstBlock.

(** ** Properties *)

(** C12: what an opened store serves. Every file of it was opened by the strict reader of its kind.
    A block is served from a state-history kind exactly when a file of that kind holds it, it is in
    [--range], and, unless block logs are off, a block log serves it too; it is then found in both
    catalogs, so every served block has its [block]. The reported head is the highest served
    block, with the id the served logs name. *)
Theorem open_files_serves (w : world) (S : FileSource w) (sha256 : bytes -> bytes) (cfg : StoreConfig)
    (found : Discovered) (st : Store) (fs : list Finding)
    (Hsha : forall x, blen (sha256 x) = 32) (Ho : open_files w sha256 cfg found = Ok (st, fs)) :
  store_ok w sha256 st /\
  (forall k n, contains (served_ship (s_served st) k) n = true <->
     (exists c l, catalog_of st k = Some c /\ l ∈ c /\ ShipLog.begin l <= n < ShipLog.end_ l) /\
     in_range (cfg_range cfg) n /\ (cfg_blocks cfg = Required -> is_Some (block_log w sha256 st n))) /\
  (forall k n, contains (served_ship (s_served st) k) n = true -> is_Some (ship_log w st k n)) /\
  (forall k n, contains (served_ship (s_served st) k) n = true -> n <= bp_num (s_last st)) /\
  (exists k, contains (served_ship (s_served st) k) (bp_num (s_last st)) = true) /\
  store_id w sha256 st (bp_num (s_last st)) = Ok (Some (bp_id (s_last st))).
Proof.
  apply open_files_inv in Ho as (s & id & s2 & HL & Hb & He & Hid & _ & Hlink & ->).
  apply link_below_inv in Hlink as (below & sk & sk' & prev & Hbl & -> & _).
  pose proof (last_store_ok w sha256 cfg s id HL He Hid) as Hs.
  assert (Hpos : Forall pos_ok below).
  { apply (below_loop_ok w sha256 Hsha _ _ _ _ _ _ _ Hs (begins_u32 w sha256 cfg s HL)) in Hbl; [done|].
    cbn [s_below set_last]. rewrite Hb. constructor. }
  split; [by apply opened_store_ok|].
  destruct (served_end_spec w sha256 cfg s HL He) as [Hmax Hex].
  split; [|split; [|split; [|split]]].
  - intros k n. by apply (served_iff w sha256 cfg s).
  - intros k n Hn. by apply (served_ship_log w sha256 cfg s).
  - exact Hmax.
  - exact Hex.
  - exact Hid.
Qed.

(** The configuration that serves the example store: everything, with its block logs. *)
Definition exs_config : StoreConfig := mkConfig ["."] None Required None Seams (Ok "{}").
Definition exs_found : Discovered :=
  mkDiscovered [mkPair "trace_history.log" "trace_history.index"] [] [] [mkPair "blocks.log" "blocks.index"].

Lemma exs_opens :
  let S := direct_source exs_world exs_world_ok in
  open_files exs_world exb_sha exs_config exs_found = Ok (exs_store, []).
Proof. intros S. vm_compute. reflexivity. Qed.

Lemma open_files_serves_witness :
  let S := direct_source exs_world exs_world_ok in
  store_ok exs_world exb_sha exs_store /\ is_Some (ship_log exs_world exs_store Trace 8).
Proof.
  intros S.
  pose proof (open_files_serves exs_world S exb_sha exs_config exs_found exs_store [] (fun _ => eq_refl) exs_opens)
    as (Hs & _ & Hl & _).
  split; [exact Hs|]. apply Hl. reflexivity.
Defined.

(** C40: with [--verify-ids seams], a store that opened has one id per block wherever two files
    meet: at both edges of every served range, on both sides of every seam between state-history
    files and between block logs, every served file naming the block was read and names the same
    id; and across each seam of the block logs the later file's first block follows the hash of the
    earlier file's last header. *)
Theorem seams_agree (w : world) (S : FileSource w) (sha256 : bytes -> bytes) (cfg : StoreConfig)
    (found : Discovered) (st : Store) (fs : list Finding)
    (Hv : cfg_verify_ids cfg = Seams) (Ho : open_files w sha256 cfg found = Ok (st, fs)) :
  (forall k b e, served_ship (s_served st) k = (b, e) -> b < e ->
     agreed w sha256 st b /\ agreed w sha256 st (e - 1) /\
     forall c x, catalog_of st k = Some c -> x ∈ seams (Ranged0 := ShipLog_Ranged w) c -> b < x < e ->
       agreed w sha256 st (x - 1) /\ agreed w sha256 st x) /\
  (forall c x, s_blocks st = Some c -> x ∈ seams (Ranged0 := BlockLog_Ranged w sha256) c ->
     (sv_blocks (s_served st)).1 < x < (sv_blocks (s_served st)).2 ->
     agreed w sha256 st (x - 1) /\ agreed w sha256 st x /\
     exists before after id,
       catalog_get (Ranged0 := BlockLog_Ranged w sha256) c (x - 1) = Some before /\
       catalog_get (Ranged0 := BlockLog_Ranged w sha256) c x = Some after /\
       BlockLog.id w sha256 before (x - 1) = Ok id /\ BlockLog.previous w after x = Ok id).
Proof.
  apply open_files_inv in Ho as (s & id & s2 & HL & _ & _ & _ & Hseam & Hlink & ->). specialize (Hseam Hv).
  apply link_below_inv in Hlink as (below & sk & sk' & prev & _ & -> & _).
  set (sl := set_last s _) in *.
  assert (Hpt : forall k n, n ∈ kind_points w sl k -> agreed w sha256 sl n)
    by (intros k n; by apply verify_seams_points).
  split.
  - intros k b e Hk Hbe. change (served_ship (s_served sl) k = (b, e)) in Hk.
    assert (Hkp : forall n, n ∈ [b; e - 1] \/ (exists c x, catalog_of sl k = Some c /\
        x ∈ seams (Ranged0 := ShipLog_Ranged w) c /\ b < x < e /\ n ∈ [x - 1; x]) -> agreed w sha256 sl n).
    { intros n Hn. apply (Hpt k). unfold kind_points. rewrite Hk.
      destruct (Z.eqb_spec b e); [lia|]. apply elem_of_app. destruct Hn as [Hn|(c & x & Hc & Hx & Hin & Hn)]; [by left|].
      right. rewrite Hc. apply list_elem_of_In, in_concat. exists [x - 1; x]. split; [|by apply list_elem_of_In].
      apply list_elem_of_In, list_elem_of_fmap. exists x. split; [done|]. apply list_elem_of_filter.
      split; [|done]. unfold strictly_inside. simpl. apply andb_true_iff. rewrite !Z.ltb_lt. lia. }
    split; [apply Hkp; set_solver|]. split; [apply Hkp; set_solver|]. intros c x Hc Hx Hin.
    split; apply Hkp; right; exists c, x; (split; [done|]); (split; [done|]); (split; [done|]); set_solver.
  - intros c x Hc Hx Hin.
    destruct (verify_seams_blocks w sha256 sl c x Hseam Hc) as (Hcs & H1 & H2).
    { apply list_elem_of_filter. split; [|done]. unfold strictly_inside. apply andb_true_iff.
      rewrite !Z.ltb_lt. exact Hin. }
    split; [exact H1|]. split; [exact H2|]. unfold check_seam, served_file in Hcs.
    bind Hcs as before Hb. bind Hcs as after Ha. bind Hcs as i Hi. bind Hcs as fo Hfo.
    apply ensure_Ok in Hcs. bools. subst fo. apply or_err_Ok in Hb, Ha. eauto 10.
Qed.

Lemma seams_agree_witness :
  let S := direct_source exs_world exs_world_ok in
  agreed exs_world exb_sha exs_store 7 /\ agreed exs_world exb_sha exs_store 8.
Proof.
  intros S.
  pose proof (seams_agree exs_world S exb_sha exs_config exs_found exs_store [] eq_refl exs_opens) as [H _].
  specialize (H Trace 7 9 eq_refl eq_refl). destruct H as (H7 & H8 & _). split; [exact H7|exact H8].
Defined.

(** With [--verify-ids seams], the first served block is linked to the server before it as
    well as the open files allow: it is the lowest block served of any kind, every open file naming
    the block before it (served or not) was read and names one id, and that id is its [prev_block];
    it has none only when no open file names that block. *)
Lemma first_prev_linked (w : world) (S : FileSource w) (sha256 : bytes -> bytes) (cfg : StoreConfig)
    (found : Discovered) (st : Store) (fs : list Finding)
    (Hv : cfg_verify_ids cfg = Seams) (Ho : open_files w sha256 cfg found = Ok (st, fs)) :
  let n := fi_num (s_first st) in
  (exists k, contains (served_ship (s_served st) k) n = true) /\
  (forall k m, contains (served_ship (s_served st) k) m = true -> n <= m) /\
  (1 < n ->
   match outside_views w sha256 st (n - 1) with
   | [] => fi_prev (s_first st) = None
   | _ => exists id, Forall (fun r => r = Ok id) (outside_views w sha256 st (n - 1)) /\
       fi_prev (s_first st) = Some (mkPos (n - 1) id)
   end).
Proof.
  apply open_files_inv in Ho as (s & id & s2 & HL & Hb & He & _ & _ & Hlink & ->). rewrite Hv in Hlink.
  apply link_below_inv in Hlink as (below & sk & sk' & prev & Hbl & -> & Hp). specialize (Hp eq_refl).
  set (sl := set_last s _) in *. cbn [s_first set_first set_status fi_num fi_prev] in *.
  change (begins sl) with (begins s) in *. destruct (served_end_spec w sha256 cfg s HL He) as [_ [k0 Hk0]].
  apply contains_iff in Hk0.
  assert (Hin0 : (served_ship (s_served s) k0).1 ∈ begins s) by (apply begins_elem; exists k0; split; [done|lia]).
  destruct (begins s) as [|n ns] eqn:Hbg; [by apply not_elem_of_nil in Hin0|].
  cbn [list.head default] in *. unfold Datatypes.id in *.
  pose proof (set_of_sorted (fst <$> filter (fun r => (r.1 <? r.2) = true)
    (served_ship (s_served s) <$> LogKind_ALL))) as Hsort. change (set_of _) with (begins s) in Hsort.
  rewrite Hbg in Hsort. apply StronglySorted_inv in Hsort as [_ Hall]. split; [|split].
  - assert (Hn : n ∈ begins s) by (rewrite Hbg; by left). apply begins_elem in Hn as (k & Hk & Hlt).
    exists k. change (contains (served_ship (s_served s) k) n = true). apply contains_iff. lia.
  - intros k m Hm. change (contains (served_ship (s_served s) k) m = true) in Hm. apply contains_iff in Hm.
    assert (Hn : (served_ship (s_served s) k).1 ∈ begins s) by (apply begins_elem; exists k; split; [done|lia]).
    rewrite Hbg in Hn. apply elem_of_cons in Hn as [Hn|Hn]; [lia|]. apply list_elem_of_lookup_1 in Hn as [i Hn].
    pose proof (Forall_lookup_1 _ _ _ _ Hall Hn). simpl in *. lia.
  - intros Hn. specialize (Hp (n - 1)). unfold checked_sub in Hp. rewrite (proj2 (Z.leb_le 1 n)) in Hp by lia.
    destruct (Hp eq_refl) as (nid & Hnid & ->).
    rewrite <- Hbg in Hbl. change (begins s) with (begins sl) in Hbl, Hbg.
    pose proof (below_first_named w sha256 sl n ns below sk Hbg Hn Hb Hbl) as Hbf.
    change (outside_views w sha256 (set_status _) (n - 1)) with (outside_views w sha256 sl (n - 1)).
    destruct (outside_views w sha256 sl (n - 1)) as [|v vs].
    + rewrite Hnid in Hbf. by apply Ok_inj in Hbf as ->.
    + destruct Hbf as (x & Hx & Hnx). rewrite Hnid in Hnx. apply Ok_inj in Hnx as ->. by exists x.
Qed.

Lemma first_prev_linked_witness :
  let S := direct_source exs_world exs_world_ok in
  fi_num (s_first exs_store) = 7 /\ forall k m, contains (served_ship exs_served k) m = true -> 7 <= m.
Proof.
  intros S.
  pose proof (first_prev_linked exs_world S exb_sha exs_config exs_found exs_store [] eq_refl exs_opens)
    as (_ & H & _).
  split; [reflexivity|exact H].
Defined.
