(* ===== verification/Frames.v ===== *)
(** * Framing a block result ([crates/ship-archive/src/frames.rs])

    [send_result] writes a package as one fragmented WebSocket message. The socket is the
    tungstenite crate: it is the parameter [accept], which says whether it takes the next operation
    after those it has taken, and the state is the list of those. A payload that is streamed is
    inflated chunk by chunk while it is sent; the chunk read ahead on the io threads touches nothing
    the writer does, so it is read here when it is awaited. Any of these reads may fail: the parameter [io]
    says which. *)

From S2P Require Import Prelude.
From S2P Require Import Errors.
From S2P Require Import Cursor.
From S2P Require Import Binio.
From S2P Require Import Protocol.
From S2P Require Import ShipLog.
From S2P Require Import Zlib.
From S2P Require Import Inflate.
From S2P Require Import BlockLog.
From S2P Require Import Catalog.
From S2P Require Import Fetch.
From S2P Require Import Pages.
From S2P Require Import Store.

Definition CHUNK : Z := Z.shiftl 1 20.
Definition FLUSH_BEFORE : Z := Z.shiftl 64 10.

(** [Frame::message]: the opcode of a frame, with its fin bit. A result has a binary frame and
    continuations; the session also sends text (the ABI), whole binary messages and a close. *)
Inductive opcode := Binary | Continue | Text | CloseAway.
Record frame := mkFrame { fr_opcode : opcode; fr_fin : bool; fr_payload : bytes }.

(** What the writer does to the socket. *)
Inductive sink_op := Feed (f : frame) | Flush | Send (f : frame).

Inductive SendError := SWs | SRead (e : err).

Section Send.
Context (w : world) `{!FileSource w} `{F : Flate} (accept : list sink_op -> sink_op -> bool).
(** The failure, if any, of the read that happens once these operations are done: the files were read whole
    before, and [w] gives their bytes, but the disk may fail at any chunk of a stream, and at its opening. *)
Context (io : list sink_op -> option err).

Definition writer A := M SendError (list sink_op) A.

Definition sink (op : sink_op) : writer () := fun ops =>
  if accept ops op then (Ok (), ops ++ [op]) else (Err SWs, ops).

(** A read of the io threads, which may fail. *)
Definition read_io (source : Source) : writer () := fun ops =>
  match io ops with
  | Some e => (Err (SRead (ESource source e)), ops)
  | None => (Ok (), ops)
  end.

Definition feed (payload : bytes) (first : bool) : writer Z :=
  do! (if FLUSH_BEFORE <? blen payload then sink Flush else sret ()) ;;
  do! sink (Feed (mkFrame (if first then Binary else Continue) false payload)) ;;
  sret (blen payload).

(** The [while] of [feed_chunks]; every iteration but the last moves [CHUNK] bytes. *)
Fixpoint feed_chunks_loop (fuel : nat) (data : bytes) (at_ : Z) : writer () :=
  if at_ <? blen data then
    match fuel with
    | O => spanic
    | S fuel =>
        let end_ := Z.min (blen data) (at_ + CHUNK) in
        let! part := slift (or_panic (slice data at_ (end_ - at_))) in
        do! feed part false ;;
        feed_chunks_loop fuel data end_
    end
  else sret ().

Definition feed_chunks (data : bytes) : writer Z :=
  do! feed_chunks_loop (S (Z.to_nat (blen data / CHUNK))) data 0 ;;
  sret (blen data).

Definition feed_base (base : bytes) (block : option bytes) : writer Z :=
  match block with
  | None => feed_chunks base
  | Some block =>
      let head := Z.min (sat_sub CHUNK (blen base)) (blen block) in
      let! a := slift (or_panic (slice block 0 head)) in
      let! sent := feed (base ++ a) false in
      let! b := slift (or_panic (slice block head (blen block - head))) in
      let! more := feed_chunks b in
      sret (sent + more)
  end.

(** The [while] of [stream]: every iteration that continues streams [CHUNK] bytes. *)
Fixpoint stream_loop (fuel : nat) (source : Source) (len : Z) (s : InflateStream F) (sent : Z) : writer Z :=
  match fuel with
  | O => spanic
  | S fuel =>
      do! read_io source ;;
      match next_chunk w CHUNK (vec_new, s) with
      | (Err e, _) => sfail (SRead (ESource source e))
      | (Panic, _) => sfail (SRead (ESource source ETask))
      | (Ok more, (buf, s)) =>
          let buf := v_data buf in
          let sent := sent + blen buf in
          if (len <? sent) || (negb more && (sent <? len))
          then sfail (SRead (ESource source (EStreamsOther sent len)))
          else
            do! (if bool_decide (buf = []) then sret () else do! feed buf false ;; sret ()) ;;
            if more then stream_loop fuel source len s sent else sret sent
      end
  end.

Definition stream_part (st : Streamed) : writer Z :=
  let source := SrcShip (ShipLog.kind (st_log st)) in
  do! read_io source ;;
  match stream w (st_log st) (st_header st) with
  | Ok s => stream_loop (S (Z.to_nat (st_len st / CHUNK))) source (st_len st) s 0
  | Err e => sfail (SRead (ESource source e))
  | Panic => sfail (SRead (ESource source ETask))
  end.

Fixpoint send_parts (parts : list Part) (sent : Z) : writer Z :=
  match parts with
  | [] => sret sent
  | part :: parts =>
      let! n := feed (encode_opt_len (payload_len part)) false in
      let! m :=
        match part with
        | Absent => sret 0
        | Inline data => feed_chunks (v_data data)
        | PStreamed st => stream_part st
        end in
      send_parts parts (sent + n + m)
  end.

Definition send_result (pkg : Package) : writer Z :=
  let! a := feed [z2b (result_variant (j_v1 (pk_job pkg)))] true in
  let! b := feed_base (pk_base pkg) (pk_block pkg) in
  let! sent := send_parts (pk_parts pkg) (a + b) in
  do! sink (Send (mkFrame Continue true [])) ;;
  sret sent.

(** ** What is written

    Each function amounts to a fixed sequence of operations on the socket and of reads, which a refusal or a failure
    may cut short. *)
Inductive io_act := AOp (op : sink_op) | AIo (source : Source).

Definition ops_of (acts : list io_act) : list sink_op :=
  omap (fun a => match a with AOp op => Some op | AIo _ => None end) acts.

Definition act (a : io_act) : writer () := match a with AOp op => sink op | AIo source => read_io source end.

Fixpoint puts (acts : list io_act) : writer () :=
  match acts with
  | [] => sret ()
  | a :: acts => do! act a ;; puts acts
  end.

Definition runs {A} (m : writer A) (acts : list io_act) (a : A) : Prop :=
  forall st, m st = (do! puts acts ;; sret a) st.

Definition does {A} (m : writer A) (ops : list sink_op) (a : A) : Prop :=
  exists acts, ops_of acts = ops /\ runs m acts a.

Lemma puts_app acts acts' st : puts (acts ++ acts') st = (do! puts acts ;; puts acts') st.
Proof.
  revert st; induction acts as [|a acts IH]; intros st; [done|]. cbn [app puts]. unfold sbind in *.
  destruct (act a st) as [[u|e|] st']; [apply IH|done|done].
Qed.

Lemma runs_bind {A B} (m : writer A) (k : A -> writer B) acts acts' a b :
  runs m acts a -> runs (k a) acts' b -> runs (sbind m k) (acts ++ acts') b.
Proof.
  intros Hm Hk st. unfold sbind at 1. rewrite Hm. unfold sbind at 2. rewrite puts_app.
  unfold sbind. destruct (puts acts st) as [[u|e|] st']; [|done|done].
  unfold sret at 1. rewrite Hk. done.
Qed.

Lemma runs_act x : runs (act x) [x] ().
Proof.
  intros st. cbn [puts]. unfold sbind, sret. by destruct (act x st) as [[[]|e|] st'].
Qed.

Lemma does_ret {A} (a : A) : does (sret a) [] a.
Proof. by exists []. Qed.

Lemma does_bind {A B} (m : writer A) (k : A -> writer B) ops ops' a b :
  does m ops a -> does (k a) ops' b -> does (sbind m k) (ops ++ ops') b.
Proof.
  intros (acts & <- & Hm) (acts' & <- & Hk). exists (acts ++ acts'). split; [apply omap_app|]. by eapply runs_bind.
Qed.

Lemma does_sink op : does (sink op) [op] ().
Proof. exists [AOp op]. split; [done|]. apply (runs_act (AOp op)). Qed.

Lemma does_read source : does (read_io source) [] ().
Proof. exists [AIo source]. split; [done|]. apply (runs_act (AIo source)). Qed.

Lemma does_lift {A} (r : res SendError A) a : r = Ok a -> does (slift r) [] a.
Proof. intros ->. by exists []. Qed.

Lemma does_eq {A} (m : writer A) ops ops' a a' : does m ops a -> ops = ops' -> a = a' -> does m ops' a'.
Proof. by intros H <- <-. Qed.

(** A data frame and the flush before a large one. *)
Definition fed (o : opcode) (payload : bytes) : list sink_op :=
  (if FLUSH_BEFORE <? blen payload then [Flush] else []) ++ [Feed (mkFrame o false payload)].

Lemma does_feed payload first :
  does (feed payload first) (fed (if first then Binary else Continue) payload) (blen payload).
Proof.
  unfold feed, fed. apply (does_bind _ _ _ _ ()).
  - destruct (_ <? _); [apply does_sink|apply does_ret].
  - rewrite <- (app_nil_r [_]). apply (does_bind _ _ _ _ ()); [apply does_sink|apply does_ret].
Qed.

(** The bytes cut as [feed_chunks] cuts them. *)
Definition feeds (cs : list bytes) : list sink_op := concat (fed Continue <$> cs).

Lemma feeds_app cs cs' : feeds (cs ++ cs') = feeds cs ++ feeds cs'.
Proof. unfold feeds. by rewrite fmap_app, concat_app. Qed.

Definition good_chunks (cs : list bytes) : Prop := Forall (fun c => c <> [] /\ blen c <= CHUNK) cs.

Lemma CHUNK_eq : CHUNK = 1048576.
Proof. reflexivity. Qed.

Lemma does_feed_chunks_loop fuel data at_ :
  0 <= at_ <= blen data -> blen data - at_ <= Z.of_nat fuel * CHUNK ->
  exists cs, good_chunks cs /\ concat cs = drop (Z.to_nat at_) data /\
    does (feed_chunks_loop fuel data at_) (feeds cs) ().
Proof.
  revert at_; induction fuel as [|fuel IH]; intros at_ Hat Hfuel; cbn [feed_chunks_loop];
    rewrite CHUNK_eq in *; destruct (Z.ltb_spec at_ (blen data)) as [Hlt|Hge]; try lia.
  1: { exists []. split; [constructor|]. split; [|apply does_ret]. symmetry. apply drop_ge. unfold blen in *. lia. }
  2: { exists []. split; [constructor|]. split; [|apply does_ret]. symmetry. apply drop_ge. unfold blen in *. lia. }
  set (end_ := Z.min (blen data) (at_ + 1048576)) in *.
  destruct (slice_is_Some data at_ (end_ - at_)) as [part Hp]; [lia..|]. rewrite Hp.
  destruct (IH end_) as (cs & Hg & Hc & Hd); [lia|rewrite ?CHUNK_eq; lia|].
  pose proof (slice_blen _ _ _ _ Hp) as Lp. exists (part :: cs). split; [|split].
  - constructor; [|done]. split; [|rewrite CHUNK_eq; lia]. intros ->. change (blen []) with 0 in Lp. lia.
  - apply slice_Some in Hp as (_ & _ & _ & ->). cbn [concat]. rewrite Hc.
    replace (Z.to_nat end_) with (Z.to_nat at_ + Z.to_nat (end_ - at_))%nat by lia.
    rewrite <- drop_drop. apply take_drop.
  - change (feeds (part :: cs)) with ([] ++ fed Continue part ++ feeds cs).
    apply (does_bind _ _ _ _ part); [by apply does_lift|].
    apply (does_bind _ _ _ _ (blen part)); [apply (does_feed part false)|done].
Qed.

Lemma does_feed_chunks data :
  exists cs, good_chunks cs /\ concat cs = data /\ does (feed_chunks data) (feeds cs) (blen data).
Proof.
  unfold feed_chunks. pose proof (blen_nonneg data) as H0.
  destruct (does_feed_chunks_loop (S (Z.to_nat (blen data / CHUNK))) data 0) as (cs & Hg & Hc & Hd); [lia| |].
  { rewrite CHUNK_eq. pose proof (Z.mul_succ_div_gt (blen data) 1048576 ltac:(lia)).
    pose proof (Z.div_pos (blen data) 1048576 H0 ltac:(lia)). lia. }
  exists cs. split; [done|]. split; [done|]. rewrite <- (app_nil_r (feeds cs)).
  apply (does_bind _ _ _ _ ()); [done|apply does_ret].
Qed.

(** The base and its block: the first frame is filled from the block up to [CHUNK]. *)
Lemma does_feed_base base block :
  0 < blen base <= CHUNK ->
  exists cs, good_chunks cs /\ concat cs = base ++ default [] block /\
    does (feed_base base block) (feeds cs) (blen base + from_option blen 0 block).
Proof.
  intros Hb. destruct block as [block|]; cbn [feed_base default from_option].
  2: { destruct (does_feed_chunks base) as (cs & Hg & Hc & Hd). exists cs. rewrite app_nil_r, Z.add_0_r. done. }
  set (head := Z.min (sat_sub CHUNK (blen base)) (blen block)).
  pose proof (blen_nonneg block) as H0. assert (Hh : 0 <= head <= blen block) by (unfold head, sat_sub; lia).
  destruct (slice_split block 0 head (blen block - head) block) as (a & b & Hab & Ha & Hbb); [lia|lia| |].
  { apply slice_full. lia. }
  rewrite Z.add_0_l in Hbb. rewrite Ha, Hbb. destruct (does_feed_chunks b) as (cs & Hg & Hc & Hd).
  pose proof (slice_blen _ _ _ _ Ha) as La. pose proof (slice_blen _ _ _ _ Hbb) as Lb.
  exists ((base ++ a) :: cs). split; [|split].
  - constructor; [|done]. split; [|rewrite blen_app, La; unfold head, sat_sub; lia].
    destruct base; [change (blen []) with 0 in Hb; lia|done].
  - cbn [concat]. by rewrite Hc, <- app_assoc, Hab.
  - change (feeds ((base ++ a) :: cs)) with ([] ++ fed Continue (base ++ a) ++ [] ++ feeds cs).
    apply (does_bind _ _ _ _ a); [by apply does_lift|].
    apply (does_bind _ _ _ _ (blen (base ++ a))); [apply (does_feed (base ++ a) false)|].
    apply (does_bind _ _ _ _ b); [by apply does_lift|]. rewrite <- (app_nil_r (feeds cs)).
    apply (does_bind _ _ _ _ (blen b)); [done|]. eapply does_eq; [apply does_ret|done|].
    rewrite blen_app. lia.
Qed.

Section StreamPart.
Context (zlib : bytes -> option bytes) `{L : !FlateLaws F zlib}.
Context (file : PosFile.t) (d data : bytes) (exp : option Z) (y : bytes).
Hypothesis Hd : views w file d.
Hypothesis Hy : valid zlib data exp y.
Hypothesis Hdata : blen data < U64.

Lemma does_stream_loop fuel source s i o :
  sinv zlib file d data exp s i o -> is_done s = false -> blen y - blen o < Z.of_nat fuel * CHUNK ->
  exists cs, good_chunks cs /\ o ++ concat cs = y /\
    does (stream_loop fuel source (blen y) s (blen o)) (feeds cs) (blen y).
Proof.
  revert s i o; induction fuel as [|fuel IH]; intros s i o Hs Hnd Hf.
  { pose proof (sinv_prefix _ _ _ _ _ _ _ _ _ Hs Hy). lia. }
  cbn [stream_loop]. rewrite CHUNK_eq in *.
  pose proof (next_chunk_spec w zlib file d data exp Hd 1048576 vec_new s i o Hs Hnd ltac:(width_lia) Hdata) as Hn.
  destruct (next_chunk w 1048576 (vec_new, s)) as [[more|e|] [buf s1]]; [| |done].
  2: { destruct Hn as [_ Hn]. by destruct (Hn y). }
  destruct Hn as (b & i1 & Ho & Hs1 & Hmore & Hb & Htrue). cbn [vec_new v_data app] in Ho. rewrite Ho. clear Ho buf. cbv zeta.
  pose proof (sinv_prefix _ _ _ _ _ _ _ _ _ Hs1 Hy) as Hle. rewrite blen_app in Hle.
  assert (Hend : more = false -> o ++ b = y).
  { intros ->. destruct (is_done s1) eqn:Hd1; [|done].
    pose proof (si_done _ _ _ _ _ _ _ _ Hs1 Hd1) as [_ [Hz _]]. destruct Hy as [Hz' _]. congruence. }
  assert (Hok : (blen y <? blen o + blen b) || (negb more && (blen o + blen b <? blen y)) = false).
  { apply orb_false_iff. split; [apply Z.ltb_ge; lia|]. destruct more; [done|]. simpl. apply Z.ltb_ge.
    rewrite <- (Hend eq_refl), blen_app. lia. }
  rewrite Hok.
  assert (Hbuf : does (if bool_decide (b = []) then sret () else do! feed b false ;; sret ())
    (feeds (if bool_decide (b = []) then [] else [b])) ()).
  { destruct (bool_decide (b = [])); [apply does_ret|]. unfold feeds. cbn [fmap list_fmap concat].
    apply (does_bind _ _ _ _ (blen b)); [apply (does_feed b false)|apply does_ret]. }
  assert (Hgb : good_chunks (if bool_decide (b = []) then [] else [b]) /\
    concat (if bool_decide (b = []) then [] else [b]) = b).
  { destruct (bool_decide (b = [])) eqn:Hbd; bools; [subst; split; [constructor|done]|].
    split; [|by rewrite <- (app_nil_r b) at 2]. constructor; [|constructor]. rewrite CHUNK_eq. done. }
  destruct Hgb as [Hgb Hcb]. set (cb := if bool_decide (b = []) then [] else [b]) in *. destruct more.
  - destruct (Htrue eq_refl) as [Lb _].
    destruct (IH s1 i1 (o ++ b)) as (cs & Hg & Hc & Hdo); [done|by destruct (is_done s1)|rewrite blen_app; lia|].
    exists (cb ++ cs). split; [by apply Forall_app|]. split; [by rewrite concat_app, Hcb, app_assoc|].
    rewrite feeds_app. apply (does_bind _ _ [] _ ()); [apply does_read|]. apply (does_bind _ _ _ _ ()); [done|]. by rewrite <- blen_app.
  - exists cb. split; [done|]. split; [by rewrite Hcb, Hend|]. rewrite <- (app_nil_r (feeds cb)).
    apply (does_bind _ _ [] _ ()); [apply does_read|]. apply (does_bind _ _ _ _ ()); [done|]. eapply does_eq; [apply does_ret|done|]. rewrite <- (Hend eq_refl), blen_app.
    done.
Qed.
End StreamPart.

(** The payload bytes of a part: those it holds, or those its validated entry inflates to. *)
Definition part_bytes (zlib : bytes -> option bytes) (p : Part) (y : bytes) : Prop :=
  match p with
  | Absent => y = []
  | Inline data => y = v_data data
  | PStreamed st => exists n pos file d, ShipLog.log_file w (st_log st) = Ok file /\ views w file d /\
      0 <= pos /\ read_header w file n pos = Ok (st_header st) /\
      valid zlib (stored (st_header st) d) (EntryHeader.uncompressed (st_header st)) y /\ st_len st = blen y
  end.

(** The bytes of a field: its presence and length, then its payload. *)
Definition field_bytes (p : Part) (y : bytes) : bytes := encode_opt_len (payload_len p) ++ y.

Definition message_bytes (pkg : Package) (ys : list bytes) : bytes :=
  z2b (result_variant (j_v1 (pk_job pkg))) :: pk_base pkg ++ default [] (pk_block pkg) ++
  concat (zip_with field_bytes (pk_parts pkg) ys).

Section Message.
Context (zlib : bytes -> option bytes) `{L : !FlateLaws F zlib}.

Lemma does_stream_part st y :
  part_bytes zlib (PStreamed st) y ->
  exists cs, good_chunks cs /\ concat cs = y /\ does (stream_part st) (feeds cs) (blen y).
Proof.
  intros (n & pos & file & d & Hf & Hd & Hpos & Hh & Hy & Hlen). unfold stream_part, stream. rewrite Hf, Hlen.
  cbv zeta. cbn [rbind]. destruct (stored_sinv w zlib (st_header st) file d n pos Hd Hpos Hh) as (Hlt & _ & Hs).
  destruct (does_stream_loop zlib file d _ _ y Hd Hy Hlt (S (Z.to_nat (blen y / CHUNK)))
    (SrcShip (ShipLog.kind (st_log st))) (stream_new file (st_header st)) [] []) as (cs & Hg & Hc & Hdo);
    [done|done| |].
  { change (blen []) with 0. rewrite CHUNK_eq. pose proof (blen_nonneg y) as H0.
    pose proof (Z.mul_succ_div_gt (blen y) 1048576 ltac:(lia)).
    pose proof (Z.div_pos (blen y) 1048576 H0 ltac:(lia)). lia. }
  exists cs. split; [done|]. split; [done|]. by apply (does_bind _ _ [] _ ()); [apply does_read|].
Qed.

Lemma opt_len_chunk p y :
  part_bytes zlib p y -> blen y < U64 ->
  encode_opt_len (payload_len p) <> [] /\ blen (encode_opt_len (payload_len p)) <= CHUNK.
Proof.
  intros Hp Hu. assert (Hl : payload_len p = None \/ payload_len p = Some (blen y)).
  { destruct p as [|data|st]; simpl in *; [by left|subst; by right|].
    destruct Hp as (n & pos & file & d & _ & _ & _ & _ & _ & ->). by right. }
  rewrite CHUNK_eq. destruct Hl as [-> | ->]; simpl; [done|]. rewrite put_varuint_app. unfold push. simpl.
  split; [done|]. rewrite blen_cons.
  destruct (varuint_spec (blen y)) as (_ & _ & _ & Hlen); [pose proof (blen_nonneg y); width_lia|].
  specialize (Hlen 10%nat ltac:(lia)). change (128 ^ Z.of_nat 10) with 1180591620717411303424 in Hlen.
  assert (blen y < 1180591620717411303424) as Hy by width_lia. specialize (Hlen Hy).
  lia.
Qed.

Lemma does_send_parts parts ys sent :
  Forall2 (part_bytes zlib) parts ys -> Forall (fun y => blen y < U64) ys ->
  exists cs, good_chunks cs /\ concat cs = concat (zip_with field_bytes parts ys) /\
    does (send_parts parts sent) (feeds cs) (sent + blen (concat cs)).
Proof.
  intros Hp. revert sent. induction Hp as [|p y parts ys Hp _ IH]; intros sent Hu; cbn [send_parts zip_with].
  { exists []. split; [constructor|]. split; [done|]. eapply does_eq; [apply does_ret|done|]. cbn [concat]. rewrite blen_nil. lia. }
  apply Forall_cons_1 in Hu as [Hy Hu]. destruct (opt_len_chunk p y Hp Hy) as [Hne Hle].
  assert (Hd : exists cs, good_chunks cs /\ concat cs = y /\
    does match p with Absent => sret 0 | Inline data => feed_chunks (v_data data) | PStreamed st => stream_part st end
      (feeds cs) (blen y)).
  { destruct p as [|data|st]; [|subst; simpl in Hp; subst; apply does_feed_chunks|by apply does_stream_part].
    simpl in Hp. subst. exists []. split; [constructor|]. split; [done|apply does_ret]. }
  destruct Hd as (cy & Hgy & Hcy & Hdy). set (hd := encode_opt_len (payload_len p)) in *.
  destruct (IH (sent + blen hd + blen y) Hu) as (cs & Hg & Hc & Hdo).
  exists (hd :: cy ++ cs). split; [constructor; [done|by apply Forall_app]|].
  assert (Hcat : concat (hd :: cy ++ cs) = (hd ++ y) ++ concat cs).
  { cbn [concat]. by rewrite concat_app, Hcy, app_assoc. }
  rewrite Hcat. split; [cbn [concat]; by rewrite Hc|].
  change (feeds (hd :: cy ++ cs)) with (fed Continue hd ++ feeds (cy ++ cs)). rewrite feeds_app.
  apply (does_bind _ _ _ _ (blen hd)); [apply (does_feed hd false)|].
  apply (does_bind _ _ _ _ (blen y)); [done|]. eapply does_eq; [done|done|]. rewrite !blen_app. lia.
Qed.

(** A result: all of it but the final frame, then that one. *)
Lemma runs_send_result pkg ys :
  0 < blen (pk_base pkg) <= CHUNK -> Forall2 (part_bytes zlib) (pk_parts pkg) ys ->
  Forall (fun y => blen y < U64) ys ->
  exists cs acts, good_chunks cs /\
    z2b (result_variant (j_v1 (pk_job pkg))) :: concat cs = message_bytes pkg ys /\
    ops_of acts = fed Binary [z2b (result_variant (j_v1 (pk_job pkg)))] ++ feeds cs /\
    runs (send_result pkg) (acts ++ [AOp (Send (mkFrame Continue true []))]) (blen (message_bytes pkg ys)).
Proof.
  intros Hb Hp Hu. destruct (does_feed_base (pk_base pkg) (pk_block pkg) Hb) as (cb & Hgb & Hcb & ab & Eb & Hdb).
  set (a := 1 + (blen (pk_base pkg) + from_option blen 0 (pk_block pkg))).
  destruct (does_send_parts (pk_parts pkg) ys a Hp Hu) as (cs & Hg & Hc & ap & Ep & Hdo).
  destruct (does_feed [z2b (result_variant (j_v1 (pk_job pkg)))] true) as (av & Ev & Hdv).
  exists (cb ++ cs), (av ++ ab ++ ap). split; [by apply Forall_app|].
  assert (Hm : z2b (result_variant (j_v1 (pk_job pkg))) :: concat (cb ++ cs) = message_bytes pkg ys).
  { unfold message_bytes. by rewrite concat_app, Hcb, Hc, <- app_assoc. }
  split; [done|]. split; [unfold ops_of in *; by rewrite !omap_app, Ev, Eb, Ep, feeds_app|].
  unfold send_result. rewrite <- !app_assoc. eapply runs_bind; [exact Hdv|]. eapply runs_bind; [exact Hdb|].
  eapply runs_bind; [exact Hdo|]. rewrite <- (app_nil_r [_]). eapply runs_bind; [apply (runs_act (AOp _))|].
  intros st. cbn [puts sbind sret]. do 2 f_equal. rewrite <- Hm, concat_app, Hcb, blen_cons, !blen_app. unfold a.
  destruct (pk_block pkg); simpl; [lia|]. change (blen []) with 0. lia.
Qed.
End Message.

(** A sequence of operations runs to its end, or to the first one the socket refuses, or to a read that fails. *)
Lemma puts_spec acts st :
  match puts acts st with
  | (Ok _, st') => st' = st ++ ops_of acts
  | (Err e, st') => exists before rest, ops_of acts = before ++ rest /\ st' = st ++ before /\
      (e = SWs /\ (exists op rest', rest = op :: rest' /\ accept st' op = false) \/
       exists source e', e = SRead (ESource source e') /\ io st' = Some e')
  | (Panic, _) => False
  end.
Proof.
  revert st; induction acts as [|x acts IH]; intros st; cbn [puts]; [by rewrite app_nil_r|].
  unfold sbind. destruct x as [op|source]; cbn [act]; unfold sink, read_io.
  - change (ops_of (AOp op :: acts)) with (op :: ops_of acts). destruct (accept st op) eqn:Ha.
    + specialize (IH (st ++ [op])). destruct (puts acts (st ++ [op])) as [[u|e|] st']; [| |done].
      * by rewrite IH, <- app_assoc.
      * destruct IH as (before & rest & -> & -> & Hr). rewrite <- app_assoc in Hr. rewrite <- app_assoc.
        exists (op :: before), rest. done.
    + exists [], (op :: ops_of acts). rewrite app_nil_r. split; [done|]. split; [done|]. left. eauto.
  - change (ops_of (AIo source :: acts)) with (ops_of acts). destruct (io st) as [e|] eqn:Hi; [|apply IH].
    exists [], (ops_of acts). rewrite app_nil_r. split; [done|]. split; [done|]. right. eauto.
Qed.

(** The same, where the last is on the socket: a failure leaves it undone. *)
Lemma puts_last acts op st :
  match puts (acts ++ [AOp op]) st with
  | (Ok _, st') => st' = st ++ ops_of acts ++ [op]
  | (Err e, st') => exists before next rest, ops_of acts ++ [op] = before ++ next :: rest /\ st' = st ++ before /\
      (e = SWs /\ accept st' next = false \/ exists source e', e = SRead (ESource source e') /\ io st' = Some e')
  | (Panic, _) => False
  end.
Proof.
  rewrite puts_app. unfold sbind. pose proof (puts_spec acts st) as H.
  destruct (puts acts st) as [[u|e|] st']; [| |done].
  - subst st'. cbn [puts act]. unfold sbind, sink. destruct (accept (st ++ ops_of acts) op) eqn:Ha; [by rewrite <- app_assoc|].
    exists (ops_of acts), op, []. auto.
  - destruct H as (before & rest & -> & -> & H). rewrite <- app_assoc. exists before.
    destruct H as [(-> & next & rest' & -> & Hr)|H]; [exists next, (rest' ++ [op]); auto|].
    destruct rest as [|next rest]; [exists op, []|exists next, (rest ++ [op])]; auto.
Qed.
End Send.

(** The frames of a sequence of operations, and the rule that a large frame follows a flush. *)
Fixpoint frames_of (ops : list sink_op) : list frame :=
  match ops with
  | [] => []
  | (Feed f | Send f) :: ops => f :: frames_of ops
  | Flush :: ops => frames_of ops
  end.

Fixpoint flushed (prev_flush : bool) (ops : list sink_op) : bool :=
  match ops with
  | [] => true
  | Flush :: ops => flushed true ops
  | (Feed f | Send f) :: ops => (prev_flush || (blen (fr_payload f) <=? FLUSH_BEFORE)) && flushed false ops
  end.

Lemma frames_of_app a b : frames_of (a ++ b) = frames_of a ++ frames_of b.
Proof. induction a as [|[f| |f] a IH]; simpl; by rewrite ?IH. Qed.

Lemma frames_of_feeds cs : frames_of (feeds cs) = mkFrame Continue false <$> cs.
Proof.
  induction cs as [|c cs IH]; [done|]. change (feeds (c :: cs)) with (fed Continue c ++ feeds cs).
  rewrite frames_of_app, IH. unfold fed. by destruct (_ <? _).
Qed.

Lemma flushed_fed o c b ops : flushed b (fed o c ++ ops) = flushed false ops.
Proof.
  unfold fed. destruct (Z.ltb_spec FLUSH_BEFORE (blen c)); simpl; [done|].
  rewrite (proj2 (Z.leb_le _ _)) by done. by rewrite orb_true_r.
Qed.

Lemma flushed_feeds cs b ops : flushed false ops = true -> flushed b ops = true -> flushed b (feeds cs ++ ops) = true.
Proof.
  revert b; unfold feeds; induction cs as [|c cs IH]; intros b Hf Hb; [done|]. cbn [fmap list_fmap concat].
  rewrite <- app_assoc, flushed_fed. by apply IH.
Qed.

(** What [send_result] does, in full. *)
Lemma send_result_ops (w : world) (S : FileSource w) (F : Flate) (zlib : bytes -> option bytes)
    (L : FlateLaws F zlib) (accept : list sink_op -> sink_op -> bool) (io : list sink_op -> option err) (pkg : Package) (ys : list bytes)
    (Hb : 0 < blen (pk_base pkg) <= CHUNK) (Hp : Forall2 (part_bytes w zlib) (pk_parts pkg) ys)
    (Hu : Forall (fun y => blen y < U64) ys) :
  exists ops cs, ops = fed Binary [z2b (result_variant (j_v1 (pk_job pkg)))] ++ feeds cs ++
      [Send (mkFrame Continue true [])] /\
    frames_of ops = mkFrame Binary false [z2b (result_variant (j_v1 (pk_job pkg)))] ::
      (mkFrame Continue false <$> cs) ++ [mkFrame Continue true []] /\
    Forall (fun c => blen c <= CHUNK) cs /\ flushed false ops = true /\
    concat (fr_payload <$> frames_of ops) = message_bytes pkg ys /\
    forall st, match send_result w accept io pkg st with
      | (Ok sent, st') => sent = blen (message_bytes pkg ys) /\ st' = st ++ ops
      | (Err e, st') => exists before op rest, ops = before ++ op :: rest /\ st' = st ++ before /\
          (e = SWs /\ accept st' op = false \/ exists source e', e = SRead (ESource source e') /\ io st' = Some e')
      | (Panic, _) => False
      end.
Proof.
  destruct (runs_send_result w accept io zlib pkg ys Hb Hp Hu) as (cs & acts & Hg & Hm & Ho & Hdo).
  set (ops := fed Binary [z2b (result_variant (j_v1 (pk_job pkg)))] ++ feeds cs ++ [Send (mkFrame Continue true [])]).
  exists ops, cs. split; [done|].
  assert (Hfr : frames_of ops = mkFrame Binary false [z2b (result_variant (j_v1 (pk_job pkg)))] ::
      (mkFrame Continue false <$> cs) ++ [mkFrame Continue true []]).
  { unfold ops. by rewrite !frames_of_app, frames_of_feeds. }
  split; [done|]. split; [|split; [|split]].
  - eapply Forall_impl; [|exact Hg]. by intros c [_ ?].
  - unfold ops. rewrite flushed_fed. by apply flushed_feeds.
  - rewrite Hfr, <- Hm. cbn [fmap list_fmap fr_payload concat app]. f_equal.
    rewrite fmap_app, concat_app. cbn [fmap list_fmap fr_payload concat]. rewrite !app_nil_r.
    rewrite <- list_fmap_compose. f_equal. by apply list_fmap_id.
  - intros st. rewrite Hdo. unfold sbind. pose proof (puts_last accept io acts (Send (mkFrame Continue true [])) st) as Hps.
    rewrite Ho, <- app_assoc in Hps. fold ops in Hps. by destruct (puts accept io _ st) as [[u|e|] st'].
Qed.

(** ** Property *)

(** C16: a package is written as one WebSocket message. Its operations on the socket are fixed
    before anything is sent: a binary first frame, continuation frames, and an empty final one,
    only that one marked final; none above 1 MiB, and a flush before each one above 64 KiB. Their
    payloads, concatenated, are the variant, the base, the block, and each field's presence byte,
    length and inflated payload, a streamed payload included. The writer does all of it and
    returns the bytes sent, or stops where the socket refuses an operation or where the disk fails a read of a streamed
    payload, always short of the final frame; the bytes of a validated package are never refused, and nothing
    panics. *)
Theorem send_result_message (w : world) (S : FileSource w) (F : Flate) (zlib : bytes -> option bytes)
    (L : FlateLaws F zlib) (accept : list sink_op -> sink_op -> bool) (io : list sink_op -> option err) (pkg : Package) (ys : list bytes)
    (Hb : 0 < blen (pk_base pkg) <= CHUNK) (Hp : Forall2 (part_bytes w zlib) (pk_parts pkg) ys)
    (Hu : Forall (fun y => blen y < U64) ys) :
  exists ops cs,
    frames_of ops = mkFrame Binary false [z2b (result_variant (j_v1 (pk_job pkg)))] ::
      (mkFrame Continue false <$> cs) ++ [mkFrame Continue true []] /\
    Forall (fun c => blen c <= CHUNK) cs /\ flushed false ops = true /\
    concat (fr_payload <$> frames_of ops) = message_bytes pkg ys /\
    forall st, match send_result w accept io pkg st with
      | (Ok sent, st') => sent = blen (message_bytes pkg ys) /\ st' = st ++ ops
      | (Err e, st') => exists before op rest, ops = before ++ op :: rest /\ st' = st ++ before /\
          (e = SWs /\ accept st' op = false \/ exists source e', e = SRead (ESource source e') /\ io st' = Some e')
      | (Panic, _) => False
      end.
Proof.
  destruct (send_result_ops w S F zlib L accept io pkg ys Hb Hp Hu) as (ops & cs & _ & H). by exists ops, cs.
Qed.

(** A package whose first field is streamed from the example log. *)
Definition exf_package : Package :=
  mkPackage (exs_job 5) [x01; x02] 2 (Some [x03]) 8 [PStreamed (mkStreamed exi_ship exi_header 3); Inline (mkVec [x04] 1 1); Absent].
Definition exf_payloads : list bytes := [[x61; x62; x63]; [x04]; []].

Lemma send_result_message_witness :
  let S := direct_source exi_world exi_world_ok in
  exists ops, send_result (F := level0) exi_world (fun _ _ => true) (fun _ => None) exf_package [] = (Ok 13, ops) /\
    concat (fr_payload <$> frames_of ops) = [x01; x01; x02; x03; x01; x03; x61; x62; x63; x01; x01; x04; x00].
Proof.
  intros S. assert (Hb : 0 < blen (pk_base exf_package) <= CHUNK) by (split; vm_compute; [reflexivity|discriminate]).
  assert (Hp : Forall2 (part_bytes exi_world zlib_level0) (pk_parts exf_package) exf_payloads).
  { constructor; [|repeat constructor]. exists 5, 0, exi_log, (LogBuilder.log exi_builder).
    split; [vm_compute; reflexivity|]. split; [exact exi_log_views|]. split; [discriminate|].
    split; [exact exi_header_ok|]. split; [|reflexivity]. split; [vm_compute; reflexivity|].
    intros e He. vm_compute in He. injection He as <-. reflexivity. }
  assert (Hu : Forall (fun y => blen y < U64) exf_payloads) by (repeat constructor).
  pose proof (send_result_message exi_world S level0 zlib_level0 level0_laws (fun _ _ => true) (fun _ => None) exf_package
    exf_payloads Hb Hp Hu) as H. destruct H as (ops & cs & _ & _ & _ & Hc & H). exists ops. specialize (H []).
  assert (Hm : message_bytes exf_package exf_payloads =
    [x01; x01; x02; x03; x01; x03; x61; x62; x63; x01; x01; x04; x00]) by (vm_compute; reflexivity).
  split; [|rewrite Hc; exact Hm]. destruct (send_result _ _ _ _ []) as [[sent|e|] st'].
  - destruct H as [-> ->]. rewrite Hm. reflexivity.
  - destruct H as (before & op & rest & _ & _ & [[_ H]|(source & e' & _ & H)]); discriminate H.
  - destruct H.
Defined.
