(* ===== verification/Prefetch.v ===== *)
(** * Building ahead of the writer ([crates/ship-archive/src/fetch.rs], [Prefetcher])

    A session's [Prefetcher] keeps the builds of the next jobs of its window. A build is a task on
    an io thread: whether a thread is free, and whether the shared budget grants its reservation,
    depend on the other sessions, so both are arguments here ([free], [try_reserve]; the budget
    itself is in [Fetch.v]). [finish] is a task reaching its end; between any two steps the builds
    a session has dropped may still change its index pages. The semaphore of [Io] is never closed,
    so waiting for a thread only takes time. *)

From S2P Require Import Prelude.
From S2P Require Import Errors.
From S2P Require Import Binio.
From S2P Require Import Protocol.
From S2P Require Import ShipLog.
From S2P Require Import Zlib.
From S2P Require Import Inflate.
From S2P Require Import BlockLog.
From S2P Require Import Catalog.
From S2P Require Import Fetch.
From S2P Require Import Pages.
From S2P Require Import Store.

(** A package built ahead, with what its reservation still holds. *)
Record Prefetched := mkPrefetched { pre_package : Package; pre_reserved : Z }.

(** A build started ahead of the writer: [None] while it runs. *)
Record Ahead := mkAhead { ah_job : Job; ah_build : option (result (option Prefetched)) }.

Record Prefetcher := mkPrefetcher { pf_pages : PageCache; pf_ahead : list Ahead }.

Definition Prefetcher_new : Prefetcher := mkPrefetcher PageCache_default [].

(** Awaiting a task: one that panicked is an error to the task that awaits it. *)
Definition joined {A} (r : result A) : result A := match r with Panic => Err ETask | r => r end.

(** [Reservation::shrink_to], on the bytes held. *)
Definition shrink_to (reserved bytes : Z) : Z := if bytes <? reserved then bytes else reserved.

Section Ops.
Context (w : world) `{!FileSource w} `{F : Flate} (sha256 : bytes -> bytes) (can_reserve : Z -> bool).
Context (s : Store) (limits : FetchLimits) (depth : Z).

(** The debug assertion, which panics in a build that has them. *)
Definition check_cap (package : Package) : result () :=
  if held package <=? package_cap limits then Ok () else Panic.

Definition read_capped (p : Plan) : result Package :=
  let? package := read w sha256 can_reserve s p limits in
  do? check_cap package ;;
  Ok package.

Definition prefetch (try_reserve : Z -> bool) (job : Job) : paged (option Prefetched) :=
  let! p := plan w sha256 s job in
  if try_reserve (bound limits p) then
    let! package := slift (read_capped p) in
    sret (Some (mkPrefetched package (shrink_to (bound limits p) (held package))))
  else sret None.

(** The builds kept: the longest prefix whose jobs are those of the window. *)
Fixpoint matching (window : Window) (i : Z) (ahead : list Ahead) : nat :=
  match ahead with
  | a :: ahead =>
      if bool_decide (window_job window i = Some (ah_job a)) then S (matching window (i + 1) ahead) else 0
  | [] => 0
  end.

(** The [while] of [schedule], with [free] io threads to be had. *)
Fixpoint start_missing (free : nat) (window : Window) (want : Z) (ahead : list Ahead) : list Ahead :=
  if blen ahead <? want then
    match window_job window (wrap32 (blen ahead)) with
    | None => ahead
    | Some job =>
        match free with
        | O => ahead
        | S free => start_missing free window want (ahead ++ [mkAhead job None])
        end
    end
  else ahead.

Definition schedule (window : Window) (free : nat) (p : Prefetcher) : Prefetcher :=
  let want := Z.min (win_count window) depth in
  let keep := Z.min (Z.of_nat (matching window 0 (pf_ahead p))) want in
  mkPrefetcher (pf_pages p) (start_missing free window want (take (Z.to_nat keep) (pf_ahead p))).

(** The build on demand, waited for. *)
Definition build_now (job : Job) (p : Prefetcher) : result Package * Prefetcher :=
  let '(r, pages) := (let! p := plan w sha256 s job in slift (read_capped p)) (Some (pf_pages p)) in
  (joined r, mkPrefetcher (default (pf_pages p) pages) (pf_ahead p)).

(** [Prefetcher::take]: [None] while it waits for a build that still runs. *)
Definition take_package (job : Job) (p : Prefetcher) : option (result Package * Prefetcher) :=
  match pf_ahead p with
  | a :: rest =>
      let p := mkPrefetcher (pf_pages p) rest in
      if bool_decide (ah_job a = job) then
        match ah_build a with
        | None => None
        | Some build =>
            match joined build with
            | Ok (Some built) => Some (Ok (pre_package built), p)
            | Ok None => Some (build_now job p)
            | Err e => Some (Err e, p)
            | Panic => Some (Panic, p)
            end
        end
      else Some (build_now job (mkPrefetcher (pf_pages p) []))
  | [] => Some (build_now job p)
  end.

Definition clear (p : Prefetcher) : Prefetcher := mkPrefetcher (pf_pages p) [].

(** The [i]-th build ahead reaches its end. *)
Definition finish (i : nat) (try_reserve : Z -> bool) (p : Prefetcher) : option Prefetcher :=
  a ← pf_ahead p !! i;
  match ah_build a with
  | Some _ => None
  | None =>
      let '(r, pages) := prefetch try_reserve (ah_job a) (Some (pf_pages p)) in
      Some (mkPrefetcher (default (pf_pages p) pages) (<[i := mkAhead (ah_job a) (Some r)]> (pf_ahead p)))
  end.
End Ops.

(** ** What a build ahead holds *)
Section Facts.
Context (w : world) `{!FileSource w} (sha256 : bytes -> bytes) (s : Store).
Context `{F : Flate} (zlib : bytes -> option bytes) `{L : !FlateLaws F zlib} (can_reserve : Z -> bool).
Context (limits : FetchLimits) (depth : Z).
Hypothesis Hs : store_ok w sha256 s.
Hypothesis Hratio : forall x y, zlib x = Some y -> blen y <= MAX_INFLATE_RATIO * blen x.
Hypothesis Ht : 0 <= stream_threshold limits <= 2 ^ 62.

#[local] Abbreviation build j := (build w sha256 can_reserve s j limits).

Definition build_ok (j : Job) (r : result (option Prefetched)) : Prop :=
  match r with
  | Ok (Some b) => build j = Ok (pre_package b) /\ pre_reserved b = held (pre_package b)
  | Ok None => True
  | Err e => build j = Err e
  | Panic => False
  end.

Definition ahead_ok (a : Ahead) : Prop := from_option (build_ok (ah_job a)) True (ah_build a).

Definition prefetcher_ok (p : Prefetcher) : Prop :=
  psteps w PageCache_default (pf_pages p) /\ Forall ahead_ok (pf_ahead p).

Lemma build_total j : is_panic (build j) = false.
Proof.
  apply (build_no_panic w _ sha256 s F zlib L can_reserve j limits Hs).
  change (2 ^ 62) with 4611686018427387904 in Ht. width_lia.
Qed.

Lemma read_capped_eq j p : (plan w sha256 s j None).1 = Ok p ->
  read_capped w sha256 can_reserve s limits p = build j /\
  forall pkg, build j = Ok pkg -> held pkg <= bound limits p.
Proof.
  intros Hp. unfold Store.build. rewrite Hp. cbn [rbind]. unfold read_capped.
  destruct (read w sha256 can_reserve s p limits) as [pkg|e|] eqn:Hr; [|done|done]. cbn [rbind].
  destruct (held_bounded w _ sha256 s F zlib L can_reserve j limits p pkg Hs Hratio Ht Hp Hr) as (_ & Hb1 & Hb2 & Hc).
  unfold check_cap. rewrite (proj2 (Z.leb_le _ _)) by done. split; [done|].
  intros q Hq. apply Ok_inj in Hq as <-. assert (0 <= READ_SCRATCH) by done. lia.
Qed.

Lemma plan_err j e : (plan w sha256 s j None).1 = Err e -> build j = Err e.
Proof. intros Hp. unfold Store.build. by rewrite Hp. Qed.

Lemma plan_total j : (plan w sha256 s j None).1 <> Panic.
Proof. intros Hp. pose proof (build_total j) as Hb. unfold Store.build in Hb. by rewrite Hp in Hb. Qed.

Lemma prefetch_spec tr j c :
  psteps w PageCache_default c ->
  exists r c', prefetch w sha256 can_reserve s limits tr j (Some c) = (r, Some c') /\
    psteps w PageCache_default c' /\ build_ok j r.
Proof.
  intros Hc. destruct (proj2 (paged_plan w sha256 s Hs j) c Hc) as (c' & Hp & Hc').
  unfold prefetch. unfold sbind at 1. rewrite Hp.
  pose proof (build_total j) as Hb. pose proof (plan_total j) as Hn.
  destruct ((plan w sha256 s j None).1) as [p|e|] eqn:Hpl; [|by eexists _, _; split_and!; [done|done|apply plan_err]|done].
  destruct (read_capped_eq j p Hpl) as [Hr Hle]. destruct (tr _); [|by eexists _, _].
  unfold sbind, slift, sret. rewrite Hr. destruct (build j) as [pkg|e|] eqn:Hbj; [|by eexists _, _|done].
  eexists _, _. split; [done|]. split; [done|]. simpl. split; [done|].
  unfold shrink_to. specialize (Hle pkg eq_refl). destruct (Z.ltb_spec (held pkg) (bound limits p)); lia.
Qed.

Lemma build_now_spec j p :
  prefetcher_ok p -> exists p', build_now w sha256 can_reserve s limits j p = (build j, p') /\ prefetcher_ok p' /\
    pf_ahead p' = pf_ahead p.
Proof.
  intros [Hc Ha]. destruct (proj2 (paged_plan w sha256 s Hs j) _ Hc) as (c' & Hp & Hc').
  unfold build_now. unfold sbind at 1. rewrite Hp. unfold slift.
  pose proof (build_total j) as Hb. pose proof (plan_total j) as Hn.
  destruct ((plan w sha256 s j None).1) as [pl|e|] eqn:Hpl; [| |done].
  - rewrite (proj1 (read_capped_eq j pl Hpl)). exists (mkPrefetcher c' (pf_ahead p)).
    split; [by destruct (build j)|done].
  - rewrite (plan_err j e Hpl). by exists (mkPrefetcher c' (pf_ahead p)).
Qed.

(** The writer takes what building the job on demand would give it, whatever was built ahead. *)
Lemma take_package_spec j p r p' :
  prefetcher_ok p -> take_package w sha256 can_reserve s limits j p = Some (r, p') ->
  r = build j /\ prefetcher_ok p' /\ (length (pf_ahead p') <= pred (length (pf_ahead p)))%nat.
Proof.
  intros [Hc Ha] H. unfold take_package in H. destruct (pf_ahead p) as [|a rest] eqn:Hp.
  { destruct (build_now_spec j p) as (q & Hq & Hok & Hl); [by split; rewrite ?Hp|]. rewrite Hq in H. simplify_eq.
    by rewrite Hl, Hp. }
  apply Forall_cons_1 in Ha as [Ha Hrest]. destruct (bool_decide (ah_job a = j)) eqn:Hj; bools; subst.
  - destruct (ah_build a) as [b|] eqn:Hb; [|done]. unfold ahead_ok in Ha. rewrite Hb in Ha. simpl in Ha.
    assert (Hok : prefetcher_ok (mkPrefetcher (pf_pages p) rest)) by done.
    destruct b as [[b|]|e|]; simpl in H, Ha; [| | |done].
    + destruct Ha as [-> _]. by simplify_eq.
    + destruct (build_now_spec (ah_job a) _ Hok) as (q & Hq & Hqok & Hl). rewrite Hq in H. simplify_eq. by rewrite Hl.
    + rewrite Ha. by simplify_eq.
  - destruct (build_now_spec j (mkPrefetcher (pf_pages p) [])) as (q & Hq & Hok & Hl); [done|].
    cbn [pf_pages] in H. rewrite Hq in H. simplify_eq. rewrite Hl. split; [done|]. split; [done|]. simpl. lia.
Qed.

Lemma finish_ok i tr p p' :
  prefetcher_ok p -> finish w sha256 can_reserve s limits i tr p = Some p' ->
  prefetcher_ok p' /\ ah_job <$> pf_ahead p' = ah_job <$> pf_ahead p.
Proof.
  intros [Hc Ha] H. unfold finish in H. apply bind_Some in H as (a & Hi & H).
  destruct (ah_build a) eqn:Hb; [done|].
  destruct (prefetch_spec tr (ah_job a) _ Hc) as (r & c' & Hr & Hc' & Hok). rewrite Hr in H. injection H as <-.
  split; [split; [done|]|].
  - simpl. by apply Forall_insert.
  - simpl. rewrite list_fmap_insert. simpl. apply list_insert_id. by rewrite list_lookup_fmap, Hi.
Qed.

(** ** What is scheduled *)

(** The jobs ahead are the first ones of the window. *)
Definition ahead_of (window : Window) (ahead : list Ahead) : Prop :=
  forall i a, ahead !! i = Some a -> window_job window (Z.of_nat i) = Some (ah_job a).

Lemma matching_spec window i ahead k a :
  (k < matching window i ahead)%nat -> ahead !! k = Some a -> window_job window (i + Z.of_nat k) = Some (ah_job a).
Proof.
  revert i k; induction ahead as [|b ahead IH]; intros i k; simpl; [lia|].
  destruct (bool_decide _) eqn:Hb; [|simpl; lia]. bools. destruct k as [|k]; simpl.
  - intros _ [= <-]. by rewrite Z.add_0_r.
  - intros Hk Ha. rewrite <- (IH (i + 1) k ltac:(lia) Ha). f_equal. lia.
Qed.

Lemma start_missing_spec free window want ahead :
  want < U32 -> ahead_of window ahead -> blen ahead <= Z.max 0 want -> Forall ahead_ok ahead ->
  let ahead' := start_missing free window want ahead in
  ahead_of window ahead' /\ blen ahead' <= Z.max 0 want /\ Forall ahead_ok ahead'.
Proof.
  intros Hw. revert ahead; induction free as [|free IH]; intros ahead Ho Hl Ha; cbn [start_missing];
    destruct (Z.ltb_spec (blen ahead) want) as [Hlt|Hge]; try done;
    destruct (window_job window (wrap32 (blen ahead))) as [job|] eqn:Hj; try done.
  pose proof (blen_nonneg ahead). unfold wrap32 in Hj. rewrite Z.mod_small in Hj by lia. apply IH.
  - intros i a Hi. apply lookup_app_Some in Hi as [Hi|[Hi1 Hi2]]; [by apply Ho|].
    destruct (i - length ahead)%nat as [|?] eqn:Hd; [|done]. simplify_eq/=. rewrite <- Hj. f_equal. unfold blen. lia.
  - rewrite blen_app. change (blen [mkAhead job None]) with 1. lia.
  - apply Forall_app. split; [done|]. by repeat constructor.
Qed.

Lemma schedule_spec window free p :
  win_count window < U32 -> prefetcher_ok p ->
  let p' := schedule depth window free p in
  prefetcher_ok p' /\ ahead_of window (pf_ahead p') /\
  blen (pf_ahead p') <= Z.max 0 (Z.min (win_count window) depth).
Proof.
  intros Hw [Hc Ha]. unfold schedule. cbn [pf_ahead pf_pages].
  set (want := Z.min (win_count window) depth). set (m := matching window 0 (pf_ahead p)).
  set (kept := take (Z.to_nat (Z.min (Z.of_nat m) want)) (pf_ahead p)).
  destruct (start_missing_spec free window want kept) as (H1 & H2 & H3); [lia| | | |by split].
  - intros i a Hi. apply lookup_take_Some in Hi as [Hi Hlt].
    apply (matching_spec window 0 (pf_ahead p) i a); [fold m; lia|done].
  - unfold kept, blen. rewrite length_take. lia.
  - unfold kept. by apply Forall_take.
Qed.
End Facts.
