(* ===== verification/Spring.v ===== *)
(** * Spring's per-connection state ([crates/ship-archive/src/session.rs], [SpringState])

    The current request, whose [max_messages_in_flight] is the credit and whose
    [start_block_num] is the cursor, and the queue of status requests. Its operations are the
    critical sections of the session's reader ([status], [blocks], [ack]) and writer ([take],
    [window]); a history of them, in the order they take the lock, is a list of [event]s, and what
    the session owes its client for it is the list of messages [run] gives. [Session.v] shows that
    this is what the client receives. *)

From S2P Require Import Prelude.
From S2P Require Import Protocol.
From S2P Require Import Fetch.

Module Spring.

Definition MAX_QUEUED_STATUS : Z := 1024.

Record SpringState := mkSpring { req : BlocksReq; generation : Z; status_q : list bool }.

Definition SpringState_default : SpringState := mkSpring BlocksReq_default 0 [].

(** A request with its cursor and credit, or its positions, replaced. *)
Definition with_flow (r : BlocksReq) (start credit : Z) : BlocksReq :=
  mkReq (rq_v1 r) start (rq_end r) credit (rq_have_positions r) (rq_irreversible_only r)
    (rq_fetch_block r) (rq_fetch_traces r) (rq_fetch_deltas r) (rq_fetch_finality_data r).

Definition without_positions (r : BlocksReq) : BlocksReq :=
  mkReq (rq_v1 r) (rq_start r) (rq_end r) (rq_max_in_flight r) [] (rq_irreversible_only r)
    (rq_fetch_block r) (rq_fetch_traces r) (rq_fetch_deltas r) (rq_fetch_finality_data r).

Definition status (v1 : bool) (s : SpringState) : bool * SpringState :=
  if MAX_QUEUED_STATUS <=? blen (status_q s) then (false, s)
  else (true, mkSpring (req s) (generation s) (status_q s ++ [v1])).

Definition blocks (r : BlocksReq) (s : SpringState) : SpringState :=
  mkSpring (without_positions r) (add64 (generation s) 1) (status_q s).

Definition ack (n : Z) (s : SpringState) : SpringState :=
  mkSpring (with_flow (req s) (rq_start (req s)) (wrap32 (rq_max_in_flight (req s) + n)))
    (generation s) (status_q s).

Definition sendable (last : Z) (s : SpringState) : option Job :=
  let r := req s in
  if (0 <? rq_max_in_flight r) && (rq_start r <=? last) && (rq_start r <? rq_end r)
  then Some (mkJob (generation s) (rq_start r) (rq_v1 r) (flags_of r))
  else None.

Definition take (last : Z) (s : SpringState) : list bool * option Job * SpringState :=
  let job := sendable last s in
  let r := req s in
  let r :=
    match job with
    | Some _ => with_flow r (add32 (rq_start r) 1) (wrap32 (rq_max_in_flight r - 1))
    | None => r
    end in
  (status_q s, job, mkSpring r (generation s) []).

Definition window (last : Z) (s : SpringState) : Window :=
  match sendable last s with
  | None => Window_default
  | Some first =>
      let r := req s in
      let left := wrap32 (Z.min (rq_end r) (Z.min (last + 1) u32_max) - rq_start r) in
      mkWindow (Some first) (Z.min left (rq_max_in_flight r))
  end.

(** ** Histories *)

Inductive event := EvStatus (v1 : bool) | EvBlocks (r : BlocksReq) | EvAck (n : Z) | EvTake.

(** What the session owes its client. *)
Inductive message := SStatus (v1 : bool) | SResult (j : Job).

(** One critical section, and the messages it makes due; [None] where it ends the session. *)
Definition step (last : Z) (e : event) (s : SpringState) : option (SpringState * list message) :=
  match e with
  | EvStatus v1 => let '(ok, s) := status v1 s in if ok then Some (s, []) else None
  | EvBlocks r => Some (blocks r s, [])
  | EvAck n => Some (ack n s, [])
  | EvTake =>
      let '(statuses, job, s) := take last s in
      Some (s, (SStatus <$> statuses) ++ match job with Some j => [SResult j] | None => [] end)
  end.

Fixpoint run (last : Z) (evs : list event) (s : SpringState) : option (SpringState * list message) :=
  match evs with
  | [] => Some (s, [])
  | e :: evs =>
      '(s, out) ← step last e s;
      '(s, rest) ← run last evs s;
      Some (s, out ++ rest)
  end.

Lemma run_app last evs evs' s :
  run last (evs ++ evs') s = ('(s, out) ← run last evs s; '(s, rest) ← run last evs' s; Some (s, out ++ rest)).
Proof.
  revert s; induction evs as [|e evs IH]; intros s; simpl.
  { destruct (run last evs' s) as [[s' out]|]; done. }
  destruct (step last e s) as [[s1 o1]|]; simpl; [|done]. rewrite IH.
  destruct (run last evs s1) as [[s2 o2]|]; simpl; [|done].
  destruct (run last evs' s2) as [[s3 o3]|]; simpl; [|done]. by rewrite app_assoc.
Qed.

(** ** Accounting *)

Definition results (out : list message) : list Job :=
  omap (fun m => match m with SResult j => Some j | SStatus _ => None end) out.
Definition statuses (out : list message) : list bool :=
  omap (fun m => match m with SStatus v1 => Some v1 | SResult _ => None end) out.
Definition asked (evs : list event) : list bool :=
  omap (fun e => match e with EvStatus v1 => Some v1 | _ => None end) evs.
Definition acked (evs : list event) : Z :=
  foldr (fun e n => match e with EvAck k => k + n | _ => n end) 0 evs.

Definition is_blocks (e : event) : bool := match e with EvBlocks _ => true | _ => false end.
Definition req_ok (r : BlocksReq) : Prop :=
  is_u32 (rq_start r) /\ is_u32 (rq_end r) /\ is_u32 (rq_max_in_flight r).
Definition event_ok (e : event) : Prop :=
  match e with EvAck n => is_u32 n | EvBlocks r => req_ok r | _ => True end.

(** The [k] jobs of a request from its start. *)
Definition jobs (gen : Z) (r : BlocksReq) (k : Z) : list Job :=
  (fun n => mkJob gen n (rq_v1 r) (flags_of r)) <$> seqZ (rq_start r) k.

Lemma results_app o o' : results (o ++ o') = results o ++ results o'.
Proof. apply omap_app. Qed.
Lemma statuses_app o o' : statuses (o ++ o') = statuses o ++ statuses o'.
Proof. apply omap_app. Qed.
Lemma results_statuses l : results (SStatus <$> l) = [].
Proof. induction l as [|v l IH]; [done|]. exact IH. Qed.
Lemma statuses_statuses l : statuses (SStatus <$> l) = l.
Proof.
  induction l as [|v l IH]; [done|].
  change (statuses (SStatus <$> v :: l)) with (v :: statuses (SStatus <$> l)). by rewrite IH.
Qed.

Lemma jobs_snoc gen r k :
  0 <= k -> jobs gen r (k + 1) = jobs gen r k ++ [mkJob gen (rq_start r + k) (rq_v1 r) (flags_of r)].
Proof. intros Hk. unfold jobs. by rewrite seqZ_app, fmap_app by lia. Qed.

Lemma acked_app evs evs' : acked (evs ++ evs') = acked evs + acked evs'.
Proof. induction evs as [|[] evs IH]; simpl; [done|..]; rewrite ?IH; unfold acked in *; simpl; lia. Qed.

Lemma asked_app evs evs' : asked (evs ++ evs') = asked evs ++ asked evs'.
Proof. apply omap_app. Qed.

Lemma acked_nonneg evs : Forall event_ok evs -> 0 <= acked evs.
Proof.
  induction 1 as [|e evs He _ IH]; [done|]. destruct e; simpl in *; try done.
  unfold event_ok, is_u32 in He. unfold acked in *. simpl. lia.
Qed.

(** The state and the messages since a request: the first [k] blocks from its start, as many as
    its credit and the acks since allow at most, inside its range and the store's. *)
Record account (last : Z) (s0 : SpringState) (r : BlocksReq) (evs : list event) (s : SpringState)
    (out : list message) (k : Z) : Prop := {
  ac_results : results out = jobs (add64 (generation s0) 1) r k;
  ac_k : 0 <= k <= rq_max_in_flight r + acked evs;
  ac_range : 0 < k -> rq_start r + k <= rq_end r /\ rq_start r + k <= last + 1;
  ac_req : req s = without_positions
    (with_flow r (rq_start r + k) (wrap32 (rq_max_in_flight r + acked evs - k)));
  ac_generation : generation s = add64 (generation s0) 1;
  ac_status : statuses out ++ status_q s = status_q s0 ++ asked evs;
  ac_queue : blen (status_q s) <= Z.max MAX_QUEUED_STATUS (blen (status_q s0))
}.

Lemma account_step last s0 r evs s out k e s' o :
  req_ok r -> Forall event_ok evs -> event_ok e -> is_blocks e = false ->
  account last s0 r evs s out k -> step last e s = Some (s', o) ->
  exists k', account last s0 r (evs ++ [e]) s' (out ++ o) k'.
Proof.
  intros (Hs & He & Hm) Hevs Hev Hb [A1 A2 A3 A4 A5 A6 A7] H. pose proof (acked_nonneg evs Hevs) as Ha.
  destruct e as [v1|r'|n|]; simpl in H; [|done| |].
  - unfold status in H. destruct (Z.leb_spec MAX_QUEUED_STATUS (blen (status_q s))) as [|Hlt]; [done|]. simplify_eq.
    exists k. split; simpl; rewrite ?app_nil_r, ?acked_app, ?asked_app; try done; simpl; rewrite ?Z.add_0_r; try done.
    + by rewrite app_assoc, A6, app_assoc.
    + rewrite blen_app. change (blen [v1]) with 1. lia.
  - simplify_eq. exists k. split; simpl; rewrite ?app_nil_r, ?acked_app, ?asked_app; try done; simpl.
    + unfold event_ok, is_u32 in Hev. lia.
    + rewrite A4. unfold without_positions, with_flow. simpl. f_equal. unfold wrap32.
      rewrite Zplus_mod_idemp_l. f_equal. lia.
    + by rewrite app_nil_r.
  - unfold take, sendable in H. set (credit := rq_max_in_flight r + acked evs - k) in *.
    assert (E1 : rq_max_in_flight (req s) = wrap32 credit) by (by rewrite A4).
    assert (E2 : rq_start (req s) = rq_start r + k) by (by rewrite A4).
    assert (E3 : rq_end (req s) = rq_end r) by (by rewrite A4).
    assert (Hcr : 0 <= wrap32 credit <= credit).
    { unfold wrap32. pose proof (Z.mod_pos_bound credit U32 ltac:(done)).
      pose proof (Z.mod_le credit U32 ltac:(lia) ltac:(done)). lia. }
    rewrite E1, E2, E3 in H. destruct (_ && _ && _) eqn:Hc.
    + bools. simplify_eq. exists (k + 1).
      assert (Hst : add32 (rq_start r + k) 1 = rq_start r + (k + 1)).
      { unfold add32, wrap32. rewrite Z.mod_small; [lia|]. unfold is_u32 in *. lia. }
      split; simpl; rewrite ?acked_app, ?asked_app; simpl; rewrite ?Z.add_0_r, ?app_nil_r; try done; try lia.
      * rewrite results_app, A1, results_app, results_statuses, jobs_snoc by lia. simpl. by rewrite A5, A4.
      * rewrite A4. unfold without_positions, with_flow. simpl. rewrite Hst. f_equal. unfold wrap32.
        rewrite Zminus_mod_idemp_l. f_equal. unfold credit. lia.
      * rewrite !statuses_app, statuses_statuses. simpl. by rewrite app_nil_r.
      * unfold MAX_QUEUED_STATUS. change (blen []) with 0. lia.
    + simplify_eq. exists k.
      split; simpl; rewrite ?acked_app, ?asked_app; simpl; rewrite ?Z.add_0_r, ?app_nil_r; try done; try lia.
      * by rewrite results_app, results_statuses, app_nil_r.
      * by rewrite statuses_app, statuses_statuses.
      * unfold MAX_QUEUED_STATUS. change (blen []) with 0. lia.
Qed.

Lemma account_run last s0 r evs s out k evs' s' o :
  req_ok r -> Forall event_ok evs -> Forall event_ok evs' -> existsb is_blocks evs' = false ->
  account last s0 r evs s out k -> run last evs' s = Some (s', o) ->
  exists k', account last s0 r (evs ++ evs') s' (out ++ o) k'.
Proof.
  intros Hr. revert evs s out k o. induction evs' as [|e evs' IH]; intros evs s out k o He He' Hb A H; simpl in H.
  { simplify_eq. exists k. by rewrite !app_nil_r. }
  apply bind_Some in H as ([s1 o1] & H1 & H). apply bind_Some in H as ([s2 o2] & H2 & H). simplify_eq.
  simpl in Hb. apply orb_false_iff in Hb as [Hb1 Hb2]. apply Forall_cons_1 in He' as [He1 He2].
  destruct (account_step last s0 r evs s out k e s1 o1) as [k1 A1]; [done..|].
  destruct (IH (evs ++ [e]) s1 (out ++ o1) k1 o2) as [k2 A2]; [|done..|].
  { apply Forall_app. split; [done|]. by constructor. }
  exists k2. by rewrite <- !app_assoc in A2.
Qed.

Lemma account_start last s r : req_ok r -> account last s r [] (blocks r s) [] 0.
Proof.
  intros (Hs & He & Hm). split; simpl; try done; try lia.
  - unfold is_u32 in Hm. lia.
  - unfold blocks, with_flow, without_positions. simpl. unfold wrap32, is_u32 in *.
    rewrite !Z.add_0_r, Z.sub_0_r, Z.mod_small by done. by destruct r.
  - by rewrite app_nil_r.
Qed.

(** ** The window *)

Lemma sendable_Some last s j :
  sendable last s = Some j ->
  0 < rq_max_in_flight (req s) /\ rq_start (req s) <= last /\ rq_start (req s) < rq_end (req s) /\
  j = mkJob (generation s) (rq_start (req s)) (rq_v1 (req s)) (flags_of (req s)).
Proof. unfold sendable. destruct (_ && _ && _) eqn:Hc; [|done]. bools. intros [= <-]. done. Qed.

Lemma sendable_None last s :
  sendable last s = None ->
  rq_max_in_flight (req s) <= 0 \/ last < rq_start (req s) \/ rq_end (req s) <= rq_start (req s).
Proof.
  unfold sendable. destruct (_ && _ && _) eqn:Hc; [done|]. intros _.
  apply andb_false_iff in Hc as [Hc|Hc]; [apply andb_false_iff in Hc as [Hc|Hc]|]; bools; lia.
Qed.

(** How many blocks the send rule allows from a state. *)
Definition allowed (last : Z) (s : SpringState) : Z :=
  Z.min (Z.min (rq_end (req s)) (last + 1) - rq_start (req s)) (rq_max_in_flight (req s)).

Lemma window_count last s :
  req_ok (req s) -> is_u32 last -> win_count (window last s) = Z.max 0 (allowed last s).
Proof.
  intros (Hs & He & Hm) Hl. unfold window, allowed, is_u32 in *. destruct (sendable last s) as [j|] eqn:Hj.
  - apply sendable_Some in Hj as (H1 & H2 & H3 & _). simpl. unfold wrap32. rewrite Z.mod_small by width_lia. width_lia.
  - apply sendable_None in Hj. simpl. lia.
Qed.

Lemma window_count_u32 last s : win_count (window last s) < U32.
Proof.
  unfold window. destruct (sendable last s); [|done]. simpl.
  pose proof (Z.mod_pos_bound (Z.min (rq_end (req s)) (Z.min (last + 1) u32_max) - rq_start (req s)) U32 ltac:(done)).
  unfold wrap32. lia.
Qed.

Lemma window_empty last s : req_ok (req s) -> is_u32 last -> win_count (window last s) = 0 -> sendable last s = None.
Proof.
  intros Hr Hl. rewrite window_count by done. intros H. destruct (sendable last s) as [j|] eqn:Hj; [|done].
  apply sendable_Some in Hj as (H1 & H2 & H3 & _). unfold allowed in H. lia.
Qed.

Lemma window_job_eq last s i :
  req_ok (req s) -> is_u32 last -> 0 <= i ->
  window_job (window last s) i =
    if i <? allowed last s
    then Some (mkJob (generation s) (rq_start (req s) + i) (rq_v1 (req s)) (flags_of (req s)))
    else None.
Proof.
  intros Hr Hl Hi. pose proof (window_count last s Hr Hl) as Hc. destruct Hr as (Hs & He & Hm).
  unfold window_job. unfold window in *. destruct (sendable last s) as [j|] eqn:Hj.
  - apply sendable_Some in Hj as (H1 & H2 & H3 & ->). cbn [win_first win_count] in *. rewrite Hc. simpl.
    destruct (Z.ltb_spec i (allowed last s)) as [Hlt|Hge].
    + rewrite (proj2 (Z.ltb_lt _ _)) by lia. do 2 f_equal. unfold add32, wrap32. apply Z.mod_small.
      unfold allowed, is_u32 in *. lia.
    + by rewrite (proj2 (Z.ltb_ge _ _)) by lia.
  - simpl in *. destruct (Z.ltb_spec i (allowed last s)); [lia|done].
Qed.

(** Taking a job leaves the rest of the window. *)
Lemma take_window last s j s' sts :
  req_ok (req s) -> is_u32 last -> take last s = (sts, Some j, s') ->
  req_ok (req s') /\ sts = status_q s /\ status_q s' = [] /\ window_job (window last s) 0 = Some j /\
  allowed last s' = allowed last s - 1 /\
  forall i, 0 <= i -> window_job (window last s') i = window_job (window last s) (i + 1).
Proof.
  intros Hr Hl H. unfold take in H. destruct (sendable last s) as [j'|] eqn:Hj; [|done].
  injection H as <- <- <-. pose proof Hj as Hj'. apply sendable_Some in Hj' as (H1 & H2 & H3 & ->).
  pose proof Hr as (Hs & He & Hm). unfold is_u32 in *.
  set (s' := mkSpring _ _ _).
  assert (E : rq_start (req s') = rq_start (req s) + 1 /\ rq_max_in_flight (req s') = rq_max_in_flight (req s) - 1).
  { simpl. unfold add32, wrap32. rewrite !Z.mod_small by lia. done. }
  destruct E as [E1 E2]. assert (Hr' : req_ok (req s')).
  { unfold req_ok, is_u32. rewrite E1, E2. simpl. lia. }
  assert (Ea : allowed last s' = allowed last s - 1) by (unfold allowed; rewrite E1, E2; simpl; lia).
  split; [done|]. split; [done|]. split; [done|]. split; [|split; [done|]].
  - rewrite window_job_eq by (done || lia). rewrite (proj2 (Z.ltb_lt _ _)) by (unfold allowed; lia).
    by rewrite Z.add_0_r.
  - intros i Hi. rewrite !window_job_eq by (done || lia). rewrite Ea, E1.
    destruct (Z.ltb_spec i (allowed last s - 1)); destruct (Z.ltb_spec (i + 1) (allowed last s)); try lia; [|done].
    simpl. unfold flags_of. simpl. do 2 f_equal. lia.
Qed.

Lemma omap_shift {A} (f g : Z -> option A) a k :
  (forall i, a <= i -> g i = f (i + 1)) -> omap g (seqZ a k) = omap f (seqZ (a + 1) k).
Proof.
  intros H. unfold seqZ. generalize (seq 0 (Z.to_nat k)). intros l. induction l as [|x l IH]; [done|].
  rewrite !fmap_cons. cbn [omap list_omap]. rewrite IH, H by lia. by rewrite Z.add_assoc.
Qed.

(** The jobs of a window. *)
Definition window_jobs (w : Window) : list Job := omap (window_job w) (seqZ 0 (win_count w)).

Lemma window_jobs_cons last s j s' sts :
  req_ok (req s) -> is_u32 last -> take last s = (sts, Some j, s') ->
  window_jobs (window last s) = j :: window_jobs (window last s').
Proof.
  intros Hr Hl H. destruct (take_window last s j s' sts Hr Hl H) as (Hr' & _ & _ & H0 & Ha & Hn).
  unfold window_jobs. pose proof (window_count last s Hr Hl) as Hc.
  rewrite window_job_eq in H0 by (done || lia). destruct (Z.ltb_spec 0 (allowed last s)) as [Hlt|]; [|done].
  rewrite Hc, (window_count last s') by done. rewrite Ha, !Z.max_r by lia.
  rewrite seqZ_cons by lia. cbn [omap list_omap]. rewrite window_job_eq by (done || lia).
  rewrite (proj2 (Z.ltb_lt _ _)) by done. simplify_eq. f_equal.
  replace (Z.pred (allowed last s)) with (allowed last s - 1) by lia.
  symmetry. change (Z.succ 0) with (0 + 1). apply omap_shift. intros i Hi. by apply Hn.
Qed.

Lemma window_jobs_length last s :
  req_ok (req s) -> is_u32 last -> blen (window_jobs (window last s)) = win_count (window last s).
Proof.
  intros Hr Hl. unfold window_jobs. rewrite window_count by done. set (k := Z.max 0 (allowed last s)).
  assert (Hk : forall i, 0 <= i < k -> is_Some (window_job (window last s) i)).
  { intros i Hi. rewrite window_job_eq by (done || lia). by rewrite (proj2 (Z.ltb_lt _ _)) by lia. }
  assert (H : Forall (fun i => is_Some (window_job (window last s) i)) (seqZ 0 k)).
  { apply Forall_forall. intros i Hi. apply list_elem_of_In, elem_of_seqZ in Hi. apply Hk. lia. }
  transitivity (blen (seqZ 0 k)); [|unfold blen; rewrite length_seqZ; lia]. unfold blen. f_equal.
  generalize dependent (seqZ 0 k). intros l H.
  induction H as [|i l [j Hj] _ IH]; [done|]. cbn [omap list_omap]. rewrite Hj. simpl. by rewrite IH.
Qed.

Lemma drain last k s :
  req_ok (req s) -> is_u32 last -> Z.of_nat k = win_count (window last s) ->
  exists s' out, run last (replicate k EvTake) s = Some (s', out) /\ results out = window_jobs (window last s) /\
    sendable last s' = None /\ statuses out ++ status_q s' = status_q s.
Proof.
  revert s; induction k as [|k IH]; intros s Hr Hl Hk; cbn [replicate run].
  { exists s, []. split; [done|]. split; [|split; [by apply window_empty|done]].
    unfold window_jobs. by rewrite <- Hk. }
  destruct (take last s) as [[sts job] s1] eqn:Ht. pose proof Ht as Hj. unfold take in Hj.
  destruct (sendable last s) as [j|] eqn:Hs.
  2: { unfold window in Hk. rewrite Hs in Hk. simpl in Hk. lia. }
  injection Hj as _ <- _. destruct (take_window last s j s1 sts Hr Hl Ht) as (Hr1 & -> & Hq & _ & Ha & _).
  destruct (IH s1 Hr1 Hl) as (s' & out & Hrun & Hres & Hend & Hst).
  { rewrite window_count in Hk |- * by done. lia. }
  exists s', ((SStatus <$> status_q s) ++ [SResult j] ++ out).
  cbn [step]. rewrite Ht. cbn [mbind option_bind]. rewrite Hrun. cbn [mbind option_bind].
  split; [by rewrite <- app_assoc|]. rewrite !results_app, !statuses_app, results_statuses, statuses_statuses, Hres.
  split; [by rewrite (window_jobs_cons last s j s1 (status_q s))|]. split; [done|].
  rewrite <- app_assoc. simpl. by rewrite Hst, Hq, app_nil_r.
Qed.

Lemma quiet_before_request last evs s s' out :
  rq_start (req s) = 0 -> rq_end (req s) = 0 -> existsb is_blocks evs = false ->
  run last evs s = Some (s', out) -> results out = [].
Proof.
  revert s out; induction evs as [|e evs IH]; intros s out Hs He Hb H; simpl in H; [by simplify_eq|].
  apply bind_Some in H as ([s1 o1] & H1 & H). apply bind_Some in H as ([s2 o2] & H2 & H). simplify_eq.
  simpl in Hb. apply orb_false_iff in Hb as [Hb1 Hb2]. rewrite results_app.
  assert (H0 : results o1 = [] /\ rq_start (req s1) = 0 /\ rq_end (req s1) = 0).
  { destruct e as [v1|r|n|]; simpl in H1; [|done|by simplify_eq|].
    - destruct (status v1 s) as [[] s3] eqn:Hst; [|done]. simplify_eq. unfold status in Hst.
      destruct (_ <=? _); by simplify_eq.
    - unfold take, sendable in H1. rewrite Hs, He in H1. simpl in H1. rewrite !andb_false_r in H1.
      simplify_eq. by rewrite results_app, results_statuses. }
  destruct H0 as (-> & Hs1 & He1). by rewrite (IH s1 o2).
Qed.
End Spring.

Import Spring.

(** C22: Spring's send rule. From a [get_blocks] until the next, whatever statuses, acks and writer
    iterations follow, in any order, the blocks due are the first [k] from the start of the
    request, in order, each once, with its version, its flags and its generation; there are never
    more than its credit and the acks since, none at or past its end, none past the last block of
    the store; the credit left is what was granted less what was sent, modulo [2^32]; every status
    request is answered once, in order, and at most 1024 wait. Before the first request nothing
    but statuses is due. *)
Theorem request_accounting (last : Z) (s0 : SpringState) (r : BlocksReq) (evs : list event)
    (s : SpringState) (out : list message) (Hr : req_ok r) (He : Forall event_ok evs)
    (Hb : existsb is_blocks evs = false) (H : run last (EvBlocks r :: evs) s0 = Some (s, out)) :
  (exists k, account last s0 r evs s out k) /\
  forall s' out', run last evs SpringState_default = Some (s', out') -> results out' = [].
Proof.
  split; [|intros s' out' H'; by apply (quiet_before_request last evs SpringState_default s' out')].
  simpl in H. apply bind_Some in H as ([s2 o2] & H & Ho). simplify_eq.
  apply (account_run last s0 r [] (blocks r s0) [] 0 evs s out Hr); [constructor|done|done| |done].
  by apply account_start.
Qed.

Definition exq_request : BlocksReq := mkReq true 10 100 2 [mkPos 9 []] false true true false true.

Lemma request_accounting_witness :
  exists s out k,
    run 1000 (EvBlocks exq_request :: [EvTake; EvStatus true; EvTake; EvTake; EvAck 1; EvTake]) SpringState_default
      = Some (s, out) /\
    account 1000 SpringState_default exq_request [EvTake; EvStatus true; EvTake; EvTake; EvAck 1; EvTake] s out k /\
    (j_n <$> results out) = [10; 11; 12] /\ statuses out = [true].
Proof.
  assert (Hr : req_ok exq_request) by (repeat split; discriminate).
  assert (He : Forall event_ok [EvTake; EvStatus true; EvTake; EvTake; EvAck 1; EvTake])
    by (repeat constructor; discriminate).
  assert (H : exists s out, run 1000 (EvBlocks exq_request :: [EvTake; EvStatus true; EvTake; EvTake; EvAck 1; EvTake])
    SpringState_default = Some (s, out) /\ (j_n <$> results out) = [10; 11; 12] /\ statuses out = [true]).
  { eexists _, _. split; [vm_compute; reflexivity|]. split; reflexivity. }
  destruct H as (s & out & H & Hn & Hst).
  destruct (proj1 (request_accounting 1000 SpringState_default exq_request _ s out Hr He eq_refl H)) as [k Hk].
  exists s, out, k. split; [exact H|]. split; [exact Hk|]. split; [exact Hn|exact Hst].
Defined.

(** The window is what the writer takes. Left alone, it takes exactly the jobs of the window
    that [window] computes, one per iteration and in order, as many as the window counts; then
    nothing is sendable and it goes idle: it always terminates. *)
Lemma window_drains (last : Z) (s : SpringState) (Hr : req_ok (req s)) (Hl : is_u32 last) :
  let w := window last s in
  exists s' out,
    run last (replicate (Z.to_nat (win_count w)) EvTake) s = Some (s', out) /\
    results out = window_jobs w /\ blen (results out) = win_count w /\
    win_count w = Z.max 0 (Z.min (Z.min (rq_end (req s)) (last + 1) - rq_start (req s)) (rq_max_in_flight (req s))) /\
    sendable last s' = None /\ (0 < win_count w -> statuses out = status_q s).
Proof.
  intros w. unfold w. pose proof (window_count last s Hr Hl) as Hc.
  destruct (drain last (Z.to_nat (win_count (window last s))) s Hr Hl) as (s' & out & Hrun & Hres & Hend & Hst); [lia|].
  exists s', out. rewrite Hres, window_jobs_length by done. split_and!; try done.
  intros Hpos. destruct (Z.to_nat (win_count (window last s))) as [|k] eqn:Hk; [lia|].
  enough (status_q s' = []) as Hq by (by rewrite Hq, app_nil_r in Hst).
  rewrite <- Nat.add_1_r, replicate_add, run_app in Hrun. apply bind_Some in Hrun as ([s1 o1] & _ & Hrun).
  apply bind_Some in Hrun as ([s2 o2] & Hrun & Hx). simplify_eq. simpl in Hrun. by simplify_eq.
Qed.

Lemma window_drains_witness :
  exists s' out, run 12 (replicate 3 EvTake) (blocks (mkReq false 10 100 5 [] false false false false false)
      SpringState_default) = Some (s', out) /\
    (j_n <$> results out) = [10; 11; 12] /\ sendable 12 s' = None.
Proof.
  pose proof (window_drains 12 (blocks (mkReq false 10 100 5 [] false false false false false) SpringState_default))
    as H. specialize (H ltac:(repeat split; discriminate) ltac:(split; [discriminate|reflexivity])). cbv zeta in H.
  destruct H as (s' & out & Hrun & Hres & _ & _ & Hend & _). exists s', out.
  split; [exact Hrun|]. split; [rewrite Hres; vm_compute; reflexivity|exact Hend].
Defined.
