(* ===== verification/Session.v ===== *)
(** * One client connection ([crates/ship-archive/src/session.rs])

    The reader applies the client's messages to the state of [Spring.v]; the writer answers them
    from the store, through the prefetcher, on the socket of [Frames.v]. Both run in one task and
    switch where they await, so a session is a machine whose actions are the stretches between
    awaits: a message read, a stage of the writer's loop, a build finishing, a page replaced by a
    build that was dropped, the shutdown signal seen. [wake] is the permit of the [Notify] the
    reader leaves for the writer. The upgrade, the timers and the counters are not modelled. *)

From S2P Require Import Prelude.
From S2P Require Import Errors.
From S2P Require Import Binio.
From S2P Require Import Protocol.
From S2P Require Import ShipLog.
From S2P Require Import Zlib.
From S2P Require Import Inflate.
From S2P Require Import BlockLog.
From S2P Require Import Catalog.
From S2P Require Import Fetch.
From S2P Require Import Pages.
From S2P Require Import Store.
From S2P Require Import Frames.
From S2P Require Import Prefetch.
From S2P Require Import Spring.
Import Spring.

(** Why a session ended. *)
Inductive End :=
| ClientClosed
| Disconnected
| ReadFailed
| BadRequest (e : err)
| StatusFlood
| SendFailed
| DataError
| Shutdown.

(** What the WebSocket stream yields: a message, a control frame it has answered, an error, or its
    end. *)
Inductive incoming :=
| InBinary (b : bytes)
| InText (b : bytes)
| InClose
| InOther
| InReset
| InError
| InEnd.

(** Where the writer is: at the top of its loop; waiting to be woken; with an iteration's statuses
    to answer and its job; about to take the job's package; about to send it; ended; unwinding. *)
Inductive wpc :=
| WTop
| WIdle
| WStatus (statuses : list bool) (job : option Job) (win : Window)
| WTake (job : Job) (win : Window)
| WSend (package : Package)
| WEnd (e : End)
| WPanic.

Record Session := mkSession {
  ss_spring : SpringState;
  ss_wake : bool;
  ss_closing : bool;
  ss_pf : Prefetcher;
  ss_pc : wpc;
  ss_out : list sink_op
}.

Definition close_payload : bytes := be_bytes 2 1001 ++ String.list_byte_of_string "server shutting down".

Section Ops.
Context (w : world) `{!FileSource w} `{F : Flate} (sha256 : bytes -> bytes) (can_reserve : Z -> bool).
Context (s : Store) (limits : FetchLimits) (depth : Z) (accept : list sink_op -> sink_op -> bool).
Context (io : list sink_op -> option err).

(** ** The reader *)

(** The [for] of [apply_positions]. *)
Fixpoint positions_loop (positions : list BlockPos) (start : Z) : result Z :=
  match positions with
  | [] => Ok start
  | p :: positions =>
      if bp_num p <? start then
        let? id := named_id w sha256 s (bp_num p) in
        positions_loop positions (if bool_decide (id <> Some (bp_id p)) then bp_num p else start)
      else positions_loop positions start
  end.

Definition apply_positions (r : BlocksReq) : result BlocksReq :=
  let positions := rq_have_positions r in
  let start := rq_start r in
  let r := without_positions r in
  if forallb (fun p => start <=? bp_num p) positions then Ok r
  else
    let? start := joined (positions_loop positions start) in
    Ok (with_flow r start (rq_max_in_flight r)).

(** One request, decoded and applied; the critical section it ran. *)
Definition read_request (b : bytes) (st : SpringState) : res End (SpringState * event) :=
  match decode_request b with
  | Ok (ReqStatus v1) =>
      let '(ok, st) := status v1 st in
      if ok then Ok (st, EvStatus v1) else Err StatusFlood
  | Ok (ReqBlocks r) =>
      match apply_positions r with
      | Ok r => Ok (blocks r st, EvBlocks r)
      | Err _ => Err DataError
      | Panic => Panic
      end
  | Ok (ReqAck n) => Ok (ack n st, EvAck n)
  | Err e => Err (BadRequest e)
  | Panic => Panic
  end.

(** One turn of [read_loop]. *)
Definition read_step (m : incoming) (ss : Session) : res End (Session * list event) :=
  match m with
  | InBinary b | InText b =>
      let? (st, e) := read_request b (ss_spring ss) in
      Ok (mkSession st true (ss_closing ss) (ss_pf ss) (ss_pc ss) (ss_out ss), [e])
  | InClose => Ok (mkSession (ss_spring ss) (ss_wake ss) true (ss_pf ss) (ss_pc ss) (ss_out ss), [])
  | InOther => Ok (ss, [])
  | InReset => Err Disconnected
  | InError => Err ReadFailed
  | InEnd => Err (if ss_closing ss then ClientClosed else Disconnected)
  end.

(** ** The writer *)

Definition at_pc (ss : Session) (pc : wpc) : Session :=
  mkSession (ss_spring ss) (ss_wake ss) (ss_closing ss) (ss_pf ss) pc (ss_out ss).

(** The state taken under the lock, and where the iteration goes from there. *)
Definition write_top (ss : Session) : Session :=
  let last := bp_num (s_last s) in
  let '(statuses, job, st) := take last (ss_spring ss) in
  match statuses, job with
  | [], None => mkSession st (ss_wake ss) (ss_closing ss) (clear (ss_pf ss)) WIdle (ss_out ss)
  | _, _ => mkSession st (ss_wake ss) (ss_closing ss) (ss_pf ss) (WStatus statuses job (window last st)) (ss_out ss)
  end.

Fixpoint feed_statuses (statuses : list bool) : writer () :=
  match statuses with
  | [] => sret ()
  | v1 :: statuses =>
      do! sink accept (Feed (mkFrame Binary true (status_bytes s v1))) ;;
      feed_statuses statuses
  end.

Definition send_statuses (statuses : list bool) : writer () :=
  match statuses with
  | [] => sret ()
  | _ => do! feed_statuses statuses ;; sink accept Flush
  end.

(** The [End] of a failed write. *)
Definition send_end (e : SendError) : End :=
  match e with SWs => SendFailed | SRead _ => DataError end.

(** A stage that writes: to [next] once done. *)
Definition writing {A} (m : writer A) (next : wpc) (ss : Session) : Session :=
  let '(r, out) := m (ss_out ss) in
  mkSession (ss_spring ss) (ss_wake ss) (ss_closing ss) (ss_pf ss)
    match r with Ok _ => next | Err e => WEnd (send_end e) | Panic => WPanic end out.

(** One stage of [write_loop]; [None] while it waits. *)
Definition write_step (free : nat) (ss : Session) : option Session :=
  match ss_pc ss with
  | WTop => Some (write_top ss)
  | WIdle =>
      if ss_wake ss
      then Some (mkSession (ss_spring ss) false (ss_closing ss) (ss_pf ss) WTop (ss_out ss))
      else None
  | WStatus statuses job win =>
      Some (writing (send_statuses statuses) match job with Some j => WTake j win | None => WTop end ss)
  | WTake job win =>
      '(r, pf) ← take_package w sha256 can_reserve s limits job (ss_pf ss);
      let at_ pf pc := mkSession (ss_spring ss) (ss_wake ss) (ss_closing ss) pf pc (ss_out ss) in
      Some match r with
           | Ok package => at_ (schedule depth win free pf) (WSend package)
           | Err _ => at_ pf (WEnd DataError)
           | Panic => at_ pf WPanic
           end
  | WSend package => Some (writing (send_result w accept io package) WTop ss)
  | WEnd _ | WPanic => None
  end.

(** [close_away]: Close 1001 with its reason; a failure to send it is ignored. *)
Definition close_away (ss : Session) : Session :=
  let '(_, out) := sink accept (Send (mkFrame CloseAway true close_payload)) (ss_out ss) in
  mkSession (ss_spring ss) (ss_wake ss) (ss_closing ss) (ss_pf ss) (WEnd Shutdown) out.

(** ** The machine *)
Inductive action :=
| ARead (m : incoming)
| AWrite (free : nat)
| AStop
| AFinish (i : nat) (granted : bool)
| APage (kind : LogKind) (log : ShipLog.t) (n : Z).

Definition live (ss : Session) : bool := match ss_pc ss with WEnd _ | WPanic => false | _ => true end.

Definition with_pf (ss : Session) (pf : Prefetcher) : Session :=
  mkSession (ss_spring ss) (ss_wake ss) (ss_closing ss) pf (ss_pc ss) (ss_out ss).

(** One action, and the critical sections it ran; [None] where it cannot happen. *)
Definition session_step (a : action) (ss : Session) : option (Session * list event) :=
  if negb (live ss) then None else
  match a with
  | ARead m =>
      Some match read_step m ss with
           | Ok r => r
           | Err e => (at_pc ss (WEnd e), [])
           | Panic => (at_pc ss WPanic, [])
           end
  | AWrite free =>
      ss' ← write_step free ss;
      Some (ss', match ss_pc ss with WTop => [EvTake] | _ => [] end)
  | AStop =>
      match ss_pc ss with
      | WTop | WIdle => Some (close_away ss, [])
      | _ => None
      end
  | AFinish i granted =>
      pf ← finish w sha256 can_reserve s limits i (fun _ => granted) (ss_pf ss);
      Some (with_pf ss pf, [])
  | APage kind log n =>
      match slot_read w log n with
      | Ok (_, page) =>
          Some (with_pf ss (mkPrefetcher (slot_fill kind page (pf_pages (ss_pf ss))) (pf_ahead (ss_pf ss))), [])
      | _ => None
      end
  end.

Fixpoint session_run (acts : list action) (ss : Session) : option (Session * list event) :=
  match acts with
  | [] => Some (ss, [])
  | a :: acts =>
      '(ss, evs) ← session_step a ss;
      '(ss, rest) ← session_run acts ss;
      Some (ss, evs ++ rest)
  end.

(** A session once it has sent the ABI. *)
Definition abi_frame : frame := mkFrame Text true (String.list_byte_of_string (s_abi s)).
Definition session_new : Session :=
  mkSession SpringState_default false false Prefetcher_new WTop [Send abi_frame].
End Ops.

(** ** What the client receives

    The messages the frames on the wire make up, and the start of one still incomplete. *)
Definition join (acc : option (opcode * bytes)) (f : frame) : opcode * bytes :=
  match acc, fr_opcode f with
  | Some (o, b), Continue => (o, b ++ fr_payload f)
  | _, o => (o, fr_payload f)
  end.

Fixpoint reassemble (acc : option (opcode * bytes)) (fs : list frame)
    : option (opcode * bytes) * list (opcode * bytes) :=
  match fs with
  | [] => (acc, [])
  | f :: fs =>
      if fr_fin f then let '(acc', ms) := reassemble None fs in (acc', join acc f :: ms)
      else reassemble (Some (join acc f)) fs
  end.

Definition received (ops : list sink_op) : list (opcode * bytes) := (reassemble None (frames_of ops)).2.

Lemma reassemble_app acc a b :
  reassemble acc (a ++ b) =
  let '(acc', ms) := reassemble acc a in
  let '(acc'', ms') := reassemble acc' b in (acc'', ms ++ ms').
Proof.
  revert acc; induction a as [|f a IH]; intros acc; simpl.
  { by destruct (reassemble acc b). }
  destruct (fr_fin f).
  - rewrite IH. destruct (reassemble None a) as [acc' ms]. by destruct (reassemble acc' b).
  - apply IH.
Qed.

Lemma reassemble_open acc fs : Forall (fun f => fr_fin f = false) fs -> (reassemble acc fs).2 = [].
Proof. intros H. revert acc. induction H as [|f fs Hf _ IH]; intros acc; simpl; [done|]. by rewrite Hf. Qed.

Lemma reassemble_continues o b cs :
  reassemble (Some (o, b)) ((mkFrame Continue false <$> cs) ++ [mkFrame Continue true []]) =
  (None, [(o, b ++ concat cs)]).
Proof.
  revert b; induction cs as [|c cs IH]; intros b; simpl; [done|]. unfold join. simpl.
  unfold fmap in IH. rewrite IH. by rewrite <- app_assoc.
Qed.

(** Written in whole messages so far: those of [got]. *)
Definition whole (ops : list sink_op) (got : list (opcode * bytes)) : Prop :=
  reassemble None (frames_of ops) = (None, got).

Lemma whole_received ops got : whole ops got -> received ops = got.
Proof. unfold whole, received. by intros ->. Qed.

Lemma whole_app ops ops' got got' :
  whole ops got -> reassemble None (frames_of ops') = (None, got') -> whole (ops ++ ops') (got ++ got').
Proof. unfold whole. intros H H'. by rewrite frames_of_app, reassemble_app, H, H'. Qed.

(** An unfinished message adds nothing to what is received. *)
Lemma whole_open ops ops' got :
  whole ops got -> Forall (fun f => fr_fin f = false) (frames_of ops') -> received (ops ++ ops') = got.
Proof.
  unfold whole, received. intros H H'. rewrite frames_of_app, reassemble_app, H.
  pose proof (reassemble_open None _ H') as Ho. destruct (reassemble None (frames_of ops')) as [acc ms].
  simpl in *. subst. apply app_nil_r.
Qed.

(** ** The [have_positions] rule *)
Section Positions.
Context (w : world) `{!FileSource w} (sha256 : bytes -> bytes) (s : Store).

(** The server names another id for the block, or none. *)
Definition unknown (p : BlockPos) : bool :=
  match named_id w sha256 s (bp_num p) with
  | Ok id => bool_decide (id <> Some (bp_id p))
  | _ => true
  end.

(** The lowest of the start and the unknown positions. *)
Definition rewound (positions : list BlockPos) (start : Z) : Z :=
  foldr (fun p n => if unknown p then Z.min (bp_num p) n else n) start positions.

Lemma rewound_le positions start : rewound positions start <= start.
Proof. induction positions as [|p ps IH]; simpl; [done|]. destruct (unknown p); lia. Qed.

Lemma rewound_min positions a b :
  a <= b -> rewound positions (Z.min a b) = Z.min a (rewound positions b).
Proof. intros Hab. induction positions as [|p ps IH]; simpl; [done|]. rewrite IH. destruct (unknown p); lia. Qed.

Lemma positions_loop_spec positions start :
  match positions_loop w sha256 s positions start with
  | Ok n => n = rewound positions start
  | Err e => exists p, p ∈ positions /\ bp_num p < start /\ named_id w sha256 s (bp_num p) = Err e
  | Panic => exists p, p ∈ positions /\ named_id w sha256 s (bp_num p) = Panic
  end.
Proof.
  revert start; induction positions as [|p ps IH]; intros start; cbn [positions_loop]; [done|].
  assert (Hskip : start <= bp_num p -> rewound (p :: ps) start = rewound ps start).
  { intros Hle. simpl. pose proof (rewound_le ps start). destruct (unknown p); lia. }
  destruct (Z.ltb_spec (bp_num p) start) as [Hlt|Hge].
  - destruct (named_id w sha256 s (bp_num p)) as [id|e|] eqn:Hid; cbn [rbind]; [|set_solver|set_solver].
    specialize (IH (if bool_decide (id <> Some (bp_id p)) then bp_num p else start)).
    destruct (positions_loop _ _ _ _ _) as [n|e|]; [|destruct IH as (q & Hq & Hl & He)|destruct IH as (q & Hq & He)].
    + rewrite IH. simpl. unfold unknown. rewrite Hid. destruct (bool_decide (id <> Some (bp_id p))).
      * rewrite <- (Z.min_l (bp_num p) start) at 1 by lia. apply rewound_min. lia.
      * done.
    + exists q. split; [set_solver|]. split; [|done]. destruct (bool_decide _); lia.
    + exists q. split; [set_solver|done].
  - specialize (IH start). destruct (positions_loop _ _ _ _ _) as [n|e|]; [by rewrite Hskip|set_solver|set_solver].
Qed.

Lemma named_id_no_panic n : no_panic (named_id w sha256 s n).
Proof. apply (calm_prev_id w sha256 s n). Qed.

Lemma apply_positions_spec r :
  match apply_positions w sha256 s r with
  | Ok r' => r' = without_positions
      (with_flow r (rewound (rq_have_positions r) (rq_start r)) (rq_max_in_flight r))
  | Err e => exists p, p ∈ rq_have_positions r /\ bp_num p < rq_start r /\ named_id w sha256 s (bp_num p) = Err e
  | Panic => False
  end.
Proof.
  unfold apply_positions. destruct (forallb _ _) eqn:Hall.
  - enough (rewound (rq_have_positions r) (rq_start r) = rq_start r) as -> by (by destruct r).
    rewrite forallb_forall in Hall. induction (rq_have_positions r) as [|p ps IH]; [done|]. simpl.
    rewrite IH by (intros x Hx; apply Hall; by right). specialize (Hall p (or_introl eq_refl)). bools.
    destruct (unknown p); lia.
  - pose proof (positions_loop_spec (rq_have_positions r) (rq_start r)) as H.
    destruct (positions_loop _ _ _ _ _) as [n|e|]; cbn [joined rbind]; [by subst|done|].
    destruct H as (p & _ & Hp). pose proof (named_id_no_panic (bp_num p)) as Hn. unfold no_panic in Hn.
    by rewrite Hp in Hn.
Qed.

Lemma rewound_u32 ps start : Forall pos_ok ps -> is_u32 start -> is_u32 (rewound ps start).
Proof.
  intros Hps Hst. induction Hps as [|p ps [Hp _] _ IH]; [done|]. simpl. unfold is_u32 in *. destruct (unknown p); lia.
Qed.
End Positions.

Section Facts.
Context (w : world) `{!FileSource w} (sha256 : bytes -> bytes) (s : Store).
Context `{F : Flate} (zlib : bytes -> option bytes) `{L : !FlateLaws F zlib} (can_reserve : Z -> bool).
Context (limits : FetchLimits) (depth : Z) (accept : list sink_op -> sink_op -> bool).
Context (io : list sink_op -> option err).
Hypothesis Hs : store_ok w sha256 s.
Hypothesis Hratio : forall x y, zlib x = Some y -> blen y <= MAX_INFLATE_RATIO * blen x.
Hypothesis Ht : 0 <= stream_threshold limits <= 2 ^ 62.

#[local] Abbreviation build j := (build w sha256 can_reserve s j limits).
#[local] Abbreviation sstep := (session_step w sha256 can_reserve s limits depth accept io).
#[local] Abbreviation srun := (session_run w sha256 can_reserve s limits depth accept io).
#[local] Abbreviation last := (bp_num (s_last s)).

(** The message that answers what is due: a status, or the block result built for the job. *)
Definition answers (m : message) (got : opcode * bytes) : Prop :=
  match m with
  | SStatus v1 => got = (Binary, status_bytes s v1)
  | SResult j => exists pkg ys, build j = Ok pkg /\ Forall2 (part_bytes w zlib) (pk_parts pkg) ys /\
      got = (Binary, message_bytes pkg ys)
  end.

(** ** Sending *)

(** The payloads of a package that was built. *)
Lemma package_sends j pkg :
  build j = Ok pkg -> 0 < blen (pk_base pkg) <= CHUNK /\
  exists ys, Forall2 (part_bytes w zlib) (pk_parts pkg) ys /\ Forall (fun y => blen y < U64) ys.
Proof.
  intros Hb. unfold Store.build in Hb. bind Hb as p Hp. destruct (plan w sha256 s j None) as [r st] eqn:Hpl.
  simpl in Hp. subst r. pose proof (plan_spec w sha256 s Hs j p st Hpl) as P.
  assert (Ht' : 0 <= stream_threshold limits < u64_max).
  { change (2 ^ 62) with 4611686018427387904 in Ht. width_lia. }
  pose proof (read_spec w sha256 s zlib can_reserve Hs limits j p pkg Ht' P Hb) as K.
  pose proof (base_bounds w sha256 s zlib Hs limits j p pkg P K) as Hbase.
  split; [unfold BASE_BYTES in Hbase; rewrite CHUNK_eq; lia|]. pose proof (pk_parts_ok _ _ _ _ _ _ _ K) as Hp.
  clear -Hp Ht'. induction Hp as [|fd part fds parts Hpart _ (ys & Hys & Hu)]; [by exists []|].
  enough (exists y, part_bytes w zlib part y /\ blen y < U64) as (y & Hy & Hyu).
  { exists (y :: ys). by split; constructor. }
  destruct fd as [[l h]|], part as [|y|st]; simpl in Hpart; try done.
  - exists (v_data y). split; [done|]. width_lia.
  - destruct Hpart as (<- & <- & y & (file & d & Hf & Hd & (n & pos & Hpos & Hh) & _ & Hv) & Hlen & Hy).
    exists y. split; [|lia]. by exists n, pos, file, d.
  - by exists [].
Qed.

Lemma frames_fin_strict ini f (before rest : list sink_op) op :
  Forall (fun f => fr_fin f = false) (frames_of ini) -> ini ++ [Send f] = before ++ op :: rest ->
  Forall (fun f => fr_fin f = false) (frames_of before).
Proof.
  intros Hi Heq. assert (Hp : exists tl, ini = before ++ tl).
  { destruct (decide (rest = [])) as [->|Hr].
    - apply app_inj_tail in Heq as [-> _]. exists []. by rewrite app_nil_r.
    - destruct (exists_last Hr) as (rest' & z & ->). rewrite app_comm_cons, app_assoc in Heq.
      apply app_inj_tail in Heq as [-> _]. by eexists. }
  destruct Hp as [tl ->]. rewrite frames_of_app in Hi. by apply Forall_app in Hi as [? _].
Qed.

Lemma payloads_concat fs v cs y :
  concat (fr_payload <$> fs) = y ->
  fs = mkFrame Binary false v :: (mkFrame Continue false <$> cs) ++ [mkFrame Continue true []] -> v ++ concat cs = y.
Proof.
  intros <- ->. rewrite fmap_cons, fmap_app, <- list_fmap_compose. cbn [concat fmap list_fmap].
  rewrite concat_app. simpl. rewrite app_nil_r. do 2 f_equal. symmetry. by apply list_fmap_id.
Qed.

Lemma send_package j pkg out got :
  build j = Ok pkg -> whole out got ->
  match send_result w accept io pkg out with
  | (Ok _, out') => exists m, answers (SResult j) m /\ whole out' (got ++ [m])
  | (Err e, out') => received out' = got /\
      (e = SWs /\ (exists op, accept out' op = false) \/
       exists source er more, e = SRead (ESource source er) /\ io out' = Some er /\ out' = out ++ more /\
         Forall (fun f => fr_fin f = false) (frames_of more))
  | (Panic, _) => False
  end.
Proof.
  intros Hb Hw. destruct (package_sends j pkg Hb) as (Hbase & ys & Hys & Hu).
  destruct (send_result_ops w _ F zlib L accept io pkg ys Hbase Hys Hu) as (ops & cs & Hops & Hfr & _ & _ & Hm & H).
  specialize (H out). destruct (send_result w accept io pkg out) as [[n|e|] out'].
  - destruct H as [_ ->]. exists (Binary, message_bytes pkg ys). split; [by exists pkg, ys|].
    apply whole_app; [done|]. rewrite <- (payloads_concat _ _ _ _ Hm Hfr), Hfr.
    cbn [reassemble fr_fin join fr_opcode fr_payload]. by rewrite reassemble_continues.
  - destruct H as (before & op & rest & Heq & -> & Hno).
    assert (Hopen : Forall (fun f => fr_fin f = false) (frames_of before)).
    { rewrite Hops, app_assoc in Heq. eapply frames_fin_strict; [|exact Heq].
      rewrite frames_of_app, frames_of_feeds. apply Forall_app. split.
      - unfold fed. by destruct (_ <? _); repeat constructor.
      - apply Forall_fmap. by apply Forall_true. }
    split; [by apply whole_open|]. destruct Hno as [[-> Hno]|(source & er & -> & Hno)]; [left; eauto|right].
    by exists source, er, before.
  - done.
Qed.

Lemma send_statuses_spec sts out got :
  whole out got ->
  match send_statuses s accept sts out with
  | (Ok _, out') => whole out' (got ++ ((fun v1 => (Binary, status_bytes s v1)) <$> sts))
  | (Err e, out') => e = SWs /\ (exists op, accept out' op = false) /\ exists a b, sts = a ++ b /\
      received out' = got ++ ((fun v1 => (Binary, status_bytes s v1)) <$> a)
  | (Panic, _) => False
  end.
Proof.
  assert (Hf : forall sts out got, whole out got ->
    match feed_statuses s accept sts out with
    | (Ok _, out') => whole out' (got ++ ((fun v1 => (Binary, status_bytes s v1)) <$> sts))
    | (Err e, out') => e = SWs /\ (exists op, accept out' op = false) /\ exists a b, sts = a ++ b /\
        received out' = got ++ ((fun v1 => (Binary, status_bytes s v1)) <$> a)
    | (Panic, _) => False
    end).
  { clear. intros sts. induction sts as [|v1 sts IH]; intros out got Hw; cbn [feed_statuses].
    { unfold sret. by rewrite app_nil_r. }
    unfold sbind, sink. destruct (accept out _) eqn:Hacc.
    - pose proof (IH (out ++ [Feed (mkFrame Binary true (status_bytes s v1))])
        (got ++ [(Binary, status_bytes s v1)]) ltac:(by apply whole_app)) as H.
      destruct (feed_statuses s accept sts _) as [[u|e|] out'].
      + by rewrite <- app_assoc in H.
      + destruct H as (-> & Hop & a & b & -> & Hr). split; [done|]. split; [done|]. exists (v1 :: a), b. split; [done|].
        by rewrite <- app_assoc in Hr.
      + done.
    - split; [done|]. split; [by eexists|]. exists [], (v1 :: sts). rewrite app_nil_r. split; [done|]. by apply whole_received. }
  intros Hw. destruct sts as [|v1 sts]; [unfold send_statuses, sret; by rewrite app_nil_r|].
  unfold send_statuses, sbind. specialize (Hf (v1 :: sts) out got Hw).
  destruct (feed_statuses s accept (v1 :: sts) out) as [[u|e|] out']; [|done|done].
  unfold sink. destruct (accept out' Flush) eqn:Hacc.
  - unfold whole in *. rewrite frames_of_app. simpl. by rewrite app_nil_r.
  - split; [done|]. split; [by eexists|]. exists (v1 :: sts), []. rewrite app_nil_r. split; [done|]. by apply whole_received.
Qed.

(** ** The invariant *)

(** A block the store may have. *)
Definition job_in (j : Job) : Prop := 0 <= j_n j <= last.

(** What the writer still owes for what it has taken. *)
Definition due (pc : wpc) (rest : list message) : Prop :=
  match pc with
  | WTop | WIdle | WEnd Shutdown => rest = []
  | WStatus sts job win => win_count win < U32 /\ from_option job_in True job /\
      rest = (SStatus <$> sts) ++ match job with Some j => [SResult j] | None => [] end
  | WTake j win => win_count win < U32 /\ job_in j /\ rest = [SResult j]
  | WSend pkg => exists j, rest = [SResult j] /\ build j = Ok pkg
  | WEnd _ => True
  | WPanic => False
  end.

(** Nothing for the writer to do. *)
Definition quiet (st : SpringState) : Prop := status_q st = [] /\ sendable last st = None.

(** What is on the wire: whole messages while the session lives; a message cut short, or a close
    after a shutdown, once it has ended. *)
Definition on_wire (ss : Session) (got : list (opcode * bytes)) : Prop :=
  let abi := (Text, String.list_byte_of_string (s_abi s)) in
  match ss_pc ss with
  | WEnd Shutdown => received (ss_out ss) = abi :: got \/ received (ss_out ss) = abi :: got ++ [(CloseAway, close_payload)]
  | WEnd _ => received (ss_out ss) = abi :: got
  | _ => whole (ss_out ss) (abi :: got)
  end.

Record session_inv (ss : Session) (evs : list event) (msgs done rest : list message)
    (got : list (opcode * bytes)) : Prop := {
  si_run : run last evs SpringState_default = Some (ss_spring ss, msgs);
  si_split : msgs = done ++ rest;
  si_answers : Forall2 answers done got;
  si_due : due (ss_pc ss) rest;
  si_wire : on_wire ss got;
  si_pf : prefetcher_ok w sha256 s can_reserve limits (ss_pf ss);
  si_events : Forall event_ok evs;
  si_req : req_ok (req (ss_spring ss));
  si_idle : ss_pc ss = WIdle -> ss_wake ss = false -> quiet (ss_spring ss)
}.

Definition invariant (ss : Session) (evs : list event) : Prop :=
  exists msgs done rest got, session_inv ss evs msgs done rest got.

(** A message is of a size that fits in memory. *)
Definition action_ok (a : action) : Prop :=
  match a with ARead (InBinary b) | ARead (InText b) => blen b < U64 | _ => True end.

Lemma session_inv_new : invariant (session_new s) [].
Proof.
  by exists [], [], [], []; split; try done; repeat constructor.
Qed.

Lemma run_snoc evs st msgs e st' out :
  run last evs SpringState_default = Some (st, msgs) -> step last e st = Some (st', out) ->
  run last (evs ++ [e]) SpringState_default = Some (st', msgs ++ out).
Proof. intros H He. rewrite run_app, H. simpl. rewrite He. simpl. by rewrite app_nil_r. Qed.

(** A message applied: what it does to the state is the critical section it reports. *)
Lemma read_request_spec b st :
  blen b < U64 -> req_ok (req st) ->
  match read_request w sha256 s b st with
  | Ok (st', e) => step last e st = Some (st', []) /\ event_ok e /\ req_ok (req st')
  | Err _ => True
  | Panic => False
  end.
Proof.
  intros Hb Hr. destruct (decode_request_sound b Hb) as [Hn Hok]. unfold read_request, no_panic in *.
  destruct (decode_request b) as [rq|e|]; [|done|done]. specialize (Hok rq eq_refl). destruct rq as [v1|r|n].
  - unfold step, status. by destruct (_ <=? _).
  - pose proof (apply_positions_spec w sha256 s r) as Hp. destruct (apply_positions w sha256 s r) as [r'|e|]; [|done|done].
    simpl in Hok. destruct Hok as (H1 & H2 & H3 & H4 & _).
    assert (req_ok r') by (subst; split_and!; simpl; [by apply rewound_u32|done|done]).
    split; [done|]. split; [done|]. done.
  - simpl. split; [done|]. split; [done|]. destruct Hr as (H1 & H2 & H3). split_and!; simpl; [done|done|].
    by apply Z.mod_pos_bound.
Qed.

Lemma take_step st sts job st' :
  take last st = (sts, job, st') -> req_ok (req st) -> is_u32 last ->
  step last EvTake st = Some (st', (SStatus <$> sts) ++ match job with Some j => [SResult j] | None => [] end) /\
  req_ok (req st') /\ from_option job_in True job /\ (sts = [] -> job = None -> quiet st').
Proof.
  intros H Hr Hl. split; [cbn [step]; by rewrite H|]. destruct job as [j|].
  - destruct (take_window last st j st' sts Hr Hl H) as (Hr' & _). split; [done|]. split; [|done].
    unfold take in H. destruct (sendable last st) as [j'|] eqn:Hj; [|done]. injection H as _ <- _.
    apply sendable_Some in Hj as (_ & Hle & _ & ->). destruct Hr as ((? & _) & _). split; simpl; lia.
  - unfold take in H. destruct (sendable last st) eqn:Hs'; [done|]. injection H as <- <-. split; [done|].
    split; [done|]. intros Hq _. split; [done|]. exact Hs'.
Qed.

(** Leaving the state of a session alone. *)
Lemma inv_end ss evs e :
  invariant ss evs -> live ss = true -> e <> Shutdown -> invariant (at_pc ss (WEnd e)) evs.
Proof.
  intros (msgs & dn & rest & got & [I1 I2 I3 I4 I5 I6 I7 I8 I9]) Hl He. exists msgs, dn, rest, got.
  assert (Hwire : received (ss_out ss) = (Text, String.list_byte_of_string (s_abi s)) :: got).
  { unfold on_wire, live in *. apply whole_received. by destruct (ss_pc ss). }
  split; try done; simpl; [by destruct e|]. unfold on_wire. simpl. by destruct e.
Qed.

Lemma inv_pf ss evs pf :
  invariant ss evs -> prefetcher_ok w sha256 s can_reserve limits pf -> invariant (with_pf ss pf) evs.
Proof. intros (msgs & dn & rest & got & [I1 I2 I3 I4 I5 I6 I7 I8 I9]) Hp. by exists msgs, dn, rest, got. Qed.

Lemma inv_read m ss evs ss' out :
  action_ok (ARead m) -> invariant ss evs -> live ss = true -> sstep (ARead m) ss = Some (ss', out) ->
  invariant ss' (evs ++ out).
Proof.
  intros Ha Hinv Hl H. unfold session_step in H. rewrite Hl in H. cbn [negb] in H. injection H as H.
  assert (Hb : forall b, blen b < U64 ->
    match (let? (st, e) := read_request w sha256 s b (ss_spring ss) in
           Ok (mkSession st true (ss_closing ss) (ss_pf ss) (ss_pc ss) (ss_out ss), [e])) with
    | Ok r => r
    | Err e => (at_pc ss (WEnd e), [])
    | Panic => (at_pc ss WPanic, [])
    end = (ss', out) -> invariant ss' (evs ++ out)).
  { intros b Hb Hr. destruct Hinv as (msgs & dn & rest & got & I). pose proof I as [I1 I2 I3 I4 I5 I6 I7 I8 I9].
    pose proof (read_request_spec b (ss_spring ss) Hb I8) as Hq.
    destruct (read_request w sha256 s b (ss_spring ss)) as [[st e]|e|] eqn:Hreq; cbn [rbind] in Hr; [| |done].
    - destruct Hq as (Hst & He & Hrq). injection Hr as <- <-. exists msgs, dn, rest, got.
      split; simpl; try done.
      + rewrite <- (app_nil_r msgs). by eapply run_snoc.
      + apply Forall_app. split; [done|]. by repeat constructor.
    - injection Hr as <- <-. rewrite app_nil_r. apply inv_end; [by exists msgs, dn, rest, got|done|].
      intros ->. unfold read_request in Hreq. destruct (decode_request b) as [[v1|r|n]|?|]; try done.
      + destruct (status v1 (ss_spring ss)) as [[] ?]; done.
      + destruct (apply_positions w sha256 s r); done. }
  destruct m as [b|b| | | | |]; simpl in H.
  - by apply (Hb b).
  - by apply (Hb b).
  - injection H as <- <-. rewrite app_nil_r. destruct Hinv as (msgs & dn & rest & got & [I1 I2 I3 I4 I5 I6 I7 I8 I9]).
    by exists msgs, dn, rest, got.
  - injection H as <- <-. by rewrite app_nil_r.
  - injection H as <- <-. rewrite app_nil_r. by apply inv_end.
  - injection H as <- <-. rewrite app_nil_r. by apply inv_end.
  - injection H as <- <-. rewrite app_nil_r. apply inv_end; [done|done|]. by destruct (ss_closing ss).
Qed.

Lemma answers_statuses sts :
  Forall2 answers (SStatus <$> sts) ((fun v1 => (Binary, status_bytes s v1)) <$> sts).
Proof. induction sts; by constructor. Qed.

(** A stage that writes part of what is due. *)
Lemma inv_status ss evs sts job win :
  invariant ss evs -> ss_pc ss = WStatus sts job win ->
  invariant (writing (send_statuses s accept sts) match job with Some j => WTake j win | None => WTop end ss) evs.
Proof.
  intros (msgs & dn & rest & got & [I1 I2 I3 I4 I5 I6 I7 I8 I9]) Hpc. unfold on_wire in I5. rewrite Hpc in I4, I5.
  destruct I4 as (Hw & Hj & Hrest). set (abi := (Text, String.list_byte_of_string (s_abi s))) in *.
  pose proof (send_statuses_spec sts (ss_out ss) (abi :: got) I5) as H. unfold writing.
  destruct (send_statuses s accept sts (ss_out ss)) as [[u|e|] out']; [| |done].
  - exists msgs, (dn ++ (SStatus <$> sts)), (match job with Some j => [SResult j] | None => [] end),
      (got ++ ((fun v1 => (Binary, status_bytes s v1)) <$> sts)).
    split; simpl; try done.
    + by rewrite I2, Hrest, app_assoc.
    + apply Forall2_app; [done|apply answers_statuses].
    + by destruct job.
    + unfold on_wire. simpl. by destruct job.
    + by destruct job.
  - destruct H as (-> & _ & a & b & -> & Hr).
    exists msgs, (dn ++ (SStatus <$> a)), ((SStatus <$> b) ++ match job with Some j => [SResult j] | None => [] end),
      (got ++ ((fun v1 => (Binary, status_bytes s v1)) <$> a)).
    split; simpl; try done.
    + by rewrite I2, Hrest, fmap_app, !app_assoc.
    + apply Forall2_app; [done|apply answers_statuses].
Qed.

Lemma inv_send ss evs pkg :
  invariant ss evs -> ss_pc ss = WSend pkg -> invariant (writing (send_result w accept io pkg) WTop ss) evs.
Proof.
  intros (msgs & dn & rest & got & [I1 I2 I3 I4 I5 I6 I7 I8 I9]) Hpc. unfold on_wire in I5. rewrite Hpc in I4, I5.
  destruct I4 as (j & Hrest & Hb). pose proof (send_package j pkg (ss_out ss) _ Hb I5) as H. unfold writing.
  destruct (send_result w accept io pkg (ss_out ss)) as [[u|e|] out']; [| |done].
  - destruct H as (m & Hm & Hw). exists msgs, (dn ++ [SResult j]), [], (got ++ [m]). split; simpl; try done.
    + by rewrite I2, Hrest, app_nil_r.
    + apply Forall2_app; [done|]. by repeat constructor.
  - destruct H as (Hr & [[-> _]|(source & er & more & -> & _)]); exists msgs, dn, rest, got; by split.
Qed.

Lemma last_u32 : is_u32 last.
Proof. apply (so_last _ _ _ Hs). Qed.

Lemma inv_top ss evs : invariant ss evs -> ss_pc ss = WTop -> invariant (write_top s ss) (evs ++ [EvTake]).
Proof.
  intros (msgs & dn & rest & got & [I1 I2 I3 I4 I5 I6 I7 I8 I9]) Hpc. unfold on_wire in I5. rewrite Hpc in I4, I5.
  unfold write_top. destruct (take last (ss_spring ss)) as [[sts job] st] eqn:Htk.
  destruct (take_step (ss_spring ss) sts job st Htk I8 last_u32) as (Hstep & Hr & Hj & Hq).
  set (new := (SStatus <$> sts) ++ match job with Some j => [SResult j] | None => [] end) in *.
  assert (Hrun : run last (evs ++ [EvTake]) SpringState_default = Some (st, msgs ++ new)) by (by eapply run_snoc).
  assert (Hev : Forall event_ok (evs ++ [EvTake])) by (apply Forall_app; split; [done|by repeat constructor]).
  assert (Hsp : msgs ++ new = dn ++ new) by (by rewrite I2, I4, app_nil_r).
  exists (msgs ++ new), dn, new, got. pose proof (window_count_u32 last st) as Hw.
  destruct sts as [|v sts]; [destruct job as [j|]|]; split; simpl; try done.
  - split; [apply (proj1 I6)|constructor].
  - intros _ _. by apply Hq.
Qed.

Lemma inv_take ss evs j win free ss' :
  invariant ss evs -> ss_pc ss = WTake j win ->
  write_step w sha256 can_reserve s limits depth accept io free ss = Some ss' -> invariant ss' evs.
Proof.
  intros (msgs & dn & rest & got & [I1 I2 I3 I4 I5 I6 I7 I8 I9]) Hpc H. unfold on_wire in I5. rewrite Hpc in I4, I5.
  destruct I4 as (Hw & Hj & Hrest). unfold write_step in H. rewrite Hpc in H.
  apply bind_Some in H as ([r pf] & Htk & H). injection H as <-.
  destruct (take_package_spec w sha256 s zlib can_reserve limits Hs Hratio Ht j (ss_pf ss) r pf I6 Htk) as (-> & Hpf & _).
  destruct (build j) as [pkg|e|] eqn:Hb.
  - exists msgs, dn, rest, got. split; simpl; try done; [by exists j|].
    by apply (schedule_spec w sha256 s can_reserve limits depth win free pf).
  - exists msgs, dn, rest, got. split; simpl; try done. by apply whole_received.
  - pose proof (build_total w sha256 s zlib can_reserve limits Hs Ht j) as Hp. by rewrite Hb in Hp.
Qed.

Lemma inv_stop ss evs :
  invariant ss evs -> ss_pc ss = WTop \/ ss_pc ss = WIdle -> invariant (close_away accept ss) evs.
Proof.
  intros (msgs & dn & rest & got & [I1 I2 I3 I4 I5 I6 I7 I8 I9]) Hpc.
  set (abi := (Text, String.list_byte_of_string (s_abi s))) in *.
  assert (Hrest : rest = [] /\ whole (ss_out ss) (abi :: got)).
  { unfold on_wire in I5. by destruct Hpc as [Hpc|Hpc]; rewrite Hpc in I4, I5. }
  destruct Hrest as [Hrest Hwh]. unfold close_away, sink. destruct (accept (ss_out ss) _).
  - exists msgs, dn, rest, got. split; simpl; try done. unfold on_wire. simpl. right.
    apply whole_received. by apply (whole_app (ss_out ss) [Send (mkFrame CloseAway true close_payload)] (abi :: got)).
  - exists msgs, dn, rest, got. split; simpl; try done. unfold on_wire. simpl. left. by apply whole_received.
Qed.

Lemma inv_step a ss evs ss' out :
  action_ok a -> invariant ss evs -> sstep a ss = Some (ss', out) -> invariant ss' (evs ++ out).
Proof.
  intros Ha Hinv H. destruct (live ss) eqn:Hl; [|unfold session_step in H; by rewrite Hl in H].
  destruct a as [m|free| |i granted|kind log n]; [by apply (inv_read m ss)|..];
    unfold session_step in H; rewrite Hl in H; cbn [negb] in H.
  - apply bind_Some in H as (ss1 & Hw & H). injection H as <- <-. destruct (ss_pc ss) eqn:Hpc; rewrite ?app_nil_r.
    + unfold write_step in Hw. rewrite Hpc in Hw. injection Hw as <-. by apply inv_top.
    + unfold write_step in Hw. rewrite Hpc in Hw. destruct (ss_wake ss); [|done]. injection Hw as <-.
      destruct Hinv as (msgs & dn & rest & got & [I1 I2 I3 I4 I5 I6 I7 I8 I9]). unfold on_wire in I5.
      rewrite Hpc in I4, I5. by exists msgs, dn, rest, got.
    + unfold write_step in Hw. rewrite Hpc in Hw. injection Hw as <-. by apply inv_status.
    + by eapply inv_take.
    + unfold write_step in Hw. rewrite Hpc in Hw. injection Hw as <-. by apply inv_send.
    + unfold live in Hl. by rewrite Hpc in Hl.
    + unfold live in Hl. by rewrite Hpc in Hl.
  - destruct (ss_pc ss) eqn:Hpc; try done; injection H as <- <-; rewrite app_nil_r; apply inv_stop; auto.
  - apply bind_Some in H as (pf & Hf & H). injection H as <- <-. rewrite app_nil_r. apply inv_pf; [done|].
    destruct Hinv as (msgs & dn & rest & got & I).
    exact (proj1 (finish_ok w sha256 s zlib can_reserve limits Hs Hratio Ht i (fun _ => granted) (ss_pf ss) pf
      (si_pf _ _ _ _ _ _ I) Hf)).
  - destruct (slot_read w log n) as [[pos page]|e|] eqn:Hr; try done. injection H as <- <-. rewrite app_nil_r.
    apply inv_pf; [done|]. destruct Hinv as (msgs & dn & rest & got & I). destruct (si_pf _ _ _ _ _ _ I) as [Hc Hah].
    split; [|done]. simpl. eapply rtc_r; [exact Hc|]. by eapply pstep_fill.
Qed.

Lemma inv_run acts ss evs ss' out :
  Forall action_ok acts -> invariant ss evs -> srun acts ss = Some (ss', out) -> invariant ss' (evs ++ out).
Proof.
  intros Ha. revert ss evs out. induction Ha as [|a acts Ha _ IH]; intros ss evs out Hinv H; simpl in H.
  { simplify_eq. by rewrite app_nil_r. }
  apply bind_Some in H as ([s1 o1] & H1 & H). apply bind_Some in H as ([s2 o2] & H2 & H). simplify_eq.
  rewrite app_assoc. eapply IH; [|exact H2]. by eapply inv_step.
Qed.

(** ** Why a session ends *)

Definition reads (a : action) (b : bytes) : Prop := a = ARead (InBinary b) \/ a = ARead (InText b).

(** The cause of an end: the action that made it, from the state before, and what it left written. *)
Definition cause (a : action) (ss : Session) (out : list sink_op) (e : End) : Prop :=
  match e with
  | ClientClosed => a = ARead InEnd /\ ss_closing ss = true
  | Disconnected => a = ARead InReset \/ (a = ARead InEnd /\ ss_closing ss = false)
  | ReadFailed => a = ARead InError
  | BadRequest er => exists b, reads a b /\ decode_request b = Err er
  | StatusFlood => MAX_QUEUED_STATUS <= blen (status_q (ss_spring ss)) /\
      exists b v1, reads a b /\ decode_request b = Ok (ReqStatus v1)
  | SendFailed => exists op, accept out op = false
  | DataError => (out = ss_out ss /\
      ((exists j win er, ss_pc ss = WTake j win /\ build j = Err er) \/
       exists b r p er, reads a b /\ decode_request b = Ok (ReqBlocks r) /\ p ∈ rq_have_positions r /\
         named_id w sha256 s (bp_num p) = Err er)) \/
      exists pkg er more, ss_pc ss = WSend pkg /\ io out = Some er /\ out = ss_out ss ++ more /\
        Forall (fun f => fr_fin f = false) (frames_of more)
  | Shutdown => a = AStop /\ (ss_pc ss = WTop \/ ss_pc ss = WIdle)
  end.

Lemma read_request_cause b st e :
  blen b < U64 -> read_request w sha256 s b st = Err e ->
  match e with
  | BadRequest er => decode_request b = Err er
  | StatusFlood => MAX_QUEUED_STATUS <= blen (status_q st) /\ exists v1, decode_request b = Ok (ReqStatus v1)
  | DataError => exists r p er, decode_request b = Ok (ReqBlocks r) /\ p ∈ rq_have_positions r /\
      named_id w sha256 s (bp_num p) = Err er
  | _ => False
  end.
Proof.
  intros Hb. destruct (decode_request_sound b Hb) as [Hn _]. unfold read_request, no_panic in *.
  destruct (decode_request b) as [[v1|r|n]|er|]; [| | |by intros [= <-]|done]; [| |done].
  - unfold status. destruct (Z.leb_spec MAX_QUEUED_STATUS (blen (status_q st))); [|done]. intros [= <-]. eauto.
  - pose proof (apply_positions_spec w sha256 s r) as Hp. destruct (apply_positions w sha256 s r) as [r'|er|]; [done| |done].
    intros [= <-]. destruct Hp as (p & Hp1 & _ & Hp2). eauto 10.
Qed.

Lemma read_cause m ss evs e :
  action_ok (ARead m) -> invariant ss evs -> read_step w sha256 s m ss = Err e -> cause (ARead m) ss (ss_out ss) e.
Proof.
  intros Ha Hi H.
  assert (Hb : forall b, blen b < U64 -> reads (ARead m) b ->
    (let? (st, e) := read_request w sha256 s b (ss_spring ss) in
     Ok (mkSession st true (ss_closing ss) (ss_pf ss) (ss_pc ss) (ss_out ss), [e])) = Err e ->
    cause (ARead m) ss (ss_out ss) e).
  { intros b Hb Hm Hr. destruct (read_request w sha256 s b (ss_spring ss)) as [[st ev]|er|] eqn:Hreq; try done.
    injection Hr as <-. apply read_request_cause in Hreq; [|done].
    destruct er; simpl; try done; [eauto|destruct Hreq as [? [v1 ?]]; eauto 10|].
    left. split; [done|]. right. destruct Hreq as (r & p & er & ? & ? & ?). by exists b, r, p, er. }
  destruct m as [b|b| | | | |]; simpl in H; try done.
  - apply (Hb b); [done|by left|done].
  - apply (Hb b); [done|by right|done].
  - injection H as <-. by left.
  - by injection H as <-.
  - injection H as <-. destruct (ss_closing ss) eqn:Hc; [by split|by right].
Qed.

Lemma step_cause a ss evs ss' out e :
  action_ok a -> invariant ss evs -> sstep a ss = Some (ss', out) -> ss_pc ss' = WEnd e ->
  cause a ss (ss_out ss') e.
Proof.
  intros Ha Hi H He. destruct (live ss) eqn:Hl; [|unfold session_step in H; by rewrite Hl in H].
  pose proof Hi as (msgs & dn & rest & got & I). pose proof (si_due _ _ _ _ _ _ I) as Hd.
  pose proof (si_wire _ _ _ _ _ _ I) as Hwire. unfold on_wire in Hwire. unfold live in Hl.
  unfold session_step, live in H. rewrite Hl in H. cbn [negb] in H.
  destruct a as [m|free| |i granted|kind log n].
  - injection H as H. destruct (read_step w sha256 s m ss) as [[s1 o1]|er|] eqn:Hr.
    + simplify_eq. exfalso. destruct m; simpl in Hr; try done.
      1, 2: destruct (read_request _ _ _ _ _) as [[st ev]|er|]; simpl in Hr; simplify_eq; simpl in He; by rewrite He in Hl.
      all: simplify_eq; simpl in He; by rewrite He in Hl.
    + simplify_eq. simpl in *. simplify_eq. by eapply read_cause.
    + by simplify_eq.
  - apply bind_Some in H as (s1 & Hw & H). simplify_eq. unfold write_step in Hw.
    destruct (ss_pc ss) as [| |sts job win|j win|pkg|e'|] eqn:Hpc; try done.
    + injection Hw as <-. unfold write_top in He. destruct (take last (ss_spring ss)) as [[sts job] st].
      by destruct sts, job.
    + destruct (ss_wake ss); by simplify_eq.
    + injection Hw as <-. pose proof (send_statuses_spec sts (ss_out ss) _ Hwire) as Hsp. unfold writing in *.
      destruct (send_statuses s accept sts (ss_out ss)) as [[u|er|] out']; simpl in *; [by destruct job| |done].
      destruct Hsp as (-> & Hop & _). by simplify_eq.
    + apply bind_Some in Hw as ([r pf] & Htk & Hw). injection Hw as <-.
      destruct (take_package_spec w sha256 s zlib can_reserve limits Hs Hratio Ht j (ss_pf ss) r pf
        (si_pf _ _ _ _ _ _ I) Htk) as (-> & _).
      destruct (build j) as [pkg|er|] eqn:Hb; simpl in He; simplify_eq. left. split; [done|]. left. by exists j, win, er.
    + injection Hw as <-. destruct Hd as (j & _ & Hb). pose proof (send_package j pkg (ss_out ss) _ Hb Hwire) as Hsp.
      unfold writing in *. destruct (send_result w accept io pkg (ss_out ss)) as [[u|er|] out']; simpl in *; [done| |done].
      destruct Hsp as (_ & [[-> Hop]|(source & er' & more & -> & Hop)]); simplify_eq; [done|].
      right. exists pkg, er', more. rewrite Hpc. done.
  - destruct (ss_pc ss) eqn:Hpc; try done; injection H as <- <-; unfold close_away in He;
      destruct (sink accept _ _); simpl in He; simplify_eq; (split; [done|]); rewrite ?Hpc; auto.
  - apply bind_Some in H as (pf & _ & H). simplify_eq. simpl in He. by rewrite He in Hl.
  - destruct (slot_read w log n) as [[pos page]|er|]; try done. simplify_eq. simpl in He. by rewrite He in Hl.
Qed.

(** ** Progress *)

(** An action of the server alone: a stage of the writer, or a build finishing. *)
Definition own_action (a : action) : Prop := match a with AWrite _ | AFinish _ _ => True | _ => False end.

Definition reaches (ss ss' : Session) : Prop :=
  exists acts evs, Forall own_action acts /\ srun acts ss = Some (ss', evs).

Lemma srun_app acts acts' ss :
  srun (acts ++ acts') ss = ('(ss, evs) ← srun acts ss; '(ss, evs') ← srun acts' ss; Some (ss, evs ++ evs')).
Proof.
  revert ss; induction acts as [|a acts IH]; intros ss; simpl.
  { by destruct (srun acts' ss) as [[? ?]|]. }
  destruct (sstep a ss) as [[s1 o1]|]; simpl; [|done]. rewrite IH.
  destruct (srun acts s1) as [[s2 o2]|]; simpl; [|done].
  destruct (srun acts' s2) as [[s3 o3]|]; simpl; [|done]. by rewrite app_assoc.
Qed.

Lemma reaches_refl ss : reaches ss ss.
Proof. by exists [], []. Qed.

Lemma reaches_trans a b c : reaches a b -> reaches b c -> reaches a c.
Proof.
  intros (x & ex & Hx & Rx) (y & ey & Hy & Ry). exists (x ++ y), (ex ++ ey).
  split; [by apply Forall_app|]. by rewrite srun_app, Rx; simpl; rewrite Ry.
Qed.

Lemma reaches_one a ss ss' evs : own_action a -> sstep a ss = Some (ss', evs) -> reaches ss ss'.
Proof.
  intros Ha H. exists [a], evs. split; [by constructor|]. simpl. rewrite H. simpl. by rewrite app_nil_r.
Qed.

Lemma reaches_inv ss ss' evs : invariant ss evs -> reaches ss ss' -> exists evs', invariant ss' evs'.
Proof.
  intros Hi (acts & out & Ha & Hr). exists (evs ++ out). eapply inv_run; [|exact Hi|exact Hr].
  eapply Forall_impl; [|exact Ha]. by intros [].
Qed.

(** The socket takes everything, no read of a stream fails, and every build succeeds. *)
Hypothesis Haccept : forall ops op, accept ops op = true.
Hypothesis Hio : forall ops, io ops = None.
Hypothesis Hbuild : forall j, job_in j -> is_ok (build j) = true.

Lemma write_reaches free ss ss' :
  live ss = true -> write_step w sha256 can_reserve s limits depth accept io free ss = Some ss' -> reaches ss ss'.
Proof.
  intros Hl H. eapply (reaches_one (AWrite free)); [done|]. unfold session_step. rewrite Hl, H. simpl. done.
Qed.

(** The package of a job can be taken, once its build has finished if it runs. *)
Lemma take_reaches ss evs j win :
  invariant ss evs -> ss_pc ss = WTake j win ->
  exists ss' pkg, reaches ss ss' /\ ss_pc ss' = WSend pkg /\ ss_spring ss' = ss_spring ss.
Proof.
  intros Hi Hpc. assert (Hl : live ss = true) by (unfold live; by rewrite Hpc).
  assert (Hready : forall ss evs, invariant ss evs -> ss_pc ss = WTake j win ->
    is_Some (take_package w sha256 can_reserve s limits j (ss_pf ss)) ->
    exists ss' pkg, reaches ss ss' /\ ss_pc ss' = WSend pkg /\ ss_spring ss' = ss_spring ss).
  { clear ss evs Hi Hpc Hl. intros ss evs (msgs & dn & rest & got & I) Hpc [[r pf] Htk].
    destruct (take_package_spec w sha256 s zlib can_reserve limits Hs Hratio Ht j (ss_pf ss) r pf (si_pf _ _ _ _ _ _ I)
      Htk) as (-> & _). pose proof (si_due _ _ _ _ _ _ I) as Hd. rewrite Hpc in Hd.
    pose proof (Hbuild j (proj1 (proj2 Hd))) as Hb. destruct (build j) as [pkg|e|] eqn:Hbj; [|done|done].
    eexists _, pkg. split; [|split].
    - apply (write_reaches 0); [unfold live; by rewrite Hpc|]. unfold write_step. rewrite Hpc, Htk. cbn. reflexivity.
    - done.
    - done. }
  destruct (take_package w sha256 can_reserve s limits j (ss_pf ss)) as [x|] eqn:Htk; [by eapply Hready|].
  unfold take_package in Htk. destruct (pf_ahead (ss_pf ss)) as [|a rest] eqn:Hah; [done|].
  destruct (bool_decide (ah_job a = j)) eqn:Hj; [|done]. destruct (ah_build a) as [b|] eqn:Hb.
  { destruct b as [[b|]|e|]; simpl in Htk; done. }
  pose proof Hi as (msgs & dn & rst & got & I). destruct (si_pf _ _ _ _ _ _ I) as [Hc _].
  destruct (prefetch_spec w sha256 s zlib can_reserve limits Hs Hratio Ht (fun _ => true) (ah_job a) _ Hc)
    as (r & c' & Hp & _ & _).
  set (pf := mkPrefetcher c' (mkAhead (ah_job a) (Some r) :: rest)).
  assert (Hstep : sstep (AFinish 0 true) ss = Some (with_pf ss pf, [])).
  { unfold session_step. rewrite Hl. cbn [negb]. unfold finish. rewrite Hah. simpl. by rewrite Hb, Hp. }
  destruct (Hready (with_pf ss pf) evs) as (ss' & pkg & Hr & Hpc' & Hsp).
  - rewrite <- (app_nil_r evs). by apply (inv_step (AFinish 0 true) ss evs _ []).
  - done.
  - unfold take_package. simpl. rewrite Hj. destruct r as [[b|]|e|]; simpl; by eexists.
  - exists ss', pkg. split; [|done]. eapply reaches_trans; [by apply (reaches_one (AFinish 0 true) ss _ [])|done].
Qed.

Lemma send_reaches ss evs pkg :
  invariant ss evs -> ss_pc ss = WSend pkg ->
  exists ss', reaches ss ss' /\ ss_pc ss' = WTop /\ ss_spring ss' = ss_spring ss.
Proof.
  intros (msgs & dn & rest & got & I) Hpc. pose proof (si_due _ _ _ _ _ _ I) as Hd. rewrite Hpc in Hd.
  destruct Hd as (j & _ & Hb). destruct (package_sends j pkg Hb) as (Hbase & ys & Hys & Hu).
  destruct (send_result_ops w _ F zlib L accept io pkg ys Hbase Hys Hu) as (ops & cs & _ & _ & _ & _ & _ & H).
  specialize (H (ss_out ss)). exists (writing (send_result w accept io pkg) WTop ss).
  split; [apply (write_reaches 0); [unfold live; by rewrite Hpc|unfold write_step; by rewrite Hpc]|].
  unfold writing. destruct (send_result w accept io pkg (ss_out ss)) as [[n|e|] out']; [done| |done].
  destruct H as (before & op & rst & _ & _ & [[_ Hf]|(source & er & _ & Hf)]); [by rewrite Haccept in Hf|by rewrite Hio in Hf].
Qed.

Lemma status_reaches ss sts job win :
  ss_pc ss = WStatus sts job win ->
  exists ss', reaches ss ss' /\ ss_spring ss' = ss_spring ss /\
    ss_pc ss' = match job with Some j => WTake j win | None => WTop end.
Proof.
  intros Hpc. exists (writing (send_statuses s accept sts) match job with Some j => WTake j win | None => WTop end ss).
  split; [apply (write_reaches 0); [unfold live; by rewrite Hpc|unfold write_step; by rewrite Hpc]|].
  assert (Hf : forall sts out, exists out', feed_statuses s accept sts out = (Ok (), out')).
  { clear -Haccept. induction sts as [|v sts IH]; intros out; simpl; [by eexists|].
    unfold sbind, sink. rewrite Haccept. apply IH. }
  unfold writing. destruct sts as [|v sts]; [done|]. unfold send_statuses, sbind.
  destruct (Hf (v :: sts) (ss_out ss)) as [out' ->]. unfold sink. by rewrite Haccept.
Qed.

(** What an iteration took is written, and the writer is back at the top of its loop. *)
Lemma iteration_reaches ss evs :
  invariant ss evs -> live ss = true -> ss_pc ss <> WIdle ->
  exists ss', reaches ss ss' /\ ss_pc ss' = WTop /\ ss_spring ss' = ss_spring ss.
Proof.
  assert (Htake : forall ss evs j win, invariant ss evs -> ss_pc ss = WTake j win ->
    exists ss', reaches ss ss' /\ ss_pc ss' = WTop /\ ss_spring ss' = ss_spring ss).
  { clear ss evs. intros ss evs j win Hi Hpc. destruct (take_reaches ss evs j win Hi Hpc) as (s1 & pkg & R1 & P1 & E1).
    destruct (reaches_inv ss s1 evs Hi R1) as [evs1 Hi1]. destruct (send_reaches s1 evs1 pkg Hi1 P1) as (s2 & R2 & P2 & E2).
    exists s2. split; [by eapply reaches_trans|]. split; [done|congruence]. }
  intros Hi Hl Hn. destruct (ss_pc ss) as [| |sts job win|j win|pkg|e|] eqn:Hpc; try done.
  - exists ss. split; [apply reaches_refl|done].
  - destruct (status_reaches ss sts job win Hpc) as (s1 & R1 & E1 & P1). destruct job as [j|]; [|by exists s1].
    destruct (reaches_inv ss s1 evs Hi R1) as [evs1 Hi1]. destruct (Htake s1 evs1 j win Hi1 P1) as (s2 & R2 & P2 & E2).
    exists s2. split; [by eapply reaches_trans|]. split; [done|congruence].
  - by eapply Htake.
  - by eapply send_reaches.
  - unfold live in Hl. by rewrite Hpc in Hl.
  - unfold live in Hl. by rewrite Hpc in Hl.
Qed.

(** How much a state makes due: a block per iteration, and the queued statuses. *)
Definition backlog (st : SpringState) : Z :=
  Z.max 0 (allowed last st) + match status_q st with [] => 0 | _ => 1 end.

Lemma take_backlog st sts job st' :
  req_ok (req st) -> take last st = (sts, job, st') -> sts <> [] \/ job <> None -> backlog st' < backlog st.
Proof.
  intros Hr Htk Hne. destruct job as [j|].
  - destruct (take_window last st j st' sts Hr last_u32 Htk) as (_ & _ & Hq & Hj & Ha & _).
    rewrite window_job_eq in Hj by (done || apply last_u32). unfold backlog. rewrite Hq, Ha.
    destruct (Z.ltb_spec 0 (allowed last st)); [|done]. destruct (status_q st); lia.
  - unfold take in Htk. destruct (sendable last st) eqn:Hse; [done|]. injection Htk as <- <-.
    destruct Hne as [Hne|]; [|done]. unfold backlog. simpl. change (allowed last _) with (allowed last st).
    destruct (status_q st); [done|lia].
Qed.

Lemma top_reaches n ss evs :
  invariant ss evs -> ss_pc ss = WTop -> backlog (ss_spring ss) < Z.of_nat n ->
  exists ss', reaches ss ss' /\ ss_pc ss' = WIdle /\ quiet (ss_spring ss').
Proof.
  revert ss evs; induction n as [|n IH]; intros ss evs Hi Hpc Hn.
  { unfold backlog in Hn. destruct (status_q _); lia. }
  pose proof Hi as (msgs & dn & rest & got & I). pose proof (si_req _ _ _ _ _ _ I) as Hr.
  assert (R1 : reaches ss (write_top s ss)).
  { apply (write_reaches 0); [unfold live; by rewrite Hpc|]. unfold write_step. by rewrite Hpc. }
  destruct (reaches_inv ss _ evs Hi R1) as [evs1 Hi1]. pose proof R1 as R. unfold write_top in R1, Hi1.
  destruct (take last (ss_spring ss)) as [[sts job] st] eqn:Htk.
  destruct (take_step (ss_spring ss) sts job st Htk Hr last_u32) as (_ & _ & _ & Hq).
  assert (Hgo : sts <> [] \/ job <> None -> exists ss', reaches ss ss' /\ ss_pc ss' = WIdle /\ quiet (ss_spring ss')).
  { intros Hne. pose proof (take_backlog _ _ _ _ Hr Htk Hne) as Hb.
    set (ss1 := mkSession st (ss_wake ss) (ss_closing ss) (ss_pf ss) (WStatus sts job (window last st)) (ss_out ss)).
    assert (E : match sts, job with
      | [], None => mkSession st (ss_wake ss) (ss_closing ss) (clear (ss_pf ss)) WIdle (ss_out ss)
      | _, _ => ss1 end = ss1) by (destruct sts, job, Hne; done).
    fold ss1 in R1, Hi1. rewrite E in R1, Hi1.
    destruct (iteration_reaches ss1 evs1 Hi1) as (s2 & R2 & P2 & E2); [done|done|].
    destruct (reaches_inv ss1 s2 evs1 Hi1 R2) as [evs2 Hi2].
    destruct (IH s2 evs2 Hi2 P2) as (s3 & R3 & H3); [rewrite E2; simpl; lia|].
    exists s3. split; [|done]. eapply reaches_trans; [exact R1|]. by eapply reaches_trans. }
  destruct sts as [|v sts]; [destruct job as [j|]|]; [by apply Hgo; right| |by apply Hgo; left].
  eexists. split; [exact R1|]. split; [done|]. by apply Hq.
Qed.

Lemma session_settles ss evs :
  invariant ss evs -> live ss = true -> exists ss', reaches ss ss' /\ ss_pc ss' = WIdle /\ quiet (ss_spring ss').
Proof.
  intros Hi Hl.
  assert (Htop : forall ss evs, invariant ss evs -> ss_pc ss = WTop ->
    exists ss', reaches ss ss' /\ ss_pc ss' = WIdle /\ quiet (ss_spring ss')).
  { clear ss evs Hi Hl. intros ss evs Hi Hpc. apply (top_reaches (S (Z.to_nat (backlog (ss_spring ss)))) ss evs Hi Hpc). lia. }
  assert (ss_pc ss = WIdle \/ ss_pc ss <> WIdle) as [Hpc|Hpc] by (destruct (ss_pc ss); auto).
  - destruct (ss_wake ss) eqn:Hw.
    + set (s1 := mkSession (ss_spring ss) false (ss_closing ss) (ss_pf ss) WTop (ss_out ss)).
      assert (R1 : reaches ss s1).
      { apply (write_reaches 0); [done|]. unfold write_step. by rewrite Hpc, Hw. }
      destruct (reaches_inv ss s1 evs Hi R1) as [evs1 Hi1]. destruct (Htop s1 evs1 Hi1 eq_refl) as (s2 & R2 & H2).
      exists s2. split; [by eapply reaches_trans|done].
    + exists ss. split; [apply reaches_refl|]. split; [done|]. destruct Hi as (msgs & dn & rest & got & I).
      by apply (si_idle _ _ _ _ _ _ I).
  - destruct (iteration_reaches ss evs Hi Hl Hpc) as (s1 & R1 & P1 & _).
    destruct (reaches_inv ss s1 evs Hi R1) as [evs1 Hi1]. destruct (Htop s1 evs1 Hi1 P1) as (s2 & R2 & H2).
    exists s2. split; [by eapply reaches_trans|done].
Qed.
End Facts.

(** ** Properties *)

(** C1: the session implements Spring's rule. Whatever the client sends, however the reader, the
    writer, the builds ahead and their pages interleave, whichever reservations are granted,
    whichever io threads are free, and wherever the socket stops or a read of a streamed payload fails, there is a history of critical
    sections that led to the session's state, and what the client has received is the ABI and then
    the answers to a prefix of the messages due for it, in order, each whole: the status message of
    the store, or the one block result that building the job alone gives. The rest is what the
    writer is at, nothing when it is between two iterations, idle, or shut down; a close may follow
    a shutdown, and nothing panics. *)
Theorem session_refines_spring (w : world) (S : FileSource w) (sha256 : bytes -> bytes) (s : Store)
    (F : Flate) (zlib : bytes -> option bytes) (L : FlateLaws F zlib) (can_reserve : Z -> bool)
    (limits : FetchLimits) (depth : Z) (accept : list sink_op -> sink_op -> bool) (io : list sink_op -> option err)
    (acts : list action) (ss : Session) (evs : list event) (Hs : store_ok w sha256 s)
    (Hratio : forall x y, zlib x = Some y -> blen y <= MAX_INFLATE_RATIO * blen x)
    (Ht : 0 <= stream_threshold limits <= 2 ^ 62) (Ha : Forall action_ok acts)
    (Hrun : session_run w sha256 can_reserve s limits depth accept io acts (session_new s) = Some (ss, evs)) :
  let abi := (Text, String.list_byte_of_string (s_abi s)) in
  Forall event_ok evs /\
  exists done rest got,
    run (bp_num (s_last s)) evs SpringState_default = Some (ss_spring ss, done ++ rest) /\
    Forall2 (answers w sha256 s zlib can_reserve limits) done got /\
    (received (ss_out ss) = abi :: got \/
     ss_pc ss = WEnd Shutdown /\ received (ss_out ss) = abi :: got ++ [(CloseAway, close_payload)]) /\
    match ss_pc ss with
    | WTop | WIdle | WEnd Shutdown => rest = []
    | WStatus sts job _ => rest = (SStatus <$> sts) ++ match job with Some j => [SResult j] | None => [] end
    | WTake j _ => rest = [SResult j]
    | WSend pkg => exists j, rest = [SResult j] /\ build w sha256 can_reserve s j limits = Ok pkg
    | WEnd _ => True
    | WPanic => False
    end.
Proof.
  intros abi. pose proof (inv_run w sha256 s zlib can_reserve limits depth accept io Hs Hratio Ht acts _ [] ss evs Ha
    (session_inv_new w sha256 s zlib can_reserve limits) Hrun) as Hi. simpl in Hi.
  destruct Hi as (msgs & dn & rest & got & [I1 I2 I3 I4 I5 I6 I7 I8 I9]). split; [done|].
  exists dn, rest, got. subst msgs. split; [done|]. split; [done|]. split.
  - unfold on_wire in I5. fold abi in I5. destruct (ss_pc ss) as [| | | | |[]|];
      try (left; by apply whole_received); try (by left). destruct I5 as [?|?]; [by left|by right].
  - destruct (ss_pc ss); naive_solver.
Qed.

(** A client that asks for a status and for both blocks of the example store with their traces. *)
Definition exz_request : bytes := encode_request (ReqBlocks (mkReq false 7 100 5 [] false true true true false)).
Definition exz_acts : list action :=
  [AWrite 0; ARead (InBinary (encode_request (ReqStatus false))); ARead (InBinary exz_request); AWrite 0; AWrite 0;
   AWrite 0; AWrite 1; AFinish 0 true; AWrite 0; AWrite 0; AWrite 0; AWrite 1; AWrite 0].
Definition exz_run : option (Session * list event) :=
  session_run (FileSource0 := direct_source exs_world exs_world_ok) (F := level0) exs_world exb_sha (fun _ => true) exs_store exs_limits 4 (fun _ _ => true) (fun _ => None) exz_acts
    (session_new exs_store).
Definition exz_session : Session := default (session_new exs_store) (fst <$> exz_run).

Definition exz_events : list event := default [] (snd <$> exz_run).

Lemma exz_ran : exz_run = Some (exz_session, exz_events).
Proof. vm_compute. reflexivity. Qed.

Lemma exz_acts_ok : Forall action_ok exz_acts.
Proof. repeat constructor. Qed.

Lemma exs_limits_ok : 0 <= stream_threshold exs_limits <= 2 ^ 62.
Proof. split; vm_compute; discriminate. Qed.

Lemma session_refines_spring_witness :
  let S := direct_source exs_world exs_world_ok in
  exists got, ss_pc exz_session = WTop /\
    Forall2 (answers (F := level0) exs_world exb_sha exs_store zlib_level0 (fun _ => true) exs_limits)
      [SStatus false; SResult (exs_job 7); SResult (exs_job 8)] got /\
    received (ss_out exz_session) = (Text, [x7b; x7d]) :: got.
Proof.
  intros S.
  pose proof (session_refines_spring exs_world S exb_sha exs_store level0 zlib_level0 level0_laws (fun _ => true)
    exs_limits 4 (fun _ _ => true) (fun _ => None) exz_acts exz_session exz_events exs_store_ok zlib_level0_ratio exs_limits_ok
    exz_acts_ok exz_ran) as H. cbv zeta in H. destruct H as (_ & dn & rest & got & Hr & Hg & Hw & Hpc).
  assert (E : ss_pc exz_session = WTop) by (vm_compute; reflexivity). rewrite E in Hpc, Hw. subst rest.
  rewrite app_nil_r in Hr.
  assert (Hd : dn = [SStatus false; SResult (exs_job 7); SResult (exs_job 8)]).
  { assert (Hx : (snd <$> run (bp_num (s_last exs_store)) exz_events SpringState_default) =
      Some [SStatus false; SResult (exs_job 7); SResult (exs_job 8)]) by (vm_compute; reflexivity).
    rewrite Hr in Hx. injection Hx as Hx. exact Hx. }
  subst dn. exists got. split; [exact E|]. split; [exact Hg|]. destruct Hw as [Hw|[Hw _]]; [exact Hw|discriminate Hw].
Defined.

(** C5: nothing due is ever lost or left waiting. From every state a session can reach, however it
    was interrupted, the server's own steps (the writer's, and builds finishing) lead to the writer
    idle with nothing left to do: no status queued, no block sendable; and by then the client has
    received the answer to every message due, in order, provided the socket takes what it is given,
    the blocks can be built and the disk does not fail a stream. No wake-up is lost and no build is awaited forever. *)
Theorem session_completes (w : world) (S : FileSource w) (sha256 : bytes -> bytes) (s : Store)
    (F : Flate) (zlib : bytes -> option bytes) (L : FlateLaws F zlib) (can_reserve : Z -> bool)
    (limits : FetchLimits) (depth : Z) (accept : list sink_op -> sink_op -> bool) (io : list sink_op -> option err)
    (acts : list action) (ss : Session) (evs : list event) (Hs : store_ok w sha256 s)
    (Hratio : forall x y, zlib x = Some y -> blen y <= MAX_INFLATE_RATIO * blen x)
    (Ht : 0 <= stream_threshold limits <= 2 ^ 62) (Ha : Forall action_ok acts)
    (Hrun : session_run w sha256 can_reserve s limits depth accept io acts (session_new s) = Some (ss, evs))
    (Hlive : live ss = true) (Haccept : forall ops op, accept ops op = true)
    (Hio : forall ops, io ops = None)
    (Hbuild : forall j, 0 <= j_n j <= bp_num (s_last s) -> is_ok (build w sha256 can_reserve s j limits) = true) :
  exists acts' ss' evs' msgs got,
    Forall own_action acts' /\
    session_run w sha256 can_reserve s limits depth accept io acts' ss = Some (ss', evs') /\
    ss_pc ss' = WIdle /\ status_q (ss_spring ss') = [] /\ sendable (bp_num (s_last s)) (ss_spring ss') = None /\
    run (bp_num (s_last s)) (evs ++ evs') SpringState_default = Some (ss_spring ss', msgs) /\
    Forall2 (answers w sha256 s zlib can_reserve limits) msgs got /\
    received (ss_out ss') = (Text, String.list_byte_of_string (s_abi s)) :: got.
Proof.
  pose proof (inv_run w sha256 s zlib can_reserve limits depth accept io Hs Hratio Ht acts _ [] ss evs Ha
    (session_inv_new w sha256 s zlib can_reserve limits) Hrun) as Hi. simpl in Hi.
  destruct (session_settles w sha256 s zlib can_reserve limits depth accept io Hs Hratio Ht Haccept Hio Hbuild ss evs Hi Hlive)
    as (ss' & (acts' & evs' & Ha' & Hr') & Hpc & Hq & Hse).
  assert (Hi' : invariant w sha256 s zlib can_reserve limits ss' (evs ++ evs')).
  { apply (inv_run w sha256 s zlib can_reserve limits depth accept io Hs Hratio Ht acts' ss evs ss' evs'); [|done|done].
    eapply Forall_impl; [|exact Ha']. by intros []. }
  destruct Hi' as (msgs & dn & rest & got & [I1 I2 I3 I4 I5 I6 I7 I8 I9]).
  unfold on_wire in I5. rewrite Hpc in I4, I5. simpl in I4. subst rest. rewrite app_nil_r in I2. subst dn.
  exists acts', ss', evs', msgs, got. split_and!; try done. by apply whole_received.
Qed.

Lemma exs_builds (j : Job) :
  let S := direct_source exs_world exs_world_ok in
  0 <= j_n j <= 8 -> is_ok (build (F := level0) exs_world exb_sha (fun _ => true) exs_store j exs_limits) = true.
Proof.
  intros S. destruct j as [g n v1 [f1 f2 f3 f4]]. simpl. intros Hn.
  assert (Hc : n ∈ [0; 1; 2; 3; 4; 5; 6; 7; 8]) by (apply list_elem_of_In; simpl; lia).
  repeat (apply elem_of_cons in Hc as [->|Hc]; [destruct v1, f1, f2, f3, f4; vm_compute; reflexivity|]).
  by apply not_elem_of_nil in Hc.
Qed.

(** The same client, just after its request: both blocks follow. *)
Definition exz_started : option (Session * list event) :=
  session_run (FileSource0 := direct_source exs_world exs_world_ok) (F := level0) exs_world exb_sha (fun _ => true)
    exs_store exs_limits 4 (fun _ _ => true) (fun _ => None) [ARead (InBinary exz_request)] (session_new exs_store).

Lemma session_completes_witness :
  let S := direct_source exs_world exs_world_ok in
  exists ss evs acts' ss' evs', exz_started = Some (ss, evs) /\
    session_run (F := level0) exs_world exb_sha (fun _ => true) exs_store exs_limits 4 (fun _ _ => true) (fun _ => None) acts' ss =
      Some (ss', evs') /\
    ss_pc ss' = WIdle /\ sendable 8 (ss_spring ss') = None.
Proof.
  intros S. assert (Hr : exists ss evs, exz_started = Some (ss, evs) /\ live ss = true).
  { eexists _, _. split; vm_compute; reflexivity. }
  destruct Hr as (ss & evs & Hr & Hl).
  pose proof (session_completes exs_world S exb_sha exs_store level0 zlib_level0 level0_laws (fun _ => true)
    exs_limits 4 (fun _ _ => true) (fun _ => None) [ARead (InBinary exz_request)] ss evs exs_store_ok zlib_level0_ratio exs_limits_ok)
    as H.
  specialize (H ltac:(repeat constructor) Hr Hl (fun _ _ => eq_refl) (fun _ => eq_refl) exs_builds).
  destruct H as (acts' & ss' & evs' & msgs & got & _ & H1 & H2 & _ & H3 & _).
  exists ss, evs, acts', ss', evs'. split; [exact Hr|]. split; [exact H1|]. split; [exact H2|exact H3].
Defined.

(** C24: a session ends only for cause, and at once. When a run has ended, its last action ended it,
    and the end tells why: the client closed or vanished; the bytes it sent do not decode; a status
    came with 1024 queued; the socket refused the next operation; the block about to be sent cannot
    be built, or an id a request names cannot be read, in which case nothing more was written; a read of a payload
    being streamed failed, in which case what was written of the message lacks its final frame; or
    the server stopped, between two messages. *)
Theorem session_ends_for_cause (w : world) (S : FileSource w) (sha256 : bytes -> bytes) (s : Store)
    (F : Flate) (zlib : bytes -> option bytes) (L : FlateLaws F zlib) (can_reserve : Z -> bool)
    (limits : FetchLimits) (depth : Z) (accept : list sink_op -> sink_op -> bool) (io : list sink_op -> option err)
    (acts : list action) (ss : Session) (evs : list event) (e : End) (Hs : store_ok w sha256 s)
    (Hratio : forall x y, zlib x = Some y -> blen y <= MAX_INFLATE_RATIO * blen x)
    (Ht : 0 <= stream_threshold limits <= 2 ^ 62) (Ha : Forall action_ok acts)
    (Hrun : session_run w sha256 can_reserve s limits depth accept io acts (session_new s) = Some (ss, evs))
    (He : ss_pc ss = WEnd e) :
  exists acts' a ss0 evs0, acts = acts' ++ [a] /\
    session_run w sha256 can_reserve s limits depth accept io acts' (session_new s) = Some (ss0, evs0) /\
    live ss0 = true /\ cause w sha256 s can_reserve limits accept io a ss0 (ss_out ss) e.
Proof.
  destruct (decide (acts = [])) as [->|Hne]; [by simplify_eq/=|].
  destruct (exists_last Hne) as (acts' & a & ->). apply Forall_app in Ha as [Ha' Ha]. apply Forall_cons_1 in Ha as [Ha _].
  rewrite srun_app in Hrun. apply bind_Some in Hrun as ([ss0 evs0] & Hr0 & Hrun).
  apply bind_Some in Hrun as ([ss1 evs1] & Hr1 & Hx). simplify_eq. simpl in Hr1.
  apply bind_Some in Hr1 as ([ss2 evs2] & Hstep & Hx). simplify_eq.
  pose proof (inv_run w sha256 s zlib can_reserve limits depth accept io Hs Hratio Ht acts' _ [] ss0 evs0 Ha'
    (session_inv_new w sha256 s zlib can_reserve limits) Hr0) as Hi. simpl in Hi.
  exists acts', a, ss0, evs0. split_and!; try done.
  - destruct (live ss0) eqn:Hl; [done|]. unfold session_step in Hstep. by rewrite Hl in Hstep.
  - by apply (step_cause w sha256 s zlib can_reserve limits depth accept io Hs Hratio Ht a ss0 evs0 ss evs2 e).
Qed.

Lemma session_ends_for_cause_witness :
  let S := direct_source exs_world exs_world_ok in
  exists ss evs ss0, session_run (F := level0) exs_world exb_sha (fun _ => true) exs_store exs_limits 4
      (fun _ _ => true) (fun _ => None) [AWrite 0; ARead (InText [x09])] (session_new exs_store) = Some (ss, evs) /\
    ss_pc ss = WEnd (BadRequest (EVariantOutOfRange 9)) /\
    cause (F := level0) exs_world exb_sha exs_store (fun _ => true) exs_limits (fun _ _ => true) (fun _ => None)
      (ARead (InText [x09])) ss0 (ss_out ss) (BadRequest (EVariantOutOfRange 9)).
Proof.
  intros S. assert (Hr : exists ss evs, session_run (F := level0) exs_world exb_sha (fun _ => true) exs_store exs_limits 4
      (fun _ _ => true) (fun _ => None) [AWrite 0; ARead (InText [x09])] (session_new exs_store) = Some (ss, evs) /\
      ss_pc ss = WEnd (BadRequest (EVariantOutOfRange 9))).
  { eexists _, _. split; vm_compute; reflexivity. }
  destruct Hr as (ss & evs & Hr & He).
  pose proof (session_ends_for_cause exs_world S exb_sha exs_store level0 zlib_level0 level0_laws (fun _ => true)
    exs_limits 4 (fun _ _ => true) (fun _ => None) [AWrite 0; ARead (InText [x09])] ss evs (BadRequest (EVariantOutOfRange 9))
    exs_store_ok zlib_level0_ratio exs_limits_ok) as H.
  specialize (H ltac:(repeat constructor) Hr He). destruct H as (acts' & a & ss0 & evs0 & Heq & _ & _ & Hc).
  apply (app_inj_tail [AWrite 0]) in Heq as [_ <-]. exists ss, evs, ss0.
  split; [exact Hr|]. split; [exact He|exact Hc].
Defined.

(** A disk that fails while a payload is streamed ends the session in the middle of a message: the ABI is received
    whole, and three frames follow it, the result's variant, its base with its block, and the length of its first
    payload. *)
Example stream_fails_mid_message :
  (fun r => (ss_pc r.1, length (received (ss_out r.1)), length (frames_of (ss_out r.1)))) <$>
    session_run (FileSource0 := direct_source exs_world exs_world_ok) (F := level0) exs_world exb_sha (fun _ => true)
      exs_store (mkLimits 1) 4 (fun _ _ => true) (fun _ => Some (EShortRead 2 0))
      [ARead (InBinary exz_request); AWrite 0; AWrite 0; AWrite 0; AWrite 0] (session_new exs_store) =
    Some (WEnd DataError, 1%nat, 4%nat).
Proof. vm_compute. reflexivity. Qed.

(** Spring's [have_positions] rule. The start a request is given is the lowest of its own and of
    the positions the server does not know, or knows under another id, whatever their order: below
    it every position is known by its id, and it is the request's start or an unknown position's
    block. Nothing else of the request changes, its positions are dropped, and it fails only where
    reading the id of a position below its start fails. *)
Lemma have_positions_exact (w : world) (S : FileSource w) (sha256 : bytes -> bytes) (s : Store)
    (r : BlocksReq) :
  match apply_positions w sha256 s r with
  | Ok r' =>
      let start := rq_start r' in
      r' = without_positions (with_flow r start (rq_max_in_flight r)) /\ start <= rq_start r /\
      (forall p, p ∈ rq_have_positions r -> bp_num p < start ->
         named_id w sha256 s (bp_num p) = Ok (Some (bp_id p))) /\
      (start = rq_start r \/ exists p, p ∈ rq_have_positions r /\ bp_num p = start /\
         named_id w sha256 s (bp_num p) <> Ok (Some (bp_id p)))
  | Err e => exists p, p ∈ rq_have_positions r /\ bp_num p < rq_start r /\ named_id w sha256 s (bp_num p) = Err e
  | Panic => False
  end.
Proof.
  pose proof (apply_positions_spec w sha256 s r) as H. destruct (apply_positions w sha256 s r) as [r'|e|]; [|done|done].
  cbv zeta. assert (E : rq_start r' = rewound w sha256 s (rq_have_positions r) (rq_start r)) by (by rewrite H).
  rewrite E. split; [done|]. split; [apply rewound_le|]. clear H E r'.
  assert (Hu : forall p, unknown w sha256 s p = false <-> named_id w sha256 s (bp_num p) = Ok (Some (bp_id p))).
  { intros p. unfold unknown. destruct (named_id w sha256 s (bp_num p)) as [id|e|]; [|done|done].
    rewrite bool_decide_eq_false. split; [intros Hn; f_equal; by apply dec_stable|intros [= ->] Hn; by apply Hn]. }
  induction (rq_have_positions r) as [|q ps [IH1 IH2]]; simpl; [split; [set_solver|by left]|].
  destruct (unknown w sha256 s q) eqn:Hq.
  - assert (Hnq : named_id w sha256 s (bp_num q) <> Ok (Some (bp_id q))) by (rewrite <- Hu, Hq; done). split.
    + intros p Hp Hlt. apply elem_of_cons in Hp as [->|Hp]; [lia|]. apply IH1; [done|lia].
    + destruct (Z.min_spec (bp_num q) (rewound w sha256 s ps (rq_start r))) as [[_ ->]|[_ ->]]; [right; set_solver|].
      destruct IH2 as [IH2|IH2]; [by left|right; set_solver].
  - apply Hu in Hq. split; [|destruct IH2 as [IH2|IH2]; [by left|right; set_solver]].
    intros p Hp Hlt. apply elem_of_cons in Hp as [->|Hp]; [done|]. by apply IH1.
Qed.
