(* ===== verification/Scan.v ===== *)
(** * The SHiP client ([crates/core/src/delta.rs], [crates/core/src/ship.rs])

    The ABI scanner's side of the protocol: it asks a server for the deltas of a range, reads the
    block number and the deltas of each result without decoding the rest, and walks the [account]
    table, the first one of a block's deltas. Offsets are [usize] and every addition is on lengths
    that fit in memory, so they are kept unbounded. The decoder of names ([rs_abieos]) and the
    output channel are parameters; the Wire protocol variant and the progress lines are not
    modelled. [joint_run] runs the client, with the acks it sends, against the server's rule of
    [Spring.v]. *)

From S2P Require Import Prelude.
From S2P Require Import Errors.
From S2P Require Import Binio.
From S2P Require Import Protocol.
From S2P Require Import ShipLog.
From S2P Require Import Zlib.
From S2P Require Import Inflate.
From S2P Require Import BlockLog.
From S2P Require Import Catalog.
From S2P Require Import Fetch.
From S2P Require Import Pages.
From S2P Require Import Store.
From S2P Require Import Frames.
From S2P Require Import Prefetch.
From S2P Require Import Spring.
From S2P Require Import Session.

(** ** delta.rs *)

(** The loop of [read_varuint]: six shifts, up to 35, are tried. *)
Fixpoint read_varuint_loop (shifts : list Z) (buf : bytes) (value i : Z) : option (Z * Z) :=
  match shifts with
  | [] => None
  | shift :: shifts =>
      byte ← byte_at buf i;
      let i := i + 1 in
      let value := Z.lor value (wrap64 (Z.shiftl (Z.land (b2z byte) 127) shift)) in
      if Z.land (b2z byte) 128 =? 0 then Some (value, i) else read_varuint_loop shifts buf value i
  end.

Definition read_varuint (buf : bytes) : option (Z * Z) := read_varuint_loop [0; 7; 14; 21; 28; 35] buf 0 0.

(** [bin.get(off..)]. *)
Definition from (bin : bytes) (off : Z) : option bytes :=
  if (0 <=? off) && (off <=? blen bin) then Some (drop (Z.to_nat off) bin) else None.

(** One of [block] and [traces], skipped. *)
Definition skip_optional (bin : bytes) (off : Z) : option Z :=
  present ← byte_at bin off;
  let off := off + 1 in
  if b2z present =? 1 then
    '(len, k) ← (from bin off ≫= read_varuint);
    Some (off + (k + len))
  else Some off.

Definition parse_result (bin : bytes) : option (Z * bytes) :=
  if negb (bool_decide (b2z <$> head bin = Some 1)) then None else
  let off := 1 + 36 + 36 in
  this_present ← byte_at bin off;
  let off := off + 1 in
  if b2z this_present =? 1 then
    num ← slice bin off 4;
    let block_num := le_of num in
    let off := off + 36 in
    prev_present ← byte_at bin off;
    let off := off + 1 in
    let off := if b2z prev_present =? 1 then off + 36 else off in
    off ← skip_optional bin off;
    off ← skip_optional bin off;
    deltas_present ← byte_at bin off;
    let off := off + 1 in
    if b2z deltas_present =? 1 then
      '(len, k) ← (from bin off ≫= read_varuint);
      let off := off + k in
      deltas ← slice bin off len;
      Some (block_num, deltas)
    else Some (block_num, [])
  else None.

(** Why a walk of the deltas stops. *)
Inductive walk_error :=
| BadTableCount | BadVariant | BadNameLen | NameOob | BadRowsCount | BadDataLen | DataOob
| AccountVariant | AccountAbiLen | AccountAbiOob | NameToString.

(** A varuint at an offset: the value and the offset past it. *)
Definition varuint_at (e : walk_error) (b : bytes) (off : Z) : res walk_error (Z * Z) :=
  let? (v, k) := or_err (read_varuint (default [] (from b off))) e in
  Ok (v, off + k).

(** The rows of the table, each handed to [f], which keeps a state of its own. *)
Section Rows.
Context {S : Type} (f : bytes -> M walk_error S ()) (deltas : bytes).

Definition row_step (off : Z) : M walk_error S Z :=
  let! (data_len, off) := slift (varuint_at BadDataLen deltas (off + 1)) in
  let! data := slift (or_err (slice deltas off data_len) DataOob) in
  do! f data ;;
  sret (off + data_len).

Definition for_each_account_row : M walk_error S () :=
  let! (n_tables, off) := slift (varuint_at BadTableCount deltas 0) in
  if n_tables =? 0 then sret () else
  let! (_, off) := slift (varuint_at BadVariant deltas off) in
  let! (name_len, off) := slift (varuint_at BadNameLen deltas off) in
  let! name := slift (or_err (slice deltas off name_len) NameOob) in
  let off := off + name_len in
  let! (rows, off) := slift (varuint_at BadRowsCount deltas off) in
  if negb (bool_decide (name = String.list_byte_of_string "account")) then sret () else
  do! for_count rows row_step off ;;
  sret ().
End Rows.

(** [account_setabi], with [abieos]'s name decoder; the ABI is kept as bytes rather than hex. *)
Definition account_setabi (name_to_string : Z -> option string) (row : bytes)
    : res walk_error (option (string * bytes)) :=
  let? (_, k) := or_err (read_varuint row) AccountVariant in
  let off := k in
  if blen row <? off + 12 then Ok None else
  let? name := or_panic (slice row off 8) in
  let off := off + 8 + 4 in
  let? rest := or_panic (from row off) in
  let? (abi_len, k) := or_err (read_varuint rest) AccountAbiLen in
  let off := off + k in
  if abi_len =? 0 then Ok None else
  let? abi := or_err (slice row off abi_len) AccountAbiOob in
  let? name := or_err (name_to_string (le_of name)) NameToString in
  Ok (Some (name, abi)).

(** ** ship.rs *)

Definition FRAME_LIMIT_BYTES : Z := 1073741824.

Definition build_get_blocks_request (start end_ in_flight : Z) (irreversible : bool) : bytes :=
  [x01] ++ le_bytes 4 start ++ le_bytes 4 (Z.min (end_ + 1) u32_max) ++ le_bytes 4 in_flight ++
  [x00; flag irreversible; x00; x00; x01].

Definition build_ack (num : Z) : bytes := [x02] ++ le_bytes 4 num.

(** The loop of [scan_range], past the handshake: the messages the stream yields until it ends.
    [docs] is what is sent to the output, a document per ABI found. *)
Record scan := mkScan { sc_processed : Z; sc_docs : list (string * Z * bytes); sc_acks : Z; sc_done : bool }.

Section Scanner.
Context (name_to_string : Z -> option string) (end_ : Z).

(** The row callback: a found ABI is a document of this block. *)
Definition scan_row (block_num : Z) (row : bytes) : M walk_error (list (string * Z * bytes)) () :=
  let! found := slift (account_setabi name_to_string row) in
  match found with
  | Some (name, abi) => fun docs => (Ok (), docs ++ [(name, block_num, abi)])
  | None => sret ()
  end.

(** One message: an ack for each, a result or not; a walk that fails keeps what it found. *)
Definition scan_message (bin : bytes) (s : scan) : scan :=
  match parse_result bin with
  | None => mkScan (sc_processed s) (sc_docs s) (sc_acks s + 1) (sc_done s)
  | Some (block_num, deltas) =>
      let docs :=
        if bool_decide (deltas = []) then []
        else (for_each_account_row (scan_row block_num) deltas []).2 in
      mkScan (add32 (sc_processed s) 1) (sc_docs s ++ docs) (sc_acks s + 1) (end_ <=? block_num)
  end.

(** [None]: the stream ended before the range did. *)
Fixpoint scan_loop (msgs : list bytes) (s : scan) : option scan :=
  if sc_done s then Some s else
  match msgs with
  | [] => None
  | bin :: msgs => scan_loop msgs (scan_message bin s)
  end.

Definition scan_range (msgs : list bytes) : option (Z * list (string * Z * bytes)) :=
  s ← scan_loop msgs (mkScan 0 [] 0 false);
  if (0 <? sc_processed s) && sc_done s then Some (sc_processed s, sc_docs s) else None.
End Scanner.

(** ** A client and its server

    The client of [scan_range] over one connection. The server is Spring's rule ([Spring.v]); [reply] are the messages
    that answer its jobs. A message and an ack travel in order, each for as long as it likes. *)
Section Joint.
Context (name_to_string : Z -> option string) (last end_ : Z) (reply : Job -> bytes).

(** The server, the results it has sent, how many of them the client has read, the client, and how many of its acks
    the server has read. *)
Record joint := mkJoint { jt_spring : Spring.SpringState; jt_sent : list Job; jt_read : nat; jt_client : scan; jt_acks : Z }.

Inductive joint_act := JSend | JRead | JAck.

(** The server sends a result; the client reads one and acks it; the server reads an ack. *)
Definition joint_step (a : joint_act) (x : joint) : option joint :=
  match a with
  | JSend =>
      '(st, out) ← Spring.step last Spring.EvTake (jt_spring x);
      match Spring.results out with
      | [] => None
      | js => Some (mkJoint st (jt_sent x ++ js) (jt_read x) (jt_client x) (jt_acks x))
      end
  | JRead =>
      if sc_done (jt_client x) then None else
      j ← jt_sent x !! jt_read x;
      Some (mkJoint (jt_spring x) (jt_sent x) (S (jt_read x)) (scan_message name_to_string end_ (reply j) (jt_client x)) (jt_acks x))
  | JAck =>
      if jt_acks x <? sc_acks (jt_client x) then
        match decode_request (build_ack 1) with
        | Ok (ReqAck n) =>
            '(st, _) ← Spring.step last (Spring.EvAck n) (jt_spring x);
            Some (mkJoint st (jt_sent x) (jt_read x) (jt_client x) (jt_acks x + 1))
        | _ => None
        end
      else None
  end.

Fixpoint joint_run (acts : list joint_act) (x : joint) : option joint :=
  match acts with
  | [] => Some x
  | a :: acts => x ← joint_step a x; joint_run acts x
  end.

(** The server has read the request. *)
Definition joint_start (start in_flight : Z) (irreversible : bool) (s0 : Spring.SpringState) : option joint :=
  match decode_request (build_get_blocks_request start end_ in_flight irreversible) with
  | Ok (ReqBlocks r) => Some (mkJoint (Spring.blocks r s0) [] 0 (mkScan 0 [] 0 false) 0)
  | _ => None
  end.
End Joint.

(** The split of [run_ship_with_provider]: the chunk of each connection. *)
Fixpoint chunks (n : nat) (i start end_ per : Z) : list (Z * Z) :=
  match n with
  | O => []
  | Datatypes.S n =>
      let c_start := add32 start (wrap32 (i * per)) in
      if end_ <? c_start then []
      else (c_start, Z.min (wrap32 (c_start + per - 1)) end_) :: chunks n (i + 1) start end_ per
  end.

Definition scan_chunks (start end_ in_flight connections : Z) : option (list (Z * Z)) :=
  if (0 <? start) && (start <=? end_) && (end_ <? u32_max) && (0 <? in_flight) then
    let conns := Z.max connections 1 in
    let total := end_ - start + 1 in
    let per := (total + conns - 1) / conns in
    Some (chunks (Z.to_nat conns) 0 start end_ per)
  else None.

(** ** Reading a varuint *)

Lemma read_varuint_loop_spec n k buf value i x s :
  (k + n = 6)%nat -> 0 <= value < 2 ^ (7 * Z.of_nat k) -> from buf i = Some (x ++ s) -> leb_ended x = true ->
  (length x <= n)%nat ->
  read_varuint_loop (shifts_from k n) buf value i = Some (value + 2 ^ (7 * Z.of_nat k) * leb_val x, i + blen x).
Proof.
  revert k value i x; induction n as [|n IH]; intros k value i x Hk Hv Hf Hx Hn; [by destruct x; simpl in *; [|lia]|].
  destruct x as [|b x]; [done|]. cbn [shifts_from read_varuint_loop].
  unfold from in Hf. destruct (_ && _) eqn:Hb; [|done]. bools. injection Hf as Hf.
  assert (Hbyte : byte_at buf i = Some b).
  { unfold byte_at. rewrite (proj2 (Z.leb_le _ _)) by lia. by rewrite <- (Nat.add_0_r (Z.to_nat i)), <- lookup_drop, Hf. }
  rewrite Hbyte. cbn [mbind option_bind]. destruct (group_step b k value Hv) as [Hv' E7].
  rewrite (lor_group64 b k value ltac:(lia) Hv). rewrite blen_cons. cbn [leb_val leb_ended] in *. destruct x as [|c x].
  - bools. destruct (group_last b Hx) as [_ ->]. cbn [leb_val]. change (blen []) with 0. do 2 f_equal; lia.
  - apply andb_true_iff in Hx as [Hb128 Hx]. bools. destruct (group_more b Hb128) as [_ ->].
    rewrite (IH (Datatypes.S k) _ (i + 1) (c :: x)); [|lia|exact Hv'| |done|simpl in *; lia].
    + do 2 f_equal; [|lia]. rewrite E7. lia.
    + unfold from. assert (Hlen : i + 1 <= blen buf).
      { apply (f_equal length) in Hf. rewrite length_drop in Hf. simpl in Hf. unfold blen. lia. }
      rewrite (proj2 (Z.leb_le 0 _)), (proj2 (Z.leb_le _ _)) by lia. cbn [andb]. f_equal.
      rewrite Z2Nat.inj_add, <- drop_drop, Hf by lia. done.
Qed.

Lemma read_varuint_spec x s :
  leb_ended x = true -> blen x <= 6 -> read_varuint (x ++ s) = Some (leb_val x, blen x).
Proof.
  intros Hx Hl. pose proof (read_varuint_loop_spec 6 0 (x ++ s) 0 0 x s) as H.
  change (shifts_from 0 6) with [0; 7; 14; 21; 28; 35] in H. unfold read_varuint. rewrite H; [|done|done| |done|].
  - change (2 ^ (7 * Z.of_nat 0)) with 1. do 2 f_equal; lia.
  - unfold from. by rewrite (proj2 (Z.leb_le 0 (blen (x ++ s)))) by apply blen_nonneg.
  - unfold blen in Hl. lia.
Qed.

(** What the server writes as a length, the client reads. *)
Lemma read_varuint_varuint v s : 0 <= v < 2 ^ 42 -> read_varuint (varuint v ++ s) = Some (v, blen (varuint v)).
Proof.
  intros Hv. change (2 ^ 42) with 4398046511104 in Hv. destruct (varuint_spec v) as (Hval & Hend & _ & Hlen); [width_lia|].
  rewrite read_varuint_spec; [by rewrite Hval|done|]. apply (Hlen 6%nat); [lia|].
  change (128 ^ Z.of_nat 6) with 4398046511104. lia.
Qed.

(** ** Reading a result at an offset *)

Definition at_ (bin : bytes) (off : Z) (t : bytes) : Prop := from bin off = Some t.

Lemma at_split bin off t : at_ bin off t <-> 0 <= off /\ exists p, bin = p ++ t /\ blen p = off.
Proof.
  unfold at_, from. split.
  - destruct (_ && _) eqn:Hb; [|done]. bools. intros [= <-]. split; [done|].
    exists (take (Z.to_nat off) bin). split; [by rewrite take_drop|]. apply blen_take. lia.
  - intros [H0 (p & -> & <-)]. rewrite blen_app. pose proof (blen_nonneg t).
    rewrite (proj2 (Z.leb_le 0 _)), (proj2 (Z.leb_le _ _)) by lia. cbn [andb]. f_equal. unfold blen.
    by rewrite Nat2Z.id, drop_app_length.
Qed.

Lemma at_skip bin off x t : at_ bin off (x ++ t) -> at_ bin (off + blen x) t.
Proof.
  rewrite !at_split. intros [H0 (p & -> & <-)]. split; [pose proof (blen_nonneg x); lia|].
  exists (p ++ x). rewrite <- app_assoc, blen_app. done.
Qed.

Lemma at_byte bin off b t : at_ bin off (b :: t) -> byte_at bin off = Some b /\ at_ bin (off + 1) t.
Proof.
  intros H. split; [|by apply (at_skip bin off [b])]. apply at_split in H as [H0 (p & -> & <-)].
  unfold byte_at. rewrite (proj2 (Z.leb_le _ _)) by done. unfold blen. rewrite Nat2Z.id, lookup_app_r by done.
  by rewrite Nat.sub_diag.
Qed.

Lemma at_slice bin off x t : at_ bin off (x ++ t) -> slice bin off (blen x) = Some x.
Proof. intros H. apply at_split in H as [H0 (p & -> & <-)]. by apply slice_mid. Qed.

(** An optional length-prefixed field. *)
Definition opt_bytes (o : option bytes) : bytes :=
  match o with Some y => x01 :: varuint (blen y) ++ y | None => [x00] end.

Lemma skip_optional_spec bin off o t :
  at_ bin off (opt_bytes o ++ t) -> from_option blen 0 o < 2 ^ 42 ->
  exists off', skip_optional bin off = Some off' /\ at_ bin off' t.
Proof.
  intros H Hl. unfold skip_optional. destruct o as [y|]; simpl in *.
  - apply at_byte in H as [-> H]. simpl. rewrite <- app_assoc in H.
    pose proof (blen_nonneg y). unfold at_ in H. rewrite H. cbn [mbind option_bind].
    rewrite read_varuint_varuint by done. cbn [mbind option_bind]. eexists. split; [done|].
    rewrite Z.add_assoc. by apply at_skip, at_skip.
  - apply at_byte in H as [-> H]. simpl. by eexists.
Qed.

Lemma parse_result_None head lib rest :
  blen head = 36 -> blen lib = 36 -> parse_result (x01 :: head ++ lib ++ x00 :: rest) = None.
Proof.
  intros Hh Hl. unfold parse_result. simpl negb.
  assert (H : at_ (x01 :: head ++ lib ++ x00 :: rest) (1 + 36 + 36) (x00 :: rest)).
  { apply at_split. split; [done|]. exists (x01 :: head ++ lib). rewrite blen_cons, blen_app, Hh, Hl.
    split; [|done]. simpl. by rewrite <- app_assoc. }
  apply at_byte in H as [-> _]. done.
Qed.

Lemma parse_result_Some hd lib t prev block traces deltas :
  blen hd = 36 -> blen lib = 36 -> pos_ok t -> (forall p, prev = Some p -> blen (bp_id p) = 32) ->
  from_option blen 0 block < 2 ^ 42 -> from_option blen 0 traces < 2 ^ 42 -> from_option blen 0 deltas < 2 ^ 42 ->
  parse_result (x01 :: hd ++ lib ++ opt_pos_bytes (Some t) ++ opt_pos_bytes prev ++
    opt_bytes block ++ opt_bytes traces ++ opt_bytes deltas) = Some (bp_num t, default [] deltas).
Proof.
  intros Hh Hl [Hn Ht] Hp Hb Htr Hd. set (bin := x01 :: _). unfold parse_result.
  assert (H : at_ bin (1 + 36 + 36) (opt_pos_bytes (Some t) ++ opt_pos_bytes prev ++
    opt_bytes block ++ opt_bytes traces ++ opt_bytes deltas)).
  { apply at_split. split; [done|]. exists (x01 :: hd ++ lib). rewrite blen_cons, blen_app, Hh, Hl.
    split; [|done]. unfold bin. simpl. by rewrite <- app_assoc. }
  assert (Hfirst : negb (bool_decide (b2z <$> head bin = Some 1)) = false) by done.
  rewrite Hfirst. clearbody bin. clear Hfirst. cbn [opt_pos_bytes app] in H. unfold pos_bytes in H.
  apply at_byte in H as [-> H]. cbn [mbind option_bind]. rewrite (proj2 (Z.eqb_eq _ _)) by done. cbv zeta.
  rewrite <- !app_assoc in H. pose proof (at_slice _ _ _ _ H) as Hs. rewrite blen_le_bytes in Hs.
  change (Z.of_nat 4) with 4 in Hs. rewrite Hs.
  cbn [mbind option_bind]. rewrite le_of_le_bytes_id by exact Hn. apply at_skip, at_skip in H.
  rewrite blen_le_bytes, Ht in H. set (off := 1 + 36 + 36 + 1) in *.
  replace (off + Z.of_nat 4 + 32) with (off + 36) in H by lia.
  assert (Hprev : exists pp, byte_at bin (off + 36) = Some pp /\
    at_ bin (if b2z pp =? 1 then off + 36 + 1 + 36 else off + 36 + 1)
      (opt_bytes block ++ opt_bytes traces ++ opt_bytes deltas)).
  { destruct prev as [p|]; cbn [opt_pos_bytes app] in H; apply at_byte in H as [Hpp H]; eexists; (split; [done|]); [|done].
    change (b2z x01 =? 1) with true. cbn iota. unfold pos_bytes in H. apply at_skip in H.
    rewrite blen_app, blen_le_bytes, (Hp p eq_refl) in H. exact H. }
  destruct Hprev as (pp & -> & Hat). cbn [mbind option_bind]. set (off2 := if b2z pp =? 1 then _ else _) in *.
  destruct (skip_optional_spec _ _ _ _ Hat Hb) as (off3 & -> & Hat3). cbn [mbind option_bind].
  destruct (skip_optional_spec _ _ _ _ Hat3 Htr) as (off4 & -> & Hat4). cbn [mbind option_bind].
  destruct deltas as [y|]; cbn [opt_bytes] in Hat4; apply at_byte in Hat4 as [-> Hat5]; cbn [mbind option_bind]; [|done].
  change (b2z x01 =? 1) with true. cbn iota. pose proof Hat5 as Hv. unfold at_ in Hv. rewrite Hv. cbn [mbind option_bind].
  pose proof (blen_nonneg y). simpl in Hd. rewrite read_varuint_varuint by done. cbn [mbind option_bind].
  apply at_skip in Hat5. rewrite <- (app_nil_r y) in Hat5 at 2. by rewrite (at_slice _ _ _ _ Hat5).
Qed.

(** ** The deltas of a block

    [table_delta[]] as nodeos packs it: a count, then for each table its variant, its name and its
    rows, each a presence byte and length-prefixed data. *)
Definition row_bytes (row : byte * bytes) : bytes := row.1 :: varuint (blen row.2) ++ row.2.

Definition table_bytes (table : bytes * list (byte * bytes)) : bytes :=
  varuint 0 ++ varuint (blen table.1) ++ table.1 ++ varuint (blen table.2) ++ concat (row_bytes <$> table.2).

Definition deltas_bytes (tables : list (bytes * list (byte * bytes))) : bytes :=
  varuint (blen tables) ++ concat (table_bytes <$> tables).

(** The rows handed to the callback, in order, until one fails. *)
Fixpoint visit {S} (f : bytes -> M walk_error S ()) (rows : list bytes) : M walk_error S () :=
  match rows with
  | [] => sret ()
  | row :: rows => do! f row ;; visit f rows
  end.

Definition table_ok (table : bytes * list (byte * bytes)) : Prop :=
  blen table.1 < 2 ^ 42 /\ blen table.2 < 2 ^ 42 /\ Forall (fun row => blen row.2 < 2 ^ 42) table.2.

Lemma varuint_at_spec e b off v t :
  0 <= v < 2 ^ 42 -> at_ b off (varuint v ++ t) ->
  varuint_at e b off = Ok (v, off + blen (varuint v)) /\ at_ b (off + blen (varuint v)) t.
Proof.
  intros Hv H. split; [|by apply at_skip]. unfold varuint_at, at_ in *. rewrite H. simpl.
  by rewrite read_varuint_varuint.
Qed.

Lemma rows_visited {S} (f : bytes -> M walk_error S ()) deltas rows off t st :
  Forall (fun row => blen row.2 < 2 ^ 42) rows -> at_ deltas off (concat (row_bytes <$> rows) ++ t) ->
  (do! for_nat (length rows) (row_step f deltas) off ;; sret ()) st = visit f (snd <$> rows) st.
Proof.
  intros Hr. revert off st; induction Hr as [|[p data] rows Hd _ IH]; intros off st H; [done|].
  cbn [length for_nat visit fmap list_fmap snd]. cbn [fmap list_fmap concat] in H. rewrite <- app_assoc in H.
  unfold row_bytes in H at 1. cbn [fst snd app] in H. apply at_byte in H as [_ H]. rewrite <- app_assoc in H.
  pose proof (blen_nonneg data) as H0. cbn [snd] in Hd.
  destruct (varuint_at_spec BadDataLen deltas (off + 1) (blen data) _ (conj H0 Hd) H) as [Hv H1].
  pose proof (at_slice _ _ _ _ H1) as Hs. apply at_skip in H1.
  unfold row_step at 1, sbind, slift. rewrite Hv, Hs. cbn [or_err].
  destruct (f data st) as [[u|e|] st'] eqn:Hf; [|done|done]. cbn [sret].
  specialize (IH _ st' H1). unfold sbind, row_step in IH. exact IH.
Qed.

Lemma account_rows {S} (f : bytes -> M walk_error S ()) tables st :
  blen tables < 2 ^ 42 -> Forall table_ok tables ->
  for_each_account_row f (deltas_bytes tables) st =
  match tables with
  | (name, rows) :: _ =>
      if bool_decide (name = String.list_byte_of_string "account") then visit f (snd <$> rows) st else (Ok (), st)
  | [] => (Ok (), st)
  end.
Proof.
  intros Hn Ht. unfold for_each_account_row, deltas_bytes. set (b := varuint (blen tables) ++ _).
  assert (H : at_ b 0 (varuint (blen tables) ++ concat (table_bytes <$> tables))).
  { apply at_split. split; [done|]. by exists []. }
  clearbody b. pose proof (blen_nonneg tables) as H0.
  destruct (varuint_at_spec BadTableCount b 0 _ _ (conj H0 Hn) H) as [Hv H1].
  unfold sbind, slift. rewrite Hv. clear H Hv. set (off := 0 + _) in *. clearbody off.
  destruct tables as [|[name rows] tables]; [done|].
  rewrite blen_cons. pose proof (blen_nonneg tables) as Hl0. rewrite (proj2 (Z.eqb_neq _ _)) by lia.
  apply Forall_cons_1 in Ht as [(Hname & Hrows & Hdata) _]. cbn [fst snd] in *.
  cbn [fmap list_fmap concat] in H1. unfold table_bytes in H1 at 1. cbn [fst snd] in H1. rewrite <- !app_assoc in H1.
  destruct (varuint_at_spec BadVariant b off 0 _ (conj (Z.le_refl 0) eq_refl) H1) as [-> Hx2].
  pose proof (blen_nonneg name) as Hn0.
  destruct (varuint_at_spec BadNameLen b _ _ _ (conj Hn0 Hname) Hx2) as [-> Hx3].
  rewrite (at_slice _ _ _ _ Hx3). cbn [or_err]. apply at_skip in Hx3. pose proof (blen_nonneg rows) as Hr0.
  destruct (varuint_at_spec BadRowsCount b _ _ _ (conj Hr0 Hrows) Hx3) as [-> Hx4].
  destruct (bool_decide _); [|done]. cbn [negb]. rewrite for_count_nat.
  replace (Z.to_nat (blen rows)) with (length rows) by (unfold blen; lia).
  pose proof (rows_visited f b rows _ _ st Hdata Hx4) as Hvis. unfold sbind in Hvis. exact Hvis.
Qed.

(** An [account] row as nodeos packs it. *)
Definition account_row (a : Z * Z * bytes) : bytes :=
  let '(name, date, abi) := a in
  varuint 0 ++ le_bytes 8 name ++ le_bytes 4 date ++ varuint (blen abi) ++ abi.

Lemma account_setabi_row names name date abi str :
  is_u64 name -> blen abi < 2 ^ 42 -> names name = Some str ->
  account_setabi names (account_row (name, date, abi)) =
  Ok (if bool_decide (abi = []) then None else Some (str, abi)).
Proof.
  intros Hn Ha Hs. unfold account_row. set (row := varuint 0 ++ _).
  assert (H : at_ row 0 (varuint 0 ++ le_bytes 8 name ++ le_bytes 4 date ++ varuint (blen abi) ++ abi)).
  { apply at_split. split; [done|]. by exists []. }
  pose proof (blen_nonneg abi) as H0. pose proof (blen_nonneg (varuint (blen abi))) as H1.
  assert (Hlen : blen row = 1 + 8 + 4 + blen (varuint (blen abi)) + blen abi).
  { unfold row. autorewrite with blen. change (blen (varuint 0)) with 1. lia. }
  assert (Hv : read_varuint row = Some (0, 1)) by done.
  clearbody row. unfold account_setabi. rewrite Hv. cbn [or_err rbind].
  destruct (Z.ltb_spec (blen row) (1 + 12)); [lia|]. apply at_skip in H. change (0 + blen (varuint 0)) with 1 in H.
  pose proof (at_slice _ _ _ _ H) as Hsl. rewrite blen_le_bytes in Hsl. change (Z.of_nat 8) with 8 in Hsl. rewrite Hsl.
  cbn [or_panic rbind]. apply at_skip, at_skip in H. rewrite !blen_le_bytes in H.
  change (1 + Z.of_nat 8 + Z.of_nat 4) with (1 + 8 + 4) in H. pose proof H as Hf. unfold at_ in Hf. rewrite Hf.
  cbn [or_panic rbind]. rewrite read_varuint_varuint by done. cbn [or_err rbind].
  destruct abi as [|x abi]; [done|]. rewrite bool_decide_eq_false_2 by done. rewrite (proj2 (Z.eqb_neq _ _)).
  2: { rewrite blen_cons. pose proof (blen_nonneg abi). lia. }
  apply at_skip in H. rewrite <- (app_nil_r (x :: abi)) in H at 2. rewrite (at_slice _ _ _ _ H). cbn [or_err rbind].
  rewrite le_of_le_bytes_id by exact Hn. by rewrite Hs.
Qed.

(** The documents of a block's accounts: those that set an ABI. *)
Definition account_docs (names : Z -> option string) (block_num : Z) (a : Z * Z * bytes) : list (string * Z * bytes) :=
  let '(name, _, abi) := a in
  if bool_decide (abi = []) then [] else (fun str => (str, block_num, abi)) <$> option_list (names name).

Lemma scan_rows names block_num accounts docs :
  Forall (fun a => is_u64 a.1.1 /\ blen a.2 < 2 ^ 42 /\ is_Some (names a.1.1)) accounts ->
  visit (scan_row names block_num) (account_row <$> accounts) docs =
  (Ok (), docs ++ concat (account_docs names block_num <$> accounts)).
Proof.
  intros H. revert docs. induction H as [|[[name date] abi] accounts (Hn & Ha & [str Hs]) _ IH]; intros docs.
  { cbn. by rewrite app_nil_r. }
  rewrite !fmap_cons. cbn [visit concat]. unfold sbind at 1, scan_row at 1, sbind at 1, slift.
  cbn [fst snd] in *. rewrite (account_setabi_row names name date abi str) by done. unfold account_docs at 1.
  destruct (bool_decide (abi = [])); cbn [sret]; rewrite IH; [done|]. rewrite Hs. simpl. by rewrite <- app_assoc.
Qed.

(** ** No input makes the walk panic *)

Lemma varuint_at_no_panic e b off : no_panic (varuint_at e b off).
Proof. unfold varuint_at. by destruct (read_varuint _) as [[]|]. Qed.

Lemma read_varuint_loop_past shifts buf value i v k : read_varuint_loop shifts buf value i = Some (v, k) -> i < k.
Proof.
  revert value i; induction shifts as [|sh shifts IH]; intros value i H; [done|]. cbn [read_varuint_loop] in H.
  apply bind_Some in H as (c & _ & H). destruct (_ =? _); [injection H as _ <-; lia|]. apply IH in H. lia.
Qed.

Lemma account_setabi_no_panic names row : no_panic (account_setabi names row).
Proof.
  unfold account_setabi. destruct (read_varuint row) as [[v k]|] eqn:Hk; [|done]. cbn [or_err rbind].
  assert (Hk0 : 0 < k) by exact (read_varuint_loop_past _ _ _ _ _ _ Hk).
  destruct (Z.ltb_spec (blen row) (k + 12)) as [|Hge]; [done|].
  destruct (slice_is_Some row k 8) as [x ->]; [lia..|]. cbn [or_panic rbind].
  unfold from. rewrite (proj2 (Z.leb_le 0 _)), (proj2 (Z.leb_le _ _)) by lia. cbn [andb or_panic rbind].
  clear Hk. destruct (read_varuint _) as [[n k']|]; [|done]. cbn [or_err rbind]. destruct (n =? 0); [done|].
  destruct (slice _ _ _); [|done]. cbn [or_err rbind]. by destruct (names _).
Qed.

Lemma walk_no_panic names block_num deltas docs :
  is_panic (for_each_account_row (scan_row names block_num) deltas docs).1 = false.
Proof.
  assert (Hrow : forall row docs, is_panic (scan_row names block_num row docs).1 = false).
  { intros row d. unfold scan_row, sbind, slift. pose proof (account_setabi_no_panic names row) as H. unfold no_panic in H.
    by destruct (account_setabi names row) as [[[str abi]|]|e|]. }
  assert (Hfor : forall n off docs, is_panic (for_nat n (row_step (scan_row names block_num) deltas) off docs).1 = false).
  { intros n. induction n as [|n IH]; intros off d; [done|]. cbn [for_nat]. unfold sbind at 1, row_step, sbind, slift.
    pose proof (varuint_at_no_panic BadDataLen deltas (off + 1)) as H.
    destruct (varuint_at _ _ _) as [[len off']|e|]; [|done|done]. destruct (slice _ _ _) as [data|]; [|done]. cbn [or_err].
    pose proof (Hrow data d) as Hr. destruct (scan_row names block_num data d) as [[u|e|] d']; [|done|done]. apply IH. }
  unfold for_each_account_row, sbind, slift.
  destruct (varuint_at BadTableCount _ _) as [[n off]|e|] eqn:H1; [|done|by pose proof (varuint_at_no_panic BadTableCount deltas 0); rewrite H1 in *].
  destruct (n =? 0); [done|].
  pose proof (varuint_at_no_panic BadVariant deltas off) as H2. destruct (varuint_at BadVariant _ _) as [[v off2]|e|]; [|done|done].
  pose proof (varuint_at_no_panic BadNameLen deltas off2) as H3. destruct (varuint_at BadNameLen _ _) as [[len off3]|e|]; [|done|done].
  destruct (slice _ _ _) as [name|]; [|done]. cbn [or_err].
  pose proof (varuint_at_no_panic BadRowsCount deltas (off3 + len)) as H4.
  destruct (varuint_at BadRowsCount _ _) as [[rows off4]|e|]; [|done|done].
  destruct (negb _); [done|]. rewrite for_count_nat. pose proof (Hfor (Z.to_nat rows) off4 docs) as Hf.
  by destruct (for_nat _ _ _ _) as [[u|e|] d].
Qed.

(** ** The results of a session *)
Section Results.
Context (w : world) `{!FileSource w} (sha256 : bytes -> bytes) (s : Store).
Context `{F : Flate} (zlib : bytes -> option bytes) `{L : !FlateLaws F zlib} (can_reserve : Z -> bool).
Context (limits : FetchLimits).
Hypothesis Hs : store_ok w sha256 s.
Hypothesis Ht : 0 <= stream_threshold limits < u64_max.

(** A field on the wire, as an option. *)
Lemma field_opt p y : part_bytes w zlib p y -> exists o, field_bytes p y = opt_bytes o /\ default [] o = y.
Proof.
  intros Hp. destruct p as [|data|st]; simpl in Hp.
  - subst. by exists None.
  - subst. exists (Some (v_data data)). split; [|done]. unfold field_bytes. simpl. rewrite put_varuint_app. done.
  - destruct Hp as (n & pos & file & d & _ & _ & _ & _ & _ & Hl). exists (Some y). split; [|done].
    unfold field_bytes. simpl. rewrite Hl, put_varuint_app. done.
Qed.

Lemma message_layout j pkg ys :
  build w sha256 can_reserve s j limits = Ok pkg -> j_v1 j = false ->
  Forall2 (part_bytes w zlib) (pk_parts pkg) ys -> blen (message_bytes pkg ys) <= FRAME_LIMIT_BYTES ->
  exists p o0 o1, (plan w sha256 s j None).1 = Ok p /\ planned w sha256 s j p /\
    ys = [default [] o0; default [] o1] /\
    message_bytes pkg ys = x01 :: pos_bytes (s_last s) ++ pos_bytes (s_last s) ++ opt_pos_bytes (pl_this p) ++
      opt_pos_bytes (pl_prev p) ++ opt_bytes (pk_block pkg) ++ opt_bytes o0 ++ opt_bytes o1.
Proof.
  intros Hb Hv Hys Hlen. unfold build in Hb. bind Hb as p Hp. destruct (plan w sha256 s j None) as [r st] eqn:Hpl.
  simpl in Hp. subst r. pose proof (plan_spec w sha256 s Hs j p st Hpl) as P.
  pose proof (read_spec w sha256 s zlib can_reserve Hs limits j p pkg Ht P Hb) as K.
  pose proof (pk_parts_ok _ _ _ _ _ _ _ K) as Hn. apply Forall2_length in Hn. rewrite (pd_count _ _ _ _ _ P), Hv in Hn.
  pose proof (pk_wire _ _ _ _ _ _ _ K) as Hw. pose proof (pk_same_job _ _ _ _ _ _ _ K) as Hj.
  rewrite (pd_job _ _ _ _ _ P) in Hj.
  destruct (pk_parts pkg) as [|p0 [|p1 [|? ?]]] eqn:Hparts; try done.
  apply Forall2_cons_inv_l in Hys as (y0 & ys1 & H0 & Hys1 & ->).
  apply Forall2_cons_inv_l in Hys1 as (y1 & ys2 & H1 & Hys2 & ->). apply Forall2_nil_inv_l in Hys2 as ->.
  destruct (field_opt p0 y0 H0) as (o0 & E0 & <-). destruct (field_opt p1 y1 H1) as (o1 & E1 & <-).
  exists p, o0, o1. split; [done|]. split; [done|]. split; [done|].
  unfold message_bytes in *. rewrite Hparts, Hj, Hv in *. simpl zip_with in *. cbn [concat] in *.
  rewrite E0, E1, app_nil_r in *. change (z2b (result_variant false)) with x01 in *.
  rewrite encode_result_base_app in Hw.
  - apply Ok_inj in Hw. f_equal. rewrite (app_assoc (pk_base pkg)), <- Hw, <- !app_assoc. done.
  - destruct (pk_block pkg) as [b|]; [|done]. unfold FRAME_LIMIT_BYTES in Hlen. simpl in Hlen.
    autorewrite with blen in Hlen. pose proof (blen_nonneg (pk_base pkg)). pose proof (blen_nonneg (opt_bytes o0)).
    pose proof (blen_nonneg (opt_bytes o1)). width_lia.
Qed.

Lemma opt_bytes_le o : from_option blen 0 o <= blen (opt_bytes o).
Proof.
  destruct o as [y|]; simpl; [|done]. rewrite blen_cons, blen_app. pose proof (blen_nonneg (varuint (blen y))). lia.
Qed.

Lemma scan_reads j pkg ys :
  build w sha256 can_reserve s j limits = Ok pkg -> j_v1 j = false -> is_u32 (j_n j) ->
  Forall2 (part_bytes w zlib) (pk_parts pkg) ys -> blen (message_bytes pkg ys) <= FRAME_LIMIT_BYTES ->
  exists p y0 y1, (plan w sha256 s j None).1 = Ok p /\ ys = [y0; y1] /\
    parse_result (message_bytes pkg ys) = match pl_this p with Some _ => Some (j_n j, y1) | None => None end.
Proof.
  intros Hb Hv Hu Hys Hlen. destruct (message_layout j pkg ys Hb Hv Hys Hlen) as (p & o0 & o1 & Hp & P & Ey & Em).
  exists p, (default [] o0), (default [] o1). split; [done|]. split; [done|]. rewrite Em in *.
  pose proof (blen_pos_bytes _ (so_last _ _ _ Hs)) as Hpos.
  destruct (pl_this p) as [t|] eqn:Ethis.
  - destruct (pd_this _ _ _ _ _ P t Ethis) as [Hn Hid]. rewrite <- Hn in *.
    autorewrite with blen in Hlen. unfold FRAME_LIMIT_BYTES in Hlen. change (2 ^ 42) with 4398046511104.
    pose proof (opt_bytes_le (pk_block pkg)). pose proof (opt_bytes_le o0). pose proof (opt_bytes_le o1).
    pose proof (blen_nonneg (opt_bytes (pk_block pkg))). pose proof (blen_nonneg (opt_bytes o0)).
    pose proof (blen_nonneg (opt_bytes o1)). pose proof (blen_nonneg (opt_pos_bytes (Some t))).
    pose proof (blen_nonneg (opt_pos_bytes (pl_prev p))).
    apply parse_result_Some; try done; try (change (2 ^ 42) with 4398046511104; lia).
    intros q Hq. by apply (pd_prev _ _ _ _ _ P) in Hq as (_ & _ & ?).
  - by apply parse_result_None.
Qed.
End Results.

(** ** The requests of the client *)

(** The request the server decodes. *)
Definition scan_request (start end_ in_flight : Z) (irreversible : bool) : BlocksReq :=
  mkReq false start (end_ + 1) in_flight [] irreversible false false true false.

Lemma request_decodes start end_ in_flight irr :
  is_u32 start -> is_u32 end_ -> end_ < u32_max -> is_u32 in_flight ->
  decode_request (build_get_blocks_request start end_ in_flight irr) =
    Ok (ReqBlocks (scan_request start end_ in_flight irr)).
Proof.
  intros H1 H2 H3 H4. set (r := ReqBlocks (scan_request start end_ in_flight irr)).
  assert (Hok : request_ok r).
  { unfold is_u32 in *. repeat split; simpl; try done; try width_lia. }
  assert (E : build_get_blocks_request start end_ in_flight irr = encode_request r ++ []).
  { rewrite app_nil_r. unfold r. rewrite encode_request_blocks. unfold build_get_blocks_request, blocks_bytes.
    rewrite Z.min_l by width_lia. done. }
  assert (Hl : blen (build_get_blocks_request start end_ in_flight irr) < U64).
  { unfold build_get_blocks_request. rewrite !blen_app, !blen_le_bytes. reflexivity. }
  rewrite E in *. unfold decode_request. rewrite (request_parses r Hok _ []); [done| |done].
  split; [|done]. split; [done|]. apply blen_nonneg.
Qed.

Lemma ack_decodes n : is_u32 n -> decode_request (build_ack n) = Ok (ReqAck n).
Proof.
  intros Hn. assert (E : build_ack n = encode_request (ReqAck n) ++ []) by (by rewrite app_nil_r).
  assert (Hl : blen (build_ack n) < U64) by (unfold build_ack; rewrite blen_app, blen_le_bytes; reflexivity).
  rewrite E in *. unfold decode_request. rewrite (request_parses (ReqAck n) Hn _ []); [done| |done].
  split; [|done]. split; [done|]. apply blen_nonneg.
Qed.

(** ** The chunks of a scan *)

(** The blocks of the chunks, in order. *)
Definition chunk_blocks (cs : list (Z * Z)) : list Z := concat ((fun c => seqZ c.1 (c.2 - c.1 + 1)) <$> cs).

Lemma chunks_cover n i start end_ per :
  0 < per -> 0 <= i -> 0 <= start -> end_ + per < U32 -> start + i * per <= end_ + per ->
  end_ < start + (i + Z.of_nat n) * per ->
  let cs := chunks n i start end_ per in
  chunk_blocks cs = seqZ (start + i * per) (end_ - (start + i * per) + 1) /\ (length cs <= n)%nat /\
  Forall (fun c => start <= c.1 <= c.2 /\ c.2 <= end_) cs.
Proof.
  intros Hp Hi Hs0 He. revert i Hi; induction n as [|n IH]; intros i Hi Hle Hn; cbn [chunks].
  { split; [|split; [done|constructor]]. unfold chunk_blocks. simpl. rewrite seqZ_nil; [done|nia]. }
  assert (E : add32 start (wrap32 (i * per)) = start + i * per).
  { assert (0 <= i * per) by nia. unfold add32, wrap32. rewrite (Z.mod_small (i * per)), Z.mod_small by lia. done. }
  rewrite E. destruct (Z.ltb_spec end_ (start + i * per)) as [Hlt|Hge].
  { split; [|split; [simpl; lia|constructor]]. unfold chunk_blocks. simpl. by rewrite seqZ_nil by lia. }
  assert (0 <= i * per) by nia.
  assert (Ew : wrap32 (start + i * per + per - 1) = start + i * per + per - 1).
  { unfold wrap32. apply Z.mod_small. lia. }
  rewrite Ew. destruct (IH (i + 1) ltac:(lia)) as (H1 & H2 & H3); [nia|nia|].
  split; [|split; [simpl; lia|constructor; [simpl; split; lia|done]]].
  unfold chunk_blocks in *. rewrite fmap_cons. cbn [concat fst snd]. rewrite H1.
  replace (start + (i + 1) * per) with (start + i * per + per) by lia.
  destruct (Z.le_ge_cases (start + i * per + per - 1) end_) as [Hm|Hm].
  - rewrite Z.min_l by lia. replace (end_ - (start + i * per) + 1)
      with ((start + i * per + per - 1 - (start + i * per) + 1) + (end_ - (start + i * per + per) + 1)) by lia.
    symmetry. etransitivity; [apply seqZ_app; lia|].
    by replace (start + i * per + (start + i * per + per - 1 - (start + i * per) + 1))
      with (start + i * per + per) by lia.
  - rewrite Z.min_r by lia. rewrite (seqZ_nil (start + i * per + per)) by lia. by rewrite app_nil_r.
Qed.

(** ** A whole scan *)

Lemma scan_loop_blocks names end_ msgs a p docs acks :
  Forall2 (fun n m => exists y, parse_result m = Some (n, y)) (seqZ a (end_ - a + 1)) msgs ->
  a <= end_ -> 0 <= p -> p + (end_ - a + 1) < U32 ->
  exists docs' acks', scan_loop names end_ msgs (mkScan p docs acks false) =
    Some (mkScan (p + (end_ - a + 1)) docs' acks' true).
Proof.
  remember (Z.to_nat (end_ - a)) as k eqn:Hk. revert a p docs acks msgs Hk.
  induction k as [|k IH]; intros a p docs acks msgs Hk H Ha Hp Hu.
  - assert (a = end_) as -> by lia. rewrite seqZ_cons in H by lia. rewrite seqZ_nil in H by lia.
    apply Forall2_cons_inv_l in H as (m & ms & [y Hy] & H & ->). apply Forall2_nil_inv_l in H as ->.
    cbn [scan_loop sc_done]. unfold scan_message. rewrite Hy, Z.leb_refl. cbn [scan_loop sc_done].
    eexists _, _. do 2 f_equal. cbn [sc_processed]. unfold add32, wrap32. rewrite Z.mod_small; lia.
  - rewrite seqZ_cons in H by lia. apply Forall2_cons_inv_l in H as (m & ms & [y Hy] & H & ->).
    cbn [scan_loop sc_done]. unfold scan_message. rewrite Hy. cbn [sc_processed sc_docs sc_acks sc_done].
    destruct (Z.leb_spec end_ a); [lia|].
    assert (E : add32 p 1 = p + 1) by (unfold add32, wrap32; rewrite Z.mod_small; lia). rewrite E.
    replace (p + (end_ - a + 1)) with (p + 1 + (end_ - (a + 1) + 1)) by lia.
    apply IH; [lia| |lia|lia|lia]. replace (end_ - (a + 1) + 1) with (Z.pred (end_ - a + 1)) by lia. exact H.
Qed.

(** ** A scan as a whole *)

Lemma take_results last st st' out :
  Spring.step last Spring.EvTake st = Some (st', out) ->
  Spring.results out = match Spring.sendable last st with Some j => [j] | None => [] end.
Proof.
  cbn [Spring.step]. unfold Spring.take. destruct (Spring.sendable last st) as [j|]; intros [= <- <-];
    rewrite Spring.results_app, Spring.results_statuses; done.
Qed.

Lemma seqZ_max a n : seqZ a (Z.max 0 n) = seqZ a n.
Proof. unfold seqZ. do 2 f_equal. lia. Qed.

Section Joining.
Context (names : Z -> option string) (last end_ : Z) (reply : Job -> bytes) (s0 : Spring.SpringState) (r : BlocksReq).
Hypothesis Hr : Spring.req_ok r.

(** The client after reading these results. *)
Definition client_after (js : list Job) : scan := foldl (fun c j => scan_message names end_ (reply j) c) (mkScan 0 [] 0 false) js.

Lemma client_after_snoc js j : client_after (js ++ [j]) = scan_message names end_ (reply j) (client_after js).
Proof. unfold client_after. by rewrite foldl_app. Qed.

Lemma client_acks js : sc_acks (client_after js) = blen js.
Proof.
  induction js as [|j js IH] using rev_ind; [done|]. rewrite client_after_snoc, blen_app. unfold scan_message.
  destruct (parse_result _) as [[n y]|]; cbn [sc_acks]; rewrite IH; done.
Qed.

(** A client that is done has read a result for the end of its range. *)
Lemma client_done js : sc_done (client_after js) = true -> exists j y, j ∈ js /\ parse_result (reply j) = Some y /\ end_ <= y.1.
Proof.
  induction js as [|j js IH] using rev_ind; [done|]. rewrite client_after_snoc. unfold scan_message.
  destruct (parse_result (reply j)) as [[n y]|] eqn:E; cbn [sc_done]; intros H.
  - exists j, (n, y). split; [set_solver|]. split; [done|]. by apply Z.leb_le.
  - destruct (IH H) as (j' & y' & Hj & H'). exists j', y'. split; [set_solver|done].
Qed.

Definition joint_inv (x : joint) : Prop :=
  exists evs out k, Spring.account last s0 r evs (jt_spring x) out k /\ Forall Spring.event_ok evs /\
    Spring.results out = jt_sent x /\ Spring.acked evs = jt_acks x /\ 0 <= jt_acks x <= Z.of_nat (jt_read x) /\
    (jt_read x <= length (jt_sent x))%nat /\ jt_client x = client_after (take (jt_read x) (jt_sent x)).

Lemma joint_inv_step a x x' :
  joint_inv x -> joint_step names last end_ reply a x = Some x' ->
  joint_inv x' /\ blen (jt_sent x') + Z.of_nat (jt_read x') + jt_acks x' = blen (jt_sent x) + Z.of_nat (jt_read x) + jt_acks x + 1.
Proof.
  intros (evs & out & k & A & He & Hres & Hack & Hle & Hrd & Hc) Hs. destruct a; cbn [joint_step] in Hs.
  - apply bind_Some in Hs as ([st o] & Hst & Hs). pose proof (take_results _ _ _ _ Hst) as Ho.
    destruct (Spring.account_step last s0 r evs (jt_spring x) out k Spring.EvTake st o) as [k' A']; [done..|].
    destruct (Spring.sendable last (jt_spring x)) as [j|]; rewrite Ho in Hs; [|done]. simplify_eq. cbn [jt_sent jt_read jt_acks].
    split; [|rewrite blen_app; change (blen [j]) with 1; lia].
    exists (evs ++ [Spring.EvTake]), (out ++ o), k'. cbn [jt_spring jt_sent jt_read jt_client jt_acks]. split_and!; try done; try lia.
    + apply Forall_app. split; [done|]. by constructor.
    + by rewrite Spring.results_app, Hres, Ho.
    + rewrite Spring.acked_app. simpl. lia.
    + rewrite length_app. lia.
    + by rewrite take_app_le.
  - destruct (sc_done (jt_client x)); [done|]. apply bind_Some in Hs as (j & Hj & Hs). simplify_eq. cbn [jt_sent jt_read jt_acks].
    split; [|lia]. exists evs, out, k. cbn [jt_spring jt_sent jt_read jt_client jt_acks]. apply lookup_lt_Some in Hj as Hlt.
    split_and!; try done; try lia. by rewrite (take_S_r _ _ _ Hj), client_after_snoc, Hc.
  - destruct (Z.ltb_spec (jt_acks x) (sc_acks (jt_client x))) as [Hlt|]; [|done].
    assert (Hd : decode_request (build_ack 1) = Ok (ReqAck 1)) by (apply ack_decodes; split; [discriminate|reflexivity]).
    rewrite Hd in Hs. apply bind_Some in Hs as ([st o] & Hst & Hs). simplify_eq. cbn [jt_sent jt_read jt_acks]. split; [|lia].
    rewrite Hc, client_acks in Hlt. unfold blen in Hlt. rewrite length_take in Hlt.
    destruct (Spring.account_step last s0 r evs (jt_spring x) out k (Spring.EvAck 1) st o) as [k' A']; [done|done|split; [discriminate|reflexivity]|done..|].
    assert (o = []) as -> by (cbn [Spring.step] in Hst; congruence).
    exists (evs ++ [Spring.EvAck 1]), out, k'. cbn [jt_spring jt_sent jt_read jt_client jt_acks]. rewrite app_nil_r in A'. split_and!; try done; try lia.
    + apply Forall_app. split; [done|]. constructor; [|done]. split; [discriminate|reflexivity].
    + rewrite Spring.acked_app, Hack. simpl. lia.
Qed.

Lemma joint_inv_run acts x x' :
  joint_inv x -> joint_run names last end_ reply acts x = Some x' ->
  joint_inv x' /\ blen (jt_sent x') + Z.of_nat (jt_read x') + jt_acks x' =
    blen (jt_sent x) + Z.of_nat (jt_read x) + jt_acks x + Z.of_nat (length acts).
Proof.
  revert x. induction acts as [|a acts IH]; intros x Hi H; cbn [joint_run] in H; [simplify_eq; split; [done|simpl; lia]|].
  apply bind_Some in H as (x1 & H1 & H). destruct (joint_inv_step a x x1 Hi H1) as [Hi1 E1].
  destruct (IH x1 Hi1 H) as [Hi' E']. split; [done|]. simpl length. lia.
Qed.

Lemma joint_inv_start : joint_inv (mkJoint (Spring.blocks r s0) [] 0 (mkScan 0 [] 0 false) 0).
Proof.
  exists [], [], 0. cbn [jt_spring jt_sent jt_read jt_client jt_acks]. split; [by apply Spring.account_start|]. split_and!; try done; lia.
Qed.

(** A job of the request's, on a block that exists. *)
Definition job_ok (j : Job) : Prop :=
  j_v1 j = rq_v1 r /\ j_flags j = flags_of r /\ rq_start r <= j_n j < rq_end r /\ j_n j <= last.

(** The results sent are those of the request, from its start. *)
Lemma joint_sent x :
  joint_inv x -> (j_n <$> jt_sent x) = seqZ (rq_start r) (blen (jt_sent x)) /\ Forall job_ok (jt_sent x).
Proof.
  intros (evs & out & k & A & _ & <- & _). destruct A as [A1 A2 A3 _ _ _ _].
  assert (Hk : blen (Spring.results out) = k) by (rewrite A1; unfold Spring.jobs, blen; rewrite length_fmap, length_seqZ; lia).
  rewrite Hk, A1. unfold Spring.jobs. split; [rewrite <- list_fmap_compose; by apply list_fmap_id|].
  apply Forall_fmap, list.Forall_forall. intros n Hn. apply elem_of_seqZ in Hn. specialize (A3 ltac:(lia)).
  unfold job_ok. simpl. split_and!; try done; lia.
Qed.

Lemma sent_bounded js :
  (j_n <$> js) = seqZ (rq_start r) (blen js) -> Forall job_ok js -> rq_start r <= rq_end r -> blen js <= rq_end r - rq_start r.
Proof.
  intros Hs Hj Hle. destruct js as [|j js _] using rev_ind; [change (blen []) with 0; lia|].
  apply Forall_app in Hj as [_ Hj]. apply Forall_cons_1 in Hj as [(_ & _ & Hj & _) _].
  assert (Hn : (j_n <$> js ++ [j]) !! length js = Some (j_n j)) by (by rewrite list_lookup_fmap, lookup_app_r, Nat.sub_diag by lia).
  rewrite Hs in Hn. apply lookup_seqZ in Hn as [Hn _]. rewrite blen_app. change (blen [j]) with 1. unfold blen. lia.
Qed.

(** Every result is of the block it is for. *)
Hypothesis Hparse : forall j y, job_ok j -> parse_result (reply j) = Some y -> y.1 = j_n j.
Hypothesis Hend : rq_end r = end_ + 1.
Hypothesis Hcredit : 0 < rq_max_in_flight r.

(** A client that waits has read, and the server has read the acks of, all the server can send. *)
Lemma joint_stuck x :
  joint_inv x -> (forall a, joint_step names last end_ reply a x = None) ->
  jt_read x = length (jt_sent x) /\ jt_acks x = blen (jt_sent x) /\
  blen (jt_sent x) = Z.max 0 (Z.min end_ last - rq_start r + 1) /\ jt_client x = client_after (jt_sent x).
Proof.
  intros Hi Hstuck. destruct (joint_sent x Hi) as [Hseq Hjobs].
  destruct Hi as (evs & out & k & A & He & Hres & Hack & Hacks & Hrd & Hc). destruct A as [A1 A2 A3 A4 _ _ _].
  assert (Hk : blen (jt_sent x) = k) by (rewrite <- Hres, A1; unfold Spring.jobs, blen; rewrite length_fmap, length_seqZ; lia).
  assert (Hread : jt_read x = length (jt_sent x)).
  { pose proof (Hstuck JRead) as H. cbn [joint_step] in H. destruct (sc_done (jt_client x)) eqn:Ed.
    - rewrite Hc in Ed. apply client_done in Ed as (j & y & Hj & Hp & Hge). apply list_elem_of_lookup in Hj as [i Hij].
      apply lookup_take_Some in Hij as [Hij Hlt]. pose proof (Forall_lookup_1 _ _ _ _ Hjobs Hij) as Hok.
      rewrite (Hparse j y Hok Hp) in Hge. destruct Hok as (_ & _ & Hn & _).
      assert (Hn' : (j_n <$> jt_sent x) !! i = Some (j_n j)) by (by rewrite list_lookup_fmap, Hij).
      rewrite Hseq in Hn'. apply lookup_seqZ in Hn' as [Hn' _]. unfold blen in Hk. lia.
    - destruct (jt_sent x !! jt_read x) eqn:E; [done|]. apply lookup_ge_None in E. lia. }
  assert (Hall : jt_client x = client_after (jt_sent x)) by (by rewrite Hc, Hread, firstn_all).
  assert (Hackd : jt_acks x = blen (jt_sent x)).
  { pose proof (Hstuck JAck) as H. cbn [joint_step] in H. rewrite Hall, client_acks in H.
    destruct (Z.ltb_spec (jt_acks x) (blen (jt_sent x))); [|unfold blen in *; lia].
    assert (Hd : decode_request (build_ack 1) = Ok (ReqAck 1)) by (apply ack_decodes; split; [discriminate|reflexivity]).
    by rewrite Hd in H. }
  split; [done|]. split; [done|]. split; [|done]. rewrite Hk.
  pose proof (Hstuck JSend) as H. cbn [joint_step] in H.
  destruct (Spring.step last Spring.EvTake (jt_spring x)) as [[st o]|] eqn:Est; [|done].
  pose proof (take_results _ _ _ _ Est) as Ho. cbn [mbind option_bind] in H. rewrite Ho in H.
  destruct (Spring.sendable last (jt_spring x)) eqn:Ese; [done|]. apply Spring.sendable_None in Ese. rewrite A4 in Ese.
  cbn [rq_start rq_end rq_max_in_flight Spring.without_positions Spring.with_flow] in Ese.
  rewrite Hack, Hackd, Hk in Ese. replace (rq_max_in_flight r + k - k) with (rq_max_in_flight r) in Ese by lia.
  unfold wrap32 in Ese. destruct Hr as (_ & _ & Hm). rewrite Z.mod_small in Ese by exact Hm.
  destruct (Z.eq_dec k 0) as [->|]; [lia|]. specialize (A3 ltac:(lia)). lia.
Qed.

(** A client that has read the last block of its range is done. *)
Lemma client_finishes js :
  (j_n <$> js) = seqZ (rq_start r) (end_ - rq_start r + 1) -> rq_start r <= end_ ->
  Forall (fun j => exists y, parse_result (reply j) = Some (j_n j, y)) js -> sc_done (client_after js) = true.
Proof.
  intros Hs Hle Hy. assert (Hl : Z.of_nat (length js) = end_ - rq_start r + 1).
  { apply (f_equal length) in Hs. rewrite length_fmap, length_seqZ in Hs. lia. }
  destruct js as [|j0 js _] using rev_ind; [simpl in Hl; lia|]. rewrite length_app in Hl. simpl in Hl.
  apply Forall_app in Hy as [_ Hy]. apply Forall_cons_1 in Hy as [[y Hy] _].
  rewrite client_after_snoc. unfold scan_message. rewrite Hy. cbn [sc_done]. apply Z.leb_le.
  assert (Hn : (j_n <$> js ++ [j0]) !! length js = Some (j_n j0)) by (by rewrite list_lookup_fmap, lookup_app_r, Nat.sub_diag by lia).
  rewrite Hs in Hn. apply lookup_seqZ in Hn as [-> _]. lia.
Qed.
End Joining.

(** ** Properties *)

(** C23: the client reads what the server sends. Of any block result a session answers a v0 request
    with, streamed payloads included, [parse_result] finds the block's number and exactly the bytes
    of its deltas (none when the field is absent), and it takes a result for no block exactly when
    the server knows no id for it. The message may be as long as the client accepts. *)
Theorem scan_reads_answers (w : world) (S : FileSource w) (sha256 : bytes -> bytes) (s : Store)
    (F : Flate) (zlib : bytes -> option bytes) (L : FlateLaws F zlib) (can_reserve : Z -> bool)
    (limits : FetchLimits) (j : Job) (m : opcode * bytes) (Hs : store_ok w sha256 s)
    (Ht : 0 <= stream_threshold limits < u64_max) (Hv : j_v1 j = false) (Hn : is_u32 (j_n j))
    (Hm : answers w sha256 s zlib can_reserve limits (Spring.SResult j) m)
    (Hlen : blen m.2 <= FRAME_LIMIT_BYTES) :
  exists p pkg traces deltas, (plan w sha256 s j None).1 = Ok p /\
    build w sha256 can_reserve s j limits = Ok pkg /\
    Forall2 (part_bytes w zlib) (pk_parts pkg) [traces; deltas] /\
    parse_result m.2 = match pl_this p with Some _ => Some (j_n j, deltas) | None => None end.
Proof.
  destruct Hm as (pkg & ys & Hb & Hys & ->). simpl in *.
  destruct (scan_reads w sha256 s zlib can_reserve limits Hs Ht j pkg ys Hb Hv Hn Hys Hlen) as (p & y0 & y1 & Hp & -> & Hr).
  by exists p, pkg, y0, y1.
Qed.

Lemma scan_reads_answers_witness :
  let S := direct_source exs_world exs_world_ok in
  exists m, answers (F := level0) exs_world exb_sha exs_store zlib_level0 (fun _ => true) exs_limits
    (Spring.SResult (exs_job 8)) m /\ parse_result m.2 = Some (8, []).
Proof.
  intros S.
  assert (Hb : exists pkg, build (F := level0) exs_world exb_sha (fun _ => true) exs_store (exs_job 8) exs_limits = Ok pkg /\
    pk_parts pkg = [Inline (mkVec [x64; x65] 2 3); Absent] /\ blen (message_bytes pkg [[x64; x65]; []]) <= FRAME_LIMIT_BYTES).
  { eexists. split; [vm_compute; reflexivity|]. split; [reflexivity|]. vm_compute. discriminate. }
  destruct Hb as (pkg & Hb & Hparts & Hlen).
  assert (Hm : answers (F := level0) exs_world exb_sha exs_store zlib_level0 (fun _ => true) exs_limits
    (Spring.SResult (exs_job 8)) (Binary, message_bytes pkg [[x64; x65]; []])).
  { exists pkg, [[x64; x65]; []]. split; [exact Hb|]. split; [|reflexivity]. rewrite Hparts. repeat constructor. }
  exists (Binary, message_bytes pkg [[x64; x65]; []]). split; [exact Hm|].
  assert (Ht : 0 <= stream_threshold exs_limits < u64_max) by (split; [vm_compute; discriminate|reflexivity]).
  assert (Hn : is_u32 (j_n (exs_job 8))) by (split; [vm_compute; discriminate|reflexivity]).
  pose proof (scan_reads_answers exs_world S exb_sha exs_store level0 zlib_level0 level0_laws (fun _ => true) exs_limits
    (exs_job 8) _ exs_store_ok Ht eq_refl Hn Hm Hlen) as H.
  destruct H as (p & pkg' & y0 & y1 & Hp & Hb' & Hys & Hr). rewrite Hb in Hb'. apply Ok_inj in Hb' as <-.
  rewrite Hparts in Hys. apply Forall2_cons_inv_l in Hys as (z0 & zs & _ & Hys & Hz).
  injection Hz as <- <-. apply Forall2_cons_inv_l in Hys as (z1 & zs & Hy & _ & Hz). injection Hz as <- _.
  simpl in Hy. subst y1. rewrite Hr. vm_compute in Hp. apply Ok_inj in Hp as <-. reflexivity.
Defined.


Lemma exs_ids (j : Job) (p : Plan) :
  let S := direct_source exs_world exs_world_ok in
  7 <= j_n j <= 8 -> (plan exs_world exb_sha exs_store j None).1 = Ok p -> is_Some (pl_this p).
Proof.
  intros S. destruct j as [g n v1 [f1 f2 f3 f4]]. simpl. intros Hn.
  assert (Hc : n = 7 \/ n = 8) by lia.
  destruct Hc as [-> | ->]; destruct v1, f1, f2, f3, f4; vm_compute; intros [= <-]; by eexists.
Qed.

(** Blocks 7 and 8 of the example store, one in flight. *)
Definition exc_reply (j : Job) : bytes :=
  default [] ((fun pkg => message_bytes pkg [[]; []]) <$> ok_of (build (FileSource0 := direct_source exs_world exs_world_ok)
    (F := level0) exs_world exb_sha (fun _ => true) exs_store j exs_limits)).

Lemma exc_answers j :
  let S := direct_source exs_world exs_world_ok in
  job_ok 8 (scan_request 7 8 1 true) j ->
  answers (F := level0) exs_world exb_sha exs_store zlib_level0 (fun _ => true) exs_limits
    (Spring.SResult j) (Binary, exc_reply j) /\ blen (exc_reply j) <= FRAME_LIMIT_BYTES.
Proof.
  intros S. destruct j as [g n v1 f]. intros (H1 & H2 & H3 & H4). simpl in *. subst v1 f.
  assert (Hn : n = 7 \/ n = 8) by lia.
  assert (H : exists pkg, build (F := level0) exs_world exb_sha (fun _ => true) exs_store
    (mkJob g n false (flags_of (scan_request 7 8 1 true))) exs_limits = Ok pkg /\
    pk_parts pkg = [Absent; Absent] /\ blen (message_bytes pkg [[]; []]) <= FRAME_LIMIT_BYTES).
  { destruct Hn as [-> | ->]; eexists; (split; [vm_compute; reflexivity|]; split; [reflexivity|vm_compute; discriminate]). }
  destruct H as (pkg & Hb & Hp & Hlen). assert (E : exc_reply (mkJob g n false (flags_of (scan_request 7 8 1 true))) = message_bytes pkg [[]; []]).
  { unfold exc_reply. fold S. by rewrite Hb. }
  rewrite E. split; [|done]. exists pkg, [[]; []]. split; [done|]. split; [rewrite Hp; repeat constructor|done].
Qed.

Definition exc_acts : list joint_act := [JSend; JRead; JAck; JSend; JRead; JAck].


(** The connections of a scan share out its range. Where the last chunk cannot pass [u32], the
    chunks are at most as many as the connections asked for, each inside the range and not empty,
    and their blocks, in order, are the blocks of the range, each once. *)
Lemma chunks_partition (start end_ in_flight connections : Z) (cs : list (Z * Z))
    (Hend : end_ + (end_ - start + 1 + Z.max connections 1 - 1) / Z.max connections 1 < U32)
    (H : scan_chunks start end_ in_flight connections = Some cs) :
  chunk_blocks cs = seqZ start (end_ - start + 1) /\ Z.of_nat (length cs) <= Z.max connections 1 /\
  Forall (fun c => start <= c.1 <= c.2 /\ c.2 <= end_) cs.
Proof.
  unfold scan_chunks in H. destruct (_ && _ && _ && _) eqn:Hb; [|done]. bools. injection H as <-.
  set (conns := Z.max connections 1) in *. set (total := end_ - start + 1) in *.
  set (per := (total + conns - 1) / conns) in *.
  assert (Hper : 0 < per) by (apply Z.div_str_pos; lia).
  assert (Hcov : total <= conns * per).
  { pose proof (Z.mul_succ_div_gt (total + conns - 1) conns ltac:(lia)). fold per in H. lia. }
  destruct (chunks_cover (Z.to_nat conns) 0 start end_ per) as (Hc1 & Hc2 & Hc3); [done|lia|lia|lia|lia|nia|].
  rewrite Z.mul_0_l, Z.add_0_r in Hc1. split; [exact Hc1|]. split; [lia|exact Hc3].
Qed.

Lemma chunks_partition_witness :
  scan_chunks 2 11 5 4 = Some [(2, 4); (5, 7); (8, 10); (11, 11)] /\
  chunk_blocks [(2, 4); (5, 7); (8, 10); (11, 11)] = seqZ 2 10.
Proof.
  assert (H : scan_chunks 2 11 5 4 = Some [(2, 4); (5, 7); (8, 10); (11, 11)]) by (vm_compute; reflexivity).
  split; [exact H|]. pose proof (chunks_partition 2 11 5 4 _ ltac:(reflexivity) H) as [Hb _]. exact Hb.
Defined.

(** Without the bound the start of a chunk past the range wraps: a scan of the last eleven blocks
    over eight connections also asks for blocks 0 and 1. *)
Lemma scan_chunks_wrap :
  scan_chunks (u32_max - 11) (u32_max - 1) 1 8 =
  Some [(u32_max - 11, u32_max - 10); (u32_max - 9, u32_max - 8); (u32_max - 7, u32_max - 6);
        (u32_max - 5, u32_max - 4); (u32_max - 3, u32_max - 2); (u32_max - 1, u32_max - 1); (0, 1); (2, 3)].
Proof. vm_compute. reflexivity. Qed.

(** The walk of a block's deltas finds the ABIs it sets. On the deltas of a block whose first
    table is [account], the scanner's callback is run on the rows of that table alone, in order, and
    the documents it makes are one for each account row with a non-empty ABI: its name, the block
    and the ABI's bytes; when the first table is another, none are made. On any other bytes the walk
    returns or fails, and never panics. *)
Lemma account_abis_found (names : Z -> option string) (block_num : Z) (name : bytes)
    (accounts : list (Z * Z * bytes)) (tables : list (bytes * list (byte * bytes)))
    (Ha : Forall (fun a => is_u64 a.1.1 /\ blen a.2 < 2 ^ 41 /\ is_Some (names a.1.1)) accounts)
    (Ht : Forall table_ok tables) (Hname : blen name < 2 ^ 42) (Hn : blen accounts < 2 ^ 42)
    (Hc : blen tables < 2 ^ 42 - 1) :
  for_each_account_row (scan_row names block_num)
    (deltas_bytes ((name, (fun a => (x01, account_row a)) <$> accounts) :: tables)) [] =
  (Ok (), if bool_decide (name = String.list_byte_of_string "account")
          then concat (account_docs names block_num <$> accounts) else []) /\
  forall deltas docs, is_panic (for_each_account_row (scan_row names block_num) deltas docs).1 = false.
Proof.
  split; [|intros; apply walk_no_panic]. change (2 ^ 42) with 4398046511104 in *. change (2 ^ 41) with 2199023255552 in *.
  rewrite account_rows.
  - destruct (bool_decide _); [|done]. rewrite <- list_fmap_compose.
    change (snd ∘ (fun a => (x01, account_row a))) with account_row. rewrite scan_rows; [done|].
    eapply Forall_impl; [|exact Ha]. intros a (? & ? & ?). change (2 ^ 42) with 4398046511104. split_and!; [done|lia|done].
  - rewrite blen_cons. change (2 ^ 42) with 4398046511104. lia.
  - constructor; [|done]. split_and!; simpl; [done|unfold blen in *; by rewrite length_fmap|].
    apply Forall_fmap. eapply Forall_impl; [|exact Ha]. intros [[nm date] abi] (_ & Hl & _). simpl in *.
    autorewrite with blen. change (blen (varuint 0)) with 1. change (2 ^ 42) with 4398046511104.
    destruct (varuint_spec (blen abi)) as (_ & _ & _ & Hv); [pose proof (blen_nonneg abi); width_lia|].
    specialize (Hv 10%nat ltac:(lia)). change (128 ^ Z.of_nat 10) with 1180591620717411303424 in Hv. lia.
Qed.

Lemma account_abis_found_witness :
  for_each_account_row (scan_row (fun _ => Some "eosio") 2)
    (deltas_bytes [(String.list_byte_of_string "account",
      (fun a => (x01, account_row a)) <$> [(6138663577826885632, 7, [x0e; x65]); (1, 7, [])])]) [] =
  (Ok (), [("eosio", 2, [x0e; x65])]).
Proof.
  pose proof (account_abis_found (fun _ => Some "eosio") 2 (String.list_byte_of_string "account")
    [(6138663577826885632, 7, [x0e; x65]); (1, 7, [])] []) as H.
  destruct H as [H _].
  - repeat constructor; try (vm_compute; discriminate); eexists; reflexivity.
  - constructor.
  - vm_compute. reflexivity.
  - vm_compute. reflexivity.
  - vm_compute. reflexivity.
  - exact H.
Defined.
