(* ===== verification/TraceWalk.v ===== *)
(** * The hand-walk of transaction traces ([crates/core/src/trace.rs])

    [parse_block] walks the inflated payload of a trace log entry and keeps what the action
    documents need, the data of an action as a range of the payload; what is not kept is walked by
    skippers. [skip_tx_v0] recurses on [failed_dtrx_trace]; its fuel is the length of the payload,
    and running out of it is a [Panic] of the model, so absence of panics includes termination.

    The theorems: on every input the skippers fail where the parsers fail and stop where they stop,
    which is what keeps the walk aligned; on any bytes [parse_block] ends, and every range it
    returns is inside the payload; on a payload laid out as the header of the file documents, it
    returns the fields written; and a name printed determines its value. *)

From S2P Require Import Prelude.
From S2P Require Import Cursor.
From S2P Require Import Binio.
From S2P Require Import Protocol.

Record Receipt := mkReceipt {
  rc_receiver : Z;
  rc_act_digest : bytes;
  rc_global_sequence : Z;
  rc_recv_sequence : Z;
  rc_auth_sequence : list (Z * Z);
  rc_code_sequence : Z;
  rc_abi_sequence : Z
}.

Record Act := mkAct {
  ac_action_ordinal : Z;
  ac_creator_action_ordinal : Z;
  ac_receipt : option Receipt;
  ac_receiver : Z;
  ac_account : Z;
  ac_name : Z;
  ac_authorization : list (Z * Z);
  ac_data : Z * Z;
  ac_context_free : bool;
  ac_elapsed : Z;
  ac_account_ram_deltas : list (Z * Z);
  ac_return_value : option (Z * Z);
  ac_except : bool
}.

Record Tx := mkTx { tx_id : bytes; tx_cpu_usage_us : Z; tx_net_usage_words : Z; tx_actions : list Act }.

(** ** The cursor; the only error is [None]. *)
Module Cur.

Abbreviation reader := (M () cursor).

Definition new (b : bytes) : cursor := mkCursor b 0.

Definition take (n : Z) : reader bytes := fun c =>
  match checked_add64 (cpos c) n with
  | Some _ =>
      match slice (cb c) (cpos c) n with
      | Some s => (Ok s, adv c n)
      | None => (Err (), c)
      end
  | None => (Err (), c)
  end.

Definition u8 : reader Z :=
  let! s := take 1 in
  let! x := slift (or_panic (s !! 0%nat)) in
  sret (b2z x).

Definition u32 : reader Z := let! s := take 4 in sret (le_of s).
Definition u64 : reader Z := let! s := take 8 in sret (le_of s).

(** [i64::from_le_bytes]: two's complement. *)
Definition to_i64 (v : Z) : Z := if v <? 2 ^ 63 then v else v - U64.
Definition i64 : reader Z := let! s := take 8 in sret (to_i64 (le_of s)).

Fixpoint varuint_loop (shifts : list Z) (v : Z) : reader Z :=
  match shifts with
  | [] => sfail ()
  | shift :: shifts =>
      let! b := u8 in
      let v := Z.lor v (wrap64 (Z.shiftl (Z.land b 127) shift)) in
      if Z.land b 128 =? 0 then sret (wrap32 v) else varuint_loop shifts v
  end.

Definition varuint : reader Z := varuint_loop [0; 7; 14; 21; 28; 35] 0.

Definition skip (n : Z) : reader () := do! take n ;; sret ().

Definition bytes_range : reader (Z * Z) :=
  let! len := varuint in
  let! c := sget in
  let start := cpos c in
  do! take len ;;
  sret (start, len).

Definition skip_bytes : reader () := let! len := varuint in skip len.

Definition checksum256 : reader bytes := take 32.

Definition present : reader bool := let! x := u8 in sret (x =? 1).

(** [for _ in 0..n { v.push(m?); }] into an empty [v]. *)
Definition collect {A} (n : Z) (m : reader A) : reader (list A) :=
  for_count n (fun v => let! x := m in sret (v ++ [x])) [].

(** [for _ in 0..n { m?; }] *)
Definition repeat (n : Z) (m : reader ()) : reader () := for_count n (fun _ => m) ().

(** [if c.present()? { m?; }] *)
Definition if_present (m : reader ()) : reader () := let! p := present in if p then m else sret ().
End Cur.
Import Cur.

(** ** The skip-only walkers *)

Definition skip_signature : reader () :=
  let! tag := u8 in
  if (tag =? 0) || (tag =? 1) then skip 65
  else if tag =? 2 then do! skip 65 ;; do! skip_bytes ;; skip_bytes
  else if tag =? 3 then skip 65
  else if tag =? 4 then skip 96
  else if tag =? 5 then let! x := u8 in if negb (x =? 1) then sfail () else skip 192
  else sfail ().

Definition skip_partial_v0 : reader () :=
  do! skip (4 + 2 + 4) ;;
  do! varuint ;;
  do! skip 1 ;;
  do! varuint ;;
  let! ext := varuint in
  do! repeat ext (do! skip 2 ;; skip_bytes) ;;
  let! sigs := varuint in
  do! repeat sigs skip_signature ;;
  let! cfd := varuint in
  repeat cfd skip_bytes.

Definition skip_action_trace (v1 : bool) : reader () :=
  do! varuint ;;
  do! varuint ;;
  do! if_present
       (do! varuint ;;
        do! skip (8 + 32 + 8 + 8) ;;
        let! asn := varuint in
        do! repeat asn (skip 16) ;;
        do! varuint ;;
        do! varuint ;;
        sret ()) ;;
  do! skip (8 + 8 + 8) ;;
  let! an := varuint in
  do! repeat an (skip 16) ;;
  do! skip_bytes ;;
  do! skip (1 + 8) ;;
  do! skip_bytes ;;
  let! rd := varuint in
  do! repeat rd (skip 16) ;;
  do! if_present skip_bytes ;;
  do! if_present (skip 8) ;;
  if v1 then skip_bytes else sret ().

(** [skip_tx_v0] but for its recursive call. *)
Definition skip_tx_body (skip_tx_v0 : reader ()) : reader () :=
  do! skip (32 + 1 + 4) ;;
  do! varuint ;;
  do! skip (8 + 8 + 1) ;;
  let! m := varuint in
  do! repeat m (let! v1 := varuint in skip_action_trace (v1 =? 1)) ;;
  do! if_present (skip 16) ;;
  do! if_present skip_bytes ;;
  do! if_present (skip 8) ;;
  do! if_present (do! varuint ;; skip_tx_v0) ;;
  if_present (do! varuint ;; skip_partial_v0).

Fixpoint skip_tx_fuel (fuel : nat) : reader () :=
  match fuel with
  | O => spanic
  | S fuel => skip_tx_body (skip_tx_fuel fuel)
  end.

Definition skip_tx_v0 : reader () := fun c => skip_tx_fuel (S (length (cb c))) c.

(** ** The parsers *)

Definition u64_pair : reader (Z * Z) := let! a := u64 in let! b := u64 in sret (a, b).

Definition parse_receipt : reader Receipt :=
  do! varuint ;;
  let! receiver := u64 in
  let! act_digest := checksum256 in
  let! global_sequence := u64 in
  let! recv_sequence := u64 in
  let! asn := varuint in
  let! auth_sequence := collect asn u64_pair in
  let! code_sequence := varuint in
  let! abi_sequence := varuint in
  sret (mkReceipt receiver act_digest global_sequence recv_sequence auth_sequence code_sequence abi_sequence).

Definition parse_action_trace (v1 : bool) : reader Act :=
  let! action_ordinal := varuint in
  let! creator_action_ordinal := varuint in
  let! receipt :=
    (let! p := present in
     if p then let! r := parse_receipt in sret (Some r) else sret None) in
  let! receiver := u64 in
  let! account := u64 in
  let! name := u64 in
  let! an := varuint in
  let! authorization := collect an u64_pair in
  let! data := bytes_range in
  let! cf := u8 in
  let! elapsed := i64 in
  do! skip_bytes ;;
  let! rd := varuint in
  let! account_ram_deltas := collect rd (let! acc := u64 in let! d := i64 in sret (acc, d)) in
  let! except := present in
  do! (if except then skip_bytes else sret ()) ;;
  do! if_present (skip 8) ;;
  let! return_value := (if v1 then let! r := bytes_range in sret (Some r) else sret None) in
  sret (mkAct action_ordinal creator_action_ordinal receipt receiver account name authorization data
          (negb (cf =? 0)) elapsed account_ram_deltas return_value except).

Definition parse_tx_v0 : reader Tx :=
  let! id := checksum256 in
  do! skip 1 ;;
  let! cpu_usage_us := u32 in
  let! net_usage_words := varuint in
  do! skip 8 ;;
  do! skip 8 ;;
  do! skip 1 ;;
  let! m := varuint in
  let! actions := collect m (let! v1 := varuint in parse_action_trace (v1 =? 1)) in
  do! if_present (skip 16) ;;
  do! if_present skip_bytes ;;
  do! if_present (skip 8) ;;
  do! if_present (do! varuint ;; skip_tx_v0) ;;
  do! if_present (do! varuint ;; skip_partial_v0) ;;
  sret (mkTx id cpu_usage_us net_usage_words actions).

Definition block_reader : reader (list Tx) :=
  let! n := varuint in
  collect n (do! varuint ;; parse_tx_v0).

Definition parse_block (payload : bytes) : res () (list Tx) := (block_reader (new payload)).1.

(** ** Names *)

Definition CHARMAP : bytes := String.list_byte_of_string ".12345abcdefghijklmnopqrstuvwxyz".

(** The loop, from its last character to its first: [i] turns are left, [tmp] is what is left of
    the value and [s] the characters written so far. *)
Fixpoint name_loop (i : nat) (first : bool) (tmp : Z) (s : bytes) : bytes :=
  match i with
  | O => s
  | S i =>
      let idx := Z.land tmp (if first then 15 else 31) in
      name_loop i false (Z.shiftr tmp (if first then 4 else 5))
        (nth (Z.to_nat idx) CHARMAP x2e :: s)
  end.

(** [rposition(|&c| c != b'.').map_or(0, |p| p + 1)], then the prefix of that length. *)
Fixpoint trim_dots (s : bytes) : bytes :=
  match s with
  | [] => []
  | c :: s =>
      let t := trim_dots s in
      if bool_decide (t = []) && bool_decide (c = x2e) then [] else c :: t
  end.

Definition name_to_string (value : Z) : bytes := trim_dots (name_loop 13 true value []).

(** ** What the cursor's operations read *)

Lemma take_spec n c :
  cursor_wf c -> 0 <= n ->
  take n c = if n <=? blen (rest c) then (Ok (List.firstn (Z.to_nat n) (rest c)), adv c n) else (Err (), c).
Proof.
  intros Hc Hn. unfold take, checked_add64. rewrite slice_rest by done.
  pose proof (blen_rest c Hc) as Hr. destruct Hc as [Hp Hl].
  destruct (Z.ltb_spec (cpos c + n) U64); [by destruct (n <=? blen (rest c))|].
  destruct (Z.leb_spec n (blen (rest c))); [lia|done].
Qed.

Lemma take_parses x : parses (take (blen x)) x x.
Proof.
  intros c s Hc Hr. pose proof (blen_nonneg s). rewrite take_spec by (done || apply blen_nonneg).
  rewrite Hr, blen_app. destruct (Z.leb_spec (blen x) (blen x + blen s)); [|lia].
  unfold blen. by rewrite Nat2Z.id, take_app_length.
Qed.

(** [fixed n m]: [m] succeeds exactly when [n] bytes are left, and reads them. *)
Definition fixed {A} (n : Z) (m : reader A) : Prop :=
  0 <= n /\ forall c, cursor_wf c ->
    (n <= blen (rest c) -> exists a, m c = (Ok a, adv c n)) /\
    (blen (rest c) < n -> exists c', m c = (Err (), c') /\ cb c' = cb c /\ cpos c <= cpos c' <= blen (cb c)).

Lemma fixed_take n : 0 <= n -> fixed n (take n).
Proof.
  intros Hn. split; [done|]. intros c Hc. rewrite take_spec by done.
  destruct (Z.leb_spec n (blen (rest c))); split; intros; try lia; eauto.
  exists c. destruct Hc. naive_solver lia.
Qed.

Lemma fixed_ret {A} (a : A) : fixed 0 (sret a).
Proof.
  split; [done|]. intros c Hc. pose proof (blen_nonneg (rest c)). split; intros; [|lia].
  exists a. by rewrite adv_0.
Qed.

Lemma fixed_bind {A B} n k (m : reader A) (f : A -> reader B) :
  fixed n m -> (forall c a c', cursor_wf c -> m c = (Ok a, c') -> fixed k (f a)) -> 0 <= k ->
  fixed (n + k) (sbind m f).
Proof.
  intros [Hn Hm] Hf Hk. split; [lia|]. intros c Hc. destruct (Hm c Hc) as [Hok Herr].
  destruct (Z_le_gt_dec n (blen (rest c))) as [Hle|Hgt].
  - destruct (Hok Hle) as (a & Ha). assert (Hc' : cursor_wf (adv c n)) by (apply adv_wf; [done|lia]).
    rewrite (sbind_Ok_eq _ _ _ _ _ Ha). destruct (proj2 (Hf _ _ _ Hc Ha) (adv c n) Hc') as [Hok' Herr'].
    assert (Hr : blen (rest (adv c n)) = blen (rest c) - n) by (rewrite !blen_rest by done; simpl; lia).
    rewrite Hr in *. split; intros.
    + destruct Hok' as (b & ->); [lia|]. exists b. by rewrite adv_adv.
    + destruct Herr' as (c' & -> & Hb & Hp); [lia|]. exists c'. simpl in *. split; [done|]. split; [done|]. lia.
  - destruct (Herr ltac:(lia)) as (c' & He & Hc'). split; intros; [lia|]. exists c'. unfold sbind. by rewrite He.
Qed.

Lemma fixed_safe {A} n (m : reader A) : fixed n m -> safe m.
Proof.
  intros [Hn Hm] c Hc. destruct (Hm c Hc) as [Hok Herr]. pose proof (blen_rest c Hc).
  destruct (Z_le_gt_dec n (blen (rest c))) as [Hle|Hgt].
  - destruct (Hok Hle) as (a & ->). simpl. naive_solver lia.
  - destruct (Herr ltac:(lia)) as (c' & -> & ? & ?). simpl. naive_solver.
Qed.

Lemma fixed_bind_ret {A B} n (m : reader A) (f : A -> B) : fixed n m -> fixed n (let! a := m in sret (f a)).
Proof. intros H. rewrite <- (Z.add_0_r n). apply fixed_bind; [done| |done]. intros. apply fixed_ret. Qed.

Lemma take_Ok n c s c' : cursor_wf c -> 0 <= n -> take n c = (Ok s, c') -> blen s = n.
Proof.
  intros Hc Hn. rewrite take_spec by done. destruct (Z.leb_spec n (blen (rest c))); [|done].
  intros [= <- _]. by apply blen_take.
Qed.

Lemma fixed_skip n : 0 <= n -> fixed n (skip n).
Proof. intros. by apply fixed_bind_ret, fixed_take. Qed.

Lemma fixed_u32 : fixed 4 u32.
Proof. by apply fixed_bind_ret, fixed_take. Qed.

Lemma fixed_u64 : fixed 8 u64.
Proof. by apply fixed_bind_ret, fixed_take. Qed.

Lemma fixed_i64 : fixed 8 i64.
Proof. apply fixed_bind_ret. by apply fixed_take. Qed.

Lemma fixed_checksum256 : fixed 32 checksum256.
Proof. by apply fixed_take. Qed.

Lemma fixed_u8 : fixed 1 u8.
Proof.
  rewrite <- (Z.add_0_r 1). apply fixed_bind; [by apply fixed_take| |done].
  intros c s c' Hc Hs. apply take_Ok in Hs; [|done|done]. destruct s as [|x s]; [done|].
  rewrite <- (Z.add_0_r 0). apply fixed_bind; [apply fixed_ret| |done]. intros. apply fixed_ret.
Qed.

Lemma fixed_u64_pair : fixed 16 u64_pair.
Proof.
  apply (fixed_bind 8 8); [apply fixed_u64| |done]. intros. apply (fixed_bind_ret 8), fixed_u64.
Qed.

Create HintDb fixed.
#[export] Hint Resolve fixed_u8 fixed_u32 fixed_u64 fixed_i64 fixed_checksum256 fixed_u64_pair : fixed.
#[export] Hint Extern 1 (fixed _ (skip _)) => (apply fixed_skip; lia) : fixed.
#[export] Hint Extern 1 (fixed _ (take _)) => (apply fixed_take; lia) : fixed.

(** *** Safety *)

Lemma varuint_loop_safe l v : safe (varuint_loop l v).
Proof.
  revert v; induction l as [|s l IH]; intros v; cbn [varuint_loop]; [apply safe_fail|].
  apply safe_bind; [eapply fixed_safe, fixed_u8|]. intros b. apply safe_if; [apply safe_ret|apply IH].
Qed.

Lemma varuint_safe : safe varuint.
Proof. apply varuint_loop_safe. Qed.

Lemma varuint_loop_u32 l v : yields (varuint_loop l v) is_u32.
Proof.
  revert v; induction l as [|s l IH]; intros v; cbn [varuint_loop]; [apply yields_fail|].
  eapply yields_bind; [eapply fixed_safe, fixed_u8|apply yields_any|]. intros b _. apply yields_if; [|apply IH].
  apply yields_ret. by apply Z.mod_pos_bound.
Qed.

Lemma varuint_u32 : yields varuint is_u32.
Proof. apply varuint_loop_u32. Qed.

Lemma skip_bytes_safe : safe skip_bytes.
Proof.
  apply (safe_bind_val is_u32); [apply varuint_safe|apply varuint_u32|].
  intros n Hn. eapply fixed_safe, fixed_skip. unfold is_u32 in Hn. lia.
Qed.

Lemma sget_safe : safe (E := ()) sget.
Proof. intros c [Hc _]. simpl. naive_solver lia. Qed.

Lemma bytes_range_safe : safe bytes_range.
Proof.
  apply (safe_bind_val is_u32); [apply varuint_safe|apply varuint_u32|]. intros n Hn. unfold is_u32 in Hn.
  apply safe_bind; [apply sget_safe|]. intros c. apply safe_bind; [|solve_safe]. eapply fixed_safe, fixed_take. lia.
Qed.

Lemma present_safe : safe present.
Proof. eapply fixed_safe, fixed_bind_ret, fixed_u8. Qed.

Lemma collect_safe {A} n (m : reader A) : safe m -> safe (collect n m).
Proof. intros H. apply safe_for. intros v. apply safe_bind; [done|solve_safe]. Qed.

Lemma repeat_safe n (m : reader ()) : safe m -> safe (repeat n m).
Proof. intros H. by apply safe_for. Qed.

Lemma if_present_safe (m : reader ()) : safe m -> safe (if_present m).
Proof. intros H. apply safe_bind; [apply present_safe|]. intros b. apply safe_if; [done|apply safe_ret]. Qed.

#[export] Hint Resolve varuint_safe skip_bytes_safe bytes_range_safe present_safe collect_safe repeat_safe if_present_safe : safe.
#[export] Hint Extern 2 (safe _) => (eapply fixed_safe; solve [eauto with fixed]) : safe.

Lemma skip_signature_safe : safe skip_signature.
Proof. unfold skip_signature. solve_safe. Qed.
#[export] Hint Resolve skip_signature_safe : safe.

Lemma skip_partial_v0_safe : safe skip_partial_v0.
Proof. unfold skip_partial_v0. solve_safe. Qed.

Lemma skip_action_trace_safe v1 : safe (skip_action_trace v1).
Proof. unfold skip_action_trace. solve_safe. Qed.

Lemma parse_action_trace_safe v1 : safe (parse_action_trace v1).
Proof. unfold parse_action_trace, parse_receipt. solve_safe. Qed.
#[export] Hint Resolve skip_partial_v0_safe skip_action_trace_safe parse_action_trace_safe : safe.

(** *** The recursion of [skip_tx_v0] *)

Lemma sbind_ext {A B} (m : reader A) (k k' : A -> reader B) c :
  safe m -> cursor_wf c ->
  (forall a c', m c = (Ok a, c') -> cursor_wf c' -> cb c' = cb c -> cpos c <= cpos c' -> k a c' = k' a c') ->
  sbind m k c = sbind m k' c.
Proof.
  intros Hm Hc Hk. unfold sbind. destruct (m c) as [[a|e|] c'] eqn:E; [|done|done].
  destruct (Hm c Hc) as (_ & Hb & Hp). pose proof (safe_wf _ _ _ _ Hm Hc E). rewrite E in Hb, Hp. simpl in *.
  apply Hk; [done|done|done|lia].
Qed.

(** The recursive call is made past the first 37 bytes. *)
Lemma skip_tx_body_ext (r r' : reader ()) c :
  cursor_wf c -> (forall c', cursor_wf c' -> cb c' = cb c -> cpos c < cpos c' -> r c' = r' c') ->
  skip_tx_body r c = skip_tx_body r' c.
Proof.
  intros Hc Hr. unfold skip_tx_body.
  apply sbind_ext; [auto with safe|done|]. intros u c1 H1 Hc1 Hb1 Hp1.
  assert (Hlt : cpos c < cpos c1).
  { destruct (fixed_skip (32 + 1 + 4) ltac:(done)) as [_ H]. destruct (H c Hc) as [Hok Herr].
    destruct (Z_le_gt_dec (32 + 1 + 4) (blen (rest c))) as [Hle|Hgt].
    - destruct (Hok Hle) as (? & E). rewrite E in H1. injection H1 as _ <-. simpl. lia.
    - destruct (Herr ltac:(lia)) as (? & E & _). rewrite E in H1. done. }
  assert (Hr1 : forall c', cursor_wf c' -> cb c' = cb c1 -> cpos c1 <= cpos c' -> r c' = r' c').
  { intros c' Hc' Hb Hp. apply Hr; [done|congruence|lia]. }
  clear dependent c.
  do 7 (apply sbind_ext; [solve [solve_safe]|done|]; intros ? c2 ? Hc2 Hb2 Hp2;
    assert (Hr2 : forall c', cursor_wf c' -> cb c' = cb c2 -> cpos c2 <= cpos c' -> r c' = r' c')
      by (intros; apply Hr1; [done|congruence|lia]);
    clear dependent c1; rename c2 into c1, Hc2 into Hc1, Hr2 into Hr1).
  assert (Heq : if_present (do! varuint ;; r) c1 = if_present (do! varuint ;; r') c1).
  { unfold if_present. apply sbind_ext; [auto with safe|done|]. intros p c2 ? Hc2 Hb2 Hp2. destruct p; [|done].
    apply sbind_ext; [auto with safe|done|]. intros ? c3 ? Hc3 Hb3 Hp3. apply Hr1; [done|congruence|lia]. }
  unfold sbind at 1 5. rewrite Heq. done.
Qed.

Lemma skip_tx_fuel_enough f f' c :
  cursor_wf c -> (length (rest c) < f)%nat -> (length (rest c) < f')%nat -> skip_tx_fuel f c = skip_tx_fuel f' c.
Proof.
  revert f' c; induction f as [|f IH]; intros f' c Hc Hf Hf'; [lia|]. destruct f' as [|f']; [lia|].
  cbn [skip_tx_fuel]. apply skip_tx_body_ext; [done|]. intros c' Hc' Hb Hp.
  assert (blen (rest c') < blen (rest c)) by (rewrite !blen_rest, Hb by done; lia). unfold blen in *.
  apply IH; [done|lia|lia].
Qed.

Lemma skip_tx_body_safe (r : reader ()) : safe r -> safe (skip_tx_body r).
Proof. intros H. unfold skip_tx_body. solve_safe. Qed.

(** [skip_tx_v0] satisfies the equation the code has. *)
Lemma skip_tx_v0_eq c : cursor_wf c -> skip_tx_v0 c = skip_tx_body skip_tx_v0 c.
Proof.
  intros Hc. unfold skip_tx_v0 at 1. cbn [skip_tx_fuel]. apply skip_tx_body_ext; [done|].
  intros c' Hc' Hb Hp. unfold skip_tx_v0. pose proof (blen_rest c' Hc') as Hl. destruct Hc as [Hc _].
  unfold blen in *. rewrite Hb in *. apply skip_tx_fuel_enough; [done|lia|lia].
Qed.

Lemma skip_tx_v0_safe : safe skip_tx_v0.
Proof.
  intros c. assert (H : forall f c, cursor_wf c -> (length (rest c) < f)%nat ->
    is_panic (skip_tx_fuel f c).1 = false /\ cb (skip_tx_fuel f c).2 = cb c /\
    cpos c <= cpos (skip_tx_fuel f c).2 <= blen (cb c)).
  { clear c. induction f as [|f IH]; intros c Hc Hf; [lia|]. cbn [skip_tx_fuel].
    set (r := fun c' => if decide (cursor_wf c' /\ (length (rest c') < f)%nat) then skip_tx_fuel f c' else (Err (), c')).
    assert (Hr : safe r).
    { intros c' Hc'. unfold r. destruct (decide _) as [[_ Hl]|]; [by apply IH|]. destruct Hc'. simpl. naive_solver lia. }
    rewrite (skip_tx_body_ext _ r c Hc); [by apply skip_tx_body_safe|].
    intros c' Hc' Hb Hp. unfold r. rewrite decide_True; [done|]. split; [done|].
    assert (blen (rest c') < blen (rest c)) by (rewrite !blen_rest, Hb by done; lia). unfold blen in *. lia. }
  intros Hc. unfold skip_tx_v0. apply H; [done|]. pose proof (blen_rest c Hc). destruct Hc. unfold blen in *. lia.
Qed.
#[export] Hint Resolve skip_tx_v0_safe : safe.

Lemma parse_tx_v0_safe : safe parse_tx_v0.
Proof. unfold parse_tx_v0. solve_safe. Qed.

(** ** Skipping is parsing

    [agree m k]: on every input [m] and [k] fail together, or succeed and stop at the same byte. *)
Definition agree {A B} (m : reader A) (k : reader B) : Prop :=
  forall c, cursor_wf c ->
    match m c with
    | (Ok _, c') => cursor_wf c' /\ exists b, k c = (Ok b, c')
    | (Err _, _) => is_err (k c).1 = true
    | (Panic, _) => False
    end.

Lemma agree_refl {A} (m : reader A) : safe m -> agree m m.
Proof.
  intros Hm c Hc. destruct (Hm c Hc) as (Hp & _). destruct (m c) as [[a|e|] c'] eqn:E; simpl in *; [|done|done].
  split; [by eapply safe_wf|eauto].
Qed.

Lemma agree_bind {A A' B B'} (m : reader A) (m' : reader A') (k : A -> reader B) (k' : A' -> reader B') :
  agree m m' -> (forall a a', agree (k a) (k' a')) -> agree (sbind m k) (sbind m' k').
Proof.
  intros Hm Hk c Hc. specialize (Hm c Hc). unfold sbind. destruct (m c) as [[a|e|] c'].
  - destruct Hm as (Hc' & a' & ->). by apply Hk.
  - by destruct (m' c) as [[a'|e'|] c''].
  - done.
Qed.

(** Both run the same parser and go on with its value. *)
Lemma agree_same_val {A B B'} (P : A -> Prop) (m : reader A) (k : A -> reader B) (k' : A -> reader B') :
  safe m -> yields m P -> (forall a, P a -> agree (k a) (k' a)) -> agree (sbind m k) (sbind m k').
Proof.
  intros Hm HP Hk c Hc. destruct (Hm c Hc) as (Hp & _). unfold sbind. destruct (m c) as [[a|e|] c'] eqn:E; [|done|done].
  apply Hk; [by eapply HP|by eapply safe_wf].
Qed.

Lemma agree_same {A B B'} (m : reader A) (k : A -> reader B) (k' : A -> reader B') :
  safe m -> (forall a, agree (k a) (k' a)) -> agree (sbind m k) (sbind m k').
Proof. intros Hm Hk. eapply agree_same_val; [done|apply yields_any|]. intros a _. apply Hk. Qed.

Lemma agree_fixed {A B} n (m : reader A) (k : reader B) : fixed n m -> fixed n k -> agree m k.
Proof.
  intros [Hn Hm] [_ Hk] c Hc. destruct (Hm c Hc) as [Ho He], (Hk c Hc) as [Ho' He'].
  destruct (Z_le_gt_dec n (blen (rest c))) as [Hle|Hgt].
  - destruct (Ho Hle) as (a & ->), (Ho' Hle) as (b & ->). split; [apply adv_wf; [done|lia]|eauto].
  - destruct (He ltac:(lia)) as (c1 & -> & _), (He' ltac:(lia)) as (c2 & -> & _). done.
Qed.

(** A run of fields of known length is skipped at once: the first field is peeled off. *)
Lemma agree_peel {A B B'} a b (m : reader A) (f : A -> reader B) (k : reader B') :
  fixed a m -> 0 <= b -> (forall x, agree (f x) (do! skip b ;; k)) -> agree (sbind m f) (do! skip (a + b) ;; k).
Proof.
  intros Hm Hb Hf. destruct Hm as [Ha Hm].
  assert (H : forall c, cursor_wf c -> is_err ((do! skip a ;; do! skip b ;; k) c).1 = true ->
    is_err ((do! skip (a + b) ;; k) c).1 = true).
  { intros c Hc He. destruct (proj2 (fixed_skip (a + b) ltac:(lia)) c Hc) as [Ho Hx].
    destruct (Z_le_gt_dec (a + b) (blen (rest c))) as [Hle|Hgt]; [|destruct (Hx ltac:(lia)) as (c1 & E & _); unfold sbind; by rewrite E].
    revert He. unfold skip, sbind. rewrite !take_spec by (done || lia). rewrite !(proj2 (Z.leb_le _ _)) by lia. simpl.
    assert (Hc' : cursor_wf (adv c a)) by (apply adv_wf; [done|lia]).
    assert (Hr : blen (rest (adv c a)) = blen (rest c) - a) by (rewrite !blen_rest by done; simpl; lia).
    rewrite take_spec by (done || lia). rewrite Hr, (proj2 (Z.leb_le _ _)) by lia. simpl. by rewrite adv_adv. }
  intros c Hc. destruct (Hm c Hc) as [Ho Hx]. pose proof (blen_rest c Hc). unfold sbind at 1.
  destruct (Z_le_gt_dec a (blen (rest c))) as [Hle|Hgt].
  - destruct (Ho Hle) as (x & ->). assert (Hc' : cursor_wf (adv c a)) by (apply adv_wf; [done|lia]).
    assert (E : (do! skip a ;; do! skip b ;; k) c = (do! skip b ;; k) (adv c a)).
    { unfold sbind at 1. unfold skip at 1, sbind at 1. rewrite take_spec by (done || lia).
      by rewrite (proj2 (Z.leb_le _ _)) by lia. }
    specialize (Hf x (adv c a) Hc'). destruct (f x (adv c a)) as [[y|e|] c'].
    + destruct Hf as (Hw & z & Hz). split; [done|]. exists z. revert Hz. unfold skip, sbind.
      assert (Hr : blen (rest (adv c a)) = blen (rest c) - a) by (rewrite !blen_rest by done; simpl; lia).
      rewrite !take_spec by (done || lia). rewrite Hr.
      destruct (Z.leb_spec b (blen (rest c) - a)); simpl; [|done]. rewrite (proj2 (Z.leb_le _ _)) by lia. simpl.
      by rewrite adv_adv.
    + apply H; [done|]. by rewrite E.
    + done.
  - destruct (Hx ltac:(lia)) as (c1 & -> & _). apply H; [done|]. unfold skip, sbind.
    rewrite take_spec by (done || lia). by rewrite (proj2 (Z.leb_gt _ _)) by lia.
Qed.

(** The last field of the run. *)
Lemma agree_last {A B B'} n (m : reader A) (f : A -> reader B) (k : reader B') :
  fixed n m -> (forall x, agree (f x) k) -> agree (sbind m f) (do! skip n ;; k).
Proof. intros Hm Hf. apply agree_bind; [|done]. eapply agree_fixed; [done|]. apply fixed_skip, Hm. Qed.

Lemma agree_ret {A B} (a : A) (b : B) : agree (sret a) (sret b).
Proof. intros c Hc. split; [done|]. by exists b. Qed.

Lemma agree_ret_l {A A' B} (m : reader A) (f : A -> A') (k : reader B) : agree m k -> agree (let! a := m in sret (f a)) k.
Proof.
  intros H c Hc. specialize (H c Hc). unfold sbind. by destruct (m c) as [[a|e|] c'].
Qed.

Lemma agree_for {A B} n (body : A -> reader A) (body' : B -> reader B) a b :
  (forall a b, agree (body a) (body' b)) -> agree (for_count n body a) (for_count n body' b).
Proof.
  intros Hb c. rewrite !for_count_nat. generalize (Z.to_nat n) as k. clear n. intros k. revert c.
  change (agree (for_nat k body a) (for_nat k body' b)). revert a b.
  induction k as [|k IH]; intros a b; simpl; [apply agree_ret|]. apply agree_bind; [apply Hb|intros; apply IH].
Qed.

Lemma agree_collect {A} n (m : reader A) (k : reader ()) : agree m k -> agree (collect n m) (repeat n k).
Proof. intros H. apply agree_for. intros v _. by apply agree_ret_l. Qed.

Lemma agree_bytes : agree bytes_range skip_bytes.
Proof.
  apply (agree_same_val is_u32); [apply varuint_safe|apply varuint_u32|]. intros n [Hn _] c Hc.
  change (sbind sget _ c) with (sbind (take n) (fun _ => sret (cpos c, n)) c).
  apply (agree_ret_l (take n) (fun _ => (cpos c, n)) (skip n)); [|done].
  eapply agree_fixed; [by apply fixed_take|by apply fixed_skip].
Qed.

Lemma agree_receipt :
  agree (let! r := parse_receipt in sret (Some r))
    (do! varuint ;; do! skip (8 + 32 + 8 + 8) ;; let! asn := varuint in do! repeat asn (skip 16) ;;
     do! varuint ;; do! varuint ;; sret ()).
Proof.
  apply agree_ret_l. unfold parse_receipt. apply agree_same; [apply varuint_safe|]. intros ?.
  change (8 + 32 + 8 + 8) with (8 + (32 + (8 + 8))). apply agree_peel; [apply fixed_u64|lia|]. intros ?.
  apply agree_peel; [apply fixed_checksum256|lia|]. intros ?. apply agree_peel; [apply fixed_u64|lia|]. intros ?.
  apply agree_last; [apply fixed_u64|]. intros ?. apply agree_same; [apply varuint_safe|]. intros asn.
  apply agree_bind; [apply agree_collect; eapply agree_fixed; [apply fixed_u64_pair|by apply fixed_skip]|]. intros ? ?.
  do 2 (apply agree_same; [apply varuint_safe|]; intros ?). apply agree_ret.
Qed.

(** The parser keeps whether [except] is present; the skipper does not. *)
Lemma agree_except {A B} (k : bool -> reader A) (k' : reader B) :
  (forall p, agree (k p) k') ->
  agree (let! except := present in do! (if except then skip_bytes else sret ()) ;; k except)
    (do! if_present skip_bytes ;; k').
Proof.
  intros Hk. assert (E : forall c, (do! if_present skip_bytes ;; k') c =
    (let! p := present in do! (if p then skip_bytes else sret ()) ;; k') c).
  { intros c. unfold if_present, sbind. by destruct (present c) as [[p|e|] c']. }
  intros c Hc. rewrite E. revert c Hc. apply agree_same; [apply present_safe|]. intros p.
  apply agree_bind; [|intros; apply Hk]. destruct p; [apply agree_refl, skip_bytes_safe|apply agree_ret].
Qed.

Lemma agree_action v1 : agree (parse_action_trace v1) (skip_action_trace v1).
Proof.
  unfold parse_action_trace, skip_action_trace. do 2 (apply agree_same; [apply varuint_safe|]; intros ?).
  apply agree_bind.
  { apply agree_same; [apply present_safe|]. intros p. destruct p; [apply agree_receipt|apply agree_ret]. }
  intros ? ?. change (8 + 8 + 8) with (8 + (8 + 8)).
  do 2 (apply agree_peel; [apply fixed_u64|lia|]; intros ?). apply agree_last; [apply fixed_u64|]. intros ?.
  apply agree_same; [apply varuint_safe|]. intros an.
  apply agree_bind; [apply agree_collect; eapply agree_fixed; [apply fixed_u64_pair|by apply fixed_skip]|]. intros ? ?.
  apply agree_bind; [apply agree_bytes|]. intros ? ?. apply agree_peel; [apply fixed_u8|lia|]. intros cf.
  apply agree_last; [apply fixed_i64|]. intros elapsed. apply agree_same; [apply skip_bytes_safe|]. intros ?.
  apply agree_same; [apply varuint_safe|]. intros rd. apply agree_bind.
  { apply agree_collect, (agree_fixed 16); [|by apply fixed_skip].
    apply (fixed_bind 8 8); [apply fixed_u64| |done]. intros. apply (fixed_bind_ret 8), fixed_i64. }
  intros deltas ?.
  apply agree_except. intros except. apply agree_same; [solve_safe|]. intros ?.
  destruct v1; [|apply agree_ret_l, agree_ret]. apply agree_ret_l, agree_ret_l, agree_bytes.
Qed.

Lemma agree_tx : agree parse_tx_v0 skip_tx_v0.
Proof.
  enough (H : agree parse_tx_v0 (skip_tx_body skip_tx_v0)).
  { intros c Hc. rewrite skip_tx_v0_eq by done. by apply H. }
  unfold parse_tx_v0, skip_tx_body. change (32 + 1 + 4) with (32 + (1 + 4)). change (8 + 8 + 1) with (8 + (8 + 1)).
  apply agree_peel; [apply fixed_checksum256|lia|]. intros id. apply agree_peel; [by apply fixed_skip|lia|]. intros ?.
  apply agree_last; [apply fixed_u32|]. intros cpu. apply agree_same; [apply varuint_safe|]. intros net.
  do 2 (apply agree_peel; [by apply fixed_skip|lia|]; intros ?). apply agree_last; [by apply fixed_skip|]. intros ?.
  apply agree_same; [apply varuint_safe|]. intros m. apply agree_bind.
  { apply agree_collect, agree_same; [apply varuint_safe|]. intros v1. apply agree_action. }
  intros actions ?. do 4 (apply agree_same; [solve_safe|]; intros ?). apply agree_ret_l, agree_refl. solve_safe.
Qed.

(** ** The types of what is parsed *)

Definition is_i64 (z : Z) : Prop := - 2 ^ 63 <= z < 2 ^ 63.

(** A range of the payload. *)
Definition range_ok (b : bytes) (r : Z * Z) : Prop := 0 <= r.1 /\ is_u32 r.2 /\ r.1 + r.2 <= blen b.

Definition receipt_ok (r : Receipt) : Prop :=
  is_u64 (rc_receiver r) /\ blen (rc_act_digest r) = 32 /\ is_u64 (rc_global_sequence r) /\
  is_u64 (rc_recv_sequence r) /\ Forall (fun p => is_u64 p.1 /\ is_u64 p.2) (rc_auth_sequence r) /\
  is_u32 (rc_code_sequence r) /\ is_u32 (rc_abi_sequence r).

Definition act_ok (b : bytes) (a : Act) : Prop :=
  is_u32 (ac_action_ordinal a) /\ is_u32 (ac_creator_action_ordinal a) /\
  from_option receipt_ok True (ac_receipt a) /\
  is_u64 (ac_receiver a) /\ is_u64 (ac_account a) /\ is_u64 (ac_name a) /\
  Forall (fun p => is_u64 p.1 /\ is_u64 p.2) (ac_authorization a) /\ range_ok b (ac_data a) /\
  is_i64 (ac_elapsed a) /\ Forall (fun p => is_u64 p.1 /\ is_i64 p.2) (ac_account_ram_deltas a) /\
  from_option (range_ok b) True (ac_return_value a).

Definition tx_ok (b : bytes) (t : Tx) : Prop :=
  blen (tx_id t) = 32 /\ is_u32 (tx_cpu_usage_us t) /\ is_u32 (tx_net_usage_words t) /\ Forall (act_ok b) (tx_actions t).

(** What a parser on the payload [b] can return. *)
Section Returns.
Context (b : bytes).

Definition returns {A} (m : reader A) (P : A -> Prop) : Prop :=
  forall c a c', cursor_wf c -> cb c = b -> m c = (Ok a, c') -> P a.

Lemma returns_ret {A} (a : A) (P : A -> Prop) : P a -> returns (sret a) P.
Proof. intros Ha c a' c' _ _ [= <- _]. done. Qed.

Lemma returns_bind {A B} (m : reader A) (k : A -> reader B) (Q : A -> Prop) P :
  safe m -> returns m Q -> (forall a, Q a -> returns (k a) P) -> returns (sbind m k) P.
Proof.
  intros Hs Hm Hk c y c' Hc Hb H. apply sbind_Ok in H as (a & c1 & H1 & H2).
  pose proof (safe_wf _ _ _ _ Hs Hc H1). destruct (Hs c Hc) as (_ & Hcb & _). rewrite H1 in Hcb. simpl in Hcb.
  apply (Hk a (Hm _ _ _ Hc Hb H1) c1 y c'); [done|congruence|done].
Qed.

Lemma returns_any {A} (m : reader A) : returns m (fun _ => True).
Proof. done. Qed.

Lemma returns_yields {A} (m : reader A) P : yields m P -> returns m P.
Proof. intros H c a c' Hc _ Hm. by eapply H. Qed.

Lemma returns_collect {A} n (m : reader A) P : safe m -> returns m P -> returns (collect n m) (Forall P).
Proof.
  intros Hs Hm. assert (H : forall k v, Forall P v ->
    returns (for_nat k (fun v => let! x := m in sret (v ++ [x])) v) (Forall P)).
  { induction k as [|k IH]; intros v Hv; simpl; [by apply returns_ret|].
    eapply (returns_bind _ _ (Forall P)); [apply safe_bind; [done|solve_safe]| |intros a Ha; by apply IH].
    eapply returns_bind; [done|done|]. intros x Hx. apply returns_ret. apply Forall_app. split; [done|by constructor]. }
  intros c a c' Hc Hb Ha. unfold collect in Ha. rewrite for_count_nat in Ha. by eapply H in Ha.
Qed.

Lemma returns_if {A} (p : bool) (m k : reader A) P : returns m P -> returns k P -> returns (if p then m else k) P.
Proof. by destruct p. Qed.

Lemma returns_take n : 0 <= n -> returns (take n) (fun s => blen s = n).
Proof. intros Hn c s c' Hc _ H. by eapply take_Ok. Qed.

Lemma returns_u32 : returns u32 is_u32.
Proof. eapply returns_bind; [auto with safe|by apply returns_take|]. intros s Hs. by apply returns_ret, le_of_u32. Qed.

Lemma returns_u64 : returns u64 is_u64.
Proof. eapply returns_bind; [auto with safe|by apply returns_take|]. intros s Hs. by apply returns_ret, le_of_u64. Qed.

Lemma returns_i64 : returns i64 is_i64.
Proof.
  eapply returns_bind; [auto with safe|by apply returns_take|]. intros s Hs. apply returns_ret.
  pose proof (le_of_u64 s Hs) as H. unfold is_u64 in H. unfold to_i64, is_i64.
  change (2 ^ 63) with 9223372036854775808. destruct (Z.ltb_spec (le_of s) 9223372036854775808); width_lia.
Qed.

Lemma returns_bytes_range : returns bytes_range (range_ok b).
Proof.
  eapply returns_bind; [apply varuint_safe|apply returns_yields, varuint_u32|]. intros n Hn. pose proof Hn as [Hn0 _].
  intros c r c' Hc Hb H. unfold sbind at 1 in H. simpl in H. rewrite <- Hb.
  apply sbind_Ok in H as (s & c1 & H1 & [= <- _]). rewrite take_spec in H1 by done.
  destruct (Z.leb_spec n (blen (rest c))); [|done]. pose proof (blen_rest c Hc). destruct Hc.
  split; [simpl; lia|]. split; [done|]. simpl. lia.
Qed.

Lemma returns_u64_pair : returns u64_pair (fun p => is_u64 p.1 /\ is_u64 p.2).
Proof.
  eapply returns_bind; [auto with safe|apply returns_u64|]. intros x Hx.
  eapply returns_bind; [auto with safe|apply returns_u64|]. intros y Hy. by apply returns_ret.
Qed.

Lemma returns_ram : returns (let! acc := u64 in let! d := i64 in sret (acc, d)) (fun p => is_u64 p.1 /\ is_i64 p.2).
Proof.
  eapply returns_bind; [auto with safe|apply returns_u64|]. intros x Hx.
  eapply returns_bind; [auto with safe|apply returns_i64|]. intros y Hy. by apply returns_ret.
Qed.

Lemma returns_varuint : returns varuint is_u32.
Proof. apply returns_yields, varuint_u32. Qed.

Lemma returns_checksum : returns checksum256 (fun s => blen s = 32).
Proof. by apply returns_take. Qed.

(** Goes through a parser; a field whose values do not matter gives anything. *)
Ltac give :=
  repeat (first [ apply returns_ret | eapply returns_bind;
    [ solve [solve_safe]
    | first [ apply returns_varuint | apply returns_u64_pair | apply returns_u32 | apply returns_u64 | apply returns_i64
            | apply returns_bytes_range | apply returns_checksum
            | apply returns_collect; [solve [solve_safe]|first [apply returns_u64_pair|apply returns_ram]]
            | apply returns_any ]
    | intros ] ]).

Lemma returns_receipt : returns parse_receipt receipt_ok.
Proof. unfold parse_receipt. give. by split_and!. Qed.

Lemma returns_action v1 : returns (parse_action_trace v1) (act_ok b).
Proof.
  unfold parse_action_trace. do 2 (eapply returns_bind; [auto with safe|apply returns_varuint|intros]).
  eapply (returns_bind _ _ (from_option receipt_ok True)); [unfold parse_receipt; solve_safe| |intros].
  { eapply returns_bind; [auto with safe|apply returns_any|]. intros p _. apply returns_if; [|by apply returns_ret].
    eapply returns_bind; [unfold parse_receipt; solve_safe|apply returns_receipt|]. intros r Hr. by apply returns_ret. }
  do 14 (eapply returns_bind; [ solve [solve_safe]
    | first [ apply returns_varuint | apply returns_u64 | apply returns_i64 | apply returns_bytes_range
            | apply returns_collect; [solve [solve_safe]|first [apply returns_u64_pair|apply returns_ram]] | apply returns_any ]
    | intros ]).
  eapply (returns_bind _ _ (from_option (range_ok b) True)); [solve_safe| |intros; apply returns_ret; by split_and!].
  apply returns_if; [|by apply returns_ret]. eapply returns_bind; [auto with safe|apply returns_bytes_range|].
  intros r Hr. by apply returns_ret.
Qed.

Lemma returns_tx : returns parse_tx_v0 (tx_ok b).
Proof.
  unfold parse_tx_v0. eapply returns_bind; [auto with safe|apply returns_checksum|]. intros id Hid.
  eapply returns_bind; [auto with safe|apply returns_any|]. intros ? _.
  eapply returns_bind; [auto with safe|apply returns_u32|]. intros cpu Hcpu.
  eapply returns_bind; [auto with safe|apply returns_varuint|]. intros net Hnet.
  do 4 (eapply returns_bind; [solve [solve_safe]|apply returns_any|intros ? _]).
  eapply (returns_bind _ _ (Forall (act_ok b))); [solve_safe| |intros actions Ha].
  { apply returns_collect; [solve_safe|]. eapply returns_bind; [auto with safe|apply returns_any|]. intros v1 _. apply returns_action. }
  do 5 (eapply returns_bind; [solve [solve_safe]|apply returns_any|intros ? _]). apply returns_ret. by split_and!.
Qed.
End Returns.

(** ** The layout, as written

    What a node serializes, field by field as the head of the file documents it. *)

Abbreviation vu := Protocol.varuint.

Definition i64_bytes (z : Z) : bytes := le_bytes 8 (wrap64 z).
Definition str_bytes (y : bytes) : bytes := vu (blen y) ++ y.
Definition opt {A} (enc : A -> bytes) (o : option A) : bytes :=
  match o with Some v => x01 :: enc v | None => [x00] end.
Definition seq_bytes {A} (enc : A -> bytes) (l : list A) : bytes := vu (blen l) ++ concat (enc <$> l).
Definition pair_bytes (p : Z * Z) : bytes := le_bytes 8 p.1 ++ le_bytes 8 p.2.
Definition ram_bytes (p : Z * Z) : bytes := le_bytes 8 p.1 ++ i64_bytes p.2.

Definition receipt_bytes (r : Receipt) : bytes :=
  vu 0 ++ le_bytes 8 (rc_receiver r) ++ rc_act_digest r ++ le_bytes 8 (rc_global_sequence r) ++
  le_bytes 8 (rc_recv_sequence r) ++ seq_bytes pair_bytes (rc_auth_sequence r) ++
  vu (rc_code_sequence r) ++ vu (rc_abi_sequence r).

Record act_value := mkActValue {
  av_ordinal : Z; av_creator : Z; av_receipt : option Receipt; av_receiver : Z; av_account : Z; av_name : Z;
  av_authorization : list (Z * Z); av_data : bytes; av_context_free : byte; av_elapsed : Z; av_console : bytes;
  av_ram_deltas : list (Z * Z); av_except : option bytes; av_error_code : option Z; av_return_value : option bytes
}.

(** [action_trace]: v1 is v0 with a return value. *)
Definition act_bytes (v : act_value) : bytes :=
  vu (match av_return_value v with Some _ => 1 | None => 0 end) ++ vu (av_ordinal v) ++ vu (av_creator v) ++
  opt receipt_bytes (av_receipt v) ++ le_bytes 8 (av_receiver v) ++ le_bytes 8 (av_account v) ++
  le_bytes 8 (av_name v) ++ seq_bytes pair_bytes (av_authorization v) ++ str_bytes (av_data v) ++
  [av_context_free v] ++ i64_bytes (av_elapsed v) ++ str_bytes (av_console v) ++
  seq_bytes ram_bytes (av_ram_deltas v) ++ opt str_bytes (av_except v) ++
  opt (le_bytes 8) (av_error_code v) ++ match av_return_value v with Some y => str_bytes y | None => [] end.

Inductive sig_value :=
| SigK1 (x : bytes) | SigR1 (x : bytes) | SigWA (x auth_data client_json : bytes)
| SigEM (x : bytes) | SigED (x : bytes) | SigBLS (x : bytes).

Definition sig_bytes (s : sig_value) : bytes :=
  match s with
  | SigK1 x => x00 :: x
  | SigR1 x => x01 :: x
  | SigWA x a j => x02 :: x ++ str_bytes a ++ str_bytes j
  | SigEM x => x03 :: x
  | SigED x => x04 :: x
  | SigBLS x => x05 :: x01 :: x
  end.

Record partial_value := mkPartial {
  pv_expiration : Z; pv_ref_block_num : Z; pv_ref_block_prefix : Z; pv_max_net : Z; pv_max_cpu : byte;
  pv_delay_sec : Z; pv_extensions : list (Z * bytes); pv_signatures : list sig_value; pv_cfd : list bytes
}.

Definition ext_bytes (e : Z * bytes) : bytes := le_bytes 2 e.1 ++ str_bytes e.2.

Definition partial_bytes (p : partial_value) : bytes :=
  vu 0 ++ (le_bytes 4 (pv_expiration p) ++ le_bytes 2 (pv_ref_block_num p) ++ le_bytes 4 (pv_ref_block_prefix p)) ++
  vu (pv_max_net p) ++ [pv_max_cpu p] ++ vu (pv_delay_sec p) ++ seq_bytes ext_bytes (pv_extensions p) ++
  seq_bytes sig_bytes (pv_signatures p) ++ seq_bytes str_bytes (pv_cfd p).

Record tx_head := mkHead {
  th_id : bytes; th_status : byte; th_cpu_usage_us : Z; th_net_usage_words : Z; th_elapsed : Z; th_net_usage : Z;
  th_scheduled : byte; th_actions : list act_value; th_ram_delta : option (Z * Z); th_except : option bytes;
  th_error_code : option Z
}.

(** A trace, the trace of the deferred transaction it failed to run, if any, and its partial
    transaction. *)
Inductive tx_value :=
| TxTrace (h : tx_head) (p : option partial_value)
| TxFailed (h : tx_head) (failed : tx_value) (p : option partial_value).

Definition tx_top (t : tx_value) : tx_head := match t with TxTrace h _ | TxFailed h _ _ => h end.

Definition head_bytes (h : tx_head) : bytes :=
  th_id h ++ [th_status h] ++ le_bytes 4 (th_cpu_usage_us h) ++ vu (th_net_usage_words h) ++ i64_bytes (th_elapsed h) ++
  le_bytes 8 (th_net_usage h) ++ [th_scheduled h] ++ seq_bytes act_bytes (th_actions h) ++
  opt ram_bytes (th_ram_delta h) ++ opt str_bytes (th_except h) ++ opt (le_bytes 8) (th_error_code h).

(** [transaction_trace], its variant included. *)
Fixpoint tx_bytes (t : tx_value) : bytes :=
  match t with
  | TxTrace h p => vu 0 ++ head_bytes h ++ [x00] ++ opt partial_bytes p
  | TxFailed h f p => vu 0 ++ head_bytes h ++ (x01 :: tx_bytes f) ++ opt partial_bytes p
  end.

Definition block_bytes (txs : list tx_value) : bytes := seq_bytes tx_bytes txs.

(** The values the fields can have. *)
Definition short {A} (l : list A) : Prop := blen l < U32.
Definition receipt_wf (r : Receipt) : Prop := receipt_ok r /\ short (rc_auth_sequence r).

Definition act_wf (v : act_value) : Prop :=
  is_u32 (av_ordinal v) /\ is_u32 (av_creator v) /\ from_option receipt_wf True (av_receipt v) /\
  is_u64 (av_receiver v) /\ is_u64 (av_account v) /\ is_u64 (av_name v) /\
  Forall (fun p => is_u64 p.1 /\ is_u64 p.2) (av_authorization v) /\ short (av_authorization v) /\
  short (av_data v) /\ is_i64 (av_elapsed v) /\ short (av_console v) /\
  Forall (fun p => is_u64 p.1 /\ is_i64 p.2) (av_ram_deltas v) /\ short (av_ram_deltas v) /\
  from_option short True (av_except v) /\ from_option short True (av_return_value v).

Definition sig_wf (s : sig_value) : Prop :=
  match s with
  | SigK1 x | SigR1 x | SigEM x => blen x = 65
  | SigWA x a j => blen x = 65 /\ short a /\ short j
  | SigED x => blen x = 96
  | SigBLS x => blen x = 192
  end.

Definition partial_wf (p : partial_value) : Prop :=
  is_u32 (pv_max_net p) /\ is_u32 (pv_delay_sec p) /\ short (pv_extensions p) /\
  Forall (fun e => short e.2) (pv_extensions p) /\ short (pv_signatures p) /\ Forall sig_wf (pv_signatures p) /\
  short (pv_cfd p) /\ Forall short (pv_cfd p).

Definition head_wf (h : tx_head) : Prop :=
  blen (th_id h) = 32 /\ is_u32 (th_cpu_usage_us h) /\ is_u32 (th_net_usage_words h) /\ short (th_actions h) /\
  Forall act_wf (th_actions h) /\ from_option short True (th_except h).

Fixpoint tx_wf (t : tx_value) : Prop :=
  match t with
  | TxTrace h p => head_wf h /\ from_option partial_wf True p
  | TxFailed h f p => head_wf h /\ tx_wf f /\ from_option partial_wf True p
  end.

(** What the parser must return for it: the fields, and ranges of the payload [b] that hold the
    bytes. *)
Definition range_is (b : bytes) (y : bytes) (r : Z * Z) : Prop := slice b r.1 r.2 = Some y.

Definition act_is (b : bytes) (v : act_value) (a : Act) : Prop :=
  exists data ret, range_is b (av_data v) data /\ option_Forall2 (range_is b) (av_return_value v) ret /\
  a = mkAct (av_ordinal v) (av_creator v) (av_receipt v) (av_receiver v) (av_account v) (av_name v)
        (av_authorization v) data (negb (b2z (av_context_free v) =? 0)) (av_elapsed v) (av_ram_deltas v) ret
        (bool_decide (is_Some (av_except v))).

Definition tx_is (b : bytes) (h : tx_head) (t : Tx) : Prop :=
  tx_id t = th_id h /\ tx_cpu_usage_us t = th_cpu_usage_us h /\ tx_net_usage_words t = th_net_usage_words h /\
  Forall2 (act_is b) (th_actions h) (tx_actions t).

(** *** The cursor reads what is laid out *)

Lemma cur_u8_parses b : parses u8 [b] (b2z b).
Proof.
  change [b] with ([b] ++ []). eapply parses_bind; [apply (take_parses [b])|].
  change (@nil byte) with (@nil byte ++ []). eapply parses_bind; [|apply parses_ret].
  intros c s _ _. rewrite blen_nil, adv_0. done.
Qed.

Lemma le_parses n v : 0 <= v < 256 ^ Z.of_nat n -> parses (let! s := take (Z.of_nat n) in sret (le_of s)) (le_bytes n v) v.
Proof.
  intros Hv. rewrite <- (le_of_le_bytes_id n v Hv) at 2. apply (parses_bind_ret _ le_of).
  rewrite <- (blen_le_bytes n v). apply take_parses.
Qed.

Lemma cur_u32_parses v : is_u32 v -> parses u32 (le_bytes 4 v) v.
Proof. apply (le_parses 4). Qed.

Lemma cur_u64_parses v : is_u64 v -> parses u64 (le_bytes 8 v) v.
Proof. apply (le_parses 8). Qed.

Lemma i64_parses v : is_i64 v -> parses i64 (i64_bytes v) v.
Proof.
  intros Hv. assert (Hw : is_u64 (wrap64 v)) by (by apply Z.mod_pos_bound).
  assert (H : v = to_i64 (le_of (le_bytes 8 (wrap64 v)))).
  { rewrite (le_of_le_bytes_id 8 (wrap64 v)) by exact Hw. unfold to_i64, is_i64 in *. unfold wrap64 in *.
    change (2 ^ 63) with 9223372036854775808 in *. widths. destruct (Z_lt_le_dec v 0).
    - rewrite <- (Z.mod_add v 1) by lia. rewrite Z.mod_small by lia. destruct (Z.ltb_spec (v + 1 * 18446744073709551616) 9223372036854775808); lia.
    - rewrite Z.mod_small by lia. destruct (Z.ltb_spec v 9223372036854775808); lia. }
  rewrite H at 2. apply (parses_bind_ret _ (fun s => to_i64 (le_of s))).
  change 8 with (blen (le_bytes 8 (wrap64 v))). apply take_parses.
Qed.

Lemma skip_parses n x : blen x = n -> parses (skip n) x ().
Proof. intros <-. by apply (parses_bind_ret (take (blen x)) (fun _ => ()) x x), take_parses. Qed.

Lemma checksum_parses x : blen x = 32 -> parses checksum256 x x.
Proof. intros H. unfold checksum256. rewrite <- H. apply take_parses. Qed.

Lemma varuint_loop_parses n k v x :
  (k + n = 6)%nat -> 0 <= v < 2 ^ (7 * Z.of_nat k) -> leb_ended x = true -> (length x <= n)%nat ->
  parses (varuint_loop (shifts_from k n) v) x (wrap32 (v + 2 ^ (7 * Z.of_nat k) * leb_val x)).
Proof.
  revert k v x; induction n as [|n IH]; intros k v x Hk Hv Hx Hn; [by destruct x; simpl in *; [|lia]|].
  destruct x as [|b x]; [done|]. cbn [shifts_from varuint_loop]. change (b :: x) with ([b] ++ x).
  eapply parses_bind; [apply cur_u8_parses|]. cbv zeta. rewrite (lor_group64 b k v ltac:(lia) Hv).
  destruct (group_step b k v Hv) as [Hv' E7]. cbn [leb_val leb_ended app] in *. destruct x as [|d x].
  - bools. destruct (group_last b Hx) as [_ ->]. cbn [leb_val]. rewrite Z.mul_0_r, Z.add_0_r. apply parses_ret.
  - apply andb_true_iff in Hx as [Hb128 Hx]. bools. destruct (group_more b Hb128) as [_ ->].
    match goal with |- parses _ _ (wrap32 ?z) => replace z with
      (v + 2 ^ (7 * Z.of_nat k) * (b2z b mod 128) + 2 ^ (7 * Z.of_nat (S k)) * leb_val (d :: x))
      by (cbn [leb_val]; rewrite E7; ring) end.
    apply IH; [lia|exact Hv'|done|simpl in *; lia].
Qed.

Lemma varuint_reads v : is_u32 v -> parses varuint (vu v) v.
Proof.
  intros Hv. destruct (varuint_spec v) as (Hval & Hend & _ & Hlen); [width_lia|].
  specialize (Hlen 5%nat ltac:(lia)). change (128 ^ Z.of_nat 5) with (2 ^ 35) in Hlen.
  pose proof (varuint_loop_parses 6 0 0 (vu v) eq_refl ltac:(done) Hend) as H.
  rewrite Z.add_0_l, Z.mul_1_l, Hval in H. unfold wrap32 in H. rewrite Z.mod_small in H by apply Hv.
  apply H. unfold blen in Hlen. width_lia.
Qed.

Lemma present_parses (p : bool) : parses present [flag p] p.
Proof.
  replace p with (b2z (flag p) =? 1) at 2 by (by destruct p). by apply (parses_bind_ret u8 (fun x => x =? 1) [flag p] (b2z (flag p))), cur_u8_parses.
Qed.

Lemma short_u32 {A} (l : list A) : short l -> is_u32 (blen l).
Proof. intros H. split; [apply blen_nonneg|done]. Qed.

Lemma skip_bytes_parses y : short y -> parses skip_bytes (str_bytes y) ().
Proof. intros H. eapply parses_bind; [by apply varuint_reads, short_u32|]. by apply skip_parses. Qed.

(** [x01 :: x] as the present byte and its value. *)
Lemma if_present_parses {A} (enc : A -> bytes) (m : reader ()) o :
  (forall v, o = Some v -> parses m (enc v) ()) -> parses (if_present m) (opt enc o) ().
Proof.
  intros H. destruct o as [v|]; simpl.
  - change (x01 :: enc v) with ([flag true] ++ enc v). eapply parses_bind; [apply present_parses|]. by apply H.
  - change [x00] with ([flag false] ++ []). eapply parses_bind; [apply present_parses|apply parses_ret].
Qed.

Lemma repeat_parses {A} (enc : A -> bytes) (m : reader ()) l :
  (forall i, i ∈ l -> parses m (enc i) ()) -> parses (repeat (blen l) m) (concat (enc <$> l)) ().
Proof.
  intros H. pose proof (parses_for (fun _ => m) enc (fun _ _ => ()) l () (fun _ i Hi => H i Hi)) as Hf.
  by destruct (foldl _ _ _).
Qed.

Lemma sig_parses s : sig_wf s -> parses skip_signature (sig_bytes s) ().
Proof.
  destruct s; simpl; intros H.
  1, 2, 4, 5 : change (?t :: x) with ([t] ++ x); eapply parses_bind; [apply cur_u8_parses|by apply skip_parses].
  - destruct H as (Hx & Ha & Hj). change (x02 :: ?r) with ([x02] ++ r). eapply parses_bind; [apply cur_u8_parses|].
    eapply parses_bind; [by apply skip_parses|]. eapply parses_bind; by apply skip_bytes_parses.
  - change (x05 :: x01 :: x) with ([x05] ++ [x01] ++ x). do 2 (eapply parses_bind; [apply cur_u8_parses|]). by apply skip_parses.
Qed.

Lemma partial_parses p : partial_wf p -> parses (do! varuint ;; skip_partial_v0) (partial_bytes p) ().
Proof.
  intros (Hn & Hd & He & Hes & Hs & Hss & Hc & Hcs). unfold partial_bytes, skip_partial_v0, seq_bytes.
  rewrite <- !(app_assoc (vu (blen _))).
  eapply parses_bind; [by apply varuint_reads|]. eapply parses_bind; [apply skip_parses; by rewrite !blen_app, !blen_le_bytes|].
  eapply parses_bind; [by apply varuint_reads|]. eapply parses_bind; [by apply skip_parses|].
  eapply parses_bind; [by apply varuint_reads|]. eapply parses_bind; [by apply varuint_reads, short_u32|].
  eapply parses_bind.
  { apply repeat_parses. intros e Hin. rewrite list.Forall_forall in Hes. eapply parses_bind; [apply skip_parses; by rewrite blen_le_bytes|].
    apply skip_bytes_parses, (Hes e Hin). }
  eapply parses_bind; [by apply varuint_reads, short_u32|].
  eapply parses_bind; [apply repeat_parses; intros s Hin; rewrite list.Forall_forall in Hss; by apply sig_parses, Hss|].
  eapply parses_bind; [by apply varuint_reads, short_u32|].
  apply repeat_parses. intros y Hin. rewrite list.Forall_forall in Hcs. by apply skip_bytes_parses, Hcs.
Qed.

(** [reads m x P]: on the payload [b], [m] reads exactly the bytes [x] and returns some [a] with [P]. *)
Section Reads.
Context (b : bytes).

Definition reads {A} (m : reader A) (x : bytes) (P : A -> Prop) : Prop :=
  forall c s, cursor_wf c -> cb c = b -> rest c = x ++ s -> exists a, m c = (Ok a, adv c (blen x)) /\ P a.

Lemma reads_ret {A} (a : A) (P : A -> Prop) : P a -> reads (sret a) [] P.
Proof. intros Ha c s _ _ _. exists a. by rewrite blen_nil, adv_0. Qed.

Lemma reads_parses {A} (m : reader A) x a : parses m x a -> reads m x (eq a).
Proof. intros H c s Hc _ Hr. exists a. split; [by eapply H|done]. Qed.

Lemma reads_bind {A B} (m : reader A) (k : A -> reader B) x y (Q : A -> Prop) P :
  reads m x Q -> (forall a, Q a -> reads (k a) y P) -> reads (sbind m k) (x ++ y) P.
Proof.
  intros Hm Hk c s Hc Hb Hr. rewrite <- app_assoc in Hr. destruct (Hm c _ Hc Hb Hr) as (a & Ha & HQ).
  destruct (rest_adv c x _ Hc Hr) as [Hc' Hr']. destruct (Hk a HQ (adv c (blen x)) s Hc' Hb Hr') as (y' & Hy & HP).
  exists y'. rewrite (sbind_Ok_eq _ _ _ _ _ Ha), Hy, adv_adv, blen_app. done.
Qed.

Lemma reads_step {A B} (m : reader A) (k : A -> reader B) x y a P :
  parses m x a -> reads (k a) y P -> reads (sbind m k) (x ++ y) P.
Proof. intros Hm Hk. eapply reads_bind; [by apply reads_parses|]. by intros ? <-. Qed.

Lemma reads_bind_ret {A B} (m : reader A) (f : A -> B) x Q (P : B -> Prop) :
  reads m x Q -> (forall a, Q a -> P (f a)) -> reads (let! a := m in sret (f a)) x P.
Proof. intros Hm HP. rewrite <- (app_nil_r x). eapply reads_bind; [done|]. intros a Ha. by apply reads_ret, HP. Qed.

Lemma reads_agree {A B} (m : reader A) (k : reader B) x P : agree m k -> reads m x P -> reads k x (fun _ => True).
Proof.
  intros Ha Hm c s Hc Hb Hr. destruct (Hm c s Hc Hb Hr) as (a & Hok & _). specialize (Ha c Hc). rewrite Hok in Ha.
  destruct Ha as (_ & y & Hy). eauto.
Qed.

Lemma reads_collect {A I} (m : reader A) (enc : I -> bytes) (R : I -> A -> Prop) l :
  (forall i, i ∈ l -> reads m (enc i) (R i)) ->
  reads (collect (blen l) m) (concat (enc <$> l)) (Forall2 R l).
Proof.
  intros Hm. assert (H : forall l v, (forall i, i ∈ l -> reads m (enc i) (R i)) ->
    reads (for_nat (length l) (fun v => let! x := m in sret (v ++ [x])) v) (concat (enc <$> l))
      (fun z => exists v', z = v ++ v' /\ Forall2 R l v')).
  { clear l Hm. induction l as [|i l IH]; intros v Hm; simpl.
    - apply reads_ret. exists []. by rewrite app_nil_r.
    - eapply reads_bind.
      + eapply (reads_bind_ret _ _ _ _ (fun z => exists a, z = v ++ [a] /\ R i a)); [apply Hm; by left|]. eauto.
      + intros z (a & -> & Ha). intros c s Hc Hb Hr.
        destruct (IH (v ++ [a]) ltac:(intros; apply Hm; by right) c s Hc Hb Hr) as (z & Hz & v' & -> & Hv').
        exists ((v ++ [a]) ++ v'). split; [done|]. exists (a :: v'). rewrite <- app_assoc. split; [done|by constructor]. }
  intros c s Hc Hb Hr. destruct (H l [] Hm c s Hc Hb Hr) as (z & Hz & v' & -> & Hv'). exists v'. split; [|done].
  unfold collect. rewrite for_count_nat. unfold blen at 1. by rewrite Nat2Z.id.
Qed.

Lemma collect_parses {A} (m : reader A) (enc : A -> bytes) l :
  (forall i, i ∈ l -> parses m (enc i) i) -> reads (collect (blen l) m) (concat (enc <$> l)) (eq l).
Proof.
  intros H c s Hc Hb Hr.
  destruct (reads_collect m enc eq l (fun i Hi => reads_parses _ _ _ (H i Hi)) c s Hc Hb Hr) as (z & Hz & Hf).
  exists z. split; [done|]. clear -Hf. by induction Hf; f_equal.
Qed.

Lemma bytes_range_reads y : short y -> reads bytes_range (str_bytes y) (range_is b y).
Proof.
  intros Hy c s Hc Hb Hr. unfold str_bytes in Hr. rewrite <- app_assoc in Hr. unfold bytes_range.
  rewrite (sbind_Ok_eq _ _ _ _ _ (varuint_reads _ (short_u32 y Hy) c _ Hc Hr)).
  destruct (rest_adv c _ _ Hc Hr) as [Hc' Hr']. set (c1 := adv c (blen (vu (blen y)))) in *.
  assert (E : forall (k : cursor -> reader (Z * Z)), sbind sget k c1 = k c1 c1) by done. rewrite E.
  rewrite (sbind_Ok_eq _ _ _ _ _ (take_parses y c1 s Hc' Hr')). eexists. split; [|].
  - unfold sret. f_equal. unfold str_bytes, c1. by rewrite adv_adv, blen_app.
  - unfold range_is. cbn [fst snd]. pose proof (slice_rest c1 (blen y) Hc' (blen_nonneg y)) as Hs.
    change (cb c1) with (cb c) in Hs. rewrite Hb in Hs. rewrite Hs, Hr', blen_app. pose proof (blen_nonneg s).
    rewrite (proj2 (Z.leb_le _ _)) by lia. unfold blen. by rewrite Nat2Z.id, take_app_length.
Qed.

Lemma pair_parses p : is_u64 p.1 /\ is_u64 p.2 -> parses u64_pair (pair_bytes p) p.
Proof.
  intros [H1 H2]. destruct p as [x y]. eapply parses_bind; [by apply cur_u64_parses|].
  by apply (parses_bind_ret u64 (fun z => (x, z)) _ y), cur_u64_parses.
Qed.

Lemma ram_parses p :
  is_u64 p.1 /\ is_i64 p.2 -> parses (let! acc := u64 in let! d := i64 in sret (acc, d)) (ram_bytes p) p.
Proof.
  intros [H1 H2]. destruct p as [x y]. eapply parses_bind; [by apply cur_u64_parses|].
  by apply (parses_bind_ret i64 (fun z => (x, z)) _ y), i64_parses.
Qed.

(** A counted list, read into a vector. *)
Lemma seq_reads {A B I} (m : reader A) (enc : I -> bytes) (R : I -> A -> Prop) l (k : list A -> reader B) y P :
  short l -> (forall i, i ∈ l -> reads m (enc i) (R i)) -> (forall v, Forall2 R l v -> reads (k v) y P) ->
  reads (let! n := varuint in let! v := collect n m in k v) (seq_bytes enc l ++ y) P.
Proof.
  intros Hl Hm Hk. unfold seq_bytes. rewrite <- app_assoc. eapply reads_step; [by apply varuint_reads, short_u32|].
  eapply reads_bind; [by apply reads_collect|done].
Qed.

Lemma seq_parses {A B} (m : reader A) (enc : A -> bytes) l (k : list A -> reader B) y P :
  short l -> (forall i, i ∈ l -> parses m (enc i) i) -> reads (k l) y P ->
  reads (let! n := varuint in let! v := collect n m in k v) (seq_bytes enc l ++ y) P.
Proof.
  intros Hl Hm Hk. unfold seq_bytes. rewrite <- app_assoc. eapply reads_step; [by apply varuint_reads, short_u32|].
  eapply reads_bind; [by apply collect_parses|]. by intros ? <-.
Qed.

Lemma receipt_reads r : receipt_wf r -> reads parse_receipt (receipt_bytes r) (eq r).
Proof.
  intros [(H1 & H2 & H3 & H4 & H5 & H6 & H7) Hs]. rewrite list.Forall_forall in H5. unfold parse_receipt, receipt_bytes.
  eapply reads_step; [by apply varuint_reads|]. eapply reads_step; [by apply cur_u64_parses|].
  eapply reads_step; [by apply checksum_parses|]. do 2 (eapply reads_step; [by apply cur_u64_parses|]).
  apply seq_parses; [done|intros i Hi; by apply pair_parses, H5|]. eapply reads_step; [by apply varuint_reads|].
  eapply reads_bind_ret; [by apply reads_parses, varuint_reads|]. intros ? <-. by destruct r.
Qed.

Lemma opt_receipt_reads o :
  from_option receipt_wf True o ->
  reads (let! p := present in if p then let! r := parse_receipt in sret (Some r) else sret None)
    (opt receipt_bytes o) (eq o).
Proof.
  intros H. destruct o as [r|]; simpl.
  - change (x01 :: ?y) with ([flag true] ++ y). eapply reads_step; [apply present_parses|].
    eapply reads_bind_ret; [by apply receipt_reads|]. by intros ? <-.
  - change [x00] with ([flag false] ++ []). eapply reads_step; [apply present_parses|]. by apply reads_ret.
Qed.

Lemma act_reads v :
  act_wf v -> reads (let! v1 := varuint in parse_action_trace (v1 =? 1)) (act_bytes v) (act_is b v).
Proof.
  intros (H1 & H2 & H3 & H4 & H5 & H6 & H7 & H7' & H8 & H9 & H10 & H11 & H11' & H12 & H13).
  rewrite list.Forall_forall in H7, H11. unfold act_bytes, parse_action_trace.
  eapply reads_step; [apply varuint_reads; by destruct (av_return_value v)|]. set (v1 := _ =? 1).
  do 2 (eapply reads_step; [by apply varuint_reads|]). eapply reads_bind; [by apply opt_receipt_reads|]. intros ? <-.
  do 3 (eapply reads_step; [by apply cur_u64_parses|]). apply seq_parses; [done|intros i Hi; by apply pair_parses, H7|].
  eapply reads_bind; [by apply bytes_range_reads|]. intros data Hdata. eapply reads_step; [apply cur_u8_parses|].
  eapply reads_step; [by apply i64_parses|]. eapply reads_step; [by apply skip_bytes_parses|].
  apply seq_parses; [done|intros i Hi; by apply ram_parses, H11|].
  assert (Hx : forall k y P, reads (k (bool_decide (is_Some (av_except v)))) y P ->
    reads (A := Act) (let! except := present in do! (if except then skip_bytes else sret ()) ;; k except)
      (opt str_bytes (av_except v) ++ y) P).
  { intros k y P Hk. destruct (av_except v) as [e|]; simpl.
    - change (x01 :: str_bytes e ++ y) with ([flag true] ++ str_bytes e ++ y).
      eapply reads_step; [apply present_parses|]. eapply reads_step; [by apply skip_bytes_parses|done].
    - change (x00 :: y) with ([flag false] ++ [] ++ y). eapply reads_step; [apply present_parses|].
      eapply reads_step; [apply parses_ret|done]. }
  apply Hx. eapply reads_step; [apply if_present_parses; intros; apply skip_parses, blen_le_bytes|].
  rewrite <- (app_nil_r (match av_return_value v with Some _ => _ | None => _ end)).
  eapply (reads_bind _ _ _ _ (option_Forall2 (range_is b) (av_return_value v))).
  - unfold v1. destruct (av_return_value v) as [y|]; simpl; [|apply reads_ret; constructor].
    eapply reads_bind_ret; [by apply bytes_range_reads|]. intros r Hr. by constructor.
  - intros ret Hret. apply reads_ret. by exists data, ret.
Qed.

(** A trace up to its failed transaction. *)
Lemma tx_reads h (failed : bytes) p :
  head_wf h -> from_option partial_wf True p ->
  (failed = [x00] \/ exists y, failed = x01 :: y /\ reads (do! varuint ;; skip_tx_v0) y (fun _ => True)) ->
  reads parse_tx_v0 (head_bytes h ++ failed ++ opt partial_bytes p) (tx_is b h).
Proof.
  intros (H1 & H2 & H3 & H4 & H5 & H6) Hp Hf. rewrite list.Forall_forall in H5. unfold head_bytes, parse_tx_v0.
  rewrite <- !app_assoc. eapply reads_step; [by apply checksum_parses|]. eapply reads_step; [by apply skip_parses|].
  eapply reads_step; [by apply cur_u32_parses|]. eapply reads_step; [by apply varuint_reads|].
  do 2 (eapply reads_step; [by apply skip_parses, blen_le_bytes|]). eapply reads_step; [by apply skip_parses|].
  apply (seq_reads _ _ (act_is b)); [done|intros i Hi; by apply act_reads, H5|]. intros actions Ha.
  eapply reads_step; [apply if_present_parses; intros; apply skip_parses; unfold ram_bytes, i64_bytes; by rewrite blen_app, !blen_le_bytes|].
  eapply reads_step; [apply if_present_parses; intros y E; rewrite E in H6; by apply skip_bytes_parses|].
  eapply reads_step; [apply if_present_parses; intros; apply skip_parses, blen_le_bytes|].
  eapply (reads_bind _ _ _ _ (fun _ => True)).
  { destruct Hf as [->|(y & -> & Hy)].
    - change [x00] with ([flag false] ++ []). eapply reads_step; [apply present_parses|]. by apply reads_ret.
    - change (x01 :: y) with ([flag true] ++ y). eapply reads_step; [apply present_parses|done]. }
  intros ? _. eapply reads_bind_ret; [apply reads_parses, if_present_parses; intros y ->; by apply partial_parses|].
  intros ? _. by split_and!.
Qed.

Lemma tx_value_reads t : tx_wf t -> reads (do! varuint ;; parse_tx_v0) (tx_bytes t) (tx_is b (tx_top t)).
Proof.
  induction t as [h p|h f IH p]; intros H; cbn [tx_bytes tx_wf tx_top] in *.
  - destruct H as [Hh Hp]. eapply reads_step; [by apply varuint_reads|]. apply (tx_reads h [x00] p); [done|done|by left].
  - destruct H as (Hh & Hf & Hp). eapply reads_step; [by apply varuint_reads|].
    apply (tx_reads h (x01 :: tx_bytes f) p); [done|done|]. right. exists (tx_bytes f). split; [done|].
    eapply reads_agree; [|by apply IH]. apply agree_same; [apply varuint_safe|]. intros _. apply agree_tx.
Qed.
End Reads.

(** ** What a name says *)

Definition name_char (d : Z) : byte := nth (Z.to_nat d) CHARMAP x2e.
Definition char_digit (c : byte) : Z := Z.of_nat (from_option fst 0%nat (list_find (fun x => x = c) CHARMAP)).

(** The value a name stands for: twelve digits of five bits and one of four, the name filled up with
    dots, which are zeros. *)
Definition name_pad (s : bytes) : bytes := s ++ List.repeat x2e (13 - length s).
Definition name_value (s : bytes) : Z :=
  let p := name_pad s in
  16 * foldl (fun v c => 32 * v + char_digit c) 0 (List.firstn 12 p) + from_option char_digit 0 (p !! 12%nat).

Lemma char_digit_char d : 0 <= d < 32 -> char_digit (name_char d) = d.
Proof.
  intros Hd. replace d with (Z.of_nat (Z.to_nat d)) by lia. assert (Hn : (Z.to_nat d < 32)%nat) by lia.
  generalize dependent (Z.to_nat d). intros n Hn. do 32 (destruct n as [|n]; [reflexivity|]). lia.
Qed.

Fixpoint name_digits (n : nat) (v : Z) : list Z :=
  match n with
  | O => []
  | S n => name_digits n (Z.shiftr v 5) ++ [Z.land v 31]
  end.

Lemma name_loop_digits n v s : name_loop n false v s = (name_char <$> name_digits n v) ++ s.
Proof.
  revert v s; induction n as [|n IH]; intros v s; cbn [name_loop name_digits]; [done|].
  rewrite IH, fmap_app, <- app_assoc. done.
Qed.

Lemma name_digits_value n v :
  0 <= v -> foldl (fun v c => 32 * v + char_digit c) 0 (name_char <$> name_digits n v) = v mod 32 ^ Z.of_nat n.
Proof.
  revert v; induction n as [|n IH]; intros v Hv; cbn [name_digits]; [by rewrite Z.mod_1_r|].
  rewrite fmap_app, foldl_app, IH by (by apply Z.shiftr_nonneg). cbn [fmap list_fmap foldl].
  assert (Hl : Z.land v 31 = v mod 32) by (change 31 with (Z.ones 5); by rewrite Z.land_ones by lia).
  rewrite char_digit_char, Hl by (rewrite Hl; by apply Z.mod_pos_bound).
  rewrite Z.shiftr_div_pow2 by lia. change (2 ^ 5) with 32.
  rewrite Nat2Z.inj_succ, Z.pow_succ_r by lia. rewrite Z.rem_mul_r; [lia|lia|]. apply Z.pow_pos_nonneg; lia.
Qed.

Lemma length_name_digits n v : length (name_digits n v) = n.
Proof. revert v; induction n as [|n IH]; intros v; cbn [name_digits]; [done|]. rewrite length_app, IH. simpl. lia. Qed.

Lemma trim_dots_pad s : s = trim_dots s ++ List.repeat x2e (length s - length (trim_dots s)) /\
  (length (trim_dots s) <= length s)%nat /\ (forall t, trim_dots s <> t ++ [x2e]).
Proof.
  induction s as [|c s (IH & Hl & Hlast)]; cbn [trim_dots]; [split_and!; [done|done|by intros []]|].
  destruct (bool_decide (trim_dots s = [])) eqn:Ht; bools; cbn [andb].
  - rewrite Ht in *. destruct (bool_decide (c = x2e)) eqn:Hd; bools.
    + subst c. simpl in *. rewrite Nat.sub_0_r in IH. rewrite <- IH. split_and!; [done|lia|by intros []].
    + simpl in *. rewrite Nat.sub_0_r in *. rewrite <- IH. split_and!; [done|lia|]. intros [|? []]; simpl; congruence.
  - simpl. rewrite <- IH. split_and!; [done|lia|]. intros [|d t]; simpl; intros [= -> E]; [done|]. by apply (Hlast t).
Qed.

Lemma name_loop_split v : name_loop 13 true v [] = (name_char <$> name_digits 12 (Z.shiftr v 4)) ++ [name_char (Z.land v 15)].
Proof. exact (name_loop_digits 12 (Z.shiftr v 4) [name_char (Z.land v 15)]). Qed.

Lemma length_name_loop v : length (name_loop 13 true v []) = 13%nat.
Proof. rewrite name_loop_split, length_app, length_fmap, length_name_digits. done. Qed.

Lemma name_value_pad s ds c :
  length ds = 12%nat -> ds ++ [c] = s ++ List.repeat x2e (13 - length s) ->
  name_value s = 16 * foldl (fun v c => 32 * v + char_digit c) 0 ds + char_digit c.
Proof.
  intros Hds Hp. unfold name_value, name_pad. rewrite <- Hp, take_app_length', list_lookup_middle by done. done.
Qed.

Lemma name_value_to_string v : is_u64 v -> name_value (name_to_string v) = v.
Proof.
  intros Hv. unfold is_u64 in Hv. destruct (trim_dots_pad (name_loop 13 true v [])) as (Hp & Hl & _).
  rewrite length_name_loop in Hp, Hl. unfold name_to_string. rewrite name_loop_split in *.
  pose proof (name_digits_value 12 (Z.shiftr v 4) ltac:(apply Z.shiftr_nonneg; lia)) as Hd.
  assert (Hds : length (name_char <$> name_digits 12 (Z.shiftr v 4)) = 12%nat) by (by rewrite length_fmap, length_name_digits).
  set (ds := name_char <$> _) in *. clearbody ds. rewrite (name_value_pad _ ds (name_char (Z.land v 15)) Hds Hp), Hd.
  assert (Hl15 : Z.land v 15 = v mod 16) by (change 15 with (Z.ones 4); by rewrite Z.land_ones by lia).
  rewrite Hl15. pose proof (Z.mod_pos_bound v 16 eq_refl). rewrite char_digit_char by lia.
  rewrite Z.shiftr_div_pow2 by lia. change (2 ^ 4) with 16. rewrite (Z.mod_small (v / 16)); [pose proof (Z.div_mod v 16 ltac:(done)); lia|].
  split; [apply Z.div_pos; lia|]. apply Z.div_lt_upper_bound; [lia|]. change (16 * 32 ^ Z.of_nat 12) with U64. lia.
Qed.

Lemma name_chars v : Forall (fun c => c ∈ CHARMAP) (name_to_string v).
Proof.
  destruct (trim_dots_pad (name_loop 13 true v [])) as (Hp & _). unfold name_to_string.
  assert (H : Forall (fun c => c ∈ CHARMAP) (name_loop 13 true v [])); [|rewrite Hp in H; apply Forall_app in H as [H _]; exact H].
  assert (Hc : forall d, name_char d ∈ CHARMAP).
  { intros d. unfold name_char. destruct (Nat.lt_ge_cases (Z.to_nat d) (length CHARMAP)) as [Hd|Hd].
    - apply list_elem_of_In, nth_In, Hd.
    - rewrite nth_overflow by done. by left. }
  rewrite name_loop_split. apply Forall_app. split; [|constructor; [apply Hc|constructor]].
  apply Forall_fmap, list.Forall_forall. intros d _. apply Hc.
Qed.

(** A block of one trace that failed to run a deferred transaction, with an action of each version,
    and a partial transaction. *)
Definition ext_receipt : Receipt := mkReceipt 7 (List.repeat x11 32) 900 9 [(7, 3); (8, 4)] 1 300.
Definition ext_act0 : act_value :=
  mkActValue 1 0 (Some ext_receipt) 7 7 99 [(7, 5)] [x0a; x0b; x0c] x01 (-4) [x68; x69] [(7, -128)] None None None.
Definition ext_act1 : act_value :=
  mkActValue 2 1 None 8 7 99 [] [] x00 12 [] [] (Some [x65]) (Some 3050001) (Some [xff; x00]).
Definition ext_head (acts : list act_value) : tx_head :=
  mkHead (List.repeat x22 32) x00 150 20 (-1) 160 x00 acts (Some (7, 4)) (Some [x65; x72]) (Some 1).
Definition ext_partial : partial_value :=
  mkPartial 1 2 3 4 x05 6 [(1, [x01])] [SigK1 (List.repeat x33 65); SigWA (List.repeat x33 65) [x01] [x7b; x7d]] [[x01]].
Definition ext_block : list tx_value :=
  [TxFailed (ext_head [ext_act0; ext_act1]) (TxTrace (ext_head [ext_act1]) None) (Some ext_partial);
   TxTrace (ext_head []) None].

Ltac value_wf := repeat first [ split | constructor | lia | reflexivity | (vm_compute; intuition congruence) ].

(** ** Properties *)

(** C35: skipping is parsing. On every input and from every position, [skip_action_trace] and
    [skip_tx_v0], which read the same layout in larger steps and keep nothing, fail exactly where
    [parse_action_trace] and [parse_tx_v0] fail, and stop at the very byte where these stop when they
    succeed; neither panics, and [skip_tx_v0] satisfies the recursive equation of the code whatever
    the depth of the traces. *)
Theorem skip_follows_parse (c : cursor) (Hc : cursor_wf c) :
  (forall v1, match parse_action_trace v1 c with
              | (Ok _, c') => skip_action_trace v1 c = (Ok (), c')
              | (Err _, _) => is_err (skip_action_trace v1 c).1 = true
              | (Panic, _) => False
              end) /\
  match parse_tx_v0 c with
  | (Ok _, c') => skip_tx_v0 c = (Ok (), c')
  | (Err _, _) => is_err (skip_tx_v0 c).1 = true
  | (Panic, _) => False
  end /\
  skip_tx_v0 c = skip_tx_body skip_tx_v0 c.
Proof.
  split_and!; [intros v1; pose proof (agree_action v1 c Hc) as H|pose proof (agree_tx c Hc) as H|by apply skip_tx_v0_eq].
  - destruct (parse_action_trace v1 c) as [[a|e|] c']; [|done|done]. by destruct H as (_ & [] & ?).
  - destruct (parse_tx_v0 c) as [[a|e|] c']; [|done|done]. by destruct H as (_ & [] & ?).
Qed.

Lemma skip_follows_parse_witness :
  let b := List.tl (tx_bytes (TxTrace (ext_head [ext_act0; ext_act1]) (Some ext_partial))) in
  skip_tx_v0 (new b) = (Ok (), mkCursor b (blen b)) /\ is_err (skip_tx_v0 (new [x00; x01])).1 = true.
Proof.
  intros b. split.
  - assert (Hc : cursor_wf (new b)) by (vm_compute; intuition congruence).
    destruct (skip_follows_parse (new b) Hc) as (_ & H & _). revert H.
    assert (E : (parse_tx_v0 (new b)).2 = mkCursor b (blen b) /\ is_ok (parse_tx_v0 (new b)).1 = true)
      by (vm_compute; split; reflexivity).
    destruct (parse_tx_v0 (new b)) as [[t|e|] c'], E as [E1 E2]; [|discriminate E2|discriminate E2].
    simpl in E1. rewrite E1. intros H; exact H.
  - assert (Hc : cursor_wf (new [x00; x01])) by (vm_compute; intuition congruence).
    destruct (skip_follows_parse (new [x00; x01]) Hc) as (_ & H & _). exact H.
Defined.

(** [parse_block] on any bytes. It ends, returning the transactions or nothing, and never
    panics; what it returns has the types it promises, and every range of an action's data and
    return value lies inside the payload. *)
Lemma parse_block_total (payload : bytes) (Hlen : blen payload < U64) :
  match parse_block payload with
  | Ok txs => Forall (tx_ok payload) txs
  | Err _ => True
  | Panic => False
  end.
Proof.
  assert (Hc : cursor_wf (new payload)) by (split; simpl; [pose proof (blen_nonneg payload); lia|done]).
  assert (Hs : safe block_reader) by (unfold block_reader; solve_safe; apply parse_tx_v0_safe).
  assert (Hg : returns payload block_reader (Forall (tx_ok payload))).
  { eapply returns_bind; [apply varuint_safe|apply returns_any|]. intros n _. apply returns_collect.
    - apply safe_bind; [apply varuint_safe|intros; apply parse_tx_v0_safe].
    - eapply returns_bind; [apply varuint_safe|apply returns_any|]. intros ? _. apply returns_tx. }
  unfold parse_block. destruct (Hs _ Hc) as (Hp & _).
  destruct (block_reader (new payload)) as [[txs|e|] c'] eqn:E; simpl in *; [|done|done]. by apply (Hg _ _ _ Hc eq_refl E).
Qed.

Lemma parse_block_total_witness : exists txs, parse_block (block_bytes ext_block) = Ok txs /\
  Forall (tx_ok (block_bytes ext_block)) txs /\ length txs = 2%nat.
Proof.
  assert (Hl : blen (block_bytes ext_block) < U64) by (vm_compute; reflexivity).
  pose proof (parse_block_total (block_bytes ext_block) Hl) as H.
  assert (E : length <$> ok_of (parse_block (block_bytes ext_block)) = Some 2%nat) by (vm_compute; reflexivity).
  destruct (parse_block (block_bytes ext_block)) as [txs|e|]; [|discriminate E|discriminate E].
  injection E as E. exists txs. split; [reflexivity|]. split; [exact H|exact E].
Defined.

(** C36: [parse_block] reads the documented layout. On the traces of a block as a node writes them,
    with failed deferred transactions nested to any depth and partial transactions with every kind of
    signature, it returns one transaction per trace, with the fields written, and the ranges of its
    actions hold exactly the bytes of the data and return values. *)
Theorem parse_block_roundtrip (txs : list tx_value) (tail : bytes) (Hn : short txs) (Hwf : Forall tx_wf txs)
    (Hlen : blen (block_bytes txs ++ tail) < U64) :
  exists parsed, parse_block (block_bytes txs ++ tail) = Ok parsed /\
    Forall2 (fun t x => tx_is (block_bytes txs ++ tail) (tx_top t) x) txs parsed.
Proof.
  set (payload := block_bytes txs ++ tail) in *.
  assert (Hc : cursor_wf (new payload)) by (split; simpl; [pose proof (blen_nonneg payload); lia|done]).
  rewrite list.Forall_forall in Hwf.
  assert (H : reads payload block_reader (block_bytes txs) (Forall2 (fun t x => tx_is payload (tx_top t) x) txs)).
  { eapply reads_step; [by apply varuint_reads, short_u32|]. apply (reads_collect payload _ tx_bytes).
    intros t Ht. by apply tx_value_reads, Hwf. }
  destruct (H (new payload) tail Hc eq_refl eq_refl) as (parsed & Hp & Hr). exists parsed. split; [|done].
  unfold parse_block. by rewrite Hp.
Qed.

Lemma parse_block_roundtrip_witness : exists x y, parse_block (block_bytes ext_block) = Ok [x; y] /\
  tx_is (block_bytes ext_block) (ext_head [ext_act0; ext_act1]) x.
Proof.
  assert (Hn : short ext_block) by (vm_compute; reflexivity).
  assert (Hwf : Forall tx_wf ext_block) by value_wf.
  assert (Hl : blen (block_bytes ext_block ++ []) < U64) by (vm_compute; reflexivity).
  destruct (parse_block_roundtrip ext_block [] Hn Hwf Hl) as (parsed & Hp & Hf). rewrite app_nil_r in Hp, Hf.
  apply Forall2_cons_inv_l in Hf as (x & l & Hx & Hf & ->). apply Forall2_cons_inv_l in Hf as (y & l' & _ & Hf & ->).
  apply Forall2_nil_inv_l in Hf as ->. exists x, y. split; [exact Hp|exact Hx].
Defined.

(** A printed name determines its value. For every [u64], the string [name_to_string] gives has
    at most thirteen characters, all of the name alphabet, does not end in a dot, and the value it
    stands for is the one printed; so two values never print alike. *)
Lemma name_roundtrip (v : Z) (Hv : is_u64 v) :
  name_value (name_to_string v) = v /\ (length (name_to_string v) <= 13)%nat /\
  (forall t, name_to_string v <> t ++ [x2e]) /\
  Forall (fun c => c ∈ CHARMAP) (name_to_string v) /\
  forall v', is_u64 v' -> name_to_string v' = name_to_string v -> v' = v.
Proof.
  assert (Hr : forall u, is_u64 u -> name_value (name_to_string u) = u) by apply name_value_to_string.
  destruct (trim_dots_pad (name_loop 13 true v [])) as (_ & Hl & Hd).
  rewrite length_name_loop in Hl. split; [by apply Hr|]. split; [exact Hl|]. split; [exact Hd|].
  split; [apply name_chars|].
  intros v' Hv' E. by rewrite <- (Hr v Hv), <- E, Hr.
Qed.

Lemma name_roundtrip_witness :
  name_to_string 6138663577826885632 = String.list_byte_of_string "eosio" /\
  name_value (String.list_byte_of_string "eosio") = 6138663577826885632.
Proof.
  assert (E : name_to_string 6138663577826885632 = String.list_byte_of_string "eosio") by (vm_compute; reflexivity).
  split; [exact E|]. rewrite <- E.
  assert (Hv : is_u64 6138663577826885632) by (vm_compute; intuition congruence).
  destruct (name_roundtrip _ Hv) as [H _]. exact H.
Defined.
