(* ===== verification/Framing.v ===== *)
(** * Framing whole entries without an index ([crates/log-repair/src/framing.rs], [format.rs])

    When the index of a log is gone, [log-repair] finds its entries by walking them: [signed_block]
    gives the exact end of a block in bytes that may go on, [preamble] the end of a block log's
    header, and [orphans] the entries a fork left between two index positions. [Walk] is a cursor
    with a limit and its own error for input that ends too early, [Incomplete], on which the caller
    reads more.

    The theorems: a block that is framed is framed the same whatever follows it, and every shorter
    prefix of it is [Incomplete], never a shorter block and never damage; what is framed is what the
    server's own [block_header] decodes, with the same id; a preamble that is accepted has the first
    block and the chain id the server's reader takes from it; and [orphans] accepts exactly runs of
    whole entries whose trailers name their positions. sha256 is a parameter. *)

From S2P Require Import Prelude.
From S2P Require Import Errors.
From S2P Require Import Cursor.
From S2P Require Import Binio.
From S2P Require Import ShipLog.
From S2P Require Import BlockLog.

(** [io::MAX_BYTES]. *)
Definition MAX_BYTES : Z := 256 * 1024 * 1024.

Inductive frame_error :=
| Incomplete | EntryTooLong | VarOverflow | NonCanonical | LongVector | KeyType (k : Z) | SignatureType (k : Z)
| ProducerFlag | NumberOverflow | ReceiptStatus | Compression | ReceiptVariant (k : Z)
| PrunedVersion (v : Z) | UnknownVersion (v : Z) | FirstBlock | NoSeparator
| NoOrphanHeader (at_ : Z) | OrphanPastEnd (at_ : Z) | OrphanTrailer (at_ : Z).

Module Walk.

Abbreviation reader := (M frame_error cursor).

Definition take (n : Z) : reader bytes := fun c =>
  match checked_add64 (cpos c) n with
  | None => (Err Incomplete, c)
  | Some end_ =>
      if negb (end_ <=? MAX_BYTES) then (Err EntryTooLong, c)
      else if blen (cb c) <? end_ then (Err Incomplete, c)
      else match slice (cb c) (cpos c) n with
           | Some s => (Ok s, mkCursor (cb c) end_)
           | None => (Panic, c)
           end
  end.

Definition byte_ : reader Z :=
  let! s := take 1 in
  let! x := slift (or_panic (s !! 0%nat)) in
  sret (b2z x).

Fixpoint var_loop (shifts : list Z) (out : Z) : reader Z :=
  match shifts with
  | [] => sfail VarOverflow
  | shift :: shifts =>
      let! b := byte_ in
      do! sensure (negb (shift =? 28) || (b <=? 15)) VarOverflow ;;
      let out := Z.lor out (wrap32 (Z.shiftl (Z.land b 127) shift)) in
      if Z.land b 128 =? 0 then
        do! sensure ((shift =? 0) || negb (b =? 0)) NonCanonical ;;
        sret out
      else var_loop shifts out
  end.

Definition var : reader Z := var_loop [0; 7; 14; 21; 28] 0.

Definition count : reader Z :=
  let! n := var in
  do! sensure (n <=? 1000000) LongVector ;;
  sret n.

Definition blob : reader () := let! n := var in do! take n ;; sret ().

Definition key : reader () :=
  let! k := var in
  if (k =? 0) || (k =? 1) then do! take 33 ;; sret ()
  else if k =? 2 then do! take 34 ;; blob
  else sfail (KeyType k).

Definition signature : reader () :=
  let! k := var in
  if (k =? 0) || (k =? 1) then do! take 65 ;; sret ()
  else if k =? 2 then do! take 65 ;; do! blob ;; blob
  else sfail (SignatureType k).

Definition extensions : reader () :=
  let! n := count in
  for_count n (fun _ => do! take 2 ;; blob) ().
End Walk.

Record Header := mkFrame { hd_number : Z; hd_id : bytes; hd_previous : bytes }.

Record Preamble := mkPreamble { pr_first : Z; pr_end : Z; pr_chain_id : bytes }.

Section Blocks.
Context (sha256 : bytes -> bytes).
Import Walk.

(** [bytes[..c.pos]]. *)
Definition consumed : reader bytes := fun c => (or_panic (slice (cb c) 0 (cpos c)), c).

(** The transaction of a receipt: an id, or a packed transaction. *)
Definition receipt : reader () :=
  let! status := byte_ in
  do! sensure (status <=? 4) ReceiptStatus ;;
  do! take 4 ;;
  do! var ;;
  let! k := var in
  if k =? 0 then do! take 32 ;; sret ()
  else if k =? 1 then
    let! n := count in
    do! for_count n (fun _ => signature) () ;;
    let! compression := byte_ in
    do! sensure (compression <=? 1) Compression ;;
    do! blob ;;
    blob
  else sfail (ReceiptVariant k).

(** The fields of the header of a block, up to its end; the value is [previous]. *)
Definition fields_walk : reader bytes :=
  do! take 14 ;;
  let! previous := take 32 in
  do! take 68 ;;
  let! flag := byte_ in
  do! (if flag =? 0 then sret ()
       else if flag =? 1 then
         do! take 4 ;;
         let! n := count in
         for_count n (fun _ => do! take 8 ;; key) ()
       else sfail ProducerFlag) ;;
  do! extensions ;;
  sret previous.

Definition header_walk : reader Header :=
  let! previous := fields_walk in
  let! number := slift (or_err (checked_add32 (num_from_id previous) 1) Incomplete) in
  do! sensure (number <? u32_max) NumberOverflow ;;
  let! packed := consumed in
  sret (mkFrame number (be_bytes 4 number ++ drop 4 (sha256 packed)) previous).

Definition block_walk : reader Header :=
  let! h := header_walk in
  do! signature ;;
  let! n := count in
  do! for_count n (fun _ => receipt) () ;;
  do! extensions ;;
  sret h.

Definition signed_block (b : bytes) : res frame_error (Header * Z) :=
  match block_walk (mkCursor b 0) with
  | (Ok h, c) => Ok (h, cpos c)
  | (Err e, _) => Err e
  | (Panic, _) => Panic
  end.

(** [check_block_log_version]. *)
Definition check_block_log_version (version : Z) : res frame_error () :=
  do? ensure (Z.land version 2147483648 =? 0) (PrunedVersion version) ;;
  ensure ((1 <=? version) && (version <=? 3)) (UnknownVersion version).

(** [ULTRA_GENESIS_CHAIN_IDS], as hexadecimal digits. *)
Definition hex_digit (c : byte) : Z :=
  let z := b2z c in if z <=? 57 then z - 48 else z - 87.
Fixpoint unhex (s : bytes) : bytes :=
  match s with
  | a :: b :: s => z2b (16 * hex_digit a + hex_digit b) :: unhex s
  | _ => []
  end.
Definition ULTRA_GENESIS_CHAIN_IDS : list bytes :=
  [unhex (String.list_byte_of_string "a9c481dfbc7d9506dc7e87e9a137c931b0a9303f64fd7a1d08b8230133920097");
   unhex (String.list_byte_of_string "7fc56be645bb76ab9d747b53089f132dcb7681db06f0852cfa03eaf6f7ac80e9")].

(** Whether the genesis that starts at [start] and has 69 bytes left is a pinned one. *)
Definition ultra_at (start : Z) (c : cursor) : bool :=
  match slice (cb c) start (cpos c + 69 - start) with
  | Some g => bool_decide (sha256 g ∈ ULTRA_GENESIS_CHAIN_IDS)
  | None => false
  end.

Definition genesis_walk : reader bytes :=
  let! c := sget in
  let start := cpos c in
  do! take 8 ;;
  do! key ;;
  let! c := sget in
  do! take (if ultra_at start c then 69 else 68) ;;
  let! c := sget in
  let! g := slift (or_panic (slice (cb c) start (cpos c - start))) in
  sret (sha256 g).

Definition preamble_walk : reader (Z * bytes) :=
  let! v := take 4 in
  let version := le_of v in
  do! slift (check_block_log_version version) ;;
  let! first := (if version =? 1 then sret 1 else let! s := take 4 in sret (le_of s)) in
  do! sensure ((0 <? first) && (first <? u32_max)) FirstBlock ;;
  let! chain_id := (if (version <=? 2) || (first =? 1) then genesis_walk else take 32) in
  do! (if version =? 1 then sret ()
       else let! s := take 8 in sensure (bool_decide (s = List.repeat xff 8)) NoSeparator) ;;
  sret (first, chain_id).

Definition preamble (b : bytes) : res frame_error Preamble :=
  match preamble_walk (mkCursor b 0) with
  | (Ok (first, chain_id), c) => Ok (mkPreamble first (cpos c) chain_id)
  | (Err e, _) => Err e
  | (Panic, _) => Panic
  end.
End Blocks.

(** ** Orphaned state-history entries *)

(** [u64le(&b[at..])]: panics where there are fewer than eight bytes. *)
Definition u64le (b : bytes) (at_ : Z) : res frame_error Z :=
  let? s := or_panic (slice b at_ 8) in Ok (le_of s).

Definition ship_entry_size (header : bytes) : res frame_error Z :=
  let? size := u64le header 40 in Ok (sat_add64 56 size).

(** One turn of the loop, [next] being the rest of it. *)
Definition orphan_turn (next : bytes -> Z -> Z -> res frame_error Z) (b : bytes) (at_ count : Z) : res frame_error Z :=
  let? magic := (if 56 <=? blen b then u64le b 0 else Ok 0) in
  do? ensure ((56 <=? blen b) && (magic =? SHIP_MAGIC)) (NoOrphanHeader at_) ;;
  let? size := ship_entry_size b in
  do? ensure (size <=? blen b) (OrphanPastEnd at_) ;;
  let? trailer := u64le b (size - 8) in
  do? ensure (trailer =? at_) (OrphanTrailer at_) ;;
  next (drop (Z.to_nat size) b) (add64 at_ size) (add64 count 1).

Fixpoint orphans_loop (fuel : nat) (b : bytes) (at_ count : Z) : res frame_error Z :=
  match b with
  | [] => Ok count
  | _ =>
      match fuel with
      | O => Panic
      | S fuel => orphan_turn (orphans_loop fuel) b at_ count
      end
  end.

(** Every turn drops at least 56 bytes. *)
Definition orphans (b : bytes) (at_ : Z) : res frame_error Z := orphans_loop (length b) b at_ 0.

(** ** Parsers that frame what they read

    [same b b' n]: the first [n] bytes agree. A [delimited] parser that read up to some end reads the
    same, to the same end, from any bytes that agree up to there, and from a prefix that stops short
    of it the answer is [Incomplete]. *)
Definition same (b b' : bytes) (n : Z) : Prop := take (Z.to_nat n) b = take (Z.to_nat n) b'.

Lemma same_le b b' n m : same b b' m -> n <= m -> same b b' n.
Proof.
  unfold same. intros H Hle. apply (f_equal (take (Z.to_nat n))) in H. rewrite !take_take in H.
  by replace (Z.to_nat n `min` Z.to_nat m)%nat with (Z.to_nat n) in H by lia.
Qed.

Lemma same_slice b b' off n :
  same b b' (off + n) -> off + n <= blen b -> off + n <= blen b' -> slice b off n = slice b' off n.
Proof.
  intros H Hb Hb'. destruct (Z_lt_le_dec off 0); [by unfold slice; rewrite (proj2 (Z.leb_gt 0 off)) by lia|].
  destruct (Z_lt_le_dec n 0).
  { unfold slice. by rewrite (proj2 (Z.leb_gt 0 n)), !andb_false_r by lia. }
  assert (Hs : exists s, slice (take (Z.to_nat (off + n)) b) off n = Some s).
  { apply slice_is_Some; [lia|lia|]. rewrite blen_take by lia. lia. }
  destruct Hs as [s Hs]. transitivity (Some s); [|symmetry].
  - rewrite <- (take_drop (Z.to_nat (off + n)) b). by apply slice_app_l.
  - unfold same in H. rewrite H in Hs. rewrite <- (take_drop (Z.to_nat (off + n)) b'). by apply slice_app_l.
Qed.

Section Delimited.
Import Walk.

Definition delimited {A} (m : reader A) : Prop :=
  forall c a c', cursor_wf c -> m c = (Ok a, c') ->
    cb c' = cb c /\ cpos c <= cpos c' <= blen (cb c) /\
    forall b', cpos c <= blen b' < U64 -> same (cb c) b' (Z.min (cpos c') (blen b')) ->
      if cpos c' <=? blen b' then m (mkCursor b' (cpos c)) = (Ok a, mkCursor b' (cpos c'))
      else exists c'', m (mkCursor b' (cpos c)) = (Err Incomplete, c'').

(** A step that only computes. *)
Lemma delimited_pure {A} (r : res frame_error A) : delimited (slift r).
Proof.
  intros c a c' [Hc _] [= -> <-]. split; [done|]. split; [lia|]. intros b' Hb' _.
  rewrite (proj2 (Z.leb_le _ _)) by lia. done.
Qed.

Lemma delimited_ret {A} (a : A) : delimited (sret a).
Proof. apply (delimited_pure (Ok a)). Qed.

Lemma delimited_fail {A} e : delimited (A := A) (sfail e).
Proof. apply (delimited_pure (Err e)). Qed.

Lemma delimited_sensure t e : delimited (sensure t e).
Proof. destruct t; [apply delimited_ret|apply delimited_fail]. Qed.

Lemma delimited_if {A} (t : bool) (m k : reader A) : delimited m -> delimited k -> delimited (if t then m else k).
Proof. by destruct t. Qed.

Lemma delimited_bind_val {A B} (P : A -> Prop) (m : reader A) (k : A -> reader B) :
  delimited m -> yields m P -> (forall a, P a -> delimited (k a)) -> delimited (sbind m k).
Proof.
  intros Hm HP Hk c y c2 Hc H. apply sbind_Ok in H as (a & c1 & H1 & H2).
  destruct (Hm c a c1 Hc H1) as (Hb1 & Hp1 & Hl1). assert (Hc1 : cursor_wf c1) by (destruct Hc; split; rewrite Hb1; lia).
  destruct (Hk a (HP _ _ _ Hc H1) c1 y c2 Hc1 H2) as (Hb2 & Hp2 & Hl2). rewrite Hb1 in *. split; [congruence|]. split; [lia|].
  intros b' Hb' Hs. assert (Hs1 : same (cb c) b' (Z.min (cpos c1) (blen b'))) by (eapply same_le; [exact Hs|lia]).
  specialize (Hl1 b' Hb' Hs1). unfold sbind.
  destruct (Z.leb_spec (cpos c1) (blen b')).
  - rewrite Hl1. apply Hl2; [lia|done].
  - destruct Hl1 as (c'' & ->). rewrite (proj2 (Z.leb_gt _ _)) by lia. by exists c''.
Qed.

Lemma delimited_bind {A B} (m : reader A) (k : A -> reader B) :
  delimited m -> (forall a, delimited (k a)) -> delimited (sbind m k).
Proof. intros Hm Hk. eapply delimited_bind_val; [done|apply yields_any|auto]. Qed.

Lemma delimited_for {A} n (body : A -> reader A) a : (forall a, delimited (body a)) -> delimited (for_count n body a).
Proof.
  intros Hb. assert (H : forall k a, delimited (for_nat k body a)).
  { induction k as [|k IH]; intros x; simpl; [apply delimited_ret|]. by apply delimited_bind. }
  intros c x c' Hc. rewrite for_count_nat. intros Hx. destruct (H _ _ _ _ _ Hc Hx) as (? & ? & Hl).
  split; [done|]. split; [done|]. intros b' Hb' Hs. rewrite for_count_nat. by apply Hl.
Qed.

Lemma walk_take_Ok n c s c' :
  cursor_wf c -> 0 <= n -> Walk.take n c = (Ok s, c') ->
  c' = adv c n /\ slice (cb c) (cpos c) n = Some s /\ cpos c + n <= blen (cb c) /\ cpos c + n <= MAX_BYTES.
Proof.
  intros Hc Hn. unfold Walk.take, checked_add64. destruct (Z.ltb_spec (cpos c + n) U64); [|done].
  destruct (Z.leb_spec (cpos c + n) MAX_BYTES); [|done]. simpl. destruct (Z.ltb_spec (blen (cb c)) (cpos c + n)); [done|].
  destruct (slice (cb c) (cpos c) n) as [x|]; [|done]. by intros [= <- <-].
Qed.

Lemma walk_take_eq n c s :
  cursor_wf c -> slice (cb c) (cpos c) n = Some s -> cpos c + n <= MAX_BYTES -> Walk.take n c = (Ok s, adv c n).
Proof.
  intros [Hc Hl] Hs Hm. assert (Hle : cpos c + n <= blen (cb c)) by (apply slice_Some in Hs; lia).
  unfold Walk.take, checked_add64. rewrite (proj2 (Z.ltb_lt _ _)) by lia. rewrite (proj2 (Z.leb_le _ _)) by lia. simpl.
  rewrite (proj2 (Z.ltb_ge _ _)) by lia. by rewrite Hs.
Qed.

Lemma delimited_take n : 0 <= n -> delimited (Walk.take n).
Proof.
  intros Hn c s c' Hc H. apply walk_take_Ok in H as (-> & Hs & Hle & Hm); [|done|done]. pose proof Hc as [Hp Hl].
  split; [done|]. split; [simpl; lia|]. simpl. intros b' Hb' Hsame.
  destruct (Z.leb_spec (cpos c + n) (blen b')).
  - rewrite Z.min_l in Hsame by done. apply (walk_take_eq n (mkCursor b' (cpos c))); [split; simpl; lia| |done].
    simpl. by rewrite <- (same_slice (cb c) b').
  - exists (mkCursor b' (cpos c)). unfold Walk.take, checked_add64. simpl.
    rewrite (proj2 (Z.ltb_lt (cpos c + n) U64)) by lia. rewrite (proj2 (Z.leb_le _ _)) by lia. simpl.
    by rewrite (proj2 (Z.ltb_lt _ _)) by lia.
Qed.

Lemma delimited_consumed : delimited consumed.
Proof.
  intros c s c' [Hc Hl] H. unfold consumed in *. destruct (slice (cb c) 0 (cpos c)) as [x|] eqn:E; [|done].
  injection H as <- <-. split; [done|]. split; [lia|]. intros b' Hb' Hs. rewrite (proj2 (Z.leb_le _ _)) by lia. simpl.
  rewrite Z.min_l in Hs by lia. by rewrite <- (same_slice (cb c) b'), E by (rewrite ?Z.add_0_l; done || lia).
Qed.

Lemma delimited_byte : delimited byte_.
Proof.
  apply delimited_bind; [by apply delimited_take|]. intros s. apply delimited_bind; [apply delimited_pure|].
  intros x. apply delimited_ret.
Qed.

Lemma byte_yields : yields byte_ (fun b => 0 <= b < 256).
Proof. intros c b c' _ H. unfold byte_ in H. res_inv. subst. apply b2z_range. Qed.

Lemma delimited_var_loop l v : delimited (var_loop l v).
Proof.
  revert v; induction l as [|s l IH]; intros v; cbn [var_loop]; [apply delimited_fail|].
  apply delimited_bind; [apply delimited_byte|]. intros b. apply delimited_bind; [apply delimited_sensure|]. intros _.
  apply delimited_if; [|apply IH]. apply delimited_bind; [apply delimited_sensure|]. intros _. apply delimited_ret.
Qed.

Lemma var_loop_nonneg l v c n c' : 0 <= v -> var_loop l v c = (Ok n, c') -> 0 <= n.
Proof.
  revert v c; induction l as [|s l IH]; intros v c Hv H; cbn [var_loop] in H; [done|].
  apply sbind_Ok in H as (b & c1 & _ & H). apply sbind_Ok in H as ([] & c2 & _ & H).
  assert (Hn : 0 <= Z.lor v (wrap32 (Z.shiftl (Z.land b 127) s))).
  { apply Z.lor_nonneg. split; [done|]. by apply Z.mod_pos_bound. }
  destruct (Z.land b 128 =? 0); [|exact (IH _ _ Hn H)].
  apply sbind_Ok in H as ([] & c3 & _ & [= <- _]). done.
Qed.

Lemma var_yields : yields var (fun n => 0 <= n).
Proof. intros c n c' _ H. by apply var_loop_nonneg in H. Qed.

Lemma delimited_var : delimited var.
Proof. apply delimited_var_loop. Qed.

Lemma delimited_count : delimited count.
Proof.
  apply delimited_bind; [apply delimited_var|]. intros n. apply delimited_bind; [apply delimited_sensure|].
  intros _. apply delimited_ret.
Qed.

Lemma delimited_blob : delimited blob.
Proof.
  apply (delimited_bind_val (fun n => 0 <= n)); [apply delimited_var|apply var_yields|]. intros n Hn.
  apply delimited_bind; [by apply delimited_take|]. intros _. apply delimited_ret.
Qed.
End Delimited.

Create HintDb delimited.
#[export] Hint Resolve delimited_ret delimited_fail delimited_sensure delimited_byte delimited_var delimited_count
  delimited_blob delimited_consumed delimited_pure : delimited.
#[export] Hint Extern 1 (delimited (Walk.take _)) => (apply delimited_take; lia) : delimited.

Ltac solve_delimited :=
  repeat (intros; first
    [ solve [auto with delimited]
    | apply delimited_if | apply delimited_for | apply delimited_bind ]).

Section Frames.
Import Walk.

Lemma delimited_key : delimited key.
Proof. unfold key. solve_delimited. Qed.

Lemma delimited_signature : delimited signature.
Proof. unfold signature. solve_delimited. Qed.

Lemma delimited_extensions : delimited extensions.
Proof. unfold extensions. solve_delimited. Qed.

Lemma delimited_receipt : delimited receipt.
Proof. unfold receipt. solve_delimited; apply delimited_signature. Qed.

Lemma delimited_fields : delimited fields_walk.
Proof. unfold fields_walk. solve_delimited; first [apply delimited_key|apply delimited_extensions]. Qed.

Lemma delimited_header sha256 : delimited (header_walk sha256).
Proof. unfold header_walk. solve_delimited; apply delimited_fields. Qed.

Lemma delimited_block sha256 : delimited (block_walk sha256).
Proof.
  unfold block_walk.
  solve_delimited; first [apply delimited_header|apply delimited_signature|apply delimited_receipt|apply delimited_extensions].
Qed.

End Frames.

(** *** Safety *)
Section Safety.
Import Walk.

Lemma walk_take_safe n : 0 <= n -> safe (Walk.take n).
Proof.
  intros Hn c Hc. pose proof Hc as [Hp Hl]. unfold Walk.take, checked_add64.
  destruct (Z.ltb_spec (cpos c + n) U64); [|simpl; naive_solver lia].
  destruct (Z.leb_spec (cpos c + n) MAX_BYTES); simpl; [|naive_solver lia].
  destruct (Z.ltb_spec (blen (cb c)) (cpos c + n)); simpl; [naive_solver lia|].
  destruct (slice_is_Some (cb c) (cpos c) n) as [s ->]; [lia|lia|lia|]. simpl. naive_solver lia.
Qed.

Lemma byte_safe : safe byte_.
Proof.
  apply (safe_bind_val (fun s => blen s = 1)).
  - by apply walk_take_safe.
  - intros c s c' Hc H. apply walk_take_Ok in H as (_ & H & _); [|done|done]. by eapply slice_blen.
  - intros s Hs. destruct s as [|x s]; [done|]. intros c Hc. destruct Hc. simpl. naive_solver lia.
Qed.

Lemma var_loop_safe l v : safe (var_loop l v).
Proof.
  revert v; induction l as [|s l IH]; intros v; cbn [var_loop]; [apply safe_fail|].
  apply safe_bind; [apply byte_safe|]. intros b. apply safe_bind; [apply safe_sensure|]. intros _.
  apply safe_if; [|apply IH]. apply safe_bind; [apply safe_sensure|]. intros _. apply safe_ret.
Qed.

Lemma var_safe : safe var.
Proof. apply var_loop_safe. Qed.

Lemma count_safe : safe count.
Proof. apply safe_bind; [apply var_safe|solve_safe]. Qed.

Lemma blob_safe : safe blob.
Proof.
  apply (safe_bind_val (fun n => 0 <= n)); [apply var_safe|apply var_yields|]. intros n Hn.
  apply safe_bind; [by apply walk_take_safe|solve_safe].
Qed.

Lemma consumed_safe : safe consumed.
Proof.
  intros c [Hc Hl]. unfold consumed. destruct (slice_is_Some (cb c) 0 (cpos c)) as [s ->]; [lia|lia|lia|].
  simpl. naive_solver lia.
Qed.

Lemma or_err_safe {A} (o : option A) (e : frame_error) : safe (slift (or_err o e)).
Proof. intros c [Hc _]. destruct o; simpl; naive_solver lia. Qed.
End Safety.

#[export] Hint Resolve byte_safe var_safe count_safe blob_safe consumed_safe or_err_safe : safe.
#[export] Hint Extern 1 (safe (Walk.take _)) => (apply walk_take_safe; lia) : safe.

Lemma block_walk_safe sha256 : safe (block_walk sha256).
Proof.
  unfold block_walk, header_walk, fields_walk, receipt, Walk.extensions, Walk.signature, Walk.key. solve_safe.
Qed.

(** ** What is framed is what the server decodes

    [sim R m k]: where the stricter reader [m] succeeds, the reader [k] reads the same bytes, and
    their values are related. *)
Definition sim {E E' A B} (R : A -> B -> Prop) (m : M E cursor A) (k : M E' cursor B) : Prop :=
  forall c a c', cursor_wf c -> m c = (Ok a, c') -> exists b, k c = (Ok b, c') /\ R a b.

Lemma sim_ret {E E' A B} (R : A -> B -> Prop) a b : R a b -> sim (E := E) (E' := E') R (sret a) (sret b).
Proof. intros HR c x c' _ [= <- <-]. by exists b. Qed.

Lemma sim_fail {E E' A B} (R : A -> B -> Prop) e k : sim (E := E) (E' := E') R (sfail e) k.
Proof. intros c a c' _ H. done. Qed.

Lemma sim_bind {E E' A B A' B'} (Q : A -> B -> Prop) (R : A' -> B' -> Prop) m k
    (f : A -> M E cursor A') (g : B -> M E' cursor B') :
  safe m -> sim Q m k -> (forall a b, Q a b -> sim R (f a) (g b)) -> sim R (sbind m f) (sbind k g).
Proof.
  intros Hs Hm Hf c y c' Hc H. apply sbind_Ok in H as (a & c1 & H1 & H2).
  destruct (Hm c a c1 Hc H1) as (b & Hb & HQ). rewrite (sbind_Ok_eq _ _ _ _ _ Hb).
  eapply Hf; [done| |done]. by eapply safe_wf.
Qed.

Lemma sim_sensure {E E' A B} (R : A -> B -> Prop) t e m k :
  sim (E := E) (E' := E') R m k -> sim R (do! sensure t e ;; m) k.
Proof. intros Hm c a c' Hc H. res_inv. by apply Hm. Qed.

Lemma sim_take n : 0 <= n -> sim eq (Walk.take n) (FcReader.bytes_ n).
Proof.
  intros Hn c s c' Hc H. apply walk_take_Ok in H as (-> & Hs & Hle & _); [|done|done]. exists s. split; [|done].
  unfold FcReader.bytes_, checked_add64. destruct Hc as [_ Hl]. rewrite (proj2 (Z.ltb_lt _ _)) by lia. by rewrite Hs.
Qed.

Lemma sim_byte : sim eq Walk.byte_ FcReader.u8.
Proof.
  eapply sim_bind; [auto with safe|by apply sim_take|]. intros s ? <-. intros c a c' _ H.
  destruct (s !! 0%nat) as [x|]; [|done]. injection H as <- <-. by exists (b2z x).
Qed.

Lemma sim_var_loop l v : sim eq (Walk.var_loop l v) (FcReader.varuint32_loop l v).
Proof.
  revert v; induction l as [|s l IH]; intros v; cbn [Walk.var_loop FcReader.varuint32_loop]; [apply sim_fail|].
  eapply sim_bind; [auto with safe|apply sim_byte|]. intros b ? <-. apply sim_sensure.
  destruct (Z.land b 128 =? 0); [|apply IH]. apply sim_sensure. by apply sim_ret.
Qed.

Lemma sim_var : sim eq Walk.var FcReader.varuint32.
Proof. apply sim_var_loop. Qed.

Lemma sim_count : sim eq Walk.count FcReader.varuint32.
Proof.
  intros c n c' Hc H. unfold Walk.count in H. apply sbind_Ok in H as (a & c1 & H1 & H). res_inv. subst.
  by apply sim_var.
Qed.

Lemma sim_for {E E' A B} n (f : A -> M E cursor A) (g : B -> M E' cursor B) R a b :
  (forall a, safe (f a)) -> (forall a b, R a b -> sim R (f a) (g b)) -> R a b -> sim R (for_count n f a) (for_count n g b).
Proof.
  intros Hs Hf Hab c x c' Hc. rewrite !for_count_nat. generalize (Z.to_nat n). clear n. intros k H. revert c x c' Hc H.
  change (sim R (for_nat k f a) (for_nat k g b)). revert a b Hab.
  induction k as [|k IH]; intros a b Hab; simpl; [by apply sim_ret|]. eapply sim_bind; [apply Hs|by apply Hf|apply IH].
Qed.

(** The last part of a key is read by the caller of [public_key_rest]. *)
Lemma sim_key : sim (fun _ _ => True) Walk.key
  (let! rest := BlockLog.public_key_rest in do! FcReader.bytes_ rest ;; sret ()).
Proof.
  intros c [] c' Hc H. unfold Walk.key in H. apply sbind_Ok in H as (k & c1 & H1 & H).
  pose proof (safe_wf _ _ _ _ var_safe Hc H1) as Hc1. destruct (sim_var c k c1 Hc H1) as (? & H1' & <-).
  exists (). split; [|done]. unfold BlockLog.public_key_rest.
  assert (E : forall f g, sbind (sbind FcReader.varuint32 f) g c = sbind (E := err) (A := Z) (B := ()) (f k) g c1).
  { intros f g. unfold sbind at 1 2. rewrite H1'. done. }
  rewrite E. clear E. destruct ((k =? 0) || (k =? 1)).
  - apply sbind_Ok in H as (s & c2 & H2 & [= ->]). destruct (sim_take 33 ltac:(done) c1 s _ Hc1 H2) as (? & H2' & _).
    unfold sbind, sret. rewrite H2'. done.
  - destruct (k =? 2); [|done]. apply sbind_Ok in H as (s & c2 & H2 & H). unfold Walk.blob in H.
    apply sbind_Ok in H as (n & c3 & H3 & H). apply sbind_Ok in H as (s' & c4 & H4 & [= ->]).
    pose proof (safe_wf _ _ _ _ (walk_take_safe 34 ltac:(done)) Hc1 H2) as Hc2.
    pose proof (var_yields _ _ _ Hc2 H3) as Hn.
    pose proof (safe_wf _ _ _ _ var_safe Hc2 H3) as Hc3.
    destruct (sim_var c2 n c3 Hc2 H3) as (? & H3' & <-). destruct (sim_take n ltac:(done) c3 s' _ Hc3 H4) as (? & H4' & _).
    apply walk_take_Ok in H2 as (-> & Hs & Hle & _); [|done|done].
    assert (Hr : 34 <= blen (rest c1)) by (rewrite blen_rest by done; lia).
    assert (A33 : exists z : bytes, FcReader.bytes_ 33 c1 = (Ok z, adv c1 33)).
    { rewrite bytes_spec by done. rewrite (proj2 (Z.leb_le _ _)) by lia. by eexists. }
    assert (A1 : exists z : Z, FcReader.u8 (adv c1 33) = (Ok z, adv c1 34)).
    { assert (Hw : cursor_wf (adv c1 33)) by (apply adv_wf; [done|lia]).
      assert (Hb : 1 <= blen (rest (adv c1 33))) by (rewrite blen_rest in Hr |- * by done; simpl; lia).
      destruct (rest (adv c1 33)) as [|z l] eqn:Er; [done|]. exists (b2z z).
      rewrite (u8_parses z (adv c1 33) l Hw Er). by rewrite adv_adv. }
    destruct A33 as (z & A33), A1 as (z' & A1). unfold sbind, sret. by rewrite A33, A1, H3', H4'.
Qed.

Lemma sim_extensions : sim (fun _ _ => True) Walk.extensions
  (let! n := FcReader.varuint32 in for_count n BlockLog.extension_reader ()).
Proof.
  eapply sim_bind; [auto with safe|apply sim_count|]. intros n ? <-. apply sim_for; [intros; solve_safe| |done].
  intros [] [] _. eapply sim_bind; [auto with safe|by apply sim_take|]. intros ? ? _.
  intros c [] c' Hc H. unfold Walk.blob in H. apply sbind_Ok in H as (m & c1 & H1 & H).
  apply sbind_Ok in H as (s & c2 & H2 & [= ->]). pose proof (var_yields _ _ _ Hc H1).
  pose proof (safe_wf _ _ _ _ var_safe Hc H1) as Hc1. destruct (sim_var c m c1 Hc H1) as (? & H1' & <-).
  destruct (sim_take m ltac:(done) c1 s _ Hc1 H2) as (? & H2' & _). exists (). split; [|done].
  unfold sbind, sret. by rewrite H1', H2'.
Qed.

Lemma sim_fields : sim eq fields_walk BlockLog.header_reader.
Proof.
  eapply sim_bind; [auto with safe|by apply sim_take|]. intros ? ? _.
  eapply sim_bind; [auto with safe|by apply (sim_take 32)|]. intros previous ? <-.
  eapply sim_bind; [auto with safe|by apply sim_take|]. intros ? ? _.
  assert (Hflag : sim (fun f t => (f = 0 /\ t = false) \/ (f <> 0 /\ t = true))
    (let! f := Walk.byte_ in if (f =? 0) || (f =? 1) then sret f else sfail ProducerFlag) FcReader.bool_).
  { eapply (sim_bind eq); [auto with safe|apply sim_byte|]. intros f ? <-.
    destruct (Z.eqb_spec f 0) as [->|H0]; [apply sim_ret; by left|]. destruct (Z.eqb_spec f 1) as [->|]; simpl; [|apply sim_fail].
    apply sim_ret. by right. }
  intros c x c' Hc H. apply sbind_Ok in H as (f & c1 & H1 & H). pose proof (safe_wf _ _ _ _ byte_safe Hc H1) as Hc1.
  assert (Hf : (f =? 0) || (f =? 1) = true).
  { by destruct (f =? 0) eqn:?, (f =? 1) eqn:?. }
  destruct (Hflag c f c1 Hc) as (t & Ht & Hft); [unfold sbind; rewrite H1; by rewrite Hf|].
  rewrite (sbind_Ok_eq _ _ _ _ _ Ht).
  assert (Hrest : sim eq (do! (if f =? 0 then sret () else if f =? 1 then
      do! Walk.take 4 ;; let! n := Walk.count in for_count n (fun _ => do! Walk.take 8 ;; Walk.key) () else sfail ProducerFlag) ;;
      do! Walk.extensions ;; sret previous)
    (do! (if t then do! FcReader.u32 ;; let! n := FcReader.varuint32 in for_count n BlockLog.producer_reader () else sret ()) ;;
     let! n := FcReader.varuint32 in do! for_count n BlockLog.extension_reader () ;; sret previous)).
  { eapply (sim_bind (fun _ _ => True)); [unfold Walk.key; solve_safe| |].
    - destruct Hft as [[-> ->]|[Hne ->]]; [by apply sim_ret|]. rewrite (proj2 (Z.eqb_neq f 0)) by done.
      destruct (f =? 1); [|apply sim_fail].
      eapply (sim_bind (fun _ _ => True)); [auto with safe| |].
      { intros c2 s c3 Hc2 H2. destruct (sim_take 4 ltac:(done) c2 s c3 Hc2 H2) as (z & H2' & _).
        exists (le_of z). split; [|done]. unfold FcReader.u32, sbind, sret. by rewrite H2'. }
      intros ? ? _. eapply sim_bind; [auto with safe|apply sim_count|]. intros n ? <-.
      apply sim_for; [intros; unfold Walk.key; solve_safe| |done]. intros [] [] _. unfold BlockLog.producer_reader.
      eapply (sim_bind (fun _ _ => True)); [auto with safe| |intros ? ? _; apply sim_key].
      intros c2 s c3 Hc2 H2. destruct (sim_take 8 ltac:(done) c2 s c3 Hc2 H2) as (z & H2' & _).
      exists (le_of z). split; [|done]. unfold FcReader.u64, sbind, sret. by rewrite H2'.
    - intros ? ? _. intros c2 y c3 Hc2 H2. apply sbind_Ok in H2 as (u & c4 & H2 & [= <- <-]).
      destruct (sim_extensions c2 u c4 Hc2 H2) as ([] & Hx & _). exists previous. split; [|done].
      apply sbind_Ok in Hx as (n & c5 & Hx1 & Hx2). rewrite (sbind_Ok_eq _ _ _ _ _ Hx1).
      by rewrite (sbind_Ok_eq _ _ _ _ _ Hx2). }
  by apply Hrest.
Qed.

(** ** Runs of whole entries *)

(** Entries laid out one after the other from file offset [at_]. *)
Fixpoint orphan_bytes (at_ : Z) (es : list (bytes * bytes)) : bytes :=
  match es with
  | [] => []
  | (id, payload) :: es => entry id payload at_ ++ orphan_bytes (at_ + (56 + blen payload)) es
  end.

Lemma cut (b : bytes) n : 0 <= n <= blen b -> exists x y, b = x ++ y /\ blen x = n /\ blen y = blen b - n.
Proof.
  intros Hn. exists (take (Z.to_nat n) b), (drop (Z.to_nat n) b). rewrite take_drop, blen_take, blen_drop by lia. done.
Qed.

Lemma le_bytes_of n x v : blen x = Z.of_nat n -> le_of x = v -> x = le_bytes n v.
Proof. intros Hl <-. replace n with (length x) by (unfold blen in Hl; lia). symmetry. apply le_bytes_le_of. Qed.

Lemma u64le_app p x t at_ : blen p = at_ -> blen x = 8 -> u64le (p ++ x ++ t) at_ = Ok (le_of x).
Proof. intros Hp Hx. unfold u64le. by rewrite (slice_mid p x t at_ 8) by lia. Qed.

Lemma blen_entry56 id payload at_ : blen id = 32 -> blen (entry id payload at_) = 56 + blen payload.
Proof. intros H. by rewrite blen_entry. Qed.

Lemma orphans_loop_S fuel b at_ count :
  b <> [] -> orphans_loop (S fuel) b at_ count = orphan_turn (orphans_loop fuel) b at_ count.
Proof. by destruct b. Qed.

(** One turn of the loop on bytes that start with a whole entry. *)
Lemma orphans_turn fuel id payload at_ t count :
  blen id = 32 -> 0 <= at_ -> at_ + (56 + blen payload) < U64 ->
  orphans_loop (S fuel) (entry id payload at_ ++ t) at_ count =
  orphans_loop fuel t (at_ + (56 + blen payload)) (add64 count 1).
Proof.
  intros Hid Hat Hlt. pose proof (blen_nonneg payload). pose proof (blen_nonneg t).
  assert (Hb : blen (entry id payload at_ ++ t) = 56 + blen payload + blen t) by (by rewrite blen_app, blen_entry56).
  set (b := entry id payload at_ ++ t) in *.
  assert (Hmag : u64le b 0 = Ok SHIP_MAGIC).
  { unfold b, entry. rewrite <- !app_assoc. rewrite <- (app_nil_l (le_bytes 8 SHIP_MAGIC ++ _)).
    rewrite (u64le_app [] (le_bytes 8 SHIP_MAGIC)) by done. f_equal. }
  assert (H40 : u64le b 40 = Ok (blen payload)).
  { unfold b, entry. rewrite <- !app_assoc. rewrite (app_assoc (le_bytes 8 SHIP_MAGIC) id).
    rewrite u64le_app by (try apply blen_le_bytes; rewrite blen_app, blen_le_bytes, Hid; done).
    f_equal. apply le_of_le_bytes_id. change (256 ^ Z.of_nat 8) with U64. lia. }
  assert (Hend : u64le b (56 + blen payload - 8) = Ok at_).
  { unfold b, entry. rewrite <- !app_assoc. rewrite !(app_assoc _ _ (le_bytes 8 at_ ++ t)).
    rewrite u64le_app; [|rewrite !blen_app, !blen_le_bytes, Hid; lia|apply blen_le_bytes].
    f_equal. apply le_of_le_bytes_id. change (256 ^ Z.of_nat 8) with U64. lia. }
  assert (Hd : drop (Z.to_nat (56 + blen payload)) b = t).
  { unfold b. rewrite drop_app_length'; [done|]. pose proof (blen_entry56 id payload at_ Hid) as He. unfold blen in *. lia. }
  assert (Hne : b <> []) by (intros E; rewrite E, blen_nil in Hb; lia). rewrite orphans_loop_S by done. unfold orphan_turn.
  rewrite (proj2 (Z.leb_le 56 (blen b))) by lia. rewrite Hmag. cbn [rbind andb]. rewrite Z.eqb_refl. cbn [ensure rbind].
  unfold ship_entry_size. rewrite H40. cbn [rbind].
  replace (sat_add64 56 (blen payload)) with (56 + blen payload) by (unfold sat_add64; width_lia).
  rewrite (proj2 (Z.leb_le (56 + blen payload) (blen b))) by lia. cbn [ensure rbind]. rewrite Hend. cbn [rbind].
  rewrite Z.eqb_refl. cbn [ensure rbind]. rewrite Hd. f_equal. unfold add64, wrap64. apply Z.mod_small. lia.
Qed.

Lemma orphans_complete es fuel at_ count :
  Forall (fun e => blen e.1 = 32) es -> (length (orphan_bytes at_ es) <= fuel)%nat -> 0 <= at_ -> 0 <= count ->
  at_ + blen (orphan_bytes at_ es) < U64 -> count + blen es < U64 ->
  orphans_loop fuel (orphan_bytes at_ es) at_ count = Ok (count + blen es).
Proof.
  revert fuel at_ count; induction es as [|[id payload] es IH]; intros fuel at_ count He Hf Hat Hc Hl Hn; cbn [orphan_bytes].
  { rewrite blen_nil, Z.add_0_r. by destruct fuel. }
  apply list.Forall_cons in He as [Hid He]. cbn [orphan_bytes fst] in *. rewrite blen_app, blen_entry56 in Hl by done.
  pose proof (blen_nonneg payload). pose proof (blen_nonneg (orphan_bytes (at_ + (56 + blen payload)) es)).
  pose proof (blen_nonneg es). rewrite blen_cons in *. rewrite length_app in Hf.
  pose proof (blen_entry56 id payload at_ Hid). destruct fuel as [|fuel]; [unfold blen in *; lia|].
  rewrite orphans_turn by lia. unfold add64, wrap64. rewrite Z.mod_small by lia. rewrite IH; [f_equal; lia|done| |lia|lia|lia|lia].
  unfold blen in *. lia.
Qed.

Lemma u64le_total b at_ : 0 <= at_ -> at_ + 8 <= blen b -> exists x, u64le b at_ = Ok x /\ is_u64 x.
Proof.
  intros Ha Hb. unfold u64le. destruct (slice_is_Some b at_ 8) as [s Hs]; [lia|lia|lia|]. rewrite Hs. cbn [or_panic rbind].
  exists (le_of s). split; [done|]. apply le_of_u64. by eapply slice_blen.
Qed.

(** Bytes whose header, length and trailer check out start with a whole entry. *)
Lemma entry_prefix b at_ sz :
  56 <= blen b -> u64le b 0 = Ok SHIP_MAGIC -> u64le b 40 = Ok sz -> 0 <= sz -> 56 + sz <= blen b ->
  u64le b (56 + sz - 8) = Ok at_ -> exists id payload t, blen id = 32 /\ b = entry id payload at_ ++ t.
Proof.
  intros H56 H0 H40 Hsz0 Hle Hend.
  destruct (cut b 8) as (m & b1 & E1 & Hm & Hb1); [lia|]. destruct (cut b1 32) as (id & b2 & E2 & Hid & Hb2); [lia|].
  destruct (cut b2 8) as (z & b3 & E3 & Hz & Hb3); [lia|]. destruct (cut b3 sz) as (pl & b4 & E4 & Hpl & Hb4); [lia|].
  destruct (cut b4 8) as (tr & t & E5 & Htr & Ht); [lia|].
  assert (Em : le_of m = SHIP_MAGIC).
  { rewrite E1 in H0. change (m ++ b1) with ([] ++ m ++ b1) in H0. rewrite u64le_app in H0 by done. by apply Ok_inj in H0. }
  assert (Ez : le_of z = sz).
  { rewrite E1, E2, E3, app_assoc in H40. rewrite u64le_app in H40 by (rewrite ?blen_app; lia). by apply Ok_inj in H40. }
  assert (Et : le_of tr = at_).
  { rewrite E1, E2, E3, E4, E5 in Hend. rewrite !(app_assoc _ _ (tr ++ t)) in Hend.
    rewrite u64le_app in Hend by (rewrite ?blen_app; lia). by apply Ok_inj in Hend. }
  exists id, pl, t. split; [done|]. unfold entry. rewrite <- !app_assoc, Hpl.
  rewrite <- (le_bytes_of 8 m SHIP_MAGIC Hm Em), <- (le_bytes_of 8 z sz Hz Ez), <- (le_bytes_of 8 tr at_ Htr Et).
  by rewrite E1, E2, E3, E4, E5.
Qed.

Lemma sat_add64_below a b n : sat_add64 a b <= n -> n < U64 - 56 -> sat_add64 a b = a + b.
Proof. unfold sat_add64. width_lia. Qed.

(** What a turn that passes its checks has seen. *)
Lemma orphans_step fuel b at_ count :
  b <> [] -> blen b < U64 - 56 -> is_err (orphans_loop (S fuel) b at_ count) = false ->
  exists id payload t, blen id = 32 /\ b = entry id payload at_ ++ t.
Proof.
  intros Hne Hlt. rewrite orphans_loop_S by done. unfold orphan_turn.
  destruct (Z.leb_spec 56 (blen b)) as [H56|]; [|done].
  destruct (u64le_total b 0) as (m & E0 & _); [lia|lia|]. destruct (u64le_total b 40) as (sz & E40 & Hsz); [lia|lia|].
  rewrite E0. unfold ship_entry_size. rewrite E40. cbn [rbind andb]. unfold is_u64 in Hsz.
  destruct (Z.eqb_spec m SHIP_MAGIC) as [->|]; [|done]. cbn [ensure rbind].
  destruct (Z.leb_spec (sat_add64 56 sz) (blen b)) as [Hle|]; [|done]. cbn [ensure rbind].
  pose proof (sat_add64_below 56 sz (blen b) Hle Hlt) as Hs. rewrite Hs in *.
  destruct (u64le_total b (56 + sz - 8)) as (tr & Et & _); [lia|lia|]. rewrite Et. cbn [rbind].
  destruct (Z.eqb_spec tr at_) as [->|]; [|done]. intros _. exact (entry_prefix b at_ sz H56 E0 E40 (proj1 Hsz) Hle Et).
Qed.

Lemma orphans_sound fuel b at_ count :
  (length b <= fuel)%nat -> 0 <= at_ -> 0 <= count -> at_ + blen b < U64 - 56 -> count + blen b < U64 ->
  match orphans_loop fuel b at_ count with
  | Ok n => exists es, Forall (fun e => blen e.1 = 32) es /\ b = orphan_bytes at_ es /\ n = count + blen es
  | Err _ => True
  | Panic => False
  end.
Proof.
  revert b at_ count; induction fuel as [|fuel IH]; intros b at_ count Hf Hat Hc Hl Hn.
  { destruct b; [|simpl in Hf; lia]. exists []. rewrite blen_nil. split_and!; [constructor|done|lia]. }
  destruct (decide (b = [])) as [->|Hne]; [exists []; rewrite blen_nil; split_and!; [constructor|done|lia]|].
  pose proof (orphans_step fuel b at_ count Hne ltac:(lia)) as Hstep.
  assert (Hgo : (exists id payload t, blen id = 32 /\ b = entry id payload at_ ++ t) ->
    match orphans_loop (S fuel) b at_ count with
    | Ok n => exists es, Forall (fun e => blen e.1 = 32) es /\ b = orphan_bytes at_ es /\ n = count + blen es
    | Err _ => True
    | Panic => False
    end).
  { intros (id & payload & t & Hid & ->). pose proof (blen_nonneg payload). pose proof (blen_nonneg t).
    pose proof (blen_entry56 id payload at_ Hid) as He. rewrite blen_app, He in *. rewrite length_app in Hf.
    rewrite orphans_turn by lia. unfold add64, wrap64. rewrite Z.mod_small by lia.
    specialize (IH t (at_ + (56 + blen payload)) (count + 1) ltac:(unfold blen in *; lia) ltac:(lia) ltac:(lia) ltac:(lia) ltac:(lia)).
    destruct (orphans_loop fuel t _ _) as [n|e|]; [|done|done]. destruct IH as (es & Hes & -> & ->).
    exists ((id, payload) :: es). rewrite blen_cons. split_and!; [by constructor|done|lia]. }
  destruct (orphans_loop (S fuel) b at_ count) as [n|e|]; [by apply Hgo, Hstep|done|by apply Hgo, Hstep].
Qed.

(** ** The preamble *)

Lemma genesis_walk_Ok sha256 c id c' :
  cursor_wf c -> genesis_walk sha256 c = (Ok id, c') ->
  exists rest c1 g, BlockLog.genesis_reader c = (Ok rest, c1) /\ cb c' = cb c /\ cpos c' = cpos c + blen g /\
    slice (cb c) (cpos c) (blen g) = Some g /\ id = sha256 g /\
    (cpos c' = cpos c1 + rest + BlockLog.CHAIN_CONFIG_V0_BYTES \/
     cpos c' = cpos c1 + rest + 69 /\ sha256 g ∈ ULTRA_GENESIS_CHAIN_IDS).
Proof.
  intros Hc H. unfold genesis_walk in H. change (sbind sget ?k c) with (k c c) in H. cbv beta zeta in H.
  apply sbind_Ok in H as (s & c1 & H1 & H). apply sbind_Ok in H as ([] & c2 & H2 & H).
  change (sbind sget ?k c2) with (k c2 c2) in H. cbv beta in H. apply sbind_Ok in H as (s3 & c3 & H3 & H).
  change (sbind sget ?k c3) with (k c3 c3) in H. cbv beta in H. apply sbind_Ok in H as (g & c4 & H4 & [= <- <-]).
  pose proof (safe_wf _ _ _ _ (walk_take_safe 8 ltac:(done)) Hc H1) as Hc1.
  assert (Hk : safe Walk.key) by (unfold Walk.key; solve_safe). pose proof (safe_wf _ _ _ _ Hk Hc1 H2) as Hc2.
  destruct (sim_take 8 ltac:(done) c s c1 Hc H1) as (? & H1' & _). destruct (sim_key c1 () c2 Hc1 H2) as ([] & H2' & _).
  apply sbind_Ok in H2' as (rest & c5 & Hr & Hx). apply sbind_Ok in Hx as (y & c6 & Hy & [= ->]).
  apply walk_take_Ok in H1 as (-> & _); [|done|done]. destruct (delimited_key _ _ _ Hc1 H2) as (Hb2 & Hp2 & _). simpl in Hb2, Hp2.
  pose proof (safe_wf _ _ _ _ public_key_rest_safe Hc1 Hr) as Hc5.
  assert (Hrest : 0 <= rest) by (pose proof (public_key_rest_yields _ _ _ Hc1 Hr) as [? _]; done). apply bytes_Ok in Hy as [Hy ->]; [|done|done].
  assert (Hu : ultra_at sha256 (cpos c) (adv c5 rest) = true \/ ultra_at sha256 (cpos c) (adv c5 rest) = false)
    by (destruct (ultra_at _ _ _); auto).
  apply walk_take_Ok in H3 as (-> & _ & Hle & _); [|done|destruct (ultra_at _ _ _); lia].
  unfold slift in H4. injection H4 as H4 <-. apply or_panic_Ok in H4. cbn [cb adv] in H4, Hb2.
  pose proof (slice_blen _ _ _ _ H4) as Hg. rewrite <- Hg in H4. rewrite Hb2 in H4.
  exists rest, c5, g. split; [|split; [exact Hb2|]].
  { unfold BlockLog.genesis_reader, FcReader.u64. unfold sbind at 1 2. by rewrite H1'. }
  cbn [cb cpos adv] in *. split; [lia|]. split; [exact H4|]. split; [done|]. unfold BlockLog.CHAIN_CONFIG_V0_BYTES.
  destruct Hu as [Hu|Hu]; rewrite Hu in *; [right|left; simpl; lia]. split; [simpl; lia|].
  unfold ultra_at in Hu. cbn [cb cpos adv] in Hu, Hg. rewrite Hb2, <- Hg, H4 in Hu. by apply bool_decide_eq_true in Hu.
Qed.

(** [safe] from one cursor. *)
Definition safe_at {A} (m : Walk.reader A) (c : cursor) : Prop :=
  is_panic (m c).1 = false /\ cb (m c).2 = cb c /\ cpos c <= cpos (m c).2 <= blen (cb c).

Lemma safe_safe_at {A} (m : Walk.reader A) c : safe m -> cursor_wf c -> safe_at m c.
Proof. intros H Hc. by apply H. Qed.

Lemma safe_at_bind {A B} (m : Walk.reader A) (k : A -> Walk.reader B) c :
  safe_at m c -> (forall a c', m c = (Ok a, c') -> cb c' = cb c -> cpos c <= cpos c' <= blen (cb c) -> safe_at (k a) c') ->
  safe_at (sbind m k) c.
Proof.
  intros (Hp & Hb & Hpos) Hk. unfold safe_at, sbind in *. destruct (m c) as [[a|e|] c'] eqn:E; simpl in *; [|done|done].
  destruct (Hk a c' eq_refl Hb Hpos) as (Hp' & Hb' & Hpos'). rewrite Hb', Hb in *. split; [done|]. split; [done|]. lia.
Qed.

Lemma sget_safe_frame : safe (E := frame_error) sget.
Proof. intros c [Hc _]. simpl. naive_solver lia. Qed.

Lemma genesis_walk_safe sha256 : safe (genesis_walk sha256).
Proof.
  intros c Hc. assert (Hk : safe Walk.key) by (unfold Walk.key; solve_safe). change (safe_at (genesis_walk sha256) c).
  pose proof Hc as [Hp Hl]. apply safe_at_bind; [apply safe_safe_at; [apply sget_safe_frame|done]|]. intros c0 c0' [= <- <-] _ _. cbv zeta.
  apply safe_at_bind; [apply safe_safe_at; [by apply walk_take_safe|done]|]. intros _ c1 _ Hb1 Hp1.
  assert (Hc1 : cursor_wf c1) by (split; rewrite Hb1; lia).
  apply safe_at_bind; [by apply safe_safe_at|]. intros _ c2 _ Hb2 Hp2. assert (Hc2 : cursor_wf c2) by (split; rewrite Hb2; lia || rewrite Hb1; lia).
  apply safe_at_bind; [apply safe_safe_at; [apply sget_safe_frame|done]|]. intros c3 c3' [= <- <-] _ _.
  apply safe_at_bind; [apply safe_safe_at; [apply walk_take_safe; destruct (ultra_at _ _ _); lia|done]|]. intros _ c4 _ Hb4 Hp4.
  assert (Hc4 : cursor_wf c4) by (destruct Hc2; split; rewrite Hb4; lia).
  apply safe_at_bind; [apply safe_safe_at; [apply sget_safe_frame|done]|]. intros c5 c5' [= <- <-] _ _.
  apply safe_at_bind; [|intros a c6 _ Hb6 Hp6; apply safe_safe_at; [apply safe_ret|destruct Hc4; split; rewrite Hb6; lia]].
  destruct (slice_is_Some (cb c4) (cpos c) (cpos c4 - cpos c)) as [g Hg]; [lia|lia|destruct Hc4; lia|].
  unfold safe_at, slift. rewrite Hg. destruct Hc4. simpl. naive_solver lia.
Qed.

Lemma preamble_walk_safe sha256 : safe (preamble_walk sha256).
Proof.
  unfold preamble_walk. apply safe_bind; [auto with safe|]. intros v. apply safe_bind.
  { unfold check_block_log_version. intros c [Hc _]. destruct (_ =? 0); simpl; [|naive_solver lia].
    destruct (_ && _); simpl; naive_solver lia. }
  intros _. apply safe_bind; [solve_safe|]. intros first. apply safe_bind; [solve_safe|]. intros _.
  apply safe_bind; [apply safe_if; [apply genesis_walk_safe|auto with safe]|]. solve_safe.
Qed.

(** What an accepted walk of a preamble has read. *)
Lemma preamble_walk_Ok sha256 b first id c :
  blen b < U64 -> preamble_walk sha256 (mkCursor b 0) = (Ok (first, id), c) ->
  exists v c1 c2, slice b 0 4 = Some v /\ 1 <= le_of v <= 3 /\ 0 < first < u32_max /\
    c1 = mkCursor b (if le_of v =? 1 then 4 else 8) /\ cursor_wf c1 /\
    (if (le_of v <=? 2) || (first =? 1) then genesis_walk sha256 else Walk.take 32) c1 = (Ok id, c2) /\
    cpos c = cpos c2 + (if le_of v =? 1 then 0 else 8).
Proof.
  intros Hb E. assert (Hc : cursor_wf (mkCursor b 0)) by (split; simpl; [pose proof (blen_nonneg b); lia|done]).
  unfold preamble_walk in E. apply sbind_Ok in E as (v & c1 & E1 & E).
  pose proof (safe_wf _ _ _ _ (walk_take_safe 4 ltac:(done)) Hc E1) as Hc1.
  apply walk_take_Ok in E1 as (-> & Hv & _); [|done|done]. apply sbind_Ok in E as ([] & c2 & E2 & E).
  injection E2 as E2 <-. unfold check_block_log_version in E2. apply rbind_Ok in E2 as ([] & _ & E2).
  apply ensure_Ok in E2. bools. apply sbind_Ok in E as (f & c2 & Ef & E).
  assert (Hc2 : c2 = mkCursor b (if le_of v =? 1 then 4 else 8) /\ cursor_wf c2).
  { destruct (le_of v =? 1); [by injection Ef as _ <-|]. apply sbind_Ok in Ef as (s & c3 & Es & [= _ <-]).
    pose proof (safe_wf _ _ _ _ (walk_take_safe 4 ltac:(done)) Hc1 Es) as Hc3. apply walk_take_Ok in Es as (-> & _); [|done|done]. done. }
  destruct Hc2 as [Hc2 Hw2]. apply sbind_Ok in E as ([] & c3 & E3 & E). apply sensure_Ok in E3 as [E3 ->]. bools.
  apply sbind_Ok in E as (i & c4 & Ei & E). apply sbind_Ok in E as ([] & c5 & Es & [= -> -> ->]).
  assert (Hw4 : cursor_wf c4).
  { destruct (_ || _); [by eapply (safe_wf _ _ _ _ (genesis_walk_safe sha256) Hw2)|].
    by eapply (safe_wf _ _ _ _ (walk_take_safe 32 ltac:(done)) Hw2). }
  exists v, c2, c4. split; [exact Hv|]. split; [lia|]. split; [lia|]. split; [exact Hc2|]. split; [done|]. split; [exact Ei|].
  destruct (le_of v =? 1); [injection Es as <-; lia|]. apply sbind_Ok in Es as (s & c6 & Es & Ee).
  apply sensure_Ok in Ee as [_ ->]. by apply walk_take_Ok in Es as (-> & _); [|done|].
Qed.

Lemma orphan_bytes_count es at_ : Forall (fun e => blen e.1 = 32) es -> blen es <= blen (orphan_bytes at_ es).
Proof.
  revert at_; induction es as [|[id payload] es IH]; intros at_ Hes; [done|]. apply list.Forall_cons in Hes as [Hid Hes].
  cbn [orphan_bytes]. rewrite blen_cons, blen_app, blen_entry56 by done. specialize (IH (at_ + (56 + blen payload)) Hes).
  pose proof (blen_nonneg payload). lia.
Qed.

(** [orphans] on any bytes. *)
Lemma orphans_spec b at_ :
  0 <= at_ -> at_ + blen b < U64 - 56 ->
  match orphans b at_ with
  | Ok n => exists es, Forall (fun e => blen e.1 = 32) es /\ b = orphan_bytes at_ es /\ n = blen es
  | Err _ => forall es, Forall (fun e => blen e.1 = 32) es -> b <> orphan_bytes at_ es
  | Panic => False
  end.
Proof.
  intros Hat Hlen. unfold orphans. pose proof (blen_nonneg b). pose proof (orphans_sound (length b) b at_ 0) as Hs.
  specialize (Hs ltac:(lia) ltac:(lia) ltac:(lia) ltac:(lia) ltac:(lia)).
  destruct (orphans_loop (length b) b at_ 0) as [n|e|] eqn:E; [|intros es Hes ->|done].
  - destruct Hs as (es & ? & ? & ->). exists es. by rewrite Z.add_0_l.
  - pose proof (orphan_bytes_count es at_ Hes). by rewrite orphans_complete in E by (done || lia).
Qed.

(** A block of number 2 with one producer, an extension, a WebAuthn signature and a packed
    transaction; the preamble of a log with a genesis; two orphaned entries. *)
Definition exf_sha (b : bytes) : bytes := le_bytes 32 (le_of (List.firstn 8 b) + blen b).
Definition exf_block : bytes :=
  List.repeat x00 14 ++ (be_bytes 4 1 ++ List.repeat x07 28) ++ List.repeat x00 68 ++
  [x01] ++ List.repeat x00 4 ++ [x01] ++ List.repeat x00 8 ++ [x02] ++ List.repeat x00 34 ++ [x02; x61; x62] ++
  [x01; x03; x00; x02; x07; x08] ++
  [x02] ++ List.repeat x00 65 ++ [x02; x01; x02; x02; x03; x04] ++
  [x01; x04; x00; x00; x00; x00; x80; x01; x01; x01; x00] ++ List.repeat x00 65 ++ [x01; x01; x05; x02; x07; x08] ++
  [x01; x02; x00; x01; x09].
Definition exf_genesis : bytes := List.repeat x09 8 ++ [x00] ++ List.repeat xff 33 ++ List.repeat x00 68.
Definition exf_preamble : bytes := le_bytes 4 3 ++ le_bytes 4 1 ++ exf_genesis ++ List.repeat xff 8.
Definition exf_orphans : list (bytes * bytes) :=
  [(be_bytes 4 7 ++ List.repeat x01 28, [x00; x00; x00; x00]); (be_bytes 4 8 ++ List.repeat x02 28, [x05])].

(** ** Properties *)

(** C34: a framed block is delimited. If [signed_block] accepts the bytes [b], it says where the block
    ends; on any bytes that begin with that block it gives the same header and the same end; and on
    every proper prefix of the block it is [Incomplete], so a torn append is never taken for damage
    nor for a shorter block. On any bytes it returns without a panic. *)
Theorem signed_block_delimited (sha256 : bytes -> bytes) (b : bytes) (Hb : blen b < U64) :
  is_panic (signed_block sha256 b) = false /\
  forall h e, signed_block sha256 b = Ok (h, e) ->
    0 < e <= blen b /\
    (forall t, blen (take (Z.to_nat e) b ++ t) < U64 -> signed_block sha256 (take (Z.to_nat e) b ++ t) = Ok (h, e)) /\
    (forall k, 0 <= k < e -> signed_block sha256 (take (Z.to_nat k) b) = Err Incomplete).
Proof.
  assert (Hc : cursor_wf (mkCursor b 0)) by (split; simpl; [pose proof (blen_nonneg b); lia|done]).
  unfold signed_block. split.
  { destruct (block_walk_safe sha256 _ Hc) as (Hp & _). by destruct (block_walk sha256 (mkCursor b 0)) as [[]]. }
  intros h e H. destruct (block_walk sha256 (mkCursor b 0)) as [[h'|e'|] c] eqn:E; try done. injection H as -> <-.
  destruct (delimited_block sha256 _ _ _ Hc E) as (Hcb & Hp & Hd). simpl in *.
  assert (H14 : 0 < cpos c).
  { destruct (Z_le_gt_dec (cpos c) 0) as [Hz|]; [|lia]. exfalso. specialize (Hd [] ltac:(done)).
    change (blen (@nil byte)) with 0 in Hd. rewrite Z.min_r in Hd by lia.
    rewrite (proj2 (Z.leb_le _ _)) in Hd by done. by specialize (Hd eq_refl). }
  split; [lia|]. split.
  - intros t Ht. pose proof (blen_nonneg t). rewrite blen_app, blen_take in Ht by lia.
    specialize (Hd (take (Z.to_nat (cpos c)) b ++ t)). rewrite blen_app, blen_take in Hd by lia.
    rewrite Z.min_l, (proj2 (Z.leb_le _ _)) in Hd by lia. rewrite Hd; [done|lia|]. unfold same.
    rewrite take_app_le, take_take by (rewrite length_take; unfold blen in *; lia). by rewrite Nat.min_id.
  - intros k Hk. specialize (Hd (take (Z.to_nat k) b)). rewrite blen_take in Hd by lia.
    rewrite Z.min_r, (proj2 (Z.leb_gt _ _)) in Hd by lia. destruct Hd as (c'' & ->); [lia| |done].
    unfold same. by rewrite take_take, Nat.min_id.
Qed.

Lemma signed_block_delimited_witness : exists h,
  signed_block exf_sha (exf_block ++ [x00; x01]) = Ok (h, blen exf_block) /\ hd_number h = 2 /\
  signed_block exf_sha (exf_block ++ [x09]) = Ok (h, blen exf_block) /\
  signed_block exf_sha (List.firstn 300 exf_block) = Err Incomplete.
Proof.
  assert (Hl : blen (exf_block ++ [x00; x01]) < U64) by (vm_compute; reflexivity).
  destruct (signed_block_delimited exf_sha (exf_block ++ [x00; x01]) Hl) as [_ H].
  destruct (signed_block exf_sha (exf_block ++ [x00; x01])) as [[h e]|e|] eqn:E; [|vm_compute in E; discriminate E|vm_compute in E; discriminate E].
  assert (Ee : e = blen exf_block) by (vm_compute in E; injection E as _ <-; reflexivity).
  assert (Eh : hd_number h = 2) by (vm_compute in E; injection E as <- _; reflexivity). clear E. subst e.
  destruct (H h (blen exf_block) eq_refl) as (_ & Ht & Hk). exists h. split; [reflexivity|]. split; [exact Eh|]. split.
  - refine (Ht [x09] _). vm_compute. reflexivity.
  - refine (Hk 300 _). vm_compute. intuition congruence.
Defined.

(** What is framed is what the server decodes. If [signed_block] accepts a block, the server's
    [block_header], an independent decoder that is laxer on varuints and lists, decodes the same bytes,
    with anything after them, to the same number, id and previous id. *)
Lemma signed_block_header (sha256 : bytes -> bytes) (b : bytes) (h : Header) (e : Z) (Hb : blen b < U64)
    (H : signed_block sha256 b = Ok (h, e)) :
  BlockLog.block_header sha256 b = Ok (mkHeader (hd_number h) (hd_id h) (hd_previous h)).
Proof.
  assert (Hc : cursor_wf (mkCursor b 0)) by (split; simpl; [pose proof (blen_nonneg b); lia|done]).
  unfold signed_block in H. destruct (block_walk sha256 (mkCursor b 0)) as [[h'|e'|] c] eqn:E; try done.
  injection H as -> <-. unfold block_walk in E. apply sbind_Ok in E as (h' & c1 & E & E2).
  assert (h' = h) as ->.
  { apply sbind_Ok in E2 as (? & ? & _ & E2). apply sbind_Ok in E2 as (? & ? & _ & E2).
    apply sbind_Ok in E2 as (? & ? & _ & E2). by apply sbind_Ok in E2 as (? & ? & _ & [= -> _]). }
  clear E2. unfold header_walk in E. apply sbind_Ok in E as (previous & c2 & E1 & E).
  destruct (sim_fields _ _ _ Hc E1) as (? & Hr & <-). unfold BlockLog.block_header. unfold FcReader.new. rewrite Hr.
  assert (Hcb : cb c2 = b).
  { pose proof (delimited_fields _ _ _ Hc E1) as (Hx & _). exact Hx. }
  apply sbind_Ok in E as (number & c3 & E2 & E). apply sbind_Ok in E as ([] & c4 & E3 & E).
  apply sbind_Ok in E as (packed & c5 & E4 & [= <- _]). unfold slift in E2. injection E2 as E2 <-. res_inv.
  unfold consumed in E4. rewrite Hcb in E4. injection E4 as E4 _.
  apply or_panic_Ok in E4. rewrite E2. cbn [or_err rbind]. by rewrite E4.
Qed.

Lemma signed_block_header_witness : exists h,
  signed_block exf_sha exf_block = Ok (h, blen exf_block) /\
  BlockLog.block_header exf_sha exf_block = Ok (mkHeader 2 (hd_id h) (hd_previous h)).
Proof.
  assert (Hl : blen exf_block < U64) by (vm_compute; reflexivity).
  destruct (signed_block exf_sha exf_block) as [[h e]|e|] eqn:E; [|vm_compute in E; discriminate E|vm_compute in E; discriminate E].
  pose proof (signed_block_header exf_sha exf_block h e Hl E) as H. exists h.
  assert (Ee : e = blen exf_block /\ hd_number h = 2) by (vm_compute in E; injection E as <- <-; split; reflexivity).
  destruct Ee as [-> En]. rewrite En in H. split; [reflexivity|exact H].
Defined.

(** [orphans] accepts exactly runs of whole entries. It returns [n] for the bytes between two
    index positions exactly when they are [n] state-history entries laid out one after the other from
    the file offset given, each with its own position as its trailer; on any other bytes it is an error,
    never a panic, and it always ends. *)
Lemma orphans_exact (b : bytes) (at_ n : Z) (Hat : 0 <= at_) (Hlen : at_ + blen b < U64 - 56) :
  (orphans b at_ = Ok n <->
   exists es, Forall (fun e => blen e.1 = 32) es /\ b = orphan_bytes at_ es /\ n = blen es) /\
  is_panic (orphans b at_) = false.
Proof.
  pose proof (orphans_spec b at_ Hat Hlen) as Hs. pose proof (blen_nonneg b).
  split; [|by destruct (orphans b at_)]. split; [intros E; by rewrite E in Hs|].
  intros (es & Hes & -> & ->). pose proof (orphan_bytes_count es at_ Hes).
  unfold orphans. rewrite orphans_complete by (done || lia). f_equal.
Qed.

Lemma orphans_exact_witness : orphans (orphan_bytes 1000 exf_orphans) 1000 = Ok 2.
Proof.
  refine (proj2 (proj1 (orphans_exact (orphan_bytes 1000 exf_orphans) 1000 2 _ _)) _); [vm_compute; intuition congruence|vm_compute; reflexivity|].
  exists exf_orphans. split; [|split; reflexivity]. repeat constructor.
Defined.

(** A preamble that is accepted is the one the server reads. For a block log whose preamble
    [preamble] accepts, the version is 1 to 3 and the first block a proper number; where the log stores a
    genesis state, the chain id is the hash of exactly the bytes the server's [genesis_reader] delimits,
    or of one byte more when that hash is a pinned Ultra chain id; otherwise it is the stored id; and the
    end is right after it and the separator. On any bytes it returns without a panic. *)
Lemma preamble_agrees (sha256 : bytes -> bytes) (b : bytes) (Hb : blen b < U64) :
  is_panic (preamble sha256 b) = false /\
  forall p, preamble sha256 b = Ok p ->
    exists v, slice b 0 4 = Some v /\ 1 <= le_of v <= 3 /\ 0 < pr_first p < u32_max /\
    let at_ := if le_of v =? 1 then 4 else 8 in
    let sep := if le_of v =? 1 then 0 else 8 in
    if (le_of v <=? 2) || (pr_first p =? 1) then
      exists rest c g, BlockLog.genesis_reader (mkCursor b at_) = (Ok rest, c) /\
        slice b at_ (blen g) = Some g /\ pr_chain_id p = BlockLog.chain_id_from_genesis sha256 g /\
        pr_end p = at_ + blen g + sep /\
        (at_ + blen g = cpos c + rest + BlockLog.CHAIN_CONFIG_V0_BYTES \/
         at_ + blen g = cpos c + rest + 69 /\ sha256 g ∈ ULTRA_GENESIS_CHAIN_IDS)
    else slice b at_ 32 = Some (pr_chain_id p) /\ pr_end p = at_ + 32 + sep.
Proof.
  assert (Hc : cursor_wf (mkCursor b 0)) by (split; simpl; [pose proof (blen_nonneg b); lia|done]).
  unfold preamble. destruct (preamble_walk_safe sha256 _ Hc) as (Hpan & _).
  destruct (preamble_walk sha256 (mkCursor b 0)) as [[[first id]|e|] c] eqn:E; [|by split|by split].
  split; [done|]. intros p [= <-]. cbn [pr_first pr_chain_id pr_end].
  apply preamble_walk_Ok in E as (v & c1 & c2 & Hv & Hver & Hf & Hc1 & Hw & Ei & ->); [|done]. exists v.
  split; [exact Hv|]. split; [done|]. split; [done|]. cbv zeta. destruct ((le_of v <=? 2) || (first =? 1)).
  - destruct (genesis_walk_Ok _ _ _ _ Hw Ei) as (rest & c3 & g & Hr & _ & Hp & Hs & -> & Ho). rewrite Hp in *. subst c1.
    cbn [cb cpos] in *. exists rest, c3, g. split_and!; [done|done|done|lia|done].
  - apply walk_take_Ok in Ei as (-> & Hs & _); [|done|done]. subst c1. cbn [cb cpos adv] in *. split; [exact Hs|lia].
Qed.

Lemma preamble_agrees_witness :
  preamble exf_sha exf_preamble = Ok (mkPreamble 1 (8 + 110 + 8) (exf_sha exf_genesis)) /\
  exists rest c, BlockLog.genesis_reader (mkCursor exf_preamble 8) = (Ok rest, c).
Proof.
  assert (E : preamble exf_sha exf_preamble = Ok (mkPreamble 1 (8 + 110 + 8) (exf_sha exf_genesis))) by (vm_compute; reflexivity).
  assert (Hl : blen exf_preamble < U64) by (vm_compute; reflexivity).
  destruct (preamble_agrees exf_sha exf_preamble Hl) as [_ H]. destruct (H _ E) as (v & Hv & _ & _ & Hg). split; [exact E|].
  vm_compute in Hv. injection Hv as <-. destruct Hg as (rest & c & g & Hr & _). exists rest, c. exact Hr.
Defined.

(** A whole block whose previous id names the last block number is reported as [Incomplete], although
    no byte is missing. *)
Lemma signed_block_last_number :
  signed_block exf_sha (List.repeat x00 14 ++ List.repeat xff 32 ++ List.repeat x00 200) = Err Incomplete.
Proof. vm_compute. reflexivity. Qed.
