(* ===== verification/Disk.v ===== *)
(** * The files of a repair ([crates/log-repair/src/io.rs])

    [Disk] is a file that may be damaged: [Disk::read] gives exactly the bytes asked for or an
    [io::Error], whatever mix of short transfers, interruptions and failures the system answers with.
    The errors of [log-repair] are here too; an [io::Error] keeps its identity under every
    [context], because the recovery of a tail tells it apart ([downcast_ref::<io::Error>]). *)

From S2P Require Import Prelude.
From S2P Require Import Errors.
From S2P Require Import Framing.

(** [io::Error], by its kind or raw code. *)
Inductive io_error := InvalidInput | UnexpectedEof | OsError (errno : Z).

(** [anyhow::Error] in [log-repair]: one constructor for each [ensure!], [bail!] and [context]. *)
Inductive fault :=
| FIo (e : io_error)
| FFrame (e : frame_error)
(* format.rs: the cursor and the header of a block *)
| FLengthOverflow | FTruncatedData (pos : Z) | FVarOverflow | FVarNonCanonical
| FTooManyProducers | FProducerKey | FProducerFlag | FTooManyExtensions | FNumberOverflow
(* format.rs: a log and its index *)
| FLogName | FIndexLength | FMagic (p : magic_problem) | FFirstBlock | FRangeOverflow
| FFirstPosition | FNoSeparator | FOutside (n : Z) | FPastEnd (n : Z) | FIndexEntry (n : Z)
| FEntryTooLong (n : Z) | FPayloadPastNext (n : Z) | FTrailer (n : Z) | FHeaderNumber (n : Z)
| FNoShipHeader | FLongOrphans (n : Z)
(* format.rs: the payload of a SHIP entry *)
| FTruncatedEntry | FPayloadSize | FSizeHeader | FExpansion | FZlib | FDecompressLimit
| FIncompleteZlib | FTrailingZlib | FSizeMismatch | FLegacySize | FDeflate
(* format.rs: containers *)
| FContainerMagic | FContainerRange | FContainerOrder (n : Z) | FContainerNumber
| FContainerChain (n : Z) | FContainerTrailing | FContainerTooLong | FNoBlocks
(* tail.rs: entries *)
| FNoShipStart | FAfterBlock | FIndexSlot | FIncompleteBlock | FSafetyLimit | FNoShipEntry
| FEntryOverflow | FIncompleteShip | FPositionTrailer
(* tail.rs: the walk *)
| FPreambleChanged | FReferenceNumber | FNumberPast
(* repair.rs: sources *)
| FSourcesDisagree (n : Z) | FNoBlockSources | FSourcesTooLong | FNotBlocksLog | FUnwantedDonors | FNoDonors | FDonorKind
(* tail.rs: donors and restoration *)
| FDonorId (n : Z) | FDonorsDisagree (n : Z) | FDonorPayload (n : Z)
| FNoAnchor | FNoThrough | FThroughEarly | FThroughHint | FTooManyRestored | FNoSources
| FSourceLacks (n : Z) | FSourceChain | FNoDonor (n : Z) | FRestoredTooLong
(* tail.rs: a run *)
| FNoNodeStopped | FOtherChain | FNotCanonical | FUnlinked | FLeftAnchor | FInputChanged | FNoSalvage | FNoSpace
| FReadBack | FReadBackBytes
(* target.rs: the geometry of damage *)
| FRecordSize (n : Z) | FRecordRange (a b : Z) | FRecordOverflow | FNotContained (offset : Z) | FNoExtents
| FUnaligned | FExtentOrder | FNoAnchorSide | FRegionBlocks (n : Z) | FRegionSpan (n : Z) | FUnreadableNear (offset : Z)
| FOrphansDamaged (n : Z) | FUnrepairable | FTooManyRegions (n : Z) | FDamageLimit | FBadReads | FContiguous
| FBlockRange (a b : Z)
(* repair.rs: rebuilding and applying *)
| FNoDonorCovers (a b : Z) | FAnchorSource (n : Z) | FAnchorChain (n : Z) | FDonorAnchor (n : Z) | FChainBroken (n : Z)
| FRightAnchor | FShipId (n : Z) | FEntryLength (n : Z) | FSpanLength | FReadableDiffers (from : Z) | FMarkerDiffers
| FNoCodec (n : Z) | FNoCalibration | FCodecsDiffer | FNoFit | FAmbiguous | FOverwrite (offset : Z) | FLayout
| FEvidence | FStateChanged | FShortWrite | FLogResized | FReadBackExtent (offset : Z) | FPostWrite
| FPostChain (n : Z) | FPlanTooLong | FApproval | FPlan | FPlanSchema | FReplacementLimit | FReplacementLength | FReplacementHash.

(** [?] on a result of [framing]. *)
Definition of_frame {A} (r : res frame_error A) : res fault A :=
  match r with Ok a => Ok a | Err e => Err (FFrame e) | Panic => Panic end.

Lemma of_frame_Ok {A} (r : res frame_error A) a : of_frame r = Ok a -> r = Ok a.
Proof. by destruct r; [intros [= ->]| |]. Qed.

Definition is_io (e : fault) : bool := match e with FIo _ => true | _ => false end.

Lemma is_io_inv e : is_io e = true -> exists i, e = FIo i.
Proof. destruct e; try done. by eexists. Qed.

(** What [read_at] answers: it transfers some bytes, is interrupted, or fails. *)
Inductive sys := Transfer (n : Z) | Interrupted | Failed (errno : Z).

(** A file: its bytes, and how the system answers the calls of a read at an offset for a length. Calls
    past the end of that list transfer all there is. *)
Record Disk := mkDisk { d_data : bytes; d_sys : Z -> Z -> list sys }.

(** [stamp()?.size]. *)
Definition d_size (d : Disk) : Z := blen (d_data d).

(** The bytes a call for [room] bytes at [off] gets when the system is willing to transfer [n]. *)
Definition transfer (d : Disk) (off room n : Z) : bytes :=
  take (Z.to_nat (Z.min room (Z.max 1 n))) (drop (Z.to_nat off) (d_data d)).

Fixpoint read_loop (d : Disk) (offset len : Z) (done : bytes) (answers : list sys) : res fault bytes :=
  if negb (blen done <? len) then Ok done
  else match answers with
  | [] =>
      let rest := transfer d (offset + blen done) (len - blen done) (len - blen done) in
      if blen (done ++ rest) <? len then Err (FIo UnexpectedEof) else Ok (done ++ rest)
  | Interrupted :: answers => read_loop d offset len done answers
  | Failed errno :: _ => Err (FIo (OsError errno))
  | Transfer n :: answers =>
      match transfer d (offset + blen done) (len - blen done) n with
      | [] => Err (FIo UnexpectedEof)
      | got => read_loop d offset len (done ++ got) answers
      end
  end.

Definition read (d : Disk) (offset len : Z) : res fault bytes :=
  if (MAX_BYTES <? len) || negb (bool_decide (is_Some (checked_add64 offset len))) then Err (FIo InvalidInput)
  else read_loop d offset len [] (d_sys d offset len).

(** A file the system reads without failing. *)
Definition sound_disk (data : bytes) : Disk := mkDisk data (fun _ _ => []).

(** The bytes of a file after [x] is written at [off]; a gap behind the end reads as zeros. *)
Definition put (data : bytes) (off : Z) (x : bytes) : bytes :=
  take (Z.to_nat off) data ++ List.repeat x00 (Z.to_nat off - length data) ++ x ++ drop (Z.to_nat off + length x) data.

(** ** Reads are exact *)

Lemma transfer_prefix d off room n :
  0 <= off -> 0 < room ->
  exists s, transfer d off room n ++ s = drop (Z.to_nat off) (d_data d) /\ blen (transfer d off room n) <= room.
Proof.
  intros Ho Hr. exists (drop (Z.to_nat (Z.min room (Z.max 1 n))) (drop (Z.to_nat off) (d_data d))).
  unfold transfer. rewrite take_drop. split; [done|]. unfold blen. rewrite length_take. lia.
Qed.

(** The bytes read so far are those at the offset. *)
Definition read_so_far (d : Disk) (offset len : Z) (done : bytes) : Prop :=
  exists s, done ++ s = drop (Z.to_nat offset) (d_data d) /\ blen done <= len.

Lemma read_so_far_step d offset len done n :
  0 <= offset -> blen done < len -> read_so_far d offset len done ->
  read_so_far d offset len (done ++ transfer d (offset + blen done) (len - blen done) n).
Proof.
  intros Ho Hl (s & Hs & _). pose proof (blen_nonneg done).
  destruct (transfer_prefix d (offset + blen done) (len - blen done) n) as (q & Hq & Hle); [lia|lia|].
  exists q. rewrite blen_app. split; [|lia]. rewrite <- app_assoc, Hq.
  rewrite Z2Nat.inj_add, <- drop_drop, <- Hs by lia. unfold blen. by rewrite Nat2Z.id, drop_app_length.
Qed.

(** An empty read past the end of the file gives no bytes and is not an error; everywhere else a read
    is a slice of the file. *)
Definition inside (d : Disk) (offset len : Z) : Prop := 0 <= offset /\ 0 <= len /\ (0 < len \/ offset <= d_size d).

Lemma inside_pos d offset len : 0 <= offset -> 0 < len -> inside d offset len.
Proof. unfold inside. lia. Qed.

Lemma inside_range d offset len : 0 <= offset -> 0 <= len -> offset + len <= d_size d -> inside d offset len.
Proof. unfold inside. lia. Qed.

#[export] Hint Resolve inside_pos inside_range : rust.

Lemma read_so_far_slice d offset len done :
  inside d offset len -> len <= blen done -> read_so_far d offset len done -> slice (d_data d) offset len = Some done.
Proof.
  intros (Ho & Hl & Hi) Hd (s & Hs & Hle). assert (Hn : blen done = len) by lia. apply slice_Some.
  pose proof (f_equal blen Hs) as Hb. rewrite blen_app in Hb. pose proof (blen_nonneg s).
  unfold blen in Hb at 3. rewrite length_drop in Hb. unfold d_size, blen in *.
  split; [lia|]. split; [lia|]. split; [lia|].
  rewrite <- Hs, <- Hn, Nat2Z.id. by rewrite take_app_length.
Qed.

Lemma read_loop_spec d offset len done answers :
  inside d offset len -> read_so_far d offset len done ->
  match read_loop d offset len done answers with
  | Ok b => slice (d_data d) offset len = Some b
  | Err e => is_io e = true
  | Panic => False
  end.
Proof.
  intros Hi. pose proof Hi as (Ho & Hl & _). revert done; induction answers as [|a answers IH]; intros done Hd; cbn [read_loop].
  - destruct (Z.ltb_spec (blen done) len); cbn [negb]; [|by apply read_so_far_slice].
    cbv zeta. destruct (Z.ltb_spec (blen (done ++ transfer d (offset + blen done) (len - blen done) (len - blen done))) len).
    + done.
    + apply read_so_far_slice; [done|lia|]. by apply read_so_far_step.
  - destruct (Z.ltb_spec (blen done) len); cbn [negb]; [|by apply read_so_far_slice].
    destruct a as [n| |]; [|by apply IH|done].
    pose proof (read_so_far_step d offset len done n Ho ltac:(lia) Hd) as Hs.
    destruct (transfer _ _ _ n) as [|x got]; [done|]. by apply IH.
Qed.

Lemma disk_read_spec d offset len :
  inside d offset len ->
  match read d offset len with
  | Ok b => slice (d_data d) offset len = Some b /\ len <= MAX_BYTES
  | Err e => is_io e = true
  | Panic => False
  end.
Proof.
  intros Hi. unfold read. destruct (Z.ltb_spec MAX_BYTES len); [done|]. cbn [orb].
  destruct (bool_decide _) eqn:E; cbn [negb]; [|done].
  pose proof (read_loop_spec d offset len [] (d_sys d offset len) Hi) as H'.
  assert (Hs : read_so_far d offset len []) by (exists (drop (Z.to_nat offset) (d_data d)); split; [done|apply Hi]).
  specialize (H' Hs). by destruct (read_loop _ _ _ _ _).
Qed.

Lemma read_Ok d offset len b :
  inside d offset len -> read d offset len = Ok b -> slice (d_data d) offset len = Some b.
Proof. intros Hi H. pose proof (disk_read_spec d offset len Hi) as Hr. rewrite H in Hr. apply Hr. Qed.

(** Only an [io::Error] keeps a read from giving the bytes. *)
Lemma read_cases d offset len :
  inside d offset len ->
  (exists b, read d offset len = Ok b /\ slice (d_data d) offset len = Some b) \/
  (exists e, read d offset len = Err (FIo e)).
Proof.
  intros Hi. pose proof (disk_read_spec d offset len Hi) as Hr.
  destruct (read d offset len) as [b|[]|]; try done; [left|right]; naive_solver.
Qed.

(** On a file without faults every read inside it and the limit succeeds. *)
Lemma read_sound data offset len b :
  len <= MAX_BYTES -> blen data < U64 -> slice data offset len = Some b -> read (sound_disk data) offset len = Ok b.
Proof.
  intros Hm Hd Hs. pose proof Hs as Hs'. apply slice_Some in Hs' as (Ho & Hl & Hle & ->).
  unfold read. rewrite (proj2 (Z.ltb_ge _ _)) by lia. cbn [orb].
  rewrite bool_decide_true; cbn [negb].
  2: { eexists. apply checked_add64_Some. split; [done|lia]. }
  unfold sound_disk at 2. cbn [d_sys read_loop]. rewrite blen_nil, Z.add_0_r, Z.sub_0_r, app_nil_l.
  destruct (Z.ltb_spec 0 len); cbn [negb].
  - cbv zeta. unfold transfer. cbn [d_data sound_disk]. rewrite Z.max_r, Z.min_id by lia.
    apply slice_blen in Hs. rewrite Hs. by rewrite Z.ltb_irrefl.
  - by replace len with 0 by lia.
Qed.

(** ** Writes *)

Lemma byte_at_app_l a b i : i < blen a -> byte_at (a ++ b) i = byte_at a i.
Proof.
  intros Hi. unfold byte_at. destruct (Z.leb_spec 0 i); [|done]. apply lookup_app_l. unfold blen in Hi. lia.
Qed.

Lemma byte_at_app_r a b i : blen a <= i -> byte_at (a ++ b) i = byte_at b (i - blen a).
Proof.
  intros Hi. pose proof (blen_nonneg a). unfold byte_at. rewrite !(proj2 (Z.leb_le _ _)) by lia.
  rewrite lookup_app_r by (unfold blen in Hi; lia). f_equal. unfold blen. lia.
Qed.

Lemma byte_at_take b n i : i < n -> byte_at (take (Z.to_nat n) b) i = byte_at b i.
Proof. intros Hi. unfold byte_at. destruct (Z.leb_spec 0 i); [|done]. apply lookup_take_lt. lia. Qed.

Lemma byte_at_drop b n i : 0 <= n -> 0 <= i -> byte_at (drop (Z.to_nat n) b) i = byte_at b (n + i).
Proof. intros Hn Hi. unfold byte_at. rewrite !(proj2 (Z.leb_le _ _)) by lia. rewrite lookup_drop. f_equal. lia. Qed.

Lemma slice_byte_at b off n s i : slice b off n = Some s -> 0 <= i < n -> byte_at s i = byte_at b (off + i).
Proof.
  intros Hs Hi. apply slice_Some in Hs as (? & ? & ? & ->). rewrite byte_at_take by lia. apply byte_at_drop; lia.
Qed.

(** Bytes that agree everywhere are a slice. *)
Lemma slice_ext b off s :
  0 <= off -> off + blen s <= blen b -> (forall i, 0 <= i < blen s -> byte_at b (off + i) = byte_at s i) ->
  slice b off (blen s) = Some s.
Proof.
  intros Ho Hl Hb. pose proof (blen_nonneg s). destruct (slice_is_Some b off (blen s)) as [t Ht]; [lia..|]. rewrite Ht. f_equal.
  pose proof (slice_blen _ _ _ _ Ht) as Hlen. apply list_eq. intros i. destruct (decide (i < length s)%nat) as [Hi|Hi].
  - specialize (Hb (Z.of_nat i) ltac:(unfold blen; lia)).
    rewrite <- (slice_byte_at _ _ _ _ _ Ht) in Hb by (unfold blen; lia). unfold byte_at in Hb.
    rewrite (proj2 (Z.leb_le 0 _)), Nat2Z.id in Hb by lia. done.
  - rewrite !lookup_ge_None_2; [done|lia|unfold blen in Hlen; lia].
Qed.

Lemma put_parts data off x :
  0 <= off -> off + blen x <= blen data -> put data off x = take (Z.to_nat off) data ++ x ++ drop (Z.to_nat (off + blen x)) data.
Proof.
  intros Ho Hl. pose proof (blen_nonneg x). unfold put, blen in *. replace (Z.to_nat off - length data)%nat with 0%nat by lia. cbn [List.repeat app].
  do 3 f_equal. lia.
Qed.

Lemma blen_put data off x : 0 <= off -> off + blen x <= blen data -> blen (put data off x) = blen data.
Proof.
  intros Ho Hl. pose proof (blen_nonneg x). rewrite put_parts, !blen_app, blen_take, blen_drop by lia. lia.
Qed.

Lemma byte_at_put data off x i :
  0 <= off -> off + blen x <= blen data ->
  byte_at (put data off x) i = if (off <=? i) && (i <? off + blen x) then byte_at x (i - off) else byte_at data i.
Proof.
  intros Ho Hl. pose proof (blen_nonneg x). rewrite put_parts by lia.
  assert (Ht : blen (take (Z.to_nat off) data) = off) by (apply blen_take; lia).
  destruct (Z.leb_spec off i); cbn [andb].
  - rewrite byte_at_app_r, Ht by lia. destruct (Z.ltb_spec i (off + blen x)); [by rewrite byte_at_app_l by lia|].
    rewrite byte_at_app_r, byte_at_drop by lia. f_equal. lia.
  - rewrite byte_at_app_l by lia. by apply byte_at_take.
Qed.
