(* ===== verification/ShipPayload.v ===== *)
(** * The payload of a SHIP entry, checked and rebuilt ([format.rs], [codec.rs] of log-repair)

    [decode_ship] is the decoder behind [ship_payload] and [checked_ship_id]: it frames an entry body
    and inflates it in chunks of 64 KiB with a decoder that the thread keeps and resets. [Codec] is
    every encoding a node has written payloads with, and [encode_ship_with] builds an entry body.

    The theorems: the decoder accepts exactly the bodies of the format, whatever an earlier call left in
    the thread's decoder, and ends on every input; and what the encoder writes, in every marker class
    and with every codec, decodes to the payload it was given. zlib is the class [Flate]. *)

From S2P Require Import Prelude.
From S2P Require Import Errors.
From S2P Require Import ShipLog.
From S2P Require Import Zlib.
From S2P Require Import Framing.
From S2P Require Import Disk.

Definition unsupported_ship_magic (magic : Z) : option magic_problem :=
  if magic =? SHIP_MAGIC then None
  else if negb (Z.land magic 0xffffffff00000000 =? SHIP_MAGIC) then Some NoShipMagic
  else
    let version := Z.land magic 0xffff in
    let features := Z.land (Z.shiftr magic 16) 0xffff in
    Some (if version =? 1 then LogVersion1
          else if negb (Z.land features 1 =? 0) then PrunedLog
          else UnsupportedLog version features).

(** [if let Some(problem) = unsupported_ship_magic(..) { bail!(..) }]. *)
Definition check_magic (magic : Z) : res fault () :=
  match unsupported_ship_magic magic with Some p => Err (FMagic p) | None => Ok () end.

(** [u32le(&b[at..])], [u64le(&b[at..])]: panic where there are too few bytes. *)
Definition u32_in (b : bytes) (at_ : Z) : res fault Z :=
  let? s := or_panic (slice b at_ 4) in Ok (le_of s).
Definition u64_in (b : bytes) (at_ : Z) : res fault Z := of_frame (u64le b at_).

(** ** The decoder *)

(** The framing checks of [decode_ship]: where the stream starts, the declared size, the marker. *)
Definition ship_frame (body : bytes) : res fault (Z * option Z * Z) :=
  do? ensure (52 <=? blen body) FTruncatedEntry ;;
  let? magic := u64_in body 0 in
  do? check_magic magic ;;
  let? size := u64_in body 40 in
  do? ensure (size =? blen body - 48) FPayloadSize ;;
  let? marker := u32_in body 48 in
  let? start := (if marker =? 1 then do? ensure (60 <=? blen body) FSizeHeader ;; Ok 60 else Ok 52) in
  let? expected := (if marker =? 1 then let? s := u64_in body 52 in Ok (Some s) else Ok None) in
  do? ensure (match expected with Some s => s <=? MAX_BYTES | None => true end) FExpansion ;;
  Ok (start, expected, marker).

Definition CHUNK : Z := 65536.

Section Decoder.
Context {F : Flate} {R : FlateReset F}.

Record ShipDecoder := mkDecoder { sd_z : zst; sd_chunk : bytes }.

Definition decoder_new : ShipDecoder := mkDecoder znew (replicate (Z.to_nat CHUNK) x00).

(** [if COLLECT { raw.extend_from_slice(&chunk[..produced]) }]. *)
Definition collect_chunk (collect : bool) (raw : bytes) (produced : Z) : M fault ShipDecoder bytes :=
  if collect then
    let! d := sget in
    let! got := slift (or_panic (slice (sd_chunk d) 0 produced)) in
    sret (raw ++ got)
  else sret raw.

(** One turn of the loop; [raw] is what was collected before it. *)
Definition decode_iter (collect : bool) (body : bytes) (start : Z) (raw : bytes)
    : M fault ShipDecoder (ctl bytes bytes) := fun d =>
  let input_before := total_in (sd_z d) in
  let output_before := total_out (sd_z d) in
  (let! input := slift (or_panic
     (slice body (add64 start input_before) (blen body - add64 start input_before))) in
   match decompress (sd_z d) input CHUNK with
   | (None, z) => fun d => (Err FZlib, mkDecoder z (sd_chunk d))
   | (Some (status, out), z) =>
       do! (fun d => (Ok (), mkDecoder z (out ++ drop (length out) (sd_chunk d)))) ;;
       let produced := sub64 (total_out z) output_before in
       do! sensure (total_out z <=? MAX_BYTES) FDecompressLimit ;;
       let! raw := collect_chunk collect raw produced in
       if bool_decide (status = StStreamEnd) then sret (Break raw)
       else
         do! sensure ((input_before <? total_in z) || (0 <? produced)) FIncompleteZlib ;;
         sret (Cont raw)
   end) d.

Definition decode (collect : bool) (body : bytes) (start : Z) (expected : option Z) (marker : Z)
    : M fault ShipDecoder (bytes * bytes) :=
  do! (fun d => (Ok (), mkDecoder (zreset (sd_z d)) (sd_chunk d))) ;;
  let! raw := loop_ (decode_iter collect body start) [] in
  let! d := sget in
  do! sensure (total_in (sd_z d) =? blen body - start) FTrailingZlib ;;
  do! sensure (match expected with Some s => s =? total_out (sd_z d) | None => true end) FSizeMismatch ;;
  do! sensure ((marker <=? 1) || (marker =? blen body - start)) FLegacySize ;;
  let! id := slift (or_panic (slice body 8 32)) in
  sret (id, raw).

(** [SHIP_DECODER.with_borrow_mut(|d| d.get_or_insert_with(ShipDecoder::new)..)]. *)
Definition with_decoder {A} (m : M fault ShipDecoder A) : M fault (option ShipDecoder) A := fun st =>
  let '(r, d) := m (default decoder_new st) in (r, Some d).

Definition decode_ship (collect : bool) (body : bytes) : M fault (option ShipDecoder) (bytes * bytes) :=
  let! f := slift (ship_frame body) in
  let '(start, expected, marker) := f in
  with_decoder (decode collect body start expected marker).

(** On a thread that has not decoded yet; [decode_ship_spec] shows the result is the same on any. *)
Definition ship_payload (body : bytes) : res fault (bytes * bytes) := (decode_ship true body None).1.

Definition checked_ship_id (body : bytes) : res fault bytes :=
  let? r := (decode_ship false body None).1 in Ok r.1.
End Decoder.
Arguments ShipDecoder F : clear implicits.

(** ** The encoder *)

Inductive Codec := Stored (block : Z) (empty_final : bool) | Deflate (level : Z).

#[export] Instance Codec_eq_dec : EqDecision Codec.
Proof. solve_decision. Defined.

Definition SPRING : Codec := Stored (32 * 1024) false.

Definition candidates : list Codec :=
  flat_map (fun block => [Stored block false; Stored block true]) [32 * 1024; 32506] ++
  [Deflate 6] ++ (Deflate <$> [1; 2; 3; 4; 5; 7; 8; 9]).

(** The blocks of a stored stream; [more] is whether an empty final block follows them. *)
Fixpoint codec_blocks (more : bool) (cs : list bytes) : bytes :=
  match cs with
  | [] => []
  | c :: rest => stored_block (bool_decide (rest = []) && negb more) c ++ codec_blocks more rest
  end.

Definition codec_stored (raw : bytes) (block : Z) (empty_final : bool) : bytes :=
  let exact := negb (bool_decide (raw = [])) && (blen raw mod block =? 0) in
  [x78; x01] ++ codec_blocks (exact && empty_final) (chunks block raw) ++
  (if bool_decide (raw = []) || (exact && empty_final) then [x01; x00; x00; xff; xff] else []) ++
  be_bytes 4 (adler32 raw).

Section Encoder.
Context {F : Flate} {R : FlateReset F} (zlib_deflate : Z -> bytes -> option bytes).

(** [Codec::encode]; [deflate] calls the linked zlib. *)
Definition codec_encode (c : Codec) (raw : bytes) : res fault bytes :=
  match c with
  | Stored block empty_final => Ok (codec_stored raw block empty_final)
  | Deflate level => or_err (zlib_deflate level raw) FDeflate
  end.

Definition ship_marker (body : bytes) : res fault Z := let? m := u32_in body 48 in Ok (Z.min m 2).

Definition encode_ship_with (id raw : bytes) (marker : Z) (codec : Codec) : res fault bytes :=
  let? compressed := codec_encode codec raw in
  let body := le_bytes 8 SHIP_MAGIC ++ id ++
    le_bytes 8 (add64 (blen compressed) (if marker =? 1 then 12 else 4)) ++
    le_bytes 4 (if marker <=? 1 then marker else wrap32 (blen compressed)) ++
    (if marker =? 1 then le_bytes 8 (blen raw) else []) ++ compressed in
  do? checked_ship_id body ;;
  Ok body.

Definition encode_ship (id raw : bytes) (marker : Z) : res fault bytes := encode_ship_with id raw marker SPRING.
End Encoder.

(** ** What a body of the format is *)

(** A body with this id, marker, declared size and stream. *)
Record framed (body id : bytes) (marker : Z) (expected : option Z) (data : bytes) : Prop := {
  fr_id : blen id = 32;
  fr_marker : is_u32 marker;
  fr_expected : match expected with Some s => marker = 1 /\ is_u64 s | None => marker <> 1 end;
  fr_body : body = le_bytes 8 SHIP_MAGIC ++ id ++ le_bytes 8 (blen body - 48) ++ le_bytes 4 marker ++
              match expected with Some s => le_bytes 8 s | None => [] end ++ data
}.

(** The stream is whole, ends with the body, inflates to [raw] within the limit, and the sizes the body
    declares are those of the payload and of the stream. *)
Definition ship_body (zlib : bytes -> option bytes) (body id raw : bytes) : Prop :=
  exists marker data, framed body id marker (if marker =? 1 then Some (blen raw) else None) data /\
    zlib data = Some raw /\ blen raw <= MAX_BYTES /\ (marker <= 1 \/ marker = blen data).

Lemma unsupported_ship_magic_core m : unsupported_ship_magic m = unsupported_magic m.
Proof. done. Qed.

Lemma check_magic_Ok m u : check_magic m = Ok u <-> m = SHIP_MAGIC.
Proof.
  unfold check_magic. rewrite unsupported_ship_magic_core. destruct (unsupported_magic m) eqn:E.
  - split; [done|]. intros ->. done.
  - apply unsupported_magic_None in E. destruct u. done.
Qed.

Lemma u64_in_total b at_ : 0 <= at_ -> at_ + 8 <= blen b -> exists x, u64_in b at_ = Ok x /\ is_u64 x.
Proof. intros Ha Hb. unfold u64_in. destruct (u64le_total b at_ Ha Hb) as (x & -> & Hx). by exists x. Qed.

Lemma u64_in_Ok b at_ v : u64_in b at_ = Ok v <-> exists s, slice b at_ 8 = Some s /\ le_of s = v.
Proof.
  unfold u64_in, u64le. destruct (slice b at_ 8) as [s|]; simpl; [|naive_solver].
  split; [intros [= <-]; eauto|intros (? & [= <-] & <-); done].
Qed.

Lemma u64_in_mid p x t at_ v : blen p = at_ -> blen x = 8 -> le_of x = v -> u64_in (p ++ x ++ t) at_ = Ok v.
Proof. intros Hp Hx <-. apply u64_in_Ok. exists x. by rewrite (slice_mid p x t) by lia. Qed.

Lemma u32_in_total b at_ : 0 <= at_ -> at_ + 4 <= blen b -> exists x, u32_in b at_ = Ok x /\ is_u32 x.
Proof.
  intros Ha Hb. unfold u32_in. destruct (slice_is_Some b at_ 4) as [s Hs]; [lia|lia|lia|]. rewrite Hs.
  exists (le_of s). split; [done|]. apply le_of_u32. by eapply slice_blen.
Qed.

Lemma ship_frame_no_panic body : is_panic (ship_frame body) = false.
Proof.
  unfold ship_frame. destruct (Z.leb_spec 52 (blen body)); [|done]. cbn [ensure rbind].
  destruct (u64_in_total body 0) as (m & -> & _); [lia|lia|]. cbn [rbind].
  unfold check_magic. destruct (unsupported_ship_magic m); [done|]. cbn [rbind].
  destruct (u64_in_total body 40) as (s & -> & _); [lia|lia|]. cbn [rbind].
  destruct (s =? _); [|done]. cbn [ensure rbind].
  destruct (u32_in_total body 48) as (k & -> & _); [lia|lia|]. cbn [rbind].
  destruct (k =? 1); [|done]. destruct (Z.leb_spec 60 (blen body)); [|done]. cbn [ensure rbind].
  destruct (u64_in_total body 52) as (e & -> & _); [lia|lia|]. cbn [rbind]. by destruct (e <=? _).
Qed.

(** Splitting a body at its fixed fields. *)
Lemma split_fields body :
  52 <= blen body -> exists m id s k r : bytes, body = m ++ id ++ s ++ k ++ r /\
    blen m = 8 /\ blen id = 32 /\ blen s = 8 /\ blen k = 4.
Proof.
  intros H. destruct (cut body 8) as (m & r1 & -> & Hm & H1); [lia|]. rewrite blen_app in H.
  destruct (cut r1 32) as (id & r2 & -> & Hi & H2); [lia|]. rewrite blen_app in H.
  destruct (cut r2 8) as (s & r3 & -> & Hs & H3); [lia|]. rewrite blen_app in H.
  destruct (cut r3 4) as (k & r & -> & Hk & _); [lia|]. exists m, id, s, k, r. done.
Qed.

Lemma u64_at_0 m t : blen m = 8 -> u64_in (m ++ t) 0 = Ok (le_of m).
Proof. intros H. by apply (u64_in_mid [] m t). Qed.

Lemma u64_at_40 m id s t : blen m = 8 -> blen id = 32 -> blen s = 8 -> u64_in (m ++ id ++ s ++ t) 40 = Ok (le_of s).
Proof. intros Hm Hi Hs. rewrite app_assoc. apply u64_in_mid; [rewrite blen_app; lia|done|done]. Qed.

Lemma u32_at_48 m id s k t :
  blen m = 8 -> blen id = 32 -> blen s = 8 -> blen k = 4 -> u32_in (m ++ id ++ s ++ k ++ t) 48 = Ok (le_of k).
Proof.
  intros Hm Hi Hs Hk. unfold u32_in. rewrite (app_assoc m), (app_assoc (m ++ id)).
  by rewrite (slice_mid ((m ++ id) ++ s) k t) by (rewrite ?blen_app; lia).
Qed.

Lemma u64_at_52 m id s k e t :
  blen m = 8 -> blen id = 32 -> blen s = 8 -> blen k = 4 -> blen e = 8 ->
  u64_in (m ++ id ++ s ++ k ++ e ++ t) 52 = Ok (le_of e).
Proof.
  intros Hm Hi Hs Hk He. rewrite (app_assoc m), (app_assoc (m ++ id)), (app_assoc ((m ++ id) ++ s)).
  apply u64_in_mid; [rewrite !blen_app; lia|done|done].
Qed.

Definition frame_start (expected : option Z) : Z := match expected with Some _ => 60 | None => 52 end.
Definition frame_size (expected : option Z) : bytes := match expected with Some s => le_bytes 8 s | None => [] end.

Lemma blen_frame_size expected : blen (frame_size expected) = frame_start expected - 52.
Proof. unfold frame_size, frame_start. destruct expected; [by rewrite blen_le_bytes|done]. Qed.

Lemma framed_start body id marker expected data :
  framed body id marker expected data ->
  blen body = frame_start expected + blen data /\ 52 <= frame_start expected <= 60 /\ slice body 8 32 = Some id /\
  slice body (frame_start expected) (blen data) = Some data.
Proof.
  intros [Hid Hm He Hb]. fold (frame_size expected) in Hb. pose proof (blen_frame_size expected) as Le.
  assert (Hl : blen body = frame_start expected + blen data).
  { pose proof (f_equal blen Hb) as H. rewrite !blen_app, !blen_le_bytes, Hid, Le in H. lia. }
  split; [done|]. split; [destruct expected; simpl; lia|]. rewrite Hb.
  split; [by rewrite (slice_mid (le_bytes 8 SHIP_MAGIC) id) by done|].
  rewrite !app_assoc, slice_app_r; rewrite !blen_app, !blen_le_bytes, Hid, Le; [|lia].
  apply slice_Some. pose proof (blen_nonneg data). split; [lia|]. split; [lia|]. split; [lia|].
  replace (_ - _) with 0 by lia. unfold blen. by rewrite Nat2Z.id, drop_0, take_ge.
Qed.

(** The framing checks on a body split at its fields. *)
Lemma ship_frame_eq m id s k r :
  blen m = 8 -> blen id = 32 -> blen s = 8 -> blen k = 4 ->
  ship_frame (m ++ id ++ s ++ k ++ r) =
  do? check_magic (le_of m) ;;
  do? ensure (le_of s =? 4 + blen r) FPayloadSize ;;
  if le_of k =? 1 then
    do? ensure (8 <=? blen r) FSizeHeader ;;
    do? ensure (le_of (take 8 r) <=? MAX_BYTES) FExpansion ;;
    Ok (60, Some (le_of (take 8 r)), 1)
  else Ok (52, None, le_of k).
Proof.
  intros Hm Hi Hs Hk. unfold ship_frame. pose proof (blen_nonneg r).
  assert (Hl : blen (m ++ id ++ s ++ k ++ r) = 52 + blen r) by (rewrite !blen_app; lia).
  rewrite u64_at_0, u64_at_40, u32_at_48, Hl by done. rewrite (proj2 (Z.leb_le 52 _)) by lia. cbn [ensure rbind].
  destruct (check_magic (le_of m)); [|done|done]. cbn [rbind]. replace (52 + blen r - 48) with (4 + blen r) by lia.
  destruct (le_of s =? 4 + blen r); [|done]. cbn [ensure rbind]. destruct (Z.eqb_spec (le_of k) 1) as [->|]; [|done].
  destruct (Z.leb_spec 8 (blen r)).
  - rewrite (proj2 (Z.leb_le 60 _)) by lia. cbn [ensure rbind].
    destruct (cut r 8) as (e & d & -> & He & _); [lia|]. rewrite u64_at_52 by done. cbn [rbind].
    replace (take 8 (e ++ d)) with e; [done|]. replace 8%nat with (length e) by (unfold blen in He; lia).
    by rewrite take_app_length.
  - rewrite (proj2 (Z.leb_gt 60 _)) by lia. done.
Qed.

Lemma ship_frame_sound body start expected marker :
  ship_frame body = Ok (start, expected, marker) ->
  exists id data, framed body id marker expected data /\ start = frame_start expected /\
    match expected with Some s => s <= MAX_BYTES | None => True end.
Proof.
  intros H. assert (H52 : 52 <= blen body).
  { unfold ship_frame in H. guard H as H52. by apply Z.leb_le. }
  destruct (split_fields body H52) as (m & id & s & k & r & -> & Hm & Hi & Hs & Hk).
  rewrite ship_frame_eq in H by done. bind H as u Hmag. apply check_magic_Ok in Hmag. guard H as Hsz. apply Z.eqb_eq in Hsz.
  assert (Hl : blen (m ++ id ++ s ++ k ++ r) = 52 + blen r) by (rewrite !blen_app; lia).
  pose proof (le_bytes_of 8 m _ Hm Hmag) as ->. pose proof (le_bytes_of 8 s _ Hs Hsz) as ->.
  pose proof (le_of_u32 k Hk) as Hku. pose proof (le_bytes_of 4 k _ Hk eq_refl) as Ek.
  destruct (Z.eqb_spec (le_of k) 1) as [E1|E1].
  - guard H as H8. apply Z.leb_le in H8. guard H as Hmax. apply Z.leb_le in Hmax. injection H as <- <- <-.
    destruct (cut r 8) as (e & d & -> & He & _); [lia|].
    replace (take 8 (e ++ d)) with e in * by (replace 8%nat with (length e) by (unfold blen in He; lia); by rewrite take_app_length).
    exists id, d. split; [|done]. split; [done|done|split; [done|by apply le_of_u64]|].
    rewrite E1 in Ek. rewrite Hl, <- Ek, <- (le_bytes_of 8 e _ He eq_refl).
    by replace (52 + blen (e ++ d) - 48) with (4 + blen (e ++ d)) by lia.
  - injection H as <- <- <-. exists id, r. split; [|done]. split; [done|done|done|].
    rewrite Hl, app_nil_l, <- Ek. by replace (52 + blen r - 48) with (4 + blen r) by lia.
Qed.

Lemma ship_frame_complete body id marker expected data :
  blen body < U64 -> framed body id marker expected data ->
  match expected with Some s => s <= MAX_BYTES | None => True end ->
  ship_frame body = Ok (frame_start expected, expected, marker).
Proof.
  intros Hu Hf Hmax. pose proof (framed_start _ _ _ _ _ Hf) as (Hl & Hst & _ & _). destruct Hf as [Hid Hm He Hb].
  pose proof (blen_nonneg data). fold (frame_size expected) in Hb. rewrite Hb.
  pose proof (blen_frame_size expected) as Le. rewrite ship_frame_eq by done.
  rewrite !le_of_le_bytes_id by (change (256 ^ Z.of_nat 4) with U32; change (256 ^ Z.of_nat 8) with U64; first [done|lia]).
  rewrite (proj2 (check_magic_Ok _ tt)) by done. cbn [rbind].
  rewrite blen_app, Le, (proj2 (Z.eqb_eq (blen body - 48) _)) by lia. cbn [ensure rbind].
  destruct expected as [s|]; cbn [frame_size frame_start] in *.
  - destruct He as [-> Hs]. cbn [Z.eqb Pos.eqb]. rewrite (proj2 (Z.leb_le 8 _)) by lia. cbn [ensure rbind].
    assert (E : take 8 (le_bytes 8 s ++ data) = le_bytes 8 s) by done. rewrite E.
    rewrite le_of_le_bytes_id by exact Hs. by rewrite (proj2 (Z.leb_le s _)) by done.
  - by destruct (Z.eqb_spec marker 1).
Qed.

(** ** The loop *)
Section Decoding.
Context {F : Flate} {R : FlateReset F} (zlib : bytes -> option bytes) {L : FlateLaws F zlib}
  {RL : ResetLaws F zlib}.

(** The chunk keeps its length, on every outcome. *)
Definition chunk_ok (d : ShipDecoder F) : Prop := blen (sd_chunk d) = CHUNK.

Definition decoder_ok (st : option (ShipDecoder F)) : Prop :=
  match st with Some d => chunk_ok d | None => True end.

Definition kept (collect : bool) (o : bytes) : bytes := if collect then o else [].

Context (collect : bool) (body data : bytes) (start : Z).
Hypothesis Hbody : blen body < U64.
Hypothesis Hstart : 0 <= start.
Hypothesis Hdata : slice body start (blen data) = Some data.
Hypothesis Hlen : blen body = start + blen data.

(** The decoder has consumed a prefix of the stream, and what it wrote was collected. *)
Definition decoding (raw : bytes) (d : ShipDecoder F) : Prop :=
  exists i r o, data = i ++ r /\ zrel (sd_z d) i o /\ raw = kept collect o /\ blen o <= MAX_BYTES /\ chunk_ok d.

Definition decode_measure (raw : bytes) (d : ShipDecoder F) : Z :=
  (blen data - total_in (sd_z d)) + (MAX_BYTES - total_out (sd_z d)).

(** The stream is one the format allows. *)
Definition decodable : Prop := exists t, zlib data = Some t /\ blen t <= MAX_BYTES.

Definition decoded (r : res fault bytes) (d : ShipDecoder F) : Prop :=
  chunk_ok d /\
  match r with
  | Ok raw => exists i r o, data = i ++ r /\ zlib i = Some o /\ raw = kept collect o /\
      total_in (sd_z d) = blen i /\ total_out (sd_z d) = blen o /\ blen o <= MAX_BYTES
  | Err _ => ~ decodable
  | Panic => False
  end.

Lemma input_slice i r : data = i ++ r -> slice body (add64 start (blen i)) (blen body - add64 start (blen i)) = Some r.
Proof.
  intros Hir. assert (Hl : blen data = blen i + blen r) by (by rewrite Hir, blen_app).
  pose proof (blen_nonneg i). pose proof (blen_nonneg r).
  assert (Ha : add64 start (blen i) = start + blen i) by (apply Z.mod_small; lia). rewrite Ha.
  rewrite <- (slice_slice body start (blen data) data (blen i)) by (done || lia).
  rewrite Hir, <- (app_nil_r r) at 1. by apply slice_mid; [|lia].
Qed.

Lemma chunk_after (out chunk : bytes) :
  blen out <= CHUNK -> blen chunk = CHUNK ->
  blen (out ++ drop (length out) chunk) = CHUNK /\ slice (out ++ drop (length out) chunk) 0 (blen out) = Some out.
Proof.
  intros Ho Hc. split.
  - rewrite blen_app. unfold blen in *. rewrite length_drop. lia.
  - by apply (slice_mid [] out).
Qed.

Lemma collect_chunk_eq c o out (d : ShipDecoder F) :
  slice (sd_chunk d) 0 (blen out) = Some out ->
  collect_chunk c (kept c o) (blen out) d = (Ok (kept c (o ++ out)), d).
Proof. intros Hs. unfold collect_chunk, sbind, sget, slift. destruct c; [|done]. by rewrite Hs. Qed.

(** One call of the decoder. *)
Lemma decompress_step d i r o :
  data = i ++ r -> zrel (sd_z d) i o -> blen o <= MAX_BYTES ->
  match decompress (sd_z d) r CHUNK with
  | (None, _) => ~ decodable
  | (Some (st, out), z') => exists x y, r = x ++ y /\ zrel z' (i ++ x) (o ++ out) /\ blen out <= CHUNK /\
      (st = StStreamEnd -> zlib (i ++ x) = Some (o ++ out)) /\
      (MAX_BYTES < blen (o ++ out) -> ~ decodable) /\
      (st <> StStreamEnd -> x = [] -> out = [] -> ~ decodable)
  end.
Proof.
  intros Hir Hz Ho. destruct (decompress (sd_z d) r CHUNK) as [[[st out]|] z'] eqn:E.
  - destruct (zrel_step _ _ _ _ CHUNK _ _ _ Hz ltac:(unfold CHUNK; lia) E) as (x & y & -> & Hz' & Hout & Hend).
    exists x, y. split; [done|]. split; [done|]. split; [done|]. split; [done|].
    assert (Ht : forall t, zlib data = Some t -> zlib ((i ++ x) ++ y) = Some t) by (intros t; by rewrite Hir, app_assoc).
    split.
    + intros Hbig (t & Hzt & Hle). pose proof (zrel_prefix _ _ _ _ _ Hz' (Ht t Hzt)) as Hp.
      apply prefix_length in Hp. unfold blen in *. lia.
    + intros Hst -> -> (t & Hzt & Hle).
      destruct (zrel_progress (sd_z d) i o ([] ++ y) [] CHUNK t) as (st' & out' & z2 & E' & Hprog); [done|done| |done|].
      { by rewrite app_nil_r, <- Hir. }
      rewrite E in E'. injection E' as <- <- <-.
      destruct (Hprog ltac:(done)) as [?|[?|Hne]]; [done|done|].
      apply zrel_totals in Hz as [Hti _]. apply zrel_totals in Hz' as [Hti' _]. rewrite app_nil_r in Hti'. lia.
  - intros (t & Hzt & Hle).
    destruct (zrel_progress (sd_z d) i o r [] CHUNK t) as (st' & out' & z2 & E' & _); [done|done| |done|].
    { by rewrite app_nil_r, <- Hir. }
    rewrite E in E'. done.
Qed.

Lemma decode_iter_spec raw d :
  decoding raw d ->
  match decode_iter collect body start raw d with
  | (Ok (Cont raw'), d') => decoding raw' d' /\ 0 <= decode_measure raw' d' < decode_measure raw d
  | (Ok (Break b), d') => decoded (Ok b) d'
  | (Err e, d') => decoded (Err e) d'
  | (Panic, d') => decoded Panic d'
  end.
Proof.
  intros (i & r & o & Hir & Hz & -> & Ho & Hck). destruct (zrel_totals _ _ _ Hz) as [Hti Hto].
  unfold decode_iter. rewrite Hti, (input_slice i r Hir). cbn [or_panic slift sbind].
  pose proof (decompress_step d i r o Hir Hz Ho) as Hs.
  destruct (decompress (sd_z d) r CHUNK) as [[[st out]|] z']; [|done].
  destruct Hs as (x & y & Hxy & Hz' & Hout & Hend & Hbig & Hstuck). cbv zeta.
  destruct (zrel_totals _ _ _ Hz') as [Hti' Hto']. rewrite Hto, Hto'. rewrite !blen_app in Hto', Hti'.
  pose proof (blen_nonneg out). pose proof (blen_nonneg o). pose proof (blen_nonneg x). pose proof (blen_nonneg y).
  assert (Hp : sub64 (blen (o ++ out)) (blen o) = blen out).
  { rewrite blen_app. unfold sub64, wrap64. replace (blen o + blen out - blen o) with (blen out) by lia.
    apply Z.mod_small. unfold CHUNK in Hout. width_lia. }
  rewrite Hp. cbn [sbind]. destruct (chunk_after out (sd_chunk d) Hout Hck) as [Hck' Hsl].
  destruct (Z.leb_spec (blen (o ++ out)) MAX_BYTES) as [Hle|Hgt]; cbn [sensure sret sfail]; [|by split; [|apply Hbig]].
  set (d' := mkDecoder z' (out ++ drop (length out) (sd_chunk d))) in *.
  rewrite (sbind_Ok_eq (sret ()) _ d' tt d' eq_refl), (sbind_Ok_eq _ _ _ _ _ (collect_chunk_eq collect o out d' Hsl)). destruct (bool_decide (st = StStreamEnd)) eqn:Est; bools.
  - split; [done|]. exists (i ++ x), y, (o ++ out). rewrite !blen_app in *.
    rewrite <- app_assoc, <- Hxy. split; [done|]. split; [by apply Hend|]. done.
  - cbn [sd_z]. rewrite Hti'.
    destruct ((blen i <? blen i + blen x) || (0 <? blen out)) eqn:Eprog; cbn [sensure];
      [rewrite (sbind_Ok_eq (sret ()) _ d' tt d' eq_refl); cbn [sret]|].
    + split; [exists (i ++ x), y, (o ++ out); by rewrite <- app_assoc, <- Hxy|].
      assert (Hd : blen data = blen i + blen x + blen y) by (rewrite Hir, Hxy, !blen_app; lia).
      unfold decode_measure, d'. cbn [sd_z]. rewrite Hti, Hto, Hti', Hto'. rewrite blen_app in Hle.
      apply orb_true_iff in Eprog as [?%Z.ltb_lt|?%Z.ltb_lt]; lia.
    + apply orb_false_iff in Eprog as [?%Z.ltb_ge ?%Z.ltb_ge]. split; [done|]. apply Hstuck; [done| |].
      * destruct x; [done|]. rewrite blen_cons in *. pose proof (blen_nonneg x). lia.
      * destruct out; [done|]. rewrite blen_cons in *. pose proof (blen_nonneg out). lia.
Qed.

Lemma decode_loop_spec d :
  zrel (sd_z d) [] [] -> chunk_ok d ->
  decoded (loop_ (decode_iter collect body start) [] d).1 (loop_ (decode_iter collect body start) [] d).2.
Proof.
  intros Hz Hc. apply (loop_spec decoding decode_measure); [apply decode_iter_spec| |].
  - exists [], data, []. split; [done|]. split; [done|]. by destruct collect.
  - apply zrel_totals in Hz as [Hi Ho]. unfold decode_measure. rewrite Hi, Ho. pose proof (blen_nonneg data).
    change (blen (@nil byte)) with 0. unfold MAX_BYTES. width_lia.
Qed.

Lemma sbind_run {E S A B} (m : M E S A) (k : A -> M E S B) s :
  sbind m k s = match m s with (Ok a, s') => k a s' | (Err e, s') => (Err e, s') | (Panic, s') => (Panic, s') end.
Proof. done. Qed.

Lemma sget_bind {E S A} (k : S -> M E S A) s : sbind sget k s = k s s.
Proof. done. Qed.

Lemma sensure_bind {E S A} b (e : E) (k : () -> M E S A) s :
  sbind (sensure b e) k s = if b then k tt s else (Err e, s).
Proof. by destruct b. Qed.

(** The stream is valid, and its sizes are the declared ones. *)
Definition decodes_to (expected : option Z) (marker : Z) (raw : bytes) : Prop :=
  zlib data = Some raw /\ blen raw <= MAX_BYTES /\
  match expected with Some s => s = blen raw | None => True end /\ (marker <= 1 \/ marker = blen data).

(** The checks after the loop. *)
Lemma decode_spec expected marker id d :
  chunk_ok d -> slice body 8 32 = Some id ->
  chunk_ok (decode collect body start expected marker d).2 /\
  match (decode collect body start expected marker d).1 with
  | Ok (id', out) => id' = id /\ exists raw, decodes_to expected marker raw /\ out = kept collect raw
  | Err _ => forall raw, ~ decodes_to expected marker raw
  | Panic => False
  end.
Proof.
  intros Hc Hid. unfold decode.
  rewrite (sbind_Ok_eq _ _ d tt (mkDecoder (zreset (sd_z d)) (sd_chunk d)) eq_refl).
  set (d0 := mkDecoder _ _). pose proof (decode_loop_spec d0 (zrel_reset _) Hc) as Hd. revert Hd.
  rewrite (sbind_run (loop_ _ _)). destruct (loop_ (decode_iter collect body start) [] d0) as [[raw|e|] d1]; cbn [fst snd]; intros [Hc1 Hd].
  - destruct Hd as (i & r & o & Hir & Hz & -> & Hti & Hto & Hmax). rewrite sget_bind, !sensure_bind, Hti, Hto.
    assert (Hg : forall t, zlib data = Some t -> t = o /\ r = []).
    { intros t Ht. rewrite Hir in Ht. pose proof (zlib_prefix_free _ _ _ _ Hz Ht) as ->. rewrite app_nil_r in Ht.
      by rewrite Hz in Ht; injection Ht as ->. }
    destruct (Z.eqb_spec (blen i) (blen body - start)) as [Hi|Hi]; cbn [fst snd].
    2: { split; [done|]. intros t (Ht & _). apply Hg in Ht as [-> ->]. apply Hi. rewrite Hlen, Hir, app_nil_r. lia. }
    assert (Hr : r = []).
    { assert (H : blen data = blen i + blen r) by (by rewrite Hir, blen_app). destruct r; [done|].
      rewrite blen_cons in H. pose proof (blen_nonneg r). lia. }
    rewrite Hr, app_nil_r in Hir. subst i. rewrite Hid.
    destruct (match expected with Some s => s =? blen o | None => true end) eqn:Ee; cbn [fst snd].
    2: { split; [done|]. intros t (Ht & _ & He & _). apply Hg in Ht as [-> _]. destruct expected; [|done]. bools. done. }
    destruct ((marker <=? 1) || (marker =? blen body - start)) eqn:Em; cbn [fst snd].
    2: { split; [done|]. intros t (_ & _ & _ & Hm). apply orb_false_iff in Em as [?%Z.leb_gt ?%Z.eqb_neq]. lia. }
    split; [done|]. split; [done|]. exists o. split; [|done]. split; [done|]. split; [done|].
    split; [destruct expected; by bools|]. apply orb_true_iff in Em as [?%Z.leb_le|?%Z.eqb_eq]; [by left|right; lia].
  - split; [done|]. intros raw (Hz & Hm & _). apply Hd. by exists raw.
  - done.
Qed.
End Decoding.

Section Payload.
Context {F : Flate} {R : FlateReset F} (zlib : bytes -> option bytes) {L : FlateLaws F zlib}
  {RL : ResetLaws F zlib}.

(** What [decode_ship] answers, from any state of the thread's decoder. *)
Lemma decode_ship_spec collect body st :
  blen body < U64 -> decoder_ok st ->
  decoder_ok (decode_ship collect body st).2 /\
  match (decode_ship collect body st).1 with
  | Ok (id, out) => exists raw, ship_body zlib body id raw /\ out = kept collect raw
  | Err _ => forall id raw, ~ ship_body zlib body id raw
  | Panic => False
  end.
Proof.
  intros Hb Hst. unfold decode_ship. rewrite sbind_run. unfold slift.
  destruct (ship_frame body) as [[[start expected] marker]|e|] eqn:Ef; cbn [fst snd].
  - destruct (ship_frame_sound _ _ _ _ Ef) as (id & data & Hfr & -> & Hmax).
    pose proof (framed_start _ _ _ _ _ Hfr) as (Hl & Hs & Hid & Hdata). unfold with_decoder.
    assert (Hc : chunk_ok (default decoder_new st)) by (destruct st; done).
    pose proof (decode_spec zlib collect body data (frame_start expected) Hb ltac:(lia) Hdata Hl expected marker id _ Hc Hid) as [Hc' Hd].
    destruct (decode _ _ _ _ _ _) as [[[id' out]|e|] d']; cbn [fst snd] in *; (split; [done|]); [|intros id' raw Hsb|done].
    + destruct Hd as (-> & raw & (Hz & Hle & He & Hm) & ->). exists raw. split; [|done]. exists marker, data.
      destruct Hfr as [H1 H2 H3 H4]. split; [|done]. destruct expected as [s|]; simpl in H3.
      * destruct H3 as [-> Hu]. subst s. by split.
      * rewrite (proj2 (Z.eqb_neq _ _)) by done. by split.
    + destruct Hsb as (m' & data' & Hfr' & Hz & Hle & Hm). apply (Hd raw).
      pose proof (framed_start _ _ _ _ _ Hfr') as (Hl' & _ & _ & Hdata').
      assert (Ef' : ship_frame body = Ok (frame_start (if m' =? 1 then Some (blen raw) else None), if m' =? 1 then Some (blen raw) else None, m')).
      { apply (ship_frame_complete body id' m' _ data'); [done|done|]. by destruct (m' =? 1). }
      rewrite Ef in Ef'. injection Ef' as _ He <-. rewrite He in *.
      assert (blen data' = blen data) by lia. assert (data' = data) as -> by congruence.
      split; [done|]. split; [done|]. split; [by destruct (marker =? 1)|done].
  - split; [done|]. intros id raw (m & data & Hfr & _ & Hle & _).
    pose proof (ship_frame_complete _ _ _ _ _ Hb Hfr ltac:(by destruct (m =? 1))). congruence.
  - pose proof (ship_frame_no_panic body) as H. by rewrite Ef in H.
Qed.

(** A body holds one payload. *)
Lemma ship_body_inj body id raw id' raw' :
  blen body < U64 -> ship_body zlib body id raw -> ship_body zlib body id' raw' -> id' = id /\ raw' = raw.
Proof.
  intros Hb H H'. pose proof (decode_ship_spec true body None Hb ltac:(done)) as [_ Hd].
  destruct (decode_ship true body None).1 as [[i o]|e|]; [|by apply Hd in H|done].
  destruct H as (m & d & Hf & Hz & Hl & Hm), H' as (m' & d' & Hf' & Hz' & Hl' & Hm').
  pose proof (ship_frame_complete body id m _ d Hb Hf ltac:(by destruct (m =? 1))) as E.
  pose proof (ship_frame_complete body id' m' _ d' Hb Hf' ltac:(by destruct (m' =? 1))) as E'.
  rewrite E in E'. injection E' as _ He <-.
  pose proof (framed_start _ _ _ _ _ Hf) as (Hl1 & _ & Hid & Hs). pose proof (framed_start _ _ _ _ _ Hf') as (Hl2 & _ & Hid' & Hs').
  rewrite <- He in *. assert (blen d' = blen d) by lia. split; congruence.
Qed.

Lemma ship_payload_Ok body id raw :
  blen body < U64 -> (ship_payload body = Ok (id, raw) <-> ship_body zlib body id raw).
Proof.
  intros Hb. pose proof (decode_ship_spec true body None Hb ltac:(done)) as [_ Hd]. unfold ship_payload.
  destruct (decode_ship true body None).1 as [[i o]|e|]; [|split; [done|by intros ?%Hd]|done].
  destruct Hd as (raw' & Hsb & ->). cbn [kept]. split; [by intros [= <- <-]|].
  intros H. by destruct (ship_body_inj _ _ _ _ _ Hb Hsb H) as [-> ->].
Qed.

Lemma checked_ship_id_Ok body id :
  blen body < U64 -> (checked_ship_id body = Ok id <-> exists raw, ship_body zlib body id raw).
Proof.
  intros Hb. pose proof (decode_ship_spec false body None Hb ltac:(done)) as [_ Hd]. unfold checked_ship_id.
  destruct (decode_ship false body None).1 as [[i o]|e|]; cbn [rbind fst]; [|split; [done|by intros [? ?%Hd]]|done].
  destruct Hd as (raw' & Hsb & _). split; [intros [= <-]; eauto|].
  intros [raw H]. by destruct (ship_body_inj _ _ _ _ _ Hb Hsb H) as [-> _].
Qed.

Lemma checked_ship_id_no_panic body : blen body < U64 -> is_panic (checked_ship_id body) = false.
Proof.
  intros Hb. pose proof (decode_ship_spec false body None Hb ltac:(done)) as [_ Hd]. unfold checked_ship_id.
  by destruct (decode_ship false body None).1 as [[i o]|e|].
Qed.

Lemma ship_payload_no_panic body : blen body < U64 -> is_panic (ship_payload body) = false.
Proof.
  intros Hb. pose proof (decode_ship_spec true body None Hb ltac:(done)) as [_ Hd]. unfold ship_payload.
  by destruct (decode_ship true body None).1 as [[i o]|e|].
Qed.
End Payload.

(** ** Every codec decodes *)

Definition codec_chunks (raw : bytes) (block : Z) (empty_final : bool) : list bytes :=
  chunks block raw ++
  if bool_decide (raw = []) || (negb (bool_decide (raw = [])) && (blen raw mod block =? 0) && empty_final) then [[]] else [].

Lemma codec_blocks_false cs : codec_blocks false cs = stored_blocks_of cs.
Proof. induction cs as [|c cs IH]; [done|]. simpl. by rewrite andb_true_r, IH. Qed.

Lemma codec_blocks_true cs : codec_blocks true cs ++ [x01; x00; x00; xff; xff] = stored_blocks_of (cs ++ [[]]).
Proof.
  induction cs as [|c cs IH]; [done|]. cbn [codec_blocks app stored_blocks_of]. rewrite andb_false_r, <- app_assoc, IH.
  rewrite bool_decide_false; [done|]. by destruct cs.
Qed.

Lemma chunks_nil {A} n : chunks n (@nil A) = [].
Proof. done. Qed.

(** Every stored encoding is a sequence of stored blocks and the checksum. *)
Lemma codec_stored_blocks raw block ef :
  codec_stored raw block ef = [x78; x01] ++ stored_blocks_of (codec_chunks raw block ef) ++ be_bytes 4 (adler32 raw).
Proof.
  unfold codec_stored, codec_chunks. cbv zeta. f_equal. rewrite app_assoc. f_equal.
  destruct (decide (raw = [])) as [->|Hne].
  - rewrite bool_decide_true by done. done.
  - rewrite bool_decide_false by done. cbn [negb orb andb]. destruct ((blen raw mod block =? 0) && ef).
    + apply codec_blocks_true.
    + by rewrite !app_nil_r, codec_blocks_false.
Qed.

Lemma codec_chunks_facts raw block ef :
  0 < block < 65536 -> concat (codec_chunks raw block ef) = raw /\ codec_chunks raw block ef <> [] /\
  Forall (fun c => blen c < 65536) (codec_chunks raw block ef).
Proof.
  intros Hb. unfold codec_chunks. set (t := if bool_decide (raw = []) || _ then [[]] else []).
  assert (Ht : concat t = [] /\ Forall (fun c : bytes => blen c < 65536) t) by (unfold t; destruct (_ || _); [|done]; by repeat constructor).
  split; [rewrite concat_app, concat_chunks, (proj1 Ht), app_nil_r by lia; done|]. split.
  - destruct (decide (raw = [])) as [->|Hne].
    + unfold t. by rewrite bool_decide_true.
    + intros H. apply app_eq_nil in H as [H _]. apply Hne. by rewrite <- (concat_chunks block raw), H by lia.
  - apply Forall_app. split; [|apply Ht]. eapply Forall_impl; [|apply (chunks_length block raw); lia]. intros c [_ Hc]. lia.
Qed.

Lemma stored_stream_decodes cs raw :
  concat cs = raw -> cs <> [] -> Forall (fun c => blen c < 65536) cs ->
  zlib_level0 ([x78; x01] ++ stored_blocks_of cs ++ be_bytes 4 (adler32 raw)) = Some raw.
Proof.
  intros Hc Hne Hl. apply zlib_level0_Some. destruct (adler32_u32 raw) as [Ha _]. cbn [app zlib_parse].
  rewrite stored_blocks_enc; [|done| |done].
  - rewrite Hc. unfold check_adler. cbn [fst snd].
    assert (Lt : blen (be_bytes 4 (adler32 raw)) = 4) by (unfold be_bytes; by rewrite blen_reverse).
    rewrite slice_full, be_of_be_bytes, Z.eqb_refl by done. done.
  - rewrite length_app. clear. induction cs as [|c cs IH]; simpl; [lia|]. rewrite length_app. simpl in *. lia.
Qed.

Lemma codec_stored_decodes raw block ef :
  0 < block < 65536 -> zlib_level0 (codec_stored raw block ef) = Some raw.
Proof.
  intros Hb. rewrite codec_stored_blocks. destruct (codec_chunks_facts raw block ef Hb) as (? & ? & ?).
  by apply stored_stream_decodes.
Qed.

(** The size of a stored stream. *)
Lemma blen_stored_blocks cs : blen (stored_blocks_of cs) = blen (concat cs) + 5 * blen cs.
Proof.
  induction cs as [|c cs IH]; [done|]. cbn [stored_blocks_of concat]. rewrite !blen_app, IH, blen_cons.
  unfold stored_block. rewrite !blen_app, !blen_le_bytes. change (blen [_]) with 1. lia.
Qed.

Lemma chunks_count {A} n (l : list A) : 0 < n -> blen (chunks n l) <= blen l.
Proof.
  intros Hn. unfold chunks.
  assert (H : forall f l, blen (@chunks_fuel A f n l) <= blen l); [|apply H].
  induction f as [|f IH]; intros l'; destruct l' as [|x l']; cbn [chunks_fuel]; rewrite ?blen_nil; [done|apply blen_nonneg|done|].
  rewrite blen_cons. etransitivity; [apply Z.add_le_mono_l, IH|]. unfold blen. rewrite length_drop. simpl length. lia.
Qed.

Lemma blen_codec_stored raw block ef :
  0 < block < 65536 -> 11 <= blen (codec_stored raw block ef) <= 6 * blen raw + 11.
Proof.
  intros Hb. rewrite codec_stored_blocks. destruct (codec_chunks_facts raw block ef Hb) as (Hc & Hne & _).
  rewrite !blen_app, blen_stored_blocks, Hc. unfold be_bytes. rewrite blen_reverse, blen_le_bytes.
  change (blen [x78; x01]) with 2. pose proof (blen_nonneg raw).
  assert (blen (codec_chunks raw block ef) <= blen raw + 1).
  { unfold codec_chunks. rewrite blen_app. pose proof (chunks_count block raw ltac:(lia)).
    destruct (bool_decide (raw = []) || _); [change (blen [@nil byte]) with 1|rewrite blen_nil]; lia. }
  assert (1 <= blen (codec_chunks raw block ef)).
  { destruct (codec_chunks raw block ef) as [|c cs]; [done|]. rewrite blen_cons. pose proof (blen_nonneg cs). lia. }
  lia.
Qed.

(** What a codec must do for the encoder: its streams are whole zlib streams of the payload, at least as
    long as the header and checksum, and short enough for the fields of the entry. *)
Definition codec_ok (zlib : bytes -> option bytes) (zlib_deflate : Z -> bytes -> option bytes) (c : Codec) (raw : bytes) : Prop :=
  exists x, codec_encode zlib_deflate c raw = Ok x /\ zlib x = Some raw /\ 2 <= blen x < U32.

Lemma stored_codec_ok zlib_deflate block ef raw :
  0 < block < 65536 -> blen raw <= MAX_BYTES -> codec_ok zlib_level0 zlib_deflate (Stored block ef) raw.
Proof.
  intros Hb Hr. exists (codec_stored raw block ef). split; [done|]. split; [by apply codec_stored_decodes|].
  pose proof (blen_codec_stored raw block ef Hb). unfold MAX_BYTES in Hr. width_lia.
Qed.

(** The body [encode_ship_with] builds. *)
Definition encoded_body (id raw : bytes) (marker : Z) (x : bytes) : bytes :=
  le_bytes 8 SHIP_MAGIC ++ id ++ le_bytes 8 (add64 (blen x) (if marker =? 1 then 12 else 4)) ++
  le_bytes 4 (if marker <=? 1 then marker else wrap32 (blen x)) ++
  (if marker =? 1 then le_bytes 8 (blen raw) else []) ++ x.

Lemma encoded_body_ok zlib id raw marker x :
  blen id = 32 -> is_u32 marker -> blen raw <= MAX_BYTES -> zlib x = Some raw -> 2 <= blen x < U32 ->
  ship_body zlib (encoded_body id raw marker x) id raw /\ blen (encoded_body id raw marker x) < U64.
Proof.
  intros Hid Hm Hr Hz Hx. set (b := encoded_body id raw marker x).
  assert (Hl : blen b = blen x + (if marker =? 1 then 60 else 52)).
  { unfold b, encoded_body. rewrite !blen_app, !blen_le_bytes, Hid. destruct (marker =? 1); rewrite ?blen_le_bytes, ?blen_nil; lia. }
  assert (Ha : add64 (blen x) (if marker =? 1 then 12 else 4) = blen b - 48).
  { rewrite Hl. unfold add64, wrap64. rewrite Z.mod_small; destruct (marker =? 1); width_lia. }
  assert (Hw : wrap32 (blen x) = blen x) by (apply Z.mod_small; lia).
  split; [|rewrite Hl; destruct (marker =? 1); width_lia].
  exists (if marker <=? 1 then marker else blen x), x. pose proof (blen_nonneg raw).
  assert (H1 : ((if marker <=? 1 then marker else blen x) =? 1) = (marker =? 1)).
  { destruct (Z.leb_spec marker 1); [done|]. rewrite (proj2 (Z.eqb_neq marker 1)) by lia.
    apply Z.eqb_neq. lia. }
  rewrite H1. split; [|split; [done|split; [done|destruct (Z.leb_spec marker 1); [by left|by right]]]].
  split; [done|destruct (marker <=? 1); [done|split; [lia|apply Hx]]| |].
  - destruct (Z.eqb_spec marker 1) as [->|]; [|by apply Z.eqb_neq].
    split; [done|]. unfold MAX_BYTES in Hr. width_lia.
  - rewrite <- Ha. unfold b at 1, encoded_body. rewrite Hw. by destruct (marker =? 1).
Qed.

(** ** Properties *)

(** C32: [decode_ship], the decoder behind [ship_payload] and [checked_ship_id], returns an id and a payload
    exactly for the bodies of the format: the magic, the declared payload size and, by marker, the declared
    uncompressed or compressed size all match, and the rest of the body is exactly one zlib stream that
    inflates to the payload within [MAX_BYTES]. The answer does not depend on what an earlier call, even a
    failed one, left in the thread's decoder; the loop ends on every input and nothing panics. *)
Theorem decode_ship_exact (F : Flate) (R : FlateReset F) (zlib : bytes -> option bytes) (L : FlateLaws F zlib)
    (RL : ResetLaws F zlib) (collect : bool) (body id out : bytes) (st : option (ShipDecoder F))
    (Hbody : blen body < U64) (Hst : decoder_ok st) :
  ((decode_ship collect body st).1 = Ok (id, out) <->
   exists raw, ship_body zlib body id raw /\ out = (if collect then raw else [])) /\
  is_panic (decode_ship collect body st).1 = false /\ decoder_ok (decode_ship collect body st).2.
Proof.
  destruct (decode_ship_spec zlib collect body st Hbody Hst) as [Hok Hd].
  destruct (decode_ship collect body st).1 as [[i o]|e|]; [|split; [|done]; split; [done|by intros (? & ?%Hd & _)]|done].
  split; [|done]. destruct Hd as (raw & Hsb & ->). split; [intros [= <- <-]; by exists raw|].
  intros (raw' & Hsb' & ->). by destruct (ship_body_inj zlib _ _ _ _ _ Hbody Hsb Hsb') as [-> ->].
Qed.

Definition exp_id : bytes := be_bytes 4 7 ++ List.repeat x05 28.
Definition exp_raw : bytes := [x01; x02; x03; x04].
Definition exp_body : bytes := encoded_body exp_id exp_raw 1 (codec_stored exp_raw 4 true).

Lemma decode_ship_exact_witness :
  (decode_ship (R := level0_reset) true exp_body
     (Some (mkDecoder (F := level0) ([x78; x09], [x00]) (replicate (Z.to_nat CHUNK) x11)))).1 = Ok (exp_id, exp_raw) /\
  (decode_ship (R := level0_reset) false (exp_body ++ [x00]) None).1 = Err (A := bytes * bytes) FPayloadSize.
Proof.
  split; [|vm_compute; reflexivity].
  refine (proj2 (proj1 (decode_ship_exact level0 level0_reset zlib_level0 level0_laws level0_reset_laws true exp_body
    exp_id exp_raw _ _ _)) _); [vm_compute; reflexivity|vm_compute; reflexivity|].
  exists exp_raw. split; [|reflexivity].
  refine (proj1 (encoded_body_ok zlib_level0 exp_id exp_raw 1 (codec_stored exp_raw 4 true) _ _ _ _ _));
    vm_compute; intuition congruence.
Defined.

(** What [encode_ship_with] writes, with any marker class and any codec that keeps to zlib, is an entry
    body: the encoder's own check accepts it, [ship_payload] gives back the id and the payload, and
    [ship_marker] the class it was written with. Every stored encoding a node has used is such a codec. *)
Lemma encode_ship_roundtrip (F : Flate) (R : FlateReset F) (zlib : bytes -> option bytes) (L : FlateLaws F zlib)
    (RL : ResetLaws F zlib) (zlib_deflate : Z -> bytes -> option bytes) (id raw : bytes) (marker : Z) (c : Codec)
    (Hid : blen id = 32) (Hm : is_u32 marker) (Hraw : blen raw <= MAX_BYTES) (Hc : codec_ok zlib zlib_deflate c raw) :
  exists body, encode_ship_with zlib_deflate id raw marker c = Ok body /\
    ship_payload body = Ok (id, raw) /\ checked_ship_id body = Ok id /\
    ship_marker body = Ok (Z.min marker 2) /\
    (forall block ef, In (Stored block ef) candidates -> codec_ok zlib_level0 zlib_deflate (Stored block ef) raw).
Proof.
  destruct Hc as (x & He & Hz & Hx). exists (encoded_body id raw marker x).
  destruct (encoded_body_ok zlib id raw marker x Hid Hm Hraw Hz Hx) as [Hsb Hlt].
  assert (Hck : checked_ship_id (encoded_body id raw marker x) = Ok id) by (apply (checked_ship_id_Ok zlib); [done|by exists raw]).
  split; [unfold encode_ship_with; rewrite He; cbn [rbind]; fold (encoded_body id raw marker x); by rewrite Hck|].
  split; [by apply (ship_payload_Ok zlib)|]. split; [done|]. split.
  - unfold ship_marker, encoded_body. rewrite u32_at_48 by done. cbn [rbind]. f_equal.
    assert (Hw : wrap32 (blen x) = blen x) by (apply Z.mod_small; lia). rewrite Hw.
    rewrite le_of_le_bytes_id by (change (256 ^ Z.of_nat 4) with U32; destruct (Z.leb_spec marker 1); unfold is_u32 in Hm; lia).
    destruct (Z.leb_spec marker 1); lia.
  - intros block ef Hin. apply stored_codec_ok; [|done]. vm_compute in Hin. intuition (try congruence).
    all: match goal with H : Stored _ _ = _ |- _ => injection H as <- _ end; vm_compute; intuition congruence.
Qed.

Lemma encode_ship_roundtrip_witness :
  exists body, encode_ship_with (R := level0_reset) (fun _ _ => None) exp_id exp_raw 2 (Stored 4 false) = Ok body /\
    ship_payload (F := level0) (R := level0_reset) body = Ok (exp_id, exp_raw) /\ ship_marker body = Ok 2.
Proof.
  destruct (encode_ship_roundtrip level0 level0_reset zlib_level0 level0_laws level0_reset_laws (fun _ _ => None)
    exp_id exp_raw 2 (Stored 4 false)) as (body & H1 & H2 & _ & H3 & _).
  - reflexivity.
  - vm_compute; intuition congruence.
  - vm_compute; intuition congruence.
  - apply stored_codec_ok; vm_compute; intuition congruence.
  - exists body. split; [exact H1|]. split; [exact H2|exact H3].
Defined.
