(* ===== verification/RepairLog.v ===== *)
(** * Logs, block headers and containers of a repair ([crates/log-repair/src/format.rs])

    [FCur] is the cursor of [format.rs], and [block_header] the strict header decoder on it; [Log] a log
    file opened with its index, and [container_disk] and [encode_container] the P2PBLK01 file of packed
    blocks. [Disk] may fail any read.

    The theorems: a header this decoder accepts is the one the server decodes; [Log::body] returns exactly
    the entry the index positions delimit, with nothing but whole orphaned entries after it; and a
    container is read back as what it was written from, and from nothing else. *)

From S2P Require Import Prelude.
From S2P Require Import Errors.
From S2P Require Import Cursor.
From S2P Require Import Binio.
From S2P Require Import ShipLog.
From S2P Require Import BlockLog.
From S2P Require Import Zlib.
From S2P Require Import Framing.
From S2P Require Import Disk.
From S2P Require Import ShipPayload.

Definition MAX_BLOCKS : Z := 10000.

(** ** Kind *)

Inductive Kind := Blocks | KTrace | KChainState.

#[export] Instance Kind_eq_dec : EqDecision Kind.
Proof. solve_decision. Defined.

Definition is_blocks (k : Kind) : bool := bool_decide (k = Blocks).

Definition kind_stem (k : Kind) : string :=
  match k with Blocks => "blocks" | KTrace => "trace_history" | KChainState => "chain_state_history" end.

(** [Kind::from_path], of the file stem of the path; [None] is a stem that is not UTF-8. *)
Definition kind_from_stem (s : option string) : res fault Kind :=
  let? stem := or_err s FLogName in
  if bool_decide (stem = "blocks"%string) || String.prefix "blocks-" stem then Ok Blocks
  else if bool_decide (stem = "trace_history"%string) || String.prefix "trace_history-" stem then Ok KTrace
  else if bool_decide (stem = "chain_state_history"%string) || String.prefix "chain_state_history-" stem then Ok KChainState
  else Err FLogName.

(** ** Cursor *)
Module FCur.

Abbreviation reader := (M fault cursor).

Definition take (n : Z) : reader bytes := fun c =>
  match checked_add64 (cpos c) n with
  | None => (Err FLengthOverflow, c)
  | Some end_ =>
      if negb (end_ <=? blen (cb c)) then (Err (FTruncatedData (cpos c)), c)
      else match slice (cb c) (cpos c) n with
           | Some s => (Ok s, mkCursor (cb c) end_)
           | None => (Panic, c)
           end
  end.

Definition byte_ : reader Z :=
  let! s := take 1 in
  let! x := slift (or_panic (s !! 0%nat)) in
  sret (b2z x).

Fixpoint var_loop (shifts : list Z) (v : Z) : reader Z :=
  match shifts with
  | [] => sfail FVarOverflow
  | shift :: shifts =>
      let! b := byte_ in
      do! sensure (negb (shift =? 28) || (b <=? 15)) FVarOverflow ;;
      let v := Z.lor v (wrap32 (Z.shiftl (Z.land b 127) shift)) in
      if Z.land b 128 =? 0 then
        do! sensure ((shift =? 0) || negb (b =? 0)) FVarNonCanonical ;;
        sret v
      else var_loop shifts v
  end.

Definition var : reader Z := var_loop [0; 7; 14; 21; 28] 0.

Definition id : reader bytes := take 32.
End FCur.

(** [BTreeMap<u32, Vec<u8>>]: its entries in the order of their keys. *)
Abbreviation Blocks_map := (list (Z * bytes)).

Section Blocks.
Context (sha256 : bytes -> bytes).
Import FCur.

Definition producer : reader () :=
  do! take 8 ;;
  let! k := var in
  do! sensure (k <=? 1) FProducerKey ;;
  do! take 33 ;;
  sret ().

Definition extension : reader () :=
  do! take 2 ;;
  let! n := var in
  do! take n ;;
  sret ().

(** The fields of a header, up to its end; the value is [previous]. *)
Definition header_fields : reader bytes :=
  do! take 14 ;;
  let! previous := id in
  do! take 68 ;;
  let! flag := byte_ in
  do! (if flag =? 0 then sret ()
       else if flag =? 1 then
         do! take 4 ;;
         let! count := var in
         do! sensure (count <=? 4096) FTooManyProducers ;;
         for_count count (fun _ => producer) ()
       else sfail FProducerFlag) ;;
  let! count := var in
  do! sensure (count <=? 4096) FTooManyExtensions ;;
  do! for_count count (fun _ => extension) () ;;
  sret previous.

Definition block_header (body : bytes) : res fault Header :=
  match header_fields (mkCursor body 0) with
  | (Ok previous, c) =>
      let? number := or_err (checked_add32 (num_from_id previous) 1) FNumberOverflow in
      let? packed := or_panic (slice body 0 (cpos c)) in
      Ok (mkFrame number (be_bytes 4 number ++ drop 4 (sha256 packed)) previous)
  | (Err e, _) => Err e
  | (Panic, _) => Panic
  end.

(** ** Containers of packed blocks *)

Fixpoint bt_insert (n : Z) (body : bytes) (m : Blocks_map) : Blocks_map :=
  match m with
  | [] => [(n, body)]
  | (k, b) :: t => if n <? k then (n, body) :: m else if n =? k then (n, body) :: t else (k, b) :: bt_insert n body t
  end.

Definition bt_get (n : Z) (m : Blocks_map) : option bytes :=
  snd <$> List.find (fun e => e.1 =? n) m.

Definition CONTAINER_MAGIC : bytes := String.list_byte_of_string "P2PBLK01".

(** One turn of the loop over [first..=last]. *)
Definition container_block (expected : Z) (acc : Blocks_map * option bytes) : reader (Blocks_map * option bytes) :=
  let! s := take 4 in
  let n := le_of s in
  do! sensure (n =? expected) (FContainerOrder expected) ;;
  let! s := take 4 in
  let! body := take (le_of s) in
  let! h := slift (block_header body) in
  do! sensure (hd_number h =? n) FContainerNumber ;;
  do! match acc.2 with
      | Some prev => sensure (bool_decide (hd_previous h = prev)) (FContainerChain n)
      | None => sret ()
      end ;;
  sret (bt_insert n body acc.1, Some (hd_id h)).

Fixpoint container_blocks (count : nat) (expected : Z) (acc : Blocks_map * option bytes)
    : reader (Blocks_map * option bytes) :=
  match count with
  | O => sret acc
  | S count => let! acc := container_block expected acc in container_blocks count (expected + 1) acc
  end.

Definition container_walk : reader Blocks_map :=
  let! magic := take 8 in
  do! sensure (bool_decide (magic = CONTAINER_MAGIC)) FContainerMagic ;;
  let! s := take 4 in
  let first := le_of s in
  let! s := take 4 in
  let last := le_of s in
  do! sensure ((0 <? first) && (first <=? last) && (last - first <? MAX_BLOCKS)) FContainerRange ;;
  let! acc := container_blocks (Z.to_nat (last - first + 1)) first ([], None) in
  let! c := sget in
  do! sensure (cpos c =? blen (cb c)) FContainerTrailing ;;
  sret acc.1.

Definition container_disk (d : Disk) : res fault Blocks_map :=
  let? b := read d 0 (d_size d) in
  (container_walk (mkCursor b 0)).1.

Definition container_entry (e : Z * bytes) : bytes :=
  le_bytes 4 e.1 ++ le_bytes 4 (wrap32 (blen e.2)) ++ e.2.

Definition encode_container (m : Blocks_map) : res fault bytes :=
  let? first := or_err (option_map fst (head m)) FNoBlocks in
  let? last := or_err (option_map fst (list.last m)) FNoBlocks in
  let out := CONTAINER_MAGIC ++ le_bytes 4 first ++ le_bytes 4 last ++ concat (container_entry <$> m) in
  do? ensure (blen out <=? MAX_BYTES) FContainerTooLong ;;
  Ok out.
End Blocks.

(** ** Log *)

(** [u32::from_be_bytes(h[at..at + 4].try_into()?)]. *)
Definition be32_in (b : bytes) (at_ : Z) : res fault Z := let? s := or_panic (slice b at_ 4) in Ok (be_of s).

Module Log.

Record t := mk { log : Disk; index : Disk; kind : Kind; first : Z; last : Z; size : Z }.

Section Ops.
Context {F : Flate} {R : FlateReset F} (sha256 : bytes -> bytes).

Definition pos (l : t) (n : Z) : res fault Z :=
  if n =? add32 (last l) 1 then Ok (size l)
  else
    do? ensure ((first l <=? n) && (n <=? last l)) (FOutside n) ;;
    let? s := read (index l) ((n - first l) * 8) 8 in
    let? p := u64_in s 0 in
    do? ensure (p <? size l) (FPastEnd n) ;;
    Ok p.

Definition min_entry (k : Kind) : Z := if is_blocks k then 124 else 60.

Definition bounds (l : t) (n : Z) : res fault (Z * Z) :=
  let? a := pos l n in
  let? b := pos l (add32 n 1) in
  do? ensure ((a <? b) && (min_entry (kind l) <=? b - a)) (FIndexEntry n) ;;
  do? ensure (b - a <=? MAX_BYTES) (FEntryTooLong n) ;;
  Ok (a, b).

Definition id (l : t) (n : Z) (body : bytes) : res fault bytes :=
  if is_blocks (kind l) then
    let? h := block_header sha256 body in
    do? ensure (hd_number h =? n) (FHeaderNumber n) ;;
    Ok (hd_id h)
  else
    let? id := checked_ship_id body in
    do? ensure (num_from_id id =? n) (FHeaderNumber n) ;;
    Ok id.

(** Where the entry of [n] ends in the bytes up to the next index position. *)
Definition own_size (l : t) (n a : Z) (b : bytes) : res fault Z :=
  if is_blocks (kind l) then Ok (blen b)
  else
    let? own := of_frame (ship_entry_size b) in
    do? ensure (own <=? blen b) (FPayloadPastNext n) ;;
    let? after := or_panic (slice b own (blen b - own)) in
    do? of_frame (orphans after (add64 a own)) ;;
    Ok own.

Definition body (l : t) (n : Z) : res fault bytes :=
  let? ab := bounds l n in
  let '(a, e) := ab in
  let? b := read (log l) a (e - a) in
  let? own := own_size l n a b in
  let? trailer := u64_in b (own - 8) in
  do? ensure (trailer =? a) (FTrailer n) ;;
  let x := take (Z.to_nat (own - 8)) b in
  do? id l n x ;;
  Ok x.

Definition ship_entry_id (l : t) (n : Z) : res fault bytes :=
  do? ensure (negb (is_blocks (kind l))) FNoShipHeader ;;
  let? a := pos l n in
  let? b := pos l (add32 n 1) in
  do? ensure ((a <? b) && (60 <=? b - a)) (FIndexEntry n) ;;
  let? h := read (log l) a 48 in
  let? magic := u64_in h 0 in
  do? check_magic magic ;;
  let? own := of_frame (ship_entry_size h) in
  do? ensure (own <=? b - a) (FPayloadPastNext n) ;;
  let? t := read (log l) (a + own - 8) 8 in
  let? trailer := u64_in t 0 in
  do? ensure (trailer =? a) (FTrailer n) ;;
  do? (if own <? b - a then
         do? ensure (b - a - own <=? MAX_BYTES) (FLongOrphans n) ;;
         let? o := read (log l) (a + own) (b - a - own) in
         do? of_frame (orphans o (a + own)) ;;
         Ok ()
       else Ok ()) ;;
  let? id := or_panic (slice h 8 32) in
  do? ensure (num_from_id id =? n) (FHeaderNumber n) ;;
  Ok id.

(** The first block and whether a separator precedes the first entry. *)
Definition log_start (kind : Kind) (log : Disk) : res fault (Z * bool) :=
  if is_blocks kind then
    let? h := read log 0 8 in
    let? version := u32_in h 0 in
    do? of_frame (check_block_log_version version) ;;
    let? f := (if version =? 1 then Ok 1 else u32_in h 4) in
    Ok (f, negb (version =? 1))
  else
    let? h := read log 0 48 in
    let? magic := u64_in h 0 in
    do? check_magic magic ;;
    let? f := be32_in h 8 in
    Ok (f, false).

Definition from_disks (kind : Kind) (log index : Disk) : res fault t :=
  let size := d_size log in
  let count_bytes := d_size index in
  do? ensure ((0 <? count_bytes) && (count_bytes mod 8 =? 0)) FIndexLength ;;
  let? start := log_start kind log in
  let '(first, has_separator) := start in
  do? ensure (0 <? first) FFirstBlock ;;
  let? last := or_err (checked_add64 first (count_bytes / 8 - 1)) FRangeOverflow in
  do? ensure (last <? u32_max) FRangeOverflow ;;
  let out := mk log index kind first last size in
  let? first_pos := pos out first in
  do? ensure (if is_blocks kind then 48 <=? first_pos else first_pos =? 0) FFirstPosition ;;
  do? (if has_separator then
         let? s := read log (first_pos - 8) 8 in
         ensure (bool_decide (s = List.repeat xff 8)) FNoSeparator
       else Ok ()) ;;
  do? bounds out last ;;
  Ok out.
End Ops.
End Log.

(** ** The cursor *)
Section CursorFacts.
Import FCur.

Lemma ftake_Ok n c s c' :
  cursor_wf c -> 0 <= n -> FCur.take n c = (Ok s, c') ->
  c' = adv c n /\ slice (cb c) (cpos c) n = Some s /\ cpos c + n <= blen (cb c).
Proof.
  intros Hc Hn. unfold FCur.take, checked_add64. destruct (Z.ltb_spec (cpos c + n) U64); [|done].
  destruct (Z.leb_spec (cpos c + n) (blen (cb c))); cbn [negb]; [|done].
  destruct (slice (cb c) (cpos c) n) as [x|]; [|done]. by intros [= <- <-].
Qed.

Lemma ftake_parses x : parses (FCur.take (blen x)) x x.
Proof.
  intros c s Hc Hr. pose proof (blen_rest c Hc) as Hl. rewrite Hr, blen_app in Hl. pose proof (blen_nonneg x).
  pose proof (blen_nonneg s). pose proof Hc as [Hp Hu]. unfold FCur.take, checked_add64.
  rewrite (proj2 (Z.ltb_lt _ _)), (proj2 (Z.leb_le _ _)) by lia. cbn [negb].
  rewrite slice_rest, Hr, blen_app, (proj2 (Z.leb_le _ _)) by (done || lia).
  unfold blen. by rewrite Nat2Z.id, take_app_length.
Qed.

Lemma ftake_safe n : 0 <= n -> safe (FCur.take n).
Proof.
  intros Hn c Hc. pose proof Hc as [Hp Hl]. unfold FCur.take, checked_add64.
  destruct (Z.ltb_spec (cpos c + n) U64); [|simpl; naive_solver lia].
  destruct (Z.leb_spec (cpos c + n) (blen (cb c))); cbn [negb]; [|simpl; naive_solver lia].
  destruct (slice_is_Some (cb c) (cpos c) n) as [s ->]; [lia|lia|lia|]. simpl. naive_solver lia.
Qed.

Lemma fbyte_safe : safe byte_.
Proof.
  apply (safe_bind_val (fun s => blen s = 1)).
  - by apply ftake_safe.
  - intros c s c' Hc H. apply ftake_Ok in H as (_ & H & _); [|done|done]. by eapply slice_blen.
  - intros [|x s] Hs; [done|]. simpl. apply safe_bind; [|solve_safe]. intros c [Hc _]. simpl. naive_solver lia.
Qed.

Lemma fvar_loop_safe l v : safe (var_loop l v).
Proof.
  revert v; induction l as [|s l IH]; intros v; cbn [var_loop]; [apply safe_fail|].
  apply safe_bind; [apply fbyte_safe|]. intros b. apply safe_bind; [apply safe_sensure|]. intros _.
  apply safe_if; [|apply IH]. apply safe_bind; [apply safe_sensure|]. intros _. apply safe_ret.
Qed.

Lemma fvar_safe : safe var.
Proof. apply fvar_loop_safe. Qed.

Lemma fvar_loop_nonneg l v c n c' : 0 <= v -> var_loop l v c = (Ok n, c') -> 0 <= n.
Proof.
  revert v c; induction l as [|s l IH]; intros v c Hv H; cbn [var_loop] in H; [done|].
  apply sbind_Ok in H as (b & c1 & _ & H). apply sbind_Ok in H as ([] & c2 & _ & H).
  assert (Hn : 0 <= Z.lor v (wrap32 (Z.shiftl (Z.land b 127) s))).
  { apply Z.lor_nonneg. split; [done|]. by apply Z.mod_pos_bound. }
  destruct (Z.land b 128 =? 0); [|exact (IH _ _ Hn H)].
  apply sbind_Ok in H as ([] & c3 & _ & [= <- _]). done.
Qed.

Lemma fvar_yields : yields var (fun n => 0 <= n).
Proof. intros c n c' _ H. by apply fvar_loop_nonneg in H. Qed.
End CursorFacts.

#[export] Hint Resolve fbyte_safe fvar_safe : safe.
#[export] Hint Extern 1 (safe (FCur.take _)) => (apply ftake_safe; lia) : safe.
#[export] Hint Extern 1 (safe FCur.id) => (apply ftake_safe; lia) : safe.

Lemma extension_safe : safe extension.
Proof.
  unfold extension. apply safe_bind; [auto with safe|]. intros _.
  apply (safe_bind_val (fun n => 0 <= n)); [auto with safe|apply fvar_yields|]. intros n Hn.
  apply safe_bind; [by apply ftake_safe|solve_safe].
Qed.

Lemma producer_safe : safe producer.
Proof. unfold producer. solve_safe. Qed.

#[export] Hint Resolve extension_safe producer_safe : safe.

Lemma header_fields_safe : safe header_fields.
Proof. unfold header_fields. solve_safe. Qed.

(** ** The decoder agrees with the server's *)

Lemma sim_ftake n : 0 <= n -> sim eq (FCur.take n) (FcReader.bytes_ n).
Proof.
  intros Hn c s c' Hc H. apply ftake_Ok in H as (-> & Hs & Hle); [|done|done]. exists s. split; [|done].
  unfold FcReader.bytes_, checked_add64. destruct Hc as [_ Hl]. rewrite (proj2 (Z.ltb_lt _ _)) by lia. by rewrite Hs.
Qed.

Lemma sim_fbyte : sim eq FCur.byte_ FcReader.u8.
Proof.
  eapply sim_bind; [auto with safe|by apply sim_ftake|]. intros s ? <-. intros c a c' _ H.
  destruct (s !! 0%nat) as [x|]; [|done]. injection H as <- <-. by exists (b2z x).
Qed.

Lemma sim_fvar_loop l v : sim eq (FCur.var_loop l v) (FcReader.varuint32_loop l v).
Proof.
  revert v; induction l as [|s l IH]; intros v; cbn [FCur.var_loop FcReader.varuint32_loop]; [apply sim_fail|].
  eapply sim_bind; [auto with safe|apply sim_fbyte|]. intros b ? <-. apply sim_sensure.
  destruct (Z.land b 128 =? 0); [|apply IH]. apply sim_sensure. by apply sim_ret.
Qed.

Lemma sim_fvar : sim eq FCur.var FcReader.varuint32.
Proof. apply sim_fvar_loop. Qed.

(** A read of fixed length as an integer. *)
Lemma sim_fle n (f : bytes -> Z) : 0 <= n -> sim (fun _ _ => True) (FCur.take n) (let! s := FcReader.bytes_ n in sret (f s)).
Proof.
  intros Hn c s c' Hc H. destruct (sim_ftake n Hn c s c' Hc H) as (z & H' & _). exists (f z). split; [|done].
  unfold sbind, sret. by rewrite H'.
Qed.

Lemma sim_producer : sim (fun _ _ => True) producer (BlockLog.producer_reader ()).
Proof.
  unfold producer, BlockLog.producer_reader, FcReader.u64.
  eapply (sim_bind (fun _ _ => True)); [auto with safe|by apply sim_fle|]. intros ? ? _.
  intros c [] c' Hc H. apply sbind_Ok in H as (k & c1 & H1 & H). pose proof (safe_wf _ _ _ _ fvar_safe Hc H1) as Hc1.
  pose proof (fvar_yields _ _ _ Hc H1) as Hk0. simpl in Hk0. destruct (sim_fvar c k c1 Hc H1) as (? & H1' & <-). apply sbind_Ok in H as ([] & c2 & Hk & H).
  apply sensure_Ok in Hk as [Hk%Z.leb_le ->]. apply sbind_Ok in H as (s & c3 & H3 & [= ->]).
  destruct (sim_ftake 33 ltac:(done) c1 s _ Hc1 H3) as (? & H3' & _). exists (). split; [|done].
  unfold BlockLog.public_key_rest, sbind, sret. rewrite H1'.
  assert (E : (k =? 0) || (k =? 1) = true) by (destruct (Z.eqb_spec k 0), (Z.eqb_spec k 1); try done; lia).
  rewrite E. by rewrite H3'.
Qed.

Lemma sim_extension : sim (fun _ _ => True) extension (BlockLog.extension_reader ()).
Proof.
  unfold extension, BlockLog.extension_reader. eapply sim_bind; [auto with safe|by apply sim_ftake|]. intros ? ? _.
  intros c [] c' Hc H. apply sbind_Ok in H as (m & c1 & H1 & H). apply sbind_Ok in H as (s & c2 & H2 & [= ->]).
  pose proof (fvar_yields _ _ _ Hc H1). pose proof (safe_wf _ _ _ _ fvar_safe Hc H1) as Hc1.
  destruct (sim_fvar c m c1 Hc H1) as (? & H1' & <-).
  destruct (sim_ftake m ltac:(done) c1 s _ Hc1 H2) as (? & H2' & _). exists (). split; [|done].
  unfold sbind, sret. by rewrite H1', H2'.
Qed.

(** [count] elements, checked against the limit of this decoder only. *)
Lemma sim_counted (f : () -> FCur.reader ()) (g : () -> FcReader.reader ()) e :
  (forall u, safe (f u)) -> sim (fun _ _ => True) (f ()) (g ()) ->
  sim (fun _ _ => True) (let! n := FCur.var in do! sensure (n <=? 4096) e ;; for_count n f ())
    (let! n := FcReader.varuint32 in for_count n g ()).
Proof.
  intros Hs Hf. eapply sim_bind; [auto with safe|apply sim_fvar|]. intros n ? <-. apply sim_sensure.
  apply sim_for; [done| |done]. by intros [] [] _.
Qed.

Lemma sim_flag : sim (fun f t => (f = 0 /\ t = false) \/ (f = 1 /\ t = true))
  (let! f := FCur.byte_ in if f =? 0 then sret f else if f =? 1 then sret f else sfail FProducerFlag) FcReader.bool_.
Proof.
  eapply (sim_bind eq); [auto with safe|apply sim_fbyte|]. intros f ? <-.
  destruct (Z.eqb_spec f 0) as [->|H0]; [apply sim_ret; by left|]. destruct (Z.eqb_spec f 1) as [->|]; [|apply sim_fail].
  apply sim_ret. by right.
Qed.

Lemma sim_header_fields : sim eq header_fields BlockLog.header_reader.
Proof.
  unfold header_fields, BlockLog.header_reader.
  eapply sim_bind; [auto with safe|by apply sim_ftake|]. intros ? ? _.
  eapply sim_bind; [auto with safe|by apply (sim_ftake 32)|]. intros previous ? <-.
  eapply sim_bind; [auto with safe|by apply sim_ftake|]. intros ? ? _.
  intros c x c' Hc H. apply sbind_Ok in H as (f & c1 & H1 & H). pose proof (safe_wf _ _ _ _ fbyte_safe Hc H1) as Hc1.
  assert (Hf : f = 0 \/ f = 1).
  { apply sbind_Ok in H as (? & ? & H & _). destruct (Z.eqb_spec f 0); [by left|]. destruct (Z.eqb_spec f 1); [by right|done]. }
  destruct (sim_flag c f c1 Hc) as (t & Ht & Hft); [unfold sbind; rewrite H1; by destruct Hf as [->| ->]|].
  rewrite (sbind_Ok_eq _ _ _ _ _ Ht). revert c1 x c' Hc1 H H1 Ht. intros c1 x c' Hc1 H _ _. revert c1 x c' Hc1 H.
  apply (sim_bind (fun _ _ => True)); [solve_safe| |].
  - destruct Hft as [[-> ->]|[-> ->]]; [by apply sim_ret|]. cbn [Z.eqb Pos.eqb].
    eapply (sim_bind (fun _ _ => True)); [auto with safe|by apply sim_fle|]. intros ? ? _.
    apply sim_counted; [auto with safe|apply sim_producer].
  - intros ? ? _ c2 y c3 Hc2 H2. apply sbind_Ok in H2 as (n & c4 & Hn & H2). apply sbind_Ok in H2 as ([] & c5 & Hlim & H2).
    apply sbind_Ok in H2 as (u & c6 & Hx & [= <- <-]).
    destruct (sim_counted (fun _ => extension) BlockLog.extension_reader FTooManyExtensions ltac:(auto with safe) sim_extension c2 u c6 Hc2)
      as (u' & Hu & _).
    { unfold sbind at 1. rewrite Hn. unfold sbind. by rewrite Hlim. }
    exists previous. split; [|done]. apply sbind_Ok in Hu as (m & c7 & Hm & Hu).
    rewrite (sbind_Ok_eq _ _ _ _ _ Hm). by rewrite (sbind_Ok_eq _ _ _ _ _ Hu).
Qed.

Section HeaderFacts.
Context (sha256 : bytes -> bytes).

Lemma new_cursor_wf b : blen b < U64 -> cursor_wf (mkCursor b 0).
Proof. intros H. split; simpl; [pose proof (blen_nonneg b); lia|done]. Qed.

Lemma block_header_core b h :
  blen b < U64 -> block_header sha256 b = Ok h ->
  BlockLog.block_header sha256 b = Ok (mkHeader (hd_number h) (hd_id h) (hd_previous h)).
Proof.
  intros Hb. unfold block_header, BlockLog.block_header, FcReader.new.
  destruct (header_fields (mkCursor b 0)) as [[previous|e|] c] eqn:E; [|done|done].
  destruct (sim_header_fields _ _ _ (new_cursor_wf b Hb) E) as (? & -> & <-). intros H.
  bind H as number Hn. bind H as packed Hp. apply or_err_Ok in Hn. rewrite Hn. cbn [or_err rbind].
  apply or_panic_Ok in Hp. rewrite Hp. cbn [or_panic rbind]. by injection H as <-.
Qed.

Lemma repair_header_no_panic b : blen b < U64 -> is_panic (block_header sha256 b) = false.
Proof.
  intros Hb. pose proof (header_fields_safe _ (new_cursor_wf b Hb)) as (Hp & Hcb & Hpos). unfold block_header.
  destruct (header_fields (mkCursor b 0)) as [[previous|e|] c]; [|done|done]. simpl in Hcb, Hpos.
  destruct (checked_add32 _ _); [|done]. cbn [or_err rbind].
  destruct (slice_is_Some b 0 (cpos c)) as [s ->]; [lia|lia|lia|]. done.
Qed.
End HeaderFacts.

(** ** What a log holds *)

(** A file the system can hold: offsets are [i64]. *)
Definition disk_ok (d : Disk) : Prop := d_size d < 2 ^ 63.

(** What [from_disks] establishes of the index and the range. *)
Record log_ok (l : Log.t) : Prop := {
  lo_size : Log.size l = d_size (Log.log l);
  lo_index : d_size (Log.index l) = 8 * (Log.last l - Log.first l + 1);
  lo_first : 0 < Log.first l <= Log.last l;
  lo_last : Log.last l < u32_max;
  lo_disk : disk_ok (Log.log l)
}.

(** The offset of the entry of [n], or for the block after the last, the end of the log. *)
Definition pos_is (l : Log.t) (n p : Z) : Prop :=
  (n = Log.last l + 1 /\ p = Log.size l) \/
  (Log.first l <= n <= Log.last l /\ slice (d_data (Log.index l)) ((n - Log.first l) * 8) 8 = Some (le_bytes 8 p) /\
   0 <= p < Log.size l).

Lemma pos_is_fun l n p q : pos_is l n p -> pos_is l n q -> Log.size l < U64 -> p = q.
Proof.
  intros [[-> ->]|(Hn & Hs & Hp)] [[? ->]|(Hn' & Hs' & Hq)] Hu; [done|lia|lia|].
  rewrite Hs in Hs'. injection Hs' as E.
  rewrite <- (le_of_le_bytes_id 8 p), <- (le_of_le_bytes_id 8 q) by (change (256 ^ Z.of_nat 8) with U64; lia).
  cbn [le_bytes]. congruence.
Qed.

Lemma pos_is_range l n p : log_ok l -> pos_is l n p -> 0 <= p <= Log.size l /\ Log.size l < 2 ^ 63.
Proof.
  intros [Hs _ _ _ Hd]. unfold disk_ok, d_size in *. pose proof (blen_nonneg (d_data (Log.log l))).
  intros [[_ ->]|(_ & _ & Hp)]; lia.
Qed.

Lemma add32_below a b : 0 <= a -> 0 <= b -> a + b < U32 -> add32 a b = a + b.
Proof. intros. apply Z.mod_small. lia. Qed.

Lemma u64_in_whole s : blen s = 8 -> u64_in s 0 = Ok (le_of s).
Proof. intros H. rewrite <- (app_nil_r s) at 1. by apply u64_at_0. Qed.

Lemma pos_spec l n :
  log_ok l -> is_u32 n ->
  match Log.pos l n with
  | Ok p => pos_is l n p
  | Err e => is_io e = true \/ forall p, ~ pos_is l n p
  | Panic => False
  end.
Proof.
  intros [Hs Hi Hf Hl Hd] Hn. unfold Log.pos. rewrite add32_below by width_lia.
  destruct (Z.eqb_spec n (Log.last l + 1)) as [->|Hne]; [by left|].
  destruct ((Log.first l <=? n) && (n <=? Log.last l)) eqn:E; cbn [ensure rbind].
  2: { right. intros p [[? _]|(H & _)]; [done|]. apply andb_false_iff in E as [E|E]; bools; lia. }
  apply andb_true_iff in E as [E1%Z.leb_le E2%Z.leb_le].
  destruct (read_cases (Log.index l) ((n - Log.first l) * 8) 8) as [(s & -> & Hsl)|(e & ->)]; [apply inside_pos; lia| |by left].
  cbn [rbind]. pose proof (slice_blen _ _ _ _ Hsl) as H8. rewrite u64_in_whole by done. cbn [rbind].
  pose proof (le_of_u64 s H8) as Hu.
  assert (He : s = le_bytes 8 (le_of s)) by (by apply le_bytes_of).
  destruct (Z.ltb_spec (le_of s) (Log.size l)); cbn [ensure rbind].
  - right. rewrite <- He. split; [done|]. split; [done|]. split; [apply Hu|done].
  - right. intros p [[? _]|(_ & Hs' & Hp)]; [done|]. assert (Ep : s = le_bytes 8 p) by congruence.
    assert (le_of s = p); [|lia]. rewrite Ep. apply le_of_le_bytes_id. change (256 ^ Z.of_nat 8) with U64.
    unfold disk_ok in Hd. width_lia.
Qed.

Lemma from_disks_ok k log index l :
  disk_ok log -> Log.from_disks k log index = Ok l ->
  log_ok l /\ Log.kind l = k /\ Log.log l = log /\ Log.index l = index.
Proof.
  intros Hd. unfold Log.from_disks. intros H. guard H as Hc. apply andb_true_iff in Hc as [Hc%Z.ltb_lt Hm%Z.eqb_eq].
  bind H as st Hst. destruct st as [first sep]. guard H as Hf. apply Z.ltb_lt in Hf. bind H as last Hl.
  apply or_err_Ok, checked_add64_Some in Hl as [-> _]. guard H as Hmax. apply Z.ltb_lt in Hmax.
  bind H as fp Hfp. guard H as Hpos. bind H as u Hsep. bind H as v Hb. injection H as <-.
  split; [|done]. pose proof (Z.div_mod (d_size index) 8 ltac:(lia)). split; simpl; [done|lia|lia|lia|done].
Qed.

Section LogFacts.
Context {F : Flate} {R : FlateReset F} (zlib : bytes -> option bytes) {L : FlateLaws F zlib}
  {RL : ResetLaws F zlib} (sha256 : bytes -> bytes).

(** [x] is the body of block [n] of a log of kind [k], with id [id]. *)
Definition body_of (k : Kind) (n : Z) (x id : bytes) : Prop :=
  if is_blocks k then exists h, block_header sha256 x = Ok h /\ hd_number h = n /\ id = hd_id h
  else (exists raw, ship_body zlib x id raw) /\ num_from_id id = n.

Lemma id_spec l n x :
  blen x < U64 ->
  match Log.id sha256 l n x with
  | Ok id => body_of (Log.kind l) n x id
  | Err e => forall id, ~ body_of (Log.kind l) n x id
  | Panic => False
  end.
Proof.
  intros Hx. unfold Log.id, body_of. destruct (is_blocks (Log.kind l)).
  - pose proof (repair_header_no_panic sha256 x Hx) as Hp.
    destruct (block_header sha256 x) as [h|e|]; cbn [rbind]; [|intros id (h & ? & _); done|done].
    destruct (Z.eqb_spec (hd_number h) n); cbn [ensure rbind]; [by exists h|]. intros id (h' & [= <-] & ? & _). done.
  - pose proof (checked_ship_id_no_panic zlib x Hx) as Hp. pose proof (fun id => checked_ship_id_Ok zlib x id Hx) as Hok.
    destruct (checked_ship_id x) as [i|e|]; cbn [rbind]; [|intros id [Hr _]; by apply Hok in Hr|done].
    destruct (Z.eqb_spec (num_from_id i) n); cbn [ensure rbind]; [split; [by apply Hok|done]|].
    intros id [Hr Hn]. apply Hok in Hr. naive_solver.
Qed.

(** The positions of [n] and of the block after it delimit the body, its trailer and whole orphaned
    entries. *)
Definition entry_is (l : Log.t) (n : Z) (x id : bytes) : Prop :=
  exists a b es, pos_is l n a /\ pos_is l (n + 1) b /\ Log.min_entry (Log.kind l) <= b - a <= MAX_BYTES /\
    Forall (fun e => blen e.1 = 32) es /\ (is_blocks (Log.kind l) = true -> es = []) /\
    slice (d_data (Log.log l)) a (b - a) = Some (x ++ le_bytes 8 a ++ orphan_bytes (a + (blen x + 8)) es) /\
    body_of (Log.kind l) n x id.

Lemma bounds_spec l n :
  log_ok l -> Log.first l <= n <= Log.last l ->
  match Log.bounds l n with
  | Ok (a, b) => pos_is l n a /\ pos_is l (n + 1) b /\ a < b /\ Log.min_entry (Log.kind l) <= b - a <= MAX_BYTES
  | Err e => is_io e = true \/
      forall a b, pos_is l n a -> pos_is l (n + 1) b -> ~ (Log.min_entry (Log.kind l) <= b - a <= MAX_BYTES)
  | Panic => False
  end.
Proof.
  intros Hl Hn. pose proof Hl as [_ _ Hf Hlast _]. unfold Log.bounds.
  rewrite add32_below by width_lia. pose proof (pos_spec l n Hl ltac:(width_lia)) as Ha.
  destruct (Log.pos l n) as [a|e|]; cbn [rbind]; [|destruct Ha as [Ha|Ha]; [by left|right; intros ? ? H; by apply Ha in H]|done].
  pose proof (pos_spec l (n + 1) Hl ltac:(width_lia)) as Hb.
  destruct (Log.pos l (n + 1)) as [b|e|]; cbn [rbind]; [|destruct Hb as [Hb|Hb]; [by left|right; intros ? ? _ H; by apply Hb in H]|done].
  destruct (pos_is_range l n a Hl Ha) as [_ Hsz].
  assert (Hfun : forall a' b', pos_is l n a' -> pos_is l (n + 1) b' -> a' = a /\ b' = b).
  { intros a' b' H1 H2. split; eapply pos_is_fun; try done; width_lia. }
  destruct ((a <? b) && (Log.min_entry (Log.kind l) <=? b - a)) eqn:E; cbn [ensure rbind].
  - apply andb_true_iff in E as [E1%Z.ltb_lt E2%Z.leb_le].
    destruct (Z.leb_spec (b - a) MAX_BYTES); cbn [ensure rbind]; [done|]. right. intros a' b' H1 H2.
    destruct (Hfun _ _ H1 H2) as [-> ->]. lia.
  - right. intros a' b' H1 H2. destruct (Hfun _ _ H1 H2) as [-> ->].
    assert (60 <= Log.min_entry (Log.kind l)) by (unfold Log.min_entry; destruct (is_blocks _); lia).
    apply andb_false_iff in E as [E|E]; bools; lia.
Qed.

Lemma log_start_spec k log :
  match Log.log_start k log with
  | Ok (f, sep) => sep = true -> is_blocks k = true
  | Err _ => True
  | Panic => False
  end.
Proof.
  unfold Log.log_start. destruct (is_blocks k).
  - destruct (read_cases log 0 8) as [(h & -> & Hs)|(e & ->)]; [by apply inside_pos| |done]. cbn [rbind].
    apply slice_blen in Hs. destruct (u32_in_total h 0) as (v & -> & _); [lia|lia|]. cbn [rbind].
    destruct (u32_in_total h 4) as (f & -> & _); [lia|lia|]. unfold check_block_log_version.
    match goal with |- context [of_frame ?m] => destruct m as [[]|e|] eqn:E; cbn [of_frame rbind]; [|done|] end;
      [by destruct (v =? 1)|]. unfold ensure in E. by repeat (destruct (_ : bool) in E; cbn [rbind] in E).
  - destruct (read_cases log 0 48) as [(h & -> & Hs)|(e & ->)]; [by apply inside_pos| |done]. cbn [rbind]. apply slice_blen in Hs.
    destruct (u64_in_total h 0) as (m & -> & _); [lia|lia|]. cbn [rbind]. unfold check_magic. destruct (unsupported_ship_magic m); cbn [rbind]; [done|].
    unfold be32_in. destruct (slice_is_Some h 8 4) as [w Hw]; [lia|lia|lia|]. rewrite Hw. by cbn [or_panic rbind].
Qed.

Lemma from_disks_no_panic k log index : disk_ok log -> is_panic (Log.from_disks k log index) = false.
Proof.
  intros Hd. unfold Log.from_disks. destruct ((0 <? d_size index) && (d_size index mod 8 =? 0)) eqn:Hc; cbn [ensure rbind]; [|done].
  apply andb_true_iff in Hc as [Hc%Z.ltb_lt Hm%Z.eqb_eq]. pose proof (log_start_spec k log) as Hst.
  destruct (Log.log_start k log) as [[f sep]|e|]; cbn [rbind]; [|done|done]. rename Hst into Hsep.
  destruct (Z.ltb_spec 0 f); cbn [ensure rbind]; [|done]. destruct (checked_add64 f (d_size index / 8 - 1)) as [last|] eqn:El; cbn [or_err rbind]; [|done].
  apply checked_add64_Some in El as [-> _]. destruct (Z.ltb_spec (f + (d_size index / 8 - 1)) u32_max) as [Hmax|]; cbn [ensure rbind]; [|done].
  set (l := Log.mk _ _ _ _ _ _). pose proof (Z.div_mod (d_size index) 8 ltac:(lia)).
  assert (Hl : log_ok l) by (split; simpl; [done|lia|lia|lia|done]).
  pose proof (pos_spec l f Hl ltac:(width_lia)) as Hp. destruct (Log.pos l f) as [p|e|]; cbn [rbind]; [|done|done].
  destruct (if is_blocks k then 48 <=? p else p =? 0) eqn:Epos; cbn [ensure rbind]; [|done].
  pose proof (bounds_spec l (f + (d_size index / 8 - 1)) Hl ltac:(simpl; lia)) as Hb.
  assert (Hs : is_panic (if sep then let? s := read log (p - 8) 8 in ensure (bool_decide (s = List.repeat xff 8)) FNoSeparator else Ok ()) = false).
  { destruct sep; [|done]. rewrite (Hsep eq_refl) in Epos. apply Z.leb_le in Epos.
    destruct (read_cases log (p - 8) 8) as [(h & -> & _)|(e & ->)]; [apply inside_pos; lia| |done]. cbn [rbind]. by destruct (bool_decide _). }
  destruct (if sep then _ else _) as [[]|e|]; cbn [rbind]; [|done|done].
  by destruct (Log.bounds l _) as [[]|e|].
Qed.

Lemma ship_body_size x id raw :
  blen x < U64 -> ship_body zlib x id raw -> u64_in x 40 = Ok (blen x - 48) /\ 52 <= blen x /\ slice x 8 32 = Some id.
Proof.
  intros Hx (m & data & Hf & _ & _). pose proof (framed_start _ _ _ _ _ Hf) as (Hl & Hst & Hid & _). destruct Hf as [H1 _ _ Hb].
  pose proof (blen_nonneg data). split; [|split; [lia|done]]. rewrite Hb at 1. rewrite u64_at_40 by done. f_equal.
  apply le_of_le_bytes_id. change (256 ^ Z.of_nat 8) with U64. lia.
Qed.

Lemma u64_in_app b t at_ v : u64_in b at_ = Ok v -> u64_in (b ++ t) at_ = Ok v.
Proof. rewrite !u64_in_Ok. intros (s & Hs & <-). exists s. split; [by apply slice_app_l|done]. Qed.

Lemma entry_size_eq b v : u64_in b 40 = Ok v -> of_frame (ship_entry_size b) = Ok (sat_add64 56 v).
Proof. unfold u64_in, ship_entry_size. destruct (u64le b 40); simpl; [|done|done]. by intros [= ->]. Qed.

Lemma own_size_blocks l n a b : is_blocks (Log.kind l) = true -> Log.own_size l n a b = Ok (blen b).
Proof. intros H. unfold Log.own_size. by rewrite H. Qed.

(** Of a SHIP entry: where the bytes after it are whole orphans. *)
Lemma own_size_spec l n a b :
  is_blocks (Log.kind l) = false -> 60 <= blen b -> 0 <= a -> a + blen b < 2 ^ 63 ->
  match Log.own_size l n a b with
  | Ok own => 56 <= own <= blen b /\ (exists sz, u64_in b 40 = Ok sz /\ own = sat_add64 56 sz) /\
      exists es, Forall (fun e => blen e.1 = 32) es /\ drop (Z.to_nat own) b = orphan_bytes (a + own) es
  | Err e => is_io e = false /\ forall x es, Forall (fun e => blen e.1 = 32) es -> blen x < U64 ->
      u64_in x 40 = Ok (blen x - 48) -> b <> x ++ le_bytes 8 a ++ orphan_bytes (a + (blen x + 8)) es
  | Panic => False
  end.
Proof.
  intros Hk Hb Ha Hl. unfold Log.own_size. rewrite Hk.
  destruct (u64_in_total b 40) as (sz & Hsz & Hu); [lia|lia|]. rewrite (entry_size_eq _ _ Hsz). cbn [rbind].
  assert (Hs56 : 56 <= sat_add64 56 sz) by (unfold sat_add64; width_lia).
  assert (Hx : forall x es, blen x < U64 -> u64_in x 40 = Ok (blen x - 48) ->
    b = x ++ le_bytes 8 a ++ orphan_bytes (a + (blen x + 8)) es -> sat_add64 56 sz = blen x + 8 /\ blen x + 8 <= blen b).
  { intros x es Hx Hx40 E. rewrite E, (u64_in_app _ _ _ _ Hx40) in Hsz. injection Hsz as <-.
    pose proof (f_equal blen E) as El. rewrite !blen_app, blen_le_bytes in El. pose proof (blen_nonneg (orphan_bytes (a + (blen x + 8)) es)).
    unfold sat_add64. width_lia. }
  destruct (Z.leb_spec (sat_add64 56 sz) (blen b)); cbn [ensure rbind].
  2: { split; [done|]. intros x es _ Hx' Hx40 E. destruct (Hx x es Hx' Hx40 E). lia. }
  set (own := sat_add64 56 sz) in *. destruct (slice_is_Some b own (blen b - own)) as [t Ht]; [lia|lia|lia|].
  rewrite Ht. cbn [or_panic rbind]. apply slice_Some in Ht as (_ & _ & _ & Ht).
  assert (Hd : t = drop (Z.to_nat own) b) by (rewrite Ht; apply take_ge; rewrite length_drop; unfold blen; lia).
  assert (Hbt : blen t = blen b - own) by (rewrite Hd; apply blen_drop; lia).
  assert (Ea : add64 a own = a + own) by (apply Z.mod_small; width_lia). rewrite Ea.
  pose proof (orphans_spec t (a + own) ltac:(lia) ltac:(width_lia)) as Ho.
  destruct (orphans t (a + own)) as [c|e|]; cbn [of_frame rbind].
  - split; [lia|]. split; [by exists sz|]. destruct Ho as (es & Hes & Ho & _). exists es. by rewrite <- Hd.
  - split; [done|]. intros x es Hes Hx' Hx40 E. destruct (Hx x es Hx' Hx40 E) as [Eo _]. apply (Ho es Hes).
    rewrite Hd, E, Eo, app_assoc. replace (Z.to_nat (blen x + 8)) with (length (x ++ le_bytes 8 a)).
    2: { rewrite length_app. unfold blen. rewrite Z2Nat.inj_add, Nat2Z.id by lia. done. }
    by rewrite drop_app_length.
  - done.
Qed.

Lemma trailer_split b own v :
  8 <= own <= blen b -> u64_in b (own - 8) = Ok v -> b = take (Z.to_nat (own - 8)) b ++ le_bytes 8 v ++ drop (Z.to_nat own) b.
Proof.
  intros Ho H. apply u64_in_Ok in H as (s & Hs & <-). pose proof (slice_blen _ _ _ _ Hs) as H8.
  rewrite <- (le_bytes_of 8 s (le_of s)) by done. apply slice_Some in Hs as (_ & _ & _ & ->).
  rewrite <- (take_drop (Z.to_nat (own - 8)) b) at 1. f_equal.
  rewrite <- (take_drop (Z.to_nat 8) (drop (Z.to_nat (own - 8)) b)) at 1. f_equal.
  rewrite drop_drop. f_equal. lia.
Qed.

Lemma trailer_of x a t own : own = blen x + 8 -> is_u64 a -> u64_in (x ++ le_bytes 8 a ++ t) (own - 8) = Ok a.
Proof.
  intros -> Ha. replace (blen x + 8 - 8) with (blen x) by lia. apply u64_in_mid; [done|by rewrite blen_le_bytes|].
  by apply le_of_le_bytes_id.
Qed.

(** The entry an index delimits is the only one. *)
Lemma own_of_entry l n a b own x id es :
  blen b < 2 ^ 63 -> (is_blocks (Log.kind l) = true -> es = []) -> body_of (Log.kind l) n x id ->
  b = x ++ le_bytes 8 a ++ orphan_bytes (a + (blen x + 8)) es ->
  (if is_blocks (Log.kind l) then own = blen b else exists sz, u64_in b 40 = Ok sz /\ own = sat_add64 56 sz) ->
  own = blen x + 8.
Proof.
  intros Hl Hes Hx E Ho. pose proof (f_equal blen E) as El. rewrite !blen_app, blen_le_bytes in El. unfold body_of in Hx.
  pose proof (blen_nonneg (orphan_bytes (a + (blen x + 8)) es)). pose proof (blen_nonneg x). destruct (is_blocks (Log.kind l)).
  - rewrite Hes in El by done. simpl orphan_bytes in El. rewrite blen_nil in El. lia.
  - destruct Ho as (sz & Hsz & ->), Hx as [[raw Hx] _]. destruct (ship_body_size x id raw ltac:(width_lia) Hx) as (H40 & H52 & _).
    rewrite E, (u64_in_app _ _ _ _ H40) in Hsz. injection Hsz as <-. unfold sat_add64. width_lia.
Qed.

Lemma own_spec l n a b :
  Log.min_entry (Log.kind l) <= blen b -> 0 <= a -> a + blen b < 2 ^ 63 ->
  match Log.own_size l n a b with
  | Ok own => 56 <= own <= blen b /\
      (if is_blocks (Log.kind l) then own = blen b else exists sz, u64_in b 40 = Ok sz /\ own = sat_add64 56 sz) /\
      exists es, Forall (fun e => blen e.1 = 32) es /\ (is_blocks (Log.kind l) = true -> es = []) /\
        drop (Z.to_nat own) b = orphan_bytes (a + own) es
  | Err e => is_io e = false /\ forall x id es, Forall (fun e => blen e.1 = 32) es -> blen x < U64 ->
      body_of (Log.kind l) n x id -> b <> x ++ le_bytes 8 a ++ orphan_bytes (a + (blen x + 8)) es
  | Panic => False
  end.
Proof.
  intros Hb Ha Hl. unfold Log.min_entry in Hb. destruct (is_blocks (Log.kind l)) eqn:Hk.
  - rewrite own_size_blocks by done. split; [lia|]. split; [done|]. exists []. split; [constructor|]. split; [done|].
    apply drop_ge. unfold blen. lia.
  - pose proof (own_size_spec l n a b Hk Hb Ha Hl) as Ho. destruct (Log.own_size l n a b); [|destruct Ho as [Hio Ho]|done].
    + destruct Ho as (? & ? & es & ? & ?). split; [done|]. split; [done|]. by exists es.
    + split; [done|]. intros x id es Hes Hx Hbody. apply Ho; [done|done|]. unfold body_of in Hbody. rewrite Hk in Hbody.
      destruct Hbody as [[raw Hbody] _]. by apply (ship_body_size x id raw Hx Hbody).
Qed.

Lemma body_spec l n :
  log_ok l -> Log.first l <= n <= Log.last l ->
  match Log.body sha256 l n with
  | Ok x => exists id, entry_is l n x id
  | Err e => is_io e = true \/ forall x id, ~ entry_is l n x id
  | Panic => False
  end.
Proof.
  intros Hl Hn. unfold Log.body. pose proof (bounds_spec l n Hl Hn) as Hb.
  destruct (Log.bounds l n) as [[a e]|f|]; cbn [rbind]; [|destruct Hb as [Hb|Hb]; [by left|]|done].
  2: { right. intros x id (a & b & es & H1 & H2 & H3 & _). by apply (Hb a b). }
  destruct Hb as (Ha & He & Hlt & Hmin). destruct (pos_is_range l n a Hl Ha) as [Ha0 Hsz].
  destruct (pos_is_range l (n + 1) e Hl He) as [He0 _].
  destruct (read_cases (Log.log l) a (e - a)) as [(b & -> & Hsl)|(f & ->)]; [apply inside_pos; lia| |by left].
  cbn [rbind]. pose proof (slice_blen _ _ _ _ Hsl) as Hbl.
  assert (Hun : forall x id, entry_is l n x id -> exists es, Forall (fun e => blen e.1 = 32) es /\ blen x < U64 /\
    (is_blocks (Log.kind l) = true -> es = []) /\ body_of (Log.kind l) n x id /\
    b = x ++ le_bytes 8 a ++ orphan_bytes (a + (blen x + 8)) es).
  { intros x id (a' & b' & es & H1 & H2 & H3 & Hes & Hes' & Hs & Hx).
    assert (a' = a) as -> by (eapply pos_is_fun; try done; width_lia).
    assert (b' = e) as -> by (eapply pos_is_fun; try done; width_lia).
    assert (Hs' : b = x ++ le_bytes 8 a ++ orphan_bytes (a + (blen x + 8)) es) by congruence. clear Hs. rename Hs' into Hs. exists es. split; [done|]. split; [|done].
    apply (f_equal blen) in Hs. rewrite !blen_app, blen_le_bytes in Hs.
    pose proof (blen_nonneg (orphan_bytes (a + (blen x + 8)) es)). width_lia. }
  pose proof (own_spec l n a b ltac:(lia) ltac:(lia) ltac:(lia)) as Ho.
  destruct (Log.own_size l n a b) as [own|f|]; cbn [rbind]; [|right; intros x id (es & ? & ? & _ & ? & E)%Hun|done].
  2: { destruct Ho as [_ Ho]. by apply (Ho x id es) in E. }
  destruct Ho as (Hown & Hsrc & es & Hes & Hesb & Hdrop).
  assert (Hxo : forall x id, entry_is l n x id -> own = blen x + 8 /\ exists t, b = x ++ le_bytes 8 a ++ t).
  { intros x id (es' & ? & ? & ? & ? & E)%Hun. split; [|by eexists]. eapply own_of_entry; try done. lia. }
  destruct (u64_in_total b (own - 8)) as (tr & Htr & _); [lia|lia|]. rewrite Htr. cbn [rbind].
  destruct (Z.eqb_spec tr a) as [->|Hne]; cbn [ensure rbind].
  2: { right. intros x id (Ex & t & E)%Hxo. apply Hne. rewrite E, (trailer_of x a t own Ex ltac:(width_lia)) in Htr. congruence. }
  pose proof (trailer_split b own a ltac:(lia) Htr) as Hsp. set (x := take (Z.to_nat (own - 8)) b) in *.
  assert (Hx : blen x = own - 8) by (apply blen_take; lia).
  pose proof (id_spec l n x ltac:(width_lia)) as Hid. destruct (Log.id sha256 l n x) as [i|f|]; cbn [rbind]; [|right|done].
  - exists i, a, e, es. split; [done|]. split; [done|]. split; [done|]. split; [done|]. split; [done|]. split; [|done].
    rewrite Hsl, Hsp at 1. rewrite Hdrop, Hx. by replace (own - 8 + 8) with own by lia.
  - intros x' id' Hent. pose proof (Hun _ _ Hent) as (_ & _ & _ & _ & Hb' & _). destruct (Hxo _ _ Hent) as (Ex & t & E).
    apply (Hid id'). replace x with x'; [done|]. unfold x. rewrite E, Ex.
    replace (Z.to_nat (blen x' + 8 - 8)) with (length x') by (unfold blen; lia). by rewrite take_app_length.
Qed.

(** A log holds one body for a block. *)
Lemma entry_is_inj l n x id x' id' : log_ok l -> entry_is l n x id -> entry_is l n x' id' -> x' = x.
Proof.
  intros Hl (a & b & es & Ha & Hb & Hm & Hes & Hesb & Hs & Hx) (a' & b' & es' & Ha' & Hb' & _ & Hes' & Hesb' & Hs' & Hx').
  pose proof (pos_is_range l n a Hl Ha) as [Ha0 Hsz]. pose proof (pos_is_range l _ b Hl Hb) as [Hb0 _].
  assert (a' = a) as -> by (eapply pos_is_fun; try done; width_lia).
  assert (b' = b) as -> by (eapply pos_is_fun; try done; width_lia).
  pose proof (slice_blen _ _ _ _ Hs) as Hbl. set (y := x ++ le_bytes 8 a ++ _) in *.
  assert (Ey : y = x' ++ le_bytes 8 a ++ orphan_bytes (a + (blen x' + 8)) es') by congruence.
  assert (Hown : exists own, if is_blocks (Log.kind l) then own = blen y else exists sz, u64_in y 40 = Ok sz /\ own = sat_add64 56 sz).
  { unfold Log.min_entry in Hm. destruct (is_blocks (Log.kind l)); [by eexists|].
    destruct (u64_in_total y 40) as (sz & ? & _); [lia|lia|]. by exists (sat_add64 56 sz), sz. }
  destruct Hown as [own Hown].
  pose proof (own_of_entry l n a y own x id es ltac:(lia) Hesb Hx eq_refl Hown) as E1.
  pose proof (own_of_entry l n a y own x' id' es' ltac:(lia) Hesb' Hx' Ey Hown) as E2.
  assert (Hlen : length x' = length x) by (unfold blen in *; lia). unfold y in Ey.
  apply (f_equal (take (length x))) in Ey. rewrite take_app_length, <- Hlen, take_app_length in Ey. done.
Qed.

(** The parts of a SHIP entry at its offsets in the file. *)
Lemma entry_parts (d b x t : bytes) a m :
  slice d a m = Some b -> b = x ++ le_bytes 8 a ++ t -> 52 <= blen x ->
  (exists h r, x = h ++ r /\ blen h = 48 /\ slice d a 48 = Some h) /\
  slice d (a + blen x) 8 = Some (le_bytes 8 a) /\
  slice d (a + (blen x + 8)) (m - (blen x + 8)) = Some t.
Proof.
  intros Hs E Hx. pose proof (slice_blen _ _ _ _ Hs) as Hm. rewrite E, !blen_app, blen_le_bytes in Hm.
  pose proof (blen_nonneg t). split.
  - destruct (cut x 48) as (h & r & -> & Hh & _); [lia|]. exists h, r. split; [done|]. split; [done|].
    rewrite blen_app in *. rewrite <- (Z.add_0_r a), <- (slice_slice d a m b 0 48 Hs) by lia.
    rewrite E, <- app_assoc. by apply (slice_mid [] h).
  - rewrite <- !(slice_slice d a m b _ _ Hs) by lia. rewrite E. split.
    + by apply slice_mid.
    + rewrite app_assoc, <- (app_nil_r t) at 1. apply slice_mid; [by rewrite blen_app, blen_le_bytes|lia].
Qed.

Lemma pos_complete l m p :
  log_ok l -> is_u32 m -> pos_is l m p -> Log.pos l m = Ok p \/ exists e, Log.pos l m = Err (FIo e).
Proof.
  intros Hl Hm Hp. pose proof (pos_is_range l m p Hl Hp) as [_ Hsize]. pose proof (pos_spec l m Hl Hm) as H1.
  destruct (Log.pos l m) as [q|e|]; [left|right|done].
  - f_equal. eapply pos_is_fun; try done. width_lia.
  - destruct H1 as [H1|H1]; [apply is_io_inv in H1 as [i ->]; by eexists|by apply H1 in Hp].
Qed.

(** The header of a body holds its magic, size and id. *)
Lemma ship_header_of h r id raw :
  blen h = 48 -> ship_body zlib (h ++ r) id raw -> u64_in (h ++ r) 40 = Ok (blen (h ++ r) - 48) -> slice (h ++ r) 8 32 = Some id ->
  u64_in h 0 = Ok SHIP_MAGIC /\ u64_in h 40 = Ok (blen (h ++ r) - 48) /\ slice h 8 32 = Some id.
Proof.
  intros Hh Hx H40 Hid. rewrite u64_in_Ok in H40. rewrite !u64_in_Ok. destruct H40 as (s40 & H40 & E40).
  assert (Hpre : forall o k, 0 <= o -> 0 <= k -> o + k <= 48 -> slice (h ++ r) o k = slice h o k).
  { intros o k Ho Hk0 Hok. destruct (slice_is_Some h o k) as [s Hs'] ; [lia|lia|lia|]. rewrite Hs'. by apply slice_app_l. }
  rewrite Hpre in H40, Hid by lia. split; [|split; [by exists s40|done]].
  destruct Hx as (mk & data & Hfr & _). destruct Hfr as [_ _ _ Hbody]. exists (le_bytes 8 SHIP_MAGIC). split; [|done].
  rewrite <- Hpre by lia. rewrite Hbody at 1. by apply (slice_mid []).
Qed.

(** The id from the framing alone is the id of the body, and no payload is needed for it. *)
Lemma ship_entry_id_agrees l n x id :
  log_ok l -> is_u32 n -> is_blocks (Log.kind l) = false -> entry_is l n x id ->
  Log.ship_entry_id l n = Ok id \/ exists e, Log.ship_entry_id l n = Err (FIo e).
Proof.
  intros Hl Hn Hk (a & b & es & Ha & Hb & Hsz & Hes & _ & Hs & Hx). unfold body_of in Hx. rewrite Hk in Hx.
  unfold Log.min_entry in Hsz. rewrite Hk in Hsz.
  destruct Hx as [[raw Hx] Hnum]. pose proof (pos_is_range l n a Hl Ha) as [Ha0 Hsize]. pose proof (pos_is_range l _ b Hl Hb) as [Hb0 _].
  pose proof (slice_blen _ _ _ _ Hs) as Hbl. rewrite !blen_app, blen_le_bytes in Hbl.
  set (t := orphan_bytes (a + (blen x + 8)) es) in *. pose proof (blen_nonneg t). pose proof (blen_nonneg x).
  destruct (ship_body_size x id raw ltac:(width_lia) Hx) as (H40 & H52 & Hid).
  destruct (entry_parts _ _ x t a _ Hs eq_refl H52) as ((h & r & -> & Hh & Hsh) & Hst & Hso).
  unfold Log.ship_entry_id. rewrite Hk. cbn [negb ensure rbind].
  pose proof (fun m p => pos_complete l m p Hl) as Hposok.
  destruct Hl as [_ _ Hf Hlast _]. assert (Hn1 : add32 n 1 = n + 1 /\ is_u32 (n + 1)).
  { assert (n + 1 <= Log.last l + 1) by (destruct Hb as [[? _]|[? _]]; lia). rewrite add32_below; width_lia. }
  destruct Hn1 as [-> Hn1]. destruct (Hposok n a Hn Ha) as [->|[e ->]]; cbn [rbind]; [|right; by eexists].
  destruct (Hposok (n + 1) b Hn1 Hb) as [->|[e ->]]; cbn [rbind]; [|right; by eexists].
  rewrite (proj2 (Z.ltb_lt a b)), (proj2 (Z.leb_le 60 _)) by lia. cbn [andb ensure rbind].
  destruct (read_cases (Log.log l) a 48) as [(h' & -> & Hh')|[e ->]]; [apply inside_pos; lia| |right; by eexists].
  assert (h' = h) as -> by congruence. cbn [rbind].
  destruct (ship_header_of h r id raw Hh Hx H40 Hid) as (Hm0 & Hm40 & Hmid). rewrite Hm0. cbn [rbind]. rewrite (proj2 (check_magic_Ok _ tt) eq_refl). cbn [rbind].
  rewrite (entry_size_eq _ _ Hm40). cbn [rbind].
  assert (Eown : sat_add64 56 (blen (h ++ r) - 48) = blen (h ++ r) + 8) by (unfold sat_add64; width_lia). rewrite Eown.
  rewrite (proj2 (Z.leb_le _ (b - a))) by lia. cbn [ensure rbind]. replace (a + (blen (h ++ r) + 8) - 8) with (a + blen (h ++ r)) by lia.
  destruct (read_cases (Log.log l) (a + blen (h ++ r)) 8) as [(tr & -> & Htr)|[e ->]]; [apply inside_pos; lia| |right; by eexists].
  assert (tr = le_bytes 8 a) as -> by congruence. cbn [rbind]. rewrite u64_in_whole by done. cbn [rbind].
  rewrite le_of_le_bytes_id, Z.eqb_refl by (change (256 ^ Z.of_nat 8) with U64; width_lia). cbn [ensure rbind].
  destruct (Z.ltb_spec (blen (h ++ r) + 8) (b - a)); cbn [rbind].
  - replace (b - a - (blen (h ++ r) + 8)) with (blen t) by lia. replace (b - a - (blen (h ++ r) + 8)) with (blen t) in Hso by lia.
    rewrite (proj2 (Z.leb_le (blen t) MAX_BYTES)) by lia. cbn [ensure rbind].
    destruct (read_cases (Log.log l) (a + (blen (h ++ r) + 8)) (blen t)) as [(o & -> & Ho)|[e ->]]; [apply inside_pos; lia| |right; by eexists].
    assert (o = t) as -> by congruence. cbn [rbind].
    pose proof (orphans_spec t (a + (blen (h ++ r) + 8)) ltac:(lia) ltac:(width_lia)) as Hos.
    destruct (orphans t _) as [c|e|]; cbn [of_frame rbind]; [|by destruct (Hos es Hes)|done].
    rewrite Hmid. cbn [or_panic rbind]. rewrite Hnum, Z.eqb_refl. by left.
  - rewrite Hmid. cbn [or_panic rbind]. rewrite Hnum, Z.eqb_refl. by left.
Qed.
End LogFacts.

(** ** Containers *)
Section Containers.
Context (sha256 : bytes -> bytes).

(** Blocks [first], [first + 1], ... each linked to the one before. *)
Fixpoint chained (first : Z) (prev : option bytes) (bs : Blocks_map) : Prop :=
  match bs with
  | [] => True
  | (n, body) :: bs =>
      n = first /\ blen body < U32 /\
      exists h, block_header sha256 body = Ok h /\ hd_number h = n /\
        match prev with Some id => hd_previous h = id | None => True end /\ chained (first + 1) (Some (hd_id h)) bs
  end.

Fixpoint last_id (prev : option bytes) (bs : Blocks_map) : option bytes :=
  match bs with
  | [] => prev
  | (_, body) :: bs => last_id (match block_header sha256 body with Ok h => Some (hd_id h) | _ => None end) bs
  end.

Definition container_valid (bs : Blocks_map) : Prop :=
  exists first, 0 < first /\ 0 < blen bs <= MAX_BLOCKS /\ first + blen bs <= U32 /\ chained first None bs.

Lemma bt_insert_snoc n body m : Forall (fun e => e.1 < n) m -> bt_insert n body m = m ++ [(n, body)].
Proof.
  induction m as [|[k b] m IH]; intros H; [done|]. apply list.Forall_cons in H as [Hk Hm]. simpl in *.
  rewrite (proj2 (Z.ltb_ge n k)), (proj2 (Z.eqb_neq n k)) by lia. by rewrite IH.
Qed.

Lemma chained_keys first prev bs : chained first prev bs -> Forall (fun e => first <= e.1 < first + blen bs) bs.
Proof.
  revert first prev; induction bs as [|[n body] bs IH]; intros first prev H; [constructor|].
  destruct H as (-> & _ & h & _ & _ & _ & Hc). rewrite blen_cons. pose proof (blen_nonneg bs). constructor; [simpl; lia|].
  eapply Forall_impl; [|exact (IH _ _ Hc)]. simpl. intros e He. lia.
Qed.

Lemma ftake_rest n c s c' :
  cursor_wf c -> 0 <= n -> FCur.take n c = (Ok s, c') -> rest c = s ++ rest c' /\ cursor_wf c' /\ blen s = n.
Proof.
  intros Hc Hn H. pose proof (safe_wf _ _ _ _ (ftake_safe n Hn) Hc H) as Hc'.
  apply ftake_Ok in H as (-> & Hs & Hle); [|done|done]. split; [|split; [done|by eapply slice_blen]].
  apply slice_Some in Hs as (_ & _ & _ & ->). unfold rest, adv. cbn [cb cpos].
  rewrite Z2Nat.inj_add by (destruct Hc; lia). rewrite <- drop_drop. by rewrite take_drop.
Qed.

Lemma container_block_parses n body m prev h :
  is_u32 n -> blen body < U32 -> block_header sha256 body = Ok h -> hd_number h = n ->
  match prev with Some id => hd_previous h = id | None => True end ->
  parses (container_block sha256 n (m, prev)) (container_entry (n, body)) (bt_insert n body m, Some (hd_id h)).
Proof.
  intros Hn Hb Hh Hnum Hprev. unfold container_block, container_entry. cbn [fst snd]. pose proof (blen_nonneg body).
  eapply parses_bind; [apply (ftake_parses (le_bytes 4 n))|]. rewrite le_of_le_bytes_id by done. cbv zeta.
  apply parses_sensure; [apply Z.eqb_refl|]. eapply parses_bind; [apply (ftake_parses (le_bytes 4 _))|].
  unfold wrap32. rewrite Z.mod_small by (width_lia || done). rewrite le_of_le_bytes_id by (change (256 ^ Z.of_nat 4) with U32; lia).
  rewrite <- (app_nil_r body) at 2. eapply parses_bind; [apply ftake_parses|]. rewrite Hh.
  rewrite <- (app_nil_l []). eapply (parses_bind _ _ [] []); [apply (parses_ret h)|].
  apply parses_sensure; [by apply Z.eqb_eq|].
  rewrite <- (app_nil_l []). eapply (parses_bind _ _ [] []); [|apply parses_ret].
  destruct prev as [id|]; [|apply parses_ret]. subst id. rewrite bool_decide_true by done. apply parses_ret.
Qed.

Lemma container_blocks_parses bs first m prev :
  0 <= first -> first + blen bs <= U32 -> chained first prev bs -> Forall (fun e => e.1 < first) m ->
  parses (container_blocks sha256 (length bs) first (m, prev)) (concat (container_entry <$> bs)) (m ++ bs, last_id prev bs).
Proof.
  revert first m prev; induction bs as [|[n body] bs IH]; intros first m prev H0 Hu Hc Hm.
  { rewrite app_nil_r. apply parses_ret. }
  cbn [chained] in Hc. destruct Hc as (-> & Hb & h & Hh & Hnum & Hprev & Hc). rewrite blen_cons in Hu. pose proof (blen_nonneg bs).
  cbn [length container_blocks fmap list_fmap concat].
  eapply parses_bind; [apply (container_block_parses first body m prev h); (done || (split; lia))|].
  rewrite bt_insert_snoc by done. cbn [last_id]. rewrite Hh.
  replace (m ++ (first, body) :: bs) with ((m ++ [(first, body)]) ++ bs) by (by rewrite <- app_assoc).
  apply IH; [lia|lia|done|]. apply Forall_app. split; [eapply Forall_impl; [|exact Hm]; simpl; intros; lia|].
  repeat constructor. simpl. lia.
Qed.

Lemma container_block_sound n m prev c acc c' :
  cursor_wf c -> container_block sha256 n (m, prev) c = (Ok acc, c') ->
  exists body h, cursor_wf c' /\ rest c = container_entry (n, body) ++ rest c' /\ blen body < U32 /\
    block_header sha256 body = Ok h /\ hd_number h = n /\
    match prev with Some id => hd_previous h = id | None => True end /\ acc = (bt_insert n body m, Some (hd_id h)).
Proof.
  intros Hc H. unfold container_block in H. apply sbind_Ok in H as (s & c1 & H1 & H). cbv zeta in H.
  apply sbind_Ok in H as ([] & c2 & He & H). apply sensure_Ok in He as [He%Z.eqb_eq ->].
  apply sbind_Ok in H as (s2 & c3 & H2 & H). apply sbind_Ok in H as (body & c4 & H3 & H).
  apply sbind_Ok in H as (h & c5 & Hh & H). unfold slift in Hh. injection Hh as Hh <-.
  apply sbind_Ok in H as ([] & c6 & Hn & H). apply sensure_Ok in Hn as [Hn%Z.eqb_eq ->].
  apply sbind_Ok in H as ([] & c7 & Hp & H). injection H as <- <-. rewrite He in *.
  destruct (ftake_rest 4 c s c1 Hc ltac:(done) H1) as (R1 & Hc1 & L1).
  destruct (ftake_rest 4 c1 s2 c3 Hc1 ltac:(done) H2) as (R2 & Hc3 & L2).
  pose proof (le_of_u32 s2 L2) as Hu. destruct (ftake_rest _ c3 body c4 Hc3 ltac:(apply Hu) H3) as (R3 & Hc4 & L3).
  exists body, h. assert (Hc7 : c7 = c4 /\ match prev with Some id => hd_previous h = id | None => True end).
  { destruct prev as [id|]; cbn [snd] in Hp; [apply sensure_Ok in Hp as [Hp ->]; by bools|by injection Hp as ->]. }
  destruct Hc7 as [-> Hprev]. split; [done|]. split; [|split; [rewrite L3; apply Hu|done]].
  rewrite R1, R2, R3. unfold container_entry. cbn [fst snd]. rewrite <- !app_assoc. f_equal; [by apply le_bytes_of|].
  f_equal. unfold wrap32. rewrite Z.mod_small by (rewrite L3; exact Hu). rewrite L3. by apply le_bytes_of.
Qed.

Lemma container_blocks_sound k first m prev c acc c' :
  cursor_wf c -> Forall (fun e => e.1 < first) m -> container_blocks sha256 k first (m, prev) c = (Ok acc, c') ->
  exists bs, length bs = k /\ chained first prev bs /\ cursor_wf c' /\
    rest c = concat (container_entry <$> bs) ++ rest c' /\ acc.1 = m ++ bs.
Proof.
  revert first m prev c; induction k as [|k IH]; intros first m prev c Hc Hm H.
  { injection H as <- <-. exists []. rewrite app_nil_r. done. }
  cbn [container_blocks] in H. apply sbind_Ok in H as (a & c1 & H1 & H).
  destruct (container_block_sound _ _ _ _ _ _ Hc H1) as (body & h & Hc1 & R & Hb & Hh & Hn & Hp & ->).
  rewrite bt_insert_snoc in H by done. apply IH in H as (bs & <- & Hch & Hc' & R' & ->); [|done|].
  2: { apply Forall_app. split; [eapply Forall_impl; [|exact Hm]; simpl; intros; lia|]. repeat constructor. simpl. lia. }
  exists ((first, body) :: bs). split; [done|]. split; [cbn [chained]; eauto 10|]. split; [done|].
  cbn [fmap list_fmap concat]. rewrite <- !app_assoc. by rewrite R, R'.
Qed.

Lemma ftake_yields n : 0 <= n -> yields (FCur.take n) (fun s => blen s = n).
Proof. intros Hn c s c' Hc H. by apply ftake_rest in H as (_ & _ & ?). Qed.

Lemma container_block_safe n acc : safe (container_block sha256 n acc).
Proof.
  unfold container_block. apply safe_bind; [auto with safe|]. intros s. apply safe_bind; [apply safe_sensure|]. intros _.
  apply (safe_bind_val (fun s => blen s = 4)); [auto with safe|by apply ftake_yields|]. intros s2 Hs2.
  pose proof (le_of_u32 s2 Hs2) as [Hu0 Hu].
  apply (safe_bind_val (fun b => blen b = le_of s2)); [by apply ftake_safe|by apply ftake_yields|]. intros body Hb.
  apply safe_bind; [|intros h; destruct acc.2; solve_safe].
  intros c [Hc _]. unfold slift. cbn [fst snd].
  split; [apply repair_header_no_panic; rewrite Hb; width_lia|split; [done|lia]].
Qed.

Lemma container_blocks_safe k f acc : safe (container_blocks sha256 k f acc).
Proof.
  revert f acc; induction k as [|k IH]; intros f acc; [apply safe_ret|]. apply safe_bind; [apply container_block_safe|].
  intros ?. apply IH.
Qed.

Lemma container_walk_safe : safe (container_walk sha256).
Proof.
  assert (Hg : safe (E := fault) sget) by (intros c [Hc _]; simpl; naive_solver lia).
  unfold container_walk. solve_safe; apply container_blocks_safe.
Qed.

Lemma head_last_chained first bs :
  bs <> [] -> chained first None bs ->
  option_map fst (head bs) = Some first /\ option_map fst (list.last bs) = Some (first + blen bs - 1).
Proof.
  intros Hne Hc. split.
  - destruct bs as [|[n body] bs]; [done|]. destruct Hc as [-> _]. done.
  - revert first Hc. generalize (@None bytes) as prev. induction bs as [|[n body] bs IH]; intros prev first Hc; [done|].
    destruct Hc as (-> & _ & h & _ & _ & _ & Hc). destruct bs as [|e bs]; [simpl; f_equal; unfold blen; simpl; lia|].
    rewrite blen_cons. change (list.last ((first, body) :: e :: bs)) with (list.last (e :: bs)).
    rewrite (IH ltac:(done) _ _ Hc). f_equal. lia.
Qed.

Lemma encode_container_chained first bs :
  bs <> [] -> chained first None bs ->
  encode_container bs =
  let out := CONTAINER_MAGIC ++ le_bytes 4 first ++ le_bytes 4 (first + blen bs - 1) ++ concat (container_entry <$> bs) in
  do? ensure (blen out <=? MAX_BYTES) FContainerTooLong ;; Ok out.
Proof. intros Hne Hc. unfold encode_container. destruct (head_last_chained first bs Hne Hc) as [-> ->]. done. Qed.

Lemma container_walk_sound b bs c' :
  blen b < U64 -> container_walk sha256 (mkCursor b 0) = (Ok bs, c') ->
  exists first, 0 < first /\ 0 < blen bs <= MAX_BLOCKS /\ first + blen bs <= U32 /\ chained first None bs /\
    b = CONTAINER_MAGIC ++ le_bytes 4 first ++ le_bytes 4 (first + blen bs - 1) ++ concat (container_entry <$> bs).
Proof.
  intros Hb H. pose proof (new_cursor_wf b Hb) as Hc. unfold container_walk in H.
  apply sbind_Ok in H as (m & c1 & H1 & H). apply sbind_Ok in H as ([] & c2 & Hm & H). apply sensure_Ok in Hm as [Hm ->].
  apply sbind_Ok in H as (s1 & c3 & H3 & H). cbv zeta in H. apply sbind_Ok in H as (s2 & c4 & H4 & H). cbv zeta in H.
  apply sbind_Ok in H as ([] & c5 & Hr & H). apply sensure_Ok in Hr as [Hr ->].
  apply sbind_Ok in H as (acc & c6 & H6 & H). apply sbind_Ok in H as (c7 & c8 & H7 & H). injection H7 as <- <-.
  apply sbind_Ok in H as ([] & c9 & He & H). apply sensure_Ok in He as [He%Z.eqb_eq ->]. injection H as <- <-. bools.
  destruct (ftake_rest 8 _ _ _ Hc ltac:(done) H1) as (R1 & Hc1 & L1). rewrite rest_new in R1.
  destruct (ftake_rest 4 _ _ _ Hc1 ltac:(done) H3) as (R3 & Hc3 & L3).
  destruct (ftake_rest 4 _ _ _ Hc3 ltac:(done) H4) as (R4 & Hc4 & L4).
  pose proof (le_of_u32 s1 L3) as Hu1. pose proof (le_of_u32 s2 L4) as Hu2.
  apply container_blocks_sound in H6 as (bs & Hk & Hch & Hc6 & R6 & ->); [|done|constructor]. cbn [app].
  assert (Hlen : blen bs = le_of s2 - le_of s1 + 1) by (unfold blen; rewrite Hk; lia).
  exists (le_of s1). rewrite Hlen. split; [lia|]. split; [lia|]. split; [width_lia|]. split; [done|].
  replace (le_of s1 + (le_of s2 - le_of s1 + 1) - 1) with (le_of s2) by lia.
  rewrite R1, R3, R4, R6. subst m. rewrite <- (le_bytes_of 4 s1 _ L3 eq_refl), <- (le_bytes_of 4 s2 _ L4 eq_refl).
  assert (Er : rest c6 = []) by (unfold rest; apply drop_ge; unfold blen in He; lia). by rewrite Er, app_nil_r.
Qed.

Lemma container_walk_complete first bs :
  0 < first -> 0 < blen bs <= MAX_BLOCKS -> first + blen bs <= U32 -> chained first None bs ->
  let b := CONTAINER_MAGIC ++ le_bytes 4 first ++ le_bytes 4 (first + blen bs - 1) ++ concat (container_entry <$> bs) in
  blen b < U64 -> (container_walk sha256 (mkCursor b 0)).1 = Ok bs.
Proof.
  intros Hf Hl Hu Hch b Hb. pose proof (new_cursor_wf b Hb) as Hc.
  assert (Step : forall x t c, cursor_wf c -> rest c = x ++ t ->
    FCur.take (blen x) c = (Ok x, adv c (blen x)) /\ cursor_wf (adv c (blen x)) /\ rest (adv c (blen x)) = t).
  { intros x t c Hw Hr. destruct (rest_adv c x t Hw Hr). split; [by apply (ftake_parses x c t)|done]. }
  destruct (Step _ _ _ Hc (rest_new b)) as (E1 & Hc1 & R1).
  destruct (Step _ _ _ Hc1 R1) as (E2 & Hc2 & R2). destruct (Step _ _ _ Hc2 R2) as (E3 & Hc3 & R3).
  unfold container_walk. rewrite (sbind_Ok_eq _ _ _ _ _ E1), sensure_bind, bool_decide_true by done.
  rewrite (sbind_Ok_eq _ _ _ _ _ E2), (sbind_Ok_eq _ _ _ _ _ E3).
  rewrite !le_of_le_bytes_id by (change (256 ^ Z.of_nat 4) with U32; lia).
  rewrite sensure_bind, (proj2 (Z.ltb_lt 0 first)), (proj2 (Z.leb_le first _)), (proj2 (Z.ltb_lt _ MAX_BLOCKS)) by lia.
  cbn [andb]. replace (Z.to_nat (first + blen bs - 1 - first + 1)) with (length bs) by (unfold blen; lia).
  rewrite <- (app_nil_r (concat _)) in R3.
  pose proof (container_blocks_parses bs first [] None ltac:(lia) Hu Hch ltac:(constructor) _ [] Hc3 R3) as E4.
  destruct (rest_adv _ _ _ Hc3 R3) as [Hc4 R4]. rewrite (sbind_Ok_eq _ _ _ _ _ E4), sget_bind, sensure_bind.
  rewrite (proj2 (Z.eqb_eq _ _)); [done|]. pose proof (blen_rest _ Hc4) as Hrest. rewrite R4, blen_nil in Hrest. lia.
Qed.

Lemma container_disk_ok d : disk_ok d ->
  match container_disk sha256 d with Ok bs => container_valid bs | Err _ => True | Panic => False end.
Proof.
  intros Hd. unfold container_disk. unfold disk_ok, d_size in *. pose proof (blen_nonneg (d_data d)).
  pose proof (disk_read_spec d 0 (blen (d_data d)) ltac:(unfold inside, d_size; lia)) as Hread.
  destruct (read d 0 (blen (d_data d))) as [b|e|]; cbn [rbind]; [|done|done]. destruct Hread as [Hsl _].
  rewrite slice_full in Hsl by done. injection Hsl as <-. assert (Hu : blen (d_data d) < U64) by width_lia.
  pose proof (container_walk_safe (mkCursor (d_data d) 0) (new_cursor_wf _ Hu)) as (Hp & _).
  destruct (container_walk sha256 (mkCursor (d_data d) 0)) as [[bs|e|] c] eqn:E; [|done|done].
  destruct (container_walk_sound _ _ _ Hu E) as (first & Hf & Hl & Hlt & Hch & _). by exists first.
Qed.

Lemma chained_short first prev bs : chained first prev bs -> Forall (fun e => blen e.2 < U32) bs.
Proof.
  revert first prev; induction bs as [|[n body] bs IH]; intros first prev H; [constructor|].
  destruct H as (_ & Hb & h & _ & _ & _ & Hc). constructor; [done|by eapply IH].
Qed.
End Containers.

(** ** Properties *)

(** Example: the entries of blocks 7 and 8 of a trace log, an orphaned entry between them. *)
Definition exl_id8 : bytes := be_bytes 4 8 ++ List.repeat x06 28.
Definition exl_body8 : bytes := encoded_body exl_id8 [x09] 2 (codec_stored [x09] 4 false).
Definition exl_orphan : list (bytes * bytes) := [(be_bytes 4 8 ++ List.repeat x07 28, [x00; x00; x00; x00])].
Definition exl_log : bytes :=
  let e7 := exp_body ++ le_bytes 8 0 ++ orphan_bytes (blen exp_body + 8) exl_orphan in
  e7 ++ exl_body8 ++ le_bytes 8 (blen e7).
Definition exl_pos8 : Z := blen exp_body + 8 + 60.
Definition exl_index : bytes := le_bytes 8 0 ++ le_bytes 8 exl_pos8.

(** C33: [Log::body] of a log opened with its index returns exactly the entry that the index positions of the
    block and of the next one delimit: its bytes without the trailer, the trailer naming its own position,
    nothing but whole orphaned entries up to the next position (none in a block log), and the header or the
    whole inflated payload naming this block. A read the disk fails is the only other outcome for such an
    entry; [ship_entry_id] gives the same id without the payload; and nothing panics. *)
Theorem log_body_exact (F : Flate) (R : FlateReset F) (zlib : bytes -> option bytes) (L : FlateLaws F zlib)
    (RL : ResetLaws F zlib) (sha256 : bytes -> bytes) (k : Kind) (log index : Disk) (l : Log.t) (n : Z)
    (Hlog : disk_ok log) (Hopen : Log.from_disks k log index = Ok l) (Hn : Log.first l <= n <= Log.last l) :
  (forall x, Log.body sha256 l n = Ok x -> exists id, entry_is zlib sha256 l n x id) /\
  (forall x id, entry_is zlib sha256 l n x id ->
     (Log.body sha256 l n = Ok x \/ exists e, Log.body sha256 l n = Err (FIo e)) /\
     (k <> Blocks -> Log.ship_entry_id l n = Ok id \/ exists e, Log.ship_entry_id l n = Err (FIo e))) /\
  is_panic (Log.body sha256 l n) = false.
Proof.
  destruct (from_disks_ok _ _ _ _ Hlog Hopen) as (Hl & Hk & _ & _). pose proof (body_spec zlib sha256 l n Hl Hn) as Hb.
  split; [intros x Hx; by rewrite Hx in Hb|]. split; [|by destruct (Log.body sha256 l n)].
  intros x id Hx. split.
  - destruct (Log.body sha256 l n) as [x'|e|]; [|right|done].
    + destruct Hb as [id' Hx']. left. f_equal. by apply (entry_is_inj zlib sha256 l n x id x' id').
    + destruct Hb as [Hb|Hb]; [apply is_io_inv in Hb as [i ->]; by eexists|by apply Hb in Hx].
  - intros Hne. destruct Hl as [H1 H2 H3 H4 H5]. apply (ship_entry_id_agrees zlib sha256 l n x id); [done|width_lia| |done].
    unfold is_blocks. by rewrite Hk, bool_decide_false.
Qed.

Lemma log_body_exact_witness :
  exists l, Log.from_disks KTrace (sound_disk exl_log) (sound_disk exl_index) = Ok l /\
    exists id, entry_is zlib_level0 exf_sha l 7 exp_body id.
Proof.
  assert (E : is_ok (Log.from_disks KTrace (sound_disk exl_log) (sound_disk exl_index)) = true) by (vm_compute; reflexivity).
  destruct (Log.from_disks KTrace (sound_disk exl_log) (sound_disk exl_index)) as [l| |] eqn:El; [|discriminate E|discriminate E].
  exists l. split; [reflexivity|]. vm_compute in El. injection El as El.
  refine (proj1 (log_body_exact level0 level0_reset zlib_level0 level0_laws level0_reset_laws exf_sha KTrace
    (sound_disk exl_log) (sound_disk exl_index) l 7 _ _ _) exp_body _).
  - vm_compute; reflexivity.
  - rewrite <- El. vm_compute. reflexivity.
  - rewrite <- El. vm_compute. intuition congruence.
  - rewrite <- El. vm_compute. reflexivity.
Defined.

(** A P2PBLK01 file is read back as the blocks it was written from and as nothing else: [container_disk]
    succeeds exactly on what [encode_container] writes for at most [MAX_BLOCKS] blocks of consecutive numbers,
    each linked to the one before, or the disk fails the read; and it does not panic on any file. *)
Lemma container_exact (sha256 : bytes -> bytes) (d : Disk) (bs : Blocks_map) (Hd : disk_ok d) :
  (container_disk sha256 d = Ok bs -> container_valid sha256 bs /\ encode_container bs = Ok (d_data d)) /\
  (container_valid sha256 bs -> encode_container bs = Ok (d_data d) ->
     container_disk sha256 d = Ok bs \/ exists e, container_disk sha256 d = Err (FIo e)) /\
  is_panic (container_disk sha256 d) = false.
Proof.
  unfold container_disk. unfold disk_ok, d_size in *. pose proof (blen_nonneg (d_data d)).
  pose proof (disk_read_spec d 0 (blen (d_data d)) ltac:(unfold inside, d_size; lia)) as Hread.
  destruct (read d 0 (blen (d_data d))) as [b|e|]; cbn [rbind]; [|apply is_io_inv in Hread as [i ->]|done].
  2: { split; [done|]. split; [|done]. intros _ _. right. by eexists. }
  destruct Hread as [Hsl Hmax]. rewrite slice_full in Hsl by done. injection Hsl as <-.
  assert (Hu : blen (d_data d) < U64) by width_lia.
  split; [|split].
  - intros Hw. destruct (container_walk sha256 (mkCursor (d_data d) 0)) as [r c'] eqn:E. simpl in Hw. subst r.
    destruct (container_walk_sound sha256 _ _ _ Hu E) as (first & Hf & Hl & Hlt & Hch & Hb).
    split; [by exists first|]. rewrite (encode_container_chained sha256 first) by (done || (intros ->; unfold blen in Hl; simpl in Hl; lia)).
    cbv zeta. rewrite <- Hb. by rewrite (proj2 (Z.leb_le _ _)).
  - intros (first & Hf & Hl & Hlt & Hch) He. left.
    rewrite (encode_container_chained sha256 first) in He by (done || (intros ->; unfold blen in Hl; simpl in Hl; lia)). cbv zeta in He. guard He as Hm.
    injection He as He. rewrite <- He in *. by apply container_walk_complete.
  - apply container_walk_safe. by apply new_cursor_wf.
Qed.

Definition exl_header (n : Z) (prev : bytes) : bytes :=
  List.repeat x00 14 ++ prev ++ List.repeat x00 68 ++ [x00; x00].
Definition exl_blocks : Blocks_map :=
  let b2 := exl_header 2 (be_bytes 4 1 ++ List.repeat x07 28) in
  [(2, b2); (3, exl_header 3 (be_bytes 4 2 ++ drop 4 (exf_sha b2)))].

Lemma container_exact_witness :
  exists b, encode_container exl_blocks = Ok b /\ container_valid exf_sha exl_blocks.
Proof.
  assert (E : is_ok (encode_container exl_blocks) = true) by (vm_compute; reflexivity).
  destruct (encode_container exl_blocks) as [b| |] eqn:Eb; [|discriminate E|discriminate E]. exists b. split; [reflexivity|].
  vm_compute in Eb. injection Eb as Eb.
  refine (proj1 (proj1 (container_exact exf_sha (sound_disk b) exl_blocks _) _)).
  - rewrite <- Eb. vm_compute. reflexivity.
  - rewrite <- Eb. vm_compute. reflexivity.
Defined.
