(* ===== verification/ReadAhead.v ===== *)
(** * Reading entries without an index ([crates/log-repair/src/tail.rs])

    The first part of the recovery of a torn tail: [start] establishes the format of a log from its first
    bytes, and [ReadAhead] finds the entry at an offset through a window that it reloads, doubling it while a
    block is incomplete. [Disk] may fail any read.

    The theorem: from any state of the window, an entry is found, or refused for the same reason, exactly as
    by parsing all the bytes from the offset at once; a failed read is the only other outcome. *)

From S2P Require Import Prelude.
From S2P Require Import Errors.
From S2P Require Import Cursor.
From S2P Require Import Binio.
From S2P Require Import ShipLog.
From S2P Require Import Zlib.
From S2P Require Import Framing.
From S2P Require Import Disk.
From S2P Require Import ShipPayload.
From S2P Require Import RepairLog.

Record Start := mkStart { st_first : Z; st_bytes : bytes; st_chain_id : option bytes }.

#[export] Instance Start_eq_dec : EqDecision Start.
Proof. solve_decision. Defined.

Record Entry := mkEntry { e_offset : Z; e_bytes : bytes; e_id : bytes; e_previous : option bytes }.

(** [Entry::body]: without the position trailer. *)
Definition e_body (e : Entry) : res fault bytes := or_panic (slice (e_bytes e) 0 (blen (e_bytes e) - 8)).

(** [Entry::number]. *)
Definition e_number (e : Entry) : Z := num_from_id (e_id e).

Section Reading.
Context {F : Flate} {R : FlateReset F} (sha256 : bytes -> bytes).

Definition start (d : Disk) (kind : Kind) : res fault Start :=
  let size := d_size d in
  if is_blocks kind then
    let? b := read d 0 (Z.min size (Z.shiftl 1 20)) in
    let? p := of_frame (preamble sha256 b) in
    Ok (mkStart (pr_first p) (take (Z.to_nat (pr_end p)) b) (Some (pr_chain_id p)))
  else
    do? ensure (48 <=? size) FNoShipStart ;;
    let? header := read d 0 48 in
    let? magic := u64_in header 0 in
    do? check_magic magic ;;
    let? first := be32_in header 8 in
    do? ensure ((0 <? first) && (first <? u32_max)) FFirstBlock ;;
    Ok (mkStart first [] None).

Definition full_block (b : bytes) : res fault Header :=
  let? he := of_frame (signed_block sha256 b) in
  do? ensure (he.2 =? blen b) FAfterBlock ;;
  Ok he.1.

(** ** ReadAhead *)

Record ReadAhead := mkReader { ra_offset : Z; ra_bytes : bytes }.

Definition ra_new : ReadAhead := mkReader 0 [].

Section Window.
Context (d : Disk).

Definition load (at_ len : Z) : M fault ReadAhead () := fun s =>
  match read d at_ len with
  | Ok b => (Ok (), mkReader at_ b)
  | Err e => (Err e, s)
  | Panic => (Panic, s)
  end.

Definition from (at_ : Z) (s : ReadAhead) : res fault bytes :=
  let off := sub64 at_ (ra_offset s) in
  or_panic (slice (ra_bytes s) off (blen (ra_bytes s) - off)).

Definition WINDOW : Z := Z.shiftl 64 10.

Definition index_position (at_ size : Z) : M fault ReadAhead Z :=
  do! sensure (match checked_add64 at_ 8 with Some end_ => end_ <=? size | None => false end) FIndexSlot ;;
  let! s := sget in
  do! (if (at_ <? ra_offset s) || (ra_offset s + blen (ra_bytes s) <? at_ + 8)
       then load at_ (Z.min (size - at_) WINDOW) else sret ()) ;;
  let! s := sget in
  let! b := slift (from at_ s) in
  slift (u64_in b 0).

(** One turn of the loop that frames a block. *)
Definition block_iter (at_ available : Z) (_ : ()) : M fault ReadAhead (ctl () (bytes * bytes * option bytes)) :=
  let! s := sget in
  let! b := slift (from at_ s) in
  let len := blen b in
  let retry :=
    do! sensure (len <? available) FIncompleteBlock ;;
    do! sensure (len <? MAX_BYTES) FSafetyLimit ;;
    do! load at_ (Z.min (Z.min (Z.max (len * 2) WINDOW) available) MAX_BYTES) ;;
    sret (Cont ()) in
  match signed_block sha256 b with
  | Ok (h, end_) =>
      if end_ + 8 <=? blen b then
        let! x := slift (or_panic (slice b 0 (end_ + 8))) in
        sret (Break (x, hd_id h, Some (hd_previous h)))
      else retry
  | Err Incomplete => retry
  | Err e => sfail (FFrame e)
  | Panic => spanic
  end.

Definition ship_part (at_ size : Z) : M fault ReadAhead (bytes * bytes * option bytes) :=
  do! sensure (48 <=? size - at_) FNoShipEntry ;;
  let! s := sget in
  let! b := slift (from at_ s) in
  do! (if blen b <? 48 then load at_ (Z.min (size - at_) WINDOW) else sret ()) ;;
  let! s := sget in
  let! b := slift (from at_ s) in
  let! h := slift (or_panic (slice b 0 48)) in
  let! magic := slift (u64_in h 0) in
  do! slift (check_magic magic) ;;
  let! payload := slift (u64_in h 40) in
  let! len := slift (or_err (checked_add64 payload 56) FEntryOverflow) in
  do! sensure (len <=? MAX_BYTES) FSafetyLimit ;;
  do! sensure (len <=? size - at_) FIncompleteShip ;;
  do! (if blen b <? len then load at_ (Z.min (Z.max len WINDOW) (size - at_)) else sret ()) ;;
  let! s := sget in
  let! b := slift (from at_ s) in
  let! x := slift (or_panic (slice b 0 len)) in
  let! body := slift (or_panic (slice x 0 (blen x - 8))) in
  let! id := slift (checked_ship_id body) in
  sret (x, id, None).

Definition entry (at_ size : Z) (kind : Kind) : M fault ReadAhead Entry :=
  let! s := sget in
  do! (if (at_ <? ra_offset s) || (ra_offset s + blen (ra_bytes s) <=? at_)
       then load at_ (Z.min (size - at_) WINDOW) else sret ()) ;;
  let! p := (if is_blocks kind then loop_ (block_iter at_ (size - at_)) () else ship_part at_ size) in
  let '(x, id, previous) := p in
  let! trailer := slift (u64_in x (blen x - 8)) in
  do! sensure (trailer =? at_) FPositionTrailer ;;
  sret (mkEntry at_ x id previous).
End Window.

(** ** Parsing at once

    The same entry found in the bytes from the offset to the end of the file, or the first [MAX_BYTES] of
    them. *)
Definition whole_block (avail : Z) (w : bytes) : res fault (bytes * bytes * option bytes) :=
  let stop := if blen w <? avail then FSafetyLimit else FIncompleteBlock in
  match signed_block sha256 w with
  | Ok (h, end_) => if end_ + 8 <=? blen w then Ok (take (Z.to_nat (end_ + 8)) w, hd_id h, Some (hd_previous h)) else Err stop
  | Err Incomplete => Err stop
  | Err e => Err (FFrame e)
  | Panic => Panic
  end.

Definition whole_ship (r : bytes) : res fault (bytes * bytes * option bytes) :=
  do? ensure (48 <=? blen r) FNoShipEntry ;;
  let? magic := u64_in r 0 in
  do? check_magic magic ;;
  let? payload := u64_in r 40 in
  let? len := or_err (checked_add64 payload 56) FEntryOverflow in
  do? ensure (len <=? MAX_BYTES) FSafetyLimit ;;
  do? ensure (len <=? blen r) FIncompleteShip ;;
  let? id := checked_ship_id (take (Z.to_nat (len - 8)) r) in
  Ok (take (Z.to_nat len) r, id, None).

Definition whole_entry (kind : Kind) (data : bytes) (at_ : Z) : res fault Entry :=
  let r := drop (Z.to_nat at_) data in
  let? p := (if is_blocks kind then whole_block (blen r) (take (Z.to_nat MAX_BYTES) r) else whole_ship r) in
  let '(x, id, previous) := p in
  let? trailer := u64_in x (blen x - 8) in
  do? ensure (trailer =? at_) FPositionTrailer ;;
  Ok (mkEntry at_ x id previous).
End Reading.

(** ** Damage stays damage

    A [firm] parser that failed for a reason other than [Incomplete] fails for the same reason on any longer
    input. With [delimited], nothing a longer window shows changes an answer but [Incomplete]. *)
Section Firm.
Import Walk.

Definition firm {A} (m : reader A) : Prop :=
  forall c e c' t, cursor_wf c -> blen (cb c ++ t) < U64 -> m c = (Err e, c') -> e <> Incomplete ->
    exists c'', m (mkCursor (cb c ++ t) (cpos c)) = (Err e, c'').

Lemma firm_pure {A} (r : res frame_error A) : firm (slift r).
Proof. intros c e c' t _ _ [= -> <-] _. by eexists. Qed.

Lemma firm_ret {A} (a : A) : firm (sret a).
Proof. apply (firm_pure (Ok a)). Qed.

Lemma firm_fail {A} e : firm (A := A) (sfail e).
Proof. apply (firm_pure (Err e)). Qed.

Lemma firm_sensure b e : firm (sensure b e).
Proof. destruct b; [apply firm_ret|apply firm_fail]. Qed.

Lemma firm_if {A} (b : bool) (m k : reader A) : firm m -> firm k -> firm (if b then m else k).
Proof. by destruct b. Qed.

(** What was read stays readable. *)
Lemma delimited_app {A} (m : reader A) c a c' t :
  delimited m -> cursor_wf c -> blen (cb c ++ t) < U64 -> m c = (Ok a, c') ->
  m (mkCursor (cb c ++ t) (cpos c)) = (Ok a, mkCursor (cb c ++ t) (cpos c')) /\ cb c' = cb c /\ cursor_wf c'.
Proof.
  intros Hm Hc Hu H. destruct (Hm c a c' Hc H) as (Hb & Hp & Hl). destruct Hc as [Hc Hcl].
  rewrite blen_app in Hu. pose proof (blen_nonneg t). split; [|split; [done|split; rewrite Hb; lia]].
  assert (Hs : same (cb c) (cb c ++ t) (Z.min (cpos c') (blen (cb c ++ t)))).
  { unfold same. rewrite take_app_le; [done|]. rewrite blen_app. unfold blen in *. lia. }
  specialize (Hl (cb c ++ t) ltac:(rewrite blen_app; lia) Hs). by rewrite (proj2 (Z.leb_le _ _)) in Hl by (rewrite blen_app; lia).
Qed.

Lemma firm_bind_val {A B} (P : A -> Prop) (m : reader A) (k : A -> reader B) :
  delimited m -> firm m -> yields m P -> (forall a, P a -> firm (k a)) -> firm (sbind m k).
Proof.
  intros Hd Hm HP Hk c e c' t Hc Hu H He. unfold sbind in *. destruct (m c) as [[a|e'|] c1] eqn:E; [| |done].
  - destruct (delimited_app m c a c1 t Hd Hc Hu E) as (-> & Hb & Hc1). rewrite <- Hb in *.
    apply (Hk a (HP _ _ _ Hc E) c1 e c' t); done.
  - injection H as -> <-. destruct (Hm c e c1 t Hc Hu E He) as (c'' & ->). by eexists.
Qed.

Lemma firm_bind {A B} (m : reader A) (k : A -> reader B) :
  delimited m -> firm m -> (forall a, firm (k a)) -> firm (sbind m k).
Proof. intros Hd Hm Hk. eapply firm_bind_val; [done|done|apply yields_any|auto]. Qed.

Lemma firm_for {A} n (body : A -> reader A) a :
  (forall a, delimited (body a)) -> (forall a, firm (body a)) -> firm (for_count n body a).
Proof.
  intros Hd Hb. assert (H : forall k a, delimited (for_nat k body a) /\ firm (for_nat k body a)).
  { induction k as [|k IH]; intros x; simpl; [split; [apply delimited_ret|apply firm_ret]|].
    split; [apply delimited_bind|apply firm_bind]; try done; intros; apply IH. }
  intros c e c' t Hc Hu. rewrite for_count_nat. intros Hx He. destruct (proj2 (H _ _) c e c' t Hc Hu Hx He) as (c'' & Hc'').
  exists c''. by rewrite for_count_nat.
Qed.

Lemma firm_take n : 0 <= n -> firm (Walk.take n).
Proof.
  intros Hn c e c' t [Hc Hl] Hu H He. rewrite blen_app in Hu. pose proof (blen_nonneg t). unfold Walk.take, checked_add64 in *.
  cbn [cb cpos] in *. destruct (cpos c + n <? U64); [|congruence]. destruct (cpos c + n <=? MAX_BYTES); cbn [negb] in *.
  - destruct (blen (cb c) <? cpos c + n); [congruence|]. by destruct (slice _ _ _).
  - injection H as <- <-. by eexists.
Qed.

Lemma firm_consumed : firm consumed.
Proof. intros c e c' t _ _ H _. unfold consumed in H. by destruct (slice (cb c) 0 (cpos c)). Qed.

Lemma firm_byte : firm byte_.
Proof. apply firm_bind; [by apply delimited_take|by apply firm_take|]. intros s. apply firm_bind; [apply delimited_pure|apply firm_pure|]. intros x. apply firm_ret. Qed.

Lemma firm_var_loop l v : firm (var_loop l v).
Proof.
  revert v; induction l as [|s l IH]; intros v; cbn [var_loop]; [apply firm_fail|].
  apply firm_bind; [apply delimited_byte|apply firm_byte|]. intros b.
  apply firm_bind; [apply delimited_sensure|apply firm_sensure|]. intros _.
  apply firm_if; [|apply IH]. apply firm_bind; [apply delimited_sensure|apply firm_sensure|]. intros _. apply firm_ret.
Qed.

Lemma firm_var : firm var.
Proof. apply firm_var_loop. Qed.

Lemma firm_count : firm count.
Proof. apply firm_bind; [apply delimited_var|apply firm_var|]. intros n. apply firm_bind; [apply delimited_sensure|apply firm_sensure|]. intros _. apply firm_ret. Qed.

Lemma firm_blob : firm blob.
Proof.
  apply (firm_bind_val (fun n => 0 <= n)); [apply delimited_var|apply firm_var|apply var_yields|]. intros n Hn.
  apply firm_bind; [by apply delimited_take|by apply firm_take|]. intros _. apply firm_ret.
Qed.
End Firm.

Create HintDb firm.
#[export] Hint Resolve firm_pure firm_ret firm_fail firm_sensure firm_consumed firm_byte firm_var firm_count firm_blob : firm.
#[export] Hint Extern 1 (firm (Walk.take _)) => (apply firm_take; lia) : firm.
#[export] Hint Resolve delimited_key delimited_signature delimited_extensions delimited_receipt delimited_fields
  delimited_header delimited_block : delimited.

Ltac solve_firm :=
  repeat (intros; first
    [ solve [auto with firm] | solve [solve_delimited]
    | apply firm_if | apply firm_for | apply firm_bind ]).

Section FirmBlock.
Import Walk.

Lemma firm_key : firm key.
Proof. unfold key. solve_firm. Qed.

Lemma firm_signature : firm signature.
Proof. unfold signature. solve_firm. Qed.

Lemma firm_extensions : firm extensions.
Proof. unfold extensions. solve_firm. Qed.
End FirmBlock.

#[export] Hint Resolve firm_key firm_signature firm_extensions : firm.

Lemma firm_receipt : firm receipt.
Proof. unfold receipt. solve_firm. Qed.

Lemma firm_fields : firm fields_walk.
Proof. unfold fields_walk. solve_firm. Qed.

#[export] Hint Resolve firm_receipt firm_fields : firm.

Lemma firm_header sha256 : firm (header_walk sha256).
Proof. unfold header_walk. solve_firm. Qed.

#[export] Hint Resolve firm_header : firm.

Lemma firm_block sha256 : firm (block_walk sha256).
Proof. unfold block_walk. solve_firm. Qed.

(** A longer window gives the same answer, or more where it was [Incomplete]. *)
Lemma signed_block_window sha256 w t :
  blen (w ++ t) < U64 ->
  match signed_block sha256 w with
  | Ok (h, e) => 0 <= e <= blen w /\ signed_block sha256 (w ++ t) = Ok (h, e)
  | Err Incomplete => True
  | Err e => signed_block sha256 (w ++ t) = Err e
  | Panic => False
  end.
Proof.
  intros Hu. assert (Hw : cursor_wf (mkCursor w 0)) by (apply new_cursor_wf; rewrite blen_app in Hu; pose proof (blen_nonneg t); lia).
  pose proof (block_walk_safe sha256 _ Hw) as (Hp & _). unfold signed_block.
  destruct (block_walk sha256 (mkCursor w 0)) as [[h|e|] c] eqn:E; [| |done].
  - destruct (delimited_app _ _ _ _ t (delimited_block sha256) Hw Hu E) as (E' & Hb & Hc). cbn [cb cpos] in *. rewrite E'.
    split; [|done]. destruct Hc as [Hc _]. rewrite Hb in Hc. done.
  - assert (He : e <> Incomplete -> exists c'', block_walk sha256 (mkCursor (w ++ t) 0) = (Err e, c'')).
    { intros He. by apply (firm_block sha256 (mkCursor w 0) e c t Hw Hu E He). }
    destruct e; try done; by destruct He as (c'' & ->).
Qed.

(** ** The window *)
Section WindowFacts.
Context {F : Flate} {R : FlateReset F} (zlib : bytes -> option bytes) {L : FlateLaws F zlib}
  {RL : ResetLaws F zlib} (sha256 : bytes -> bytes) (d : Disk).
Hypothesis Hd : disk_ok d.

(** The window holds the bytes of the file at its offset. *)
Record ra_ok (s : ReadAhead) : Prop := {
  rk_offset : 0 <= ra_offset s;
  rk_bytes : slice (d_data d) (ra_offset s) (blen (ra_bytes s)) = Some (ra_bytes s);
  rk_limit : blen (ra_bytes s) <= MAX_BYTES
}.

(** How many bytes from [at_] on are in the window. *)
Definition ra_room (s : ReadAhead) (at_ : Z) : Z := ra_offset s + blen (ra_bytes s) - at_.

Definition rest_at (at_ : Z) : bytes := drop (Z.to_nat at_) (d_data d).

Lemma ra_new_ok : ra_ok ra_new.
Proof. split; simpl; [done| |done]. apply slice_Some. pose proof (blen_nonneg (d_data d)). split_and!; (done || (unfold blen in *; simpl; lia)). Qed.

Lemma ra_room_le s at_ : ra_ok s -> 0 <= at_ <= d_size d -> ra_offset s <= at_ -> ra_room s at_ <= Z.min (d_size d - at_) MAX_BYTES.
Proof.
  intros [H0 Hb Hl] Ha Ho. apply slice_Some in Hb as (_ & _ & Hb & _). unfold ra_room, d_size in *. lia.
Qed.

Lemma blen_rest_at at_ : 0 <= at_ <= d_size d -> blen (rest_at at_) = d_size d - at_.
Proof. intros H. by apply blen_drop. Qed.

Lemma from_spec s at_ :
  ra_ok s -> 0 <= at_ <= d_size d -> ra_offset s <= at_ -> 0 <= ra_room s at_ ->
  from at_ s = Ok (take (Z.to_nat (ra_room s at_)) (rest_at at_)).
Proof.
  intros [H0 Hb Hl] Ha Ho Hr. unfold disk_ok, ra_room in *. unfold from.
  assert (E : sub64 at_ (ra_offset s) = at_ - ra_offset s) by (apply Z.mod_small; width_lia). rewrite E. clear E.
  rewrite (slice_slice _ _ _ _ (at_ - ra_offset s) _ Hb) by lia.
  replace (ra_offset s + (at_ - ra_offset s)) with at_ by lia.
  apply slice_Some in Hb as (_ & _ & Hb & _). unfold d_size in *.
  destruct (slice_is_Some (d_data d) at_ (blen (ra_bytes s) - (at_ - ra_offset s))) as [x Hx]; [lia|lia|lia|].
  rewrite Hx. cbn [or_panic]. apply slice_Some in Hx as (_ & _ & _ & ->). unfold rest_at.
  by replace (blen (ra_bytes s) - (at_ - ra_offset s)) with (ra_offset s + blen (ra_bytes s) - at_) by lia.
Qed.

Lemma load_spec s at_ len :
  ra_ok s -> 0 <= at_ -> 0 < len ->
  match load d at_ len s with
  | (Ok _, s') => ra_ok s' /\ ra_offset s' = at_ /\ ra_room s' at_ = len
  | (Err e, s') => (exists i, e = FIo i) /\ s' = s
  | (Panic, _) => False
  end.
Proof.
  intros Hs Ha Hlen. unfold load. pose proof (disk_read_spec d at_ len ltac:(by apply inside_pos)) as Hr.
  destruct (read d at_ len) as [b|e|]; [|split; [by apply is_io_inv|done]|done]. destruct Hr as [Hsl Hm].
  pose proof (slice_blen _ _ _ _ Hsl) as Hl. split; [|split; [done|unfold ra_room; simpl; lia]].
  split; simpl; [done|by rewrite Hl|lia].
Qed.

(** The outcome of a step of the reader: as [r], or a read the disk failed. *)
Definition as_whole {A} (r : res fault A) (x : res fault A * ReadAhead) : Prop :=
  ra_ok x.2 /\ (x.1 = r \/ exists i, x.1 = Err (FIo i)).

(** The loop reads more until the window is as long as it may get. *)
Lemma block_retry_spec at_ s (b : bytes) :
  0 <= at_ < d_size d -> ra_ok s -> ra_offset s <= at_ -> 0 <= ra_room s at_ -> blen b = ra_room s at_ ->
  match (do! sensure (blen b <? d_size d - at_) FIncompleteBlock ;;
         do! sensure (blen b <? MAX_BYTES) FSafetyLimit ;;
         do! load d at_ (Z.min (Z.min (Z.max (blen b * 2) WINDOW) (d_size d - at_)) MAX_BYTES) ;;
         sret (Cont (S := ()) (R := bytes * bytes * option bytes) ())) s with
  | (Ok (Cont _), s') => (ra_ok s' /\ ra_offset s' <= at_ /\ 0 <= ra_room s' at_) /\
      0 <= MAX_BYTES - ra_room s' at_ < MAX_BYTES - ra_room s at_
  | (Ok (Break _), _) => False
  | (Err e, s') => ra_ok s' /\ ((exists i, e = FIo i) \/
      blen b = Z.min (d_size d - at_) MAX_BYTES /\ e = if blen b <? d_size d - at_ then FSafetyLimit else FIncompleteBlock)
  | (Panic, _) => False
  end.
Proof.
  intros Ha Hs Ho Hr Hb. pose proof (ra_room_le s at_ Hs ltac:(lia) Ho) as Hle. rewrite !sensure_bind.
  destruct (Z.ltb_spec (blen b) (d_size d - at_)).
  2: { split; [done|]. right. split; [lia|done]. }
  destruct (Z.ltb_spec (blen b) MAX_BYTES).
  2: { split; [done|]. right. split; [lia|done]. }
  set (len := Z.min _ _). assert (Hlen : blen b < len <= MAX_BYTES) by (unfold len, WINDOW; change (Z.shiftl 64 10) with 65536; lia).
  pose proof (load_spec s at_ len Hs ltac:(lia) ltac:(lia)) as Hl. rewrite sbind_run.
  destruct (load d at_ len s) as [[[]|e|] s']; [| |done].
  - destruct Hl as (Hs' & Ho' & Hr'). cbn [sret]. split; [|lia]. split; [done|]. lia.
  - destruct Hl as [Hio ->]. split; [done|by left].
Qed.

Lemma window_prefix at_ s :
  0 <= at_ <= d_size d -> ra_ok s -> ra_offset s <= at_ -> 0 <= ra_room s at_ ->
  exists t, take (Z.to_nat MAX_BYTES) (rest_at at_) = take (Z.to_nat (ra_room s at_)) (rest_at at_) ++ t /\
    blen (take (Z.to_nat (ra_room s at_)) (rest_at at_)) = ra_room s at_ /\
    blen (take (Z.to_nat MAX_BYTES) (rest_at at_)) = Z.min (d_size d - at_) MAX_BYTES.
Proof.
  intros Ha Hs Ho Hr. pose proof (ra_room_le s at_ Hs Ha Ho) as Hle. pose proof (blen_rest_at at_ Ha) as Hb.
  exists (drop (Z.to_nat (ra_room s at_)) (take (Z.to_nat MAX_BYTES) (rest_at at_))). split; [|split].
  - rewrite <- (take_drop (Z.to_nat (ra_room s at_)) (take (Z.to_nat MAX_BYTES) (rest_at at_))) at 1. f_equal.
    rewrite take_take. f_equal. lia.
  - apply blen_take. lia.
  - unfold blen in *. rewrite length_take. unfold MAX_BYTES in *. lia.
Qed.

Lemma block_iter_spec at_ s :
  0 <= at_ < d_size d ->
  ra_ok s -> ra_offset s <= at_ -> 0 <= ra_room s at_ ->
  match block_iter sha256 d at_ (d_size d - at_) () s with
  | (Ok (Cont _), s') => (ra_ok s' /\ ra_offset s' <= at_ /\ 0 <= ra_room s' at_) /\
      0 <= MAX_BYTES - ra_room s' at_ < MAX_BYTES - ra_room s at_
  | (Ok (Break p), s') => as_whole (whole_block sha256 (d_size d - at_) (take (Z.to_nat MAX_BYTES) (rest_at at_))) (Ok p, s')
  | (Err e, s') => as_whole (whole_block sha256 (d_size d - at_) (take (Z.to_nat MAX_BYTES) (rest_at at_))) (Err e, s')
  | (Panic, _) => False
  end.
Proof.
  intros Ha Hs Ho Hr. unfold block_iter. rewrite sget_bind, sbind_run. unfold slift.
  rewrite (from_spec s at_ Hs ltac:(lia) Ho Hr). destruct (window_prefix at_ s ltac:(lia) Hs Ho Hr) as (t & HW & Hw & HWl).
  set (w := take (Z.to_nat (ra_room s at_)) (rest_at at_)) in *. set (W := take (Z.to_nat MAX_BYTES) (rest_at at_)) in *. cbv zeta.
  pose proof (signed_block_window sha256 w t) as Hsb. rewrite <- HW, HWl in Hsb. specialize (Hsb ltac:(unfold MAX_BYTES; width_lia)).
  assert (Hretry : forall e s', ra_ok s' ->
    ((exists i, e = FIo i) \/ blen w = Z.min (d_size d - at_) MAX_BYTES /\ e = if blen w <? d_size d - at_ then FSafetyLimit else FIncompleteBlock) ->
    (blen w = blen W -> whole_block sha256 (d_size d - at_) W = Err (if blen w <? d_size d - at_ then FSafetyLimit else FIncompleteBlock)) ->
    as_whole (whole_block sha256 (d_size d - at_) W) (Err e, s')).
  { intros e s' Hs' [Hio|[Hl ->]] Hwh; (split; [done|]); [right; destruct Hio as [i ->]; by exists i|left].
    symmetry. apply Hwh. lia. }
  assert (Hfull : blen w = blen W -> w = W).
  { intros E. rewrite HW in E |- *. rewrite blen_app in E. destruct t; [by rewrite app_nil_r|].
    rewrite blen_cons in E. pose proof (blen_nonneg t). lia. }
  pose proof (block_retry_spec at_ s w Ha Hs Ho Hr Hw) as Hre. set (retry := sbind (sensure _ FIncompleteBlock) _) in *.
  destruct (signed_block sha256 w) as [[h e]|e|] eqn:Es; [| |done].
  - destruct Hsb as [He Hok]. destruct (Z.leb_spec (e + 8) (blen w)).
    + destruct (slice_is_Some w 0 (e + 8)) as [x Hx]; [lia|lia|lia|]. rewrite Hx. cbn [or_panic sbind sret].
      split; [done|]. left. unfold whole_block. rewrite Hok. rewrite (proj2 (Z.leb_le _ _)).
      2: { rewrite HW, blen_app. pose proof (blen_nonneg t). lia. }
      apply (slice_app_l w t) in Hx. rewrite <- HW in Hx. apply slice_Some in Hx as (_ & _ & _ & ->). done.
    + destruct (retry s) as [[[u|p]|f|] s']; [exact Hre|destruct Hre| |destruct Hre]. destruct Hre as [Hs' Hre]. apply Hretry; [done|done|].
      intros E%Hfull. unfold whole_block. rewrite Hok, <- E. by rewrite (proj2 (Z.leb_gt _ _)) by lia.
  - destruct e; try (split; [done|]; left; unfold whole_block; by rewrite Hsb).
    destruct (retry s) as [[[u|p]|f|] s']; [exact Hre|destruct Hre| |destruct Hre]. destruct Hre as [Hs' Hre]. apply Hretry; [done|done|].
    intros E%Hfull. unfold whole_block. rewrite <- E, Es. done.
Qed.

Lemma block_loop_spec at_ s :
  0 <= at_ < d_size d -> ra_ok s -> ra_offset s <= at_ -> 0 <= ra_room s at_ ->
  as_whole (whole_block sha256 (d_size d - at_) (take (Z.to_nat MAX_BYTES) (rest_at at_)))
    (loop_ (block_iter sha256 d at_ (d_size d - at_)) () s).
Proof.
  intros Ha Hs Ho Hr. set (x := loop_ _ _ s).
  cut (as_whole (whole_block sha256 (d_size d - at_) (take (Z.to_nat MAX_BYTES) (rest_at at_))) (x.1, x.2)); [by destruct x|].
  apply (loop_spec (fun _ s => ra_ok s /\ ra_offset s <= at_ /\ 0 <= ra_room s at_) (fun _ s => MAX_BYTES - ra_room s at_)
    (fun r s => as_whole _ (r, s))).
  - intros [] s' (Hs' & Ho' & Hr'). pose proof (block_iter_spec at_ s' Ha Hs' Ho' Hr') as H.
    destruct (block_iter _ _ _ _ _ s') as [[[[]|p]|e|] s2]; [exact H|exact H|exact H|destruct H].
  - done.
  - pose proof (ra_room_le s at_ Hs ltac:(lia) Ho). unfold MAX_BYTES in *. width_lia.
Qed.

(** A load that makes the window long enough. *)
Lemma grow_spec s at_ need len (b : bytes) :
  0 <= at_ -> ra_ok s -> ra_offset s <= at_ -> blen b = ra_room s at_ -> 0 < need <= len ->
  match (if blen b <? need then load d at_ len else sret ()) s with
  | (Ok _, s') => ra_ok s' /\ ra_offset s' <= at_ /\ need <= ra_room s' at_
  | (Err e, s') => (exists i, e = FIo i) /\ ra_ok s'
  | (Panic, _) => False
  end.
Proof.
  intros Ha Hs Ho Hb Hn. destruct (Z.ltb_spec (blen b) need); [|simpl; split; [done|lia]].
  pose proof (load_spec s at_ len Hs Ha ltac:(lia)) as Hl. destruct (load d at_ len s) as [[[]|e|] s']; [| |done].
  - destruct Hl as (? & ? & ?). split; [done|lia].
  - by destruct Hl as [? ->].
Qed.

Lemma slice_take (r : bytes) k n : 0 <= n <= k -> n <= blen r -> slice (take (Z.to_nat k) r) 0 n = Some (take (Z.to_nat n) r).
Proof.
  intros Hn Hr. apply slice_Some. split; [lia|]. split; [lia|].
  assert (Hl : n <= blen (take (Z.to_nat k) r)) by (unfold blen in *; rewrite length_take; lia). split; [lia|].
  change (Z.to_nat 0) with 0%nat. rewrite drop_0, take_take. f_equal. lia.
Qed.

Lemma u64_in_take (r : bytes) k at_ : 0 <= at_ -> at_ + 8 <= k <= blen r -> u64_in (take (Z.to_nat k) r) at_ = u64_in r at_.
Proof.
  intros Ha Hk. assert (E : slice (take (Z.to_nat k) r) at_ 8 = slice r at_ 8).
  { apply same_slice; [unfold same; rewrite take_take; f_equal; lia| |]; unfold blen in *; rewrite ?length_take; lia. }
  unfold u64_in, u64le. by rewrite E.
Qed.

Lemma as_whole_io {A} (r : res fault A) i s : ra_ok s -> as_whole r (Err (FIo i), s).
Proof. intros Hs. split; [done|]. right. by eexists. Qed.

Lemma as_whole_same {A} (r : res fault A) s : ra_ok s -> as_whole r (r, s).
Proof. intros Hs. split; [done|by left]. Qed.

Lemma ship_part_spec at_ s :
  0 <= at_ < d_size d -> ra_ok s -> ra_offset s <= at_ -> 0 <= ra_room s at_ ->
  as_whole (whole_ship (rest_at at_)) (ship_part d at_ (d_size d) s).
Proof.
  intros Ha Hs Ho Hr. pose proof (blen_rest_at at_ ltac:(lia)) as Hb. unfold ship_part, whole_ship.
  rewrite sensure_bind, Hb. destruct (Z.leb_spec 48 (d_size d - at_)); cbn [ensure rbind]; [|by apply as_whole_same].
  assert (Hfrom : forall s', ra_ok s' -> ra_offset s' <= at_ -> 0 <= ra_room s' at_ ->
    from at_ s' = Ok (take (Z.to_nat (ra_room s' at_)) (rest_at at_)) /\
    blen (take (Z.to_nat (ra_room s' at_)) (rest_at at_)) = ra_room s' at_).
  { intros s' H1 H2 H3. split; [apply from_spec; [done|lia|done|done]|]. apply blen_take. pose proof (ra_room_le s' at_ H1 ltac:(lia) H2). lia. }
  destruct (Hfrom s Hs Ho Hr) as [Ef Eb]. rewrite sget_bind, sbind_run. unfold slift at 1. rewrite Ef, sbind_run.
  pose proof (grow_spec s at_ 48 (Z.min (d_size d - at_) WINDOW) _ ltac:(lia) Hs Ho Eb
    ltac:(unfold WINDOW; change (Z.shiftl 64 10) with 65536; lia)) as Hg.
  set (g := if blen _ <? 48 then load _ _ _ else sret ()) in *. destruct (g s) as [[u|e|] s1]; [|destruct Hg as [[i ->] Hs1]; by apply as_whole_io|done].
  destruct Hg as (Hs1 & Ho1 & Hr1). destruct (Hfrom s1 Hs1 Ho1 ltac:(lia)) as [Ef1 Eb1].
  rewrite sget_bind, sbind_run. unfold slift at 1. rewrite Ef1, sbind_run. unfold slift at 1. rewrite slice_take by lia.
  cbn [or_panic]. rewrite sbind_run. unfold slift at 1. rewrite u64_in_take by lia.
  destruct (u64_in_total (rest_at at_) 0) as (magic & -> & _); [lia|lia|]. cbn [rbind]. rewrite sbind_run. unfold slift at 1.
  destruct (check_magic magic) as [u'|e|]; cbn [rbind]; [|by apply as_whole_same|by apply as_whole_same].
  rewrite sbind_run. unfold slift at 1. rewrite u64_in_take by lia.
  destruct (u64_in_total (rest_at at_) 40) as (payload & -> & Hpu); [lia|lia|]. cbn [rbind]. rewrite sbind_run. unfold slift at 1.
  destruct (checked_add64 payload 56) as [len|] eqn:El; cbn [or_err rbind]; [|by apply as_whole_same].
  apply checked_add64_Some in El as [-> Hlu]. destruct Hpu as [Hp0 _]. rewrite !sensure_bind.
  destruct (Z.leb_spec (payload + 56) MAX_BYTES); cbn [ensure rbind]; [|by apply as_whole_same].
  destruct (Z.leb_spec (payload + 56) (d_size d - at_)); cbn [ensure rbind]; [|by apply as_whole_same].
  rewrite sbind_run. pose proof (grow_spec s1 at_ (payload + 56) (Z.min (Z.max (payload + 56) WINDOW) (d_size d - at_)) _ ltac:(lia) Hs1 Ho1 Eb1
    ltac:(lia)) as Hg.
  set (g2 := if blen _ <? payload + 56 then load _ _ _ else sret ()) in *. destruct (g2 s1) as [[u2|e|] s2]; [|destruct Hg as [[i ->] Hs2]; by apply as_whole_io|done].
  destruct Hg as (Hs2 & Ho2 & Hr2). destruct (Hfrom s2 Hs2 Ho2 ltac:(lia)) as [Ef2 Eb2].
  rewrite sget_bind, sbind_run. unfold slift at 1. rewrite Ef2, sbind_run. unfold slift at 1. rewrite slice_take by lia.
  cbn [or_panic]. rewrite sbind_run. unfold slift at 1. rewrite blen_take by lia. rewrite slice_take by lia. cbn [or_panic].
  rewrite sbind_run. unfold slift at 1. destruct (checked_ship_id _) as [id|e|]; cbn [rbind]; by apply as_whole_same.
Qed.

Lemma entry_spec at_ kind s :
  0 <= at_ < d_size d -> ra_ok s -> as_whole (whole_entry sha256 kind (d_data d) at_) (entry sha256 d at_ (d_size d) kind s).
Proof.
  intros Ha Hs. unfold entry. rewrite sget_bind, sbind_run.
  assert (Hinit : match (if (at_ <? ra_offset s) || (ra_offset s + blen (ra_bytes s) <=? at_)
       then load d at_ (Z.min (d_size d - at_) WINDOW) else sret ()) s with
    | (Ok _, s') => ra_ok s' /\ ra_offset s' <= at_ /\ 0 <= ra_room s' at_
    | (Err e, s') => (exists i, e = FIo i) /\ ra_ok s'
    | (Panic, _) => False
    end).
  { destruct (_ || _) eqn:E.
    - assert (Hl : 0 < Z.min (d_size d - at_) WINDOW) by (unfold WINDOW; change (Z.shiftl 64 10) with 65536; lia).
      pose proof (load_spec s at_ _ Hs ltac:(lia) Hl) as Hld. destruct (load d at_ _ s) as [[[]|e|] s']; [| |done].
      + destruct Hld as (? & ? & ?). split; [done|lia].
      + by destruct Hld as [? ->].
    - apply orb_false_iff in E as [?%Z.ltb_ge ?%Z.leb_gt]. simpl. unfold ra_room. split; [done|lia]. }
  set (g := if _ || _ then load _ _ _ else sret ()) in *. destruct (g s) as [[u|e|] s1]; [|destruct Hinit as [[i ->] Hs1]; by apply as_whole_io|done].
  destruct Hinit as (Hs1 & Ho1 & Hr1). rewrite sbind_run. unfold whole_entry. fold (rest_at at_). rewrite (blen_rest_at at_) by lia.
  assert (Hpart : as_whole (if is_blocks kind then whole_block sha256 (d_size d - at_) (take (Z.to_nat MAX_BYTES) (rest_at at_)) else whole_ship (rest_at at_))
    ((if is_blocks kind then loop_ (block_iter sha256 d at_ (d_size d - at_)) () else ship_part d at_ (d_size d)) s1)).
  { destruct (is_blocks kind); [by apply block_loop_spec|by apply ship_part_spec]. }
  set (g2 := if is_blocks kind then loop_ _ _ else ship_part _ _ _) in *.
  set (wh := if is_blocks kind then whole_block _ _ _ else whole_ship _) in *. destruct (g2 s1) as [r s2]. destruct Hpart as [Hs2 [Er|[i Er]]]; cbn [fst snd] in *; subst r.
  - destruct wh as [[[x id] previous]|e|]; cbn [rbind]; [|by apply as_whole_same|by apply as_whole_same].
    rewrite sbind_run. unfold slift. destruct (u64_in x (blen x - 8)) as [tr|e|]; cbn [rbind]; [|by apply as_whole_same|by apply as_whole_same].
    rewrite sensure_bind. destruct (tr =? at_); cbn [ensure rbind]; by apply as_whole_same.
  - by apply as_whole_io.
Qed.

(** A slot of the index, through the same window. *)
Lemma index_position_spec at_ s :
  0 <= at_ -> at_ + 8 <= d_size d -> ra_ok s -> as_whole (u64_in (d_data d) at_) (index_position d at_ (d_size d) s).
Proof.
  intros Ha Hsz Hs. unfold index_position. rewrite sensure_bind. unfold disk_ok in Hd.
  assert (Hc : checked_add64 at_ 8 = Some (at_ + 8)) by (apply checked_add64_Some; width_lia).
  rewrite Hc, (proj2 (Z.leb_le _ _)) by lia. rewrite sget_bind, sbind_run.
  assert (Hinit : match (if (at_ <? ra_offset s) || (ra_offset s + blen (ra_bytes s) <? at_ + 8)
       then load d at_ (Z.min (d_size d - at_) WINDOW) else sret ()) s with
    | (Ok _, s') => ra_ok s' /\ ra_offset s' <= at_ /\ 8 <= ra_room s' at_
    | (Err e, s') => (exists i, e = FIo i) /\ ra_ok s'
    | (Panic, _) => False
    end).
  { destruct (_ || _) eqn:E.
    - assert (Hl : 8 <= Z.min (d_size d - at_) WINDOW) by (unfold WINDOW; change (Z.shiftl 64 10) with 65536; lia).
      pose proof (load_spec s at_ (Z.min (d_size d - at_) WINDOW) Hs ltac:(lia) ltac:(lia)) as Hld.
      destruct (load d at_ _ s) as [[[]|e|] s']; [| |done].
      + destruct Hld as (? & ? & ?). split; [done|lia].
      + by destruct Hld as [? ->].
    - apply orb_false_iff in E as [?%Z.ltb_ge ?%Z.ltb_ge]. simpl. unfold ra_room. split; [done|lia]. }
  set (g := if _ || _ then load _ _ _ else sret ()) in *. destruct (g s) as [[u|e|] s1]; [|destruct Hinit as [[i ->] Hs1]; by apply as_whole_io|done].
  destruct Hinit as (Hs1 & Ho1 & Hr1). rewrite sget_bind, sbind_run. unfold slift.
  rewrite from_spec by (done || lia). pose proof (ra_room_le s1 at_ Hs1 ltac:(lia) Ho1). pose proof (blen_rest_at at_ ltac:(lia)).
  rewrite u64_in_take by lia.
  assert (E : u64_in (rest_at at_) 0 = u64_in (d_data d) at_); [|rewrite E; by apply as_whole_same].
  unfold u64_in, u64le. f_equal. f_equal. f_equal. unfold rest_at. symmetry.
  rewrite <- (take_drop (Z.to_nat at_) (d_data d)) at 1. unfold d_size in *.
  rewrite slice_app_r; rewrite blen_take by lia; [f_equal; lia|lia].
Qed.
End WindowFacts.

(** ** What an entry is *)
Section Entries.
Context {F : Flate} {R : FlateReset F} (zlib : bytes -> option bytes) {L : FlateLaws F zlib}
  {RL : ResetLaws F zlib} (sha256 : bytes -> bytes).

(** A whole signed block, or a SHIP body whose payload inflates. *)
Definition entry_of (kind : Kind) (body id : bytes) (previous : option bytes) : Prop :=
  if is_blocks kind then exists h, signed_block sha256 body = Ok (h, blen body) /\ id = hd_id h /\ previous = Some (hd_previous h)
  else previous = None /\ exists raw, ship_body zlib body id raw.

(** The entry at [at_]: a body and the trailer that names the offset. *)
Record entry_at_of (kind : Kind) (data : bytes) (at_ : Z) (e : Entry) (body : bytes) : Prop := {
  ea_offset : e_offset e = at_;
  ea_bytes : e_bytes e = body ++ le_bytes 8 at_;
  ea_slice : slice data at_ (blen (e_bytes e)) = Some (e_bytes e);
  ea_limit : blen (e_bytes e) <= MAX_BYTES;
  ea_of : entry_of kind body (e_id e) (e_previous e)
}.

Lemma signed_block_cut b h e :
  blen b < U64 -> signed_block sha256 b = Ok (h, e) ->
  0 <= e <= blen b /\ signed_block sha256 (take (Z.to_nat e) b) = Ok (h, e).
Proof.
  intros Hb. unfold signed_block. destruct (block_walk sha256 (mkCursor b 0)) as [[x|?|] c] eqn:E; [|done|done].
  intros [= -> <-]. destruct (delimited_block sha256 _ _ _ (new_cursor_wf b Hb) E) as (_ & Hp & Hl). cbn [cb cpos] in *.
  split; [done|]. assert (Ht : blen (take (Z.to_nat (cpos c)) b) = cpos c) by (by apply blen_take).
  specialize (Hl (take (Z.to_nat (cpos c)) b) ltac:(lia)). rewrite Ht, Z.min_id, Z.leb_refl in Hl.
  rewrite Hl; [done|]. unfold same. rewrite take_take. f_equal. lia.
Qed.

Lemma take_app_exact (x t : bytes) n : n = blen x -> take (Z.to_nat n) (x ++ t) = x.
Proof. intros ->. unfold blen. by rewrite Nat2Z.id, take_app_length. Qed.

Lemma drop_app_exact (x t : bytes) n : n = blen x -> drop (Z.to_nat n) (x ++ t) = t.
Proof. intros ->. unfold blen. by rewrite Nat2Z.id, drop_app_length. Qed.

Lemma whole_block_spec avail w x id previous :
  blen w < U64 ->
  (whole_block sha256 avail w = Ok (x, id, previous) <->
   exists h e, signed_block sha256 (take (Z.to_nat e) w) = Ok (h, e) /\ 0 <= e /\ e + 8 <= blen w /\
     x = take (Z.to_nat (e + 8)) w /\ id = hd_id h /\ previous = Some (hd_previous h)).
Proof.
  intros Hw. unfold whole_block. split.
  - destruct (signed_block sha256 w) as [[h e]|[]|] eqn:E; try done. destruct (Z.leb_spec (e + 8) (blen w)); [|done].
    intros [= <- <- <-]. destruct (signed_block_cut w h e Hw E) as [He Hc]. exists h, e.
    split; [done|]. split; [lia|]. split; [done|]. done.
  - intros (h & e & Hs & He & Hle & -> & -> & ->). assert (Hl : blen (take (Z.to_nat e) w) = e) by (apply blen_take; lia).
    pose proof (signed_block_window sha256 (take (Z.to_nat e) w) (drop (Z.to_nat e) w)) as Hwin. rewrite take_drop, Hs in Hwin.
    destruct (Hwin Hw) as [_ ->]. by rewrite (proj2 (Z.leb_le _ _)).
Qed.

Lemma slice_rest_at (data : bytes) at_ n : 0 <= at_ <= blen data -> slice data at_ n = slice (drop (Z.to_nat at_) data) 0 n.
Proof.
  intros Ha. rewrite <- (take_drop (Z.to_nat at_) data) at 1.
  rewrite slice_app_r; rewrite blen_take by lia; [f_equal; lia|lia].
Qed.

(** An entry with its trailer, in terms of the bytes from its offset. *)
Lemma entry_at_intro kind data at_ e body t :
  0 <= at_ <= blen data -> drop (Z.to_nat at_) data = body ++ le_bytes 8 at_ ++ t -> e_offset e = at_ ->
  e_bytes e = body ++ le_bytes 8 at_ -> blen body + 8 <= MAX_BYTES -> entry_of kind body (e_id e) (e_previous e) ->
  entry_at_of kind data at_ e body.
Proof.
  intros Ha Hr Ho Hb Hl He. assert (Hlen : blen (e_bytes e) = blen body + 8) by (by rewrite Hb, blen_app, blen_le_bytes).
  split; [done|done| |lia|done]. rewrite slice_rest_at, Hr, Hb, app_assoc by done. by apply (slice_mid []).
Qed.

Lemma entry_at_rest kind data at_ e body :
  0 <= at_ <= blen data -> entry_at_of kind data at_ e body ->
  exists t, drop (Z.to_nat at_) data = body ++ le_bytes 8 at_ ++ t.
Proof.
  intros Ha [_ Hb Hs _ _]. rewrite slice_rest_at in Hs by done. apply slice_Some in Hs as (_ & _ & _ & Hs).
  exists (drop (Z.to_nat (blen (e_bytes e))) (drop (Z.to_nat at_) data)). rewrite app_assoc, <- Hb. rewrite Hs at 1. change (Z.to_nat 0) with 0%nat.
  by rewrite drop_0, take_drop.
Qed.

Lemma whole_entry_sound kind data at_ e :
  0 <= at_ < blen data -> blen data < 2 ^ 63 -> whole_entry sha256 kind data at_ = Ok e -> exists body, entry_at_of kind data at_ e body.
Proof.
  intros Ha Hu. unfold whole_entry. set (r := drop (Z.to_nat at_) data). assert (Hr : blen r = blen data - at_) by (apply blen_drop; lia).
  intros H. bind H as p Hp. destruct p as [[x id] previous]. bind H as tr Htr. guard H as He. apply Z.eqb_eq in He. subst tr. injection H as <-.
  assert (Hx : exists body t, r = x ++ t /\ blen x = blen body + 8 /\ take (Z.to_nat (blen body)) x = body /\ blen x <= MAX_BYTES /\ entry_of kind body id previous).
  { unfold entry_of. destruct (is_blocks kind).
    - set (w := take (Z.to_nat MAX_BYTES) r) in *. assert (Hw : blen w <= MAX_BYTES) by (unfold w, blen, MAX_BYTES; rewrite length_take; lia).
      apply whole_block_spec in Hp as (h & e & Hs & He0 & Hle & -> & -> & ->); [|unfold MAX_BYTES in Hw; width_lia].
      assert (Hl : blen (take (Z.to_nat e) w) = e) by (apply blen_take; lia).
      exists (take (Z.to_nat e) w), (drop (Z.to_nat (e + 8)) w ++ drop (Z.to_nat MAX_BYTES) r).
      split; [by rewrite app_assoc, take_drop; unfold w; rewrite take_drop|]. rewrite !blen_take by lia. split; [done|].
      split; [rewrite take_take; f_equal; lia|]. split; [lia|]. exists h. done.
    - unfold whole_ship in Hp. guard Hp as H48. bind Hp as magic Hm. bind Hp as u Hcm. bind Hp as payload Hpl. bind Hp as len Hlen.
      apply or_err_Ok, checked_add64_Some in Hlen as [-> Hlu]. guard Hp as Hmax. guard Hp as Hle. bind Hp as id' Hid. injection Hp as <- <- <-. bools.
      assert (Hp0 : 0 <= payload) by (apply u64_in_Ok in Hpl as (s & Hs & <-); apply le_of_range).
      exists (take (Z.to_nat (payload + 56 - 8)) r), (drop (Z.to_nat (payload + 56)) r).
      rewrite take_drop, !blen_take by lia. split; [done|]. split; [lia|]. split; [rewrite take_take; f_equal; lia|]. split; [lia|].
      split; [done|]. apply (checked_ship_id_Ok zlib) in Hid; [done|]. rewrite blen_take by lia. lia. }
  destruct Hx as (body & t & Hrt & Hxl & Hxb & Hlim & Hof). pose proof (blen_nonneg body).
  pose proof (trailer_split x (blen x) at_ ltac:(lia) ltac:(done)) as Hsp. rewrite (drop_ge x), app_nil_r in Hsp by (unfold blen; lia).
  replace (blen x - 8) with (blen body) in Hsp by lia. rewrite Hxb in Hsp.
  exists body. apply (entry_at_intro _ _ _ _ _ t); simpl; [lia| |done|done|lia|done]. fold r. by rewrite Hrt, Hsp at 1; rewrite <- app_assoc.
Qed.

Lemma whole_entry_complete kind data at_ e body :
  0 <= at_ < blen data -> blen data < 2 ^ 63 -> entry_at_of kind data at_ e body -> whole_entry sha256 kind data at_ = Ok e.
Proof.
  intros Ha Hu He. destruct (entry_at_rest kind data at_ e body ltac:(lia) He) as (t & Hr). destruct He as [Ho Hb Hs Hl Hof].
  assert (Hlen : blen (e_bytes e) = blen body + 8) by (by rewrite Hb, blen_app, blen_le_bytes).
  assert (Hrl : blen (drop (Z.to_nat at_) data) = blen data - at_) by (apply blen_drop; lia).
  unfold whole_entry. cbv zeta. set (r := drop (Z.to_nat at_) data) in *. pose proof (blen_nonneg body).
  assert (Hrb : blen body + 8 <= blen r) by (rewrite Hr, !blen_app, blen_le_bytes; pose proof (blen_nonneg t); lia).
  assert (Hp : (if is_blocks kind then whole_block sha256 (blen r) (take (Z.to_nat MAX_BYTES) r) else whole_ship r)
    = Ok (body ++ le_bytes 8 at_, e_id e, e_previous e)).
  { unfold entry_of in Hof. destruct (is_blocks kind).
    - destruct Hof as (h & Hsb & -> & ->). set (w := take (Z.to_nat MAX_BYTES) r). assert (Hw : blen w = Z.min MAX_BYTES (blen r)).
      { unfold w, blen, MAX_BYTES. rewrite length_take. lia. }
      assert (Ht : forall n, n <= blen body + 8 -> take (Z.to_nat n) w = take (Z.to_nat n) r) by (intros n Hn; unfold w; rewrite take_take; f_equal; lia).
      apply whole_block_spec; [width_lia|]. exists h, (blen body). rewrite !Ht by lia. rewrite Hr at 1. rewrite take_app_exact by done.
      split; [exact Hsb|]. split; [lia|]. split; [lia|]. split; [|split; reflexivity]. rewrite Hr, app_assoc. symmetry. apply take_app_exact.
      by rewrite blen_app, blen_le_bytes.
    - destruct Hof as [-> [raw Hsb]]. destruct (ship_body_size zlib body _ raw ltac:(width_lia) Hsb) as (H40 & H52 & _).
      pose proof Hsb as (m & dt & [_ _ _ Hbody] & _). unfold whole_ship.
      rewrite (proj2 (Z.leb_le 48 _)) by lia. cbn [ensure rbind].
      assert (H0 : u64_in r 0 = Ok SHIP_MAGIC) by (rewrite Hr; apply u64_in_app; rewrite Hbody; by rewrite u64_at_0).
      rewrite H0. cbn [rbind]. rewrite (proj2 (check_magic_Ok _ tt) eq_refl). cbn [rbind]. rewrite Hr at 1. rewrite (u64_in_app _ _ _ _ H40). cbn [rbind].
      assert (Hca : checked_add64 (blen body - 48) 56 = Some (blen body + 8)) by (apply checked_add64_Some; width_lia).
      rewrite Hca. cbn [or_err rbind]. rewrite (proj2 (Z.leb_le _ MAX_BYTES)), (proj2 (Z.leb_le _ (blen r))) by lia. cbn [ensure rbind].
      replace (blen body + 8 - 8) with (blen body) by lia. rewrite Hr at 1. rewrite take_app_exact by done.
      rewrite (proj2 (checked_ship_id_Ok zlib body (e_id e) ltac:(width_lia)) (ex_intro _ raw Hsb)). cbn [rbind].
      rewrite Hr, app_assoc, take_app_exact by (by rewrite blen_app, blen_le_bytes). done. }
  rewrite Hp. cbn [rbind]. rewrite blen_app, blen_le_bytes. change (Z.of_nat 8) with 8.
  assert (Hat : is_u64 at_) by width_lia.
  rewrite <- (app_nil_r (le_bytes 8 at_)), (trailer_of body at_ [] (blen body + 8) eq_refl Hat).
  cbn [rbind]. rewrite Z.eqb_refl. cbn [ensure rbind]. rewrite app_nil_r, <- Hb, <- Ho. clear. by destruct e.
Qed.

Lemma whole_entry_no_panic kind data at_ : 0 <= at_ < blen data -> blen data < 2 ^ 63 -> is_panic (whole_entry sha256 kind data at_) = false.
Proof.
  intros Ha Hu. unfold whole_entry. set (r := drop (Z.to_nat at_) data). assert (Hr : blen r = blen data - at_) by (apply blen_drop; lia).
  set (p := if is_blocks kind then _ else _).
  assert (Hp : match p with Ok (x, _, _) => 8 <= blen x | Err _ => True | Panic => False end).
  { unfold p. destruct (is_blocks kind).
    - set (w := take (Z.to_nat MAX_BYTES) r). assert (Hw : blen w <= MAX_BYTES) by (unfold w, blen, MAX_BYTES; rewrite length_take; lia).
      unfold whole_block. pose proof (signed_block_window sha256 w []) as Hwin. rewrite app_nil_r in Hwin.
      specialize (Hwin ltac:(unfold MAX_BYTES in Hw; width_lia)). destruct (signed_block sha256 w) as [[h e]|[]|]; try done.
      destruct (Z.leb_spec (e + 8) (blen w)); [|done]. rewrite blen_take by lia. lia.
    - unfold whole_ship. destruct (Z.leb_spec 48 (blen r)); [|done]. cbn [ensure rbind].
      destruct (u64_in_total r 0) as (m & -> & _); [lia|lia|]. cbn [rbind]. unfold check_magic. destruct (unsupported_ship_magic m); [done|]. cbn [rbind].
      destruct (u64_in_total r 40) as (q & -> & Hq); [lia|lia|]. cbn [rbind]. destruct (checked_add64 q 56) as [len|] eqn:El; [|done]. cbn [or_err rbind].
      apply checked_add64_Some in El as [-> _]. destruct Hq as [Hq _].
      destruct (Z.leb_spec (q + 56) MAX_BYTES); [|done]. cbn [ensure rbind]. destruct (Z.leb_spec (q + 56) (blen r)); [|done]. cbn [ensure rbind].
      pose proof (checked_ship_id_no_panic zlib (take (Z.to_nat (q + 56 - 8)) r) ltac:(rewrite blen_take by lia; unfold MAX_BYTES in *; width_lia)) as Hn.
      destruct (checked_ship_id _) as [id|e|]; [|done|done]. cbn [rbind]. rewrite blen_take by lia. lia. }
  destruct p as [[[x id] previous]|e|]; [|done|done]. cbn [rbind]. destruct (u64_in_total x (blen x - 8)) as (tr & -> & _); [lia|lia|].
  cbn [rbind]. by destruct (tr =? at_).
Qed.
End Entries.

(** ** Properties *)

(** C31: [ReadAhead::entry], from any state its window can be in, gives exactly the entry at the offset: a
    whole signed block or a SHIP body whose payload inflates to its declared size, within [MAX_BYTES], followed
    by a trailer that names the offset. Otherwise it refuses for the reason that parsing all the bytes from
    the offset at once would give, or because the disk failed a read; the doubling ends, the window stays a
    faithful copy of the file, and nothing panics. *)
Theorem read_ahead_exact (F : Flate) (R : FlateReset F) (zlib : bytes -> option bytes) (L : FlateLaws F zlib)
    (RL : ResetLaws F zlib) (sha256 : bytes -> bytes) (d : Disk) (kind : Kind) (at_ : Z) (s : ReadAhead)
    (Hd : disk_ok d) (Hat : 0 <= at_ < d_size d) (Hs : ra_ok d s) :
  let '(r, s') := entry sha256 d at_ (d_size d) kind s in
  ra_ok d s' /\ is_panic r = false /\
  (r = whole_entry sha256 kind (d_data d) at_ \/ exists i, r = Err (FIo i)) /\
  (forall e, r = Ok e -> exists body, entry_at_of zlib sha256 kind (d_data d) at_ e body) /\
  (forall e body, entry_at_of zlib sha256 kind (d_data d) at_ e body -> r = Ok e \/ exists i, r = Err (FIo i)).
Proof.
  pose proof (entry_spec sha256 d Hd at_ kind s Hat Hs) as Hw. destruct (entry sha256 d at_ (d_size d) kind s) as [r s'].
  destruct Hw as [Hs' Hr]. cbn [fst snd] in *. unfold d_size, disk_ok in *. split; [done|].
  split; [destruct Hr as [->|[i ->]]; [by apply (whole_entry_no_panic zlib)|done]|]. split; [done|].
  split.
  - intros e ->. destruct Hr as [Hr|[i Hr]]; [|done]. by apply (whole_entry_sound zlib sha256).
  - intros e body He. pose proof (whole_entry_complete zlib sha256 _ _ _ _ _ Hat Hd He) as Hw. destruct Hr as [->|Hr]; [by left|by right].
Qed.

(** Example: block 2 of a block log after a preamble of 126 bytes. *)
Definition exr_log : bytes := exf_preamble ++ exf_block ++ le_bytes 8 (blen exf_preamble) ++ [x00; x01; x02].

Lemma read_ahead_exact_witness :
  exists e body, entry_at_of zlib_level0 exf_sha Blocks exr_log (blen exf_preamble) e body /\ e_number e = 2.
Proof.
  pose proof (read_ahead_exact level0 level0_reset zlib_level0 level0_laws level0_reset_laws exf_sha (sound_disk exr_log) Blocks
    (blen exf_preamble) ra_new ltac:(vm_compute; reflexivity) ltac:(vm_compute; intuition congruence) (ra_new_ok _)) as H.
  destruct (entry exf_sha (sound_disk exr_log) (blen exf_preamble) (d_size (sound_disk exr_log)) Blocks ra_new) as [r s'] eqn:E.
  vm_compute in E. injection E as Er _. destruct H as (_ & _ & _ & H & _). rewrite <- Er in H.
  destruct (H _ eq_refl) as [body Hb]. eexists _, body. split; [exact Hb|]. vm_compute. reflexivity.
Defined.
