(* ===== verification/TailWalk.v ===== *)
(** * Walking a torn log ([crates/log-repair/src/tail.rs], [Loaded] of [repair.rs])

    [walk] reads the physical entries of a log from its start, with or without an index and trusted block
    sources, keeps the ones that continue the chain, leaves out the fork entries the sources identify, and
    stops at the first byte it cannot classify. What it does with an entry it keeps is a callback: the state
    of the caller is a parameter here, and so is the allocator ([capacity], what [Vec::capacity] answers).
    Digests are kept as the bytes fed to them; [sha256] is applied where the code finalizes them. *)

From S2P Require Import Prelude.
From S2P Require Import Errors.
From S2P Require Import Cursor.
From S2P Require Import Binio.
From S2P Require Import Zlib.
From S2P Require Import Framing.
From S2P Require Import Disk.
From S2P Require Import ShipPayload.
From S2P Require Import RepairLog.
From S2P Require Import ReadAhead.
From Stdlib Require Import Sorted.

(** ** RecentCanonical *)

Definition RECENT_CANONICAL_BLOCKS : Z := 4096.
Definition RECENT_CANONICAL_BYTES : Z := Z.shiftl 4 20.

Record RememberedEntry := mkRemembered { rm_entry : Entry; rm_unmatched_index : option Z }.

(** The deque, its front first, and the bytes its entries hold. *)
Record RecentCanonical := mkRecent { rc_entries : list RememberedEntry; rc_bytes : Z }.

Definition recent_default : RecentCanonical := mkRecent [] 0.

Section Recent.
Context (capacity : bytes -> Z).

Definition forget_first (r : RecentCanonical) : RecentCanonical :=
  match rc_entries r with
  | [] => r
  | old :: rest => mkRecent rest (sub64 (rc_bytes r) (capacity (e_bytes (rm_entry old))))
  end.

(** [while p { forget_first }]; a loop that would not end is a [Panic]. *)
Fixpoint forget_while (fuel : nat) (p : RecentCanonical -> bool) (r : RecentCanonical) : res fault RecentCanonical :=
  if p r then match fuel with O => Panic | S fuel => forget_while fuel p (forget_first r) end else Ok r.

Definition is_old (number : Z) (r : RecentCanonical) : bool :=
  match rc_entries r with
  | old :: _ => RECENT_CANONICAL_BLOCKS <=? sat_sub number (e_number (rm_entry old))
  | [] => false
  end.

Definition remember (e : Entry) (unmatched_index : option Z) (r : RecentCanonical) : res fault RecentCanonical :=
  let? r := forget_while (length (rc_entries r)) (is_old (e_number e)) r in
  let cost := capacity (e_bytes e) in
  if RECENT_CANONICAL_BYTES <? cost then Ok r
  else
    let? r := forget_while (length (rc_entries r)) (fun r => RECENT_CANONICAL_BYTES <? rc_bytes r + cost) r in
    Ok (mkRecent (rc_entries r ++ [mkRemembered e unmatched_index]) (rc_bytes r + cost)).

(** The search of [duplicate], over the entries from the back. *)
Fixpoint duplicate_rev (e : Entry) (l : list RememberedEntry) : res fault (option bool * list RememberedEntry) :=
  match l with
  | [] => Ok (None, [])
  | old :: l =>
      if e_number (rm_entry old) =? e_number e then
        let? a := e_body (rm_entry old) in
        let? b := e_body e in
        if negb (bool_decide (a = b)) then Ok (None, old :: l)
        else
          let indexed := bool_decide (rm_unmatched_index old = Some (e_offset e)) in
          Ok (Some indexed, (if indexed then mkRemembered (rm_entry old) None else old) :: l)
      else
        let? r := duplicate_rev e l in
        Ok (r.1, old :: r.2)
  end.

Definition duplicate (e : Entry) (r : RecentCanonical) : res fault (option bool * RecentCanonical) :=
  let? x := duplicate_rev e (reverse (rc_entries r)) in
  Ok (x.1, mkRecent (reverse x.2) (rc_bytes r)).
End Recent.

(** ** Trusted block sources *)

Record Loaded := mkLoaded { ld_containers : Blocks_map; ld_block_logs : list Log.t; ld_donors : list Log.t }.

Section Walk.
Context {F : Flate} {R : FlateReset F} (sha256 : bytes -> bytes) (capacity : bytes -> Z).

Definition holds (n : Z) (l : Log.t) : bool := (Log.first l <=? n) && (n <=? Log.last l).

Fixpoint block_in (n : Z) (logs : list Log.t) (found : option bytes) : res fault (option bytes) :=
  match logs with
  | [] => Ok found
  | l :: logs =>
      if holds n l then
        let? body := Log.body sha256 l n in
        let? found := match found with
                      | Some seen => do? ensure (bool_decide (seen = body)) (FSourcesDisagree n) ;; Ok (Some seen)
                      | None => Ok (Some body)
                      end in
        block_in n logs found
      else block_in n logs found
  end.

(** [Loaded::block]. *)
Definition block (ld : Loaded) (n : Z) : res fault (option bytes) :=
  block_in n (ld_block_logs ld) (bt_get n (ld_containers ld)).

(** ** walk *)

(** Why a walk stopped before the end of the file. *)
Inductive reason :=
| RFault (e : fault)
| RNoEvidence (n : Z)
| RNumber (next n : Z)
| RUnlinked (n : Z)
| RDiffers (n : Z).

Record Failure := mkFailure { f_offset : Z; f_next_block : Z; f_reason : reason }.

Record Summary := mkSummary {
  sm_first_block : Z; sm_last_block : option Z; sm_entries : Z; sm_physical_prefix_end : Z;
  sm_physical_prefix_sha256 : bytes; sm_excluded_suffix_sha256 : bytes; sm_excluded_suffix_bytes : Z;
  sm_omitted_fork_entries : Z; sm_reference_checked_entries : Z; sm_input_sha256 : bytes;
  sm_reference_evidence_sha256 : bytes; sm_index_present : bool; sm_index_bytes : Z; sm_index_partial_bytes : Z;
  sm_index_discrepancies : Z; sm_index_sha256 : option bytes; sm_index_prefix_sha256 : option bytes;
  sm_index_suffix_sha256 : option bytes; sm_indexed_head_hint : option Z; sm_failure : option Failure
}.

(** The bytes [from..to], read in pieces of 16 MiB, after what was hashed before. *)
Definition hash_iter (d : Disk) (to : Z) (a : Z * bytes) : M fault () (ctl (Z * bytes) bytes) :=
  let '(from, acc) := a in
  if from <? to then
    let n := Z.min (to - from) (Z.shiftl 16 20) in
    let! b := slift (read d from n) in
    sret (Cont (from + n, acc ++ b))
  else sret (Break acc).

Definition hash_range (d : Disk) (from to : Z) (acc : bytes) : res fault bytes :=
  (loop_ (hash_iter d to) (from, acc) tt).1.

(** [hash_suffix]: the digest of the bytes alone, and the running one with them. *)
Definition hash_suffix (d : Disk) (at_ end_ : Z) (all : bytes) : res fault (bytes * bytes) :=
  let? tail := hash_range d at_ end_ [] in
  Ok (sha256 tail, all ++ tail).

Section Run.
Context {S : Type} (accept : Entry -> M fault S ()).
Context (d : Disk) (index : option Disk) (kind : Kind) (begin : Start) (refs : option Loaded).

(** The variables of the loop. *)
Record wstate := mkW {
  w_at : Z; w_next : Z; w_entries : Z; w_orphans : Z; w_compared : Z; w_discrepancies : Z;
  w_previous : option bytes; w_recent : RecentCanonical; w_hash : bytes; w_evidence : bytes;
  w_reader : ReadAhead; w_index_reader : ReadAhead; w_user : S
}.

Definition index_bytes : Z := match index with Some i => d_size i | None => 0 end.

Definition set_reader (rd : ReadAhead) (w : wstate) : wstate :=
  mkW (w_at w) (w_next w) (w_entries w) (w_orphans w) (w_compared w) (w_discrepancies w) (w_previous w) (w_recent w)
    (w_hash w) (w_evidence w) rd (w_index_reader w) (w_user w).

Definition add_evidence (b : bytes) (w : wstate) : wstate :=
  mkW (w_at w) (w_next w) (w_entries w) (w_orphans w) (w_compared w) (w_discrepancies w) (w_previous w) (w_recent w)
    (w_hash w) (w_evidence w ++ b) (w_reader w) (w_index_reader w) (w_user w).

(** A fork entry, or a copy of an entry kept before: hashed and left out. *)
Definition omit (e : Entry) (discrepancies : Z) (recent : RecentCanonical) (w : wstate) : wstate :=
  mkW (w_at w + blen (e_bytes e)) (w_next w) (w_entries w) (w_orphans w + 1) (w_compared w) discrepancies (w_previous w) recent
    (w_hash w ++ e_bytes e) (w_evidence w) (w_reader w) (w_index_reader w) (w_user w).

Definition stop (w : wstate) (r : reason) : res fault (ctl wstate (wstate * option Failure)) :=
  Ok (Break (w, Some (mkFailure (w_at w) (w_next w) r))).

(** The index slot of [n], when the index has it. *)
Definition indexed_at (n : Z) (w : wstate) : res fault (option Z * ReadAhead) :=
  let slot := wrap32 (n - st_first begin) * 8 in
  match index with
  | Some i =>
      if slot + 8 <=? index_bytes then
        match index_position i slot index_bytes (w_index_reader w) with
        | (Ok p, rd) => Ok (Some p, rd)
        | (Err e, _) => Err e
        | (Panic, _) => Panic
        end
      else Ok (None, w_index_reader w)
  | None => Ok (None, w_index_reader w)
  end.

(** The entry continues the chain. *)
Definition keep (e : Entry) (reference : option bytes) (w : wstate) : res fault (ctl wstate (wstate * option Failure)) :=
  let n := e_number e in
  let? ix := indexed_at n w in
  let '(indexed, index_reader) := ix in
  let matched := bool_decide (indexed = Some (e_offset e)) in
  match accept e (w_user w) with
  | (Ok _, user) =>
      let? next := or_err (checked_add32 n 1) FNumberPast in
      let? recent :=
        (if negb (is_blocks kind) && bool_decide (is_Some reference)
         then remember capacity e (if matched then None else indexed) (w_recent w) else Ok (w_recent w)) in
      Ok (Cont (mkW (w_at w + blen (e_bytes e)) next (w_entries w + 1) (w_orphans w)
        (if bool_decide (is_Some reference) then w_compared w + 1 else w_compared w)
        (if matched then w_discrepancies w else w_discrepancies w + 1)
        (Some (e_id e)) recent (w_hash w ++ e_bytes e) (w_evidence w) (w_reader w) index_reader user))
  | (Err f, _) => Err f
  | (Panic, _) => Panic
  end.

(** The checks of an entry that is not known to be left out. *)
Definition check_entry (e : Entry) (reference link : option bytes) (w : wstate)
    : res fault (ctl wstate (wstate * option Failure)) :=
  let n := e_number e in
  if negb (n =? w_next w) then stop w (RNumber (w_next w) n)
  else if bool_decide (is_Some link) && bool_decide (is_Some (w_previous w)) && negb (bool_decide (link = w_previous w))
  then stop w (RUnlinked n)
  else
    let? differs := (if is_blocks kind then
                       match reference with
                       | Some b => let? own := e_body e in Ok (negb (bool_decide (b = own)))
                       | None => Ok false
                       end
                     else Ok false) in
    if (differs : bool) then stop w (RDiffers n) else keep e reference w.

(** An entry whose block the sources do not contradict. *)
Definition select (e : Entry) (reference link : option bytes) (w : wstate)
    : res fault (ctl wstate (wstate * option Failure)) :=
  if negb (is_blocks kind) && bool_decide (is_Some reference) && (e_number e <? w_next w) then
    let? x := duplicate e (w_recent w) in
    match x.1 with
    | Some indexed =>
        Ok (Cont (omit e (if (indexed : bool) then sub64 (w_discrepancies w) 1 else w_discrepancies w) x.2 w))
    | None => check_entry e reference link w
    end
  else check_entry e reference link w.

Definition evidence_of (n : Z) (b : bytes) : bytes := le_bytes 4 n ++ le_bytes 8 (blen b) ++ b.

Definition classify (e : Entry) (w : wstate) : res fault (ctl wstate (wstate * option Failure)) :=
  let n := e_number e in
  let? reference := match refs with Some r => block r n | None => Ok None end in
  match reference with
  | Some b =>
      let? h := full_block sha256 b in
      do? ensure (hd_number h =? n) FReferenceNumber ;;
      let w := add_evidence (evidence_of n b) w in
      if negb (is_blocks kind) && negb (bool_decide (hd_id h = e_id e))
      then Ok (Cont (omit e (w_discrepancies w) (w_recent w) w))
      else select e reference (Some (hd_previous h)) w
  | None =>
      if negb (is_blocks kind) && bool_decide (is_Some refs) then stop w (RNoEvidence n)
      else select e reference (e_previous e) w
  end.

(** One turn of the loop. *)
Definition walk_step (w : wstate) : res fault (ctl wstate (wstate * option Failure)) :=
  if negb (w_at w <? d_size d) then Ok (Break (w, None))
  else
    match entry sha256 d (w_at w) (d_size d) kind (w_reader w) with
    | (Ok e, rd) => classify e (set_reader rd w)
    | (Err f, rd) => if is_io f then Err f else stop (set_reader rd w) (RFault f)
    | (Panic, _) => Panic
    end.

Definition walk_iter (_ : ()) : M fault wstate (ctl () (option Failure)) := fun w =>
  match walk_step w with
  | Ok (Cont w') => (Ok (Cont ()), w')
  | Ok (Break (w', f)) => (Ok (Break f), w')
  | Err e => (Err e, w)
  | Panic => (Panic, w)
  end.

Definition summarize (w : wstate) (failure : option Failure) : res fault Summary :=
  let size := d_size d in
  let? suffix := hash_suffix d (w_at w) size (w_hash w) in
  let? index_hashes :=
    match index with
    | Some i =>
        let cut := Z.min (w_entries w * 8) index_bytes in
        let? prefix := hash_range i 0 cut [] in
        let? rest := hash_suffix i cut index_bytes prefix in
        Ok (Some (sha256 rest.2, sha256 prefix, rest.1))
    | None => Ok None
    end in
  let slots := (index_bytes + 7) / 8 in
  let hint :=
    if slots =? 0 then None
    else match checked_add64 (st_first begin) (slots - 1) with
         | Some n => if n <? u32_max then Some n else None
         | None => None
         end in
  Ok (mkSummary (st_first begin) (if 0 <? w_entries w then Some (w_next w - 1) else None) (w_entries w) (w_at w)
    (sha256 (w_hash w)) suffix.1 (size - w_at w) (w_orphans w) (w_compared w) (sha256 suffix.2) (sha256 (w_evidence w))
    (bool_decide (is_Some index)) index_bytes (index_bytes mod 8) (w_discrepancies w + sat_sub slots (w_entries w))
    ((fun h => h.1.1) <$> index_hashes) ((fun h => h.1.2) <$> index_hashes) (snd <$> index_hashes) hint failure).

Definition walk_start (user : S) : wstate :=
  mkW (blen (st_bytes begin)) (st_first begin) 0 0 0 0 None recent_default (st_bytes begin) [] ra_new ra_new user.

Definition walk (user : S) : res fault (Summary * S) :=
  let? actual := start sha256 d kind in
  do? ensure (bool_decide (actual = begin)) FPreambleChanged ;;
  match loop_ walk_iter () (walk_start user) with
  | (Ok failure, w) => let? sm := summarize w failure in Ok (sm, w_user w)
  | (Err e, _) => Err e
  | (Panic, _) => Panic
  end.
End Run.
End Walk.
Arguments wstate : clear implicits.

(** ** RecentCanonical stays within its bounds *)
Section RecentFacts.
Context (capacity : bytes -> Z).
Hypothesis Hcap : forall b, blen b <= capacity b.

Definition cost (e : Entry) : Z := capacity (e_bytes e).
Definition costs (l : list Entry) : Z := foldr (fun e a => cost e + a) 0 l.
Definition kept_entries (r : RecentCanonical) : list Entry := rm_entry <$> rc_entries r.

(** What the deque holds: its bytes are counted, at most 4 MiB, its numbers increase and span fewer than
    4096, and its entries have a trailer to cut. *)
Record recent_ok (r : RecentCanonical) : Prop := {
  rk_sum : rc_bytes r = costs (kept_entries r);
  rk_bytes_le : rc_bytes r <= RECENT_CANONICAL_BYTES;
  rk_sorted : StronglySorted (fun x y => e_number x < e_number y) (kept_entries r);
  rk_span : forall x y, x ∈ kept_entries r -> y ∈ kept_entries r -> e_number y - e_number x < RECENT_CANONICAL_BLOCKS;
  rk_trailer : Forall (fun x => 8 <= blen (e_bytes x)) (kept_entries r)
}.

Lemma cost_nonneg x : 0 <= cost x.
Proof. unfold cost. pose proof (Hcap (e_bytes x)). pose proof (blen_nonneg (e_bytes x)). lia. Qed.

Lemma costs_nonneg l : 0 <= costs l.
Proof. induction l as [|x l IH]; simpl; [done|]. pose proof (cost_nonneg x). lia. Qed.

Lemma costs_app l k : costs (l ++ k) = costs l + costs k.
Proof. induction l as [|x l IH]; simpl; [done|]. rewrite IH. lia. Qed.

Lemma recent_default_ok : recent_ok recent_default.
Proof. split; simpl; [done|unfold RECENT_CANONICAL_BYTES; vm_compute; congruence|constructor| |constructor]. intros x y H. by apply elem_of_nil in H. Qed.

Lemma recent_tail old rest n : recent_ok (mkRecent (old :: rest) n) -> recent_ok (mkRecent rest (n - cost (rm_entry old))).
Proof.
  intros [Hs Hb Ho Hp Ht]. unfold kept_entries in *. cbn [rc_entries rc_bytes] in *. rewrite fmap_cons in *.
  change (costs (_ :: _)) with (cost (rm_entry old) + costs (rm_entry <$> rest)) in Hs. apply StronglySorted_inv in Ho as [Ho _].
  apply list.Forall_cons in Ht as [_ Ht]. pose proof (cost_nonneg (rm_entry old)).
  split; unfold kept_entries; cbn [rc_entries rc_bytes]; [lia|lia|done| |done]. intros x y Hx Hy. apply Hp; by right.
Qed.

Lemma forget_first_eq old rest n :
  recent_ok (mkRecent (old :: rest) n) -> forget_first capacity (mkRecent (old :: rest) n) = mkRecent rest (n - cost (rm_entry old)).
Proof.
  intros [Hs Hb _ _ _]. unfold kept_entries in *. cbn [rc_entries rc_bytes] in *. rewrite fmap_cons in *.
  change (costs (_ :: _)) with (cost (rm_entry old) + costs (rm_entry <$> rest)) in Hs.
  unfold forget_first, sub64. cbn [rc_entries rc_bytes]. f_equal. unfold wrap64. apply Z.mod_small.
  pose proof (costs_nonneg (rm_entry <$> rest)). pose proof (cost_nonneg (rm_entry old)). unfold cost in *. unfold RECENT_CANONICAL_BYTES in Hb.
  change (Z.shiftl 4 20) with 4194304 in Hb. width_lia.
Qed.

(** The loops end, having forgotten a prefix. *)
Lemma forget_while_spec p r fuel :
  recent_ok r -> (length (rc_entries r) <= fuel)%nat -> (forall r, recent_ok r -> rc_entries r = [] -> p r = false) ->
  exists gone r', forget_while capacity fuel p r = Ok r' /\ recent_ok r' /\ rc_entries r = gone ++ rc_entries r' /\ p r' = false.
Proof.
  revert r; induction fuel as [|fuel IH]; intros r Hr Hf Hp; cbn [forget_while].
  - assert (He : rc_entries r = []) by (destruct (rc_entries r); [done|simpl in Hf; lia]).
    pose proof (Hp r Hr He) as E. rewrite E. exists [], r. rewrite He. done.
  - destruct (p r) eqn:E; [|by exists [], r]. destruct r as [[|old rest] n]; [by rewrite (Hp _ Hr eq_refl) in E|].
    rewrite forget_first_eq by done. destruct (IH (mkRecent rest (n - cost (rm_entry old)))) as (gone & r' & Hw & Hr' & Hg & Hpr);
      [by apply recent_tail|simpl in *; lia|done|].
    exists (old :: gone), r'. split; [done|]. split; [done|]. split; [|done]. simpl in *. by rewrite Hg.
Qed.

Lemma kept_app r gone k : rc_entries r = gone ++ k -> kept_entries r = (rm_entry <$> gone) ++ (rm_entry <$> k).
Proof. intros H. unfold kept_entries. by rewrite H, fmap_app. Qed.

(** Entries newer than [n] by fewer than 4096. *)
Lemma near_of_front n r x : recent_ok r -> is_old n r = false -> x ∈ kept_entries r -> n - e_number x < RECENT_CANONICAL_BLOCKS.
Proof.
  intros [_ _ Ho _ _] Hold Hx. unfold is_old, kept_entries in *. destruct (rc_entries r) as [|old rest]; [by apply elem_of_nil in Hx|].
  apply Z.leb_gt in Hold. unfold sat_sub in Hold. apply StronglySorted_inv in Ho as [_ Ho].
  apply elem_of_cons in Hx as [->|Hx]; [lia|]. apply (proj1 (list.Forall_forall _ _) Ho) in Hx. lia.
Qed.

Lemma sorted_snoc l e :
  StronglySorted (fun x y => e_number x < e_number y) l -> Forall (fun x => e_number x < e_number e) l ->
  StronglySorted (fun x y => e_number x < e_number y) (l ++ [e]).
Proof.
  intros Ho. induction Ho as [|x l Hl IH Hx]; intros Hlt; [by repeat constructor|]. apply list.Forall_cons in Hlt as [Hxe Hlt]. simpl.
  constructor; [by apply IH|]. apply Forall_app. split; [done|]. by repeat constructor.
Qed.

Lemma remember_spec e u r :
  recent_ok r -> Forall (fun x => e_number x < e_number e) (kept_entries r) -> 8 <= blen (e_bytes e) ->
  exists r' gone k, remember capacity e u r = Ok r' /\ recent_ok r' /\ rc_entries r = gone ++ k /\
    (rc_entries r' = k \/ rc_entries r' = k ++ [mkRemembered e u]).
Proof.
  intros Hr Hlt H8. unfold remember.
  destruct (forget_while_spec (is_old (e_number e)) r (length (rc_entries r)) Hr ltac:(lia)) as (gone & r1 & -> & Hr1 & Hg & Hold).
  { intros r0 _ E. unfold is_old. by rewrite E. }
  cbn [rbind]. destruct (Z.ltb_spec RECENT_CANONICAL_BYTES (capacity (e_bytes e))) as [|Hc].
  { exists r1, gone, (rc_entries r1). split; [done|]. split; [done|]. split; [done|by left]. }
  set (p := fun r0 : RecentCanonical => RECENT_CANONICAL_BYTES <? rc_bytes r0 + capacity (e_bytes e)).
  destruct (forget_while_spec p r1 (length (rc_entries r1)) Hr1 ltac:(lia)) as (gone' & r2 & -> & Hr2 & Hg' & Hp2).
  { intros r0 [Hs _ _ _ _] E. unfold p, kept_entries in *. rewrite Hs, E. simpl. by apply Z.ltb_ge. }
  cbn [rbind]. unfold p in Hp2. apply Z.ltb_ge in Hp2. eexists _, (gone ++ gone'), (rc_entries r2).
  split; [reflexivity|]. split; [|split; [by rewrite Hg, Hg', app_assoc|by right]].
  assert (Hlt2 : Forall (fun x => e_number x < e_number e) (kept_entries r2)).
  { rewrite (kept_app r gone (rc_entries r1)) in Hlt by done. apply Forall_app in Hlt as [_ Hlt].
    fold (kept_entries r1) in Hlt. rewrite (kept_app r1 gone' (rc_entries r2)) in Hlt by done. by apply Forall_app in Hlt as [_ Hlt]. }
  assert (Hnear : forall x, x ∈ kept_entries r2 -> e_number e - e_number x < RECENT_CANONICAL_BLOCKS).
  { intros x Hx. apply (near_of_front _ r1 x Hr1 Hold). rewrite (kept_app r1 gone' (rc_entries r2)) by done. apply elem_of_app. by right. }
  destruct Hr2 as [Hs Hb Ho Hsp Ht]. pose proof (proj1 (list.Forall_forall _ _) Hlt2) as Hlt2'.
  split; unfold kept_entries; cbn [rc_entries rc_bytes]; rewrite ?fmap_app; fold (kept_entries r2).
  - rewrite costs_app, Hs. simpl. unfold cost. lia.
  - done.
  - by apply sorted_snoc.
  - intros x y Hx Hy. apply elem_of_app in Hx as [Hx|Hx%list_elem_of_singleton], Hy as [Hy|Hy%list_elem_of_singleton]; subst; [by apply Hsp|by apply Hnear| |].
    + apply Hlt2' in Hy. simpl in *. unfold RECENT_CANONICAL_BLOCKS. lia.
    + unfold RECENT_CANONICAL_BLOCKS. simpl. lia.
  - apply Forall_app. split; [done|]. by repeat constructor.
Qed.

(** At most 4096 entries are kept. *)
Lemma sorted_span l a b :
  StronglySorted (fun x y => e_number x < e_number y) l -> Forall (fun x => a <= e_number x < b) l -> blen l <= Z.max 0 (b - a).
Proof.
  intros Ho. revert a. induction Ho as [|x l Hl IH Hx]; intros a Hr; [unfold blen; simpl; lia|]. apply list.Forall_cons in Hr as [Hxr Hr].
  rewrite blen_cons. assert (blen l <= Z.max 0 (b - (e_number x + 1))); [|lia]. apply IH.
  apply list.Forall_forall. intros y Hy. pose proof (proj1 (list.Forall_forall _ _) Hx y Hy) as H1.
  pose proof (proj1 (list.Forall_forall _ _) Hr y Hy) as H2. cbn beta in H1, H2. lia.
Qed.

Lemma recent_length r : recent_ok r -> blen (rc_entries r) <= RECENT_CANONICAL_BLOCKS.
Proof.
  intros [_ _ Ho Hsp _]. assert (Hl : blen (rc_entries r) = blen (kept_entries r)) by (unfold blen, kept_entries; by rewrite length_fmap).
  rewrite Hl. destruct (kept_entries r) as [|x l] eqn:E; [done|].
  assert (H : blen (x :: l) <= Z.max 0 (e_number x + RECENT_CANONICAL_BLOCKS - e_number x)); [|unfold RECENT_CANONICAL_BLOCKS in *; lia].
  apply sorted_span; [done|]. apply list.Forall_forall. intros y Hy. specialize (Hsp x y ltac:(by left) Hy).
  apply StronglySorted_inv in Ho as [_ Ho]. apply elem_of_cons in Hy as [->|Hy]; [lia|]. apply (proj1 (list.Forall_forall _ _) Ho) in Hy. lia.
Qed.

Lemma e_body_total e : 8 <= blen (e_bytes e) -> e_body e = Ok (take (Z.to_nat (blen (e_bytes e) - 8)) (e_bytes e)).
Proof.
  intros H. unfold e_body. destruct (slice_is_Some (e_bytes e) 0 (blen (e_bytes e) - 8)) as [s Hs]; [lia|lia|lia|].
  rewrite Hs. apply slice_Some in Hs as (_ & _ & _ & ->). done.
Qed.

(** The search finds an entry with the number and the body of [e], and marks it explained when its index slot
    names [e]. *)
Definition found (e : Entry) (l l' : list RememberedEntry) (indexed : bool) : Prop :=
  exists a m c x, l = a ++ m :: c /\ e_number (rm_entry m) = e_number e /\ e_body (rm_entry m) = Ok x /\ e_body e = Ok x /\
    indexed = bool_decide (rm_unmatched_index m = Some (e_offset e)) /\
    l' = a ++ (if indexed then mkRemembered (rm_entry m) None else m) :: c.

Lemma duplicate_rev_spec e l :
  Forall (fun x => 8 <= blen (e_bytes (rm_entry x))) l -> 8 <= blen (e_bytes e) ->
  exists o l', duplicate_rev e l = Ok (o, l') /\ match o with Some b => found e l l' b | None => l' = l end.
Proof.
  intros Hl He. induction Hl as [|old l Ho Hl IH]; [by exists None, []|]. cbn [duplicate_rev].
  destruct (Z.eqb_spec (e_number (rm_entry old)) (e_number e)) as [En|].
  - rewrite (e_body_total (rm_entry old)), (e_body_total e) by done. cbn [rbind].
    destruct (bool_decide _) eqn:Eb; cbn [negb]; [|by exists None, (old :: l)]. bools.
    eexists _, _. split; [reflexivity|]. exists [], old, l. eexists. split; [done|]. split; [done|].
    split; [by apply e_body_total|]. split; [by rewrite Eb, e_body_total|]. done.
  - destruct IH as (o & l' & -> & Ho'). cbn [rbind fst snd]. exists o, (old :: l'). split; [done|].
    destruct o as [b|]; [|by rewrite Ho']. destruct Ho' as (a & m & c & x & -> & H1 & H2 & H3 & H4 & ->).
    by exists (old :: a), m, c, x.
Qed.

Lemma found_kept e l l' b : found e l l' b -> rm_entry <$> l' = rm_entry <$> l.
Proof. intros (a & m & c & x & -> & _ & _ & _ & _ & ->). rewrite !fmap_app, !fmap_cons. by destruct b. Qed.

Lemma found_reverse e l l' b : found e (reverse l) l' b -> found e l (reverse l') b.
Proof.
  intros (a & m & c & x & Hl & H1 & H2 & H3 & H4 & ->). apply (f_equal reverse) in Hl. rewrite reverse_involutive in Hl.
  exists (reverse c), m, (reverse a), x. rewrite Hl, !reverse_app, !reverse_cons, <- !app_assoc. done.
Qed.

Lemma duplicate_spec e r :
  recent_ok r -> 8 <= blen (e_bytes e) ->
  exists o r', duplicate e r = Ok (o, r') /\ recent_ok r' /\ kept_entries r' = kept_entries r /\
    match o with Some b => found e (rc_entries r) (rc_entries r') b | None => r' = r end.
Proof.
  intros Hr He. unfold duplicate.
  destruct (duplicate_rev_spec e (reverse (rc_entries r))) as (o & l' & -> & Ho); [|done|].
  { apply Forall_reverse. pose proof (rk_trailer r Hr) as Ht. unfold kept_entries in Ht. clear -Ht.
    induction (rc_entries r) as [|x l IH]; [constructor|]. rewrite fmap_cons in Ht. apply list.Forall_cons in Ht as [? ?]. by constructor; [|apply IH]. }
  cbn [rbind fst snd]. exists o, (mkRecent (reverse l') (rc_bytes r)). split; [done|].
  assert (Hk : kept_entries (mkRecent (reverse l') (rc_bytes r)) = kept_entries r /\
    match o with Some b => found e (rc_entries r) (reverse l') b | None => reverse l' = rc_entries r end).
  { unfold kept_entries. simpl. destruct o as [b|]; [|rewrite Ho, reverse_involutive; done].
    apply found_reverse in Ho. split; [by eapply found_kept|done]. }
  destruct Hk as [Hk Ho']. split; [|split; [done|]].
  - destruct Hr as [H1 H2 H3 H4 H5]. by split; rewrite ?Hk.
  - destruct o as [b|]; [done|]. rewrite Ho'. by destruct r.
Qed.
End RecentFacts.

(** ** Properties *)

(** What a walk does with the entries it keeps: it remembers one, or looks up one it has read again. *)
Inductive recent_op := Remember (e : Entry) (unmatched_index : option Z) | Duplicate (e : Entry).

Definition recent_entry (op : recent_op) : Entry := match op with Remember e _ | Duplicate e => e end.

Fixpoint recent_run (capacity : bytes -> Z) (ops : list recent_op) (r : RecentCanonical) : res fault RecentCanonical :=
  match ops with
  | [] => Ok r
  | Remember e u :: ops => let? r := remember capacity e u r in recent_run capacity ops r
  | Duplicate e :: ops => let? x := duplicate e r in recent_run capacity ops x.2
  end.

Definition remembered (ops : list recent_op) : list Entry :=
  flat_map (fun op => match op with Remember e _ => [e] | Duplicate _ => [] end) ops.

Lemma sorted_app_lt (past : list Entry) e later x :
  StronglySorted (fun x y => e_number x < e_number y) (past ++ e :: later) -> x ∈ past -> e_number x < e_number e.
Proof.
  induction past as [|y past IH]; intros Hs Hx; [by apply elem_of_nil in Hx|]. simpl in Hs. apply StronglySorted_inv in Hs as [Hs Hy].
  apply elem_of_cons in Hx as [->|Hx]; [|by apply IH]. apply Forall_app in Hy as [_ Hy]. by apply list.Forall_cons in Hy as [? _].
Qed.

Lemma sorted_app_gt (past : list Entry) e later x :
  StronglySorted (fun x y => e_number x < e_number y) (past ++ e :: later) -> x ∈ later -> e_number e < e_number x.
Proof.
  induction past as [|y past IH]; intros Hs Hx; simpl in Hs; apply StronglySorted_inv in Hs as [Hs Hy]; [|by apply IH].
  by apply (proj1 (list.Forall_forall _ _) Hy).
Qed.

Lemma recent_run_spec capacity (Hcap : forall b, blen b <= capacity b) ops : forall past r,
  recent_ok capacity r -> kept_entries r `sublist_of` past ->
  StronglySorted (fun x y => e_number x < e_number y) (past ++ remembered ops) ->
  Forall (fun op => 8 <= blen (e_bytes (recent_entry op))) ops ->
  exists r', recent_run capacity ops r = Ok r' /\ recent_ok capacity r' /\ kept_entries r' `sublist_of` past ++ remembered ops.
Proof.
  induction ops as [|[e u|e] ops IH]; intros past r Hr Hsub Hs Hf; cbn [recent_run].
  - exists r. simpl. by rewrite app_nil_r.
  - apply list.Forall_cons in Hf as [He Hf]. cbn [remembered flat_map app] in Hs |- *. fold (remembered ops) in Hs |- *.
    destruct (remember_spec capacity Hcap e u r Hr) as (r1 & gone & k & -> & Hr1 & Hg & Hk); [|done|].
    { apply list.Forall_forall. intros x Hx. apply (sorted_app_lt past e (remembered ops)); [done|].
      by eapply elem_of_submseteq, sublist_submseteq. }
    cbn [rbind]. rewrite cons_middle, app_assoc in Hs |- *. apply IH; [done| |done|done].
    assert (Hks : (rm_entry <$> k) `sublist_of` past).
    { unfold kept_entries in Hsub. rewrite Hg, fmap_app in Hsub. etransitivity; [|exact Hsub]. by apply sublist_inserts_l. }
    unfold kept_entries. destruct Hk as [-> | ->]; [by apply sublist_inserts_r|]. rewrite fmap_app. by apply sublist_app.
  - apply list.Forall_cons in Hf as [He Hf]. cbn [remembered flat_map app] in Hs |- *. fold (remembered ops) in Hs |- *.
    destruct (duplicate_spec capacity e r Hr He) as (o & r1 & -> & Hr1 & Hk & _). cbn [rbind snd]. apply IH; [done|by rewrite Hk|done|done].
Qed.

(** The memory of recent canonical entries stays bounded: whatever a walk remembers, in order of block number,
    and looks up, it holds at most 4096 entries whose allocations add up to at most 4 MiB, all of them entries it
    was given, in that order; forgetting ends and nothing panics. *)
Lemma recent_bounded (capacity : bytes -> Z) (ops : list recent_op) (Hcap : forall b, blen b <= capacity b)
    (Hs : StronglySorted (fun x y => e_number x < e_number y) (remembered ops))
    (Hf : Forall (fun op => 8 <= blen (e_bytes (recent_entry op))) ops) :
  exists r, recent_run capacity ops recent_default = Ok r /\ blen (rc_entries r) <= RECENT_CANONICAL_BLOCKS /\
    rc_bytes r = costs capacity (kept_entries r) /\ rc_bytes r <= RECENT_CANONICAL_BYTES /\
    kept_entries r `sublist_of` remembered ops.
Proof.
  assert (H0 : recent_ok capacity recent_default).
  { split; [done|unfold RECENT_CANONICAL_BYTES; change (Z.shiftl 4 20) with 4194304; simpl; lia|constructor| |constructor]. intros x y Hx. by apply elem_of_nil in Hx. }
  destruct (recent_run_spec capacity Hcap ops [] recent_default H0 ltac:(done) Hs Hf) as (r & Hr & Hok & Hsub).
  exists r. split; [done|]. split; [by apply (recent_length capacity)|]. by destruct Hok.
Qed.

(** Example: two entries remembered, the first one read again. *)
Definition exc_entry (n : Z) : Entry := mkEntry 0 (List.repeat x00 8) (be_bytes 4 n ++ List.repeat x00 28) None.
Definition exc_ops : list recent_op := [Remember (exc_entry 7) (Some 3); Remember (exc_entry 8) None; Duplicate (exc_entry 7)].

Lemma recent_bounded_witness :
  exists r, recent_run blen exc_ops recent_default = Ok r /\ blen (rc_entries r) <= RECENT_CANONICAL_BLOCKS /\ kept_entries r = [exc_entry 7; exc_entry 8].
Proof.
  destruct (recent_bounded blen exc_ops (fun b => Z.le_refl _)) as (r & Hr & Hn & _).
  - repeat constructor.
  - repeat constructor; vm_compute; discriminate.
  - exists r. split; [exact Hr|]. split; [exact Hn|]. vm_compute in Hr. injection Hr as <-. reflexivity.
Defined.
