(* ===== verification/WalkFacts.v ===== *)
(** * What a walk establishes ([crates/log-repair/src/tail.rs])

    The theorems on [walk] of [TailWalk.v]. What it accepts is a chain: consecutive numbers from the first
    block, each linked to the one before; everything between the entries it accepts is an entry the trusted
    blocks identify as a fork or a copy; what it hashed is the file, the index and the trusted blocks it compared
    with; its counts are exact; and where it stopped is damage or an entry
    it could not classify. *)

From S2P Require Import Prelude.
From S2P Require Import Errors.
From S2P Require Import Cursor.
From S2P Require Import Binio.
From S2P Require Import Zlib.
From S2P Require Import Framing.
From S2P Require Import Disk.
From S2P Require Import ShipPayload.
From S2P Require Import RepairLog.
From S2P Require Import ReadAhead.
From S2P Require Import TailWalk.

Lemma take_slice (b : bytes) a n s : slice b a n = Some s -> take (Z.to_nat a) b ++ s = take (Z.to_nat (a + n)) b.
Proof.
  intros Hs. apply slice_Some in Hs as (Ha & Hn & _ & ->). rewrite Z2Nat.inj_add by done. apply take_take_drop.
Qed.

Lemma at_body {F : Flate} zlib sha256 kind data at_ e body :
  entry_at_of zlib sha256 kind data at_ e body -> e_body e = Ok body /\ blen (e_bytes e) = blen body + 8.
Proof.
  intros [_ Hb _ _ _]. pose proof (blen_nonneg body). rewrite e_body_total; rewrite Hb, blen_app, blen_le_bytes; [|lia].
  split; [|lia]. f_equal. apply take_app_exact. lia.
Qed.

Section Sources.
Context {F : Flate} {R : FlateReset F} (zlib : bytes -> option bytes) {L : FlateLaws F zlib}
  {RL : ResetLaws F zlib} (sha256 : bytes -> bytes).

Definition loaded_ok (r : Loaded) : Prop :=
  Forall log_ok (ld_block_logs r) /\ Forall (fun e => blen e.2 < U32) (ld_containers r).

Lemma block_no_panic r n : loaded_ok r -> is_panic (block sha256 r n) = false.
Proof.
  intros [Hl _]. unfold block. generalize (bt_get n (ld_containers r)) as found.
  induction Hl as [|l logs Hl Hls IH]; intros found; cbn [block_in]; [done|].
  unfold holds. destruct (_ && _) eqn:E; [|apply IH]. apply andb_true_iff in E as [E1%Z.leb_le E2%Z.leb_le].
  pose proof (body_spec zlib sha256 l n Hl ltac:(lia)) as Hb. destruct (Log.body sha256 l n) as [b|e|]; cbn [rbind]; [|done|done].
  destruct found as [seen|]; cbn [rbind]; [|apply IH]. destruct (bool_decide _); cbn [ensure rbind]; [apply IH|done].
Qed.

Lemma body_len l n x : log_ok l -> Log.first l <= n <= Log.last l -> Log.body sha256 l n = Ok x -> blen x < U32.
Proof.
  intros Hl Hn Hx. pose proof (body_spec zlib sha256 l n Hl Hn) as Hb. rewrite Hx in Hb.
  destruct Hb as (id & a & b & es & _ & _ & Hm & _ & _ & Hs & _). apply slice_blen in Hs. rewrite !blen_app, blen_le_bytes in Hs.
  pose proof (blen_nonneg (orphan_bytes (a + (blen x + 8)) es)). unfold MAX_BYTES in Hm. width_lia.
Qed.

Lemma block_len r n b : loaded_ok r -> block sha256 r n = Ok (Some b) -> blen b < U32.
Proof.
  intros [Hl Hc]. unfold block.
  assert (Hf : match bt_get n (ld_containers r) with Some x => blen x < U32 | None => True end).
  { unfold bt_get. destruct (List.find _ _) as [e|] eqn:E; [|done]. simpl. apply List.find_some in E as [E _].
    apply (proj1 (List.Forall_forall _ _) Hc) in E. done. }
  revert Hf. generalize (bt_get n (ld_containers r)) as found. clear Hc.
  induction Hl as [|l logs Hl Hls IH]; intros found Hf; cbn [block_in]; [by intros [= ->]|].
  unfold holds. destruct (_ && _) eqn:E; [|by apply IH]. apply andb_true_iff in E as [E1%Z.leb_le E2%Z.leb_le].
  intros H. bind H as x Hx. pose proof (body_len l n x Hl ltac:(lia) Hx) as Hxl. bind H as fd Hfd. apply (IH fd); [|done].
  destruct found as [seen|]; [guard Hfd as Hs; by injection Hfd as <-|by injection Hfd as <-].
Qed.

Lemma full_block_no_panic b : blen b < U64 -> is_panic (full_block sha256 b) = false.
Proof.
  intros Hb. unfold full_block. pose proof (signed_block_window sha256 b []) as Hw. rewrite app_nil_r in Hw. specialize (Hw Hb).
  destruct (signed_block sha256 b) as [[h e]|e|]; cbn [of_frame rbind snd]; [|done|done]. by destruct (e =? blen b).
Qed.

Lemma full_block_Ok b h : full_block sha256 b = Ok h <-> signed_block sha256 b = Ok (h, blen b).
Proof.
  unfold full_block. destruct (signed_block sha256 b) as [[h' e]|e|]; cbn [of_frame rbind snd fst]; [|done|done].
  destruct (Z.eqb_spec e (blen b)) as [->|Hne]; cbn [ensure rbind]; naive_solver.
Qed.

(** The format a log starts with. *)
Lemma start_facts d kind s :
  disk_ok d -> start sha256 d kind = Ok s ->
  0 < st_first s < u32_max /\ blen (st_bytes s) <= d_size d /\ st_bytes s = take (Z.to_nat (blen (st_bytes s))) (d_data d).
Proof.
  intros Hd H. unfold start in H. unfold disk_ok, d_size in *. pose proof (blen_nonneg (d_data d)). destruct (is_blocks kind).
  - bind H as b Hb. bind H as p Hp. injection H as <-. simpl.
    pose proof (read_Ok d 0 (Z.min (blen (d_data d)) (Z.shiftl 1 20)) b ltac:(unfold inside, d_size; change (Z.shiftl 1 20) with 1048576; lia) Hb) as Hs.
    pose proof (slice_blen _ _ _ _ Hs) as Hbl. apply slice_Some in Hs as (_ & _ & _ & Hs). change (Z.to_nat 0) with 0%nat in Hs. rewrite drop_0 in Hs.
    assert (Hbu : blen b < U64) by width_lia.
    unfold preamble in Hp. pose proof (preamble_walk_safe sha256 (mkCursor b 0) (new_cursor_wf b Hbu)) as (_ & _ & Hpos).
    destruct (preamble_walk sha256 (mkCursor b 0)) as [[[first id]|e|] c] eqn:E; [|done|done]. injection Hp as <-. simpl in *.
    destruct (preamble_walk_Ok sha256 b first id c Hbu E) as (v & c1 & c2 & _ & _ & Hf & _). split; [done|].
    assert (Hl : blen (take (Z.to_nat (cpos c)) b) = cpos c) by (apply blen_take; lia). rewrite Hl. split; [lia|].
    rewrite Hs, take_take. f_equal. lia.
  - guard H as H48. bind H as h Hh. bind H as m Hm. bind H as u Hu. bind H as f Hf. guard H as Hr. injection H as <-. simpl.
    apply andb_true_iff in Hr as [?%Z.ltb_lt ?%Z.ltb_lt]. split; [done|]. split; [unfold blen; simpl; lia|done].
Qed.
End Sources.

Section Chains.
Context {F : Flate} {R : FlateReset F} (zlib : bytes -> option bytes) {L : FlateLaws F zlib}
  {RL : ResetLaws F zlib} (sha256 : bytes -> bytes) (capacity : bytes -> Z).
Context {S : Type} (accept : Entry -> M fault S ()) (d : Disk) (index : option Disk) (kind : Kind) (begin : Start)
  (refs : option Loaded).

(** Whole entries one after another from [pos] to [end_]. *)
Fixpoint tiles (pos : Z) (l : list Entry) (end_ : Z) : Prop :=
  match l with
  | [] => pos = end_
  | e :: l => (exists body, entry_at_of zlib sha256 kind (d_data d) pos e body) /\ tiles (pos + blen (e_bytes e)) l end_
  end.

(** The trusted block of an entry. *)
Definition reference_of (r : Loaded) (e : Entry) (h : Header) : Prop :=
  exists b, block sha256 r (e_number e) = Ok (Some b) /\ full_block sha256 b = Ok h /\ hd_number h = e_number e.

(** [e] follows the entry with id [prev]: a block by its own header, a SHIP entry by the header of the trusted
    block with its id; a block does not differ from the trusted one. *)
Definition follows (prev : option bytes) (e : Entry) : Prop :=
  if is_blocks kind then
    (forall p, prev = Some p -> e_previous e = Some p) /\
    (forall r b, refs = Some r -> block sha256 r (e_number e) = Ok (Some b) -> e_body e = Ok b)
  else forall r, refs = Some r -> exists h, reference_of r e h /\ hd_id h = e_id e /\ (forall p, prev = Some p -> hd_previous h = p).

Definition prev_id (acc : list Entry) (i : nat) : option bytes :=
  match i with O => None | Datatypes.S j => e_id <$> (acc !! j) end.

(** Consecutive numbers from the first block, each entry after the one before it. *)
Definition chain (acc : list Entry) : Prop :=
  forall i e, acc !! i = Some e -> e_number e = st_first begin + Z.of_nat i /\ follows (prev_id acc i) e.

(** An entry may be left out: the trusted block of its number has another id, or it repeats an entry that
    was accepted before, byte for byte. *)
Definition omittable (acc : list Entry) (e : Entry) : Prop :=
  is_blocks kind = false /\ exists r h, refs = Some r /\ reference_of r e h /\
    (hd_id h <> e_id e \/ exists old x, old ∈ acc /\ e_number old = e_number e /\ e_body old = Ok x /\ e_body e = Ok x).

(** The accepted entries are the physical ones but for some that may be left out. *)
Inductive picks : list Entry -> list Entry -> Prop :=
| picks_nil : picks [] []
| picks_keep phys acc e : picks phys acc -> picks (phys ++ [e]) (acc ++ [e])
| picks_omit phys acc e : picks phys acc -> omittable acc e -> picks (phys ++ [e]) acc.

(** The callback over a list of entries. *)
Fixpoint accept_all (acc : list Entry) : M fault S () :=
  match acc with
  | [] => sret ()
  | e :: acc => do! accept e ;; accept_all acc
  end.

(** The index slot of an entry. *)
Definition slot_of (e : Entry) : option Z :=
  match index with
  | Some i =>
      let slot := (e_number e - st_first begin) * 8 in
      if slot + 8 <=? d_size i then ok_of (u64_in (d_data i) slot) else None
  | None => None
  end.

(** [c] repeats [e]. *)
Definition same_entry (e c : Entry) : bool :=
  (e_number c =? e_number e) && match e_body c, e_body e with Ok a, Ok b => bool_decide (a = b) | _, _ => false end.

(** The slot of an accepted entry is right when it names the entry, or a copy of it further on. *)
Definition slot_right (phys : list Entry) (e : Entry) : bool :=
  existsb (fun c => (e_offset e <=? e_offset c) && same_entry e c && bool_decide (slot_of e = Some (e_offset c))) phys.

(** The accepted entries whose slot is missing or wrong. *)
Definition unindexed (phys acc : list Entry) : Z :=
  foldr (fun e n => (if slot_right phys e then 0 else 1) + n) 0 acc.

(** The trusted block of a number, and what the evidence digest takes in for it. *)
Definition trusted (n : Z) : option bytes :=
  match refs with Some r => match block sha256 r n with Ok b => b | _ => None end | None => None end.

Definition evidence_for (n : Z) : bytes := from_option (evidence_of n) [] (trusted n).

Definition evid (phys : list Entry) : bytes := concat ((fun e => evidence_for (e_number e)) <$> phys).

(** The entries that have a trusted block. *)
Definition references (acc : list Entry) : Z :=
  foldr (fun e n => (if bool_decide (is_Some (trusted (e_number e))) then 1 else 0) + n) 0 acc.

Lemma tiles_snoc pos l end_ e body :
  tiles pos l end_ -> entry_at_of zlib sha256 kind (d_data d) end_ e body -> tiles pos (l ++ [e]) (end_ + blen (e_bytes e)).
Proof.
  revert pos; induction l as [|x l IH]; intros pos H He; simpl in *; [subst; split; [by eexists|done]|].
  destruct H as [Hx Hl]. split; [done|by apply IH].
Qed.

Lemma chain_snoc acc e :
  chain acc -> e_number e = st_first begin + blen acc -> follows (prev_id acc (length acc)) e -> chain (acc ++ [e]).
Proof.
  intros Hc Hn Hf i x Hi. assert (Hp : (i <= length acc)%nat -> prev_id (acc ++ [e]) i = prev_id acc i).
  { intros Hle. destruct i as [|j]; [done|]. unfold prev_id. by rewrite lookup_app_l by lia. }
  destruct (decide (i < length acc)%nat).
  - rewrite lookup_app_l in Hi by done. rewrite Hp by lia. by apply Hc.
  - rewrite lookup_app_r in Hi by lia. apply list_lookup_singleton_Some in Hi as [Hi <-].
    assert (i = length acc) as -> by lia. rewrite Hp by lia. done.
Qed.

Lemma prev_id_snoc acc e : prev_id (acc ++ [e]) (length (acc ++ [e])) = Some (e_id e).
Proof. rewrite length_app. simpl. rewrite Nat.add_1_r. simpl. by rewrite lookup_app_r, Nat.sub_diag. Qed.

Lemma accept_all_app acc e s :
  accept_all (acc ++ [e]) s = match accept_all acc s with (Ok _, s') => accept e s' | r => r end.
Proof.
  revert s; induction acc as [|x acc IH]; intros s; simpl.
  - unfold sbind, sret. destruct (accept e s) as [[[]|f|] s']; done.
  - unfold sbind. destruct (accept x s) as [[u|f|] s']; [|done|done]. apply IH.
Qed.

Lemma unindexed_app phys l k : unindexed phys (l ++ k) = unindexed phys l + unindexed phys k.
Proof. induction l as [|x l IH]; simpl; [done|]. rewrite IH. lia. Qed.

Lemma unindexed_bound phys l : 0 <= unindexed phys l <= blen l.
Proof. induction l as [|x l IH]; simpl; [done|]. rewrite blen_cons. destruct (slot_right phys x); lia. Qed.

Lemma references_app l k : references (l ++ k) = references l + references k.
Proof. induction l as [|x l IH]; simpl; [done|]. rewrite IH. lia. Qed.

Lemma evid_app l k : evid (l ++ k) = evid l ++ evid k.
Proof. unfold evid. by rewrite fmap_app, concat_app. Qed.

Lemma slot_right_snoc phys c e :
  slot_right (phys ++ [c]) e =
  slot_right phys e || ((e_offset e <=? e_offset c) && same_entry e c && bool_decide (slot_of e = Some (e_offset c))).
Proof. unfold slot_right. rewrite existsb_app. simpl. by rewrite orb_false_r. Qed.

Lemma slot_right_other phys c e : same_entry e c = false -> slot_right (phys ++ [c]) e = slot_right phys e.
Proof. intros H. rewrite slot_right_snoc, H, andb_false_r. apply orb_false_r. Qed.

Lemma unindexed_other phys c acc : (forall e, e ∈ acc -> same_entry e c = false) -> unindexed (phys ++ [c]) acc = unindexed phys acc.
Proof.
  intros H. induction acc as [|e acc IH]; simpl; [done|]. rewrite slot_right_other by (apply H; by left).
  rewrite IH; [done|]. intros x Hx. apply H. by right.
Qed.

(** An entry just read is named by its own slot or not at all. *)
Lemma slot_right_self phys e x :
  (forall c, c ∈ phys -> e_offset c < e_offset e) -> e_body e = Ok x ->
  slot_right (phys ++ [e]) e = bool_decide (slot_of e = Some (e_offset e)).
Proof.
  intros Hlt Hx. rewrite slot_right_snoc. unfold same_entry. rewrite Z.leb_refl, Z.eqb_refl, Hx, (bool_decide_true (x = x)) by done.
  assert (slot_right phys e = false) as ->; [|done]. unfold slot_right. apply not_true_is_false. intros H.
  apply existsb_exists in H as (c & Hc & H). apply list_elem_of_In, Hlt in Hc.
  apply andb_true_iff in H as [H _]. apply andb_true_iff in H as [H _]. apply Z.leb_le in H. lia.
Qed.

Lemma chain_unique acc x y : chain acc -> x ∈ acc -> y ∈ acc -> e_number x = e_number y -> x = y.
Proof.
  intros Hc Hx Hy Hn. apply list_elem_of_lookup in Hx as [i Hi], Hy as [j Hj].
  destruct (Hc i x Hi) as [Hni _], (Hc j y Hj) as [Hnj _]. assert (i = j) as -> by lia. congruence.
Qed.

(** A copy read after an accepted entry makes its slot right, or changes nothing. *)
Lemma unindexed_copy phys c acc old :
  chain acc -> old ∈ acc -> e_offset old <= e_offset c -> same_entry old c = true ->
  unindexed (phys ++ [c]) acc =
  unindexed phys acc - (if negb (slot_right phys old) && bool_decide (slot_of old = Some (e_offset c)) then 1 else 0).
Proof.
  intros Hc Ho Hle Hs. apply list_elem_of_split in Ho as (a & b & ->). rewrite !unindexed_app.
  assert (Hother : forall e, e ∈ a ++ b -> same_entry e c = false).
  { intros e He. unfold same_entry in *. apply andb_true_iff in Hs as [Hs _]. apply Z.eqb_eq in Hs.
    apply andb_false_iff. left. apply Z.eqb_neq. intros Hn.
    apply elem_of_app in He as [He|He]; apply list_elem_of_lookup in He as [i Hi].
    - destruct (Hc i e) as [H1 _]; [by apply lookup_app_l_Some|]. destruct (Hc (length a) old) as [H2 _]; [by rewrite lookup_app_r, Nat.sub_diag by lia|].
      apply lookup_lt_Some in Hi. lia.
    - destruct (Hc (length a + Datatypes.S i)%nat e) as [H1 _]; [rewrite lookup_app_r by lia; by replace (length a + Datatypes.S i - length a)%nat with (Datatypes.S i) by lia|].
      destruct (Hc (length a) old) as [H2 _]; [by rewrite lookup_app_r, Nat.sub_diag by lia|]. lia. }
  rewrite (unindexed_other phys c a) by (intros e He; apply Hother, elem_of_app; by left). simpl.
  rewrite (unindexed_other phys c b) by (intros e He; apply Hother, elem_of_app; by right).
  rewrite slot_right_snoc, Hs, (proj2 (Z.leb_le _ _) Hle). cbn [andb].
  destruct (slot_right phys old), (bool_decide (slot_of old = Some (e_offset c))); simpl; lia.
Qed.

(** What lies before the next entry. *)
Lemma tiles_before pos l end_ e : tiles pos l end_ -> e ∈ l -> pos <= e_offset e < end_.
Proof.
  revert pos. induction l as [|x l IH]; intros pos H He; [by apply elem_of_nil in He|]. simpl in H. destruct H as [[body Hx] H].
  assert (Hpos : forall pos, tiles pos l end_ -> pos <= end_).
  { clear. induction l as [|y l IH]; intros pos H; simpl in H; [lia|]. destruct H as [_ H]. apply IH in H. pose proof (blen_nonneg (e_bytes y)). lia. }
  pose proof (Hpos _ H) as Hle. destruct Hx as [Ho Hb _ _ _].
  assert (8 <= blen (e_bytes x)) by (rewrite Hb, blen_app, blen_le_bytes; pose proof (blen_nonneg body); lia).
  apply elem_of_cons in He as [->|He]; [lia|]. specialize (IH _ H He). lia.
Qed.

Lemma tiles_at pos l end_ e : tiles pos l end_ -> e ∈ l -> exists at_ body, entry_at_of zlib sha256 kind (d_data d) at_ e body.
Proof.
  revert pos. induction l as [|x l IH]; intros pos H He; [by apply elem_of_nil in He|]. simpl in H. destruct H as [[body Hx] H].
  apply elem_of_cons in He as [->|He]; [by exists pos, body|]. by apply (IH _ H).
Qed.

Lemma picks_sub phys acc e : picks phys acc -> e ∈ acc -> e ∈ phys.
Proof.
  induction 1 as [|phys acc x _ IH|phys acc x _ IH _]; intros He; [done| |apply elem_of_app; left; by apply IH].
  apply elem_of_app in He as [He|He]; apply elem_of_app; [left; by apply IH|by right].
Qed.

(** With sources, every accepted SHIP entry was compared. *)
Lemma references_all acc : chain acc -> is_blocks kind = false -> refs <> None -> references acc = blen acc.
Proof.
  intros Hc Hk Hr. destruct refs as [r|] eqn:Er; [|done].
  assert (H : forall e, e ∈ acc -> is_Some (trusted (e_number e))).
  { intros e He. apply list_elem_of_lookup in He as [i Hi]. destruct (Hc i e Hi) as [_ Hf]. unfold follows in Hf. rewrite Hk in Hf.
    destruct (Hf r Er) as (h & (b & Hb & _) & _). unfold trusted. rewrite Er, Hb. by eexists. }
  clear Hc. induction acc as [|e acc IH]; [done|]. simpl. rewrite bool_decide_true by (apply H; by left). rewrite blen_cons, IH; [done|].
  intros x Hx. apply H. by right.
Qed.

Lemma chain_number acc e : chain acc -> e ∈ acc -> st_first begin <= e_number e < st_first begin + blen acc.
Proof.
  intros Hc He. apply list_elem_of_lookup in He as [i Hi]. destruct (Hc i e Hi) as [-> _]. apply lookup_lt_Some in Hi. unfold blen. lia.
Qed.

(** The invariant of the loop. *)
Record winv (user0 : S) (w : wstate S) (phys acc : list Entry) : Prop := {
  wi_tiles : tiles (blen (st_bytes begin)) phys (w_at w);
  wi_picks : picks phys acc;
  wi_chain : chain acc;
  wi_user : accept_all acc user0 = (Ok (), w_user w);
  wi_next : w_next w = st_first begin + blen acc;
  wi_next_u32 : w_next w <= u32_max;
  wi_entries : w_entries w = blen acc;
  wi_orphans : w_orphans w = blen phys - blen acc /\ 0 <= w_orphans w;
  wi_compared : w_compared w = references acc;
  wi_previous : w_previous w = prev_id acc (length acc);
  wi_hash : w_hash w = take (Z.to_nat (w_at w)) (d_data d);
  wi_at : 0 <= w_at w <= d_size d;
  wi_reader : ra_ok d (w_reader w);
  wi_index_reader : match index with Some i => ra_ok i (w_index_reader w) | None => True end;
  wi_recent : recent_ok capacity (w_recent w);
  wi_recent_acc : forall x, x ∈ kept_entries (w_recent w) -> x ∈ acc;
  wi_unmatched : forall m, m ∈ rc_entries (w_recent w) ->
    rm_unmatched_index m = if slot_right phys (rm_entry m) then None else slot_of (rm_entry m);
  wi_discrepancies : w_discrepancies w = unindexed phys acc
}.
End Chains.

Section Steps.
Context {F : Flate} {R : FlateReset F} (zlib : bytes -> option bytes) {L : FlateLaws F zlib}
  {RL : ResetLaws F zlib} (sha256 : bytes -> bytes) (capacity : bytes -> Z).
Context {S : Type} (accept : Entry -> M fault S ()) (d : Disk) (index : option Disk) (kind : Kind) (begin : Start)
  (refs : option Loaded) (user0 : S).
Hypothesis Hcap : forall b, blen b <= capacity b.
Hypothesis Hd : disk_ok d.
Hypothesis Hix : match index with Some i => disk_ok i | None => True end.
Hypothesis Hrefs : match refs with Some r => loaded_ok r | None => True end.
Hypothesis Haccept : forall e s, 8 <= blen (e_bytes e) <= MAX_BYTES -> is_panic (accept e s).1 = false.
Hypothesis Hfirst : 0 < st_first begin < u32_max.

Abbreviation inv := (winv zlib sha256 capacity accept d index kind begin refs user0).
Abbreviation entry_here w e body := (entry_at_of zlib sha256 kind (d_data d) (w_at w) e body).
Abbreviation follows_here acc e := (follows sha256 kind refs (prev_id acc (length acc)) e).

(** Where a walk may stop: at the end, or at bytes that are no entry or an entry it cannot place. *)
Definition stopped_for (at_ : Z) (acc : list Entry) (r : reason) : Prop :=
  match r with
  | RFault f => whole_entry sha256 kind (d_data d) at_ = Err f /\ is_io f = false
  | RNoEvidence n => is_blocks kind = false /\ exists e body r, entry_at_of zlib sha256 kind (d_data d) at_ e body /\ n = e_number e /\ refs = Some r /\ block sha256 r n = Ok None
  | RNumber next n => exists e body, entry_at_of zlib sha256 kind (d_data d) at_ e body /\ n = e_number e /\ next = st_first begin + blen acc /\ n <> next
  | RUnlinked n => exists e body, entry_at_of zlib sha256 kind (d_data d) at_ e body /\ n = e_number e /\ ~ follows_here acc e
  | RDiffers n => is_blocks kind = true /\ exists e body, entry_at_of zlib sha256 kind (d_data d) at_ e body /\ n = e_number e /\ ~ follows_here acc e
  end.

Definition ended (w : wstate S) (acc : list Entry) (f : option Failure) : Prop :=
  match f with
  | None => w_at w = d_size d
  | Some f => f_offset f = w_at w /\ w_at w < d_size d /\ f_next_block f = w_next w /\ stopped_for (w_at w) acc (f_reason f)
  end.

(** What the evidence digest took in for the entry a walk stopped at. *)
Definition stop_evidence (r : reason) : bytes :=
  match r with
  | RNumber _ n | RUnlinked n | RDiffers n => evidence_for sha256 refs n
  | RFault _ | RNoEvidence _ => []
  end.

Definition final_evidence (phys : list Entry) (f : option Failure) : bytes :=
  evid sha256 refs phys ++ from_option (fun f => stop_evidence (f_reason f)) [] f.

Definition step_ok (at_ : Z) (r : res fault (ctl (wstate S) (wstate S * option Failure))) : Prop :=
  match r with
  | Ok (Cont w') => (exists phys acc, inv w' phys acc /\ w_evidence w' = evid sha256 refs phys) /\ at_ < w_at w'
  | Ok (Break (w', f)) => exists phys acc, inv w' phys acc /\ ended w' acc f /\ w_evidence w' = final_evidence phys f
  | Err _ => True
  | Panic => False
  end.

Lemma here_facts w phys acc e body :
  inv w phys acc -> entry_here w e body ->
  e_offset e = w_at w /\ 8 <= blen (e_bytes e) /\ w_at w + blen (e_bytes e) <= d_size d /\ w_at w < d_size d /\
  w_hash w ++ e_bytes e = take (Z.to_nat (w_at w + blen (e_bytes e))) (d_data d).
Proof.
  intros Hi He. destruct He as [Ho Hb Hs Hl _]. pose proof (wi_at _ _ _ _ _ _ _ _ _ _ _ _ _ Hi) as Hat.
  assert (H8 : 8 <= blen (e_bytes e)) by (rewrite Hb, blen_app, blen_le_bytes; pose proof (blen_nonneg body); lia).
  rewrite (wi_hash _ _ _ _ _ _ _ _ _ _ _ _ _ Hi), (take_slice _ _ _ _ Hs).
  apply slice_Some in Hs as (_ & _ & Hle & _). unfold d_size in *. split; [done|]. split; [done|]. split; [done|]. split; [lia|done].
Qed.

Lemma indexed_at_spec w phys acc e :
  inv w phys acc -> e_number e = w_next w ->
  match indexed_at index begin (e_number e) w with
  | Ok (o, rd) => o = slot_of index begin e /\ match index with Some i => ra_ok i rd | None => True end
  | Err _ => True
  | Panic => False
  end.
Proof.
  intros Hi Hn. pose proof (wi_next _ _ _ _ _ _ _ _ _ _ _ _ _ Hi) as Hnext. pose proof (wi_next_u32 _ _ _ _ _ _ _ _ _ _ _ _ _ Hi) as Hu.
  pose proof (wi_index_reader _ _ _ _ _ _ _ _ _ _ _ _ _ Hi) as Hr. unfold indexed_at, slot_of, index_bytes.
  pose proof (blen_nonneg acc). assert (Hw : wrap32 (e_number e - st_first begin) = e_number e - st_first begin) by (apply Z.mod_small; width_lia).
  rewrite Hw. destruct index as [i|]; [|done]. cbv zeta. set (slot := (e_number e - st_first begin) * 8).
  destruct (Z.leb_spec (slot + 8) (d_size i)); [|done].
  assert (Hs0 : 0 <= slot) by (unfold slot; lia).
  pose proof (index_position_spec i Hix slot (w_index_reader w) Hs0 ltac:(lia) Hr) as [Hr' Hp].
  destruct (u64_in_total (d_data i) slot) as (x & Hx & _); [lia|unfold d_size in *; lia|]. rewrite Hx in Hp |- *.
  destruct (index_position i slot (d_size i) (w_index_reader w)) as [[p|f|] rd]; cbn [fst snd] in *; [|done|].
  - destruct Hp as [[= ->]|[? ?]]; done.
  - destruct Hp as [?|[? ?]]; done.
Qed.

(** The bytes of an entry that was read, and those before it. *)
Lemma here_before w phys acc e body c : inv w phys acc -> entry_here w e body -> c ∈ phys -> e_offset c < e_offset e.
Proof.
  intros Hi He Hc. destruct He as [Ho _ _ _ _]. pose proof (tiles_before _ _ _ _ _ _ _ _ (wi_tiles _ _ _ _ _ _ _ _ _ _ _ _ _ Hi) Hc). lia.
Qed.

Lemma fresh_differs acc e x : chain sha256 kind begin refs acc -> e_number e = st_first begin + blen acc -> x ∈ acc -> same_entry x e = false.
Proof.
  intros Hc Hn Hx. pose proof (chain_number _ _ _ _ _ _ Hc Hx). unfold same_entry. apply andb_false_iff. left. apply Z.eqb_neq. lia.
Qed.

(** The state after an entry that continues the chain. *)
Lemma keep_inv w phys acc e body user recent rd next (matched compared : bool) :
  inv w phys acc -> entry_here w e body -> e_number e = w_next w -> follows_here acc e ->
  accept e (w_user w) = (Ok (), user) -> checked_add32 (e_number e) 1 = Some next ->
  matched = bool_decide (slot_of index begin e = Some (e_offset e)) ->
  match index with Some i => ra_ok i rd | None => True end ->
  recent_ok capacity recent ->
  (forall m, m ∈ rc_entries recent -> m ∈ rc_entries (w_recent w) \/ m = mkRemembered e (if matched then None else slot_of index begin e)) ->
  compared = bool_decide (is_Some (trusted sha256 refs (e_number e))) ->
  inv (mkW (w_at w + blen (e_bytes e)) next (w_entries w + 1) (w_orphans w) (if compared then w_compared w + 1 else w_compared w)
    (if matched then w_discrepancies w else w_discrepancies w + 1) (Some (e_id e)) recent (w_hash w ++ e_bytes e)
    (w_evidence w) (w_reader w) rd user) (phys ++ [e]) (acc ++ [e]).
Proof.
  intros Hi He Hn Hf Hacc Hnext Hm Hrd Hrec Hrk Hcm.
  destruct (here_facts w phys acc e body Hi He) as (Ho & H8 & Hle & Hlt & Hh). apply checked_add32_Some in Hnext as [-> Hnu].
  pose proof (here_before w phys acc e body) as Hbefore. destruct (at_body _ _ _ _ _ _ _ He) as [Hbody _].
  assert (Hself : slot_right index begin (phys ++ [e]) e = matched).
  { rewrite Hm. eapply slot_right_self; [|exact Hbody]. intros c Hc. by eapply Hbefore. }
  clear Hbefore. destruct Hi as [I1 I2 I3 I4 I5 I6 I7 I8 I9 I10 I11 I12 I13 I14 I15 I16 I17 I18].
  assert (Hlen : blen (acc ++ [e]) = blen acc + 1 /\ blen (phys ++ [e]) = blen phys + 1) by (by rewrite !blen_app).
  destruct Hlen as [Hla Hlp]. assert (Hold : forall x, x ∈ acc -> same_entry x e = false) by (intros x; apply fresh_differs; [done|lia]).
  split; cbn [w_at w_next w_entries w_orphans w_compared w_discrepancies w_previous w_recent w_hash w_evidence w_reader w_index_reader w_user]; rewrite ?Hla, ?Hlp.
  - by apply (tiles_snoc _ _ _ _ _ _ _ _ body).
  - by apply picks_keep.
  - apply chain_snoc; [done|lia|done].
  - by rewrite accept_all_app, I4.
  - lia.
  - width_lia.
  - lia.
  - lia.
  - rewrite references_app. simpl. rewrite <- Hcm. destruct compared; lia.
  - by rewrite prev_id_snoc.
  - done.
  - pose proof (blen_nonneg (e_bytes e)). lia.
  - done.
  - done.
  - done.
  - intros x Hx. unfold kept_entries in *. apply list_elem_of_fmap in Hx as (m & -> & Hx). apply elem_of_app.
    destruct (Hrk m Hx) as [Hin| ->]; [left; apply I16, list_elem_of_fmap; by exists m|right; by left].
  - intros m Hx. destruct (Hrk m Hx) as [Hin| ->]; [|simpl; by rewrite Hself].
    rewrite slot_right_other; [by apply I17|]. apply Hold, I16, list_elem_of_fmap. by exists m.
  - rewrite unindexed_app, (unindexed_other _ _ phys e acc Hold). simpl. rewrite Hself. destruct matched; lia.
Qed.

Lemma keep_ok w phys acc e body reference :
  inv w phys acc -> entry_here w e body -> e_number e = w_next w -> follows_here acc e ->
  trusted sha256 refs (e_number e) = reference -> w_evidence w = evid sha256 refs phys ++ evidence_for sha256 refs (e_number e) ->
  step_ok (w_at w) (keep capacity accept index kind begin e reference w).
Proof.
  intros Hi He Hn Hf Hr Hev. destruct (here_facts w phys acc e body Hi He) as (_ & H8 & _). unfold keep.
  pose proof (indexed_at_spec w phys acc e Hi Hn) as Hix'. destruct (indexed_at index begin (e_number e) w) as [[o rd]|f|]; cbn [rbind]; [|done|done].
  destruct Hix' as [-> Hrd]. set (matched := bool_decide (slot_of index begin e = Some (e_offset e))).
  pose proof (ea_limit _ _ _ _ _ _ _ He) as Hlim. pose proof (Haccept e (w_user w) (conj H8 Hlim)) as Hnp. destruct (accept e (w_user w)) as [[[]|f|] user] eqn:Eacc; [|done|done].
  destruct (checked_add32 (e_number e) 1) as [next|] eqn:Enext; cbn [or_err rbind]; [|done].
  pose proof (wi_recent _ _ _ _ _ _ _ _ _ _ _ _ _ Hi) as Hrec. pose proof (wi_recent_acc _ _ _ _ _ _ _ _ _ _ _ _ _ Hi) as Hsub.
  pose proof (wi_chain _ _ _ _ _ _ _ _ _ _ _ _ _ Hi) as Hch. pose proof (wi_next _ _ _ _ _ _ _ _ _ _ _ _ _ Hi) as Hnx.
  assert (Hrem : exists r', (if negb (is_blocks kind) && bool_decide (is_Some reference)
      then remember capacity e (if matched then None else slot_of index begin e) (w_recent w) else Ok (w_recent w)) = Ok r' /\
    recent_ok capacity r' /\ forall m, m ∈ rc_entries r' -> m ∈ rc_entries (w_recent w) \/
      m = mkRemembered e (if matched then None else slot_of index begin e)).
  { destruct (negb (is_blocks kind) && bool_decide (is_Some reference)).
    - destruct (remember_spec capacity Hcap e (if matched then None else slot_of index begin e) (w_recent w) Hrec) as (r' & gone & k & E & Hr' & Hg & Hk).
      { apply list.Forall_forall. intros x Hx%Hsub. pose proof (chain_number _ _ _ _ _ _ Hch Hx). lia. }
      { done. }
      exists r'. split; [done|]. split; [done|]. rewrite Hg. intros m Hm. destruct Hk as [Hk|Hk]; rewrite Hk in Hm; set_solver.
    - exists (w_recent w). split; [done|]. split; [done|]. by left. }
  destruct Hrem as (r' & -> & Hr1 & Hr2). cbn [rbind step_ok w_at]. split; [|lia].
  exists (phys ++ [e]), (acc ++ [e]). split.
  - eapply keep_inv; try done. by rewrite Hr.
  - cbn [w_evidence]. rewrite evid_app, Hev. unfold evid at 3. cbn [fmap list_fmap concat]. by rewrite app_nil_r.
Qed.

Lemma here_body (w : wstate S) e body : entry_here w e body -> e_body e = Ok body.
Proof. intros He. by destruct (at_body _ _ _ _ _ _ _ He). Qed.

(** What [classify] has found out about the block of an entry. *)
Definition evidence (e : Entry) (reference link : option bytes) : Prop :=
  match reference with
  | Some b => exists r h, refs = Some r /\ block sha256 r (e_number e) = Ok (Some b) /\ full_block sha256 b = Ok h /\
      hd_number h = e_number e /\ link = Some (hd_previous h) /\ (is_blocks kind = false -> hd_id h = e_id e)
  | None => link = e_previous e /\ forall r, refs = Some r -> is_blocks kind = true /\ block sha256 r (e_number e) = Ok None
  end.

Definition unlinked (link prev : option bytes) : bool :=
  bool_decide (is_Some link) && bool_decide (is_Some prev) && negb (bool_decide (link = prev)).

Lemma unlinked_spec link p : unlinked link (Some p) = false -> forall l, link = Some l -> l = p.
Proof.
  unfold unlinked. intros H l ->. rewrite !bool_decide_true in H by done. cbn [andb] in H. apply negb_false_iff in H. bools. congruence.
Qed.

Lemma unlinked_true link prev : unlinked link prev = true -> exists l p, link = Some l /\ prev = Some p /\ l <> p.
Proof.
  unfold unlinked. intros H. apply andb_true_iff in H as [H H3]. apply andb_true_iff in H as [H1 H2]. apply negb_true_iff in H3. bools.
  destruct H1 as [l ->], H2 as [p ->]. exists l, p. split; [done|]. split; [done|]. congruence.
Qed.

Definition differs (e : Entry) (reference : option bytes) : Prop :=
  is_blocks kind = true /\ exists b, reference = Some b /\ e_body e <> Ok b.

Lemma evidence_follows (w : wstate S) acc e body reference link :
  entry_here w e body -> evidence e reference link -> unlinked link (prev_id acc (length acc)) = false -> ~ differs e reference ->
  follows_here acc e.
Proof.
  intros He Hev Hu Hdf. pose proof (here_body w e body He) as Hbody. destruct He as [_ _ _ _ Hof]. unfold follows, entry_of in *.
  set (prev := prev_id acc (length acc)) in *. destruct (is_blocks kind) eqn:Hk.
  - destruct Hof as (h' & Hsb & Hid & Hprev). destruct reference as [b|].
    + destruct Hev as (r & h & Hr & Hbl & Hfb & Hnum & -> & _). apply full_block_Ok in Hfb.
      assert (e_body e = Ok b) as Heb.
      { destruct (decide (body = b)) as [->|Hne]; [done|]. exfalso. apply Hdf. split; [done|]. exists b. split; [done|]. rewrite Hbody. congruence. }
      rewrite Hbody in Heb. injection Heb as ->. rewrite Hsb in Hfb. injection Hfb as ->. split.
      * intros p Hp. rewrite Hp in Hu. rewrite Hprev. f_equal. by eapply unlinked_spec.
      * intros r' b' Hr' Hb'. rewrite Hr in Hr'. injection Hr' as <-. rewrite Hbl in Hb'. injection Hb' as <-. done.
    + destruct Hev as [-> Hnone]. split.
      * intros p Hp. rewrite Hp in Hu. rewrite Hprev in *. f_equal. by eapply unlinked_spec.
      * intros r b Hr Hb. destruct (Hnone r Hr) as [_ Hn]. congruence.
  - intros r Hr. destruct reference as [b|]; [|destruct Hev as [_ Hn], (Hn r Hr) as [Hn' _]; congruence].
    destruct Hev as (r' & h & Hr' & Hbl & Hfb & Hnum & -> & Hid). rewrite Hr in Hr'. injection Hr' as <-.
    exists h. split; [by exists b|]. split; [by apply Hid|]. intros p Hp. rewrite Hp in Hu. by eapply unlinked_spec.
Qed.

Lemma evidence_unlinked (w : wstate S) acc e body reference link :
  entry_here w e body -> evidence e reference link -> unlinked link (prev_id acc (length acc)) = true -> ~ follows_here acc e.
Proof.
  intros He Hev Hu Hf. apply unlinked_true in Hu as (l & p & -> & Hp & Hne). pose proof (here_body w e body He) as Hbody.
  destruct He as [_ _ _ _ Hof]. unfold follows, entry_of in *. destruct (is_blocks kind) eqn:Hk.
  - destruct Hof as (h' & Hsb & Hid & Hprev), Hf as [Hf1 Hf2]. specialize (Hf1 p Hp). destruct reference as [b|].
    + destruct Hev as (r & h & Hr & Hbl & Hfb & _ & [= ->] & _). specialize (Hf2 r b Hr Hbl). rewrite Hbody in Hf2. injection Hf2 as ->.
      apply full_block_Ok in Hfb. rewrite Hsb in Hfb. injection Hfb as ->. congruence.
    + destruct Hev as [Hl _]. congruence.
  - destruct reference as [b|].
    + destruct Hev as (r & h & Hr & Hbl & Hfb & _ & [= ->] & _). destruct (Hf r Hr) as (h' & (b' & Hb' & Hfb' & _) & _ & Hpr). specialize (Hpr p Hp). congruence.
    + destruct Hev as [Hl _], Hof as [Hof _]. congruence.
Qed.

Lemma evidence_differs acc e reference link : evidence e reference link -> differs e reference -> ~ follows_here acc e.
Proof.
  intros Hev (Hk & b & -> & Hne) Hf. unfold follows in Hf. rewrite Hk in Hf. destruct Hf as [_ Hf], Hev as (r & h & Hr & Hbl & _). by apply Hne, (Hf r).
Qed.

Lemma evidence_trusted e reference link : evidence e reference link -> trusted sha256 refs (e_number e) = reference.
Proof.
  unfold trusted. destruct reference as [b|].
  - intros (r & h & -> & -> & _). done.
  - intros [_ H]. destruct refs as [r|]; [|done]. by destruct (H r eq_refl) as [_ ->].
Qed.

Lemma stop_ok w phys acc r :
  inv w phys acc -> w_at w < d_size d -> stopped_for (w_at w) acc r -> w_evidence w = evid sha256 refs phys ++ stop_evidence r ->
  step_ok (w_at w) (stop w r).
Proof. intros Hi Hlt Hr Hev. exists phys, acc. split; [done|]. split; [simpl; done|]. exact Hev. Qed.

Lemma check_entry_ok w phys acc e body reference link :
  inv w phys acc -> entry_here w e body -> evidence e reference link ->
  w_evidence w = evid sha256 refs phys ++ evidence_for sha256 refs (e_number e) ->
  step_ok (w_at w) (check_entry capacity accept index kind begin e reference link w).
Proof.
  intros Hi He Hev Hevd. destruct (here_facts w phys acc e body Hi He) as (_ & H8 & _ & Hlt & _). unfold check_entry.
  pose proof (wi_next _ _ _ _ _ _ _ _ _ _ _ _ _ Hi) as Hnx. pose proof (wi_previous _ _ _ _ _ _ _ _ _ _ _ _ _ Hi) as Hpr.
  destruct (Z.eqb_spec (e_number e) (w_next w)) as [Hn|Hn]; cbn [negb].
  2: { apply (stop_ok _ phys acc); [done|done| |done]. exists e, body. split; [done|]. split; [done|]. by rewrite <- Hnx. }
  fold (unlinked link (w_previous w)). rewrite Hpr. destruct (unlinked link _) eqn:Eu.
  { apply (stop_ok _ phys acc); [done|done| |done]. exists e, body. split; [done|]. split; [done|]. by eapply evidence_unlinked. }
  assert (Hkeep : ~ differs e reference -> step_ok (w_at w) (keep capacity accept index kind begin e reference w)).
  { intros Hnd. apply (keep_ok w phys acc e body); [done|done|done|by eapply evidence_follows|by eapply evidence_trusted|done]. }
  pose proof (here_body w e body He) as Hbody.
  destruct (is_blocks kind) eqn:Hk; cbn [rbind]; [|apply Hkeep; intros [? _]; congruence].
  destruct reference as [b|]; cbn [rbind]; [|apply Hkeep; intros (_ & b & ? & _); congruence].
  rewrite Hbody. cbn [rbind]. destruct (decide (b = body)) as [->|Hne].
  - rewrite bool_decide_true by done. cbn [negb]. apply Hkeep. intros (_ & b & [= <-] & Hx). by rewrite Hbody in Hx.
  - rewrite bool_decide_false by done. cbn [negb]. apply (stop_ok _ phys acc); [done|done| |done]. split; [done|]. exists e, body. split; [done|]. split; [done|].
    eapply evidence_differs; [done|]. split; [done|]. exists b. split; [done|]. rewrite Hbody. congruence.
Qed.

Lemma omit_ok w phys acc e body disc recent :
  inv w phys acc -> entry_here w e body -> omittable sha256 kind refs acc e -> recent_ok capacity recent ->
  kept_entries recent = kept_entries (w_recent w) ->
  (forall m, m ∈ rc_entries recent ->
     rm_unmatched_index m = if slot_right index begin (phys ++ [e]) (rm_entry m) then None else slot_of index begin (rm_entry m)) ->
  disc = unindexed index begin (phys ++ [e]) acc ->
  w_evidence w = evid sha256 refs phys ++ evidence_for sha256 refs (e_number e) ->
  step_ok (w_at w) (Ok (Cont (omit e disc recent w))).
Proof.
  intros Hi He Hom Hrec Hk Hm Hdisc Hev. destruct (here_facts w phys acc e body Hi He) as (Ho & H8 & Hle & Hlt & Hh).
  split; [|simpl; lia]. exists (phys ++ [e]), acc. split.
  2: { unfold omit. cbn [w_evidence]. rewrite evid_app, Hev. unfold evid at 3. cbn [fmap list_fmap concat]. by rewrite app_nil_r. }
  destruct Hi as [I1 I2 I3 I4 I5 I6 I7 I8 I9 I10 I11 I12 I13 I14 I15 I16 I17 I18].
  assert (Hlp : blen (phys ++ [e]) = blen phys + 1) by (by rewrite blen_app).
  split; unfold omit; cbn [w_at w_next w_entries w_orphans w_compared w_discrepancies w_previous w_recent w_hash w_evidence w_reader w_index_reader w_user]; rewrite ?Hlp; try done.
  - by apply (tiles_snoc _ _ _ _ _ _ _ _ body).
  - by apply picks_omit.
  - lia.
  - lia.
  - by rewrite Hk.
Qed.

(** The remembered entries and the count, after a copy of one of them. *)
Lemma copy_counts w phys acc e body r' b :
  inv w phys acc -> entry_here w e body -> found e (rc_entries (w_recent w)) (rc_entries r') b ->
  kept_entries r' = kept_entries (w_recent w) ->
  (forall m, m ∈ rc_entries r' ->
     rm_unmatched_index m = if slot_right index begin (phys ++ [e]) (rm_entry m) then None else slot_of index begin (rm_entry m)) /\
  (if b then sub64 (w_discrepancies w) 1 else w_discrepancies w) = unindexed index begin (phys ++ [e]) acc.
Proof.
  intros Hi He (l & m & k & x & Hl & Hn & Hb1 & Hb2 & Hb & Hl') _.
  pose proof (here_before w phys acc e body) as Hbefore. pose proof (wi_picks _ _ _ _ _ _ _ _ _ _ _ _ _ Hi) as Hpk.
  assert (Hall : forall y, y ∈ rc_entries (w_recent w) -> rm_entry y ∈ acc).
  { intros y Hy. apply (wi_recent_acc _ _ _ _ _ _ _ _ _ _ _ _ _ Hi). unfold kept_entries. apply list_elem_of_fmap. by exists y. }
  pose proof (wi_unmatched _ _ _ _ _ _ _ _ _ _ _ _ _ Hi) as Hu. pose proof (wi_discrepancies _ _ _ _ _ _ _ _ _ _ _ _ _ Hi) as Hd1.
  pose proof (wi_chain _ _ _ _ _ _ _ _ _ _ _ _ _ Hi) as Hch. pose proof (wi_next_u32 _ _ _ _ _ _ _ _ _ _ _ _ _ Hi) as Hn32.
  pose proof (wi_next _ _ _ _ _ _ _ _ _ _ _ _ _ Hi) as Hnx.
  assert (Hin : m ∈ rc_entries (w_recent w)) by (rewrite Hl; set_solver). pose proof (Hall m Hin) as Hma.
  assert (Hsame : same_entry (rm_entry m) e = true).
  { unfold same_entry. rewrite Hn, Z.eqb_refl, Hb1, Hb2. by rewrite bool_decide_true. }
  assert (Hoff : e_offset (rm_entry m) <= e_offset e).
  { apply Z.lt_le_incl, (Hbefore _ Hi He). by eapply picks_sub. }
  pose proof (Hu m Hin) as Hum.
  assert (Hbb : b = negb (slot_right index begin phys (rm_entry m)) && bool_decide (slot_of index begin (rm_entry m) = Some (e_offset e))).
  { rewrite Hb, Hum. by destruct (slot_right index begin phys (rm_entry m)). }
  split.
  - intros y Hy. rewrite Hl' in Hy.
    assert (Hys : (y ∈ rc_entries (w_recent w) /\ (rm_entry y = rm_entry m -> b = false)) \/ (b = true /\ y = mkRemembered (rm_entry m) None)).
    { assert (Hnd : forall z, z ∈ l ++ k -> e_number (rm_entry z) <> e_number (rm_entry m)).
      { pose proof (rk_sorted _ _ (wi_recent _ _ _ _ _ _ _ _ _ _ _ _ _ Hi)) as Hs. unfold kept_entries in Hs. rewrite Hl, fmap_app, fmap_cons in Hs.
        intros z Hz. apply elem_of_app in Hz as [Hz|Hz].
        - assert (rm_entry z ∈ rm_entry <$> l) as Hz' by (apply list_elem_of_fmap; by exists z). pose proof (sorted_app_lt _ _ _ _ Hs Hz'). lia.
        - assert (rm_entry z ∈ rm_entry <$> k) as Hz' by (apply list_elem_of_fmap; by exists z). pose proof (sorted_app_gt _ _ _ _ Hs Hz'). lia. }
      apply elem_of_app in Hy as [Hy|Hy]; [|apply elem_of_cons in Hy as [->|Hy]].
      - left. split; [rewrite Hl; set_solver|]. intros E. exfalso. apply (Hnd y); [set_solver|by rewrite E].
      - destruct b; [by right|left]. done.
      - left. split; [rewrite Hl; set_solver|]. intros E. exfalso. apply (Hnd y); [set_solver|by rewrite E]. }
    destruct Hys as [[Hy1 Hy2]|[Hbt ->]].
    + rewrite (Hu y Hy1), slot_right_snoc. destruct (slot_right index begin phys (rm_entry y)) eqn:Er; [done|]. simpl.
      destruct ((_ <=? _) && same_entry (rm_entry y) e && bool_decide _) eqn:Ec; [|done].
      apply andb_true_iff in Ec as [Ec Ec2]. apply andb_true_iff in Ec as [_ Ec]. unfold same_entry in Ec.
      apply andb_true_iff in Ec as [Ec _]. apply Z.eqb_eq in Ec.
      assert (rm_entry y = rm_entry m) as Eym by (eapply chain_unique; [exact Hch|by apply Hall|done|congruence]).
      specialize (Hy2 Eym). rewrite Eym in Er, Ec2. rewrite Hy2, Er, Ec2 in Hbb. done.
    + simpl. rewrite slot_right_snoc, Hsame, (proj2 (Z.leb_le _ _) Hoff). cbn [andb]. rewrite Hbt in Hbb. symmetry in Hbb.
      apply andb_true_iff in Hbb as [_ ->]. by rewrite orb_true_r.
  - rewrite (unindexed_copy sha256 index kind begin refs phys e acc (rm_entry m)), <- Hbb, <- Hd1 by done. destruct b; [|lia].
    assert (H1 : 1 <= w_discrepancies w <= blen acc).
    { rewrite Hd1. split; [|apply unindexed_bound]. pose proof (unindexed_copy sha256 index kind begin refs phys e acc (rm_entry m) Hch Hma Hoff Hsame) as H.
      rewrite <- Hbb in H. pose proof (unindexed_bound index begin (phys ++ [e]) acc). lia. }
    apply Z.mod_small. width_lia.
Qed.

Lemma select_ok w phys acc e body reference link :
  inv w phys acc -> entry_here w e body -> evidence e reference link ->
  w_evidence w = evid sha256 refs phys ++ evidence_for sha256 refs (e_number e) ->
  step_ok (w_at w) (select capacity accept index kind begin e reference link w).
Proof.
  intros Hi He Hev Hevd. destruct (here_facts w phys acc e body Hi He) as (_ & H8 & _ & Hlt & _). unfold select.
  destruct (negb (is_blocks kind) && bool_decide (is_Some reference) && (e_number e <? w_next w)) eqn:E; [|by eapply check_entry_ok].
  apply andb_true_iff in E as [E _]. apply andb_true_iff in E as [Hk Href]. apply negb_true_iff in Hk. bools. destruct Href as [b ->].
  pose proof (wi_recent _ _ _ _ _ _ _ _ _ _ _ _ _ Hi) as Hrec. pose proof (wi_recent_acc _ _ _ _ _ _ _ _ _ _ _ _ _ Hi) as Hsub.
  destruct (duplicate_spec capacity e (w_recent w) Hrec H8) as (o & r' & -> & Hr' & Hkept & Ho). cbn [rbind fst snd].
  destruct o as [ix|]; [|by eapply check_entry_ok].
  destruct (copy_counts w phys acc e body r' ix Hi He Ho Hkept) as [Hm Hdisc].
  destruct Ho as (l & m & k & x & Hl & Hno & Hb1 & Hb2 & _).
  apply (omit_ok w phys acc e body); [done|done| |done|done|done|done|done].
  split; [done|]. destruct Hev as (r & h & Hr & Hbl & Hfb & Hnum & _ & Hid). exists r, h. split; [done|]. split; [by exists b|].
  right. exists (rm_entry m), x. split; [|done]. apply Hsub. unfold kept_entries. apply list_elem_of_fmap. exists m. split; [done|]. rewrite Hl. set_solver.
Qed.

Lemma add_evidence_inv w phys acc b : inv w phys acc -> inv (add_evidence b w) phys acc.
Proof. intros [I1 I2 I3 I4 I5 I6 I7 I8 I9 I10 I11 I12 I13 I14 I15 I16 I17 I18]. by split. Qed.

Lemma set_reader_inv w phys acc rd : ra_ok d rd -> inv w phys acc -> inv (set_reader rd w) phys acc.
Proof. intros Hrd [I1 I2 I3 I4 I5 I6 I7 I8 I9 I10 I11 I12 I13 I14 I15 I16 I17 I18]. by split. Qed.

(** Entries with the same body have the same id. *)
Lemma same_id acc phys w e body x :
  inv w phys acc -> entry_here w e body -> is_blocks kind = false -> x ∈ acc -> same_entry x e = true -> e_id x = e_id e.
Proof.
  intros Hi He Hk Hx Hs. assert (Hxp : x ∈ phys) by (eapply picks_sub; [exact (wi_picks _ _ _ _ _ _ _ _ _ _ _ _ _ Hi)|done]).
  destruct (tiles_at _ _ _ _ _ _ _ _ (wi_tiles _ _ _ _ _ _ _ _ _ _ _ _ _ Hi) Hxp) as (at_ & xb & Hxa).
  destruct (at_body _ _ _ _ _ _ _ Hxa) as [Hb1 Hl1], (at_body _ _ _ _ _ _ _ He) as [Hb2 Hl2].
  unfold same_entry in Hs. rewrite Hb1, Hb2 in Hs. apply andb_true_iff in Hs as [_ Hs]. bools. subst xb.
  pose proof (ea_limit _ _ _ _ _ _ _ He) as Hlim. assert (Hbl : blen body < U64) by (unfold MAX_BYTES in Hlim; width_lia).
  destruct Hxa as [_ _ _ _ Hxo], He as [_ _ _ _ Heo]. unfold entry_of in *. rewrite Hk in *.
  destruct Hxo as [_ [r1 H1]], Heo as [_ [r2 H2]]. apply ship_body_size in H1 as (_ & _ & H1); [|done].
  apply ship_body_size in H2 as (_ & _ & H2); [|done]. congruence.
Qed.

(** An entry the trusted block contradicts is no copy of an accepted one. *)
Lemma fork_differs acc phys w e body r h x :
  inv w phys acc -> entry_here w e body -> is_blocks kind = false -> refs = Some r -> reference_of sha256 r e h -> hd_id h <> e_id e ->
  x ∈ acc -> same_entry x e = false.
Proof.
  intros Hi He Hk Hr (b & Hb & Hfb & _) Hid Hx. apply not_true_is_false. intros Hs.
  pose proof (same_id acc phys w e body x Hi He Hk Hx Hs) as Hids. apply list_elem_of_lookup in Hx as [i Hxi].
  destruct (wi_chain _ _ _ _ _ _ _ _ _ _ _ _ _ Hi i x Hxi) as [_ Hf]. unfold follows in Hf. rewrite Hk in Hf.
  destruct (Hf r Hr) as (h' & (b' & Hb' & Hfb' & _) & Hid' & _). unfold same_entry in Hs. apply andb_true_iff in Hs as [Hs _].
  apply Z.eqb_eq in Hs. rewrite <- Hs, Hb in Hb'. injection Hb' as <-. rewrite Hfb in Hfb'. injection Hfb' as <-. congruence.
Qed.

Lemma classify_ok w phys acc e body :
  inv w phys acc -> entry_here w e body -> w_evidence w = evid sha256 refs phys ->
  step_ok (w_at w) (classify sha256 capacity accept index kind begin refs e w).
Proof.
  intros Hi He Hevd. destruct (here_facts w phys acc e body Hi He) as (_ & _ & _ & Hlt & _). unfold classify.
  assert (Href : is_panic (match refs with Some r => block sha256 r (e_number e) | None => Ok None end) = false).
  { destruct refs as [r|]; [|done]. by apply (block_no_panic zlib). }
  destruct (match refs with Some r => block sha256 r (e_number e) | None => Ok None end) as [[b|]|f|] eqn:Eb; cbn [rbind]; [| |done|done].
  - assert (Hr : exists r, refs = Some r /\ block sha256 r (e_number e) = Ok (Some b) /\ loaded_ok r).
    { clear Href Hevd. destruct refs as [r|]; [by exists r|done]. }
    destruct Hr as (r & Er & Ebl & Hok). pose proof (full_block_no_panic sha256 b ltac:(pose proof (block_len zlib sha256 r _ _ Hok Ebl); width_lia)) as Hnp.
    destruct (full_block sha256 b) as [h|f|] eqn:Eh; cbn [rbind]; [|done|done].
    destruct (Z.eqb_spec (hd_number h) (e_number e)) as [En|]; cbn [ensure rbind]; [|done].
    apply (add_evidence_inv _ _ _ (evidence_of (e_number e) b)) in Hi. set (w' := add_evidence _ w) in *. change (w_at w) with (w_at w').
    change (entry_here w' e body) in He. cbn zeta.
    assert (Hevd' : w_evidence w' = evid sha256 refs phys ++ evidence_for sha256 refs (e_number e)).
    { unfold w', add_evidence. cbn [w_evidence]. rewrite Hevd. unfold evidence_for, trusted. by rewrite Er, Ebl. }
    destruct (negb (is_blocks kind) && negb (bool_decide (hd_id h = e_id e))) eqn:E.
    + apply andb_true_iff in E as [Hk%negb_true_iff Hid%negb_true_iff]. bools.
      assert (Hro : reference_of sha256 r e h) by (by exists b).
      assert (Hdf : forall x, x ∈ acc -> same_entry x e = false) by (intros x; by eapply fork_differs).
      apply (omit_ok w' phys acc e body); [done|done| |by apply Hi|done| | |done].
      * split; [done|]. exists r, h. split; [done|]. split; [done|by left].
      * intros m Hm. rewrite slot_right_other; [by apply Hi|]. apply Hdf. apply Hi. unfold kept_entries. apply list_elem_of_fmap. by exists m.
      * rewrite unindexed_other by done. apply Hi.
    + apply (select_ok w' phys acc e body); [done|done| |done]. exists r, h. split; [done|]. split; [done|]. split; [done|]. split; [done|]. split; [done|].
      intros Hk. rewrite Hk in E. cbn [negb andb] in E. apply negb_false_iff in E. by bools.
  - assert (Hno : evidence_for sha256 refs (e_number e) = []).
    { unfold evidence_for, trusted. destruct refs as [r|]; [|done]. by rewrite Eb. }
    destruct (negb (is_blocks kind) && bool_decide (is_Some refs)) eqn:E.
    + apply andb_true_iff in E as [Hk%negb_true_iff Hs]. bools. destruct Hs as [r Hr]. rewrite Hr in Eb.
      apply (stop_ok _ phys acc); [done|done| |by rewrite app_nil_r]. split; [done|]. exists e, body, r. done.
    + apply (select_ok w phys acc e body); [done|done| |by rewrite Hno, app_nil_r]. split; [done|]. intros r Hr. rewrite Hr in Eb. split; [|done].
      rewrite Hr in E. rewrite bool_decide_true, andb_true_r in E by done. by apply negb_false_iff.
Qed.

Lemma walk_step_ok w phys acc :
  inv w phys acc -> w_evidence w = evid sha256 refs phys -> step_ok (w_at w) (walk_step sha256 capacity accept d index kind begin refs w).
Proof.
  intros Hi Hevd. pose proof (wi_at _ _ _ _ _ _ _ _ _ _ _ _ _ Hi) as Hat. unfold walk_step.
  destruct (Z.ltb_spec (w_at w) (d_size d)); cbn [negb].
  2: { exists phys, acc. split; [done|]. split; [simpl; lia|]. unfold final_evidence. by rewrite app_nil_r. }
  pose proof (entry_spec sha256 d Hd (w_at w) kind (w_reader w) ltac:(lia) ltac:(by apply Hi)) as [Hrd He].
  pose proof (whole_entry_no_panic zlib sha256 kind (d_data d) (w_at w) ltac:(unfold d_size in *; lia) Hd) as Hnp.
  destruct (entry sha256 d (w_at w) (d_size d) kind (w_reader w)) as [[e|f|] rd]; cbn [fst snd] in *.
  - destruct He as [He|[i He]]; [|done]. symmetry in He.
    apply (whole_entry_sound zlib sha256) in He as [body He]; [|unfold d_size in *; lia|done].
    change (w_at w) with (w_at (set_reader rd w)). apply (classify_ok _ phys acc e body); [by apply set_reader_inv|done|done].
  - destruct (is_io f) eqn:Eio; [done|]. apply (set_reader_inv _ _ _ _ Hrd) in Hi. apply (stop_ok (set_reader rd w) phys acc); [done|done| |by rewrite app_nil_r].
    destruct He as [He|[i He]]; [|injection He as ->; done]. split; [by rewrite He|done].
  - destruct He as [He|[i He]]; [by rewrite <- He in Hnp|done].
Qed.

Lemma walk_start_inv :
  blen (st_bytes begin) <= d_size d -> st_bytes begin = take (Z.to_nat (blen (st_bytes begin))) (d_data d) ->
  inv (walk_start begin user0) [] [].
Proof.
  intros Hl Hb. split; unfold walk_start; cbn [w_at w_next w_entries w_orphans w_compared w_discrepancies w_previous w_recent w_hash w_evidence w_reader w_index_reader w_user].
  - done.
  - constructor.
  - intros i e Hi. by rewrite lookup_nil in Hi.
  - done.
  - unfold blen. simpl. lia.
  - lia.
  - done.
  - done.
  - done.
  - done.
  - exact Hb.
  - pose proof (blen_nonneg (st_bytes begin)). lia.
  - apply ra_new_ok.
  - destruct index; [apply ra_new_ok|done].
  - by apply recent_default_ok.
  - intros x Hx. by apply elem_of_nil in Hx.
  - intros m Hm. by apply elem_of_nil in Hm.
  - done.
Qed.

Lemma walk_loop_spec :
  blen (st_bytes begin) <= d_size d -> st_bytes begin = take (Z.to_nat (blen (st_bytes begin))) (d_data d) ->
  match loop_ (walk_iter sha256 capacity accept d index kind begin refs) () (walk_start begin user0) with
  | (Ok f, w) => exists phys acc, inv w phys acc /\ ended w acc f /\ w_evidence w = final_evidence phys f
  | (Err _, _) => True
  | (Panic, _) => False
  end.
Proof.
  intros Hl Hb. set (x := loop_ _ _ _).
  cut (match x.1 with Ok f => exists phys acc, inv x.2 phys acc /\ ended x.2 acc f /\ w_evidence x.2 = final_evidence phys f | Err _ => True | Panic => False end); [by destruct x as [[f|e|] w]|].
  apply (loop_spec (fun _ w => exists phys acc, inv w phys acc /\ w_evidence w = evid sha256 refs phys) (fun _ w => d_size d - w_at w)
    (fun r w => match r with Ok f => exists phys acc, inv w phys acc /\ ended w acc f /\ w_evidence w = final_evidence phys f | Err _ => True | Panic => False end)).
  - intros [] w (phys & acc & Hi & Hevd). pose proof (walk_step_ok w phys acc Hi Hevd) as Hs. unfold walk_iter.
    destruct (walk_step _ _ _ _ _ _ _ _ w) as [[w'|[w' f]]|e|]; [|exact Hs|done|done].
    destruct Hs as [(phys' & acc' & Hi' & Hevd') Hlt]. split; [by exists phys', acc'|].
    pose proof (wi_at _ _ _ _ _ _ _ _ _ _ _ _ _ Hi'). lia.
  - exists [], []. split; [by apply walk_start_inv|done].
  - cbn [w_at walk_start]. pose proof (blen_nonneg (st_bytes begin)). unfold disk_ok in Hd. change (2 ^ 65) with 36893488147419103232. change (2 ^ 63) with 9223372036854775808 in Hd. lia.
Qed.
End Steps.

(** ** Hashing *)

(** [hash_range] feeds exactly the bytes of the range, whatever the pieces. *)
Lemma hash_range_spec d from to acc :
  disk_ok d -> 0 <= from <= to -> to <= d_size d ->
  match hash_range d from to acc with
  | Ok b => exists x, slice (d_data d) from (to - from) = Some x /\ b = acc ++ x
  | Err e => is_io e = true
  | Panic => False
  end.
Proof.
  intros Hd Hf Ht. unfold hash_range. set (r := loop_ _ _ _).
  apply (loop_spec (fun a _ => exists x, from <= a.1 <= to /\ slice (d_data d) from (a.1 - from) = Some x /\ a.2 = acc ++ x)
    (fun a _ => to - a.1)
    (fun r _ => match r with Ok b => exists x, slice (d_data d) from (to - from) = Some x /\ b = acc ++ x | Err e => is_io e = true | Panic => False end)).
  - intros [p b] [] (x & Hp & Hx & Hb). cbn [fst snd] in *. subst b. unfold hash_iter. destruct (Z.ltb_spec p to); cbn [sret].
    + cbv zeta. set (n := Z.min (to - p) (Z.shiftl 16 20)). assert (Hn : 0 < n <= to - p) by (unfold n; change (Z.shiftl 16 20) with 16777216; lia).
      rewrite sbind_run. unfold slift. destruct (read_cases d p n) as [(c & -> & Hc)|(i & ->)]; [apply inside_pos; lia| |done].
      cbn [sret fst snd]. split; [|lia]. exists (x ++ c). split; [lia|]. split; [|by rewrite app_assoc].
      pose proof (slice_blen _ _ _ _ Hx) as Lx. pose proof (slice_blen _ _ _ _ Hc) as Lc.
      replace (p + n - from) with (blen x + blen c) by lia. apply slice_cat. rewrite Lx, Lc. by replace (from + (p - from)) with p by lia.
    + exists x. replace to with p by lia. done.
  - exists []. cbn [fst snd]. split; [lia|]. rewrite app_nil_r, Z.sub_diag. split; [|done]. apply slice_Some. unfold d_size in *. split_and!; (done || lia).
  - cbn [fst]. unfold disk_ok in Hd. change (2 ^ 65) with 36893488147419103232. change (2 ^ 63) with 9223372036854775808 in Hd. lia.
Qed.

Section Result.
Context {F : Flate} {R : FlateReset F} (zlib : bytes -> option bytes) {L : FlateLaws F zlib}
  {RL : ResetLaws F zlib} (sha256 : bytes -> bytes) (capacity : bytes -> Z).
Context {S : Type} (accept : Entry -> M fault S ()) (d : Disk) (index : option Disk) (kind : Kind) (begin : Start)
  (refs : option Loaded).

Definition slots : Z := (match index with Some i => d_size i | None => 0 end + 7) / 8.

(** What a summary says of the file, of the physical entries [phys] and the accepted ones [acc]. *)
Record walked (user user' : S) (sm : Summary) (phys acc : list Entry) : Prop := {
  wk_tiles : tiles zlib sha256 d kind (blen (st_bytes begin)) phys (sm_physical_prefix_end sm);
  wk_picks : picks sha256 kind refs phys acc;
  wk_chain : chain sha256 kind begin refs acc;
  wk_user : accept_all accept acc user = (Ok (), user');
  wk_first : sm_first_block sm = st_first begin;
  wk_entries : sm_entries sm = blen acc;
  wk_last : sm_last_block sm = if 0 <? blen acc then Some (st_first begin + blen acc - 1) else None;
  wk_last_u32 : st_first begin + blen acc <= u32_max;
  wk_omitted : sm_omitted_fork_entries sm = blen phys - blen acc;
  wk_compared : sm_reference_checked_entries sm = references sha256 refs acc /\
    (is_blocks kind = false -> refs <> None -> sm_reference_checked_entries sm = blen acc);
  wk_evidence : sm_reference_evidence_sha256 sm = sha256 (final_evidence sha256 refs phys (sm_failure sm));
  wk_end : 0 <= sm_physical_prefix_end sm <= d_size d;
  wk_prefix : sm_physical_prefix_sha256 sm = sha256 (take (Z.to_nat (sm_physical_prefix_end sm)) (d_data d));
  wk_suffix : sm_excluded_suffix_sha256 sm = sha256 (drop (Z.to_nat (sm_physical_prefix_end sm)) (d_data d)) /\
    sm_excluded_suffix_bytes sm = d_size d - sm_physical_prefix_end sm;
  wk_input : sm_input_sha256 sm = sha256 (d_data d);
  wk_index : sm_index_sha256 sm = (fun i => sha256 (d_data i)) <$> index;
  wk_index_parts : let cut := Z.to_nat (Z.min (blen acc * 8) (index_bytes index)) in
    sm_index_prefix_sha256 sm = (fun i => sha256 (take cut (d_data i))) <$> index /\
    sm_index_suffix_sha256 sm = (fun i => sha256 (drop cut (d_data i))) <$> index;
  wk_index_size : sm_index_present sm = bool_decide (is_Some index) /\ sm_index_bytes sm = index_bytes index /\
    sm_index_partial_bytes sm = index_bytes index mod 8;
  wk_hint : sm_indexed_head_hint sm =
    (let head := st_first begin + slots - 1 in if (0 <? slots) && (head <? u32_max) then Some head else None);
  wk_discrepancies : sm_index_discrepancies sm = unindexed index begin phys acc + Z.max 0 (slots - blen acc);
  wk_failure : match sm_failure sm with
    | None => sm_physical_prefix_end sm = d_size d
    | Some f => f_offset f = sm_physical_prefix_end sm /\ sm_physical_prefix_end sm < d_size d /\
        f_next_block f = st_first begin + blen acc /\
        stopped_for zlib sha256 d kind begin refs (sm_physical_prefix_end sm) acc (f_reason f)
    end
}.

Hypothesis Hd : disk_ok d.
Hypothesis Hix : match index with Some i => disk_ok i | None => True end.

(** The whole index is hashed, in two parts. *)
Lemma index_hashes_spec entries :
  0 <= entries ->
  let cut := Z.to_nat (Z.min (entries * 8) (index_bytes index)) in
  match (match index with
    | Some i =>
        let cut := Z.min (entries * 8) (index_bytes index) in
        let? prefix := hash_range i 0 cut [] in
        let? rest := hash_suffix sha256 i cut (index_bytes index) prefix in
        Ok (Some (sha256 rest.2, sha256 prefix, rest.1))
    | None => Ok None
    end) with
  | Ok h => h = (fun i => (sha256 (d_data i), sha256 (take cut (d_data i)), sha256 (drop cut (d_data i)))) <$> index
  | Err _ => True
  | Panic => False
  end.
Proof.
  intros He. cbv zeta. destruct index as [i|]; [|done]. cbv zeta. unfold index_bytes. assert (Hi : 0 <= d_size i) by apply blen_nonneg.
  set (cut := Z.min _ _). pose proof (hash_range_spec i 0 cut [] Hix ltac:(lia) ltac:(lia)) as H1.
  destruct (hash_range i 0 cut []) as [p|e|]; cbn [rbind]; [|done|done]. destruct H1 as (x & Hx & ->). unfold hash_suffix.
  pose proof (hash_range_spec i cut (d_size i) [] Hix ltac:(lia) ltac:(lia)) as H2.
  destruct (hash_range i cut (d_size i) []) as [q|e|]; cbn [rbind]; [|done|done]. destruct H2 as (y & Hy & ->). cbn [fst snd fmap option_fmap option_map app].
  rewrite Z.sub_0_r in Hx. apply slice_Some in Hx as (_ & _ & _ & ->). change (Z.to_nat 0) with 0%nat. rewrite drop_0.
  apply slice_Some in Hy as (_ & _ & _ & ->). rewrite (take_ge (drop _ _)) by (rewrite length_drop; unfold d_size, blen in *; lia).
  by rewrite take_drop.
Qed.

Lemma summarize_spec user0 w phys acc failure :
  winv zlib sha256 capacity accept d index kind begin refs user0 w phys acc -> ended zlib sha256 d kind begin refs w acc failure ->
  w_evidence w = final_evidence sha256 refs phys failure -> 0 < st_first begin < u32_max ->
  match summarize sha256 d index begin w failure with
  | Ok sm => walked user0 (w_user w) sm phys acc
  | Err _ => True
  | Panic => False
  end.
Proof.
  intros Hi He Hevd Hfirst. destruct Hi as [I1 I2 I3 I4 I5 I6 I7 I8 I9 I10 I11 I12 I13 I14 I15 I16 I17 I18]. unfold summarize, hash_suffix at 1.
  pose proof (hash_range_spec d (w_at w) (d_size d) [] Hd ltac:(lia) ltac:(lia)) as Hh.
  destruct (hash_range d (w_at w) (d_size d) []) as [tail|e|]; cbn [rbind]; [|done|done]. destruct Hh as (x & Hx & ->).
  cbn [app fst snd]. pose proof (index_hashes_spec (w_entries w) ltac:(rewrite I7; apply blen_nonneg)) as Hih. cbv zeta in Hih.
  match goal with |- match rbind ?m _ with _ => _ end => destruct m as [h|e|]; cbn [rbind]; [|done|done] end. rewrite I7 in Hih.
  assert (Hx' : x = drop (Z.to_nat (w_at w)) (d_data d)).
  { apply slice_Some in Hx as (_ & _ & _ & ->). apply take_ge. rewrite length_drop. unfold d_size, blen in *. lia. }
  assert (Hall : w_hash w ++ x = d_data d) by (rewrite I11, Hx'; apply take_drop).
  assert (Hsz : 0 <= index_bytes index < 2 ^ 63).
  { unfold index_bytes. destruct index as [i|]; [|done]. split; [apply blen_nonneg|exact Hix]. }
  assert (Hsl : 0 <= slots < 2 ^ 61).
  { unfold slots. fold (index_bytes index). split; [apply Z.div_pos; lia|]. apply Z.div_lt_upper_bound; [done|].
    change (8 * 2 ^ 61) with 18446744073709551616. change (2 ^ 63) with 9223372036854775808 in Hsz. lia. }
  split; cbn [sm_first_block sm_last_block sm_entries sm_physical_prefix_end sm_physical_prefix_sha256 sm_excluded_suffix_sha256
    sm_excluded_suffix_bytes sm_omitted_fork_entries sm_reference_checked_entries sm_input_sha256 sm_reference_evidence_sha256
    sm_index_present sm_index_bytes sm_index_partial_bytes sm_index_sha256 sm_index_prefix_sha256 sm_index_suffix_sha256
    sm_indexed_head_hint sm_index_discrepancies sm_failure]; try done.
  - rewrite I7. destruct (0 <? blen acc); [|done]. f_equal. lia.
  - lia.
  - lia.
  - split; [done|]. intros Hk Hr. rewrite I9. by apply (references_all sha256 kind begin).
  - by rewrite Hevd.
  - by rewrite I11.
  - split; [by rewrite Hx'|done].
  - by rewrite Hall.
  - rewrite Hih. by destruct index.
  - cbv zeta. rewrite Hih. by destruct index.
  - change ((index_bytes index + 7) / 8) with slots. destruct (Z.eqb_spec slots 0) as [E0|]; [by rewrite E0|]. rewrite (proj2 (Z.ltb_lt 0 slots)) by lia. cbn [andb].
    unfold checked_add64. change (2 ^ 61) with 2305843009213693952 in Hsl. replace (st_first begin + (slots - 1)) with (st_first begin + slots - 1) by lia.
    destruct (Z.ltb_spec (st_first begin + slots - 1) U64); [done|]. widths. lia.
  - rewrite I7, I18. change ((index_bytes index + 7) / 8) with slots. unfold sat_sub. lia.
  - unfold ended in He. destruct failure as [f|]; [|done]. by rewrite <- I5.
Qed.
End Result.

Section Walks.
Context {F : Flate} {R : FlateReset F} (zlib : bytes -> option bytes) {L : FlateLaws F zlib}
  {RL : ResetLaws F zlib} (sha256 : bytes -> bytes) (capacity : bytes -> Z).
Hypothesis Hcap : forall b, blen b <= capacity b.

(** The files and sources of a run: files the system can hold, source logs that were opened. *)
Record inputs_ok (d : Disk) (index : option Disk) (refs : option Loaded) : Prop := {
  in_disk : disk_ok d;
  in_index : match index with Some i => disk_ok i | None => True end;
  in_refs : match refs with Some r => loaded_ok r | None => True end
}.

Lemma start_no_panic d kind : disk_ok d -> is_panic (start sha256 d kind) = false.
Proof.
  intros Hd. unfold start. unfold disk_ok, d_size in *. pose proof (blen_nonneg (d_data d)). destruct (is_blocks kind).
  - set (n := Z.min _ _). pose proof (disk_read_spec d 0 n ltac:(unfold inside, d_size, n; change (Z.shiftl 1 20) with 1048576; lia)) as Hr.
    destruct (read d 0 n) as [b|e|]; cbn [rbind]; [|done|done]. destruct Hr as [Hs _]. apply slice_blen in Hs as Hl.
    assert (Hb : blen b < U64) by (unfold n in Hl; width_lia).
    pose proof (preamble_walk_safe sha256 (mkCursor b 0) (new_cursor_wf b Hb)) as (Hp & _). unfold preamble.
    by destruct (preamble_walk sha256 (mkCursor b 0)) as [[[f i]|e|] c].
  - destruct (Z.leb_spec 48 (blen (d_data d))); cbn [ensure rbind]; [|done].
    pose proof (disk_read_spec d 0 48 ltac:(by apply inside_pos)) as Hr. destruct (read d 0 48) as [h|e|]; cbn [rbind]; [|done|done].
    destruct Hr as [Hs _]. apply slice_blen in Hs as Hl. destruct (u64_in_total h 0) as (m & -> & _); [lia|lia|]. cbn [rbind].
    unfold check_magic. destruct (unsupported_ship_magic m); cbn [rbind]; [done|]. unfold be32_in.
    destruct (slice_is_Some h 8 4) as [s ->]; [lia|lia|lia|]. cbn [or_panic rbind]. by destruct (_ && _).
Qed.

Lemma walk_spec {S} (accept : Entry -> M fault S ()) d index kind begin refs user :
  inputs_ok d index refs -> (forall e s, 8 <= blen (e_bytes e) <= MAX_BYTES -> is_panic (accept e s).1 = false) ->
  match walk sha256 capacity accept d index kind begin refs user with
  | Ok (sm, user') => start sha256 d kind = Ok begin /\ exists phys acc, walked zlib sha256 accept d index kind begin refs user user' sm phys acc
  | Err _ => True
  | Panic => False
  end.
Proof.
  intros [Hd Hix Hrefs] Hacc. unfold walk. pose proof (start_no_panic d kind Hd) as Hsp.
  destruct (start sha256 d kind) as [actual|e|] eqn:Es; cbn [rbind]; [|done|done].
  destruct (bool_decide (actual = begin)) eqn:Eb; cbn [ensure rbind]; [|done]. bools. subst actual.
  destruct (start_facts sha256 d kind begin Hd Es) as (Hf & Hl & Hb).
  pose proof (walk_loop_spec zlib sha256 capacity accept d index kind begin refs user Hcap Hd Hix Hrefs Hacc Hf Hl Hb) as Hw.
  destruct (loop_ _ () _) as [[failure|e|] w]; [|done|done]. destruct Hw as (phys & acc & Hi & He & Hevd).
  pose proof (summarize_spec zlib sha256 capacity accept d index kind begin refs Hd Hix user w phys acc failure Hi He Hevd Hf) as Hs.
  destruct (summarize _ _ _ _ w failure) as [sm|e|]; cbn [rbind]; [|done|done]. split; [done|]. by exists phys, acc.
Qed.
End Walks.

(** ** Properties *)

(** C8: a walk that ends without error has read physical entries that tile the file from its preamble to the
    end it reports, and accepted those that form one chain: consecutive numbers from the first block, each linked
    to the one before (by the trusted block with its id for a SHIP entry), none different from a trusted block.
    Every entry it left out is one the trusted blocks contradict, or a byte-identical copy of one accepted before.
    The callback saw exactly the accepted entries, in order. The digests are those of the prefix, of the rest and of
    the whole file; of the index up to the slots of the accepted entries, of the rest of it and of the whole; and, for
    the reference evidence, of the numbers, lengths and bytes of the trusted blocks of the entries read, in order, and
    of the one it stopped at when that one was compared. The counts are exact: entries accepted, left out, and with a
    trusted block; accepted entries whose index slot is missing or names neither the entry nor a copy of it further
    on, together with the slots in excess. The head the index hints at is that of its last slot. It stopped at the end of
    the file, or at bytes that are no entry, or at an entry it could not place. It ends and does not panic, on any
    file. *)
Theorem walk_exact (F : Flate) (R : FlateReset F) (zlib : bytes -> option bytes) (L : FlateLaws F zlib)
    (RL : ResetLaws F zlib) (sha256 : bytes -> bytes) (capacity : bytes -> Z) (S : Type) (accept : Entry -> M fault S ())
    (d : Disk) (index : option Disk) (kind : Kind) (begin : Start) (refs : option Loaded) (user : S)
    (Hcap : forall b, blen b <= capacity b) (Hin : inputs_ok d index refs)
    (Hacc : forall e s, 8 <= blen (e_bytes e) <= MAX_BYTES -> is_panic (accept e s).1 = false) :
  is_panic (walk sha256 capacity accept d index kind begin refs user) = false /\
  forall sm user', walk sha256 capacity accept d index kind begin refs user = Ok (sm, user') ->
    exists phys acc, walked zlib sha256 accept d index kind begin refs user user' sm phys acc.
Proof.
  pose proof (walk_spec zlib sha256 capacity Hcap accept d index kind begin refs user Hin Hacc) as Hw.
  destruct (walk sha256 capacity accept d index kind begin refs user) as [[sm user']|e|]; [|done|done]. split; [done|].
  intros sm2 user2 [= <- <-]. by destruct Hw as [_ ?].
Qed.

(** Example: a block log with one block and a torn second one, its index one slot ahead. *)
Definition exw_start : Start := mkStart 1 exf_preamble (Some (exf_sha exf_genesis)).
Definition exw_block1 : bytes :=
  List.repeat x00 14 ++ List.repeat x00 32 ++ List.repeat x00 68 ++ [x00; x00] ++ List.repeat x00 66 ++ [x00; x00].
Definition exw_log : bytes := exf_preamble ++ exw_block1 ++ le_bytes 8 (blen exf_preamble) ++ List.firstn 100 exf_block.
Definition exw_index : bytes := le_bytes 8 (blen exf_preamble) ++ le_bytes 8 (blen exf_preamble + blen exw_block1 + 8).
Definition exw_accept (e : Entry) : M fault Z () := fun n => (Ok (), n + 1).

Lemma walk_exact_witness :
  exists sm phys acc,
    walked (R := level0_reset) zlib_level0 exf_sha exw_accept (sound_disk exw_log) (Some (sound_disk exw_index)) Blocks exw_start None 0 1 sm phys acc /\
    sm_last_block sm = Some 1 /\ sm_index_discrepancies sm = 1 /\
    sm_failure sm = Some (mkFailure 318 2 (RFault FIncompleteBlock)).
Proof.
  assert (Hin : inputs_ok (sound_disk exw_log) (Some (sound_disk exw_index)) None)
    by (split; [vm_compute; reflexivity|vm_compute; reflexivity|exact I]).
  destruct (walk_exact level0 level0_reset zlib_level0 level0_laws level0_reset_laws exf_sha blen Z exw_accept (sound_disk exw_log)
    (Some (sound_disk exw_index)) Blocks exw_start None 0 (fun b => Z.le_refl _) Hin (fun _ _ _ => eq_refl)) as [_ H].
  destruct (walk (R := level0_reset) exf_sha blen exw_accept (sound_disk exw_log) (Some (sound_disk exw_index)) Blocks exw_start None 0) as [[sm n]|e|] eqn:E;
    [|vm_compute in E; discriminate E|vm_compute in E; discriminate E].
  destruct (H sm n eq_refl) as (phys & acc & Hw). exists sm, phys, acc.
  vm_compute in E. injection E as Es <-. split; [exact Hw|]. rewrite <- Es. repeat split.
Defined.
