(* ===== verification/Recover.v ===== *)
(** * Recovering a torn tail ([crates/log-repair/src/tail.rs], sources of [repair.rs])

    [run_saving] inspects a damaged log with [walk], decides what can be restored from trusted sources or
    salvaged, writes the recovered pair beside the original and reads it back before it reports success.
    The files are read three times (inspect, write, verify); what they hold at each pass is an argument of its
    own, so the theorems also cover inputs that change while the program runs. The operating system's part
    (creating and writing files, free space, the identity checks of the pinned paths, what the new files hold
    when they are opened again) is the record [System]. The JSON report is a record; the progress lines, the
    text and [--save-inspection] are left out. *)

From S2P Require Import Prelude.
From S2P Require Import Errors.
From S2P Require Import Cursor.
From S2P Require Import Binio.
From S2P Require Import Zlib.
From S2P Require Import Framing.
From S2P Require Import Disk.
From S2P Require Import ShipPayload.
From S2P Require Import RepairLog.
From S2P Require Import ReadAhead.
From S2P Require Import TailWalk.
From S2P Require Import WalkFacts.

Inductive Mode := Restore | Salvage.

(** A source log, by the stem of its name and its two files. *)
Record LogFile := mkLogFile { lf_stem : option string; lf_log : Disk; lf_index : Disk }.

Record Sources := mkSources { so_blocks : list Disk; so_block_logs : list LogFile; so_donors : list LogFile }.

Section Sourcing.
Context {F : Flate} {R : FlateReset F} (sha256 : bytes -> bytes).

(** ** Loading the sources *)

Fixpoint load_blocks (bs : Blocks_map) (st : Z * Blocks_map) : res fault (Z * Blocks_map) :=
  match bs with
  | [] => Ok st
  | (n, body) :: bs =>
      let total := add64 st.1 (blen body) in
      do? ensure (total <=? 4 * MAX_BYTES) FSourcesTooLong ;;
      let? containers := match bt_get n st.2 with
                         | Some seen => do? ensure (bool_decide (seen = body)) (FSourcesDisagree n) ;; Ok st.2
                         | None => Ok (bt_insert n body st.2)
                         end in
      load_blocks bs (total, containers)
  end.

Fixpoint load_containers (ds : list Disk) (st : Z * Blocks_map) : res fault (Z * Blocks_map) :=
  match ds with
  | [] => Ok st
  | d :: ds =>
      let? bs := container_disk sha256 d in
      let? st := load_blocks bs st in
      load_containers ds st
  end.

Definition open_log (f : LogFile) : res fault Log.t :=
  let? kind := kind_from_stem (lf_stem f) in
  Log.from_disks kind (lf_log f) (lf_index f).

Fixpoint open_logs (fs : list LogFile) : res fault (list Log.t) :=
  match fs with
  | [] => Ok []
  | f :: fs => let? l := open_log f in let? ls := open_logs fs in Ok (l :: ls)
  end.

Definition load_with (kind : Kind) (s : Sources) : res fault Loaded :=
  do? ensure (negb (bool_decide (so_blocks s = [])) || negb (bool_decide (so_block_logs s = []))) FNoBlockSources ;;
  let? st := load_containers (so_blocks s) (0, []) in
  let? block_logs := open_logs (so_block_logs s) in
  do? ensure (forallb (fun l => is_blocks (Log.kind l)) block_logs) FNotBlocksLog ;;
  let? donors := open_logs (so_donors s) in
  do? (if is_blocks kind then ensure (bool_decide (donors = [])) FUnwantedDonors
       else
         do? ensure (negb (bool_decide (donors = []))) FNoDonors ;;
         ensure (forallb (fun l => bool_decide (Log.kind l = kind)) donors) FDonorKind) ;;
  Ok (mkLoaded st.2 block_logs donors).

(** ** Donors *)

Fixpoint donor_in (n : Z) (canonical_id : bytes) (donors : list Log.t) (found : option (bytes * bytes))
    : res fault (option (bytes * bytes)) :=
  match donors with
  | [] => Ok found
  | d :: donors =>
      if holds n d then
        let? body := Log.body sha256 d n in
        let? p := ship_payload body in
        do? ensure (bool_decide (p.1 = canonical_id)) (FDonorId n) ;;
        let? found := match found with
                      | Some (b, seen) => do? ensure (bool_decide (seen = p.2)) (FDonorsDisagree n) ;; Ok (Some (b, seen))
                      | None => Ok (Some (body, p.2))
                      end in
        donor_in n canonical_id donors found
      else donor_in n canonical_id donors found
  end.

Definition ship_donor (n : Z) (canonical_id : bytes) (donors : list Log.t) : res fault (option (bytes * bytes)) :=
  donor_in n canonical_id donors None.

Definition check_prefix_donors (e : Entry) (kind : Kind) (donors : list Log.t) : res fault () :=
  if negb (is_blocks kind) && negb (bool_decide (donors = [])) then
    let? found := ship_donor (e_number e) (e_id e) donors in
    match found with
    | Some (_, raw) =>
        let? body := e_body e in
        let? p := ship_payload body in
        ensure (bool_decide (p.2 = raw)) (FDonorPayload (e_number e))
    | None => Ok ()
    end
  else Ok ().

(** ** Restoration *)

Record restoring := mkRestoring { rs_previous : option bytes; rs_bytes : Z; rs_out : list bytes }.

Definition restore_block (kind : Kind) (refs : option Loaded) (donors : list Log.t) (n : Z) (st : restoring)
    : res fault restoring :=
  let? refs := or_err refs FNoSources in
  let? found := block sha256 refs n in
  let? b := or_err found (FSourceLacks n) in
  let? h := full_block sha256 b in
  do? ensure (hd_number h =? n) FReferenceNumber ;;
  do? match rs_previous st with Some id => ensure (bool_decide (hd_previous h = id)) FSourceChain | None => Ok () end ;;
  let? body := (if is_blocks kind then Ok b
                else
                  let? found := ship_donor n (hd_id h) donors in
                  let? d := or_err found (FNoDonor n) in
                  Ok d.1) in
  let bytes := add64 (rs_bytes st) (add64 (blen body) 8) in
  do? ensure (bytes <=? MAX_BYTES) FRestoredTooLong ;;
  Ok (mkRestoring (Some (hd_id h)) bytes (rs_out st ++ [body])).

Fixpoint restore_blocks (kind : Kind) (refs : option Loaded) (donors : list Log.t) (ns : list Z) (st : restoring)
    : res fault restoring :=
  match ns with
  | [] => Ok st
  | n :: ns => let? st := restore_block kind refs donors n st in restore_blocks kind refs donors ns st
  end.

Definition restoration (sm : Summary) (through : option Z) (kind : Kind) (refs : option Loaded) (donors : list Log.t)
    : res fault (list bytes) :=
  let? last := or_err (sm_last_block sm) FNoAnchor in
  let? through := or_err through FNoThrough in
  do? ensure (last <=? through) FThroughEarly ;;
  do? ensure (match sm_indexed_head_hint sm with Some head => head <=? through | None => true end) FThroughHint ;;
  do? ensure (through - last <=? MAX_BLOCKS) FTooManyRestored ;;
  let? st := restore_blocks kind refs donors (seqZ (add32 last 1) (through - last)) (mkRestoring None 0 []) in
  Ok (rs_out st).

(** The closure of [run_saving] that ties a restored tail to the prefix. *)
Definition anchored (kind : Kind) (refs : option Loaded) (canonical : bool) (sm : Summary) (left_anchor : option bytes)
    (tail : list bytes) : res fault (list bytes) :=
  do? ensure canonical FNotCanonical ;;
  do? (if is_blocks kind then
         match tail with
         | first :: _ => let? h := full_block sha256 first in ensure (bool_decide (Some (hd_previous h) = left_anchor)) FUnlinked
         | [] => Ok ()
         end
       else
         match tail with
         | _ :: _ =>
             let? last := or_panic (sm_last_block sm) in
             let? refs := or_panic refs in
             let? found := block sha256 refs last in
             let? b := or_err found (FSourceLacks last) in
             let? h := full_block sha256 b in
             let? anchor := or_panic left_anchor in
             do? ensure (bool_decide (hd_id h = anchor)) FLeftAnchor ;;
             let? found := block sha256 refs (add32 last 1) in
             let? b := or_err found (FSourceLacks (add32 last 1)) in
             let? next := full_block sha256 b in
             ensure (bool_decide (hd_previous next = anchor)) FUnlinked
         | [] => Ok ()
         end) ;;
  Ok tail.
End Sourcing.

(** ** The system *)

(** What the operating system answers in a run: the error of a write to the log ([true]) or to the index at a
    position, the result of the [k]-th [check_inputs], the error of creating the directories and the plan, the
    free space, and what the two new files hold when they are opened again. *)
Record System := mkSystem {
  sys_write : bool -> Z -> option io_error;
  sys_check : nat -> option fault;
  sys_create : option io_error;
  sys_space : Z + io_error;
  sys_reopen : bytes -> bytes -> (Disk * Disk) + io_error
}.

Definition of_sum {A} (s : A + io_error) : res fault A := match s with inl a => Ok a | inr e => Err (FIo e) end.
Definition of_io (e : option io_error) : res fault () := match e with Some e => Err (FIo e) | None => Ok () end.

(** ** Output *)

(** The two files, what was handed to each digest, the next position and the count. *)
Record Output := mkOutput {
  o_log : bytes; o_index : bytes; o_at : Z; o_entries : Z; o_log_hash : bytes; o_index_hash : bytes
}.

Section Writing.
Context (sys : System).

Definition write_log (b : bytes) : M fault Output () := fun o =>
  match sys_write sys true (blen (o_log o)) with
  | Some e => (Err (FIo e), o)
  | None => (Ok (), mkOutput (o_log o ++ b) (o_index o) (o_at o) (o_entries o) (o_log_hash o) (o_index_hash o))
  end.

Definition write_index (b : bytes) : M fault Output () := fun o =>
  match sys_write sys false (blen (o_index o)) with
  | Some e => (Err (FIo e), o)
  | None => (Ok (), mkOutput (o_log o) (o_index o ++ b) (o_at o) (o_entries o) (o_log_hash o) (o_index_hash o))
  end.

Definition output_new (header : bytes) : res fault Output :=
  do? of_io (sys_create sys) ;;
  match write_log header (mkOutput [] [] (blen header) 0 [] []) with
  | (Ok _, o) => Ok (mkOutput (o_log o) (o_index o) (o_at o) (o_entries o) (o_log_hash o ++ header) (o_index_hash o))
  | (Err e, _) => Err e
  | (Panic, _) => Panic
  end.

Definition append (body : bytes) : M fault Output () :=
  let! o := sget in
  let at_ := le_bytes 8 (o_at o) in
  do! write_index at_ ;;
  do! write_log body ;;
  do! write_log at_ ;;
  fun o => (Ok (), mkOutput (o_log o) (o_index o) (add64 (o_at o) (add64 (blen body) 8)) (o_entries o + 1)
    (o_log_hash o ++ body ++ at_) (o_index_hash o ++ at_)).

Fixpoint append_all (bodies : list bytes) : M fault Output () :=
  match bodies with
  | [] => sret ()
  | b :: bodies => do! append b ;; append_all bodies
  end.
End Writing.

(** ** A run *)

(** The files of one pass. *)
Record Inputs := mkInputs { ip_log : Disk; ip_index : option Disk; ip_refs : option Loaded; ip_donors : list Log.t }.

Record Options := mkOptions { op_through : option Z; op_mode : Mode; op_out : bool; op_node_stopped : bool }.

(** The report: the inspection, what can be done, and of the files written, if any, what [complete.json] says. *)
Record Written := mkWritten { wr_last_block : option Z; wr_entries : Z; wr_log_sha256 : bytes; wr_index_sha256 : option bytes }.

Record Report := mkReport {
  rp_chain_id : option bytes; rp_inspection : Summary; rp_restored_tail_sha256 : option bytes;
  rp_restore_reason : option fault; rp_salvage : bool; rp_output : option Written
}.

(** With the report, the files that were written, as handed to the system and as read back. *)
Record Outcome := mkOutcome { oc_report : Report; oc_files : option (Output * Disk * Disk) }.

Section Running.
Context {F : Flate} {R : FlateReset F} (sha256 : bytes -> bytes) (capacity : bytes -> Z) (text : reason -> string).
Context (sys : System).

Definition check_inputs (k : nat) : res fault () := match sys_check sys k with Some e => Err e | None => Ok () end.

(** The donors of a run, each of the target's kind. *)
Fixpoint open_donors (kind : Kind) (fs : list LogFile) : res fault (list Log.t) :=
  match fs with
  | [] => Ok []
  | f :: fs =>
      let? donor := open_log f in
      do? ensure (negb (is_blocks kind) && bool_decide (Log.kind donor = kind)) FDonorKind ;;
      let? donors := open_donors kind fs in
      Ok (donor :: donors)
  end.

(** The block logs of the sources belong to the chain of the target. *)
Fixpoint same_chain (chain_id : bytes) (fs : list LogFile) : res fault () :=
  match fs with
  | [] => Ok ()
  | f :: fs =>
      let? s := start sha256 (lf_log f) Blocks in
      do? ensure (bool_decide (st_chain_id s = Some chain_id)) FOtherChain ;;
      same_chain chain_id fs
  end.

Definition open_inputs (kind : Kind) (log : Disk) (index : option Disk) (s : Sources) : res fault (Start * Inputs) :=
  let? begin := start sha256 log kind in
  let? refs := (if bool_decide (so_blocks s = []) && bool_decide (so_block_logs s = []) then Ok None
                else let? l := load_with sha256 Blocks (mkSources (so_blocks s) (so_block_logs s) []) in Ok (Some l)) in
  do? match st_chain_id begin with Some chain_id => same_chain chain_id (so_block_logs s) | None => Ok () end ;;
  let? donors := open_donors kind (so_donors s) in
  Ok (begin, mkInputs log index refs donors).

(** [again == summary]: the reason of a failure is kept as its text. *)
Definition same_failure (a b : option Failure) : bool :=
  match a, b with
  | Some a, Some b => (f_offset a =? f_offset b) && (f_next_block a =? f_next_block b) && bool_decide (text (f_reason a) = text (f_reason b))
  | None, None => true
  | _, _ => false
  end.

Definition same_summary (a b : Summary) : bool :=
  (sm_first_block a =? sm_first_block b) && bool_decide (sm_last_block a = sm_last_block b) && (sm_entries a =? sm_entries b) &&
  (sm_physical_prefix_end a =? sm_physical_prefix_end b) &&
  bool_decide (sm_physical_prefix_sha256 a = sm_physical_prefix_sha256 b) &&
  bool_decide (sm_excluded_suffix_sha256 a = sm_excluded_suffix_sha256 b) &&
  (sm_excluded_suffix_bytes a =? sm_excluded_suffix_bytes b) && (sm_omitted_fork_entries a =? sm_omitted_fork_entries b) &&
  (sm_reference_checked_entries a =? sm_reference_checked_entries b) && bool_decide (sm_input_sha256 a = sm_input_sha256 b) &&
  bool_decide (sm_reference_evidence_sha256 a = sm_reference_evidence_sha256 b) &&
  eqb (sm_index_present a) (sm_index_present b) && (sm_index_bytes a =? sm_index_bytes b) &&
  (sm_index_partial_bytes a =? sm_index_partial_bytes b) && (sm_index_discrepancies a =? sm_index_discrepancies b) &&
  bool_decide (sm_index_sha256 a = sm_index_sha256 b) && bool_decide (sm_index_prefix_sha256 a = sm_index_prefix_sha256 b) &&
  bool_decide (sm_index_suffix_sha256 a = sm_index_suffix_sha256 b) &&
  bool_decide (sm_indexed_head_hint a = sm_indexed_head_hint b) && same_failure (sm_failure a) (sm_failure b).

Definition walk_of {S} (kind : Kind) (begin : Start) (i : Inputs) (accept : Entry -> M fault S ()) (user : S) : res fault (Summary * S) :=
  walk sha256 capacity accept (ip_log i) (ip_index i) kind begin (ip_refs i) user.

(** The callbacks of the three passes. *)
Definition inspect_entry (kind : Kind) (i : Inputs) (e : Entry) : M fault (option bytes) () :=
  do! slift (check_prefix_donors sha256 e kind (ip_donors i)) ;;
  fun _ => (Ok (), Some (e_id e)).

Definition copy_entry (kind : Kind) (i : Inputs) (e : Entry) : M fault Output () :=
  do! slift (check_prefix_donors sha256 e kind (ip_donors i)) ;;
  let! body := slift (e_body e) in
  append sys body.

Definition verify_entry (kind : Kind) (i : Inputs) (e : Entry) : M fault () () :=
  slift (check_prefix_donors sha256 e kind (ip_donors i)).

Definition needed (sm : Summary) (tail : list bytes) : Z :=
  let sat a b := Z.min (a + b) (U64 - 1) in
  sat (sat (sat (sm_physical_prefix_end sm) (foldr (fun b n => add64 (add64 (blen b) 16) n) 0 tail)) (wrap64 (sm_entries sm * 8))) (Z.shiftl 1 20).

(** The pass that writes. *)
Definition write_pair (kind : Kind) (begin : Start) (i : Inputs) (sm : Summary) (tail : list bytes) : res fault Output :=
  let? o := output_new sys (st_bytes begin) in
  let? r := walk_of kind begin i (copy_entry kind i) o in
  do? ensure (same_summary r.1 sm) FInputChanged ;;
  match append_all sys tail r.2 with
  | (Ok _, o) => Ok o
  | (Err e, _) => Err e
  | (Panic, _) => Panic
  end.

(** The pass that reads the new files back. *)
Definition read_back (kind : Kind) (i : Inputs) (o : Output) (desired_last : option Z) : res fault (Summary * Disk * Disk) :=
  let? files := of_sum (sys_reopen sys (o_log o) (o_index o)) in
  let '(log, index) := files in
  let? begin := start sha256 log kind in
  let? r := walk sha256 capacity (verify_entry kind i) log (Some index) kind begin (ip_refs i) () in
  let back := r.1 in
  do? ensure (bool_decide (sm_failure back = None) && (sm_index_discrepancies back =? 0) &&
              bool_decide (sm_last_block back = desired_last)) FReadBack ;;
  do? ensure (bool_decide (sm_input_sha256 back = sha256 (o_log_hash o)) &&
              bool_decide (sm_index_sha256 back = Some (sha256 (o_index_hash o)))) FReadBackBytes ;;
  Ok (back, log, index).

Definition tail_digest (tail : list bytes) : bytes := sha256 (concat ((fun b => le_bytes 8 (blen b) ++ b) <$> tail)).

(** [run_saving] after the files are opened; [i1], [i2] and [i3] are what they hold at the three passes. *)
Definition recover (o : Options) (kind : Kind) (begin : Start) (i1 i2 i3 : Inputs) : res fault Outcome :=
  let? r := walk_of kind begin i1 (inspect_entry kind i1) None in
  let '(sm, left_anchor) := r in
  do? ensure (match op_through o with Some n => default (sm_first_block sm) (sm_last_block sm) <=? n | None => true end) FThroughEarly ;;
  let canonical := is_blocks kind || (sm_reference_checked_entries sm =? sm_entries sm) && bool_decide (is_Some (ip_refs i1)) in
  let restored :=
    (let? tail := restoration sha256 sm (op_through o) kind (ip_refs i1) (ip_donors i1) in
     anchored sha256 kind (ip_refs i1) canonical sm left_anchor tail) in
  let? reason := match restored with Ok _ => Ok None | Err e => Ok (Some e) | Panic => Panic end in
  let salvage := (0 <? sm_entries sm) && canonical in
  let report := mkReport (st_chain_id begin) sm (match restored with Ok tail => Some (tail_digest tail) | _ => None end) reason salvage in
  do? check_inputs 0 ;;
  if negb (op_out o) then Ok (mkOutcome (report None) None)
  else
    let? tail := match op_mode o with
                 | Restore => restored
                 | Salvage => do? ensure salvage FNoSalvage ;; Ok []
                 end in
    let desired_last := match op_mode o with Restore => op_through o | Salvage => sm_last_block sm end in
    let? space := of_sum (sys_space sys) in
    do? ensure (needed sm tail <=? space) FNoSpace ;;
    let? out := write_pair kind begin i2 sm tail in
    do? check_inputs 1 ;;
    let? back := read_back kind i3 out desired_last in
    let '(back, log, index) := back in
    do? check_inputs 2 ;;
    let written := mkWritten (sm_last_block back) (sm_entries back) (sm_input_sha256 back) (sm_index_sha256 back) in
    Ok (mkOutcome (report (Some written)) (Some (out, log, index))).

(** [run_saving] without [--save-inspection]: [again] and [later] give what the files hold at the second and
    third pass. *)
Definition run (o : Options) (stem : option string) (log : Disk) (index : option Disk) (s : Sources) (again later : Inputs -> Inputs)
    : res fault Outcome :=
  do? ensure (negb (op_out o) || op_node_stopped o) FNoNodeStopped ;;
  let? kind := kind_from_stem stem in
  let? x := open_inputs kind log index s in
  let '(begin, i) := x in
  recover o kind begin i (again i) (later i).
End Running.
