(* ===== verification/RecoverFacts.v ===== *)
(** * What a recovery establishes ([crates/log-repair/src/tail.rs])

    The theorems on [run] of [Recover.v]: what the writer of the pair produces, what a restored tail consists of,
    and that a run that reports success has left a log that is the accepted prefix and the restored tail, in
    one chain up to the block that was asked for, with an exact index. *)

From S2P Require Import Prelude.
From S2P Require Import Errors.
From S2P Require Import Cursor.
From S2P Require Import Binio.
From S2P Require Import Zlib.
From S2P Require Import Framing.
From S2P Require Import Disk.
From S2P Require Import ShipPayload.
From S2P Require Import RepairLog.
From S2P Require Import ReadAhead.
From S2P Require Import TailWalk.
From S2P Require Import WalkFacts.
From S2P Require Import Recover.

(** ** The pair that is written *)

(** The bodies one after another from [at_], each with its position behind it; and those positions. *)
Fixpoint written_log (at_ : Z) (bodies : list bytes) : bytes :=
  match bodies with
  | [] => []
  | b :: bodies => b ++ le_bytes 8 at_ ++ written_log (at_ + (blen b + 8)) bodies
  end.

Fixpoint written_index (at_ : Z) (bodies : list bytes) : bytes :=
  match bodies with
  | [] => []
  | b :: bodies => le_bytes 8 at_ ++ written_index (at_ + (blen b + 8)) bodies
  end.

Definition total (bodies : list bytes) : Z := foldr (fun b n => blen b + 8 + n) 0 bodies.

Lemma total_app xs ys : total (xs ++ ys) = total xs + total ys.
Proof. unfold total. induction xs as [|x xs IH]; simpl; [done|]. rewrite IH. lia. Qed.

Lemma total_nonneg xs : 0 <= total xs.
Proof. unfold total. induction xs as [|x xs IH]; simpl; [done|]. pose proof (blen_nonneg x). lia. Qed.

Lemma written_log_app at_ xs ys : written_log at_ (xs ++ ys) = written_log at_ xs ++ written_log (at_ + total xs) ys.
Proof.
  revert at_. unfold total. induction xs as [|x xs IH]; intros at_; cbn [app written_log written_index foldr]; [by rewrite Z.add_0_r|].
  by rewrite IH, <- !app_assoc, !Z.add_assoc.
Qed.

Lemma written_index_app at_ xs ys : written_index at_ (xs ++ ys) = written_index at_ xs ++ written_index (at_ + total xs) ys.
Proof.
  revert at_. unfold total. induction xs as [|x xs IH]; intros at_; cbn [app written_log written_index foldr]; [by rewrite Z.add_0_r|].
  by rewrite IH, ?app_assoc, !Z.add_assoc.
Qed.

Lemma blen_written_log at_ xs : blen (written_log at_ xs) = total xs.
Proof.
  revert at_. unfold total. induction xs as [|x xs IH]; intros at_; cbn [app written_log written_index foldr]; [done|]. rewrite !blen_app, blen_le_bytes, IH. lia.
Qed.

Section Pair.
Context (sys : System) (header : bytes).

(** The state of the writer after [bodies]. *)
Record output_ok (bodies : list bytes) (o : Output) : Prop := {
  oo_log : o_log o = header ++ written_log (blen header) bodies;
  oo_index : o_index o = written_index (blen header) bodies;
  oo_at : o_at o = blen header + total bodies;
  oo_entries : o_entries o = blen bodies;
  oo_log_hash : o_log_hash o = o_log o;
  oo_index_hash : o_index_hash o = o_index o
}.

Lemma output_new_spec :
  match output_new sys header with Ok o => output_ok [] o | Err e => is_io e = true | Panic => False end.
Proof.
  unfold output_new. destruct (sys_create sys); cbn [of_io rbind]; [done|]. unfold write_log. cbn [o_log].
  destruct (sys_write sys true _); [done|]. split; simpl; rewrite ?app_nil_r, ?Z.add_0_r; done.
Qed.

Lemma append_spec bodies o b :
  output_ok bodies o -> o_at o + (blen b + 8) < U64 ->
  match append sys b o with (Ok _, o') => output_ok (bodies ++ [b]) o' | (Err e, _) => is_io e = true | (Panic, _) => False end.
Proof.
  intros [H1 H2 H3 H4 H5 H6] Hu. pose proof (blen_nonneg b). pose proof (blen_nonneg header). pose proof (total_nonneg bodies).
  unfold append, write_index, write_log, sbind, sget. cbn [o_log o_index o_at o_entries o_log_hash o_index_hash].
  destruct (sys_write sys false _); [done|]. cbn [o_log o_index o_at o_entries o_log_hash o_index_hash].
  destruct (sys_write sys true _); [done|]. cbn [o_log o_index o_at o_entries o_log_hash o_index_hash].
  destruct (sys_write sys true _); [done|]. cbn [o_log o_index o_at o_entries o_log_hash o_index_hash].
  assert (Hadd : add64 (o_at o) (add64 (blen b) 8) = o_at o + (blen b + 8)).
  { unfold add64, wrap64. rewrite (Z.mod_small (blen b + 8)), Z.mod_small; lia. }
  split; cbn [o_log o_index o_at o_entries o_log_hash o_index_hash].
  - rewrite H1, written_log_app, H3. cbn [written_log]. by rewrite app_nil_r, <- !app_assoc.
  - rewrite H2, written_index_app, H3. cbn [written_index]. by rewrite app_nil_r.
  - rewrite Hadd, H3, total_app. unfold total at 3. simpl. lia.
  - rewrite H4, blen_app. done.
  - by rewrite H5, <- !app_assoc.
  - by rewrite H6.
Qed.

Lemma append_all_spec tail : forall bodies o,
  output_ok bodies o -> o_at o + total tail < U64 ->
  match append_all sys tail o with (Ok _, o') => output_ok (bodies ++ tail) o' | (Err e, _) => is_io e = true | (Panic, _) => False end.
Proof.
  induction tail as [|b tail IH]; intros bodies o Ho Hu; cbn [append_all]; [by rewrite app_nil_r|].
  unfold total in Hu. simpl in Hu. fold (total tail) in Hu. pose proof (total_nonneg tail). rewrite sbind_run.
  pose proof (append_spec bodies o b Ho ltac:(lia)) as Ha. destruct (append sys b o) as [[[]|e|] o1]; [|done|done].
  pose proof (oo_at _ _ Ho). pose proof (oo_at _ _ Ha) as Hat. rewrite total_app in Hat. unfold total in Hat at 2. simpl in Hat.
  rewrite cons_middle, app_assoc. apply IH; [done|lia].
Qed.
End Pair.

(** ** Entries of a file *)
Section Entries.
Context {F : Flate} {R : FlateReset F} (zlib : bytes -> option bytes) {L : FlateLaws F zlib}
  {RL : ResetLaws F zlib} (sha256 : bytes -> bytes) (kind : Kind) (d : Disk).
Hypothesis Hd : disk_ok d.

(** The bytes of a list of entries. *)
Definition extent (l : list Entry) : Z := foldr (fun e n => blen (e_bytes e) + n) 0 l.

Lemma extent_app l k : extent (l ++ k) = extent l + extent k.
Proof. unfold extent. induction l as [|x l IH]; simpl; [done|]. rewrite IH. lia. Qed.

Lemma extent_nonneg l : 0 <= extent l.
Proof. unfold extent. induction l as [|x l IH]; simpl; [done|]. pose proof (blen_nonneg (e_bytes x)). lia. Qed.

Lemma tiles_extent l : forall pos end_, tiles zlib sha256 d kind pos l end_ -> end_ = pos + extent l.
Proof.
  unfold extent. induction l as [|e l IH]; intros pos end_; simpl; [lia|]. intros [_ H]. apply IH in H. lia.
Qed.

Lemma tiles_entry l e : forall pos end_,
  tiles zlib sha256 d kind pos l end_ -> e ∈ l -> exists at_ body, entry_at_of zlib sha256 kind (d_data d) at_ e body.
Proof.
  induction l as [|x l IH]; intros pos end_ H He; [by apply elem_of_nil in He|]. simpl in H. destruct H as [[body Hx] H].
  apply elem_of_cons in He as [->|He]; [by exists pos, body|]. by apply (IH _ _ H).
Qed.

Lemma picks_extent refs phys acc : picks sha256 kind refs phys acc -> extent acc <= extent phys.
Proof.
  induction 1 as [|phys acc e Hp IH|phys acc e Hp IH _]; [done|rewrite !extent_app; lia|].
  rewrite extent_app. pose proof (extent_nonneg [e]). lia.
Qed.

Lemma picks_in refs phys acc e : picks sha256 kind refs phys acc -> e ∈ acc -> e ∈ phys.
Proof.
  induction 1 as [|phys acc x Hp IH|phys acc x Hp IH _]; intros He; [done| |apply elem_of_app; left; auto].
  apply elem_of_app. apply elem_of_app in He as [He|He]; [left; auto|by right].
Qed.

(** One entry at an offset, so one tiling. *)
Lemma entry_at_unique at_ e e' body body' :
  0 <= at_ < d_size d -> entry_at_of zlib sha256 kind (d_data d) at_ e body -> entry_at_of zlib sha256 kind (d_data d) at_ e' body' -> e' = e.
Proof.
  intros Ha H H'. apply (whole_entry_complete zlib sha256) in H; [|done|done]. apply (whole_entry_complete zlib sha256) in H'; [|done|done].
  rewrite H in H'. by injection H'.
Qed.

Lemma entry_at_range at_ e body : entry_at_of zlib sha256 kind (d_data d) at_ e body -> 0 <= at_ /\ at_ + blen (e_bytes e) <= d_size d /\ 8 <= blen (e_bytes e).
Proof.
  intros H. destruct (at_body _ _ _ _ _ _ _ H) as [_ Hl]. pose proof (blen_nonneg body). destruct H as [_ _ Hs _ _].
  apply slice_Some in Hs as (? & ? & ? & _). unfold d_size. lia.
Qed.

Lemma tiles_unique l : forall pos k,
  tiles zlib sha256 d kind pos l (d_size d) -> tiles zlib sha256 d kind pos k (d_size d) -> k = l.
Proof.
  induction l as [|e l IH]; intros pos [|e' k]; simpl; [done| | |].
  - intros -> [[b H] _]. apply entry_at_range in H. lia.
  - intros [[b H] _] ->. apply entry_at_range in H. lia.
  - intros [[b H] Hl] [[b' H'] Hk]. pose proof (entry_at_range _ _ _ H) as (? & ? & ?).
    assert (e' = e) as -> by (eapply entry_at_unique; [|exact H|exact H']; lia). f_equal. by apply (IH _ _ Hl).
Qed.

(** A body that makes an entry wherever it is written. *)
Definition valid_body (b : bytes) : Prop := blen b + 8 <= MAX_BYTES /\ exists id previous, entry_of zlib sha256 kind b id previous.

Lemma tiles_written bodies : forall pos,
  0 <= pos <= d_size d -> drop (Z.to_nat pos) (d_data d) = written_log pos bodies -> Forall valid_body bodies ->
  exists es, tiles zlib sha256 d kind pos es (d_size d) /\ Forall2 (fun e b => e_body e = Ok b) es bodies.
Proof.
  induction bodies as [|b bodies IH]; intros pos Hp Hdr Hv; cbn [written_log] in Hdr.
  - exists []. split; [|done]. simpl. assert (Hl : blen (drop (Z.to_nat pos) (d_data d)) = d_size d - pos) by (by apply blen_drop).
    rewrite Hdr in Hl. unfold blen in Hl. simpl in Hl. lia.
  - apply list.Forall_cons in Hv as [(Hm & id & pr & Hof) Hv]. pose proof (blen_nonneg b).
    assert (Hl : blen (drop (Z.to_nat pos) (d_data d)) = d_size d - pos) by (by apply blen_drop).
    rewrite Hdr, !blen_app, blen_le_bytes, blen_written_log in Hl. pose proof (total_nonneg bodies).
    set (e := mkEntry pos (b ++ le_bytes 8 pos) id pr).
    assert (He : entry_at_of zlib sha256 kind (d_data d) pos e b) by (by eapply entry_at_intro).
    destruct (at_body _ _ _ _ _ _ _ He) as [Hb Hlen]. destruct (IH (pos + (blen b + 8))) as (es & Ht & Hf); [lia| |done|].
    { rewrite Z2Nat.inj_add, <- drop_drop, Hdr, app_assoc by lia. apply drop_app_exact. by rewrite blen_app, blen_le_bytes. }
    exists (e :: es). split; [|by constructor]. cbn [tiles]. split; [by exists b|]. by rewrite Hlen.
Qed.
End Entries.

(** ** A restored tail *)
Section Tails.
Context {F : Flate} {R : FlateReset F} (zlib : bytes -> option bytes) {L : FlateLaws F zlib}
  {RL : ResetLaws F zlib} (sha256 : bytes -> bytes) (kind : Kind) (refs : option Loaded) (donors : list Log.t).
Hypothesis Hrefs : match refs with Some r => loaded_ok r | None => True end.
Hypothesis Hdonors : Forall log_ok donors.

(** [b] is the entry of block [n] with id [id] that the donors give, its payload the one of all of them. *)
Record donated (n : Z) (id b raw : bytes) : Prop := {
  dn_body : ship_body zlib b id raw;
  dn_limit : blen b + 8 <= MAX_BYTES;
  dn_donor : exists d, d ∈ donors /\ holds n d = true /\ Log.body sha256 d n = Ok b;
  dn_agree : forall d, d ∈ donors -> holds n d = true -> exists x, Log.body sha256 d n = Ok x /\ ship_body zlib x id raw
}.

Lemma log_body_limit l n b : log_ok l -> holds n l = true -> Log.body sha256 l n = Ok b -> blen b + 8 <= MAX_BYTES.
Proof.
  intros Hl Hh Hb. unfold holds in Hh. apply andb_true_iff in Hh as [H1%Z.leb_le H2%Z.leb_le].
  pose proof (body_spec zlib sha256 l n Hl ltac:(lia)) as H. rewrite Hb in H.
  destruct H as (id & a & e & es & _ & _ & Hm & _ & _ & Hs & _). apply slice_blen in Hs.
  rewrite !blen_app, blen_le_bytes in Hs. pose proof (blen_nonneg (orphan_bytes (a + (blen b + 8)) es)). lia.
Qed.

Lemma log_body_no_panic l n : log_ok l -> holds n l = true -> is_panic (Log.body sha256 l n) = false.
Proof.
  intros Hl Hh. unfold holds in Hh. apply andb_true_iff in Hh as [H1%Z.leb_le H2%Z.leb_le].
  pose proof (body_spec zlib sha256 l n Hl ltac:(lia)) as H. by destruct (Log.body sha256 l n).
Qed.

Lemma donor_in_spec n id ds : forall found,
  Forall log_ok ds ->
  match donor_in sha256 n id ds found with
  | Ok (Some (b, raw)) =>
      (found = Some (b, raw) \/ found = None /\ ship_body zlib b id raw /\ blen b + 8 <= MAX_BYTES /\
         exists d, d ∈ ds /\ holds n d = true /\ Log.body sha256 d n = Ok b) /\
      forall d, d ∈ ds -> holds n d = true -> exists x, Log.body sha256 d n = Ok x /\ ship_body zlib x id raw
  | Ok None => found = None /\ forall d, d ∈ ds -> holds n d = false
  | Err _ => True
  | Panic => False
  end.
Proof.
  induction ds as [|l ds IH]; intros found Hok; cbn [donor_in].
  { destruct found as [[b raw]|]; (split; [by (done || left)|]); intros d Hin; by apply elem_of_nil in Hin. }
  apply list.Forall_cons in Hok as [Hl Hok]. destruct (holds n l) eqn:Eh.
  2: { specialize (IH found Hok). destruct (donor_in sha256 n id ds found) as [[[b raw]|]|e|]; [| |done|done].
    - destruct IH as [H1 H2]. split; [|intros d Hin Hd; apply elem_of_cons in Hin as [->|Hin]; [congruence|by apply H2]].
      destruct H1 as [->|(-> & ? & ? & d & Hin & ?)]; [by left|]. right. do 3 (split; [done|]). exists d. split; [by right|done].
    - destruct IH as [-> H]. split; [done|]. intros d Hin. apply elem_of_cons in Hin as [->|Hin]; [done|by apply H]. }
  pose proof (log_body_no_panic l n Hl Eh) as Hnp. destruct (Log.body sha256 l n) as [x|e|] eqn:Ex; cbn [rbind]; [|done|done].
  pose proof (log_body_limit l n x Hl Eh Ex) as Hlim. assert (Hx : blen x < U64) by (unfold MAX_BYTES in Hlim; width_lia).
  pose proof (ship_payload_no_panic zlib x Hx) as Hpp. destruct (ship_payload x) as [[i raw]|e|] eqn:Ep; cbn [rbind fst snd]; [|done|done].
  apply (ship_payload_Ok zlib) in Ep; [|done]. case_bool_decide as Ei; cbn [ensure rbind]; [|done]. subst i.
  set (found' := match found with Some (b, seen) => Some (b, seen) | None => Some (x, raw) end).
  assert (Hf : match found with
    | Some (b, seen) => do? ensure (bool_decide (seen = raw)) (FDonorsDisagree n) ;; Ok (Some (b, seen))
    | None => Ok (Some (x, raw)) end = Ok found' \/ exists e, match found with
    | Some (b, seen) => do? ensure (bool_decide (seen = raw)) (FDonorsDisagree n) ;; Ok (Some (b, seen))
    | None => Ok (Some (x, raw)) end = Err e).
  { destruct found as [[b seen]|]; [|by left]. case_bool_decide; cbn [ensure rbind]; [by left|right; by eexists]. }
  destruct Hf as [Hf|[e ->]]; [|done]. rewrite Hf. cbn [rbind]. specialize (IH found' Hok).
  destruct (donor_in sha256 n id ds found') as [[[b raw']|]|e|]; [| |done|done].
  - destruct IH as [H1 H2]. assert (Hr : raw' = raw).
    { destruct found as [[b0 seen]|]; [|by destruct H1 as [[= -> ->]|[? _]]]. case_bool_decide as E; [|done].
      by destruct H1 as [[= -> ->]|[? _]]. }
    subst raw'. split; [|intros d Hin Hd; apply elem_of_cons in Hin as [->|Hin]; [by exists x|by apply H2]].
    destruct H1 as [H1|[? _]]; [|by destruct found as [[]|]]. destruct found as [[b0 seen]|]; [by left|]. injection H1 as <-.
    right. do 3 (split; [done|]). exists l. split; [by left|done].
  - destruct IH as [? _]. by destruct found as [[]|].
Qed.

Lemma ship_donor_spec n id :
  match ship_donor sha256 n id donors with
  | Ok (Some (b, raw)) => donated n id b raw
  | Ok None => forall d, d ∈ donors -> holds n d = false
  | Err _ => True
  | Panic => False
  end.
Proof.
  pose proof (donor_in_spec n id donors None Hdonors) as H. unfold ship_donor.
  destruct (donor_in sha256 n id donors None) as [[[b raw]|]|e|]; [|by destruct H|done|done].
  destruct H as [[?|(_ & ? & ? & ?)] ?]; [done|by split].
Qed.

(** [body] is restored for block [n], whose trusted header is [h]. *)
Definition restored_from (n : Z) (h : Header) (body : bytes) : Prop :=
  exists r b, refs = Some r /\ block sha256 r n = Ok (Some b) /\ full_block sha256 b = Ok h /\ hd_number h = n /\
    if is_blocks kind then body = b else exists raw, donated n (hd_id h) body raw.

(** A tail for the blocks [ns], each linked to the one before, the first to [previous]. *)
Fixpoint restored (previous : option bytes) (ns : list Z) (tail : list bytes) : Prop :=
  match ns, tail with
  | [], [] => True
  | n :: ns, b :: tail =>
      exists h, restored_from n h b /\ (forall p, previous = Some p -> hd_previous h = p) /\ restored (Some (hd_id h)) ns tail
  | _, _ => False
  end.

Lemma restored_length previous ns tail : restored previous ns tail -> length tail = length ns.
Proof.
  revert previous tail. induction ns as [|n ns IH]; intros previous [|b tail]; simpl; try done.
  intros (h & _ & _ & H). f_equal. by apply (IH _ _ H).
Qed.

Lemma check_prefix_no_panic e :
  8 <= blen (e_bytes e) < U64 -> is_panic (check_prefix_donors sha256 e kind donors) = false.
Proof.
  intros [He Hu]. unfold check_prefix_donors. destruct (_ && _); [|done]. pose proof (ship_donor_spec (e_number e) (e_id e)) as H.
  destruct (ship_donor sha256 (e_number e) (e_id e) donors) as [[[b raw]|]|x|]; cbn [rbind]; [|done|done|done].
  rewrite e_body_total by done. cbn [rbind]. set (x := take _ _).
  assert (Hx : blen x < U64) by (unfold x; rewrite blen_take by lia; lia).
  pose proof (ship_payload_no_panic zlib x Hx) as Hp. destruct (ship_payload x) as [[i r]|y|]; cbn [rbind]; [|done|done].
  by destruct (bool_decide _).
Qed.

(** Small enough for the sum of the loop. *)
Lemma restore_block_spec n st :
  0 <= rs_bytes st <= MAX_BYTES ->
  match restore_block sha256 kind refs donors n st with
  | Ok st' => exists h body, restored_from n h body /\ (forall p, rs_previous st = Some p -> hd_previous h = p) /\
      st' = mkRestoring (Some (hd_id h)) (rs_bytes st + (blen body + 8)) (rs_out st ++ [body]) /\ rs_bytes st' <= MAX_BYTES
  | Err _ => True
  | Panic => False
  end.
Proof.
  intros Hst. unfold restore_block. destruct refs as [r|] eqn:Er; cbn [or_err rbind]; [|done].
  pose proof (block_no_panic zlib sha256 r n Hrefs) as Hnp. destruct (block sha256 r n) as [[b|]|e|] eqn:Eb; cbn [rbind or_err]; try done.
  pose proof (block_len zlib sha256 r n b Hrefs Eb) as Hbl. pose proof (full_block_no_panic sha256 b ltac:(width_lia)) as Hfp.
  destruct (full_block sha256 b) as [h|e|] eqn:Eh; cbn [rbind]; [|done|done].
  destruct (Z.eqb_spec (hd_number h) n) as [Hn|]; cbn [ensure rbind]; [|done].
  assert (Hprev : match rs_previous st with Some id => ensure (bool_decide (hd_previous h = id)) FSourceChain | None => Ok () end = Ok () /\
      (forall p, rs_previous st = Some p -> hd_previous h = p) \/
    exists e, match rs_previous st with Some id => ensure (bool_decide (hd_previous h = id)) FSourceChain | None => Ok () end = Err e).
  { destruct (rs_previous st) as [id|]; [|by left]. case_bool_decide; cbn [ensure]; [left|right; by eexists]. naive_solver. }
  destruct Hprev as [[-> Hprev]|[e ->]]; cbn [rbind]; [|done].
  assert (Hbody : match (if is_blocks kind then Ok b else let? found := ship_donor sha256 n (hd_id h) donors in let? d := or_err found (FNoDonor n) in Ok d.1) with
    | Ok body => restored_from n h body /\ blen body < U64 - 8 - MAX_BYTES | Err _ => True | Panic => False end).
  { destruct (is_blocks kind) eqn:Ek.
    - split; [exists r, b; rewrite Ek; done|]. unfold MAX_BYTES. width_lia.
    - pose proof (ship_donor_spec n (hd_id h)) as Hs. destruct (ship_donor sha256 n (hd_id h) donors) as [[[x raw]|]|e|]; cbn [rbind or_err fst]; try done.
      split; [exists r, b; rewrite Ek; do 4 (split; [done|]); by exists raw|]. destruct Hs as [_ Hs _ _]. unfold MAX_BYTES in *. width_lia. }
  match type of Hbody with match ?m with _ => _ end => destruct m as [body|e|] end; cbn [rbind]; [|done|done].
  destruct Hbody as [Hbody Hlen]. pose proof (blen_nonneg body).
  assert (Hadd : add64 (rs_bytes st) (add64 (blen body) 8) = rs_bytes st + (blen body + 8)).
  { unfold add64, wrap64. unfold MAX_BYTES in *. rewrite (Z.mod_small (blen body + 8)), Z.mod_small; width_lia. }
  rewrite Hadd. destruct (Z.leb_spec (rs_bytes st + (blen body + 8)) MAX_BYTES); cbn [ensure rbind]; [|done]. by exists h, body.
Qed.

Lemma restore_blocks_spec ns : forall st,
  0 <= rs_bytes st <= MAX_BYTES ->
  match restore_blocks sha256 kind refs donors ns st with
  | Ok st' => exists tail, rs_out st' = rs_out st ++ tail /\ restored (rs_previous st) ns tail /\ rs_bytes st + total tail <= MAX_BYTES
  | Err _ => True
  | Panic => False
  end.
Proof.
  induction ns as [|n ns IH]; intros st Hst; cbn [restore_blocks].
  { exists []. rewrite app_nil_r. split; [done|]. split; [done|]. unfold total. simpl. lia. }
  pose proof (restore_block_spec n st Hst) as Hb. destruct (restore_block sha256 kind refs donors n st) as [st1|e|]; cbn [rbind]; [|done|done].
  destruct Hb as (h & body & Hfrom & Hprev & -> & Hle). cbn [rs_bytes] in Hle. pose proof (blen_nonneg body).
  specialize (IH (mkRestoring (Some (hd_id h)) (rs_bytes st + (blen body + 8)) (rs_out st ++ [body])) ltac:(cbn [rs_bytes]; lia)).
  destruct (restore_blocks _ _ _ _ ns _) as [st'|e|]; [|done|done]. destruct IH as (tail & Hout & Hr & Hsum). cbn [rs_out rs_previous rs_bytes] in *.
  exists (body :: tail). rewrite Hout, <- app_assoc. split; [done|]. split; [by exists h|]. unfold total in *. simpl. lia.
Qed.

(** What [restoration] promises: the entries of every block after the prefix up to the one asked for. *)
Lemma restoration_spec sm through :
  (forall last, sm_last_block sm = Some last -> 0 <= last < u32_max) ->
  match restoration sha256 sm through kind refs donors with
  | Ok tail => exists last thr, sm_last_block sm = Some last /\ through = Some thr /\ last <= thr /\
      (forall head, sm_indexed_head_hint sm = Some head -> head <= thr) /\
      restored None (seqZ (last + 1) (thr - last)) tail /\ total tail <= MAX_BYTES
  | Err _ => True
  | Panic => False
  end.
Proof.
  intros Hlast. unfold restoration. destruct (sm_last_block sm) as [last|]; cbn [or_err rbind]; [|done]. specialize (Hlast last eq_refl).
  destruct through as [thr|]; cbn [or_err rbind]; [|done]. destruct (Z.leb_spec last thr); cbn [ensure rbind]; [|done].
  destruct (match sm_indexed_head_hint sm with Some head => head <=? thr | None => true end) eqn:Eh; cbn [ensure rbind]; [|done].
  destruct (Z.leb_spec (thr - last) MAX_BLOCKS); cbn [ensure rbind]; [|done]. rewrite add32_below by width_lia.
  pose proof (restore_blocks_spec (seqZ (last + 1) (thr - last)) (mkRestoring None 0 []) ltac:(cbn [rs_bytes]; unfold MAX_BYTES; lia)) as Hr.
  destruct (restore_blocks _ _ _ _ _ _) as [st|e|]; cbn [rbind]; [|done|done]. destruct Hr as (tail & -> & Hr & Ht). cbn [rs_out app rs_bytes rs_previous] in *.
  exists last, thr. do 3 (split; [done|]). split; [|split; [done|lia]]. intros head Hh. rewrite Hh in Eh. by apply Z.leb_le.
Qed.

(** [anchored] ties the tail to the id of the last entry of the prefix. *)
Lemma anchored_spec sm last len tail canonical anchor :
  sm_last_block sm = Some last -> 0 <= last < u32_max -> 0 <= len -> restored None (seqZ (last + 1) len) tail ->
  match anchored sha256 kind refs canonical sm (Some anchor) tail with
  | Ok t => t = tail /\ canonical = true /\ restored (Some anchor) (seqZ (last + 1) len) tail
  | Err _ => True
  | Panic => False
  end.
Proof.
  intros Hl Hlr Hlen Hr. unfold anchored. destruct canonical; cbn [ensure rbind]; [|done]. destruct tail as [|b tail].
  { pose proof (restored_length _ _ _ Hr) as Hll. destruct (seqZ (last + 1) len); [|done]. by destruct (is_blocks kind). }
  rewrite seqZ_cons in Hr |- * by (pose proof (restored_length _ _ _ Hr) as Hll; rewrite length_seqZ in Hll; simpl in Hll; lia).
  destruct Hr as (h & Hfrom & _ & Htail). pose proof Hfrom as (r & x & Er & Ex & Eh & _ & Hk). rewrite Er in Hrefs.
  pose proof (block_len zlib sha256 r _ _ Hrefs Ex) as Hxl. destruct (is_blocks kind) eqn:Ek.
  - subst b. rewrite Eh. cbn [rbind]. case_bool_decide as Hp; cbn [ensure rbind]; [|done]. injection Hp as Hp.
    do 2 (split; [done|]). exists h. split; [done|]. split; [by intros ? [= <-]|done].
  - rewrite Hl, Er. cbn [or_panic rbind]. pose proof (block_no_panic zlib sha256 r last Hrefs) as Hnp.
    destruct (block sha256 r last) as [[y|]|e|] eqn:Ey; cbn [rbind or_err]; [|done|done|done].
    pose proof (block_len zlib sha256 r _ _ Hrefs Ey) as Hyl. pose proof (full_block_no_panic sha256 y ltac:(width_lia)) as Hfp.
    destruct (full_block sha256 y) as [hy|e|]; cbn [rbind]; [|done|done]. case_bool_decide; cbn [ensure rbind]; [|done].
    rewrite add32_below by width_lia. rewrite Ex. cbn [or_err rbind]. rewrite Eh. cbn [rbind].
    case_bool_decide as Hp; cbn [ensure rbind]; [|done]. do 2 (split; [done|]). exists h. split; [done|]. split; [by intros ? [= <-]|done].
Qed.

(** Every restored body makes an entry. *)
Lemma restored_valid previous ns tail : restored previous ns tail -> total tail <= MAX_BYTES -> Forall (valid_body zlib sha256 kind) tail.
Proof.
  revert previous tail. induction ns as [|n ns IH]; intros previous [|b tail]; simpl; try done.
  intros (h & (r & x & Er & Ex & Eh & _ & Hk) & _ & Hr) Ht. unfold total in Ht. simpl in Ht. fold (total tail) in Ht.
  pose proof (total_nonneg tail). pose proof (blen_nonneg b). constructor; [|apply (IH _ _ Hr); lia]. split; [lia|]. unfold entry_of.
  destruct (is_blocks kind); [subst x; exists (hd_id h), (Some (hd_previous h)), h; by rewrite <- full_block_Ok|].
  destruct Hk as (raw & Hk). exists (hd_id h), None. split; [done|]. exists raw. by apply dn_body in Hk.
Qed.
End Tails.

(** ** The preamble of the copy

    The genesis of a preamble is recognised with one byte more than it may have, so the preamble of a file is
    decided by its own bytes and the one behind them. *)
Section Preambles.
Context (sha256 : bytes -> bytes).

(** The same answer from any bytes that agree up to one byte past the end. *)
Definition steady {A} (m : Walk.reader A) : Prop :=
  forall c a c', cursor_wf c -> m c = (Ok a, c') ->
    cb c' = cb c /\ cpos c <= cpos c' <= blen (cb c) /\
    forall b', cpos c' <= blen b' < U64 -> (forall s n, s + n <= cpos c' + 1 -> slice (cb c) s n = slice b' s n) ->
      m (mkCursor b' (cpos c)) = (Ok a, mkCursor b' (cpos c')).

Lemma delimited_steady {A} (m : Walk.reader A) : delimited m -> steady m.
Proof.
  intros Hm c a c' Hc H. destruct (Hm c a c' Hc H) as (Hb & Hp & Hl). split; [done|]. split; [done|]. intros b' Hb' Hs.
  specialize (Hl b' ltac:(lia)). rewrite Z.min_l, (proj2 (Z.leb_le _ _)) in Hl by lia. apply Hl. unfold same.
  pose proof Hc as [Hc0 _]. specialize (Hs 0 (cpos c') ltac:(lia)).
  destruct (slice_is_Some (cb c) 0 (cpos c')) as [x Hx]; [lia|lia|lia|]. rewrite Hx in Hs. symmetry in Hs.
  apply slice_Some in Hx as (_ & _ & _ & ->). by apply slice_Some in Hs as (_ & _ & _ & Hs).
Qed.

Lemma steady_bind {A B} (m : Walk.reader A) (k : A -> Walk.reader B) : steady m -> (forall a, steady (k a)) -> steady (sbind m k).
Proof.
  intros Hm Hk c y c2 Hc H. apply sbind_Ok in H as (a & c1 & H1 & H2). destruct (Hm c a c1 Hc H1) as (Hb1 & Hp1 & Hl1).
  assert (Hc1 : cursor_wf c1) by (destruct Hc; split; rewrite Hb1; lia). destruct (Hk a c1 y c2 Hc1 H2) as (Hb2 & Hp2 & Hl2).
  rewrite Hb1 in *. split; [congruence|]. split; [lia|]. intros b' Hb' Hs. unfold sbind.
  rewrite (Hl1 b') by (lia || (intros; apply Hs; lia)). apply Hl2; [lia|done].
Qed.

Lemma steady_genesis : steady (genesis_walk sha256).
Proof.
  intros c a c' Hc H. unfold genesis_walk in H. rewrite sget_bind in H. cbv zeta in H.
  apply sbind_Ok in H as (s1 & c1 & H1 & H). apply sbind_Ok in H as ([] & c2 & H2 & H). rewrite sget_bind in H.
  apply sbind_Ok in H as (s3 & c3 & H3 & H). rewrite sget_bind in H. apply sbind_Ok in H as (g & c4 & H4 & [= <- <-]).
  injection H4 as H4 <-. apply or_panic_Ok in H4.
  destruct (delimited_steady _ (delimited_take 8 ltac:(lia)) _ _ _ Hc H1) as (B1 & P1 & L1).
  assert (Hc1 : cursor_wf c1) by (destruct Hc; split; rewrite B1; lia).
  destruct (delimited_steady _ delimited_key _ _ _ Hc1 H2) as (B2 & P2 & L2). rewrite B1 in *.
  assert (Hc2 : cursor_wf c2) by (destruct Hc; split; rewrite B2; lia).
  set (n := if ultra_at sha256 (cpos c) c2 then 69 else 68) in *. assert (Hn : 68 <= n <= 69) by (unfold n; destruct (ultra_at _ _ _); lia).
  destruct (delimited_steady _ (delimited_take n ltac:(lia)) _ _ _ Hc2 H3) as (B3 & P3 & L3). rewrite B2 in *.
  pose proof (walk_take_Ok n c2 s3 c3 Hc2 ltac:(lia) H3) as (E3 & _). assert (Hp3 : cpos c3 = cpos c2 + n) by (by rewrite E3).
  split; [done|]. split; [lia|]. intros b' Hb' Hs. unfold genesis_walk. rewrite sget_bind. cbv zeta. cbn [cpos].
  rewrite (sbind_Ok_eq _ _ _ _ _ (L1 b' ltac:(lia) ltac:(intros; apply Hs; lia))), (sbind_Ok_eq _ _ _ _ _ (L2 b' ltac:(lia) ltac:(intros; apply Hs; lia))), sget_bind.
  assert (Hu : ultra_at sha256 (cpos c) (mkCursor b' (cpos c2)) = ultra_at sha256 (cpos c) c2).
  { unfold ultra_at. cbn [cb cpos]. by rewrite B2, (Hs (cpos c) (cpos c2 + 69 - cpos c)) by lia. }
  rewrite Hu. fold n. rewrite (sbind_Ok_eq _ _ _ _ _ (L3 b' ltac:(lia) ltac:(intros; apply Hs; lia))), sget_bind. cbn [cb cpos].
  rewrite B3, (Hs (cpos c) (cpos c3 - cpos c)) in H4 by lia. by rewrite H4.
Qed.

Lemma steady_preamble : steady (preamble_walk sha256).
Proof.
  unfold preamble_walk. apply steady_bind; [by apply delimited_steady, delimited_take|]. intros v. cbv zeta.
  apply steady_bind; [apply delimited_steady, delimited_pure|]. intros _.
  apply steady_bind. { destruct (le_of v =? 1); apply delimited_steady; [apply delimited_ret|]. apply delimited_bind; [by apply delimited_take|]. intros; apply delimited_ret. }
  intros first. apply steady_bind; [apply delimited_steady, delimited_sensure|]. intros _. apply steady_bind.
  { destruct (_ || _); [apply steady_genesis|by apply delimited_steady, delimited_take]. }
  intros id. apply steady_bind; [|intros; apply delimited_steady, delimited_ret].
  destruct (le_of v =? 1); apply delimited_steady; [apply delimited_ret|]. apply delimited_bind; [by apply delimited_take|]. intros; apply delimited_sensure.
Qed.

Lemma preamble_same b b' p :
  blen b < U64 -> blen b' < U64 -> preamble sha256 b = Ok p -> pr_end p <= blen b' ->
  (forall s n, s + n <= pr_end p + 1 -> slice b s n = slice b' s n) -> preamble sha256 b' = Ok p.
Proof.
  intros Hb Hb' H He Hs. unfold preamble in *. destruct (preamble_walk sha256 (mkCursor b 0)) as [[[first id]|e|] c] eqn:E; [|done|done].
  injection H as <-. cbn [pr_end] in *. destruct (steady_preamble _ _ _ (new_cursor_wf b Hb) E) as (_ & _ & Hl). cbn [cb cpos] in Hl.
  by rewrite (Hl b').
Qed.

(** Two files that share their first bytes up to the first block's first one start alike. *)
Lemma start_same d d' s s' p :
  disk_ok d -> disk_ok d' -> start sha256 d Blocks = Ok s -> start sha256 d' Blocks = Ok s' ->
  p `prefix_of` d_data d -> p `prefix_of` d_data d' -> blen (st_bytes s) < blen p -> s' = s.
Proof.
  intros Hd Hd' H H' Hp Hp' Hlt. unfold start in *. unfold disk_ok, d_size in *. cbn [is_blocks] in *. change (is_blocks Blocks) with true in *.
  cbv iota in *. bind H as b Hb. bind H as q Hq. injection H as <-. bind H' as b' Hb'. bind H' as q' Hq'. injection H' as <-. cbn [st_bytes] in Hlt.
  pose proof (blen_nonneg (d_data d)). pose proof (blen_nonneg (d_data d')).
  apply read_Ok in Hb; [|unfold inside, d_size; change (Z.shiftl 1 20) with 1048576; lia].
  apply read_Ok in Hb'; [|unfold inside, d_size; change (Z.shiftl 1 20) with 1048576; lia].
  pose proof (slice_blen _ _ _ _ Hb) as Lb. pose proof (slice_blen _ _ _ _ Hb') as Lb'.
  apply slice_Some in Hb as (_ & _ & _ & Hb). apply slice_Some in Hb' as (_ & _ & _ & Hb').
  change (Z.to_nat 0) with 0%nat in Hb, Hb'. rewrite drop_0 in Hb, Hb'. change (Z.shiftl 1 20) with 1048576 in *.
  assert (Hbu : blen b < U64) by width_lia. assert (Hbu' : blen b' < U64) by width_lia.
  apply of_frame_Ok in Hq. apply of_frame_Ok in Hq'.
  assert (Hqe : 0 <= pr_end q <= blen b).
  { unfold preamble in Hq. destruct (preamble_walk sha256 (mkCursor b 0)) as [[[first id]|e|] c] eqn:E; [|done|done]. injection Hq as <-.
    destruct (steady_preamble _ _ _ (new_cursor_wf b Hbu) E) as (_ & ? & _). done. }
  rewrite blen_take in Hlt by lia. destruct Hp as [t Ht]. destruct Hp' as [t' Ht'].
  assert (Hlen : blen p <= blen (d_data d) /\ blen p <= blen (d_data d')) by (rewrite Ht, Ht', !blen_app; pose proof (blen_nonneg t); pose proof (blen_nonneg t'); lia).
  assert (Hsame : same b b' (Z.min (blen p) 1048576)).
  { unfold same. rewrite Hb, Hb', Ht, Ht', !take_take. rewrite <- !Ht, <- !Ht', !min_l by lia. rewrite Ht, Ht', !take_app_le by (unfold blen in *; lia). done. }
  assert (Hq2 : preamble sha256 b' = Ok q).
  { apply (preamble_same b b' q); [done|done|done|lia|]. intros x n Hx.
    destruct (Z_le_gt_dec (pr_end q + 1) 1048576); [apply same_slice; [eapply same_le; [exact Hsame|lia]|lia|lia]|].
    assert (b = b') as ->; [|done]. unfold same in Hsame. rewrite !take_ge in Hsame by (unfold blen in *; lia). done. }
  rewrite Hq2 in Hq'. injection Hq' as <-. f_equal. symmetry. apply (same_le _ _ (pr_end q) _ Hsame). lia.
Qed.
End Preambles.

(** ** The passes of a run *)
Section Passes.
Context {F : Flate} {R : FlateReset F} (zlib : bytes -> option bytes) {L : FlateLaws F zlib}
  {RL : ResetLaws F zlib} (sha256 : bytes -> bytes) (capacity : bytes -> Z) (text : reason -> string) (sys : System) (kind : Kind).
Hypothesis Hcap : forall b, blen b <= capacity b.

(** Files and sources that were opened. *)
Record pass_ok (i : Inputs) : Prop := {
  po_inputs : inputs_ok (ip_log i) (ip_index i) (ip_refs i);
  po_donors : Forall log_ok (ip_donors i)
}.

Lemma slift_no_panic {E S A} (r : res E A) (s : S) : is_panic r = false -> is_panic (slift r s).1 = false.
Proof. done. Qed.

Lemma prefix_no_panic i e : pass_ok i -> 8 <= blen (e_bytes e) <= MAX_BYTES -> is_panic (check_prefix_donors sha256 e kind (ip_donors i)) = false.
Proof. intros [_ Hd] He. apply (check_prefix_no_panic zlib); [done|]. unfold MAX_BYTES in He. width_lia. Qed.

Lemma append_no_panic b o : is_panic (append sys b o).1 = false.
Proof.
  unfold append, write_index, write_log, sbind, sget. destruct (sys_write sys false _); [done|]. cbn [o_log].
  destruct (sys_write sys true _); [done|]. cbn [o_log]. by destruct (sys_write sys true _).
Qed.

Lemma inspect_no_panic i e s : pass_ok i -> 8 <= blen (e_bytes e) <= MAX_BYTES -> is_panic (inspect_entry sha256 kind i e s).1 = false.
Proof.
  intros Hi He. pose proof (prefix_no_panic i e Hi He). unfold inspect_entry. rewrite sbind_run. unfold slift.
  by destruct (check_prefix_donors _ _ _ _).
Qed.

Lemma copy_no_panic i e o : pass_ok i -> 8 <= blen (e_bytes e) <= MAX_BYTES -> is_panic (copy_entry sha256 sys kind i e o).1 = false.
Proof.
  intros Hi He. pose proof (prefix_no_panic i e Hi He). unfold copy_entry. rewrite sbind_run. unfold slift at 1.
  destruct (check_prefix_donors _ _ _ _); [|done|done]. rewrite sbind_run, e_body_total by lia. apply append_no_panic.
Qed.

Lemma inspect_all i acc : forall s',
  accept_all (inspect_entry sha256 kind i) acc None = (Ok (), s') ->
  s' = prev_id acc (length acc) /\ Forall (fun e => check_prefix_donors sha256 e kind (ip_donors i) = Ok ()) acc.
Proof.
  induction acc as [|e acc IH] using rev_ind; intros s' H; [by injection H as <-|]. rewrite accept_all_app in H.
  destruct (accept_all _ acc None) as [[[]|f|] s1]; [|done|done]. destruct (IH s1 eq_refl) as [-> Hf].
  unfold inspect_entry in H. rewrite sbind_run in H. unfold slift in H. destruct (check_prefix_donors _ e _ _) as [[]|f|] eqn:E; [|done|done].
  injection H as <-. rewrite prev_id_snoc. split; [done|]. apply Forall_app. split; [done|by constructor].
Qed.

Lemma copy_all i header acc : forall o o' bodies0,
  output_ok header bodies0 o -> o_at o + extent acc < U64 ->
  (forall e, e ∈ acc -> exists data at_ body, entry_at_of zlib sha256 kind data at_ e body) ->
  accept_all (copy_entry sha256 sys kind i) acc o = (Ok (), o') ->
  exists bodies, Forall2 (fun e b => e_body e = Ok b /\ valid_body zlib sha256 kind b) acc bodies /\
    total bodies = extent acc /\ output_ok header (bodies0 ++ bodies) o'.
Proof.
  induction acc as [|e acc IH]; intros o o' bodies0 Ho Hu Hat H; cbn [accept_all] in H.
  { injection H as <-. exists []. rewrite app_nil_r. split; [constructor|split; done]. }
  unfold extent in Hu. cbn [foldr] in Hu. fold (extent acc) in Hu. pose proof (extent_nonneg acc).
  destruct (Hat e ltac:(by left)) as (data & at_ & body & He). destruct (at_body _ _ _ _ _ _ _ He) as [Hb Hl].
  apply sbind_Ok in H as ([] & o1 & H1 & H). unfold copy_entry in H1. rewrite sbind_run in H1. unfold slift at 1 in H1.
  destruct (check_prefix_donors _ e _ _) as [[]|f|]; [|done|done]. rewrite sbind_run, Hb in H1. cbn [slift] in H1.
  pose proof (append_spec sys header bodies0 o body Ho ltac:(lia)) as Ha. unfold slift in H1. rewrite H1 in Ha.
  pose proof (oo_at _ _ _ Ho) as Ho1. pose proof (oo_at _ _ _ Ha) as Ho2. rewrite total_app in Ho2. unfold total in Ho2 at 2. cbn [foldr] in Ho2.
  destruct (IH o1 o' (bodies0 ++ [body]) Ha ltac:(lia)) as (bodies & Hf & Ht & Hok); [intros x Hx; apply Hat; by right|done|].
  exists (body :: bodies). rewrite <- app_assoc in Hok. split; [|split; [|done]].
  - constructor; [|done]. split; [done|]. destruct He as [_ Hbytes _ Hlim Hof]. split; [lia|by eexists _, _].
  - unfold total, extent in *. cbn [foldr]. lia.
Qed.

Lemma write_pair_spec begin i sm tail :
  pass_ok i -> total tail <= MAX_BYTES ->
  match write_pair sha256 capacity text sys kind begin i sm tail with
  | Ok o => exists sm2 phys acc bodies o0 o1, start sha256 (ip_log i) kind = Ok begin /\
      walked zlib sha256 (copy_entry sha256 sys kind i) (ip_log i) (ip_index i) kind begin (ip_refs i) o0 o1 sm2 phys acc /\
      same_summary text sm2 sm = true /\ Forall2 (fun e b => e_body e = Ok b /\ valid_body zlib sha256 kind b) acc bodies /\
      output_ok (st_bytes begin) (bodies ++ tail) o /\ o_at o < U64
  | Err _ => True
  | Panic => False
  end.
Proof.
  intros Hi Ht. unfold write_pair. pose proof (output_new_spec sys (st_bytes begin)) as Hn.
  destruct (output_new sys (st_bytes begin)) as [o0|e|]; cbn [rbind]; [|done|done]. unfold walk_of.
  pose proof (walk_spec zlib sha256 capacity Hcap (copy_entry sha256 sys kind i) (ip_log i) (ip_index i) kind begin (ip_refs i) o0
    (po_inputs _ Hi) (fun e s He => copy_no_panic i e s Hi He)) as Hw.
  destruct (walk _ _ _ _ _ _ _ _ o0) as [[sm2 o1]|e|]; cbn [rbind fst snd]; [|done|done].
  destruct Hw as [Hstart (phys & acc & Hw)]. destruct (same_summary text sm2 sm) eqn:Es; cbn [ensure rbind]; [|done].
  pose proof (wk_tiles _ _ _ _ _ _ _ _ _ _ _ _ _ Hw) as Htiles. pose proof (wk_picks _ _ _ _ _ _ _ _ _ _ _ _ _ Hw) as Hpicks.
  pose proof (wk_end _ _ _ _ _ _ _ _ _ _ _ _ _ Hw) as Hend. pose proof (wk_user _ _ _ _ _ _ _ _ _ _ _ _ _ Hw) as Huser.
  pose proof (tiles_extent _ _ _ _ _ _ _ Htiles) as Hext. pose proof (picks_extent _ _ _ _ _ Hpicks) as Hpe.
  pose proof (in_disk _ _ _ (po_inputs _ Hi)) as Hdk. unfold disk_ok in Hdk. pose proof (oo_at _ _ _ Hn) as Hat0.
  unfold total in Hat0. simpl in Hat0. pose proof (extent_nonneg acc). unfold MAX_BYTES in Ht. pose proof (total_nonneg tail).
  destruct (copy_all i (st_bytes begin) acc o0 o1 [] Hn) as (bodies & Hf & Htot & Hok); [width_lia| |done|].
  { intros e He. apply (picks_in _ _ _ _ _ _ Hpicks) in He. destruct (tiles_entry _ _ _ _ _ _ _ _ Htiles He) as (at_ & body & ?). by exists (d_data (ip_log i)), at_, body. }
  pose proof (oo_at _ _ _ Hok) as Hat1. cbn [app] in Hat1.
  pose proof (append_all_spec sys (st_bytes begin) tail bodies o1 Hok ltac:(width_lia)) as Ha.
  destruct (append_all sys tail o1) as [[[]|e|] o]; [|done|done].
  exists sm2, phys, acc, bodies, o0, o1. do 5 (split; [done|]). pose proof (oo_at _ _ _ Ha) as Hat2. rewrite total_app in Hat2. width_lia.
Qed.
End Passes.

(** ** The files read back *)
Section Kept.
Context {F : Flate} {R : FlateReset F} (zlib : bytes -> option bytes) {L : FlateLaws F zlib}
  {RL : ResetLaws F zlib} (sha256 : bytes -> bytes) (kind : Kind).

Lemma picks_blocks refs phys acc : is_blocks kind = true -> picks sha256 kind refs phys acc -> acc = phys.
Proof. intros Hk. induction 1 as [|phys acc e Hp IH|phys acc e Hp IH [Ho _]]; [done|by rewrite IH|congruence]. Qed.

Lemma picks_all refs phys acc : picks sha256 kind refs phys acc -> blen acc <= blen phys /\ (blen acc = blen phys -> acc = phys).
Proof.
  unfold blen. induction 1 as [|phys acc e Hp [IH1 IH2]|phys acc e Hp [IH1 IH2] _]; [done|rewrite !length_app|rewrite length_app; simpl; lia].
  simpl. split; [lia|]. intros. rewrite IH2 by lia. done.
Qed.

(** The first entry a walk accepts, and where its bytes are. *)
Lemma first_accepted {S} (accept : Entry -> M fault S ()) d index begin refs user user' sm phys acc e :
  walked zlib sha256 accept d index kind begin refs user user' sm phys acc -> acc !! 0%nat = Some e ->
  e_number e = st_first begin /\ (is_blocks kind = true -> exists body, entry_at_of zlib sha256 kind (d_data d) (blen (st_bytes begin)) e body).
Proof.
  intros Hw He. pose proof (wk_chain _ _ _ _ _ _ _ _ _ _ _ _ _ Hw 0%nat e He) as [Hn _]. split; [lia|]. intros Hk.
  pose proof (wk_picks _ _ _ _ _ _ _ _ _ _ _ _ _ Hw) as Hp. apply (picks_blocks _ _ _ Hk) in Hp. subst acc.
  pose proof (wk_tiles _ _ _ _ _ _ _ _ _ _ _ _ _ Hw) as Ht. destruct phys as [|x phys]; [done|]. injection He as ->. by destruct Ht.
Qed.

(** A SHIP log has no preamble; its first block is the one its first entry names. *)
Lemma start_ship d s : is_blocks kind = false -> disk_ok d -> start sha256 d kind = Ok s ->
  exists x, slice (d_data d) 8 4 = Some x /\ s = mkStart (be_of x) [] None.
Proof.
  intros Hk Hd H. unfold start in H. rewrite Hk in H. guard H as H48. bind H as h Hh. bind H as m Hm. bind H as u Hu. bind H as f Hf.
  guard H as Hr. injection H as <-. apply read_Ok in Hh; [|apply inside_pos; lia]. unfold be32_in in Hf. bind Hf as y Hy. injection Hf as <-.
  apply or_panic_Ok in Hy. exists y. split; [|done]. pose proof (slice_blen _ _ _ _ Hh) as Hl. apply slice_Some in Hh as (_ & _ & Hle & Hh).
  rewrite <- (take_drop 48 (d_data d)). apply slice_app_l. by rewrite Hh in Hy.
Qed.

Lemma first_body_start b id raw t data : blen b < U64 -> ship_body zlib b id raw -> data = b ++ t -> slice data 8 4 = Some (take 4 id).
Proof.
  intros Hb Hs ->. apply ship_body_size in Hs as (_ & Hl & Hid); [|done]. apply slice_app_l.
  apply slice_Some in Hid as (_ & _ & Hle & ->). unfold slice. rewrite (proj2 (Z.leb_le 0 8)), (proj2 (Z.leb_le 0 4)), (proj2 (Z.leb_le (8 + 4) (blen b))) by lia.
  cbn [andb]. f_equal. by rewrite take_take.
Qed.

(** The new log starts as the old one did. *)
Lemma start_kept d d' begin begin' e b bodies pos :
  disk_ok d -> disk_ok d' -> start sha256 d kind = Ok begin -> start sha256 d' kind = Ok begin' ->
  d_data d' = st_bytes begin ++ written_log (blen (st_bytes begin)) (b :: bodies) -> e_body e = Ok b -> e_number e = st_first begin ->
  entry_at_of zlib sha256 kind (d_data d) pos e b -> (is_blocks kind = true -> pos = blen (st_bytes begin)) -> begin' = begin.
Proof.
  intros Hd Hd' Hs Hs' Hdata Hb Hn He Hpos. destruct (is_blocks kind) eqn:Ek.
  - specialize (Hpos eq_refl). unfold is_blocks in Ek. apply bool_decide_eq_true in Ek. rewrite Ek in *. subst pos.
    destruct (start_facts sha256 d Blocks begin Hd Hs) as (_ & Hle & Htake). destruct He as [_ Hbytes Hsl _ _].
    apply (start_same sha256 d d' begin begin' (st_bytes begin ++ e_bytes e)); try done.
    + exists (drop (Z.to_nat (blen (st_bytes begin) + blen (e_bytes e))) (d_data d)).
      rewrite Htake at 1. rewrite (take_slice _ _ _ _ Hsl). by rewrite take_drop.
    + exists (written_log (blen (st_bytes begin) + (blen b + 8)) bodies). by rewrite Hdata, Hbytes, <- !app_assoc.
    + rewrite Hbytes, !blen_app, blen_le_bytes. pose proof (blen_nonneg b). lia.
  - apply (start_ship _ _ Ek Hd) in Hs as (x & _ & ->). apply (start_ship _ _ Ek Hd') in Hs' as (y & Hy & ->). cbn [st_bytes st_first app written_log] in *.
    pose proof (ea_limit _ _ _ _ _ _ _ He) as Hlim. destruct (at_body _ _ _ _ _ _ _ He) as [_ Hl]. destruct He as [_ _ _ _ Hof].
    unfold entry_of in Hof. rewrite Ek in Hof. destruct Hof as (_ & raw & Hof).
    rewrite (first_body_start b (e_id e) raw _ _ ltac:(unfold MAX_BYTES in Hlim; width_lia) Hof Hdata) in Hy. injection Hy as <-.
    unfold e_number, num_from_id in Hn. by rewrite Hn.
Qed.

(** When the new log holds what was written, the walk over it has accepted every entry written, and nothing else. *)
Lemma kept_pair {S S'} (accept : Entry -> M fault S ()) (accept' : Entry -> M fault S' ()) d d' index index' begin begin' refs refs'
    u u' v v' sm back phys phys' acc acc' bodies tail :
  disk_ok d -> disk_ok d' -> start sha256 d kind = Ok begin -> start sha256 d' kind = Ok begin' ->
  walked zlib sha256 accept d index kind begin refs u u' sm phys acc ->
  Forall2 (fun e b => e_body e = Ok b /\ valid_body zlib sha256 kind b) acc bodies -> 0 < blen acc ->
  Forall (valid_body zlib sha256 kind) tail ->
  d_data d' = st_bytes begin ++ written_log (blen (st_bytes begin)) (bodies ++ tail) ->
  walked zlib sha256 accept' d' index' kind begin' refs' v v' back phys' acc' ->
  sm_failure back = None -> sm_last_block back = Some (st_first begin + blen acc + blen tail - 1) ->
  begin' = begin /\ acc' = phys' /\ Forall2 (fun e b => e_body e = Ok b) acc' (bodies ++ tail).
Proof.
  intros Hd Hd' Hs Hs' Hw Hf Hpos Htail Hdata Hback Hfail Hlast.
  assert (Hbegin : begin' = begin).
  { destruct Hf as [|e b acc0 bodies0 [Hb _] _]; [unfold blen in Hpos; simpl in Hpos; lia|].
    destruct (first_accepted accept d index begin refs u u' sm phys (e :: acc0) e Hw eq_refl) as [Hn Hblk].
    pose proof (wk_picks _ _ _ _ _ _ _ _ _ _ _ _ _ Hw) as Hp. pose proof (picks_in _ _ _ _ _ e Hp ltac:(by left)) as Hin.
    pose proof (wk_tiles _ _ _ _ _ _ _ _ _ _ _ _ _ Hw) as Ht. destruct (tiles_entry _ _ _ _ _ _ _ _ Ht Hin) as (at_ & body & Hat).
    destruct (is_blocks kind) eqn:Ek.
    - destruct (Hblk eq_refl) as (body' & Hat'). destruct (at_body _ _ _ _ _ _ _ Hat') as [Hb' _]. rewrite Hb in Hb'. injection Hb' as <-.
      eapply (start_kept d d' begin begin' e b); try done.
    - destruct (at_body _ _ _ _ _ _ _ Hat) as [Hb' _]. rewrite Hb in Hb'. injection Hb' as <-.
      eapply (start_kept d d' begin begin' e b); try done. congruence. }
  subst begin'. pose proof (start_facts sha256 d' kind begin Hd' Hs') as (_ & Hle & _).
  destruct (tiles_written zlib sha256 kind d' (bodies ++ tail) (blen (st_bytes begin))) as (es & Hes & Hfe).
  { pose proof (blen_nonneg (st_bytes begin)). lia. }
  { rewrite Hdata. by apply drop_app_exact. }
  { apply Forall_app. split; [|done]. clear -Hf. induction Hf as [|e b l k [_ ?] _ IH]; constructor; done. }
  pose proof (wk_failure _ _ _ _ _ _ _ _ _ _ _ _ _ Hback) as Hend. rewrite Hfail in Hend.
  pose proof (wk_tiles _ _ _ _ _ _ _ _ _ _ _ _ _ Hback) as Ht'. rewrite Hend in Ht'.
  pose proof (tiles_unique zlib sha256 kind d' Hd' _ _ _ Hes Ht') as ->.
  pose proof (wk_last _ _ _ _ _ _ _ _ _ _ _ _ _ Hback) as Hl. rewrite Hlast in Hl. destruct (Z.ltb_spec 0 (blen acc')); [|done]. injection Hl as Hl.
  pose proof (picks_all _ _ _ (wk_picks _ _ _ _ _ _ _ _ _ _ _ _ _ Hback)) as [_ Heq].
  pose proof (Forall2_length Hf) as Hlf. pose proof (Forall2_length Hfe) as Hle2. rewrite length_app in Hle2.
  assert (acc' = es) as -> by (apply Heq; unfold blen in *; lia). done.
Qed.
End Kept.

(** ** A run *)
Section Runs.
Context {F : Flate} {R : FlateReset F} (zlib : bytes -> option bytes) {L : FlateLaws F zlib}
  {RL : ResetLaws F zlib} (sha256 : bytes -> bytes) (capacity : bytes -> Z) (text : reason -> string) (sys : System).
Hypothesis Hcap : forall b, blen b <= capacity b.

(** The system opens files it can hold. *)
Definition reopens : Prop := forall a b l x, sys_reopen sys a b = inl (l, x) -> disk_ok l /\ disk_ok x.

(** The entries that follow [n] entries from block [first] on, the last with id [anchor]: none when the prefix is
    salvaged; up to the block that was asked for when the log is restored. *)
Definition tail_for (o : Options) (kind : Kind) (i : Inputs) (first n : Z) (anchor : bytes) (tail : list bytes) : Prop :=
  match op_mode o with
  | Salvage => tail = []
  | Restore => exists thr, op_through o = Some thr /\ first + n - 1 <= thr /\
      restored zlib sha256 kind (ip_refs i) (ip_donors i) (Some anchor) (seqZ (first + n) (thr - (first + n - 1))) tail
  end.

(** What a run that wrote a pair has established: [i1], [i2] and [i3] are its inputs at the three passes. *)
Record recovered (o : Options) (kind : Kind) (begin : Start) (i1 i2 i3 : Inputs) (rp : Report) (out : Output) (log index : Disk)
    (acc1 acc : list Entry) (bodies tail : list bytes) : Prop := {
  rd_inspected : exists anchor phys1,
    walked zlib sha256 (inspect_entry sha256 kind i1) (ip_log i1) (ip_index i1) kind begin (ip_refs i1) None (Some anchor) (rp_inspection rp) phys1 acc1 /\
    tail_for o kind i1 (st_first begin) (blen acc1) anchor tail;
  rd_donors : Forall (fun e => check_prefix_donors sha256 e kind (ip_donors i1) = Ok ()) acc1;
  rd_copied : exists sm phys o0 o1,
    walked zlib sha256 (copy_entry sha256 sys kind i2) (ip_log i2) (ip_index i2) kind begin (ip_refs i2) o0 o1 sm phys acc /\
    same_summary text sm (rp_inspection rp) = true;
  rd_count : 0 < blen acc /\ blen acc = blen acc1;
  rd_bodies : Forall2 (fun e b => e_body e = Ok b) acc bodies;
  rd_log : o_log out = st_bytes begin ++ written_log (blen (st_bytes begin)) (bodies ++ tail);
  rd_index : o_index out = written_index (blen (st_bytes begin)) (bodies ++ tail);
  rd_reopened : sys_reopen sys (o_log out) (o_index out) = inl (log, index);
  rd_digests : sha256 (d_data log) = sha256 (o_log out) /\ sha256 (d_data index) = sha256 (o_index out);
  rd_back : exists back begin' phys' acc',
    walked zlib sha256 (verify_entry sha256 kind i3) log (Some index) kind begin' (ip_refs i3) () () back phys' acc' /\
    sm_failure back = None /\ sm_index_discrepancies back = 0 /\
    sm_last_block back = Some (st_first begin + blen acc + blen tail - 1) /\
    (d_data log = o_log out -> begin' = begin /\ acc' = phys' /\ Forall2 (fun e b => e_body e = Ok b) acc' (bodies ++ tail))
}.

Lemma same_summary_entries a b : same_summary text a b = true -> sm_entries a = sm_entries b.
Proof. unfold same_summary. rewrite !andb_true_iff. intros H. destruct_and! H. by apply Z.eqb_eq. Qed.

Section One.
Context (o : Options) (kind : Kind) (begin : Start) (i1 i2 i3 : Inputs).
Hypothesis H1 : pass_ok i1.
Hypothesis H2 : pass_ok i2.
Hypothesis H3 : pass_ok i3.
Hypothesis Hre : reopens.

Abbreviation inspected := (walked zlib sha256 (inspect_entry sha256 kind i1) (ip_log i1) (ip_index i1) kind begin (ip_refs i1) None).

Lemma inspected_anchor la sm phys acc :
  inspected la sm phys acc -> 0 < blen acc -> exists anchor, la = Some anchor.
Proof.
  intros Hw Hp. destruct (inspect_all sha256 kind i1 acc la (wk_user _ _ _ _ _ _ _ _ _ _ _ _ _ Hw)) as [-> _].
  destruct acc as [|e acc] using rev_ind; [unfold blen in Hp; simpl in Hp; lia|]. rewrite prev_id_snoc. by eexists.
Qed.

Lemma restored_spec la sm phys acc canonical :
  inspected la sm phys acc -> 0 < st_first begin ->
  match (let? tail := restoration sha256 sm (op_through o) kind (ip_refs i1) (ip_donors i1) in
         anchored sha256 kind (ip_refs i1) canonical sm la tail) with
  | Ok tail => 0 < blen acc /\ total tail <= MAX_BYTES /\ canonical = true /\
      exists anchor thr, la = Some anchor /\ op_through o = Some thr /\ st_first begin + blen acc - 1 <= thr /\
        restored zlib sha256 kind (ip_refs i1) (ip_donors i1) (Some anchor)
          (seqZ (st_first begin + blen acc) (thr - (st_first begin + blen acc - 1))) tail
  | Err _ => True
  | Panic => False
  end.
Proof.
  intros Hw Hf. pose proof (wk_last _ _ _ _ _ _ _ _ _ _ _ _ _ Hw) as Hl. pose proof (wk_last_u32 _ _ _ _ _ _ _ _ _ _ _ _ _ Hw) as Hu.
  assert (Hlast : forall last, sm_last_block sm = Some last -> 0 < blen acc /\ last = st_first begin + blen acc - 1).
  { intros last E. rewrite E in Hl. destruct (Z.ltb_spec 0 (blen acc)); [|done]. by injection Hl as ->. }
  pose proof (restoration_spec zlib sha256 kind (ip_refs i1) (ip_donors i1) (in_refs _ _ _ (po_inputs _ H1)) (po_donors _ H1) sm (op_through o)) as Hr.
  destruct (restoration _ _ _ _ _ _) as [tail|e|]; cbn [rbind]; [|done|].
  2: { apply Hr. intros last E. destruct (Hlast last E). lia. }
  destruct Hr as (last & thr & El & Et & Hle & _ & Hr & Htot). { intros last E. destruct (Hlast last E). lia. }
  destruct (Hlast last El) as [Hp ->]. destruct (inspected_anchor la sm phys acc Hw Hp) as [anchor ->].
  pose proof (anchored_spec zlib sha256 kind (ip_refs i1) (ip_donors i1) (in_refs _ _ _ (po_inputs _ H1)) sm _ (thr - (st_first begin + blen acc - 1)) tail canonical anchor
    El ltac:(lia) ltac:(lia) Hr) as Ha.
  destruct (anchored _ _ _ _ _ _ _) as [t|e|]; [|done|done]. destruct Ha as (-> & Hc & Ha). do 3 (split; [done|]). exists anchor, thr.
  do 3 (split; [done|]). by replace (st_first begin + blen acc - 1 + 1) with (st_first begin + blen acc) in Ha by lia.
Qed.

Lemma read_back_spec out desired :
  match read_back sha256 capacity sys kind i3 out desired with
  | Ok (back, log, index) => exists begin' phys' acc', sys_reopen sys (o_log out) (o_index out) = inl (log, index) /\
      start sha256 log kind = Ok begin' /\ disk_ok log /\
      walked zlib sha256 (verify_entry sha256 kind i3) log (Some index) kind begin' (ip_refs i3) () () back phys' acc' /\
      sm_failure back = None /\ sm_index_discrepancies back = 0 /\ sm_last_block back = desired /\
      sha256 (d_data log) = sha256 (o_log_hash out) /\ sha256 (d_data index) = sha256 (o_index_hash out)
  | Err _ => True
  | Panic => False
  end.
Proof.
  unfold read_back. destruct (sys_reopen sys (o_log out) (o_index out)) as [[log index]|e] eqn:Er; cbn [of_sum rbind]; [|done].
  destruct (Hre _ _ _ _ Er) as [Hlog Hindex]. pose proof (start_no_panic sha256 log kind Hlog) as Hnp.
  destruct (start sha256 log kind) as [begin'|e|] eqn:Es; cbn [rbind]; [|done|done].
  pose proof (walk_spec zlib sha256 capacity Hcap (verify_entry sha256 kind i3) log (Some index) kind begin' (ip_refs i3) ()
    ltac:(split; [done|done|apply (in_refs _ _ _ (po_inputs _ H3))]) (fun e s He => prefix_no_panic zlib sha256 kind i3 e H3 He)) as Hw.
  destruct (walk _ _ _ _ _ _ _ _ ()) as [[back []]|e|]; cbn [rbind fst]; [|done|done]. destruct Hw as [_ (phys' & acc' & Hw)].
  match goal with |- match rbind (ensure ?b _) _ with _ => _ end => destruct b eqn:E1; cbn [ensure rbind]; [|done] end.
  match goal with |- match rbind (ensure ?b _) _ with _ => _ end => destruct b eqn:E2; cbn [ensure rbind]; [|done] end.
  rewrite !andb_true_iff, !bool_decide_eq_true, Z.eqb_eq in E1. rewrite !andb_true_iff, !bool_decide_eq_true in E2. destruct_and! E1. destruct_and! E2.
  exists begin', phys', acc'. do 7 (split; [done|]). pose proof (wk_input _ _ _ _ _ _ _ _ _ _ _ _ _ Hw). pose proof (wk_index _ _ _ _ _ _ _ _ _ _ _ _ _ Hw) as Hx.
  simpl in Hx. split; congruence.
Qed.

(** The pass that writes and the one that reads back, for a tail that fits the inspected prefix. *)
Lemma written_spec sm phys1 acc1 anchor tail desired :
  inspected (Some anchor) sm phys1 acc1 -> 0 < blen acc1 -> total tail <= MAX_BYTES ->
  Forall (valid_body zlib sha256 kind) tail -> tail_for o kind i1 (st_first begin) (blen acc1) anchor tail ->
  desired = Some (st_first begin + blen acc1 + blen tail - 1) ->
  forall rp, rp_inspection rp = sm ->
  match (let? out := write_pair sha256 capacity text sys kind begin i2 sm tail in
         do? check_inputs sys 1 ;;
         let? back := read_back sha256 capacity sys kind i3 out desired in
         Ok (out, back)) with
  | Ok (out, (back, log, index)) => exists acc bodies, recovered o kind begin i1 i2 i3 rp out log index acc1 acc bodies tail
  | Err _ => True
  | Panic => False
  end.
Proof.
  intros Hw Hp Htot Hv Htail Hdes rp Hrp. pose proof (write_pair_spec zlib sha256 capacity text sys kind Hcap begin i2 sm tail H2 Htot) as Hwp.
  destruct (write_pair _ _ _ _ _ _ _ _ _) as [out|e|]; cbn [rbind]; [|done|done].
  destruct Hwp as (sm2 & phys & acc & bodies & o0 & o1 & Hst & Hw2 & Hsame & Hf & Hok & Hat).
  unfold check_inputs. destruct (sys_check sys 1); cbn [rbind]; [done|].
  pose proof (read_back_spec out desired) as Hb. destruct (read_back _ _ _ _ _ _ _) as [[[back log] index]|e|]; cbn [rbind]; [|done|done].
  destruct Hb as (begin' & phys' & acc' & Hro & Hst' & Hlog & Hw3 & Hfail & Hdisc & Hlast & Hd1 & Hd2).
  destruct Hok as [Ho1 Ho2 Ho3 Ho4 Ho5 Ho6].
  assert (Hcount : blen acc = blen acc1).
  { rewrite <- (wk_entries _ _ _ _ _ _ _ _ _ _ _ _ _ Hw2), <- (wk_entries _ _ _ _ _ _ _ _ _ _ _ _ _ Hw). by apply same_summary_entries. }
  subst sm desired. rewrite <- Hcount in Hlast.
  exists acc, bodies. split.
  - by exists anchor, phys1.
  - by destruct (inspect_all sha256 kind i1 acc1 _ (wk_user _ _ _ _ _ _ _ _ _ _ _ _ _ Hw)).
  - by exists sm2, phys, o0, o1.
  - split; [lia|done].
  - clear -Hf. induction Hf as [|e b l k [? _] _ IH]; constructor; done.
  - done.
  - done.
  - done.
  - by rewrite Hd1, Hd2, Ho5, Ho6.
  - exists back, begin', phys', acc'. do 4 (split; [done|]). intros Hkept. rewrite Ho1 in Hkept.
    eapply (kept_pair zlib sha256 kind _ _ (ip_log i2) log); try done; [apply (in_disk _ _ _ (po_inputs _ H2))|lia].
Qed.

Lemma recover_spec :
  match recover sha256 capacity text sys o kind begin i1 i2 i3 with
  | Ok oc => match oc_files oc with
             | Some (out, log, index) => op_out o = true /\ exists acc1 acc bodies tail,
                 recovered o kind begin i1 i2 i3 (oc_report oc) out log index acc1 acc bodies tail
             | None => op_out o = false
             end
  | Err _ => True
  | Panic => False
  end.
Proof.
  unfold recover, walk_of.
  pose proof (walk_spec zlib sha256 capacity Hcap (inspect_entry sha256 kind i1) (ip_log i1) (ip_index i1) kind begin (ip_refs i1) None
    (po_inputs _ H1) (fun e s He => inspect_no_panic zlib sha256 kind i1 e s H1 He)) as Hw.
  destruct (walk _ _ _ _ _ _ _ _ None) as [[sm la]|e|]; cbn [rbind]; [|done|done]. destruct Hw as [Hst (phys1 & acc1 & Hw)].
  destruct (start_facts sha256 _ _ _ (in_disk _ _ _ (po_inputs _ H1)) Hst) as (Hfirst & _ & _).
  match goal with |- match rbind (ensure ?b _) _ with _ => _ end => destruct b; cbn [ensure rbind]; [|done] end.
  set (canonical := is_blocks kind || _). pose proof (restored_spec la sm phys1 acc1 canonical Hw ltac:(lia)) as Hr.
  set (restored_ := let? tail := restoration _ _ _ _ _ _ in _) in *.
  set (reason := match restored_ with Ok _ => Ok None | Err e => Ok (Some e) | Panic => Panic end).
  assert (Hreason : exists r, reason = Ok r) by (unfold reason; destruct restored_; [by eexists|by eexists|done]).
  destruct Hreason as [r ->]. cbn [rbind]. unfold check_inputs at 1. destruct (sys_check sys 0); cbn [rbind]; [done|].
  destruct (op_out o); cbn [negb]; [|done].
  set (chosen := match op_mode o with Restore => restored_ | Salvage => _ end).
  assert (Hc : match chosen with
    | Ok tail => 0 < blen acc1 /\ total tail <= MAX_BYTES /\ Forall (valid_body zlib sha256 kind) tail /\ exists anchor, la = Some anchor /\
        tail_for o kind i1 (st_first begin) (blen acc1) anchor tail /\
        match op_mode o with Restore => op_through o | Salvage => sm_last_block sm end = Some (st_first begin + blen acc1 + blen tail - 1)
    | Err _ => True | Panic => False end).
  { unfold chosen, tail_for. destruct (op_mode o).
    - destruct restored_ as [tail|e|]; [|done|done]. destruct Hr as (Hp & Ht & _ & anchor & thr & Ha & Hthr & Hle & Hres). do 2 (split; [done|]).
      split; [by eapply (restored_valid zlib)|]. exists anchor. split; [done|]. split; [by exists thr|]. rewrite Hthr. f_equal.
      pose proof (restored_length _ _ _ _ _ _ _ _ Hres) as Hlen. rewrite length_seqZ in Hlen. unfold blen in *. lia.
    - destruct (Z.ltb_spec 0 (sm_entries sm)) as [Hp|]; cbn [andb ensure rbind]; [|done]. destruct canonical; cbn [ensure rbind]; [|done].
      rewrite (wk_entries _ _ _ _ _ _ _ _ _ _ _ _ _ Hw) in Hp. split; [done|]. split; [unfold total, MAX_BYTES; simpl; lia|]. split; [done|].
      destruct (inspected_anchor _ _ _ _ Hw Hp) as [anchor ->]. exists anchor. do 2 (split; [done|]).
      rewrite (wk_last _ _ _ _ _ _ _ _ _ _ _ _ _ Hw), (proj2 (Z.ltb_lt _ _) Hp). f_equal. unfold blen. simpl. lia. }
  destruct chosen as [tail|e|]; cbn [rbind]; [|done|done]. destruct Hc as (Hp & Ht & Hv & anchor & -> & Htail & Hdes).
  destruct (sys_space sys) as [space|]; cbn [of_sum rbind]; [|done]. destruct (needed sm tail <=? space); cbn [ensure rbind]; [|done].
  pose proof (written_spec sm phys1 acc1 anchor tail _ Hw Hp Ht Hv Htail Hdes) as Hwr.
  destruct (write_pair _ _ _ _ _ _ _ _ _) as [out|e|]; cbn [rbind] in *; [|done|by eapply (Hwr (mkReport None sm None None false None))].
  destruct (check_inputs sys 1) as [[]|e|]; cbn [rbind] in *; [|done|by eapply (Hwr (mkReport None sm None None false None))].
  destruct (read_back _ _ _ _ _ _ _) as [[[back log] index]|e|]; cbn [rbind] in *; [|done|by eapply (Hwr (mkReport None sm None None false None))].
  unfold check_inputs. destruct (sys_check sys 2); cbn [rbind]; [done|]. cbn [oc_files oc_report]. split; [done|]. exists acc1.
  match goal with |- exists _ _ _, recovered _ _ _ _ _ _ ?rp _ _ _ _ _ _ _ => destruct (Hwr rp eq_refl) as (acc & bodies & Hrec) end.
  by exists acc, bodies, tail.
Qed.
End One.
End Runs.

(** ** Opening the inputs *)
Section Opening.
Context {F : Flate} {R : FlateReset F} (zlib : bytes -> option bytes) {L : FlateLaws F zlib}
  {RL : ResetLaws F zlib} (sha256 : bytes -> bytes).

Definition file_ok (f : LogFile) : Prop := disk_ok (lf_log f).

Record sources_ok (s : Sources) : Prop := {
  sk_blocks : Forall disk_ok (so_blocks s);
  sk_block_logs : Forall file_ok (so_block_logs s);
  sk_donors : Forall file_ok (so_donors s)
}.

Lemma bt_insert_Forall (P : Z * bytes -> Prop) n b m : P (n, b) -> Forall P m -> Forall P (bt_insert n b m).
Proof.
  intros Hn. induction 1 as [|[k x] m Hx Hm IH]; simpl; [by constructor|].
  destruct (n <? k); [by repeat constructor|]. destruct (n =? k); by repeat constructor.
Qed.

Lemma load_blocks_spec bs : forall st,
  Forall (fun e => blen e.2 < U32) bs -> Forall (fun e => blen e.2 < U32) st.2 ->
  match load_blocks bs st with Ok st' => Forall (fun e => blen e.2 < U32) st'.2 | Err _ => True | Panic => False end.
Proof.
  induction bs as [|[n b] bs IH]; intros st Hbs Hst; cbn [load_blocks]; [done|]. apply list.Forall_cons in Hbs as [Hb Hbs].
  destruct (_ <=? _); cbn [ensure rbind]; [|done]. destruct (bt_get n st.2) as [seen|].
  - destruct (bool_decide _); cbn [ensure rbind]; [|done]. by apply IH.
  - cbn [rbind]. apply IH; [done|]. cbn [snd]. by apply bt_insert_Forall.
Qed.

Lemma load_containers_spec ds : forall st,
  Forall disk_ok ds -> Forall (fun e => blen e.2 < U32) st.2 ->
  match load_containers sha256 ds st with Ok st' => Forall (fun e => blen e.2 < U32) st'.2 | Err _ => True | Panic => False end.
Proof.
  induction ds as [|d ds IH]; intros st Hds Hst; cbn [load_containers]; [done|]. apply list.Forall_cons in Hds as [Hd Hds].
  pose proof (container_disk_ok sha256 d Hd) as Hc. destruct (container_disk sha256 d) as [bs|e|]; cbn [rbind]; [|done|done].
  destruct Hc as (first & _ & _ & _ & Hc). pose proof (load_blocks_spec bs st (chained_short _ _ _ _ Hc) Hst) as Hl.
  destruct (load_blocks bs st) as [st'|e|]; cbn [rbind]; [|done|done]. by apply IH.
Qed.

Lemma open_log_spec f : file_ok f -> match open_log f with Ok l => log_ok l | Err _ => True | Panic => False end.
Proof.
  intros Hf. unfold open_log, kind_from_stem. destruct (lf_stem f) as [s|]; cbn [or_err rbind]; [|done].
  assert (Hk : forall k, match Log.from_disks k (lf_log f) (lf_index f) with Ok l => log_ok l | Err _ => True | Panic => False end).
  { intros k. pose proof (from_disks_no_panic k (lf_log f) (lf_index f) Hf) as Hp.
    destruct (Log.from_disks k (lf_log f) (lf_index f)) as [l|e|] eqn:E; [|done|done]. by apply from_disks_ok in E as [? _]. }
  repeat (destruct (_ || _); cbn [rbind]; [apply Hk|]). done.
Qed.

Lemma open_logs_spec fs : Forall file_ok fs -> match open_logs fs with Ok ls => Forall log_ok ls | Err _ => True | Panic => False end.
Proof.
  induction 1 as [|f fs Hf Hfs IH]; cbn [open_logs]; [constructor|]. pose proof (open_log_spec f Hf) as Hl.
  destruct (open_log f) as [l|e|]; cbn [rbind]; [|done|done]. destruct (open_logs fs) as [ls|e|]; cbn [rbind]; [|done|done]. by constructor.
Qed.

Lemma load_with_spec kind s :
  sources_ok s -> match load_with sha256 kind s with Ok l => loaded_ok l | Err _ => True | Panic => False end.
Proof.
  intros [Hb Hl Hd]. unfold load_with. destruct (_ || _); cbn [ensure rbind]; [|done].
  pose proof (load_containers_spec (so_blocks s) (0, []) Hb ltac:(constructor)) as Hc.
  destruct (load_containers _ _ _) as [st|e|]; cbn [rbind]; [|done|done]. pose proof (open_logs_spec _ Hl) as Hls.
  destruct (open_logs (so_block_logs s)) as [ls|e|]; cbn [rbind]; [|done|done]. destruct (forallb _ ls); cbn [ensure rbind]; [|done].
  pose proof (open_logs_spec _ Hd) as Hds. destruct (open_logs (so_donors s)) as [ds|e|]; cbn [rbind]; [|done|done].
  destruct (is_blocks kind); destruct (bool_decide (ds = [])); cbn [ensure rbind negb]; try done.
  destruct (forallb _ ds); cbn [ensure rbind]; done.
Qed.

Lemma same_chain_no_panic id fs : Forall file_ok fs -> is_panic (same_chain sha256 id fs) = false.
Proof.
  induction 1 as [|f fs Hf Hfs IH]; cbn [same_chain]; [done|]. pose proof (start_no_panic sha256 (lf_log f) Blocks Hf) as Hs.
  destruct (start sha256 (lf_log f) Blocks) as [s|e|]; cbn [rbind]; [|done|done]. by destruct (bool_decide _).
Qed.

Lemma open_donors_spec kind fs :
  Forall file_ok fs -> match open_donors kind fs with Ok ls => Forall log_ok ls | Err _ => True | Panic => False end.
Proof.
  induction 1 as [|f fs Hf Hfs IH]; cbn [open_donors]; [constructor|]. pose proof (open_log_spec f Hf) as Hl.
  destruct (open_log f) as [l|e|]; cbn [rbind]; [|done|done]. destruct (_ && _); cbn [ensure rbind]; [|done].
  destruct (open_donors kind fs) as [ls|e|]; cbn [rbind]; [|done|done]. by constructor.
Qed.

Lemma open_inputs_spec kind log index s :
  disk_ok log -> match index with Some i => disk_ok i | None => True end -> sources_ok s ->
  match open_inputs sha256 kind log index s with
  | Ok (begin, i) => pass_ok i /\ ip_log i = log /\ ip_index i = index
  | Err _ => True
  | Panic => False
  end.
Proof.
  intros Hl Hix Hs. unfold open_inputs. pose proof (start_no_panic sha256 log kind Hl) as Hst.
  destruct (start sha256 log kind) as [begin|e|]; cbn [rbind]; [|done|done].
  set (refs := if bool_decide (so_blocks s = []) && _ then Ok None else _).
  assert (Hr : match refs with Ok (Some r) => loaded_ok r | Ok None | Err _ => True | Panic => False end).
  { unfold refs. destruct (_ && _); [done|].
    assert (Hs' : sources_ok (mkSources (so_blocks s) (so_block_logs s) [])) by (destruct Hs; split; [done|done|constructor]).
    pose proof (load_with_spec Blocks _ Hs') as H. by destruct (load_with _ _ _). }
  destruct refs as [refs'|e|]; cbn [rbind]; [|done|done].
  assert (Hsc : is_panic (match st_chain_id begin with Some id => same_chain sha256 id (so_block_logs s) | None => Ok () end) = false).
  { destruct (st_chain_id begin); [|done]. apply same_chain_no_panic, Hs. }
  destruct (match st_chain_id begin with Some _ => _ | None => _ end) as [[]|e|]; cbn [rbind]; [|done|done].
  pose proof (open_donors_spec kind _ (sk_donors _ Hs)) as Hd. destruct (open_donors kind (so_donors s)) as [ds|e|]; cbn [rbind]; [|done|done].
  split; [|done]. split; [split; [done|done|by destruct refs']|done].
Qed.
End Opening.

(** ** Properties *)

(** C7: a recovery ends without panic, whatever the files hold, however reads and writes fail and even if the
    inputs change between its passes; it writes only when asked to. When it reports success, the log it wrote is
    the preamble followed by the entries the walk accepted and, in a restoration, one entry for every later block
    up to the one that was asked for, taken from the trusted sources, each linked to the one before and the first
    to the last accepted entry; the index holds their offsets. The new files were read back: they have the digests
    of what was written, hold one linked chain up to that block and no other bytes, and the index has no
    discrepancy. If the system kept what was written, the entries of that chain are exactly those. *)
Theorem recover_exact (F : Flate) (R : FlateReset F) (zlib : bytes -> option bytes) (L : FlateLaws F zlib)
    (RL : ResetLaws F zlib) (sha256 : bytes -> bytes) (capacity : bytes -> Z) (text : reason -> string) (sys : System)
    (o : Options) (stem : option string) (log : Disk) (index : option Disk) (s : Sources) (again later : Inputs -> Inputs)
    (Hcap : forall b, blen b <= capacity b) (Hre : reopens sys) (Hlog : disk_ok log)
    (Hindex : match index with Some i => disk_ok i | None => True end) (Hs : sources_ok s)
    (Hagain : forall i, pass_ok i -> pass_ok (again i)) (Hlater : forall i, pass_ok i -> pass_ok (later i)) :
  is_panic (run sha256 capacity text sys o stem log index s again later) = false /\
  forall oc, run sha256 capacity text sys o stem log index s again later = Ok oc ->
    match oc_files oc with
    | None => op_out o = false
    | Some (out, log', index') => op_out o = true /\ op_node_stopped o = true /\
        exists kind begin i, kind_from_stem stem = Ok kind /\ open_inputs sha256 kind log index s = Ok (begin, i) /\
          exists acc1 acc bodies tail,
            recovered zlib sha256 text sys o kind begin i (again i) (later i) (oc_report oc) out log' index' acc1 acc bodies tail
    end.
Proof.
  unfold run. destruct (negb (op_out o) || op_node_stopped o) eqn:En; cbn [ensure rbind]; [|done].
  destruct (kind_from_stem stem) as [kind|e|] eqn:Ek; cbn [rbind]; [|done|].
  2: { unfold kind_from_stem in Ek. destruct stem as [x|]; [|done]. cbn [or_err rbind] in Ek. by repeat (destruct (_ || _) in Ek). }
  pose proof (open_inputs_spec sha256 kind log index s Hlog Hindex Hs) as Ho.
  destruct (open_inputs sha256 kind log index s) as [[begin i]|e|] eqn:Eo; cbn [rbind]; [|done|done]. destruct Ho as (Hi & _ & _).
  pose proof (recover_spec zlib sha256 capacity text sys Hcap o kind begin i (again i) (later i) Hi (Hagain i Hi) (Hlater i Hi) Hre) as Hr.
  destruct (recover _ _ _ _ _ _ _ _ _ _) as [oc|e|]; [|done|done]. split; [done|]. intros oc' [= <-].
  destruct (oc_files oc) as [[[out log'] index']|]; [|done]. destruct Hr as [Hout Hr]. rewrite Hout in En. do 2 (split; [done|]).
  exists kind, begin, i. by do 2 (split; [done|]).
Qed.

(** Example: the torn block log of [WalkFacts.v], its second block restored from a container. *)
Definition exv_id1 : bytes := match full_block exf_sha exw_block1 with Ok h => hd_id h | _ => [] end.
Definition exv_block2 : bytes :=
  List.repeat x00 14 ++ exv_id1 ++ List.repeat x00 68 ++ [x00; x00] ++ List.repeat x00 66 ++ [x00; x00].
Definition exv_container : bytes := match encode_container [(1, exw_block1); (2, exv_block2)] with Ok b => b | _ => [] end.
Definition exv_sources : Sources := mkSources [sound_disk exv_container] [] [].
Definition exv_file (b : bytes) : Disk := sound_disk (if blen b <? 2 ^ 63 then b else []).
Definition exv_system : System := mkSystem (fun _ _ => None) (fun _ => None) None (inl (2 ^ 40)) (fun a b => inl (exv_file a, exv_file b)).
Definition exv_options : Options := mkOptions (Some 2) Restore true true.

Lemma exv_reopens : reopens exv_system.
Proof.
  assert (Hf : forall b, disk_ok (exv_file b)).
  { intros b. unfold exv_file, disk_ok, d_size, sound_disk. cbn [d_data]. destruct (Z.ltb_spec (blen b) (2 ^ 63)); [done|reflexivity]. }
  intros a b l x H. injection H as <- <-. split; apply Hf.
Qed.

Lemma recover_exact_witness :
  exists oc out log index, oc_files oc = Some (out, log, index) /\
    o_log out = exf_preamble ++ exw_block1 ++ le_bytes 8 126 ++ exv_block2 ++ le_bytes 8 318 /\
    exists kind begin i acc1 acc bodies tail,
      recovered (R := level0_reset) zlib_level0 exf_sha (fun _ => ""%string) exv_system exv_options kind begin i i i (oc_report oc) out log index acc1 acc bodies tail.
Proof.
  assert (Hs : sources_ok exv_sources) by (split; [constructor; [vm_compute; reflexivity|constructor]|constructor|constructor]).
  destruct (recover_exact level0 level0_reset zlib_level0 level0_laws level0_reset_laws exf_sha blen (fun _ => ""%string) exv_system
    exv_options (Some "blocks"%string) (sound_disk exw_log) (Some (sound_disk exw_index)) exv_sources (fun i => i) (fun i => i)
    (fun b => Z.le_refl _) exv_reopens ltac:(vm_compute; reflexivity) ltac:(vm_compute; reflexivity) Hs (fun i H => H) (fun i H => H)) as [_ H].
  destruct (run (R := level0_reset) exf_sha blen (fun _ => ""%string) exv_system exv_options (Some "blocks"%string) (sound_disk exw_log)
    (Some (sound_disk exw_index)) exv_sources (fun i => i) (fun i => i)) as [oc|e|] eqn:E; [|vm_compute in E; discriminate E|vm_compute in E; discriminate E].
  specialize (H oc eq_refl). destruct (oc_files oc) as [[[out log] index]|] eqn:Ef; [|discriminate H].
  destruct H as (_ & _ & kind & begin & i & _ & _ & acc1 & acc & bodies & tail & Hr).
  exists oc, out, log, index. split; [exact Ef|]. split; [|by exists kind, begin, i, acc1, acc, bodies, tail].
  assert (El : (fun f => o_log f.1.1) <$> oc_files oc = Some (exf_preamble ++ exw_block1 ++ le_bytes 8 126 ++ exv_block2 ++ le_bytes 8 318)).
  { vm_compute in E. injection E as <-. vm_compute. reflexivity. }
  rewrite Ef in El. injection El as El. exact El.
Defined.
