(* ===== verification/Target.v ===== *)
(** * The geometry of damage ([crates/log-repair/src/target.rs])

    A log on failing media has records that cannot be read. [scan] finds them, [extents_from_ranges] joins them
    into extents, and [analyze] groups the extents into regions of whole entries, each between two readable
    anchor entries; [target_new] accepts them when every one can be repaired. *)

From S2P Require Import Prelude.
From S2P Require Import Errors.
From S2P Require Import Cursor.
From S2P Require Import Binio.
From S2P Require Import Zlib.
From S2P Require Import Framing.
From S2P Require Import Disk.
From S2P Require Import ShipPayload.
From S2P Require Import RepairLog.

Definition MIN_RECORD : Z := 512.
Definition MAX_RECORD : Z := 16 * 1024 * 1024.
Definition MAX_REGIONS : Z := 64.
Definition SCAN_CHUNK : Z := 16 * 1024 * 1024.

(** [media_error]: EIO or ENODATA. *)
Definition media_error (e : fault) : bool :=
  match e with FIo (OsError n) => (n =? 5) || (n =? 61) | _ => false end.

Record Extent := mkExtent { x_offset : Z; x_len : Z }.

#[export] Instance Extent_eq_dec : EqDecision Extent.
Proof. solve_decision. Defined.

Definition x_end (e : Extent) : Z := add64 (x_offset e) (x_len e).

Record Region := mkRegion {
  rg_first : Z; rg_last : Z; rg_span_start : Z; rg_span_end : Z; rg_extents : list Extent
}.

#[export] Instance Region_eq_dec : EqDecision Region.
Proof. solve_decision. Defined.

Definition sub32 (a b : Z) : Z := wrap32 (a - b).

(** [Region::source_range]. *)
Definition source_range (r : Region) : Z * Z := (sub32 (rg_first r) 1, add32 (rg_last r) 1).

(** The numbers [a..=b]. *)
Definition upto (a b : Z) : list Z := seqZ a (b - a + 1).

(** ** Reading around the damage *)

Definition unreadable_iter (d : Disk) (to : Z) (pos : Z) : M fault () (ctl Z (option Z)) :=
  if pos <? to then
    let len := Z.min (to - pos) SCAN_CHUNK in
    match read d pos len with
    | Ok _ => sret (Cont (pos + len))
    | Err e => if media_error e then sret (Break (Some pos)) else sfail e
    | Panic => spanic
    end
  else sret (Break None).

Definition first_unreadable (d : Disk) (from to : Z) : res fault (option Z) := (loop_ (unreadable_iter d to) from ()).1.

(** ** Extents *)

Definition check_record_size (size : Z) : res fault () :=
  ensure ((0 <? size) && (Z.land size (size - 1) =? 0) && (MIN_RECORD <=? size) && (size <=? MAX_RECORD)) (FRecordSize size).

Definition checked_mul64 (a b : Z) : option Z := if a * b <? U64 then Some (a * b) else None.

(** The order of pairs, as [sort_unstable] uses it. *)
Definition pair_le (x y : Z * Z) : bool := (x.1 <? y.1) || ((x.1 =? y.1) && (x.2 <=? y.2)).

Fixpoint insert_sorted {A} (le : A -> A -> bool) (x : A) (l : list A) : list A :=
  match l with
  | [] => [x]
  | y :: t => if le x y then x :: l else y :: insert_sorted le x t
  end.

Definition sort_by {A} (le : A -> A -> bool) (l : list A) : list A := foldr (insert_sorted le) [] l.

(** One range joined to the extents so far, the latest of them first. *)
Definition join_range (record_size : Z) (out : list Extent) (r : Z * Z) : res fault (list Extent) :=
  let '(a, b) := r in
  do? ensure (a <=? b) (FRecordRange a b) ;;
  let? offset := or_err (checked_mul64 a record_size) FRecordOverflow in
  let? end_ := or_err (match checked_add64 b 1 with Some n => checked_mul64 n record_size | None => None end) FRecordOverflow in
  match out with
  | e :: rest =>
      if offset <=? x_end e then Ok (mkExtent (x_offset e) (Z.max (x_len e) (sub64 end_ (x_offset e))) :: rest)
      else Ok (mkExtent offset (sub64 end_ offset) :: out)
  | [] => Ok [mkExtent offset (sub64 end_ offset)]
  end.

Fixpoint join_ranges (record_size : Z) (out : list Extent) (rs : list (Z * Z)) : res fault (list Extent) :=
  match rs with
  | [] => Ok out
  | r :: rs => let? out := join_range record_size out r in join_ranges record_size out rs
  end.

Definition extents_from_ranges (record_size : Z) (ranges : list (Z * Z)) : res fault (list Extent) :=
  let? out := join_ranges record_size [] (sort_by pair_le ranges) in
  Ok (reverse out).

(** ** Regions *)
Section Regions.
Context (log : Log.t).

Definition containing_iter (offset : Z) (a : Z * Z) : M fault () (ctl (Z * Z) Z) :=
  let '(lo, hi) := a in
  if lo <? hi then
    let mid := lo + (hi - lo + 1) / 2 in
    let! p := slift (Log.pos log mid) in
    sret (Cont (if p <=? offset then (mid, hi) else (lo, mid - 1)))
  else sret (Break lo).

(** The block whose entry holds the byte at [offset]. *)
Definition containing (offset : Z) : res fault Z :=
  let? lo := (loop_ (containing_iter offset) (Log.first log, Log.last log) ()).1 in
  let? ab := Log.bounds log lo in
  do? ensure ((ab.1 <=? offset) && (offset <? ab.2)) (FNotContained offset) ;;
  Ok lo.

Fixpoint all_bounds (ns : list Z) : res fault () :=
  match ns with [] => Ok () | n :: ns => do? Log.bounds log n ;; all_bounds ns end.

(** Every byte from [cursor] on outside the extents is readable. *)
Fixpoint gaps_readable (cursor : Z) (es : list Extent) : res fault () :=
  match es with
  | [] => Ok ()
  | e :: es =>
      let? bad := first_unreadable (Log.log log) cursor (x_offset e) in
      match bad with
      | Some b => Err (FUnreadableNear b)
      | None => gaps_readable (x_end e) es
      end
  end.

(** The first extent that meets [from..to]. *)
Definition damaged (es : list Extent) (from to : Z) : option Extent :=
  List.find (fun e => (x_offset e <? to) && (from <? x_end e)) es.

(** No extent reaches the orphaned entries behind the entry of [n]. *)
Definition orphans_whole (es : list Extent) (n : Z) : res fault () :=
  let? ab := Log.bounds log n in
  let '(a, b) := ab in
  if bool_decide (is_Some (damaged es a (add64 a 48))) then Ok ()
  else
    let? h := read (Log.log log) a 48 in
    let? own := of_frame (ship_entry_size h) in
    if (own <? b - a) && bool_decide (is_Some (damaged es (add64 a own) b)) then Err (FOrphansDamaged n) else Ok ().

Fixpoint all_orphans_whole (es : list Extent) (ns : list Z) : res fault () :=
  match ns with [] => Ok () | n :: ns => do? orphans_whole es n ;; all_orphans_whole es ns end.

(** [Region::check]. *)
Definition region_check (r : Region) : res fault () :=
  do? ensure ((Log.first log <? rg_first r) && (rg_last r <? Log.last log)) FNoAnchorSide ;;
  do? ensure (sub32 (rg_last r) (rg_first r) <? MAX_BLOCKS - 2) (FRegionBlocks (sub32 (rg_last r) (rg_first r) + 1)) ;;
  do? ensure (sub64 (rg_span_end r) (rg_span_start r) <=? MAX_BYTES) (FRegionSpan (sub64 (rg_span_end r) (rg_span_start r))) ;;
  let '(before, after) := source_range r in
  do? all_bounds (upto before after) ;;
  let? l := Log.bounds log before in
  let? t := Log.bounds log after in
  do? gaps_readable l.1 (rg_extents r ++ [mkExtent t.2 0]) ;;
  if is_blocks (Log.kind log) then Ok () else all_orphans_whole (rg_extents r) (upto (rg_first r) (rg_last r)).

(** Why an extent or a region cannot be repaired. *)
Inductive problem := POverlapsHeader | PPastLast | PCheck (e : fault).

Record Finding := mkFinding { fd_extents : list Extent; fd_region : option Region; fd_problem : option problem }.

Definition aligned (record_size : Z) (e : Extent) : bool :=
  (0 <? x_len e) && (x_offset e mod record_size =? 0) && (x_len e mod record_size =? 0) &&
  bool_decide (is_Some (checked_add64 (x_offset e) (x_len e))).

Fixpoint apart (es : list Extent) : bool :=
  match es with
  | a :: (b :: _) as t => (x_end a <? x_offset b) && apart t
  | _ => true
  end.

(** One extent: a finding of its own, or part of a region; the latest region is first. *)
Definition place (header_end : Z) (e : Extent) (st : list Finding * list Region) : res fault (list Finding * list Region) :=
  let '(findings, regions) := st in
  if x_offset e <? header_end then Ok (findings ++ [mkFinding [e] None (Some POverlapsHeader)], regions)
  else if Log.size log <? x_end e then Ok (findings ++ [mkFinding [e] None (Some PPastLast)], regions)
  else
    let? first := containing (x_offset e) in
    let? last := containing (sub64 (x_end e) 1) in
    match regions with
    | r :: rest =>
        if first <=? add32 (rg_last r) 1
        then Ok (findings, mkRegion (rg_first r) (Z.max (rg_last r) last) (rg_span_start r) (rg_span_end r) (rg_extents r ++ [e]) :: rest)
        else Ok (findings, mkRegion first last 0 0 [e] :: regions)
    | [] => Ok (findings, [mkRegion first last 0 0 [e]])
    end.

Fixpoint place_all (header_end : Z) (es : list Extent) (st : list Finding * list Region) : res fault (list Finding * list Region) :=
  match es with
  | [] => Ok st
  | e :: es => let? st := place header_end e st in place_all header_end es st
  end.

Definition check_region (r : Region) : res fault Finding :=
  let? a := Log.pos log (rg_first r) in
  let? b := Log.pos log (add32 (rg_last r) 1) in
  let r := mkRegion (rg_first r) (rg_last r) a b (rg_extents r) in
  match region_check r with
  | Ok _ => Ok (mkFinding (rg_extents r) (Some r) None)
  | Err e => Ok (mkFinding (rg_extents r) (Some r) (Some (PCheck e)))
  | Panic => Panic
  end.

Fixpoint check_regions (rs : list Region) : res fault (list Finding) :=
  match rs with
  | [] => Ok []
  | r :: rs => let? f := check_region r in let? fs := check_regions rs in Ok (f :: fs)
  end.

(** [f.extents[0].offset]. *)
Definition finding_key (f : Finding) : Z := match fd_extents f with e :: _ => x_offset e | [] => 0 end.

Definition analyze (record_size : Z) (extents : list Extent) : res fault (list Finding) :=
  do? check_record_size record_size ;;
  do? ensure (negb (bool_decide (extents = []))) FNoExtents ;;
  do? ensure (forallb (aligned record_size) extents) FUnaligned ;;
  do? ensure (apart extents) FExtentOrder ;;
  let? header_end := Log.pos log (Log.first log) in
  let? st := place_all header_end extents ([], []) in
  let? checked := check_regions (reverse st.2) in
  Ok (sort_by (fun x y => finding_key x <=? finding_key y) (st.1 ++ checked)).

Record Target := mkTarget { tg_record_size : Z; tg_regions : list Region }.

#[export] Instance Target_eq_dec : EqDecision Target.
Proof. solve_decision. Defined.

(** [Target::extents], [Target::damaged_bytes]. *)
Definition extents_of (t : Target) : list Extent := flat_map rg_extents (tg_regions t).
Definition damaged_bytes (t : Target) : Z := foldr (fun e n => add64 (x_len e) n) 0 (extents_of t).

Definition target_new (record_size : Z) (extents : list Extent) : res fault Target :=
  let? findings := analyze record_size extents in
  do? ensure (forallb (fun f => bool_decide (fd_problem f = None)) findings) FUnrepairable ;;
  let regions := omap fd_region findings in
  do? ensure (blen regions <=? MAX_REGIONS) (FTooManyRegions (blen regions)) ;;
  let t := mkTarget record_size regions in
  do? ensure (damaged_bytes t <=? MAX_BYTES) FDamageLimit ;;
  Ok t.
End Regions.

(** ** Scanning *)

Definition next_multiple_of (n k : Z) : Z := (n + k - 1) / k * k.

Record Scan := mkScan { sn_from : Z; sn_to : Z; sn_bytes_read : Z; sn_failed_reads : Z }.

(** The counters of a scan. *)
Record counters := mkCounters { ct_failed : Z; ct_bytes : Z }.

Section Scanning.
Context (d : Disk) (size record_size max_failed_reads : Z).

Definition probe (offset len : Z) : M fault counters bool := fun c =>
  let len := Z.min len (sub64 size offset) in
  let c := mkCounters (ct_failed c) (add64 (ct_bytes c) len) in
  match read d offset len with
  | Ok _ => (Ok true, c)
  | Err e =>
      if media_error e then
        let c := mkCounters (add32 (ct_failed c) 1) (ct_bytes c) in
        if ct_failed c <=? max_failed_reads then (Ok false, c) else (Err FBadReads, c)
      else (Err e, c)
  | Panic => (Panic, c)
  end.

(** The records up to [stop], one at a time; [bad] is the list of unreadable ones. *)
Definition record_iter (stop : Z) (a : Z * list Z) : M fault counters (ctl (Z * list Z) (list Z)) :=
  let '(r, bad) := a in
  if r <? stop then
    let! readable := probe r record_size in
    sret (Cont (r + record_size, if readable : bool then bad else bad ++ [r]))
  else sret (Break bad).

Definition chunk_iter (chunk to : Z) (a : Z * list Z) : M fault counters (ctl (Z * list Z) (list Z)) :=
  let '(pos, bad) := a in
  if pos <? to then
    let len := Z.min chunk (to - pos) in
    let! readable := probe pos len in
    let! bad := (if readable : bool then sret bad else loop_ (record_iter (pos + len)) (pos, bad)) in
    sret (Cont (pos + len, bad))
  else sret (Break bad).

(** Damage that runs on before [from] and behind [to]. *)
Definition before_iter (from : Z) (a : Z * list Z) : M fault counters (ctl (Z * list Z) (list Z)) :=
  let '(r, bad) := a in
  if record_size <=? r then
    let! readable := probe (r - record_size) record_size in
    if readable : bool then sret (Break bad)
    else
      let r := r - record_size in
      do! sensure (from - r <=? MAX_BYTES) FContiguous ;;
      sret (Cont (r, r :: bad))
  else sret (Break bad).

Definition behind_iter (limit to : Z) (a : Z * list Z) : M fault counters (ctl (Z * list Z) (list Z)) :=
  let '(r, bad) := a in
  if r <? limit then
    let! readable := probe r record_size in
    if readable : bool then sret (Break bad)
    else
      let bad := bad ++ [r] in
      let r := r + record_size in
      do! sensure (r - to <=? MAX_BYTES) FContiguous ;;
      sret (Cont (r, bad))
  else sret (Break bad).

(** The unreadable records of the range and of the runs that leave it. *)
Definition scan_records (from to limit : Z) : M fault counters (list Z) :=
  let! bad := loop_ (chunk_iter (Z.max SCAN_CHUNK record_size) to) (from, []) in
  let! bad := (if bool_decide (head bad = Some from) then loop_ (before_iter from) (from, bad) else sret bad) in
  match list.last bad with
  | Some l => if l + record_size =? to then loop_ (behind_iter limit to) (to, bad) else sret bad
  | None => sret bad
  end.

Definition scan (start end_ : Z) : res fault (Scan * list Extent) :=
  let limit := next_multiple_of size record_size in
  let from := start - start mod record_size in
  let to := Z.min (next_multiple_of end_ record_size) limit in
  match scan_records from to limit (mkCounters 0 0) with
  | (Ok bad, c) =>
      let? extents := extents_from_ranges record_size ((fun o => (o / record_size, o / record_size)) <$> bad) in
      Ok (mkScan (Z.min (default from (head bad)) from)
                 (match list.last bad with Some l => Z.max (l + record_size) to | None => to end) (ct_bytes c) (ct_failed c), extents)
  | (Err e, _) => Err e
  | (Panic, _) => Panic
  end.
End Scanning.

(** [record_size]: explicit, else what the file system reports. *)
Definition record_size_of (block_size explicit : option Z) : res fault Z :=
  let? size := (match explicit with Some s => Ok s | None => or_err block_size (FRecordSize 0) end) in
  do? check_record_size size ;;
  Ok size.

Inductive Selection := SRecords (ranges : list (Z * Z)) | SBlock (n : Z) | SBlocks (a b : Z) | SWhole.

Record Located := mkLocated { lc_record_size : Z; lc_extents : list Extent; lc_scan : option Scan }.

Definition scan_blocks (log : Log.t) (record_size max_failed_reads from to : Z) : res fault Located :=
  do? ensure ((from <=? to) && (Log.first log <=? from) && (to <=? Log.last log)) (FBlockRange from to) ;;
  let? start := Log.pos log from in
  let? end_ := Log.pos log (add32 to 1) in
  let? r := scan (Log.log log) (Log.size log) record_size max_failed_reads start end_ in
  Ok (mkLocated record_size r.2 (Some r.1)).

Definition locate (log : Log.t) (block_size explicit : option Z) (s : Selection) (max_failed_reads : Z) : res fault Located :=
  let? record_size := record_size_of block_size explicit in
  match s with
  | SRecords ranges => let? es := extents_from_ranges record_size ranges in Ok (mkLocated record_size es None)
  | SBlock n => scan_blocks log record_size max_failed_reads n n
  | SBlocks a b => scan_blocks log record_size max_failed_reads a b
  | SWhole =>
      let? r := scan (Log.log log) (Log.size log) record_size max_failed_reads 0 (Log.size log) in
      Ok (mkLocated record_size r.2 (Some r.1))
  end.
