(* ===== verification/TargetFacts.v ===== *)
(** * What the geometry of damage establishes

    Facts on [Target.v]: joined record ranges cover exactly what was named, a block found by an offset holds it,
    the regions of a target partition the extents between readable anchors, and a scan finds every unreadable
    record of its range and no other. *)

From stdpp Require Import sorting.
From S2P Require Import Prelude.
From S2P Require Import Errors.
From S2P Require Import Cursor.
From S2P Require Import Binio.
From S2P Require Import Zlib.
From S2P Require Import Framing.
From S2P Require Import Disk.
From S2P Require Import ShipPayload.
From S2P Require Import RepairLog.
From S2P Require Import Target.

(** ** Sorting *)

Lemma insert_sorted_perm {A} le (x : A) l : insert_sorted le x l ≡ₚ x :: l.
Proof.
  induction l as [|y t IH]; cbn [insert_sorted]; [done|]. destruct (le x y); [done|]. rewrite IH. constructor.
Qed.

Lemma sort_by_perm {A} le (l : list A) : sort_by le l ≡ₚ l.
Proof. induction l as [|x l IH]; [done|]. cbn [sort_by foldr]. by rewrite insert_sorted_perm, IH. Qed.

Lemma sort_by_sorted {A} (le : A -> A -> bool) l :
  (forall x y, le x y = false -> le y x = true) -> (forall x y z, le x y = true -> le y z = true -> le x z = true) ->
  StronglySorted (fun x y => le x y = true) (sort_by le l).
Proof.
  intros Ht Htr. induction l as [|x l IH]; [constructor|]. cbn [sort_by foldr]. fold (sort_by le l).
  induction IH as [|y t Hs IH Hy]; cbn [insert_sorted]; [by repeat constructor|].
  destruct (le x y) eqn:E.
  - constructor; [by constructor|]. constructor; [done|]. eapply list.Forall_impl; [apply Hy|]. intros z Hz. by eapply Htr.
  - constructor; [done|]. rewrite insert_sorted_perm. constructor; [by apply Ht|done].
Qed.

(** A sorted list is left as it is. *)
Lemma sort_by_id {A} (le : A -> A -> bool) l : StronglySorted (fun x y => le x y = true) l -> sort_by le l = l.
Proof.
  induction 1 as [|x l Hs IH Hx]; [done|]. cbn [sort_by foldr]. fold (sort_by le l). rewrite IH.
  destruct l as [|y t]; [done|]. cbn [insert_sorted]. apply list.Forall_cons in Hx as [-> _]. done.
Qed.

Lemma pair_le_total x y : pair_le x y = false -> pair_le y x = true.
Proof. unfold pair_le. destruct x, y; simpl. intros H. case_bools; simpl in *; try lia; try done. Qed.

Lemma pair_le_trans x y z : pair_le x y = true -> pair_le y z = true -> pair_le x z = true.
Proof. unfold pair_le. destruct x, y, z; simpl. intros H1 H2. revert H1 H2. case_bools; simpl; try done; lia. Qed.

Lemma pair_le_fst x y : pair_le x y = true -> x.1 <= y.1.
Proof. unfold pair_le. intros H. revert H. case_bools; simpl; try done; lia. Qed.

(** ** Extents *)

(** The byte at [x] belongs to one of the extents. *)
Definition in_extent (x : Z) (e : Extent) : Prop := x_offset e <= x < x_offset e + x_len e.

Definition covers (es : list Extent) (x : Z) : Prop := exists e, e ∈ es /\ in_extent x e.

(** Whole records below the end of the address space. *)
Record whole (rs : Z) (e : Extent) : Prop := {
  wh_offset : 0 <= x_offset e;
  wh_len : 0 < x_len e;
  wh_start : x_offset e mod rs = 0;
  wh_stop : x_len e mod rs = 0;
  wh_end : x_offset e + x_len e < U64
}.

Lemma whole_end rs e : whole rs e -> x_end e = x_offset e + x_len e.
Proof. intros []. apply Z.mod_small. width_lia. Qed.

(** A gap separates an extent from the one behind it. *)
Definition before (e f : Extent) : Prop := x_offset e + x_len e < x_offset f.

Lemma covers_cons e es x : covers (e :: es) x <-> in_extent x e \/ covers es x.
Proof. unfold covers. set_solver. Qed.

Lemma covers_app es fs x : covers (es ++ fs) x <-> covers es x \/ covers fs x.
Proof. unfold covers. set_solver. Qed.

Lemma covers_perm es fs x : es ≡ₚ fs -> covers es x -> covers fs x.
Proof. intros Hp (e & He & Hx). exists e. by rewrite <- Hp. Qed.

Lemma apart_sorted rs es : Forall (whole rs) es -> apart es = true <-> StronglySorted before es.
Proof.
  induction es as [|a [|b es] IH]; intros Hw; [split; [constructor|done]|split; [by repeat constructor|done]|].
  apply list.Forall_cons in Hw as [Ha Hw]. specialize (IH Hw). apply list.Forall_cons in Hw as [Hb Hw].
  change (apart (a :: b :: es)) with ((x_end a <? x_offset b) && apart (b :: es)).
  rewrite (whole_end rs), andb_true_iff, Z.ltb_lt, IH by done. split.
  - intros [Hab Hs]. constructor; [done|]. constructor; [done|]. apply StronglySorted_inv in Hs as [_ Hs].
    eapply list.Forall_impl; [apply Hs|]. unfold before. intros c. pose proof (wh_len _ _ Hb). lia.
  - intros Hs. apply StronglySorted_inv in Hs as [Hs Hf]. apply list.Forall_cons in Hf as [Hf _]. done.
Qed.

Section Joining.
Context (rs : Z) (Hrs : 0 < rs).

(** The bytes of the records [a..=b]. *)
Definition in_range (x : Z) (r : Z * Z) : Prop := r.1 * rs <= x < (r.2 + 1) * rs.

Definition range_ok (r : Z * Z) : Prop := is_u64 r.1 /\ is_u64 r.2.

(** A range whose end cannot be addressed, or that is reversed. *)
Definition bad_range (r : Z * Z) : Prop := r.2 < r.1 \/ U64 <= (r.2 + 1) * rs.

Lemma range_extent_whole a b :
  0 <= a <= b -> (b + 1) * rs < U64 -> whole rs (mkExtent (a * rs) ((b + 1) * rs - a * rs)).
Proof.
  intros Hab Hu. split; simpl; [nia|nia|apply Z.mod_mul; lia| |lia].
  rewrite <- Z.mul_sub_distr_r. apply Z.mod_mul. lia.
Qed.

Lemma join_range_spec out r :
  range_ok r -> Forall (whole rs) out -> StronglySorted (flip before) out ->
  (forall e, head out = Some e -> x_offset e <= r.1 * rs) ->
  match join_range rs out r with
  | Ok out' => ~ bad_range r /\ Forall (whole rs) out' /\ StronglySorted (flip before) out' /\
      (forall e, head out' = Some e -> x_offset e <= r.1 * rs) /\
      forall x, covers out' x <-> covers out x \/ in_range x r
  | Err _ => bad_range r
  | Panic => False
  end.
Proof.
  destruct r as [a b]. unfold range_ok, bad_range, in_range; simpl. intros [Ha Hb] Hw Hs Hh.
  unfold join_range. destruct (Z.leb_spec a b); cbn [ensure rbind]; [|lia].
  unfold checked_mul64 at 1. destruct (Z.ltb_spec (a * rs) U64); cbn [or_err rbind]; [|right; nia].
  assert (He : match checked_add64 b 1 with Some n => checked_mul64 n rs | None => None end =
               if (b + 1) * rs <? U64 then Some ((b + 1) * rs) else None).
  { unfold checked_add64, checked_mul64. destruct (Z.ltb_spec (b + 1) U64); [done|].
    destruct (Z.ltb_spec ((b + 1) * rs) U64); [|done]. assert (b + 1 <= (b + 1) * rs) by (unfold is_u64 in Hb; nia). lia. }
  rewrite He. destruct (Z.ltb_spec ((b + 1) * rs) U64) as [Hu|]; cbn [or_err rbind]; [|by right].
  pose proof (range_extent_whole a b ltac:(unfold is_u64 in *; lia) Hu) as Hx.
  assert (Hsub : forall o, 0 <= o <= a * rs -> sub64 ((b + 1) * rs) o = (b + 1) * rs - o).
  { intros o Ho. apply Z.mod_small. assert (a * rs <= (b + 1) * rs) by nia. lia. }
  assert (Hnew : sub64 ((b + 1) * rs) (a * rs) = (b + 1) * rs - a * rs) by (apply Hsub; unfold is_u64 in *; nia).
  destruct out as [|e out].
  { rewrite Hnew. split; [lia|]. split; [by apply Forall_singleton|]. split; [by repeat constructor|].
    split; [intros e [= <-]; simpl; lia|]. intros x. rewrite covers_cons. unfold in_extent; simpl.
    split; [intros [?|(? & ?%not_elem_of_nil & _)]; [right; lia|done]|intros [(? & ?%not_elem_of_nil & _)|?]; [done|left; lia]]. }
  specialize (Hh e eq_refl). apply list.Forall_cons in Hw as [Hwe Hw]. rewrite (whole_end rs e) by done.
  pose proof Hwe as [He0 He1 He2 He3 He4]. apply StronglySorted_inv in Hs as [Hs Hlast].
  destruct (Z.leb_spec (a * rs) (x_offset e + x_len e)).
  - rewrite (Hsub (x_offset e)) by lia. split; [lia|].
    assert (Hwm : whole rs (mkExtent (x_offset e) (Z.max (x_len e) ((b + 1) * rs - x_offset e)))).
    { split; simpl; [done|lia|done| |lia]. destruct (Z.max_spec (x_len e) ((b + 1) * rs - x_offset e)) as [[_ ->]|[_ ->]]; [|done].
      rewrite Zminus_mod, He2, Z.mod_mul by lia. by rewrite Z.sub_0_r, Z.mod_0_l by lia. }
    split; [by constructor|]. split; [by constructor|]. split; [intros f [= <-]; done|].
    intros x. rewrite !covers_cons. unfold in_extent; simpl. split; [intros [?|?]; [|by left; right]|intros [[?|?]|?]; [|by right|]].
    + destruct (decide (x < x_offset e + x_len e)); [left; left; lia|right; lia].
    + left; lia.
    + left; lia.
  - rewrite Hnew. split; [lia|]. split; [constructor; [done|by constructor]|]. split.
    + constructor; [by constructor|]. constructor; [unfold flip, before; simpl; lia|].
      eapply list.Forall_impl; [apply Hlast|]. unfold flip, before; simpl. lia.
    + split; [intros f [= <-]; simpl; lia|]. intros x. rewrite covers_cons. unfold in_extent; simpl. split; intros [?|?]; [right; lia|by left|by right|left; lia].
Qed.

Lemma join_ranges_spec ranges out :
  Forall range_ok ranges -> Forall (whole rs) out -> StronglySorted (flip before) out ->
  StronglySorted (fun x y => pair_le x y = true) ranges ->
  (forall e r, head out = Some e -> r ∈ ranges -> x_offset e <= r.1 * rs) ->
  match join_ranges rs out ranges with
  | Ok out' => Forall (whole rs) out' /\ StronglySorted (flip before) out' /\ Forall (fun r => ~ bad_range r) ranges /\
      forall x, covers out' x <-> covers out x \/ exists r, r ∈ ranges /\ in_range x r
  | Err _ => Exists bad_range ranges
  | Panic => False
  end.
Proof.
  revert out. induction ranges as [|r ranges IH]; intros out Hr Hw Hs Ho Hh; cbn [join_ranges].
  { split; [done|]. split; [done|]. split; [done|]. set_solver. }
  apply list.Forall_cons in Hr as [Hr Hrr]. apply StronglySorted_inv in Ho as [Ho Hle].
  pose proof (join_range_spec out r Hr Hw Hs ltac:(set_solver)) as Hj.
  destruct (join_range rs out r) as [out'|e|]; cbn [rbind]; [|by left|done].
  destruct Hj as (Hb & Hw' & Hs' & Hh' & Hc). specialize (IH out' Hrr Hw' Hs' Ho).
  assert (Hnext : forall e q, head out' = Some e -> q ∈ ranges -> x_offset e <= q.1 * rs).
  { intros e q He Hq. rewrite list.Forall_forall in Hle. pose proof (pair_le_fst _ _ (Hle q Hq)).
    specialize (Hh' e He). nia. }
  specialize (IH Hnext). destruct (join_ranges rs out' ranges) as [o|e|]; [|by right|done].
  destruct IH as (? & ? & ? & IH). split; [done|]. split; [done|]. split; [by constructor|].
  intros x. rewrite IH, Hc. set_solver.
Qed.

Lemma covers_reverse es x : covers (reverse es) x <-> covers es x.
Proof. unfold covers. set_solver. Qed.

Lemma sorted_reverse es : StronglySorted (flip before) es -> StronglySorted before (reverse es).
Proof.
  induction 1 as [|e es Hs IH He]; [constructor|]. rewrite reverse_cons. apply StronglySorted_app_2; [|done|by repeat constructor].
  intros f g Hf Hg. apply list_elem_of_singleton in Hg as ->. rewrite list.Forall_forall in He. apply He. set_solver.
Qed.

Lemma extents_spec ranges :
  Forall range_ok ranges ->
  match extents_from_ranges rs ranges with
  | Ok es => Forall (whole rs) es /\ StronglySorted before es /\
      forall x, covers es x <-> exists r, r ∈ ranges /\ in_range x r
  | Err _ => Exists bad_range ranges
  | Panic => False
  end.
Proof.
  intros Hr. unfold extents_from_ranges.
  pose proof (join_ranges_spec (sort_by pair_le ranges) []) as Hj.
  rewrite sort_by_perm in Hj at 1. specialize (Hj Hr (list.Forall_nil_2 _) (SSorted_nil _)).
  specialize (Hj (sort_by_sorted _ _ pair_le_total pair_le_trans)). specialize (Hj ltac:(done)).
  destruct (join_ranges rs [] (sort_by pair_le ranges)) as [out|e|]; cbn [rbind]; [|by rewrite sort_by_perm in Hj|done].
  destruct Hj as (Hw & Hs & _ & Hc). split; [by apply Forall_reverse|]. split; [by apply sorted_reverse|].
  intros x. rewrite covers_reverse, Hc. split.
  - intros [(? & ?%not_elem_of_nil & _)|(r & Hin & Hx)]; [done|]. exists r. by rewrite sort_by_perm in Hin.
  - intros (r & Hin & Hx). right. exists r. by rewrite sort_by_perm.
Qed.
End Joining.

(** ** Finding the block of an offset *)

(** The positions of [n] and of the block after it delimit [x]. *)
Definition holds_byte (log : Log.t) (n x : Z) : Prop :=
  exists a b, pos_is log n a /\ pos_is log (n + 1) b /\ a <= x < b /\ Log.min_entry (Log.kind log) <= b - a <= MAX_BYTES.

Section Containing.
Context (log : Log.t) (Hlog : log_ok log).

Let range (a : Z * Z) : Prop := Log.first log <= a.1 <= a.2 /\ a.2 <= Log.last log.

Lemma mid_range lo hi : lo < hi -> lo < lo + (hi - lo + 1) / 2 <= hi.
Proof. intros H. pose proof (Z.div_mod (hi - lo + 1) 2 ltac:(lia)). pose proof (Z.mod_pos_bound (hi - lo + 1) 2 ltac:(lia)). lia. Qed.

Lemma pos_no_panic n : is_u32 n -> Log.pos log n <> Panic.
Proof. intros Hn H. pose proof (pos_spec log n Hlog Hn) as Hp. by rewrite H in Hp. Qed.

Lemma log_range_u32 n : Log.first log <= n <= Log.last log + 1 -> is_u32 n.
Proof. intros H. pose proof (lo_first _ Hlog). pose proof (lo_last _ Hlog). width_lia. Qed.

Lemma search_spec offset lo hi :
  range (lo, hi) ->
  match (loop_ (containing_iter log offset) (lo, hi) ()).1 with
  | Ok n => lo <= n <= hi
  | Err _ => True
  | Panic => False
  end.
Proof.
  intros Hr. apply (loop_spec (fun a _ => range a /\ lo <= a.1 /\ a.2 <= hi) (fun a _ => a.2 - a.1)
    (fun r _ => match r with Ok n => lo <= n <= hi | Err _ => True | Panic => False end)).
  - intros [l h] [] (Hlh & H1 & H2). unfold range in Hlh; simpl in *. unfold containing_iter. destruct (Z.ltb_spec l h); [|cbn; lia].
    pose proof (mid_range l h ltac:(lia)) as Hm. set (mid := l + (h - l + 1) / 2) in *.
    pose proof (pos_no_panic mid (log_range_u32 mid ltac:(lia))) as Hp. unfold sbind, slift, sret.
    destruct (Log.pos log mid) as [p|e|]; [|done|done]. unfold range. destruct (p <=? offset); simpl; lia.
  - unfold range in *; simpl in *. lia.
  - unfold range in Hr; simpl in *. pose proof (lo_first _ Hlog). pose proof (lo_last _ Hlog). width_lia.
Qed.

Lemma search_steps_range offset k a n :
  range a -> iterN k (loop_step (containing_iter log offset)) (a, ()) = Break (Ok n, ()) -> a.1 <= n <= a.2.
Proof.
  revert a. induction k as [|k IH]; intros [l h] Hr; cbn [iterN]; [done|].
  unfold loop_step at 1. cbn [fst snd]. unfold range in Hr; simpl in Hr.
  unfold containing_iter at 1. destruct (Z.ltb_spec l h); [|cbn; intros [= <-]; lia].
  pose proof (mid_range l h ltac:(lia)) as Hm. set (mid := l + (h - l + 1) / 2) in *. unfold sbind, slift, sret.
  destruct (Log.pos log mid) as [p|e|]; [|done|done]. cbn [cbind].
  destruct (p <=? offset); intros Hn; apply IH in Hn; unfold range; simpl in *; lia.
Qed.

(** The search is monotone in the offset, whatever the index holds. *)
Lemma search_steps_mono x y k a n m :
  x <= y -> range a ->
  iterN k (loop_step (containing_iter log x)) (a, ()) = Break (Ok n, ()) ->
  iterN k (loop_step (containing_iter log y)) (a, ()) = Break (Ok m, ()) -> n <= m.
Proof.
  intros Hxy. revert a. induction k as [|k IH]; intros [l h] Hr; cbn [iterN]; [done|].
  unfold loop_step at 1 3. cbn [fst snd]. unfold range in Hr; simpl in Hr.
  unfold containing_iter at 1 3. destruct (Z.ltb_spec l h); [|cbn; intros [= <-] [= <-]; lia].
  pose proof (mid_range l h ltac:(lia)) as Hm. set (mid := l + (h - l + 1) / 2) in *. unfold sbind, slift, sret.
  destruct (Log.pos log mid) as [p|e|]; [|done|done]. cbn [cbind].
  destruct (Z.leb_spec p x), (Z.leb_spec p y); [|lia| |].
  - apply IH. unfold range; simpl; lia.
  - intros Hn Hm'. apply search_steps_range in Hn, Hm'; unfold range; simpl in *; lia.
  - apply IH. unfold range; simpl; lia.
Qed.

Lemma search_mono x y a n m :
  x <= y -> range a -> (loop_ (containing_iter log x) a ()).1 = Ok n -> (loop_ (containing_iter log y) a ()).1 = Ok m -> n <= m.
Proof.
  intros Hxy Hr. unfold loop_, while_. rewrite !iterP_iterN. generalize (Pos.to_nat loop_bound). intros k.
  destruct (iterN _ (loop_step (containing_iter log x)) (a, ())) as [|[r []]] eqn:E1; [done|].
  destruct (iterN _ (loop_step (containing_iter log y)) (a, ())) as [|[q []]] eqn:E2; [done|]. simpl. intros -> ->.
  by eapply search_steps_mono.
Qed.

Lemma whole_range : range (Log.first log, Log.last log).
Proof. pose proof (lo_first _ Hlog). unfold range; simpl. lia. Qed.

Lemma containing_spec offset :
  match containing log offset with
  | Ok n => Log.first log <= n <= Log.last log /\ holds_byte log n offset
  | Err _ => True
  | Panic => False
  end.
Proof.
  unfold containing. pose proof (search_spec offset _ _ whole_range) as Hs.
  destruct (loop_ _ _ ()).1 as [n|e|]; cbn [rbind]; [|done|done].
  pose proof (bounds_spec log n Hlog Hs) as Hb. destruct (Log.bounds log n) as [[a b]|e|]; cbn [rbind]; [|done|done].
  destruct Hb as (Ha & Hb & Hlt & Hm). simpl. destruct (Z.leb_spec a offset), (Z.ltb_spec offset b); cbn [andb ensure rbind]; try done.
  split; [done|]. exists a, b. split; [done|]. split; [done|]. lia.
Qed.

Lemma containing_no_panic offset : no_panic (containing log offset).
Proof. pose proof (containing_spec offset). by destruct (containing log offset). Qed.

Lemma containing_inv x n : containing log x = Ok n -> (loop_ (containing_iter log x) (Log.first log, Log.last log) ()).1 = Ok n.
Proof.
  unfold containing. generalize (loop_ (containing_iter log x) (Log.first log, Log.last log) ()).1. intros r Hn.
  bind Hn as k Hk. bind Hn as ab Hab. guard Hn as Hg. congruence.
Qed.

Lemma containing_mono x y n m : x <= y -> containing log x = Ok n -> containing log y = Ok m -> n <= m.
Proof. intros Hxy Hn%containing_inv Hm%containing_inv. exact (search_mono x y _ n m Hxy whole_range Hn Hm). Qed.
End Containing.

(** ** Reading around the damage *)

(** Some read that holds the byte at [x] succeeds. *)
Definition can_read (d : Disk) (x : Z) : Prop := exists p len b, p <= x < p + len /\ read d p len = Ok b.

Lemma disk_read_no_panic d p len : 0 <= p -> 0 < len -> read d p len <> Panic.
Proof. intros Hp Hl H. pose proof (disk_read_spec d p len ltac:(by apply inside_pos)) as Hr. by rewrite H in Hr. Qed.

Lemma first_unreadable_spec d from to :
  0 <= from -> to < 2 ^ 64 ->
  match first_unreadable d from to with
  | Ok None => forall x, from <= x < to -> can_read d x
  | Ok (Some p) => from <= p < to /\ exists e, read d p (Z.min (to - p) SCAN_CHUNK) = Err e /\ media_error e = true
  | Err e => media_error e = false
  | Panic => False
  end.
Proof.
  intros Hf Ht. unfold first_unreadable.
  apply (loop_spec (fun pos _ => from <= pos /\ forall x, from <= x < pos -> can_read d x) (fun pos _ => Z.max 0 (to - pos))
    (fun r _ => match r with
       | Ok None => forall x, from <= x < to -> can_read d x
       | Ok (Some p) => from <= p < to /\ exists e, read d p (Z.min (to - p) SCAN_CHUNK) = Err e /\ media_error e = true
       | Err e => media_error e = false
       | Panic => False
       end)); [|split; [lia|intros; lia]|lia].
  intros pos [] [Hp Hr]. unfold unreadable_iter. destruct (Z.ltb_spec pos to); [|intros x Hx; apply Hr; lia].
  set (len := Z.min (to - pos) SCAN_CHUNK). assert (Hlen : 0 < len) by (unfold len, SCAN_CHUNK; lia).
  assert (Hle : len <= to - pos) by (unfold len; lia).
  pose proof (disk_read_no_panic d pos len ltac:(lia) Hlen) as Hnp.
  destruct (read d pos len) as [b|e|] eqn:E; [| |done].
  - cbn. split; [|lia]. split; [lia|]. intros x Hx. destruct (decide (x < pos)); [apply Hr; lia|]. exists pos, len, b. split; [lia|done].
  - destruct (media_error e) eqn:Em; cbn; [|done]. split; [lia|]. by exists e.
Qed.

(** The bytes between the extents. *)
Fixpoint gaps (cursor : Z) (es : list Extent) : list (Z * Z) :=
  match es with
  | [] => []
  | e :: es => (cursor, x_offset e) :: gaps (x_offset e + x_len e) es
  end.

Lemma gaps_cover rs cursor es stop x :
  Forall (whole rs) es -> StronglySorted before es -> cursor <= x < stop -> ~ covers es x ->
  exists g, g ∈ gaps cursor (es ++ [mkExtent stop 0]) /\ g.1 <= x < g.2.
Proof.
  intros Hw. revert cursor. induction Hw as [|e es He Hw IH]; intros cursor Hs Hx Hc; cbn [app gaps].
  - exists (cursor, stop). simpl. split; [set_solver|lia].
  - rewrite covers_cons in Hc. apply StronglySorted_inv in Hs as [Hs _]. destruct (decide (x < x_offset e)).
    + exists (cursor, x_offset e). simpl. split; [set_solver|lia].
    + destruct (IH (x_offset e + x_len e) Hs) as (g & Hg & Hgx).
      * unfold in_extent in Hc. lia.
      * tauto.
      * exists g. split; [set_solver|done].
Qed.

Lemma gaps_readable_spec log rs cursor es stop :
  0 <= cursor -> 0 <= stop < 2 ^ 63 -> Forall (whole rs) es ->
  match gaps_readable log cursor (es ++ [mkExtent stop 0]) with
  | Ok _ => forall g x, g ∈ gaps cursor (es ++ [mkExtent stop 0]) -> g.1 <= x < g.2 -> can_read (Log.log log) x
  | Err _ => True
  | Panic => False
  end.
Proof.
  intros Hc Hstop Hw. revert cursor Hc. induction Hw as [|e es He Hw IH]; intros cursor Hc; cbn [app gaps_readable gaps].
  - pose proof (first_unreadable_spec (Log.log log) cursor stop Hc ltac:(lia)) as Hf. cbn [x_offset].
    destruct (first_unreadable _ _ _) as [[p|]|e|]; cbn [rbind]; [done| |done|done].
    intros g x Hg Hx. apply list_elem_of_singleton in Hg as ->. exact (Hf x Hx).
  - pose proof (first_unreadable_spec (Log.log log) cursor (x_offset e) Hc ltac:(destruct He; width_lia)) as Hf.
    destruct (first_unreadable _ _ _) as [[p|]|f|]; cbn [rbind]; [done| |done|done].
    rewrite (whole_end rs) by done. specialize (IH (x_offset e + x_len e) ltac:(destruct He; lia)).
    destruct (gaps_readable _ _ _); [|done|done]. intros g x [->|Hg]%elem_of_cons Hx; [exact (Hf x Hx)|exact (IH g x Hg Hx)].
Qed.

Lemma damaged_none rs es from to x :
  Forall (whole rs) es -> damaged es from to = None -> from <= x < to -> ~ covers es x.
Proof.
  intros Hw Hd Hx (e & He & Hin). unfold damaged in Hd.
  pose proof (List.find_none _ _ Hd e ltac:(by apply list_elem_of_In)) as Hn. simpl in Hn.
  rewrite list.Forall_forall in Hw. rewrite (whole_end rs) in Hn by auto. unfold in_extent in Hin.
  apply andb_false_iff in Hn as [Hn|Hn]; bools; lia.
Qed.

Lemma damaged_some rs es from to e : Forall (whole rs) es -> damaged es from to = Some e -> from < to -> exists x, from <= x < to /\ covers es x.
Proof.
  intros Hw Hd Hft. apply List.find_some in Hd as [He Hb]. apply list_elem_of_In in He. rewrite list.Forall_forall in Hw.
  pose proof (Hw e He) as Hwe. rewrite (whole_end rs) in Hb by done. destruct Hwe as [H0 H1 _ _ _]. bools.
  exists (Z.max from (x_offset e)). split; [lia|]. exists e. split; [done|]. unfold in_extent. lia.
Qed.

(** ** Regions *)

(** No extent reaches the orphaned entries behind an entry whose header is whole. *)
Definition orphans_clear (log : Log.t) (r : Region) : Prop :=
  is_blocks (Log.kind log) = false -> forall n a b, rg_first r <= n <= rg_last r -> Log.bounds log n = Ok (a, b) ->
    (exists x, a <= x < a + 48 /\ covers (rg_extents r) x) \/
    exists h own, read (Log.log log) a 48 = Ok h /\ ship_entry_size h = Ok own /\
      forall x, a + own <= x < b -> ~ covers (rg_extents r) x.

(** The entries of [first..=last] with the extents inside them, between two anchors. *)
Record region_shape (log : Log.t) (rs : Z) (r : Region) : Prop := {
  rg_anchors : Log.first log < rg_first r <= rg_last r /\ rg_last r < Log.last log;
  rg_starts : pos_is log (rg_first r) (rg_span_start r);
  rg_stops : pos_is log (rg_last r + 1) (rg_span_end r);
  rg_span : 0 <= rg_span_start r < rg_span_end r /\ rg_span_end r - rg_span_start r <= MAX_BYTES;
  rg_whole : Forall (whole rs) (rg_extents r);
  rg_sorted : StronglySorted before (rg_extents r);
  rg_inside : forall e, e ∈ rg_extents r -> rg_span_start r <= x_offset e /\ x_offset e + x_len e <= rg_span_end r
}.

(** What is found of them: damage in the first and in the last, every other byte up to the ends of the anchors readable. *)
Record region_geo (log : Log.t) (rs : Z) (r : Region) : Prop := {
  rg_shape : region_shape log rs r;
  rg_entries : forall n, rg_first r - 1 <= n <= rg_last r + 1 -> exists a b, Log.bounds log n = Ok (a, b);
  rg_first_hit : exists x, covers (rg_extents r) x /\ holds_byte log (rg_first r) x;
  rg_last_hit : exists x, covers (rg_extents r) x /\ holds_byte log (rg_last r) x;
  rg_readable : forall a b x, pos_is log (rg_first r - 1) a -> pos_is log (rg_last r + 2) b -> a <= x < b ->
    ~ covers (rg_extents r) x -> can_read (Log.log log) x;
  rg_orphans : orphans_clear log r
}.

Lemma elem_of_upto n a b : n ∈ upto a b <-> a <= n <= b.
Proof. unfold upto. rewrite elem_of_seqZ. lia. Qed.

(** ** Extents in order *)
Section SortedExtents.
Context (rs : Z).

Lemma sorted_head es e f : Forall (whole rs) es -> StronglySorted before es -> head es = Some e -> f ∈ es -> x_offset e <= x_offset f.
Proof.
  intros Hw Hs Hh Hf. destruct es as [|g es]; [done|]. injection Hh as ->. apply elem_of_cons in Hf as [->|Hf]; [lia|].
  apply StronglySorted_inv in Hs as [_ Hs]. rewrite list.Forall_forall in Hs. apply Hs in Hf. unfold before in Hf.
  apply list.Forall_cons in Hw as [He _]. pose proof (wh_len _ _ He). lia.
Qed.

Lemma sorted_last es e f :
  Forall (whole rs) es -> StronglySorted before es -> list.last es = Some e -> f ∈ es -> x_offset f + x_len f <= x_offset e + x_len e.
Proof.
  intros Hw Hs Hl Hf. apply list.last_Some in Hl as [es' ->]. apply elem_of_app in Hf as [Hf|Hf%list_elem_of_singleton]; [|subst; lia].
  apply Forall_app in Hw as [_ Hw]. apply list.Forall_cons in Hw as [Hw _]. pose proof (wh_len _ _ Hw).
  assert (before f e); [|unfold before in *; lia]. eapply (StronglySorted_app_1_elem_of _ es' [e]); [done|done|set_solver].
Qed.

Lemma head_covers es e : Forall (whole rs) es -> head es = Some e -> covers es (x_offset e).
Proof.
  intros Hw He. destruct es as [|f es]; [done|]. injection He as ->. apply list.Forall_cons in Hw as [Hw _].
  exists e. split; [set_solver|]. unfold in_extent. pose proof (wh_len _ _ Hw). lia.
Qed.

Lemma last_covers es e : Forall (whole rs) es -> list.last es = Some e -> covers es (x_offset e + x_len e - 1).
Proof.
  intros Hw He. apply list.last_Some in He as [es' ->]. apply Forall_app in Hw as [_ Hw]. apply list.Forall_cons in Hw as [Hw _].
  exists e. split; [set_solver|]. unfold in_extent. pose proof (wh_len _ _ Hw). lia.
Qed.

Definition region_extents (regions : list Region) : list Extent := concat (rg_extents <$> regions).

Lemma region_extents_snoc rs' r : region_extents (rs' ++ [r]) = region_extents rs' ++ rg_extents r.
Proof. unfold region_extents. rewrite fmap_app, concat_app. simpl. by rewrite app_nil_r. Qed.

Lemma findings_sorted regions fs :
  Forall2 (fun r f => fd_extents f = rg_extents r) regions fs -> Forall (fun r => rg_extents r <> []) regions ->
  StronglySorted before (region_extents regions) -> Forall (whole rs) (region_extents regions) ->
  StronglySorted (fun f g => (finding_key f <=? finding_key g) = true) fs.
Proof.
  induction 1 as [|r f regions fs Hrf Hall IH]; intros Hn Hs Hw; [constructor|]. apply list.Forall_cons in Hn as [Hr Hn].
  unfold region_extents in Hs, Hw. cbn [fmap list_fmap concat] in Hs, Hw. apply Forall_app in Hw as [Hw Hws].
  constructor; [apply IH; [done|by eapply StronglySorted_app_1_r|done]|].
  apply list.Forall_forall. intros g Hg. apply Z.leb_le. unfold finding_key. rewrite Hrf.
  destruct (rg_extents r) as [|e es] eqn:Ee; [done|].
  apply list_elem_of_lookup in Hg as [i Hi]. destruct (Forall2_lookup_r _ _ _ _ _ Hall Hi) as (q & Hq & Hqg). rewrite Hqg.
  destruct (rg_extents q) as [|e' es'] eqn:Eq; [rewrite list.Forall_forall in Hn; by apply list_elem_of_lookup_2, Hn in Hq|].
  assert (before e e'); [|unfold before in *; apply list.Forall_cons in Hw as [He _]; pose proof (wh_len _ _ He); lia].
  eapply (StronglySorted_app_1_elem_of _ (e :: es)); [done|set_solver|]. apply list_elem_of_lookup_2 in Hq.
  apply list_elem_of_In, in_concat. exists (rg_extents q). split; [|rewrite Eq; by left]. apply list_elem_of_In, list_elem_of_fmap. by exists q.
Qed.

(** The sum of the lengths. *)
Definition total (es : list Extent) : Z := foldr (fun e n => x_len e + n) 0 es.

Lemma extents_total_nonneg es : Forall (whole rs) es -> 0 <= total es.
Proof. induction 1 as [|e es [] _ IH]; [done|]. cbn [total foldr]. fold (total es). lia. Qed.

Lemma total_bound es from to :
  Forall (whole rs) es -> StronglySorted before es -> (forall e, e ∈ es -> from <= x_offset e /\ x_offset e + x_len e <= to) ->
  es <> [] -> 0 <= total es <= to - from.
Proof.
  intros Hw. revert from. induction Hw as [|e es He Hw IH]; intros from Hs Hin Hne; [done|]. cbn [total foldr]. fold (total es).
  destruct (Hin e ltac:(set_solver)) as [H1 H2]. destruct He as [? ? ? ? ?].
  destruct es as [|f es]; [simpl; lia|]. apply StronglySorted_inv in Hs as [Hs Hbe].
  specialize (IH (x_offset e + x_len e) Hs). rewrite list.Forall_forall in Hbe. unfold before in Hbe.
  assert (0 <= total (f :: es) <= to - (x_offset e + x_len e)); [|lia]. apply IH; [|done].
  intros g Hg. specialize (Hbe g Hg). destruct (Hin g ltac:(set_solver)). lia.
Qed.

Lemma damaged_bytes_total es : Forall (whole rs) es -> total es < U64 -> foldr (fun e n => add64 (x_len e) n) 0 es = total es.
Proof.
  induction 1 as [|e es He Hw IH]; intros Ht; [done|]. cbn [total foldr] in *. fold (total es) in *. destruct He as [? ? ? ? ?].
  pose proof (extents_total_nonneg es Hw). rewrite IH by lia. apply Z.mod_small. lia.
Qed.

Definition extent_u64 (e : Extent) : Prop := is_u64 (x_offset e) /\ is_u64 (x_len e).

Lemma aligned_whole e : extent_u64 e -> aligned rs e = true -> whole rs e.
Proof.
  intros [Ho Hl] H. unfold aligned in H. bools. destruct H0 as [n Hn]. apply checked_add64_Some in Hn as [_ Hn].
  split; [apply Ho|done|done|done|lia].
Qed.

Lemma extents_of_regions t : extents_of t = region_extents (tg_regions t).
Proof. unfold extents_of, region_extents. by rewrite flat_map_concat_map. Qed.

Lemma sorted_rev_regions regions :
  StronglySorted (fun r q => rg_last q + 1 < rg_first r) regions -> StronglySorted (fun r q => rg_last r + 1 < rg_first q) (reverse regions).
Proof.
  induction 1 as [|r regions Hs IH Hr]; [constructor|]. rewrite reverse_cons. apply StronglySorted_app_2; [|done|by repeat constructor].
  intros f g Hf ->%list_elem_of_singleton. rewrite list.Forall_forall in Hr. apply Hr. set_solver.
Qed.

Lemma entry_size_total h : 48 <= blen h -> exists own, ship_entry_size h = Ok own /\ 0 <= own < U64.
Proof.
  intros Hh. destruct (u64_in_total h 40) as (v & Hv & Hu); [lia|lia|]. pose proof (entry_size_eq h v Hv) as He.
  apply of_frame_Ok in He. exists (sat_add64 56 v). split; [done|]. unfold sat_add64. width_lia.
Qed.
End SortedExtents.

Section RegionFacts.
Context (log : Log.t) (Hlog : log_ok log) (rs : Z).

Lemma entry_bounds_no_panic n : Log.first log <= n <= Log.last log -> no_panic (Log.bounds log n).
Proof. intros Hn. pose proof (bounds_spec log n Hlog Hn). by destruct (Log.bounds log n). Qed.

Lemma all_bounds_no_panic ns : Forall (fun n => Log.first log <= n <= Log.last log) ns -> no_panic (all_bounds log ns).
Proof. induction 1 as [|n ns Hn _ IH]; cbn [all_bounds]; [done|]. apply no_panic_bind; [by apply entry_bounds_no_panic|done]. Qed.

Lemma all_bounds_Ok ns u n : all_bounds log ns = Ok u -> n ∈ ns -> exists a b, Log.bounds log n = Ok (a, b).
Proof.
  induction ns as [|m ns IH]; intros H Hn; [by apply not_elem_of_nil in Hn|]. cbn [all_bounds] in H. bind H as ab Hab.
  apply elem_of_cons in Hn as [->|Hn]; [|by apply IH]. destruct ab as [a b]. by exists a, b.
Qed.

Lemma bounds_Ok n a b : Log.first log <= n <= Log.last log -> Log.bounds log n = Ok (a, b) -> pos_is log n a /\ pos_is log (n + 1) b /\ a < b.
Proof. intros Hn H. pose proof (bounds_spec log n Hlog Hn) as Hb. rewrite H in Hb. naive_solver. Qed.

Lemma orphans_whole_spec es n :
  Forall (whole rs) es -> Log.first log <= n <= Log.last log ->
  match orphans_whole log es n with
  | Ok _ => forall a b, Log.bounds log n = Ok (a, b) -> (exists x, a <= x < a + 48 /\ covers es x) \/
      exists h own, read (Log.log log) a 48 = Ok h /\ ship_entry_size h = Ok own /\ forall x, a + own <= x < b -> ~ covers es x
  | Err _ => True
  | Panic => False
  end.
Proof.
  intros Hw Hn. unfold orphans_whole. pose proof (bounds_spec log n Hlog Hn) as Hb.
  destruct (Log.bounds log n) as [[a b]|e|]; cbn [rbind]; [|done|done]. destruct Hb as (Ha & Hb & _).
  destruct (pos_is_range log n a Hlog Ha) as [Ha0 Hsz]. destruct (pos_is_range log (n + 1) b Hlog Hb) as [Hb0 _].
  replace (add64 a 48) with (a + 48) by (symmetry; apply Z.mod_small; width_lia).
  destruct (bool_decide (is_Some (damaged es a (a + 48)))) eqn:E.
  - apply bool_decide_eq_true in E as [e E]. intros ? ? [= <- <-]. left. eapply damaged_some; [done..|lia].
  - pose proof (disk_read_no_panic (Log.log log) a 48 ltac:(lia) ltac:(lia)) as Hnp.
    destruct (read (Log.log log) a 48) as [h|e|] eqn:Er; cbn [rbind]; [|done|done].
    apply read_Ok in Er as Hs; [|apply inside_pos; lia]. apply slice_blen in Hs.
    destruct (entry_size_total h ltac:(lia)) as (own & Ho & Hu). rewrite Ho. cbn [of_frame rbind].
    destruct (Z.ltb_spec own (b - a)); cbn [andb].
    + replace (add64 a own) with (a + own) by (symmetry; apply Z.mod_small; width_lia).
      destruct (bool_decide (is_Some (damaged es (a + own) b))) eqn:E2; [done|]. intros ? ? [= <- <-]. right.
      exists h, own. split; [done|]. split; [done|]. intros x Hx. apply bool_decide_eq_false in E2.
      apply eq_None_not_Some in E2. by eapply damaged_none.
    + intros ? ? [= <- <-]. right. exists h, own. split; [done|]. split; [done|]. intros x Hx. lia.
Qed.

Lemma all_orphans_spec es ns :
  Forall (whole rs) es -> Forall (fun n => Log.first log <= n <= Log.last log) ns ->
  match all_orphans_whole log es ns with
  | Ok _ => forall n a b, n ∈ ns -> Log.bounds log n = Ok (a, b) -> (exists x, a <= x < a + 48 /\ covers es x) \/
      exists h own, read (Log.log log) a 48 = Ok h /\ ship_entry_size h = Ok own /\ forall x, a + own <= x < b -> ~ covers es x
  | Err _ => True
  | Panic => False
  end.
Proof.
  intros Hw. induction 1 as [|n ns Hn _ IH]; cbn [all_orphans_whole]; [intros n a b ?%not_elem_of_nil; done|].
  pose proof (orphans_whole_spec es n Hw Hn) as Ho. destruct (orphans_whole log es n) as [u|e|]; cbn [rbind]; [|done|done].
  destruct (all_orphans_whole log es ns) as [v|e|]; [|done|done]. intros m a b [->|Hm]%elem_of_cons Hb; [by apply Ho|by eapply IH].
Qed.

(** A region as [place] makes it: its first extent starts in [first], its last one ends in [last]. *)
Record built (r : Region) : Prop := {
  bl_whole : Forall (whole rs) (rg_extents r);
  bl_sorted : StronglySorted before (rg_extents r);
  bl_first : exists e, head (rg_extents r) = Some e /\ containing log (x_offset e) = Ok (rg_first r);
  bl_last : exists e, list.last (rg_extents r) = Some e /\ containing log (x_offset e + x_len e - 1) = Ok (rg_last r)
}.

Lemma built_range r : built r -> Log.first log <= rg_first r <= rg_last r /\ rg_last r <= Log.last log.
Proof.
  intros [Hw Hs (e & He & Hc) (f & Hf & Hc')].
  pose proof (containing_spec log Hlog (x_offset e)) as H1. rewrite Hc in H1.
  pose proof (containing_spec log Hlog (x_offset f + x_len f - 1)) as H2. rewrite Hc' in H2.
  assert (f ∈ rg_extents r) as Hin by (apply list.last_Some in Hf as [? ->]; set_solver).
  pose proof (sorted_head rs _ _ _ Hw Hs He Hin). rewrite list.Forall_forall in Hw. pose proof (wh_len _ _ (Hw f Hin)).
  pose proof (containing_mono log Hlog (x_offset e) (x_offset f + x_len f - 1) (rg_first r) (rg_last r)) as Hm. specialize (Hm ltac:(lia) Hc Hc'). lia.
Qed.

(** The extents of a region lie between the positions of its entries. *)
Lemma built_inside r a b e :
  built r -> pos_is log (rg_first r) a -> pos_is log (rg_last r + 1) b -> e ∈ rg_extents r ->
  a <= x_offset e /\ x_offset e + x_len e <= b.
Proof.
  intros [Hw Hs (f & Hf & Hc) (g & Hg & Hc')] Ha Hb He.
  pose proof (containing_spec log Hlog (x_offset f)) as Hcf. rewrite Hc in Hcf. destruct Hcf as [_ (p & p' & Hp & _ & Hpf & _)].
  pose proof (containing_spec log Hlog (x_offset g + x_len g - 1)) as Hcg. rewrite Hc' in Hcg. destruct Hcg as [_ (q' & q & _ & Hq & Hqg & _)].
  destruct (pos_is_range log _ a Hlog Ha) as [_ Hsz].
  rewrite (pos_is_fun log _ a p Ha Hp), (pos_is_fun log _ b q Hb Hq) by width_lia.
  pose proof (sorted_head rs _ _ _ Hw Hs Hf He). pose proof (sorted_last rs _ _ _ Hw Hs Hg He). lia.
Qed.

Lemma built_hits r : built r ->
  (exists x, covers (rg_extents r) x /\ holds_byte log (rg_first r) x) /\ exists x, covers (rg_extents r) x /\ holds_byte log (rg_last r) x.
Proof.
  intros [Hw _ (f & Hf & Hc) (g & Hg & Hc')].
  pose proof (containing_spec log Hlog (x_offset f)) as Hcf. rewrite Hc in Hcf.
  pose proof (containing_spec log Hlog (x_offset g + x_len g - 1)) as Hcg. rewrite Hc' in Hcg.
  split; eexists; (split; [|apply Hcf || apply Hcg]); [by apply (head_covers rs)|by apply (last_covers rs)].
Qed.

Lemma region_check_spec r a b :
  built r -> pos_is log (rg_first r) a -> pos_is log (rg_last r + 1) b ->
  let r' := mkRegion (rg_first r) (rg_last r) a b (rg_extents r) in
  match region_check log r' with
  | Ok _ => region_geo log rs r'
  | Err _ => True
  | Panic => False
  end.
Proof.
  intros Hr Ha Hb r'. pose proof (built_range r Hr) as Hrange. pose proof (lo_last _ Hlog). pose proof (lo_first _ Hlog).
  pose proof (fun e => built_inside r a b e Hr Ha Hb) as Hinside. destruct (built_hits r Hr) as [Hhit Hhit'].
  destruct Hr as [Hw Hs _ _].
  destruct (pos_is_range log _ a Hlog Ha) as [Ha0 Hsz]. destruct (pos_is_range log _ b Hlog Hb) as [Hb0 _].
  unfold region_check. cbn [rg_first rg_last rg_span_start rg_span_end rg_extents r'].
  destruct ((Log.first log <? rg_first r) && (rg_last r <? Log.last log)) eqn:Eanc; cbn [ensure rbind]; [|done]. bools.
  destruct (sub32 (rg_last r) (rg_first r) <? MAX_BLOCKS - 2); cbn [ensure rbind]; [|done].
  destruct (Z.leb_spec (sub64 b a) MAX_BYTES) as [Hspan|]; cbn [ensure rbind]; [|done].
  unfold source_range. cbn [rg_first rg_last r'].
  replace (sub32 (rg_first r) 1) with (rg_first r - 1) by (symmetry; apply Z.mod_small; width_lia).
  rewrite (add32_below (rg_last r) 1) by width_lia.
  pose proof (all_bounds_no_panic (upto (rg_first r - 1) (rg_last r + 1))) as Hnp.
  specialize (Hnp ltac:(apply list.Forall_forall; intros n Hn%elem_of_upto; lia)).
  destruct (all_bounds log _) as [u|x|] eqn:Eb; cbn [rbind]; [|done|done].
  assert (Hall : forall n, rg_first r - 1 <= n <= rg_last r + 1 -> exists a b, Log.bounds log n = Ok (a, b)).
  { intros n Hn. apply (all_bounds_Ok _ u n Eb). by apply elem_of_upto. }
  destruct (Hall (rg_first r - 1) ltac:(lia)) as (la & lb & Hl). destruct (Hall (rg_last r + 1) ltac:(lia)) as (ta & tb & Ht).
  rewrite Hl, Ht. cbn [rbind fst snd].
  apply bounds_Ok in Hl as (Hla & _ & _); [|lia]. apply bounds_Ok in Ht as (_ & Htb & _); [|lia].
  replace (rg_last r + 1 + 1) with (rg_last r + 2) in Htb by lia.
  destruct (pos_is_range log _ la Hlog Hla) as [Hla0 _]. destruct (pos_is_range log _ tb Hlog Htb) as [Htb0 _].
  pose proof (gaps_readable_spec log rs la (rg_extents r) tb ltac:(lia) ltac:(lia) Hw) as Hg.
  destruct (gaps_readable log la _) as [v|x|]; cbn [rbind]; [|done|done].
  assert (Hgeo : orphans_clear log r -> region_geo log rs r').
  { intros Horph. assert (Hab : a < b).
    { destruct Hhit as (x & (e & He & Hin) & _). destruct (Hinside e He). unfold in_extent in Hin. lia. }
    split; cbn [rg_first rg_last rg_span_start rg_span_end rg_extents r']; try done.
    - split; cbn [rg_first rg_last rg_span_start rg_span_end rg_extents r']; try done; [lia|split; [lia|]].
      replace (sub64 b a) with (b - a) in Hspan by (symmetry; apply Z.mod_small; width_lia). done.
    - intros p q x Hp Hq Hx Hn. rewrite (pos_is_fun log _ p la Hp Hla), (pos_is_fun log _ q tb Hq Htb) in Hx by width_lia.
      destruct (gaps_cover rs la (rg_extents r) tb x Hw Hs Hx Hn) as (g & Hgin & Hgx). exact (Hg g x Hgin Hgx). }
  destruct (is_blocks (Log.kind log)) eqn:Hk; [apply Hgeo; intros ?; congruence|].
  pose proof (all_orphans_spec (rg_extents r) (upto (rg_first r) (rg_last r)) Hw) as Ho.
  specialize (Ho ltac:(apply list.Forall_forall; intros n Hn%elem_of_upto; lia)).
  destruct (all_orphans_whole log _ _); [|done|done]. apply Hgeo. intros _ n p q Hn Hpq. apply (Ho n p q); [by apply elem_of_upto|done].
Qed.

Lemma check_region_spec r :
  built r ->
  match check_region log r with
  | Ok f => fd_extents f = rg_extents r /\ exists r', fd_region f = Some r' /\ rg_first r' = rg_first r /\ rg_last r' = rg_last r /\
      rg_extents r' = rg_extents r /\ (fd_problem f = None -> region_geo log rs r')
  | Err _ => True
  | Panic => False
  end.
Proof.
  intros Hr. pose proof (built_range r Hr). pose proof (lo_last _ Hlog). pose proof (lo_first _ Hlog). unfold check_region.
  pose proof (pos_spec log (rg_first r) Hlog ltac:(width_lia)) as Ha.
  destruct (Log.pos log (rg_first r)) as [a|e|]; cbn [rbind]; [|done|done]. rewrite add32_below by width_lia.
  pose proof (pos_spec log (rg_last r + 1) Hlog ltac:(width_lia)) as Hb.
  destruct (Log.pos log (rg_last r + 1)) as [b|e|]; cbn [rbind]; [|done|done].
  pose proof (region_check_spec r a b Hr Ha Hb) as Hc. cbv zeta in Hc |- *.
  destruct (region_check log _) as [u|e|]; [| |done]; (split; [done|]); eexists; (split; [done|]); simpl; done.
Qed.

(** ** Placing extents *)

(** What [place] keeps: [seen] are the extents placed so far. *)
Record placed (seen : list Extent) (st : list Finding * list Region) : Prop := {
  pd_findings : Forall (fun f => fd_problem f <> None) st.1;
  pd_built : Forall built st.2;
  pd_apart : StronglySorted (fun r q => rg_last q + 1 < rg_first r) st.2;
  pd_seen : forall r e, r ∈ st.2 -> e ∈ rg_extents r -> e ∈ seen;
  pd_all : st.1 = [] -> region_extents (reverse st.2) = seen
}.

Lemma built_join r e n m :
  built r -> (forall f, f ∈ rg_extents r -> before f e) -> whole rs e ->
  containing log (x_offset e) = Ok n -> containing log (x_offset e + x_len e - 1) = Ok m ->
  rg_last r <= m /\ built (mkRegion (rg_first r) (Z.max (rg_last r) m) (rg_span_start r) (rg_span_end r) (rg_extents r ++ [e])).
Proof.
  intros [Hw Hs (f & Hf & Hc) (g & Hg & Hc')] Hb He Hn Hm.
  assert (Hin : g ∈ rg_extents r) by (apply list.last_Some in Hg as [? ->]; set_solver).
  pose proof (Hb g Hin) as Hge. pose proof (wh_len _ _ He). unfold before in Hge.
  assert (Hle : rg_last r <= m). { exact (containing_mono log Hlog (x_offset g + x_len g - 1) (x_offset e + x_len e - 1) _ _ ltac:(lia) Hc' Hm). }
  split; [done|]. rewrite Z.max_r by done. split; simpl.
  - apply Forall_app. split; [done|]. constructor; [done|constructor].
  - apply StronglySorted_app_2; [|done|by repeat constructor]. intros x y Hx ->%list_elem_of_singleton. by apply Hb.
  - exists f. split; [|done]. by destruct (rg_extents r).
  - exists e. split; [|done]. by rewrite last_snoc.
Qed.

Lemma built_one e n m :
  whole rs e -> containing log (x_offset e) = Ok n -> containing log (x_offset e + x_len e - 1) = Ok m -> built (mkRegion n m 0 0 [e]).
Proof.
  intros He Hn Hm. split; simpl; [constructor; [done|constructor]|by repeat constructor|by exists e|by exists e].
Qed.

Lemma place_spec header_end seen e st :
  placed seen st -> (forall f, f ∈ seen -> before f e) -> whole rs e ->
  match place log header_end e st with
  | Ok st' => placed (seen ++ [e]) st'
  | Err _ => True
  | Panic => False
  end.
Proof.
  destruct st as [fs regions]. intros [Hf Hb Ha Hs He] Hbe Hw. unfold place. cbn [fst snd] in *.
  assert (Hfind : forall p, placed (seen ++ [e]) (fs ++ [mkFinding [e] None (Some p)], regions)).
  { intros p. split; simpl; [apply Forall_app; split; [done|by constructor]|done|done| |by destruct fs].
    intros r f Hr Hfr. apply elem_of_app. left. by eapply Hs. }
  destruct (x_offset e <? header_end); [apply Hfind|]. destruct (Log.size log <? x_end e); [apply Hfind|].
  pose proof (containing_no_panic log Hlog (x_offset e)) as Hnp.
  destruct (containing log (x_offset e)) as [n|x|] eqn:En; cbn [rbind]; [|done|done].
  rewrite (whole_end rs) by done. pose proof Hw as [Hw0 Hw1 _ _ Hw2].
  replace (sub64 (x_offset e + x_len e) 1) with (x_offset e + x_len e - 1) by (symmetry; apply Z.mod_small; width_lia).
  pose proof (containing_no_panic log Hlog (x_offset e + x_len e - 1)) as Hnp'.
  destruct (containing log (x_offset e + x_len e - 1)) as [m|x|] eqn:Em; cbn [rbind]; [|done|done].
  pose proof (built_one e n m Hw En Em) as Hone.
  destruct regions as [|r rest].
  { split; simpl; [done|by constructor|by repeat constructor| |].
    - intros r f ->%list_elem_of_singleton Hfr. set_solver.
    - intros Hfs. rewrite <- (He Hfs). done. }
  apply list.Forall_cons in Hb as [Hbr Hb]. apply StronglySorted_inv in Ha as [Ha Hlast].
  pose proof (built_range r Hbr) as Hrr. pose proof (lo_last _ Hlog). pose proof (lo_first _ Hlog).
  rewrite (add32_below (rg_last r) 1) by width_lia. destruct (Z.leb_spec n (rg_last r + 1)).
  - destruct (built_join r e n m Hbr) as [Hle Hj]; [intros f Hfr; apply Hbe; eapply Hs; [|done]; set_solver|done..|].
    split; simpl; [done|by constructor|by constructor| |].
    + intros q f Hq Hfq. apply elem_of_cons in Hq as [->|Hq]; cbn [rg_extents] in *; [|apply elem_of_app; left; eapply Hs; [|done]; set_solver].
      apply elem_of_app in Hfq as [Hfq|Hfq]; apply elem_of_app; [left; eapply Hs; [|done]; set_solver|by right].
    + intros Hfs. rewrite <- (He Hfs), !reverse_cons, !region_extents_snoc. simpl. by rewrite app_assoc.
  - split; simpl; [done|constructor; [done|by constructor]| | |].
    + constructor; [by constructor|]. constructor; [simpl; lia|]. eapply list.Forall_impl; [apply Hlast|]. simpl. lia.
    + intros q f Hq Hfq. apply elem_of_cons in Hq as [->|Hq]; cbn [rg_extents] in *; [set_solver|]. apply elem_of_app. left. by eapply Hs.
    + intros Hfs. rewrite <- (He Hfs), reverse_cons, region_extents_snoc. done.
Qed.

Lemma place_all_spec header_end es seen st :
  placed seen st -> StronglySorted before (seen ++ es) -> Forall (whole rs) es ->
  match place_all log header_end es st with
  | Ok st' => placed (seen ++ es) st'
  | Err _ => True
  | Panic => False
  end.
Proof.
  revert seen st. induction es as [|e es IH]; intros seen st Hp Hs Hw; cbn [place_all]; [by rewrite app_nil_r|].
  apply list.Forall_cons in Hw as [He Hw].
  pose proof (place_spec header_end seen e st Hp) as Hpl.
  specialize (Hpl ltac:(intros f Hf; eapply (StronglySorted_app_1_elem_of _ seen (e :: es)); [done|done|set_solver]) He).
  destruct (place log header_end e st) as [st'|x|]; cbn [rbind]; [|done|done].
  specialize (IH (seen ++ [e]) st' Hpl). rewrite <- app_assoc in IH. by apply IH.
Qed.

Lemma check_regions_spec regions :
  Forall built regions ->
  match check_regions log regions with
  | Ok fs => Forall2 (fun r f => fd_extents f = rg_extents r /\ exists r', fd_region f = Some r' /\ rg_first r' = rg_first r /\
      rg_last r' = rg_last r /\ rg_extents r' = rg_extents r /\ (fd_problem f = None -> region_geo log rs r')) regions fs
  | Err _ => True
  | Panic => False
  end.
Proof.
  induction 1 as [|r regions Hr _ IH]; cbn [check_regions]; [constructor|].
  pose proof (check_region_spec r Hr) as Hc. destruct (check_region log r) as [f|e|]; cbn [rbind]; [|done|done].
  destruct (check_regions log regions) as [fs|e|]; cbn [rbind]; [|done|done]. by constructor.
Qed.

(** ** The target *)

Lemma findings_geo regions fs :
  Forall2 (fun r f => fd_extents f = rg_extents r /\ exists r', fd_region f = Some r' /\ rg_first r' = rg_first r /\
      rg_last r' = rg_last r /\ rg_extents r' = rg_extents r /\ (fd_problem f = None -> region_geo log rs r')) regions fs ->
  Forall (fun f => fd_problem f = None) fs ->
  Forall2 (fun r r' => rg_first r' = rg_first r /\ rg_last r' = rg_last r /\ rg_extents r' = rg_extents r /\ region_geo log rs r')
    regions (omap fd_region fs).
Proof.
  induction 1 as [|r f regions fs Hrf _ IH]; intros Hp; [constructor|]. apply list.Forall_cons in Hp as [Hp Hps].
  destruct Hrf as (_ & r' & Hr & H1 & H2 & H3 & H4). simpl. rewrite Hr. constructor; [auto|by apply IH].
Qed.

Lemma built_nonempty regions : Forall built regions -> Forall (fun r => rg_extents r <> []) regions.
Proof. intros H. eapply list.Forall_impl; [apply H|]. intros r [_ _ (e & He & _) _] E. by rewrite E in He. Qed.

(** A target: the extents in order, in regions that each have their own anchors. *)
Record target_geo (es : list Extent) (t : Target) : Prop := {
  tk_size : tg_record_size t = rs;
  tk_extents : extents_of t = es;
  tk_whole : Forall (whole rs) es;
  tk_sorted : StronglySorted before es;
  tk_regions : Forall (region_geo log rs) (tg_regions t);
  tk_apart : StronglySorted (fun r q => rg_last r + 1 < rg_first q) (tg_regions t);
  tk_count : blen (tg_regions t) <= MAX_REGIONS;
  tk_bytes : damaged_bytes t = total es /\ total es <= MAX_BYTES
}.

Lemma regions_same regions regions' :
  Forall2 (fun r r' => rg_first r' = rg_first r /\ rg_last r' = rg_last r /\ rg_extents r' = rg_extents r /\ region_geo log rs r') regions regions' ->
  region_extents regions' = region_extents regions /\ Forall (region_geo log rs) regions' /\
  (StronglySorted (fun r q => rg_last r + 1 < rg_first q) regions -> StronglySorted (fun r q => rg_last r + 1 < rg_first q) regions').
Proof.
  induction 1 as [|r r' regions regions' (H1 & H2 & H3 & H4) Hall (IH1 & IH2 & IH3)]; [done|]. split; [|split].
  - change (rg_extents r' ++ region_extents regions' = rg_extents r ++ region_extents regions). by rewrite H3, IH1.
  - by constructor.
  - intros Hs. apply StronglySorted_inv in Hs as [Hs Hf]. constructor; [by apply IH3|]. rewrite H2. apply list.Forall_forall.
    intros q Hq. apply list_elem_of_lookup in Hq as [i Hi]. destruct (Forall2_lookup_r _ _ _ _ _ Hall Hi) as (p & Hp & (-> & _)).
    rewrite list.Forall_forall in Hf. apply Hf. by eapply list_elem_of_lookup_2.
Qed.

Lemma geo_end r : region_geo log rs r -> rg_span_end r <= Log.size log.
Proof. intros Hg. destruct (pos_is_range log _ _ Hlog (rg_stops _ _ _ (rg_shape _ _ _ Hg))). lia. Qed.

Lemma regions_total es regions :
  Forall (region_geo log rs) regions -> region_extents regions = es -> Forall (whole rs) es -> StronglySorted before es -> total es < U64.
Proof.
  intros Hg He Hw Hs. destruct (decide (es = [])) as [->|Hne]; [done|].
  pose proof (lo_disk _ Hlog) as Hd. pose proof (lo_size _ Hlog) as Hsz. unfold disk_ok in Hd.
  enough (0 <= total es <= Log.size log - 0) by width_lia. apply (total_bound rs); [done|done| |done].
  intros e Hin. rewrite <- He in Hin. unfold region_extents in Hin. apply list_elem_of_In, in_concat in Hin as (l & Hl & Hel).
  apply list_elem_of_In in Hl, Hel. apply list_elem_of_fmap in Hl as (r & -> & Hr). rewrite list.Forall_forall in Hg.
  pose proof (geo_end r (Hg r Hr)). destruct (Hg r Hr) as [Hsh _ _ _ _ _]. destruct (rg_inside _ _ _ Hsh e Hel). pose proof (rg_span _ _ _ Hsh). lia.
Qed.
End RegionFacts.

Lemma target_new_spec log rs es :
  log_ok log -> Forall extent_u64 es ->
  match target_new log rs es with
  | Ok t => check_record_size rs = Ok () /\ es <> [] /\ target_geo log rs es t
  | Err _ => True
  | Panic => False
  end.
Proof.
  intros Hlog Hu. unfold target_new, analyze. destruct (check_record_size rs) as [[]|e|] eqn:Ers; cbn [rbind]; [|done|].
  2: { unfold check_record_size in Ers. by destruct (_ && _). }
  assert (Hrs : 0 < rs). { unfold check_record_size in Ers. apply ensure_Ok in Ers. bools. done. }
  destruct (bool_decide (es = [])) eqn:Ene; cbn [negb ensure rbind]; [done|]. apply bool_decide_eq_false in Ene.
  destruct (forallb (aligned rs) es) eqn:Eal; cbn [ensure rbind]; [|done].
  assert (Hw : Forall (whole rs) es).
  { rewrite forallb_forall in Eal. apply list.Forall_forall. intros e He. rewrite list.Forall_forall in Hu.
    apply aligned_whole; [by apply Hu|]. apply Eal. by apply list_elem_of_In. }
  destruct (apart es) eqn:Eap; cbn [ensure rbind]; [|done]. apply (apart_sorted rs) in Eap; [|done].
  pose proof (lo_first _ Hlog). pose proof (lo_last _ Hlog).
  pose proof (pos_no_panic log Hlog (Log.first log) ltac:(width_lia)) as Hnp.
  destruct (Log.pos log (Log.first log)) as [header_end|e|]; cbn [rbind]; [|done|done].
  pose proof (place_all_spec log Hlog rs header_end es [] ([], [])) as Hp.
  specialize (Hp ltac:(split; simpl; by (constructor || set_solver)) Eap Hw). cbn [app] in Hp.
  destruct (place_all log header_end es ([], [])) as [[fs regions]|e|]; cbn [rbind fst snd]; [|done|done].
  destruct Hp as [Hf Hb Ha Hs Hall]; cbn [fst snd] in *.
  pose proof (check_regions_spec log Hlog rs (reverse regions)) as Hc. rewrite Forall_reverse in Hc. specialize (Hc Hb).
  destruct (check_regions log (reverse regions)) as [checked|e|]; cbn [rbind]; [|done|done].
  destruct (forallb (fun f => bool_decide (fd_problem f = None)) _) eqn:Epr; cbn [ensure rbind]; [|done].
  assert (Hnone : Forall (fun f => fd_problem f = None) (fs ++ checked)).
  { rewrite forallb_forall in Epr. apply list.Forall_forall. intros f Hin. rewrite <- (sort_by_perm (fun x y => finding_key x <=? finding_key y)) in Hin.
    apply list_elem_of_In, Epr in Hin. by bools. }
  apply Forall_app in Hnone as [Hfn Hcn].
  assert (fs = []) as -> by (destruct fs; [done|]; apply list.Forall_cons in Hf as [? _], Hfn as [? _]; done).
  specialize (Hall eq_refl). cbn [app].
  rewrite sort_by_id.
  2: { apply (findings_sorted rs (reverse regions)); [eapply list.Forall2_impl; [apply Hc|]; naive_solver| |by rewrite Hall|by rewrite Hall].
       apply Forall_reverse. by eapply built_nonempty. }
  destruct (regions_same log rs _ _ (findings_geo log rs _ _ Hc Hcn)) as (Hext & Hgeo & Hapart).
  specialize (Hapart (sorted_rev_regions _ Ha)). set (rgs := omap fd_region checked) in *.
  pose proof (extents_of_regions (mkTarget rs rgs)) as Heo. cbn [tg_regions] in Heo. rewrite Hext, Hall in Heo.
  destruct (Z.leb_spec (blen rgs) MAX_REGIONS); cbn [ensure rbind]; [|done].
  destruct (Z.leb_spec (damaged_bytes (mkTarget rs rgs)) MAX_BYTES) as [Hmax|]; cbn [ensure rbind]; [|done].
  pose proof (regions_total log Hlog rs es rgs Hgeo ltac:(by rewrite Hext) Hw Eap) as Htot.
  split; [done|]. split; [done|]. split; try done.
  unfold damaged_bytes in *. rewrite Heo in *. rewrite (damaged_bytes_total rs) in * by done. done.
Qed.

(** ** Properties *)

(** [extents_from_ranges] joins record ranges, given in any order, into extents of whole records, sorted and each
    separated from the next, that cover exactly the bytes of the records named; it fails only for a range that is
    reversed or whose end cannot be addressed. *)
Lemma extents_exact (rs : Z) (ranges : list (Z * Z)) (Hrs : 0 < rs) (Hranges : Forall range_ok ranges) :
  match extents_from_ranges rs ranges with
  | Ok es => Forall (whole rs) es /\ StronglySorted before es /\ forall x, covers es x <-> exists r, r ∈ ranges /\ in_range rs x r
  | Err _ => Exists (bad_range rs) ranges
  | Panic => False
  end.
Proof. by apply extents_spec. Qed.

Lemma extents_exact_witness :
  extents_from_ranges 512 [(7, 8); (3, 3); (4, 5); (1, 1); (5, 5)] = Ok [mkExtent 512 512; mkExtent 1536 1536; mkExtent 3584 1024] /\
  covers [mkExtent 512 512; mkExtent 1536 1536; mkExtent 3584 1024] 2600.
Proof.
  pose proof (extents_exact 512 [(7, 8); (3, 3); (4, 5); (1, 1); (5, 5)] ltac:(reflexivity)) as H.
  specialize (H ltac:(repeat constructor; vm_compute; congruence)).
  assert (E : extents_from_ranges 512 [(7, 8); (3, 3); (4, 5); (1, 1); (5, 5)] = Ok [mkExtent 512 512; mkExtent 1536 1536; mkExtent 3584 1024]) by (vm_compute; reflexivity).
  rewrite E in H. destruct H as (_ & _ & H). split; [exact E|]. apply H. exists (4, 5). split; [right; right; left|vm_compute; split; congruence].
Defined.

(** Example: a block log of blocks 1, 2 and 3 whose second record of 512 bytes, inside block 2, cannot be read. *)
Definition exa_id (b : bytes) : bytes := match block_header exf_sha b with Ok h => hd_id h | _ => [] end.
Definition exa_block1 : bytes := exl_header 1 (List.repeat x00 32).
Definition exa_block2 : bytes := exl_header 2 (exa_id exa_block1) ++ List.repeat xab 1000.
Definition exa_block3 : bytes := exl_header 3 (exa_id exa_block2).
Definition exa_log : bytes :=
  exf_preamble ++ exa_block1 ++ le_bytes 8 126 ++ exa_block2 ++ le_bytes 8 250 ++ exa_block3 ++ le_bytes 8 1374.
Definition exa_index : Disk := sound_disk (le_bytes 8 126 ++ le_bytes 8 250 ++ le_bytes 8 1374).
Definition exa_fails (off len : Z) : list sys := if (off <? 1024) && (512 <? off + len) then [Failed 5] else [].
Definition exa_torn : bytes := put exa_log 512 (List.repeat x00 512).
Definition exa_opened : Log.t :=
  match Log.from_disks Blocks (mkDisk exa_torn exa_fails) exa_index with Ok l => l | _ => Log.mk exa_index exa_index Blocks 0 0 0 end.
Definition exa_region : Region := mkRegion 2 2 250 1374 [mkExtent 512 512].
Definition exa_target : Target := mkTarget 512 [exa_region].
Lemma exa_opens : Log.from_disks Blocks (mkDisk exa_torn exa_fails) exa_index = Ok exa_opened.
Proof. vm_compute. reflexivity. Qed.

(** C29: [Target::new] of an open log never panics, and accepts extents only as a target that can be repaired: of whole
    records, in the order given, each in exactly one region. A region is the entries from the one its first damage
    starts in to the one its last damage ends in, inside one span of bounded size; it has an undamaged entry on both
    sides that no other region touches; everything from the start of the one to the end of the other can be read
    outside the extents; and in a SHIP log no extent reaches the orphaned entries behind an entry whose header is whole. *)
Theorem target_exact (k : Kind) (disk index : Disk) (log : Log.t) (rs : Z) (es : list Extent)
    (Hdisk : disk_ok disk) (Hopen : Log.from_disks k disk index = Ok log) (Hes : Forall extent_u64 es) :
  is_panic (target_new log rs es) = false /\
  forall t, target_new log rs es = Ok t -> check_record_size rs = Ok () /\ es <> [] /\ target_geo log rs es t.
Proof.
  destruct (from_disks_ok _ _ _ _ Hdisk Hopen) as (Hlog & _). pose proof (target_new_spec log rs es Hlog Hes) as H.
  split; [by destruct (target_new log rs es)|]. intros t Ht. by rewrite Ht in H.
Qed.

Lemma target_exact_witness :
  target_new exa_opened 512 [mkExtent 512 512] = Ok exa_target /\ target_geo exa_opened 512 [mkExtent 512 512] exa_target.
Proof.
  assert (E : target_new exa_opened 512 [mkExtent 512 512] = Ok exa_target) by (vm_compute; reflexivity). split; [exact E|].
  pose proof (target_exact Blocks (mkDisk exa_torn exa_fails) exa_index exa_opened 512 [mkExtent 512 512] ltac:(vm_compute; reflexivity) exa_opens) as H.
  specialize (H ltac:(constructor; [split; vm_compute; split; congruence|constructor])). destruct H as [_ H]. exact (proj2 (proj2 (H exa_target E))).
Defined.
