(* ===== verification/DamageScan.v ===== *)
(** * Scanning for damage ([scan] of [crates/log-repair/src/target.rs])

    On a file whose unreadable records stay so, a scan finds exactly the unreadable records that touch its range,
    with the whole runs of unreadable records they belong to. *)

From stdpp Require Import sorting.
From S2P Require Import Prelude.
From S2P Require Import Errors.
From S2P Require Import Cursor.
From S2P Require Import Binio.
From S2P Require Import Zlib.
From S2P Require Import Framing.
From S2P Require Import Disk.
From S2P Require Import ShipPayload.
From S2P Require Import RepairLog.
From S2P Require Import Target.
From S2P Require Import TargetFacts.

(** A bad record meets the bytes [from..to]. *)
Definition bad_in (rs : Z) (bad : Z -> bool) (from to : Z) : Prop := exists k, bad k = true /\ k * rs < to /\ from < (k + 1) * rs.

(** A read fails with a media error exactly if it meets a bad record. *)
Definition media_disk (d : Disk) (rs : Z) (bad : Z -> bool) : Prop :=
  forall off len, 0 <= off -> 0 < len <= MAX_BYTES -> off + len <= d_size d ->
    (bad_in rs bad off (off + len) /\ exists e, read d off len = Err e /\ media_error e = true) \/
    (~ bad_in rs bad off (off + len) /\ exists b, read d off len = Ok b).

(** ** Record sizes *)

Lemma power_of_two n : 0 < n -> Z.land n (n - 1) = 0 -> n = 2 ^ Z.log2 n.
Proof.
  intros Hn Hl. destruct (Z.log2_spec n Hn) as [H1 H2]. destruct (decide (n = 2 ^ Z.log2 n)) as [E|E]; [done|exfalso].
  assert (Hlog : Z.log2 (n - 1) = Z.log2 n) by (apply Z.log2_unique; [apply Z.log2_nonneg|lia]).
  assert (0 < 2 ^ Z.log2 n) by (apply Z.pow_pos_nonneg; [lia|apply Z.log2_nonneg]).
  assert (Hb : Z.testbit (Z.land n (n - 1)) (Z.log2 n) = true).
  { rewrite Z.land_spec, Z.bit_log2 by done. rewrite <- Hlog. apply Z.bit_log2. lia. }
  by rewrite Hl, Z.bits_0 in Hb.
Qed.

(** A scan reads whole records at a time. *)
Lemma chunk_records rs : check_record_size rs = Ok () -> 0 < rs <= 2 ^ 24 /\ exists c, 0 < c /\ Z.max SCAN_CHUNK rs = c * rs /\ c * rs <= MAX_BYTES.
Proof.
  intros H. unfold check_record_size in H. apply ensure_Ok in H. bools. unfold MIN_RECORD, MAX_RECORD in *.
  change (16 * 1024 * 1024) with (2 ^ 24) in *. split; [lia|].
  pose proof (power_of_two rs ltac:(lia) ltac:(done)) as Hp. pose proof (Z.log2_nonneg rs) as Hn.
  assert (Hl : Z.log2 rs <= 24) by (rewrite <- (Z.log2_pow2 24) by lia; apply Z.log2_le_mono; lia).
  exists (2 ^ (24 - Z.log2 rs)). split; [apply Z.pow_pos_nonneg; lia|].
  assert (Hm : 2 ^ (24 - Z.log2 rs) * rs = 2 ^ 24).
  { rewrite Hp at 2. rewrite <- Z.pow_add_r by lia. f_equal. lia. }
  rewrite Hm. unfold SCAN_CHUNK, MAX_BYTES. change (16 * 1024 * 1024) with (2 ^ 24). split; [|done]. apply Z.max_l. lia.
Qed.

Lemma next_multiple n rs : 0 < rs -> exists k, next_multiple_of n rs = k * rs /\ forall j, j < k <-> j * rs < n.
Proof.
  intros Hrs. unfold next_multiple_of. exists ((n + rs - 1) / rs). split; [done|]. intros j.
  pose proof (Z.div_mod (n + rs - 1) rs ltac:(lia)). pose proof (Z.mod_pos_bound (n + rs - 1) rs Hrs). split; intros; nia.
Qed.

Section Scans.
Context (d : Disk) (size rs max_failed : Z) (bad : Z -> bool).
Hypothesis Hsize : size = d_size d.
Hypothesis Hdisk : disk_ok d.
Hypothesis Hcheck : check_record_size rs = Ok ().
Hypothesis Hmedia : media_disk d rs bad.

Let Hrs : 0 < rs.
Proof. by destruct (chunk_records rs Hcheck) as [[? _] _]. Qed.

Let Hpos : 0 <= size.
Proof. rewrite Hsize. apply blen_nonneg. Qed.

(** The errors that stop a scan. *)
Definition scan_stops (e : fault) : Prop := e = FBadReads \/ e = FContiguous.

Lemma probe_spec off len c :
  0 <= off < size -> 0 < len <= MAX_BYTES ->
  match probe d size max_failed off len c with
  | (Ok readable, _) => if readable : bool then ~ bad_in rs bad off (off + Z.min len (size - off)) else bad_in rs bad off (off + Z.min len (size - off))
  | (Err e, _) => scan_stops e
  | (Panic, _) => False
  end.
Proof.
  intros Ho Hl. unfold disk_ok in Hdisk. unfold probe. replace (sub64 size off) with (size - off) by (symmetry; apply Z.mod_small; width_lia).
  destruct (Hmedia off (Z.min len (size - off))) as [(Hb & e & Hr & He)|(Hb & b & Hr)]; [lia|lia|lia| |]; rewrite Hr; [|done].
  rewrite He. cbn [ct_failed]. destruct (_ <=? max_failed); [done|by left].
Qed.

(** One record. *)
Lemma bad_record k : 0 <= k -> k * rs < size -> bad_in rs bad (k * rs) (k * rs + Z.min rs (size - k * rs)) <-> bad k = true.
Proof.
  intros Hk Hs. split.
  - intros (j & Hj & H1 & H2). assert (j = k) as <- by nia. done.
  - intros Hb. exists k. split; [done|]. lia.
Qed.

Lemma probe_record k c :
  0 <= k -> k * rs < size ->
  match probe d size max_failed (k * rs) rs c with
  | (Ok readable, _) => bad k = negb readable
  | (Err e, _) => scan_stops e
  | (Panic, _) => False
  end.
Proof.
  intros Hk Hs. destruct (chunk_records rs Hcheck) as [Hr _]. pose proof (probe_spec (k * rs) rs c ltac:(nia)) as Hp.
  specialize (Hp ltac:(unfold MAX_BYTES; lia)). destruct (probe d size max_failed (k * rs) rs c) as [[readable|e|] c']; [|done|done].
  pose proof (bad_record k Hk Hs). destruct readable; destruct (bad k); naive_solver.
Qed.

(** The bad records among [n] from [a] on, and their offsets. *)
Definition recs (a n : Z) : list Z := List.filter bad (seqZ a n).
Definition offs (ks : list Z) : list Z := (fun k => k * rs) <$> ks.

Lemma recs_snoc a n : 0 <= n -> recs a (n + 1) = recs a n ++ (if bad (a + n) then [a + n] else []).
Proof.
  intros Hn. unfold recs. rewrite seqZ_app by lia. by rewrite filter_app.
Qed.

Lemma recs_app a n m : 0 <= n -> 0 <= m -> recs a (n + m) = recs a n ++ recs (a + n) m.
Proof. intros Hn Hm. unfold recs. rewrite seqZ_app by lia. apply filter_app. Qed.

Lemma elem_of_recs k a n : k ∈ recs a n <-> bad k = true /\ a <= k < a + n.
Proof. unfold recs. rewrite <- elem_of_seqZ. rewrite list_elem_of_In, filter_In, <- list_elem_of_In. tauto. Qed.

Lemma offs_app ks ls : offs (ks ++ ls) = offs ks ++ offs ls.
Proof. apply fmap_app. Qed.

Lemma record_loop pre a stop c :
  0 <= a <= stop -> (forall k, k < stop -> k * rs < size) ->
  match (loop_ (record_iter d size rs max_failed (stop * rs)) (a * rs, pre) c).1 with
  | Ok l => l = pre ++ offs (recs a (stop - a))
  | Err e => scan_stops e
  | Panic => False
  end.
Proof.
  intros Ha Hs. unfold disk_ok in Hdisk.
  apply (loop_spec (fun x _ => exists k, a <= k <= stop /\ x = (k * rs, pre ++ offs (recs a (k - a)))) (fun x _ => stop * rs - x.1)
    (fun r _ => match r with Ok l => l = pre ++ offs (recs a (stop - a)) | Err e => scan_stops e | Panic => False end)).
  - intros x s (k & Hk & ->). unfold record_iter. destruct (Z.ltb_spec (k * rs) (stop * rs)) as [Hlt|Hge].
    + assert (k < stop) by nia. pose proof (probe_record k s ltac:(lia) (Hs k ltac:(lia))) as Hp. unfold sbind.
      destruct (probe d size max_failed (k * rs) rs s) as [[readable|e|] s']; [|done|done]. unfold sret. cbn [fst]. split; [|nia].
      exists (k + 1). split; [lia|]. f_equal; [lia|]. replace (k + 1 - a) with (k - a + 1) by lia. rewrite recs_snoc by lia.
      replace (a + (k - a)) with k by lia. rewrite Hp. destruct readable; cbn [negb]; [by rewrite app_nil_r|]. by rewrite offs_app, app_assoc.
    + assert (k = stop) as -> by nia. done.
  - exists a. split; [lia|]. rewrite Z.sub_diag. unfold recs. rewrite seqZ_nil by lia. simpl. by rewrite app_nil_r.
  - cbn [fst]. assert (stop * rs <= size + rs). { destruct (decide (stop = 0)) as [->|]; [lia|]. specialize (Hs (stop - 1) ltac:(lia)). nia. }
    destruct (chunk_records rs Hcheck) as [Hr _]. nia.
Qed.

Lemma chunk_loop a b c :
  0 <= a <= b -> (forall k, k < b -> k * rs < size) ->
  match (loop_ (chunk_iter d size rs max_failed (Z.max SCAN_CHUNK rs) (b * rs)) (a * rs, []) c).1 with
  | Ok l => l = offs (recs a (b - a))
  | Err e => scan_stops e
  | Panic => False
  end.
Proof.
  intros Ha Hs. destruct (chunk_records rs Hcheck) as [Hr (cr & Hcr & Hchunk & Hmax)]. rewrite Hchunk. unfold disk_ok in Hdisk.
  apply (loop_spec (fun x _ => exists k, a <= k <= b /\ x = (k * rs, offs (recs a (k - a)))) (fun x _ => b * rs - x.1)
    (fun r _ => match r with Ok l => l = offs (recs a (b - a)) | Err e => scan_stops e | Panic => False end)).
  - intros x s (k & Hk & ->). unfold chunk_iter. destruct (Z.ltb_spec (k * rs) (b * rs)) as [Hlt|Hge].
    2: { assert (k = b) as -> by nia. done. }
    assert (Hkb : k < b) by nia. set (n := Z.min cr (b - k)). assert (Hn : 0 < n) by (unfold n; lia). assert (Hnb : k + n <= b) by (unfold n; lia).
    replace (Z.min (cr * rs) (b * rs - k * rs)) with (n * rs) by (unfold n; rewrite <- Z.mul_sub_distr_r, Z.mul_min_distr_nonneg_r by lia; done).
    pose proof (Hs k ltac:(lia)) as Hk0. pose proof (probe_spec (k * rs) (n * rs) s ltac:(nia)) as Hp. specialize (Hp ltac:(unfold n; nia)).
    unfold sbind at 1. destruct (probe d size max_failed (k * rs) (n * rs) s) as [[readable|e|] s1]; [|done|done].
    assert (Hnext : forall l, l = offs (recs a (k - a)) ++ offs (recs k n) ->
      (exists k', a <= k' <= b /\ (k * rs + n * rs, l) = (k' * rs, offs (recs a (k' - a)))) /\ 0 <= b * rs - (k * rs + n * rs) < b * rs - k * rs).
    { intros l ->. split; [|nia]. exists (k + n). split; [lia|]. f_equal; [lia|]. rewrite <- offs_app. f_equal.
      replace (k + n - a) with (k - a + n) by lia. rewrite recs_app by lia. do 2 f_equal. lia. }
    destruct readable.
    + unfold sbind, sret. cbn [fst]. apply Hnext. replace (recs k n) with (@nil Z); [simpl; by rewrite app_nil_r|]. symmetry.
      destruct (recs k n) as [|j js] eqn:E; [done|]. assert (Hj : j ∈ recs k n) by (rewrite E; left). apply elem_of_recs in Hj as [Hj Hjr].
      destruct Hp. exists j. split; [done|]. pose proof (Hs j ltac:(lia)). split; [|nia]. destruct (Z.min_spec (n * rs) (size - k * rs)) as [[_ ->]|[_ ->]]; nia.
    + replace (k * rs + n * rs) with ((k + n) * rs) in * by lia. unfold sbind.
      pose proof (record_loop (offs (recs a (k - a))) k (k + n) s1 ltac:(lia) ltac:(intros; apply Hs; lia)) as Hrec.
      destruct (loop_ (record_iter d size rs max_failed ((k + n) * rs)) (k * rs, offs (recs a (k - a))) s1) as [[l|e|] s2]; cbn [fst] in Hrec; [|done|done].
      unfold sret. cbn [fst]. apply Hnext. rewrite Hrec. by replace (k + n - k) with n by lia.
  - exists a. split; [lia|]. rewrite Z.sub_diag. unfold recs. by rewrite seqZ_nil by lia.
  - cbn [fst]. assert (b * rs <= size + rs). { destruct (decide (b = 0)) as [->|]; [lia|]. specialize (Hs (b - 1) ltac:(lia)). nia. } nia.
Qed.
Lemma before_loop a l c :
  0 <= a -> (forall k, k < a -> k * rs < size) ->
  match (loop_ (before_iter d size rs max_failed (a * rs)) (a * rs, l) c).1 with
  | Ok l' => exists r, 0 <= r <= a /\ (forall k, r <= k < a -> bad k = true) /\ (r = 0 \/ bad (r - 1) = false) /\ l' = offs (seqZ r (a - r)) ++ l
  | Err e => scan_stops e
  | Panic => False
  end.
Proof.
  intros Ha Hs. unfold disk_ok in Hdisk.
  apply (loop_spec (fun x _ => exists r, 0 <= r <= a /\ (forall k, r <= k < a -> bad k = true) /\ x = (r * rs, offs (seqZ r (a - r)) ++ l)) (fun x _ => x.1)
    (fun x _ => match x with Ok l' => exists r, 0 <= r <= a /\ (forall k, r <= k < a -> bad k = true) /\ (r = 0 \/ bad (r - 1) = false) /\
       l' = offs (seqZ r (a - r)) ++ l | Err e => scan_stops e | Panic => False end)).
  - intros x s (r & Hr & Hb & ->). unfold before_iter. destruct (Z.leb_spec rs (r * rs)) as [Hle|Hlt].
    2: { exists r. split; [done|]. split; [done|]. split; [left; nia|done]. }
    assert (0 < r) by nia. replace (r * rs - rs) with ((r - 1) * rs) by lia.
    pose proof (probe_record (r - 1) s ltac:(lia) (Hs (r - 1) ltac:(lia))) as Hp. unfold sbind.
    destruct (probe d size max_failed ((r - 1) * rs) rs s) as [[readable|e|] s']; [|done|done]. destruct readable; cbn [negb] in Hp.
    + exists r. split; [done|]. split; [done|]. split; [by right|done].
    + unfold sensure, sret, sfail. destruct (_ <=? MAX_BYTES); [|by right]. cbn [fst]. split; [|nia]. exists (r - 1). split; [lia|]. split.
      * intros k Hk. destruct (decide (k = r - 1)) as [->|]; [done|]. apply Hb. lia.
      * f_equal. replace (a - (r - 1)) with (a - r + 1) by lia. rewrite (seqZ_cons (r - 1)) by lia. cbn [offs fmap list_fmap].
        unfold Z.succ, Z.pred. replace (r - 1 + 1) with r by lia. replace (a - r + 1 + -1) with (a - r) by lia. done.
  - exists a. split; [lia|]. split; [intros; lia|]. by rewrite Z.sub_diag.
  - cbn [fst]. assert (a * rs <= size + rs). { destruct (decide (a = 0)) as [->|]; [lia|]. specialize (Hs (a - 1) ltac:(lia)). nia. }
    destruct (chunk_records rs Hcheck) as [Hr _]. nia.
Qed.

Lemma seqZ_snoc b n : 0 <= n -> seqZ b (n + 1) = seqZ b n ++ [b + n].
Proof. intros Hn. rewrite seqZ_app by lia. done. Qed.

Lemma behind_loop b n l c :
  0 <= b <= n -> (forall k, k < n -> k * rs < size) ->
  match (loop_ (behind_iter d size rs max_failed (n * rs) (b * rs)) (b * rs, l) c).1 with
  | Ok l' => exists r, b <= r <= n /\ (forall k, b <= k < r -> bad k = true) /\ (r = n \/ bad r = false) /\ l' = l ++ offs (seqZ b (r - b))
  | Err e => scan_stops e
  | Panic => False
  end.
Proof.
  intros Hb0 Hs. unfold disk_ok in Hdisk.
  apply (loop_spec (fun x _ => exists r, b <= r <= n /\ (forall k, b <= k < r -> bad k = true) /\ x = (r * rs, l ++ offs (seqZ b (r - b)))) (fun x _ => n * rs - x.1)
    (fun x _ => match x with Ok l' => exists r, b <= r <= n /\ (forall k, b <= k < r -> bad k = true) /\ (r = n \/ bad r = false) /\
       l' = l ++ offs (seqZ b (r - b)) | Err e => scan_stops e | Panic => False end)).
  - intros x s (r & Hr & Hb & ->). unfold behind_iter. destruct (Z.ltb_spec (r * rs) (n * rs)) as [Hlt|Hge].
    2: { exists r. split; [done|]. split; [done|]. split; [left; nia|done]. }
    assert (r < n) by nia. pose proof (probe_record r s ltac:(lia) (Hs r ltac:(lia))) as Hp. unfold sbind.
    destruct (probe d size max_failed (r * rs) rs s) as [[readable|e|] s']; [|done|done]. destruct readable; cbn [negb] in Hp.
    + exists r. split; [done|]. split; [done|]. split; [by right|done].
    + unfold sensure, sret, sfail. destruct (_ <=? MAX_BYTES); [|by right]. cbn [fst]. split; [|nia]. exists (r + 1). split; [lia|]. split.
      * intros k Hk. destruct (decide (k = r)) as [->|]; [done|]. apply Hb. lia.
      * f_equal; [lia|]. replace (r + 1 - b) with (r - b + 1) by lia. rewrite seqZ_snoc, offs_app, app_assoc by lia. replace (b + (r - b)) with r by lia. done.
  - exists b. split; [lia|]. split; [intros; lia|]. rewrite Z.sub_diag. simpl. by rewrite app_nil_r.
  - cbn [fst]. assert (n * rs <= size + rs). { destruct (decide (n = 0)) as [->|]; [lia|]. specialize (Hs (n - 1) ltac:(lia)). nia. }
    destruct (chunk_records rs Hcheck) as [Hr _]. nia.
Qed.

(** A run of bad records joins [k] to a record of [a..b]. *)
Definition reached (a b k : Z) : Prop := exists j, a <= j < b /\ forall i, Z.min k j <= i <= Z.max k j -> bad i = true.

Lemma head_recs a n : 0 < n -> head (offs (recs a n)) = Some (a * rs) <-> bad a = true.
Proof.
  intros Hn. replace n with (1 + (n - 1)) by lia. rewrite recs_app by lia. replace (recs a 1) with (if bad a then [a] else []) by (unfold recs; rewrite seqZ_cons by lia; done).
  destruct (bad a) eqn:E; [done|]. cbn [app]. split; [|done]. intros Hh. destruct (recs (a + 1) (n - 1)) as [|k ks] eqn:Ek; [done|]. injection Hh as Hk.
  assert (k ∈ recs (a + 1) (n - 1)) as Hin by (rewrite Ek; left). apply elem_of_recs in Hin. nia.
Qed.

Lemma last_recs a n : 0 < n -> list.last (offs (recs a n)) = Some ((a + n - 1) * rs) <-> bad (a + n - 1) = true.
Proof.
  intros Hn. replace n with (n - 1 + 1) at 1 by lia. rewrite recs_snoc by lia. replace (a + (n - 1)) with (a + n - 1) by lia. rewrite offs_app.
  destruct (bad (a + n - 1)) eqn:E; [cbn; by rewrite last_snoc|]. split; [|done]. cbn. rewrite app_nil_r. intros Hl.
  apply list.last_Some in Hl as [l' Hl]. assert (Hin : (a + n - 1) * rs ∈ offs (recs a (n - 1))) by (rewrite Hl; set_solver).
  apply list_elem_of_fmap in Hin as (k & Hk & Hin). apply elem_of_recs in Hin. nia.
Qed.

(** The bad records of the range, with the runs that leave it. *)
Lemma reached_records a b n r q :
  0 <= r <= a -> a < b -> b <= q <= n ->
  (if bad a then (forall k, r <= k < a -> bad k = true) /\ (r = 0 \/ bad (r - 1) = false) else r = a) ->
  (if bad (b - 1) then (forall k, b <= k < q -> bad k = true) /\ (q = n \/ bad q = false) else q = b) ->
  forall k, k ∈ seqZ r (a - r) ++ recs a (b - a) ++ seqZ b (q - b) <-> 0 <= k < n /\ reached a b k.
Proof.
  intros Hr Hab Hq Hl Hu k. rewrite !elem_of_app, elem_of_recs, !elem_of_seqZ. split.
  - intros [Hk|[[Hb Hk]|Hk]].
    + destruct (bad a) eqn:Ea; [|lia]. split; [lia|]. exists a. split; [lia|]. intros i Hi. destruct (decide (i = a)) as [->|]; [done|]. apply Hl. lia.
    + split; [lia|]. exists k. split; [lia|]. intros i Hi. by replace i with k by lia.
    + destruct (bad (b - 1)) eqn:Eb; [|lia]. split; [lia|]. exists (b - 1). split; [lia|]. intros i Hi. destruct (decide (i = b - 1)) as [->|]; [done|]. apply Hu. lia.
  - intros [Hk (j & Hj & Hrun)]. assert (Hbk : bad k = true) by (apply Hrun; lia). destruct (decide (k < a)); [left|right; destruct (decide (k < b)); [left; split; [done|lia]|right]].
    + rewrite (Hrun a ltac:(lia)) in Hl. destruct Hl as [_ [->|Hl]]; [lia|]. destruct (decide (r <= k)); [lia|]. rewrite Hrun in Hl by lia. done.
    + rewrite (Hrun (b - 1) ltac:(lia)) in Hu. destruct Hu as [_ [->|Hu]]; [lia|]. destruct (decide (k < q)); [lia|]. rewrite Hrun in Hu by lia. done.
Qed.

Lemma scan_records_spec a b n c :
  0 <= a < b -> b <= n -> (forall k, k < n -> k * rs < size) ->
  match (scan_records d size rs max_failed (a * rs) (b * rs) (n * rs) c).1 with
  | Ok l => exists ks, l = offs ks /\ forall k, k ∈ ks <-> 0 <= k < n /\ reached a b k
  | Err e => scan_stops e
  | Panic => False
  end.
Proof.
  intros Ha Hb Hs. unfold scan_records, sbind. pose proof (chunk_loop a b c ltac:(lia) ltac:(intros; apply Hs; lia)) as H1.
  destruct (loop_ (chunk_iter _ _ _ _ _ _) (a * rs, []) c) as [[l|e|] c1]; cbn [fst] in H1 |- *; [|done|done]. subst l.
  assert (H2 : match ((if bool_decide (head (offs (recs a (b - a))) = Some (a * rs)) then loop_ (before_iter d size rs max_failed (a * rs)) (a * rs, offs (recs a (b - a)))
                       else sret (offs (recs a (b - a)))) c1).1 with
    | Ok l => exists r, 0 <= r <= a /\ (if bad a then (forall k, r <= k < a -> bad k = true) /\ (r = 0 \/ bad (r - 1) = false) else r = a) /\
        l = offs (seqZ r (a - r) ++ recs a (b - a))
    | Err e => scan_stops e | Panic => False end).
  { pose proof (head_recs a (b - a) ltac:(lia)) as Hh. destruct (bool_decide (head _ = _)) eqn:E; bools.
    - pose proof (before_loop a (offs (recs a (b - a))) c1 ltac:(lia) ltac:(intros; apply Hs; lia)) as Hbl.
      destruct (loop_ _ _ c1).1 as [l|e|]; [|done|done]. destruct Hbl as (r & Hr & Hb1 & Hb2 & ->). exists r. rewrite (proj1 Hh E), offs_app. done.
    - cbn. exists a. split; [lia|]. rewrite Z.sub_diag. split; [|done]. destruct (bad a); [naive_solver|done]. }
  match type of H2 with context [fst ?m] => destruct m as [[l|e|] c2] end; cbn [fst] in H2 |- *; [|done|done].
  destruct H2 as (r & Hr & Hl & ->). rewrite offs_app.
  set (pre := offs (seqZ r (a - r))). set (mid := offs (recs a (b - a))).
  assert (Hlast : (exists l, list.last (pre ++ mid) = Some l /\ l + rs = b * rs) <-> bad (b - 1) = true).
  { pose proof (last_recs a (b - a) ltac:(lia)) as Hlr. replace (a + (b - a) - 1) with (b - 1) in Hlr by lia. fold mid in Hlr. rewrite <- Hlr. split.
    - intros (l & E & Hlb). destruct (decide (mid = [])) as [Em|Em].
      + rewrite Em, app_nil_r in E. apply list.last_Some in E as [l' E]. assert (Hin : l ∈ pre) by (rewrite E; set_solver).
        apply list_elem_of_fmap in Hin as (k & -> & Hk). apply elem_of_seqZ in Hk. nia.
      + rewrite last_app in E. destruct (list.last mid) as [x|] eqn:Ex; [|by apply last_None in Ex]. injection E as ->. f_equal. lia.
    - intros E. exists ((b - 1) * rs). rewrite last_app, E. split; [done|lia]. }
  assert (Hdone : bad (b - 1) = false -> exists ks, pre ++ mid = offs ks /\ forall k, k ∈ ks <-> 0 <= k < n /\ reached a b k).
  { intros Eb. exists (seqZ r (a - r) ++ recs a (b - a) ++ seqZ b (b - b)). split.
    - rewrite Z.sub_diag. unfold pre, mid. by rewrite <- offs_app, app_nil_r.
    - apply reached_records; [done|lia|lia|done|by rewrite Eb]. }
  destruct (list.last (pre ++ mid)) as [l|] eqn:El.
  2: { cbn. apply Hdone. destruct (bad (b - 1)); [|done]. destruct (proj2 Hlast eq_refl) as (? & ? & _). done. }
  destruct (Z.eqb_spec (l + rs) (b * rs)) as [E|E].
  2: { cbn. apply Hdone. destruct (bad (b - 1)); [|done]. destruct (proj2 Hlast eq_refl) as (? & [= ->] & ?). done. }
  assert (Eb : bad (b - 1) = true) by (apply Hlast; by exists l).
  pose proof (behind_loop b n (pre ++ mid) c2 ltac:(lia) Hs) as H3. destruct (loop_ _ _ c2).1 as [l'|e|]; [|done|done].
  destruct H3 as (q & Hq & Hq1 & Hq2 & ->). exists (seqZ r (a - r) ++ recs a (b - a) ++ seqZ b (q - b)). split.
  - unfold pre, mid. by rewrite !offs_app, app_assoc.
  - apply reached_records; [done|lia|done|done|by rewrite Eb].
Qed.

Lemma scan_spec start end_ :
  0 <= start < end_ -> end_ <= size ->
  match scan d size rs max_failed start end_ with
  | Ok (_, es) => Forall (whole rs) es /\ StronglySorted before es /\
      forall x, covers es x <-> exists k, 0 <= k /\ k * rs < size /\ k * rs <= x < (k + 1) * rs /\
        exists j, j * rs < end_ /\ start < (j + 1) * rs /\ forall i, Z.min k j <= i <= Z.max k j -> bad i = true
  | Err e => scan_stops e
  | Panic => False
  end.
Proof.
  intros Hse He. unfold scan. destruct (chunk_records rs Hcheck) as [Hr24 _]. unfold disk_ok in Hdisk.
  destruct (next_multiple size rs Hrs) as (n & -> & Hn). destruct (next_multiple end_ rs Hrs) as (m & -> & Hm).
  pose proof (Z.div_mod start rs ltac:(lia)) as Hdm. pose proof (Z.mod_pos_bound start rs Hrs) as Hmb. set (a := start / rs) in *.
  replace (start - start mod rs) with (a * rs) by lia. assert (Hmn : m <= n). { destruct (decide (m <= n)); [done|]. assert (n < m) as Hx by lia. apply Hm in Hx. assert (n < n) by (apply Hn; lia). lia. }
  rewrite (Z.min_l (m * rs) (n * rs)) by nia. assert (Ha : 0 <= a) by (apply Z.div_pos; lia). assert (Ham : a < m) by (apply Hm; lia).
  pose proof (scan_records_spec a m n (mkCounters 0 0) ltac:(lia) Hmn ltac:(intros k Hk; by apply Hn)) as Hs.
  destruct (scan_records _ _ _ _ _ _ _ _) as [[l|e|] c]; cbn [fst] in Hs; [|done|done]. destruct Hs as (ks & -> & Hks).
  set (ranges := (fun o => (o / rs, o / rs)) <$> offs ks).
  assert (Hrange : forall q, q ∈ ranges <-> exists k, q = (k, k) /\ 0 <= k < n /\ reached a m k).
  { intros q. unfold ranges, offs. rewrite <- list_fmap_compose, list_elem_of_fmap. split.
    - intros (k & -> & Hk). exists k. unfold compose. rewrite Z.div_mul by lia. split; [done|]. by apply Hks.
    - intros (k & -> & Hk). exists k. unfold compose. rewrite Z.div_mul by lia. split; [done|]. by apply Hks. }
  assert (Hlim : forall k, 0 <= k < n -> k * rs < size) by (intros k Hk; apply Hn; lia).
  pose proof (extents_spec rs Hrs ranges) as Hx. assert (Hok : Forall range_ok ranges).
  { apply list.Forall_forall. intros q Hq. apply Hrange in Hq as (k & -> & Hk & _). specialize (Hlim k Hk). unfold range_ok; simpl. split; width_lia || (split; [lia|]; width_lia || nia). }
  specialize (Hx Hok). destruct (extents_from_ranges rs ranges) as [es|e|]; cbn [rbind]; [|exfalso|done].
  2: { apply list.Exists_exists in Hx as (q & Hq & Hbad). apply Hrange in Hq as (k & -> & Hk & _). specialize (Hlim k Hk). unfold bad_range in Hbad; simpl in Hbad. width_lia. }
  destruct Hx as (Hw & Hsort & Hcov). split; [done|]. split; [done|]. intros x. rewrite Hcov. unfold in_range. split.
  - intros (q & Hq & Hxq). apply Hrange in Hq as (k & -> & Hk & j & Hj & Hrun). exists k. split; [lia|]. split; [by apply Hlim|]. split; [done|].
    exists j. split; [apply Hm; lia|]. split; [nia|done].
  - intros (k & Hk & Hks' & Hxk & j & Hj1 & Hj2 & Hrun). exists (k, k). split; [|done]. apply Hrange. exists k. split; [done|]. split; [split; [done|by apply Hn]|].
    exists j. split; [|done]. split; [nia|by apply Hm].
Qed.
End Scans.

(** ** Properties *)

(** Example: a file of 3000 bytes of which the records 1 and 2 cannot be read. *)
Definition exs_bad (k : Z) : bool := (k =? 1) || (k =? 2).
Definition exs_disk : Disk :=
  mkDisk (List.repeat x05 3000) (fun off len => if (off <? 1536) && (512 <? off + len) then [Interrupted; Failed 61] else []).

Lemma read_quiet d off len b :
  d_sys d off len = [] -> d_size d < U64 -> len <= MAX_BYTES -> slice (d_data d) off len = Some b -> read d off len = Ok b.
Proof.
  intros Hq Hd Hl Hs. rewrite <- (read_sound (d_data d) off len b Hl Hd Hs). unfold read, sound_disk. cbn [d_sys]. rewrite Hq. done.
Qed.

Lemma exs_media : media_disk exs_disk 512 exs_bad.
Proof.
  intros off len Ho Hl Hs. change (d_size exs_disk) with 3000 in Hs.
  assert (Hb : bad_in 512 exs_bad off (off + len) <-> off < 1536 /\ 512 < off + len).
  { unfold bad_in, exs_bad. split.
    - intros (k & Hk & H1 & H2). apply orb_true_iff in Hk as [Hk|Hk]; bools; subst k; lia.
    - intros [H1 H2]. destruct (decide (off < 1024)); [exists 1|exists 2]; (split; [done|lia]). }
  destruct ((off <? 1536) && (512 <? off + len)) eqn:E.
  - left. bools. split; [by apply Hb|]. exists (FIo (OsError 61)). split; [|done]. unfold read.
    rewrite (proj2 (Z.ltb_ge MAX_BYTES len)) by lia. cbn [orb]. rewrite bool_decide_true by (eexists; apply checked_add64_Some; split; [done|width_lia]).
    cbn [negb exs_disk d_sys]. rewrite (proj2 (Z.ltb_lt off 1536)), (proj2 (Z.ltb_lt 512 _)) by done. cbn [andb read_loop].
    rewrite (proj2 (Z.ltb_lt (blen []) len)) by (rewrite blen_nil; lia). done.
  - right. split; [intros [H1 H2]%Hb; apply andb_false_iff in E as [E|E]; bools; lia|].
    destruct (slice_is_Some (d_data exs_disk) off len) as [b Hb']; [lia|lia|exact Hs|]. exists b.
    apply read_quiet; [|done|lia|done]. cbn [exs_disk d_sys]. by rewrite E.
Qed.

(** C30: on a file that fails exactly the reads that meet an unreadable record, a scan of [start..end_] either stops at
    its limits, too many failed reads or a run of more than 256 MiB, or gives extents of whole records, sorted and
    separated, that cover exactly the unreadable records meeting the range and those joined to them by a run of
    unreadable records, before and behind the range. It ends, and does not panic. *)
Theorem scan_exact (d : Disk) (rs max_failed : Z) (bad : Z -> bool) (start end_ : Z)
    (Hdisk : disk_ok d) (Hrs : check_record_size rs = Ok ()) (Hmedia : media_disk d rs bad)
    (Hrange : 0 <= start < end_) (Hend : end_ <= d_size d) :
  match scan d (d_size d) rs max_failed start end_ with
  | Ok (_, es) => Forall (whole rs) es /\ StronglySorted before es /\
      forall x, covers es x <-> exists k, 0 <= k /\ k * rs < d_size d /\ k * rs <= x < (k + 1) * rs /\
        exists j, j * rs < end_ /\ start < (j + 1) * rs /\ forall i, Z.min k j <= i <= Z.max k j -> bad i = true
  | Err e => e = FBadReads \/ e = FContiguous
  | Panic => False
  end.
Proof. by apply (scan_spec d (d_size d) rs max_failed bad eq_refl Hdisk Hrs Hmedia). Qed.

Lemma scan_exact_witness :
  scan exs_disk 3000 512 100 1100 1200 = Ok (mkScan 512 1536 2560 3, [mkExtent 512 1024]) /\ covers [mkExtent 512 1024] 600.
Proof.
  assert (E : scan exs_disk 3000 512 100 1100 1200 = Ok (mkScan 512 1536 2560 3, [mkExtent 512 1024])) by (vm_compute; reflexivity).
  split; [exact E|].
  pose proof (scan_exact exs_disk 512 100 exs_bad 1100 1200 ltac:(vm_compute; reflexivity) ltac:(vm_compute; reflexivity) exs_media ltac:(lia) ltac:(vm_compute; congruence)) as H.
  change (d_size exs_disk) with 3000 in H. rewrite E in H. destruct H as (_ & _ & H). apply H. exists 1. split; [lia|]. split; [lia|]. split; [lia|].
  exists 2. split; [lia|]. split; [lia|]. intros i Hi. assert (i = 1 \/ i = 2) as [-> | ->] by lia; reflexivity.
Defined.
