(* ===== verification/Rebuild.v ===== *)
(** * Rebuilding damaged entries ([crates/log-repair/src/repair.rs])

    [rebuild] reconstructs the entries of every damaged region at their offsets in the target: block bodies from
    the trusted sources, SHIP entries from a donor log as they are or re-encoded the way the target's own anchors
    are encoded. It keeps a result only if it agrees with every byte of the region that can be read.

    The JSON of the target, sha256 and the deflate of the linked zlib are parameters. That no source is the target
    itself is a check on paths, and is left out. *)

From stdpp Require Import pretty.
From S2P Require Import Prelude.
From S2P Require Import Errors.
From S2P Require Import Cursor.
From S2P Require Import Binio.
From S2P Require Import Zlib.
From S2P Require Import Framing.
From S2P Require Import Disk.
From S2P Require Import ShipPayload.
From S2P Require Import RepairLog.
From S2P Require Import TailWalk.
From S2P Require Import Recover.
From S2P Require Import Target.

#[local] Open Scope Z_scope.

(** A [String], by its chars. *)
Abbreviation chars := (list Z).

Definition hex_digit (n : Z) : Z := if n <? 10 then 48 + n else 87 + n.

(** [hex::encode]. *)
Definition hex (b : bytes) : chars := flat_map (fun x => [hex_digit (b2z x / 16); hex_digit (b2z x mod 16)]) b.

(** [Codec::name]. *)
Definition codec_name (c : Codec) : string :=
  match c with
  | Stored block false => "stored zlib, " +:+ pretty block +:+ "-byte blocks"
  | Stored block true => "stored zlib, " +:+ pretty block +:+ "-byte blocks, empty final block on exact fill"
  | Deflate level => "zlib level " +:+ pretty level
  end.

Section Rebuilding.
Context {F : Flate} {R : FlateReset F} (zlib_deflate : Z -> bytes -> option bytes) (sha256 : bytes -> bytes).
Context (json : Target -> bytes).

Definition anchor_id (log : Log.t) (n : Z) : res fault bytes :=
  if is_blocks (Log.kind log) then let? b := Log.body sha256 log n in Log.id sha256 log n b
  else Log.ship_entry_id log n.

(** ** Laying entries out *)

(** The bytes behind a shorter SHIP entry: whole orphaned entries outside the damage. *)
Definition gap_after (log : Log.t) (es : list Extent) (from to : Z) (n : Z) : res fault bytes :=
  do? ensure (bool_decide (damaged es from to = None)) (FOrphansDamaged n) ;;
  let? gap := read (Log.log log) from (to - from) in
  do? of_frame (orphans gap from) ;;
  Ok gap.

Definition lay_entry (log : Log.t) (r : Region) (n : Z) (body : bytes) : res fault bytes :=
  let? ab := Log.bounds log n in
  let '(a, b) := ab in
  let own := blen body + 8 in
  do? ensure ((own =? b - a) || (negb (is_blocks (Log.kind log)) && (own <? b - a))) (FEntryLength n) ;;
  let? gap := (if own <? b - a then gap_after log (rg_extents r) (a + own) b n else Ok []) in
  Ok (body ++ le_bytes 8 a ++ gap).

Fixpoint lay_entries (log : Log.t) (r : Region) (n : Z) (bodies : list bytes) : res fault bytes :=
  match bodies with
  | [] => Ok []
  | body :: bodies =>
      let? x := lay_entry log r n body in
      let? rest := lay_entries log r (add32 n 1) bodies in
      Ok (x ++ rest)
  end.

(** The parts of the region that can be read, with their offsets. *)
Fixpoint read_gaps (log : Log.t) (cursor : Z) (es : list Extent) : res fault (list (Z * bytes)) :=
  match es with
  | [] => Ok []
  | e :: es =>
      let? here := (if cursor <? x_offset e
                    then let? b := read (Log.log log) cursor (x_offset e - cursor) in Ok [(cursor, b)] else Ok []) in
      let? rest := read_gaps log (x_end e) es in
      Ok (here ++ rest)
  end.

Fixpoint match_readable (span : bytes) (start : Z) (readable : list (Z * bytes)) : res fault () :=
  match readable with
  | [] => Ok ()
  | (from, have) :: readable =>
      let? x := or_panic (slice span (sub64 from start) (blen have)) in
      do? ensure (bool_decide (x = have)) (FReadableDiffers from) ;;
      match_readable span start readable
  end.

Definition assemble (log : Log.t) (r : Region) (bodies : list bytes) (readable : list (Z * bytes)) : res fault bytes :=
  let? span := lay_entries log r (rg_first r) bodies in
  do? ensure (blen span =? sub64 (rg_span_end r) (rg_span_start r)) FSpanLength ;;
  do? match_readable span (rg_span_start r) readable ;;
  Ok span.

(** ** Re-encoding *)

(** [filter(|c| encode_ship_with(..).is_ok_and(|e| e == body))]. *)
Fixpoint fitting (id raw : bytes) (marker : Z) (body : bytes) (cs : list Codec) : res fault (list Codec) :=
  match cs with
  | [] => Ok []
  | c :: cs =>
      let? fits := match encode_ship_with zlib_deflate id raw marker c with
                   | Ok e => Ok (bool_decide (e = body))
                   | Err _ => Ok false
                   | Panic => Panic
                   end in
      let? rest := fitting id raw marker body cs in
      Ok (if fits : bool then c :: rest else rest)
  end.

(** One anchor: the marker and the codecs so far. *)
Definition calibrate_at (log : Log.t) (n : Z) (st : option (Z * list Codec)) : res fault (option (Z * list Codec)) :=
  match Log.body sha256 log n with
  | Err _ => Ok st
  | Panic => Panic
  | Ok body =>
      let? p := ship_payload body in
      let? m := ship_marker body in
      do? ensure (match st with Some (prev, _) => prev =? m | None => true end) FMarkerDiffers ;;
      let? fits := fitting p.1 p.2 m body candidates in
      do? ensure (negb (bool_decide (fits = []))) (FNoCodec n) ;;
      Ok (Some (m, match st with
                   | None => fits
                   | Some (_, prev) => List.filter (fun c => bool_decide (c ∈ fits)) prev
                   end))
  end.

Definition calibrate (log : Log.t) (before after : Z) : res fault (Z * list Codec) :=
  let? st := calibrate_at log before None in
  let? st := calibrate_at log after st in
  let? x := or_err st FNoCalibration in
  do? ensure (negb (bool_decide (x.2 = []))) FCodecsDiffer ;;
  Ok x.

Fixpoint payloads (bodies : list bytes) : res fault (list (bytes * bytes)) :=
  match bodies with
  | [] => Ok []
  | b :: bodies => let? p := ship_payload b in let? ps := payloads bodies in Ok (p :: ps)
  end.

Fixpoint encode_all (marker : Z) (c : Codec) (ps : list (bytes * bytes)) : res fault (list bytes) :=
  match ps with
  | [] => Ok []
  | p :: ps =>
      let? b := encode_ship_with zlib_deflate p.1 p.2 marker c in
      let? bs := encode_all marker c ps in
      Ok (b :: bs)
  end.

(** The codecs whose result fits the region, one for each different result. *)
Fixpoint fits_of (log : Log.t) (r : Region) (readable : list (Z * bytes)) (marker : Z) (ps : list (bytes * bytes))
    (cs : list Codec) (fits : list (Codec * list bytes * bytes)) : res fault (list (Codec * list bytes * bytes)) :=
  match cs with
  | [] => Ok fits
  | c :: cs =>
      let? bodies := encode_all marker c ps in
      match assemble log r bodies readable with
      | Ok span =>
          fits_of log r readable marker ps cs
            (if bool_decide (span ∈ (snd <$> fits)) then fits else fits ++ [(c, bodies, span)])
      | Err _ => fits_of log r readable marker ps cs fits
      | Panic => Panic
      end
  end.

(** How the entries of a region were made. *)
Inductive Encoding := AsIs | ReEncoded (c : Codec).

Definition encoding_text (e : Encoding) : string :=
  match e with AsIs => "source bytes as they are" | ReEncoded c => "re-encoded as " +:+ codec_name c end.

Definition translate (log : Log.t) (r : Region) (source_bodies : list bytes) (readable : list (Z * bytes))
    : res fault (Encoding * list bytes * bytes) :=
  let '(before, after) := source_range r in
  let? x := calibrate log before after in
  let '(marker, codecs) := x in
  let? ps := payloads source_bodies in
  let? fits := fits_of log r readable marker ps codecs [] in
  match fits with
  | [(c, bodies, span)] => Ok (ReEncoded c, bodies, span)
  | [] => Err FNoFit
  | _ => Err FAmbiguous
  end.

(** ** A region *)

(** A SHIP anchor belongs to the chain of the trusted blocks, and the donor has the same entry there. *)
Definition check_anchor (src : Loaded) (donor : Log.t) (n : Z) (id : bytes) : res fault () :=
  let? found := block sha256 src n in
  let? b := or_err found (FAnchorSource n) in
  let? h := block_header sha256 b in
  do? ensure (bool_decide (hd_id h = id)) (FAnchorChain n) ;;
  let? own := Log.ship_entry_id donor n in
  ensure (bool_decide (own = id)) (FDonorAnchor n).

Definition donor_for (src : Loaded) (before after : Z) : option Log.t :=
  List.find (fun d => (Log.first d <=? before) && (after <=? Log.last d)) (ld_donors src).

Definition packed_block (src : Loaded) (after : option bytes) (n last : Z) : res fault bytes :=
  match after with
  | Some b => if n =? last then Ok b else let? f := block sha256 src n in or_err f (FSourceLacks n)
  | None => let? f := block sha256 src n in or_err f (FSourceLacks n)
  end.

(** The blocks [ns] up to the right anchor [last]: their bodies and what was hashed. *)
Fixpoint chain_blocks (log : Log.t) (src : Loaded) (donor : option Log.t) (after : option bytes) (last : Z) (right_id : bytes)
    (ns : list Z) (expected : bytes) : res fault (list bytes * bytes) :=
  match ns with
  | [] => Ok ([], [])
  | n :: ns =>
      let? packed := packed_block src after n last in
      let? h := block_header sha256 packed in
      do? ensure ((hd_number h =? n) && bool_decide (hd_previous h = expected)) (FChainBroken n) ;;
      let? ab := Log.bounds log n in
      let here := le_bytes 4 n ++ le_bytes 8 (blen packed) ++ packed ++ le_bytes 8 ab.1 ++ le_bytes 8 ab.2 in
      if n =? last then
        do? ensure (bool_decide (hd_id h = right_id)) FRightAnchor ;;
        Ok ([], here)
      else
        let? body := match donor with
                     | Some d =>
                         let? body := Log.body sha256 d n in
                         let? id := Log.id sha256 d n body in
                         do? ensure (bool_decide (id = hd_id h)) (FShipId n) ;;
                         Ok body
                     | None => Ok packed
                     end in
        let? rest := chain_blocks log src donor after last right_id ns (hd_id h) in
        Ok (body :: rest.1, here ++ rest.2)
  end.

(** The bytes of the extents, cut from the rebuilt span. *)
Fixpoint cut_extents (span : bytes) (start : Z) (es : list Extent) : res fault bytes :=
  match es with
  | [] => Ok []
  | e :: es =>
      let? x := or_panic (slice span (sub64 (x_offset e) start) (x_len e)) in
      let? rest := cut_extents span start es in
      Ok (x ++ rest)
  end.

Definition string_bytes (s : string) : bytes := String.list_byte_of_string s.

(** The bytes for the extents, what was hashed, and the encoding. *)
Definition rebuild_region (log : Log.t) (src : Loaded) (r : Region) : res fault (bytes * bytes * Encoding) :=
  let '(before, last) := source_range r in
  let? after := (if is_blocks (Log.kind log) then let? b := Log.body sha256 log last in Ok (Some b) else Ok None) in
  let? left_id := anchor_id log before in
  let? right_id := anchor_id log last in
  let? donor := (if is_blocks (Log.kind log) then Ok None
                 else
                   let? d := or_err (donor_for src before last) (FNoDonorCovers before last) in
                   do? check_anchor src d before left_id ;;
                   do? check_anchor src d last right_id ;;
                   Ok (Some d)) in
  let? c := chain_blocks log src donor after last right_id (upto (rg_first r) last) left_id in
  let '(source_bodies, hashed) := c in
  let? readable := read_gaps log (rg_span_start r) (rg_extents r ++ [mkExtent (rg_span_end r) 0]) in
  let? x := match assemble log r source_bodies readable with
            | Ok span => Ok (AsIs, source_bodies, span)
            | Err e => if is_blocks (Log.kind log) then Err e else translate log r source_bodies readable
            | Panic => Panic
            end in
  let '(encoding, bodies, span) := x in
  let? out := cut_extents span (rg_span_start r) (rg_extents r) in
  Ok (out,
      left_id ++ right_id ++ hashed ++ concat ((fun b => le_bytes 8 (blen b) ++ b) <$> bodies) ++
        string_bytes (encoding_text encoding) ++ concat (snd <$> readable),
      encoding).

Record Rebuilt := mkRebuilt { rb_replacement : bytes; rb_evidence : chars; rb_encodings : list Encoding }.

Fixpoint rebuild_regions (log : Log.t) (src : Loaded) (rs : list Region) : res fault (bytes * bytes * list Encoding) :=
  match rs with
  | [] => Ok ([], [], [])
  | r :: rs =>
      let? x := rebuild_region log src r in
      let? y := rebuild_regions log src rs in
      Ok (x.1.1 ++ y.1.1, x.1.2 ++ y.1.2, x.2 :: y.2)
  end.

Definition rebuild (log : Log.t) (t : Target) (src : Loaded) : res fault Rebuilt :=
  let? header := read (Log.log log) 0 (if is_blocks (Log.kind log) then 8 else 48) in
  let? x := rebuild_regions log src (tg_regions t) in
  Ok (mkRebuilt x.1.1 (hex (sha256 (json t ++ header ++ x.1.2))) x.2).
End Rebuilding.
