(* ===== verification/RebuildFacts.v ===== *)
(** * What rebuilding establishes

    A rebuilt region agrees with every byte of it that can be read, and the bytes for its extents make it, once
    written, whole entries of the log: of the trusted blocks themselves, or of the donor's payloads. *)

From stdpp Require Import sorting.
From S2P Require Import Prelude.
From S2P Require Import Errors.
From S2P Require Import Cursor.
From S2P Require Import Binio.
From S2P Require Import Zlib.
From S2P Require Import Framing.
From S2P Require Import Disk.
From S2P Require Import ShipPayload.
From S2P Require Import RepairLog.
From S2P Require Import ReadAhead.
From S2P Require Import TailWalk.
From S2P Require Import WalkFacts.
From S2P Require Import Recover.
From S2P Require Import RecoverFacts.
From S2P Require Import Target.
From S2P Require Import TargetFacts.
From S2P Require Import Rebuild.

(** ** Writing into extents *)

(** A piece for an extent inside a file of [size] bytes. *)
Definition fits (size : Z) (q : Extent * bytes) : Prop :=
  0 <= x_offset q.1 /\ blen q.2 = x_len q.1 /\ x_offset q.1 + x_len q.1 <= size.

Definition patched (data : bytes) (ps : list (Extent * bytes)) : bytes :=
  foldl (fun d q => put d (x_offset q.1) q.2) data ps.

Lemma blen_patched data ps : Forall (fits (blen data)) ps -> blen (patched data ps) = blen data.
Proof.
  revert data. induction ps as [|[e p] ps IH]; intros data Hf; [done|]. apply list.Forall_cons in Hf as [(H1 & H2 & H3) Hf].
  cbn [patched foldl fst snd] in *. fold (patched (put data (x_offset e) p) ps).
  assert (Hb : blen (put data (x_offset e) p) = blen data) by (apply blen_put; lia). rewrite IH, Hb; [done|]. by rewrite Hb.
Qed.

Lemma byte_at_patched data ps i :
  Forall (fits (blen data)) ps -> ~ covers ps.*1 i -> byte_at (patched data ps) i = byte_at data i.
Proof.
  revert data. induction ps as [|[e p] ps IH]; intros data Hf Hc; [done|]. apply list.Forall_cons in Hf as [(H1 & H2 & H3) Hf].
  cbn [patched foldl fst snd] in *. fold (patched (put data (x_offset e) p) ps). rewrite fmap_cons, covers_cons in Hc. cbn [fst] in Hc.
  rewrite IH; [|by rewrite blen_put by lia|tauto]. rewrite byte_at_put by lia.
  destruct (_ && _) eqn:E; [|done]. bools. destruct Hc. left. unfold in_extent. lia.
Qed.

Lemma byte_at_patched_in data ps e p i :
  Forall (fits (blen data)) ps -> StronglySorted before ps.*1 -> (e, p) ∈ ps -> in_extent i e ->
  byte_at (patched data ps) i = byte_at p (i - x_offset e).
Proof.
  revert data. induction ps as [|[e' p'] ps IH]; intros data Hf Hs Hin Hi; [by apply not_elem_of_nil in Hin|].
  apply list.Forall_cons in Hf as [(H1 & H2 & H3) Hf]. cbn [patched foldl fst snd] in *. fold (patched (put data (x_offset e') p') ps).
  assert (Hb : blen (put data (x_offset e') p') = blen data) by (apply blen_put; lia).
  rewrite fmap_cons in Hs. apply StronglySorted_inv in Hs as [Hs Hlt].
  apply elem_of_cons in Hin as [[= -> ->]|Hin]; [|apply IH; [by rewrite Hb|done..]].
  unfold in_extent in Hi. rewrite byte_at_patched; [|by rewrite Hb|].
  - rewrite byte_at_put by lia. destruct (_ && _) eqn:E; [done|]. apply andb_false_iff in E as [E|E]; bools; exfalso; lia.
  - intros (f & Hf' & Hif). rewrite list.Forall_forall in Hlt. apply Hlt in Hf'. unfold before, in_extent in *. simpl in Hf'. lia.
Qed.

(** ** Laying entries out *)

(** The bytes of the entries from [n] on, at their offsets in [log]. *)
Fixpoint laid (log : Log.t) (n : Z) (bodies : list bytes) (span : bytes) : Prop :=
  match bodies with
  | [] => span = []
  | x :: bodies =>
      exists a b es rest, Log.bounds log n = Ok (a, b) /\ Forall (fun e => blen e.1 = 32) es /\
        (is_blocks (Log.kind log) = true -> es = []) /\
        blen (x ++ le_bytes 8 a ++ orphan_bytes (a + (blen x + 8)) es) = b - a /\
        span = (x ++ le_bytes 8 a ++ orphan_bytes (a + (blen x + 8)) es) ++ rest /\ laid log (n + 1) bodies rest
  end.

Section Laying.
Context (log : Log.t) (Hlog : log_ok log).

Lemma gap_after_spec es from to n :
  0 <= from < to -> to < 2 ^ 63 ->
  match gap_after log es from to n with
  | Ok gap => exists os, Forall (fun e => blen e.1 = 32) os /\ gap = orphan_bytes from os /\ blen gap = to - from
  | Err _ => True
  | Panic => False
  end.
Proof.
  intros Hf Ht. unfold gap_after. destruct (bool_decide _); cbn [ensure rbind]; [|done].
  destruct (read_cases (Log.log log) from (to - from)) as [(g & -> & Hs)|(e & ->)]; [apply inside_pos; lia| |done].
  cbn [rbind]. apply slice_blen in Hs. pose proof (orphans_spec g from ltac:(lia) ltac:(width_lia)) as Ho.
  destruct (orphans g from) as [k|e|]; cbn [of_frame rbind]; [|done|done]. destruct Ho as (os & ? & ? & _). by exists os.
Qed.

Lemma lay_entry_spec r n x :
  Log.first log <= n <= Log.last log ->
  match lay_entry log r n x with
  | Ok out => exists a b es, Log.bounds log n = Ok (a, b) /\ Forall (fun e => blen e.1 = 32) es /\
      (is_blocks (Log.kind log) = true -> es = []) /\ out = x ++ le_bytes 8 a ++ orphan_bytes (a + (blen x + 8)) es /\ blen out = b - a
  | Err _ => True
  | Panic => False
  end.
Proof.
  intros Hn. unfold lay_entry. pose proof (bounds_spec log n Hlog Hn) as Hb.
  destruct (Log.bounds log n) as [[a b]|e|]; cbn [rbind]; [|done|done]. destruct Hb as (Ha & Hb & Hlt & _).
  destruct (pos_is_range log n a Hlog Ha) as [Ha0 Hsz]. destruct (pos_is_range log _ b Hlog Hb) as [Hb0 _].
  pose proof (blen_nonneg x). destruct (Z.eqb_spec (blen x + 8) (b - a)) as [E|E]; cbn [orb].
  - cbn [ensure rbind]. rewrite (proj2 (Z.ltb_ge _ _)) by lia. cbn [rbind]. exists a, b, []. cbn [orphan_bytes].
    rewrite !app_nil_r. do 4 (split; [done|]). rewrite blen_app, blen_le_bytes. lia.
  - destruct (is_blocks (Log.kind log)) eqn:Hk; cbn [negb andb ensure rbind]; [done|].
    destruct (Z.ltb_spec (blen x + 8) (b - a)); cbn [ensure rbind]; [|done].
    pose proof (gap_after_spec (rg_extents r) (a + (blen x + 8)) b n ltac:(lia) ltac:(lia)) as Hg.
    destruct (gap_after _ _ _ _ _) as [gap|e|]; cbn [rbind]; [|done|done]. destruct Hg as (os & Hos & -> & Hlen).
    exists a, b, os. do 4 (split; [done|]). rewrite !blen_app, Hlen, blen_le_bytes. lia.
Qed.

Lemma lay_entries_spec r bodies n :
  Log.first log <= n -> n + blen bodies <= Log.last log + 1 ->
  match lay_entries log r n bodies with
  | Ok span => laid log n bodies span
  | Err _ => True
  | Panic => False
  end.
Proof.
  pose proof (lo_last _ Hlog) as Hl. pose proof (lo_first _ Hlog). revert n.
  induction bodies as [|x bodies IH]; intros n Hn Hb; cbn [lay_entries laid]; [done|]. rewrite blen_cons in Hb.
  pose proof (blen_nonneg bodies). pose proof (lay_entry_spec r n x ltac:(lia)) as Hx.
  destruct (lay_entry log r n x) as [out|e|]; cbn [rbind]; [|done|done].
  rewrite add32_below by width_lia. specialize (IH (n + 1) ltac:(lia) ltac:(lia)).
  destruct (lay_entries log r (n + 1) bodies) as [rest|e|]; cbn [rbind]; [|done|done].
  destruct Hx as (a & b & es & ? & ? & ? & -> & ?). by exists a, b, es, rest.
Qed.

(** Where an entry is in the span. *)
Lemma laid_slice n bodies span start k x :
  Log.first log <= n -> n + blen bodies <= Log.last log + 1 -> laid log n bodies span -> pos_is log n start -> bodies !! k = Some x ->
  exists a b es, Log.bounds log (n + Z.of_nat k) = Ok (a, b) /\ Forall (fun e => blen e.1 = 32) es /\
    (is_blocks (Log.kind log) = true -> es = []) /\ start <= a /\ b - start <= blen span /\
    slice span (a - start) (b - a) = Some (x ++ le_bytes 8 a ++ orphan_bytes (a + (blen x + 8)) es).
Proof.
  revert n span start k. induction bodies as [|y bodies IH]; intros n span start k Hn Hl Hd Hp Hk; [done|]. rewrite blen_cons in Hl.
  pose proof (blen_nonneg bodies). cbn [laid] in Hd. destruct Hd as (a & b & es & rest & Hab & Hes & Hb & Hlen & -> & Hd).
  apply (bounds_Ok log Hlog) in Hab as Hpos; [|lia]. destruct Hpos as (Ha & Hb' & Hlt).
  destruct (pos_is_range log n a Hlog Ha) as [_ Hsz]. rewrite (pos_is_fun log n start a Hp Ha) by width_lia.
  set (here := y ++ le_bytes 8 a ++ _) in *. pose proof (blen_nonneg rest). destruct k as [|k].
  - injection Hk as ->. exists a, b, es. rewrite Z.add_0_r. do 3 (split; [done|]). split; [lia|]. rewrite blen_app, Hlen. split; [lia|].
    apply (slice_mid [] here rest); [unfold blen; simpl; lia|lia].
  - destruct (IH (n + 1) rest b k ltac:(lia) ltac:(lia) Hd Hb' Hk) as (c & f & gs & H1 & H2 & H3 & H4 & H5 & H6).
    exists c, f, gs. replace (n + 1 + Z.of_nat k) with (n + Z.of_nat (S k)) in H1 by lia. do 3 (split; [done|]).
    split; [lia|]. rewrite blen_app, Hlen. split; [lia|]. rewrite slice_app_r by lia. rewrite Hlen.
    replace (c - a - (b - a)) with (c - b) by lia. done.
Qed.
End Laying.

(** ** Agreement with what can be read *)

(** The parts [rd] of the file lie in [cursor..stop] and hold every byte of it outside the extents. *)
Record readable_parts (data : bytes) (cursor stop : Z) (es : list Extent) (rd : list (Z * bytes)) : Prop := {
  rp_parts : Forall (fun q => slice data q.1 (blen q.2) = Some q.2 /\ cursor <= q.1 /\ q.1 + blen q.2 <= stop) rd;
  rp_all : forall x, cursor <= x < stop -> ~ covers es x -> exists q, q ∈ rd /\ q.1 <= x < q.1 + blen q.2
}.

Lemma read_gaps_spec log rs cursor stop es :
  0 <= cursor <= stop -> stop < 2 ^ 63 -> Forall (whole rs) es -> StronglySorted before es ->
  (forall e, e ∈ es -> cursor <= x_offset e /\ x_offset e + x_len e <= stop) ->
  match read_gaps log cursor (es ++ [mkExtent stop 0]) with
  | Ok rd => readable_parts (d_data (Log.log log)) cursor stop es rd
  | Err _ => True
  | Panic => False
  end.
Proof.
  intros Hc Hstop Hw. revert cursor Hc. induction Hw as [|e es He Hw IH]; intros cursor Hc Hs Hin; cbn [app read_gaps x_offset].
  - destruct (Z.ltb_spec cursor stop); cbn [rbind].
    + destruct (read_cases (Log.log log) cursor (stop - cursor)) as [(g & -> & Hg)|(x & ->)]; [apply inside_pos; lia| |done].
      cbn [rbind app]. pose proof (slice_blen _ _ _ _ Hg) as Hl. split.
      * constructor; [|constructor]. cbn [fst snd]. rewrite Hl. split; [done|lia].
      * intros x Hx _. exists (cursor, g). cbn [fst snd]. rewrite Hl. split; [set_solver|lia].
    + split; [constructor|]. intros x Hx. lia.
  - apply StronglySorted_inv in Hs as [Hs Hlt]. destruct (Hin e ltac:(set_solver)) as [H1 H2]. pose proof (wh_len _ _ He) as Hlen.
    rewrite (whole_end rs) by done. specialize (IH (x_offset e + x_len e) ltac:(lia) Hs).
    specialize (IH ltac:(intros f Hf; rewrite list.Forall_forall in Hlt; pose proof (Hlt f Hf) as Hb; unfold before in Hb; pose proof (Hin f ltac:(set_solver)); lia)).
    assert (Hhere : match (if cursor <? x_offset e then let? b := read (Log.log log) cursor (x_offset e - cursor) in Ok [(cursor, b)] else Ok []) with
      | Ok here => Forall (fun q => slice (d_data (Log.log log)) q.1 (blen q.2) = Some q.2 /\ cursor <= q.1 /\ q.1 + blen q.2 <= stop) here /\
          forall x, cursor <= x < x_offset e -> exists q, q ∈ here /\ q.1 <= x < q.1 + blen q.2
      | Err _ => True | Panic => False end).
    { destruct (Z.ltb_spec cursor (x_offset e)); [|split; [constructor|intros; lia]].
      destruct (read_cases (Log.log log) cursor (x_offset e - cursor)) as [(g & -> & Hg)|(x & ->)]; [apply inside_pos; lia| |done].
      cbn [rbind]. pose proof (slice_blen _ _ _ _ Hg) as Hl. split; [constructor; [|constructor]; cbn [fst snd]; rewrite Hl; split; [done|lia]|].
      intros x Hx. exists (cursor, g). cbn [fst snd]. rewrite Hl. split; [set_solver|lia]. }
    destruct (if cursor <? x_offset e then _ else _) as [here|x|]; cbn [rbind]; [|done|done].
    destruct (read_gaps log (x_offset e + x_len e) _) as [rest|x|]; cbn [rbind]; [|done|done].
    destruct Hhere as [Hh1 Hh2], IH as [Hp Ha]. split.
    + apply Forall_app. split; [done|]. eapply list.Forall_impl; [apply Hp|]. simpl. intros q ?. intuition lia.
    + intros x Hx Hn. rewrite covers_cons in Hn. unfold in_extent in Hn. destruct (decide (x < x_offset e)).
      * destruct (Hh2 x ltac:(lia)) as (q & Hq & ?). exists q. set_solver.
      * destruct (Ha x ltac:(lia) ltac:(tauto)) as (q & Hq & ?). exists q. set_solver.
Qed.

Lemma match_readable_spec span start rd :
  0 <= start -> start + blen span < 2 ^ 63 -> Forall (fun q => start <= q.1 /\ q.1 + blen q.2 <= start + blen span) rd ->
  match match_readable span start rd with
  | Ok _ => Forall (fun q => slice span (q.1 - start) (blen q.2) = Some q.2) rd
  | Err _ => True
  | Panic => False
  end.
Proof.
  intros Hs Hu. induction 1 as [|[from have] rd [H1 H2] _ IH]; cbn [match_readable]; [constructor|]. cbn [fst snd] in *.
  pose proof (blen_nonneg have). replace (sub64 from start) with (from - start) by (symmetry; apply Z.mod_small; width_lia).
  destruct (slice_is_Some span (from - start) (blen have)) as [x Hx]; [lia..|]. rewrite Hx. cbn [or_panic rbind].
  destruct (bool_decide (x = have)) eqn:E; cbn [ensure rbind]; [|done]. bools. subst x.
  destruct (match_readable span start rd); [|done|done]. by constructor.
Qed.

(** The span agrees with the file outside the extents. *)
Definition agrees (data : bytes) (r : Region) (span : bytes) : Prop :=
  forall x, rg_span_start r <= x < rg_span_end r -> ~ covers (rg_extents r) x -> byte_at span (x - rg_span_start r) = byte_at data x.

Record assembled (log : Log.t) (r : Region) (bodies : list bytes) (span : bytes) : Prop := {
  as_laid : laid log (rg_first r) bodies span;
  as_len : blen span = rg_span_end r - rg_span_start r;
  as_agrees : agrees (d_data (Log.log log)) r span
}.

Section Assembling.
Context (log : Log.t) (Hlog : log_ok log) (rs : Z) (r : Region) (Hr : region_shape log rs r).

Lemma geo_span_range : 0 <= rg_span_start r < rg_span_end r /\ rg_span_end r <= Log.size log /\ Log.size log < 2 ^ 63.
Proof. pose proof (rg_span _ _ _ Hr). destruct (pos_is_range log _ _ Hlog (rg_stops _ _ _ Hr)). lia. Qed.

Lemma assemble_spec bodies rd :
  blen bodies = rg_last r - rg_first r + 1 -> readable_parts (d_data (Log.log log)) (rg_span_start r) (rg_span_end r) (rg_extents r) rd ->
  match assemble log r bodies rd with
  | Ok span => assembled log r bodies span
  | Err _ => True
  | Panic => False
  end.
Proof.
  intros Hb [Hparts Hall]. pose proof geo_span_range as (Hspan & Hend & Hsz). pose proof (rg_anchors _ _ _ Hr) as Ha. unfold assemble.
  pose proof (lay_entries_spec log Hlog r bodies (rg_first r) ltac:(lia) ltac:(lia)) as Hl.
  destruct (lay_entries log r (rg_first r) bodies) as [span|e|]; cbn [rbind]; [|done|done].
  replace (sub64 (rg_span_end r) (rg_span_start r)) with (rg_span_end r - rg_span_start r) by (symmetry; apply Z.mod_small; width_lia).
  destruct (Z.eqb_spec (blen span) (rg_span_end r - rg_span_start r)) as [E|E]; cbn [ensure rbind]; [|done].
  pose proof (match_readable_spec span (rg_span_start r) rd ltac:(lia) ltac:(lia)) as Hm.
  specialize (Hm ltac:(eapply list.Forall_impl; [apply Hparts|]; simpl; intros q ?; lia)).
  destruct (match_readable span (rg_span_start r) rd) as [u|e|]; cbn [rbind]; [|done|done]. split; [done|done|].
  intros x Hx Hn. destruct (Hall x Hx Hn) as (q & Hq & Hqx). rewrite list.Forall_forall in Hm, Hparts.
  destruct (Hparts q Hq) as (Hsd & _). pose proof (Hm q Hq) as Hss.
  pose proof (slice_byte_at _ _ _ _ (x - q.1) Hsd ltac:(lia)) as E1. pose proof (slice_byte_at _ _ _ _ (x - q.1) Hss ltac:(lia)) as E2.
  replace (q.1 + (x - q.1)) with x in E1 by lia. replace (q.1 - rg_span_start r + (x - q.1)) with (x - rg_span_start r) in E2 by lia. congruence.
Qed.

Lemma cut_extents_spec span es :
  blen span = rg_span_end r - rg_span_start r -> (forall e, e ∈ es -> e ∈ rg_extents r) ->
  match cut_extents span (rg_span_start r) es with
  | Ok out => exists ps, ps.*1 = es /\ out = concat ps.*2 /\
      Forall (fun q => slice span (x_offset q.1 - rg_span_start r) (x_len q.1) = Some q.2) ps
  | Err _ => False
  | Panic => False
  end.
Proof.
  intros Hs. pose proof geo_span_range as (Hspan & Hend & Hsz).
  induction es as [|e es IH]; intros Hin; cbn [cut_extents]; [by exists []|].
  destruct (rg_inside _ _ _ Hr e ltac:(set_solver)) as [H1 H2]. pose proof (rg_whole _ _ _ Hr) as Hw. rewrite list.Forall_forall in Hw.
  pose proof (wh_len _ _ (Hw e ltac:(set_solver))).
  replace (sub64 (x_offset e) (rg_span_start r)) with (x_offset e - rg_span_start r) by (symmetry; apply Z.mod_small; width_lia).
  destruct (slice_is_Some span (x_offset e - rg_span_start r) (x_len e)) as [p Hp]; [lia..|]. rewrite Hp. cbn [or_panic rbind].
  specialize (IH ltac:(set_solver)). destruct (cut_extents span (rg_span_start r) es) as [out|x|]; cbn [rbind]; [|done|done].
  destruct IH as (ps & <- & -> & Hps). exists ((e, p) :: ps). split; [done|]. split; [done|]. by constructor.
Qed.

(** Writing the pieces makes the region the span. *)
Lemma patched_span bodies span ps :
  assembled log r bodies span -> ps.*1 = rg_extents r ->
  Forall (fun q => slice span (x_offset q.1 - rg_span_start r) (x_len q.1) = Some q.2) ps ->
  Forall (fits (Log.size log)) ps /\
  slice (patched (d_data (Log.log log)) ps) (rg_span_start r) (blen span) = Some span.
Proof.
  intros [_ Hlen Hag] Hps Hcut. pose proof geo_span_range as (Hspan & Hend & Hsz). pose proof (lo_size _ Hlog) as Hsize. unfold d_size in Hsize.
  assert (Hfits : Forall (fits (Log.size log)) ps).
  { apply list.Forall_forall. intros [e p] Hq. rewrite list.Forall_forall in Hcut. pose proof (Hcut _ Hq) as Hs. apply slice_blen in Hs. cbn [fst snd] in *.
    destruct (rg_inside _ _ _ Hr e) as [H1 H2]; [rewrite <- Hps; apply list_elem_of_fmap; by exists (e, p)|].
    unfold fits; cbn [fst snd]. lia. }
  split; [done|]. rewrite Hsize in Hfits. apply slice_ext; [lia|rewrite blen_patched by done; lia|].
  intros i Hi. destruct (decide (Exists (fun q => x_offset q.1 <= rg_span_start r + i < x_offset q.1 + x_len q.1) ps)) as [Hc|Hc].
  - apply list.Exists_exists in Hc as ([e p] & Hq & Hin). cbn [fst] in Hin.
    rewrite (byte_at_patched_in _ _ e p); [|done|rewrite Hps; apply (rg_sorted _ _ _ Hr)|done|done].
    rewrite list.Forall_forall in Hcut. pose proof (Hcut _ Hq) as Hs. cbn [fst snd] in Hs.
    rewrite (slice_byte_at _ _ _ _ _ Hs) by lia. f_equal. lia.
  - assert (Hn : ~ covers (rg_extents r) (rg_span_start r + i)).
    { intros (e & He & Hin). apply Hc. rewrite <- Hps in He. apply list_elem_of_fmap in He as (q & -> & Hq). apply list.Exists_exists. by exists q. }
    rewrite byte_at_patched; [|done|by rewrite Hps]. rewrite <- (Hag (rg_span_start r + i) ltac:(lia) Hn). f_equal. lia.
Qed.
End Assembling.

(** ** The chain of the sources *)
Section Chain.
Context {F : Flate} {R : FlateReset F} (zlib : bytes -> option bytes) {L : FlateLaws F zlib}
  {RL : ResetLaws F zlib} (zlib_deflate : Z -> bytes -> option bytes) (sha256 : bytes -> bytes).
Context (log : Log.t) (Hlog : log_ok log) (src : Loaded) (Hsrc : loaded_ok src).

Lemma ship_entry_id_no_panic l n : log_ok l -> Log.first l <= n <= Log.last l -> no_panic (Log.ship_entry_id l n).
Proof.
  intros Hl Hn. pose proof (lo_last _ Hl). pose proof (lo_first _ Hl). unfold Log.ship_entry_id.
  apply no_panic_bind; [by auto with no_panic|intros _ _].
  pose proof (pos_spec l n Hl ltac:(width_lia)) as Ha. destruct (Log.pos l n) as [a|e|]; cbn [rbind]; [|done|done].
  rewrite add32_below by width_lia. pose proof (pos_spec l (n + 1) Hl ltac:(width_lia)) as Hb.
  destruct (Log.pos l (n + 1)) as [b|e|]; cbn [rbind]; [|done|done].
  destruct (pos_is_range l n a Hl Ha) as [Ha0 Hsz]. destruct (pos_is_range l _ b Hl Hb) as [Hb0 _].
  destruct ((a <? b) && (60 <=? b - a)) eqn:E; cbn [ensure rbind]; [|done]. bools.
  destruct (read_cases (Log.log l) a 48) as [(h & -> & Hh)|(e & ->)]; [apply inside_pos; lia| |done]. cbn [rbind]. apply slice_blen in Hh.
  destruct (u64_in_total h 0) as (m & -> & _); [lia|lia|]. cbn [rbind]. unfold check_magic.
  destruct (unsupported_ship_magic m); cbn [rbind]; [done|]. destruct (entry_size_total h ltac:(lia)) as (own & Ho & Hu). rewrite Ho. cbn [of_frame rbind].
  destruct (Z.leb_spec own (b - a)); cbn [ensure rbind]; [|done].
  assert (Hown : 56 <= own).
  { destruct (u64_in_total h 40) as (v & Hv & Hvu); [lia|lia|]. apply entry_size_eq, of_frame_Ok in Hv. rewrite Hv in Ho. injection Ho as <-.
    unfold sat_add64. width_lia. }
  destruct (read_cases (Log.log l) (a + own - 8) 8) as [(t & -> & Ht)|(e & ->)]; [apply inside_pos; lia| |done]. cbn [rbind]. apply slice_blen in Ht.
  rewrite u64_in_whole by done. cbn [rbind]. destruct (le_of t =? a); cbn [ensure rbind]; [|done].
  assert (Htail : no_panic (let? id := or_panic (slice h 8 32) in do? ensure (num_from_id id =? n) (FHeaderNumber n) ;; Ok id)).
  { destruct (slice_is_Some h 8 32) as [id ->]; [lia..|]. cbn [or_panic rbind]. by destruct (_ =? _). }
  destruct (Z.ltb_spec own (b - a)); cbn [rbind]; [|done].
  destruct (_ <=? MAX_BYTES); cbn [ensure rbind]; [|done].
  destruct (read_cases (Log.log l) (a + own) (b - a - own)) as [(o & -> & Hs)|(e & ->)]; [apply inside_pos; lia| |done].
  cbn [rbind]. apply slice_blen in Hs. pose proof (orphans_spec o (a + own) ltac:(lia) ltac:(width_lia)) as Hos.
  by destruct (orphans o (a + own)); cbn [of_frame rbind].
Qed.

Lemma entry_body_no_panic l n : log_ok l -> Log.first l <= n <= Log.last l -> no_panic (Log.body sha256 l n).
Proof. intros Hl Hn. pose proof (body_spec zlib sha256 l n Hl Hn). by destruct (Log.body sha256 l n). Qed.

Lemma id_no_panic l n x : blen x < U64 -> no_panic (Log.id sha256 l n x).
Proof. intros Hx. pose proof (id_spec zlib sha256 l n x Hx). by destruct (Log.id sha256 l n x). Qed.

Lemma body_len64 l n x : log_ok l -> Log.first l <= n <= Log.last l -> Log.body sha256 l n = Ok x -> blen x < U64.
Proof. intros Hl Hn Hx. pose proof (body_len zlib sha256 l n x Hl Hn Hx). width_lia. Qed.

Lemma anchor_id_no_panic l n : log_ok l -> Log.first l <= n <= Log.last l -> no_panic (anchor_id sha256 l n).
Proof.
  intros Hl Hn. unfold anchor_id. destruct (is_blocks (Log.kind l)); [|by apply ship_entry_id_no_panic].
  apply no_panic_bind; [by apply entry_body_no_panic|]. intros x Hx. apply id_no_panic. by eapply body_len64.
Qed.

Lemma check_anchor_no_panic d n id : log_ok d -> Log.first d <= n <= Log.last d -> no_panic (check_anchor sha256 src d n id).
Proof.
  intros Hd Hn. unfold check_anchor. apply no_panic_bind; [apply (block_no_panic zlib); done|]. intros found Hf.
  apply no_panic_bind; [auto with no_panic|]. intros b Hb%or_err_Ok. subst found. pose proof (block_len zlib sha256 src n b Hsrc Hf).
  apply no_panic_bind; [apply repair_header_no_panic; width_lia|]. intros h _. apply no_panic_bind; [auto with no_panic|intros _ _].
  apply no_panic_bind; [by apply ship_entry_id_no_panic|]. intros; auto with no_panic.
Qed.

(** Where the body of [n] comes from. *)
Definition source_body (donor : option Log.t) (n : Z) (packed : bytes) (h : Header) (body : bytes) : Prop :=
  match donor with
  | Some d => Log.body sha256 d n = Ok body /\ Log.id sha256 d n body = Ok (hd_id h)
  | None => body = packed
  end.

Context (donor : option Log.t) (after : option bytes) (last : Z).
Hypothesis Hdonor : forall d, donor = Some d -> log_ok d /\ last <= Log.last d.
Hypothesis Hafter : forall b, after = Some b -> blen b < U64.
Hypothesis Hlast : last <= Log.last log.

Lemma packed_block_spec n :
  match packed_block sha256 src after n last with Ok b => blen b < U64 | Err _ => True | Panic => False end.
Proof.
  assert (Hb : match (let? f := block sha256 src n in or_err f (FSourceLacks n)) with Ok b => blen b < U64 | Err _ => True | Panic => False end).
  { pose proof (block_no_panic zlib sha256 src n Hsrc) as Hnp. destruct (block sha256 src n) as [[b|]|e|] eqn:E; cbn [rbind or_err]; [|done|done|done].
    pose proof (block_len zlib sha256 src n b Hsrc E). width_lia. }
  unfold packed_block. destruct after as [b|] eqn:Ea; [|done]. destruct (n =? last); [by apply Hafter|done].
Qed.

(** The headers from [n] to the right anchor, linked to [expected], and the bodies before it. *)
Record chain (n : Z) (expected right_id : bytes) (bodies : list bytes) (hs : Z -> Header) : Prop := {
  ch_count : blen bodies = last - n;
  ch_links : forall m, n <= m <= last -> hd_number (hs m) = m /\ hd_previous (hs m) = (if m =? n then expected else hd_id (hs (m - 1)));
  ch_right : hd_id (hs last) = right_id;
  ch_blocks : forall m, n <= m <= last -> exists packed, packed_block sha256 src after m last = Ok packed /\ block_header sha256 packed = Ok (hs m) /\
    (m < last -> exists body, bodies !! Z.to_nat (m - n) = Some body /\ source_body donor m packed (hs m) body)
}.

Lemma upto_cons n m : n <= m -> upto n m = n :: upto (n + 1) m.
Proof. intros H. unfold upto. rewrite seqZ_cons by lia. f_equal. unfold Z.succ, Z.pred. f_equal; lia. Qed.

Lemma chain_one n expected right_id packed h :
  n = last -> packed_block sha256 src after n last = Ok packed -> block_header sha256 packed = Ok h -> hd_number h = n ->
  hd_previous h = expected -> hd_id h = right_id -> chain n expected right_id [] (fun _ => h).
Proof.
  intros -> Hp Hh Hn He Hr. split; [rewrite blen_nil; lia| |done|].
  - intros m Hm. rewrite (proj2 (Z.eqb_eq m last)) by lia. split; [lia|done].
  - intros m Hm. replace m with last by lia. exists packed. split; [done|]. split; [done|]. intros; lia.
Qed.

Lemma chain_cons n expected right_id packed h body bodies hs :
  n < last -> packed_block sha256 src after n last = Ok packed -> block_header sha256 packed = Ok h -> hd_number h = n ->
  hd_previous h = expected -> source_body donor n packed h body -> chain (n + 1) (hd_id h) right_id bodies hs ->
  chain n expected right_id (body :: bodies) (fun m => if m =? n then h else hs m).
Proof.
  intros Hlt Hp Hh Hn He Hb [Hc Hl Hr Hbs]. split.
  - rewrite blen_cons. lia.
  - intros m Hm. destruct (Z.eqb_spec m n) as [->|Hne]; [done|]. destruct (Hl m ltac:(lia)) as [-> ->]. split; [done|].
    destruct (Z.eqb_spec m (n + 1)) as [->|]; destruct (Z.eqb_spec (n + 1 - 1) n); try lia; [done|]. by rewrite (proj2 (Z.eqb_neq (m - 1) n)) by lia.
  - by rewrite (proj2 (Z.eqb_neq last n)) by lia.
  - intros m Hm. destruct (Z.eqb_spec m n) as [->|Hne].
    + exists packed. split; [done|]. split; [done|]. intros _. exists body. rewrite Z.sub_diag. done.
    + destruct (Hbs m ltac:(lia)) as (pk & ? & ? & Hx). exists pk. split; [done|]. split; [done|]. intros Hm'.
      destruct (Hx Hm') as (x & Hx' & ?). exists x. split; [|done].
      replace (Z.to_nat (m - n)) with (S (Z.to_nat (m - (n + 1)))) by lia. done.
Qed.

Lemma donor_body_spec n packed h :
  Log.first log <= n <= last -> (forall d, donor = Some d -> Log.first d <= n) ->
  match (match donor with
         | Some d => let? body := Log.body sha256 d n in let? id := Log.id sha256 d n body in
                     do? ensure (bool_decide (id = hd_id h)) (FShipId n) ;; Ok body
         | None => Ok packed end) with
  | Ok body => source_body donor n packed h body
  | Err _ => True
  | Panic => False
  end.
Proof.
  intros Hn Hd. unfold source_body. destruct donor as [d|]; [|done]. destruct (Hdonor d eq_refl) as [Hok Hl]. specialize (Hd d eq_refl).
  pose proof (entry_body_no_panic d n Hok ltac:(lia)) as Hnp. destruct (Log.body sha256 d n) as [x|e|] eqn:Ex; cbn [rbind]; [|done|done].
  pose proof (id_no_panic d n x (body_len64 d n x Hok ltac:(lia) Ex)) as Hid. destruct (Log.id sha256 d n x) as [id|e|] eqn:Ei; cbn [rbind]; [|done|done].
  destruct (bool_decide (id = hd_id h)) eqn:E; cbn [ensure rbind]; [|done]. bools. by subst.
Qed.

Lemma chain_blocks_spec k n expected right_id :
  k = Z.to_nat (last - n) -> Log.first log <= n <= last -> (forall d, donor = Some d -> Log.first d <= n) ->
  match chain_blocks sha256 log src donor after last right_id (upto n last) expected with
  | Ok (bodies, _) => exists hs, chain n expected right_id bodies hs
  | Err _ => True
  | Panic => False
  end.
Proof.
  revert n expected. induction k as [|k IH]; intros n expected Hk Hn Hd; rewrite upto_cons by lia; cbn [chain_blocks].
  all: pose proof (packed_block_spec n) as Hp; destruct (packed_block sha256 src after n last) as [packed|e|] eqn:Ep; cbn [rbind]; [|done|done].
  all: pose proof (repair_header_no_panic sha256 packed Hp) as Hh; destruct (block_header sha256 packed) as [h|e|] eqn:Eh; cbn [rbind]; [|done|done].
  all: destruct ((hd_number h =? n) && bool_decide (hd_previous h = expected)) eqn:E; cbn [ensure rbind]; [|done]; bools.
  all: pose proof (entry_bounds_no_panic log Hlog n ltac:(lia)) as Hbn; destruct (Log.bounds log n) as [ab|e|]; cbn [rbind]; [|done|done].
  - rewrite (proj2 (Z.eqb_eq n last)) by lia. destruct (bool_decide (hd_id h = right_id)) eqn:Er; cbn [ensure rbind]; [|done]. bools.
    exists (fun _ => h). apply (chain_one n expected right_id packed h); try done. lia.
  - rewrite (proj2 (Z.eqb_neq n last)) by lia. pose proof (donor_body_spec n packed h ltac:(lia) Hd) as Hb.
    destruct (match donor with Some d => _ | None => _ end) as [body|e|]; cbn [rbind]; [|done|done].
    specialize (IH (n + 1) (hd_id h) ltac:(lia) ltac:(lia) ltac:(intros d E'; specialize (Hd d E'); lia)).
    destruct (chain_blocks _ _ _ _ _ _ _ (upto (n + 1) last) _) as [[bodies hashed]|e|]; cbn [rbind fst]; [|done|done].
    destruct IH as [hs IH]. eexists. eapply chain_cons; try done. lia.
Qed.
End Chain.

(** ** Re-encoding *)
Section ReEncoding.
Context {F : Flate} {R : FlateReset F} (zlib : bytes -> option bytes) {L : FlateLaws F zlib}
  {RL : ResetLaws F zlib} (zlib_deflate : Z -> bytes -> option bytes) (sha256 : bytes -> bytes).

(** What is assumed of the encoders: a stream they give inflates to the payload. *)
Definition codecs_ok : Prop := forall c raw x,
  c ∈ candidates -> blen raw <= MAX_BYTES -> codec_encode zlib_deflate c raw = Ok x -> zlib x = Some raw /\ 2 <= blen x < U32.

Hypothesis Hcodecs : codecs_ok.

Definition payload_ok (p : bytes * bytes) : Prop := blen p.1 = 32 /\ blen p.2 <= MAX_BYTES.

Lemma ship_body_payload_ok x id raw : ship_body zlib x id raw -> payload_ok (id, raw).
Proof. intros (m & data & Hf & _ & Hr & _). split; [apply (fr_id _ _ _ _ _ Hf)|done]. Qed.

Lemma encode_spec id raw marker c :
  payload_ok (id, raw) -> is_u32 marker -> c ∈ candidates ->
  match encode_ship_with zlib_deflate id raw marker c with
  | Ok body => ship_body zlib body id raw /\ blen body < U64
  | Err _ => True
  | Panic => False
  end.
Proof.
  intros [Hid Hraw] Hm Hc. cbn [fst snd] in *. unfold encode_ship_with.
  assert (Hnp : codec_encode zlib_deflate c raw <> Panic) by (destruct c; [done|]; cbn [codec_encode]; by destruct (zlib_deflate level raw)).
  destruct (codec_encode zlib_deflate c raw) as [x|e|] eqn:Ex; cbn [rbind]; [|done|done].
  destruct (Hcodecs c raw x Hc Hraw Ex) as [Hz Hx]. fold (encoded_body id raw marker x).
  destruct (encoded_body_ok zlib id raw marker x Hid Hm Hraw Hz Hx) as [Hsb Hlt].
  rewrite (proj2 (checked_ship_id_Ok zlib _ id Hlt)) by (by exists raw). done.
Qed.

Lemma fitting_spec id raw marker body cs :
  payload_ok (id, raw) -> is_u32 marker -> (forall c, c ∈ cs -> c ∈ candidates) ->
  match fitting zlib_deflate id raw marker body cs with
  | Ok fs => forall c, c ∈ fs -> c ∈ candidates
  | Err _ => True
  | Panic => False
  end.
Proof.
  intros Hp Hm. induction cs as [|c cs IH]; intros Hcs; cbn [fitting]; [set_solver|].
  pose proof (encode_spec id raw marker c Hp Hm ltac:(set_solver)) as He.
  specialize (IH ltac:(set_solver)).
  destruct (encode_ship_with zlib_deflate id raw marker c) as [b|e|]; cbn [rbind]; [| |done].
  all: destruct (fitting _ _ _ _ _ cs) as [fs|e'|]; cbn [rbind]; [|done|done].
  - destruct (bool_decide (b = body)); set_solver.
  - done.
Qed.

(** A marker and codecs a region can be encoded with. *)
Definition calibration_ok (x : Z * list Codec) : Prop := is_u32 x.1 /\ forall c, c ∈ x.2 -> c ∈ candidates.

Lemma marker_u32 body : 52 <= blen body -> exists m, ship_marker body = Ok m /\ is_u32 m.
Proof.
  intros Hb. unfold ship_marker. destruct (u32_in_total body 48) as (v & -> & Hv); [lia|lia|]. cbn [rbind].
  exists (Z.min v 2). split; [done|]. width_lia.
Qed.

Lemma calibrate_at_spec log n st :
  log_ok log -> Log.first log <= n <= Log.last log -> (forall x, st = Some x -> calibration_ok x) ->
  match calibrate_at zlib_deflate sha256 log n st with
  | Ok st' => forall x, st' = Some x -> calibration_ok x
  | Err _ => True
  | Panic => False
  end.
Proof.
  intros Hlog Hn Hst. unfold calibrate_at. pose proof (entry_body_no_panic zlib sha256 log n Hlog Hn) as Hnp.
  destruct (Log.body sha256 log n) as [body|e|] eqn:Eb; [|done|done]. pose proof (body_len64 zlib sha256 log n body Hlog Hn Eb) as Hlen.
  pose proof (ship_payload_no_panic zlib body Hlen) as Hpp. destruct (ship_payload body) as [[id raw]|e|] eqn:Ep; cbn [rbind]; [|done|done].
  apply (ship_payload_Ok zlib) in Ep; [|done]. pose proof (ship_body_payload_ok _ _ _ Ep) as Hpo.
  destruct (ship_body_size zlib body id raw Hlen Ep) as (_ & H52 & _). destruct (marker_u32 body H52) as (m & Hm & Hmu). rewrite Hm. cbn [rbind fst snd].
  destruct (match st with Some (prev, _) => prev =? m | None => true end); cbn [ensure rbind]; [|done].
  pose proof (fitting_spec id raw m body candidates Hpo Hmu ltac:(done)) as Hf.
  destruct (fitting zlib_deflate id raw m body candidates) as [fs|e|]; cbn [rbind]; [|done|done].
  destruct (negb _); cbn [ensure rbind]; [|done]. intros x [= <-]. split; [done|]. cbn [snd].
  destruct st as [[prev pcs]|]; [|done]. intros c Hc. apply list_elem_of_In, filter_In in Hc as [Hc _]. apply list_elem_of_In in Hc.
  by apply (Hst (prev, pcs)).
Qed.

Lemma calibrate_spec log before_ after_ :
  log_ok log -> Log.first log <= before_ <= Log.last log -> Log.first log <= after_ <= Log.last log ->
  match calibrate zlib_deflate sha256 log before_ after_ with
  | Ok x => calibration_ok x
  | Err _ => True
  | Panic => False
  end.
Proof.
  intros Hlog Hb Ha. unfold calibrate. pose proof (calibrate_at_spec log before_ None Hlog Hb ltac:(done)) as H1.
  destruct (calibrate_at _ _ _ before_ None) as [st|e|]; cbn [rbind]; [|done|done].
  pose proof (calibrate_at_spec log after_ st Hlog Ha H1) as H2.
  destruct (calibrate_at _ _ _ after_ st) as [[x|]|e|]; cbn [rbind or_err]; [|done|done|done].
  destruct (negb _); cbn [ensure rbind]; [by apply H2|done].
Qed.

(** The bodies hold the payloads. *)
Definition holds_payloads (ps : list (bytes * bytes)) (bodies : list bytes) : Prop :=
  Forall2 (fun p b => ship_body zlib b p.1 p.2) ps bodies.

Lemma payloads_spec bodies :
  Forall (fun b => blen b < U64) bodies ->
  match payloads bodies with
  | Ok ps => holds_payloads ps bodies /\ Forall payload_ok ps
  | Err _ => True
  | Panic => False
  end.
Proof.
  induction 1 as [|b bodies Hb _ IH]; cbn [payloads]; [by split; constructor|].
  pose proof (ship_payload_no_panic zlib b Hb) as Hnp. destruct (ship_payload b) as [[id raw]|e|] eqn:Ep; cbn [rbind]; [|done|done].
  apply (ship_payload_Ok zlib) in Ep; [|done]. destruct (payloads bodies) as [ps|e|]; cbn [rbind]; [|done|done].
  destruct IH as [H1 H2]. split; constructor; try done. by apply (ship_body_payload_ok b).
Qed.

Lemma encode_all_spec marker c ps :
  is_u32 marker -> c ∈ candidates -> Forall payload_ok ps ->
  match encode_all zlib_deflate marker c ps with
  | Ok bodies => holds_payloads ps bodies
  | Err _ => True
  | Panic => False
  end.
Proof.
  intros Hm Hc. induction 1 as [|[id raw] ps Hp _ IH]; cbn [encode_all]; [constructor|].
  pose proof (encode_spec id raw marker c Hp Hm Hc) as He. destruct (encode_ship_with _ _ _ _ _) as [b|e|]; cbn [rbind fst snd]; [|done|done].
  destruct (encode_all _ _ _ ps) as [bs|e|]; cbn [rbind]; [|done|done]. constructor; [apply He|done].
Qed.

Section OneRegion.
Context (log : Log.t) (Hlog : log_ok log) (rs : Z) (r : Region) (Hr : region_shape log rs r) (rd : list (Z * bytes)).
Hypothesis Hrd : readable_parts (d_data (Log.log log)) (rg_span_start r) (rg_span_end r) (rg_extents r) rd.

(** A result that fits the region, for the payloads [ps]. *)
Definition fit_ok (ps : list (bytes * bytes)) (x : Codec * list bytes * bytes) : Prop :=
  assembled log r x.1.2 x.2 /\ holds_payloads ps x.1.2.

Lemma fits_of_spec marker ps cs fs :
  is_u32 marker -> (forall c, c ∈ cs -> c ∈ candidates) -> Forall payload_ok ps -> blen ps = rg_last r - rg_first r + 1 -> Forall (fit_ok ps) fs ->
  match fits_of zlib_deflate log r rd marker ps cs fs with
  | Ok fs' => Forall (fit_ok ps) fs'
  | Err _ => True
  | Panic => False
  end.
Proof.
  intros Hm Hcs Hps Hlen. revert fs Hcs. induction cs as [|c cs IH]; intros fs Hcs Hfs; cbn [fits_of]; [done|].
  pose proof (encode_all_spec marker c ps Hm ltac:(set_solver) Hps) as He.
  destruct (encode_all zlib_deflate marker c ps) as [bodies|e|]; cbn [rbind]; [|done|done].
  pose proof (Forall2_length He) as Hl. pose proof (assemble_spec log Hlog rs r Hr bodies rd ltac:(unfold blen in *; lia) Hrd) as Ha.
  destruct (assemble log r bodies rd) as [span|e|]; [| |done]; apply IH; try set_solver.
  destruct (bool_decide _); [done|]. apply Forall_app. split; [done|]. constructor; [|constructor]. done.
Qed.

Lemma translate_spec bodies :
  Forall (fun b => blen b < U64) bodies -> blen bodies = rg_last r - rg_first r + 1 ->
  match translate zlib_deflate sha256 log r bodies rd with
  | Ok (_, bodies', span) => assembled log r bodies' span /\ exists ps, holds_payloads ps bodies /\ holds_payloads ps bodies'
  | Err _ => True
  | Panic => False
  end.
Proof.
  intros Hb Hlen. unfold translate, source_range. pose proof (rg_anchors _ _ _ Hr) as Ha. pose proof (lo_last _ Hlog). pose proof (lo_first _ Hlog).
  replace (sub32 (rg_first r) 1) with (rg_first r - 1) by (symmetry; apply Z.mod_small; width_lia). rewrite add32_below by width_lia.
  pose proof (calibrate_spec log (rg_first r - 1) (rg_last r + 1) Hlog ltac:(lia) ltac:(lia)) as Hc.
  destruct (calibrate _ _ _ _ _) as [[marker codecs]|e|]; cbn [rbind]; [|done|done]. destruct Hc as [Hm Hcs]. cbn [fst snd] in *.
  pose proof (payloads_spec bodies Hb) as Hp. destruct (payloads bodies) as [ps|e|]; cbn [rbind]; [|done|done]. destruct Hp as [Hp Hpo].
  pose proof (Forall2_length Hp) as Hl. pose proof (fits_of_spec marker ps codecs [] Hm Hcs Hpo ltac:(unfold blen in *; lia) ltac:(constructor)) as Hf.
  destruct (fits_of _ _ _ _ _ _ _ _) as [fs|e|]; cbn [rbind]; [|done|done].
  destruct fs as [|[[c bodies'] span] [|]]; [done| |done]. apply list.Forall_cons in Hf as [[H1 H2] _]. split; [done|]. by exists ps.
Qed.
End OneRegion.
End ReEncoding.

(** ** A region *)
Section Regions.
Context {F : Flate} {R : FlateReset F} (zlib : bytes -> option bytes) {L : FlateLaws F zlib}
  {RL : ResetLaws F zlib} (zlib_deflate : Z -> bytes -> option bytes) (sha256 : bytes -> bytes).
Hypothesis Hcodecs : codecs_ok zlib zlib_deflate.

(** Donors of the kind of the log. *)
Definition donors_ok (log : Log.t) (src : Loaded) : Prop :=
  Forall log_ok (ld_donors src) /\ (is_blocks (Log.kind log) = false -> Forall (fun d => Log.kind d = Log.kind log) (ld_donors src)).

Lemma load_donors kind s src :
  sources_ok s -> load_with sha256 kind s = Ok src ->
  loaded_ok src /\ Forall log_ok (ld_donors src) /\ (is_blocks kind = false -> Forall (fun d => Log.kind d = kind) (ld_donors src)).
Proof.
  intros Hs H. pose proof (load_with_spec sha256 kind s Hs) as Hl. rewrite H in Hl. split; [done|].
  unfold load_with in H. guard H as H1. bind H as st Hst. bind H as ls Hls. guard H as H2. bind H as ds Hds. bind H as u Hu. injection H as <-.
  pose proof (open_logs_spec (so_donors s) (sk_donors _ Hs)) as Hd. rewrite Hds in Hd. split; [done|]. intros Hk. rewrite Hk in Hu. guard Hu as H3.
  apply ensure_Ok in Hu. rewrite forallb_forall in Hu. apply list.Forall_forall. intros d Hin. apply list_elem_of_In, Hu in Hin. by bools.
Qed.

Context (log : Log.t) (Hlog : log_ok log) (rs : Z) (r : Region) (Hr : region_shape log rs r).
Context (src : Loaded) (Hsrc : loaded_ok src) (Hdonors : donors_ok log src).

Lemma donor_for_spec n m d :
  donor_for src n m = Some d -> d ∈ ld_donors src /\ log_ok d /\ Log.first d <= n /\ m <= Log.last d.
Proof.
  intros H. apply List.find_some in H as [Hin Hb]. apply list_elem_of_In in Hin. bools. split; [done|].
  destruct Hdonors as [Hd _]. rewrite list.Forall_forall in Hd. by split; [apply Hd|].
Qed.

(** The bodies laid out are those of the chain, or hold the same payloads. *)
Definition same_entries (source bodies : list bytes) : Prop :=
  bodies = source \/ is_blocks (Log.kind log) = false /\ exists ps, holds_payloads zlib ps source /\ holds_payloads zlib ps bodies.

Definition donor_of (donor : option Log.t) (after : option bytes) : Prop :=
  if is_blocks (Log.kind log) then donor = None /\ is_Some after
  else after = None /\ exists d, donor = Some d /\ d ∈ ld_donors src /\ log_ok d /\ Log.first d <= rg_first r - 1 /\ rg_last r + 1 <= Log.last d.

(** What [rebuild_region] gives: the pieces cut from an assembled span of entries the chain supplies. *)
Definition rebuilt_region (out : bytes) : Prop :=
  exists ps source bodies span hs donor after left_id right_id,
    anchor_id sha256 log (rg_first r - 1) = Ok left_id /\ anchor_id sha256 log (rg_last r + 1) = Ok right_id /\
    donor_of donor after /\ chain sha256 src donor after (rg_last r + 1) (rg_first r) left_id right_id source hs /\
    same_entries source bodies /\ assembled log r bodies span /\
    ps.*1 = rg_extents r /\ out = concat ps.*2 /\
    Forall (fun q => slice span (x_offset q.1 - rg_span_start r) (x_len q.1) = Some q.2) ps.

Lemma source_bodies_len donor after left_id right_id source hs :
  donor_of donor after -> chain sha256 src donor after (rg_last r + 1) (rg_first r) left_id right_id source hs ->
  Forall (fun b => blen b < U64) source.
Proof.
  intros Hd [Hc _ _ Hb]. pose proof (rg_anchors _ _ _ Hr) as Ha. apply list.Forall_forall. intros x Hx. apply list_elem_of_lookup in Hx as [i Hi].
  pose proof (lookup_lt_Some _ _ _ Hi) as Hlt. destruct (Hb (rg_first r + Z.of_nat i)) as (packed & Hp & _ & Hbody); [unfold blen in Hc; lia|].
  destruct Hbody as (body & Hbi & Hs); [unfold blen in Hc; lia|]. replace (Z.to_nat (rg_first r + Z.of_nat i - rg_first r)) with i in Hbi by lia.
  assert (body = x) as -> by congruence. unfold donor_of in Hd. unfold source_body in Hs. unfold packed_block in Hp. destruct (is_blocks (Log.kind log)).
  - destruct Hd as [-> [b Hb']]. subst after x. rewrite (proj2 (Z.eqb_neq _ _)) in Hp by (unfold blen in Hc; lia).
    bind Hp as f Hf. apply or_err_Ok in Hp as ->. pose proof (block_len zlib sha256 src _ _ Hsrc Hf). width_lia.
  - destruct Hd as (_ & d & -> & _ & Hok & H1 & H2). destruct Hs as [Hs _]. apply (body_len64 zlib sha256 d (rg_first r + Z.of_nat i) x Hok); [unfold blen in Hc; lia|done].
Qed.

Lemma donor_of_ok donor after : donor_of donor after -> forall d, donor = Some d -> log_ok d /\ rg_last r + 1 <= Log.last d.
Proof. unfold donor_of. destruct (is_blocks (Log.kind log)); [intros [-> _]; done|]. intros (_ & d' & -> & ? & ? & ? & ?) d [= <-]. done. Qed.

Lemma donor_of_first donor after : donor_of donor after -> forall d, donor = Some d -> Log.first d <= rg_first r.
Proof. unfold donor_of. destruct (is_blocks (Log.kind log)); [intros [-> _]; done|]. intros (_ & d' & -> & ? & ? & ? & ?) d [= <-]. lia. Qed.

Lemma donor_step left_id right_id after :
  (if is_blocks (Log.kind log) then is_Some after else after = None) ->
  match (if is_blocks (Log.kind log) then Ok None
         else
           let? d := or_err (donor_for src (rg_first r - 1) (rg_last r + 1)) (FNoDonorCovers (rg_first r - 1) (rg_last r + 1)) in
           do? check_anchor sha256 src d (rg_first r - 1) left_id ;;
           do? check_anchor sha256 src d (rg_last r + 1) right_id ;;
           Ok (Some d)) with
  | Ok donor => donor_of donor after
  | Err _ => True
  | Panic => False
  end.
Proof.
  intros Hak. unfold donor_of. pose proof (rg_anchors _ _ _ Hr) as Ha. destruct (is_blocks (Log.kind log)); [done|].
  destruct (donor_for src (rg_first r - 1) (rg_last r + 1)) as [d|] eqn:Ed; cbn [or_err rbind]; [|done].
  apply donor_for_spec in Ed as (Hin & Hok & H1 & H2).
  pose proof (check_anchor_no_panic zlib sha256 src Hsrc d (rg_first r - 1) left_id Hok ltac:(lia)) as Hn1.
  destruct (check_anchor sha256 src d (rg_first r - 1) left_id) as [u|e|]; cbn [rbind]; [|done|done].
  pose proof (check_anchor_no_panic zlib sha256 src Hsrc d (rg_last r + 1) right_id Hok ltac:(lia)) as Hn2.
  destruct (check_anchor sha256 src d (rg_last r + 1) right_id) as [v|e|]; cbn [rbind]; [|done|done].
  split; [done|]. by exists d.
Qed.

Lemma entries_step source rd :
  Forall (fun b => blen b < U64) source -> blen source = rg_last r - rg_first r + 1 ->
  readable_parts (d_data (Log.log log)) (rg_span_start r) (rg_span_end r) (rg_extents r) rd ->
  match (match assemble log r source rd with
         | Ok span => Ok (AsIs, source, span)
         | Err e => if is_blocks (Log.kind log) then Err e else translate zlib_deflate sha256 log r source rd
         | Panic => Panic
         end) with
  | Ok (_, bodies, span) => assembled log r bodies span /\ same_entries source bodies
  | Err _ => True
  | Panic => False
  end.
Proof.
  intros Hl Hc Hg. pose proof (assemble_spec log Hlog rs r Hr source rd Hc Hg) as Hs. unfold same_entries.
  destruct (assemble log r source rd) as [span|e|]; [split; [done|by left]| |done]. destruct (is_blocks (Log.kind log)); [done|].
  pose proof (translate_spec zlib zlib_deflate sha256 Hcodecs log Hlog rs r Hr rd Hg source Hl Hc) as Ht.
  destruct (translate _ _ _ _ _ _) as [[[enc bodies] span]|e'|]; [|done|done]. destruct Ht as [Ht (ps & ? & ?)]. split; [done|]. right. split; [done|]. by exists ps.
Qed.

Lemma rebuild_region_spec :
  match rebuild_region zlib_deflate sha256 log src r with
  | Ok (out, _, _) => rebuilt_region out
  | Err _ => True
  | Panic => False
  end.
Proof.
  pose proof (rg_anchors _ _ _ Hr) as Ha. pose proof (lo_last _ Hlog). pose proof (lo_first _ Hlog). pose proof (geo_span_range log Hlog rs r Hr) as (Hspan & Hend & Hsz).
  unfold rebuild_region, source_range.
  replace (sub32 (rg_first r) 1) with (rg_first r - 1) by (symmetry; apply Z.mod_small; width_lia). rewrite add32_below by width_lia.
  assert (Hafter : match (if is_blocks (Log.kind log) then let? b := Log.body sha256 log (rg_last r + 1) in Ok (Some b) else Ok None) with
    | Ok after => (forall b, after = Some b -> blen b < U64) /\ (if is_blocks (Log.kind log) then is_Some after else after = None)
    | Err _ => True | Panic => False end).
  { destruct (is_blocks (Log.kind log)); [|done]. pose proof (entry_body_no_panic zlib sha256 log (rg_last r + 1) Hlog ltac:(lia)) as Hnp.
    destruct (Log.body sha256 log (rg_last r + 1)) as [b|e|] eqn:E; cbn [rbind]; [|done|done]. split; [|by eexists].
    intros ? [= <-]. by apply (body_len64 zlib sha256 log (rg_last r + 1)); [done|lia|]. }
  destruct (if is_blocks (Log.kind log) then _ else _) as [after|e|]; cbn [rbind]; [|done|done]. destruct Hafter as [Hal Hak].
  pose proof (anchor_id_no_panic zlib sha256 log (rg_first r - 1) Hlog ltac:(lia)) as Hnl.
  destruct (anchor_id sha256 log (rg_first r - 1)) as [left_id|e|] eqn:El; cbn [rbind]; [|done|done].
  pose proof (anchor_id_no_panic zlib sha256 log (rg_last r + 1) Hlog ltac:(lia)) as Hnr.
  destruct (anchor_id sha256 log (rg_last r + 1)) as [right_id|e|] eqn:Er; cbn [rbind]; [|done|done].
  pose proof (donor_step left_id right_id after Hak) as Hdon.
  match goal with |- context [rbind (if is_blocks (Log.kind log) then Ok None else ?x) _] => set (dr := if is_blocks (Log.kind log) then Ok None else x) in * end.
  destruct dr as [donor|e|]; cbn [rbind]; [|done|done].
  pose proof (chain_blocks_spec zlib sha256 log Hlog src Hsrc donor after (rg_last r + 1)) as Hc.
  specialize (Hc (donor_of_ok donor after Hdon) Hal ltac:(lia) _ (rg_first r) left_id right_id eq_refl ltac:(lia) (donor_of_first donor after Hdon)).
  destruct (chain_blocks _ _ _ _ _ _ _ _ _) as [[source hashed]|e|]; cbn [rbind]; [|done|done]. destruct Hc as [hs Hc].
  pose proof (source_bodies_len _ _ _ _ _ _ Hdon Hc) as Hlens. pose proof (ch_count _ _ _ _ _ _ _ _ _ _ Hc) as Hcount.
  pose proof (read_gaps_spec log rs (rg_span_start r) (rg_span_end r) (rg_extents r) ltac:(lia) ltac:(lia) (rg_whole _ _ _ Hr) (rg_sorted _ _ _ Hr) (rg_inside _ _ _ Hr)) as Hg.
  destruct (read_gaps log _ _) as [rd|e|]; cbn [rbind]; [|done|done].
  pose proof (entries_step source rd Hlens ltac:(lia) Hg) as Hx.
  destruct (match assemble log r source rd with Ok _ => _ | Err _ => _ | Panic => _ end) as [[[enc bodies] span]|e|]; cbn [rbind]; [|done|done].
  destruct Hx as [Hasm Hsame]. pose proof (cut_extents_spec log Hlog rs r Hr span (rg_extents r) (as_len _ _ _ _ Hasm) ltac:(done)) as Hcut.
  destruct (cut_extents span (rg_span_start r) (rg_extents r)) as [out|e|]; cbn [rbind]; [|done|done].
  destruct Hcut as (ps & Hps & Hout & Hcut). by exists ps, source, bodies, span, hs, donor, after, left_id, right_id.
Qed.
(** The log with other bytes in its file. *)
Definition with_data (l : Log.t) (data : bytes) : Log.t :=
  Log.mk (mkDisk data (d_sys (Log.log l))) (Log.index l) (Log.kind l) (Log.first l) (Log.last l) (Log.size l).

(** The entry of [n] once the pieces are written: the trusted block itself, or an entry with its id and a donor's payload. *)
Definition repaired (ps : list (Extent * bytes)) (n : Z) (h : Header) : Prop :=
  exists b x, block sha256 src n = Ok (Some b) /\ block_header sha256 b = Ok h /\
    entry_is zlib sha256 (with_data log (patched (d_data (Log.log log)) ps)) n x (hd_id h) /\
    if is_blocks (Log.kind log) then x = b
    else exists d y raw, d ∈ ld_donors src /\ Log.body sha256 d n = Ok y /\ ship_body zlib y (hd_id h) raw /\ ship_body zlib x (hd_id h) raw.

(** The body of a chain's block [n], and what [same_entries] makes of it. *)
Lemma entry_body donor after left_id right_id source bodies hs n :
  donor_of donor after -> chain sha256 src donor after (rg_last r + 1) (rg_first r) left_id right_id source hs -> same_entries source bodies ->
  rg_first r <= n <= rg_last r ->
  exists b x, bodies !! Z.to_nat (n - rg_first r) = Some x /\ block sha256 src n = Ok (Some b) /\ block_header sha256 b = Ok (hs n) /\
    body_of zlib sha256 (Log.kind log) n x (hd_id (hs n)) /\
    if is_blocks (Log.kind log) then x = b
    else exists d y raw, d ∈ ld_donors src /\ Log.body sha256 d n = Ok y /\ ship_body zlib y (hd_id (hs n)) raw /\ ship_body zlib x (hd_id (hs n)) raw.
Proof.
  intros Hd Hc Hse Hn. pose proof (source_bodies_len _ _ _ _ _ _ Hd Hc) as Hlens. destruct Hc as [Hcount Hlinks _ Hbs].
  destruct (Hbs n ltac:(lia)) as (packed & Hp & Hh & Hbody). destruct (Hbody ltac:(lia)) as (y & Hy & Hsb). destruct (Hlinks n ltac:(lia)) as [Hnum _].
  assert (Hyl : blen y < U64) by (rewrite list.Forall_forall in Hlens; apply Hlens; by eapply list_elem_of_lookup_2).
  assert (Hblk : block sha256 src n = Ok (Some packed)).
  { unfold packed_block in Hp. destruct after as [a|]; [rewrite (proj2 (Z.eqb_neq n (rg_last r + 1))) in Hp by lia|];
      bind Hp as f Hf; apply or_err_Ok in Hp as ->; done. }
  exists packed. unfold donor_of in Hd. unfold source_body in Hsb. unfold same_entries in Hse. unfold body_of.
  destruct (is_blocks (Log.kind log)) eqn:Hk.
  - destruct Hd as [-> _]. subst y. destruct Hse as [->|[? _]]; [|done]. exists packed. do 3 (split; [done|]). split; [by exists (hs n)|done].
  - destruct Hd as (_ & d & -> & Hin & Hok & _). destruct Hsb as [Hb Hid].
    assert (Hkd : Log.kind d = Log.kind log) by (destruct Hdonors as [_ Hkk]; specialize (Hkk Hk); rewrite list.Forall_forall in Hkk; by apply Hkk).
    pose proof (id_spec zlib sha256 d n y Hyl) as Hids. rewrite Hid in Hids. unfold body_of in Hids. rewrite Hkd, Hk in Hids. destruct Hids as [[raw Hraw] Hnid].
    destruct Hse as [->|(_ & ps & Hps & Hps')].
    + exists y. do 3 (split; [done|]). split; [split; [by exists raw|done]|]. by exists d, y, raw.
    + destruct (Forall2_lookup_r _ _ _ _ _ Hps Hy) as ([i q] & Hq & Hqy). destruct (Forall2_lookup_l _ _ _ _ _ Hps' Hq) as (x & Hx & Hqx). cbn [fst snd] in *.
      destruct (ship_body_inj zlib _ _ _ _ _ Hyl Hraw Hqy) as [-> ->]. exists x. do 3 (split; [done|]). split; [split; [by exists raw|done]|]. by exists d, y, raw.
Qed.

Lemma pos_is_with_data data n p : pos_is (with_data log data) n p <-> pos_is log n p.
Proof. done. Qed.

Lemma rebuilt_entries out :
  rebuilt_region out ->
  exists ps hs left_id, ps.*1 = rg_extents r /\ concat ps.*2 = out /\ Forall (fits (Log.size log)) ps /\
    anchor_id sha256 log (rg_first r - 1) = Ok left_id /\ anchor_id sha256 log (rg_last r + 1) = Ok (hd_id (hs (rg_last r + 1))) /\
    (forall n, rg_first r <= n <= rg_last r + 1 ->
       hd_number (hs n) = n /\ hd_previous (hs n) = (if n =? rg_first r then left_id else hd_id (hs (n - 1)))) /\
    forall n, rg_first r <= n <= rg_last r -> repaired ps n (hs n).
Proof.
  intros (ps & source & bodies & span & hs & donor & after & left_id & right_id & Hleft & Hright & Hd & Hc & Hse & Hasm & Hps & Hout & Hcut).
  destruct (patched_span log Hlog rs r Hr bodies span ps Hasm Hps Hcut) as [Hfits Hspan]. exists ps, hs, left_id.
  pose proof (ch_count _ _ _ _ _ _ _ _ _ _ Hc) as Hcount. pose proof (rg_anchors _ _ _ Hr) as Ha.
  do 4 (split; [done|]). split; [by rewrite (ch_right _ _ _ _ _ _ _ _ _ _ Hc)|]. split; [apply (ch_links _ _ _ _ _ _ _ _ _ _ Hc)|].
  intros n Hn. destruct (entry_body _ _ _ _ _ _ _ n Hd Hc Hse Hn) as (b & x & Hx & Hblk & Hh & Hbody & Hkind).
  exists b, x. do 2 (split; [done|]). split; [|done].
  assert (Hlen : blen bodies = blen source).
  { destruct Hse as [->|(_ & qs & H1 & H2)]; [done|]. apply Forall2_length in H1, H2. unfold blen. lia. }
  destruct (laid_slice log Hlog (rg_first r) bodies span (rg_span_start r) _ x ltac:(lia) ltac:(lia) (as_laid _ _ _ _ Hasm) (rg_starts _ _ _ Hr) Hx)
    as (a & e & es & Hb & Hes & Hesb & Hsa & Hse' & Hsl).
  replace (rg_first r + Z.of_nat (Z.to_nat (n - rg_first r))) with n in Hb by lia.
  pose proof (bounds_spec log n Hlog ltac:(lia)) as Hbs. rewrite Hb in Hbs. destruct Hbs as (Hpa & Hpb & Hlt & Hmin).
  exists a, e, es. rewrite !pos_is_with_data. do 5 (split; [done|]). split; [|done]. cbn [with_data Log.log d_data].
  rewrite (slice_slice _ _ _ _ _ _ Hspan) in Hsl by lia. replace (rg_span_start r + (a - rg_span_start r)) with a in Hsl by lia. done.
Qed.

Lemma rebuilt_len out : rebuilt_region out -> blen out = total (rg_extents r).
Proof.
  intros (ps & source & bodies & span & hs & donor & after & left_id & right_id & _ & _ & _ & _ & _ & _ & <- & -> & Hcut).
  induction Hcut as [|q ps Hq _ IH]; [done|]. rewrite !fmap_cons. cbn [concat total foldr]. fold (total ps.*1). rewrite blen_app, IH.
  apply slice_blen in Hq. lia.
Qed.
End Regions.

(** ** The whole target *)
Section Targets.
Context {F : Flate} {R : FlateReset F} (zlib : bytes -> option bytes) {L : FlateLaws F zlib}
  {RL : ResetLaws F zlib} (zlib_deflate : Z -> bytes -> option bytes) (sha256 : bytes -> bytes) (json : Target -> bytes).
Hypothesis Hcodecs : codecs_ok zlib zlib_deflate.
Context (log : Log.t) (Hlog : log_ok log) (rs : Z) (src : Loaded) (Hsrc : loaded_ok src) (Hdonors : donors_ok log src).

Lemma extents_total_app es fs : total (es ++ fs) = total es + total fs.
Proof. unfold total. induction es as [|e es IH]; simpl; [done|]. lia. Qed.

Lemma rebuild_regions_spec regions :
  Forall (region_shape log rs) regions ->
  match rebuild_regions zlib_deflate sha256 log src regions with
  | Ok (out, _, _) => exists outs, out = concat outs /\ Forall2 (fun r out => rebuilt_region zlib sha256 log r src out) regions outs /\ blen out = total (region_extents regions)
  | Err _ => True
  | Panic => False
  end.
Proof.
  induction 1 as [|r regions Hr _ IH]; cbn [rebuild_regions]; [by exists []|].
  pose proof (rebuild_region_spec zlib zlib_deflate sha256 Hcodecs log Hlog rs r Hr src Hsrc Hdonors) as H1.
  destruct (rebuild_region _ _ _ _ r) as [[[out hashed] enc]|e|]; cbn [rbind]; [|done|done].
  destruct (rebuild_regions _ _ _ _ regions) as [[[rest hashed'] encs]|e|]; cbn [rbind fst snd]; [|done|done].
  destruct IH as (outs & -> & Hall & Hlen). exists (out :: outs). split; [done|]. split; [by constructor|].
  change (region_extents (r :: regions)) with (rg_extents r ++ region_extents regions).
  rewrite blen_app, extents_total_app, Hlen. f_equal. by eapply rebuilt_len.
Qed.

Lemma rebuild_spec t :
  Forall (region_shape log rs) (tg_regions t) ->
  match rebuild zlib_deflate sha256 json log t src with
  | Ok rb => exists outs, rb_replacement rb = concat outs /\ Forall2 (fun r out => rebuilt_region zlib sha256 log r src out) (tg_regions t) outs /\
      blen (rb_replacement rb) = total (extents_of t)
  | Err _ => True
  | Panic => False
  end.
Proof.
  intros Hr. unfold rebuild. pose proof (disk_read_no_panic (Log.log log) 0 (if is_blocks (Log.kind log) then 8 else 48) ltac:(lia) ltac:(by destruct (is_blocks _))) as Hnp.
  destruct (read (Log.log log) 0 _) as [h|e|]; cbn [rbind]; [|done|done]. pose proof (rebuild_regions_spec _ Hr) as H.
  destruct (rebuild_regions _ _ _ _ _) as [[[out hashed] encs]|e|]; cbn [rbind fst snd]; [|done|done].
  destruct H as (outs & ? & ? & Hl). exists outs. rewrite extents_of_regions. done.
Qed.
End Targets.

(** ** Properties *)

(** Example: the damage of [TargetFacts.v], with block 2 in a container. *)
Definition exa_container : bytes := match encode_container [(2, exa_block2)] with Ok b => b | _ => [] end.
Definition exa_sources : Sources := mkSources [sound_disk exa_container] [] [].
Definition exa_json (t : Target) : bytes := [].
Definition exa_src : Loaded := match load_with exf_sha Blocks exa_sources with Ok src => src | _ => mkLoaded [] [] [] end.
Definition exa_rebuilt : Rebuilt :=
  match rebuild (R := level0_reset) (fun _ _ => None) exf_sha exa_json exa_opened exa_target exa_src with Ok rb => rb | _ => mkRebuilt [] [] [] end.

Lemma exa_sources_ok : sources_ok exa_sources.
Proof. split; [constructor; [vm_compute; reflexivity|constructor]|constructor|constructor]. Qed.

Lemma exa_codecs : codecs_ok zlib_level0 (fun _ _ => None).
Proof.
  intros c raw x Hc Hraw Hx. destruct c as [block ef|level]; [|discriminate Hx].
  assert (Hb : 0 < block < 65536).
  { apply list_elem_of_In in Hc. vm_compute in Hc. intuition (try congruence).
    all: match goal with H : Stored _ _ = _ |- _ => injection H as <- _ end; vm_compute; intuition congruence. }
  destruct (stored_codec_ok (fun _ _ => None) block ef raw Hb Hraw) as (y & Hy & ? & ?). rewrite Hx in Hy. injection Hy as <-. done.
Qed.


(** C9: for a region of a target, [rebuild_region] gives bytes that, written into the extents, make every entry of the
    region whole at its index position: in a block log the trusted block itself, in a SHIP log an entry with the id
    of the trusted block and a donor's payload, whether the donor's bytes fit as they are or were encoded again. The
    trusted headers form one chain from the id of the left anchor to the id of the right one. It does not panic. *)
Theorem rebuild_region_exact (F : Flate) (R : FlateReset F) (zlib : bytes -> option bytes) (L : FlateLaws F zlib) (RL : ResetLaws F zlib)
    (zlib_deflate : Z -> bytes -> option bytes) (sha256 : bytes -> bytes) (k : Kind) (disk index : Disk) (log : Log.t)
    (rs : Z) (es : list Extent) (t : Target) (r : Region) (s : Sources) (src : Loaded)
    (Hcodecs : codecs_ok zlib zlib_deflate) (Hdisk : disk_ok disk) (Hopen : Log.from_disks k disk index = Ok log)
    (Hes : Forall extent_u64 es) (Ht : target_new log rs es = Ok t) (Hr : r ∈ tg_regions t)
    (Hs : sources_ok s) (Hload : load_with sha256 k s = Ok src) :
  match rebuild_region zlib_deflate sha256 log src r with
  | Ok (out, _, _) =>
      exists ps hs left_id, ps.*1 = rg_extents r /\ concat ps.*2 = out /\ Forall (fits (Log.size log)) ps /\
        anchor_id sha256 log (rg_first r - 1) = Ok left_id /\ anchor_id sha256 log (rg_last r + 1) = Ok (hd_id (hs (rg_last r + 1))) /\
        (forall n, rg_first r <= n <= rg_last r + 1 ->
           hd_number (hs n) = n /\ hd_previous (hs n) = (if n =? rg_first r then left_id else hd_id (hs (n - 1)))) /\
        forall n, rg_first r <= n <= rg_last r -> repaired zlib sha256 log src ps n (hs n)
  | Err _ => True
  | Panic => False
  end.
Proof.
  destruct (from_disks_ok _ _ _ _ Hdisk Hopen) as (Hlog & Hk & _ & _). pose proof (target_new_spec log rs es Hlog Hes) as Hg. rewrite Ht in Hg.
  destruct Hg as (_ & _ & Hg). pose proof (tk_regions _ _ _ _ Hg) as Hrs. rewrite list.Forall_forall in Hrs. pose proof (rg_shape _ _ _ (Hrs r Hr)) as Hshape.
  destruct (load_donors sha256 k s src Hs Hload) as (Hsrc & Hd & Hkd). assert (Hdon : donors_ok log src) by (split; [done|by rewrite Hk]).
  pose proof (rebuild_region_spec zlib zlib_deflate sha256 Hcodecs log Hlog rs r Hshape src Hsrc Hdon) as H.
  destruct (rebuild_region _ _ _ _ _) as [[[out hashed] enc]|e|]; [|done|done]. by apply (rebuilt_entries zlib sha256 log Hlog rs r Hshape src Hsrc Hdon).
Qed.

Lemma rebuild_region_exact_witness :
  exists ps hs, ps.*1 = [mkExtent 512 512] /\ concat ps.*2 = List.repeat xab 512 /\ repaired (R := level0_reset) zlib_level0 exf_sha exa_opened exa_src ps 2 (hs 2).
Proof.
  pose proof (rebuild_region_exact level0 level0_reset zlib_level0 level0_laws level0_reset_laws (fun _ _ => None) exf_sha Blocks
    (mkDisk exa_torn exa_fails) exa_index exa_opened 512 [mkExtent 512 512] exa_target exa_region exa_sources exa_src exa_codecs
    ltac:(vm_compute; reflexivity) exa_opens) as H.
  specialize (H ltac:(constructor; [split; vm_compute; split; congruence|constructor])). specialize (H ltac:(vm_compute; reflexivity) ltac:(left) exa_sources_ok ltac:(vm_compute; reflexivity)).
  destruct (rebuild_region (R := level0_reset) (fun _ _ => None) exf_sha exa_opened exa_src exa_region) as [[[out hashed] enc]|e|] eqn:E.
  2,3: vm_compute in E; discriminate E.
  destruct H as (ps & hs & left_id & H1 & H2 & _ & _ & _ & _ & H). exists ps, hs. split; [exact H1|]. split; [|apply H; vm_compute; split; congruence].
  rewrite H2. assert (Eo : match rebuild_region (R := level0_reset) (fun _ _ => None) exf_sha exa_opened exa_src exa_region with Ok (o, _, _) => o | _ => [] end = List.repeat xab 512)
    by (vm_compute; reflexivity). rewrite E in Eo. exact Eo.
Defined.
