(* ===== verification/Apply.v ===== *)
(** * Repairing a log in place ([crates/log-repair/src/repair.rs], [write_extent] of [io.rs])

    [build] makes a plan: the target, the sources and the bytes to write. [apply] reads an approved plan,
    derives everything in it again from the log and the sources, and writes the replacement into the extents that
    cannot be read, each with one call; then it reads all of it back and walks the repaired entries.

    The log's bytes are the state. What the system answers to reads changes with time: [World] counts the moments
    at which it may, and [Media] gives the answers of each. The locks, the other openers, the stamps and the paths
    of the files, and the journal and receipt the program leaves beside the plan, succeed or fail as [md_check]
    says; the parser of [plan.json] and sha256 are parameters. *)

From stdpp Require Import pretty.
From S2P Require Import Prelude.
From S2P Require Import Errors.
From S2P Require Import Cursor.
From S2P Require Import Binio.
From S2P Require Import Zlib.
From S2P Require Import Framing.
From S2P Require Import Disk.
From S2P Require Import ShipPayload.
From S2P Require Import RepairLog.
From S2P Require Import TailWalk.
From S2P Require Import Recover.
From S2P Require Import Target.
From S2P Require Import Rebuild.

#[local] Open Scope Z_scope.

(** ** The state of an extent *)

Inductive State := Unreadable | Identical | Differs.

#[export] Instance State_eq_dec : EqDecision State.
Proof. solve_decision. Defined.

Section Extents.
Context (d : Disk) (record_size : Z).

Definition record_state_iter (e : Extent) (expected : bytes) (a : Z * bool) : M fault () (ctl (Z * bool) State) :=
  let '(pos, unreadable) := a in
  if pos <? x_end e then
    match read d pos record_size with
    | Ok have =>
        let! want := slift (or_panic (slice expected (pos - x_offset e) record_size)) in
        if bool_decide (have = want) then sret (Cont (add64 pos record_size, unreadable)) else sret (Break Differs)
    | Err err => if media_error err then sret (Cont (add64 pos record_size, true)) else sfail err
    | Panic => spanic
    end
  else sret (Break (if unreadable : bool then Unreadable else Identical)).

Definition extent_state (e : Extent) (expected : bytes) : res fault State :=
  match read d (x_offset e) (x_len e) with
  | Ok have => Ok (if bool_decide (have = expected) then Identical else Differs)
  | Err err => if media_error err then (loop_ (record_state_iter e expected) (x_offset e, false) ()).1 else Err err
  | Panic => Panic
  end.

(** The states of all extents, none of which may differ. *)
Fixpoint extent_states (ps : list (Extent * bytes)) : res fault (list State) :=
  match ps with
  | [] => Ok []
  | (e, piece) :: ps =>
      let? s := extent_state e piece in
      do? ensure (negb (bool_decide (s = Differs))) (FOverwrite (x_offset e)) ;;
      let? ss := extent_states ps in
      Ok (s :: ss)
  end.

(** The extents are as they were. *)
Fixpoint states_still (ps : list (Extent * bytes)) (states : list State) : res fault () :=
  match ps with
  | [] => Ok ()
  | (e, piece) :: ps =>
      let? s := extent_state e piece in
      let? was := or_panic (head states) in
      do? ensure (bool_decide (s = was)) FStateChanged ;;
      states_still ps (tail states)
  end.

Fixpoint all_identical (ps : list (Extent * bytes)) : res fault () :=
  match ps with
  | [] => Ok ()
  | (e, piece) :: ps =>
      let? s := extent_state e piece in
      do? ensure (bool_decide (s = Identical)) (FReadBackExtent (x_offset e)) ;;
      all_identical ps
  end.
End Extents.

(** The replacement of each extent. *)
Fixpoint pieces (es : list Extent) (replacement : bytes) (at_ : Z) : res fault (list (Extent * bytes)) :=
  match es with
  | [] => Ok []
  | e :: es =>
      let? p := or_panic (slice replacement at_ (x_len e)) in
      let? ps := pieces es replacement (at_ + x_len e) in
      Ok ((e, p) :: ps)
  end.

(** The extents to write. *)
Definition pending (ps : list (Extent * bytes)) (states : list State) : list (Extent * bytes) :=
  fst <$> List.filter (fun x => bool_decide (x.2 = Unreadable)) (zip ps states).

(** ** The log as it changes *)

(** What [write_at] answers: how many bytes reach the file, and whether it fails; then whether [sync_all] does. *)
Record wrote := mkWrote { wr_count : Z; wr_error : option Z; wr_sync : option Z }.

(** The system, at each moment. *)
Record Media := mkMedia {
  md_sys : nat -> Z -> Z -> list sys;
  md_write : nat -> Z -> bytes -> wrote;
  md_check : nat -> option fault
}.

Record World := mkWorld { w_data : bytes; w_tick : nat }.

Section Applying.
Context {F : Flate} {R : FlateReset F} (zlib_deflate : Z -> bytes -> option bytes) (sha256 : bytes -> bytes).
Context (json : Target -> bytes) (media : Media).

Definition disk_now (w : World) : Disk := mkDisk (w_data w) (md_sys media (w_tick w)).

Definition log_now (l : Log.t) (w : World) : Log.t :=
  Log.mk (disk_now w) (Log.index l) (Log.kind l) (Log.first l) (Log.last l) (Log.size l).

(** A computation on the log as it is. *)
Definition on_log {A} (l : Log.t) (f : Log.t -> res fault A) : M fault World A := fun w => (f (log_now l w), w).

Definition later (w : World) : World := mkWorld (w_data w) (S (w_tick w)).

(** The checks of locks, stamps, paths and journals. *)
Definition check : M fault World () := fun w =>
  match md_check media (w_tick w) with
  | Some e => (Err e, later w)
  | None => (Ok (), later w)
  end.

Definition write_extent (offset : Z) (x : bytes) : M fault World () := fun w =>
  let a := md_write media (w_tick w) offset x in
  let n := Z.max 0 (Z.min (wr_count a) (blen x)) in
  let w := mkWorld (if n =? 0 then w_data w else put (w_data w) offset (take (Z.to_nat n) x)) (S (w_tick w)) in
  match wr_error a, wr_sync a with
  | Some errno, _ => (Err (FIo (OsError errno)), w)
  | None, Some errno => (Err (FIo (OsError errno)), w)
  | None, None => (ensure (n =? blen x) FShortWrite, w)
  end.

Fixpoint write_all (ps : list (Extent * bytes)) (written : list Extent) : M fault World (list Extent) :=
  match ps with
  | [] => sret written
  | (e, piece) :: ps =>
      do! write_extent (x_offset e) piece ;;
      write_all ps (written ++ [e])
  end.

(** ** The repaired entries *)

Definition trusted_id (src : Loaded) (n : Z) : res fault (option bytes) :=
  let? found := block sha256 src n in
  match found with
  | Some b => let? h := block_header sha256 b in Ok (Some (hd_id h))
  | None => Ok None
  end.

Fixpoint verify_blocks (log : Log.t) (src : Loaded) (ns : list Z) (prev : bytes) : res fault () :=
  match ns with
  | [] => Ok ()
  | n :: ns =>
      let? body := Log.body sha256 log n in
      let? id := Log.id sha256 log n body in
      do? (if is_blocks (Log.kind log) then
             let? h := block_header sha256 body in
             ensure (bool_decide (hd_previous h = prev)) (FPostChain n)
           else
             let? trusted := trusted_id src n in
             ensure (bool_decide (Some id = trusted)) (FPostChain n)) ;;
      verify_blocks log src ns id
  end.

Definition verify_region (log : Log.t) (src : Loaded) (r : Region) : res fault () :=
  let '(left_, right_) := source_range r in
  let? prev := anchor_id sha256 log left_ in
  verify_blocks log src (upto (rg_first r) right_) prev.

Fixpoint verify_regions (log : Log.t) (src : Loaded) (rs : list Region) : res fault () :=
  match rs with
  | [] => Ok ()
  | r :: rs => do? verify_region log src r ;; verify_regions log src rs
  end.

(** ** Plans *)

Record Plan := mkPlan {
  pl_schema : Z; pl_kind : Kind; pl_target : Target; pl_sources : Sources;
  pl_replacement_sha256 : chars; pl_evidence_sha256 : chars
}.

Definition PLAN_SCHEMA : Z := 2.

Definition hash (b : bytes) : chars := hex (sha256 b).

(** [char::is_whitespace]. *)
Definition is_whitespace (c : Z) : bool :=
  ((9 <=? c) && (c <=? 13)) || (c =? 32) || (c =? 133) || (c =? 160) || (c =? 5760) || ((8192 <=? c) && (c <=? 8202)) ||
  (c =? 8232) || (c =? 8233) || (c =? 8239) || (c =? 8287) || (c =? 12288).

Fixpoint trim_start (s : chars) : chars :=
  match s with
  | c :: t => if is_whitespace c then trim_start t else s
  | [] => []
  end.

Definition trim (s : chars) : chars := reverse (trim_start (reverse (trim_start s))).

Definition ascii_lower (c : Z) : Z := if (65 <=? c) && (c <=? 90) then c + 32 else c.
Definition eq_ignore_ascii_case (s t : chars) : bool := bool_decide (ascii_lower <$> s = ascii_lower <$> t).

Definition read_plan (parse : bytes -> option Plan) (plan_disk replacement_disk : Disk) (approval : chars) : res fault (Plan * bytes) :=
  do? ensure (d_size plan_disk <=? 2 ^ 20) FPlanTooLong ;;
  let? text := read plan_disk 0 (d_size plan_disk) in
  do? ensure (eq_ignore_ascii_case (hash text) (trim approval)) FApproval ;;
  let? plan := or_err (parse text) FPlan in
  do? ensure (pl_schema plan =? PLAN_SCHEMA) FPlanSchema ;;
  let len := damaged_bytes (pl_target plan) in
  do? ensure (len <=? MAX_BYTES) FReplacementLimit ;;
  do? ensure (d_size replacement_disk =? len) FReplacementLength ;;
  let? replacement := read replacement_disk 0 len in
  do? ensure (bool_decide (hash replacement = pl_replacement_sha256 plan)) FReplacementHash ;;
  Ok (plan, replacement).

(** What a run reports. *)
Inductive outcome := Unchanged | Applied (written : list Extent).

(** The part of [apply_open] that writes; [states] are those of the verification. *)
Definition write_pending (log : Log.t) (t : Target) (ps : list (Extent * bytes)) (states : list State) : M fault World (list Extent) :=
  do! check ;;
  do! on_log log (fun l => states_still (Log.log l) (tg_record_size t) ps states) ;;
  write_all (pending ps states) [].

(** The part that reads everything back; [size] is that of the log before. *)
Definition read_back (log : Log.t) (plan : Plan) (t : Target) (ps : list (Extent * bytes)) (replacement : bytes) (src : Loaded) (size : Z)
    : M fault World () :=
  do! (fun w => (ensure (blen (w_data w) =? size) FLogResized, w)) ;;
  do! check ;;
  do! on_log log (fun l => all_identical (Log.log l) (tg_record_size t) ps) ;;
  let! verified := on_log log (fun l => rebuild zlib_deflate sha256 json l t src) in
  do! sensure (bool_decide (rb_evidence verified = pl_evidence_sha256 plan) && bool_decide (rb_replacement verified = replacement)) FPostWrite ;;
  do! on_log log (fun l => verify_regions l src (tg_regions t)) ;;
  check.

Definition apply_open (log : Log.t) (plan : Plan) (replacement : bytes) : M fault World outcome :=
  do! check ;;
  let! t := on_log log (fun l => target_new l (tg_record_size (pl_target plan)) (extents_of (pl_target plan))) in
  do! sensure (bool_decide (t = pl_target plan) && bool_decide (Log.kind log = pl_kind plan)) FLayout ;;
  do! check ;;
  let! ps := slift (pieces (extents_of t) replacement 0) in
  let! states := on_log log (fun l => extent_states (Log.log l) (tg_record_size t) ps) in
  let! size := (fun w => (Ok (blen (w_data w)), w)) in
  do! check ;;
  let! src := slift (load_with sha256 (Log.kind log) (pl_sources plan)) in
  let! rebuilt := on_log log (fun l => rebuild zlib_deflate sha256 json l t src) in
  do! sensure (bool_decide (rb_replacement rebuilt = replacement) && bool_decide (rb_evidence rebuilt = pl_evidence_sha256 plan)) FEvidence ;;
  do! check ;;
  if bool_decide (pending ps states = []) then sret Unchanged
  else
    let! written := write_pending log t ps states in
    do! read_back log plan t ps replacement src size ;;
    sret (Applied written).

(** The log's own files, by the stem of the name. *)
Definition apply (parse : bytes -> option Plan) (plan_disk replacement_disk : Disk) (approval : chars) (node_stopped : bool)
    (stem : option string) (index : Disk) : M fault World outcome :=
  do! sensure node_stopped FNoNodeStopped ;;
  let! p := slift (read_plan parse plan_disk replacement_disk approval) in
  let! log := (fun w => (open_log (mkLogFile stem (disk_now w) index), w)) in
  apply_open log p.1 p.2.

(** [build], up to the files of the bundle: the rebuilt bytes and the states of the extents. *)
Definition build (log : Log.t) (t : Target) (sources : Sources) : M fault World (Rebuilt * list State) :=
  do! check ;;
  let! src := slift (load_with sha256 (Log.kind log) sources) in
  let! rebuilt := on_log log (fun l => rebuild zlib_deflate sha256 json l t src) in
  let! ps := slift (pieces (extents_of t) (rb_replacement rebuilt) 0) in
  let! states := on_log log (fun l => extent_states (Log.log l) (tg_record_size t) ps) in
  do! check ;;
  sret (rebuilt, states).
End Applying.
