(* ===== verification/ApplyFacts.v ===== *)
(** * What a repair in place establishes

    [extent_state] tells a record that cannot be read from one that differs; nothing that can be read is ever
    overwritten, and a repair that reports success leaves whole, linked entries. *)

From stdpp Require Import sorting.
From S2P Require Import Prelude.
From S2P Require Import Errors.
From S2P Require Import Cursor.
From S2P Require Import Binio.
From S2P Require Import Zlib.
From S2P Require Import Framing.
From S2P Require Import Disk.
From S2P Require Import ShipPayload.
From S2P Require Import RepairLog.
From S2P Require Import ReadAhead.
From S2P Require Import TailWalk.
From S2P Require Import WalkFacts.
From S2P Require Import Recover.
From S2P Require Import RecoverFacts.
From S2P Require Import Target.
From S2P Require Import TargetFacts.
From S2P Require Import Rebuild.
From S2P Require Import RebuildFacts.
From S2P Require Import Apply.

(** ** The state of an extent *)

(** A read of the record that holds byte [i] of the extent fails with a media error. *)
Definition media_failed (d : Disk) (rs : Z) (e : Extent) (i : Z) : Prop :=
  exists p err, x_offset e <= p <= i /\ i < p + rs /\ p + rs <= x_offset e + x_len e /\ p mod rs = 0 /\
    read d p rs = Err err /\ media_error err = true.

(** Byte [i] of the extent is what the replacement has there. *)
Definition same_byte (d : Disk) (e : Extent) (piece : bytes) (i : Z) : Prop :=
  byte_at (d_data d) i = byte_at piece (i - x_offset e).

Definition state_ok (d : Disk) (rs : Z) (q : Extent * bytes) (s : State) : Prop :=
  match s with
  | Identical => slice (d_data d) (x_offset q.1) (x_len q.1) = Some q.2
  | Unreadable => forall i, in_extent i q.1 -> media_failed d rs q.1 i \/ same_byte d q.1 q.2 i
  | Differs => True
  end.

Section States.
Context (d : Disk) (rs : Z) (Hrs : 0 < rs).

(** A piece for an extent of whole records inside the file. *)
Definition sound_piece (q : Extent * bytes) : Prop := whole rs q.1 /\ fits (d_size d) q.

Context (Hd : disk_ok d).

Lemma record_step e k : whole rs e -> 0 <= k -> x_offset e + k * rs < x_offset e + x_len e -> x_offset e + (k + 1) * rs <= x_offset e + x_len e.
Proof.
  intros [_ _ _ Hm _] Hk Hlt. apply Z.div_exact in Hm; [|lia]. rewrite Hm in *. assert (k < x_len e / rs) by nia. nia.
Qed.

(** What the loop has established up to [pos]. *)
Record scanned (e : Extent) (piece : bytes) (a : Z * bool) : Prop := {
  sc_pos : exists k, 0 <= k /\ a.1 = x_offset e + k * rs /\ a.1 <= x_offset e + x_len e;
  sc_bytes : forall i, x_offset e <= i < a.1 -> media_failed d rs e i \/ same_byte d e piece i;
  sc_clean : a.2 = false -> forall i, x_offset e <= i < a.1 -> same_byte d e piece i
}.

Lemma scanned_step e piece pos bad bad' :
  whole rs e -> scanned e piece (pos, bad) -> pos < x_offset e + x_len e -> (bad' = false -> bad = false) ->
  (forall i, pos <= i < pos + rs -> media_failed d rs e i \/ same_byte d e piece i) ->
  (bad' = false -> forall i, pos <= i < pos + rs -> same_byte d e piece i) ->
  scanned e piece (pos + rs, bad').
Proof.
  intros He [(k & Hk & Ep & Hp) Hb Hc] Hlt Hbb Hnew Hnew'. cbn [fst snd] in *. split; cbn [fst snd].
  - exists (k + 1). split; [lia|]. split; [lia|]. pose proof (record_step e k He Hk ltac:(lia)). lia.
  - intros i Hi. destruct (decide (i < pos)); [apply Hb; lia|apply Hnew; lia].
  - intros E i Hi. destruct (decide (i < pos)); [apply Hc; [by apply Hbb|lia]|by apply Hnew'; [|lia]].
Qed.

Lemma record_bytes e piece pos have :
  0 <= pos - x_offset e -> slice (d_data d) pos rs = Some have -> slice piece (pos - x_offset e) rs = Some have ->
  forall i, pos <= i < pos + rs -> same_byte d e piece i.
Proof.
  intros Hp H1 H2 i Hi. unfold same_byte.
  pose proof (slice_byte_at _ _ _ _ (i - pos) H1 ltac:(lia)) as E1. pose proof (slice_byte_at _ _ _ _ (i - pos) H2 ltac:(lia)) as E2.
  replace (pos + (i - pos)) with i in E1 by lia. replace (pos - x_offset e + (i - pos)) with (i - x_offset e) in E2 by lia. congruence.
Qed.

Lemma record_state_iter_spec e piece a :
  sound_piece (e, piece) -> scanned e piece a ->
  match record_state_iter d rs e piece a () with
  | (Ok (Cont a'), _) => scanned e piece a' /\ 0 <= x_offset e + x_len e - a'.1 < x_offset e + x_len e - a.1
  | (Ok (Break s), _) => state_ok d rs (e, piece) s
  | (Err err, _) => media_error err = false
  | (Panic, _) => False
  end.
Proof.
  intros [He Hf] Hs. destruct a as [pos bad]. pose proof He as [H0 H1 H2 H3 H4]. destruct Hf as (_ & Hl & Hsize). cbn [fst snd] in *.
  unfold disk_ok in Hd. pose proof Hs as [(k & Hk & Ep & Hp) Hb Hc]. cbn [fst snd] in *. unfold record_state_iter. rewrite (whole_end rs) by done.
  destruct (Z.ltb_spec pos (x_offset e + x_len e)) as [Hlt|Hge].
  - pose proof (record_step e k He Hk ltac:(lia)) as Hstep. replace (add64 pos rs) with (pos + rs) by (symmetry; apply Z.mod_small; width_lia).
    pose proof (disk_read_no_panic d pos rs ltac:(nia) Hrs) as Hnp. destruct (read d pos rs) as [have|err|] eqn:Er; [| |done].
    + apply read_Ok in Er; [|apply inside_pos; nia]. destruct (slice_is_Some piece (pos - x_offset e) rs) as [want Hw]; [nia|lia|lia|].
      rewrite Hw. cbn. destruct (bool_decide (have = want)) eqn:E; [|done]. bools. subst want. cbn. split; [|lia].
      pose proof (record_bytes e piece pos have ltac:(nia) Er Hw) as Hrec. eapply scanned_step; try done. intros i Hi. right. by apply Hrec.
    + destruct (media_error err) eqn:Em; [|done]. cbn. split; [|lia]. eapply scanned_step; try done. intros i Hi. left.
      exists pos, err. split; [nia|]. split; [lia|]. split; [lia|]. split; [|done]. rewrite Ep, Z.mod_add by lia. done.
  - assert (pos = x_offset e + x_len e) as -> by lia. cbn. destruct bad; cbn [state_ok fst snd].
    + intros i Hi. by apply Hb.
    + rewrite <- Hl. apply slice_ext; [done|unfold d_size in Hsize; lia|]. intros i Hi. rewrite (Hc eq_refl (x_offset e + i)) by lia. f_equal. lia.
Qed.

Lemma extent_state_spec e piece :
  sound_piece (e, piece) ->
  match extent_state d rs e piece with
  | Ok s => state_ok d rs (e, piece) s
  | Err _ => True
  | Panic => False
  end.
Proof.
  intros Hq. pose proof Hq as [He Hf]. destruct Hf as (_ & Hl & Hsize). pose proof He as [H0 H1 H2 H3 H4]. cbn [fst snd] in *. unfold extent_state.
  pose proof (disk_read_no_panic d (x_offset e) (x_len e) ltac:(lia) ltac:(lia)) as Hnp.
  destruct (read d (x_offset e) (x_len e)) as [have|err|] eqn:Er; [| |done].
  - apply read_Ok in Er; [|apply inside_pos; lia]. destruct (bool_decide (have = piece)) eqn:E; [|done]. bools. by subst.
  - destruct (media_error err); [|done].
    apply (loop_spec (fun a _ => scanned e piece a) (fun a _ => x_offset e + x_len e - a.1)
      (fun r _ => match r with Ok s => state_ok d rs (e, piece) s | Err _ => True | Panic => False end)).
    + intros a [] Ha. pose proof (record_state_iter_spec e piece a Hq Ha) as H.
      destruct (record_state_iter d rs e piece a ()) as [[[a'|s]|x|] []]; done.
    + split; cbn [fst snd]; [exists 0; lia|intros; lia|intros; lia].
    + cbn [fst]. width_lia.
Qed.

Lemma extent_states_spec ps :
  Forall sound_piece ps ->
  match extent_states d rs ps with
  | Ok ss => Forall2 (fun q s => state_ok d rs q s /\ s <> Differs) ps ss
  | Err _ => True
  | Panic => False
  end.
Proof.
  induction 1 as [|[e piece] ps Hq _ IH]; cbn [extent_states]; [constructor|].
  pose proof (extent_state_spec e piece Hq) as Hs. destruct (extent_state d rs e piece) as [s|x|]; cbn [rbind]; [|done|done].
  destruct (bool_decide (s = Differs)) eqn:E; cbn [negb ensure rbind]; [done|]. bools.
  destruct (extent_states d rs ps) as [ss|x|]; cbn [rbind]; [|done|done]. by constructor.
Qed.

Lemma states_still_spec ps ss :
  Forall sound_piece ps -> length ss = length ps ->
  match states_still d rs ps ss with
  | Ok _ => Forall2 (state_ok d rs) ps ss
  | Err _ => True
  | Panic => False
  end.
Proof.
  intros Hq. revert ss. induction Hq as [|[e piece] ps Hq _ IH]; intros ss Hl; cbn [states_still]; [by destruct ss|].
  destruct ss as [|s ss]; [done|]. pose proof (extent_state_spec e piece Hq) as Hs.
  destruct (extent_state d rs e piece) as [s'|x|]; cbn [rbind]; [|done|done]. cbn [head or_panic rbind tail].
  destruct (bool_decide (s' = s)) eqn:E; cbn [ensure rbind]; [|done]. bools. subst s'. specialize (IH ss ltac:(simpl in Hl; lia)).
  destruct (states_still d rs ps ss) as [u|x|]; [|done|done]. by constructor.
Qed.

Lemma all_identical_spec ps :
  Forall sound_piece ps ->
  match all_identical d rs ps with
  | Ok _ => Forall (fun q => slice (d_data d) (x_offset q.1) (x_len q.1) = Some q.2) ps
  | Err _ => True
  | Panic => False
  end.
Proof.
  induction 1 as [|[e piece] ps Hq _ IH]; cbn [all_identical]; [constructor|].
  pose proof (extent_state_spec e piece Hq) as Hs. destruct (extent_state d rs e piece) as [s|x|]; cbn [rbind]; [|done|done].
  destruct (bool_decide (s = Identical)) eqn:E; cbn [ensure rbind]; [|done]. bools. subst s.
  destruct (all_identical d rs ps) as [u|x|]; [|done|done]. by constructor.
Qed.
End States.

(** ** Pieces *)

Lemma pieces_spec es replacement at_ :
  0 <= at_ -> Forall (fun e => 0 < x_len e) es -> at_ + total es = blen replacement ->
  exists ps, pieces es replacement at_ = Ok ps /\ ps.*1 = es /\ concat ps.*2 = drop (Z.to_nat at_) replacement /\
    Forall (fun q => blen q.2 = x_len q.1) ps.
Proof.
  intros Hat Hes. revert at_ Hat. induction Hes as [|e es He Hes IH]; intros at_ Hat Hl; cbn [pieces total foldr] in *.
  - exists []. split; [done|]. split; [done|]. split; [|constructor]. symmetry. apply drop_ge. unfold blen in Hl. lia.
  - fold (total es) in Hl. assert (0 <= total es). { clear -Hes. induction Hes; simpl; [done|]. lia. }
    destruct (slice_is_Some replacement at_ (x_len e)) as [p Hp]; [lia..|]. rewrite Hp. cbn [or_panic rbind].
    destruct (IH (at_ + x_len e) ltac:(lia) ltac:(lia)) as (ps & -> & <- & Hc & Hps). cbn [rbind]. exists ((e, p) :: ps).
    split; [done|]. split; [done|]. rewrite !fmap_cons. cbn [concat]. rewrite Hc. split.
    + apply slice_Some in Hp as (_ & _ & _ & ->). rewrite Z2Nat.inj_add, <- drop_drop by lia. apply take_drop.
    + constructor; [|done]. by apply slice_blen in Hp.
Qed.

(** ** Writing *)

(** [data] is [data0] with some bytes of the pieces written. *)
Definition within (data0 : bytes) (ps : list (Extent * bytes)) (data : bytes) : Prop :=
  blen data = blen data0 /\
  forall i, byte_at data i = byte_at data0 i \/
    exists e p, (e, p) ∈ ps /\ in_extent i e /\ byte_at data i = byte_at p (i - x_offset e).

Lemma within_refl data ps : within data ps data.
Proof. split; [done|]. by left. Qed.

Section Writing.
Context (media : Media).

Lemma write_extent_spec data0 ps e p w :
  within data0 ps (w_data w) -> (e, p) ∈ ps -> fits (blen data0) (e, p) ->
  let '(r, w') := write_extent media (x_offset e) p w in is_panic r = false /\ within data0 ps (w_data w').
Proof.
  intros [Hl Hw] Hin (H1 & H2 & H3). cbn [fst snd] in *. unfold write_extent. set (a := md_write media (w_tick w) (x_offset e) p).
  set (n := Z.max 0 (Z.min (wr_count a) (blen p))). pose proof (blen_nonneg p). assert (Hn : 0 <= n <= blen p) by lia.
  assert (Hd : within data0 ps (if n =? 0 then w_data w else put (w_data w) (x_offset e) (take (Z.to_nat n) p))).
  { destruct (n =? 0); [done|]. assert (Ht : blen (take (Z.to_nat n) p) = n) by (apply blen_take; lia). split; [by rewrite blen_put by lia|].
    intros i. rewrite byte_at_put by lia. destruct (_ && _) eqn:E; [|apply Hw]. bools. right. exists e, p. split; [done|].
    split; [unfold in_extent; lia|]. apply byte_at_take. lia. }
  destruct (wr_error a), (wr_sync a); (split; [|exact Hd]); try done. by destruct (n =? blen p).
Qed.

Lemma write_all_spec data0 ps qs written w :
  within data0 ps (w_data w) -> Forall (fits (blen data0)) ps -> (forall q, q ∈ qs -> q ∈ ps) ->
  let '(r, w') := write_all media qs written w in
  within data0 ps (w_data w') /\ match r with Ok es => es = written ++ qs.*1 | Err _ => True | Panic => False end.
Proof.
  intros Hw Hf. revert written w Hw. induction qs as [|[e p] qs IH]; intros written w Hw Hin; cbn [write_all].
  { cbn. split; [done|]. by rewrite app_nil_r. }
  assert (Hep : (e, p) ∈ ps) by set_solver. unfold sbind. rewrite list.Forall_forall in Hf. pose proof (write_extent_spec data0 ps e p w Hw Hep (Hf _ Hep)) as Hx.
  destruct (write_extent media (x_offset e) p w) as [[u|x|] w']; [|by destruct Hx|by destruct Hx]. destruct Hx as [_ Hx].
  specialize (IH (written ++ [e]) w' Hx ltac:(set_solver)). destruct (write_all media qs (written ++ [e]) w') as [r w'']. destruct IH as [H1 H2].
  split; [done|]. destruct r; [|done|done]. rewrite H2, <- app_assoc. done.
Qed.

(** The log at any moment is the one that was opened, with other bytes. *)
Lemma log_now_ok l w : log_ok l -> blen (w_data w) = d_size (Log.log l) -> log_ok (log_now media l w).
Proof. intros [H1 H2 H3 H4 H5] Hw. split; cbn [log_now Log.size Log.log Log.index Log.first Log.last]; [|done|done|done|]; unfold disk_ok, d_size in *; cbn [disk_now d_data]; lia. Qed.
End Writing.

(** ** The repaired entries *)
Section Verifying.
Context {F : Flate} {R : FlateReset F} (zlib : bytes -> option bytes) {L : FlateLaws F zlib}
  {RL : ResetLaws F zlib} (sha256 : bytes -> bytes).
Context (log : Log.t) (Hlog : log_ok log) (src : Loaded) (Hsrc : loaded_ok src).

Lemma trusted_id_no_panic n : no_panic (trusted_id sha256 src n).
Proof.
  unfold trusted_id. apply no_panic_bind; [by apply (block_no_panic zlib)|]. intros [b|] Hb; [|done].
  pose proof (block_len zlib sha256 src n b Hsrc Hb). apply no_panic_bind; [apply repair_header_no_panic; width_lia|done].
Qed.

(** The entries [from..to] are whole, with ids [ids]; each follows the one before, or has the id of a trusted block. *)
Definition entries_sound (from to : Z) (ids : Z -> bytes) : Prop :=
  forall n, from <= n <= to -> exists x, entry_is zlib sha256 log n x (ids n) /\
    if is_blocks (Log.kind log) then exists h, block_header sha256 x = Ok h /\ hd_previous h = ids (n - 1)
    else trusted_id sha256 src n = Ok (Some (ids n)).

Lemma body_entry n x id :
  Log.first log <= n <= Log.last log -> Log.body sha256 log n = Ok x -> Log.id sha256 log n x = Ok id -> entry_is zlib sha256 log n x id.
Proof.
  intros Hn Hx Hid. pose proof (body_spec zlib sha256 log n Hlog Hn) as Hb. rewrite Hx in Hb. destruct Hb as (id' & a & b & es & ? & ? & ? & ? & ? & ? & _).
  exists a, b, es. do 6 (split; [done|]). pose proof (id_spec zlib sha256 log n x (body_len64 zlib sha256 log n x Hlog Hn Hx)) as Hi. by rewrite Hid in Hi.
Qed.

Lemma verify_blocks_spec k n last prev :
  k = Z.to_nat (last + 1 - n) -> Log.first log <= n -> last <= Log.last log -> n <= last + 1 ->
  match verify_blocks sha256 log src (upto n last) prev with
  | Ok _ => exists ids, ids (n - 1) = prev /\ entries_sound n last ids
  | Err _ => True
  | Panic => False
  end.
Proof.
  intros Hk Hn Hl. revert n prev Hk Hn. induction k as [|k IH]; intros n prev Hk Hn Hle.
  { unfold upto. rewrite seqZ_nil by lia. cbn [verify_blocks]. exists (fun _ => prev). split; [done|]. intros m Hm. lia. }
  rewrite upto_cons by lia. cbn [verify_blocks].
  pose proof (entry_body_no_panic zlib sha256 log n Hlog ltac:(lia)) as Hnp. destruct (Log.body sha256 log n) as [x|e|] eqn:Ex; cbn [rbind]; [|done|done].
  pose proof (body_len64 zlib sha256 log n x Hlog ltac:(lia) Ex) as Hxl.
  pose proof (id_no_panic zlib sha256 log n x Hxl) as Hip. destruct (Log.id sha256 log n x) as [id|e|] eqn:Ei; cbn [rbind]; [|done|done].
  pose proof (body_entry n x id ltac:(lia) Ex Ei) as Hent.
  assert (Hchk : match (if is_blocks (Log.kind log) then let? h := block_header sha256 x in ensure (bool_decide (hd_previous h = prev)) (FPostChain n)
                        else let? trusted := trusted_id sha256 src n in ensure (bool_decide (Some id = trusted)) (FPostChain n)) with
    | Ok _ => if is_blocks (Log.kind log) then exists h, block_header sha256 x = Ok h /\ hd_previous h = prev else trusted_id sha256 src n = Ok (Some id)
    | Err _ => True | Panic => False end).
  { destruct (is_blocks (Log.kind log)).
    - pose proof (repair_header_no_panic sha256 x Hxl) as Hh. destruct (block_header sha256 x) as [h|e|]; cbn [rbind]; [|done|done].
      destruct (bool_decide _) eqn:E; cbn [ensure]; [|done]. bools. by exists h.
    - pose proof (trusted_id_no_panic n) as Ht. destruct (trusted_id sha256 src n) as [t|e|]; cbn [rbind]; [|done|done].
      destruct (bool_decide _) eqn:E; cbn [ensure]; [|done]. bools. by subst. }
  destruct (if is_blocks (Log.kind log) then _ else _) as [u|e|]; cbn [rbind]; [|done|done].
  specialize (IH (n + 1) id ltac:(lia) ltac:(lia) ltac:(lia)). destruct (verify_blocks sha256 log src (upto (n + 1) last) id) as [v|e|]; [|done|done].
  destruct IH as (ids & Hids & Hall). replace (n + 1 - 1) with n in Hids by lia. exists (fun m => if m =? n - 1 then prev else ids m).
  split; [by rewrite Z.eqb_refl|]. intros m Hm. rewrite (proj2 (Z.eqb_neq m (n - 1))) by lia. destruct (Z.eqb_spec (m - 1) (n - 1)) as [E|E].
  - assert (m = n) as -> by lia. exists x. rewrite Hids. done.
  - apply Hall. lia.
Qed.

(** A region of which every entry and both anchors are sound. *)
Definition region_sound (r : Region) : Prop :=
  exists ids, anchor_id sha256 log (rg_first r - 1) = Ok (ids (rg_first r - 1)) /\ entries_sound (rg_first r) (rg_last r + 1) ids.

Lemma verify_regions_spec regions :
  Forall (fun r => Log.first log < rg_first r <= rg_last r /\ rg_last r < Log.last log) regions ->
  match verify_regions sha256 log src regions with
  | Ok _ => Forall region_sound regions
  | Err _ => True
  | Panic => False
  end.
Proof.
  pose proof (lo_last _ Hlog). pose proof (lo_first _ Hlog). induction 1 as [|r regions Hr _ IH]; cbn [verify_regions]; [constructor|].
  unfold verify_region, source_range. replace (sub32 (rg_first r) 1) with (rg_first r - 1) by (symmetry; apply Z.mod_small; width_lia).
  rewrite add32_below by width_lia. pose proof (anchor_id_no_panic zlib sha256 log (rg_first r - 1) Hlog ltac:(lia)) as Hnp.
  destruct (anchor_id sha256 log (rg_first r - 1)) as [prev|e|] eqn:Ea; cbn [rbind]; [|done|done].
  pose proof (verify_blocks_spec _ (rg_first r) (rg_last r + 1) prev eq_refl ltac:(lia) ltac:(lia) ltac:(lia)) as Hv.
  destruct (verify_blocks _ _ _ _ _) as [u|e|]; cbn [rbind]; [|done|done]. destruct Hv as (ids & Hids & Hv).
  destruct (verify_regions sha256 log src regions) as [v|e|]; [|done|done]. constructor; [|done]. exists ids. by rewrite Hids.
Qed.
End Verifying.

(** ** A run *)

Lemma pending_elem ps ss q : q ∈ pending ps ss -> exists i, ps !! i = Some q /\ ss !! i = Some Unreadable.
Proof.
  intros H. unfold pending in H. apply list_elem_of_fmap in H as ([q' s] & -> & H). apply list_elem_of_In, filter_In in H as [H Hs]. cbn [snd] in Hs. bools. subst s.
  apply list_elem_of_In, list_elem_of_lookup in H as [i Hi]. exists i. apply lookup_zip_Some in Hi. done.
Qed.

Lemma pending_nil ps ss : length ss = length ps -> pending ps ss = [] -> Unreadable ∉ ss.
Proof.
  intros Hl H Hin. apply list_elem_of_lookup in Hin as [i Hi]. destruct (lookup_lt_is_Some_2 ps i) as [q Hq].
  { apply lookup_lt_Some in Hi. lia. }
  assert (q ∈ pending ps ss); [|by rewrite H in *; set_solver]. unfold pending. apply list_elem_of_fmap. exists (q, Unreadable). split; [done|].
  apply list_elem_of_In, filter_In. split; [|done]. apply list_elem_of_In, (list_elem_of_lookup_2 _ i), lookup_zip_Some. done.
Qed.

(** A byte that differs is in a record that could not be read, and holds what the replacement has there. *)
Definition only_failed (media : Media) (rs : Z) (ps : list (Extent * bytes)) (data data' : bytes) : Prop :=
  blen data' = blen data /\
  forall i, byte_at data' i <> byte_at data i ->
    exists e p k, (e, p) ∈ ps /\ in_extent i e /\ byte_at data' i = byte_at p (i - x_offset e) /\
      media_failed (mkDisk data (md_sys media k)) rs e i.

Lemma only_failed_refl media rs ps data : only_failed media rs ps data data.
Proof. split; [done|]. intros i H. by destruct H. Qed.

Section Runs.
Context {F : Flate} {R : FlateReset F} (zlib : bytes -> option bytes) {L : FlateLaws F zlib}
  {RL : ResetLaws F zlib} (zlib_deflate : Z -> bytes -> option bytes) (sha256 : bytes -> bytes) (json : Target -> bytes) (media : Media).
Hypothesis Hcodecs : codecs_ok zlib zlib_deflate.
Context (log : Log.t) (Hlog : log_ok log).

(** The log with the bytes [data], at moment [k]. *)
Definition log_at (data : bytes) (k : nat) : Log.t := log_now media log (mkWorld data k).

Lemma log_at_ok data k : blen data = d_size (Log.log log) -> log_ok (log_at data k).
Proof. intros Hb. by apply log_now_ok. Qed.

Section OnePlan.
Context (t : Target) (ps : list (Extent * bytes)) (size : Z).
Hypothesis Hrs : 0 < tg_record_size t.
Hypothesis Hsize : size = d_size (Log.log log).
Hypothesis Hps : Forall (fun q => whole (tg_record_size t) q.1 /\ fits size q) ps.

Lemma pieces_sound data k : blen data = size -> Forall (sound_piece (Log.log (log_at data k)) (tg_record_size t)) ps.
Proof. intros Hb. eapply list.Forall_impl; [apply Hps|]. intros q [H1 H2]. split; [done|]. unfold d_size. cbn. by rewrite Hb. Qed.

Lemma disk_at_ok data k : blen data = size -> disk_ok (Log.log (log_at data k)).
Proof. intros Hb. pose proof (lo_disk _ Hlog) as Hd. unfold disk_ok, d_size in *. cbn [log_at log_now Log.log disk_now w_data d_data]. lia. Qed.

Lemma pending_within data ss k data' :
  Forall2 (state_ok (Log.log (log_at data k)) (tg_record_size t)) ps ss -> within data (pending ps ss) data' ->
  only_failed media (tg_record_size t) ps data data'.
Proof.
  intros Hs [Hl Hw]. split; [done|]. intros i Hi. destruct (Hw i) as [?|(e & p & Hin & Hie & Hb)]; [done|].
  apply pending_elem in Hin as (j & Hj & Hsj). destruct (Forall2_lookup_lr _ _ _ _ _ _ Hs Hj Hsj i Hie) as [Hm|Hsame].
  - exists e, p, k. split; [by eapply list_elem_of_lookup_2|]. done.
  - destruct Hi. by rewrite Hb, <- Hsame.
Qed.

Lemma write_pending_spec ss w :
  blen (w_data w) = size -> length ss = length ps ->
  let '(r, w') := write_pending media log t ps ss w in
  only_failed media (tg_record_size t) ps (w_data w) (w_data w') /\
  match r with Ok es => es = (pending ps ss).*1 | Err _ => True | Panic => False end.
Proof.
  intros Hw Hl. unfold write_pending, sbind, check. destruct (md_check media (w_tick w)) as [x|].
  { split; [apply only_failed_refl|done]. }
  unfold on_log. pose proof (states_still_spec _ _ Hrs (disk_at_ok (w_data w) (S (w_tick w)) Hw) ps ss (pieces_sound _ _ Hw) Hl) as Hs.
  change (log_at (w_data w) (S (w_tick w))) with (log_now media log (later w)) in Hs.
  destruct (states_still _ _ ps ss) as [u|x|]; [|split; [apply only_failed_refl|done]|done].
  pose proof (write_all_spec media (w_data w) (pending ps ss) (pending ps ss) [] (later w) (within_refl _ _)) as Hwr.
  assert (Hf : Forall (fits (blen (w_data w))) (pending ps ss)).
  { apply list.Forall_forall. intros q Hq. apply pending_elem in Hq as (i & Hi & _). rewrite list.Forall_forall in Hps. rewrite Hw.
    apply Hps. by eapply list_elem_of_lookup_2. }
  specialize (Hwr Hf ltac:(done)). destruct (write_all media (pending ps ss) [] (later w)) as [r w']. destruct Hwr as [Hwi Hr].
  split; [|done]. by eapply (pending_within _ ss (S (w_tick w))).
Qed.
Context (src : Loaded) (Hsrc : loaded_ok src) (Hdonors : donors_ok log src).
Hypothesis Hshape : Forall (region_shape log (tg_record_size t)) (tg_regions t).

Lemma shape_at data k : Forall (region_shape (log_at data k) (tg_record_size t)) (tg_regions t).
Proof. eapply list.Forall_impl; [apply Hshape|]. intros r []. by split. Qed.

Lemma anchors_at data k :
  Forall (fun r => Log.first (log_at data k) < rg_first r <= rg_last r /\ rg_last r < Log.last (log_at data k)) (tg_regions t).
Proof. eapply list.Forall_impl; [apply Hshape|]. intros r Hr. apply (rg_anchors _ _ _ Hr). Qed.

(** The sources give these bytes again for the log as it is at some moment. *)
Definition rebuilds (data replacement : bytes) (evidence : chars) : Prop :=
  exists k rb, rebuild zlib_deflate sha256 json (log_at data k) t src = Ok rb /\ rb_replacement rb = replacement /\ rb_evidence rb = evidence.

(** Everything a successful run has read back. *)
Record restored_log (data replacement : bytes) (evidence : chars) : Prop := {
  rl_extents : Forall (fun q => slice data (x_offset q.1) (x_len q.1) = Some q.2) ps;
  rl_rebuilds : rebuilds data replacement evidence;
  rl_entries : exists k, Forall (region_sound zlib sha256 (log_at data k) src) (tg_regions t)
}.

Lemma rebuild_no_panic data k : blen data = size -> no_panic (rebuild zlib_deflate sha256 json (log_at data k) t src).
Proof.
  intros Hb. pose proof (rebuild_spec zlib zlib_deflate sha256 json Hcodecs (log_at data k) (log_at_ok data k ltac:(congruence)) _ src Hsrc Hdonors t (shape_at data k)) as H.
  by destruct (rebuild _ _ _ _ _ _).
Qed.

Lemma apply_read_back_spec plan replacement w :
  blen (w_data w) = size ->
  let '(r, w') := read_back zlib_deflate sha256 json media log plan t ps replacement src size w in
  w_data w' = w_data w /\
  match r with Ok _ => restored_log (w_data w) replacement (pl_evidence_sha256 plan) | Err _ => True | Panic => False end.
Proof.
  intros Hw. unfold read_back, sbind. rewrite (proj2 (Z.eqb_eq _ _) Hw). cbn [ensure]. unfold check at 1.
  destruct (md_check media (w_tick w)) as [x|]; [done|]. set (w1 := later w). unfold on_log.
  change (log_now media log w1) with (log_at (w_data w) (S (w_tick w))). set (k := S (w_tick w)) in *.
  pose proof (all_identical_spec _ _ Hrs (disk_at_ok (w_data w) k Hw) ps (pieces_sound _ _ Hw)) as Hid.
  destruct (all_identical _ _ ps) as [u|x|]; [|done|done].
  pose proof (rebuild_no_panic (w_data w) k Hw) as Hnp.
  destruct (rebuild zlib_deflate sha256 json (log_at (w_data w) k) t src) as [rb|x|] eqn:Erb; [|done|done].
  unfold sensure. destruct (_ && _) eqn:E; [|done]. bools. unfold sret. change (log_now media log w1) with (log_at (w_data w) k).
  pose proof (verify_regions_spec zlib sha256 (log_at (w_data w) k) (log_at_ok (w_data w) k ltac:(congruence)) src Hsrc _ (anchors_at (w_data w) k)) as Hv.
  destruct (verify_regions sha256 (log_at (w_data w) k) src (tg_regions t)) as [v|x|]; [|done|done].
  unfold check. destruct (md_check media (w_tick w1)); (split; [done|]); [done|].
  split; [done|by exists k, rb|by exists k].
Qed.
End OnePlan.

(** ** The program *)

(** What [apply_open] promises of the bytes, whatever happens. *)
Definition safe_change (plan : Plan) (replacement data data' : bytes) : Prop :=
  exists ps, only_failed media (tg_record_size (pl_target plan)) ps data data' /\
    (data' <> data -> pieces (extents_of (pl_target plan)) replacement 0 = Ok ps).

Lemma safe_change_refl plan replacement data : safe_change plan replacement data data.
Proof. exists []. split; [apply only_failed_refl|done]. Qed.

(** What it promises when it reports success. *)
Record applied (plan : Plan) (replacement data data' : bytes) (o : outcome) : Prop := {
  ap_plan : exists k, target_new (log_at data k) (tg_record_size (pl_target plan)) (extents_of (pl_target plan)) = Ok (pl_target plan);
  ap_kind : Log.kind log = pl_kind plan;
  ap_log : exists ps src, pieces (extents_of (pl_target plan)) replacement 0 = Ok ps /\
    load_with sha256 (Log.kind log) (pl_sources plan) = Ok src /\
    match o with
    | Unchanged => data' = data /\ Forall (fun q => slice data (x_offset q.1) (x_len q.1) = Some q.2) ps /\
        rebuilds (pl_target plan) src data replacement (pl_evidence_sha256 plan)
    | Applied written => written <> [] /\ (forall e, e ∈ written -> e ∈ extents_of (pl_target plan)) /\
        restored_log (pl_target plan) ps src data' replacement (pl_evidence_sha256 plan)
    end
}.

Lemma pieces_facts plan replacement data k :
  blen data = d_size (Log.log log) -> Forall extent_u64 (extents_of (pl_target plan)) ->
  blen replacement = damaged_bytes (pl_target plan) ->
  target_new (log_at data k) (tg_record_size (pl_target plan)) (extents_of (pl_target plan)) = Ok (pl_target plan) ->
  0 < tg_record_size (pl_target plan) /\ Forall (region_shape log (tg_record_size (pl_target plan))) (tg_regions (pl_target plan)) /\
  exists ps, pieces (extents_of (pl_target plan)) replacement 0 = Ok ps /\ ps.*1 = extents_of (pl_target plan) /\
    Forall (fun q => whole (tg_record_size (pl_target plan)) q.1 /\ fits (d_size (Log.log log)) q) ps.
Proof.
  intros Hb Hu Hl Ht. set (t := pl_target plan) in *. set (rs := tg_record_size t) in *.
  pose proof (target_new_spec (log_at data k) rs (extents_of t) (log_at_ok data k Hb) Hu) as Hs. rewrite Ht in Hs. destruct Hs as (Hsz & Hne & Hg).
  assert (Hrs : 0 < rs) by (unfold check_record_size in Hsz; apply ensure_Ok in Hsz; bools; done).
  assert (Hsh : Forall (region_shape log rs) (tg_regions t)).
  { eapply list.Forall_impl; [apply (tk_regions _ _ _ _ Hg)|]. intros r [[] _ _ _ _ _]. by split. }
  split; [done|]. split; [done|]. destruct (tk_bytes _ _ _ _ Hg) as [Hbytes _]. pose proof (tk_whole _ _ _ _ Hg) as Hw.
  destruct (pieces_spec (extents_of t) replacement 0) as (ps & Hp & Hfst & _ & Hlens); [lia| |lia|].
  { eapply list.Forall_impl; [apply Hw|]. intros e []. done. }
  exists ps. split; [done|]. split; [done|]. apply list.Forall_forall. intros [e p] Hq.
  assert (He : e ∈ extents_of t) by (rewrite <- Hfst; apply list_elem_of_fmap; by exists (e, p)).
  rewrite list.Forall_forall in Hw. rewrite list.Forall_forall in Hlens. rewrite list.Forall_forall in Hsh. split; [by apply Hw|]. pose proof (Hlens _ Hq) as Hpl. cbn [fst snd] in *.
  unfold extents_of in He. apply list_elem_of_In, in_flat_map in He as (r & Hr & He). apply list_elem_of_In in Hr, He. specialize (Hsh r Hr).
  destruct (rg_inside _ _ _ Hsh e He). pose proof (rg_span _ _ _ Hsh). destruct (pos_is_range log _ _ Hlog (rg_stops _ _ _ Hsh)).
  pose proof (lo_size _ Hlog). split; cbn [fst snd]; lia.
Qed.
Lemma all_identical_states d rs ps ss :
  Forall2 (fun q s => state_ok d rs q s /\ s <> Differs) ps ss -> Unreadable ∉ ss ->
  Forall (fun q => slice (d_data d) (x_offset q.1) (x_len q.1) = Some q.2) ps.
Proof.
  induction 1 as [|q s ps ss [Hs Hd] _ IH]; intros Hn; [constructor|]. rewrite not_elem_of_cons in Hn. destruct Hn as [H1 H2].
  constructor; [|by apply IH]. by destruct s.
Qed.

(** The writing half of [apply_open]. *)
Lemma write_and_read_back plan replacement ps ss src w :
  let t := pl_target plan in
  0 < tg_record_size t -> Forall (fun q => whole (tg_record_size t) q.1 /\ fits (d_size (Log.log log)) q) ps ->
  Forall (region_shape log (tg_record_size t)) (tg_regions t) -> loaded_ok src -> donors_ok log src ->
  blen (w_data w) = d_size (Log.log log) -> length ss = length ps ->
  let '(r, w') := (let! written := write_pending media log t ps ss in
                   do! read_back zlib_deflate sha256 json media log plan t ps replacement src (d_size (Log.log log)) ;;
                   sret (Applied written)) w in
  only_failed media (tg_record_size t) ps (w_data w) (w_data w') /\
  match r with
  | Ok o => o = Applied (pending ps ss).*1 /\ restored_log t ps src (w_data w') replacement (pl_evidence_sha256 plan)
  | Err _ => True
  | Panic => False
  end.
Proof.
  intros t Hrs Hps Hsh Hsrc Hdon Hw Hl. unfold sbind.
  pose proof (write_pending_spec t ps _ Hrs eq_refl Hps ss w Hw Hl) as Hp.
  destruct (write_pending media log t ps ss w) as [[written|x|] w1]; [|done|by destruct Hp]. destruct Hp as [Hf ->].
  pose proof (apply_read_back_spec t ps _ Hrs eq_refl Hps src Hsrc Hdon Hsh plan replacement w1 ltac:(destruct Hf as [Hf _]; lia)) as Hb.
  destruct (read_back _ _ _ _ _ _ _ _ _ _ _ w1) as [[u|x|] w2]; destruct Hb as [Hd Hb]; [|by rewrite Hd|done].
  unfold sret. rewrite Hd. done.
Qed.

Lemma apply_open_spec plan replacement w :
  blen (w_data w) = d_size (Log.log log) -> Forall extent_u64 (extents_of (pl_target plan)) -> sources_ok (pl_sources plan) ->
  blen replacement = damaged_bytes (pl_target plan) ->
  let '(r, w') := apply_open zlib_deflate sha256 json media log plan replacement w in
  safe_change plan replacement (w_data w) (w_data w') /\
  match r with Ok o => applied plan replacement (w_data w) (w_data w') o | Err _ => True | Panic => False end.
Proof.
  intros Hw Hu Hs Hl. pose proof (safe_change_refl plan replacement (w_data w)) as Hrefl. unfold apply_open, sbind.
  unfold check at 1. destruct (md_check media (w_tick w)); [done|]. unfold on_log at 1.
  change (log_now media log (later w)) with (log_at (w_data w) (S (w_tick w))).
  pose proof (target_new_spec (log_at (w_data w) (S (w_tick w))) (tg_record_size (pl_target plan)) (extents_of (pl_target plan)) (log_at_ok _ _ Hw) Hu) as Hnp.
  destruct (target_new _ _ _) as [t|x|] eqn:Et; [|done|done]. clear Hnp. unfold sensure at 1.
  destruct (bool_decide (t = pl_target plan) && bool_decide (Log.kind log = pl_kind plan)) eqn:E; [|done]. bools. subst t. unfold sret at 1.
  destruct (pieces_facts plan replacement _ _ Hw Hu Hl Et) as (Hrs & Hsh & ps & Hpieces & Hfst & Hps).
  unfold check at 1. destruct (md_check media (w_tick (later w))); [done|]. rewrite Hpieces. unfold slift at 1. unfold on_log at 1.
  change (log_now media log (later (later w))) with (log_at (w_data w) (S (S (w_tick w)))).
  pose proof (extent_states_spec _ _ Hrs (disk_at_ok _ eq_refl (w_data w) (S (S (w_tick w))) Hw) ps (pieces_sound _ ps _ Hps _ _ Hw)) as Hst.
  destruct (extent_states _ _ ps) as [ss|x|]; [|done|done]. unfold check at 1. destruct (md_check media (w_tick (later (later w)))); [done|].
  unfold slift at 1. pose proof (load_with_spec sha256 (Log.kind log) (pl_sources plan) Hs) as Hload.
  destruct (load_with sha256 (Log.kind log) (pl_sources plan)) as [src|x|] eqn:Eload; [|done|done]. clear Hload.
  destruct (load_donors sha256 _ _ _ Hs Eload) as (Hsrc & Hdon). unfold on_log at 1. set (k := S (S (S (w_tick w)))).
  change (log_now media log (later (later (later w)))) with (log_at (w_data w) k).
  pose proof (rebuild_no_panic (pl_target plan) _ eq_refl src Hsrc Hdon Hsh (w_data w) k Hw) as Hnp.
  destruct (rebuild zlib_deflate sha256 json (log_at (w_data w) k) (pl_target plan) src) as [rb|x|] eqn:Erb; [|done|done].
  unfold sensure at 1. destruct (bool_decide (rb_replacement rb = replacement) && _) eqn:Eev; [|done]. bools. unfold sret at 1.
  unfold check at 1. destruct (md_check media (w_tick (later (later (later w))))); [done|].
  assert (Hlen : length ss = length ps) by (symmetry; by eapply Forall2_length).
  destruct (bool_decide (pending ps ss = [])) eqn:Epend; bools.
  { split; [done|]. split; [by eexists|done|]. exists ps, src. split; [done|]. split; [done|]. split; [done|]. split; [|by exists k, rb].
    exact (all_identical_states _ _ _ _ Hst (pending_nil _ _ Hlen Epend)). }
  pose proof (write_and_read_back plan replacement ps ss src (later (later (later (later w)))) Hrs Hps Hsh Hsrc Hdon Hw Hlen) as Hwr.
  rewrite <- Hw in Hwr. unfold sbind in Hwr. cbn [w_data later] in Hwr |- *.
  match goal with |- let '(r, w') := ?m in _ => destruct m as [r w'] end. destruct Hwr as [Hf Hr]. split; [by exists ps|].
  destruct r as [o|x|]; [|done|done]. destruct Hr as [-> Hr]. split; [by eexists|done|]. exists ps, src. split; [done|]. split; [done|]. split; [|split; [|done]].
  - destruct (pending ps ss); [done|]. by rewrite fmap_cons.
  - intros e He. apply list_elem_of_fmap in He as (q & -> & Hq). apply pending_elem in Hq as (i & Hi & _). rewrite <- Hfst. apply list_elem_of_fmap.
    exists q. split; [done|]. by eapply list_elem_of_lookup_2.
Qed.
End Runs.

Lemma read_plan_spec sha256 parse plan_disk replacement_disk approval :
  match read_plan sha256 parse plan_disk replacement_disk approval with
  | Ok (plan, replacement) => (exists text, parse text = Some plan) /\ blen replacement = damaged_bytes (pl_target plan)
  | Err _ => True
  | Panic => False
  end.
Proof.
  unfold read_plan, d_size. pose proof (blen_nonneg (d_data plan_disk)). pose proof (blen_nonneg (d_data replacement_disk)).
  destruct (_ <=? 2 ^ 20); cbn [ensure rbind]; [|done].
  destruct (read_cases plan_disk 0 (blen (d_data plan_disk))) as [(text & -> & _)|(e & ->)]; [apply inside_range; unfold d_size; lia| |done]. cbn [rbind].
  destruct (eq_ignore_ascii_case _ _); cbn [ensure rbind]; [|done]. destruct (parse text) as [plan|] eqn:Ep; cbn [or_err rbind]; [|done].
  destruct (pl_schema plan =? PLAN_SCHEMA); cbn [ensure rbind]; [|done].
  destruct (_ <=? MAX_BYTES); cbn [ensure rbind]; [|done].
  destruct (Z.eqb_spec (blen (d_data replacement_disk)) (damaged_bytes (pl_target plan))) as [E|]; cbn [ensure rbind]; [|done].
  destruct (read_cases replacement_disk 0 (damaged_bytes (pl_target plan))) as [(b & -> & Hb)|(e & ->)]; [apply inside_range; unfold d_size; lia| |done].
  cbn [rbind]. destruct (bool_decide _); cbn [ensure rbind]; [|done]. apply slice_blen in Hb. split; [by exists text|done].
Qed.

Lemma open_log_disk f l : open_log f = Ok l -> disk_ok (lf_log f) -> log_ok l /\ Log.log l = lf_log f.
Proof.
  intros H Hd. pose proof (open_log_spec f Hd) as Hs. rewrite H in Hs. split; [done|]. unfold open_log in H. bind H as k Hk.
  by apply from_disks_ok in H as (_ & _ & ? & _).
Qed.

(** ** Properties *)

(** Example: the damage of [RebuildFacts.v], readable again once it is written. *)
Definition exa_media : Media :=
  mkMedia (fun k off len => if Nat.leb k 5 then exa_fails off len else []) (fun _ _ x => mkWrote (blen x) None None) (fun _ => None).
Definition exa_world : World := mkWorld exa_torn 0.
Definition exa_plan : Plan :=
  mkPlan 2 Blocks exa_target exa_sources (hash exf_sha (rb_replacement exa_rebuilt)) (rb_evidence exa_rebuilt).
Definition exa_run : res fault outcome * World :=
  apply (R := level0_reset) (fun _ _ => None) exf_sha exa_json exa_media (fun _ => Some exa_plan) (sound_disk [x7b; x7d])
    (sound_disk (rb_replacement exa_rebuilt)) (hash exf_sha [x7b; x7d]) true (Some "blocks"%string) exa_index exa_world.

(** C6: whatever the media, the system and the plan do, a repair in place never panics, never changes the length of
    the log, and changes a byte only if the record that holds it could not be read (EIO or ENODATA, in the check
    right before the write), and then only to the byte the approved plan has there. A run that reports success has
    found the plan's target and kind in the log itself; every extent then holds its replacement, which the sources
    still give, and if anything was written, every entry of every region up to its right anchor is whole, with the
    id of the trusted block or, in a block log, following the entry before it. *)
Theorem apply_safe (F : Flate) (R : FlateReset F) (zlib : bytes -> option bytes) (L : FlateLaws F zlib) (RL : ResetLaws F zlib)
    (zlib_deflate : Z -> bytes -> option bytes) (sha256 : bytes -> bytes) (json : Target -> bytes) (media : Media)
    (parse : bytes -> option Plan) (plan_disk replacement_disk : Disk) (approval : chars) (node_stopped : bool)
    (stem : option string) (index : Disk) (w : World)
    (Hcodecs : codecs_ok zlib zlib_deflate)
    (Hparse : forall text plan, parse text = Some plan -> Forall extent_u64 (extents_of (pl_target plan)) /\ sources_ok (pl_sources plan))
    (Hsize : blen (w_data w) < 2 ^ 63) :
  let '(r, w') := apply zlib_deflate sha256 json media parse plan_disk replacement_disk approval node_stopped stem index w in
  is_panic r = false /\
  blen (w_data w') = blen (w_data w) /\
  (forall i, byte_at (w_data w') i <> byte_at (w_data w) i ->
     node_stopped = true /\ exists plan replacement ps e p k,
       read_plan sha256 parse plan_disk replacement_disk approval = Ok (plan, replacement) /\
       pieces (extents_of (pl_target plan)) replacement 0 = Ok ps /\ (e, p) ∈ ps /\ in_extent i e /\
       byte_at (w_data w') i = byte_at p (i - x_offset e) /\
       media_failed (mkDisk (w_data w) (md_sys media k)) (tg_record_size (pl_target plan)) e i) /\
  (forall o, r = Ok o ->
     node_stopped = true /\ exists plan replacement log,
       read_plan sha256 parse plan_disk replacement_disk approval = Ok (plan, replacement) /\
       open_log (mkLogFile stem (disk_now media w) index) = Ok log /\
       applied zlib zlib_deflate sha256 json media log plan replacement (w_data w) (w_data w') o).
Proof.
  unfold apply, sbind, sensure, slift. destruct node_stopped; [|done]. cbn [sret].
  pose proof (read_plan_spec sha256 parse plan_disk replacement_disk approval) as Hp.
  destruct (read_plan _ _ _ _ _) as [[plan replacement]|e|]; [|done|done]. destruct Hp as ((text & Ht) & Hl). destruct (Hparse text plan Ht) as [Hu Hs].
  pose proof (open_log_spec (mkLogFile stem (disk_now media w) index) Hsize) as Ho.
  destruct (open_log (mkLogFile stem (disk_now media w) index)) as [log|e|] eqn:Eo; [|done|done].
  destruct (open_log_disk _ _ Eo Hsize) as [Hlog Hdisk]. cbn [lf_log] in Hdisk.
  assert (Hw : blen (w_data w) = d_size (Log.log log)) by (by rewrite Hdisk).
  pose proof (apply_open_spec zlib zlib_deflate sha256 json media Hcodecs log Hlog plan replacement w Hw Hu Hs Hl) as H. cbn [fst snd].
  destruct (apply_open zlib_deflate sha256 json media log plan replacement w) as [r w']. destruct H as [(ps & [Hlen Hch] & Hps) Hr].
  split; [by destruct r|]. split; [done|]. split.
  - intros i Hi. split; [done|]. destruct (Hch i Hi) as (e & p & k & ? & ? & ? & ?). exists plan, replacement, ps, e, p, k. split; [done|].
    split; [|done]. apply Hps. intros E. by rewrite E in Hi.
  - intros o ->. split; [done|]. by exists plan, replacement, log.
Qed.

Lemma Ok_pair_inj {E A B} (a c : A) (b d : B) : Ok (E := E) (a, b) = Ok (c, d) -> a = c /\ b = d.
Proof. by intros [= -> ->]. Qed.

Lemma apply_safe_witness :
  w_data exa_run.2 = exa_log /\ byte_at exa_torn 600 = Some x00 /\ byte_at exa_log 600 = Some xab /\
  exists log, applied (R := level0_reset) zlib_level0 (fun _ _ => None) exf_sha exa_json exa_media log exa_plan (rb_replacement exa_rebuilt)
    exa_torn (w_data exa_run.2) (Applied [mkExtent 512 512]).
Proof.
  split; [vm_compute; reflexivity|]. split; [vm_compute; reflexivity|]. split; [vm_compute; reflexivity|].
  pose proof (apply_safe level0 level0_reset zlib_level0 level0_laws level0_reset_laws (fun _ _ => None) exf_sha exa_json exa_media
    (fun _ => Some exa_plan) (sound_disk [x7b; x7d]) (sound_disk (rb_replacement exa_rebuilt)) (hash exf_sha [x7b; x7d]) true
    (Some "blocks"%string) exa_index exa_world exa_codecs) as H.
  assert (Hp : forall (text : bytes) (plan : Plan), Some exa_plan = Some plan -> Forall extent_u64 (extents_of (pl_target plan)) /\ sources_ok (pl_sources plan)).
  { intros _ plan E. injection E as <-. split; [|exact exa_sources_ok]. constructor; [|constructor]. split; vm_compute; split; congruence. }
  specialize (H Hp ltac:(vm_compute; reflexivity)). fold exa_run in H. destruct exa_run as [r w'] eqn:E. destruct H as (_ & _ & _ & H).
  destruct (H (Applied [mkExtent 512 512])) as (_ & plan & replacement & log & Hr & _ & Ha).
  - pose proof (f_equal fst E) as E1. cbn [fst] in E1. rewrite <- E1. vm_compute. reflexivity.
  - exists log. cbn [snd]. assert (E2 : read_plan exf_sha (fun _ => Some exa_plan) (sound_disk [x7b; x7d]) (sound_disk (rb_replacement exa_rebuilt))
      (hash exf_sha [x7b; x7d]) = Ok (exa_plan, rb_replacement exa_rebuilt)) by (vm_compute; reflexivity).
    rewrite E2 in Hr. destruct (Ok_pair_inj _ _ _ _ Hr) as [<- <-]. exact Ha.
Defined.
