(* ===== verification/Segment.v ===== *)
(** * Frozen segments ([crates/wseg-build/src/wseg.rs], the readers of [aa_live.rs])

    A [.wseg] file holds tables; a table is an index of keys, sorted, and an arena of blobs. [write_segment] gives
    the bytes of the file, [open] and [lookup] are those of [BaseSeg], which reads the mapped file and panics where
    a slice is out of range. There are no error values: [res] has the empty type for them. *)

From stdpp Require Import sorting.
From S2P Require Import Prelude.
From S2P Require Import Cursor.

(** What code without error values returns. *)
Abbreviation out := (res Empty_set).

(** ** The writer *)

Definition MAGIC : bytes := [x57; x53; x45; x47; x30; x30; x30; x31].
Definition VERSION : Z := 1.
Definition HEADER_FIXED : Z := 40.
Definition DIR_ENTRY : Z := 48.
Definition INDEX_ENTRY : Z := 20.

Record IndexEntry := mkEntry { ie_key : Z; ie_off : Z; ie_len : Z }.

Record Table := mkTable { tb_id : Z; tb_index : list IndexEntry; tb_arena : bytes }.

Record Loc := mkLoc { lo_key_count : Z; lo_index_off : Z; lo_index_len : Z; lo_blob_off : Z; lo_blob_len : Z }.

Definition key_le (x y : IndexEntry) : Prop := ie_key x <= ie_key y.

#[export] Instance key_le_dec x y : Decision (key_le x y).
Proof. unfold key_le. apply _. Defined.

(** [t.index.sort_unstable_by_key(|e| e.key)]. *)
Definition sort_index (t : Table) : Table := mkTable (tb_id t) (merge_sort key_le (tb_index t)) (tb_arena t).

Definition table_loc (running : Z) (t : Table) : Loc :=
  let key_count := blen (tb_index t) in
  let index_len := key_count * INDEX_ENTRY in
  mkLoc key_count running index_len (running + index_len) (blen (tb_arena t)).

Fixpoint table_locs (running : Z) (ts : list Table) : list Loc :=
  match ts with
  | [] => []
  | t :: ts => let l := table_loc running t in l :: table_locs (lo_blob_off l + lo_blob_len l) ts
  end.

Definition header_bytes (n : Z) : bytes :=
  MAGIC ++ le_bytes 4 VERSION ++ le_bytes 4 0 ++ le_bytes 4 n ++ le_bytes 4 0 ++ le_bytes 8 0 ++ le_bytes 8 0.

Definition dir_bytes (t : Table) (l : Loc) : bytes :=
  le_bytes 4 (tb_id t) ++ le_bytes 4 INDEX_ENTRY ++ le_bytes 8 (lo_key_count l) ++ le_bytes 8 (lo_index_off l) ++
  le_bytes 8 (lo_index_len l) ++ le_bytes 8 (lo_blob_off l) ++ le_bytes 8 (lo_blob_len l).

Definition entry_bytes (e : IndexEntry) : bytes := le_bytes 8 (ie_key e) ++ le_bytes 8 (ie_off e) ++ le_bytes 4 (ie_len e).

Definition region_bytes (t : Table) : bytes := concat (entry_bytes <$> tb_index t) ++ tb_arena t.

(** The bytes of the file. *)
Definition write_segment (tables : list Table) : bytes :=
  let ts := sort_index <$> tables in
  let locs := table_locs (HEADER_FIXED + DIR_ENTRY * blen ts) ts in
  header_bytes (blen ts) ++ concat (zip_with dir_bytes ts locs) ++ concat (region_bytes <$> ts).

(** ** The reader *)

Record TableLoc := mkTableLoc { tl_key_count : Z; tl_index_off : Z; tl_blob_off : Z }.

Record BaseSeg := mkBase { bs_mmap : bytes; bs_tables : gmap Z TableLoc }.

Definition rdu32 (b : bytes) (o : Z) : out Z := let? x := or_panic (slice b o 4) in Ok (le_of x).
Definition rdu64 (b : bytes) (o : Z) : out Z := let? x := or_panic (slice b o 8) in Ok (le_of x).

(** One entry of the directory, at [p]. *)
Definition open_table (mmap : bytes) (a : Z * gmap Z TableLoc) : out (Z * gmap Z TableLoc) :=
  let '(p, tables) := a in
  let? table_id := rdu32 mmap p in
  let? key_count := rdu64 mmap (add64 p 8) in
  let? index_off := rdu64 mmap (add64 p 16) in
  let? blob_off := rdu64 mmap (add64 p 32) in
  Ok (add64 p 48, <[table_id := mkTableLoc key_count index_off blob_off]> tables).

Definition open (mmap : bytes) : out BaseSeg :=
  let? magic := or_panic (slice mmap 0 8) in
  do? (if bool_decide (magic = MAGIC) then Ok () else Panic) ;;
  let? table_count := rdu32 mmap 16 in
  let? a := (for_count table_count (fun a => slift (open_table mmap a)) (40, ∅) ()).1 in
  Ok (mkBase mmap a.2).

Section Reading.
Context (seg : BaseSeg).

(** The blob of the entry at [o]. *)
Definition blob_at (t : TableLoc) (o : Z) : out bytes :=
  let? off := rdu64 (bs_mmap seg) (add64 o 8) in
  let? len := rdu32 (bs_mmap seg) (add64 o 16) in
  or_panic (slice (bs_mmap seg) (add64 (tl_blob_off t) off) len).

Definition lookup_iter (t : TableLoc) (key : Z) (a : Z * Z) : M Empty_set () (ctl (Z * Z) (option bytes)) :=
  let '(lo, hi) := a in
  if lo <? hi then
    let mid := add64 lo hi / 2 in
    let o := add64 (tl_index_off t) (mul64 mid 20) in
    let! k := slift (rdu64 (bs_mmap seg) o) in
    if k <? key then sret (Cont (mid + 1, hi))
    else if key <? k then sret (Cont (lo, mid))
    else let! b := slift (blob_at t o) in sret (Break (Some b))
  else sret (Break None).

(** [BaseSeg::lookup]. *)
Definition lookup (table_id key : Z) : out (option bytes) :=
  match bs_tables seg !! table_id with
  | None => Ok None
  | Some t => (loop_ (lookup_iter t key) (0, tl_key_count t) ()).1
  end.

(** [BaseSeg::sentinel_blob]. *)
Definition sentinel_blob (table_id : Z) : out (option bytes) :=
  match bs_tables seg !! table_id with
  | None => Ok None
  | Some t =>
      if tl_key_count t =? 0 then Ok None
      else let? b := blob_at t (tl_index_off t) in Ok (Some b)
  end.

Definition entry_step (t : TableLoc) (a : Z * list (Z * bytes)) : out (Z * list (Z * bytes)) :=
  let '(i, acc) := a in
  let o := add64 (tl_index_off t) (mul64 i 20) in
  let? key := rdu64 (bs_mmap seg) o in
  let? b := blob_at t o in
  Ok (i + 1, acc ++ [(key, b)]).

(** [BaseSeg::for_each_entry]: what its callback is given, in order. *)
Definition for_each_entry (table_id : Z) : out (list (Z * bytes)) :=
  match bs_tables seg !! table_id with
  | None => Ok []
  | Some t =>
      let? a := (for_count (tl_key_count t) (fun a => slift (entry_step t a)) (0, []) ()).1 in
      Ok a.2
  end.
End Reading.

(** ** Counted loops that do not fail *)

Lemma for_count_ok {E A} (I : Z -> A -> Prop) (body : A -> res E A) n a :
  0 <= n -> I 0 a -> (forall i a, 0 <= i < n -> I i a -> exists a', body a = Ok a' /\ I (i + 1) a') ->
  exists a', (for_count n (fun a => slift (body a)) a ()).1 = Ok a' /\ I n a'.
Proof.
  intros Hn H0 Hstep. rewrite for_count_nat.
  assert (H : forall k i a, I i a -> 0 <= i -> i + Z.of_nat k = n ->
    exists a', (for_nat k (fun a => slift (body a)) a ()).1 = Ok a' /\ I n a').
  { induction k as [|k IH]; intros i b Hi H1 H2; cbn [for_nat].
    - exists b. split; [done|]. replace n with i by lia. done.
    - destruct (Hstep i b ltac:(lia) Hi) as (b' & Hb & Hi'). unfold sbind, slift at 1. rewrite Hb.
      apply (IH (i + 1)); [done|lia|lia]. }
  apply (H _ 0 a H0); lia.
Qed.

Lemma add64_id a b : 0 <= a + b < U64 -> add64 a b = a + b.
Proof. intros H. unfold add64, wrap64. by rewrite Z.mod_small. Qed.

Lemma mul64_id a b : 0 <= a * b < U64 -> mul64 a b = a * b.
Proof. intros H. unfold mul64, wrap64. by rewrite Z.mod_small. Qed.

Lemma rdu32_slice b o z c : slice b o 4 = Some (le_bytes 4 z) -> z = c -> is_u32 z -> rdu32 b o = Ok c.
Proof. intros H <- Hz. unfold rdu32. rewrite H. cbn [or_panic rbind]. rewrite le_of_le_bytes_id; [done|width_lia]. Qed.

Lemma rdu64_slice b o z c : slice b o 8 = Some (le_bytes 8 z) -> z = c -> is_u64 z -> rdu64 b o = Ok c.
Proof. intros H <- Hz. unfold rdu64. rewrite H. cbn [or_panic rbind]. rewrite le_of_le_bytes_id; [done|width_lia]. Qed.

(** ** Where the writer puts things *)

Lemma blen_entry_bytes e : blen (entry_bytes e) = 20.
Proof. unfold entry_bytes. autorewrite with blen. done. Qed.

Lemma blen_dir_bytes t l : blen (dir_bytes t l) = 48.
Proof. unfold dir_bytes. autorewrite with blen. done. Qed.

Lemma blen_header_bytes n : blen (header_bytes n) = 40.
Proof. unfold header_bytes. autorewrite with blen. done. Qed.

(** In a concatenation of parts of one length, the parts are where the length says. *)
Lemma concat_slice {A} (f : A -> bytes) n xs i x :
  (forall x, blen (f x) = n) -> xs !! i = Some x -> slice (concat (f <$> xs)) (n * Z.of_nat i) n = Some (f x).
Proof.
  intros Hf. revert i. induction xs as [|y xs IH]; intros i Hx; [done|].
  pose proof (blen_nonneg (f y)). rewrite fmap_cons. cbn [concat]. destruct i as [|i]; cbn in Hx.
  - injection Hx as <-. apply slice_app_l. rewrite Z.mul_0_r. by apply slice_full.
  - rewrite slice_app_r by (rewrite Hf; specialize (Hf y); nia). rewrite Hf, <- (IH i Hx). f_equal. lia.
Qed.

Lemma blen_concat {A} (f : A -> bytes) n xs : (forall x, blen (f x) = n) -> blen (concat (f <$> xs)) = n * blen xs.
Proof.
  intros Hf. induction xs as [|y xs IH]; [by rewrite Z.mul_0_r|]. rewrite fmap_cons. cbn [concat].
  autorewrite with blen. rewrite Hf, IH. lia.
Qed.

Definition entry_blob (t : Table) (e : IndexEntry) : bytes := take (Z.to_nat (ie_len e)) (drop (Z.to_nat (ie_off e)) (tb_arena t)).

Definition entry_ok (n : Z) (e : IndexEntry) : Prop := is_u64 (ie_key e) /\ 0 <= ie_off e /\ is_u32 (ie_len e) /\ ie_off e + ie_len e <= n.

Record table_ok (t : Table) : Prop := {
  to_id : is_u32 (tb_id t);
  to_keys : NoDup (ie_key <$> tb_index t);
  to_entries : Forall (entry_ok (blen (tb_arena t))) (tb_index t)
}.

(** The table [t] is in the file, as [tl] says. *)
Record stored (file : bytes) (t : Table) (tl : TableLoc) : Prop := {
  st_count : tl_key_count tl = blen (tb_index t);
  st_index : slice file (tl_index_off tl) (20 * blen (tb_index t)) = Some (concat (entry_bytes <$> tb_index t));
  st_arena : slice file (tl_blob_off tl) (blen (tb_arena t)) = Some (tb_arena t)
}.

Definition loc_of (l : Loc) : TableLoc := mkTableLoc (lo_key_count l) (lo_index_off l) (lo_blob_off l).

Lemma length_table_locs run ts : length (table_locs run ts) = length ts.
Proof. revert run. induction ts as [|t ts IH]; intros run; [done|]. cbn. by rewrite IH. Qed.

Lemma table_loc_end run t : lo_blob_off (table_loc run t) + lo_blob_len (table_loc run t) = run + blen (region_bytes t).
Proof.
  unfold table_loc, region_bytes. cbn [lo_blob_off lo_blob_len]. autorewrite with blen.
  rewrite (blen_concat entry_bytes 20) by apply blen_entry_bytes. unfold INDEX_ENTRY. lia.
Qed.

Lemma stored_at pre post t :
  stored (pre ++ region_bytes t ++ post) t (loc_of (table_loc (blen pre) t)).
Proof.
  unfold region_bytes. rewrite <- !app_assoc.
  assert (Hl : blen (concat (entry_bytes <$> tb_index t)) = 20 * blen (tb_index t)) by (apply blen_concat, blen_entry_bytes).
  split; [done| |]; cbn [loc_of tl_index_off tl_blob_off table_loc lo_index_off lo_blob_off].
  - by apply slice_mid.
  - rewrite app_assoc. apply slice_mid; [|done]. autorewrite with blen. rewrite Hl. unfold INDEX_ENTRY. lia.
Qed.

Lemma stored_locs pre ts post i t l :
  ts !! i = Some t -> table_locs (blen pre) ts !! i = Some l ->
  stored (pre ++ concat (region_bytes <$> ts) ++ post) t (loc_of l) /\
  lo_index_off l <= blen pre + blen (concat (region_bytes <$> ts)) /\ lo_blob_off l <= blen pre + blen (concat (region_bytes <$> ts)) /\
  blen pre <= lo_index_off l /\ blen pre <= lo_blob_off l /\ lo_key_count l = blen (tb_index t).
Proof.
  revert pre i. induction ts as [|u ts IH]; intros pre i Ht Hl; [done|].
  rewrite fmap_cons. cbn [concat table_locs] in *. rewrite <- app_assoc. autorewrite with blen.
  pose proof (table_loc_end (blen pre) u) as He. pose proof (blen_nonneg (concat (region_bytes <$> ts))).
  destruct i as [|i].
  - injection Ht as ->. injection Hl as <-. split; [apply stored_at|].
    cbn [table_loc lo_index_off lo_blob_off lo_blob_len lo_key_count] in *. pose proof (blen_nonneg (tb_arena t)).
    pose proof (blen_nonneg (tb_index t)). unfold INDEX_ENTRY in *. pose proof (blen_nonneg (region_bytes t)). lia.
  - change (table_locs (lo_blob_off (table_loc (blen pre) u) + lo_blob_len (table_loc (blen pre) u)) ts !! i = Some l) in Hl.
    change (ts !! i = Some t) in Ht. rewrite He in Hl. pose proof (IH (pre ++ region_bytes u) i Ht) as IH'. autorewrite with blen in IH'.
    specialize (IH' Hl) as (Hs & H1 & H2 & H3 & H4 & H5). rewrite <- app_assoc in Hs. split; [done|].
    pose proof (blen_nonneg (region_bytes u)). lia.
Qed.

(** Sortedness by positions. *)
Lemma sorted_lookup {A} (R : A -> A -> Prop) l (i j : nat) x y :
  StronglySorted R l -> l !! i = Some x -> l !! j = Some y -> (i < j)%nat -> R x y.
Proof.
  intros Hs. revert i j. induction Hs as [|z l Hl IH Hz]; intros i j Hx Hy Hij; [done|].
  destruct j as [|j]; [lia|]. cbn in Hy. destruct i as [|i]; cbn in Hx; [|apply (IH i j Hx Hy); lia].
  injection Hx as <-. rewrite list.Forall_forall in Hz. apply Hz. by eapply list_elem_of_lookup_2.
Qed.

(** ** Reading a table back *)
Section Stored.
Context (seg : BaseSeg) (t : Table) (tl : TableLoc).
Context (Hsize : blen (bs_mmap seg) < 2 ^ 63) (Hst : stored (bs_mmap seg) t tl).
Context (Hoff : 0 <= tl_index_off tl) (Hblob : 0 <= tl_blob_off tl).
Context (Hentries : Forall (entry_ok (blen (tb_arena t))) (tb_index t)).

Lemma stored_bounds : tl_index_off tl + 20 * blen (tb_index t) < 2 ^ 63 /\ tl_blob_off tl + blen (tb_arena t) < 2 ^ 63.
Proof.
  destruct Hst as [_ Hi Ha]. apply slice_Some in Hi as (_ & _ & Hi & _). apply slice_Some in Ha as (_ & _ & Ha & _). lia.
Qed.

Lemma entry_slices (i : nat) e :
  tb_index t !! i = Some e ->
  let o := tl_index_off tl + 20 * Z.of_nat i in
  slice (bs_mmap seg) o 8 = Some (le_bytes 8 (ie_key e)) /\
  slice (bs_mmap seg) (o + 8) 8 = Some (le_bytes 8 (ie_off e)) /\
  slice (bs_mmap seg) (o + 16) 4 = Some (le_bytes 4 (ie_len e)) /\ 0 <= o < 2 ^ 63 - 20.
Proof.
  intros He o. pose proof (concat_slice entry_bytes 20 _ i e blen_entry_bytes He) as Hs.
  pose proof (slice_blen _ _ _ _ (st_index _ _ _ Hst)) as Hl.
  pose proof (lookup_lt_Some _ _ _ He) as Hi. assert (Z.of_nat i < blen (tb_index t)) by (unfold blen; lia).
  rewrite (slice_slice _ _ _ _ _ _ (st_index _ _ _ Hst)) in Hs by lia. fold o in Hs.
  pose proof stored_bounds as [Hb _].
  assert (Hpart : forall a x, slice (entry_bytes e) a (blen x) = Some x -> 0 <= a -> a + blen x <= 20 ->
    slice (bs_mmap seg) (o + a) (blen x) = Some x).
  { intros a x Hx H1 H2. rewrite <- Hx. symmetry. apply (slice_slice _ _ _ _ _ _ Hs); [done|apply blen_nonneg|done]. }
  split_and!; [| | |unfold o; lia|unfold o; lia].
  - specialize (Hpart 0 (le_bytes 8 (ie_key e))). rewrite blen_le_bytes, Z.add_0_r in Hpart.
    apply Hpart; [|lia|lia]. unfold entry_bytes. apply slice_app_l. by apply slice_full.
  - specialize (Hpart 8 (le_bytes 8 (ie_off e))). rewrite blen_le_bytes in Hpart.
    apply Hpart; [|lia|lia]. unfold entry_bytes. by apply slice_mid.
  - specialize (Hpart 16 (le_bytes 4 (ie_len e))). rewrite blen_le_bytes in Hpart.
    apply Hpart; [|lia|lia]. unfold entry_bytes. rewrite app_assoc, <- (app_nil_r (le_bytes 4 _)). by apply slice_mid.
Qed.

Lemma entry_reads (i : nat) e :
  tb_index t !! i = Some e ->
  let o := add64 (tl_index_off tl) (mul64 (Z.of_nat i) 20) in
  rdu64 (bs_mmap seg) o = Ok (ie_key e) /\ blob_at seg tl o = Ok (entry_blob t e).
Proof.
  intros He o. destruct (entry_slices i e He) as (H1 & H2 & H3 & H4).
  assert (Ho : o = tl_index_off tl + 20 * Z.of_nat i).
  { unfold o. rewrite mul64_id by width_lia. rewrite add64_id by width_lia. lia. }
  rewrite Ho. pose proof (list.Forall_lookup_1 _ _ _ _ Hentries He) as (Hk & Hof & Hle & Hin).
  pose proof stored_bounds as [_ Hb].
  split; [by eapply rdu64_slice|]. unfold blob_at. rewrite !add64_id by width_lia.
  rewrite (rdu64_slice _ _ _ (ie_off e) H2 eq_refl) by width_lia. cbn [rbind].
  rewrite (rdu32_slice _ _ _ (ie_len e) H3 eq_refl) by done. cbn [rbind].
  rewrite add64_id by width_lia.
  rewrite <- (slice_slice _ _ _ _ (ie_off e) (ie_len e) (st_arena _ _ _ Hst)) by (unfold is_u32 in *; lia).
  destruct (slice (tb_arena t) (ie_off e) (ie_len e)) as [x|] eqn:Hx.
  - by apply slice_Some in Hx as (_ & _ & _ & ->).
  - apply slice_None in Hx. unfold is_u32 in *. lia.
Qed.

Lemma for_each_stored id : bs_tables seg !! id = Some tl -> for_each_entry seg id = Ok ((fun e => (ie_key e, entry_blob t e)) <$> tb_index t).
Proof.
  intros Hid. unfold for_each_entry. rewrite Hid, (st_count _ _ _ Hst).
  destruct (for_count_ok (fun i a => a = (i, (fun e => (ie_key e, entry_blob t e)) <$> take (Z.to_nat i) (tb_index t)))
    (entry_step seg tl) (blen (tb_index t)) (0, [])) as (a & Ha & ->).
  - apply blen_nonneg.
  - done.
  - intros i a Hi ->. destruct (lookup_lt_is_Some_2 (tb_index t) (Z.to_nat i)) as [e He]; [unfold blen in Hi; lia|].
    destruct (entry_reads _ _ He) as [H1 H2]. rewrite Z2Nat.id in H1, H2 by lia. eexists. split.
    + unfold entry_step. rewrite H1. cbn [rbind]. rewrite H2. done.
    + rewrite Z2Nat.inj_add, Nat.add_1_r, (take_S_r _ _ e), fmap_app by (lia || done). done.
  - rewrite Ha. cbn [rbind snd]. unfold blen. by rewrite Nat2Z.id, take_ge by done.
Qed.

Lemma sentinel_stored id e es : bs_tables seg !! id = Some tl -> tb_index t = e :: es -> sentinel_blob seg id = Ok (Some (entry_blob t e)).
Proof.
  intros Hid He. unfold sentinel_blob. rewrite Hid, (st_count _ _ _ Hst).
  destruct (Z.eqb_spec (blen (tb_index t)) 0) as [H0|H0]; [rewrite He, blen_cons in H0; pose proof (blen_nonneg es); lia|].
  destruct (entry_reads 0 e) as [_ Hb]; [by rewrite He|].
  rewrite mul64_id, add64_id in Hb by (pose proof stored_bounds; pose proof (blen_nonneg (tb_index t)); width_lia).
  rewrite Z.mul_0_l, Z.add_0_r in Hb. by rewrite Hb.
Qed.

(** The search finds the entry of the key, if there is one. *)
Lemma lookup_stored id key :
  StronglySorted (fun x y => ie_key x < ie_key y) (tb_index t) -> bs_tables seg !! id = Some tl ->
  exists r, lookup seg id key = Ok r /\
    match r with
    | Some b => exists e, e ∈ tb_index t /\ ie_key e = key /\ b = entry_blob t e
    | None => forall e, e ∈ tb_index t -> ie_key e <> key
    end.
Proof.
  intros Hsort Hid. unfold lookup. rewrite Hid, (st_count _ _ _ Hst). set (n := blen (tb_index t)).
  pose proof (blen_nonneg (tb_index t)). pose proof stored_bounds as [Hb _]. fold n in Hb.
  assert (Hlt : forall (i j : nat) x y, tb_index t !! i = Some x -> tb_index t !! j = Some y -> (i < j)%nat -> ie_key x < ie_key y).
  { intros i j x y. exact (sorted_lookup _ _ i j x y Hsort). }
  apply (loop_spec
    (fun a _ => 0 <= a.1 <= a.2 /\ a.2 <= n /\
       (forall (i : nat) e, tb_index t !! i = Some e -> Z.of_nat i < a.1 -> ie_key e < key) /\
       (forall (i : nat) e, tb_index t !! i = Some e -> a.2 <= Z.of_nat i -> key < ie_key e))
    (fun a _ => a.2 - a.1)
    (fun r _ => exists b, r = Ok b /\
       match b with
       | Some b => exists e, e ∈ tb_index t /\ ie_key e = key /\ b = entry_blob t e
       | None => forall e, e ∈ tb_index t -> ie_key e <> key
       end)).
  - intros [lo hi] [] (H1 & H2 & H3 & H4). cbn [fst snd] in *. unfold lookup_iter. destruct (Z.ltb_spec lo hi) as [Hlh|Hlh].
    + assert (Hs : 0 <= lo + hi < U64) by (width_lia). rewrite (add64_id lo hi Hs). set (mid := (lo + hi) / 2).
      assert (Hmid : lo <= mid < hi) by (unfold mid; pose proof (Z.div_mod (lo + hi) 2 ltac:(lia)); pose proof (Z.mod_pos_bound (lo + hi) 2 ltac:(lia)); lia).
      destruct (lookup_lt_is_Some_2 (tb_index t) (Z.to_nat mid)) as [e He]; [unfold n, blen in *; lia|].
      destruct (entry_reads _ _ He) as [Hr1 Hr2]. rewrite Z2Nat.id in Hr1, Hr2 by lia. unfold sbind, slift, sret. rewrite Hr1.
      destruct (Z.ltb_spec (ie_key e) key); [|destruct (Z.ltb_spec key (ie_key e))].
      * cbn [fst snd]. split; [|lia]. split; [lia|]. split; [lia|]. split; [|done]. intros i x Hx Hi.
        destruct (decide (i = Z.to_nat mid)) as [->|]; [naive_solver|]. pose proof (Hlt i (Z.to_nat mid) x e Hx He). lia.
      * cbn [fst snd]. split; [|lia]. split; [lia|]. split; [lia|]. split; [done|]. intros i x Hx Hi.
        destruct (decide (i = Z.to_nat mid)) as [->|]; [naive_solver|]. pose proof (Hlt (Z.to_nat mid) i e x He Hx). lia.
      * rewrite Hr2. eexists. split; [done|]. exists e. split; [by eapply list_elem_of_lookup_2|]. split; [lia|done].
    + cbn. exists None. split; [done|]. intros e [i Hi]%list_elem_of_lookup_1.
      destruct (Z.lt_ge_cases (Z.of_nat i) lo); [specialize (H3 i e Hi)|specialize (H4 i e Hi)]; lia.
  - cbn [fst snd]. split; [lia|]. split; [lia|]. split; [lia|]. intros i e Hi Hn.
    apply lookup_lt_Some in Hi. unfold n, blen in Hn. lia.
  - cbn [fst snd]. unfold n in *. lia.
Qed.
End Stored.

(** ** Opening what was written *)

Definition find_table (ts : list Table) (id : Z) : option Table := List.find (fun t => tb_id t =? id) ts.
Definition find_key (t : Table) (key : Z) : option bytes := entry_blob t <$> List.find (fun e => ie_key e =? key) (tb_index t).

Record tables_ok (ts : list Table) : Prop := {
  ts_ids : NoDup (tb_id <$> ts);
  ts_tables : Forall table_ok ts;
  ts_count : blen ts < U32;
  ts_size : blen (write_segment ts) < 2 ^ 63
}.

Lemma sort_index_ok t : table_ok t -> table_ok (sort_index t) /\ StronglySorted (fun x y => ie_key x < ie_key y) (tb_index (sort_index t)).
Proof.
  intros [Hid Hk He]. cbn [sort_index tb_index]. pose proof (merge_sort_Permutation key_le (tb_index t)) as Hp. split.
  - split; cbn [sort_index tb_id tb_index tb_arena]; [done|by rewrite Hp|by rewrite Hp].
  - assert (Hs : StronglySorted key_le (merge_sort key_le (tb_index t))).
    { apply StronglySorted_merge_sort; unfold key_le; [intros x y z; lia|intros x y; lia]. }
    assert (Hn : NoDup (ie_key <$> merge_sort key_le (tb_index t))) by (by rewrite Hp).
    clear Hp He Hk. induction Hs as [|x l Hl IH Hx]; [constructor|]. rewrite fmap_cons in Hn. apply list.NoDup_cons in Hn as [Hx' Hn].
    constructor; [by apply IH|]. rewrite list.Forall_forall in Hx |- *. intros y Hy. specialize (Hx y Hy). unfold key_le in Hx.
    assert (ie_key x <> ie_key y); [|lia]. intros E. apply Hx'. rewrite E. by apply list_elem_of_fmap_2.
Qed.

Lemma find_unique {A} (f : A -> Z) l k x : NoDup (f <$> l) -> x ∈ l -> f x = k -> List.find (fun y => f y =? k) l = Some x.
Proof.
  intros Hn Hx Hk. induction l as [|y l IH]; [by inversion Hx|].
  rewrite fmap_cons in Hn. apply list.NoDup_cons in Hn as [Hy Hn]. cbn. destruct (Z.eqb_spec (f y) k) as [E|E].
  - apply elem_of_cons in Hx as [->|Hx]; [done|]. exfalso. apply Hy. rewrite E, <- Hk. by apply list_elem_of_fmap_2.
  - apply elem_of_cons in Hx as [->|Hx]; [done|]. by apply IH.
Qed.

Lemma find_absent {A} (f : A -> Z) l k : (forall x, x ∈ l -> f x <> k) -> List.find (fun y => f y =? k) l = None.
Proof.
  intros H. destruct (List.find _ l) as [x|] eqn:E; [|done]. apply List.find_some in E as [E1 E2].
  apply list_elem_of_In in E1. apply Z.eqb_eq in E2. by destruct (H x E1).
Qed.

Lemma find_table_sorted ts id : find_table (sort_index <$> ts) id = sort_index <$> find_table ts id.
Proof. induction ts as [|t ts IH]; [done|]. rewrite fmap_cons. unfold find_table in *. cbn. destruct (tb_id t =? id); [done|apply IH]. Qed.

Lemma find_table_Some ts id t : find_table ts id = Some t -> t ∈ ts /\ tb_id t = id.
Proof. intros H. apply List.find_some in H as [H1 H2]. split; [by apply list_elem_of_In|]. by apply Z.eqb_eq. Qed.

(** What a directory entry reads as. *)
Lemma dir_reads file p t l a :
  slice file p 48 = Some (dir_bytes t l) -> 0 <= p < 2 ^ 63 - 48 -> is_u32 (tb_id t) ->
  is_u64 (lo_key_count l) -> is_u64 (lo_index_off l) -> is_u64 (lo_blob_off l) ->
  open_table file (p, a) = Ok (p + 48, <[tb_id t := loc_of l]> a).
Proof.
  intros Hs Hp Hid H1 H2 H3. unfold open_table.
  assert (Hpart : forall pre x post, dir_bytes t l = pre ++ x ++ post -> slice file (p + blen pre) (blen x) = Some x).
  { intros pre x post E. pose proof (blen_dir_bytes t l) as Hl. rewrite E, !blen_app in Hl.
    pose proof (blen_nonneg pre). pose proof (blen_nonneg x). pose proof (blen_nonneg post).
    rewrite <- (slice_slice _ _ _ _ (blen pre) (blen x) Hs) by lia. rewrite E. by apply slice_mid. }
  rewrite !add64_id by width_lia. unfold dir_bytes in Hpart.
  pose proof (Hpart [] (le_bytes 4 (tb_id t)) _ eq_refl) as P1.
  pose proof (Hpart (le_bytes 4 (tb_id t) ++ le_bytes 4 INDEX_ENTRY) (le_bytes 8 (lo_key_count l)) _ ltac:(by rewrite <- !app_assoc)) as P2.
  pose proof (Hpart (le_bytes 4 (tb_id t) ++ le_bytes 4 INDEX_ENTRY ++ le_bytes 8 (lo_key_count l)) (le_bytes 8 (lo_index_off l)) _
    ltac:(by rewrite <- !app_assoc)) as P3.
  pose proof (Hpart (le_bytes 4 (tb_id t) ++ le_bytes 4 INDEX_ENTRY ++ le_bytes 8 (lo_key_count l) ++ le_bytes 8 (lo_index_off l) ++
    le_bytes 8 (lo_index_len l)) (le_bytes 8 (lo_blob_off l)) _ ltac:(by rewrite <- !app_assoc)) as P4.
  autorewrite with blen in P1, P2, P3, P4. rewrite Z.add_0_r in P1.
  change (Z.of_nat 4 + Z.of_nat 4) with 8 in P2. change (Z.of_nat 4 + (Z.of_nat 4 + Z.of_nat 8)) with 16 in P3.
  change (Z.of_nat 4 + (Z.of_nat 4 + (Z.of_nat 8 + (Z.of_nat 8 + Z.of_nat 8)))) with 32 in P4.
  rewrite (rdu32_slice _ _ _ _ P1 eq_refl) by done. cbn [rbind].
  rewrite (rdu64_slice _ _ _ _ P2 eq_refl) by done. cbn [rbind].
  rewrite (rdu64_slice _ _ _ _ P3 eq_refl) by done. cbn [rbind].
  rewrite (rdu64_slice _ _ _ _ P4 eq_refl) by done. done.
Qed.

Lemma concat_zip_slice ts locs (i : nat) t l :
  ts !! i = Some t -> locs !! i = Some l ->
  slice (concat (zip_with dir_bytes ts locs)) (48 * Z.of_nat i) 48 = Some (dir_bytes t l).
Proof.
  intros Ht Hl. rewrite zip_with_zip. apply (concat_slice (uncurry dir_bytes) 48 (zip ts locs) i (t, l)).
  - intros []. apply blen_dir_bytes.
  - by rewrite lookup_zip_with, Ht, Hl.
Qed.

Lemma blen_dirs ts locs : length locs = length ts -> blen (concat (zip_with dir_bytes ts locs)) = 48 * blen ts.
Proof.
  intros Hl. rewrite zip_with_zip, (blen_concat _ 48) by (intros []; apply blen_dir_bytes).
  unfold blen. rewrite length_zip_with_l_eq; [done|by rewrite Hl].
Qed.

Definition directory (ts : list Table) (locs : list Loc) : gmap Z TableLoc :=
  list_to_map (reverse ((fun q => (tb_id q.1, loc_of q.2)) <$> zip ts locs)).

Lemma directory_snoc ts locs t l :
  length ts = length locs -> directory (ts ++ [t]) (locs ++ [l]) = <[tb_id t := loc_of l]> (directory ts locs).
Proof. intros H. unfold directory. rewrite zip_with_app, fmap_app, reverse_app by done. done. Qed.

Lemma directory_keys ts locs : length locs = length ts ->
  fst <$> reverse ((fun q => (tb_id q.1, loc_of q.2)) <$> zip ts locs) = reverse (tb_id <$> ts).
Proof.
  intros H. rewrite fmap_reverse, <- list_fmap_compose. f_equal.
  rewrite <- (fst_zip ts locs) at 2 by lia. by rewrite <- list_fmap_compose.
Qed.

Lemma directory_Some ts locs (i : nat) t l :
  NoDup (tb_id <$> ts) -> length locs = length ts -> ts !! i = Some t -> locs !! i = Some l ->
  directory ts locs !! tb_id t = Some (loc_of l).
Proof.
  intros Hn Hl Ht Hi. apply elem_of_list_to_map_1; [rewrite directory_keys by done; by rewrite reverse_Permutation|].
  apply elem_of_reverse, list_elem_of_fmap. exists (t, l). split; [done|]. apply (list_elem_of_lookup_2 _ i).
  by rewrite lookup_zip_with, Ht, Hi.
Qed.

Lemma directory_None ts locs id : length locs = length ts -> (forall t, t ∈ ts -> tb_id t <> id) -> directory ts locs !! id = None.
Proof.
  intros Hl H. apply not_elem_of_list_to_map_1. rewrite directory_keys by done. rewrite elem_of_reverse.
  intros (t & -> & Ht)%list_elem_of_fmap. by apply (H t).
Qed.

Section Written.
Context (ts : list Table) (Hok : tables_ok ts).

Let us : list Table := sort_index <$> ts.
Let n : Z := blen us.
Let base : Z := HEADER_FIXED + DIR_ENTRY * n.
Let locs : list Loc := table_locs base us.
Let file : bytes := write_segment ts.

Lemma written_locs : length locs = length us.
Proof. apply length_table_locs. Qed.

Lemma written_count : n = blen ts /\ is_u32 n.
Proof.
  assert (E : n = blen ts) by (unfold n, us, blen; by rewrite length_fmap).
  split; [done|]. rewrite E. pose proof (blen_nonneg ts). pose proof (ts_count _ Hok). width_lia.
Qed.

Lemma written_parts : file = (header_bytes n ++ concat (zip_with dir_bytes us locs)) ++ concat (region_bytes <$> us) /\
  blen (header_bytes n ++ concat (zip_with dir_bytes us locs)) = base.
Proof.
  split; [by rewrite <- app_assoc|]. autorewrite with blen. rewrite blen_header_bytes, blen_dirs by apply written_locs. done.
Qed.

Lemma written_size : base <= blen file < 2 ^ 63.
Proof.
  destruct written_parts as [E Hb]. split; [|exact (ts_size _ Hok)]. rewrite E, blen_app, Hb.
  pose proof (blen_nonneg (concat (region_bytes <$> us))). lia.
Qed.

Lemma written_stored (i : nat) u l :
  us !! i = Some u -> locs !! i = Some l ->
  stored file u (loc_of l) /\ 0 <= lo_index_off l < 2 ^ 63 /\ 0 <= lo_blob_off l < 2 ^ 63 /\ is_u64 (lo_key_count l).
Proof.
  intros Hu Hl. destruct written_parts as [E Hb]. pose proof written_size as Hs. pose proof (blen_nonneg us) as Hn. fold n in Hn.
  unfold locs in Hl. rewrite <- Hb in Hl. destruct (stored_locs _ us [] i u l Hu Hl) as (H1 & H2 & H3 & H4 & H5 & H6).
  rewrite app_nil_r, <- E in H1. rewrite Hb in *. rewrite E, blen_app, Hb in Hs. unfold base, HEADER_FIXED, DIR_ENTRY in *.
  split; [done|]. split; [lia|]. split; [lia|]. rewrite H6. pose proof (blen_nonneg (tb_index u)).
  pose proof (st_index _ _ _ H1) as Hi. apply slice_Some in Hi as (_ & _ & Hi & _). change (Z.of_nat _) with (blen file) in Hi. rewrite E, blen_app, Hb in Hi. cbn [loc_of tl_index_off] in Hi. width_lia.
Qed.

Lemma written_magic : slice file 0 8 = Some MAGIC /\ rdu32 file 16 = Ok n.
Proof.
  destruct written_parts as [E _]. rewrite E, <- app_assoc. split.
  - apply slice_app_l. unfold header_bytes. apply slice_app_l. by apply slice_full.
  - apply (rdu32_slice _ _ n); [|done|apply written_count]. apply slice_app_l. unfold header_bytes.
    rewrite (app_assoc MAGIC), (app_assoc (MAGIC ++ _)). by apply slice_mid.
Qed.

Lemma written_dir (i : nat) u l : us !! i = Some u -> locs !! i = Some l -> slice file (40 + 48 * Z.of_nat i) 48 = Some (dir_bytes u l).
Proof.
  intros Hu Hl. destruct written_parts as [E _]. rewrite E, <- app_assoc, slice_app_r by (rewrite blen_header_bytes; lia).
  rewrite blen_header_bytes. apply slice_app_l. replace (40 + 48 * Z.of_nat i - 40) with (48 * Z.of_nat i) by lia.
  by apply concat_zip_slice.
Qed.

Lemma open_step (i : Z) :
  0 <= i < n -> exists u l, us !! Z.to_nat i = Some u /\ locs !! Z.to_nat i = Some l /\
    forall a, open_table file (40 + 48 * i, a) = Ok (40 + 48 * (i + 1), <[tb_id u := loc_of l]> a).
Proof.
  intros Hi. pose proof written_locs as Hl. pose proof written_size as Hs.
  destruct (lookup_lt_is_Some_2 us (Z.to_nat i)) as [u Hu]; [unfold n, blen in Hi; lia|].
  destruct (lookup_lt_is_Some_2 locs (Z.to_nat i)) as [l Hll]; [unfold n, blen in Hi; lia|].
  exists u, l. split; [done|]. split; [done|]. intros a. destruct (written_stored _ _ _ Hu Hll) as (_ & H1 & H2 & H3).
  pose proof (written_dir _ _ _ Hu Hll) as Hd. rewrite Z2Nat.id in Hd by lia.
  rewrite (dir_reads _ _ u l); [do 2 f_equal; lia|done| | |done|width_lia|width_lia].
  - unfold base, HEADER_FIXED, DIR_ENTRY in Hs. lia.
  - apply list_elem_of_lookup_2 in Hu. apply list_elem_of_fmap in Hu as (t & -> & Ht). destruct Hok as [_ Ht' _ _].
    rewrite list.Forall_forall in Ht'. exact (to_id _ (Ht' t Ht)).
Qed.

Lemma open_written : open file = Ok (mkBase file (directory us locs)).
Proof.
  unfold open. destruct written_magic as [-> ->]. cbn [or_panic rbind]. rewrite bool_decide_true by done. cbn [rbind].
  destruct (for_count_ok (fun i a => a = (40 + 48 * i, directory (take (Z.to_nat i) us) (take (Z.to_nat i) locs)))
    (open_table file) n (40, ∅)) as (a & Ha & ->); [apply blen_nonneg|done| |].
  - intros i a Hi ->. destruct (open_step i Hi) as (u & l & Hu & Hl & Hstep). eexists. split; [apply Hstep|].
    rewrite Z2Nat.inj_add, Nat.add_1_r by lia. rewrite (take_S_r us _ u Hu), (take_S_r locs _ l Hl).
    rewrite directory_snoc; [done|]. rewrite !length_take. pose proof written_locs. lia.
  - rewrite Ha. cbn [rbind snd]. do 2 f_equal. unfold n, blen. pose proof written_locs. rewrite Nat2Z.id, !take_ge by lia. done.
Qed.

Lemma written_table id :
  match find_table ts id with
  | Some t => exists tl, directory us locs !! id = Some tl /\ stored file (sort_index t) tl /\ 0 <= tl_index_off tl /\ 0 <= tl_blob_off tl
  | None => directory us locs !! id = None
  end.
Proof.
  destruct Hok as [Hids Htabs _ _]. pose proof written_locs as Hl.
  assert (Hids' : NoDup (tb_id <$> us)) by (unfold us; by rewrite <- list_fmap_compose).
  destruct (find_table ts id) as [t|] eqn:Ht.
  - apply find_table_Some in Ht as [Hin <-]. assert (Hin' : sort_index t ∈ us) by (by apply list_elem_of_fmap_2).
    apply list_elem_of_lookup_1 in Hin' as [i Hi].
    destruct (lookup_lt_is_Some_2 locs i) as [l Hll]; [apply lookup_lt_Some in Hi; lia|].
    destruct (written_stored _ _ _ Hi Hll) as (Hs & H1 & H2 & _). exists (loc_of l).
    split; [exact (directory_Some us locs i (sort_index t) l Hids' Hl Hi Hll)|]. split; [done|]. cbn. lia.
  - apply directory_None; [done|]. intros u (t & -> & Hin)%list_elem_of_fmap. cbn [sort_index tb_id].
    pose proof (List.find_none _ _ Ht t) as Hf. rewrite list_elem_of_In in Hin. specialize (Hf Hin). cbn in Hf. lia.
Qed.
End Written.

(** What a segment answers, by the tables it was written from. *)
Record serves (seg : BaseSeg) (ts : list Table) : Prop := {
  sv_lookup id key : lookup seg id key = Ok (find_table ts id ≫= fun t => find_key t key);
  sv_each id : for_each_entry seg id =
    Ok (match find_table ts id with Some t => (fun e => (ie_key e, entry_blob t e)) <$> merge_sort key_le (tb_index t) | None => [] end);
  sv_sentinel id t e : find_table ts id = Some t -> tb_index t = [e] -> sentinel_blob seg id = Ok (Some (entry_blob t e))
}.

Lemma find_key_sorted t key b :
  table_ok t ->
  match b with
  | Some b => exists e, e ∈ tb_index (sort_index t) /\ ie_key e = key /\ b = entry_blob (sort_index t) e
  | None => forall e, e ∈ tb_index (sort_index t) -> ie_key e <> key
  end -> find_key t key = b.
Proof.
  intros Hok Hb. pose proof (merge_sort_Permutation key_le (tb_index t)) as Hp. unfold find_key. destruct b as [b|].
  - destruct Hb as (e & He & Hk & ->). rewrite (find_unique ie_key _ _ e (to_keys _ Hok)); [done| |done]. by rewrite <- Hp.
  - rewrite (find_absent ie_key); [done|]. intros e He. apply Hb. cbn. by rewrite Hp.
Qed.

Lemma segment_serves ts : tables_ok ts -> exists seg, open (write_segment ts) = Ok seg /\ serves seg ts.
Proof.
  intros Hok. pose proof (open_written ts Hok) as Ho. eexists. split; [exact Ho|].
  set (seg := mkBase _ _).
  assert (Hw : forall id, match find_table ts id with
    | Some t => exists tl, bs_tables seg !! id = Some tl /\ stored (bs_mmap seg) (sort_index t) tl /\ 0 <= tl_index_off tl /\ 0 <= tl_blob_off tl
    | None => bs_tables seg !! id = None end) by exact (written_table ts Hok).
  assert (Hsz : blen (bs_mmap seg) < 2 ^ 63) by exact (ts_size _ Hok).
  assert (Hts : forall id t, find_table ts id = Some t -> table_ok t).
  { intros id t [Hin _]%find_table_Some. pose proof (ts_tables _ Hok) as H. rewrite list.Forall_forall in H. by apply H. }
  split.
  - intros id key. specialize (Hw id). destruct (find_table ts id) as [t|] eqn:Ht; [|unfold lookup; by rewrite Hw].
    destruct Hw as (tl & Hd & Hs & H1 & H2). pose proof (Hts id t Ht) as Htok. destruct (sort_index_ok t Htok) as [Hsok Hsort].
    destruct (lookup_stored seg (sort_index t) tl Hsz Hs H1 H2 (to_entries _ Hsok) id key Hsort Hd) as (r & -> & Hr).
    cbn [mbind option_bind]. by rewrite (find_key_sorted t key r Htok Hr).
  - intros id. specialize (Hw id). destruct (find_table ts id) as [t|] eqn:Ht; [|unfold for_each_entry; by rewrite Hw].
    destruct Hw as (tl & Hd & Hs & H1 & H2). destruct (sort_index_ok t (Hts id t Ht)) as [Hsok _].
    by rewrite (for_each_stored seg (sort_index t) tl Hsz Hs H1 H2 (to_entries _ Hsok) id Hd).
  - intros id t e Ht He. specialize (Hw id). rewrite Ht in Hw. destruct Hw as (tl & Hd & Hs & H1 & H2).
    destruct (sort_index_ok t (Hts id t Ht)) as [Hsok _].
    rewrite (sentinel_stored seg (sort_index t) tl Hsz Hs H1 H2 (to_entries _ Hsok) id e [] Hd); [done|]. cbn. by rewrite He.
Qed.

(** ** Properties *)

(** C18: a segment is read back as it was written. For tables with distinct ids, each with distinct keys and entries
    inside its arena, [open] accepts the file; the binary search finds for every table and key the blob the entry
    points at, and nothing for a table or key that is not there; [for_each_entry] gives every entry once, in the
    order of the keys; and the blob of a table with one entry is its sentinel. *)
Theorem segment_roundtrip (ts : list Table) (Hok : tables_ok ts) :
  exists seg, open (write_segment ts) = Ok seg /\
    (forall id key, lookup seg id key = Ok (find_table ts id ≫= fun t => find_key t key)) /\
    (forall id, for_each_entry seg id =
       Ok (match find_table ts id with
           | Some t => (fun e => (ie_key e, entry_blob t e)) <$> merge_sort key_le (tb_index t)
           | None => []
           end)) /\
    (forall id t e, find_table ts id = Some t -> tb_index t = [e] -> sentinel_blob seg id = Ok (Some (entry_blob t e))).
Proof. destruct (segment_serves ts Hok) as (seg & Ho & [H1 H2 H3]). by exists seg. Qed.

Definition exg_tables : list Table :=
  [mkTable 11 [mkEntry 7 0 2; mkEntry 3 2 1; mkEntry 12 3 0] [x61; x62; x63]; mkTable 18 [mkEntry 0 0 4] [x01; x02; x03; x04]].

Lemma exg_ok : tables_ok exg_tables.
Proof.
  split.
  - vm_compute. repeat constructor; set_solver.
  - repeat constructor; vm_compute; try (repeat constructor; set_solver); intuition congruence.
  - vm_compute. reflexivity.
  - vm_compute. reflexivity.
Qed.

Lemma segment_roundtrip_witness :
  (exists seg, open (write_segment exg_tables) = Ok seg /\
    (forall id key, lookup seg id key = Ok (find_table exg_tables id ≫= fun t => find_key t key)) /\
    (forall id, for_each_entry seg id =
       Ok (match find_table exg_tables id with
           | Some t => (fun e => (ie_key e, entry_blob t e)) <$> merge_sort key_le (tb_index t)
           | None => []
           end)) /\
    (forall id t e, find_table exg_tables id = Some t -> tb_index t = [e] -> sentinel_blob seg id = Ok (Some (entry_blob t e)))) /\
  (let? seg := open (write_segment exg_tables) in let? a := lookup seg 11 3 in let? b := lookup seg 11 4 in Ok (a, b)) =
    Ok (Some [x63], None).
Proof. split; [exact (segment_roundtrip exg_tables exg_ok)|]. vm_compute. reflexivity. Defined.
