(* ===== verification/AtomicKeys.v ===== *)
(** * Names and keys of the AtomicAssets store ([name.rs], [aa_tables.rs] of [crates/wseg-build/src])

    Accounts, collections and schemas are packed into [u64]s; pairs and attribute values are hashed with FNV1a-64.
    A [String] is its UTF-8 bytes. *)

From S2P Require Import Prelude.

Module Name.

Definition is_lower (c : Z) : bool := (97 <=? c) && (c <=? 122).

Definition char_to_symbol (c : byte) : Z :=
  if is_lower (b2z c) then b2z c - 97 + 6
  else if (49 <=? b2z c) && (b2z c <=? 53) then b2z c - 49 + 1
  else 0.

(** The loop over the first twelve characters; [i] is the position of the first of [b]. *)
Fixpoint encode_loop (b : bytes) (i : Z) (value : Z) : Z :=
  match b with
  | [] => value
  | c :: t =>
      if i <? 12 then encode_loop t (i + 1) (Z.lor value (wrap64 (Z.shiftl (Z.land (char_to_symbol c) 31) (64 - 5 * (i + 1)))))
      else value
  end.

Definition encode (b : bytes) : Z :=
  let value := encode_loop b 0 0 in
  match b !! 12%nat with
  | Some c => Z.lor value (Z.land (char_to_symbol c) 15)
  | None => value
  end.

Definition CHARMAP : bytes := String.list_byte_of_string ".12345abcdefghijklmnopqrstuvwxyz".

(** The characters of [value], the last one first in time: [buf] is what follows. *)
Fixpoint decode_loop (n : nat) (first : bool) (value : Z) (buf : bytes) : bytes :=
  match n with
  | O => buf
  | S n =>
      let mask := if first then 15 else 31 in
      decode_loop n false (Z.shiftr value (if first then 4 else 5)) (nth (Z.to_nat (Z.land value mask)) CHARMAP x2e :: buf)
  end.

(** The prefix that ends with the last character other than a dot. *)
Fixpoint trim_dots (s : bytes) : bytes :=
  match s with
  | [] => []
  | c :: s =>
      let t := trim_dots s in
      if bool_decide (t = []) && bool_decide (c = x2e) then [] else c :: t
  end.

Definition decode (value : Z) : bytes := trim_dots (decode_loop 13 true value []).
End Name.

(** ** The tables of the store *)

Definition TABLE_AA_FWD : Z := 11.
Definition TABLE_AA_BY_OWNER : Z := 12.
Definition TABLE_AA_BY_COLL : Z := 13.
Definition TABLE_AA_BY_SCHEMA : Z := 14.
Definition TABLE_AA_BY_TMPL : Z := 15.
Definition TABLE_AA_DATA_ATTR : Z := 16.
Definition TABLE_AA_SCHEMAS : Z := 17.
Definition TABLE_AA_SORTED_ID : Z := 18.
Definition TABLE_AA_TMPL_FWD : Z := 19.
Definition TABLE_AA_COLL_FWD : Z := 20.
Definition TABLE_AA_SORTED_TMPL : Z := 21.
Definition TABLE_AA_CONFIG : Z := 22.

Definition SENTINEL_KEY : Z := 0.

(** ** Hashed keys *)

Definition FNV_OFFSET : Z := 0xcbf29ce484222325.
Definition FNV_PRIME : Z := 0x100000001b3.

Definition mix (h : Z) (b : byte) : Z := mul64 (Z.lxor h (b2z b)) FNV_PRIME.

(** The parts from the second on, each after a NUL. *)
Definition mix_part (h : Z) (p : bytes) : Z := foldl mix (mix h x00) p.

Definition fnv1a64_joined (parts : list bytes) : Z :=
  match parts with
  | [] => FNV_OFFSET
  | p :: ps => foldl mix_part (foldl mix FNV_OFFSET p) ps
  end.

Definition coll_schema_key (collection schema : bytes) : Z := fnv1a64_joined [collection; schema].
Definition data_attr_key (collection schema field value : bytes) : Z := fnv1a64_joined [collection; schema; field; value].

(** [template_id as u64]. *)
Definition template_key (template_id : Z) : Z := wrap64 template_id.

Lemma mix_u64 h b : is_u64 (mix h b).
Proof. unfold mix, mul64, wrap64, is_u64. apply Z.mod_pos_bound. done. Qed.

Lemma foldl_mix_u64 h p : is_u64 h -> is_u64 (foldl mix h p).
Proof. revert h. induction p as [|b p IH]; intros h Hh; [done|]. apply IH, mix_u64. Qed.

Lemma fnv1a64_u64 parts : is_u64 (fnv1a64_joined parts).
Proof.
  unfold fnv1a64_joined. destruct parts as [|p ps]; [done|].
  assert (H : is_u64 (foldl mix FNV_OFFSET p)) by (by apply foldl_mix_u64). revert H. generalize (foldl mix FNV_OFFSET p).
  induction ps as [|q ps IH]; intros h Hh; [done|]. apply IH. unfold mix_part. apply foldl_mix_u64, mix_u64.
Qed.

Lemma coll_schema_key_u64 c s : is_u64 (coll_schema_key c s).
Proof. apply fnv1a64_u64. Qed.

Lemma data_attr_key_u64 c s f v : is_u64 (data_attr_key c s f v).
Proof. apply fnv1a64_u64. Qed.

Lemma template_key_u64 t : is_u64 (template_key t).
Proof. unfold template_key, wrap64, is_u64. apply Z.mod_pos_bound. done. Qed.

(** The vectors the repository tests. *)
Example key_vectors :
  Name.encode (String.list_byte_of_string "eosio") = 6138663577826885632 /\
  fnv1a64_joined [String.list_byte_of_string "eosio.token:WAX"] = 13053440730298864435 /\
  Name.decode (Name.encode (String.list_byte_of_string "genesis.wax")) = String.list_byte_of_string "genesis.wax".
Proof. vm_compute. done. Qed.
