(* ===== verification/AtomicRecords.v ===== *)
(** * The records of the AtomicAssets store ([crates/wseg-build/src/aa_binfmt.rs])

    Blobs of the forward tables: schema formats, assets, templates, collections, the configuration. The encoders
    write into a vector; the decoders read from a position and panic where a slice is out of range. A [String] is its
    UTF-8 bytes, and [from_utf8_lossy] is the standard library's. An [f64] is its eight bytes. *)

From S2P Require Import Prelude.
From S2P Require Import Cursor.
From S2P Require Import Segment.

(** ** UTF-8 *)

(** [core::str]'s table of the widths of characters, by the first byte. *)
Definition utf8_char_width (b : Z) : Z :=
  if (0 <=? b) && (b <=? 127) then 1
  else if (194 <=? b) && (b <=? 223) then 2
  else if (224 <=? b) && (b <=? 239) then 3
  else if (240 <=? b) && (b <=? 244) then 4
  else 0.

Definition is_cont (b : Z) : bool := Z.land b 192 =? 128.

(** The second byte a character of three or four bytes may have. *)
Definition second_ok (b n : Z) : bool :=
  if b =? 224 then (160 <=? n) && (n <=? 191)
  else if b =? 237 then (128 <=? n) && (n <=? 159)
  else if (225 <=? b) && (b <=? 239) then (128 <=? n) && (n <=? 191)
  else if b =? 240 then (144 <=? n) && (n <=? 191)
  else if b =? 244 then (128 <=? n) && (n <=? 143)
  else (128 <=? n) && (n <=? 191).

(** [safe_get]: zero past the end. *)
Definition safe_get (b : bytes) (i : nat) : Z := match b !! i with Some x => b2z x | None => 0 end.

(** The next chunk of a non-empty slice: how many bytes, and whether they are a character. *)
Definition utf8_next (b : bytes) : nat * bool :=
  let x := safe_get b 0 in
  let w := utf8_char_width x in
  if w =? 1 then (1%nat, true)
  else if w =? 2 then if is_cont (safe_get b 1) then (2%nat, true) else (1%nat, false)
  else if w =? 3 then
    if second_ok x (safe_get b 1) then if is_cont (safe_get b 2) then (3%nat, true) else (2%nat, false) else (1%nat, false)
  else if w =? 4 then
    if second_ok x (safe_get b 1) then
      if is_cont (safe_get b 2) then if is_cont (safe_get b 3) then (4%nat, true) else (3%nat, false) else (2%nat, false)
    else (1%nat, false)
  else (1%nat, false).

Definition REPLACEMENT : bytes := [xef; xbf; xbd].

Fixpoint lossy_loop (fuel : nat) (b : bytes) : bytes :=
  match fuel with
  | O => []
  | S fuel =>
      match b with
      | [] => []
      | _ => let '(n, ok) := utf8_next b in (if ok then take n b else REPLACEMENT) ++ lossy_loop fuel (drop n b)
      end
  end.

Definition from_utf8_lossy (b : bytes) : bytes := lossy_loop (length b) b.

Fixpoint utf8_loop (fuel : nat) (b : bytes) : bool :=
  match fuel with
  | O => bool_decide (b = [])
  | S fuel =>
      match b with
      | [] => true
      | _ => let '(n, ok) := utf8_next b in ok && utf8_loop fuel (drop n b)
      end
  end.

(** The bytes of a [String]. *)
Definition is_utf8 (b : bytes) : bool := utf8_loop (length b) b.

(** ** Fields *)

Definition to_i32 (v : Z) : Z := if v <? 2 ^ 31 then v else v - U32.

Definition get (n : Z) : M Empty_set cursor bytes := fun c =>
  match slice (cb c) (cpos c) n with
  | Some x => (Ok x, adv c n)
  | None => (Panic, c)
  end.

Definition gu8 : M Empty_set cursor Z := let! x := get 1 in sret (le_of x).
Definition gu16 : M Empty_set cursor Z := let! x := get 2 in sret (le_of x).
Definition gu32 : M Empty_set cursor Z := let! x := get 4 in sret (le_of x).
Definition gu64 : M Empty_set cursor Z := let! x := get 8 in sret (le_of x).
Definition gi32 : M Empty_set cursor Z := let! x := get 4 in sret (to_i32 (le_of x)).
Definition gstr (n : Z) : M Empty_set cursor bytes := let! x := get n in sret (from_utf8_lossy x).

(** [n] elements, in order. *)
Definition gmany {A} (n : Z) (g : M Empty_set cursor A) : M Empty_set cursor (list A) :=
  for_count n (fun acc => let! x := g in sret (acc ++ [x])) [].

(** ** Schema formats *)

Definition ARRAY_BIT : Z := 128.

Definition SCALAR_TYPES : list bytes := String.list_byte_of_string <$>
  ["int8"; "int16"; "int32"; "int64"; "uint8"; "uint16"; "uint32"; "uint64"; "fixed8"; "fixed16"; "fixed32"; "fixed64";
   "byte"; "bool"; "float"; "double"; "string"; "image"; "ipfs"; "bytes"]%string.

Definition ARRAY_SUFFIX : bytes := [x5b; x5d].

Definition strip_suffix (s suffix : bytes) : option bytes :=
  let n := (length s - length suffix)%nat in
  if bool_decide (drop n s = suffix) then Some (take n s) else None.

Fixpoint position {A} (f : A -> bool) (l : list A) : option nat :=
  match l with
  | [] => None
  | x :: l => if f x then Some 0%nat else S <$> position f l
  end.

Definition type_tag (ty : bytes) : Z :=
  let '(base, arr) := match strip_suffix ty ARRAY_SUFFIX with Some b => (b, ARRAY_BIT) | None => (ty, 0) end in
  let idx := match position (fun t => bool_decide (t = base)) SCALAR_TYPES with Some i => Z.of_nat i | None => 16 end in
  Z.lor idx arr.

Definition STRING_TYPE : bytes := String.list_byte_of_string "string".

Definition tag_type (tag : Z) : bytes :=
  let base := default STRING_TYPE (SCALAR_TYPES !! Z.to_nat (Z.land tag 127)) in
  if Z.land tag ARRAY_BIT =? 0 then base else base ++ ARRAY_SUFFIX.

Definition encode_field (f : bytes * bytes) : bytes :=
  let n := Z.min (blen f.1) 255 in
  le_bytes 1 (type_tag f.2) ++ le_bytes 1 n ++ take (Z.to_nat n) f.1.

Definition encode_schema_format (fields : list (bytes * bytes)) : bytes :=
  le_bytes 2 (blen fields) ++ concat (encode_field <$> fields).

Definition decode_field : M Empty_set cursor (bytes * bytes) :=
  let! tag := gu8 in
  let! len := gu8 in
  let! name := gstr len in
  sret (name, tag_type tag).

Definition decode_schema_format (b : bytes) : out (list (bytes * bytes)) :=
  ((let! n := gu16 in gmany n decode_field) (mkCursor b 0)).1.

(** ** Attributes *)

Definition Attr : Type := Z * bytes.

Definition put_attr (a : Attr) : bytes := le_bytes 2 a.1 ++ le_bytes 2 (blen a.2) ++ a.2.
Definition put_attrs (attrs : list Attr) : bytes := le_bytes 2 (blen attrs) ++ concat (put_attr <$> attrs).

Definition get_attr : M Empty_set cursor Attr :=
  let! idx := gu16 in
  let! len := gu16 in
  let! val := gstr len in
  sret (idx, val).

Definition get_attrs : M Empty_set cursor (list Attr) := let! n := gu16 in gmany n get_attr.

(** ** Records *)

Definition ASSET_VERSION : Z := 3.

Record AssetRec := mkAsset {
  ar_owner : Z; ar_collection : Z; ar_schema : Z; ar_template_id : Z; ar_block_num : Z; ar_template_mint : Z;
  ar_immutable : list Attr; ar_mutable : list Attr
}.

Definition encode_asset (a : AssetRec) : bytes :=
  le_bytes 1 ASSET_VERSION ++ le_bytes 8 (ar_owner a) ++ le_bytes 8 (ar_collection a) ++ le_bytes 8 (ar_schema a) ++
  le_bytes 4 (ar_template_id a) ++ le_bytes 4 (ar_block_num a) ++ le_bytes 4 (ar_template_mint a) ++
  put_attrs (ar_immutable a) ++ put_attrs (ar_mutable a).

(** The version is skipped. *)
Definition decode_asset (b : bytes) : out AssetRec :=
  ((let! owner := gu64 in
    let! collection := gu64 in
    let! schema := gu64 in
    let! template_id := gi32 in
    let! block_num := gu32 in
    let! template_mint := gu32 in
    let! immutable := get_attrs in
    let! mutable := get_attrs in
    sret (mkAsset owner collection schema template_id block_num template_mint immutable mutable)) (mkCursor b 1)).1.

(** [assert_eq!(b[0], ASSET_VERSION)]. *)
Definition assert_version (b : bytes) : out () :=
  let? v := or_panic (byte_at b 0) in
  if b2z v =? ASSET_VERSION then Ok () else Panic.

Record TemplateRec := mkTemplate {
  tr_template_id : Z; tr_schema : Z; tr_transferable : Z; tr_burnable : Z; tr_max_supply : Z; tr_issued_supply : Z;
  tr_immutable : list Attr
}.

Definition encode_template (t : TemplateRec) : bytes :=
  le_bytes 1 ASSET_VERSION ++ le_bytes 4 (tr_template_id t) ++ le_bytes 8 (tr_schema t) ++ le_bytes 1 (tr_transferable t) ++
  le_bytes 1 (tr_burnable t) ++ le_bytes 4 (tr_max_supply t) ++ le_bytes 4 (tr_issued_supply t) ++ put_attrs (tr_immutable t).

Definition decode_template (b : bytes) : out TemplateRec :=
  do? assert_version b ;;
  ((let! template_id := gi32 in
    let! schema := gu64 in
    let! transferable := gu8 in
    let! burnable := gu8 in
    let! max_supply := gu32 in
    let! issued_supply := gu32 in
    let! immutable := get_attrs in
    sret (mkTemplate template_id schema transferable burnable max_supply issued_supply immutable)) (mkCursor b 1)).1.

Record CollectionRec := mkCollection {
  cr_collection : Z; cr_author : Z; cr_allow_notify : Z; cr_authorized : list Z; cr_notify : list Z; cr_market_fee : bytes;
  cr_data : list Attr
}.

Definition encode_collection (c : CollectionRec) : bytes :=
  let nauth := Z.min (blen (cr_authorized c)) 255 in
  let nnotify := Z.min (blen (cr_notify c)) 255 in
  le_bytes 1 ASSET_VERSION ++ le_bytes 8 (cr_collection c) ++ le_bytes 8 (cr_author c) ++ le_bytes 1 (cr_allow_notify c) ++
  le_bytes 1 nauth ++ concat (le_bytes 8 <$> take (Z.to_nat nauth) (cr_authorized c)) ++
  le_bytes 1 nnotify ++ concat (le_bytes 8 <$> take (Z.to_nat nnotify) (cr_notify c)) ++
  cr_market_fee c ++ put_attrs (cr_data c).

Definition decode_collection (b : bytes) : out CollectionRec :=
  do? assert_version b ;;
  ((let! collection := gu64 in
    let! author := gu64 in
    let! allow_notify := gu8 in
    let! nauth := gu8 in
    let! authorized := gmany nauth gu64 in
    let! nnotify := gu8 in
    let! notify := gmany nnotify gu64 in
    let! market_fee := get 8 in
    let! data := get_attrs in
    sret (mkCollection collection author allow_notify authorized notify market_fee data)) (mkCursor b 1)).1.

(** ** The configuration *)

Record Config := mkConfig {
  cf_contract : Z; cf_version : bytes; cf_format : list (bytes * bytes); cf_tokens : list (Z * bytes * Z)
}.

Definition U16_MAX : Z := 65535.

Definition encode_token (t : Z * bytes * Z) : bytes :=
  let '(tc, sym, prec) := t in
  let sl := Z.min (blen sym) 255 in
  le_bytes 8 tc ++ le_bytes 1 sl ++ take (Z.to_nat sl) sym ++ le_bytes 1 prec.

Definition encode_config (c : Config) : bytes :=
  let vlen := Z.min (blen (cf_version c)) U16_MAX in
  let fmt := encode_schema_format (cf_format c) in
  let flen := Z.min (blen fmt) U16_MAX in
  let ntok := Z.min (blen (cf_tokens c)) U16_MAX in
  le_bytes 1 ASSET_VERSION ++ le_bytes 8 (cf_contract c) ++ le_bytes 2 vlen ++ take (Z.to_nat vlen) (cf_version c) ++
  le_bytes 2 flen ++ take (Z.to_nat flen) fmt ++ le_bytes 2 ntok ++ concat (encode_token <$> take (Z.to_nat ntok) (cf_tokens c)).

(** [if b.len() < p + n { return None; }]: [Err] stands for [None]. *)
Definition need (n : Z) : M () cursor () := fun c => if blen (cb c) <? cpos c + n then (Err (), c) else (Ok (), c).

(** A read that panics, in code that may return [None]. *)
Definition reads {A} (g : M Empty_set cursor A) : M () cursor A := fun c =>
  match g c with
  | (Ok a, c) => (Ok a, c)
  | (Err e, c) => match e with end
  | (Panic, c) => (Panic, c)
  end.

Definition decode_token : M () cursor (Z * bytes * Z) :=
  do! need 9 ;;
  let! tc := reads gu64 in
  let! sl := reads gu8 in
  do! need (sl + 1) ;;
  let! sym := reads (gstr sl) in
  let! prec := reads gu8 in
  sret (tc, sym, prec).

Definition decode_config_body : M () cursor Config :=
  do! need 8 ;;
  let! contract := reads gu64 in
  do! need 2 ;;
  let! vlen := reads gu16 in
  do! need (vlen + 2) ;;
  let! version := reads (gstr vlen) in
  let! fmt_len := reads gu16 in
  do! need (fmt_len + 2) ;;
  let! fmt := reads (get fmt_len) in
  let! collection_format := reads (slift (decode_schema_format fmt)) in
  let! n := reads gu16 in
  let! tokens := for_count n (fun acc => let! t := decode_token in sret (acc ++ [t])) [] in
  sret (mkConfig contract version collection_format tokens).

Definition decode_config (b : bytes) : res () Config :=
  if bool_decide (b = []) then Err () else (decode_config_body (mkCursor b 1)).1.

(** ** Facts on UTF-8 *)

Lemma utf8_next_pos b : (1 <= (utf8_next b).1)%nat.
Proof. unfold utf8_next. repeat (case_match; cbn [fst]; try lia). Qed.

Lemma lossy_utf8 fuel b : utf8_loop fuel b = true -> lossy_loop fuel b = b.
Proof.
  revert b. induction fuel as [|fuel IH]; intros b; cbn [utf8_loop lossy_loop]; [intros ->%bool_decide_eq_true; done|].
  destruct b as [|x b]; [done|]. destruct (utf8_next (x :: b)) as [n ok]. intros [-> H]%andb_prop.
  rewrite IH by done. apply take_drop.
Qed.

Lemma from_utf8_lossy_id b : is_utf8 b = true -> from_utf8_lossy b = b.
Proof. apply lossy_utf8. Qed.

(** ** Facts on the fields *)

Lemma get_parses x : parses (get (blen x)) x x.
Proof.
  intros c s Hc Hr. unfold get. replace (slice (cb c) (cpos c) (blen x)) with (Some x); [done|].
  symmetry. destruct Hc as [Hc _]. pose proof (blen_nonneg x).
  assert (Hl : blen (cb c) = cpos c + blen x + blen s).
  { pose proof (blen_drop (cb c) (cpos c) ltac:(lia)) as Hd. unfold rest in Hr. rewrite Hr, blen_app in Hd. lia. }
  apply slice_Some. pose proof (blen_nonneg s). split; [lia|]. split; [lia|]. split; [lia|].
  unfold rest in Hr. rewrite Hr. unfold blen. by rewrite Nat2Z.id, take_app_length.
Qed.

Lemma get_le_parses {A} n (f : bytes -> A) z : parses (let! x := get (Z.of_nat n) in sret (f x)) (le_bytes n z) (f (le_bytes n z)).
Proof. apply (parses_bind_ret _ f). rewrite <- (blen_le_bytes n z) at 1. apply get_parses. Qed.

Lemma gu_parses n z (H : 0 <= z < 256 ^ Z.of_nat n) : parses (let! x := get (Z.of_nat n) in sret (le_of x)) (le_bytes n z) z.
Proof. pose proof (get_le_parses n le_of z) as Hp. by rewrite le_of_le_bytes_id in Hp. Qed.

Lemma gu8_parses z : 0 <= z < 256 -> parses gu8 (le_bytes 1 z) z.
Proof. exact (gu_parses 1 z). Qed.

Lemma gu16_parses z : 0 <= z < 65536 -> parses gu16 (le_bytes 2 z) z.
Proof. exact (gu_parses 2 z). Qed.

Lemma gu32_parses z : is_u32 z -> parses gu32 (le_bytes 4 z) z.
Proof. exact (gu_parses 4 z). Qed.

Lemma gu64_parses z : is_u64 z -> parses gu64 (le_bytes 8 z) z.
Proof. exact (gu_parses 8 z). Qed.

Definition is_i32 (z : Z) : Prop := - 2 ^ 31 <= z < 2 ^ 31.

Lemma z2b_mod a m : m mod 256 = 0 -> 0 < m -> z2b (a mod m) = z2b a.
Proof.
  intros Hm Hp. apply b2z_inj. rewrite !b2z_z2b. apply Z.mod_mod_divide, Z.mod_divide; lia.
Qed.

Lemma le_bytes_mod n z : le_bytes n (z mod 256 ^ Z.of_nat n) = le_bytes n z.
Proof.
  revert z. induction n as [|n IH]; intros z; [done|]. cbn [le_bytes]. rewrite Nat2Z.inj_succ, Z.pow_succ_r by lia.
  assert (0 < 256 ^ Z.of_nat n) by (apply Z.pow_pos_nonneg; lia). f_equal.
  - apply z2b_mod; [|lia]. rewrite Z.mul_comm. apply Z.mod_mul. lia.
  - rewrite <- (IH (z / 256)). f_equal. rewrite Z.rem_mul_r by lia.
    rewrite Z.add_comm, (Z.mul_comm 256), Z.div_add_l by lia. rewrite (Z.div_small (z mod 256)); [lia|]. apply Z.mod_pos_bound. lia.
Qed.

Lemma gi32_parses z : is_i32 z -> parses gi32 (le_bytes 4 z) z.
Proof.
  intros Hz. pose proof (get_le_parses 4 (fun x => to_i32 (le_of x)) z) as Hp. change (Z.of_nat 4) with 4 in Hp. fold gi32 in Hp.
  cbv beta in Hp. enough (Ez : to_i32 (le_of (le_bytes 4 z)) = z) by (rewrite Ez in Hp; exact Hp). clear Hp. rewrite <- le_bytes_mod.
  rewrite le_of_le_bytes_id by (apply Z.mod_pos_bound; done). change (256 ^ Z.of_nat 4) with (2 ^ 32). unfold to_i32, is_i32, U32 in *.
  destruct (Z.lt_ge_cases z 0).
  - replace (z mod 2 ^ 32) with (z + 2 ^ 32); [destruct (Z.ltb_spec (z + 2 ^ 32) (2 ^ 31)); lia|].
    symmetry. rewrite <- (Z_mod_plus_full z 1). rewrite Z.mul_1_l. apply Z.mod_small. lia.
  - rewrite Z.mod_small by lia. destruct (Z.ltb_spec z (2 ^ 31)); lia.
Qed.

Lemma gstr_parses x : is_utf8 x = true -> parses (gstr (blen x)) x x.
Proof. intros Hu. unfold gstr. rewrite <- (from_utf8_lossy_id x Hu) at 3. apply parses_bind_ret, get_parses. Qed.

Lemma gmany_parses {A} (g : M Empty_set cursor A) (enc : A -> bytes) l :
  (forall x, x ∈ l -> parses g (enc x) x) -> parses (gmany (blen l) g) (concat (enc <$> l)) l.
Proof.
  intros Hg. unfold gmany. rewrite <- (foldl_snoc [] l : _ = l) at 3.
  apply (parses_for (fun acc => let! x := g in sret (acc ++ [x])) enc (fun acc x => acc ++ [x])).
  intros a x Hx. by apply (parses_bind_ret g (fun x => a ++ [x])), Hg.
Qed.

(** Runs a parser on all that follows a first part. *)
Lemma parses_run {E A} (m : M E cursor A) pre x a :
  parses m x a -> blen (pre ++ x) < U64 -> (m (mkCursor (pre ++ x) (blen pre))).1 = Ok a.
Proof.
  intros Hp Hl. rewrite (Hp _ []); [done| |].
  - rewrite blen_app in Hl. pose proof (blen_nonneg pre). pose proof (blen_nonneg x). split; cbn; [rewrite blen_app; lia|by rewrite blen_app].
  - unfold rest. cbn. unfold blen. by rewrite Nat2Z.id, drop_app_length, app_nil_r.
Qed.

Create HintDb parses.
#[export] Hint Resolve gu8_parses gu16_parses gu32_parses gu64_parses gi32_parses gstr_parses get_parses : parses.

(** Splits a sequence of reads against the bytes they read. *)
Ltac parse_seq :=
  repeat match goal with
  | |- parses (sbind _ (fun a => sret _)) _ _ => apply parses_bind_ret
  | |- parses (sbind _ _) _ _ => eapply parses_bind
  end.

(** ** Round trips *)

Definition attr_ok (a : Attr) : Prop := 0 <= a.1 < 65536 /\ blen a.2 < 65536 /\ is_utf8 a.2 = true.
Definition attrs_ok (l : list Attr) : Prop := blen l < 65536 /\ Forall attr_ok l.

Lemma get_attr_parses a : attr_ok a -> parses get_attr (put_attr a) a.
Proof.
  intros (H1 & H2 & H3). destruct a as [i v]. unfold get_attr, put_attr. cbn [fst snd] in *. pose proof (blen_nonneg v).
  parse_seq; [by apply gu16_parses|apply gu16_parses; lia|by apply gstr_parses].
Qed.

Lemma get_attrs_parses l : attrs_ok l -> parses get_attrs (put_attrs l) l.
Proof.
  intros [Hl Hf]. unfold get_attrs, put_attrs. pose proof (blen_nonneg l). eapply parses_bind; [apply gu16_parses; lia|].
  apply gmany_parses. intros a Ha. rewrite list.Forall_forall in Hf. by apply get_attr_parses, Hf.
Qed.

#[export] Hint Resolve get_attrs_parses : parses.

Record asset_ok (a : AssetRec) : Prop := {
  ao_owner : is_u64 (ar_owner a); ao_collection : is_u64 (ar_collection a); ao_schema : is_u64 (ar_schema a);
  ao_template_id : is_i32 (ar_template_id a); ao_block_num : is_u32 (ar_block_num a); ao_mint : is_u32 (ar_template_mint a);
  ao_immutable : attrs_ok (ar_immutable a); ao_mutable : attrs_ok (ar_mutable a)
}.

Lemma asset_roundtrip a : asset_ok a -> blen (encode_asset a) < U64 -> decode_asset (encode_asset a) = Ok a.
Proof.
  intros [] Hl. unfold decode_asset, encode_asset in *. apply (parses_run _ (le_bytes 1 ASSET_VERSION)); [|done].
  destruct a; cbn [ar_owner ar_collection ar_schema ar_template_id ar_block_num ar_template_mint ar_immutable ar_mutable] in *.
  parse_seq; eauto with parses.
Qed.

Definition is_u8 (z : Z) : Prop := 0 <= z < 256.

Lemma gu8_parses' z : is_u8 z -> parses gu8 (le_bytes 1 z) z.
Proof. apply gu8_parses. Qed.

#[export] Hint Resolve gu8_parses' : parses.

Record template_ok (t : TemplateRec) : Prop := {
  te_id : is_i32 (tr_template_id t); te_schema : is_u64 (tr_schema t); te_transferable : is_u8 (tr_transferable t);
  te_burnable : is_u8 (tr_burnable t); te_max : is_u32 (tr_max_supply t); te_issued : is_u32 (tr_issued_supply t);
  te_immutable : attrs_ok (tr_immutable t)
}.

Lemma assert_version_Ok x : assert_version (le_bytes 1 ASSET_VERSION ++ x) = Ok ().
Proof. done. Qed.

Lemma template_roundtrip t : template_ok t -> blen (encode_template t) < U64 -> decode_template (encode_template t) = Ok t.
Proof.
  intros [] Hl. unfold decode_template, encode_template in *. rewrite assert_version_Ok. cbn [rbind].
  apply (parses_run _ (le_bytes 1 ASSET_VERSION)); [|done].
  destruct t; cbn [tr_template_id tr_schema tr_transferable tr_burnable tr_max_supply tr_issued_supply tr_immutable] in *.
  parse_seq; eauto with parses.
Qed.

Record collection_ok (c : CollectionRec) : Prop := {
  co_collection : is_u64 (cr_collection c); co_author : is_u64 (cr_author c); co_allow : is_u8 (cr_allow_notify c);
  co_authorized : blen (cr_authorized c) <= 255 /\ Forall is_u64 (cr_authorized c);
  co_notify : blen (cr_notify c) <= 255 /\ Forall is_u64 (cr_notify c);
  co_fee : blen (cr_market_fee c) = 8; co_data : attrs_ok (cr_data c)
}.

Lemma gids_parses l : Forall is_u64 l -> parses (gmany (blen l) gu64) (concat (le_bytes 8 <$> l)) l.
Proof. intros Hf. apply gmany_parses. intros x Hx. rewrite list.Forall_forall in Hf. by apply gu64_parses, Hf. Qed.

Lemma take_min {A} (l : list A) n : blen l <= n -> take (Z.to_nat (Z.min (blen l) n)) l = l.
Proof. intros H. rewrite Z.min_l by done. unfold blen. rewrite Nat2Z.id. by apply take_ge. Qed.

Lemma collection_roundtrip c : collection_ok c -> blen (encode_collection c) < U64 -> decode_collection (encode_collection c) = Ok c.
Proof.
  intros [H1 H2 H3 [H4 H4'] [H5 H5'] H6 H7] Hl. unfold decode_collection, encode_collection in *. rewrite assert_version_Ok. cbn [rbind].
  rewrite !take_min in * by done. rewrite !Z.min_l in * by done.
  apply (parses_run _ (le_bytes 1 ASSET_VERSION)); [|done]. destruct c as [co au al az nt fee dt]; cbn [cr_collection cr_author
    cr_allow_notify cr_authorized cr_notify cr_market_fee cr_data] in *.
  pose proof (blen_nonneg az). pose proof (blen_nonneg nt).
  eapply parses_bind; [eauto with parses|]. eapply parses_bind; [eauto with parses|]. eapply parses_bind; [eauto with parses|].
  eapply parses_bind; [apply gu8_parses; lia|]. eapply parses_bind; [by apply gids_parses|].
  eapply parses_bind; [apply gu8_parses; lia|]. eapply parses_bind; [by apply gids_parses|].
  eapply parses_bind; [rewrite <- H6; apply get_parses|]. apply parses_bind_ret. by apply get_attrs_parses.
Qed.

(** A field whose type is one the format knows. *)
Definition field_ok (f : bytes * bytes) : Prop := blen f.1 <= 255 /\ is_utf8 f.1 = true /\ tag_type (type_tag f.2) = f.2.
Definition fields_ok (l : list (bytes * bytes)) : Prop := blen l < 65536 /\ Forall field_ok l.

Lemma position_lt {A} (f : A -> bool) l i : position f l = Some i -> (i < length l)%nat.
Proof.
  revert i. induction l as [|x l IH]; intros i; cbn; [done|]. destruct (f x); [intros [= <-]; lia|].
  destruct (position f l) as [j|]; cbn; [|done]. intros [= <-]. specialize (IH j eq_refl). lia.
Qed.

Lemma type_tag_range ty : 0 <= type_tag ty < 256.
Proof.
  unfold type_tag. destruct (match strip_suffix ty ARRAY_SUFFIX with Some b => (b, ARRAY_BIT) | None => (ty, 0) end) as [base arr] eqn:E.
  assert (Ha : arr = 0 \/ arr = 128) by (destruct (strip_suffix ty ARRAY_SUFFIX); injection E as <- <-; [by right|by left]).
  set (idx := match position _ _ with Some i => Z.of_nat i | None => 16 end).
  assert (Hi : 0 <= idx < 20).
  { unfold idx. destruct (position _ _) as [i|] eqn:Hp; [|lia]. apply position_lt in Hp. change (length SCALAR_TYPES) with 20%nat in Hp. lia. }
  clearbody idx. destruct Ha as [->| ->]; [rewrite Z.lor_0_r; lia|].
  assert (idx ∈ seqZ 0 20) as Hin by (apply elem_of_seqZ; lia). clear Hi E. revert idx Hin. apply list.Forall_forall.
  vm_compute. repeat constructor; done.
Qed.

Lemma decode_field_parses f : field_ok f -> parses decode_field (encode_field f) f.
Proof.
  intros (H1 & H2 & H3). destruct f as [n ty]. unfold decode_field, encode_field. cbn [fst snd] in *. rewrite take_min, Z.min_l by done.
  pose proof (blen_nonneg n). pose proof (type_tag_range ty). rewrite <- H3 at 2.
  eapply parses_bind; [by apply gu8_parses|]. eapply parses_bind; [apply gu8_parses; lia|].
  apply (parses_bind_ret _ (fun name => (name, tag_type (type_tag ty)))). by apply gstr_parses.
Qed.

Lemma schema_roundtrip l : fields_ok l -> blen (encode_schema_format l) < U64 -> decode_schema_format (encode_schema_format l) = Ok l.
Proof.
  intros [Hn Hf] Hl. unfold decode_schema_format. apply (parses_run _ [] (encode_schema_format l)); [|done]. pose proof (blen_nonneg l).
  unfold encode_schema_format. eapply parses_bind; [apply gu16_parses; lia|]. apply gmany_parses. intros f Hx.
  rewrite list.Forall_forall in Hf. by apply decode_field_parses, Hf.
Qed.

(** *** The configuration *)

Definition token_ok (t : Z * bytes * Z) : Prop := is_u64 t.1.1 /\ blen t.1.2 <= 255 /\ is_utf8 t.1.2 = true /\ is_u8 t.2.

Record config_ok (c : Config) : Prop := {
  cg_contract : is_u64 (cf_contract c);
  cg_version : blen (cf_version c) <= U16_MAX /\ is_utf8 (cf_version c) = true;
  cg_format : fields_ok (cf_format c) /\ blen (encode_schema_format (cf_format c)) <= U16_MAX;
  cg_tokens : blen (cf_tokens c) <= U16_MAX /\ Forall token_ok (cf_tokens c)
}.

Lemma config_reads_parses {A} (g : M Empty_set cursor A) x a : parses g x a -> parses (reads g) x a.
Proof. intros Hp c s Hc Hr. unfold reads. by rewrite (Hp c s Hc Hr). Qed.

(** A check that passes: enough bytes follow. *)
Lemma parses_need {A} n (k : M () cursor A) x a : n <= blen x -> parses k x a -> parses (do! need n ;; k) x a.
Proof.
  intros Hn Hk c s Hc Hr. unfold sbind, need. pose proof (blen_rest c Hc) as Hl. rewrite Hr, blen_app in Hl. pose proof (blen_nonneg s).
  rewrite (proj2 (Z.ltb_ge _ _)) by lia. by rewrite (Hk c s Hc Hr).
Qed.

Lemma decode_token_parses t : token_ok t -> parses decode_token (encode_token t) t.
Proof.
  destruct t as [[tc sym] prec]. intros (H1 & H2 & H3 & H4). cbn [fst snd] in *. unfold decode_token, encode_token.
  rewrite take_min, Z.min_l by done. pose proof (blen_nonneg sym).
  apply parses_need; [autorewrite with blen; lia|]. eapply parses_bind; [by apply config_reads_parses, gu64_parses|].
  eapply parses_bind; [apply config_reads_parses, gu8_parses; lia|]. apply parses_need; [autorewrite with blen; lia|].
  eapply parses_bind; [by apply config_reads_parses, gstr_parses|]. apply (parses_bind_ret _ (fun p => (tc, sym, p))). by apply config_reads_parses, gu8_parses.
Qed.

Lemma decode_tokens_parses l :
  Forall token_ok l -> parses (for_count (blen l) (fun acc => let! t := decode_token in sret (acc ++ [t])) []) (concat (encode_token <$> l)) l.
Proof.
  intros Hf. rewrite <- (foldl_snoc [] l : _ = l) at 3.
  apply (parses_for (fun acc => let! t := decode_token in sret (acc ++ [t])) encode_token (fun acc x => acc ++ [x])).
  intros a x Hx. rewrite list.Forall_forall in Hf. by apply (parses_bind_ret decode_token (fun t => a ++ [t])), decode_token_parses, Hf.
Qed.

Lemma config_roundtrip c : config_ok c -> blen (encode_config c) < U64 -> decode_config (encode_config c) = Ok c.
Proof.
  intros [H1 [H2 H2'] [H3 H3'] [H4 H4']] Hl. destruct c as [ct v f ts]; cbn [cf_contract cf_version cf_format cf_tokens] in *.
  unfold decode_config. rewrite bool_decide_false by done. unfold encode_config in *. cbn [cf_contract cf_version cf_format cf_tokens] in *.
  rewrite !take_min in * by done. rewrite !Z.min_l in * by done. apply (parses_run _ (le_bytes 1 ASSET_VERSION)); [|done].
  assert (Hfmt : decode_schema_format (encode_schema_format f) = Ok f) by (apply schema_roundtrip; [done|unfold U16_MAX in *; width_lia]).
  set (fmt := encode_schema_format f) in *. clearbody fmt. pose proof (blen_nonneg v). pose proof (blen_nonneg fmt). pose proof (blen_nonneg ts).
  pose proof (blen_nonneg (concat (encode_token <$> ts))). unfold U16_MAX in *.
  unfold decode_config_body. apply parses_need; [autorewrite with blen; lia|]. eapply parses_bind; [by apply config_reads_parses, gu64_parses|].
  apply parses_need; [autorewrite with blen; lia|]. eapply parses_bind; [apply config_reads_parses, gu16_parses; lia|].
  apply parses_need; [autorewrite with blen; lia|]. eapply parses_bind; [by apply config_reads_parses, gstr_parses|].
  eapply parses_bind; [apply config_reads_parses, gu16_parses; lia|]. apply parses_need; [autorewrite with blen; lia|].
  eapply parses_bind; [apply config_reads_parses, get_parses|]. rewrite Hfmt, <- (app_nil_l (le_bytes 2 _ ++ _)).
  eapply parses_bind; [apply config_reads_parses, parses_ret|]. eapply parses_bind; [apply config_reads_parses, gu16_parses; lia|].
  apply (parses_bind_ret _ (fun tokens => mkConfig ct v f tokens)). by apply decode_tokens_parses.
Qed.

(** ** What the format does not protect *)

(** A value of 65536 bytes is written whole behind a length of zero, and read back as the empty string; what follows is
    then read from the middle of it. *)
Lemma long_value_lost i v (Hi : 0 <= i < 65536) (Hv : blen v = 65536) : parses get_attr (le_bytes 2 i ++ le_bytes 2 0) (i, []) /\
  put_attr (i, v) = (le_bytes 2 i ++ le_bytes 2 0) ++ v.
Proof.
  split; [|unfold put_attr; cbn [fst snd]; rewrite Hv, <- app_assoc; done].
  rewrite <- (app_nil_r (le_bytes 2 0)). change (i, []) with (i, ([] : bytes)). unfold get_attr.
  eapply parses_bind; [by apply gu16_parses|]. eapply parses_bind; [by apply gu16_parses|].
  apply (parses_bind_ret _ (fun val => (i, val))). by apply (gstr_parses []).
Qed.

(** [decode_config] panics on a blob whose format has no room for its own count. *)
Lemma decode_config_panics : decode_config (le_bytes 1 3 ++ le_bytes 8 0 ++ le_bytes 2 0 ++ le_bytes 2 0 ++ le_bytes 2 0) = Panic.
Proof. vm_compute. reflexivity. Qed.

(** [decode_asset] accepts a record of any version. *)
Lemma decode_asset_any_version :
  decode_asset (x02 :: List.repeat x00 40) = decode_asset (x03 :: List.repeat x00 40) /\
  decode_asset (x02 :: List.repeat x00 40) = Ok (mkAsset 0 0 0 0 0 0 [] []).
Proof. vm_compute. done. Qed.

(** ** Properties *)

(** C21: every record of the store is decoded to what was encoded: assets, templates, collections, schema formats and
    the configuration, for values that fit their fields (strings of valid UTF-8, below 64 KiB for an attribute, up
    to 255 bytes for a name or symbol; up to 255 accounts; types the format knows). *)
Theorem records_roundtrip (a : AssetRec) (t : TemplateRec) (c : CollectionRec) (f : list (bytes * bytes)) (g : Config)
    (Ha : asset_ok a) (Ht : template_ok t) (Hc : collection_ok c) (Hf : fields_ok f) (Hg : config_ok g)
    (Hla : blen (encode_asset a) < U64) (Hlt : blen (encode_template t) < U64) (Hlc : blen (encode_collection c) < U64)
    (Hlf : blen (encode_schema_format f) < U64) (Hlg : blen (encode_config g) < U64) :
  decode_asset (encode_asset a) = Ok a /\ decode_template (encode_template t) = Ok t /\
  decode_collection (encode_collection c) = Ok c /\ decode_schema_format (encode_schema_format f) = Ok f /\
  decode_config (encode_config g) = Ok g.
Proof.
  split_and!; [by apply asset_roundtrip|by apply template_roundtrip|by apply collection_roundtrip|by apply schema_roundtrip|by apply config_roundtrip].
Qed.

Definition exr_text (s : string) : bytes := String.list_byte_of_string s.
Definition exr_attrs : list Attr := [(0, exr_text "Hero"); (300, [xc3; xa9])].
Definition exr_asset : AssetRec := mkAsset 7 8 9 (-1) 100 0 exr_attrs [(1, exr_text "Mythic")].
Definition exr_template : TemplateRec := mkTemplate 7 9 1 0 1000 3 exr_attrs.
Definition exr_collection : CollectionRec := mkCollection 8 5 1 [5; 6] [] (le_bytes 8 0) exr_attrs.
Definition exr_fields : list (bytes * bytes) := [(exr_text "name", exr_text "string"); (exr_text "tags", exr_text "uint64[]")].
Definition exr_config : Config := mkConfig 5 (exr_text "1.3.2") exr_fields [(6, exr_text "WAX", 8)].

Lemma exr_attrs_ok : attrs_ok exr_attrs.
Proof. split; [done|]. repeat constructor; vm_compute; congruence. Qed.

Lemma exr_fields_ok : fields_ok exr_fields.
Proof. split; [done|]. repeat constructor; vm_compute; congruence. Qed.

Lemma records_roundtrip_witness :
  decode_asset (encode_asset exr_asset) = Ok exr_asset /\ decode_template (encode_template exr_template) = Ok exr_template /\
  decode_collection (encode_collection exr_collection) = Ok exr_collection /\
  decode_schema_format (encode_schema_format exr_fields) = Ok exr_fields /\ decode_config (encode_config exr_config) = Ok exr_config.
Proof.
  pose proof exr_attrs_ok as Hattrs. pose proof exr_fields_ok as Hfields.
  apply (records_roundtrip exr_asset exr_template exr_collection exr_fields exr_config).
  - split; try done; split; [done|]. repeat constructor; vm_compute; congruence.
  - split; done.
  - split; try done; (split; [done|]); repeat constructor; vm_compute; congruence.
  - done.
  - split; [done|done|done|]. split; [done|]. repeat constructor; vm_compute; congruence.
  - vm_compute; reflexivity.
  - vm_compute; reflexivity.
  - vm_compute; reflexivity.
  - vm_compute; reflexivity.
  - vm_compute; reflexivity.
Defined.
