(* ===== verification/Postings.v ===== *)
(** * Posting lists ([crates/wseg-build/src/aa_binfmt.rs])

    The ids of the assets that share a key. A list of up to [RAW_MAX] ids is stored sorted; a longer one as a roaring
    bitmap behind its largest ids. The bitmaps of the [roaring] crate are the class [Treemap], and [TreemapLaws] is
    what the code relies on; [sorted_treemap] is an instance that meets it. *)

From stdpp Require Import sorting.
From S2P Require Import Prelude.
From S2P Require Import Cursor.
From S2P Require Import Segment.
From S2P Require Import AtomicRecords.

(** ** Bitmaps *)

(** [RoaringTreemap]: a set of [u64]s. *)
Class Treemap := {
  tm : Type;
  tm_empty : tm;
  tm_insert : Z -> tm -> tm;
  tm_remove : Z -> tm -> tm;
  tm_contains : Z -> tm -> bool;
  tm_iter : tm -> list Z;
  tm_len : tm -> Z;
  tm_or : tm -> tm -> tm;
  tm_sub : tm -> tm -> tm;
  tm_rank : Z -> tm -> Z;
  tm_select : Z -> tm -> option Z;
  tm_serialize : tm -> bytes;
  tm_deserialize : bytes -> option tm
}.

(** What its documentation says: it iterates in ascending order, [rank] counts the values up to one, [select] gives
    the value of a rank, and what was serialized is deserialized. *)
Class TreemapLaws (T : Treemap) := {
  tm_sorted s : StronglySorted Z.lt (tm_iter s);
  tm_empty_iter : tm_iter tm_empty = [];
  tm_insert_elem x y s : x ∈ tm_iter (tm_insert y s) <-> x = y \/ x ∈ tm_iter s;
  tm_remove_elem x y s : x ∈ tm_iter (tm_remove y s) <-> x <> y /\ x ∈ tm_iter s;
  tm_contains_spec x s : tm_contains x s = true <-> x ∈ tm_iter s;
  tm_len_spec s : tm_len s = blen (tm_iter s);
  tm_or_elem x s t : x ∈ tm_iter (tm_or s t) <-> x ∈ tm_iter s \/ x ∈ tm_iter t;
  tm_sub_elem x s t : x ∈ tm_iter (tm_sub s t) <-> x ∈ tm_iter s /\ x ∉ tm_iter t;
  tm_rank_spec x s : tm_rank x s = blen (List.filter (fun y => y <=? x) (tm_iter s));
  tm_select_spec n s : 0 <= n -> tm_select n s = tm_iter s !! Z.to_nat n;
  tm_roundtrip s : Forall is_u64 (tm_iter s) -> exists t, tm_deserialize (tm_serialize s) = Some t /\ tm_iter t = tm_iter s
}.

(** Collecting an iterator. *)
Definition tm_collect `{Treemap} (ids : list Z) : tm := foldl (fun s x => tm_insert x s) tm_empty ids.

(** ** Plain lists *)

(** [ids.dedup()]: runs of equal ids become one. *)
Fixpoint dedup (l : list Z) : list Z :=
  match l with
  | x :: (y :: _) as t => if x =? y then dedup t else x :: dedup t
  | _ => l
  end.

(** [ids.sort_unstable(); ids.dedup();]. *)
Definition sort_dedup (ids : list Z) : list Z := dedup (merge_sort Z.le ids).

Definition put_ids (ids : list Z) : bytes := concat (le_bytes 8 <$> ids).

Definition encode_posting_list (ids : list Z) : bytes :=
  let ids := sort_dedup ids in
  le_bytes 4 (blen ids) ++ put_ids ids.

Record PostingList := mkPosting { pl_body : bytes; pl_len : Z }.

(** [PostingList::new]. *)
Definition posting_new (blob : bytes) : out PostingList :=
  let? n := rdu32 blob 0 in
  let? body := or_panic (slice blob 4 (n * 8)) in
  Ok (mkPosting body n).

Definition pl_get (p : PostingList) (i : Z) : out Z := rdu64 (pl_body p) (i * 8).

(** One turn of [PostingList::intersect]. *)
Definition intersect_iter (a b : PostingList) (st : Z * Z * list Z) : M Empty_set () (ctl (Z * Z * list Z) (list Z)) :=
  let '(i, j, acc) := st in
  if (i <? pl_len a) && (j <? pl_len b) then
    let! x := slift (pl_get a i) in
    let! y := slift (pl_get b j) in
    if x <? y then sret (Cont (i + 1, j, acc))
    else if y <? x then sret (Cont (i, j + 1, acc))
    else sret (Cont (i + 1, j + 1, acc ++ [x]))
  else sret (Break acc).

Definition intersect (a b : PostingList) : out (list Z) := (loop_ (intersect_iter a b) (0, 0, []) ()).1.

(** ** The hybrid format *)

Definition RAW_MAX : Z := 512.
Definition HEAD_K : Z := 256.

Section Hybrid.
Context {T : Treemap}.

Definition encode_posting_hybrid (ids : list Z) : bytes :=
  let ids := sort_dedup ids in
  if blen ids <=? RAW_MAX then le_bytes 1 0 ++ le_bytes 4 (blen ids) ++ put_ids ids
  else
    let rbytes := tm_serialize (tm_collect ids) in
    let head_n := Z.min HEAD_K (blen ids) in
    le_bytes 1 1 ++ le_bytes 4 (blen ids) ++ le_bytes 4 head_n ++ put_ids (take (Z.to_nat head_n) (reverse ids)) ++ rbytes.

Inductive Posting := Raw (pl : PostingList) | Roaring (full : Z) (head body : bytes).

(** [Posting::parse]. *)
Definition posting_parse (blob : bytes) : out Posting :=
  let? full := rdu32 blob 1 in
  let? format := or_panic (byte_at blob 0) in
  if b2z format =? 0 then
    let? body := or_panic (slice blob 5 (full * 8)) in
    Ok (Raw (mkPosting body full))
  else
    let? hn := rdu32 blob 5 in
    let? head := or_panic (slice blob 9 (hn * 8)) in
    let? body := or_panic (slice blob (9 + hn * 8) (blen blob - (9 + hn * 8))) in
    Ok (Roaring full head body).

Definition posting_len (p : Posting) : Z := match p with Raw pl => pl_len pl | Roaring full _ _ => full end.

(** The ids at the positions [js], in that order. *)
Fixpoint ids_at (body : bytes) (js : list Z) : out (list Z) :=
  match js with
  | [] => Ok []
  | j :: js => let? x := rdu64 body (j * 8) in let? xs := ids_at body js in Ok (x :: xs)
  end.

(** [Posting::head_for_each]: what its callback is given, in order. *)
Definition head_for_each (p : Posting) (n : Z) : out (list Z) :=
  match p with
  | Raw pl => ids_at (pl_body pl) (seqZ (sat_sub (pl_len pl) n) (pl_len pl - sat_sub (pl_len pl) n))
  | Roaring _ head _ => ids_at head (seqZ 0 (Z.min n (blen head / 8)))
  end.

(** [Posting::to_roaring]. *)
Definition to_roaring (p : Posting) : out tm :=
  match p with
  | Raw pl => let? ids := ids_at (pl_body pl) (seqZ 0 (pl_len pl)) in Ok (tm_collect ids)
  | Roaring _ _ body => or_panic (tm_deserialize body)
  end.
End Hybrid.

(** ** Sorted lists of ids *)

Lemma sorted_lt_nodup l : StronglySorted Z.lt l -> NoDup l.
Proof.
  induction 1 as [|x l Hl IH Hx]; [constructor|]. constructor; [|done]. intros Hin. rewrite list.Forall_forall in Hx. specialize (Hx x Hin). lia.
Qed.

(** A strictly sorted list is determined by its elements. *)
Lemma sorted_ext l k : StronglySorted Z.lt l -> StronglySorted Z.lt k -> (forall x, x ∈ l <-> x ∈ k) -> l = k.
Proof.
  intros Hl Hk He. apply (StronglySorted_unique_strong Z.lt); [intros; lia|done|done|].
  apply NoDup_Permutation; [by apply sorted_lt_nodup|by apply sorted_lt_nodup|done].
Qed.

Lemma dedup_cons2 y z l : dedup (y :: z :: l) = if y =? z then dedup (z :: l) else y :: dedup (z :: l).
Proof. done. Qed.

Lemma dedup_elem l x : x ∈ dedup l <-> x ∈ l.
Proof.
  induction l as [|y l IH]; [done|]. destruct l as [|z l]; [done|]. rewrite dedup_cons2. destruct (Z.eqb_spec y z) as [->|].
  - rewrite IH, !elem_of_cons. tauto.
  - rewrite elem_of_cons, IH, (elem_of_cons (z :: l)). tauto.
Qed.

Lemma dedup_sorted l : StronglySorted Z.le l -> StronglySorted Z.lt (dedup l).
Proof.
  induction 1 as [|y l Hl IH Hy]; [constructor|]. destruct l as [|z l]; [repeat constructor|]. rewrite dedup_cons2.
  destruct (Z.eqb_spec y z); [done|]. constructor; [done|]. apply list.Forall_forall. intros x Hx. apply (dedup_elem (z :: l)) in Hx.
  rewrite list.Forall_forall in Hy. assert (z <= x); [|specialize (Hy z ltac:(left)); lia].
  apply elem_of_cons in Hx as [->|Hx]; [lia|]. apply StronglySorted_inv in Hl as [_ Hz]. rewrite list.Forall_forall in Hz. by apply Hz.
Qed.

Lemma sort_dedup_spec ids : StronglySorted Z.lt (sort_dedup ids) /\ forall x, x ∈ sort_dedup ids <-> x ∈ ids.
Proof.
  unfold sort_dedup. split.
  - apply dedup_sorted, StronglySorted_merge_sort; [intros ???; lia|intros ??; lia].
  - intros x. rewrite dedup_elem. by rewrite merge_sort_Permutation.
Qed.

Lemma sort_dedup_sorted l : StronglySorted Z.lt l -> sort_dedup l = l.
Proof. intros Hl. destruct (sort_dedup_spec l) as [H1 H2]. by apply sorted_ext. Qed.

(** Ids in descending order. *)
Definition descending (X : gset Z) : list Z := reverse (sort_dedup (elements X)).

Section CollectFacts.
Context {T : Treemap} {L : TreemapLaws T}.

Lemma tm_collect_elem ids x : x ∈ tm_iter (tm_collect ids) <-> x ∈ ids.
Proof.
  unfold tm_collect. assert (H : forall s, x ∈ tm_iter (foldl (fun s x => tm_insert x s) s ids) <-> x ∈ tm_iter s \/ x ∈ ids).
  { induction ids as [|y ids IH]; intros s; cbn [foldl]; [set_solver|]. rewrite IH, tm_insert_elem, elem_of_cons. tauto. }
  rewrite H, tm_empty_iter. set_solver.
Qed.

Lemma tm_collect_iter ids : tm_iter (tm_collect ids) = sort_dedup ids.
Proof.
  destruct (sort_dedup_spec ids) as [H1 H2]. apply sorted_ext; [apply tm_sorted|done|]. intros x. by rewrite tm_collect_elem, H2.
Qed.
End CollectFacts.

(** ** An instance *)

Fixpoint get_ids (fuel : nat) (b : bytes) : list Z :=
  match fuel with
  | O => []
  | S fuel => match b with [] => [] | _ => le_of (take 8 b) :: get_ids fuel (drop 8 b) end
  end.

Lemma blen_put_ids ids : blen (put_ids ids) = 8 * blen ids.
Proof. apply blen_concat. intros. by rewrite blen_le_bytes. Qed.

Lemma put_ids_longer ids : (length ids <= length (put_ids ids))%nat.
Proof. pose proof (blen_put_ids ids) as H. unfold blen in H. lia. Qed.

Lemma get_put_ids ids : Forall is_u64 ids -> forall fuel, (length ids <= fuel)%nat -> get_ids fuel (put_ids ids) = ids.
Proof.
  induction 1 as [|x ids Hx _ IH]; intros fuel Hf; [by destruct fuel|]. destruct fuel as [|fuel]; cbn [length] in Hf; [lia|].
  unfold put_ids. rewrite fmap_cons. cbn [concat get_ids].
  destruct (le_bytes 8 x ++ concat (le_bytes 8 <$> ids)) eqn:E; [done|]. rewrite <- E. clear E.
  rewrite take_app_length', drop_app_length' by done. rewrite le_of_le_bytes_id by width_lia. f_equal. apply IH. lia.
Qed.

#[export] Instance sorted_treemap : Treemap := {
  tm := gset Z;
  tm_empty := ∅;
  tm_insert x s := {[x]} ∪ s;
  tm_remove x s := s ∖ {[x]};
  tm_contains x s := bool_decide (x ∈ s);
  tm_iter s := sort_dedup (elements s);
  tm_len s := Z.of_nat (size s);
  tm_or s t := s ∪ t;
  tm_sub s t := s ∖ t;
  tm_rank x s := blen (List.filter (fun y => y <=? x) (sort_dedup (elements s)));
  tm_select n s := sort_dedup (elements s) !! Z.to_nat n;
  tm_serialize s := put_ids (sort_dedup (elements s));
  tm_deserialize b := Some (list_to_set (get_ids (length b) b))
}.

Lemma sort_elements (X : gset Z) x : x ∈ sort_dedup (elements X) <-> x ∈ X.
Proof. destruct (sort_dedup_spec (elements X)) as [_ H]. by rewrite H, elem_of_elements. Qed.

Lemma sort_elements_len (X : gset Z) : blen (sort_dedup (elements X)) = Z.of_nat (size X).
Proof.
  unfold blen. f_equal. unfold size, set_size. cbn. apply Permutation_length, NoDup_Permutation.
  - apply sorted_lt_nodup, sort_dedup_spec.
  - apply NoDup_elements.
  - apply sort_dedup_spec.
Qed.

#[export] Instance sorted_treemap_laws : TreemapLaws sorted_treemap.
Proof.
  split; unfold tm_iter, tm_empty, tm_insert, tm_remove, tm_contains, tm_len, tm_or, tm_sub, tm_rank, tm_select, tm_serialize, tm_deserialize,
    sorted_treemap; intros.
  - apply sort_dedup_spec.
  - done.
  - rewrite !sort_elements. set_solver.
  - rewrite !sort_elements. set_solver.
  - by rewrite sort_elements, bool_decide_eq_true.
  - by rewrite sort_elements_len.
  - rewrite !sort_elements. set_solver.
  - rewrite !sort_elements. set_solver.
  - done.
  - done.
  - eexists. split; [reflexivity|]. rewrite get_put_ids; [|done|].
    + apply sorted_ext; [apply sort_dedup_spec|apply sort_dedup_spec|]. intros x. rewrite sort_elements. by rewrite elem_of_list_to_set.
    + apply put_ids_longer.
Qed.

(** ** Reading a posting back *)

Lemma ids_at_put ids js :
  Forall is_u64 ids -> Forall (fun j => 0 <= j < blen ids) js -> ids_at (put_ids ids) js = Ok ((fun j => default 0 (ids !! Z.to_nat j)) <$> js).
Proof.
  intros Hids. induction 1 as [|j js Hj _ IH]; [done|]. cbn [ids_at]. rewrite fmap_cons.
  destruct (lookup_lt_is_Some_2 ids (Z.to_nat j)) as [x Hx]; [unfold blen in Hj; lia|].
  pose proof (concat_slice (le_bytes 8) 8 ids (Z.to_nat j) x ltac:(intros; by rewrite blen_le_bytes) Hx) as Hs. fold (put_ids ids) in Hs.
  rewrite Z2Nat.id in Hs by lia. rewrite Z.mul_comm. rewrite (rdu64_slice _ _ x x Hs eq_refl).
  - cbn [rbind]. rewrite IH. cbn [rbind]. by rewrite Hx.
  - by apply (list.Forall_lookup_1 _ _ _ _ Hids Hx).
Qed.

(** The positions from [a] on are the tail of the list. *)
Lemma lookups_drop (ids : list Z) a :
  0 <= a <= blen ids -> (fun j => default 0 (ids !! Z.to_nat j)) <$> seqZ a (blen ids - a) = drop (Z.to_nat a) ids.
Proof.
  intros Ha. apply list_eq. intros i. rewrite list_lookup_fmap, lookup_drop. destruct (decide (Z.of_nat i < blen ids - a)) as [Hi|Hi].
  - rewrite (proj2 (lookup_seqZ _ _ _ (a + Z.of_nat i))) by lia. cbn. replace (Z.to_nat (a + Z.of_nat i)) with (Z.to_nat a + i)%nat by lia.
    destruct (lookup_lt_is_Some_2 ids (Z.to_nat a + i)) as [x Hx]; [unfold blen in *; lia|]. by rewrite Hx.
  - rewrite lookup_seqZ_ge by lia. symmetry. apply lookup_ge_None_2. unfold blen in *. lia.
Qed.

Lemma lookups_take (ids : list Z) n :
  0 <= n <= blen ids -> (fun j => default 0 (ids !! Z.to_nat j)) <$> seqZ 0 n = take (Z.to_nat n) ids.
Proof.
  intros Hn. apply list_eq. intros i. rewrite list_lookup_fmap. destruct (decide (Z.of_nat i < n)) as [Hi|Hi].
  - rewrite (proj2 (lookup_seqZ _ _ _ (Z.of_nat i))) by lia. cbn. rewrite Nat2Z.id, lookup_take by lia. rewrite decide_True by lia.
    destruct (lookup_lt_is_Some_2 ids i) as [x Hx]; [unfold blen in *; lia|]. by rewrite Hx.
  - rewrite lookup_seqZ_ge by lia. symmetry. apply lookup_ge_None_2. rewrite length_take. lia.
Qed.

Lemma seqZ_range a n hi : 0 <= a -> a + n <= hi -> Forall (fun j => 0 <= j < hi) (seqZ a n).
Proof. intros Ha Hn. apply list.Forall_forall. intros j Hj%elem_of_seqZ. lia. Qed.

Section PostingFacts.
Context {T : Treemap} {L : TreemapLaws T}.

(** What a posting answers, by the ids it holds, ascending. *)
Record posts (p : Posting) (l : list Z) : Prop := {
  po_len : posting_len p = blen l;
  po_head n : 0 <= n <= HEAD_K -> exists h, head_for_each p n = Ok h /\ h ≡ₚ drop (length l - Z.to_nat n) l;
  po_roaring : exists t, to_roaring p = Ok t /\ tm_iter t = l;
  po_raw pl : p = Raw pl -> forall i, 0 <= i < blen l -> pl_get pl i = Ok (default 0 (l !! Z.to_nat i))
}.

Lemma raw_posts l : StronglySorted Z.lt l -> Forall is_u64 l -> posts (Raw (mkPosting (put_ids l) (blen l))) l.
Proof.
  intros Hs Hl. pose proof (blen_nonneg l) as Hn. split; cbn [posting_len head_for_each to_roaring pl_body pl_len]; [done| | |].
  - intros n Hk. eexists. split.
    + apply ids_at_put; [done|]. unfold sat_sub. apply seqZ_range; lia.
    + unfold sat_sub. rewrite lookups_drop by lia. replace (Z.to_nat (Z.max 0 (blen l - n))) with (length l - Z.to_nat n)%nat by (unfold blen; lia). done.
  - rewrite ids_at_put by (done || apply seqZ_range; lia). cbn [rbind]. eexists. split; [done|].
    rewrite tm_collect_iter, lookups_take by lia. unfold blen. rewrite Nat2Z.id, take_ge by done. by apply sort_dedup_sorted.
  - intros pl [= <-] i Hi. unfold pl_get. cbn [pl_body]. pose proof (ids_at_put l [i] Hl ltac:(constructor; [done|constructor])) as H. cbn [ids_at] in H.
    destruct (rdu64 _ _) as [x|e|]; [|done|done]. cbn [rbind fmap list_fmap] in H. by injection H as ->.
Qed.

Lemma slice_full' b off n : off = 0 /\ n = blen b -> slice b off n = Some b.
Proof. intros [-> ->]. by apply slice_full. Qed.

Lemma drop_reverse_perm {A} (l : list A) n : take n (reverse l) ≡ₚ drop (length l - n) l.
Proof.
  rewrite <- (reverse_Permutation (drop _ _)), reverse_drop. destruct (decide (n <= length l)%nat).
  - by replace (length l - (length l - n))%nat with n by lia.
  - rewrite !take_ge by (rewrite length_reverse; lia). done.
Qed.

Lemma roaring_posts l t :
  RAW_MAX < blen l -> StronglySorted Z.lt l -> Forall is_u64 l -> tm_deserialize (tm_serialize (tm_collect l)) = Some t -> tm_iter t = tm_iter (tm_collect l) ->
  posts (Roaring (blen l) (put_ids (take (Z.to_nat HEAD_K) (reverse l))) (tm_serialize (tm_collect l))) l.
Proof.
  intros Hb Hs Hl Ht Hi. split; cbn [posting_len head_for_each to_roaring]; [done| | |done].
  - intros n Hn. set (h := take (Z.to_nat HEAD_K) (reverse l)).
    assert (Hh : blen h = HEAD_K).
    { unfold h. apply blen_take. rewrite blen_reverse. unfold RAW_MAX, HEAD_K in *. lia. }
    assert (Hu : Forall is_u64 h) by (apply list.Forall_take; by rewrite reverse_Permutation).
    rewrite blen_put_ids, Hh. replace (8 * HEAD_K / 8) with HEAD_K by done. rewrite Z.min_l by lia. eexists. split.
    + apply ids_at_put; [done|]. apply seqZ_range; lia.
    + rewrite lookups_take by lia. unfold h. rewrite take_take, Nat.min_l by (unfold HEAD_K in *; lia). apply drop_reverse_perm.
  - rewrite Ht. eexists. split; [done|]. rewrite Hi, tm_collect_iter. by apply sort_dedup_sorted.
Qed.

Lemma posting_posts ids :
  Forall is_u64 ids -> blen (sort_dedup ids) < U32 ->
  exists p, posting_parse (encode_posting_hybrid ids) = Ok p /\ posts p (sort_dedup ids).
Proof.
  intros Hids Hlen. destruct (sort_dedup_spec ids) as [Hs He]. unfold encode_posting_hybrid. set (l := sort_dedup ids) in *.
  assert (Hl : Forall is_u64 l) by (apply list.Forall_forall; intros x Hx%He; rewrite list.Forall_forall in Hids; by apply Hids).
  pose proof (blen_nonneg l) as Hn. assert (Hu : is_u32 (blen l)) by width_lia. unfold posting_parse. destruct (Z.leb_spec (blen l) RAW_MAX) as [Hr|Hr].
  - rewrite (rdu32_slice _ 1 (blen l) (blen l)) by (done || by apply (slice_mid (le_bytes 1 0))). cbn [rbind].
    change (byte_at _ 0) with (Some x00). cbn [or_panic rbind]. change (b2z x00 =? 0) with true. cbv iota.
    rewrite app_assoc, <- (app_nil_r (put_ids l)).
    rewrite (slice_mid (le_bytes 1 0 ++ le_bytes 4 (blen l)) (put_ids l) [] 5 (blen l * 8)) by (done || rewrite blen_put_ids; lia).
    cbn [or_panic rbind]. eexists. split; [done|]. by apply raw_posts.
  - rewrite Z.min_l by (unfold RAW_MAX, HEAD_K in *; lia). set (h := take (Z.to_nat HEAD_K) (reverse l)). set (r := tm_serialize _).
    rewrite (rdu32_slice _ 1 (blen l) (blen l)) by (done || by apply (slice_mid (le_bytes 1 1))). cbn [rbind].
    change (byte_at _ 0) with (Some x01). cbn [or_panic rbind]. change (b2z x01 =? 0) with false. cbv iota.
    rewrite (rdu32_slice _ 5 HEAD_K HEAD_K) by (done || by rewrite app_assoc; apply slice_mid). cbn [rbind].
    assert (Hh : blen (put_ids h) = HEAD_K * 8).
    { rewrite blen_put_ids. unfold h. rewrite blen_take; [lia|]. rewrite blen_reverse. unfold RAW_MAX, HEAD_K in *. lia. }
    rewrite !app_assoc. rewrite <- (app_assoc _ (put_ids h) r).
    rewrite (slice_mid _ (put_ids h) r 9 (HEAD_K * 8)) by done. cbn [or_panic rbind].
    rewrite (app_assoc _ (put_ids h)), slice_app_r by (rewrite blen_app, Hh; autorewrite with blen; lia).
    rewrite slice_full' by (rewrite !blen_app, Hh; autorewrite with blen; lia). cbn [or_panic rbind].
    eexists. split; [done|]. destruct (tm_roundtrip (tm_collect l)) as (t & Ht & Hi).
    { rewrite tm_collect_iter, sort_dedup_sorted by done. done. }
    by apply (roaring_posts l t).
Qed.
End PostingFacts.

(** ** Intersection *)

Definition lists (p : PostingList) (l : list Z) : Prop :=
  pl_len p = blen l /\ forall i, 0 <= i < blen l -> pl_get p i = Ok (default 0 (l !! Z.to_nat i)).

Lemma lists_get p l (i : Z) : lists p l -> 0 <= i < blen l -> exists x, l !! Z.to_nat i = Some x /\ pl_get p i = Ok x.
Proof.
  intros [_ Hg] Hi. destruct (lookup_lt_is_Some_2 l (Z.to_nat i)) as [x Hx]; [unfold blen in Hi; lia|]. exists x. split; [done|].
  by rewrite Hg, Hx.
Qed.

Lemma posting_lists ids : Forall is_u64 ids -> blen (sort_dedup ids) < U32 ->
  exists p, posting_new (encode_posting_list ids) = Ok p /\ lists p (sort_dedup ids).
Proof.
  intros Hids Hlen. destruct (sort_dedup_spec ids) as [Hs He]. unfold encode_posting_list, posting_new. set (l := sort_dedup ids) in *.
  assert (Hl : Forall is_u64 l) by (apply list.Forall_forall; intros x Hx%He; rewrite list.Forall_forall in Hids; by apply Hids).
  pose proof (blen_nonneg l). rewrite (rdu32_slice _ 0 (blen l) (blen l)); [|apply slice_app_l; by apply slice_full|done|width_lia]. cbn [rbind].
  rewrite slice_app_r by (rewrite blen_le_bytes; lia). rewrite blen_le_bytes, slice_full' by (rewrite blen_put_ids; lia). cbn [or_panic rbind].
  eexists. split; [done|]. split; [done|]. cbn [pl_body pl_len].
  intros i Hi. unfold pl_get. cbn [pl_body]. pose proof (ids_at_put l [i] Hl ltac:(constructor; [done|constructor])) as E. cbn [ids_at] in E.
  destruct (rdu64 _ _) as [x|e|]; [|done|done]. cbn [rbind fmap list_fmap] in E. by injection E as ->.
Qed.

Definition common (l k : list Z) : list Z := List.filter (fun x => bool_decide (x ∈ k)) l.

Lemma common_app l l' k : common (l ++ l') k = common l k ++ common l' k.
Proof. apply List.filter_app. Qed.

Lemma common_none l k : (forall x, x ∈ l -> x ∉ k) -> common l k = [].
Proof.
  induction l as [|x l IH]; intros H; [done|]. unfold common. cbn. rewrite bool_decide_false by (apply H; left). apply IH. intros y Hy. apply H. by right.
Qed.

Section Intersecting.
Context (a b : PostingList) (l k : list Z) (Ha : lists a l) (Hb : lists b k).
Context (Hl : StronglySorted Z.lt l) (Hk : StronglySorted Z.lt k) (Hsize : blen l < U32 /\ blen k < U32).

Let inv (st : Z * Z * list Z) : Prop :=
  let '(i, j, acc) := st in
  0 <= i <= blen l /\ 0 <= j <= blen k /\ acc = common (take (Z.to_nat i) l) k /\
  forall (m n : nat) x y, l !! m = Some x -> k !! n = Some y -> i <= Z.of_nat m -> Z.of_nat n < j -> y < x.

Lemma intersect_step st :
  inv st ->
  match intersect_iter a b st () with
  | (Ok (Cont st'), _) => inv st' /\ 0 <= (blen l - st'.1.1) + (blen k - st'.1.2) < (blen l - st.1.1) + (blen k - st.1.2)
  | (Ok (Break r), _) => r = common l k
  | _ => False
  end.
Proof.
  destruct st as [[i j] acc]. intros (Hi & Hj & -> & Hlt). unfold intersect_iter. rewrite (proj1 Ha), (proj1 Hb). cbn [fst snd].
  destruct (Z.ltb_spec i (blen l)) as [H1|H1]; [destruct (Z.ltb_spec j (blen k)) as [H2|H2]|]; cbn [andb].
  - destruct (lists_get a l i Ha ltac:(lia)) as (x & Hx & Ex). destruct (lists_get b k j Hb ltac:(lia)) as (y & Hy & Ey).
    unfold sbind, slift, sret. rewrite Ex, Ey.
    assert (Ht : take (Z.to_nat (i + 1)) l = take (Z.to_nat i) l ++ [x]) by (rewrite Z2Nat.inj_add, Nat.add_1_r by lia; by apply take_S_r).
    assert (Hk' : forall n z, k !! n = Some z -> Z.of_nat n < j \/ z = y \/ y < z).
    { intros n z Hz. destruct (Z.lt_total (Z.of_nat n) j) as [|[E|]]; [by left|right; left; subst j; rewrite Nat2Z.id in Hy; congruence|].
      right; right. apply (sorted_lookup _ _ (Z.to_nat j) n y z Hk Hy Hz). lia. }
    assert (Hl' : forall m z, l !! m = Some z -> i <= Z.of_nat m -> z = x \/ x < z /\ i < Z.of_nat m).
    { intros m z Hz Hm. destruct (Z.eq_dec (Z.of_nat m) i) as [E|]; [left; subst i; rewrite Nat2Z.id in Hx; congruence|].
      right. split; [|lia]. apply (sorted_lookup _ _ (Z.to_nat i) m x z Hl Hx Hz). lia. }
    destruct (Z.ltb_spec x y); [|destruct (Z.ltb_spec y x)]; cbn [fst snd]; (split; [|lia]); (split; [lia|split; [lia|split]]).
    + rewrite Ht, common_app, (common_none [x]), app_nil_r; [done|]. intros z ->%list_elem_of_singleton [n Hn]%list_elem_of_lookup_1.
      pose proof (Hlt (Z.to_nat i) n x x Hx Hn). destruct (Hk' n x Hn) as [|[|]]; lia.
    + intros m n u v Hu Hv Hm Hn. apply (Hlt m n u v Hu Hv); lia.
    + done.
    + intros m n u v Hu Hv Hm Hn. destruct (Z.eq_dec (Z.of_nat n) j) as [E|]; [|apply (Hlt m n u v Hu Hv); lia].
      assert (v = y) by (subst j; rewrite Nat2Z.id in Hy; congruence). destruct (Hl' m u Hu Hm) as [|[]]; lia.
    + assert (x = y) as -> by lia. rewrite Ht, common_app. f_equal. unfold common. cbn. rewrite bool_decide_true by (by eapply list_elem_of_lookup_2). done.
    + intros m n u v Hu Hv Hm Hn. destruct (Hl' m u Hu ltac:(lia)) as [->|[H3 H4]].
      * exfalso. assert (m = Z.to_nat i); [|lia]. apply (NoDup_lookup l m (Z.to_nat i) x (sorted_lt_nodup l Hl) Hu Hx).
      * destruct (Hk' n v Hv) as [H5|[->|H5]]; [apply (Hlt m n u v Hu Hv); lia|lia|].
        exfalso. pose proof (sorted_lookup _ _ n (Z.to_nat j) v y Hk Hv Hy). destruct (decide (n = Z.to_nat j)) as [->|]; [assert (v = y) by congruence; lia|lia].
  - unfold sret. rewrite <- (take_drop (Z.to_nat i) l) at 2. rewrite common_app, (common_none (drop _ _)), app_nil_r; [done|].
    intros z [m Hm]%list_elem_of_lookup_1 [n Hn]%list_elem_of_lookup_1. rewrite lookup_drop in Hm. pose proof (lookup_lt_Some _ _ _ Hn).
    pose proof (Hlt _ n z z Hm Hn). unfold blen in *. lia.
  - unfold sret. rewrite take_ge; [done|]. unfold blen in *. lia.
Qed.

Lemma intersect_spec : intersect a b = Ok (common l k).
Proof.
  pose proof (blen_nonneg l). pose proof (blen_nonneg k).
  apply (loop_spec (fun st _ => inv st) (fun st _ => (blen l - st.1.1) + (blen k - st.1.2)) (fun r _ => r = Ok (common l k))).
  - intros st [] Hi. pose proof (intersect_step st Hi) as Hs. destruct (intersect_iter a b st ()) as [[[st'|r]|e|] []]; [done|by subst|done|done].
  - split; [lia|]. split; [lia|]. split; [done|]. intros; lia.
  - cbn [fst snd]. width_lia.
Qed.
End Intersecting.

(** ** Properties *)

(** C20: a posting list gives back the ids it was built from, whatever their order and repetitions: its length is
    their number, its head the [n] largest of them, its bitmap all of them, in the raw and in the roaring format;
    and the merge of two plain lists gives exactly the common ids, ascending. *)
Theorem posting_exact (T : Treemap) (L : TreemapLaws T) (ids ids' : list Z)
    (Hids : Forall is_u64 ids) (Hids' : Forall is_u64 ids')
    (Hlen : blen (sort_dedup ids) < U32) (Hlen' : blen (sort_dedup ids') < U32) :
  (exists p, posting_parse (encode_posting_hybrid ids) = Ok p /\ posting_len p = blen (sort_dedup ids) /\
     (forall n, 0 <= n <= HEAD_K -> exists h, head_for_each p n = Ok h /\ h ≡ₚ drop (length (sort_dedup ids) - Z.to_nat n) (sort_dedup ids)) /\
     exists t, to_roaring p = Ok t /\ forall x, x ∈ tm_iter t <-> x ∈ ids) /\
  (exists a b r, posting_new (encode_posting_list ids) = Ok a /\ posting_new (encode_posting_list ids') = Ok b /\
     intersect a b = Ok r /\ StronglySorted Z.lt r /\ forall x, x ∈ r <-> x ∈ ids /\ x ∈ ids').
Proof.
  destruct (sort_dedup_spec ids) as [Hs He]. destruct (sort_dedup_spec ids') as [Hs' He']. split.
  - destruct (posting_posts ids Hids Hlen) as (p & Hp & [H1 H2 (t & Ht & Hi) _]). exists p. split; [done|]. split; [done|]. split; [done|].
    exists t. split; [done|]. intros x. by rewrite Hi, He.
  - destruct (posting_lists ids Hids Hlen) as (a & Ea & Ha). destruct (posting_lists ids' Hids' Hlen') as (b & Eb & Hb).
    exists a, b, (common (sort_dedup ids) (sort_dedup ids')). split; [done|]. split; [done|].
    split; [by apply intersect_spec|]. split.
    + unfold common. clear - Hs. induction Hs as [|x l Hl IH Hx]; [constructor|]. cbn. destruct (bool_decide _); [|done]. constructor; [done|].
      rewrite list.Forall_forall in Hx |- *. intros y Hy. apply Hx. apply list_elem_of_In in Hy. apply List.filter_In in Hy as [Hy _]. by apply list_elem_of_In.
    + intros x. unfold common. rewrite list_elem_of_In, List.filter_In, <- list_elem_of_In, bool_decide_eq_true, He, He'. done.
Qed.

Lemma posting_exact_witness :
  (exists p, posting_parse (encode_posting_hybrid (T := sorted_treemap) [9; 4; 9; 1]) = Ok p /\ posting_len p = 3 /\
     (forall n, 0 <= n <= HEAD_K -> exists h, head_for_each p n = Ok h /\ h ≡ₚ drop (3 - Z.to_nat n) [1; 4; 9]) /\
     exists t : tm, to_roaring p = Ok t /\ forall x, x ∈ tm_iter t <-> x ∈ [9; 4; 9; 1]) /\
  (exists a b r, posting_new (encode_posting_list [9; 4; 9; 1]) = Ok a /\ posting_new (encode_posting_list [4; 5; 9]) = Ok b /\
     intersect a b = Ok r /\ StronglySorted Z.lt r /\ forall x, x ∈ r <-> x ∈ [9; 4; 9; 1] /\ x ∈ [4; 5; 9]).
Proof.
  apply (posting_exact sorted_treemap sorted_treemap_laws [9; 4; 9; 1] [4; 5; 9]); [repeat constructor; done|repeat constructor; done|done|done].
Defined.
