(* ===== verification/Live.v ===== *)
(** * The live AtomicAssets store ([crates/wseg-build/src/aa_live.rs])

    A frozen segment and an overlay over it. Deltas of the chain (mints, transfers, burns, changes of data) are applied
    to the overlay in two phases: [prepare_block] reads what it needs of the base, [commit_into] changes the overlay
    only. Queries merge the two: the forward record of an asset decides what keys it has now, the postings of the base
    and the sets [add] and [rem] of the overlay propose candidates.

    A [HashMap] is a [gmap], a [BTreeSet] a [gset]; the bitmaps are those of [Postings.v]. What reads the mapped file
    panics where it is malformed. *)

From stdpp Require Import sorting.
From S2P Require Import Prelude.
From S2P Require Import Cursor.
From S2P Require Import Segment.
From S2P Require Import AtomicKeys.
From S2P Require Import AtomicRecords.
From S2P Require Import Postings.

(** ** Dimensions *)

Definition DIM_OWNER : Z := 0.
Definition DIM_COLL : Z := 1.
Definition DIM_SCHEMA : Z := 2.
Definition DIM_TMPL : Z := 3.
Definition DIM_FACET : Z := 4.

Definition table_for_dim (dim : Z) : Z :=
  if dim =? DIM_OWNER then TABLE_AA_BY_OWNER
  else if dim =? DIM_COLL then TABLE_AA_BY_COLL
  else if dim =? DIM_SCHEMA then TABLE_AA_BY_SCHEMA
  else if dim =? DIM_TMPL then TABLE_AA_BY_TMPL
  else TABLE_AA_DATA_ATTR.

(** ** Assets and deltas *)

Record AssetLive := mkLive {
  al_owner : Z; al_collection : Z; al_schema : Z; al_template_id : Z; al_block_num : Z; al_template_mint : Z;
  al_facet_key : option Z; al_immutable : list Attr; al_mutable : list Attr
}.

Inductive FwdState := LiveAsset (a : AssetLive) | Tomb.

Record AssetKeys := mkKeys { ak_owner : Z; ak_coll : Z; ak_schema_key : Z; ak_tmpl_key : option Z; ak_facet_key : option Z }.

Definition for_dim (k : AssetKeys) (dim : Z) : option Z :=
  if dim =? DIM_OWNER then Some (ak_owner k)
  else if dim =? DIM_COLL then Some (ak_coll k)
  else if dim =? DIM_SCHEMA then Some (ak_schema_key k)
  else if dim =? DIM_TMPL then ak_tmpl_key k
  else ak_facet_key k.

Record MintD := mkMint {
  mt_asset_id : Z; mt_owner : Z; mt_collection : Z; mt_schema : Z; mt_schema_key : Z; mt_template_id : Z;
  mt_facet_key : option Z; mt_immutable : list Attr; mt_mutable : list Attr
}.
Record TransferD := mkTransfer { tf_asset_id : Z; tf_new_owner : Z }.
Record BurnD := mkBurn { bn_asset_id : Z }.
Record SetDataD := mkSetData { sd_asset_id : Z; sd_mutable : list Attr; sd_facet_old : option Z; sd_facet_new : option Z }.

Inductive Delta := Mint (m : MintD) | Transfer (t : TransferD) | Burn (b : BurnD) | SetData (s : SetDataD).

(** What a delta needs of the base. *)
Record BaseFacts := mkFacts { bf_live : option AssetLive; bf_keys : option AssetKeys; bf_tmpl_len : Z }.

Record Prepared := mkPrepared { pr_block : Z; pr_items : list (Delta * BaseFacts) }.

(** [if template_id >= 0 { Some(template_key(..)) } else { None }]. *)
Definition tmpl_key_of (template_id : Z) : option Z := if 0 <=? template_id then Some (template_key template_id) else None.

(** [live_keys]: the keys of an asset of the overlay. *)
Definition live_keys (a : AssetLive) : AssetKeys :=
  mkKeys (al_owner a) (al_collection a) (coll_schema_key (Name.decode (al_collection a)) (Name.decode (al_schema a)))
    (tmpl_key_of (al_template_id a)) (al_facet_key a).

(** [live_key]. *)
Definition live_key (a : AssetLive) (dim : Z) : option Z :=
  if dim =? DIM_OWNER then Some (al_owner a)
  else if dim =? DIM_COLL then Some (al_collection a)
  else if dim =? DIM_TMPL then tmpl_key_of (al_template_id a)
  else if dim =? DIM_SCHEMA then Some (coll_schema_key (Name.decode (al_collection a)) (Name.decode (al_schema a)))
  else al_facet_key a.

(** ** The overlay *)
Section Store.
Context {T : Treemap}.

Record Overlay := mkOverlay {
  ov_fwd : gmap Z FwdState;
  ov_add : gmap (Z * Z) tm;
  ov_rem : gmap (Z * Z) tm;
  ov_tomb : tm;
  ov_mint_seq : gmap Z Z;
  ov_sorted_id_adds : gset Z;
  ov_sorted_tmpl_adds : gset (Z * Z);
  ov_hwm_block : Z;
  ov_applied : Z;
  ov_wal : list (Z * Delta)
}.

(** [Overlay::default]. *)
Definition overlay_default : Overlay := mkOverlay ∅ ∅ ∅ tm_empty ∅ ∅ ∅ 0 0 [].

Definition set_fwd (id : Z) (s : FwdState) (ov : Overlay) : Overlay :=
  mkOverlay (<[id := s]> (ov_fwd ov)) (ov_add ov) (ov_rem ov) (ov_tomb ov) (ov_mint_seq ov) (ov_sorted_id_adds ov)
    (ov_sorted_tmpl_adds ov) (ov_hwm_block ov) (ov_applied ov) (ov_wal ov).

(** [add_set(dim, key)] and [rem_set(dim, key)], changed by [f]. *)
Definition on_add (f : tm -> tm) (dim key : Z) (ov : Overlay) : Overlay :=
  mkOverlay (ov_fwd ov) (<[(dim, key) := f (default tm_empty (ov_add ov !! (dim, key)))]> (ov_add ov)) (ov_rem ov) (ov_tomb ov)
    (ov_mint_seq ov) (ov_sorted_id_adds ov) (ov_sorted_tmpl_adds ov) (ov_hwm_block ov) (ov_applied ov) (ov_wal ov).

Definition on_rem (f : tm -> tm) (dim key : Z) (ov : Overlay) : Overlay :=
  mkOverlay (ov_fwd ov) (ov_add ov) (<[(dim, key) := f (default tm_empty (ov_rem ov !! (dim, key)))]> (ov_rem ov)) (ov_tomb ov)
    (ov_mint_seq ov) (ov_sorted_id_adds ov) (ov_sorted_tmpl_adds ov) (ov_hwm_block ov) (ov_applied ov) (ov_wal ov).

Definition set_tomb (s : tm) (ov : Overlay) : Overlay :=
  mkOverlay (ov_fwd ov) (ov_add ov) (ov_rem ov) s (ov_mint_seq ov) (ov_sorted_id_adds ov) (ov_sorted_tmpl_adds ov) (ov_hwm_block ov)
    (ov_applied ov) (ov_wal ov).

Definition set_sorted (ids : gset Z) (mints : gset (Z * Z)) (ov : Overlay) : Overlay :=
  mkOverlay (ov_fwd ov) (ov_add ov) (ov_rem ov) (ov_tomb ov) (ov_mint_seq ov) ids mints (ov_hwm_block ov) (ov_applied ov) (ov_wal ov).

Definition set_mint_seq (m : gmap Z Z) (ov : Overlay) : Overlay :=
  mkOverlay (ov_fwd ov) (ov_add ov) (ov_rem ov) (ov_tomb ov) m (ov_sorted_id_adds ov) (ov_sorted_tmpl_adds ov) (ov_hwm_block ov)
    (ov_applied ov) (ov_wal ov).

Definition set_hwm (b : Z) (ov : Overlay) : Overlay :=
  mkOverlay (ov_fwd ov) (ov_add ov) (ov_rem ov) (ov_tomb ov) (ov_mint_seq ov) (ov_sorted_id_adds ov) (ov_sorted_tmpl_adds ov) b
    (ov_applied ov) (ov_wal ov).

(** [ov.wal.push((block, d)); ov.applied += 1;]. *)
Definition logged (block : Z) (d : Delta) (ov : Overlay) : Overlay :=
  mkOverlay (ov_fwd ov) (ov_add ov) (ov_rem ov) (ov_tomb ov) (ov_mint_seq ov) (ov_sorted_id_adds ov) (ov_sorted_tmpl_adds ov)
    (ov_hwm_block ov) (add64 (ov_applied ov) 1) (ov_wal ov ++ [(block, d)]).

Definition add_len (ov : Overlay) (dim key : Z) : Z := match ov_add ov !! (dim, key) with Some s => tm_len s | None => 0 end.
Definition rem_len (ov : Overlay) (dim key : Z) : Z := match ov_rem ov !! (dim, key) with Some s => tm_len s | None => 0 end.

(** [clone_state]: without the log. *)
Definition clone_state (ov : Overlay) : Overlay :=
  mkOverlay (ov_fwd ov) (ov_add ov) (ov_rem ov) (ov_tomb ov) (ov_mint_seq ov) (ov_sorted_id_adds ov) (ov_sorted_tmpl_adds ov)
    (ov_hwm_block ov) (ov_applied ov) [].

(** [Overlay::wal_after]: [out] is what was taken, [last] the block of the last entry. *)
Fixpoint wal_loop (after max : Z) (wal : list (Z * Delta)) (taken : list (Z * Delta)) (last : option Z) : list (Z * Delta) :=
  match wal with
  | [] => taken
  | (b, d) :: wal =>
      if b <=? after then wal_loop after max wal taken last
      else if (max <=? blen taken) && negb (bool_decide (last = Some b)) then taken
      else wal_loop after max wal (taken ++ [(b, d)]) (Some b)
  end.

Definition wal_after (ov : Overlay) (after max : Z) : list (Z * Delta) := wal_loop after max (ov_wal ov) [] None.

Definition leave (dim key id : Z) (was_base_member : bool) (ov : Overlay) : Overlay :=
  if was_base_member then on_rem (tm_insert id) dim key ov else on_add (tm_remove id) dim key ov.

Definition join (dim key id : Z) (is_base_member : bool) (ov : Overlay) : Overlay :=
  if is_base_member then on_rem (tm_remove id) dim key ov else on_add (tm_insert id) dim key ov.

Definition promote (id : Z) (base_live : option AssetLive) (ov : Overlay) : Overlay :=
  match ov_fwd ov !! id with
  | Some _ => ov
  | None => match base_live with Some a => set_fwd id (LiveAsset a) ov | None => ov end
  end.

(** ** Applying a delta *)

(** The ordinal of a mint in its template, and the sequence after it. *)
Definition next_mint (ov : Overlay) (tmpl_key : option Z) (base_tmpl_len : Z) : Z * Overlay :=
  match tmpl_key with
  | Some tk =>
      let seq := add32 (default 0 (ov_mint_seq ov !! tk)) 1 in
      (add32 base_tmpl_len seq, set_mint_seq (<[tk := seq]> (ov_mint_seq ov)) ov)
  | None => (0, ov)
  end.

Definition do_mint (block : Z) (m : MintD) (base_tmpl_len : Z) (ov : Overlay) : Overlay :=
  let id := mt_asset_id m in
  let tmpl_key := tmpl_key_of (mt_template_id m) in
  let '(template_mint, ov) := next_mint ov tmpl_key base_tmpl_len in
  let ov := set_fwd id (LiveAsset (mkLive (mt_owner m) (mt_collection m) (mt_schema m) (mt_template_id m) block template_mint
    (mt_facet_key m) (mt_immutable m) (mt_mutable m))) ov in
  let ov := on_add (tm_insert id) DIM_OWNER (mt_owner m) ov in
  let ov := on_add (tm_insert id) DIM_COLL (mt_collection m) ov in
  let ov := on_add (tm_insert id) DIM_SCHEMA (mt_schema_key m) ov in
  let ov := match tmpl_key with
            | Some tk =>
                let ov := on_add (tm_insert id) DIM_TMPL tk ov in
                set_sorted (ov_sorted_id_adds ov) ({[(template_mint, id)]} ∪ ov_sorted_tmpl_adds ov) ov
            | None => ov
            end in
  let ov := match mt_facet_key m with Some fk => on_add (tm_insert id) DIM_FACET fk ov | None => ov end in
  set_sorted ({[id]} ∪ ov_sorted_id_adds ov) (ov_sorted_tmpl_adds ov) ov.

(** [a.owner = ..; a.block_num = ..;]. *)
Definition with_owner (owner block : Z) (a : AssetLive) : AssetLive :=
  mkLive owner (al_collection a) (al_schema a) (al_template_id a) block (al_template_mint a) (al_facet_key a) (al_immutable a) (al_mutable a).

(** [a.mutable = ..; a.facet_key = ..;]. *)
Definition with_data (mutable : list Attr) (facet : option Z) (a : AssetLive) : AssetLive :=
  mkLive (al_owner a) (al_collection a) (al_schema a) (al_template_id a) (al_block_num a) (al_template_mint a) facet (al_immutable a) mutable.

(** A change of the forward record, if the asset is live. *)
Definition on_live (id : Z) (f : AssetLive -> AssetLive) (ov : Overlay) : Overlay :=
  match ov_fwd ov !! id with
  | Some (LiveAsset a) => set_fwd id (LiveAsset (f a)) ov
  | _ => ov
  end.

Definition do_transfer (block : Z) (t : TransferD) (base_live : option AssetLive) (ov : Overlay) : Overlay :=
  let id := tf_asset_id t in
  let from := match ov_fwd ov !! id with
              | Some Tomb => None
              | Some (LiveAsset a) => Some (al_owner a)
              | None => al_owner <$> base_live
              end in
  match from with
  | None => ov
  | Some from =>
      if from =? tf_new_owner t then ov
      else
        let base_owner := al_owner <$> base_live in
        let ov := leave DIM_OWNER from id (bool_decide (base_owner = Some from)) ov in
        let ov := join DIM_OWNER (tf_new_owner t) id (bool_decide (base_owner = Some (tf_new_owner t))) ov in
        let ov := promote id base_live ov in
        on_live id (with_owner (tf_new_owner t) block) ov
  end.

(** An asset leaves the posting of every key it has. *)
Definition leave_dims (id : Z) (k : AssetKeys) (base_keys : option AssetKeys) (ov : Overlay) : Overlay :=
  foldl (fun ov dim =>
    match for_dim k dim with
    | Some key => leave dim key id (bool_decide ((base_keys ≫= fun b => for_dim b dim) = Some key)) ov
    | None => ov
    end) ov [DIM_OWNER; DIM_COLL; DIM_SCHEMA; DIM_TMPL; DIM_FACET].

Definition do_burn (b : BurnD) (base_keys : option AssetKeys) (ov : Overlay) : Overlay :=
  let id := bn_asset_id b in
  let keys := match ov_fwd ov !! id with
              | Some Tomb => None
              | Some (LiveAsset a) => Some (live_keys a)
              | None => base_keys
              end in
  let ov := match keys with Some k => leave_dims id k base_keys ov | None => ov end in
  let mints := match ov_fwd ov !! id with
               | Some (LiveAsset a) => ov_sorted_tmpl_adds ov ∖ {[(al_template_mint a, id)]}
               | _ => ov_sorted_tmpl_adds ov
               end in
  let ov := set_sorted (ov_sorted_id_adds ov ∖ {[id]}) mints ov in
  let ov := set_tomb (tm_insert id (ov_tomb ov)) ov in
  set_fwd id Tomb ov.

Definition do_setdata (s : SetDataD) (base_live : option AssetLive) (base_facet : option Z) (ov : Overlay) : Overlay :=
  let id := sd_asset_id s in
  let ov := promote id base_live ov in
  match ov_fwd ov !! id with
  | Some (LiveAsset a) =>
      let cur_facet := al_facet_key a in
      let ov := if bool_decide (cur_facet = sd_facet_new s) then ov
                else
                  let ov := match cur_facet with
                            | Some old => leave DIM_FACET old id (bool_decide (base_facet = Some old)) ov
                            | None => ov
                            end in
                  match sd_facet_new s with
                  | Some new => join DIM_FACET new id (bool_decide (base_facet = Some new)) ov
                  | None => ov
                  end in
      on_live id (with_data (sd_mutable s) (sd_facet_new s)) ov
  | _ => ov
  end.

Definition apply_resolved (block : Z) (d : Delta) (facts : BaseFacts) (ov : Overlay) : Overlay :=
  let ov := logged block d ov in
  match d with
  | Mint m => do_mint block m (bf_tmpl_len facts) ov
  | Transfer t => do_transfer block t (bf_live facts) ov
  | Burn b => do_burn b (bf_keys facts) ov
  | SetData s => do_setdata s (bf_live facts) (bf_keys facts ≫= ak_facet_key) ov
  end.

Definition commit_into (ov : Overlay) (p : Prepared) : Overlay :=
  let ov := foldl (fun ov x => apply_resolved (pr_block p) x.1 x.2 ov) ov (pr_items p) in
  if ov_hwm_block ov <? pr_block p then set_hwm (pr_block p) ov else ov.

(** ** The base *)

Record LiveSeg := mkSeg { ls_base : BaseSeg; ls_facet_fields : list bytes; ls_base_max_id : Z }.

(** [LiveSeg::from_base]; [LiveSeg::open] is the same on the base it opens. *)
Definition from_base (base : BaseSeg) (facet_fields : list bytes) : out LiveSeg :=
  let? b := sentinel_blob base TABLE_AA_SORTED_ID in
  let? max := match b with
              | Some b => let? n := rdu32 b 0 in if 0 <? n then rdu64 b 4 else Ok 0
              | None => Ok 0
              end in
  Ok (mkSeg base facet_fields max).

(** [BaseSeg::base_len]. *)
Definition base_len (base : BaseSeg) (table_id key : Z) : out Z :=
  let? b := lookup base table_id key in
  match b with
  | Some b => let? p := posting_parse b in Ok (posting_len p)
  | None => Ok 0
  end.

(** The value of an attribute, among the immutable ones first. *)
Definition attr_value (immutable mutable : list Attr) (idx : Z) : option bytes :=
  match List.find (fun a => a.1 =? idx) immutable with
  | Some a => Some a.2
  | None => snd <$> List.find (fun a => a.1 =? idx) mutable
  end.

Definition facet_value_ok (v : bytes) : bool := negb (bool_decide (v = [])) && (blen v <=? 64).

(** The loop of [facet_key_of] over the configured fields. *)
Fixpoint facet_loop (coll_s sch_s : bytes) (immutable mutable : list Attr) (fields : list (bytes * bytes)) (fs : list bytes) : option Z :=
  match fs with
  | [] => None
  | fld :: fs =>
      match position (fun f => bool_decide (f.1 = fld)) fields with
      | None => facet_loop coll_s sch_s immutable mutable fields fs
      | Some idx =>
          match attr_value immutable mutable (Z.of_nat idx mod 65536) with
          | Some v => if facet_value_ok v then Some (data_attr_key coll_s sch_s fld v) else facet_loop coll_s sch_s immutable mutable fields fs
          | None => facet_loop coll_s sch_s immutable mutable fields fs
          end
      end
  end.

Section Base.
Context (seg : LiveSeg).

Definition facet_key_of (coll_s sch_s : bytes) (immutable mutable : list Attr) : out (option Z) :=
  let? sfmt := lookup (ls_base seg) TABLE_AA_SCHEMAS (coll_schema_key coll_s sch_s) in
  match sfmt with
  | None => Ok None
  | Some b =>
      let? fields := decode_schema_format b in
      Ok (facet_loop coll_s sch_s immutable mutable fields (ls_facet_fields seg))
  end.

Definition keys_from (a : AssetRec) : out AssetKeys :=
  let coll_s := Name.decode (ar_collection a) in
  let sch_s := Name.decode (ar_schema a) in
  let? facet_key := facet_key_of coll_s sch_s (ar_immutable a) (ar_mutable a) in
  Ok (mkKeys (ar_owner a) (ar_collection a) (coll_schema_key coll_s sch_s) (tmpl_key_of (ar_template_id a)) facet_key).

Definition base_keys (id : Z) : out (option AssetKeys) :=
  let? b := lookup (ls_base seg) TABLE_AA_FWD id in
  match b with
  | None => Ok None
  | Some b => let? a := decode_asset b in let? k := keys_from a in Ok (Some k)
  end.

Definition decode_base_live (id : Z) : out (option AssetLive) :=
  let? b := lookup (ls_base seg) TABLE_AA_FWD id in
  match b with
  | None => Ok None
  | Some b =>
      let? a := decode_asset b in
      let? facet_key := facet_key_of (Name.decode (ar_collection a)) (Name.decode (ar_schema a)) (ar_immutable a) (ar_mutable a) in
      Ok (Some (mkLive (ar_owner a) (ar_collection a) (ar_schema a) (ar_template_id a) (ar_block_num a) (ar_template_mint a)
        facet_key (ar_immutable a) (ar_mutable a)))
  end.

Definition resolve (d : Delta) : out BaseFacts :=
  match d with
  | Mint m =>
      let? n := (if 0 <=? mt_template_id m then base_len (ls_base seg) TABLE_AA_BY_TMPL (template_key (mt_template_id m)) else Ok 0) in
      Ok (mkFacts None None (wrap32 n))
  | Transfer t => let? live := decode_base_live (tf_asset_id t) in Ok (mkFacts live None 0)
  | Burn b => let? keys := base_keys (bn_asset_id b) in Ok (mkFacts None keys 0)
  | SetData s =>
      let? live := decode_base_live (sd_asset_id s) in
      let? keys := base_keys (sd_asset_id s) in
      Ok (mkFacts live keys 0)
  end.

Fixpoint resolve_all (ds : list Delta) : out (list (Delta * BaseFacts)) :=
  match ds with
  | [] => Ok []
  | d :: ds => let? f := resolve d in let? fs := resolve_all ds in Ok ((d, f) :: fs)
  end.

Definition prepare_block (block : Z) (deltas : list Delta) : out Prepared :=
  let? items := resolve_all deltas in Ok (mkPrepared block items).

(** [apply_block]: prepare, then commit. *)
Definition apply_block (block : Z) (deltas : list Delta) (ov : Overlay) : out Overlay :=
  let? p := prepare_block block deltas in Ok (commit_into ov p).

(** The replay of [rollback_to]. *)
Fixpoint replay_to (block : Z) (wal : list (Z * Delta)) (ov : Overlay) : out Overlay :=
  match wal with
  | [] => Ok ov
  | (b, d) :: wal =>
      if b <=? block then let? facts := resolve d in replay_to block wal (apply_resolved b d facts ov)
      else replay_to block wal ov
  end.

Definition rollback_to (block : Z) (ov : Overlay) : out Overlay :=
  let? ov := replay_to block (ov_wal ov) overlay_default in Ok (set_hwm block ov).

(** ** Queries *)

Definition point_owner (ov : Overlay) (id : Z) : out (option Z) :=
  match ov_fwd ov !! id with
  | Some Tomb => Ok None
  | Some (LiveAsset a) => Ok (Some (al_owner a))
  | None =>
      let? b := lookup (ls_base seg) TABLE_AA_FWD id in
      match b with
      | Some b => let? a := decode_asset b in Ok (Some (ar_owner a))
      | None => Ok None
      end
  end.

(** [exists]. *)
Definition exists_ (ov : Overlay) (id : Z) : out bool :=
  match ov_fwd ov !! id with
  | Some Tomb => Ok false
  | Some (LiveAsset _) => Ok true
  | None => let? b := lookup (ls_base seg) TABLE_AA_FWD id in Ok (bool_decide (is_Some b))
  end.

Definition is_member (ov : Overlay) (dim key id : Z) : bool :=
  match ov_fwd ov !! id with
  | None => true
  | Some Tomb => false
  | Some (LiveAsset a) => bool_decide (live_key a dim = Some key)
  end.

(** [sort_unstable_by(|a, b| b.cmp(a))]. *)
Definition sort_desc (ids : list Z) : list Z := merge_sort Z.ge ids.

(** The first [n] members, in order; [taken] are those so far. *)
Fixpoint take_members (ov : Overlay) (dim key n : Z) (cand taken : list Z) : list Z :=
  match cand with
  | [] => taken
  | id :: cand =>
      if n <=? blen taken then taken
      else take_members ov dim key n cand (if is_member ov dim key id then taken ++ [id] else taken)
  end.

Definition materialize (ov : Overlay) (dim key n : Z) : out (list Z) :=
  let? b := lookup (ls_base seg) (table_for_dim dim) key in
  let? set := match b with
              | Some b => let? p := posting_parse b in to_roaring p
              | None => Ok tm_empty
              end in
  let set := match ov_add ov !! (dim, key) with Some a => tm_or set a | None => set end in
  let set := match ov_rem ov !! (dim, key) with Some r => tm_sub set r | None => set end in
  let set := tm_sub set (ov_tomb ov) in
  Ok (take (Z.to_nat n) (sort_desc (tm_iter set))).

Definition page (ov : Overlay) (dim key n : Z) : out (list Z) :=
  let table := table_for_dim dim in
  let adds := match ov_add ov !! (dim, key) with Some s => tm_iter s | None => [] end in
  let? b := lookup (ls_base seg) table key in
  let? head := match b with
               | Some b => let? p := posting_parse b in head_for_each p 256
               | None => Ok []
               end in
  let cand := dedup (sort_desc (adds ++ head)) in
  let found := take_members ov dim key n cand [] in
  if blen found <? n then
    let? base_total := base_len (ls_base seg) table key in
    if 256 + rem_len ov dim key <? base_total + add_len ov dim key then materialize ov dim key n else Ok found
  else Ok found.

(** The deserialized postings, kept. *)
Definition post_cache : Type := gmap (Z * Z) tm.

Definition base_roaring (table key : Z) : M Empty_set post_cache tm := fun c =>
  match c !! (table, key) with
  | Some rt => (Ok rt, c)
  | None =>
      match (let? b := lookup (ls_base seg) table key in
             match b with
             | Some b => let? p := posting_parse b in to_roaring p
             | None => Ok tm_empty
             end) with
      | Ok rt => (Ok rt, <[(table, key) := rt]> c)
      | Err e => (Err e, c)
      | Panic => (Panic, c)
      end
  end.

(** The search for the first id of a raw posting that is not below [cursor]. *)
Definition lower_bound_iter (pl : PostingList) (cursor : Z) (a : Z * Z) : M Empty_set () (ctl (Z * Z) Z) :=
  let '(lo, hi) := a in
  if lo <? hi then
    let m := add64 lo hi / 2 in
    let! x := slift (pl_get pl m) in
    sret (Cont (if x <? cursor then (m + 1, hi) else (lo, m)))
  else sret (Break lo).

(** The ids before position [i], backwards, at most [want]. *)
Fixpoint walk_back (pl : PostingList) (i : nat) (want : Z) (taken : list Z) : out (list Z) :=
  match i with
  | O => Ok taken
  | S i =>
      if blen taken <? want then let? x := pl_get pl (Z.of_nat i) in walk_back pl i want (taken ++ [x])
      else Ok taken
  end.

(** The same over a bitmap, by rank. *)
Fixpoint select_back (rt : tm) (k : nat) (want : Z) (taken : list Z) : list Z :=
  match k with
  | O => taken
  | S k =>
      if blen taken <? want then select_back rt k want (match tm_select (Z.of_nat k) rt with Some v => taken ++ [v] | None => taken end)
      else taken
  end.

Definition base_below (table key cursor want : Z) : M Empty_set post_cache (list Z) :=
  let! b := slift (lookup (ls_base seg) table key) in
  match b with
  | None => sret []
  | Some b =>
      let! p := slift (posting_parse b) in
      match p with
      | Raw pl =>
          let! lo := slift (loop_ (lower_bound_iter pl cursor) (0, pl_len pl) ()).1 in
          slift (walk_back pl (Z.to_nat lo) want [])
      | Roaring _ _ _ =>
          let! rt := base_roaring table key in
          sret (select_back rt (Z.to_nat (tm_rank (sat_sub cursor 1) rt)) want [])
      end
  end.

Definition candidates_below (ov : Overlay) (dim table key cursor want : Z) : M Empty_set post_cache (list Z) :=
  let! base := base_below table key cursor want in
  let adds := match ov_add ov !! (dim, key) with Some s => List.filter (fun v => v <? cursor) (tm_iter s) | None => [] end in
  sret (take (Z.to_nat want) (dedup (sort_desc (base ++ adds)))).

(** One chunk of [page_after]. *)
Definition page_after_iter (ov : Overlay) (dim key n : Z) (a : Z * list Z) : M Empty_set post_cache (ctl (Z * list Z) (list Z)) :=
  let '(cursor, found) := a in
  let want := add64 (mul64 (sub64 n (blen found)) 2) 64 in
  let! chunk := candidates_below ov dim (table_for_dim dim) key cursor want in
  match list.last chunk with
  | None => sret (Break found)
  | Some lowest =>
      let found := take_members ov dim key n chunk found in
      if (n <=? blen found) || (blen chunk <? want) then sret (Break found) else sret (Cont (lowest, found))
  end.

Definition page_after (ov : Overlay) (dim key : Z) (after : option Z) (n : Z) : M Empty_set post_cache (list Z) :=
  loop_ (page_after_iter ov dim key n) (default u64_max after, []).

Definition count (ov : Overlay) (dim key : Z) : out Z :=
  let? n := base_len (ls_base seg) (table_for_dim dim) key in
  Ok (n + add_len ov dim key - rem_len ov dim key).

(** The body of both loops of [browse]: what was seen and taken, and whether the page is full. *)
Definition browse_id (ov : Overlay) (skip n : Z) (st : Z * list Z * bool) (id : Z) : Z * list Z * bool :=
  let '(seen, taken, full) := st in
  if full || tm_contains id (ov_tomb ov) then st
  else if skip <=? seen then
    let taken := taken ++ [id] in
    (seen + 1, taken, n <=? blen taken)
  else (seen + 1, taken, false).

(** A [BTreeSet] from the last to the first. *)
Definition set_desc (X : gset Z) : list Z := sort_desc (elements X).

(** The loop over the presorted ids of the base, at the positions [ks]. *)
Fixpoint browse_base (ov : Overlay) (skip n : Z) (b : bytes) (ks : list Z) (st : Z * list Z * bool) : out (Z * list Z * bool) :=
  match ks with
  | [] => Ok st
  | k :: ks =>
      if st.2 then Ok st
      else let? id := rdu64 b (4 + k * 8) in browse_base ov skip n b ks (browse_id ov skip n st id)
  end.

Definition browse (ov : Overlay) (skip n : Z) : out (list Z) :=
  let st := foldl (browse_id ov skip n) (0, [], false) (set_desc (ov_sorted_id_adds ov)) in
  if st.2 then Ok st.1.2
  else
    let? b := sentinel_blob (ls_base seg) TABLE_AA_SORTED_ID in
    match b with
    | None => Ok st.1.2
    | Some b =>
        let? cnt := rdu32 b 0 in
        let? st := browse_base ov skip n b (seqZ 0 cnt) st in
        Ok st.1.2
    end.
End Base.
End Store.
