(* ===== verification/LiveFacts.v ===== *)
(** * What the live store answers

    [base_ok] is what the store needs of its base, by the assets the base holds; [spec_delta] is what a delta does to a
    map of assets. The invariant [live_ok] ties the overlay to both: the forward records give the current assets, and
    for every key [add] and [rem] are exactly the differences between the current members and those of the base. *)

From stdpp Require Import sorting.
From S2P Require Import Prelude.
From S2P Require Import Cursor.
From S2P Require Import Segment.
From S2P Require Import AtomicKeys.
From S2P Require Import AtomicRecords.
From S2P Require Import Postings.
From S2P Require Import Live.

#[local] Opaque coll_schema_key data_attr_key Name.decode.

(** ** The specification *)

(** The key of an asset that may be absent. *)
Definition key_in (o : option AssetLive) (dim : Z) : option Z := o ≫= fun a => live_key a dim.

Definition is_dim (dim : Z) : Prop := 0 <= dim <= 4.

(** The assets that have a key. *)
Definition members (S : gmap Z AssetLive) (dim key : Z) : gset Z := dom (filter (fun p => live_key p.2 dim = Some key) S).

(** The assets, and how many were minted into each template since the base. *)
Record assets := mkAssets { as_map : gmap Z AssetLive; as_seq : gmap Z Z }.

Definition delta_id (d : Delta) : Z :=
  match d with Mint m => mt_asset_id m | Transfer t => tf_asset_id t | Burn b => bn_asset_id b | SetData s => sd_asset_id s end.

(** A mint creates its asset, the next of its template; a transfer, a burn and a change of data act on an asset
    that exists. [B] are the assets of the base. *)
Definition spec_delta (B : gmap Z AssetLive) (block : Z) (s : assets) (d : Delta) : assets :=
  match d with
  | Mint m =>
      let put mint := <[mt_asset_id m := mkLive (mt_owner m) (mt_collection m) (mt_schema m) (mt_template_id m) block mint
                          (mt_facet_key m) (mt_immutable m) (mt_mutable m)]> (as_map s) in
      match tmpl_key_of (mt_template_id m) with
      | Some tk =>
          let seq := add32 (default 0 (as_seq s !! tk)) 1 in
          mkAssets (put (add32 (wrap32 (Z.of_nat (size (members B DIM_TMPL tk)))) seq)) (<[tk := seq]> (as_seq s))
      | None => mkAssets (put 0) (as_seq s)
      end
  | Transfer t =>
      mkAssets (alter (fun a => if al_owner a =? tf_new_owner t then a else with_owner (tf_new_owner t) block a) (tf_asset_id t) (as_map s)) (as_seq s)
  | Burn b => mkAssets (delete (bn_asset_id b) (as_map s)) (as_seq s)
  | SetData x => mkAssets (alter (with_data (sd_mutable x) (sd_facet_new x)) (sd_asset_id x) (as_map s)) (as_seq s)
  end.

(** The log of deltas that a mint must not find its id in, and the keys it must bring. *)
Definition mint_ok (used : gset Z) (d : Delta) : Prop :=
  match d with
  | Mint m => (mt_asset_id m ∉ used) /\ mt_schema_key m = coll_schema_key (Name.decode (mt_collection m)) (Name.decode (mt_schema m))
  | _ => True
  end.

Fixpoint log_ok (used : gset Z) (ds : list Delta) : Prop :=
  match ds with
  | [] => True
  | d :: ds => mint_ok used d /\ log_ok ({[delta_id d]} ∪ used) ds
  end.

Lemma members_elem S dim key id : id ∈ members S dim key <-> key_in (S !! id) dim = Some key.
Proof.
  unfold members, key_in. rewrite elem_of_dom. split.
  - intros [a [Ha Hk]%map_lookup_filter_Some]. rewrite Ha. done.
  - destruct (S !! id) as [a|] eqn:E; [|done]. cbn. intros Hk. exists a. by apply map_lookup_filter_Some.
Qed.

Lemma live_key_for_dim a dim : for_dim (live_keys a) dim = live_key a dim.
Proof.
  unfold for_dim, live_key. destruct (dim =? DIM_OWNER); [reflexivity|]. destruct (dim =? DIM_COLL); [reflexivity|].
  destruct (Z.eqb_spec dim DIM_SCHEMA) as [->|]; [reflexivity|]. destruct (dim =? DIM_TMPL); reflexivity.
Qed.

(** The differences between two sets, counted. *)
Lemma size_differences (X Y : gset Z) : Z.of_nat (size X) = Z.of_nat (size Y) + Z.of_nat (size (X ∖ Y)) - Z.of_nat (size (Y ∖ X)).
Proof.
  assert (H1 : size X = (size (X ∖ Y) + size (X ∩ Y))%nat).
  { rewrite <- size_union by set_solver. f_equal. apply set_eq. intros x. destruct (decide (x ∈ Y)); set_solver. }
  assert (H2 : size Y = (size (Y ∖ X) + size (X ∩ Y))%nat).
  { rewrite <- size_union by set_solver. f_equal. apply set_eq. intros x. destruct (decide (x ∈ X)); set_solver. }
  lia.
Qed.

(** ** The overlay's sets *)
Section Overlays.
Context {T : Treemap} {L : TreemapLaws T}.

(** Membership in [add] and [rem]. *)
Definition in_sets (m : gmap (Z * Z) tm) (dim key id : Z) : Prop := id ∈ tm_iter (default tm_empty (m !! (dim, key))).

(** [add] and [rem] are the differences between the keys [f] and those of the base. *)
Record sets_ok (B : gmap Z AssetLive) (f : Z -> Z -> option Z) (ov : Overlay) : Prop := {
  so_add dim key id : is_dim dim -> in_sets (ov_add ov) dim key id <-> f id dim = Some key /\ key_in (B !! id) dim <> Some key;
  so_rem dim key id : is_dim dim -> in_sets (ov_rem ov) dim key id <-> key_in (B !! id) dim = Some key /\ f id dim <> Some key
}.

Definition upd (f : Z -> Z -> option Z) (id dim : Z) (o : option Z) : Z -> Z -> option Z :=
  fun id' dim' => if (id' =? id) && (dim' =? dim) then o else f id' dim'.

Lemma sets_ok_ext B f g ov : (forall id dim, is_dim dim -> f id dim = g id dim) -> sets_ok B f ov -> sets_ok B g ov.
Proof. intros E [H1 H2]. split; intros dim key id Hd; rewrite <- E by done; auto. Qed.

Lemma in_sets_insert m dim key g dim' key' id :
  in_sets (<[(dim, key) := g (default tm_empty (m !! (dim, key)))]> m) dim' key' id <->
  if decide (dim' = dim /\ key' = key) then id ∈ tm_iter (g (default tm_empty (m !! (dim, key)))) else in_sets m dim' key' id.
Proof.
  unfold in_sets. destruct (decide (dim' = dim /\ key' = key)) as [[-> ->]|Hn]; [by rewrite lookup_insert_eq|].
  rewrite lookup_insert_ne; [done|]. intros [= -> ->]. by apply Hn.
Qed.

Lemma leave_ok B f ov dim key id :
  sets_ok B f ov -> is_dim dim -> f id dim = Some key ->
  sets_ok B (upd f id dim None) (leave dim key id (bool_decide (key_in (B !! id) dim = Some key)) ov).
Proof.
  intros [Ha Hr] Hd Hf. unfold leave, upd. case_bool_decide as Hb; split; intros dim' key' id' Hd'; cbn [on_rem on_add ov_add ov_rem].
  - rewrite Ha by done. destruct (Z.eqb_spec id' id) as [->|], (Z.eqb_spec dim' dim) as [->|]; cbn [andb]; naive_solver.
  - rewrite in_sets_insert. destruct (decide _) as [[-> ->]|Hn].
    + rewrite tm_insert_elem. fold (in_sets (ov_rem ov) dim key id'). rewrite Hr by done.
      destruct (Z.eqb_spec id' id) as [->|]; rewrite ?Z.eqb_refl; cbn [andb]; naive_solver.
    + rewrite Hr by done. destruct (Z.eqb_spec id' id) as [->|], (Z.eqb_spec dim' dim) as [->|]; cbn [andb]; naive_solver.
  - rewrite in_sets_insert. destruct (decide _) as [[-> ->]|Hn].
    + rewrite tm_remove_elem. fold (in_sets (ov_add ov) dim key id'). rewrite Ha by done.
      destruct (Z.eqb_spec id' id) as [->|]; rewrite ?Z.eqb_refl; cbn [andb]; naive_solver.
    + rewrite Ha by done. destruct (Z.eqb_spec id' id) as [->|], (Z.eqb_spec dim' dim) as [->|]; cbn [andb]; naive_solver.
  - rewrite Hr by done. destruct (Z.eqb_spec id' id) as [->|], (Z.eqb_spec dim' dim) as [->|]; cbn [andb]; naive_solver.
Qed.

Lemma join_ok B f ov dim key id :
  sets_ok B f ov -> is_dim dim -> f id dim = None ->
  sets_ok B (upd f id dim (Some key)) (join dim key id (bool_decide (key_in (B !! id) dim = Some key)) ov).
Proof.
  intros [Ha Hr] Hd Hf. unfold join, upd. case_bool_decide as Hb; split; intros dim' key' id' Hd'; cbn [on_rem on_add ov_add ov_rem].
  - rewrite Ha by done. destruct (Z.eqb_spec id' id) as [->|], (Z.eqb_spec dim' dim) as [->|]; cbn [andb]; naive_solver.
  - rewrite in_sets_insert. destruct (decide _) as [[-> ->]|Hn].
    + rewrite tm_remove_elem. fold (in_sets (ov_rem ov) dim key id'). rewrite Hr by done.
      destruct (Z.eqb_spec id' id) as [->|]; rewrite ?Z.eqb_refl; cbn [andb]; naive_solver.
    + rewrite Hr by done. destruct (Z.eqb_spec id' id) as [->|], (Z.eqb_spec dim' dim) as [->|]; cbn [andb]; naive_solver.
  - rewrite in_sets_insert. destruct (decide _) as [[-> ->]|Hn].
    + rewrite tm_insert_elem. fold (in_sets (ov_add ov) dim key id'). rewrite Ha by done.
      destruct (Z.eqb_spec id' id) as [->|]; rewrite ?Z.eqb_refl; cbn [andb]; naive_solver.
    + rewrite Ha by done. destruct (Z.eqb_spec id' id) as [->|], (Z.eqb_spec dim' dim) as [->|]; cbn [andb]; naive_solver.
  - rewrite Hr by done. destruct (Z.eqb_spec id' id) as [->|], (Z.eqb_spec dim' dim) as [->|]; cbn [andb]; naive_solver.
Qed.

(** ** The invariant *)

Definition current (B : gmap Z AssetLive) (ov : Overlay) (id : Z) : option AssetLive :=
  match ov_fwd ov !! id with
  | Some Tomb => None
  | Some (LiveAsset a) => Some a
  | None => B !! id
  end.

Record live_ok (B : gmap Z AssetLive) (s : assets) (used : gset Z) (ov : Overlay) : Prop := {
  lk_cur id : current B ov id = as_map s !! id;
  lk_sets : sets_ok B (fun id dim => key_in (as_map s !! id) dim) ov;
  lk_tomb id : id ∈ tm_iter (ov_tomb ov) <-> ov_fwd ov !! id = Some Tomb;
  lk_seq : ov_mint_seq ov = as_seq s;
  lk_adds id : id ∈ ov_sorted_id_adds ov <-> is_Some (as_map s !! id) /\ B !! id = None;
  lk_used id : is_Some (ov_fwd ov !! id) \/ is_Some (B !! id) -> id ∈ used
}.

(** All but the sets. *)
Definition same_rest (ov ov' : Overlay) : Prop :=
  ov_fwd ov' = ov_fwd ov /\ ov_tomb ov' = ov_tomb ov /\ ov_mint_seq ov' = ov_mint_seq ov /\ ov_sorted_id_adds ov' = ov_sorted_id_adds ov.

Lemma leave_rest dim key id b ov : same_rest ov (leave dim key id b ov).
Proof. unfold leave. by destruct b. Qed.

Lemma join_rest dim key id b ov : same_rest ov (join dim key id b ov).
Proof. unfold join. by destruct b. Qed.

Lemma same_rest_trans a b c : same_rest a b -> same_rest b c -> same_rest a c.
Proof. unfold same_rest. intuition congruence. Qed.

Lemma live_ok_logged B s used ov block d : live_ok B s used ov -> live_ok B s used (logged block d ov).
Proof. intros [H1 [H2 H2'] H3 H4 H5 H6]. split; try done; by split. Qed.

Lemma live_ok_used B s used used' ov : used ⊆ used' -> live_ok B s used ov -> live_ok B s used' ov.
Proof. intros Hu [H1 H2 H3 H4 H5 H6]. split; try done. intros id Hid. apply Hu. by apply H6. Qed.

Lemma promote_ok B s used ov id : live_ok B s used ov -> live_ok B s used (promote id (B !! id) ov).
Proof.
  intros [H1 [H2 H2'] H3 H4 H5 H6]. unfold promote. destruct (ov_fwd ov !! id) eqn:Ef; [by split|]. destruct (B !! id) as [a|] eqn:Eb; [|by split].
  assert (Hid : forall id' o, ov_fwd (set_fwd id (LiveAsset a) ov) !! id' = o -> id' = id /\ o = Some (LiveAsset a) \/ id' <> id /\ ov_fwd ov !! id' = o).
  { intros id' o <-. cbn [set_fwd ov_fwd]. destruct (decide (id' = id)) as [->|]; [left; by rewrite lookup_insert_eq|right; by rewrite lookup_insert_ne]. }
  split; cbn [set_fwd ov_tomb ov_mint_seq ov_sorted_id_adds]; [|by split| |done|done|].
  - intros id'. rewrite <- H1. unfold current. cbn [set_fwd ov_fwd]. destruct (decide (id' = id)) as [->|]; [by rewrite lookup_insert_eq, Ef|by rewrite lookup_insert_ne].
  - intros id'. rewrite H3. cbn [set_fwd ov_fwd]. destruct (decide (id' = id)) as [->|]; [rewrite lookup_insert_eq, Ef; naive_solver|by rewrite lookup_insert_ne].
  - intros id' [Hf|Hb]; [|apply H6; by right]. cbn [set_fwd ov_fwd] in Hf. destruct (decide (id' = id)) as [->|]; [apply H6; right; by exists a|].
    rewrite lookup_insert_ne in Hf by done. apply H6. by left.
Qed.

(** A change of the record of an asset that exists. *)
Lemma live_ok_update B s s' used used' ov ov' id a a' :
  live_ok B s used ov -> as_map s !! id = Some a -> used ⊆ used' -> id ∈ used' ->
  ov_fwd ov' = <[id := LiveAsset a']> (ov_fwd ov) -> ov_tomb ov' = ov_tomb ov -> ov_mint_seq ov' = ov_mint_seq ov ->
  ov_sorted_id_adds ov' = ov_sorted_id_adds ov -> as_map s' = <[id := a']> (as_map s) -> as_seq s' = as_seq s ->
  sets_ok B (fun id dim => key_in (as_map s' !! id) dim) ov' -> live_ok B s' used' ov'.
Proof.
  intros [H1 _ H3 H4 H5 H6] Ha Hu Hid Hf Ht Hm Hs Em Eq Hsets.
  assert (Hnt : ov_fwd ov !! id <> Some Tomb).
  { intros E. specialize (H1 id). unfold current in H1. rewrite E, Ha in H1. done. }
  split; [|done| | | |].
  - intros id'. unfold current. rewrite Hf, Em. destruct (decide (id' = id)) as [->|]; [by rewrite !lookup_insert_eq|].
    rewrite !lookup_insert_ne by done. apply H1.
  - intros id'. rewrite Ht, Hf, H3. destruct (decide (id' = id)) as [->|]; [rewrite lookup_insert_eq; naive_solver|by rewrite lookup_insert_ne].
  - by rewrite Hm, Eq.
  - intros id'. rewrite Hs, H5, Em. destruct (decide (id' = id)) as [->|]; [rewrite lookup_insert_eq, Ha; naive_solver|by rewrite lookup_insert_ne].
  - intros id' [Hx|Hx]; [|apply Hu, H6; by right]. rewrite Hf in Hx. destruct (decide (id' = id)) as [->|]; [done|].
    rewrite lookup_insert_ne in Hx by done. apply Hu, H6. by left.
Qed.

(** ** Every delta keeps it *)

(** What [resolve] reads of the base for a delta. *)
Definition facts_ok (B : gmap Z AssetLive) (d : Delta) (f : BaseFacts) : Prop :=
  match d with
  | Mint m => forall tk, tmpl_key_of (mt_template_id m) = Some tk -> bf_tmpl_len f = wrap32 (Z.of_nat (size (members B DIM_TMPL tk)))
  | Transfer t => bf_live f = B !! tf_asset_id t
  | Burn b => bf_keys f = live_keys <$> B !! bn_asset_id b
  | SetData s => bf_live f = B !! sd_asset_id s /\ bf_keys f = live_keys <$> B !! sd_asset_id s
  end.

Lemma promote_live B ov id a g : current B ov id = Some a -> on_live id g (promote id (B !! id) ov) = set_fwd id (LiveAsset (g a)) ov.
Proof.
  unfold current, promote, on_live. destruct (ov_fwd ov !! id) as [[a'|]|] eqn:E; [|done|].
  - intros [= ->]. by rewrite E.
  - intros ->. cbn [set_fwd ov_fwd]. rewrite lookup_insert_eq. unfold set_fwd. cbn [ov_fwd ov_add ov_rem ov_tomb ov_mint_seq ov_sorted_id_adds ov_sorted_tmpl_adds ov_hwm_block ov_applied ov_wal].
    by rewrite insert_insert_eq.
Qed.

Lemma alter_present (f : AssetLive -> AssetLive) id (m : gmap Z AssetLive) a : m !! id = Some a -> alter f id m = <[id := f a]> m.
Proof.
  intros E. apply map_eq. intros i. destruct (decide (i = id)) as [->|]; [by rewrite lookup_alter_eq, lookup_insert_eq, E|].
  by rewrite lookup_alter_ne, lookup_insert_ne.
Qed.

Lemma key_in_owner o : key_in o DIM_OWNER = al_owner <$> o.
Proof. by destruct o. Qed.

Lemma key_in_facet o : key_in o DIM_FACET = o ≫= al_facet_key.
Proof. by destruct o. Qed.

Lemma keys_bind (o : option AssetLive) dim : (live_keys <$> o) ≫= (fun b => for_dim b dim) = key_in o dim.
Proof. destruct o as [a|]; [|done]. cbn [fmap option_fmap option_map mbind option_bind key_in]. apply live_key_for_dim. Qed.

Lemma with_owner_key o block a dim : is_dim dim -> live_key (with_owner o block a) dim = if dim =? DIM_OWNER then Some o else live_key a dim.
Proof. intros _. unfold live_key. by destruct (dim =? DIM_OWNER). Qed.

Lemma with_data_key mu fc a dim : is_dim dim -> live_key (with_data mu fc a) dim = if dim =? DIM_FACET then fc else live_key a dim.
Proof.
  intros Hd. unfold live_key, with_data, is_dim, DIM_OWNER, DIM_COLL, DIM_TMPL, DIM_SCHEMA, DIM_FACET in *.
  cbn [al_owner al_collection al_schema al_template_id al_facet_key].
  repeat match goal with |- context [dim =? ?k] => destruct (Z.eqb_spec dim k); [try done; try lia|] end; try done; lia.
Qed.

Lemma transfer_ok B s used ov block t :
  live_ok B s used ov ->
  live_ok B (spec_delta B block s (Transfer t)) ({[tf_asset_id t]} ∪ used) (do_transfer block t (B !! tf_asset_id t) ov).
Proof.
  intros Hok. pose proof Hok as [H1 H2 H3 H4 H5 H6]. set (id := tf_asset_id t) in *. pose proof (H1 id) as Hc.
  assert (Ef : match ov_fwd ov !! id with Some Tomb => None | Some (LiveAsset a) => Some (al_owner a) | None => al_owner <$> B !! id end
    = al_owner <$> as_map s !! id) by (rewrite <- Hc; unfold current; by destruct (ov_fwd ov !! id) as [[]|]).
  unfold do_transfer. fold id. rewrite Ef. cbn [spec_delta]. fold id. destruct (as_map s !! id) as [a|] eqn:Ea; cbn [fmap option_fmap option_map].
  2:{ rewrite alter_id by (intros a Ha; by rewrite Ea in Ha). destruct s. eapply live_ok_used; [|exact Hok]. set_solver. }
  destruct (Z.eqb_spec (al_owner a) (tf_new_owner t)) as [He|He].
  { rewrite alter_id by (intros a' Ha; rewrite Ea in Ha; injection Ha as <-; by rewrite He, Z.eqb_refl).
    destruct s. eapply live_ok_used; [|exact Hok]. set_solver. }
  rewrite <- key_in_owner.
  set (ov1 := leave _ _ _ _ _). set (ov2 := join _ _ _ _ _).
  assert (Hr : same_rest ov ov2) by (eapply same_rest_trans; [apply leave_rest|apply join_rest]).
  assert (Hs2 : sets_ok B (upd (upd (fun id dim => key_in (as_map s !! id) dim) id DIM_OWNER None) id DIM_OWNER (Some (tf_new_owner t))) ov2).
  { apply join_ok; [apply leave_ok; [done|done|]|done|].
    - by rewrite Ea.
    - unfold upd. by rewrite !Z.eqb_refl. }
  destruct Hr as (R1 & R2 & R3 & R4). rewrite (promote_live B ov2 id a) by (unfold current; rewrite R1; exact Hc).
  eapply (live_ok_update B s _ used _ ov _ id a (with_owner (tf_new_owner t) block a)); [done|done|set_solver|set_solver| | | | | |done|];
    cbn [set_fwd ov_fwd ov_tomb ov_mint_seq ov_sorted_id_adds as_map].
  - by rewrite R1.
  - done.
  - done.
  - done.
  - rewrite (alter_present _ _ _ _ Ea). by destruct (Z.eqb_spec (al_owner a) (tf_new_owner t)).
  - destruct Hs2 as [A1 A2]. eapply (sets_ok_ext B _ _ _); [|split; [exact A1|exact A2]].
    intros i dim Hd. unfold upd. destruct (Z.eqb_spec i id) as [->|Hi]; cbn [andb].
    + rewrite lookup_alter_eq, Ea. cbn [fmap option_fmap option_map key_in mbind option_bind].
      destruct (Z.eqb_spec (al_owner a) (tf_new_owner t)); [done|]. rewrite with_owner_key by done. by destruct (dim =? DIM_OWNER).
    + by rewrite lookup_alter_ne by done.
Qed.

(** The sets after the facet of an asset changed. *)
Definition facet_sets (id : Z) (old new base : option Z) (ov : Overlay) : Overlay :=
  let ov := match old with Some k => leave DIM_FACET k id (bool_decide (base = Some k)) ov | None => ov end in
  match new with Some k => join DIM_FACET k id (bool_decide (base = Some k)) ov | None => ov end.

Lemma facet_sets_ok B f id old new ov :
  sets_ok B f ov -> f id DIM_FACET = old ->
  sets_ok B (upd f id DIM_FACET new) (facet_sets id old new (key_in (B !! id) DIM_FACET) ov) /\
  same_rest ov (facet_sets id old new (key_in (B !! id) DIM_FACET) ov).
Proof.
  intros Hs Hf. unfold facet_sets. set (ov1 := match old with Some k => _ | None => _ end).
  assert (H1 : sets_ok B (upd f id DIM_FACET None) ov1 /\ same_rest ov ov1).
  { unfold ov1. destruct old as [k|]; [split; [by apply leave_ok|apply leave_rest]|]. split; [|done]. eapply sets_ok_ext; [|exact Hs].
    intros i dim _. unfold upd. destruct (Z.eqb_spec i id) as [->|], (Z.eqb_spec dim DIM_FACET) as [->|]; done. }
  destruct H1 as [H1 R1]. destruct new as [k|]; [|done]. split; [|eapply same_rest_trans; [exact R1|apply join_rest]].
  eapply sets_ok_ext; [|apply (join_ok _ _ _ DIM_FACET k id H1); [done|unfold upd; by rewrite !Z.eqb_refl]].
  intros i dim _. unfold upd. by destruct ((i =? id) && (dim =? DIM_FACET)).
Qed.

Lemma setdata_ok B s used ov block x :
  live_ok B s used ov ->
  live_ok B (spec_delta B block s (SetData x)) ({[sd_asset_id x]} ∪ used)
    (do_setdata x (B !! sd_asset_id x) (key_in (B !! sd_asset_id x) DIM_FACET) ov).
Proof.
  intros Hok. set (id := sd_asset_id x) in *. pose proof (promote_ok B s used ov id Hok) as Hp. pose proof (lk_cur _ _ _ _ Hok id) as Hc.
  unfold do_setdata. fold id. cbn [spec_delta]. fold id. destruct (as_map s !! id) as [a|] eqn:Ea.
  2:{ rewrite alter_id by (intros a Ha; by rewrite Ea in Ha). destruct s as [sm sq]. unfold current in Hc.
      assert (Hn : promote id (B !! id) ov = ov /\ (ov_fwd ov !! id = None \/ ov_fwd ov !! id = Some Tomb)).
      { unfold promote. destruct (ov_fwd ov !! id) as [[]|]; [done|by auto|]. rewrite Hc. by auto. }
      destruct Hn as [-> Hn]. eapply live_ok_used; [|destruct Hn as [->| ->]; exact Hok]. set_solver. }
  set (ovp := promote id (B !! id) ov) in *.
  assert (Efp : ov_fwd ovp !! id = Some (LiveAsset a)).
  { unfold ovp, promote, current in *. destruct (ov_fwd ov !! id) as [[]|] eqn:E; [by injection Hc as ->|done|]. rewrite Hc. cbn [set_fwd ov_fwd]. apply lookup_insert_eq. }
  rewrite Efp. fold (facet_sets id (al_facet_key a) (sd_facet_new x) (key_in (B !! id) DIM_FACET) ovp).
  set (ov2 := if bool_decide _ then _ else _).
  assert (H2 : sets_ok B (upd (fun id dim => key_in (as_map s !! id) dim) id DIM_FACET (sd_facet_new x)) ov2 /\ same_rest ovp ov2).
  { unfold ov2. pose proof (lk_sets _ _ _ _ Hp) as Hsp. case_bool_decide as He.
    - split; [|done]. eapply sets_ok_ext; [|exact Hsp]. intros i dim _. unfold upd.
      destruct (Z.eqb_spec i id) as [->|], (Z.eqb_spec dim DIM_FACET) as [->|]; try done. cbn [andb]. by rewrite key_in_facet, Ea.
    - apply (facet_sets_ok B _ id _ _ ovp Hsp). by rewrite key_in_facet, Ea. }
  destruct H2 as [H2 (R1 & R2 & R3 & R4)]. unfold on_live. rewrite R1, Efp.
  eapply (live_ok_update B s _ used _ ovp _ id a (with_data (sd_mutable x) (sd_facet_new x) a)); [done|done|set_solver|set_solver| | | | | |done|];
    cbn [set_fwd ov_fwd ov_tomb ov_mint_seq ov_sorted_id_adds as_map]; try done.
  - by rewrite R1.
  - apply (alter_present _ _ _ _ Ea).
  - destruct H2 as [A1 A2]. eapply (sets_ok_ext B _ _ _); [|split; [exact A1|exact A2]].
    intros i dim Hd. unfold upd. destruct (Z.eqb_spec i id) as [->|Hi]; cbn [andb].
    + rewrite lookup_alter_eq, Ea. cbn [fmap option_fmap option_map key_in mbind option_bind]. rewrite with_data_key by done. by destruct (dim =? DIM_FACET).
    + by rewrite lookup_alter_ne by done.
Qed.

(** An asset leaves the postings of its keys in some dimensions. *)
Lemma leave_some_ok B id a dims : forall ov f,
  sets_ok B f ov -> Forall is_dim dims -> NoDup dims -> (forall dim, dim ∈ dims -> f id dim = live_key a dim) ->
  let ov' := foldl (fun ov dim =>
    match for_dim (live_keys a) dim with
    | Some key => leave dim key id (bool_decide (((live_keys <$> B !! id) ≫= fun b => for_dim b dim) = Some key)) ov
    | None => ov
    end) ov dims in
  sets_ok B (fun i dim => if (i =? id) && bool_decide (dim ∈ dims) then None else f i dim) ov' /\ same_rest ov ov'.
Proof.
  induction dims as [|d dims IH]; intros ov f Hs Hd Hnd Hf.
  - split; [|done]. eapply sets_ok_ext; [|exact Hs]. intros i dim _. rewrite bool_decide_eq_false_2 by apply not_elem_of_nil. by rewrite andb_false_r.
  - apply Forall_cons_1 in Hd as [Hd1 Hd]. apply list.NoDup_cons in Hnd as [Hn Hnd]. cbn [foldl]. rewrite keys_bind, live_key_for_dim.
    pose proof (Hf d ltac:(set_solver)) as Hfd. set (ov1 := match live_key a d with Some k => _ | None => _ end).
    assert (H1 : sets_ok B (upd f id d None) ov1 /\ same_rest ov ov1).
    { unfold ov1. destruct (live_key a d) as [k|]; [split; [by apply leave_ok|apply leave_rest]|]. split; [|done]. eapply sets_ok_ext; [|exact Hs].
      intros i dim _. unfold upd. destruct (Z.eqb_spec i id) as [->|], (Z.eqb_spec dim d) as [->|]; done. }
    destruct H1 as [H1 R1]. destruct (IH ov1 (upd f id d None) H1 Hd Hnd) as [H2 R2].
    { intros dim Hdim. unfold upd. destruct (Z.eqb_spec dim d) as [->|]; [done|]. rewrite andb_false_r. apply Hf. set_solver. }
    split; [|by eapply same_rest_trans]. eapply sets_ok_ext; [|exact H2]. intros i dim _. cbn beta. unfold upd.
    destruct (Z.eqb_spec i id) as [->|]; [|done]. cbn [andb]. destruct (Z.eqb_spec dim d) as [->|].
    + rewrite (bool_decide_eq_true_2 (d ∈ d :: dims)) by set_solver. by destruct (bool_decide (d ∈ dims)).
    + rewrite (bool_decide_ext (dim ∈ d :: dims) (dim ∈ dims)) by set_solver. done.
Qed.

(** An asset that leaves the postings of its keys leaves them all. *)
Lemma leave_dims_ok B f id a ov :
  sets_ok B f ov -> (forall dim, is_dim dim -> f id dim = live_key a dim) ->
  sets_ok B (fun i dim => if i =? id then None else f i dim) (leave_dims id (live_keys a) (live_keys <$> B !! id) ov) /\
  same_rest ov (leave_dims id (live_keys a) (live_keys <$> B !! id) ov).
Proof.
  intros Hs Hf. unfold leave_dims. destruct (leave_some_ok B id a [DIM_OWNER; DIM_COLL; DIM_SCHEMA; DIM_TMPL; DIM_FACET] ov f Hs) as [H1 H2].
  - repeat constructor; done.
  - apply (bool_decide_unpack _). vm_compute. done.
  - intros dim Hd. apply Hf. revert dim Hd. apply list.Forall_forall. repeat constructor; done.
  - split; [|exact H2]. eapply sets_ok_ext; [|exact H1]. intros i dim Hd. cbn beta. rewrite (bool_decide_eq_true_2 (dim ∈ _)), andb_true_r; [done|].
    unfold is_dim, DIM_OWNER, DIM_COLL, DIM_SCHEMA, DIM_TMPL, DIM_FACET in *. assert (dim = 0 \/ dim = 1 \/ dim = 2 \/ dim = 3 \/ dim = 4) by lia. set_solver.
Qed.

Lemma burn_ok B s used ov block b :
  live_ok B s used ov ->
  live_ok B (spec_delta B block s (Burn b)) ({[bn_asset_id b]} ∪ used) (do_burn b (live_keys <$> B !! bn_asset_id b) ov).
Proof.
  intros [H1 H2 H3 H4 H5 H6]. set (id := bn_asset_id b) in *. pose proof (H1 id) as Hc. unfold do_burn. fold id. cbn [spec_delta]. fold id.
  assert (Ek : match ov_fwd ov !! id with Some Tomb => None | Some (LiveAsset a) => Some (live_keys a) | None => live_keys <$> B !! id end
    = live_keys <$> as_map s !! id) by (rewrite <- Hc; unfold current; by destruct (ov_fwd ov !! id) as [[]|]).
  rewrite Ek. set (ov1 := match live_keys <$> as_map s !! id with Some k => _ | None => _ end).
  assert (Hs1 : sets_ok B (fun i dim => if i =? id then None else key_in (as_map s !! i) dim) ov1 /\ same_rest ov ov1).
  { unfold ov1. destruct (as_map s !! id) as [a|] eqn:Ea; cbn [fmap option_fmap option_map].
    - apply leave_dims_ok; [done|]. intros dim _. by rewrite Ea.
    - split; [|done]. eapply sets_ok_ext; [|exact H2]. intros i dim _. cbn beta. destruct (Z.eqb_spec i id) as [->|]; [by rewrite Ea|done]. }
  destruct Hs1 as [Hs1 (R1 & R2 & R3 & R4)]. split; cbn [set_fwd set_tomb set_sorted ov_fwd ov_tomb ov_mint_seq ov_sorted_id_adds as_map as_seq].
  - intros i. unfold current. cbn [set_fwd set_tomb set_sorted ov_fwd]. rewrite R1. destruct (decide (i = id)) as [->|]; [by rewrite lookup_insert_eq, lookup_delete_eq|].
    rewrite lookup_insert_ne, lookup_delete_ne by done. apply H1.
  - destruct Hs1 as [A1 A2]. eapply (sets_ok_ext B _ _ _); [|split; [exact A1|exact A2]]. intros i dim _. cbn beta.
    destruct (Z.eqb_spec i id) as [->|]; [by rewrite lookup_delete_eq|by rewrite lookup_delete_ne].
  - intros i. rewrite tm_insert_elem, R1, R2, H3. destruct (decide (i = id)) as [->|]; [rewrite lookup_insert_eq; naive_solver|].
    rewrite lookup_insert_ne by done. naive_solver.
  - by rewrite R3.
  - intros i. rewrite R4, elem_of_difference, elem_of_singleton, H5. destruct (decide (i = id)) as [->|]; [rewrite lookup_delete_eq|rewrite lookup_delete_ne by done].
    + split; [naive_solver|intros [[? ?] ?]; done].
    + naive_solver.
  - intros i [Hx|Hx]; [|apply elem_of_union_r, H6; by right]. rewrite R1 in Hx. destruct (decide (i = id)) as [->|]; [set_solver|].
    rewrite lookup_insert_ne in Hx by done. apply elem_of_union_r, H6. by left.
Qed.

(** The sets after the mint of an asset with the keys [f id]. *)
Lemma mint_join_ok B f ov dim key id :
  sets_ok B f ov -> is_dim dim -> f id dim = None -> B !! id = None ->
  sets_ok B (upd f id dim (Some key)) (on_add (tm_insert id) dim key ov).
Proof.
  intros Hs Hd Hf Hb. pose proof (join_ok B f ov dim key id Hs Hd Hf) as H. by rewrite Hb, bool_decide_eq_false_2 in H by done.
Qed.

Lemma sets_ok_rest B f ov ov' : ov_add ov' = ov_add ov -> ov_rem ov' = ov_rem ov -> sets_ok B f ov -> sets_ok B f ov'.
Proof. intros E1 E2 [H1 H2]. split; intros dim key id Hd; [rewrite E1|rewrite E2]; auto. Qed.

Lemma upd_none f id dim : f id dim = None -> forall i d, upd f id dim None i d = f i d.
Proof. intros H i d. unfold upd. destruct (Z.eqb_spec i id) as [->|], (Z.eqb_spec d dim) as [->|]; done. Qed.

Lemma upd_ne f id dim o i d : d <> dim -> upd f id dim o i d = f i d.
Proof. intros H. unfold upd. rewrite (proj2 (Z.eqb_neq d dim) H). by rewrite andb_false_r. Qed.

(** Everything a mint changes in the overlay. *)
Lemma do_mint_sets B f block m n ov :
  sets_ok B f ov -> B !! mt_asset_id m = None -> (forall dim, is_dim dim -> f (mt_asset_id m) dim = None) ->
  sets_ok B (fun i dim => if i =? mt_asset_id m then for_dim (mkKeys (mt_owner m) (mt_collection m) (mt_schema_key m) (tmpl_key_of (mt_template_id m)) (mt_facet_key m)) dim
                          else f i dim) (do_mint block m n ov).
Proof.
  intros Hs Hb Hf. unfold do_mint. set (id := mt_asset_id m) in *. destruct (next_mint _ _ _) as [mint ov0] eqn:En.
  assert (E0 : ov_add ov0 = ov_add ov /\ ov_rem ov0 = ov_rem ov) by (unfold next_mint in En; destruct (tmpl_key_of _); by injection En as <- <-).
  set (ov1 := set_fwd _ _ _). assert (H1 : sets_ok B f ov1) by (eapply sets_ok_rest; [apply E0|apply E0|exact Hs]).
  pose proof (mint_join_ok _ _ _ DIM_OWNER (mt_owner m) id H1 ltac:(done) (Hf _ ltac:(done)) Hb) as H2.
  apply (mint_join_ok _ _ _ DIM_COLL (mt_collection m) id) in H2; [|done|rewrite !upd_ne by done; by apply Hf|done].
  apply (mint_join_ok _ _ _ DIM_SCHEMA (mt_schema_key m) id) in H2; [|done|rewrite !upd_ne by done; by apply Hf|done].
  set (ov4 := on_add _ DIM_SCHEMA _ _) in *. set (ov5 := match tmpl_key_of _ with Some tk => _ | None => _ end). set (f4 := upd _ id DIM_SCHEMA _) in *.
  assert (H3 : sets_ok B (upd f4 id DIM_TMPL (tmpl_key_of (mt_template_id m))) ov5).
  { unfold ov5. assert (Hn : f4 id DIM_TMPL = None) by (unfold f4; rewrite !upd_ne by done; by apply Hf).
    destruct (tmpl_key_of _) as [tk|]; [|by eapply sets_ok_ext; [intros; symmetry; by apply upd_none|]].
    eapply sets_ok_rest; [| |by apply mint_join_ok]; done. }
  set (f5 := upd f4 _ _ _) in *. set (ov6 := match mt_facet_key m with Some _ => _ | None => _ end).
  assert (H4 : sets_ok B (upd f5 id DIM_FACET (mt_facet_key m)) ov6).
  { unfold ov6. assert (Hn : f5 id DIM_FACET = None) by (unfold f5, f4; rewrite !upd_ne by done; by apply Hf).
    destruct (mt_facet_key m) as [fk|]; [by apply mint_join_ok|]. by eapply sets_ok_ext; [intros; symmetry; by apply upd_none|]. }
  eapply sets_ok_rest; [| |eapply sets_ok_ext; [|exact H4]]; [done|done|]. intros i dim Hd. unfold f5, f4, upd.
  destruct (Z.eqb_spec i id) as [->|]; [|done]. cbn [andb]. unfold for_dim, is_dim in *. cbn [ak_owner ak_coll ak_schema_key ak_tmpl_key ak_facet_key].
  unfold DIM_OWNER, DIM_COLL, DIM_SCHEMA, DIM_TMPL, DIM_FACET. case_bools; try lia; done.
Qed.

Lemma mint_live_ok B s used ov block m n :
  live_ok B s used ov -> mint_ok used (Mint m) -> facts_ok B (Mint m) (mkFacts None None n) ->
  live_ok B (spec_delta B block s (Mint m)) ({[mt_asset_id m]} ∪ used) (do_mint block m n ov).
Proof.
  intros [H1 H2 H3 H4 H5 H6] [Hu Hk] Hn. set (id := mt_asset_id m) in *.
  assert (Hb : B !! id = None) by (destruct (B !! id) eqn:E; [|done]; destruct Hu; apply H6; right; by rewrite E).
  assert (Hf : ov_fwd ov !! id = None) by (destruct (ov_fwd ov !! id) eqn:E; [|done]; destruct Hu; apply H6; left; by rewrite E).
  assert (Hs : as_map s !! id = None) by (rewrite <- H1; unfold current; by rewrite Hf).
  pose proof (do_mint_sets B _ block m n ov H2 Hb) as Hsets. cbn beta in Hsets. fold id in Hsets. rewrite Hs in Hsets. specialize (Hsets ltac:(done)).
  set (mint := match tmpl_key_of (mt_template_id m) with Some tk => add32 n (add32 (default 0 (as_seq s !! tk)) 1) | None => 0 end).
  set (seq := match tmpl_key_of (mt_template_id m) with Some tk => <[tk := add32 (default 0 (as_seq s !! tk)) 1]> (as_seq s) | None => as_seq s end).
  set (a := mkLive (mt_owner m) (mt_collection m) (mt_schema m) (mt_template_id m) block mint (mt_facet_key m) (mt_immutable m) (mt_mutable m)).
  assert (Es : spec_delta B block s (Mint m) = mkAssets (<[id := a]> (as_map s)) seq).
  { cbn [spec_delta]. unfold seq, a, mint. cbn [facts_ok bf_tmpl_len] in Hn. destruct (tmpl_key_of _) as [tk|]; [|done]. by rewrite (Hn tk). }
  assert (Ed : ov_fwd (do_mint block m n ov) = <[id := LiveAsset a]> (ov_fwd ov) /\ ov_tomb (do_mint block m n ov) = ov_tomb ov /\
    ov_mint_seq (do_mint block m n ov) = seq /\ ov_sorted_id_adds (do_mint block m n ov) = {[id]} ∪ ov_sorted_id_adds ov).
  { unfold do_mint, next_mint, seq, a, mint. fold id. rewrite H4. by destruct (tmpl_key_of _), (mt_facet_key m). }
  destruct Ed as (E1 & E2 & E3 & E4). rewrite Es. split; cbn [as_map as_seq].
  - intros i. unfold current. rewrite E1. destruct (decide (i = id)) as [->|]; [by rewrite !lookup_insert_eq|]. rewrite !lookup_insert_ne by done. apply H1.
  - eapply sets_ok_ext; [|exact Hsets]. intros i dim Hd. cbn beta. destruct (Z.eqb_spec i id) as [->|]; [|by rewrite lookup_insert_ne].
    rewrite lookup_insert_eq. cbn [key_in mbind option_bind]. rewrite <- live_key_for_dim. by rewrite Hk.
  - intros i. rewrite E2, E1, H3. destruct (decide (i = id)) as [->|]; [rewrite lookup_insert_eq, Hf; naive_solver|by rewrite lookup_insert_ne].
  - done.
  - intros i. rewrite E4, elem_of_union, elem_of_singleton, H5. destruct (decide (i = id)) as [->|]; [rewrite lookup_insert_eq|rewrite lookup_insert_ne by done]; naive_solver.
  - intros i [Hx|Hx]; [|apply elem_of_union_r, H6; by right]. rewrite E1 in Hx. destruct (decide (i = id)) as [->|]; [set_solver|].
    rewrite lookup_insert_ne in Hx by done. apply elem_of_union_r, H6. by left.
Qed.

Lemma setdata_key (o : option AssetLive) : (live_keys <$> o) ≫= ak_facet_key = key_in o DIM_FACET.
Proof. by destruct o. Qed.

(** One delta. *)
Lemma apply_ok B s used ov block d f :
  live_ok B s used ov -> mint_ok used d -> facts_ok B d f ->
  live_ok B (spec_delta B block s d) ({[delta_id d]} ∪ used) (apply_resolved block d f ov).
Proof.
  intros Hok%(live_ok_logged _ _ _ _ block d) Hm Hf. unfold apply_resolved. destruct d as [m|t|b|x]; cbn [facts_ok delta_id] in *.
  - apply mint_live_ok; [done|done|]. exact Hf.
  - rewrite Hf. by apply transfer_ok.
  - rewrite Hf. by apply burn_ok.
  - destruct Hf as [-> ->]. rewrite setdata_key. by apply setdata_ok.
Qed.
End Overlays.
