(* ===== verification/LiveQueries.v ===== *)
(** * The queries of the live store

    [base_ok] is what the store needs of its base, by the assets the base holds. Under it, and the invariant of the
    overlay, every query answers what the current assets say: the pages are the largest ids that have a key, from the
    top or below a cursor, the counts are the numbers of such ids. *)

From stdpp Require Import sorting.
From S2P Require Import Prelude.
From S2P Require Import Cursor.
From S2P Require Import Segment.
From S2P Require Import AtomicKeys.
From S2P Require Import AtomicRecords.
From S2P Require Import Postings.
From S2P Require Import Live.
From S2P Require Import LiveFacts.

#[local] Opaque coll_schema_key data_attr_key Name.decode.

(** ** Descending lists *)

Lemma descending_elem X x : x ∈ descending X <-> x ∈ X.
Proof. unfold descending. rewrite elem_of_reverse. apply sort_elements. Qed.

Lemma descending_empty : descending ∅ = [].
Proof. reflexivity. Qed.

Lemma reverse_sorted l : StronglySorted Z.lt l -> StronglySorted Z.gt (reverse l).
Proof.
  induction 1 as [|x l Hl IH Hx]; [constructor|]. rewrite reverse_cons. apply StronglySorted_app_2; [|done|repeat constructor].
  intros a b Ha ->%list_elem_of_singleton. rewrite elem_of_reverse in Ha. rewrite list.Forall_forall in Hx. specialize (Hx a Ha). lia.
Qed.

Lemma descending_sorted X : StronglySorted Z.gt (descending X).
Proof. apply reverse_sorted, sort_dedup_spec. Qed.

Lemma sorted_gt_nodup l : StronglySorted Z.gt l -> NoDup l.
Proof.
  induction 1 as [|x l Hl IH Hx]; [constructor|]. constructor; [|done]. intros Hin. rewrite list.Forall_forall in Hx. specialize (Hx x Hin). lia.
Qed.

(** A strictly descending list is determined by its elements. *)
Lemma descending_unique l X : StronglySorted Z.gt l -> (forall x, x ∈ l <-> x ∈ X) -> l = descending X.
Proof.
  intros Hl He. apply (StronglySorted_unique_strong Z.gt); [intros; lia|done|apply descending_sorted|].
  apply NoDup_Permutation; [by apply sorted_gt_nodup|apply sorted_gt_nodup, descending_sorted|]. intros x. by rewrite He, descending_elem.
Qed.

Lemma descending_len X : blen (descending X) = Z.of_nat (size X).
Proof. unfold descending. unfold blen. rewrite length_reverse. apply sort_elements_len. Qed.

Lemma dedup_desc_sorted l : StronglySorted Z.ge l -> StronglySorted Z.gt (dedup l).
Proof.
  induction 1 as [|y l Hl IH Hy]; [constructor|]. destruct l as [|z l]; [repeat constructor|]. rewrite dedup_cons2.
  destruct (Z.eqb_spec y z); [done|]. constructor; [done|]. apply list.Forall_forall. intros x Hx. apply (dedup_elem (z :: l)) in Hx.
  rewrite list.Forall_forall in Hy. assert (z >= x); [|specialize (Hy z ltac:(left)); lia].
  apply elem_of_cons in Hx as [->|Hx]; [lia|]. apply StronglySorted_inv in Hl as [_ Hz]. rewrite list.Forall_forall in Hz. by apply Hz.
Qed.

Lemma sort_desc_sorted l : StronglySorted Z.ge (sort_desc l).
Proof. apply StronglySorted_merge_sort; [intros ???; lia|intros ??; lia]. Qed.

Lemma sort_desc_elem l x : x ∈ sort_desc l <-> x ∈ l.
Proof. unfold sort_desc. by rewrite merge_sort_Permutation. Qed.

(** Sorted and without repetitions, a list of ids is its set in descending order. *)
Lemma dedup_sort_desc l X : (forall x, x ∈ l <-> x ∈ X) -> dedup (sort_desc l) = descending X.
Proof.
  intros He. apply descending_unique; [apply dedup_desc_sorted, sort_desc_sorted|]. intros x. by rewrite dedup_elem, sort_desc_elem.
Qed.

Lemma sort_desc_nodup l X : NoDup l -> (forall x, x ∈ l <-> x ∈ X) -> sort_desc l = descending X.
Proof.
  intros Hn He. apply descending_unique; [|intros x; by rewrite sort_desc_elem].
  assert (Hn' : NoDup (sort_desc l)) by (unfold sort_desc; by rewrite merge_sort_Permutation).
  pose proof (sort_desc_sorted l) as Hs. revert Hn'. clear -Hs. induction Hs as [|x k Hk IH Hx]; [constructor|]. intros [Hni Hn]%list.NoDup_cons.
  constructor; [by apply IH|]. rewrite list.Forall_forall in Hx |- *. intros y Hy. specialize (Hx y Hy). assert (x <> y) by congruence. lia.
Qed.

Lemma filter_elem (P : Z -> bool) l x : x ∈ List.filter P l <-> P x = true /\ x ∈ l.
Proof. rewrite !list_elem_of_In, List.filter_In. tauto. Qed.

Lemma filter_sorted R (P : Z -> bool) l : StronglySorted R l -> StronglySorted R (List.filter P l).
Proof.
  induction 1 as [|x l Hl IH Hx]; [constructor|]. cbn. destruct (P x); [|done]. constructor; [done|].
  rewrite list.Forall_forall in Hx |- *. intros y [_ Hy]%filter_elem. by apply Hx.
Qed.

Lemma filter_descending P X Y : (forall x, x ∈ Y <-> P x = true /\ x ∈ X) -> List.filter P (descending X) = descending Y.
Proof.
  intros H. apply descending_unique; [apply filter_sorted, descending_sorted|]. intros x. rewrite filter_elem, descending_elem. by rewrite H.
Qed.

(** The first [w] of a list are those of its filter, when before everything filtered out [w] remain. *)
Lemma take_filter (P : Z -> bool) l : forall w,
  (forall a x b, l = a ++ x :: b -> P x = false -> (w <= length (List.filter P a))%nat) -> take w (List.filter P l) = take w l.
Proof.
  induction l as [|x l IH]; intros w H; [done|]. cbn. destruct (P x) eqn:E.
  - destruct w as [|w]; [done|]. cbn. f_equal. apply IH. intros a y b -> Hy. specialize (H (x :: a) y b eq_refl Hy). cbn in H. rewrite E in H. cbn in H. lia.
  - specialize (H [] x l eq_refl E). cbn in H. assert (w = 0%nat) as -> by lia. by rewrite !take_0.
Qed.

(** The [w] largest ids of [U] are those of a part [V] of it that has [w] ids above every id it lacks. *)
Lemma top_part (U V : gset Z) w :
  V ⊆ U -> (forall x, x ∈ U -> x ∉ V -> exists l, NoDup l /\ (w <= length l)%nat /\ forall y, y ∈ l -> y ∈ V /\ x < y) ->
  take w (descending V) = take w (descending U).
Proof.
  intros Hs H. rewrite <- (filter_descending (fun x => bool_decide (x ∈ V)) U V) by (intros x; rewrite bool_decide_eq_true; set_solver).
  apply take_filter. intros a x b E Hx. apply bool_decide_eq_false in Hx.
  assert (HU : x ∈ U) by (apply descending_elem; rewrite E; set_solver). destruct (H x HU Hx) as (l & Hn & Hl & Hy).
  etransitivity; [exact Hl|]. apply submseteq_length, NoDup_submseteq; [done|]. intros y Hyl. destruct (Hy y Hyl) as [Hv Hlt].
  apply filter_elem. split; [by apply bool_decide_eq_true|]. assert (Hya : y ∈ a ++ x :: b) by (rewrite <- E; apply descending_elem; set_solver).
  apply elem_of_app in Hya as [|[->|Hb]%elem_of_cons]; [done|lia|].
  pose proof (descending_sorted U) as Hd. rewrite E in Hd. apply StronglySorted_app_1_r in Hd. apply StronglySorted_inv in Hd as [_ Hf].
  rewrite list.Forall_forall in Hf. specialize (Hf y Hb). lia.
Qed.

(** The first of a descending list are above the others. *)
Lemma take_above X w x y : y ∈ take w (descending X) -> x ∈ X -> x ∉ take w (descending X) -> x < y.
Proof.
  intros Hy Hx Hn. pose proof (descending_sorted X) as Hs. apply descending_elem in Hx. rewrite <- (take_drop w (descending X)) in Hs, Hx.
  apply elem_of_app in Hx as [|Hx]; [done|]. pose proof (StronglySorted_app_1_elem_of _ _ _ _ _ Hs Hy Hx). lia.
Qed.

Lemma take_full X w x : x ∈ X -> x ∉ take w (descending X) -> length (take w (descending X)) = w.
Proof.
  intros Hx Hn. rewrite length_take. destruct (decide (w <= length (descending X))%nat); [lia|]. destruct Hn. rewrite take_ge by lia. by apply descending_elem.
Qed.

Lemma elem_of_take_inv (l : list Z) n x : x ∈ take n l -> x ∈ l.
Proof. intros (i & Hi & _)%elem_of_take. by eapply list_elem_of_lookup_2. Qed.

Lemma take_sorted w X : StronglySorted Z.gt (take w (descending X)).
Proof. pose proof (descending_sorted X) as Hs. rewrite <- (take_drop w) in Hs. by apply StronglySorted_app_1_l in Hs. Qed.

(** ** Below a cursor *)

Definition below (X : gset Z) (cursor : Z) : gset Z := filter (fun x => x < cursor) X.

Lemma below_elem X c x : x ∈ below X c <-> x < c /\ x ∈ X.
Proof. unfold below. by rewrite elem_of_filter. Qed.

Lemma filter_constant (P : Z -> bool) b l : (forall x, x ∈ l -> P x = b) -> List.filter P l = if b then l else [].
Proof.
  intros H. rewrite (List.filter_ext_in P (fun _ => b)) by (intros x Hx; apply H; by apply list_elem_of_In). destruct b; [apply List.filter_true|apply List.filter_false].
Qed.

(** The ids below a cursor are a prefix of an ascending list. *)
Lemma below_prefix l c (lo : nat) :
  (forall (i : nat) x, l !! i = Some x -> (i < lo)%nat -> x < c) -> (forall (i : nat) x, l !! i = Some x -> (lo <= i)%nat -> c <= x) ->
  List.filter (fun x => x <? c) l = take lo l.
Proof.
  intros H1 H2. rewrite <- (take_drop lo l) at 1. rewrite List.filter_app, (filter_constant _ true (take lo l)), (filter_constant _ false (drop lo l)); [by rewrite app_nil_r| |].
  - intros x [i Hi]%list_elem_of_lookup_1. rewrite lookup_drop in Hi. apply Z.ltb_ge. apply (H2 _ _ Hi). lia.
  - intros x (i & Hi & Hlt)%elem_of_take. apply Z.ltb_lt. by apply (H1 i).
Qed.

Lemma filter_take l c : StronglySorted Z.lt l -> List.filter (fun x => x <? c) l = take (length (List.filter (fun x => x <? c) l)) l.
Proof.
  induction 1 as [|x l Hl IH Hx]; [done|]. cbn. destruct (Z.ltb_spec x c) as [H|H]; cbn; [by f_equal|].
  rewrite (filter_constant _ false); [done|]. intros y Hy. rewrite list.Forall_forall in Hx. specialize (Hx y Hy). apply Z.ltb_ge. lia.
Qed.

Lemma rev_reverse (l : list Z) : List.rev l = reverse l.
Proof. unfold reverse. by rewrite List.rev_alt. Qed.

Lemma below_descending X c : reverse (List.filter (fun x => x <? c) (sort_dedup (elements X))) = descending (below X c).
Proof.
  rewrite <- (filter_descending (fun x => x <? c) X) by (intros x; rewrite below_elem, Z.ltb_lt; done). unfold descending.
  rewrite <- !rev_reverse. symmetry. apply List.filter_rev.
Qed.

(** After the first ids below a cursor come those below the last of them. *)
Lemma chunk_split U c w low :
  list.last (take w (descending (below U c))) = Some low ->
  low ∈ U /\ low < c /\ descending (below U c) = take w (descending (below U c)) ++ descending (below U low).
Proof.
  intros H. set (D := descending (below U c)) in *. apply last_Some in H as [a E].
  assert (Hl : low ∈ D) by (apply (elem_of_take_inv D w); rewrite E; set_solver). apply descending_elem, below_elem in Hl as [Hc HU].
  split; [done|]. split; [done|]. rewrite <- (take_drop w D) at 1. f_equal. pose proof (descending_sorted (below U c)) as Hs. fold D in Hs.
  rewrite <- (take_drop w D), E in Hs. apply descending_unique; [by apply StronglySorted_app_1_r in Hs|]. intros x. rewrite below_elem. split.
  - intros Hx. split; [|apply (below_elem U c), descending_elem; fold D; rewrite <- (take_drop w D); set_solver].
    pose proof (StronglySorted_app_1_elem_of _ _ _ low x Hs ltac:(set_solver) Hx). lia.
  - intros [Hx1 Hx2]. assert (Hx : x ∈ take w D ++ drop w D) by (rewrite take_drop; apply descending_elem, below_elem; split; [lia|done]).
    rewrite E in Hx. apply elem_of_app in Hx as [[Hx| ->%list_elem_of_singleton]%elem_of_app|]; [|lia|done].
    apply StronglySorted_app_1_l in Hs. pose proof (StronglySorted_app_1_elem_of _ _ _ x low Hs Hx ltac:(set_solver)). lia.
Qed.

(** The search for the first id that is not below the cursor. *)
Lemma lower_bound_ok pl l c :
  lists pl l -> StronglySorted Z.lt l -> blen l < 2 ^ 63 ->
  (loop_ (lower_bound_iter pl c) (0, pl_len pl) ()).1 = Ok (blen (List.filter (fun x => x <? c) l)).
Proof.
  intros Hl Hs Hb. pose proof (blen_nonneg l).
  apply (loop_spec (fun st _ => 0 <= st.1 <= st.2 /\ st.2 <= blen l /\ (forall (i : nat) x, l !! i = Some x -> Z.of_nat i < st.1 -> x < c) /\
      (forall (i : nat) x, l !! i = Some x -> st.2 <= Z.of_nat i -> c <= x))
    (fun st _ => st.2 - st.1) (fun r _ => r = Ok (blen (List.filter (fun x => x <? c) l)))).
  - intros [lo hi] [] (H1 & H2 & H3 & H4). cbn [fst snd] in *. unfold lower_bound_iter. destruct (Z.ltb_spec lo hi) as [Hlt|Hge].
    + rewrite add64_id by width_lia. set (m := (lo + hi) / 2). assert (Hm : lo <= m < hi) by (unfold m; Z.to_euclidean_division_equations; lia).
      destruct (lists_get pl l m Hl ltac:(lia)) as (x & Hx & Ex). unfold sbind, slift, sret. rewrite Ex. destruct (Z.ltb_spec x c) as [Hxc|Hxc]; cbn [fst snd].
      * split; [|lia]. split; [lia|]. split; [lia|]. split; [|done]. intros i y Hy Hi. destruct (decide (i = Z.to_nat m)) as [->|]; [congruence|].
        pose proof (sorted_lookup _ _ i (Z.to_nat m) y x Hs Hy Hx ltac:(lia)). lia.
      * split; [|lia]. split; [lia|]. split; [lia|]. split; [done|]. intros i y Hy Hi. destruct (decide (i = Z.to_nat m)) as [->|]; [assert (y = x) by congruence; lia|].
        pose proof (sorted_lookup _ _ (Z.to_nat m) i x y Hs Hx Hy ltac:(lia)). lia.
    + unfold sret. f_equal. assert (lo = hi) as -> by lia. rewrite (below_prefix l c (Z.to_nat hi)).
      * unfold blen. rewrite length_take. unfold blen in *. lia.
      * intros i x Hx Hi. apply (H3 i x Hx). lia.
      * intros i x Hx Hi. apply (H4 i x Hx). lia.
  - cbn [fst snd]. rewrite (proj1 Hl). split; [lia|]. split; [lia|]. split; [intros; lia|]. intros i x Hx Hi. apply lookup_lt_Some in Hx. unfold blen in Hi. lia.
  - cbn [fst snd]. rewrite (proj1 Hl). change (2 ^ 65) with 36893488147419103232. change (2 ^ 63) with 9223372036854775808 in Hb. lia.
Qed.

Lemma back_step (l : list Z) (i : nat) want taken x :
  l !! i = Some x -> take want (taken ++ reverse (take (S i) l)) = take want ((taken ++ [x]) ++ reverse (take i l)).
Proof. intros Hx. rewrite (take_S_r l i x Hx), reverse_app, <- app_assoc. done. Qed.

Lemma walk_back_ok pl l want i : lists pl l -> (i <= length l)%nat -> 0 <= want -> forall taken, blen taken <= want ->
  walk_back pl i want taken = Ok (take (Z.to_nat want) (taken ++ reverse (take i l))).
Proof.
  intros Hl Hi Hw. induction i as [|i IH]; intros taken Ht; cbn [walk_back].
  - rewrite take_0, reverse_nil, app_nil_r, take_ge; [done|]. unfold blen in Ht. lia.
  - destruct (Z.ltb_spec (blen taken) want) as [Hlt|Hge].
    + destruct (lists_get pl l (Z.of_nat i) Hl) as (x & Hx & ->); [unfold blen; lia|]. rewrite Nat2Z.id in Hx. cbn [rbind].
      rewrite (back_step l i _ _ x Hx). apply IH; [lia|]. rewrite blen_app. change (blen [x]) with 1. lia.
    + rewrite take_app_le, take_ge; unfold blen in *; [done|lia|lia].
Qed.

Lemma select_back_ok {T : Treemap} {L : TreemapLaws T} (rt : tm) want i : (i <= length (tm_iter rt))%nat -> 0 <= want -> forall taken, blen taken <= want ->
  select_back rt i want taken = take (Z.to_nat want) (taken ++ reverse (take i (tm_iter rt))).
Proof.
  intros Hi Hw. induction i as [|i IH]; intros taken Ht; cbn [select_back].
  - rewrite take_0, reverse_nil, app_nil_r, take_ge; [done|]. unfold blen in Ht. lia.
  - destruct (Z.ltb_spec (blen taken) want) as [Hlt|Hge].
    + rewrite tm_select_spec, Nat2Z.id by lia. destruct (lookup_lt_is_Some_2 (tm_iter rt) i) as [x Hx]; [lia|]. rewrite Hx.
      rewrite (back_step _ i _ _ x Hx). apply IH; [lia|]. rewrite blen_app. change (blen [x]) with 1. lia.
    + rewrite take_app_le, take_ge; unfold blen in *; [done|lia|lia].
Qed.

(** ** What the store needs of its base *)
Section Queries.
Context {T : Treemap} {L : TreemapLaws T}.

(** The posting of a key, if there is one. *)
Definition posting_of (o : option bytes) (X : gset Z) : Prop :=
  match o with
  | Some b => exists p, posting_parse b = Ok p /\ posts p (sort_dedup (elements X))
  | None => X = ∅
  end.

(** The presorted ids. *)
Definition presorted (o : option bytes) (X : gset Z) : Prop :=
  match o with
  | Some b => rdu32 b 0 = Ok (Z.of_nat (size X)) /\ forall (k : nat) id, descending X !! k = Some id -> rdu64 b (4 + Z.of_nat k * 8) = Ok id
  | None => X = ∅
  end.

Record base_ok (seg : LiveSeg) (B : gmap Z AssetLive) : Prop := {
  bo_live id : decode_base_live seg id = Ok (B !! id);
  bo_post dim key : is_dim dim -> exists o, lookup (ls_base seg) (table_for_dim dim) key = Ok o /\ posting_of o (members B dim key);
  bo_sorted : exists o, sentinel_blob (ls_base seg) TABLE_AA_SORTED_ID = Ok o /\ presorted o (dom B);
  bo_ids id : is_Some (B !! id) -> 0 < id <= u64_max;
  bo_size : Z.of_nat (size B) < U32
}.

Section Base.
Context (seg : LiveSeg) (B : gmap Z AssetLive) (Hbase : base_ok seg B).

(** The forward record of the base is the asset. *)
Lemma base_record id : exists o, lookup (ls_base seg) TABLE_AA_FWD id = Ok o /\
  match o, B !! id with
  | Some b, Some a => exists r, decode_asset b = Ok r /\ ar_owner r = al_owner a
  | None, None => True
  | _, _ => False
  end.
Proof.
  pose proof (bo_live _ _ Hbase id) as H. unfold decode_base_live in H. bind H as o Ho. exists o. split; [done|]. destruct o as [b|].
  - bind H as r Hr. bind H as fk Hfk. injection H as <-. by exists r.
  - by injection H as <-.
Qed.

(** The keys read of the base are those of the asset. *)
Lemma base_keys_ok id : base_keys seg id = Ok (live_keys <$> B !! id).
Proof.
  pose proof (bo_live _ _ Hbase id) as H. unfold decode_base_live in H. bind H as o Ho. unfold base_keys. rewrite Ho. cbn [rbind]. destruct o as [b|].
  - bind H as r Hr. bind H as fk Hfk. injection H as <-. rewrite Hr. cbn [rbind]. unfold keys_from. rewrite Hfk. done.
  - by injection H as <-.
Qed.

Lemma base_len_ok dim key : is_dim dim -> base_len (ls_base seg) (table_for_dim dim) key = Ok (Z.of_nat (size (members B dim key))).
Proof.
  intros Hd. destruct (bo_post _ _ Hbase dim key Hd) as (o & Ho & Hp). unfold base_len. rewrite Ho. cbn [rbind]. destruct o as [b|]; cbn in Hp.
  - destruct Hp as (p & -> & Hp). cbn [rbind]. by rewrite (po_len _ _ Hp), sort_elements_len.
  - rewrite Hp. done.
Qed.

(** [resolve] reads what a delta needs. *)
Lemma resolve_ok d : exists f, resolve seg d = Ok f /\ facts_ok B d f.
Proof.
  destruct d as [m|t|b|x]; cbn [resolve facts_ok].
  - unfold tmpl_key_of. destruct (0 <=? mt_template_id m).
    + change TABLE_AA_BY_TMPL with (table_for_dim DIM_TMPL). rewrite base_len_ok by done. cbn [rbind]. eexists. split; [done|]. by intros tk [= <-].
    + cbn [rbind]. eexists. split; [done|]. done.
  - rewrite (bo_live _ _ Hbase). cbn [rbind]. by eexists.
  - rewrite base_keys_ok. cbn [rbind]. by eexists.
  - rewrite (bo_live _ _ Hbase), base_keys_ok. cbn [rbind]. by eexists.
Qed.

(** The bitmap of a key of the base. *)
Lemma base_bitmap dim key : is_dim dim ->
  exists t, (let? b := lookup (ls_base seg) (table_for_dim dim) key in
             match b with Some b => let? p := posting_parse b in to_roaring p | None => Ok tm_empty end) = Ok t /\
  tm_iter t = sort_dedup (elements (members B dim key)).
Proof.
  intros Hd. destruct (bo_post _ _ Hbase dim key Hd) as (o & -> & Hp). cbn [rbind]. destruct o as [b|]; cbn in Hp.
  - destruct Hp as (p & -> & Hp). cbn [rbind]. apply (po_roaring _ _ Hp).
  - exists tm_empty. split; [done|]. by rewrite tm_empty_iter, Hp.
Qed.

(** ** Points, counts and full pages *)
Context (s : assets) (used : gset Z) (ov : Overlay) (Hok : live_ok B s used ov).

Lemma point_owner_ok id : point_owner seg ov id = Ok (al_owner <$> as_map s !! id).
Proof.
  rewrite <- (lk_cur _ _ _ _ Hok id). unfold point_owner, current. destruct (ov_fwd ov !! id) as [[a|]|]; [done|done|].
  destruct (base_record id) as (o & -> & Ho). cbn [rbind]. destruct o as [b|], (B !! id) as [a|]; try done. destruct Ho as (r & -> & E). cbn. by rewrite E.
Qed.

Lemma exists_ok id : exists_ seg ov id = Ok (bool_decide (is_Some (as_map s !! id))).
Proof.
  rewrite <- (lk_cur _ _ _ _ Hok id). unfold exists_, current. destruct (ov_fwd ov !! id) as [[a|]|]; [done|done|].
  destruct (base_record id) as (o & -> & Ho). cbn [rbind]. by destruct o, (B !! id).
Qed.

Lemma in_sets_iter (m : gmap (Z * Z) tm) dim key (X : gset Z) : (forall id, in_sets m dim key id <-> id ∈ X) ->
  match m !! (dim, key) with Some t => tm_iter t = sort_dedup (elements X) | None => X = ∅ end.
Proof.
  unfold in_sets. intros H. destruct (m !! (dim, key)) as [t|]; cbn in H.
  - apply sorted_ext; [apply tm_sorted|apply sort_dedup_spec|]. intros x. by rewrite H, sort_elements.
  - apply set_eq. intros x. rewrite <- H, tm_empty_iter. set_solver.
Qed.

Section Key.
Context (dim key : Z) (Hd : is_dim dim).
Abbreviation X := (members (as_map s) dim key).
Abbreviation Y := (members B dim key).

Lemma add_elem id : in_sets (ov_add ov) dim key id <-> id ∈ X ∖ Y.
Proof. rewrite (so_add _ _ _ (lk_sets _ _ _ _ Hok)) by done. by rewrite elem_of_difference, !members_elem. Qed.

Lemma rem_elem id : in_sets (ov_rem ov) dim key id <-> id ∈ Y ∖ X.
Proof. rewrite (so_rem _ _ _ (lk_sets _ _ _ _ Hok)) by done. by rewrite elem_of_difference, !members_elem. Qed.

Lemma add_len_ok : add_len ov dim key = Z.of_nat (size (X ∖ Y)).
Proof.
  pose proof (in_sets_iter _ _ _ _ add_elem) as H. unfold add_len. destruct (_ !! _); [by rewrite tm_len_spec, H, sort_elements_len|by rewrite H].
Qed.

Lemma rem_len_ok : rem_len ov dim key = Z.of_nat (size (Y ∖ X)).
Proof.
  pose proof (in_sets_iter _ _ _ _ rem_elem) as H. unfold rem_len. destruct (_ !! _); [by rewrite tm_len_spec, H, sort_elements_len|by rewrite H].
Qed.

Lemma count_ok : count seg ov dim key = Ok (Z.of_nat (size X)).
Proof. unfold count. rewrite base_len_ok by done. cbn [rbind]. f_equal. rewrite add_len_ok, rem_len_ok. by rewrite (size_differences X Y). Qed.

(** A burnt asset has no keys. *)
Lemma tomb_not_member id : id ∈ tm_iter (ov_tomb ov) -> id ∉ X.
Proof.
  rewrite (lk_tomb _ _ _ _ Hok), members_elem. intros H. rewrite <- (lk_cur _ _ _ _ Hok). unfold current. by rewrite H.
Qed.

Lemma materialize_ok n : materialize seg ov dim key n = Ok (take (Z.to_nat n) (descending X)).
Proof.
  unfold materialize. destruct (base_bitmap dim key Hd) as (t & Ht & Hi). destruct (lookup _ _ _) as [o|e|]; [|done|done]. cbn [rbind] in Ht |- *.
  rewrite Ht. cbn [rbind]. f_equal. f_equal.
  pose proof (in_sets_iter _ _ _ _ add_elem) as Ha. pose proof (in_sets_iter _ _ _ _ rem_elem) as Hr.
  set (t1 := match ov_add ov !! _ with Some a => _ | None => _ end). set (t2 := match ov_rem ov !! _ with Some a => _ | None => _ end).
  assert (H1 : forall x, x ∈ tm_iter t1 <-> x ∈ Y ∪ X).
  { intros x. unfold t1. destruct (ov_add ov !! _); [rewrite tm_or_elem, Ha|]; rewrite ?Hi, !sort_elements; destruct (decide (x ∈ Y)); set_solver. }
  assert (H2 : forall x, x ∈ tm_iter t2 <-> x ∈ X).
  { intros x. unfold t2. destruct (ov_rem ov !! _); [rewrite tm_sub_elem, Hr, sort_elements|]; rewrite H1; destruct (decide (x ∈ Y)), (decide (x ∈ X)); set_solver. }
  apply sort_desc_nodup; [apply sorted_lt_nodup, tm_sorted|]. intros x. rewrite tm_sub_elem, H2. split; [tauto|]. intros Hx. split; [done|].
  intros Ht2. by apply tomb_not_member in Ht2.
Qed.

(** ** The first page *)

(** The test against the forward records, for a candidate. *)
Lemma member_ok id : id ∈ X ∪ Y -> is_member ov dim key id = bool_decide (id ∈ X).
Proof.
  pose proof (lk_cur _ _ _ _ Hok id) as Hc. intros H. rewrite (bool_decide_ext (id ∈ X) (key_in (current B ov id) dim = Some key)) by (by rewrite members_elem, <- Hc).
  rewrite elem_of_union, !members_elem, <- Hc in H. revert H.
  unfold is_member, current. destruct (ov_fwd ov !! id) as [[a|]|]; [done|done|]. intros [H|H]; by rewrite bool_decide_eq_true_2.
Qed.

Lemma take_members_eq n cand : forall taken, 0 <= n -> blen taken <= n ->
  take_members ov dim key n cand taken = take (Z.to_nat n) (taken ++ List.filter (is_member ov dim key) cand).
Proof.
  unfold blen. induction cand as [|id cand IH]; intros taken Hn Ht; cbn [take_members List.filter].
  - rewrite app_nil_r, take_ge; [done|lia].
  - destruct (Z.leb_spec n (blen taken)) as [Hb|Hb]; unfold blen in Hb.
    + rewrite take_app_le, take_ge; [done|lia|lia].
    + destruct (is_member ov dim key id); rewrite IH; try done; [by rewrite <- app_assoc|]. rewrite length_app. cbn [length]. lia.
Qed.

(** The candidates of the first page: those added, and the head of the base. *)
Definition page_cand : gset Z := (X ∖ Y) ∪ list_to_set (take 256 (descending Y)).

Lemma page_eq n : 0 <= n ->
  page seg ov dim key n = Ok (if (blen (take (Z.to_nat n) (descending (X ∩ page_cand))) <? n) && (256 + Z.of_nat (size (Y ∖ X)) <? Z.of_nat (size Y) + Z.of_nat (size (X ∖ Y)))
                              then take (Z.to_nat n) (descending X) else take (Z.to_nat n) (descending (X ∩ page_cand))).
Proof.
  intros Hn. unfold page. destruct (bo_post _ _ Hbase dim key Hd) as (o & Ho & Hp). rewrite Ho. cbn [rbind].
  assert (Hh : exists h, match o with Some b => let? p := posting_parse b in head_for_each p 256 | None => Ok [] end = Ok h /\ forall x, x ∈ h <-> x ∈ take 256 (descending Y)).
  { destruct o as [b|]; cbn in Hp.
    - destruct Hp as (p & -> & Hp). cbn [rbind]. destruct (po_head _ _ Hp 256) as (h & -> & Eh); [done|]. exists h. split; [done|]. intros x. rewrite Eh.
      unfold descending. by rewrite drop_reverse_perm.
    - exists []. split; [done|]. rewrite Hp. done. }
  destruct Hh as (h & -> & Hh). cbn [rbind]. set (adds := match ov_add ov !! _ with Some s => _ | None => _ end).
  assert (Ha : forall x, x ∈ adds <-> x ∈ X ∖ Y).
  { intros x. rewrite <- add_elem. unfold adds, in_sets. destruct (ov_add ov !! _); [done|]. cbn. by rewrite tm_empty_iter. }
  rewrite (dedup_sort_desc (adds ++ h) page_cand) by (intros x; unfold page_cand; rewrite elem_of_app, Ha, Hh, elem_of_union, elem_of_list_to_set; done).
  rewrite take_members_eq by done. cbn [app].
  assert (Hf : List.filter (is_member ov dim key) (descending page_cand) = descending (X ∩ page_cand)).
  { apply filter_descending. intros x. rewrite elem_of_intersection. split; intros [H1 H2]; (split; [|done]).
    - rewrite member_ok by set_solver. by apply bool_decide_eq_true.
    - rewrite member_ok in H1; [by apply bool_decide_eq_true in H1|]. unfold page_cand in H2. rewrite elem_of_union, elem_of_list_to_set in H2.
      destruct H2 as [|H2]; [set_solver|]. apply elem_of_union_r. apply descending_elem. by eapply elem_of_take_inv. }
  rewrite Hf. destruct (blen _ <? n) eqn:Eb; cbn [andb]; [|done]. rewrite base_len_ok by done. cbn [rbind]. rewrite add_len_ok, rem_len_ok.
  rewrite materialize_ok. by match goal with |- context [if ?b then Ok _ else _] => destruct b end.
Qed.

(** The first page is exact when the head of the base can fill it. *)
Lemma page_ok n : 0 <= n -> Z.of_nat (size Y) <= 256 \/ n + Z.of_nat (size (Y ∖ X)) <= 256 -> page seg ov dim key n = Ok (take (Z.to_nat n) (descending X)).
Proof.
  intros Hn H. rewrite page_eq by done.
  assert (Ht : take (Z.to_nat n) (descending (X ∩ page_cand)) = take (Z.to_nat n) (descending X)); [|rewrite Ht; by destruct (_ && _)].
  apply top_part; [set_solver|]. intros x Hx Hnx.
  assert (HY : x ∈ Y /\ x ∉ take 256 (descending Y)).
  { unfold page_cand in Hnx. rewrite elem_of_intersection, elem_of_union, elem_of_list_to_set in Hnx. destruct (decide (x ∈ Y)); [|set_solver]. tauto. }
  destruct HY as [HY Hh]. pose proof (take_full _ _ _ HY Hh) as Hl. destruct H as [H|H].
  { destruct Hh. rewrite take_ge; [by apply descending_elem|]. pose proof (descending_len Y) as E. unfold blen in E. lia. }
  exists (List.filter (fun y => bool_decide (y ∈ X)) (take 256 (descending Y))). split; [|split].
  - apply sorted_gt_nodup, filter_sorted, take_sorted.
  - assert (Hr : (length (List.filter (fun y => negb (bool_decide (y ∈ X))) (take 256 (descending Y))) <= size (Y ∖ X))%nat).
    { rewrite <- (Nat2Z.id (length _)), <- (Nat2Z.id (size _)), <- descending_len. unfold blen. rewrite !Nat2Z.id. apply submseteq_length, NoDup_submseteq.
      - apply sorted_gt_nodup, filter_sorted, take_sorted.
      - intros y [H1 H2]%filter_elem. apply descending_elem. apply negb_true_iff, bool_decide_eq_false in H1. apply elem_of_take_inv, descending_elem in H2. set_solver. }
    pose proof (List.filter_length (fun y => bool_decide (y ∈ X)) (take 256 (descending Y))) as E. lia.
  - intros y [Hy1 Hy2]%filter_elem. apply bool_decide_eq_true in Hy1. split; [|by eapply take_above].
    unfold page_cand. rewrite elem_of_intersection, elem_of_union, elem_of_list_to_set. tauto.
Qed.

(** Beyond the head the first page can miss members: when more were removed from the key than its posting has beyond
    the head, it gives candidates of the head only. *)
Lemma page_misses n id :
  0 <= n -> Z.of_nat (size Y) + Z.of_nat (size (X ∖ Y)) <= 256 + Z.of_nat (size (Y ∖ X)) -> id ∈ Y -> id ∉ take 256 (descending Y) ->
  exists l, page seg ov dim key n = Ok l /\ id ∉ l.
Proof.
  intros Hn H HY Hh. rewrite page_eq by done. rewrite (proj2 (Z.ltb_ge _ _) H), andb_false_r. eexists. split; [done|].
  intros Hin%elem_of_take_inv%descending_elem. unfold page_cand in Hin. rewrite elem_of_intersection, elem_of_union, elem_of_list_to_set in Hin. set_solver.
Qed.

(** ** Pages by cursor *)

(** The cache holds bitmaps of the base. *)
Definition cache_ok (c : post_cache) : Prop :=
  forall table key rt, c !! (table, key) = Some rt ->
    (let? b := lookup (ls_base seg) table key in
     match b with Some b => let? p := posting_parse b in to_roaring p | None => Ok tm_empty end) = Ok rt.

Lemma members_size : Z.of_nat (size Y) < U32.
Proof.
  pose proof (bo_size _ _ Hbase). assert (size Y <= size (dom B : gset Z))%nat; [|rewrite size_dom in *; lia].
  apply subseteq_size. unfold members. apply dom_filter_subseteq.
Qed.

Lemma base_roaring_ok c : cache_ok c ->
  exists rt c', base_roaring seg (table_for_dim dim) key c = (Ok rt, c') /\ cache_ok c' /\ tm_iter rt = sort_dedup (elements Y).
Proof.
  intros Hc. destruct (base_bitmap dim key Hd) as (t & Ht & Hi). unfold base_roaring. destruct (c !! _) as [rt|] eqn:E.
  - exists rt, c. split; [done|]. split; [done|]. pose proof (Hc _ _ _ E) as H. rewrite Ht in H. by injection H as <-.
  - rewrite Ht. exists t, (<[(table_for_dim dim, key) := t]> c). split; [done|]. split; [|done]. intros table k rt H.
    apply (lookup_insert_Some (M := gmap (Z * Z))) in H as [[[= <- <-] <-]|[_ H]]; [done|by apply Hc].
Qed.

Lemma base_below_ok cursor want c : 0 <= cursor -> 0 <= want -> cache_ok c ->
  exists c', base_below seg (table_for_dim dim) key cursor want c = (Ok (take (Z.to_nat want) (descending (below Y cursor))), c') /\ cache_ok c'.
Proof.
  intros Hcur Hw Hc. unfold base_below. destruct (bo_post _ _ Hbase dim key Hd) as (o & Ho & Hp). rewrite Ho. unfold sbind, slift, sret. destruct o as [b|]; cbn in Hp.
  2:{ exists c. split; [|done]. replace (below Y cursor) with (∅ : gset Z); [by rewrite descending_empty, take_nil|]. apply set_eq. intros x. rewrite below_elem, Hp. set_solver. }
  destruct Hp as (p & -> & Hp). set (l := sort_dedup (elements Y)) in *. assert (Hs : StronglySorted Z.lt l) by apply sort_dedup_spec.
  pose proof members_size as Hsz. rewrite <- sort_elements_len in Hsz. fold l in Hsz. rewrite <- below_descending. fold l.
  destruct p as [pl|full head body].
  - assert (Hl : lists pl l) by (split; [exact (po_len _ _ Hp)|by apply (po_raw _ _ Hp)]).
    rewrite (lower_bound_ok pl l cursor Hl Hs) by width_lia. rewrite (walk_back_ok pl l want _ Hl); [|pose proof (List.filter_length_le (fun x => x <? cursor) l); unfold blen; lia|done|done].
    exists c. split; [|done]. unfold blen. rewrite Nat2Z.id, <- filter_take by done. done.
  - destruct (base_roaring_ok c Hc) as (rt & c' & -> & Hc' & Hi). exists c'. split; [|done]. fold l in Hi.
    assert (Hr : tm_rank (sat_sub cursor 1) rt = blen (List.filter (fun x => x <? cursor) l)).
    { rewrite tm_rank_spec, Hi. f_equal. apply List.filter_ext_in. intros x Hx. apply list_elem_of_In in Hx. apply sort_elements, members_elem in Hx.
      assert (0 < x) by (apply (bo_ids _ _ Hbase x); destruct (B !! x); [done|done]). unfold sat_sub. case_bools; lia. }
    rewrite Hr, select_back_ok; [|rewrite Hi; pose proof (List.filter_length_le (fun x => x <? cursor) l); unfold blen; lia|done|done].
    unfold blen. rewrite Nat2Z.id, Hi, <- filter_take by done. done.
Qed.

Lemma candidates_below_ok cursor want c : 0 <= cursor -> 0 <= want -> cache_ok c ->
  exists c', candidates_below seg ov dim (table_for_dim dim) key cursor want c = (Ok (take (Z.to_nat want) (descending (below (X ∪ Y) cursor))), c') /\ cache_ok c'.
Proof.
  intros Hcur Hw Hc. unfold candidates_below, sbind. destruct (base_below_ok cursor want c Hcur Hw Hc) as (c' & -> & Hc'). exists c'. split; [|done].
  unfold sret. do 2 f_equal. set (base := take _ (descending (below Y cursor))). set (adds := match ov_add ov !! _ with Some s => _ | None => _ end).
  assert (Ha : forall x, x ∈ adds <-> x < cursor /\ x ∈ X ∖ Y).
  { intros x. rewrite <- add_elem. unfold adds, in_sets. destruct (ov_add ov !! _); cbn; [rewrite filter_elem, Z.ltb_lt; done|]. rewrite tm_empty_iter. set_solver. }
  rewrite (dedup_sort_desc (base ++ adds) (list_to_set base ∪ below (X ∖ Y) cursor)).
  2:{ intros x. rewrite elem_of_app, Ha, elem_of_union, elem_of_list_to_set, below_elem. done. }
  apply top_part.
  - intros x. rewrite elem_of_union, elem_of_list_to_set, !below_elem, elem_of_union, elem_of_difference. intros [H|H]; [|tauto].
    apply elem_of_take_inv, descending_elem, below_elem in H. tauto.
  - intros x. rewrite elem_of_union, elem_of_list_to_set, !below_elem, elem_of_union, elem_of_difference. intros [H1 H2] H3.
    assert (HY : x ∈ below Y cursor) by (rewrite below_elem; destruct (decide (x ∈ Y)); tauto).
    assert (Hn : x ∉ base) by tauto. exists base. split; [apply sorted_gt_nodup, take_sorted|]. split; [pose proof (take_full _ _ _ HY Hn) as E; fold base in E; lia|].
    intros y Hy. split; [rewrite elem_of_union, elem_of_list_to_set; by left|]. by apply (take_above _ _ _ _ Hy HY Hn).
Qed.

Context (Hused : forall id, id ∈ used -> is_u64 id).

Lemma asset_used id : is_Some (as_map s !! id) -> id ∈ used.
Proof.
  rewrite <- (lk_cur _ _ _ _ Hok). unfold current. intros H. apply (lk_used _ _ _ _ Hok). destruct (ov_fwd ov !! id); [by left|by right].
Qed.

Lemma candidate_u64 id : id ∈ X ∪ Y -> is_u64 id.
Proof.
  rewrite elem_of_union, !members_elem. intros H. apply Hused. destruct H as [H|H].
  - apply asset_used. by destruct (as_map s !! id).
  - apply (lk_used _ _ _ _ Hok). right. by destruct (B !! id).
Qed.

(** The members among the candidates below a cursor. *)
Lemma members_below c : List.filter (is_member ov dim key) (descending (below (X ∪ Y) c)) = descending (below X c).
Proof.
  apply filter_descending. intros x. rewrite !below_elem. split.
  - intros [H1 H2]. rewrite member_ok by set_solver. rewrite bool_decide_eq_true. set_solver.
  - intros [H1 [H2 H3]]. rewrite member_ok in H1 by done. by apply bool_decide_eq_true in H1.
Qed.

(** What a page by cursor has done: the members it found are those from the first cursor to the present one. *)
Definition page_inv (n after : Z) (st : Z * list Z) (c : post_cache) : Prop :=
  cache_ok c /\ 0 <= st.1 <= u64_max /\ blen st.2 <= n /\ descending (below X after) = st.2 ++ descending (below X st.1).

Lemma page_after_step n after st c : 0 <= n < 2 ^ 62 -> page_inv n after st c ->
  match page_after_iter seg ov dim key n st c with
  | (Ok (Cont st'), c') => page_inv n after st' c' /\ 0 <= st'.1 < st.1
  | (Ok (Break r), c') => r = take (Z.to_nat n) (descending (below X after)) /\ cache_ok c'
  | _ => False
  end.
Proof.
  destruct st as [cursor found]. intros Hn (Hc & Hcur & Hf & Hx). cbn [fst snd] in *. unfold page_after_iter. pose proof (blen_nonneg found) as Hfn.
  assert (Ew : add64 (mul64 (sub64 n (blen found)) 2) 64 = (n - blen found) * 2 + 64).
  { change (2 ^ 62) with 4611686018427387904 in Hn. assert (Es : sub64 n (blen found) = n - blen found) by (unfold sub64, wrap64; apply Z.mod_small; width_lia).
    rewrite Es, mul64_id, add64_id by width_lia. done. }
  rewrite Ew. set (want := (n - blen found) * 2 + 64). unfold sbind. destruct (candidates_below_ok cursor want c ltac:(lia) ltac:(unfold want; lia) Hc) as (c' & -> & Hc').
  pose proof (members_below cursor) as Hm. set (D := descending (below (X ∪ Y) cursor)) in *. destruct (list.last _) as [low|] eqn:El.
  - destruct (chunk_split _ _ _ _ El) as (HU & Hlow & Ed). fold D in Ed. rewrite take_members_eq by lia. rewrite Ed, List.filter_app, members_below in Hm.
    set (chunk := take _ D) in *. set (got := List.filter _ chunk) in *. rewrite <- Hm in Hx.
    set (found' := take (Z.to_nat n) (found ++ got)). unfold sret. destruct (Z.leb_spec n (blen found')) as [Hfull|Hpart]; cbn [orb].
    + split; [|done]. rewrite Hx, app_assoc. unfold found' in *. unfold blen in Hfull. rewrite length_take in Hfull. symmetry. apply take_app_le. lia.
    + assert (E' : found' = found ++ got) by (unfold found' in *; unfold blen in Hpart; rewrite length_take in Hpart; apply take_ge; lia).
      destruct (Z.ltb_spec (blen chunk) want) as [Hshort|Hlong].
      * split; [|done]. assert (Hr : descending (below X low) = []).
        { assert (HD : chunk = D) by (unfold chunk in *; unfold blen in Hshort; rewrite length_take in Hshort; apply take_ge; lia).
          rewrite HD in Ed. rewrite <- (app_nil_r D) in Ed at 1. apply app_inv_head in Ed. pose proof (members_below low) as Hm'. rewrite <- Ed in Hm'. done. }
        rewrite Hx, Hr, app_nil_r, <- E'. rewrite take_ge; [done|]. unfold blen in Hpart. lia.
      * cbn [fst snd]. split; [|split; [apply candidate_u64; done|done]]. split; [done|]. cbn [fst snd].
        split; [pose proof (candidate_u64 low HU); width_lia|]. split; [lia|]. by rewrite Hx, E', app_assoc.
  - unfold sret. split; [|done]. apply last_None in El. assert (HD : D = []).
    { destruct D; [done|]. exfalso. revert El. replace (Z.to_nat want) with (S (Z.to_nat (want - 1))) by (unfold want; lia). done. }
    rewrite Hx, <- Hm, HD, app_nil_r, take_ge; [done|]. unfold blen in Hf. lia.
Qed.

Lemma page_after_ok after n c : 0 <= n < 2 ^ 62 -> match after with Some a => is_u64 a | None => True end -> cache_ok c ->
  exists c', page_after seg ov dim key after n c = (Ok (take (Z.to_nat n) (descending (below X (default u64_max after)))), c') /\ cache_ok c'.
Proof.
  intros Hn Ha Hc. set (a := default u64_max after). assert (H0 : 0 <= a <= u64_max) by (unfold a; destruct after; cbn; width_lia).
  assert (H : (page_after seg ov dim key after n c).1 = Ok (take (Z.to_nat n) (descending (below X a))) /\ cache_ok (page_after seg ov dim key after n c).2).
  { unfold page_after. fold a. apply (loop_spec (page_inv n a) (fun st _ => st.1) (fun r c => r = Ok (take (Z.to_nat n) (descending (below X a))) /\ cache_ok c)).
    - intros st c0 Hi. pose proof (page_after_step n a st c0 Hn Hi) as Hs. destruct (page_after_iter seg ov dim key n st c0) as [[[st'|r]|e|] c1]; [done| |done|done].
      destruct Hs as [-> Hs]. done.
    - split; [done|]. split; [done|]. split; [unfold blen; cbn [snd length]; lia|done].
    - cbn [fst]. change (2 ^ 65) with 36893488147419103232. width_lia. }
  destruct (page_after _ _ _ _ _ _ _) as [r c']. cbn [fst snd] in H. destruct H as [-> H]. by exists c'.
Qed.
End Key.

(** ** Browsing *)
Section Browse.
Context (skip n : Z) (Hskip : 0 <= skip) (Hn : 1 <= n).

Definition alive (id : Z) : bool := negb (tm_contains id (ov_tomb ov)).

(** After the ids whose live ones are [v]. *)
Definition browsed (v : list Z) (st : Z * list Z * bool) : Prop :=
  if st.2 then st.1.2 = take (Z.to_nat n) (drop (Z.to_nat skip) v) /\ n <= blen (drop (Z.to_nat skip) v)
  else st.1.1 = blen v /\ st.1.2 = drop (Z.to_nat skip) v /\ blen (drop (Z.to_nat skip) v) < n.

Lemma browsed_app v w st : st.2 = true -> browsed v st -> browsed (v ++ w) st.
Proof.
  unfold browsed. intros -> [-> H]. unfold blen in *. rewrite length_drop in H. rewrite drop_app_le by lia. rewrite take_app_le by (rewrite length_drop; lia).
  split; [done|]. rewrite length_app, length_drop. lia.
Qed.

Lemma browse_id_ok v st id : browsed v st -> browsed (v ++ List.filter alive [id]) (browse_id ov skip n st id).
Proof.
  intros H. destruct st as [[seen taken] full]. destruct full; [by apply browsed_app|]. destruct H as (H1 & H2 & H3). cbn [fst snd] in *. unfold browse_id, alive.
  cbn [List.filter orb]. destruct (tm_contains id (ov_tomb ov)); cbn [negb]; [by rewrite app_nil_r|]. unfold blen in *. destruct (Z.leb_spec skip seen) as [Hle|Hgt].
  - assert (Ed : drop (Z.to_nat skip) (v ++ [id]) = taken ++ [id]) by (rewrite drop_app_le by lia; by rewrite H2). unfold browsed. cbn [fst snd]. rewrite Ed. unfold blen in *.
    rewrite !length_app. cbn [length]. destruct (Z.leb_spec n (Z.of_nat (length taken + 1))); [|split; [lia|split; [done|lia]]].
    split; [|lia]. rewrite take_ge; [done|]. rewrite length_app. cbn [length]. rewrite H2. lia.
  - unfold browsed. cbn [fst snd]. rewrite drop_ge in H2 by lia. rewrite drop_ge by (rewrite length_app; cbn [length]; lia). unfold blen. rewrite length_app. cbn [length].
    split; [lia|]. split; [done|lia].
Qed.

Lemma browse_fold_ok l : forall v st, browsed v st -> browsed (v ++ List.filter alive l) (foldl (browse_id ov skip n) st l).
Proof.
  induction l as [|id l IH]; intros v st H; [by rewrite app_nil_r|]. cbn [foldl]. change (id :: l) with ([id] ++ l). rewrite List.filter_app, app_assoc. apply IH. by apply browse_id_ok.
Qed.

Lemma browse_full l st : st.2 = true -> foldl (browse_id ov skip n) st l = st.
Proof. destruct st as [[seen taken] full]. cbn [snd]. intros ->. induction l as [|id l IH]; [done|exact IH]. Qed.

Lemma browse_base_ok b l : (forall (k : nat) id, l !! k = Some id -> rdu64 b (4 + Z.of_nat k * 8) = Ok id) ->
  forall (m j : nat) st, (j + m = length l)%nat -> browse_base ov skip n b (seqZ (Z.of_nat j) (Z.of_nat m)) st = Ok (foldl (browse_id ov skip n) st (drop j l)).
Proof.
  intros Hb. induction m as [|m IH]; intros j st Hj.
  - rewrite drop_ge by lia. done.
  - rewrite seqZ_cons by lia. cbn [browse_base]. destruct (lookup_lt_is_Some_2 l j) as [id Hid]; [lia|]. rewrite (drop_S l id j Hid). cbn [foldl].
    destruct (st.2) eqn:E; [rewrite <- (browse_full (id :: drop (S j) l) st E) at 1; done|]. rewrite (Hb j id Hid). cbn [rbind].
    rewrite <- Nat2Z.inj_succ. replace (Z.pred (Z.of_nat (S m))) with (Z.of_nat m) by lia. apply IH. lia.
Qed.

Lemma alive_spec id : alive id = true <-> ov_fwd ov !! id <> Some Tomb.
Proof. unfold alive. rewrite negb_true_iff, <- (lk_tomb _ _ _ _ Hok), <- tm_contains_spec. by destruct (tm_contains id (ov_tomb ov)). Qed.

(** The ids browsed are those of the assets, when the mints are above the base. *)
Lemma browse_ids : (forall i j, i ∈ ov_sorted_id_adds ov -> is_Some (B !! j) -> j < i) ->
  List.filter alive (descending (ov_sorted_id_adds ov) ++ descending (dom B)) = descending (dom (as_map s)).
Proof.
  intros Hm. apply descending_unique.
  - apply filter_sorted, StronglySorted_app_2; [|apply descending_sorted|apply descending_sorted].
    intros i j Hi%descending_elem Hj%descending_elem%elem_of_dom. specialize (Hm i j Hi Hj). lia.
  - intros x. rewrite filter_elem, elem_of_app, !descending_elem, !elem_of_dom, alive_spec, (lk_adds _ _ _ _ Hok).
    rewrite <- (lk_cur _ _ _ _ Hok). unfold current. destruct (ov_fwd ov !! x) as [[a|]|] eqn:E.
    + split; [eauto|]. intros _. split; [done|]. destruct (B !! x) eqn:Eb; [right; eauto|left; eauto].
    + split; [intros [? _]; done|intros [? ?]; done].
    + split; [|intros H; split; [done|by right]]. intros [_ [[H _]|H]]; done.
Qed.

Lemma browse_ok : (forall i j, is_Some (as_map s !! i) -> B !! i = None -> is_Some (B !! j) -> j < i) ->
  browse seg ov skip n = Ok (take (Z.to_nat n) (drop (Z.to_nat skip) (descending (dom (as_map s))))).
Proof.
  intros Hm. rewrite <- browse_ids by (intros i j [Hi Hb]%(lk_adds _ _ _ _ Hok) Hj; by apply Hm). rewrite List.filter_app.
  unfold browse. unfold set_desc. rewrite (sort_desc_nodup _ (ov_sorted_id_adds ov)) by (apply NoDup_elements || set_solver).
  assert (H0 : browsed [] (0, [], false)) by (unfold browsed; cbn [fst snd]; rewrite drop_nil; unfold blen; cbn [length]; split; [done|split; [done|lia]]).
  pose proof (browse_fold_ok (descending (ov_sorted_id_adds ov)) [] _ H0) as H1. cbn [app] in H1. set (st := foldl _ _ _) in *.
  assert (Hout : forall v st, browsed v st -> st.1.2 = take (Z.to_nat n) (drop (Z.to_nat skip) v)).
  { intros v [[? ?] []]; unfold browsed; cbn [fst snd]; [by intros [-> _]|]. intros (_ & -> & H). rewrite take_ge; [done|]. unfold blen in H. lia. }
  destruct (st.2) eqn:Ef; [f_equal; apply Hout; by apply browsed_app|]. destruct (bo_sorted _ _ Hbase) as (o & -> & Ho). cbn [rbind]. destruct o as [b|]; cbn in Ho.
  - destruct Ho as [-> Hk]. cbn [rbind]. pose proof (descending_len (dom B)) as El. unfold blen in El.
    pose proof (browse_base_ok b (descending (dom B)) Hk (size (dom B : gset Z)) 0 st ltac:(lia)) as Hb. rewrite drop_0 in Hb. change (Z.of_nat 0) with 0 in Hb. rewrite Hb. cbn [rbind].
    f_equal. apply Hout. by apply browse_fold_ok.
  - f_equal. apply Hout. rewrite Ho, descending_empty. cbn [List.filter]. by rewrite app_nil_r.
Qed.
End Browse.
End Base.
End Queries.
