(* ===== verification/Builder.v ===== *)
(** * Building a segment of AtomicAssets ([crates/wseg-build/src/aa_builder.rs], [compact_with] of [aa_live.rs])

    The builder collects forward records and the postings of every dimension, and [finish] lays them out as the
    tables of a segment. Here is its raw interface, the one compaction uses: records that are already decoded. [finish]
    and [compact_with] give the bytes of the file they write.

    A [HashMap] is a [gmap]; the order in which it is walked is a parameter. *)

From stdpp Require Import sorting.
From S2P Require Import Prelude.
From S2P Require Import Segment.
From S2P Require Import AtomicKeys.
From S2P Require Import AtomicRecords.
From S2P Require Import Postings.
From S2P Require Import Live.

(** The order of a [HashMap]: every entry once. *)
Class HashOrder := hash_order : forall {A}, gmap Z A -> list (Z * A).
Class HashOrderLaws (H : HashOrder) := hash_order_perm : forall {A} (m : gmap Z A), hash_order m ≡ₚ map_to_list m.

#[export] Instance listed_order : HashOrder := fun A m => map_to_list m.
#[export] Instance listed_order_laws : HashOrderLaws listed_order.
Proof. intros A m. done. Qed.

(** ** Forward stores *)

Record Fwd := mkFwd { fw_arena : bytes; fw_index : list IndexEntry }.

Definition fwd_default : Fwd := mkFwd [] [].

Definition fwd_push (key : Z) (blob : bytes) (f : Fwd) : Fwd :=
  mkFwd (fw_arena f ++ blob) (fw_index f ++ [mkEntry key (blen (fw_arena f)) (wrap32 (blen blob))]).

Definition into_table (table_id : Z) (f : Fwd) : Table := mkTable table_id (fw_index f) (fw_arena f).

(** ** The builder *)

Record AaStats := mkStats { sa_schemas : Z; sa_templates : Z; sa_collections : Z; sa_assets : Z; sa_bytes : Z }.

(** [schemas] and [coll_format_idx] are not here: only the interface that takes BSON documents uses them. *)
Record AtomicBuilder := mkBuilder {
  ab_asset_fwd : Fwd; ab_tmpl_fwd : Fwd; ab_schema_fwd : Fwd; ab_coll_fwd : Fwd;
  ab_by_owner : gmap Z (list Z); ab_by_coll : gmap Z (list Z); ab_by_schema : gmap Z (list Z); ab_by_tmpl : gmap Z (list Z);
  ab_by_data : gmap Z (list Z); ab_all_ids : list Z; ab_data_fields : list bytes; ab_config : option bytes; ab_stats : AaStats
}.

(** [AtomicBuilder::new]. *)
Definition builder_new (data_fields : list bytes) : AtomicBuilder :=
  mkBuilder fwd_default fwd_default fwd_default fwd_default ∅ ∅ ∅ ∅ ∅ [] data_fields None (mkStats 0 0 0 0 0).

(** [map.entry(key).or_default().push(id)]. *)
Definition entry_push (key id : Z) (m : gmap Z (list Z)) : gmap Z (list Z) := <[key := default [] (m !! key) ++ [id]]> m.

Definition push_schema_raw (schema_key : Z) (fields : list (bytes * bytes)) (b : AtomicBuilder) : AtomicBuilder :=
  let s := ab_stats b in
  mkBuilder (ab_asset_fwd b) (ab_tmpl_fwd b) (fwd_push schema_key (encode_schema_format fields) (ab_schema_fwd b)) (ab_coll_fwd b)
    (ab_by_owner b) (ab_by_coll b) (ab_by_schema b) (ab_by_tmpl b) (ab_by_data b) (ab_all_ids b) (ab_data_fields b) (ab_config b)
    (mkStats (add64 (sa_schemas s) 1) (sa_templates s) (sa_collections s) (sa_assets s) (sa_bytes s)).

Definition push_template_raw (t : TemplateRec) (b : AtomicBuilder) : AtomicBuilder :=
  let s := ab_stats b in
  mkBuilder (ab_asset_fwd b) (fwd_push (template_key (tr_template_id t)) (encode_template t) (ab_tmpl_fwd b)) (ab_schema_fwd b) (ab_coll_fwd b)
    (ab_by_owner b) (ab_by_coll b) (ab_by_schema b) (ab_by_tmpl b) (ab_by_data b) (ab_all_ids b) (ab_data_fields b) (ab_config b)
    (mkStats (sa_schemas s) (add64 (sa_templates s) 1) (sa_collections s) (sa_assets s) (sa_bytes s)).

Definition push_collection_raw (c : CollectionRec) (b : AtomicBuilder) : AtomicBuilder :=
  let s := ab_stats b in
  mkBuilder (ab_asset_fwd b) (ab_tmpl_fwd b) (ab_schema_fwd b) (fwd_push (cr_collection c) (encode_collection c) (ab_coll_fwd b))
    (ab_by_owner b) (ab_by_coll b) (ab_by_schema b) (ab_by_tmpl b) (ab_by_data b) (ab_all_ids b) (ab_data_fields b) (ab_config b)
    (mkStats (sa_schemas s) (sa_templates s) (add64 (sa_collections s) 1) (sa_assets s) (sa_bytes s)).

Definition push_asset_raw (asset_id owner_u coll_u schema_u schema_key template_id block_num : Z) (immutable mutable : list Attr)
    (facet_keys : list Z) (b : AtomicBuilder) : AtomicBuilder :=
  let blob := encode_asset (mkAsset owner_u coll_u schema_u template_id block_num 0 immutable mutable) in
  let s := ab_stats b in
  mkBuilder (fwd_push asset_id blob (ab_asset_fwd b)) (ab_tmpl_fwd b) (ab_schema_fwd b) (ab_coll_fwd b)
    (entry_push owner_u asset_id (ab_by_owner b)) (entry_push coll_u asset_id (ab_by_coll b)) (entry_push schema_key asset_id (ab_by_schema b))
    (if 0 <=? template_id then entry_push (template_key template_id) asset_id (ab_by_tmpl b) else ab_by_tmpl b)
    (foldl (fun m fk => entry_push fk asset_id m) (ab_by_data b) facet_keys)
    (ab_all_ids b ++ [asset_id]) (ab_data_fields b) (ab_config b)
    (mkStats (sa_schemas s) (sa_templates s) (sa_collections s) (add64 (sa_assets s) 1) (sa_bytes s)).

(** ** Writing it *)
Section Writing.
Context {T : Treemap} {O : HashOrder}.

(** The ranks within one template. *)
Fixpoint rank_ids (rank : Z) (ids : list Z) (m : gmap Z Z) : gmap Z Z :=
  match ids with
  | [] => m
  | aid :: ids => rank_ids (rank + 1) ids (<[aid := wrap32 (rank + 1)]> m)
  end.

(** [tmpl_mint]: the rank of every asset in its template, by ascending id. *)
Definition tmpl_mints (by_tmpl : gmap Z (list Z)) : gmap Z Z :=
  foldl (fun m e => rank_ids 0 (merge_sort Z.le e.2) m) ∅ (hash_order by_tmpl).

(** [arena[o..o + b.len()].copy_from_slice(b)]. *)
Definition copy_at (o : Z) (b arena : bytes) : out bytes :=
  if o + blen b <=? blen arena then Ok (take (Z.to_nat o) arena ++ b ++ drop (Z.to_nat (o + blen b)) arena) else Panic.

(** The patch of the mint numbers in the forward records. *)
Fixpoint patch_mints (mints : gmap Z Z) (idx : list IndexEntry) (arena : bytes) : out bytes :=
  match idx with
  | [] => Ok arena
  | e :: idx =>
      match mints !! ie_key e with
      | Some m => let? arena := copy_at (ie_off e + 33) (le_bytes 4 m) arena in patch_mints mints idx arena
      | None => patch_mints mints idx arena
      end
  end.

(** [pairs.sort_unstable()] on pairs. *)
Definition pair_le (x y : Z * Z) : Prop := x.1 < y.1 \/ x.1 = y.1 /\ x.2 <= y.2.
#[export] Instance pair_le_dec x y : Decision (pair_le x y) := or_dec _ _.

(** A table of one entry, under the sentinel. *)
Definition sentinel_table (table_id : Z) (arena : bytes) : Table := mkTable table_id [mkEntry SENTINEL_KEY 0 (wrap32 (blen arena))] arena.

Definition tmpl_sorted (mints : gmap Z Z) : Table :=
  let pairs := merge_sort pair_le ((fun e => (e.2, e.1)) <$> hash_order mints) in
  sentinel_table TABLE_AA_SORTED_TMPL (le_bytes 4 (blen pairs) ++ concat ((fun p => le_bytes 4 p.1 ++ le_bytes 8 p.2) <$> pairs)).

Definition id_sorted (all_ids : list Z) : Table :=
  let ids := sort_dedup all_ids in
  sentinel_table TABLE_AA_SORTED_ID (le_bytes 4 (blen ids) ++ concat (le_bytes 8 <$> reverse ids)).

(** The body of [posting_table]: the arena and the index so far. *)
Definition posting_push (a : bytes * list IndexEntry) (e : Z * list Z) : bytes * list IndexEntry :=
  let blob := encode_posting_hybrid e.2 in
  (a.1 ++ blob, a.2 ++ [mkEntry e.1 (blen a.1) (wrap32 (blen blob))]).

Definition posting_table (table_id : Z) (m : gmap Z (list Z)) : Table :=
  let '(arena, index) := foldl posting_push ([], []) (hash_order m) in
  mkTable table_id index arena.

(** The tables [finish] writes. *)
Definition finish_tables (b : AtomicBuilder) : out (list Table) :=
  let mints := tmpl_mints (ab_by_tmpl b) in
  let? arena := patch_mints mints (fw_index (ab_asset_fwd b)) (fw_arena (ab_asset_fwd b)) in
  Ok ([into_table TABLE_AA_FWD (mkFwd arena (fw_index (ab_asset_fwd b)));
       into_table TABLE_AA_TMPL_FWD (ab_tmpl_fwd b);
       into_table TABLE_AA_SCHEMAS (ab_schema_fwd b);
       into_table TABLE_AA_COLL_FWD (ab_coll_fwd b);
       posting_table TABLE_AA_BY_OWNER (ab_by_owner b);
       posting_table TABLE_AA_BY_COLL (ab_by_coll b);
       posting_table TABLE_AA_BY_SCHEMA (ab_by_schema b);
       posting_table TABLE_AA_BY_TMPL (ab_by_tmpl b);
       posting_table TABLE_AA_DATA_ATTR (ab_by_data b);
       id_sorted (ab_all_ids b);
       tmpl_sorted mints] ++
      match ab_config b with Some cfg => [sentinel_table TABLE_AA_CONFIG cfg] | None => [] end).

(** [finish]: the statistics, and the file. *)
Definition finish (b : AtomicBuilder) : out (AaStats * bytes) :=
  let? tables := finish_tables b in
  let s := ab_stats b in
  Ok (mkStats (sa_schemas s) (sa_templates s) (sa_collections s) (sa_assets s) (foldl (fun n t => add64 n (blen (tb_arena t))) 0 tables),
      write_segment tables).

(** ** Compaction *)

Definition fold_emit (facet_idx : gmap Z Z) (facet_field : bytes) (aid : Z) (a : AssetLive) (cached_facet : option Z) (b : AtomicBuilder)
    : AtomicBuilder :=
  let coll_s := Name.decode (al_collection a) in
  let sch_s := Name.decode (al_schema a) in
  let schema_key := coll_schema_key coll_s sch_s in
  let facet :=
    match cached_facet with
    | Some k => Some k
    | None =>
        match facet_idx !! schema_key with
        | Some idx =>
            match attr_value (al_immutable a) (al_mutable a) idx with
            | Some v => if facet_value_ok v then Some (data_attr_key coll_s sch_s facet_field v) else None
            | None => None
            end
        | None => None
        end
    end in
  push_asset_raw aid (al_owner a) (al_collection a) (al_schema a) schema_key (al_template_id a) (al_block_num a) (al_immutable a) (al_mutable a)
    (match facet with Some k => [k] | None => [] end) b.

(** A walk over the entries of a table. *)
Fixpoint walk_entries {A} (f : Z -> bytes -> A -> out A) (es : list (Z * bytes)) (a : A) : out A :=
  match es with
  | [] => Ok a
  | (k, blob) :: es => let? a := f k blob a in walk_entries f es a
  end.

(** One base asset: dropped, as the overlay has it, or as the base has it. *)
Definition fold_base (facet_idx : gmap Z Z) (facet_field : bytes) (ov : Overlay) (aid : Z) (blob : bytes) (b : AtomicBuilder) : out AtomicBuilder :=
  match ov_fwd ov !! aid with
  | Some Tomb => Ok b
  | Some (LiveAsset a) => Ok (fold_emit facet_idx facet_field aid a (al_facet_key a) b)
  | None =>
      let? a := decode_asset blob in
      let live := mkLive (ar_owner a) (ar_collection a) (ar_schema a) (ar_template_id a) (ar_block_num a) (ar_template_mint a) None
        (ar_immutable a) (ar_mutable a) in
      Ok (fold_emit facet_idx facet_field aid live None b)
  end.

(** The mints of the overlay, in the order of its map. *)
Fixpoint fold_mints (base : BaseSeg) (facet_idx : gmap Z Z) (facet_field : bytes) (es : list (Z * FwdState)) (b : AtomicBuilder) : out AtomicBuilder :=
  match es with
  | [] => Ok b
  | (aid, LiveAsset a) :: es =>
      let? o := lookup base TABLE_AA_FWD aid in
      fold_mints base facet_idx facet_field es (match o with None => fold_emit facet_idx facet_field aid a (al_facet_key a) b | Some _ => b end)
  | (_, Tomb) :: es => fold_mints base facet_idx facet_field es b
  end.

Definition compact_with (seg : LiveSeg) (ov : Overlay) : out (AaStats * bytes) :=
  let base := ls_base seg in
  let facet_field := match ls_facet_fields seg with f :: _ => f | [] => [] end in
  let? schemas := for_each_entry base TABLE_AA_SCHEMAS in
  let? facet_idx := walk_entries (fun key blob m =>
    let? fields := decode_schema_format blob in
    Ok (match position (fun f => bool_decide (f.1 = facet_field)) fields with Some p => <[key := Z.of_nat p mod 65536]> m | None => m end)) schemas ∅ in
  let b := builder_new (ls_facet_fields seg) in
  let? b := walk_entries (fun key blob b => let? fields := decode_schema_format blob in Ok (push_schema_raw key fields b)) schemas b in
  let? templates := for_each_entry base TABLE_AA_TMPL_FWD in
  let? b := walk_entries (fun _ blob b => let? t := decode_template blob in Ok (push_template_raw t b)) templates b in
  let? collections := for_each_entry base TABLE_AA_COLL_FWD in
  let? b := walk_entries (fun _ blob b => let? c := decode_collection blob in Ok (push_collection_raw c b)) collections b in
  let? assets := for_each_entry base TABLE_AA_FWD in
  let? b := walk_entries (fold_base facet_idx facet_field ov) assets b in
  let? b := fold_mints base facet_idx facet_field (hash_order (ov_fwd ov)) b in
  finish b.
End Writing.
