(* ===== verification/BuilderFacts.v ===== *)
(** * What the builder writes

    The tables of [finish], opened again, hold what was pushed: every forward record under its key, with the number of
    its mint filled in, and for every key of a dimension the posting of the assets that have it. *)

From stdpp Require Import sorting.
From S2P Require Import Prelude.
From S2P Require Import Segment.
From S2P Require Import AtomicKeys.
From S2P Require Import AtomicRecords.
From S2P Require Import Postings.
From S2P Require Import Live.
From S2P Require Import LiveFacts.
From S2P Require Import LiveQueries.
From S2P Require Import Builder.

#[local] Opaque coll_schema_key data_attr_key Name.decode.

(** ** Blobs one after the other *)

Fixpoint index_from (off : Z) (es : list (Z * bytes)) : list IndexEntry :=
  match es with
  | [] => []
  | (k, b) :: es => mkEntry k off (wrap32 (blen b)) :: index_from (off + blen b) es
  end.

(** The blobs [es] under their keys. *)
Definition laid (f : Fwd) (es : list (Z * bytes)) : Prop := fw_arena f = concat es.*2 /\ fw_index f = index_from 0 es.

Lemma index_from_app off es es' : index_from off (es ++ es') = index_from off es ++ index_from (off + blen (concat es.*2)) es'.
Proof.
  revert off. induction es as [|[k b] es IH]; intros off; cbn [index_from app]; [by rewrite Z.add_0_r|]. rewrite IH. f_equal. f_equal.
  rewrite fmap_cons. cbn [concat snd]. rewrite blen_app. f_equal. lia.
Qed.

Lemma laid_nil : laid fwd_default [].
Proof. done. Qed.

Lemma laid_push f es k b : laid f es -> laid (fwd_push k b f) (es ++ [(k, b)]).
Proof.
  intros [Ha Hi]. split; cbn [fwd_push fw_arena fw_index].
  - rewrite Ha, fmap_app, concat_app. cbn. by rewrite app_nil_r.
  - rewrite Hi, index_from_app, Ha. done.
Qed.

Definition small (es : list (Z * bytes)) : Prop := Forall (fun e => blen e.2 < U32) es.

Lemma wrap32_id z : 0 <= z < U32 -> wrap32 z = z.
Proof. intros H. unfold wrap32. apply Z.mod_small. width_lia. Qed.

(** The entries point at their blobs. *)
Lemma index_blobs tid idx arena pre es : small es -> arena = pre ++ concat es.*2 ->
  (fun e => (ie_key e, entry_blob (mkTable tid idx arena) e)) <$> index_from (blen pre) es = es.
Proof.
  revert pre. induction es as [|[k b] es IH]; intros pre Hs Ha; [done|]. apply Forall_cons_1 in Hs as [Hb Hs]. cbn [snd] in Hb. rewrite fmap_cons in Ha. cbn [concat snd] in Ha.
  cbn [index_from]. rewrite fmap_cons. f_equal.
  - cbn [ie_key]. f_equal. unfold entry_blob. cbn [ie_off ie_len tb_arena]. pose proof (blen_nonneg b). rewrite wrap32_id by lia. rewrite Ha. unfold blen. rewrite !Nat2Z.id.
    rewrite drop_app_length. apply take_app_length.
  - rewrite <- blen_app. apply IH; [done|]. by rewrite <- app_assoc.
Qed.

Lemma index_entries_ok pre es post : small es -> Forall is_u64 es.*1 -> Forall (entry_ok (blen (pre ++ concat es.*2 ++ post))) (index_from (blen pre) es).
Proof.
  revert pre. induction es as [|[k b] es IH]; intros pre Hs Hk; [constructor|]. apply Forall_cons_1 in Hs as [Hb Hs]. rewrite fmap_cons in Hk. apply Forall_cons_1 in Hk as [Hk Hks].
  cbn [fst snd] in *. cbn [index_from]. rewrite fmap_cons. cbn [concat snd]. pose proof (blen_nonneg b). pose proof (blen_nonneg pre). constructor.
  - unfold entry_ok. cbn [ie_key ie_off ie_len]. rewrite wrap32_id by lia. split; [done|]. split; [lia|]. split; [width_lia|].
    rewrite !blen_app. pose proof (blen_nonneg (concat es.*2)). pose proof (blen_nonneg post). lia.
  - specialize (IH (pre ++ b) Hs Hks). rewrite !blen_app in IH |- *.
    replace (blen pre + (blen b + blen (concat es.*2) + blen post)) with (blen pre + blen b + (blen (concat es.*2) + blen post)) by lia. exact IH.
Qed.

Lemma index_keys off es : ie_key <$> index_from off es = es.*1.
Proof. revert off. induction es as [|[k b] es IH]; intros off; [done|]. cbn [index_from]. rewrite !fmap_cons. by rewrite IH. Qed.

Section Laid.
Context (tid : Z) (f : Fwd) (es : list (Z * bytes)) (Hl : laid f es) (Hs : small es).

Lemma laid_entries : (fun e => (ie_key e, entry_blob (into_table tid f) e)) <$> fw_index f = es.
Proof. destruct Hl as [Ha Hi]. pose proof (index_blobs tid (fw_index f) (fw_arena f) [] es Hs Ha) as H. change (blen []) with 0 in H. rewrite <- Hi in H. exact H. Qed.

Lemma laid_table_ok : is_u32 tid -> NoDup es.*1 -> Forall is_u64 es.*1 -> table_ok (into_table tid f).
Proof.
  intros Ht Hn Hk. destruct Hl as [Ha Hi]. split; cbn [into_table tb_id tb_index tb_arena]; [done| |].
  - by rewrite Hi, index_keys.
  - rewrite Ha, Hi. rewrite <- (app_nil_r (concat _)). by apply (index_entries_ok [] es []).
Qed.

Lemma laid_find key : find_key (into_table tid f) key = snd <$> List.find (fun e => e.1 =? key) es.
Proof.
  rewrite <- laid_entries. unfold find_key. cbn [into_table tb_index]. generalize (entry_blob (into_table tid f)). intros g. induction (fw_index f) as [|e l IH]; [done|].
  rewrite fmap_cons. cbn. destruct (ie_key e =? key); [done|exact IH].
Qed.

(** [for_each_entry] walks the blobs. *)
Lemma laid_each : (fun e => (ie_key e, entry_blob (into_table tid f) e)) <$> merge_sort key_le (fw_index f) ≡ₚ es.
Proof. rewrite <- laid_entries. by rewrite merge_sort_Permutation. Qed.
End Laid.

(** ** The patch of the mints *)

(** A forward record with its mint filled in. *)
Definition patch33 (m : Z) (b : bytes) : bytes := take 33 b ++ le_bytes 4 m ++ drop 37 b.

Definition patched (mints : gmap Z Z) (e : Z * bytes) : Z * bytes :=
  (e.1, match mints !! e.1 with Some m => patch33 m e.2 | None => e.2 end).

Lemma blen_patch33 m b : 37 <= blen b -> blen (patch33 m b) = blen b.
Proof.
  intros H. unfold patch33. unfold blen in *. rewrite !length_app, length_take, length_drop.
  change (length (le_bytes 4 m)) with 4%nat. lia.
Qed.

Lemma blen_patched_entry mints e : 37 <= blen e.2 -> blen (patched mints e).2 = blen e.2.
Proof. intros H. unfold patched. cbn [snd]. destruct (mints !! e.1); [by apply blen_patch33|done]. Qed.

Lemma index_patched mints es : Forall (fun e => 37 <= blen e.2) es -> forall off, index_from off (patched mints <$> es) = index_from off es.
Proof.
  induction 1 as [|[k b] es Hb _ IH]; intros off; [done|]. cbn [snd] in Hb. rewrite fmap_cons. unfold patched at 1. cbn [fst snd index_from].
  pose proof (blen_patched_entry mints (k, b) Hb) as E. unfold patched in E. cbn [fst snd] in E. by rewrite E, IH.
Qed.

Lemma copy_at_blob pre b post m : 37 <= blen b ->
  copy_at (blen pre + 33) (le_bytes 4 m) (pre ++ b ++ post) = Ok (pre ++ patch33 m b ++ post).
Proof.
  intros H. unfold copy_at. rewrite blen_le_bytes. rewrite (proj2 (Z.leb_le _ _)).
  2:{ rewrite !blen_app. pose proof (blen_nonneg post). lia. }
  f_equal. unfold patch33. unfold blen in *. replace (Z.to_nat (Z.of_nat (length pre) + 33)) with (length pre + 33)%nat by lia.
  replace (Z.to_nat (Z.of_nat (length pre) + 33 + Z.of_nat 4)) with (length pre + 37)%nat by lia.
  rewrite take_app_add, drop_app_add, <- !app_assoc. by rewrite take_app_le, drop_app_le by lia.
Qed.

Lemma patch_ok mints es : Forall (fun e => 37 <= blen e.2) es -> forall pre,
  patch_mints mints (index_from (blen pre) es) (pre ++ concat es.*2) = Ok (pre ++ concat (patched mints <$> es).*2).
Proof.
  induction 1 as [|[k b] es Hb _ IH]; intros pre; [done|]. cbn [snd] in Hb. cbn [index_from patch_mints ie_key ie_off]. rewrite !fmap_cons. cbn [concat snd].
  assert (E : blen (patched mints (k, b)).2 = blen b) by (by apply (blen_patched_entry mints (k, b))).
  assert (Hp : forall x, patch_mints mints (index_from (blen pre + blen b) es) (pre ++ x ++ concat es.*2) = Ok (pre ++ x ++ concat (patched mints <$> es).*2) \/ blen x <> blen b).
  { intros x. destruct (decide (blen x = blen b)) as [Ex|]; [left|by right]. specialize (IH (pre ++ x)). rewrite blen_app, Ex, <- !app_assoc in IH. exact IH. }
  unfold patched at 1. cbn [fst snd]. unfold patched in E at 1. cbn [fst snd] in E. destruct (mints !! k) as [m|].
  - rewrite copy_at_blob by done. cbn [rbind]. destruct (Hp (patch33 m b)); [done|lia].
  - destruct (Hp b); [done|lia].
Qed.

(** The asset's record, patched, is the record with its mint. *)
Definition with_mint (m : Z) (a : AssetLive) : AssetLive :=
  mkLive (al_owner a) (al_collection a) (al_schema a) (al_template_id a) (al_block_num a) m (al_facet_key a) (al_immutable a) (al_mutable a).

Definition rec_of (a : AssetLive) : AssetRec :=
  mkAsset (al_owner a) (al_collection a) (al_schema a) (al_template_id a) (al_block_num a) (al_template_mint a) (al_immutable a) (al_mutable a).

Lemma patch33_asset m a : patch33 m (encode_asset (rec_of (with_mint 0 a))) = encode_asset (rec_of (with_mint m a)).
Proof.
  unfold encode_asset, rec_of, with_mint, patch33. cbn [al_owner al_collection al_schema al_template_id al_block_num al_template_mint al_immutable al_mutable
    ar_owner ar_collection ar_schema ar_template_id ar_block_num ar_template_mint ar_immutable ar_mutable]. done.
Qed.

Lemma encode_asset_long a : 37 <= blen (encode_asset a).
Proof. unfold encode_asset. rewrite !blen_app, !blen_le_bytes. pose proof (blen_nonneg (put_attrs (ar_immutable a))). pose proof (blen_nonneg (put_attrs (ar_mutable a))). lia. Qed.

(** ** Ranks *)

Lemma rank_ids_other ids : forall r m x, x ∉ ids -> rank_ids r ids m !! x = m !! x.
Proof.
  induction ids as [|y ids IH]; intros r m x Hx; [done|]. cbn [rank_ids]. rewrite IH by set_solver. apply lookup_insert_ne. set_solver.
Qed.

Lemma rank_ids_at ids : forall r m (i : nat) x, NoDup ids -> ids !! i = Some x -> rank_ids r ids m !! x = Some (wrap32 (r + Z.of_nat i + 1)).
Proof.
  induction ids as [|y ids IH]; intros r m i x Hn Hi; [done|]. apply list.NoDup_cons in Hn as [Hy Hn]. cbn [rank_ids]. destruct i as [|i].
  - injection Hi as ->. rewrite rank_ids_other by done. rewrite lookup_insert_eq. do 2 f_equal. lia.
  - rewrite (IH _ _ i x Hn Hi). do 2 f_equal. lia.
Qed.

Lemma sort_nodup ids (X : gset Z) : NoDup ids -> (forall x, x ∈ ids <-> x ∈ X) -> merge_sort Z.le ids = sort_dedup (elements X).
Proof.
  intros Hn He. apply sorted_ext; [|apply sort_dedup_spec|intros x; by rewrite merge_sort_Permutation, He, sort_elements].
  assert (Hs : StronglySorted Z.le (merge_sort Z.le ids)) by (apply StronglySorted_merge_sort; [intros ???; lia|intros ??; lia]).
  assert (Hn' : NoDup (merge_sort Z.le ids)) by (by rewrite merge_sort_Permutation). revert Hn'. induction Hs as [|x k Hk IH Hx]; [constructor|]. intros [Hni Hn']%list.NoDup_cons.
  constructor; [by apply IH|]. rewrite list.Forall_forall in Hx |- *. intros y Hy. specialize (Hx y Hy). assert (x <> y) by congruence. lia.
Qed.

Lemma filter_below_size (X : gset Z) c : Z.of_nat (length (List.filter (fun x => x <? c) (sort_dedup (elements X)))) = Z.of_nat (size (below X c)).
Proof. rewrite <- descending_len. unfold blen. by rewrite <- below_descending, length_reverse. Qed.

Lemma rank_below (X : gset Z) x (i : nat) : sort_dedup (elements X) !! i = Some x -> Z.of_nat i = Z.of_nat (size (below X x)).
Proof.
  intros Hi. rewrite <- filter_below_size. destruct (sort_dedup_spec (elements X)) as [Hs _]. set (l := sort_dedup (elements X)) in *.
  rewrite (below_prefix l x i), length_take.
  - apply lookup_lt_Some in Hi. lia.
  - intros j y Hy Hj. by apply (sorted_lookup _ _ j i y x Hs Hy Hi).
  - intros j y Hy Hj. destruct (decide (i = j)) as [->|]; [assert (x = y) by congruence; lia|]. pose proof (sorted_lookup _ _ i j x y Hs Hi Hy ltac:(lia)). lia.
Qed.

Section Mints.
Context {O : HashOrder} {OL : HashOrderLaws O}.

Lemma mints_other (l : list (Z * list Z)) x : (forall e, e ∈ l -> x ∉ e.2) -> forall m, foldl (fun m e => rank_ids 0 (merge_sort Z.le e.2) m) m l !! x = m !! x.
Proof.
  induction l as [|e l IH]; intros H m; [done|]. cbn [foldl]. rewrite IH by set_solver. apply rank_ids_other. rewrite merge_sort_Permutation. apply H. set_solver.
Qed.

(** The rank of an asset of one template. *)
Lemma tmpl_mints_in by_tmpl k ids (X : gset Z) x :
  by_tmpl !! k = Some ids -> NoDup ids -> (forall y, y ∈ ids <-> y ∈ X) -> x ∈ X ->
  (forall k' ids', by_tmpl !! k' = Some ids' -> x ∈ ids' -> k' = k) ->
  tmpl_mints by_tmpl !! x = Some (wrap32 (Z.of_nat (size (below X x)) + 1)).
Proof.
  intros Hk Hn He Hx Hu. unfold tmpl_mints. assert (Hin : (k, ids) ∈ hash_order by_tmpl) by (rewrite hash_order_perm; by apply elem_of_map_to_list).
  apply list_elem_of_split in Hin as (l1 & l2 & El).
  assert (Hno : forall e, e ∈ l1 ++ l2 -> x ∉ e.2).
  { intros [k' ids'] Hin Hx'. cbn [snd] in Hx'. assert (Hnd : NoDup (hash_order by_tmpl).*1) by (rewrite hash_order_perm; apply NoDup_fst_map_to_list).
    assert (Hm : by_tmpl !! k' = Some ids') by (apply elem_of_map_to_list; rewrite <- hash_order_perm, El; set_solver).
    pose proof (Hu _ _ Hm Hx') as ->. rewrite El, fmap_app, fmap_cons in Hnd. cbn [fst] in Hnd. apply list.NoDup_app in Hnd as (_ & Hd1 & [Hd2 _]%list.NoDup_cons).
    apply elem_of_app in Hin as [Hin|Hin]; apply (list_elem_of_fmap_2 fst) in Hin; cbn [fst] in Hin; [apply (Hd1 k Hin); set_solver|done]. }
  rewrite El, foldl_app. cbn [foldl snd]. rewrite mints_other by set_solver. rewrite (sort_nodup ids X Hn He). apply sort_elements in Hx.
  apply list_elem_of_lookup_1 in Hx as [i Hi]. rewrite (rank_ids_at _ _ _ i x) by (apply sorted_lt_nodup, sort_dedup_spec || done). by rewrite (rank_below X x i Hi).
Qed.

Lemma tmpl_mints_out by_tmpl x : (forall k ids, by_tmpl !! k = Some ids -> x ∉ ids) -> tmpl_mints by_tmpl !! x = None.
Proof.
  intros H. unfold tmpl_mints. rewrite mints_other; [done|]. intros [k ids] Hin. apply (H k). apply elem_of_map_to_list. by rewrite <- hash_order_perm.
Qed.
End Mints.

(** ** What was pushed *)

(** What a segment carries besides the assets. *)
Record content := mkContent { ct_schemas : list (Z * list (bytes * bytes)); ct_templates : list TemplateRec; ct_colls : list CollectionRec }.

Definition schema_blobs (c : content) : list (Z * bytes) := (fun e => (e.1, encode_schema_format e.2)) <$> ct_schemas c.
Definition template_blobs (c : content) : list (Z * bytes) := (fun t => (template_key (tr_template_id t), encode_template t)) <$> ct_templates c.
Definition coll_blobs (c : content) : list (Z * bytes) := (fun x => (cr_collection x, encode_collection x)) <$> ct_colls c.
Definition asset_blobs (l : list (Z * AssetLive)) : list (Z * bytes) := (fun e => (e.1, encode_asset (rec_of (with_mint 0 e.2)))) <$> l.

(** The ids pushed under a key, in order. *)
Definition ids_of (dim key : Z) (l : list (Z * AssetLive)) : list Z := (List.filter (fun e => bool_decide (live_key e.2 dim = Some key)) l).*1.

Definition by_ok (m : gmap Z (list Z)) (dim : Z) (l : list (Z * AssetLive)) : Prop :=
  forall key, m !! key = match ids_of dim key l with [] => None | ids => Some ids end.

Definition by_dim (b : AtomicBuilder) (dim : Z) : gmap Z (list Z) :=
  if dim =? DIM_OWNER then ab_by_owner b
  else if dim =? DIM_COLL then ab_by_coll b
  else if dim =? DIM_SCHEMA then ab_by_schema b
  else if dim =? DIM_TMPL then ab_by_tmpl b
  else ab_by_data b.

Record built (b : AtomicBuilder) (c : content) (l : list (Z * AssetLive)) : Prop := {
  bu_schemas : laid (ab_schema_fwd b) (schema_blobs c);
  bu_templates : laid (ab_tmpl_fwd b) (template_blobs c);
  bu_colls : laid (ab_coll_fwd b) (coll_blobs c);
  bu_assets : laid (ab_asset_fwd b) (asset_blobs l);
  bu_by dim : is_dim dim -> by_ok (by_dim b dim) dim l;
  bu_ids : ab_all_ids b = l.*1;
  bu_config : ab_config b = None
}.

Lemma built_new fields : built (builder_new fields) (mkContent [] [] []) [].
Proof. split; try apply laid_nil; try done. intros dim _ key. unfold by_dim. by repeat case_match. Qed.

Lemma built_schema b c l k f : built b c l -> built (push_schema_raw k f b) (mkContent (ct_schemas c ++ [(k, f)]) (ct_templates c) (ct_colls c)) l.
Proof.
  intros [H1 H2 H3 H4 H5 H6 H7]. split; try done. unfold schema_blobs. cbn [ct_schemas push_schema_raw ab_schema_fwd]. rewrite fmap_app. by apply laid_push.
Qed.

Lemma built_template b c l t : built b c l -> built (push_template_raw t b) (mkContent (ct_schemas c) (ct_templates c ++ [t]) (ct_colls c)) l.
Proof.
  intros [H1 H2 H3 H4 H5 H6 H7]. split; try done. unfold template_blobs. cbn [ct_templates push_template_raw ab_tmpl_fwd]. rewrite fmap_app. by apply laid_push.
Qed.

Lemma built_collection b c l x : built b c l -> built (push_collection_raw x b) (mkContent (ct_schemas c) (ct_templates c) (ct_colls c ++ [x])) l.
Proof.
  intros [H1 H2 H3 H4 H5 H6 H7]. split; try done. unfold coll_blobs. cbn [ct_colls push_collection_raw ab_coll_fwd]. rewrite fmap_app. by apply laid_push.
Qed.

Lemma ids_of_snoc dim key l id a : ids_of dim key (l ++ [(id, a)]) = ids_of dim key l ++ (if bool_decide (live_key a dim = Some key) then [id] else []).
Proof. unfold ids_of. rewrite List.filter_app, fmap_app. cbn. by destruct (bool_decide _). Qed.

Lemma by_ok_push m dim l id a : by_ok m dim l -> by_ok (match live_key a dim with Some k => entry_push k id m | None => m end) dim (l ++ [(id, a)]).
Proof.
  intros H key. rewrite ids_of_snoc. destruct (live_key a dim) as [k|] eqn:E.
  - unfold entry_push. destruct (decide (k = key)) as [->|Hk].
    + rewrite lookup_insert_eq, bool_decide_eq_true_2 by done. rewrite H. by destruct (ids_of dim key l).
    + rewrite lookup_insert_ne, bool_decide_eq_false_2, app_nil_r by congruence. apply H.
  - rewrite bool_decide_eq_false_2, app_nil_r by done. apply H.
Qed.

(** An asset of the store, as it is pushed. *)
Definition push_live (id : Z) (a : AssetLive) (b : AtomicBuilder) : AtomicBuilder :=
  push_asset_raw id (al_owner a) (al_collection a) (al_schema a) (coll_schema_key (Name.decode (al_collection a)) (Name.decode (al_schema a)))
    (al_template_id a) (al_block_num a) (al_immutable a) (al_mutable a) (match al_facet_key a with Some k => [k] | None => [] end) b.

Lemma built_asset b c l id a : built b c l -> built (push_live id a b) c (l ++ [(id, a)]).
Proof.
  intros [H1 H2 H3 H4 H5 H6 H7]. split; try done.
  - unfold asset_blobs. cbn [push_live push_asset_raw ab_asset_fwd]. rewrite fmap_app. by apply laid_push.
  - intros dim Hd. pose proof (by_ok_push _ _ _ id a (H5 dim Hd)) as H. unfold by_dim, live_key in *.
    cbn [push_live push_asset_raw ab_by_owner ab_by_coll ab_by_schema ab_by_tmpl ab_by_data].
    destruct (dim =? DIM_OWNER); [exact H|]. destruct (dim =? DIM_COLL); [exact H|]. destruct (Z.eqb_spec dim DIM_SCHEMA) as [->|]; [exact H|].
    destruct (dim =? DIM_TMPL); [unfold tmpl_key_of in H; by destruct (0 <=? al_template_id a)|]. by destruct (al_facet_key a).
  - cbn [push_live push_asset_raw ab_all_ids]. by rewrite H6, fmap_app.
Qed.

(** ** Postings as tables *)
Section Tables.
Context {T : Treemap} {L : TreemapLaws T} {O : HashOrder} {OL : HashOrderLaws O}.

Definition posting_blobs (m : gmap Z (list Z)) : list (Z * bytes) := (fun e => (e.1, encode_posting_hybrid e.2)) <$> hash_order m.

Lemma posting_table_laid tid m : exists f, posting_table tid m = into_table tid f /\ laid f (posting_blobs m).
Proof.
  unfold posting_table. assert (H : forall (es : list (Z * list Z)) (f : Fwd) bs, laid f bs ->
    exists f', foldl posting_push (fw_arena f, fw_index f) es = (fw_arena f', fw_index f') /\ laid f' (bs ++ ((fun e => (e.1, encode_posting_hybrid e.2)) <$> es))).
  { induction es as [|e es IH]; intros f bs Hl; [exists f; by rewrite app_nil_r|]. cbn [foldl].
    destruct (IH (fwd_push e.1 (encode_posting_hybrid e.2) f) (bs ++ [(e.1, encode_posting_hybrid e.2)]) (laid_push _ _ _ _ Hl)) as (f' & E & Hl').
    exists f'. split; [exact E|]. rewrite fmap_cons. by rewrite <- app_assoc in Hl'. }
  destruct (H (hash_order m) fwd_default [] laid_nil) as (f & E & Hl). exists f. cbn [fwd_default fw_arena fw_index] in E. rewrite E. done.
Qed.

Lemma hash_find {A} (m : gmap Z A) (g : A -> bytes) key :
  snd <$> List.find (fun e => e.1 =? key) ((fun e => (e.1, g e.2)) <$> hash_order m) = g <$> m !! key.
Proof.
  assert (Hn : NoDup (hash_order m).*1) by (rewrite hash_order_perm; apply NoDup_fst_map_to_list).
  assert (Ef : (((fun e : Z * A => (e.1, g e.2)) <$> hash_order m).*1) = (hash_order m).*1) by (rewrite <- list_fmap_compose; by apply list_fmap_ext).
  destruct (m !! key) as [a|] eqn:E; cbn [fmap option_fmap option_map].
  - rewrite (find_unique fst _ key (key, g a)); [done|by rewrite Ef| |done]. apply list_elem_of_fmap. exists (key, a). split; [done|].
    rewrite hash_order_perm. by apply elem_of_map_to_list.
  - rewrite find_absent; [done|]. intros x (e & -> & He)%list_elem_of_fmap Hk. cbn [fst] in Hk. rewrite hash_order_perm in He. destruct e as [k a].
    apply elem_of_map_to_list in He. cbn [fst] in Hk. congruence.
Qed.

(** ** Reading it back *)

(** A table holds the values [l] under their keys. *)
Definition holds {A} (base : BaseSeg) (tid : Z) (dec : bytes -> out A) (l : list (Z * A)) : Prop :=
  (forall key, exists o, lookup base tid key = Ok o /\
     match o, snd <$> List.find (fun e => e.1 =? key) l with Some b, Some a => dec b = Ok a | None, None => True | _, _ => False end) /\
  (exists es l', for_each_entry base tid = Ok es /\ Forall2 (fun e x => e.1 = x.1 /\ dec e.2 = Ok x.2) es l' /\ l' ≡ₚ l).

Lemma holds_laid {A} base ts tid f (enc : A -> bytes) dec (l : list (Z * A)) :
  serves base ts -> find_table ts tid = Some (into_table tid f) -> laid f ((fun e => (e.1, enc e.2)) <$> l) ->
  small ((fun e => (e.1, enc e.2)) <$> l) -> Forall (fun e => dec (enc e.2) = Ok e.2) l -> holds base tid dec l.
Proof.
  intros Hsv Hf Hl Hs Hd. split.
  - intros key. rewrite (sv_lookup _ _ Hsv), Hf. cbn [mbind option_bind]. rewrite (laid_find tid f _ Hl Hs). eexists. split; [done|].
    clear -Hd. induction Hd as [|[k a] l Ha _ IH]; [done|]. rewrite fmap_cons. cbn. destruct (k =? key); [done|exact IH].
  - rewrite (sv_each _ _ Hsv), Hf. pose proof (laid_each tid f _ Hl Hs) as Hp. cbn [into_table tb_index] in *. apply Permutation_map_inv in Hp as (l' & El & Hp).
    eexists _, l'. split; [done|]. split; [|by symmetry]. rewrite El. assert (Hd' : Forall (fun e => dec (enc e.2) = Ok e.2) l') by (by rewrite <- Hp).
    clear -Hd'. induction Hd' as [|e l Ha _ IH]; cbn; constructor; [by split|exact IH].
Qed.

(** The facet of an asset, by the schemas. *)
Definition facet_of (c : content) (fields : list bytes) (a : AssetLive) : option Z :=
  let coll_s := Name.decode (al_collection a) in
  let sch_s := Name.decode (al_schema a) in
  match snd <$> List.find (fun e => e.1 =? coll_schema_key coll_s sch_s) (ct_schemas c) with
  | Some fmt => facet_loop coll_s sch_s (al_immutable a) (al_mutable a) fmt fields
  | None => None
  end.

(** What may be written: distinct keys, values that fit their encodings, blobs whose length fits. *)
Record content_ok (c : content) : Prop := {
  co_schemas : NoDup (ct_schemas c).*1 /\ Forall is_u64 (ct_schemas c).*1 /\ Forall (fun e => fields_ok e.2) (ct_schemas c) /\ small (schema_blobs c);
  co_templates : NoDup (template_blobs c).*1 /\ Forall template_ok (ct_templates c) /\ small (template_blobs c);
  co_colls : NoDup (coll_blobs c).*1 /\ Forall collection_ok (ct_colls c) /\ small (coll_blobs c)
}.

Record assets_ok (c : content) (fields : list bytes) (S : gmap Z AssetLive) : Prop := {
  sk_ids id : is_Some (S !! id) -> 0 < id <= u64_max;
  sk_rec id a : S !! id = Some a -> asset_ok (rec_of (with_mint 0 a)) /\ blen (encode_asset (rec_of (with_mint 0 a))) < U32;
  sk_facet id a : S !! id = Some a -> al_facet_key a = facet_of c fields a;
  sk_posting dim key : is_dim dim -> blen (encode_posting_hybrid (elements (members S dim key))) < U32;
  sk_size : 4 + 12 * Z.of_nat (size S) < U32
}.

(** The assets with the ranks of their templates. *)
Definition mint_rank (S : gmap Z AssetLive) (id : Z) (a : AssetLive) : Z :=
  match tmpl_key_of (al_template_id a) with
  | Some tk => wrap32 (Z.of_nat (size (below (members S DIM_TMPL tk) id)) + 1)
  | None => 0
  end.

Definition remint (S : gmap Z AssetLive) : gmap Z AssetLive := map_imap (fun id a => Some (with_mint (mint_rank S id a) a)) S.

Lemma remint_lookup S id : remint S !! id = (fun a => with_mint (mint_rank S id a) a) <$> S !! id.
Proof. unfold remint. rewrite map_lookup_imap. by destruct (S !! id). Qed.

Lemma remint_members S dim key : members (remint S) dim key = members S dim key.
Proof. apply set_eq. intros id. rewrite !members_elem, remint_lookup. by destruct (S !! id). Qed.

Lemma remint_dom S : dom (remint S) = dom S.
Proof. apply set_eq. intros id. rewrite !elem_of_dom, remint_lookup. destruct (S !! id); cbn; [|done]. split; eauto. Qed.

Lemma facet_loop_u64 cs ss im mu fmt fs k : facet_loop cs ss im mu fmt fs = Some k -> is_u64 k.
Proof.
  induction fs as [|fld fs IH]; cbn [facet_loop]; [done|]. destruct (position _ fmt); [|done]. destruct (attr_value _ _ _) as [v|]; [|done].
  destruct (facet_value_ok v); [|done]. intros <-%(inj Some). apply data_attr_key_u64.
Qed.

Lemma live_key_u64 c fields S id a dim k : assets_ok c fields S -> S !! id = Some a -> live_key a dim = Some k -> is_u64 k.
Proof.
  intros Hok Ha. destruct (sk_rec _ _ _ Hok id a Ha) as [[H1 H2 _ _ _ _ _ _] _]. cbn [rec_of ar_owner ar_collection] in *. unfold live_key.
  destruct (dim =? DIM_OWNER); [by intros [= <-]|]. destruct (dim =? DIM_COLL); [by intros [= <-]|]. destruct (dim =? DIM_TMPL).
  { unfold tmpl_key_of. destruct (0 <=? _); [|done]. intros [= <-]. apply template_key_u64. }
  destruct (dim =? DIM_SCHEMA); [intros <-%(inj Some); apply coll_schema_key_u64|]. rewrite (sk_facet _ _ _ Hok id a Ha). unfold facet_of. destruct (snd <$> _); [apply facet_loop_u64|done].
Qed.

(** The schemas, templates and collections of a base, and its assets. *)
Definition template_list (c : content) : list (Z * TemplateRec) := (fun t => (template_key (tr_template_id t), t)) <$> ct_templates c.
Definition coll_list (c : content) : list (Z * CollectionRec) := (fun x => (cr_collection x, x)) <$> ct_colls c.
Definition record_list (S : gmap Z AssetLive) : list (Z * AssetRec) := (fun e => (e.1, rec_of e.2)) <$> map_to_list S.

Record carries (base : BaseSeg) (c : content) (S : gmap Z AssetLive) : Prop := {
  ca_schemas : holds base TABLE_AA_SCHEMAS decode_schema_format (ct_schemas c);
  ca_templates : holds base TABLE_AA_TMPL_FWD decode_template (template_list c);
  ca_colls : holds base TABLE_AA_COLL_FWD decode_collection (coll_list c);
  ca_assets : holds base TABLE_AA_FWD decode_asset (record_list S)
}.

Lemma find_perm {A} (l l' : list (Z * A)) key : NoDup l.*1 -> l ≡ₚ l' -> List.find (fun e => e.1 =? key) l = List.find (fun e => e.1 =? key) l'.
Proof.
  intros Hn Hp. destruct (List.find _ l') as [x|] eqn:E.
  - apply List.find_some in E as [Hx Hk]. apply list_elem_of_In in Hx. apply Z.eqb_eq in Hk. rewrite (find_unique fst l key x); [done|done| |done]. by rewrite Hp.
  - apply (find_absent fst). intros x Hx Hk. rewrite Hp in Hx. apply list_elem_of_In in Hx. pose proof (List.find_none _ _ E x Hx) as H. cbn in H. lia.
Qed.

Lemma holds_perm {A} base tid (dec : bytes -> out A) l l' : NoDup l.*1 -> l ≡ₚ l' -> holds base tid dec l -> holds base tid dec l'.
Proof.
  intros Hn Hp [H1 (es & k & H2 & H3 & H4)]. split.
  - intros key. rewrite <- (find_perm l l') by done. apply H1.
  - exists es, k. split; [done|]. split; [done|]. by rewrite H4.
Qed.

Section Written.
Context (b : AtomicBuilder) (c : content) (S : gmap Z AssetLive) (l : list (Z * AssetLive)) (fields : list bytes).
Context (Hb : built b c l) (Hl : l ≡ₚ map_to_list S) (Hc : content_ok c) (Ha : assets_ok c fields S).

Lemma pushed_elem id a : (id, a) ∈ l <-> S !! id = Some a.
Proof. rewrite Hl. apply elem_of_map_to_list. Qed.

Lemma pushed_nodup : NoDup l.*1.
Proof. rewrite Hl. apply NoDup_fst_map_to_list. Qed.

Lemma ids_of_elem dim key id : id ∈ ids_of dim key l <-> id ∈ members S dim key.
Proof.
  unfold ids_of. rewrite members_elem, list_elem_of_fmap. split.
  - intros ([i a] & -> & Hin). apply list_elem_of_In, List.filter_In in Hin as [Hin Hk]. apply list_elem_of_In, pushed_elem in Hin. apply bool_decide_eq_true in Hk. cbn [fst]. by rewrite Hin.
  - destruct (S !! id) as [a|] eqn:E; [|done]. intros Hk. exists (id, a). split; [done|]. apply list_elem_of_In, List.filter_In. split; [apply list_elem_of_In; by apply pushed_elem|].
    by apply bool_decide_eq_true.
Qed.

Lemma ids_of_nodup dim key : NoDup (ids_of dim key l).
Proof.
  unfold ids_of. pose proof pushed_nodup as Hn. clear -Hn. induction l as [|e k IH]; [constructor|]. rewrite fmap_cons in Hn. apply list.NoDup_cons in Hn as [He Hn].
  cbn. destruct (bool_decide _); [|by apply IH]. rewrite fmap_cons. constructor; [|by apply IH]. intros (x & E & Hx)%list_elem_of_fmap. apply He. rewrite E.
  apply list_elem_of_fmap_2. apply list_elem_of_In in Hx. apply List.filter_In in Hx as [Hx _]. by apply list_elem_of_In.
Qed.

Lemma members_u64 dim key : Forall is_u64 (ids_of dim key l).
Proof.
  apply list.Forall_forall. intros id Hid%ids_of_elem%members_elem. assert (is_Some (S !! id)) as H by (by destruct (S !! id)). pose proof (sk_ids _ _ _ Ha id H). width_lia.
Qed.

(** The blob of a posting does not depend on the order of its ids. *)
Lemma posting_canonical (ids ids' : list Z) : (forall x, x ∈ ids <-> x ∈ ids') -> encode_posting_hybrid ids = encode_posting_hybrid ids'.
Proof.
  intros H. assert (E : sort_dedup ids = sort_dedup ids') by (apply sorted_ext; try apply sort_dedup_spec; intros x; by rewrite !(proj2 (sort_dedup_spec _))).
  unfold encode_posting_hybrid. by rewrite E.
Qed.

Lemma by_lookup dim key : is_dim dim -> by_dim b dim !! key = if decide (members S dim key = ∅) then None else Some (ids_of dim key l).
Proof.
  intros Hd. rewrite (bu_by _ _ _ Hb dim Hd). pose proof (ids_of_elem dim key) as He. destruct (decide _) as [E|E]; destruct (ids_of dim key l) as [|x ids]; try done.
  - specialize (He x). rewrite E in He. set_solver.
  - destruct E. apply set_eq. intros x. rewrite <- He. set_solver.
Qed.

Lemma by_small dim : is_dim dim -> small (posting_blobs (by_dim b dim)).
Proof.
  intros Hd. apply list.Forall_forall. intros e ([k ids] & -> & Hin)%list_elem_of_fmap. cbn [fst snd]. rewrite hash_order_perm in Hin. apply elem_of_map_to_list in Hin.
  rewrite by_lookup in Hin by done. destruct (decide _); [done|]. injection Hin as <-. rewrite (posting_canonical _ (elements (members S dim k))).
  - by apply (sk_posting _ _ _ Ha).
  - intros x. by rewrite ids_of_elem, elem_of_elements.
Qed.

Lemma posting_table_ok tid dim : is_u32 tid -> is_dim dim -> table_ok (posting_table tid (by_dim b dim)).
Proof.
  intros Ht Hd. destruct (posting_table_laid tid (by_dim b dim)) as (f & -> & Hf).
  assert (E1 : (posting_blobs (by_dim b dim)).*1 = (hash_order (by_dim b dim)).*1) by (unfold posting_blobs; rewrite <- list_fmap_compose; by apply list_fmap_ext).
  apply (laid_table_ok tid f _ Hf (by_small dim Hd) Ht); rewrite E1, hash_order_perm; [apply NoDup_fst_map_to_list|].
  apply list.Forall_forall. intros k ([k' ids] & -> & Hin)%list_elem_of_fmap. apply elem_of_map_to_list in Hin. cbn [fst]. rewrite by_lookup in Hin by done.
  destruct (decide _) as [E|E]; [done|]. apply set_choose_L in E as [id Hid]. apply members_elem in Hid. destruct (S !! id) as [a|] eqn:Ea; [|done]. by apply (live_key_u64 c fields S id a dim k').
Qed.

(** The posting of a key, read back. *)
Lemma posting_read tid dim key base ts : is_dim dim -> serves base ts -> find_table ts tid = Some (posting_table tid (by_dim b dim)) ->
  exists o, lookup base tid key = Ok o /\ posting_of o (members S dim key).
Proof.
  intros Hd Hsv Hf. rewrite (sv_lookup _ _ Hsv), Hf. cbn [mbind option_bind]. destruct (posting_table_laid tid (by_dim b dim)) as (f & -> & Hfl).
  rewrite (laid_find tid f _ Hfl (by_small dim Hd)). unfold posting_blobs. rewrite hash_find, by_lookup by done. eexists. split; [done|]. destruct (decide _) as [E|E]; [done|]. cbn.
  destruct (posting_posts (ids_of dim key l) (members_u64 dim key)) as (p & Hp & Hps).
  - rewrite (sorted_ext (sort_dedup (ids_of dim key l)) (sort_dedup (elements (members S dim key)))).
    + rewrite sort_elements_len. pose proof (sk_size _ _ _ Ha). assert (size (members S dim key) <= size S)%nat; [|lia].
      rewrite <- (size_dom (D := gset Z) S). apply subseteq_size. unfold members. apply dom_filter_subseteq.
    + apply sort_dedup_spec.
    + apply sort_dedup_spec.
    + intros x. by rewrite (proj2 (sort_dedup_spec _)), ids_of_elem, sort_elements.
  - exists p. split; [done|]. replace (sort_dedup (elements (members S dim key))) with (sort_dedup (ids_of dim key l)); [done|].
    apply sorted_ext; try apply sort_dedup_spec. intros x. by rewrite (proj2 (sort_dedup_spec _)), ids_of_elem, sort_elements.
Qed.

(** The mints that are filled in. *)
Lemma mints_lookup id a : S !! id = Some a -> tmpl_mints (ab_by_tmpl b) !! id =
  match tmpl_key_of (al_template_id a) with Some _ => Some (mint_rank S id a) | None => None end.
Proof.
  intros Hid. change (ab_by_tmpl b) with (by_dim b DIM_TMPL). unfold mint_rank.
  assert (Hk : key_in (S !! id) DIM_TMPL = tmpl_key_of (al_template_id a)) by (by rewrite Hid). destruct (tmpl_key_of (al_template_id a)) as [tk|].
  - assert (Hm : id ∈ members S DIM_TMPL tk) by (by apply members_elem). apply (tmpl_mints_in _ tk (ids_of DIM_TMPL tk l)); [|apply ids_of_nodup|apply ids_of_elem|done|].
    + rewrite by_lookup by done. rewrite decide_False; [done|]. set_solver.
    + intros k' ids'. rewrite by_lookup by done. destruct (decide _); [done|]. intros [= <-] Hx%ids_of_elem%members_elem. congruence.
  - apply tmpl_mints_out. intros k ids. rewrite by_lookup by done. destruct (decide _); [done|]. intros [= <-] Hx%ids_of_elem%members_elem. congruence.
Qed.

Lemma mints_size : (size (tmpl_mints (ab_by_tmpl b)) <= size S)%nat.
Proof.
  rewrite <- !(size_dom (D := gset Z)). apply subseteq_size. intros id. rewrite !elem_of_dom. intros [m Hm]. destruct (S !! id) as [a|] eqn:E; [done|]. exfalso.
  change (ab_by_tmpl b) with (by_dim b DIM_TMPL) in Hm. rewrite tmpl_mints_out in Hm; [done|]. intros k ids. rewrite by_lookup by done. destruct (decide _); [done|].
  intros [= <-] Hx%ids_of_elem%members_elem. by rewrite E in Hx.
Qed.

Definition final_blobs : list (Z * bytes) := (fun e => (e.1, encode_asset (rec_of (with_mint (mint_rank S e.1 e.2) e.2)))) <$> l.

Lemma patched_final : patched (tmpl_mints (ab_by_tmpl b)) <$> asset_blobs l = final_blobs.
Proof.
  unfold asset_blobs, final_blobs. rewrite <- list_fmap_compose. apply list_fmap_ext. intros i [id a] Hi. apply list_elem_of_lookup_2, pushed_elem in Hi. unfold compose, patched. cbn [fst snd].
  rewrite (mints_lookup id a Hi). unfold mint_rank. destruct (tmpl_key_of _); [by rewrite patch33_asset|done].
Qed.

Lemma asset_len m a : blen (encode_asset (rec_of (with_mint m a))) = blen (encode_asset (rec_of a)).
Proof. unfold encode_asset. rewrite !blen_app, !blen_le_bytes. done. Qed.

Lemma final_small : small final_blobs.
Proof.
  apply list.Forall_forall. intros e ([id a] & -> & Hin)%list_elem_of_fmap. cbn [fst snd]. rewrite asset_len, <- (asset_len 0). apply pushed_elem in Hin. apply (sk_rec _ _ _ Ha id a Hin).
Qed.

Lemma final_patch : exists arena, patch_mints (tmpl_mints (ab_by_tmpl b)) (fw_index (ab_asset_fwd b)) (fw_arena (ab_asset_fwd b)) = Ok arena /\
  laid (mkFwd arena (fw_index (ab_asset_fwd b))) final_blobs.
Proof.
  destruct (bu_assets _ _ _ Hb) as [Ea Ei].
  assert (Hlong : Forall (fun e => 37 <= blen e.2) (asset_blobs l)) by (apply list.Forall_forall; intros e (x & -> & _)%list_elem_of_fmap; apply encode_asset_long).
  rewrite Ea, Ei. pose proof (patch_ok (tmpl_mints (ab_by_tmpl b)) (asset_blobs l) Hlong []) as Hp. cbn [app] in Hp. change (blen []) with 0 in Hp. rewrite Hp. eexists. split; [done|].
  rewrite <- patched_final. split; cbn [fw_arena fw_index]; [done|]. by rewrite index_patched.
Qed.

Lemma final_keys : final_blobs.*1 = l.*1.
Proof. unfold final_blobs. rewrite <- list_fmap_compose. by apply list_fmap_ext. Qed.

Lemma ids_u64 : Forall is_u64 l.*1.
Proof.
  apply list.Forall_forall. intros id ([i a] & -> & Hin)%list_elem_of_fmap. apply pushed_elem in Hin. cbn [fst]. pose proof (sk_ids _ _ _ Ha i ltac:(by rewrite Hin)). width_lia.
Qed.

(** ** Tables of one entry *)

Lemma sentinel_table_ok tid arena : is_u32 tid -> blen arena < U32 -> table_ok (sentinel_table tid arena).
Proof.
  intros Ht Hs. pose proof (blen_nonneg arena). split; cbn [sentinel_table tb_id tb_index tb_arena]; [done|repeat constructor; set_solver|].
  constructor; [|constructor]. unfold entry_ok. cbn [ie_key ie_off ie_len]. rewrite wrap32_id by lia. split; [done|]. split; [lia|]. split; [width_lia|lia].
Qed.

Lemma sentinel_read base ts tid arena : serves base ts -> find_table ts tid = Some (sentinel_table tid arena) -> blen arena < U32 -> sentinel_blob base tid = Ok (Some arena).
Proof.
  intros Hsv Hf Hs. rewrite (sv_sentinel _ _ Hsv tid _ _ Hf eq_refl). unfold entry_blob. cbn [ie_off ie_len sentinel_table tb_arena]. pose proof (blen_nonneg arena).
  rewrite wrap32_id by lia. unfold blen. rewrite Nat2Z.id, drop_0, take_ge by done. done.
Qed.

Lemma all_ids_sorted : sort_dedup (ab_all_ids b) = sort_dedup (elements (dom S : gset Z)).
Proof.
  rewrite (bu_ids _ _ _ Hb). apply sorted_ext; try apply sort_dedup_spec. intros x. rewrite (proj2 (sort_dedup_spec _)), sort_elements, elem_of_dom. rewrite Hl, list_elem_of_fmap. split.
  - intros ([i a] & -> & Hin%elem_of_map_to_list). cbn. by rewrite Hin.
  - intros [a Hx]. exists (x, a). split; [done|]. by apply elem_of_map_to_list.
Qed.

Definition id_arena : bytes := le_bytes 4 (Z.of_nat (size S)) ++ concat (le_bytes 8 <$> descending (dom S : gset Z)).

Lemma id_sorted_table : id_sorted (ab_all_ids b) = sentinel_table TABLE_AA_SORTED_ID id_arena.
Proof.
  unfold id_sorted, id_arena. rewrite all_ids_sorted. do 2 f_equal. rewrite sort_elements_len. by rewrite size_dom.
Qed.

Lemma id_arena_len : blen id_arena = 4 + 8 * Z.of_nat (size S).
Proof.
  unfold id_arena. rewrite blen_app, blen_le_bytes, (blen_concat (le_bytes 8) 8) by (intros; by rewrite blen_le_bytes). rewrite descending_len, size_dom. lia.
Qed.

Lemma id_arena_presorted : presorted (Some id_arena) (dom (remint S)).
Proof.
  rewrite remint_dom. pose proof (sk_size _ _ _ Ha) as Hs. split.
  - rewrite size_dom. apply (rdu32_slice _ 0 (Z.of_nat (size S))); [|done|width_lia]. unfold id_arena. apply (slice_mid [] (le_bytes 4 _)); [done|by rewrite blen_le_bytes].
  - intros k id Hk. assert (Hid : is_u64 id).
    { assert (Hin : id ∈ descending (dom S : gset Z)) by (by eapply list_elem_of_lookup_2). apply descending_elem, elem_of_dom in Hin. pose proof (sk_ids _ _ _ Ha id Hin). width_lia. }
    apply (rdu64_slice _ _ id); [|done|done]. unfold id_arena. rewrite slice_app_r by (rewrite blen_le_bytes; lia). rewrite blen_le_bytes.
    replace (4 + Z.of_nat k * 8 - Z.of_nat 4) with (8 * Z.of_nat k) by lia. apply (concat_slice (le_bytes 8) 8); [intros; by rewrite blen_le_bytes|done].
Qed.

Lemma tmpl_sorted_table : exists arena, tmpl_sorted (tmpl_mints (ab_by_tmpl b)) = sentinel_table TABLE_AA_SORTED_TMPL arena /\ blen arena < U32.
Proof.
  unfold tmpl_sorted. eexists. split; [done|]. rewrite blen_app, blen_le_bytes, (blen_concat _ 12) by (intros; by rewrite blen_app, !blen_le_bytes).
  pose proof (sk_size _ _ _ Ha) as Hs. pose proof mints_size as Hm. unfold blen. rewrite merge_sort_Permutation, length_fmap, hash_order_perm, length_map_to_list. lia.
Qed.

(** [finish] does not panic. *)
Lemma finish_total : exists ts st, finish_tables b = Ok ts /\ finish b = Ok (st, write_segment ts).
Proof.
  destruct final_patch as (arena & Hp & _). unfold finish, finish_tables. rewrite Hp. cbn [rbind]. eexists _, _. split; reflexivity.
Qed.

Context (ts : list Table) (Hts : finish_tables b = Ok ts).

Lemma finish_shape : exists f arena, ts =
  [into_table TABLE_AA_FWD f; into_table TABLE_AA_TMPL_FWD (ab_tmpl_fwd b); into_table TABLE_AA_SCHEMAS (ab_schema_fwd b);
   into_table TABLE_AA_COLL_FWD (ab_coll_fwd b); posting_table TABLE_AA_BY_OWNER (by_dim b DIM_OWNER); posting_table TABLE_AA_BY_COLL (by_dim b DIM_COLL);
   posting_table TABLE_AA_BY_SCHEMA (by_dim b DIM_SCHEMA); posting_table TABLE_AA_BY_TMPL (by_dim b DIM_TMPL); posting_table TABLE_AA_DATA_ATTR (by_dim b DIM_FACET);
   sentinel_table TABLE_AA_SORTED_ID id_arena; sentinel_table TABLE_AA_SORTED_TMPL arena] /\ laid f final_blobs /\ blen arena < U32.
Proof.
  destruct final_patch as (ar & Hp & Hf). destruct tmpl_sorted_table as (ta & Et & Hta). unfold finish_tables in Hts. rewrite Hp in Hts. cbn [rbind] in Hts.
  rewrite id_sorted_table, Et, (bu_config _ _ _ Hb), app_nil_r in Hts. injection Hts as <-. eexists _, ta. split; [reflexivity|]. done.
Qed.

Lemma posting_table_id tid (m : gmap Z (list Z)) : tb_id (posting_table tid m) = tid.
Proof. destruct (posting_table_laid tid m) as (f & -> & _). done. Qed.

Lemma finish_ids : tb_id <$> ts = [TABLE_AA_FWD; TABLE_AA_TMPL_FWD; TABLE_AA_SCHEMAS; TABLE_AA_COLL_FWD; TABLE_AA_BY_OWNER; TABLE_AA_BY_COLL; TABLE_AA_BY_SCHEMA;
  TABLE_AA_BY_TMPL; TABLE_AA_DATA_ATTR; TABLE_AA_SORTED_ID; TABLE_AA_SORTED_TMPL].
Proof. destruct finish_shape as (f & ar & -> & _). cbn [fmap list_fmap]. rewrite !posting_table_id. done. Qed.

Lemma finish_nodup : NoDup (tb_id <$> ts).
Proof. rewrite finish_ids. apply (bool_decide_unpack _). vm_compute. done. Qed.

Lemma finish_find t : t ∈ ts -> find_table ts (tb_id t) = Some t.
Proof. intros Ht. by apply (find_unique tb_id ts _ t finish_nodup Ht). Qed.

Lemma finish_tables_ok : blen (write_segment ts) < 2 ^ 63 -> tables_ok ts.
Proof.
  intros Hsize. split; [apply finish_nodup| | |done].
  - destruct finish_shape as (f & ar & -> & Hf & Hta). destruct (co_schemas _ Hc) as (S1 & S2 & S3 & S4). destruct (co_templates _ Hc) as (T1 & T2 & T3).
    destruct (co_colls _ Hc) as (C1 & C2 & C3). pose proof (sk_size _ _ _ Ha) as Hs. repeat apply Forall_cons_2; [..|constructor].
    + apply (laid_table_ok _ _ _ Hf final_small); [done| |]; rewrite final_keys; [apply pushed_nodup|apply ids_u64].
    + apply (laid_table_ok _ _ _ (bu_templates _ _ _ Hb) T3); [done|done|]. apply list.Forall_forall. unfold template_blobs. rewrite <- list_fmap_compose.
      intros k (t & -> & _)%list_elem_of_fmap. apply template_key_u64.
    + assert (Es : (schema_blobs c).*1 = (ct_schemas c).*1) by (unfold schema_blobs; rewrite <- list_fmap_compose; by apply list_fmap_ext).
      apply (laid_table_ok _ _ _ (bu_schemas _ _ _ Hb) S4); [done|by rewrite Es|by rewrite Es].
    + apply (laid_table_ok _ _ _ (bu_colls _ _ _ Hb) C3); [done|done|]. apply list.Forall_forall. unfold coll_blobs. rewrite <- list_fmap_compose.
      intros k (t & -> & Hin)%list_elem_of_fmap. rewrite list.Forall_forall in C2. apply (co_collection _ (C2 t Hin)).
    + apply posting_table_ok; split; vm_compute; congruence.
    + apply posting_table_ok; split; vm_compute; congruence.
    + apply posting_table_ok; split; vm_compute; congruence.
    + apply posting_table_ok; split; vm_compute; congruence.
    + apply posting_table_ok; split; vm_compute; congruence.
    + apply sentinel_table_ok; [done|]. rewrite id_arena_len. lia.
    + by apply sentinel_table_ok.
  - destruct finish_shape as (f & ar & -> & _). done.
Qed.

Context (base : BaseSeg) (Hsv : serves base ts).

Lemma finish_posting dim key : is_dim dim -> exists o, lookup base (table_for_dim dim) key = Ok o /\ posting_of o (members S dim key).
Proof.
  intros Hd. apply (posting_read (table_for_dim dim) dim key base ts Hd Hsv). rewrite <- (posting_table_id (table_for_dim dim) (by_dim b dim)) at 1. apply finish_find.
  destruct finish_shape as (f & ar & -> & _). unfold is_dim in Hd. assert (dim = 0 \/ dim = 1 \/ dim = 2 \/ dim = 3 \/ dim = 4) as [->|[->|[->|[->| ->]]]] by lia; set_solver.
Qed.

Lemma blob_bound {A} (enc : A -> bytes) (l' : list (Z * A)) e : small ((fun e => (e.1, enc e.2)) <$> l') -> e ∈ l' -> blen (enc e.2) < U64.
Proof.
  intros Hs He. unfold small in Hs. rewrite list.Forall_forall in Hs. specialize (Hs (e.1, enc e.2)). cbn [snd] in Hs.
  assert (blen (enc e.2) < U32); [|width_lia]. apply Hs. apply list_elem_of_fmap. by exists e.
Qed.

Lemma final_asset_ok m a id : S !! id = Some a -> is_u32 m -> asset_ok (rec_of (with_mint m a)).
Proof. intros Hid Hm. destruct (sk_rec _ _ _ Ha id a Hid) as [[H1 H2 H3 H4 H5 H6 H7 H8] _]. by split. Qed.

Lemma mint_rank_u32 id a : is_u32 (mint_rank S id a).
Proof. unfold mint_rank. destruct (tmpl_key_of _); [|done]. unfold wrap32, is_u32. apply Z.mod_pos_bound. done. Qed.

Definition final_list : list (Z * AssetRec) := (fun e => (e.1, rec_of (with_mint (mint_rank S e.1 e.2) e.2))) <$> l.

Lemma final_list_keys : final_list.*1 = l.*1.
Proof. unfold final_list. rewrite <- list_fmap_compose. by apply list_fmap_ext. Qed.

Lemma final_list_perm : final_list ≡ₚ record_list (remint S).
Proof.
  apply NoDup_Permutation.
  - apply (NoDup_fmap_1 fst). rewrite final_list_keys. apply pushed_nodup.
  - apply (NoDup_fmap_1 fst). unfold record_list. rewrite <- list_fmap_compose. apply NoDup_fst_map_to_list.
  - intros [id r]. unfold final_list, record_list. rewrite !list_elem_of_fmap. split.
    + intros ([i a] & [= -> ->] & Hin%pushed_elem). exists (i, with_mint (mint_rank S i a) a). split; [done|]. apply elem_of_map_to_list. rewrite remint_lookup, Hin. done.
    + intros ([i a] & [= -> ->] & Hin%elem_of_map_to_list). rewrite remint_lookup in Hin. destruct (S !! i) as [a'|] eqn:E; [|done]. injection Hin as <-.
      exists (i, a'). split; [done|]. by apply pushed_elem.
Qed.

Lemma finish_carries : carries base c (remint S).
Proof.
  destruct finish_shape as (f & ar & Ets & Hf & Hta). pose proof finish_find as Hfind. destruct (co_schemas _ Hc) as (S1 & S2 & S3 & S4). destruct (co_templates _ Hc) as (T1 & T2 & T3).
  destruct (co_colls _ Hc) as (C1 & C2 & C3). split.
  - apply (holds_laid base ts _ (ab_schema_fwd b) encode_schema_format); [done| |apply (bu_schemas _ _ _ Hb)|done|].
    + apply (Hfind (into_table TABLE_AA_SCHEMAS (ab_schema_fwd b))). rewrite Ets. set_solver.
    + rewrite list.Forall_forall in S3 |- *. intros e He. apply schema_roundtrip; [by apply S3|]. by apply (blob_bound encode_schema_format (ct_schemas c)).
  - assert (E : template_blobs c = (fun e => (e.1, encode_template e.2)) <$> template_list c) by (unfold template_blobs, template_list; by rewrite <- list_fmap_compose).
    apply (holds_laid base ts _ (ab_tmpl_fwd b) encode_template); [done| |rewrite <- E; apply (bu_templates _ _ _ Hb)|by rewrite <- E|].
    + apply (Hfind (into_table TABLE_AA_TMPL_FWD (ab_tmpl_fwd b))). rewrite Ets. set_solver.
    + rewrite list.Forall_forall in T2. apply list.Forall_forall. intros e He. apply template_roundtrip; [|rewrite E in T3; by apply (blob_bound encode_template (template_list c))].
      apply list_elem_of_fmap in He as (t & -> & Ht). by apply T2.
  - assert (E : coll_blobs c = (fun e => (e.1, encode_collection e.2)) <$> coll_list c) by (unfold coll_blobs, coll_list; by rewrite <- list_fmap_compose).
    apply (holds_laid base ts _ (ab_coll_fwd b) encode_collection); [done| |rewrite <- E; apply (bu_colls _ _ _ Hb)|by rewrite <- E|].
    + apply (Hfind (into_table TABLE_AA_COLL_FWD (ab_coll_fwd b))). rewrite Ets. set_solver.
    + rewrite list.Forall_forall in C2. apply list.Forall_forall. intros e He. apply collection_roundtrip; [|rewrite E in C3; by apply (blob_bound encode_collection (coll_list c))].
      apply list_elem_of_fmap in He as (t & -> & Ht). by apply C2.
  - assert (E : final_blobs = (fun e => (e.1, encode_asset e.2)) <$> final_list) by (unfold final_blobs, final_list; by rewrite <- list_fmap_compose).
    pose proof final_small as Hs. apply (holds_perm _ _ _ final_list); [rewrite final_list_keys; apply pushed_nodup|apply final_list_perm|].
    apply (holds_laid base ts _ f encode_asset); [done| |by rewrite <- E|by rewrite <- E|].
    + apply (Hfind (into_table TABLE_AA_FWD f)). rewrite Ets. set_solver.
    + apply list.Forall_forall. intros e He. apply asset_roundtrip; [|rewrite E in Hs; by apply (blob_bound encode_asset final_list)].
      apply list_elem_of_fmap in He as ([id a] & -> & Hin%pushed_elem). apply (final_asset_ok _ a id Hin). apply mint_rank_u32.
Qed.

Lemma finish_sorted : sentinel_blob base TABLE_AA_SORTED_ID = Ok (Some id_arena).
Proof.
  destruct finish_shape as (f & ar & Ets & _). pose proof (sk_size _ _ _ Ha). apply (sentinel_read base ts _ _ Hsv); [|rewrite id_arena_len; lia].
  apply (finish_find (sentinel_table TABLE_AA_SORTED_ID id_arena)). rewrite Ets. set_solver.
Qed.

(** A store over the file. *)
Lemma finish_from_base : exists seg, from_base base fields = Ok seg /\ ls_base seg = base /\ ls_facet_fields seg = fields.
Proof.
  unfold from_base. rewrite finish_sorted. cbn [rbind]. destruct id_arena_presorted as [-> Hk]. cbn [rbind]. rewrite remint_dom in Hk |- *. rewrite size_dom.
  destruct (Z.ltb_spec 0 (Z.of_nat (size S))) as [H|H]; [|cbn [rbind]; by eexists].
  destruct (lookup_lt_is_Some_2 (descending (dom S : gset Z)) 0) as [id Hid].
  { pose proof (descending_len (dom S : gset Z)) as E. rewrite size_dom in E. unfold blen in E. lia. }
  change 4 with (4 + Z.of_nat 0 * 8). rewrite (Hk 0%nat id Hid). cbn [rbind]. by eexists.
Qed.

Lemma finish_base_ok seg : ls_base seg = base -> ls_facet_fields seg = fields -> base_ok seg (remint S).
Proof.
  intros E1 E2. split.
  - intros id. unfold decode_base_live. rewrite E1. destruct (proj1 (ca_assets _ _ _ finish_carries) id) as (o & -> & Ho). cbn [rbind].
    assert (Hf : snd <$> List.find (fun e => e.1 =? id) (record_list (remint S)) = rec_of <$> remint S !! id).
    { destruct (remint S !! id) as [a|] eqn:E; cbn [fmap option_fmap option_map].
      - rewrite (find_unique fst _ id (id, rec_of a)); [done|unfold record_list; rewrite <- list_fmap_compose; apply NoDup_fst_map_to_list| |done].
        apply list_elem_of_fmap. exists (id, a). split; [done|]. by apply elem_of_map_to_list.
      - rewrite (find_absent fst); [done|]. intros x ([k a] & -> & Hin%elem_of_map_to_list)%list_elem_of_fmap Hk. cbn [fst] in Hk. congruence. }
    rewrite Hf in Ho. rewrite remint_lookup in Ho |- *. destruct (S !! id) as [a|] eqn:Ea, o as [blob|]; try done. cbn [fmap option_fmap option_map] in Ho |- *. rewrite Ho. cbn [rbind].
    unfold facet_key_of. rewrite E1. cbn [rec_of with_mint ar_collection ar_schema ar_immutable ar_mutable al_collection al_schema al_immutable al_mutable].
    destruct (proj1 (ca_schemas _ _ _ finish_carries) (coll_schema_key (Name.decode (al_collection a)) (Name.decode (al_schema a)))) as (o & -> & Hs). cbn [rbind].
    pose proof (sk_facet _ _ _ Ha id a Ea) as Hfa. unfold facet_of in Hfa. destruct (snd <$> List.find _ (ct_schemas c)) as [fmt|], o as [fb|]; try done.
    + rewrite Hs. cbn [rbind]. rewrite E2, <- Hfa. done.
    + cbn [rbind]. unfold with_mint. by rewrite Hfa.
  - intros dim key Hd. rewrite E1, remint_members. by apply finish_posting.
  - rewrite E1, finish_sorted. exists (Some id_arena). split; [done|apply id_arena_presorted].
  - intros id. rewrite remint_lookup. intros [a Hx]. apply (sk_ids _ _ _ Ha). destruct (S !! id); [done|done].
  - pose proof (sk_size _ _ _ Ha). rewrite <- (size_dom (D := gset Z)), remint_dom, size_dom. lia.
Qed.
End Written.
End Tables.
