(* ===== verification/CompactFacts.v ===== *)
(** * Compaction

    [compact_with] folds the overlay into a new segment. The new base holds the assets the store has, each once, with
    the ranks of their templates as mints; the schemas, the templates and the collections are carried over. *)

From stdpp Require Import sorting.
From S2P Require Import Prelude.
From S2P Require Import Segment.
From S2P Require Import AtomicKeys.
From S2P Require Import AtomicRecords.
From S2P Require Import Postings.
From S2P Require Import Live.
From S2P Require Import LiveFacts.
From S2P Require Import LiveQueries.
From S2P Require Import Builder.
From S2P Require Import BuilderFacts.

#[local] Opaque coll_schema_key data_attr_key Name.decode.

(** ** Walking a table *)

Lemma walk_decoded {A B} (dec : bytes -> out B) (g : Z -> B -> A -> A) (f : Z -> bytes -> A -> out A) es (l : list (Z * B)) :
  (forall k blob a, f k blob a = let? x := dec blob in Ok (g k x a)) ->
  Forall2 (fun e x => e.1 = x.1 /\ dec e.2 = Ok x.2) es l -> forall a, walk_entries f es a = Ok (foldl (fun a x => g x.1 x.2 a) a l).
Proof.
  intros Hf. induction 1 as [|[k blob] [k' x] es l [Hk Hd] _ IH]; intros a; [done|]. cbn [fst snd] in *. cbn [walk_entries foldl fst snd].
  rewrite Hf, Hd. cbn [rbind]. rewrite IH. by rewrite Hk.
Qed.

(** The index of the facet in each schema. *)
Definition facet_index (fld : bytes) (l : list (Z * list (bytes * bytes))) : gmap Z Z :=
  foldl (fun m x => match position (fun f => bool_decide (f.1 = fld)) x.2 with Some p => <[x.1 := Z.of_nat p mod 65536]> m | None => m end) ∅ l.

Lemma facet_index_lookup fld l key : NoDup l.*1 ->
  facet_index fld l !! key = (snd <$> List.find (fun e => e.1 =? key) l) ≫= fun fmt => (fun p => Z.of_nat p mod 65536) <$> position (fun f => bool_decide (f.1 = fld)) fmt.
Proof.
  unfold facet_index. assert (H : forall m : gmap Z Z, NoDup l.*1 -> foldl (fun (m : gmap Z Z) x => match position (fun f => bool_decide (f.1 = fld)) x.2 with Some p => <[x.1 := Z.of_nat p mod 65536]> m | None => m end) m l !! key
    = match List.find (fun e => e.1 =? key) l with
      | Some e => match position (fun f => bool_decide (f.1 = fld)) e.2 with Some p => Some (Z.of_nat p mod 65536) | None => m !! key end
      | None => m !! key end).
  { induction l as [|[k fmt] l IH]; intros m Hn; [done|]. rewrite fmap_cons in Hn. apply list.NoDup_cons in Hn as [Hk Hn]. cbn [fst] in Hk. cbn [foldl fst snd List.find]. rewrite IH by done.
    destruct (Z.eqb_spec k key) as [->|Hne].
    - rewrite (find_absent fst); [|intros e He E; apply Hk; rewrite <- E; by apply list_elem_of_fmap_2]. cbn [snd]. destruct (position _ fmt); [by rewrite lookup_insert_eq|done].
    - assert (E : (match position (fun f => bool_decide (f.1 = fld)) fmt with Some p => <[k := Z.of_nat p mod 65536]> m | None => m end) !! key = m !! key)
        by (destruct (position _ fmt); [by rewrite lookup_insert_ne|done]). by rewrite E. }
  intros Hn. rewrite H by done. rewrite lookup_empty. destruct (List.find _ l) as [[k fmt]|]; cbn; [|done]. by destruct (position _ fmt).
Qed.

Lemma omap_keys {A B} (f : Z * A -> option (Z * B)) l : (forall e x, f e = Some x -> x.1 = e.1) -> NoDup l.*1 -> NoDup (omap f l).*1.
Proof.
  intros Hf. induction l as [|e l IH]; intros Hn; [constructor|]. rewrite fmap_cons in Hn. apply list.NoDup_cons in Hn as [He Hn]. cbn. destruct (f e) as [x|] eqn:E; [|by apply IH].
  rewrite fmap_cons. constructor; [|by apply IH]. rewrite (Hf e x E). intros (y & Ey & (e' & He' & Hy)%list_elem_of_omap)%list_elem_of_fmap.
  apply He. rewrite Ey, (Hf e' y Hy). by apply list_elem_of_fmap_2.
Qed.

Section Compacting.
Context {T : Treemap} {L : TreemapLaws T} {O : HashOrder} {OL : HashOrderLaws O}.
Context (seg : LiveSeg) (B : gmap Z AssetLive) (c : content) (fld : bytes) (s : assets) (used : gset Z) (ov : Overlay).
Context (Hbase : base_ok seg B) (Hcar : carries (ls_base seg) c B) (Hc : content_ok c) (Hfld : ls_facet_fields seg = [fld]).
Context (Hok : live_ok B s used ov) (Ha : assets_ok c [fld] (as_map s)).

(** The facet is computed from the index as from the schemas. *)
Lemma facet_of_index ls a : ls ≡ₚ ct_schemas c ->
  match facet_index fld ls !! coll_schema_key (Name.decode (al_collection a)) (Name.decode (al_schema a)) with
  | Some idx =>
      match attr_value (al_immutable a) (al_mutable a) idx with
      | Some v => if facet_value_ok v then Some (data_attr_key (Name.decode (al_collection a)) (Name.decode (al_schema a)) fld v) else None
      | None => None
      end
  | None => None
  end = facet_of c [fld] a.
Proof.
  intros Hp. assert (Hn : NoDup ls.*1) by (rewrite Hp; apply (co_schemas _ Hc)). rewrite facet_index_lookup by done. unfold facet_of. rewrite (find_perm ls (ct_schemas c)) by done.
  destruct (snd <$> List.find _ (ct_schemas c)) as [fmt|]; [|done]. cbn [mbind option_bind facet_loop]. destruct (position _ fmt) as [p|]; [|done]. cbn [fmap option_fmap option_map].
  destruct (attr_value _ _ _) as [v|]; [|done]. by destruct (facet_value_ok v).
Qed.

(** What [fold_emit] pushes is the asset with its facet. *)
Lemma fold_emit_push ls id a mint fk cached b :
  as_map s !! id = Some a -> ls ≡ₚ ct_schemas c -> cached = al_facet_key a \/ cached = None ->
  fold_emit (facet_index fld ls) fld id
    (mkLive (al_owner a) (al_collection a) (al_schema a) (al_template_id a) (al_block_num a) mint fk (al_immutable a) (al_mutable a)) cached b = push_live id a b.
Proof.
  intros Hid Hp Hca. unfold fold_emit, push_live. cbn [al_owner al_collection al_schema al_template_id al_block_num al_immutable al_mutable].
  rewrite (facet_of_index ls a Hp). pose proof (sk_facet _ _ _ Ha id a Hid) as Hf. f_equal. destruct Hca as [-> | ->]; [destruct (al_facet_key a); [done|by rewrite <- Hf]|by rewrite <- Hf].
Qed.

(** ** The assets of the base *)

Definition kept (l : list (Z * AssetRec)) : list (Z * AssetLive) := omap (fun e => (fun a => (e.1, a)) <$> as_map s !! e.1) l.

Lemma fold_base_ok ls la es : ls ≡ₚ ct_schemas c -> (forall e, e ∈ la -> rec_of <$> B !! e.1 = Some e.2) ->
  Forall2 (fun e x => e.1 = x.1 /\ decode_asset e.2 = Ok x.2) es la -> forall b ct l, built b ct l ->
  exists b', walk_entries (fold_base (facet_index fld ls) fld ov) es b = Ok b' /\ built b' ct (l ++ kept la).
Proof.
  intros Hp Hla. induction 1 as [|[k blob] [id r] es la [Hk Hd] _ IH]; intros b ct l Hb; [exists b; by rewrite app_nil_r|]. cbn [fst snd] in *. subst k.
  cbn [walk_entries]. pose proof (lk_cur _ _ _ _ Hok id) as Hcur. unfold current in Hcur. pose proof (Hla (id, r) ltac:(set_solver)) as Hr. cbn [fst snd] in Hr.
  assert (IH' : forall b ct l, built b ct l -> exists b', walk_entries (fold_base (facet_index fld ls) fld ov) es b = Ok b' /\ built b' ct (l ++ kept la))
    by (apply IH; intros e He; apply Hla; set_solver).
  assert (Hstep : fold_base (facet_index fld ls) fld ov id blob b = Ok (match as_map s !! id with Some a => push_live id a b | None => b end)).
  { unfold fold_base. destruct (ov_fwd ov !! id) as [[a|]|].
    - rewrite <- Hcur. f_equal. destruct a. apply (fold_emit_push ls id (mkLive _ _ _ _ _ _ _ _ _)); [done|done|by left].
    - by rewrite <- Hcur.
    - rewrite Hd. cbn [rbind]. destruct (B !! id) as [a|] eqn:Eb; [|done]. injection Hr as <-. rewrite <- Hcur. f_equal. apply (fold_emit_push ls id a); [done|done|by right]. }
  rewrite Hstep. cbn [rbind]. unfold kept. cbn. destruct (as_map s !! id) as [a|]; cbn; [|by apply IH'].
  change ((id, a) :: omap (fun e => (fun a => (e.1, a)) <$> as_map s !! e.1) la) with ([(id, a)] ++ kept la). rewrite app_assoc. apply IH'. by apply built_asset.
Qed.

(** ** The mints of the overlay *)

Definition minted (l : list (Z * FwdState)) : list (Z * AssetLive) :=
  omap (fun e => match e.2, B !! e.1 with LiveAsset a, None => Some (e.1, a) | _, _ => None end) l.

Lemma fold_mints_ok ls es : ls ≡ₚ ct_schemas c -> (forall e, e ∈ es -> ov_fwd ov !! e.1 = Some e.2) -> forall b ct l, built b ct l ->
  exists b', fold_mints (ls_base seg) (facet_index fld ls) fld es b = Ok b' /\ built b' ct (l ++ minted es).
Proof.
  intros Hp. induction es as [|[id st] es IH]; intros Hes b ct l Hb; [exists b; by rewrite app_nil_r|].
  assert (IH' : forall b ct l, built b ct l -> exists b', fold_mints (ls_base seg) (facet_index fld ls) fld es b = Ok b' /\ built b' ct (l ++ minted es))
    by (apply IH; intros e He; apply Hes; set_solver).
  pose proof (Hes (id, st) ltac:(set_solver)) as Hf. cbn [fst snd] in Hf. unfold minted. cbn [fold_mints omap list_omap fst snd]. destruct st as [a|]; [|by apply IH'].
  destruct (base_record seg B Hbase id) as (o & -> & Ho). cbn [rbind]. destruct o as [blob|], (B !! id) as [a'|]; try done; [by apply IH'|].
  assert (Hid : as_map s !! id = Some a) by (rewrite <- (lk_cur _ _ _ _ Hok id); unfold current; by rewrite Hf).
  assert (E : fold_emit (facet_index fld ls) fld id a (al_facet_key a) b = push_live id a b).
  { destruct a. apply (fold_emit_push ls id (mkLive _ _ _ _ _ _ _ _ _)); [done|done|by left]. }
  rewrite E. change ((id, a) :: _) with ([(id, a)] ++ minted es). rewrite app_assoc. apply IH'. by apply built_asset.
Qed.

(** ** All of them, once *)

Lemma emitted_perm la : la ≡ₚ record_list B -> kept la ++ minted (hash_order (ov_fwd ov)) ≡ₚ map_to_list (as_map s).
Proof.
  intros Hla. set (l1 := kept la). set (l2 := minted _).
  assert (H1 : forall id a, (id, a) ∈ l1 <-> as_map s !! id = Some a /\ is_Some (B !! id)).
  { intros id a. unfold l1, kept. rewrite list_elem_of_omap. split.
    - intros ([k r] & Hin & Hx). cbn [fst] in Hx. destruct (as_map s !! k) as [a'|] eqn:E; [|done]. injection Hx as -> ->. split; [done|].
      rewrite Hla in Hin. apply list_elem_of_fmap in Hin as ([k' x] & [= -> _] & Hin%elem_of_map_to_list). by rewrite Hin.
    - intros [Ha1 [x Hb]]. exists (id, rec_of x). split; [|cbn; by rewrite Ha1]. rewrite Hla. apply list_elem_of_fmap. exists (id, x). split; [done|]. by apply elem_of_map_to_list. }
  assert (H2 : forall id a, (id, a) ∈ l2 <-> as_map s !! id = Some a /\ B !! id = None).
  { intros id a. unfold l2, minted. rewrite list_elem_of_omap, <- (lk_cur _ _ _ _ Hok id). unfold current. split.
    - intros ([k st] & Hin & Hx). cbn [fst snd] in Hx. rewrite hash_order_perm in Hin. apply elem_of_map_to_list in Hin. destruct st as [a'|]; [|done].
      destruct (B !! k) eqn:Eb; [done|]. injection Hx as -> ->. by rewrite Hin.
    - intros [Hx Hb]. destruct (ov_fwd ov !! id) as [[a'|]|] eqn:E; [|done|congruence]. injection Hx as ->. exists (id, LiveAsset a). split; [|cbn; by rewrite Hb].
      rewrite hash_order_perm. by apply elem_of_map_to_list. }
  assert (Hn1 : NoDup l1.*1).
  { apply omap_keys; [intros [k r] x; cbn; destruct (as_map s !! k); [by intros [= <-]|done]|]. rewrite Hla. unfold record_list. rewrite <- list_fmap_compose. apply NoDup_fst_map_to_list. }
  assert (Hn2 : NoDup l2.*1).
  { apply omap_keys; [intros [k st] x; cbn; destruct st; [destruct (B !! k); [done|by intros [= <-]]|done]|]. rewrite hash_order_perm. apply NoDup_fst_map_to_list. }
  apply NoDup_Permutation.
  - apply list.NoDup_app. split; [by apply (NoDup_fmap_1 fst)|]. split; [|by apply (NoDup_fmap_1 fst)]. intros [id a] [_ [x Hx]]%H1 [_ Hy]%H2. congruence.
  - apply (NoDup_fmap_1 fst). apply NoDup_fst_map_to_list.
  - intros [id a]. rewrite elem_of_app, H1, H2, elem_of_map_to_list. destruct (B !! id); naive_solver.
Qed.

Lemma fold_schemas l : forall b ct k, built b ct k ->
  built (foldl (fun b x => push_schema_raw x.1 x.2 b) b l) (mkContent (ct_schemas ct ++ l) (ct_templates ct) (ct_colls ct)) k.
Proof.
  induction l as [|[key f] l IH]; intros b ct k Hb; [rewrite app_nil_r; by destruct ct|]. cbn [foldl fst snd]. pose proof (IH _ _ _ (built_schema _ _ _ key f Hb)) as H.
  cbn [ct_schemas ct_templates ct_colls] in H. by rewrite <- app_assoc in H.
Qed.

Lemma fold_templates (l : list (Z * TemplateRec)) : forall b ct k, built b ct k ->
  built (foldl (fun b x => push_template_raw x.2 b) b l) (mkContent (ct_schemas ct) (ct_templates ct ++ l.*2) (ct_colls ct)) k.
Proof.
  induction l as [|[key t] l IH]; intros b ct k Hb; [rewrite app_nil_r; by destruct ct|]. cbn [foldl fst snd]. pose proof (IH _ _ _ (built_template _ _ _ t Hb)) as H.
  cbn [ct_schemas ct_templates ct_colls] in H. by rewrite <- app_assoc in H.
Qed.

Lemma fold_colls (l : list (Z * CollectionRec)) : forall b ct k, built b ct k ->
  built (foldl (fun b x => push_collection_raw x.2 b) b l) (mkContent (ct_schemas ct) (ct_templates ct) (ct_colls ct ++ l.*2)) k.
Proof.
  induction l as [|[key t] l IH]; intros b ct k Hb; [rewrite app_nil_r; by destruct ct|]. cbn [foldl fst snd]. pose proof (IH _ _ _ (built_collection _ _ _ t Hb)) as H.
  cbn [ct_schemas ct_templates ct_colls] in H. by rewrite <- app_assoc in H.
Qed.

(** The same content, in another order. *)
Definition same_content (c' : content) : Prop :=
  ct_schemas c' ≡ₚ ct_schemas c /\ ct_templates c' ≡ₚ ct_templates c /\ ct_colls c' ≡ₚ ct_colls c.

Lemma same_content_ok c' : same_content c' -> content_ok c'.
Proof.
  intros (H1 & H2 & H3). destruct Hc as [(A1 & A2 & A3 & A4) (B1 & B2 & B3) (C1 & C2 & C3)]. unfold small, schema_blobs, template_blobs, coll_blobs in *.
  split; unfold small, schema_blobs, template_blobs, coll_blobs; [rewrite H1|rewrite H2|rewrite H3]; done.
Qed.

Lemma same_content_assets c' : same_content c' -> assets_ok c' [fld] (as_map s).
Proof.
  intros (H1 & _ & _). destruct Ha as [A1 A2 A3 A4 A5]. split; try done. intros id a Hid. rewrite (A3 id a Hid). unfold facet_of.
  rewrite (find_perm (ct_schemas c) (ct_schemas c')); [done|apply (co_schemas _ Hc)|by symmetry].
Qed.

Lemma same_content_carries c' base S : same_content c' -> carries base c' S -> carries base c S.
Proof.
  intros Hs [K1 K2 K3 K4]. pose proof (same_content_ok c' Hs) as [(N1 & _) (N2 & _) (N3 & _)]. destruct Hs as (H1 & H2 & H3). split; [| | |done].
  - eapply holds_perm; [|exact H1|exact K1]. done.
  - eapply holds_perm; [| |exact K2]; [|unfold template_list; by rewrite H2]. unfold template_list. rewrite <- list_fmap_compose. unfold template_blobs in N2. by rewrite <- list_fmap_compose in N2.
  - eapply holds_perm; [| |exact K3]; [|unfold coll_list; by rewrite H3]. unfold coll_list. rewrite <- list_fmap_compose. unfold coll_blobs in N3. by rewrite <- list_fmap_compose in N3.
Qed.

(** The builder that compaction fills. *)
Lemma compact_builder : exists b c' l, compact_with seg ov = finish b /\ built b c' l /\ same_content c' /\ l ≡ₚ map_to_list (as_map s).
Proof.
  destruct (ca_schemas _ _ _ Hcar) as [_ (es & ls & Es & Fs & Ps)]. destruct (ca_templates _ _ _ Hcar) as [_ (et & lt & Et & Ft & Pt)].
  destruct (ca_colls _ _ _ Hcar) as [_ (ec & lc & Ec & Fc & Pc)]. destruct (ca_assets _ _ _ Hcar) as [_ (ea & la & Ea & Fa & Pa)].
  unfold compact_with. rewrite Hfld, Es. cbn [rbind].
  rewrite (walk_decoded decode_schema_format (fun k f (m : gmap Z Z) => match position (fun x => bool_decide (x.1 = fld)) f with Some p => <[k := Z.of_nat p mod 65536]> m | None => m end) _ es ls) by done.
  cbn [rbind]. change (foldl _ ∅ ls) with (facet_index fld ls).
  rewrite (walk_decoded decode_schema_format push_schema_raw _ es ls) by done. cbn [rbind]. rewrite Et. cbn [rbind].
  rewrite (walk_decoded decode_template (fun _ t b => push_template_raw t b) _ et lt) by done. cbn [rbind]. rewrite Ec. cbn [rbind].
  rewrite (walk_decoded decode_collection (fun _ x b => push_collection_raw x b) _ ec lc) by done. cbn [rbind]. rewrite Ea. cbn [rbind].
  pose proof (fold_colls lc _ _ _ (fold_templates lt _ _ _ (fold_schemas ls _ _ _ (built_new [fld])))) as Hb. cbn [ct_schemas ct_templates ct_colls app] in Hb.
  destruct (fold_base_ok ls la ea Ps) with (2 := Fa) (3 := Hb) as (b1 & -> & Hb1).
  { intros e He. rewrite Pa in He. apply list_elem_of_fmap in He as ([id a] & -> & Hin%elem_of_map_to_list). cbn [fst snd]. by rewrite Hin. }
  cbn [rbind]. destruct (fold_mints_ok ls (hash_order (ov_fwd ov)) Ps) with (2 := Hb1) as (b2 & -> & Hb2).
  { intros [id st] He. rewrite hash_order_perm in He. by apply elem_of_map_to_list in He. }
  cbn [rbind]. eexists _, _, _. split; [done|]. split; [exact Hb2|]. split; [|by apply emitted_perm]. split; [done|]. cbn [ct_templates ct_colls]. rewrite Pt, Pc.
  unfold template_list, coll_list. rewrite <- !list_fmap_compose. split; by rewrite list_fmap_id.
Qed.

(** Compaction succeeds, and what it writes is a base with the assets of the store. *)
Lemma compact_ok : (forall st file, compact_with seg ov = Ok (st, file) -> blen file < 2 ^ 63) ->
  exists st file base seg', compact_with seg ov = Ok (st, file) /\ open file = Ok base /\ from_base base [fld] = Ok seg' /\ ls_base seg' = base /\
    ls_facet_fields seg' = [fld] /\ base_ok seg' (remint (as_map s)) /\ carries base c (remint (as_map s)).
Proof.
  intros Hsize. destruct compact_builder as (b & c' & l & E & Hb & Hs & Hl). rewrite E in Hsize |- *. pose proof (same_content_ok c' Hs) as Hc'. pose proof (same_content_assets c' Hs) as Ha'.
  destruct (finish_total b c' (as_map s) l [fld] Hb Hl Hc' Ha') as (ts & st & Ht & Hfin). rewrite Hfin in *. specialize (Hsize _ _ eq_refl).
  pose proof (finish_tables_ok b c' (as_map s) l [fld] Hb Hl Hc' Ha' ts Ht Hsize) as Hts. destruct (segment_serves ts Hts) as (base & Ho & Hsv).
  destruct (finish_from_base b c' (as_map s) l [fld] Hb Hl Hc' Ha' ts Ht base Hsv) as (seg' & Hf & E1 & E2).
  eexists _, _, base, seg'. split; [done|]. split; [done|]. split; [done|]. split; [done|]. split; [done|]. split.
  - by apply (finish_base_ok b c' (as_map s) l [fld] Hb Hl Hc' Ha' ts Ht base Hsv).
  - apply (same_content_carries c' _ _ Hs). by apply (finish_carries b c' (as_map s) l [fld] Hb Hl Hc' Ha' ts Ht base Hsv).
Qed.
End Compacting.
