(* ===== verification/LiveStore.v ===== *)
(** * The live store as a whole

    Blocks applied to the store over a base: every query answers what the deltas, applied one by one to the assets of
    the base, say. A rollback answers what the blocks up to its own say. Compaction gives a new base whose store, with
    an empty overlay, answers the same, for assets whose facet keys their attributes give; [facet_lost] is about others. *)

From stdpp Require Import sorting.
From S2P Require Import Prelude.
From S2P Require Import Segment.
From S2P Require Import AtomicKeys.
From S2P Require Import AtomicRecords.
From S2P Require Import Postings.
From S2P Require Import Live.
From S2P Require Import LiveFacts.
From S2P Require Import LiveQueries.
From S2P Require Import Builder.
From S2P Require Import BuilderFacts.
From S2P Require Import CompactFacts.

#[local] Opaque coll_schema_key data_attr_key Name.decode.

(** ** The specification of a history *)

(** Blocks with their deltas. *)
Definition block_entries (blk : Z * list Delta) : list (Z * Delta) := (fun d => (blk.1, d)) <$> blk.2.
Definition entries (h : list (Z * list Delta)) : list (Z * Delta) := concat (block_entries <$> h).

Definition spec_log (B : gmap Z AssetLive) (s : assets) (w : list (Z * Delta)) : assets := foldl (fun s e => spec_delta B e.1 s e.2) s w.

Definition spec_init (B : gmap Z AssetLive) : assets := mkAssets B ∅.

(** The assets after a history over the assets of a base. *)
Definition assets_after (B : gmap Z AssetLive) (h : list (Z * list Delta)) : gmap Z AssetLive := as_map (spec_log B (spec_init B) (entries h)).

Definition used_after (used : gset Z) (ds : list Delta) : gset Z := foldl (fun u d => {[delta_id d]} ∪ u) used ds.

Lemma spec_log_app B s w w' : spec_log B s (w ++ w') = spec_log B (spec_log B s w) w'.
Proof. apply foldl_app. Qed.

Lemma used_after_app used ds ds' : used_after used (ds ++ ds') = used_after (used_after used ds) ds'.
Proof. apply foldl_app. Qed.

Lemma used_after_sub ds : forall used used', used ⊆ used' -> used_after used ds ⊆ used_after used' ds.
Proof. induction ds as [|d ds IH]; intros used used' H; [done|]. apply IH. set_solver. Qed.

Lemma used_after_mono ds : forall used, used ⊆ used_after used ds.
Proof. induction ds as [|d ds IH]; intros used; [done|]. etransitivity; [|apply IH]. set_solver. Qed.

Lemma used_after_u64 ds : forall used, Forall (fun d => is_u64 (delta_id d)) ds -> (forall id, id ∈ used -> is_u64 id) -> forall id, id ∈ used_after used ds -> is_u64 id.
Proof. induction ds as [|d ds IH]; intros used Hd Hu; [done|]. apply Forall_cons_1 in Hd as [Hd Hds]. apply IH; [done|]. set_solver. Qed.

Lemma log_ok_app ds ds' : forall used, log_ok used (ds ++ ds') <-> log_ok used ds /\ log_ok (used_after used ds) ds'.
Proof. induction ds as [|d ds IH]; intros used; cbn [app log_ok used_after foldl]; [tauto|]. rewrite IH. unfold used_after. tauto. Qed.

Lemma mint_ok_sub used used' d : used ⊆ used' -> mint_ok used' d -> mint_ok used d.
Proof. destruct d; cbn; [|done..]. intros H [H1 H2]. split; [set_solver|done]. Qed.

Lemma log_ok_sub ds : forall used used', used ⊆ used' -> log_ok used' ds -> log_ok used ds.
Proof. induction ds as [|d ds IH]; intros used used' H; cbn; [done|]. intros [H1 H2]. split; [by eapply mint_ok_sub|]. apply (IH _ ({[delta_id d]} ∪ used')); [set_solver|done]. Qed.

(** A part of a log is still a log. *)
Lemma log_ok_filter (P : Z * Delta -> bool) w : forall used, log_ok used w.*2 -> log_ok used (List.filter P w).*2.
Proof.
  induction w as [|e w IH]; intros used; [done|]. rewrite fmap_cons. cbn [log_ok List.filter]. intros [H1 H2]. destruct (P e).
  - rewrite fmap_cons. cbn [log_ok]. split; [done|]. by apply IH.
  - apply IH. apply (log_ok_sub _ _ ({[delta_id e.2]} ∪ used)); [set_solver|done].
Qed.

Section Histories.
Context {T : Treemap} {L : TreemapLaws T}.

(** The calls of [apply_block] for a history. *)
Fixpoint run (seg : LiveSeg) (h : list (Z * list Delta)) (ov : Overlay) : out Overlay :=
  match h with
  | [] => Ok ov
  | blk :: h => let? ov := apply_block seg blk.1 blk.2 ov in run seg h ov
  end.

(** What a store over a base with the assets [B] answers when its assets are [S]. *)
Record answers (seg : LiveSeg) (B : gmap Z AssetLive) (ov : Overlay) (S : gmap Z AssetLive) : Prop := {
  an_owner id : point_owner seg ov id = Ok (al_owner <$> S !! id);
  an_exists id : exists_ seg ov id = Ok (bool_decide (is_Some (S !! id)));
  an_count dim key : is_dim dim -> count seg ov dim key = Ok (Z.of_nat (size (members S dim key)));
  an_full dim key n : is_dim dim -> materialize seg ov dim key n = Ok (take (Z.to_nat n) (descending (members S dim key)));
  an_page dim key n : is_dim dim -> 0 <= n ->
    Z.of_nat (size (members B dim key)) <= 256 \/ n + Z.of_nat (size (members B dim key ∖ members S dim key)) <= 256 ->
    page seg ov dim key n = Ok (take (Z.to_nat n) (descending (members S dim key)));
  an_after dim key after n c : is_dim dim -> 0 <= n < 2 ^ 62 -> match after with Some a => is_u64 a | None => True end -> cache_ok seg c ->
    exists c', page_after seg ov dim key after n c = (Ok (take (Z.to_nat n) (descending (below (members S dim key) (default u64_max after)))), c') /\ cache_ok seg c';
  an_browse skip n : 0 <= skip -> 1 <= n -> (forall i j, is_Some (S !! i) -> B !! i = None -> is_Some (B !! j) -> j < i) ->
    browse seg ov skip n = Ok (take (Z.to_nat n) (drop (Z.to_nat skip) (descending (dom S))))
}.

Lemma live_answers seg B s used ov : base_ok seg B -> live_ok B s used ov -> (forall id, id ∈ used -> is_u64 id) -> answers seg B ov (as_map s).
Proof.
  intros Hb Hok Hu. split; intros.
  - by eapply point_owner_ok.
  - by eapply exists_ok.
  - by eapply count_ok.
  - by eapply materialize_ok.
  - by eapply page_ok.
  - by eapply page_after_ok.
  - by eapply browse_ok.
Qed.

(** The empty overlay is the base. *)
Lemma live_ok_default B : live_ok B (spec_init B) (dom B) overlay_default.
Proof.
  split; cbn [overlay_default ov_fwd ov_add ov_rem ov_tomb ov_mint_seq ov_sorted_id_adds spec_init as_map as_seq].
  - intros id. unfold current. cbn. by rewrite lookup_empty.
  - split; intros dim key id _; unfold in_sets; cbn [overlay_default ov_add ov_rem]; rewrite lookup_empty; cbn; rewrite tm_empty_iter; set_solver.
  - intros id. rewrite lookup_empty, tm_empty_iter. set_solver.
  - done.
  - intros id. split; [set_solver|]. intros [[a Ha] Hn]. congruence.
  - intros id [H|H]; [rewrite lookup_empty in H; by destruct H|]. by apply elem_of_dom.
Qed.

Lemma live_ok_hwm B s used ov n : live_ok B s used ov -> live_ok B s used (set_hwm n ov).
Proof. intros [H1 [H2 H2'] H3 H4 H5 H6]. split; try done; by split. Qed.

(** The log of an overlay. *)
Lemma apply_resolved_wal block d f ov : ov_wal (apply_resolved block d f ov) = ov_wal ov ++ [(block, d)] /\ ov_hwm_block (apply_resolved block d f ov) = ov_hwm_block ov.
Proof.
  assert (Hl : forall dim key id b ov, ov_wal (leave dim key id b ov) = ov_wal ov /\ ov_hwm_block (leave dim key id b ov) = ov_hwm_block ov) by (intros; unfold leave; by destruct b).
  assert (Hj : forall dim key id b ov, ov_wal (join dim key id b ov) = ov_wal ov /\ ov_hwm_block (join dim key id b ov) = ov_hwm_block ov) by (intros; unfold join; by destruct b).
  assert (Hp : forall id a ov, ov_wal (promote id a ov) = ov_wal ov /\ ov_hwm_block (promote id a ov) = ov_hwm_block ov)
    by (intros; unfold promote; destruct (ov_fwd _ !! _), a; done).
  assert (Ho : forall id g ov, ov_wal (on_live id g ov) = ov_wal ov /\ ov_hwm_block (on_live id g ov) = ov_hwm_block ov) by (intros; unfold on_live; by destruct (ov_fwd _ !! _) as [[]|]).
  unfold apply_resolved. destruct d as [m|t|b|x].
  - unfold do_mint, next_mint. by destruct (tmpl_key_of _), (mt_facet_key m).
  - unfold do_transfer. set (o := match _ with Some Tomb => _ | Some _ => _ | None => _ end). destruct o as [from|]; [|done]. destruct (from =? _); [done|].
    destruct (Ho (tf_asset_id t) (with_owner (tf_new_owner t) block) (promote (tf_asset_id t) (bf_live f) (join DIM_OWNER (tf_new_owner t) (tf_asset_id t)
      (bool_decide (al_owner <$> bf_live f = Some (tf_new_owner t))) (leave DIM_OWNER from (tf_asset_id t) (bool_decide (al_owner <$> bf_live f = Some from)) (logged block (Transfer t) ov))))) as [-> ->].
    rewrite !(proj1 (Hp _ _ _)), !(proj2 (Hp _ _ _)), !(proj1 (Hj _ _ _ _ _)), !(proj2 (Hj _ _ _ _ _)), !(proj1 (Hl _ _ _ _ _)), !(proj2 (Hl _ _ _ _ _)). done.
  - unfold do_burn. cbn [set_fwd set_tomb set_sorted ov_wal ov_hwm_block]. set (k := match ov_fwd _ !! _ with Some Tomb => _ | Some _ => _ | None => _ end). destruct k as [k|]; [|done].
    unfold leave_dims. cbn [foldl]. repeat match goal with |- context [match for_dim k ?d with Some _ => _ | None => _ end] => destruct (for_dim k d) end;
      rewrite ?(proj1 (Hl _ _ _ _ _)), ?(proj2 (Hl _ _ _ _ _)); done.
  - unfold do_setdata. set (ovp := promote _ _ _). destruct (Hp (sd_asset_id x) (bf_live f) (logged block (SetData x) ov)) as [E1 E2]. fold ovp in E1, E2.
    destruct (ov_fwd ovp !! sd_asset_id x) as [[a|]|]; [|done|done]. rewrite (proj1 (Ho _ _ _)), (proj2 (Ho _ _ _)). case_bool_decide; [done|].
    destruct (al_facet_key a), (sd_facet_new x); rewrite ?(proj1 (Hj _ _ _ _ _)), ?(proj2 (Hj _ _ _ _ _)), ?(proj1 (Hl _ _ _ _ _)), ?(proj2 (Hl _ _ _ _ _)); done.
Qed.

(** ** Blocks *)

Lemma resolve_all_ok seg B ds : base_ok seg B -> exists items, resolve_all seg ds = Ok items /\ items.*1 = ds /\ Forall (fun x => facts_ok B x.1 x.2) items.
Proof.
  intros Hb. induction ds as [|d ds (items & IH1 & IH2 & IH3)]; [by exists []|]. destruct (resolve_ok seg B Hb d) as (f & Hf & Hok). exists ((d, f) :: items).
  cbn [resolve_all]. rewrite Hf. cbn [rbind]. rewrite IH1. cbn [rbind]. split; [done|]. split; [by rewrite fmap_cons, IH2|by constructor].
Qed.

Lemma commit_ok B s used ov block items :
  live_ok B s used ov -> Forall (fun x => facts_ok B x.1 x.2) items -> log_ok used items.*1 ->
  let ov' := commit_into ov (mkPrepared block items) in
  live_ok B (spec_log B s (block_entries (block, items.*1))) (used_after used items.*1) ov' /\
  ov_wal ov' = ov_wal ov ++ block_entries (block, items.*1) /\ ov_hwm_block ov' = Z.max (ov_hwm_block ov) block.
Proof.
  intros Hok Hf Hlog. unfold commit_into. cbn [pr_block pr_items]. set (ov1 := foldl _ ov items).
  assert (H : live_ok B (spec_log B s (block_entries (block, items.*1))) (used_after used items.*1) ov1 /\ ov_wal ov1 = ov_wal ov ++ block_entries (block, items.*1) /\
    ov_hwm_block ov1 = ov_hwm_block ov).
  { subst ov1. revert s used ov Hok Hlog. induction Hf as [|[d f] items Hd _ IH]; intros s used ov Hok Hlog; [by rewrite app_nil_r|].
    rewrite fmap_cons in Hlog |- *. cbn [fst snd log_ok] in *. destruct Hlog as [Hm Hlog]. cbn [foldl fst snd].
    pose proof (apply_ok B s used ov block d f Hok Hm Hd) as Hok'. destruct (apply_resolved_wal block d f ov) as [Hw Hh].
    destruct (IH _ _ _ Hok' Hlog) as (I1 & I2 & I3). split; [exact I1|]. rewrite I2, I3, Hw, Hh. split; [|done]. unfold block_entries. cbn [fst snd]. rewrite fmap_cons. by rewrite <- app_assoc. }
  destruct H as (H1 & H2 & H3). rewrite H3. destruct (Z.ltb_spec (ov_hwm_block ov) block) as [Hlt|Hge].
  - split; [by apply live_ok_hwm|]. split; [done|]. cbn [set_hwm ov_hwm_block]. lia.
  - split; [done|]. split; [done|]. lia.
Qed.

Lemma apply_block_ok seg B s used ov block ds :
  base_ok seg B -> live_ok B s used ov -> log_ok used ds ->
  exists ov', apply_block seg block ds ov = Ok ov' /\ live_ok B (spec_log B s (block_entries (block, ds))) (used_after used ds) ov' /\
    ov_wal ov' = ov_wal ov ++ block_entries (block, ds) /\ ov_hwm_block ov' = Z.max (ov_hwm_block ov) block.
Proof.
  intros Hb Hok Hlog. destruct (resolve_all_ok seg B ds Hb) as (items & E & Ei & Hf). unfold apply_block, prepare_block. rewrite E. cbn [rbind]. eexists. split; [done|].
  subst ds. by apply commit_ok.
Qed.

Lemma run_ok seg B h : base_ok seg B -> forall s used ov, live_ok B s used ov -> log_ok used (entries h).*2 ->
  exists ov', run seg h ov = Ok ov' /\ live_ok B (spec_log B s (entries h)) (used_after used (entries h).*2) ov' /\ ov_wal ov' = ov_wal ov ++ entries h.
Proof.
  intros Hb. induction h as [|[block ds] h IH]; intros s used ov Hok Hlog; [exists ov; by rewrite app_nil_r|].
  assert (E : entries ((block, ds) :: h) = block_entries (block, ds) ++ entries h) by done. rewrite E, fmap_app in *.
  assert (Ed : (block_entries (block, ds)).*2 = ds) by (unfold block_entries; cbn [fst snd]; rewrite <- list_fmap_compose; apply list_fmap_id). rewrite Ed in *.
  apply log_ok_app in Hlog as [Hl1 Hl2]. cbn [run fst snd]. destruct (apply_block_ok seg B s used ov block ds Hb Hok Hl1) as (ov1 & -> & Hok1 & Hw1 & _). cbn [rbind].
  destruct (IH _ _ _ Hok1 Hl2) as (ov2 & -> & Hok2 & Hw2). exists ov2. split; [done|]. rewrite spec_log_app, used_after_app. split; [done|]. by rewrite Hw2, Hw1, app_assoc.
Qed.

Lemma replay_to_ok seg B n w : base_ok seg B -> forall s used ov, live_ok B s used ov -> log_ok used (List.filter (fun e => e.1 <=? n) w).*2 ->
  exists ov', replay_to seg n w ov = Ok ov' /\ live_ok B (spec_log B s (List.filter (fun e => e.1 <=? n) w)) (used_after used (List.filter (fun e => e.1 <=? n) w).*2) ov'.
Proof.
  intros Hb. induction w as [|[b d] w IH]; intros s used ov Hok Hlog; [by exists ov|]. cbn [replay_to List.filter fst] in *. destruct (b <=? n); [|by apply IH].
  rewrite fmap_cons in Hlog. cbn [snd log_ok] in Hlog. destruct Hlog as [Hm Hlog]. destruct (resolve_ok seg B Hb d) as (f & -> & Hf). cbn [rbind].
  pose proof (apply_ok B s used ov b d f Hok Hm Hf) as Hok'. by apply (IH _ _ _ Hok' Hlog).
Qed.

Lemma base_u64 seg B id : base_ok seg B -> id ∈ dom B -> is_u64 id.
Proof. intros Hb Hid%elem_of_dom. pose proof (bo_ids _ _ Hb id Hid). width_lia. Qed.

Lemma filter_entries n h : List.filter (fun e => e.1 <=? n) (entries h) = entries (List.filter (fun blk => blk.1 <=? n) h).
Proof.
  induction h as [|[b ds] h IH]; [done|]. assert (E : entries ((b, ds) :: h) = block_entries (b, ds) ++ entries h) by done. rewrite E, List.filter_app, IH. cbn [List.filter fst].
  assert (Hb : List.filter (fun e : Z * Delta => e.1 <=? n) (block_entries (b, ds)) = if b <=? n then block_entries (b, ds) else []).
  { clear E. unfold block_entries. cbn [fst snd]. induction ds as [|d ds IHd]; [by destruct (b <=? n)|]. rewrite fmap_cons. cbn [List.filter fst]. rewrite IHd. by destruct (b <=? n). }
  rewrite Hb. by destruct (b <=? n).
Qed.

(** ** Up to the numbers of the mints *)

(** The same assets, whatever their mints. *)
Definition same_assets (S S' : gmap Z AssetLive) : Prop := forall id, with_mint 0 <$> S !! id = with_mint 0 <$> S' !! id.

#[export] Instance same_assets_equiv : Equivalence same_assets.
Proof. split; [done|by intros S S' H id|]. intros S S' S'' H H' id. by rewrite H. Qed.

Lemma remint_same S : same_assets (remint S) S.
Proof. intros id. rewrite remint_lookup. by destruct (S !! id). Qed.

Lemma same_key S S' id dim : same_assets S S' -> key_in (S !! id) dim = key_in (S' !! id) dim.
Proof.
  intros H. specialize (H id). destruct (S !! id) as [a|], (S' !! id) as [a'|]; try done. apply (inj Some) in H. cbn [key_in mbind option_bind].
  change (live_key (with_mint 0 a) dim = live_key (with_mint 0 a') dim). by rewrite H.
Qed.

#[export] Instance same_members : Proper (same_assets ==> eq ==> eq ==> eq) members.
Proof. intros S S' H dim _ <- key _ <-. apply set_eq. intros id. by rewrite !members_elem, (same_key _ _ id dim H). Qed.

#[export] Instance same_dom : Proper (same_assets ==> eq) (dom (M := gmap Z AssetLive) (D := gset Z)).
Proof. intros S S' H. apply set_eq. intros id. rewrite !elem_of_dom. specialize (H id). destruct (S !! id), (S' !! id); try done; split; eauto. Qed.

Lemma same_some S S' id : same_assets S S' -> is_Some (S !! id) <-> is_Some (S' !! id).
Proof. intros H. rewrite <- !elem_of_dom. by rewrite H. Qed.

(** The numbers of the mints are not part of any answer. *)
Lemma answers_same seg B ov S S' : same_assets S S' -> answers seg B ov S -> answers seg B ov S'.
Proof.
  intros E [H1 H2 H3 H4 H5 H6 H7]. split.
  - intros id. rewrite H1. do 1 f_equal. pose proof (same_key S S' id DIM_OWNER E) as H. by rewrite !key_in_owner in H.
  - intros id. rewrite H2. f_equal. apply bool_decide_ext. by apply same_some.
  - intros dim key Hd. rewrite H3 by done. by rewrite E.
  - intros dim key n Hd. rewrite H4 by done. by rewrite E.
  - intros dim key n Hd Hn. assert (Em : members S dim key = members S' dim key) by (by rewrite E). specialize (H5 dim key n Hd Hn). by rewrite Em in H5.
  - intros dim key after n c Hd Hn Ha Hc. specialize (H6 dim key after n c Hd Hn Ha Hc).
    assert (Em : members S dim key = members S' dim key) by (by rewrite E). by rewrite Em in H6.
  - intros skip n Hs Hn Hm. rewrite H7; [by rewrite E|done|done|]. intros i j Hi. apply Hm. by rewrite <- (same_some S S' i E).
Qed.

(** ** Properties *)

(** C3: the live store refines a map of assets. Over a base that serves the assets [B], any history of blocks whose
    mints bring new ids and the schema keys of their names is applied without a panic, and afterwards every query
    answers what the deltas, applied one by one to the map [B], say: the owner and the existence of an asset; for
    every owner, collection, schema, template and facet the number of its assets, the first page (when the 256 ids
    at the head of the base can fill it), the pages below any cursor, from the largest id down, whatever postings
    were cached; and the browsing of all assets when the mints are above the base. *)
Theorem live_refines (seg : LiveSeg) (B : gmap Z AssetLive) (h : list (Z * list Delta)) (Hb : base_ok seg B)
    (Hlog : log_ok (dom B) (entries h).*2) (Hids : Forall (fun d => is_u64 (delta_id d)) (entries h).*2) :
  exists ov, run seg h overlay_default = Ok ov /\ answers seg B ov (assets_after B h).
Proof.
  destruct (run_ok seg B h Hb (spec_init B) (dom B) overlay_default (live_ok_default B) Hlog) as (ov & Hr & Hok & _). exists ov. split; [done|].
  eapply live_answers; [done|exact Hok|]. apply used_after_u64; [done|]. intros id. by apply base_u64 with (seg := seg).
Qed.

(** C19: a rollback undoes the blocks above its own. After any history, [rollback_to n] leaves a store that answers
    as if only the blocks up to [n] had been applied, and its high-water mark is [n]. *)
Theorem rollback_exact (seg : LiveSeg) (B : gmap Z AssetLive) (h : list (Z * list Delta)) (n : Z) (ov : Overlay) (Hb : base_ok seg B)
    (Hlog : log_ok (dom B) (entries h).*2) (Hids : Forall (fun d => is_u64 (delta_id d)) (entries h).*2) (Hrun : run seg h overlay_default = Ok ov) :
  exists ov', rollback_to seg n ov = Ok ov' /\ ov_hwm_block ov' = n /\ answers seg B ov' (assets_after B (List.filter (fun blk => blk.1 <=? n) h)).
Proof.
  destruct (run_ok seg B h Hb (spec_init B) (dom B) overlay_default (live_ok_default B) Hlog) as (ov0 & Hr & _ & Hw). rewrite Hrun in Hr. injection Hr as <-.
  unfold rollback_to. rewrite Hw. cbn [overlay_default ov_wal app].
  destruct (replay_to_ok seg B n (entries h) Hb (spec_init B) (dom B) overlay_default (live_ok_default B)) as (ov' & -> & Hok); [by apply log_ok_filter|]. cbn [rbind].
  eexists. split; [done|]. split; [done|]. rewrite filter_entries in Hok. eapply live_answers; [done|by apply live_ok_hwm|].
  apply used_after_u64; [|intros id; by apply base_u64 with (seg := seg)]. rewrite <- filter_entries. rewrite list.Forall_forall in Hids |- *. intros d (e & -> & He)%list_elem_of_fmap.
  apply Hids. apply list_elem_of_fmap_2. apply list_elem_of_In in He. apply List.filter_In in He as [He _]. by apply list_elem_of_In.
Qed.

Context {O : HashOrder} {OL : HashOrderLaws O}.

End Histories.

(** ** An example *)

(** Few assets fit. *)
Lemma raw_posting_len {T : Treemap} (X : gset Z) : Z.of_nat (size X) <= RAW_MAX -> blen (encode_posting_hybrid (elements X)) = 5 + 8 * Z.of_nat (size X).
Proof.
  intros H. unfold encode_posting_hybrid. rewrite sort_elements_len. rewrite (proj2 (Z.leb_le _ _)) by done. rewrite !blen_app, !blen_le_bytes, blen_put_ids, sort_elements_len. lia.
Qed.

Definition fits_one (c : content) (fields : list bytes) (e : Z * AssetLive) : Prop :=
  0 < e.1 <= u64_max /\ asset_ok (rec_of (with_mint 0 e.2)) /\ blen (encode_asset (rec_of (with_mint 0 e.2))) < U32 /\ al_facet_key e.2 = facet_of c fields e.2.

Lemma assets_ok_few {T : Treemap} c fields (S : gmap Z AssetLive) :
  Forall (fits_one c fields) (map_to_list S) -> Z.of_nat (size S) <= RAW_MAX -> assets_ok c fields S.
Proof.
  intros H Hn. rewrite list.Forall_forall in H. assert (H' : forall id a, S !! id = Some a -> _) by (intros id a Ha; exact (H (id, a) (proj2 (elem_of_map_to_list _ _ _) Ha))). unfold fits_one in H'. cbn [fst snd] in H'.
  split.
  - intros id [a Ha]. apply (H' id a Ha).
  - intros id a Ha. destruct (H' id a Ha) as (_ & H1 & H2 & _). done.
  - intros id a Ha. apply (H' id a Ha).
  - intros dim key _. assert (size (members S dim key) <= size S)%nat.
    { rewrite <- (size_dom (D := gset Z) S). apply subseteq_size. unfold members. apply dom_filter_subseteq. }
    rewrite raw_posting_len by (unfold RAW_MAX in *; lia). unfold RAW_MAX in *. width_lia.
  - unfold RAW_MAX in *. width_lia.
Qed.

Definition exl_name (s : string) : Z := Name.encode (exr_text s).
Definition exl_fld : bytes := exr_text "rarity".
Definition exl_content : content :=
  mkContent [(coll_schema_key (exr_text "hero") (exr_text "card"), [(exr_text "name", exr_text "string"); (exl_fld, exr_text "string")])] [exr_template] [exr_collection].
Definition exl_facet (v : string) : option Z := Some (data_attr_key (exr_text "hero") (exr_text "card") exl_fld (exr_text v)).

Definition exl_asset (owner template_id mint : Z) (rarity : string) : AssetLive :=
  mkLive owner (exl_name "hero") (exl_name "card") template_id 90 mint (exl_facet rarity) [(0, exr_text "Ana")] [(1, exr_text rarity)].

Definition exl_assets : gmap Z AssetLive := {[ 3 := exl_asset 1 (-1) 0 "Rare"; 5 := exl_asset 1 7 1 "Epic"; 9 := exl_asset 2 7 2 "Rare" ]}.

Definition exl_builder : AtomicBuilder :=
  foldl (fun b e => push_live e.1 e.2 b)
    (push_collection_raw exr_collection (push_template_raw exr_template
      (foldl (fun b e => push_schema_raw e.1 e.2 b) (builder_new [exl_fld]) (ct_schemas exl_content)))) (map_to_list exl_assets).

(** The base the builder writes for them. *)
Definition exl_file : bytes := match finish exl_builder with Ok (_, file) => file | _ => [] end.
Definition exl_base : BaseSeg := match open exl_file with Ok base => base | _ => mkBase [] ∅ end.
Definition exl_seg : LiveSeg := match from_base exl_base [exl_fld] with Ok seg => seg | _ => mkSeg exl_base [] 0 end.

Definition exl_mint : MintD :=
  mkMint 12 1 (exl_name "hero") (exl_name "card") (coll_schema_key (exr_text "hero") (exr_text "card")) 7 (exl_facet "Epic") [] [(1, exr_text "Epic")].

Definition exl_history : list (Z * list Delta) :=
  [(100, [Transfer (mkTransfer 3 2); Mint exl_mint]); (101, [SetData (mkSetData 5 [(1, exr_text "Rare")] (exl_facet "Epic") (exl_facet "Rare")); Burn (mkBurn 9)])].

Lemma exl_content_ok : content_ok exl_content.
Proof.
  assert (Hn : forall x : Z, NoDup [x]) by (intros x; repeat constructor; set_solver).
  split; (split; [apply Hn|]).
  - split; [repeat constructor; vm_compute; congruence|]. split; repeat constructor; vm_compute; congruence.
  - pose proof exr_attrs_ok. split; [repeat constructor; done|]. repeat constructor; vm_compute; congruence.
  - pose proof exr_attrs_ok. split; [|repeat constructor; vm_compute; congruence]. constructor; [|constructor]. split; try done; (split; [done|]); repeat constructor; vm_compute; congruence.
Qed.

Lemma exl_built : built exl_builder exl_content (map_to_list exl_assets).
Proof.
  unfold exl_builder. pose proof (fold_schemas (ct_schemas exl_content) _ _ _ (built_new [exl_fld])) as H. apply (built_template _ _ _ exr_template) in H.
  apply (built_collection _ _ _ exr_collection) in H. cbn [ct_schemas ct_templates ct_colls app] in H. change (mkContent _ _ _) with exl_content in H.
  assert (Hf : forall l b k, built b exl_content k -> built (foldl (fun b e => push_live e.1 e.2 b) b l) exl_content (k ++ l)).
  { induction l as [|[id a] l IH]; intros b k Hb; [by rewrite app_nil_r|]. cbn [foldl fst snd]. pose proof (IH _ _ (built_asset _ _ _ id a Hb)) as H'. by rewrite <- app_assoc in H'. }
  by apply (Hf _ _ []).
Qed.

#[local] Opaque exl_name exl_facet facet_of.

Lemma exl_fits id owner template_id block mint facet im mu :
  let a := mkLive owner (exl_name "hero") (exl_name "card") template_id block mint facet im mu in
  0 < id <= u64_max -> is_u64 owner -> is_i32 template_id -> is_u32 block -> attrs_ok im -> attrs_ok mu ->
  blen (encode_asset (rec_of (with_mint 0 a))) < U32 -> facet = facet_of exl_content [exl_fld] a ->
  fits_one exl_content [exl_fld] (id, a).
Proof.
  intros a H0 H1 H2 H3 H4 H5 H6 H7. split; [exact H0|]. split; [|split; [exact H6|exact H7]].
  assert (Hh : is_u64 (exl_name "hero")) by (split; vm_compute; congruence). assert (Hk : is_u64 (exl_name "card")) by (split; vm_compute; congruence).
  assert (Hm : is_u32 0) by (split; vm_compute; congruence). split; assumption.
Qed.

Lemma exl_attrs_ok : attrs_ok [(0, exr_text "Ana")] /\ attrs_ok [(1, exr_text "Rare")] /\ attrs_ok [(1, exr_text "Epic")] /\ attrs_ok [].
Proof. split_and!; (split; [done|]); repeat constructor; vm_compute; congruence. Qed.

(** Decides whether an asset of the example can be written. *)
Ltac concrete_asset :=
  destruct exl_attrs_ok as (? & ? & ? & ?); apply exl_fits; [split; vm_compute; congruence|split; vm_compute; congruence|split; vm_compute; congruence|split; vm_compute; congruence|assumption|assumption|vm_compute; reflexivity|vm_compute; reflexivity].

Lemma exl_assets_ok : assets_ok exl_content [exl_fld] exl_assets.
Proof.
  apply assets_ok_few; [|vm_compute; congruence].
  assert (E : map_to_list exl_assets = [(9, exl_asset 2 7 2 "Rare"); (5, exl_asset 1 7 1 "Epic"); (3, exl_asset 1 (-1) 0 "Rare")]) by (vm_compute; reflexivity). rewrite E. unfold exl_asset.
  repeat apply Forall_cons_2; [concrete_asset|concrete_asset|concrete_asset|constructor].
Qed.

Lemma exl_served : open exl_file = Ok exl_base /\ from_base exl_base [exl_fld] = Ok exl_seg /\ ls_base exl_seg = exl_base /\ ls_facet_fields exl_seg = [exl_fld] /\
  base_ok exl_seg exl_assets /\ carries (ls_base exl_seg) exl_content exl_assets.
Proof.
  pose proof exl_built as Hb. pose proof exl_content_ok as Hc. pose proof exl_assets_ok as Ha. assert (Hl : map_to_list exl_assets ≡ₚ map_to_list exl_assets) by done.
  assert (Hr : remint exl_assets = exl_assets) by (vm_compute; reflexivity).
  pose proof (finish_total exl_builder _ _ _ _ Hb Hl Hc Ha) as Ht.
  destruct Ht as (ts & st & Ht & Hf). assert (Ef : exl_file = write_segment ts) by (unfold exl_file; by rewrite Hf).
  assert (Hsize : blen (write_segment ts) < 2 ^ 63) by (rewrite <- Ef; vm_compute; reflexivity).
  destruct (segment_serves ts (finish_tables_ok exl_builder _ _ _ _ Hb Hl Hc Ha ts Ht Hsize)) as (base & Ho & Hsv).
  assert (Eb : exl_base = base) by (unfold exl_base; by rewrite Ef, Ho). destruct (finish_from_base exl_builder _ _ _ _ Hb Hl Hc Ha ts Ht base Hsv) as (seg & Hs & E1 & E2).
  assert (Es : exl_seg = seg) by (unfold exl_seg; by rewrite Eb, Hs). rewrite Es, E1, Eb, Ef. split; [done|]. split; [done|]. split; [done|]. split; [done|]. rewrite <- Hr. split.
  - by apply (finish_base_ok exl_builder _ _ _ _ Hb Hl Hc Ha ts Ht base Hsv).
  - by apply (finish_carries exl_builder _ _ _ _ Hb Hl Hc Ha ts Ht base Hsv).
Qed.

Lemma exl_log : log_ok (dom exl_assets) (entries exl_history).*2 /\ Forall (fun d => is_u64 (delta_id d)) (entries exl_history).*2.
Proof.
  split; [|repeat constructor; vm_compute; congruence]. split; [done|]. split; [|split; [done|split; done]]. split; [|vm_compute; reflexivity].
  apply (bool_decide_unpack _). vm_compute. done.
Qed.

Definition exl_overlay : Overlay := match run exl_seg exl_history overlay_default with Ok ov => ov | _ => overlay_default end.

Lemma exl_run : run exl_seg exl_history overlay_default = Ok exl_overlay.
Proof. destruct exl_log as [Hl _]. destruct exl_served as (_ & _ & _ & _ & Hb & _).
  destruct (run_ok exl_seg exl_assets exl_history Hb _ _ _ (live_ok_default exl_assets) Hl) as (ov & E & _). unfold exl_overlay. by rewrite E.
Qed.

Lemma live_refines_witness :
  (exists ov, run exl_seg exl_history overlay_default = Ok ov /\ answers exl_seg exl_assets ov (assets_after exl_assets exl_history)) /\
  (let? ov := run exl_seg exl_history overlay_default in
   let? p := page exl_seg ov DIM_FACET (default 0 (exl_facet "Rare")) 10 in
   let? q := page exl_seg ov DIM_OWNER 1 10 in
   let? o := point_owner exl_seg ov 3 in
   let? n := count exl_seg ov DIM_TMPL 7 in Ok (p, q, o, n)) = Ok ([5; 3], [12; 5], Some 2, 2).
Proof.
  split; [|vm_compute; reflexivity]. destruct exl_served as (_ & _ & _ & _ & Hb & _). destruct exl_log as [H1 H2].
  exact (live_refines exl_seg exl_assets exl_history Hb H1 H2).
Defined.

Lemma rollback_exact_witness :
  (exists ov', rollback_to exl_seg 100 exl_overlay = Ok ov' /\ ov_hwm_block ov' = 100 /\
     answers exl_seg exl_assets ov' (assets_after exl_assets (List.filter (fun blk => blk.1 <=? 100) exl_history))) /\
  (let? ov := rollback_to exl_seg 100 exl_overlay in page exl_seg ov DIM_OWNER 2 10) = Ok [9; 3].
Proof.
  split; [|vm_compute; reflexivity]. destruct exl_served as (_ & _ & _ & _ & Hb & _). destruct exl_log as [H1 H2].
  exact (rollback_exact exl_seg exl_assets exl_history 100 exl_overlay Hb H1 H2 exl_run).
Defined.

Lemma exl_after_ok : assets_ok exl_content [exl_fld] (assets_after exl_assets exl_history).
Proof.
  apply assets_ok_few; [|vm_compute; congruence].
  assert (E : map_to_list (assets_after exl_assets exl_history) =
    [(5, mkLive 1 (exl_name "hero") (exl_name "card") 7 90 1 (exl_facet "Rare") [(0, exr_text "Ana")] [(1, exr_text "Rare")]);
     (3, mkLive 2 (exl_name "hero") (exl_name "card") (-1) 100 0 (exl_facet "Rare") [(0, exr_text "Ana")] [(1, exr_text "Rare")]);
     (12, mkLive 1 (exl_name "hero") (exl_name "card") 7 100 3 (exl_facet "Epic") [] [(1, exr_text "Epic")])]) by (vm_compute; reflexivity).
  rewrite E. repeat apply Forall_cons_2; [concrete_asset|concrete_asset|concrete_asset|constructor].
Qed.


(** The number of a mint is not kept: the asset 12 was the third of its template, and is the second after a
    compaction, since the second was burnt. *)
Example mint_renumbered :
  (al_template_mint <$> assets_after exl_assets exl_history !! 12) = Some 3 /\
  (let? r := compact_with exl_seg exl_overlay in
   let? base := open r.2 in
   let? seg := from_base base [exl_fld] in
   let? a := decode_base_live seg 12 in Ok (al_template_mint <$> a)) = Ok (Some 2).
Proof. split; vm_compute; reflexivity. Qed.

(** Why [compact_preserves] asks that facet keys follow from attributes. A fold takes the key an overlay asset was
    given, but computes that of an asset of the base from the attributes stored for it. A mint with a key and no
    attributes, as the server's own generator of blocks makes them, is found under its facet until the first
    compaction and after it; the second loses it. An asset whose key was taken away while its attributes still hold
    the value comes back under its facet with the first. *)
Definition exl_compact (seg : LiveSeg) (ov : Overlay) : out LiveSeg :=
  let? r := compact_with seg ov in let? base := open r.2 in from_base base [exl_fld].

Definition exl_bare : MintD :=
  mkMint 13 1 (exl_name "hero") (exl_name "card") (coll_schema_key (exr_text "hero") (exr_text "card")) 7 (exl_facet "Epic") [] [].

Example facet_lost :
  let epic seg ov := page seg ov DIM_FACET (default 0 (exl_facet "Epic")) 10 in
  (let? ov := run exl_seg [(100, [Mint exl_bare])] overlay_default in
   let? seg1 := exl_compact exl_seg ov in
   let? seg2 := exl_compact seg1 overlay_default in
   let? p := epic exl_seg ov in let? p1 := epic seg1 overlay_default in let? p2 := epic seg2 overlay_default in
   Ok (p, p1, p2)) = Ok ([13; 5], [13; 5], [5]) /\
  (let? ov := run exl_seg [(100, [SetData (mkSetData 5 [(1, exr_text "Epic")] (exl_facet "Epic") None)])] overlay_default in
   let? seg1 := exl_compact exl_seg ov in
   let? p := epic exl_seg ov in let? p1 := epic seg1 overlay_default in Ok (p, p1)) = Ok ([], [5]).
Proof. split; vm_compute; reflexivity. Qed.
