(* ===== verification/LiveServer.v ===== *)
(** * Compacting while serving ([crates/wseg-build/src/bin/aa_server.rs])

    Two threads share the published store: the applier commits the blocks of the chain, the compactor takes a snapshot,
    folds it into a new segment, catches up with what was committed meanwhile, and publishes the result. The steps
    here are the regions that a lock or an atomic load makes indivisible; they interleave in any order.

    The [Arc] of the published store is its generation: a swap publishes the next one. *)

From stdpp Require Import sorting.
From S2P Require Import Prelude.
From S2P Require Import Segment.
From S2P Require Import AtomicKeys.
From S2P Require Import AtomicRecords.
From S2P Require Import Postings.
From S2P Require Import Live.
From S2P Require Import LiveFacts.
From S2P Require Import LiveQueries.
From S2P Require Import Builder.
From S2P Require Import BuilderFacts.
From S2P Require Import CompactFacts.
From S2P Require Import LiveStore.

#[local] Opaque coll_schema_key data_attr_key Name.decode.

Definition DRAIN_BATCH : Z := 100000.
Definition FINAL_BATCH : Z := 5000.

Section Server.
Context {T : Treemap} {O : HashOrder}.

(** Each delta as a block of its own. *)
Fixpoint replay (seg : LiveSeg) (deltas : list (Z * Delta)) (ov : Overlay) : out Overlay :=
  match deltas with
  | [] => Ok ov
  | (blk, d) :: deltas => let? ov := apply_block seg blk [d] ov in replay seg deltas ov
  end.

Definition snapshot_overlay (ov : Overlay) : Z * Overlay := (ov_hwm_block ov, clone_state ov).

(** Where a compaction is: none; the snapshot taken; the new store, with the block it has caught up to; only the tail left. *)
Inductive Compactor :=
| Resting
| Snapped (seal : Z) (snap : Overlay)
| CatchUp (seg : LiveSeg) (ov : Overlay) (through : Z)
| Final (seg : LiveSeg) (ov : Overlay) (through : Z).

(** The published store and its generation, the number of blocks committed, the block the applier has prepared, with
    the generation it was prepared for, and the compactor. *)
Record Server := mkServer {
  sv_gen : nat; sv_seg : LiveSeg; sv_ov : Overlay; sv_done : nat; sv_applier : option (nat * Prepared); sv_compactor : Compactor
}.

(** The blocks of the chain, and the facet fields the server was started with. *)
Context (chain : list (Z * list Delta)) (facet_fields : list bytes).

(** One turn of the loop of [apply_swap_safe] up to the lock: the store is loaded, the block prepared against it. *)
Definition applier_prepare (st : Server) : option (out Server) :=
  match sv_applier st, chain !! sv_done st with
  | None, Some (blk, deltas) =>
      Some (let? p := prepare_block (sv_seg st) blk deltas in
            Ok (mkServer (sv_gen st) (sv_seg st) (sv_ov st) (sv_done st) (Some (sv_gen st, p)) (sv_compactor st)))
  | _, _ => None
  end.

(** Under the lock: if the store was swapped, again; else the commit. *)
Definition applier_commit (st : Server) : option (out Server) :=
  match sv_applier st with
  | Some (g, p) =>
      Some (Ok (if bool_decide (g = sv_gen st)
                then mkServer (sv_gen st) (sv_seg st) (commit_into (sv_ov st) p) (S (sv_done st)) None (sv_compactor st)
                else mkServer (sv_gen st) (sv_seg st) (sv_ov st) (sv_done st) None (sv_compactor st)))
  | None => None
  end.

Definition with_compactor (c : Compactor) (st : Server) : Server := mkServer (sv_gen st) (sv_seg st) (sv_ov st) (sv_done st) (sv_applier st) c.

(** One turn of [compact_and_swap]. *)
Definition compactor_turn (st : Server) : out Server :=
  match sv_compactor st with
  | Resting => let '(seal, snap) := snapshot_overlay (sv_ov st) in Ok (with_compactor (Snapped seal snap) st)
  | Snapped seal snap =>
      let? r := compact_with (sv_seg st) snap in
      let? base := open r.2 in
      let? seg := from_base base facet_fields in
      Ok (with_compactor (CatchUp seg overlay_default seal) st)
  | CatchUp seg ov through =>
      let residual := wal_after (sv_ov st) through DRAIN_BATCH in
      if blen residual <=? FINAL_BATCH then Ok (with_compactor (Final seg ov through) st)
      else
        let? ov := replay seg residual ov in
        let? last := or_panic (list.last residual) in
        Ok (with_compactor (CatchUp seg ov last.1) st)
  | Final seg ov through =>
      let tail := wal_after (sv_ov st) through u64_max in
      let? ov := replay seg tail ov in
      Ok (mkServer (S (sv_gen st)) seg ov (sv_done st) (sv_applier st) Resting)
  end.

(** A file has fewer than [2 ^ 63] bytes. *)
Definition fold_fits (st : Server) : Prop :=
  match sv_compactor st with
  | Snapped _ snap => forall r, compact_with (sv_seg st) snap = Ok r -> blen r.2 < 2 ^ 63
  | _ => True
  end.

(** Any interleaving. *)
Inductive step : Server -> Server -> Prop :=
| step_prepare st st' : applier_prepare st = Some (Ok st') -> step st st'
| step_commit st st' : applier_commit st = Some (Ok st') -> step st st'
| step_compactor st st' : fold_fits st -> compactor_turn st = Ok st' -> step st st'.

Definition server_start (seg : LiveSeg) : Server := mkServer 0 seg overlay_default 0 None Resting.

Inductive reachable (seg : LiveSeg) : Server -> Prop :=
| reach_start : reachable seg (server_start seg)
| reach_step st st' : reachable seg st -> step st st' -> reachable seg st'.
End Server.
