(* ===== verification/LiveServerFacts.v ===== *)
(** * No block is lost

    Whatever the interleaving of the applier and the compactor, the published store answers as all the blocks
    committed so far say, and neither thread panics, for blocks that leave assets a base can hold. *)

From stdpp Require Import sorting.
From S2P Require Import Prelude.
From S2P Require Import Segment.
From S2P Require Import AtomicKeys.
From S2P Require Import AtomicRecords.
From S2P Require Import Postings.
From S2P Require Import Live.
From S2P Require Import LiveFacts.
From S2P Require Import LiveQueries.
From S2P Require Import Builder.
From S2P Require Import BuilderFacts.
From S2P Require Import CompactFacts.
From S2P Require Import LiveStore.
From S2P Require Import LiveServer.

#[local] Opaque coll_schema_key data_attr_key Name.decode.

(** ** Drains end between blocks *)

Definition block_le (x y : Z * Delta) : Prop := x.1 <= y.1.

Lemma wal_loop_old after max w l : Forall (fun e => e.1 <= after) w -> forall taken last, wal_loop after max (w ++ l) taken last = wal_loop after max l taken last.
Proof. induction 1 as [|[b d] w Hb _ IH]; intros taken last; [done|]. cbn [app wal_loop fst] in *. rewrite (proj2 (Z.leb_le b after)) by done. apply IH. Qed.

(** The block after which a drain stops. *)
Definition last_block (r : list (Z * Delta)) (last : option Z) : option Z := match list.last r with Some e => Some e.1 | None => last end.

Lemma wal_loop_new after max l : Forall (fun e => after < e.1) l -> forall taken last,
  exists r r2, l = r ++ r2 /\ wal_loop after max l taken last = taken ++ r /\
    match r2 with [] => True | e :: _ => max <= blen (taken ++ r) /\ last_block r last <> Some e.1 end.
Proof.
  induction 1 as [|[b d] l Hb _ IH]; intros taken last; [exists [], []; split; [done|]; split; [symmetry; apply app_nil_r|done]|]. cbn [wal_loop fst] in *. rewrite (proj2 (Z.leb_gt b after)) by done.
  destruct (Z.leb_spec max (blen taken)) as [Hm|Hm]; cbn [andb].
  - case_bool_decide as Hl; cbn [negb].
    + destruct (IH (taken ++ [(b, d)]) (Some b)) as (r & r2 & -> & E & H). exists ((b, d) :: r), r2. split; [done|]. split; [by rewrite E, <- app_assoc|].
      destruct r2 as [|e r2]; [done|]. rewrite <- app_assoc in H. destruct H as [H1 H2]. split; [done|]. unfold last_block in *. rewrite last_cons. by destruct (list.last r).
    + exists [], ((b, d) :: l). split; [done|]. rewrite app_nil_r. split; [done|]. split; [done|]. exact Hl.
  - destruct (IH (taken ++ [(b, d)]) (Some b)) as (r & r2 & -> & E & H). exists ((b, d) :: r), r2. split; [done|]. split; [by rewrite E, <- app_assoc|].
    destruct r2 as [|e r2]; [done|]. rewrite <- app_assoc in H. destruct H as [H1 H2]. split; [done|]. unfold last_block in *. rewrite last_cons. by destruct (list.last r).
Qed.

Lemma wal_after_split {T : Treemap} (ov : Overlay) after max w l :
  ov_wal ov = w ++ l -> Forall (fun e => e.1 <= after) w -> Forall (fun e => after < e.1) l -> StronglySorted block_le l ->
  exists r2, l = wal_after ov after max ++ r2 /\ (blen l <= max -> r2 = []) /\
    (forall e, list.last (wal_after ov after max) = Some e -> Forall (fun x => x.1 <= e.1) (wal_after ov after max) /\ Forall (fun x => e.1 < x.1) r2).
Proof.
  intros Ew Hw Hl Hs. unfold wal_after. rewrite Ew, wal_loop_old by done. destruct (wal_loop_new after max l Hl [] None) as (r & r2 & E & -> & H). cbn [app] in *. exists r2. split; [done|]. split.
  - intros Hb. destruct r2 as [|e r2]; [done|]. destruct H as [H _]. rewrite E, blen_app in Hb. unfold blen in *. cbn [length] in Hb. lia.
  - intros e He. apply last_Some in He as [r' ->]. rewrite E in Hs. split.
    + apply list.Forall_forall. intros x [Hx| ->%list_elem_of_singleton]%elem_of_app; [|done]. rewrite <- app_assoc in Hs.
      apply (StronglySorted_app_1_elem_of _ _ _ x e Hs); [done|set_solver].
    + destruct r2 as [|f r2]; [constructor|]. destruct H as [_ H]. unfold last_block in H. rewrite last_snoc in H.
      assert (Hef : e.1 <= f.1) by (apply (StronglySorted_app_1_elem_of _ _ _ e f Hs); set_solver). assert (Hlt : e.1 < f.1) by (assert (e.1 <> f.1) by congruence; lia).
      constructor; [done|]. apply StronglySorted_app_1_r, StronglySorted_inv in Hs as [_ Hf]. rewrite list.Forall_forall in Hf |- *. intros x Hx. specialize (Hf x Hx). unfold block_le in Hf. lia.
Qed.

(** The log of a chain is in order. *)
Lemma entries_app h h' : entries (h ++ h') = entries h ++ entries h'.
Proof. unfold entries. by rewrite fmap_app, concat_app. Qed.

Lemma entries_elem h e : e ∈ entries h -> exists ds, (e.1, ds) ∈ h.
Proof.
  induction h as [|[b ds] h IH]; [by intros ?%elem_of_nil|]. change (entries ((b, ds) :: h)) with (block_entries (b, ds) ++ entries h). intros [He|He]%elem_of_app.
  - apply list_elem_of_fmap in He as (d & -> & _). exists ds. cbn. set_solver.
  - destruct (IH He) as [ds' H]. exists ds'. set_solver.
Qed.

Lemma entries_sorted h : StronglySorted (fun x y => x.1 < y.1) h -> StronglySorted block_le (entries h).
Proof.
  induction 1 as [|[b ds] h Hh IH Hb]; [constructor|]. change (entries ((b, ds) :: h)) with (block_entries (b, ds) ++ entries h). apply StronglySorted_app_2; [| |done].
  - intros x y (d & -> & _)%list_elem_of_fmap [ds' Hy]%entries_elem. rewrite list.Forall_forall in Hb. specialize (Hb _ Hy). unfold block_le. cbn [fst] in *. lia.
  - unfold block_entries. cbn [fst snd]. clear. induction ds as [|d ds IH]; [constructor|]. rewrite fmap_cons. constructor; [done|]. apply list.Forall_forall.
    intros x (d' & -> & _)%list_elem_of_fmap. unfold block_le. done.
Qed.

(** ** Deltas up to the numbers of the mints *)

Lemma same_insert S S' id a a' : same_assets S S' -> with_mint 0 a = with_mint 0 a' -> same_assets (<[id := a]> S) (<[id := a']> S').
Proof.
  intros H Ha i. destruct (decide (i = id)) as [->|]; [rewrite !lookup_insert_eq; cbn [fmap option_fmap option_map]; by rewrite Ha|]. rewrite !lookup_insert_ne by done. apply H.
Qed.

Lemma same_alter S S' id f : same_assets S S' -> (forall a a', with_mint 0 a = with_mint 0 a' -> with_mint 0 (f a) = with_mint 0 (f a')) -> same_assets (alter f id S) (alter f id S').
Proof.
  intros H Hf i. destruct (decide (i = id)) as [->|]; [|rewrite !lookup_alter_ne by done; apply H]. rewrite !lookup_alter_eq. specialize (H id).
  destruct (S !! id) as [a|], (S' !! id) as [a'|]; try done. apply (inj Some) in H. cbn [fmap option_fmap option_map]. f_equal. by apply Hf.
Qed.

Lemma with_mint_inv a a' : with_mint 0 a = with_mint 0 a' -> al_owner a = al_owner a' /\ al_collection a = al_collection a' /\ al_schema a = al_schema a' /\ al_template_id a = al_template_id a' /\
  al_block_num a = al_block_num a' /\ al_facet_key a = al_facet_key a' /\ al_immutable a = al_immutable a' /\ al_mutable a = al_mutable a'.
Proof. intros [=]. done. Qed.

Lemma same_delta B B' b s s' d : same_assets (as_map s) (as_map s') -> same_assets (as_map (spec_delta B b s d)) (as_map (spec_delta B' b s' d)).
Proof.
  intros H. destruct d as [m|t|x|x]; cbn [spec_delta].
  - destruct (tmpl_key_of _); by apply same_insert.
  - apply same_alter; [done|]. intros a a' (E1 & E2 & E3 & E4 & E5 & E6 & E7 & E8)%with_mint_inv. rewrite E1. destruct (_ =? _); unfold with_owner, with_mint; cbn; congruence.
  - intros i. cbn [as_map]. destruct (decide (i = bn_asset_id x)) as [->|]; [by rewrite !lookup_delete_eq|]. rewrite !lookup_delete_ne by done. apply H.
  - apply same_alter; [done|]. intros a a' (E1 & E2 & E3 & E4 & E5 & E6 & E7 & E8)%with_mint_inv. unfold with_data, with_mint; cbn; congruence.
Qed.

Lemma same_log B B' w : forall s s', same_assets (as_map s) (as_map s') -> same_assets (as_map (spec_log B s w)) (as_map (spec_log B' s' w)).
Proof. induction w as [|[b d] w IH]; intros s s' H; [done|]. apply IH. by apply same_delta. Qed.

Lemma assets_ok_same {T : Treemap} c fields S S' : same_assets S S' -> assets_ok c fields S -> assets_ok c fields S'.
Proof.
  intros H [H1 H2 H3 H4 H5].
  assert (Hs : forall id a', S' !! id = Some a' -> exists a, S !! id = Some a /\ with_mint 0 a = with_mint 0 a').
  { intros id a' E. specialize (H id). rewrite E in H. destruct (S !! id) as [a|]; [|done]. exists a. split; [done|]. by apply (inj Some) in H. }
  split.
  - intros id [a' (a & E & _)%Hs]. apply H1. by rewrite E.
  - intros id a' (a & E & Em)%Hs. rewrite <- Em. by apply (H2 id).
  - intros id a' (a & E & (E1 & E2 & E3 & E4 & E5 & E6 & E7 & E8)%with_mint_inv)%Hs. rewrite <- E6, (H3 id a E). unfold facet_of. by rewrite E2, E3, E7, E8.
  - intros dim key Hd. rewrite <- H. by apply H4.
  - rewrite <- (size_dom (D := gset Z)), <- H, size_dom. done.
Qed.

(** ** A store that has seen a log *)
Section Tracking.
Context {T : Treemap} {L : TreemapLaws T} {O : HashOrder} {OL : HashOrderLaws O}.
Context (B0 : gmap Z AssetLive) (c : content) (fld : bytes).

Definition after_log (l : list (Z * Delta)) : gmap Z AssetLive := as_map (spec_log B0 (spec_init B0) l).

Definition tracks (seg : LiveSeg) (ov : Overlay) (l : list (Z * Delta)) : Prop :=
  exists B s, base_ok seg B /\ carries (ls_base seg) c B /\ ls_facet_fields seg = [fld] /\ live_ok B s (used_after (dom B0) l.*2) ov /\ same_assets (as_map s) (after_log l).

Lemma after_log_app l l' : after_log (l ++ l') = as_map (spec_log B0 (spec_log B0 (spec_init B0) l) l').
Proof. unfold after_log. by rewrite spec_log_app. Qed.

Lemma tracks_commit seg ov l blk ds p : tracks seg ov l -> prepare_block seg blk ds = Ok p -> log_ok (used_after (dom B0) l.*2) ds ->
  tracks seg (commit_into ov p) (l ++ block_entries (blk, ds)) /\ ov_wal (commit_into ov p) = ov_wal ov ++ block_entries (blk, ds) /\
  ov_hwm_block (commit_into ov p) = Z.max (ov_hwm_block ov) blk.
Proof.
  intros (B & s & H1 & H2 & H3 & H4 & H5) Hp Hlog. destruct (resolve_all_ok seg B ds H1) as (items & Er & Ei & Hf). unfold prepare_block in Hp. rewrite Er in Hp. cbn [rbind] in Hp. injection Hp as <-.
  subst ds. destruct (commit_ok B s _ ov blk items H4 Hf Hlog) as (K1 & K2 & K3). split; [|done]. exists B, (spec_log B s (block_entries (blk, items.*1))).
  assert (Ed : (block_entries (blk, items.*1)).*2 = items.*1) by (unfold block_entries; cbn [fst snd]; rewrite <- list_fmap_compose; apply list_fmap_id).
  split; [done|]. split; [done|]. split; [done|]. split; [by rewrite fmap_app, used_after_app, Ed|]. rewrite after_log_app. by apply same_log.
Qed.

Lemma tracks_prepare seg ov l blk ds : tracks seg ov l -> exists p, prepare_block seg blk ds = Ok p.
Proof. intros (B & s & H1 & _). destruct (resolve_all_ok seg B ds H1) as (items & Er & _). unfold prepare_block. rewrite Er. by eexists. Qed.

Lemma tracks_replay seg r : forall ov l, tracks seg ov l -> log_ok (used_after (dom B0) l.*2) r.*2 ->
  exists ov', replay seg r ov = Ok ov' /\ tracks seg ov' (l ++ r) /\ ov_wal ov' = ov_wal ov ++ r /\
    (forall b, ov_hwm_block ov <= b -> Forall (fun e => e.1 <= b) r -> ov_hwm_block ov' <= b) /\ ov_hwm_block ov <= ov_hwm_block ov' /\ Forall (fun e => e.1 <= ov_hwm_block ov') r.
Proof.
  induction r as [|[b d] r IH]; intros ov l Ht Hlog; [exists ov; rewrite !app_nil_r; split_and!; done|]. rewrite fmap_cons in Hlog. cbn [snd log_ok] in Hlog. destruct Hlog as [Hm Hlog].
  cbn [replay]. destruct (tracks_prepare seg ov l b [d] Ht) as [p Hp]. unfold apply_block. rewrite Hp. cbn [rbind].
  destruct (tracks_commit seg ov l b [d] p Ht Hp) as (K1 & K2 & K3); [done|]. change (block_entries (b, [d])) with [(b, d)] in *.
  destruct (IH _ _ K1) as (ov' & E & I1 & I2 & I3 & I4 & I5); [by rewrite fmap_app, used_after_app|]. exists ov'. rewrite E. split; [done|].
  rewrite <- app_assoc in I1. split; [done|]. split; [by rewrite I2, K2, <- app_assoc|]. rewrite K3 in I3, I4. split; [|split; [lia|constructor; [cbn; lia|done]]].
  intros x Hx [Hb Hr]%Forall_cons_1. apply I3; [cbn in Hb; lia|done].
Qed.

Lemma tracks_clone seg ov l : tracks seg ov l -> tracks seg (clone_state ov) l.
Proof. intros (B & s & H1 & H2 & H3 & [K1 [K2 K2'] K3 K4 K5 K6] & H5). exists B, s. split_and!; try done. Qed.

(** A fold gives a store that has seen the log of the snapshot. *)
Lemma tracks_fold seg ov l : content_ok c -> tracks seg ov l -> assets_ok c [fld] (after_log l) -> (forall r, compact_with seg ov = Ok r -> blen r.2 < 2 ^ 63) ->
  exists r base seg', compact_with seg ov = Ok r /\ open r.2 = Ok base /\ from_base base [fld] = Ok seg' /\ tracks seg' overlay_default l.
Proof.
  intros Hc (B & s & H1 & H2 & H3 & H4 & H5) Ha Hsize.
  assert (Ha' : assets_ok c [fld] (as_map s)) by (eapply assets_ok_same; [symmetry; exact H5|done]).
  destruct (compact_ok seg B c fld s _ ov H1 H2 Hc H3 H4 Ha') as (st & file & base & seg' & K1 & K2 & K3 & K4 & K5 & K6 & K7); [intros st file E; apply (Hsize _ E)|].
  exists (st, file), base, seg'. split_and!; [done|done|done|]. exists (remint (as_map s)), (spec_init (remint (as_map s))). rewrite K4. split_and!; [done|done|done| |].
  - eapply live_ok_used; [|apply live_ok_default]. intros id. rewrite remint_dom, elem_of_dom. intros Hid. by apply (asset_used B s _ ov H4).
  - etransitivity; [apply remint_same|done].
Qed.

(** ** The invariant *)
Context (seg0 : LiveSeg) (chain : list (Z * list Delta)).
Context (Hb0 : base_ok seg0 B0) (Hcar0 : carries (ls_base seg0) c B0) (Hc : content_ok c) (Hf0 : ls_facet_fields seg0 = [fld]).
Context (Hlog : log_ok (dom B0) (entries chain).*2) (Hsorted : StronglySorted (fun x y => x.1 < y.1) chain) (Hpos : Forall (fun blk => 0 < blk.1) chain).
Context (Hassets : forall n, assets_ok c [fld] (assets_after B0 (take n chain))) (Hcount : blen (entries chain) <= u64_max).

(** The log of the first blocks. *)
Definition log_of (n : nat) : list (Z * Delta) := entries (take n chain).

(** A number below every block that is not committed yet. *)
Definition future (n : nat) (b : Z) : Prop := Forall (fun blk => b < blk.1) (drop n chain).

Lemma log_of_S n blk ds : chain !! n = Some (blk, ds) -> log_of (S n) = log_of n ++ block_entries (blk, ds).
Proof. intros H. unfold log_of. rewrite (take_S_r chain n _ H), entries_app. f_equal. unfold entries. cbn. apply app_nil_r. Qed.

Lemma log_of_prefix n : exists l, entries chain = log_of n ++ l.
Proof. exists (entries (drop n chain)). unfold log_of. by rewrite <- entries_app, take_drop. Qed.

Lemma log_of_ok n l l' : log_of n = l ++ l' -> log_ok (used_after (dom B0) l.*2) l'.*2.
Proof. intros E. destruct (log_of_prefix n) as [k Ek]. pose proof Hlog as H. rewrite Ek, E, <- app_assoc, !fmap_app in H. apply log_ok_app in H as [_ H]. by apply log_ok_app in H as [H _]. Qed.

Lemma log_of_sorted n l l' : log_of n = l ++ l' -> StronglySorted block_le l'.
Proof.
  intros E. destruct (log_of_prefix n) as [k Ek]. pose proof (entries_sorted chain Hsorted) as H. rewrite Ek, E, <- app_assoc in H.
  apply StronglySorted_app_1_r in H. by apply StronglySorted_app_1_l in H.
Qed.

Lemma log_of_count n l l' : log_of n = l ++ l' -> blen l' <= u64_max.
Proof.
  intros E. destruct (log_of_prefix n) as [k Ek]. pose proof Hcount as H. rewrite Ek, E, !blen_app in H. pose proof (blen_nonneg l). pose proof (blen_nonneg k). lia.
Qed.

Lemma next_log_ok n blk ds : chain !! n = Some (blk, ds) -> log_ok (used_after (dom B0) (log_of n).*2) ds.
Proof.
  intros H. pose proof (log_of_ok (S n) _ _ (log_of_S n blk ds H)) as H'. unfold block_entries in H'. cbn [fst snd] in H'. rewrite <- list_fmap_compose in H'. by rewrite list_fmap_id in H'.
Qed.

Lemma future_next n b blk ds : chain !! n = Some (blk, ds) -> future n b -> b < blk.
Proof. intros H Hf. unfold future in Hf. rewrite (drop_S chain _ n H) in Hf. by apply Forall_cons_1 in Hf as [Hf _]. Qed.

Lemma future_S n b : future n b -> future (S n) b.
Proof.
  unfold future. destruct (chain !! n) as [x|] eqn:E; [rewrite (drop_S chain x n E); by intros [_ H]%Forall_cons_1|]. intros _. apply lookup_ge_None in E. by rewrite drop_ge by lia.
Qed.

Lemma future_done n e : e ∈ log_of n -> future n e.1.
Proof.
  intros [ds He]%entries_elem. apply list.Forall_forall. intros blk Hb. pose proof Hsorted as H. rewrite <- (take_drop n chain) in H.
  apply (StronglySorted_app_1_elem_of _ _ _ _ _ H He Hb).
Qed.

Lemma future_block n blk ds : chain !! n = Some (blk, ds) -> future (S n) blk.
Proof.
  intros H. apply list.Forall_forall. intros x Hx. pose proof Hsorted as Hs. rewrite <- (take_drop (S n) chain), (take_S_r chain n _ H), <- app_assoc in Hs.
  apply StronglySorted_app_1_r in Hs. apply StronglySorted_inv in Hs as [_ Hs]. rewrite list.Forall_forall in Hs. by apply (Hs x).
Qed.

Lemma future_hwm n ov' (r : list (Z * Delta)) hwm : (forall b, hwm <= b -> Forall (fun e => e.1 <= b) r -> ov_hwm_block ov' <= b) -> future n hwm ->
  (forall e, e ∈ r -> e ∈ log_of n) -> future n (ov_hwm_block ov').
Proof.
  intros H Hh Hr. unfold future in *. rewrite list.Forall_forall in Hh |- *. intros blk Hb. specialize (Hh blk Hb). assert (ov_hwm_block ov' <= blk.1 - 1); [|lia]. apply H; [lia|].
  apply list.Forall_forall. intros e He. pose proof (future_done n e (Hr e He)) as Hf. unfold future in Hf. rewrite list.Forall_forall in Hf. specialize (Hf blk Hb). lia.
Qed.

(** What is in the log of the published store beyond the log [l] is above [t]. *)
Definition behind (st : Server) (l : list (Z * Delta)) (t : Z) : Prop :=
  exists w l', log_of (sv_done st) = l ++ l' /\ ov_wal (sv_ov st) = w ++ l' /\ Forall (fun e => e.1 <= t) w /\ Forall (fun e => t < e.1) l' /\ future (sv_done st) t.

(** A store that keeps the end of its log. *)
Definition keeps (n : nat) (ov : Overlay) (l : list (Z * Delta)) : Prop :=
  (exists w, l = w ++ ov_wal ov) /\ Forall (fun e => e.1 <= ov_hwm_block ov) (ov_wal ov) /\ future n (ov_hwm_block ov).

Definition compactor_ok (st : Server) : Prop :=
  match sv_compactor st with
  | Resting => True
  | Snapped seal snap => exists m, behind st (log_of m) seal /\ tracks (sv_seg st) snap (log_of m)
  | CatchUp seg ov t | Final seg ov t => exists l, behind st l t /\ tracks seg ov l /\ keeps (sv_done st) ov l
  end.

Record server_ok (st : Server) : Prop := {
  so_tracks : tracks (sv_seg st) (sv_ov st) (log_of (sv_done st));
  so_keeps : keeps (sv_done st) (sv_ov st) (log_of (sv_done st));
  so_applier : match sv_applier st with
    | Some (g, p) => (g <= sv_gen st)%nat /\ (g = sv_gen st -> exists blk ds, chain !! sv_done st = Some (blk, ds) /\ prepare_block (sv_seg st) blk ds = Ok p)
    | None => True
    end;
  so_compactor : compactor_ok st
}.

Lemma start_ok : server_ok (server_start seg0).
Proof.
  split; try done.
  - exists B0, (spec_init B0). split_and!; [done|done|done|apply live_ok_default|done].
  - split; [by exists []|]. split; [constructor|done].
Qed.

Lemma prepare_ok st r : server_ok st -> applier_prepare chain st = Some r -> exists st', r = Ok st' /\ server_ok st'.
Proof.
  intros [H1 H2 H3 H4] E. unfold applier_prepare in E. destruct (sv_applier st); [done|]. destruct (chain !! sv_done st) as [[blk ds]|] eqn:Ec; [|done]. injection E as <-.
  destruct (tracks_prepare _ _ _ blk ds H1) as [p Hp]. rewrite Hp. cbn [rbind]. eexists. split; [done|]. split; [done|done| |done]. cbn [sv_applier sv_gen sv_done sv_seg].
  split; [done|]. intros _. by exists blk, ds.
Qed.

Lemma behind_commit st blk ds l t ov' : chain !! sv_done st = Some (blk, ds) -> ov_wal ov' = ov_wal (sv_ov st) ++ block_entries (blk, ds) -> behind st l t ->
  behind (mkServer (sv_gen st) (sv_seg st) ov' (S (sv_done st)) None (sv_compactor st)) l t.
Proof.
  intros Ec Ew (w & l' & E1 & E2 & E3 & E4 & E5). exists w, (l' ++ block_entries (blk, ds)). cbn [sv_done sv_ov]. rewrite (log_of_S _ _ _ Ec), E1, Ew, E2, <- !app_assoc. split_and!; try done.
  - apply Forall_app_2; [done|]. apply list.Forall_forall. intros e (d & -> & _)%list_elem_of_fmap. cbn [fst]. by apply (future_next _ _ _ _ Ec).
  - by apply future_S.
Qed.

Lemma commit_step_ok st r : server_ok st -> applier_commit st = Some r -> exists st', r = Ok st' /\ server_ok st'.
Proof.
  intros [H1 (K1 & K2 & K3) H3 H4] E. unfold applier_commit in E. destruct (sv_applier st) as [[g p]|]; [|done]. injection E as <-. eexists. split; [done|]. case_bool_decide as Hg.
  2:{ split; try done; split; done. }
  destruct H3 as [_ H3]. destruct (H3 Hg) as (blk & ds & Ec & Hp). destruct (tracks_commit _ _ _ blk ds p H1 Hp (next_log_ok _ _ _ Ec)) as (C1 & C2 & C3).
  split; cbn [sv_seg sv_ov sv_done sv_applier sv_gen].
  - by rewrite (log_of_S _ _ _ Ec).
  - rewrite (log_of_S _ _ _ Ec). destruct K1 as [w Ew]. unfold keeps. rewrite C2, C3. split; [exists w; by rewrite Ew at 1; rewrite app_assoc|]. split.
    + apply Forall_app_2; [eapply list.Forall_impl; [exact K2|]; cbn beta; intros e He; lia|]. apply list.Forall_forall. intros e (d & -> & _)%list_elem_of_fmap. cbn [fst]. lia.
    + pose proof (future_next _ _ _ _ Ec K3). rewrite Z.max_r by lia. by apply (future_block _ _ ds).
  - done.
  - unfold compactor_ok in *. cbn [sv_compactor sv_seg sv_done]. destruct (sv_compactor st) as [|seal snap|seg ov t|seg ov t]; [done| | |].
    + destruct H4 as (m & Hbh & Ht). exists m. split; [by apply (behind_commit st blk ds)|done].
    + destruct H4 as (l & Hbh & Ht & M1 & M2 & M3). exists l. split; [by apply (behind_commit st blk ds)|]. split; [done|]. split; [done|]. split; [done|]. by apply future_S.
    + destruct H4 as (l & Hbh & Ht & M1 & M2 & M3). exists l. split; [by apply (behind_commit st blk ds)|]. split; [done|]. split; [done|]. split; [done|]. by apply future_S.
Qed.

(** What the new store replays it has not seen, and then it has. *)
Lemma behind_replay st seg ov l t max : behind st l t -> tracks seg ov l -> keeps (sv_done st) ov l ->
  exists ov' r2, replay seg (wal_after (sv_ov st) t max) ov = Ok ov' /\ log_of (sv_done st) = (l ++ wal_after (sv_ov st) t max) ++ r2 /\
    (u64_max <= max -> r2 = []) /\ tracks seg ov' (l ++ wal_after (sv_ov st) t max) /\ keeps (sv_done st) ov' (l ++ wal_after (sv_ov st) t max) /\
    (forall e, list.last (wal_after (sv_ov st) t max) = Some e -> behind st (l ++ wal_after (sv_ov st) t max) e.1).
Proof.
  intros (w & l' & E1 & E2 & E3 & E4 & E5) Ht ([w0 Ew0] & K2 & K3). pose proof (log_of_sorted _ _ _ E1) as Hs. pose proof (log_of_count _ _ _ E1) as Hn.
  destruct (wal_after_split (sv_ov st) t max w l' E2 E3 E4 Hs) as (r2 & El & Hmax & Hlast). set (r := wal_after (sv_ov st) t max) in *.
  assert (Hr : log_ok (used_after (dom B0) l.*2) r.*2).
  { pose proof (log_of_ok (sv_done st) l l' E1) as H. rewrite El, fmap_app in H. by apply log_ok_app in H as [H _]. }
  destruct (tracks_replay seg r ov l Ht Hr) as (ov' & Er & R1 & R2 & R3 & R4 & R5). exists ov', r2. split; [done|]. split; [by rewrite E1, El, app_assoc|]. split; [intros Hm; apply Hmax; lia|]. split; [done|].
  assert (Hin : forall e, e ∈ r -> e ∈ log_of (sv_done st)) by (intros e He; rewrite E1, El; set_solver). split.
  - split; [exists w0; by rewrite Ew0, R2, app_assoc|]. split; [|by apply (future_hwm _ _ r (ov_hwm_block ov))]. rewrite R2. apply Forall_app_2; [|done].
    eapply list.Forall_impl; [exact K2|]. cbn beta. intros e He. lia.
  - intros e He. destruct (Hlast e He) as [L1 L2]. exists (w ++ r), r2. split_and!; [by rewrite E1, El, app_assoc|by rewrite E2, El, app_assoc| |done|].
    + apply Forall_app_2; [|done]. assert (Hte : t < e.1).
      { rewrite list.Forall_forall in E4. apply E4. rewrite El. apply last_Some in He as [r' ->]. set_solver. }
      eapply list.Forall_impl; [exact E3|]. cbn beta. intros x Hx. lia.
    + apply future_done, Hin. apply last_Some in He as [r' ->]. set_solver.
Qed.

Lemma compactor_turn_ok st : server_ok st -> fold_fits st -> exists st', compactor_turn [fld] st = Ok st' /\ server_ok st'.
Proof.
  intros [H1 H2 H3 H4] Hfit. unfold compactor_turn, compactor_ok, fold_fits in *. destruct (sv_compactor st) as [|seal snap|seg ov t|seg ov t].
  - eexists. split; [done|]. split; [done|done|done|]. destruct H2 as ([w Ew] & K2 & K3). exists (sv_done st). cbn [sv_seg with_compactor]. split; [|by apply tracks_clone].
    exists (ov_wal (sv_ov st)), []. cbn [sv_done sv_ov with_compactor]. rewrite !app_nil_r. split_and!; done || constructor.
  - destruct H4 as (m & Hbh & Ht). destruct (tracks_fold _ _ _ Hc Ht (Hassets m) Hfit) as (r & base & seg' & -> & F2 & F3 & F4). cbn [rbind]. rewrite F2. cbn [rbind]. rewrite F3. cbn [rbind].
    eexists. split; [done|]. split; [done|done|done|]. exists (log_of m). split; [exact Hbh|]. split; [done|]. split; [exists (log_of m); by rewrite app_nil_r|]. split; [constructor|].
    cbn [sv_done with_compactor overlay_default ov_hwm_block]. unfold future. by apply Forall_drop.
  - destruct H4 as (l & Hbh & Ht & Hk). destruct (Z.leb_spec (blen (wal_after (sv_ov st) t DRAIN_BATCH)) FINAL_BATCH) as [Hle|Hgt].
    + eexists. split; [done|]. split; [done|done|done|]. by exists l.
    + destruct (behind_replay st seg ov l t DRAIN_BATCH Hbh Ht Hk) as (ov' & r2 & -> & R1 & _ & R3 & R4 & R5). cbn [rbind]. destruct (list.last _) as [e|] eqn:El.
      2:{ apply last_None in El. rewrite El in Hgt. done. }
      cbn [or_panic rbind]. eexists. split; [done|]. split; [done|done|done|]. eexists. split; [exact (R5 e eq_refl)|]. by split.
  - destruct H4 as (l & Hbh & Ht & Hk). destruct (behind_replay st seg ov l t u64_max Hbh Ht Hk) as (ov' & r2 & -> & R1 & R2 & R3 & R4 & _). cbn [rbind]. rewrite (R2 ltac:(lia)), app_nil_r in R1.
    eexists. split; [done|]. rewrite <- R1 in R3, R4. split; [done|done| |done]. cbn [sv_applier sv_gen]. destruct (sv_applier st) as [[g p]|]; [|done]. destruct H3 as [H3 _]. split; lia.
Qed.

Lemma reachable_ok st : reachable chain [fld] seg0 st -> server_ok st.
Proof.
  induction 1 as [|st st' _ IH Hs]; [apply start_ok|]. destruct Hs as [st st' E|st st' E|st st' Hf E].
  - destruct (prepare_ok st _ IH E) as (st1 & [= <-] & H). done.
  - destruct (commit_step_ok st _ IH E) as (st1 & [= <-] & H). done.
  - destruct (compactor_turn_ok st IH Hf) as (st1 & E' & H). rewrite E in E'. by injection E' as <-.
Qed.
End Tracking.

(** ** Properties *)


(** *** A run *)

Inductive turn := Prepares | Commits | Compacts.

Definition exs_turn (t : turn) (st : Server) : option Server :=
  match t with
  | Prepares => match applier_prepare exl_history st with Some (Ok st) => Some st | _ => None end
  | Commits => match applier_commit st with Some (Ok st) => Some st | _ => None end
  | Compacts =>
      match sv_compactor st with
      | Snapped _ snap =>
          match compact_with (sv_seg st) snap with
          | Ok r => if blen r.2 <? 2 ^ 63 then match compactor_turn [exl_fld] st with Ok st => Some st | _ => None end else None
          | _ => None
          end
      | _ => match compactor_turn [exl_fld] st with Ok st => Some st | _ => None end
      end
  end.

Fixpoint exs_run (ts : list turn) (st : Server) : option Server :=
  match ts with
  | [] => Some st
  | t :: ts => match exs_turn t st with Some st => exs_run ts st | None => None end
  end.

Lemma exs_turn_step t st st' : exs_turn t st = Some st' -> step exl_history [exl_fld] st st'.
Proof.
  unfold exs_turn. destruct t.
  - destruct (applier_prepare exl_history st) as [[s| |]|] eqn:E; try done. intros <-%(inj Some). by apply step_prepare.
  - destruct (applier_commit st) as [[s| |]|] eqn:E; try done. intros <-%(inj Some). by apply step_commit.
  - destruct (sv_compactor st) eqn:Ec.
    2:{ destruct (compact_with (sv_seg st) snap) as [r| |] eqn:Er; try done. destruct (Z.ltb_spec (blen r.2) (2 ^ 63)) as [Hlt|]; [|done].
        destruct (compactor_turn [exl_fld] st) as [s| |] eqn:E; try done. intros <-%(inj Some). apply step_compactor; [|exact E]. unfold fold_fits. rewrite Ec, Er. by intros r' <-%Ok_inj. }
    all: destruct (compactor_turn [exl_fld] st) as [s| |] eqn:E; try done; intros <-%(inj Some); apply step_compactor; [unfold fold_fits; by rewrite Ec|exact E].
Qed.

Lemma exs_run_reachable seg ts : forall st st', reachable exl_history [exl_fld] seg st -> exs_run ts st = Some st' -> reachable exl_history [exl_fld] seg st'.
Proof.
  induction ts as [|t ts IH]; intros st st' Hr; cbn [exs_run]; [by intros <-%(inj Some)|]. destruct (exs_turn t st) as [s|] eqn:E; [|done]. apply IH.
  apply (reach_step _ _ _ _ _ Hr). by apply (exs_turn_step t).
Qed.

(** The applier prepares its second block before the swap, and has to prepare it again. *)
Definition exs_turns : list turn := [Compacts; Prepares; Commits; Compacts; Compacts; Prepares; Compacts; Commits; Prepares; Commits].
Definition exs_state : Server := match exs_run exs_turns (server_start exl_seg) with Some st => st | None => server_start exl_seg end.

Lemma exs_reachable : reachable exl_history [exl_fld] exl_seg exs_state.
Proof.
  assert (H : exists st, exs_run exs_turns (server_start exl_seg) = Some st).
  { destruct (exs_run exs_turns (server_start exl_seg)) as [st|] eqn:E; [by exists st|]. exfalso.
    assert (E' : match exs_run exs_turns (server_start exl_seg) with Some _ => true | None => false end = true) by (vm_compute; reflexivity). rewrite E in E'. discriminate E'. }
  destruct H as [st E]. unfold exs_state. rewrite E. apply (exs_run_reachable _ exs_turns (server_start exl_seg)); [constructor|exact E].
Qed.

#[local] Opaque exl_name exl_facet facet_of.

Lemma exs_assets_ok n : assets_ok exl_content [exl_fld] (assets_after exl_assets (take n exl_history)).
Proof.
  destruct n as [|[|n]].
  - exact exl_assets_ok.
  - apply assets_ok_few; [|vm_compute; congruence].
    assert (E : map_to_list (assets_after exl_assets (take 1 exl_history)) =
      [(9, exl_asset 2 7 2 "Rare"); (5, exl_asset 1 7 1 "Epic");
       (3, mkLive 2 (exl_name "hero") (exl_name "card") (-1) 100 0 (exl_facet "Rare") [(0, exr_text "Ana")] [(1, exr_text "Rare")]);
       (12, mkLive 1 (exl_name "hero") (exl_name "card") 7 100 3 (exl_facet "Epic") [] [(1, exr_text "Epic")])]) by (vm_compute; reflexivity).
    rewrite E. unfold exl_asset. repeat apply Forall_cons_2; [concrete_asset|concrete_asset|concrete_asset|concrete_asset|constructor].
  - rewrite take_ge by (cbn [exl_history length]; lia). exact exl_after_ok.
Qed.

